(* ===== verification/_CoqProject ===== *)
-Q . S2P
Prelude.v
GoValue.v
Response.v
Wire.v
FlowControl.v
Commands.v
Hashes.v
Routing.v
Normalize.v
Topology.v
ScatterPlan.v
Order.v
Scatter.v
ScatterTyped.v
Frame.v
Assembler.v
Errors.v
Retry.v
Connection.v
CompactPipeline.v
Pipeline.v
SessionGate.v
Validation.v
Transaction.v
Compact.v
CompactBatch.v
FlowQuery.v
FlowExplain.v
CompactResponse.v
Contract.v
AutoBatch.v
FlowTypes.v
FlowValidation.v
FlowQueryText.v
FlowQueryLex.v
FlowQueryWire.v
FlowNative.v
FlowOptions.v
FlowClient.v
FlowRoutes.v
FlowReads.v
FlowBatches.v
FlowCompact.v
FlowRecords.v
Streams.v
Durable.v
Workflow.v
Queue.v
Worker.v
Policy.v
Snapshot.v
Buffered.v
HttpEnvelope.v
HttpRedirect.v
HttpExecutor.v
PubSub.v
PubSubReplay.v
PubSubEvents.v
