(* ===== verification/Prelude.v ===== *)
(** * FerricStore Go SDK: a verification library

    The SDK turns calls of a program into requests of the native protocol, routes
    them to the shards of a cluster and turns responses into Go values. This
    library models its core; theorems that are claims about the program carry an
    id, C1 to C40.

    ** Parts and how they interact

    - _Values and bytes_. [GoValue]: dynamic values and their coercions
      (command_validation.go, topology_routing.go, response_coerce.go).
      [Wire]: the value encoding (native_codec_wire.go, native_codec_decode.go),
      proved against a byte language. [Response], [Normalize]: scalar responses and
      the normalisation of maps (response.go, response_map.go, admin_response.go).
    - _Frames and responses_. [Frame], [Assembler]: frames, chunked responses and
      their limits (native_frame.go, native_response.go). [Compact], [CompactBatch],
      [CompactResponse]: the compact payload codecs (native_compact*.go) and the
      choice of one; [CompactResponse.decodeNativeCompactResponseWithMode] is the
      decoder [Assembler] takes as a parameter. [FlowQuery], [FlowExplain]:
      FLOW.QUERY results, diagnostics and plans (native_flow_query_*_codec.go,
      flow_query_*response.go, flow_query_diagnostic_contract.go).
    - _Connections_. [Contract]: what HELLO negotiates (native_server_contract.go,
      native_flow_query_contract.go, native_policy_contract.go, native_limits.go).
      [FlowControl]: credits and queues of waiting requests (native_limits.go).
      [Connection]: the map of requests in flight, its reader and the life of a
      connection (native_pending.go, native_reader.go, native.go). [Errors], [Retry]:
      what an error says about delivery, and the retry loop of one request
      (native_retry.go, request_delivery.go, durable_mutation_delivery.go,
      native_request.go).
    - _Routing_. [Commands], [Hashes], [Routing]: commands, their keys and slots
      (topology_command_policy.go, topology_routing.go, topology_flow_routing.go,
      internal_key.go). [Topology]: the slot table built from a server's answer
      (topology_build.go, topology_equal.go). [ScatterPlan], [Order], [Scatter],
      [ScatterTyped]: commands with keys on several shards (topology_snapshot.go,
      topology_kv_route.go, topology_scatter*.go, topology_kv.go, topology_errors.go).
    - _Many commands_. [CompactPipeline], [Pipeline]: pipelines (native_pipeline.go).
      [AutoBatch]: the executor that gathers concurrent
      commands into pipelines (auto_batch*.go).
    - _Transactions_. [SessionGate], [Transaction]: the gate between requests and
      transactions, and the sessions that pin a connection (session.go,
      transaction.go, topology_transaction_session.go). [Validation]: commands and
      options before they leave the client (command_validation.go, set_command.go).
    - _Flow commands_. [FlowTypes], [FlowValidation]: the options of every Flow call
      and what is refused (types.go, types_flow_operations.go, client_flow_*_validation.go,
      flow_contract_validation.go, flow_max_active.go). [FlowOptions], [FlowClient],
      [FlowReads], [FlowBatches]: the arguments each call makes of its options
      (client.go, client_flow*.go, flow_admin_read.go), proved against the request the
      options describe. [FlowNative]: how arguments are read back into the opcode and the
      payload that is sent (native_flow.go, native_flow_options.go, native_flow_query.go,
      native_flow_many.go, native_flow_extended.go, native_flow_admin.go,
      native_flow_schedule.go, native_flow_value_*.go). [FlowCompact]: the compact payloads
      of claims and batches (native_flow_payload.go, native_flow_compact_client.go).
      [FlowRoutes]: the arguments of a mutation, routed by [Routing], and the keys that hold
      its flow.
      [FlowRecords]: records, claims and acknowledgements read from responses
      (flow_record_response.go, flow_claim_response.go). [Policy]: the policy of a type, set
      and read back (client_flow_policy.go, flow_policy_response.go).
    - _Work on flows_. [Durable]: steps whose result is stored with the move they make
      (client_durable_step.go), against a class [Service] of servers. [Workflow]: handlers,
      their durable steps and their outcome (workflow.go, workflow_durable_step.go).
      [Queue]: handlers of a worker beside the batches of completions (queue.go).
      [Worker]: rounds, their loops and background workers (workflow.go, queue.go,
      worker_lifecycle.go).
    - _Commands that wait_. [Snapshot]: copies of arguments in Go's memory
      (command_snapshot.go). [Buffered]: the executor that queues until a flush
      (buffered.go, buffered_capacity.go).
    - _Streams_. [Streams]: the store of streams, from entry IDs to consumer groups
      (stores_stream_*.go), against a class [StreamServer].
    - _HTTP_. [HttpEnvelope]: commands and results as JSON documents (http_envelope.go).
      [HttpRedirect]: credentials, options and the redirect policy (http_options.go,
      http_redirect.go). [HttpExecutor]: one request and its delivery (http_executor.go,
      http_deadline.go), against a class [HTTPWorld].
    - _Flow queries_. [FlowQueryText]: the builder of FLOW.QUERY texts, their parameters and
      projections (flow_query_builder.go, flow_query_request.go, flow_query_projection.go).
      [FlowQueryLex]: a lexer of the query language as the code writes it, and what every
      built text says. [FlowQueryWire]: the typed payload of a query and its size
      (native_flow_query_request.go).
    - _Pub/Sub_. [PubSub]: acknowledgements, messages and events (pubsub_decode.go).
      [PubSubReplay]: what a view tracks and how it is replayed behind a new
      connection (pubsub.go, pubsub_replay.go). [PubSubEvents]: the callers that share
      one stream of events (pubsub_events.go).

    A component is used by the next through its definitions or through a parameter
    the next one's file names: the pipelines and the scattered commands take the
    connection below as an oracle, the transactions take the server. What is outside the
    client ([Service], [StreamServer], [HTTPWorld]) is a class; where a theorem needs its
    documented behaviour, the laws are hypotheses with an instance that has them.

    ** How the code is modelled

    - A Go map is a list of entries with distinct keys where ranging over it shows,
      a [gmap] elsewhere. A slice or map in an argument keeps its identity, which
      the encoder's cycle check reads.
    - Machine integers are [Z] with the wrap-around written out; conversions and
      overflow checks are those of the code.
    - Errors are values. A file names the errors its theorems tell apart.
    - Code under a mutex is one step. Concurrent components ([FlowControl],
      [Connection], [SessionGate], [Transaction], [AutoBatch], [PubSubEvents], [Queue],
      [Worker], [Buffered]) are step relations: goroutines interleave critical sections,
      and theorems hold for all reachable states.
    - A user's handler is the tree of what it asks of the client and how it goes on with
      each answer; a theorem holds for every tree.
    - Memory that is shared matters where arguments are copied: [Snapshot] has a store of
      variables, backing arrays and maps, and values that refer to it as [reflect] sees
      them.
    - A JSON document is a tree; what the standard library's encoder does to text and
      numbers is modelled where it changes them, the bytes of a document are not. Messages
      built with [fmt] are abridged to their constant part.
    - [FlowControl] keeps an intrusive list as the list of its waiters. Fields of the
      executor that live and die with its connection (reader, writer, controller,
      connectionDone; goAwayDone with the draining mark) have no field of their own
      in [Connection].

    ** Bounds and fuel

    Recursion over payloads is bounded by the code's own depth and item limits, and
    where the model carries fuel a theorem says it is enough: reading a stream, its
    length; planning, the eight attempts of the code; a pipeline, the number of its
    commands; a request, the bound [Retry.request_ends] proves; the search of
    [CompactBatch], the code's bound on attempts, after which both fail; a copy of
    arguments, two more than the 64 levels the code allows ([Snapshot.snapshot_ends]).

    ** Groups of theorems

    - Requests: what a Flow call sends is the request its options describe, whether its
      arguments are read back by the native builders or written in the compact form, and
      the text of a query says what its options say and nothing else; a policy the call
      accepts grants what was asked.
    - Work: a step commits once and what it returns is what is stored; every mutation of a
      workflow carries the fencing token of its latest claim; every job a worker claims is
      settled once and counted once, and the worker ends.
    - HTTP: an error says a request was not sent exactly if it was not; values cross the
      envelope unchanged; under the policy of a client the SDK makes, headers and bodies
      reach no other origin (scheme, host and effective port).
    - Streams: what was added is read back; replies are accepted exactly when they have the
      documented form and order.
    - Round trips and exactness: values (C1), chunked responses, frames, SET options,
      compact codecs against each other and against reference readers.
    - Refinement: scattered and typed commands and pipelines return what a single
      server executing the commands would, for every completion order and retry. The server
      of a pipeline keeps a state, reads compact payloads with a reader of its own
      ([CompactPipeline.readPipeline]) and answers commands in order.
    - Routing: a mutation goes to the slot of the keys that hold the flow it names.
    - Safety and liveness of concurrent parts: one reply per request, credits
      conserved, no lost wakeup, one holder of the gate, one place for every batched
      request, termination of the loop behind Close. Subscriptions are restored behind a new
      connection, but for the topics [PubSubReplay.reach] names: those of requests that
      failed and may have been executed, and those tracked before a call whose connection
      was replaced unnoticed.
    - Bounds: containers, reassembly buffers, compact plans, negotiated limits.
    - Delivery: a request that may have been executed is not repeated unless its method
      allows it or it is given the error of another request ([Retry.misled]); the loop ends
      within the retries and the turns draining connections took away; the report of
      partial failures of a pipeline whose commands can be built; and the cases where the
      code misreports (PROJECT.json lists them as findings), among them the heartbeat that
      makes a connection close with an error that says nothing was sent
      ([Connection.heartbeat_repeats_sent_request]).

    ** Not modelled

    - [strings.ToUpper] and [strings.EqualFold] are modelled on ASCII; [fmt.Sprint]
      of values that are not text is a parameter.
    - User codecs, reflection over Go types, [map[any]any] and [[]string] forms of
      responses, which only such codecs produce.
    - Builders of commands that are not Flow commands (native_command.go and what it
      calls): a parameter of [Pipeline], [Scatter] and [Retry]. Pipelines without a limit
      on commands.
    - In the Flow commands, the codec of user values, the clock and the order in which a
      codec sees a map are parameters. The create-many and spawn-children payloads with
      values per item are defined and their errors too, but proved exact only in the forms
      [FlowBatches.batchRequest] describes.
    - Dialling, TLS, authentication of connections and platform credentials; topology
      refresh; coordination; one-line client methods; the stores other than streams;
      schedules, governance and probabilistic structures.
    - Of HTTP: the settings of the transport, the text and the unwrapped causes of redirect
      errors, errors of the encoder and of the construction of requests, and the time
      budget of blocking commands, which acts through [HTTPWorld].
    - In [Durable] and [Workflow], commands a user's closure sends on its own: they are
      part of what the world does meanwhile. In [Worker] and [Queue], time: a timer may
      fire at any step. In [Streams], the compact form of a status.
    - In [Transaction], the gate of the legacy session: the theorems hold for every
      interleaving. The documented behaviour of the transaction commands is a record
      of hypotheses with an instance. Commands nested in COMMAND_EXEC are not opened.
    - In [PubSubReplay], the wait for an event and the choice of another executor are
      an oracle; generations do not wrap; an executor that is given up for another one
      has lost its connection. Payloads of event subscriptions are those of the public
      calls, for which cloning is the identity and [reflect.DeepEqual] equality.
    - In [FlowQuery], which error is returned when both codecs fail is not compared. *)

(** Shared vocabulary of the development.

    - [gstr]: a Go string or [[]byte], as the list of its bytes, with literals
      written [go "SET"];
    - [result]: Go's [(T, error)] return values, with the notation
      [let! x := m in k] for the [if err != nil { return err }] idiom;
    - machine integers: values are [Z], the wrap-around of a [w]-bit width is
      written out with [wrap w] and [swrap w];
    - big-endian fields ([encoding/binary]): [be_encode], [be_decode] and their
      round trips;
    - byte-wise string order (the order of Go's [<] on strings) and sorting by
      key, as [sort.Strings] is used by the encoders;
    - the tactics [inv_result], [split_guard] and [by_vm] (closed equations by
      evaluation) and the hint database [ferric]. *)

From stdpp Require Export base list strings gmap sorting.
From Stdlib Require Export ZArith Lia Strings.Byte.
From Stdlib Require String.

#[global] Open Scope Z_scope.

Declare Scope go_scope.
Delimit Scope go_scope with go.
#[global] Open Scope go_scope.

Create HintDb ferric.
Create Rewrite HintDb ferric.

(** ** Bytes and strings *)

#[global] Instance byte_eq_dec : EqDecision byte := Byte.byte_eq_dec.

#[global] Program Instance byte_countable : Countable byte :=
  inj_countable' Byte.to_N (fun n => default x00 (Byte.of_N n)) _.
Next Obligation. intros b. cbn. by rewrite Byte.of_to_N. Qed.

Abbreviation gstr := (list byte).

Definition go (text : String.string) : gstr := String.list_byte_of_string text.
Arguments go text%_string : simpl never.

Definition byteZ (b : byte) : Z := Z.of_N (Byte.to_N b).
Definition Zbyte (z : Z) : byte := default x00 (Byte.of_N (Z.to_N (z mod 256))).

Lemma byteZ_range b : 0 <= byteZ b < 256.
Proof. unfold byteZ. pose proof (Byte.to_N_bounded b). lia. Qed.

Lemma byteZ_Zbyte z : byteZ (Zbyte z) = z mod 256.
Proof.
  unfold byteZ, Zbyte.
  pose proof (Z.mod_pos_bound z 256 ltac:(lia)) as Hb.
  destruct (Byte.of_N (Z.to_N (z mod 256))) as [b|] eqn:E; cbn.
  - apply Byte.to_of_N in E. rewrite E. lia.
  - apply Byte.of_N_None_iff in E. lia.
Qed.

Lemma Zbyte_byteZ b : Zbyte (byteZ b) = b.
Proof.
  unfold Zbyte. rewrite Z.mod_small by apply byteZ_range.
  unfold byteZ. rewrite N2Z.id, Byte.of_to_N. done.
Qed.

Lemma byteZ_inj b1 b2 : byteZ b1 = byteZ b2 -> b1 = b2.
Proof. intros H. rewrite <- (Zbyte_byteZ b1), <- (Zbyte_byteZ b2). by f_equal. Qed.

Lemma Zbyte_small z : 0 <= z < 256 -> byteZ (Zbyte z) = z.
Proof. intros ?. rewrite byteZ_Zbyte. by apply Z.mod_small. Qed.

(** Length of a Go string or slice as the [int] Go's [len] returns. *)
Definition blen {A} (l : list A) : Z := Z.of_nat (length l).

Lemma blen_nil {A} : blen (@nil A) = 0.
Proof. done. Qed.

Lemma blen_cons {A} (x : A) l : blen (x :: l) = 1 + blen l.
Proof. unfold blen. cbn. lia. Qed.

Lemma blen_app {A} (l k : list A) : blen (l ++ k) = blen l + blen k.
Proof. unfold blen. rewrite length_app. lia. Qed.

Lemma blen_nonneg {A} (l : list A) : 0 <= blen l.
Proof. unfold blen. lia. Qed.

Lemma blen_snoc {A} (l : list A) x : blen (l ++ [x]) = blen l + 1.
Proof. rewrite blen_app, blen_cons, blen_nil. lia. Qed.

#[export] Hint Rewrite @blen_nil @blen_cons @blen_app : ferric.
#[export] Hint Resolve blen_nonneg : ferric.

(** Induction on the length of a list, for loops that consume several elements. *)
Lemma list_len_ind {A} (P : list A -> Prop) :
  (forall l, (forall k, (length k < length l)%nat -> P k) -> P l) -> forall l, P l.
Proof.
  intros H l. remember (length l) as n eqn:Hn. revert l Hn.
  induction (lt_wf n) as [n _ IH]. intros l ->. apply H. intros k Hk. by apply (IH _ Hk).
Qed.

(** [data[:n]] and [data[n:]] for an in-range [int]. *)
Definition btake {A} (n : Z) (l : list A) : list A := take (Z.to_nat n) l.
Definition bdrop {A} (n : Z) (l : list A) : list A := drop (Z.to_nat n) l.

Lemma btake_app {A} (l k : list A) n : n = blen l -> btake n (l ++ k) = l.
Proof. intros ->. unfold btake, blen. rewrite Nat2Z.id. apply take_app_length. Qed.

Lemma bdrop_app {A} (l k : list A) n : n = blen l -> bdrop n (l ++ k) = k.
Proof. intros ->. unfold bdrop, blen. rewrite Nat2Z.id. apply drop_app_length. Qed.

Lemma blen_btake {A} n (l : list A) : 0 <= n <= blen l -> blen (btake n l) = n.
Proof. unfold blen, btake. intros. rewrite length_take. lia. Qed.

Lemma blen_bdrop {A} n (l : list A) : 0 <= n <= blen l -> blen (bdrop n l) = blen l - n.
Proof. unfold blen, bdrop. intros. rewrite length_drop. lia. Qed.

Lemma btake_bdrop {A} n (l : list A) : btake n l ++ bdrop n l = l.
Proof. apply take_drop. Qed.

(** ** Results: Go's [(T, error)] *)

Inductive result (E A : Type) : Type :=
| Ok (value : A)
| Err (error : E).
Arguments Ok {E A} value.
Arguments Err {E A} error.

Definition rbind {E A B} (m : result E A) (f : A -> result E B) : result E B :=
  match m with Ok a => f a | Err e => Err e end.

Definition rmap {E A B} (f : A -> B) (m : result E A) : result E B :=
  rbind m (fun a => Ok (f a)).

Definition rguard {E} (b : bool) (e : E) : result E unit :=
  if b then Ok tt else Err e.

Definition is_ok {E A} (m : result E A) : bool :=
  match m with Ok _ => true | Err _ => false end.

Notation "'let!' x ':=' m 'in' k" := (rbind m (fun x => k))
  (at level 10, x pattern, m at level 100, k at level 200) : go_scope.
Notation "'require!' b 'else' e ';' k" := (rbind (rguard b e) (fun _ => k))
  (at level 10, b at level 100, e at level 100, k at level 200) : go_scope.

Lemma rbind_ok {E A B} (m : result E A) (f : A -> result E B) b :
  rbind m f = Ok b <-> exists a, m = Ok a /\ f a = Ok b.
Proof.
  destruct m as [a|e]; cbn; split.
  - eauto.
  - by intros (a' & [= ->] & ?).
  - done.
  - by intros (a' & [=] & _).
Qed.

Lemma rbind_err {E A B} (m : result E A) (f : A -> result E B) e :
  rbind m f = Err e <-> m = Err e \/ exists a, m = Ok a /\ f a = Err e.
Proof.
  destruct m as [a|e']; cbn; split.
  - eauto.
  - by intros [[=]|(a' & [= ->] & ?)].
  - by intros [= ->]; left.
  - intros [[= ->]|(a' & [=] & _)]; done.
Qed.

Lemma rguard_ok {E} b (e : E) x : rguard b e = Ok x <-> b = true.
Proof. by destruct b, x. Qed.

Lemma rguard_true {E} b (e : E) : b = true -> rguard b e = Ok tt.
Proof. by intros ->. Qed.

Lemma rguard_false {E} b (e : E) : b = false -> rguard b e = Err e.
Proof. by intros ->. Qed.

(** Go loops over a slice that return at the first error. *)
Definition rfold {E A S} (f : S -> A -> result E S) : S -> list A -> result E S :=
  fix rfold s l :=
    match l with
    | [] => Ok s
    | a :: l => let! s := f s a in rfold s l
    end.

Lemma rfold_app {E A S} (f : S -> A -> result E S) s l k :
  rfold f s (l ++ k) = let! s' := rfold f s l in rfold f s' k.
Proof. revert s. induction l as [|a l IH]; intros s; cbn; [done|]. destruct (f s a); cbn; auto. Qed.

Lemma rfold_fmap {E A B S} (f : S -> B -> result E S) (g : A -> B) s l :
  rfold f s (g <$> l) = rfold (fun s a => f s (g a)) s l.
Proof. revert s. induction l as [|a l IH]; intros s; cbn; [done|]. destruct (f s (g a)); cbn; auto. Qed.

Lemma rfold_invariant {E A S} (P : S -> Prop) (f : S -> A -> result E S) l s s' :
  (forall s a s', P s -> f s a = Ok s' -> P s') ->
  P s -> rfold f s l = Ok s' -> P s'.
Proof.
  intros Hstep. revert s. induction l as [|a l IH]; intros s Hs; cbn.
  - by intros [= <-].
  - rewrite rbind_ok. intros (s1 & H1 & H2). eauto.
Qed.

(** Loop bodies that agree on the elements. *)
Lemma rfold_ext {E A S} (f g : S -> A -> result E S) l : forall s,
  (forall s a, a ∈ l -> f s a = g s a) -> rfold f s l = rfold g s l.
Proof.
  induction l as [|a l IH]; intros s H; cbn; [done|]. rewrite H by apply list_elem_of_here.
  destruct (g s a); cbn; [|done]. apply IH. intros s' b Hb. apply H. by apply list_elem_of_further.
Qed.

(** A list of fallible steps that yield a value each, stopped by the first error. *)
Definition rmapM {E A B} (f : A -> result E B) : list A -> result E (list B) :=
  fix rmapM l :=
    match l with
    | [] => Ok []
    | a :: l => let! b := f a in let! bs := rmapM l in Ok (b :: bs)
    end.

Lemma rmapM_ok {E A B} (f : A -> result E B) l k : rmapM f l = Ok k <-> Forall2 (fun a b => f a = Ok b) l k.
Proof.
  revert k. induction l as [|a l IH]; intros k; cbn.
  - split; [intros [= <-]; constructor|by inversion 1].
  - rewrite rbind_ok. setoid_rewrite rbind_ok. split.
    + intros (b & Hb & bs & Hbs & [= <-]). constructor; [done|]. by apply IH.
    + inversion 1 as [|? b ? bs Hb Hbs]; subst. exists b. split; [done|]. exists bs. split; [by apply IH|done].
Qed.

(** Inversion of successful computations. *)
Ltac inv_result :=
  repeat match goal with
  | H : rbind _ _ = Ok _ |- _ =>
      apply rbind_ok in H; let x := fresh "r" in let Hx := fresh "Hr" in
      destruct H as (x & Hx & H)
  | H : rguard _ _ = Ok ?x |- _ => apply rguard_ok in H; try clear x
  | H : Ok _ = Ok _ |- _ => injection H as H
  | H : Err _ = Ok _ |- _ => discriminate H
  | H : Ok _ = Err _ |- _ => discriminate H
  | H : _ /\ _ |- _ => destruct H
  | p : (_ * _)%type |- _ => destruct p
  end; subst; cbn [fst snd] in *.

(** Case analysis on the first boolean or option the goal is stuck on. *)
Ltac split_guard :=
  match goal with
  | |- context [rguard ?b _] => let E := fresh "E" in destruct b eqn:E; cbn [rguard rbind]
  | |- context [if ?b then _ else _] => let E := fresh "E" in destruct b eqn:E; cbn [rbind]
  end.

(** Reflection of the integer tests the code is full of. *)
Ltac z_tests :=
  repeat match goal with
  | H : (_ <? _) = true |- _ => apply Z.ltb_lt in H
  | H : (_ <? _) = false |- _ => apply Z.ltb_ge in H
  | H : (_ <=? _) = true |- _ => apply Z.leb_le in H
  | H : (_ <=? _) = false |- _ => apply Z.leb_gt in H
  | H : (_ =? _) = true |- _ => apply Z.eqb_eq in H
  | H : (_ =? _) = false |- _ => apply Z.eqb_neq in H
  | H : negb _ = true |- _ => apply negb_true_iff in H
  | H : negb _ = false |- _ => apply negb_false_iff in H
  | H : (_ && _)%bool = true |- _ => apply andb_true_iff in H; destruct H
  | H : (_ || _)%bool = false |- _ => apply orb_false_iff in H; destruct H
  | H : bool_decide _ = true |- _ => apply bool_decide_eq_true in H
  | H : bool_decide _ = false |- _ => apply bool_decide_eq_false in H
  end.

(** A closed equation, checked by evaluating both sides. *)
Ltac by_vm := match goal with |- ?a = ?b => exact (@eq_refl _ b <: a = b) end.

(** ** Machine integers *)

Definition max_int64 : Z := 2 ^ 63 - 1.
Definition min_int64 : Z := - 2 ^ 63.
Definition max_uint32 : Z := 2 ^ 32 - 1.
Definition max_uint64 : Z := 2 ^ 64 - 1.

(** Unsigned and signed wrap-around at width [w]. *)
Definition wrap (w : Z) (z : Z) : Z := z mod 2 ^ w.
Definition swrap (w : Z) (z : Z) : Z := (z + 2 ^ (w - 1)) mod 2 ^ w - 2 ^ (w - 1).

Definition in_uint (w : Z) (z : Z) : Prop := 0 <= z < 2 ^ w.
Definition in_sint (w : Z) (z : Z) : Prop := - 2 ^ (w - 1) <= z < 2 ^ (w - 1).

Lemma wrap_small w z : in_uint w z -> wrap w z = z.
Proof. apply Z.mod_small. Qed.

Lemma wrap_range w z : 0 <= w -> in_uint w (wrap w z).
Proof. intros. apply Z.mod_pos_bound. by apply Z.pow_pos_nonneg. Qed.

Lemma swrap_small w z : 0 < w -> in_sint w z -> swrap w z = z.
Proof.
  unfold swrap, in_sint. intros Hw Hz.
  assert (2 ^ w = 2 * 2 ^ (w - 1)) as Hp.
  { rewrite <- Z.pow_succ_r by lia. f_equal. lia. }
  rewrite Z.mod_small; lia.
Qed.

Lemma swrap_range w z : 0 < w -> in_sint w (swrap w z).
Proof.
  unfold swrap, in_sint. intros Hw.
  assert (2 ^ w = 2 * 2 ^ (w - 1)) as Hp.
  { rewrite <- Z.pow_succ_r by lia. f_equal. lia. }
  pose proof (Z.mod_pos_bound (z + 2 ^ (w - 1)) (2 ^ w) ltac:(nia)). lia.
Qed.

(** Reinterpreting an [int64] as [uint64] and back loses nothing. *)
Lemma swrap_wrap w z : 0 < w -> in_sint w z -> swrap w (wrap w z) = z.
Proof.
  intros Hw Hz. unfold swrap, wrap.
  rewrite Zplus_mod_idemp_l. by apply swrap_small.
Qed.

(** Wrapped sums wrap once. *)
Lemma swrap_add w a b : swrap w (swrap w a + b) = swrap w (a + b).
Proof.
  unfold swrap.
  replace ((a + 2 ^ (w - 1)) mod 2 ^ w - 2 ^ (w - 1) + b + 2 ^ (w - 1))
    with ((a + 2 ^ (w - 1)) mod 2 ^ w + b) by lia.
  rewrite Zplus_mod_idemp_l. do 2 f_equal. lia.
Qed.

(** ** Big-endian fields *)

(** [PutUint16/32/64]: the [n] low-order bytes of [z], most significant first. *)
Fixpoint be_encode (n : nat) (z : Z) : gstr :=
  match n with
  | O => []
  | S n => be_encode n (z / 256) ++ [Zbyte z]
  end.

(** [Uint16/32/64]. *)
Definition be_decode (l : gstr) : Z := fold_left (fun acc b => acc * 256 + byteZ b) l 0.

Lemma length_be_encode n z : length (be_encode n z) = n.
Proof.
  revert z. induction n as [|n IH]; intros z; cbn; [done|].
  rewrite length_app, IH. cbn. lia.
Qed.

Lemma blen_be_encode n z : blen (be_encode n z) = Z.of_nat n.
Proof. unfold blen. by rewrite length_be_encode. Qed.

Lemma be_decode_snoc l b : be_decode (l ++ [b]) = be_decode l * 256 + byteZ b.
Proof. unfold be_decode. by rewrite fold_left_app. Qed.

Lemma be_decode_encode n z : be_decode (be_encode n z) = z mod 2 ^ (8 * Z.of_nat n).
Proof.
  revert z. induction n as [|n IH]; intros z; cbn [be_encode].
  - change (8 * Z.of_nat 0) with 0. by rewrite Z.pow_0_r, Z.mod_1_r.
  - rewrite be_decode_snoc, IH, byteZ_Zbyte.
    replace (8 * Z.of_nat (S n)) with (8 + 8 * Z.of_nat n) by lia.
    rewrite Z.pow_add_r by lia. change (2 ^ 8) with 256.
    pose proof (Z.pow_pos_nonneg 2 (8 * Z.of_nat n) ltac:(lia) ltac:(lia)) as Hpos.
    rewrite Z.rem_mul_r by lia. ring.
Qed.

Lemma be_decode_range l : in_uint (8 * blen l) (be_decode l).
Proof.
  unfold in_uint. induction l as [|b l IH] using rev_ind.
  - change (0 <= 0 < 1). lia.
  - rewrite be_decode_snoc, blen_snoc. pose proof (byteZ_range b).
    replace (8 * (blen l + 1)) with (8 * blen l + 8) by lia.
    pose proof (blen_nonneg l).
    rewrite Z.pow_add_r by lia. change (2 ^ 8) with 256.
    generalize dependent (2 ^ (8 * blen l)). intros. lia.
Qed.

Lemma be_encode_decode l n : length l = n -> be_encode n (be_decode l) = l.
Proof.
  revert l. induction n as [|n IH]; intros l Hl.
  - by destruct l.
  - destruct l as [|b l _] using rev_ind; [done|].
    rewrite length_app in Hl. cbn in Hl.
    cbn [be_encode]. rewrite be_decode_snoc. pose proof (byteZ_range b).
    rewrite Z.div_add_l by lia. rewrite Z.div_small, Z.add_0_r by lia.
    rewrite IH by lia. do 2 f_equal.
    rewrite <- (Zbyte_byteZ b) at 2. unfold Zbyte. do 3 f_equal.
    rewrite Z.add_comm, Z_mod_plus_full. done.
Qed.

Lemma be_roundtrip n z :
  in_uint (8 * Z.of_nat n) z -> be_decode (be_encode n z) = z.
Proof. intros. rewrite be_decode_encode. by apply Z.mod_small. Qed.

#[export] Hint Rewrite blen_be_encode : ferric.

#[global] Arguments be_encode : simpl never.
#[global] Arguments be_decode : simpl never.

(** ** Byte-wise string order *)

(** Go's [a < b] on strings. *)
Fixpoint gstr_ltb (a b : gstr) : bool :=
  match a, b with
  | [], [] => false
  | [], _ :: _ => true
  | _ :: _, [] => false
  | x :: a, y :: b =>
      if byteZ x <? byteZ y then true
      else if byteZ y <? byteZ x then false
      else gstr_ltb a b
  end.

Definition gstr_leb (a b : gstr) : bool := negb (gstr_ltb b a).

Lemma gstr_ltb_irrefl a : gstr_ltb a a = false.
Proof. induction a as [|x a IH]; cbn; [done|]. by rewrite Z.ltb_irrefl. Qed.

Lemma gstr_ltb_trans a b c : gstr_ltb a b = true -> gstr_ltb b c = true -> gstr_ltb a c = true.
Proof.
  revert b c. induction a as [|x a IH]; intros [|y b] [|z c]; cbn; try done.
  destruct (Z.ltb_spec (byteZ x) (byteZ y)), (Z.ltb_spec (byteZ y) (byteZ x)),
    (Z.ltb_spec (byteZ y) (byteZ z)), (Z.ltb_spec (byteZ z) (byteZ y)),
    (Z.ltb_spec (byteZ x) (byteZ z)), (Z.ltb_spec (byteZ z) (byteZ x));
    intros; try done; try lia; eauto.
Qed.

Lemma gstr_ltb_total a b : gstr_ltb a b = false -> gstr_ltb b a = false -> a = b.
Proof.
  revert b. induction a as [|x a IH]; intros [|y b]; cbn; try done.
  destruct (Z.ltb_spec (byteZ x) (byteZ y)), (Z.ltb_spec (byteZ y) (byteZ x));
    intros; try done; try lia.
  f_equal; [apply byteZ_inj; lia | eauto].
Qed.

Definition gstr_le (a b : gstr) : Prop := gstr_leb a b = true.

#[global] Instance gstr_le_dec : RelDecision gstr_le.
Proof. intros a b. unfold gstr_le. apply _. Defined.

#[global] Instance gstr_le_total : Total gstr_le.
Proof.
  intros a b. unfold gstr_le, gstr_leb.
  destruct (gstr_ltb b a) eqn:E; [right | by left].
  destruct (gstr_ltb a b) eqn:E'; [|done].
  pose proof (gstr_ltb_trans _ _ _ E' E) as H. by rewrite gstr_ltb_irrefl in H.
Qed.

#[global] Instance gstr_le_trans : Transitive gstr_le.
Proof.
  intros a b c. unfold gstr_le, gstr_leb. rewrite !negb_true_iff. intros Hba Hcb.
  destruct (gstr_ltb c a) eqn:Hca; [|done].
  destruct (gstr_ltb a b) eqn:Hab.
  - by rewrite (gstr_ltb_trans _ _ _ Hca Hab) in Hcb.
  - rewrite (gstr_ltb_total _ _ Hab Hba) in Hca. congruence.
Qed.

#[global] Instance gstr_le_antisymm : AntiSymm (=) gstr_le.
Proof.
  intros a b. unfold gstr_le, gstr_leb. rewrite !negb_true_iff.
  intros ? ?. by apply gstr_ltb_total.
Qed.

(** [sort.Strings], used on the keys of a map. *)
Definition sort_strings (l : list gstr) : list gstr := merge_sort gstr_le l.

Lemma sort_strings_perm l : sort_strings l ≡ₚ l.
Proof. apply merge_sort_Permutation. Qed.

Lemma sort_strings_sorted l : Sorted gstr_le (sort_strings l).
Proof. apply Sorted_merge_sort, _. Qed.

Lemma sort_strings_unique l k : Sorted gstr_le k -> k ≡ₚ l -> k = sort_strings l.
Proof.
  intros Hk Hp. apply (Sorted_unique gstr_le).
  - done.
  - apply sort_strings_sorted.
  - by rewrite sort_strings_perm.
Qed.

(** ** Association lists: a Go map whose iteration order does not matter *)

Section assoc.
Context {V : Type}.

Fixpoint assoc_get (k : gstr) (m : list (gstr * V)) : option V :=
  match m with
  | [] => None
  | (k', v) :: m => if bool_decide (k' = k) then Some v else assoc_get k m
  end.

Definition assoc_has (k : gstr) (m : list (gstr * V)) : bool :=
  match assoc_get k m with Some _ => true | None => false end.

Definition keys (m : list (gstr * V)) : list gstr := m.*1.

Lemma assoc_get_elem k v m : assoc_get k m = Some v -> (k, v) ∈ m.
Proof.
  induction m as [|[k' v'] m IH]; cbn; [done|].
  case_bool_decide; subst; intros; simplify_eq; [left | right; auto].
Qed.

Lemma assoc_has_spec k m : assoc_has k m = true <-> k ∈ keys m.
Proof.
  unfold assoc_has. induction m as [|[k' v'] m IH]; cbn.
  - split; [done|]. intros H. by apply not_elem_of_nil in H.
  - rewrite elem_of_cons. case_bool_decide; subst; [naive_solver|].
    rewrite IH. naive_solver.
Qed.

Lemma assoc_has_false k m : assoc_has k m = false <-> k ∉ keys m.
Proof. rewrite <- assoc_has_spec. destruct (assoc_has k m); naive_solver. Qed.

Lemma elem_assoc_get k v m : NoDup (keys m) -> (k, v) ∈ m -> assoc_get k m = Some v.
Proof.
  induction m as [|[k' v'] m IH]; cbn; intros Hnd Hin.
  - by apply not_elem_of_nil in Hin.
  - apply NoDup_cons in Hnd as [Hk Hnd].
    apply elem_of_cons in Hin as [?|Hin]; simplify_eq.
    + by rewrite bool_decide_true.
    + rewrite bool_decide_false; [auto|]. intros ->. apply Hk.
      apply list_elem_of_fmap. by exists (k, v).
Qed.

Lemma assoc_get_perm k m1 m2 :
  NoDup (keys m1) -> m1 ≡ₚ m2 -> assoc_get k m1 = assoc_get k m2.
Proof.
  intros Hnd Hp. assert (NoDup (keys m2)) as Hnd2.
  { unfold keys in *. by rewrite <- Hp. }
  destruct (assoc_get k m1) as [v|] eqn:E1.
  - apply assoc_get_elem in E1. rewrite Hp in E1. symmetry. by apply elem_assoc_get.
  - destruct (assoc_get k m2) as [v|] eqn:E2; [|done].
    apply assoc_get_elem in E2. rewrite <- Hp in E2.
    apply elem_assoc_get in E2; congruence.
Qed.
End assoc.

(** Reading a map in the order of its sorted keys, as [sort.Strings] over the
    keys followed by [m[key]] does. *)
Section sort_entries.
Context {V W : Type}.

Definition sort_entries (m : list (gstr * V)) : list (gstr * V) :=
  omap (fun k => (fun v => (k, v)) <$> assoc_get k m) (sort_strings (keys m)).
End sort_entries.

Section sort_entries_facts.
Context {V : Type}.
Implicit Types m : list (gstr * V).

Lemma omap_assoc_keys (ks : list gstr) m :
  (forall k, k ∈ ks -> k ∈ keys m) ->
  keys (omap (fun k => (fun v => (k, v)) <$> assoc_get k m) ks) = ks.
Proof.
  induction ks as [|k ks IH]; intros Hks; [done|]. cbn.
  assert (assoc_has k m = true) as Hk by (apply assoc_has_spec, Hks; left).
  unfold assoc_has in Hk. destruct (assoc_get k m); [|done]. cbn. f_equal.
  apply IH. intros. apply Hks. by right.
Qed.

Lemma keys_sort_entries m : keys (sort_entries m) = sort_strings (keys m).
Proof. apply omap_assoc_keys. intros k. by rewrite sort_strings_perm. Qed.

Lemma length_sort_entries m : length (sort_entries m) = length m.
Proof.
  rewrite <- (length_fmap fst (sort_entries m)). fold (keys (sort_entries m)).
  rewrite keys_sort_entries. rewrite (Permutation_length (sort_strings_perm _)).
  apply length_fmap.
Qed.

Lemma elem_sort_entries m k v :
  (k, v) ∈ sort_entries m <-> assoc_get k m = Some v.
Proof.
  unfold sort_entries. rewrite list_elem_of_omap. split.
  - intros (k' & Hk' & Hget).
    destruct (assoc_get k' m) eqn:E; cbn in Hget; by simplify_eq.
  - intros H. exists k. rewrite H. split; [|done].
    rewrite sort_strings_perm. apply assoc_has_spec. unfold assoc_has. by rewrite H.
Qed.

Lemma sort_entries_perm m : NoDup (keys m) -> sort_entries m ≡ₚ m.
Proof.
  intros Hnd. apply NoDup_Permutation.
  - apply (NoDup_fmap_1 fst). fold (keys (sort_entries m)).
    by rewrite keys_sort_entries, sort_strings_perm.
  - by apply (NoDup_fmap_1 fst).
  - intros [k v]. rewrite elem_sort_entries. split.
    + apply assoc_get_elem.
    + by apply elem_assoc_get.
Qed.

Lemma elem_of_sort_entries m e : e ∈ sort_entries m -> e ∈ m.
Proof. destruct e as [k v]. rewrite elem_sort_entries. apply assoc_get_elem. Qed.
End sort_entries_facts.

Lemma keys_fmap {V W} (f : V -> W) (m : list (gstr * V)) :
  keys (prod_map id f <$> m) = keys m.
Proof. unfold keys. rewrite <- list_fmap_compose. by apply list_fmap_ext. Qed.

Lemma assoc_get_fmap {V W} (f : V -> W) k (m : list (gstr * V)) :
  assoc_get k (prod_map id f <$> m) = f <$> assoc_get k m.
Proof. induction m as [|[k' v] m IH]; cbn; [done|]. by case_bool_decide. Qed.

Lemma sort_entries_fmap {V W} (f : V -> W) (m : list (gstr * V)) :
  sort_entries (prod_map id f <$> m) = prod_map id f <$> sort_entries m.
Proof.
  unfold sort_entries. rewrite keys_fmap.
  induction (sort_strings (keys m)) as [|k ks IH]; cbn; [done|].
  rewrite assoc_get_fmap. destruct (assoc_get k m); cbn; by rewrite IH.
Qed.

(** Sums over a list, used for node counts. *)
Definition zsum (l : list Z) : Z := foldr Z.add 0 l.

Lemma zsum_app l k : zsum (l ++ k) = zsum l + zsum k.
Proof. unfold zsum. induction l; cbn; lia. Qed.

Lemma zsum_nonneg l : Forall (Z.le 0) l -> 0 <= zsum l.
Proof. unfold zsum. induction 1; cbn; lia. Qed.

Lemma zsum_perm l k : l ≡ₚ k -> zsum l = zsum k.
Proof. unfold zsum. induction 1; cbn; lia. Qed.

Lemma forallb_perm {A} (f : A -> bool) l k : l ≡ₚ k -> forallb f l = forallb f k.
Proof.
  induction 1 as [|x l k _ IH|x y l|l1 l2 l3 _ IH1 _ IH2]; cbn; [done|by rewrite IH| |congruence].
  by rewrite !andb_assoc, (andb_comm (f y)).
Qed.

(** ** Sums over finite maps

    The counters a stateful component keeps are sums over its maps. *)

Section msum.
Context `{Countable K} {V : Type}.
Implicit Types (g : K -> V -> Z) (m : gmap K V).

Definition msum g m : Z := zsum ((fun kv => g kv.1 kv.2) <$> map_to_list m).

Lemma msum_empty g : msum g ∅ = 0.
Proof. unfold msum. by rewrite map_to_list_empty. Qed.

Lemma msum_insert_new g m k v : m !! k = None -> msum g (<[k:=v]> m) = g k v + msum g m.
Proof. intros Hk. unfold msum. rewrite (zsum_perm _ _ (fmap_Permutation _ _ _ (map_to_list_insert m k v Hk))). done. Qed.

Lemma msum_delete g m k v : m !! k = Some v -> msum g m = g k v + msum g (delete k m).
Proof.
  intros Hk. rewrite <- (insert_delete_id m k v Hk) at 1.
  apply msum_insert_new. apply lookup_delete_eq.
Qed.

Lemma msum_insert g m k v :
  msum g (<[k:=v]> m) = g k v - from_option (g k) 0 (m !! k) + msum g m.
Proof.
  destruct (m !! k) as [v'|] eqn:Hk; cbn.
  - rewrite <- insert_delete_eq, msum_insert_new by apply lookup_delete_eq.
    rewrite (msum_delete g m k v' Hk). lia.
  - rewrite msum_insert_new by done. lia.
Qed.

Lemma msum_ext g g' m :
  (forall k v, m !! k = Some v -> g k v = g' k v) -> msum g m = msum g' m.
Proof.
  intros Hg. unfold msum. f_equal. apply list_fmap_ext.
  intros i [k v] Hi%list_elem_of_lookup_2%elem_of_map_to_list. by apply Hg.
Qed.

(** Two summands that differ at one key. *)
Lemma msum_update g g' m k v :
  m !! k = Some v -> (forall k' v', k' <> k -> g k' v' = g' k' v') ->
  msum g' m = g' k v - g k v + msum g m.
Proof.
  intros Hk Hg. rewrite (msum_delete g' m k v Hk), (msum_delete g m k v Hk).
  rewrite (msum_ext g' g (delete k m)); [lia|].
  intros k' v' [Hne _]%lookup_delete_Some. symmetry. by apply Hg.
Qed.

Lemma msum_nonneg g m : (forall k v, m !! k = Some v -> 0 <= g k v) -> 0 <= msum g m.
Proof.
  intros Hg. apply zsum_nonneg. rewrite Forall_fmap, Forall_forall.
  intros [k v] Hin%elem_of_map_to_list. by apply Hg.
Qed.

Lemma msum_ge g m k v :
  (forall k v, m !! k = Some v -> 0 <= g k v) -> m !! k = Some v -> g k v <= msum g m.
Proof.
  intros Hg Hk. rewrite (msum_delete g m k v Hk).
  enough (0 <= msum g (delete k m)) by lia. apply msum_nonneg.
  intros k' v' [_ Hk']%lookup_delete_Some. by apply Hg.
Qed.
End msum.

#[global] Arguments msum : simpl never.
