(* ===== verification/GoValue.v ===== *)
(** The dynamic values ([any]) the SDK encodes, decodes and routes by, and the
    coercions the rest of the program reads them with
    (src/response_coerce.go, src/command_validation.go, src/topology_routing.go).

    A Go map is the list of its entries in some order with distinct keys; a
    slice or map carries the identity [reflect] sees (data pointer, type and
    extent), [None] for a nil one, so that an encoder can recognise a container
    it is already inside. *)

From S2P Require Export Prelude.

(** The integer types a type switch distinguishes. *)
Inductive ikind := IInt | IInt8 | IInt16 | IInt32 | IInt64.
Inductive ukind := UUint | UUint8 | UUint16 | UUint32 | UUint64.

#[global] Instance ikind_eq_dec : EqDecision ikind.
Proof. solve_decision. Defined.
#[global] Instance ukind_eq_dec : EqDecision ukind.
Proof. solve_decision. Defined.

Definition ikind_width (k : ikind) : Z :=
  match k with IInt | IInt64 => 64 | IInt8 => 8 | IInt16 => 16 | IInt32 => 32 end.
Definition ukind_width (k : ukind) : Z :=
  match k with UUint | UUint64 => 64 | UUint8 => 8 | UUint16 => 16 | UUint32 => 32 end.

(** Identity of a non-nil slice or map, as [nativeEncodeIdentity] computes it. *)
Abbreviation visit := Z (only parsing).

#[warnings="-register-all"]
Inductive val : Type :=
| VNil
| VBool (b : bool)
| VInt (k : ikind) (z : Z)
| VUint (k : ukind) (z : Z)
| VFloat (bits : Z)                       (* the IEEE-754 bits of a float64 *)
| VString (s : gstr)
| VBytes (s : gstr)
| VArray (id : option visit) (l : list val)
| VMap (id : option visit) (m : list (gstr * val))
| VDeferred (encoded : option val).       (* a codec call: its value, or [None] when it fails *)

Section val_ind.
Variable P : val -> Prop.
Hypothesis Hnil : P VNil.
Hypothesis Hbool : forall b, P (VBool b).
Hypothesis Hint : forall k z, P (VInt k z).
Hypothesis Huint : forall k z, P (VUint k z).
Hypothesis Hfloat : forall z, P (VFloat z).
Hypothesis Hstring : forall s, P (VString s).
Hypothesis Hbytes : forall s, P (VBytes s).
Hypothesis Harray : forall id l, Forall P l -> P (VArray id l).
Hypothesis Hmap : forall id m, Forall (fun kv => P kv.2) m -> P (VMap id m).
Hypothesis Hdeferred : forall o, (forall v, o = Some v -> P v) -> P (VDeferred o).

(** Induction with the hypothesis for every element of a container. *)
Fixpoint val_nested_ind (v : val) : P v :=
  match v with
  | VNil => Hnil
  | VBool b => Hbool b
  | VInt k z => Hint k z
  | VUint k z => Huint k z
  | VFloat z => Hfloat z
  | VString s => Hstring s
  | VBytes s => Hbytes s
  | VArray id l =>
      Harray id l ((fix go l : Forall P l :=
        match l with
        | [] => Forall_nil_2 _
        | v :: l => Forall_cons_2 _ _ _ (val_nested_ind v) (go l)
        end) l)
  | VMap id m =>
      Hmap id m ((fix go m : Forall (fun kv => P kv.2) m :=
        match m with
        | [] => Forall_nil_2 _
        | (k, v) :: m =>
            Forall_cons_2 (fun kv : gstr * val => P kv.2) (k, v) m (val_nested_ind v) (go m)
        end) m)
  | VDeferred o =>
      Hdeferred o
        match o return (forall v, o = Some v -> P v) with
        | Some w => fun v H =>
            match f_equal (fun o => match o with Some x => x | None => w end) H in _ = y
            return P y with eq_refl => val_nested_ind w end
        | None => fun v H => ltac:(discriminate H)
        end
  end.
End val_ind.

(** ** Coercions *)

Definition to_upper_byte (b : byte) : byte :=
  if (97 <=? byteZ b) && (byteZ b <=? 122) then Zbyte (byteZ b - 32) else b.

(** [strings.ToUpper] on the ASCII text of command names. *)
Definition to_upper (s : gstr) : gstr := to_upper_byte <$> s.

(** [strings.EqualFold] on ASCII text. *)
Definition equal_fold (a b : gstr) : bool := bool_decide (to_upper a = to_upper b).

Definition to_lower_byte (b : byte) : byte :=
  if (65 <=? byteZ b) && (byteZ b <=? 90) then Zbyte (byteZ b + 32) else b.

(** [strings.ToLower] on ASCII text. *)
Definition to_lower (s : gstr) : gstr := to_lower_byte <$> s.

Definition is_space (b : byte) : bool :=
  (byteZ b =? 32) || ((9 <=? byteZ b) && (byteZ b <=? 13)).

Fixpoint trim_left (s : gstr) : gstr :=
  match s with
  | b :: rest => if is_space b then trim_left rest else s
  | [] => []
  end.

(** [strings.TrimSpace] on ASCII text. *)
Definition trim_space (s : gstr) : gstr := rev (trim_left (rev (trim_left s))).

(** [commandText]. *)
Definition commandText (v : val) : option gstr :=
  match v with
  | VString s | VBytes s => Some s
  | _ => None
  end.

(** [commandPart]. *)
Definition commandPart (v : val) : gstr :=
  match commandText v with Some s => to_upper s | None => [] end.

(** [isRouteKey]. *)
Definition isRouteKey (v : val) : bool :=
  match v with VString _ | VBytes _ => true | _ => false end.

(** A decimal digit, and [strconv.ParseInt(s, 10, 64)]: [None] is its error. *)
Definition digit_of (b : byte) : option Z :=
  if (48 <=? byteZ b) && (byteZ b <=? 57) then Some (byteZ b - 48) else None.

Fixpoint parse_digits (acc : Z) (s : gstr) : option Z :=
  match s with
  | [] => Some acc
  | b :: s => match digit_of b with Some d => parse_digits (acc * 10 + d) s | None => None end
  end.

Definition parse_uint_text (s : gstr) : option Z :=
  match s with [] => None | _ => parse_digits 0 s end.

(** [strconv.ParseUint(s, 10, 64)]. *)
Definition parseUint64 (s : gstr) : option Z :=
  match parse_uint_text s with Some n => if n <=? max_uint64 then Some n else None | None => None end.

Inductive parsed_int := ParsedInt (z : Z) | ParseSyntax | ParseRange (z : Z).

Definition parse_int64 (s : gstr) : parsed_int :=
  let finish (negative : bool) (o : option Z) :=
    match o with
    | None => ParseSyntax
    | Some n =>
        if negative then
          if n <=? 2 ^ 63 then ParsedInt (- n) else ParseRange min_int64
        else
          if n <=? max_int64 then ParsedInt n else ParseRange max_int64
    end in
  match s with
  | x2d :: s => finish true (parse_uint_text s)
  | x2b :: s => finish false (parse_uint_text s)
  | _ => finish false (parse_uint_text s)
  end.

(** [n, _ := strconv.ParseInt(s, 10, 64)]: the value returned next to the error
    is 0 on a syntax error and the nearest bound on a range error. *)
Definition parse_int64_or_bound (s : gstr) : Z :=
  match parse_int64 s with ParsedInt z | ParseRange z => z | ParseSyntax => 0 end.

(** Decimal text of an integer ([strconv.FormatInt(z, 10)]). *)
Fixpoint digits_fuel (fuel : nat) (n : Z) (acc : gstr) : gstr :=
  match fuel with
  | O => acc
  | S fuel =>
      let acc := Zbyte (48 + n mod 10) :: acc in
      if n <? 10 then acc else digits_fuel fuel (n / 10) acc
  end.

Definition format_nat (n : Z) : gstr := digits_fuel (S (Z.to_nat (Z.log2 (n + 1)))) n [].

Definition format_int (z : Z) : gstr :=
  if z <? 0 then x2d :: format_nat (- z) else format_nat z.

Lemma commandText_routeKey v : isRouteKey v = true <-> is_Some (commandText v).
Proof. destruct v; cbn; split; try done; try (by intros [? [=]]); eauto. Qed.

Lemma digit_of_range b d : digit_of b = Some d -> 0 <= d <= 9.
Proof. unfold digit_of. destruct (_ && _) eqn:E; [|done]. intros [= <-]. z_tests. lia. Qed.

Lemma digit_of_Zbyte d : 0 <= d <= 9 -> digit_of (Zbyte (48 + d)) = Some d.
Proof.
  intros. unfold digit_of. rewrite Zbyte_small by lia.
  rewrite (proj2 (Z.leb_le _ _)), (proj2 (Z.leb_le _ _)) by lia. cbn. f_equal. lia.
Qed.

Lemma parse_digits_app acc s t :
  parse_digits acc (s ++ t) =
  match parse_digits acc s with Some acc => parse_digits acc t | None => None end.
Proof.
  revert acc. induction s as [|b s IH]; intros acc; cbn; [done|].
  destruct (digit_of b); auto.
Qed.

Lemma parse_digits_ge s : forall acc n, 0 <= acc -> parse_digits acc s = Some n -> acc <= n.
Proof.
  induction s as [|b s IH]; intros acc n Hacc; cbn; [intros [= <-]; lia|].
  destruct (digit_of b) as [d|] eqn:Hd; [|done]. apply digit_of_range in Hd.
  intros Hn%IH; lia.
Qed.

Lemma digits_fuel_app fuel n acc : digits_fuel fuel n acc = digits_fuel fuel n [] ++ acc.
Proof.
  revert n acc. induction fuel as [|fuel IH]; intros n acc; cbn; [done|].
  destruct (n <? 10); [done|]. rewrite IH, (IH _ [_]), <- app_assoc. done.
Qed.

Lemma parse_digits_format fuel n :
  0 <= n < 2 ^ Z.of_nat fuel -> parse_digits 0 (digits_fuel fuel n []) = Some n.
Proof.
  revert n. induction fuel as [|fuel IH]; intros n Hn.
  - assert (n = 0) as -> by (change (2 ^ Z.of_nat 0) with 1 in Hn; lia). done.
  - cbn [digits_fuel]. pose proof (Z.mod_pos_bound n 10 ltac:(lia)).
    pose proof (Z.div_mod n 10 ltac:(lia)) as Hdm.
    destruct (Z.ltb_spec n 10).
    + cbn [parse_digits]. rewrite digit_of_Zbyte by lia.
      rewrite Z.mod_small by lia. done.
    + rewrite digits_fuel_app, parse_digits_app, IH.
      * cbn [parse_digits]. rewrite digit_of_Zbyte by lia. f_equal. lia.
      * rewrite Nat2Z.inj_succ, Z.pow_succ_r in Hn by lia.
        split; [apply Z.div_pos; lia | apply Z.div_lt_upper_bound; lia].
Qed.

Lemma digits_fuel_nonempty fuel n acc : digits_fuel (S fuel) n acc <> [].
Proof.
  revert n acc. induction fuel as [|fuel IH]; intros n acc; cbn.
  - by destruct (_ <? _).
  - destruct (n <? 10); [done|]. apply IH.
Qed.

Lemma parse_uint_format n : 0 <= n -> parse_uint_text (format_nat n) = Some n.
Proof.
  intros Hn. unfold format_nat. set (fuel := S _).
  assert (0 <= n < 2 ^ Z.of_nat fuel) as Hb.
  { split; [done|]. subst fuel. pose proof (Z.log2_nonneg (n + 1)).
    rewrite Nat2Z.inj_succ, Z2Nat.id by done.
    pose proof (Z.log2_spec (n + 1) ltac:(lia)). lia. }
  unfold parse_uint_text. destruct (digits_fuel fuel n []) eqn:E.
  - by apply digits_fuel_nonempty in E.
  - rewrite <- E. by apply parse_digits_format.
Qed.

Lemma format_nat_digit n : 0 <= n -> exists d l, format_nat n = Zbyte (48 + d) :: l /\ 0 <= d <= 9.
Proof.
  unfold format_nat. generalize (Z.to_nat (Z.log2 (n + 1))). intros fuel Hn. generalize (@nil byte).
  revert n Hn. induction fuel as [|fuel IH]; intros n Hn acc.
  - cbn. pose proof (Z.mod_pos_bound n 10 ltac:(lia)).
    exists (n mod 10). destruct (n <? 10); eexists; (split; [done|lia]).
  - cbn [digits_fuel]. pose proof (Z.mod_pos_bound n 10 ltac:(lia)).
    destruct (n <? 10); [exists (n mod 10); eexists; split; [done|lia]|].
    apply (IH (n / 10)). apply Z.div_pos; lia.
Qed.

Lemma parse_format_nat n : 0 <= n -> parse_int64 (format_nat n) = if n <=? max_int64 then ParsedInt n else ParseRange max_int64.
Proof.
  intros Hn. pose proof (parse_uint_format n Hn) as Hp. destruct (format_nat_digit n Hn) as (d & l & E & Hd).
  rewrite E in *. unfold parse_int64.
  destruct (Zbyte (48 + d)) eqn:Hb; rewrite ?Hp; try done;
    pose proof (Zbyte_small (48 + d) ltac:(lia)) as Hs; rewrite Hb in Hs; cbn in Hs; lia.
Qed.

Lemma parse_format_int z : - 2 ^ 63 <= z <= max_int64 -> parse_int64 (format_int z) = ParsedInt z.
Proof.
  intros Hz. unfold format_int. destruct (Z.ltb_spec z 0).
  - cbn [parse_int64]. rewrite parse_uint_format by lia.
    rewrite (proj2 (Z.leb_le _ _)) by lia. f_equal. lia.
  - rewrite parse_format_nat, (proj2 (Z.leb_le _ _)) by lia. done.
Qed.

(** ** Integers in dynamic values *)

(** The integer a finite IEEE-754 double equals, if any. *)
Definition float_integer (bits : Z) : option Z :=
  let exponent := Z.land (Z.shiftr bits 52) 2047 in
  let fraction := Z.land bits (2 ^ 52 - 1) in
  let significand := if exponent =? 0 then fraction else fraction + 2 ^ 52 in
  let shift := Z.max exponent 1 - 1075 in
  let magnitude :=
    if exponent =? 2047 then None
    else if 0 <=? shift then Some (Z.shiftl significand shift)
    else if Z.land significand (Z.ones (- shift)) =? 0 then Some (Z.shiftr significand (- shift))
    else None in
  if Z.testbit bits 63 then Z.opp <$> magnitude else magnitude.

(** [asInt64] (src/response_coerce.go). Its default case parses the value's
    [fmt.Sprint] text: that of an 8-, 16- or 32-bit unsigned integer is its
    decimal form, that of a float is a plain integer only below a million, and
    that of any other value is no integer. *)
Definition asInt64 (v : val) : Z :=
  match v with
  | VNil => 0
  | VInt _ z => z
  | VUint UUint64 z | VUint UUint z => swrap 64 z
  | VUint _ z => z
  | VString s | VBytes s => parse_int64_or_bound s
  | VFloat bits =>
      match float_integer bits with
      | Some z => if Z.abs z <? 1000000 then z else 0
      | None => 0
      end
  | VBool _ | VArray _ _ | VMap _ _ | VDeferred _ => 0
  end.

(** [topologyInteger] (src/topology_build.go): an exact integer in the [int64]
    range. A float of 2^63 passes the code's bound check and fails the round
    trip through [int64], whose conversion wraps on amd64. *)
Definition topologyInteger (v : val) : option Z :=
  match v with
  | VInt _ z => Some z
  | VUint _ z => if z <=? max_int64 then Some z else None
  | VFloat bits =>
      match float_integer bits with
      | Some z => if (min_int64 <=? z) && (z <=? max_int64) then Some z else None
      | None => None
      end
  | _ => None
  end.

Example float_integer_42 : float_integer 0x4045000000000000 = Some 42.
Proof. reflexivity. Qed.
Example float_integer_neg : float_integer 0xC045000000000000 = Some (-42).
Proof. reflexivity. Qed.
Example float_integer_half : float_integer 0x3FE0000000000000 = None.
Proof. reflexivity. Qed.
Example float_integer_zero : float_integer 0 = Some 0.
Proof. reflexivity. Qed.
