(* ===== verification/Response.v ===== *)
(** Scalar responses (src/response.go, src/response_scalar_helpers.go): integers
    in their native and text forms, with the overflow checks of the digit loop
    written at the width the code uses. *)

From S2P Require Export GoValue.

(** [responseString(value, nil)]; [None] for any error. *)
Definition responseString (v : val) : option gstr :=
  match v with VString s | VBytes s => Some s | _ => None end.

(** The digit loop of [parseResponseIntBytes]: [result] and [limit] are [uint64]. *)
Fixpoint accumulate (limit result : Z) (text : gstr) : option Z :=
  match text with
  | [] => Some result
  | digit :: text =>
      if (byteZ digit <? 48) || (57 <? byteZ digit) then None
      else
        let value := byteZ digit - 48 in
        if (limit - value) / 10 <? result then None
        else accumulate limit (wrap 64 (result * 10 + value)) text
  end.

Definition parseResponseIntBytes (value : gstr) : option Z :=
  let text := trim_space value in
  match text with
  | [] => None
  | sign :: rest =>
      let signed := bool_decide (sign = x2b) || bool_decide (sign = x2d) in
      let negative := bool_decide (sign = x2d) in
      let text := if signed then rest else text in
      match text with
      | [] => None
      | _ =>
          let limit := if negative then max_int64 + 1 else max_int64 in
          match accumulate limit 0 text with
          | None => None
          | Some result =>
              if negative then
                if result =? max_int64 + 1 then Some min_int64 else Some (- swrap 64 result)
              else Some (swrap 64 result)
          end
      end
  end.

(** [responseInt64(value, nil)]; [None] for any error. *)
Definition responseInt64 (v : val) : option Z :=
  match v with
  | VInt _ z => Some z
  | VUint _ z => if z <=? max_int64 then Some z else None
  | VString s => match parse_int64 (trim_space s) with ParsedInt z => Some z | _ => None end
  | VBytes s => parseResponseIntBytes s
  | _ => None
  end.

(** The loop computes the value unless it exceeds the limit, and never wraps. *)
Lemma accumulate_spec limit text : forall result,
  0 <= result <= limit -> limit <= max_uint64 ->
  accumulate limit result text =
    match parse_digits result text with
    | Some n => if n <=? limit then Some n else None
    | None => None
    end.
Proof.
  induction text as [|b text IH]; intros result Hr Hl; cbn [accumulate parse_digits].
  - destruct (Z.leb_spec result limit); [done|lia].
  - unfold digit_of. pose proof (byteZ_range b).
    destruct (Z.ltb_spec (byteZ b) 48), (Z.ltb_spec 57 (byteZ b)), (Z.leb_spec 48 (byteZ b)),
      (Z.leb_spec (byteZ b) 57); cbn [orb andb]; try lia; try done.
    set (d := byteZ b - 48). assert (0 <= d <= 9) by (subst d; lia).
    destruct (Z.ltb_spec ((limit - d) / 10) result) as [Hgt|Hle].
    + assert (limit < result * 10 + d) as Hbig.
      { pose proof (Z.div_mod (limit - d) 10 ltac:(lia)).
        pose proof (Z.mod_pos_bound (limit - d) 10 ltac:(lia)). lia. }
      destruct (parse_digits (result * 10 + d) text) as [n|] eqn:E; [|done].
      apply parse_digits_ge in E; [|lia]. destruct (Z.leb_spec n limit); [lia|done].
    + assert (result * 10 + d <= limit) as Hsmall.
      { pose proof (Z.div_mod (limit - d) 10 ltac:(lia)).
        pose proof (Z.mod_pos_bound (limit - d) 10 ltac:(lia)). lia. }
      unfold max_uint64 in *. rewrite wrap_small by (split; lia). apply IH; lia.
Qed.

(** Integer text from the server is read exactly as [strconv.ParseInt] reads
    it, over the whole [int64] range and without overflow, whether it arrives as
    bytes or as a string. *)
Theorem response_int_forms_agree text :
  responseInt64 (VBytes text) = responseInt64 (VString text).
Proof.
  cbn [responseInt64]. unfold parseResponseIntBytes. generalize (trim_space text). clear text.
  intros [|sign rest]; [done|].
  assert (forall limit l, l <> [] -> 0 <= limit <= max_int64 + 1 ->
    accumulate limit 0 l = match parse_uint_text l with
                           | Some n => if n <=? limit then Some n else None | None => None end) as Hacc.
  { intros limit l Hl Hlim. rewrite accumulate_spec by (unfold max_int64, max_uint64 in *; lia). by destruct l. }
  assert (forall l n, parse_uint_text l = Some n -> 0 <= n) as Hnn.
  { intros [|b l] n; [done|]. cbn [parse_uint_text]. intros ?%parse_digits_ge; lia. }
  destruct (decide (sign = x2d)) as [->|Hm]; [|destruct (decide (sign = x2b)) as [->|Hp]].
  - change (bool_decide (x2d = x2b)) with false. change (bool_decide (x2d = x2d)) with true.
    cbn [orb]. destruct rest as [|b rest]; [done|]. rewrite Hacc by (unfold max_int64; done || lia).
    unfold parse_int64. destruct (parse_uint_text (b :: rest)) as [n|] eqn:E; [|done].
    specialize (Hnn _ _ E). unfold max_int64, min_int64.
    destruct (Z.leb_spec n (2 ^ 63 - 1 + 1)), (Z.leb_spec n (2 ^ 63)); try lia; [|done].
    destruct (Z.eqb_spec n (2 ^ 63 - 1 + 1)); f_equal; [lia|].
    rewrite swrap_small; [done|lia|split; lia].
  - change (bool_decide (x2b = x2b)) with true. change (bool_decide (x2b = x2d)) with false.
    cbn [orb]. destruct rest as [|b rest]; [done|]. rewrite Hacc by (unfold max_int64; done || lia).
    unfold parse_int64. destruct (parse_uint_text (b :: rest)) as [n|] eqn:E; [|done].
    specialize (Hnn _ _ E). unfold max_int64. destruct (Z.leb_spec n (2 ^ 63 - 1)); [|done].
    rewrite swrap_small; [done|lia|split; lia].
  - rewrite !bool_decide_false by done. cbn [orb]. rewrite Hacc by (unfold max_int64; done || lia).
    assert (parse_int64 (sign :: rest) =
      match parse_uint_text (sign :: rest) with
      | None => ParseSyntax
      | Some n => if n <=? max_int64 then ParsedInt n else ParseRange max_int64
      end) as -> by (unfold parse_int64; destruct sign; done).
    destruct (parse_uint_text (sign :: rest)) as [n|] eqn:E; [|done]. specialize (Hnn _ _ E).
    unfold max_int64. destruct (Z.leb_spec n (2 ^ 63 - 1)); [|done].
    rewrite swrap_small; [done|lia|split; lia].
Qed.
