(* ===== verification/Wire.v ===== *)
(** The native value encoding (src/native_codec_wire.go,
    src/native_codec_decode.go): the encoder with its byte limit, depth bound,
    item budget and cycle check; the decoder with its depth and item budgets;
    and their specification, the byte language [wire].

    [writeNativeValue] is proved equal to appending [wire (canon v)] exactly
    when the value is within the limits, and the decoder to accept exactly the
    language [wire]. *)

From S2P Require Export GoValue.

Definition nativeMaxFrameBytes : Z := 128 * 1024 * 1024.
Definition nativeMaxContainerItems : Z := 1000000.
Definition nativeMaxEncodeDepth : Z := 64.
Definition nativeMaxDecodeDepth : Z := 64.

(** The length that stands for an absent binary in compact payloads. *)
Definition nativeCompactNilU32 : Z := max_uint32.

(** ** The encoder *)

Inductive encError :=
| EncLimit                 (* nativeEncodeLimitError *)
| EncLimitNotPositive
| EncTooDeep
| EncTooManyItems
| EncCycle
| EncAggregate             (* "... exceeds aggregate item limit" *)
| EncBinaryTooLarge
| EncMapKeyTooLarge
| EncArrayTooLarge
| EncMapTooLarge
| EncCodec
| EncCodecNested
| EncMSetCount
| EncMSetPairs
| EncKeyValueCount.

#[global] Instance encError_eq_dec : EqDecision encError.
Proof. solve_decision. Defined.

(** [nativeEncodeBuffer] and [nativeEncodeState] threaded together. *)
Record encState := EncState {
  es_buf : gstr;
  es_remaining : Z;
  es_visiting : gset visit;
}.

Section encoder.
(** [nativeEncodeBuffer.limit]. *)
Variable limit : Z.

(** [nativeEncodeBuffer.ensure]. *)
Definition ensure (size : Z) (st : encState) : result encError unit :=
  if (size <? 0) || (limit - blen (es_buf st) <? size) then Err EncLimit else Ok tt.

(** [nativeEncodeBuffer.write] and [writeString]. *)
Definition write (bytes : gstr) (st : encState) : result encError encState :=
  let! _ := ensure (blen bytes) st in
  Ok (EncState (es_buf st ++ bytes) (es_remaining st) (es_visiting st)).

(** [nativeEncodeBuffer.writeByte]. *)
Definition writeByte (b : byte) (st : encState) : result encError encState :=
  let! _ := ensure 1 st in
  Ok (EncState (es_buf st ++ [b]) (es_remaining st) (es_visiting st)).

(** [nativeEncodeIdentity]: [None] for a value without identity. *)
Definition nativeEncodeIdentity (v : val) : option visit :=
  match v with
  | VArray id _ | VMap id _ => id
  | _ => None
  end.

(** [nativeEncodeState.enter]. *)
Definition enter (id : option visit) (depth : Z) (st : encState) : result encError encState :=
  if nativeMaxEncodeDepth <? depth then Err EncTooDeep
  else
    let remaining := es_remaining st - 1 in
    if remaining <? 0 then Err EncTooManyItems
    else match id with
    | None => Ok (EncState (es_buf st) remaining (es_visiting st))
    | Some id =>
        if bool_decide (id ∈ es_visiting st) then Err EncCycle
        else Ok (EncState (es_buf st) remaining ({[ id ]} ∪ es_visiting st))
    end.

(** The closure [enter] returns. *)
Definition leave (id : option visit) (st : encState) : encState :=
  match id with
  | None => st
  | Some id => EncState (es_buf st) (es_remaining st) (es_visiting st ∖ {[ id ]})
  end.

(** [ensureNativeEncodeContainerBudget]. *)
Definition ensureNativeEncodeContainerBudget (count : Z) (st : encState) : result encError unit :=
  if es_remaining st <? count then Err EncAggregate else Ok tt.

(** [writeNativeInt]: tag 3 and the two's complement of an [int64]. *)
Definition writeNativeInt (value : Z) (st : encState) : result encError encState :=
  let! st := writeByte x03 st in
  write (be_encode 8 (wrap 64 value)) st.

(** [writeNativeUint]. *)
Definition writeNativeUint (value : Z) (st : encState) : result encError encState :=
  if value <=? max_int64 then writeNativeInt value st
  else
    let! st := writeByte x08 st in
    write (be_encode 8 value) st.

(** [writeNativeFloat]. *)
Definition writeNativeFloat (bits : Z) (st : encState) : result encError encState :=
  let! st := writeByte x07 st in
  write (be_encode 8 bits) st.

(** [writeNativeContainerHeader]: the count is converted to [uint32]. *)
Definition writeNativeContainerHeader (tag : byte) (count : Z) (st : encState)
  : result encError encState :=
  let! st := writeByte tag st in
  write (be_encode 4 (wrap 32 count)) st.

(** [writeNativeBytes] and [writeNativeString]. *)
Definition writeNativeString (value : gstr) (st : encState) : result encError encState :=
  if max_uint32 <? blen value then Err EncBinaryTooLarge
  else
    let! st := writeNativeContainerHeader x04 (blen value) st in
    write value st.

(** [writeNativeMapKey]. *)
Definition writeNativeMapKey (key : gstr) (st : encState) : result encError encState :=
  if max_uint32 <? blen key then Err EncMapKeyTooLarge
  else
    let! st := write (be_encode 4 (wrap 32 (blen key))) st in
    write key st.

(** [writeNativeSingleFieldMap]. *)
Definition writeNativeSingleFieldMap (key : gstr) (st : encState) : result encError encState :=
  let! st := writeNativeContainerHeader x06 1 st in
  writeNativeMapKey key st.

(** [writeNativeArray], given the writer of one element. *)
Definition writeNativeArray {A} (writeItem : encState -> A -> result encError encState)
  (values : list A) (st : encState) : result encError encState :=
  if max_uint32 <? blen values then Err EncArrayTooLarge
  else
    let! _ := ensureNativeEncodeContainerBudget (blen values) st in
    let! st := writeNativeContainerHeader x05 (blen values) st in
    rfold writeItem st values.

(** The loop body of [writeNativeMap]. *)
Definition writeNativeEntry (entry : gstr * (encState -> result encError encState))
  (st : encState) : result encError encState :=
  let! st := writeNativeMapKey entry.1 st in
  entry.2 st.

(** [writeNativeMap], given the writers of the values: keys in sorted order. *)
Definition writeNativeMap
  (values : list (gstr * (encState -> result encError encState))) (st : encState)
  : result encError encState :=
  if max_uint32 <? blen values then Err EncMapTooLarge
  else
    let! _ := ensureNativeEncodeContainerBudget (blen values) st in
    let! st := writeNativeContainerHeader x06 (blen values) st in
    rfold (fun st entry => writeNativeEntry entry st) st (sort_entries values).

(** [writeNativeValue]. *)
Fixpoint writeNativeValue (v : val) (depth : Z) (st : encState) {struct v}
  : result encError encState :=
  match v with
  | VDeferred None => Err EncCodec
  | VDeferred (Some (VDeferred _)) => Err EncCodecNested
  | VDeferred (Some v) => writeNativeValue v depth st
  | _ =>
      let! st := enter (nativeEncodeIdentity v) depth st in
      let! st :=
        match v with
        | VNil => writeByte x00 st
        | VBool true => writeByte x01 st
        | VBool false => writeByte x02 st
        | VInt _ z => writeNativeInt z st
        | VUint _ z => writeNativeUint z st
        | VFloat bits => writeNativeFloat bits st
        | VString s => writeNativeString s st
        | VBytes s => writeNativeString s st
        | VArray _ l =>
            writeNativeArray (fun st v => writeNativeValue v (depth + 1) st) l st
        | VMap _ m =>
            writeNativeMap ((fun kv => (kv.1, writeNativeValue kv.2 (depth + 1))) <$> m) st
        | VDeferred _ => Ok st
        end in
      Ok (leave (nativeEncodeIdentity v) st)
  end.
End encoder.

(** [encodeNativeValueWithLimit] on a value without a precomputed size. *)
Definition encodeNativeValueWithLimit (v : val) (limit : Z) : result encError gstr :=
  if limit <=? 0 then Err EncLimitNotPositive
  else
    let! st := writeNativeValue limit v 0 (EncState [] nativeMaxContainerItems ∅) in
    Ok (es_buf st).

(** [encodeNativeValue]. *)
Definition encodeNativeValue (v : val) : result encError gstr :=
  encodeNativeValueWithLimit v nativeMaxFrameBytes.

(** ** The wire language *)

(** What the receiver of an encoded value reads: integers widened to [int64]
    (or [uint64] above its range), text as bytes, map entries in key order. *)
Fixpoint canon (v : val) : val :=
  match v with
  | VInt _ z => VInt IInt64 z
  | VUint _ z => if z <=? max_int64 then VInt IInt64 z else VUint UUint64 z
  | VString s | VBytes s => VBytes s
  | VArray _ l => VArray None (canon <$> l)
  | VMap _ m => VMap None (sort_entries (prod_map id canon <$> m))
  | VDeferred (Some v) => canon v
  | VDeferred None => VNil
  | VNil | VBool _ | VFloat _ => v
  end.

(** The bytes of a decoded value, its map entries in the order they carry. *)
Fixpoint wire (v : val) : gstr :=
  match v with
  | VNil => [x00]
  | VBool true => [x01]
  | VBool false => [x02]
  | VInt _ z => x03 :: be_encode 8 (wrap 64 z)
  | VUint _ z => x08 :: be_encode 8 z
  | VFloat bits => x07 :: be_encode 8 bits
  | VString s | VBytes s => x04 :: be_encode 4 (blen s) ++ s
  | VArray _ l => x05 :: be_encode 4 (blen l) ++ concat (wire <$> l)
  | VMap _ m =>
      x06 :: be_encode 4 (blen m) ++
      concat ((fun kv => be_encode 4 (blen kv.1) ++ kv.1 ++ wire kv.2) <$> m)
  | VDeferred _ => []
  end.

(** Items charged against the item budget: one per value. *)
Fixpoint nodes (v : val) : Z :=
  match v with
  | VArray _ l => 1 + zsum (nodes <$> l)
  | VMap _ m => 1 + zsum ((fun kv => nodes kv.2) <$> m)
  | VDeferred (Some v) => nodes v
  | _ => 1
  end.

Definition fresh_id (id : option visit) (inside : gset visit) : bool :=
  match id with Some id => negb (bool_decide (id ∈ inside)) | None => true end.

Definition inside_id (id : option visit) (inside : gset visit) : gset visit :=
  match id with Some id => {[ id ]} ∪ inside | None => inside end.

(** The static conditions: depth, no container inside itself, lengths that fit
    the 32-bit fields, codec calls that succeed. *)
Fixpoint encodable (inside : gset visit) (d : Z) (v : val) : bool :=
  match v with
  | VDeferred None | VDeferred (Some (VDeferred _)) => false
  | VDeferred (Some v) => encodable inside d v
  | VString s | VBytes s => (d <=? nativeMaxEncodeDepth) && (blen s <=? max_uint32)
  | VArray id l =>
      (d <=? nativeMaxEncodeDepth) && fresh_id id inside && (blen l <=? max_uint32) &&
      forallb (encodable (inside_id id inside) (d + 1)) l
  | VMap id m =>
      (d <=? nativeMaxEncodeDepth) && fresh_id id inside && (blen m <=? max_uint32) &&
      forallb (fun kv => (blen kv.1 <=? max_uint32) &&
                         encodable (inside_id id inside) (d + 1) kv.2) m
  | _ => d <=? nativeMaxEncodeDepth
  end.

(** The invariants of Go values: machine integers in range, distinct map keys. *)
Fixpoint go_value (v : val) : bool :=
  match v with
  | VInt k z => (- 2 ^ (ikind_width k - 1) <=? z) && (z <? 2 ^ (ikind_width k - 1))
  | VUint k z => (0 <=? z) && (z <? 2 ^ ukind_width k)
  | VFloat bits => (0 <=? bits) && (bits <? 2 ^ 64)
  | VArray _ l => forallb go_value l
  | VMap _ m => bool_decide (NoDup (keys m)) && forallb (fun kv => go_value kv.2) m
  | VDeferred (Some v) => go_value v
  | _ => true
  end.

Lemma nodes_pos v : 1 <= nodes v.
Proof.
  induction v as [| | | | | | |id l IH|id m IH|o IH] using val_nested_ind; cbn; try lia.
  - enough (0 <= zsum (nodes <$> l)) by lia. apply zsum_nonneg.
    rewrite Forall_fmap. eapply Forall_impl; [exact IH|]. cbn. lia.
  - enough (0 <= zsum ((fun kv => nodes kv.2) <$> m)) by lia. apply zsum_nonneg.
    rewrite Forall_fmap. eapply Forall_impl; [exact IH|]. cbn. lia.
  - destruct o as [v|]; [|lia]. by apply IH.
Qed.

Lemma zsum_nodes_ge l : blen l <= zsum (nodes <$> l).
Proof.
  induction l as [|v l IH]; [done|]. rewrite blen_cons. cbn.
  pose proof (nodes_pos v). unfold zsum in *. lia.
Qed.

Lemma zsum_nodes_ge_map (m : list (gstr * val)) : blen m <= zsum ((fun kv => nodes kv.2) <$> m).
Proof.
  induction m as [|v l IH]; [done|]. rewrite blen_cons. cbn.
  pose proof (nodes_pos v.2). unfold zsum in *. lia.
Qed.

(** ** The encoder appends the wire form *)

Section encoder_spec.
Variable limit : Z.

Definition good (st : encState) : Prop := 0 <= es_remaining st /\ blen (es_buf st) <= limit.

(** [f] appends [l] and charges [n] items exactly when [c] holds of the
    containers being visited and both budgets suffice. *)
Definition runs (l : gstr) (n : Z) (c : gset visit -> bool)
  (f : encState -> result encError encState) : Prop :=
  forall st st', good st ->
    f st = Ok st' <->
    c (es_visiting st) = true /\ n <= es_remaining st /\
    blen (es_buf st) + blen l <= limit /\
    st' = EncState (es_buf st ++ l) (es_remaining st - n) (es_visiting st).

Lemma runs_write l : runs l 0 (fun _ => true) (write limit l).
Proof.
  intros [buf rem V] st' [Hr Hb]; unfold write, ensure; cbn in *.
  pose proof (blen_nonneg l).
  destruct (Z.ltb_spec (blen l) 0); [lia|]. cbn.
  destruct (Z.ltb_spec (limit - blen buf) (blen l)); cbn.
  - split; [done | intros (_ & _ & ? & _); lia].
  - rewrite Z.sub_0_r. split.
    + intros [= <-]. repeat split; lia.
    + by intros (_ & _ & _ & ->).
Qed.

Lemma runs_writeByte b : runs [b] 0 (fun _ => true) (writeByte limit b).
Proof. apply (runs_write [b]). Qed.

Lemma runs_bind l1 l2 n1 n2 c1 c2 f g :
  0 <= n1 -> 0 <= n2 ->
  runs l1 n1 c1 f -> runs l2 n2 c2 g ->
  runs (l1 ++ l2) (n1 + n2) (fun V => c1 V && c2 V) (fun st => let! st := f st in g st).
Proof.
  intros Hn1 Hn2 Hf Hg st st' Hst. pose proof Hst as [Hr Hb].
  pose proof (blen_nonneg l1). pose proof (blen_nonneg l2).
  rewrite rbind_ok, blen_app, andb_true_iff. split.
  - intros (st1 & H1 & H2). apply Hf in H1 as (? & ? & ? & ->); [|done].
    apply Hg in H2 as (? & ? & ? & ->).
    + cbn in *. rewrite blen_app in *. repeat split; try done; try lia.
      f_equal; [by rewrite app_assoc | lia].
    + split; cbn; rewrite ?blen_app; lia.
  - intros ((Hc1 & Hc2) & Hn & Hl & ->).
    eexists. split; [apply Hf; [done|]; repeat split; try done; lia|].
    apply Hg; [split; cbn; rewrite ?blen_app; lia|].
    cbn. rewrite blen_app. repeat split; try done; try lia.
    f_equal; [by rewrite app_assoc | lia].
Qed.

Lemma runs_ext l1 l2 n1 n2 c1 c2 f g :
  l1 = l2 -> n1 = n2 -> (forall V, c1 V = c2 V) -> (forall st, f st = g st) ->
  runs l1 n1 c1 f -> runs l2 n2 c2 g.
Proof. intros -> -> Hc Hfg Hf st st' Hst. rewrite <- Hc, <- Hfg. by apply Hf. Qed.

Lemma runs_nil : runs [] 0 (fun _ => true) Ok.
Proof.
  intros [buf rem V] st' [Hr Hb]; cbn in *. rewrite app_nil_r, Z.sub_0_r. split.
  - intros [= <-]. repeat split; cbn; unfold blen in *; cbn in *; lia.
  - by intros (_ & _ & _ & ->).
Qed.

Lemma runs_fold {A} (L : A -> gstr) (N : A -> Z) (C : gset visit -> A -> bool)
  (F : encState -> A -> result encError encState) (l : list A) :
  Forall (fun a => 0 <= N a /\ runs (L a) (N a) (fun V => C V a) (fun st => F st a)) l ->
  runs (concat (L <$> l)) (zsum (N <$> l)) (fun V => forallb (C V) l)
    (fun st => rfold F st l).
Proof.
  induction 1 as [|a l [Ha Hr] Hl IH]; cbn.
  - apply runs_nil.
  - apply (runs_bind (L a) _ (N a) _ (fun V => C V a)); [done| |done|done].
    apply zsum_nonneg. rewrite Forall_fmap. eapply Forall_impl; [exact Hl|].
    by intros ? [? _].
Qed.

(** A guard that only looks at the state's budget, then a writer that needs it. *)
Lemma runs_guard l n c f k :
  k <= n -> runs l n c f ->
  runs l n c (fun st => let! _ := ensureNativeEncodeContainerBudget k st in f st).
Proof.
  intros Hk Hf st st' Hst. unfold ensureNativeEncodeContainerBudget.
  destruct (Z.ltb_spec (es_remaining st) k); cbn; [|by apply Hf].
  split; [done|]. intros (_ & ? & _). lia.
Qed.

(** Entering a container around a writer of its contents. *)
Lemma runs_enter id d l n c f :
  0 <= n -> runs l n c f ->
  runs l (1 + n)
    (fun V => (d <=? nativeMaxEncodeDepth) && fresh_id id V && c (inside_id id V))
    (fun st => let! st := enter id d st in let! st := f st in Ok (leave id st)).
Proof.
  intros Hn Hf [buf rem V] st' [Hr Hb]. unfold enter; cbn in *.
  rewrite Z.leb_antisym. destruct (nativeMaxEncodeDepth <? d); cbn; [by split; [|intros ([=] & _)]|].
  destruct (Z.ltb_spec (rem - 1) 0); cbn.
  { split; [done|]. intros (_ & ? & _). lia. }
  destruct id as [id|]; cbn.
  - case_bool_decide as Hid; cbn; [by split; [|intros ([=] & _)]|].
    rewrite rbind_ok. split.
    + intros (st1 & H1 & [= <-]).
      apply Hf in H1 as (Hc & ? & ? & ->); [cbn in *|split; cbn; lia].
      repeat split; try done; try lia. f_equal; [lia|]. set_solver.
    + intros (Hc & ? & ? & ->). eexists. split.
      * apply Hf; [split; cbn; lia|]. cbn. repeat split; [done|lia|lia].
      * cbn. do 2 f_equal; [lia|]. set_solver.
  - rewrite rbind_ok. split.
    + intros (st1 & H1 & [= <-]).
      apply Hf in H1 as (Hc & ? & ? & ->); [cbn in *|split; cbn; lia].
      repeat split; try done; try lia. f_equal; lia.
    + intros (Hc & ? & ? & ->). eexists. split.
      * apply Hf; [split; cbn; lia|]. cbn. repeat split; [done|lia|lia].
      * cbn. do 2 f_equal; lia.
Qed.

Lemma runs_leaf l c f d :
  runs l 0 (fun _ => c) f ->
  runs l 1 (fun _ => (d <=? nativeMaxEncodeDepth) && c)
    (fun st => let! st := enter None d st in let! st := f st in Ok (leave None st)).
Proof.
  intros Hf. eapply runs_ext; [| | | |apply (runs_enter None d l 0 (fun _ => c) f); [done|exact Hf]];
    cbn; [done|done| |done].
  intros V. by rewrite andb_true_r.
Qed.

Lemma runs_bounded (k m : Z) e l n c f :
  (k <= m -> runs l n c f) ->
  runs l n (fun V => (k <=? m) && c V) (fun st => if m <? k then Err e else f st).
Proof.
  intros Hf st st' Hst. rewrite Z.leb_antisym. destruct (Z.ltb_spec m k); cbn.
  - by split; [|intros ([=] & _)].
  - by apply Hf.
Qed.

Lemma runs_tagged tag l n c f :
  0 <= n -> runs l n c f ->
  runs (tag :: l) n c (fun st => let! st := writeByte limit tag st in f st).
Proof.
  intros Hn Hf. apply (runs_bind [tag] l 0 n (fun _ => true) c); [done|done| |done].
  apply runs_writeByte.
Qed.

Lemma runs_header tag count l n c f :
  0 <= n -> 0 <= count <= max_uint32 -> runs l n c f ->
  runs (tag :: be_encode 4 count ++ l) n c
    (fun st => let! st := writeNativeContainerHeader limit tag count st in f st).
Proof.
  intros Hn Hc Hf. unfold writeNativeContainerHeader.
  rewrite wrap_small by (unfold in_uint, max_uint32 in *; lia).
  eapply (runs_bind (tag :: be_encode 4 count) l 0 n (fun _ => true) c); [done|done| |done].
  apply runs_tagged; [done|]. apply runs_write.
Qed.

Lemma runs_string s :
  runs (x04 :: be_encode 4 (blen s) ++ s) 0 (fun _ => blen s <=? max_uint32)
    (writeNativeString limit s).
Proof.
  unfold writeNativeString. eapply runs_ext; [done|done| |done|].
  2: { apply (runs_bounded (blen s) max_uint32 _ _ _ (fun _ => true)). intros Hs.
       apply runs_header; [done| |apply runs_write]. pose proof (blen_nonneg s). lia. }
  intros V. apply andb_true_r.
Qed.

Lemma runs_mapKey k :
  runs (be_encode 4 (blen k) ++ k) 0 (fun _ => blen k <=? max_uint32)
    (writeNativeMapKey limit k).
Proof.
  unfold writeNativeMapKey. eapply runs_ext; [done|done| |done|].
  2: { apply (runs_bounded (blen k) max_uint32 _ _ _ (fun _ => true)). intros Hs.
       pose proof (blen_nonneg k).
       rewrite wrap_small by (unfold in_uint, max_uint32 in *; lia).
       apply (runs_bind _ _ 0 0 (fun _ => true) (fun _ => true)); [done|done| |];
         apply runs_write. }
  intros V. apply andb_true_r.
Qed.

Lemma runs_int z : runs (x03 :: be_encode 8 (wrap 64 z)) 0 (fun _ => true) (writeNativeInt limit z).
Proof. apply runs_tagged; [done|]. apply runs_write. Qed.

Lemma runs_uint z :
  runs (wire (if z <=? max_int64 then VInt IInt64 z else VUint UUint64 z)) 0 (fun _ => true)
    (writeNativeUint limit z).
Proof.
  unfold writeNativeUint. destruct (z <=? max_int64); [apply runs_int|].
  apply runs_tagged; [done|]. apply runs_write.
Qed.

Lemma runs_array {A} (L : A -> gstr) (N : A -> Z) C F (l : list A) :
  Forall (fun a => 1 <= N a /\ runs (L a) (N a) (fun V => C V a) (fun st => F st a)) l ->
  runs (x05 :: be_encode 4 (blen l) ++ concat (L <$> l)) (zsum (N <$> l))
    (fun V => (blen l <=? max_uint32) && forallb (C V) l)
    (writeNativeArray limit F l).
Proof.
  intros Hl.
  assert (blen l <= zsum (N <$> l)) as Hn.
  { clear -Hl. induction Hl as [|a l [Ha _] Hl IH]; [done|].
    rewrite blen_cons. cbn. unfold zsum in *. lia. }
  pose proof (blen_nonneg l).
  apply runs_bounded. intros Hlen. apply runs_guard; [done|].
  apply runs_header; [lia|lia|]. apply runs_fold.
  eapply Forall_impl; [exact Hl|]. cbn. intros a [? ?]. split; [lia|done].
Qed.

Lemma runs_map {A} (L : A -> gstr) (N : A -> Z) C F (m : list (gstr * A)) :
  NoDup (keys m) ->
  Forall (fun kv => 1 <= N kv.2 /\ runs (L kv.2) (N kv.2) (fun V => C V kv.2) (F kv.2)) m ->
  runs (x06 :: be_encode 4 (blen m) ++
        concat ((fun kv => be_encode 4 (blen kv.1) ++ kv.1 ++ L kv.2) <$> sort_entries m))
    (zsum ((fun kv => N kv.2) <$> m))
    (fun V => (blen m <=? max_uint32) &&
              forallb (fun kv => (blen kv.1 <=? max_uint32) && C V kv.2) m)
    (writeNativeMap limit (prod_map id F <$> m)).
Proof.
  intros Hnd Hm. unfold writeNativeMap.
  replace (blen (prod_map id F <$> m)) with (blen m) by (unfold blen; by rewrite length_fmap).
  rewrite sort_entries_fmap.
  assert (blen m <= zsum ((fun kv => N kv.2) <$> m)) as Hn.
  { clear -Hm. induction Hm as [|a l [Ha _] Hl IH]; [done|].
    rewrite blen_cons. cbn. unfold zsum in *. lia. }
  pose proof (blen_nonneg m). pose proof (sort_entries_perm m Hnd) as Hp.
  apply runs_bounded. intros Hlen. apply runs_guard; [done|].
  apply runs_header; [lia|lia|].
  rewrite (zsum_perm _ ((fun kv => N kv.2) <$> sort_entries m)) by (by rewrite Hp).
  eapply runs_ext; [done|done| |intros st; symmetry; apply rfold_fmap|].
  2: { apply (runs_fold _ _ (fun V kv => (blen kv.1 <=? max_uint32) && C V kv.2)).
       rewrite Hp. eapply Forall_impl; [exact Hm|]. intros [k a] [Ha Hr]; cbn in *.
       split; [lia|]. unfold writeNativeEntry; cbn.
       rewrite app_assoc. apply (runs_bind _ _ 0 (N a) _ (fun V => C V a)); [done|lia| |done].
       apply runs_mapKey. }
  intros V. cbn. by apply forallb_perm.
Qed.
End encoder_spec.

(** [writeNativeValue] succeeds exactly on the values within the limits, and
    then appends the wire form of the canonical value, charges one item per
    node and restores the set of containers being visited. *)
Lemma runs_value limit v d :
  go_value v = true ->
  runs limit (wire (canon v)) (nodes v) (fun V => encodable V d v) (writeNativeValue limit v d).
Proof.
  revert d.
  induction v as [|b|k z|k z|z|s|s|id l IH|id m IH|o IH] using val_nested_ind; intros d Hgo.
  - eapply runs_ext; [| | | |apply (runs_leaf limit _ true); apply runs_writeByte];
      try done. intros; apply andb_true_r.
  - eapply runs_ext; [| | | |apply (runs_leaf limit _ true); apply (runs_writeByte limit (if b then x01 else x02))];
      try done; try (by destruct b). intros; apply andb_true_r.
  - eapply runs_ext; [| | | |apply (runs_leaf limit _ true); apply runs_int];
      try done. intros; apply andb_true_r.
  - eapply runs_ext; [| | | |apply (runs_leaf limit _ true); apply runs_uint];
      try done. intros; apply andb_true_r.
  - eapply runs_ext; [| | | |apply (runs_leaf limit _ true); apply runs_tagged; [done|apply runs_write]];
      try done. intros; apply andb_true_r.
  - eapply runs_ext; [| | | |apply runs_leaf, runs_string]; done.
  - eapply runs_ext; [| | | |apply runs_leaf, runs_string]; done.
  - cbn [canon wire nodes encodable].
    eapply runs_ext; [| | | |apply (runs_enter limit id d); [|apply (runs_array limit
      (fun v => wire (canon v)) nodes (fun V v => encodable V (d + 1) v)
      (fun st v => writeNativeValue limit v (d + 1) st) l)]].
    + rewrite <- list_fmap_compose. unfold blen. by rewrite length_fmap.
    + done.
    + intros V. cbn. by rewrite !andb_assoc.
    + done.
    + apply zsum_nonneg. rewrite Forall_fmap. apply Forall_forall. intros x _.
      pose proof (nodes_pos x). cbn. lia.
    + cbn in Hgo. apply Forall_forall. intros x Hx. split; [apply nodes_pos|].
      rewrite Forall_forall in IH. apply IH; [done|].
      rewrite forallb_forall in Hgo. by apply Hgo, list_elem_of_In.
  - cbn [canon wire nodes encodable]. cbn in Hgo. apply andb_true_iff in Hgo as [Hnd Hgo].
    apply bool_decide_eq_true in Hnd.
    eapply runs_ext; [| | | |apply (runs_enter limit id d); [|apply (runs_map limit
      (fun v => wire (canon v)) nodes (fun V v => encodable V (d + 1) v)
      (fun v => writeNativeValue limit v (d + 1)) m Hnd)]].
    + rewrite sort_entries_fmap, <- list_fmap_compose.
      unfold blen. by rewrite length_fmap, length_sort_entries.
    + done.
    + intros V. cbn. by rewrite !andb_assoc.
    + done.
    + apply zsum_nonneg. rewrite Forall_fmap. apply Forall_forall. intros x _.
      pose proof (nodes_pos x.2). cbn. lia.
    + apply Forall_forall. intros x Hx. split; [apply nodes_pos|].
      rewrite Forall_forall in IH. apply IH; [done|].
      rewrite forallb_forall in Hgo. by apply Hgo, list_elem_of_In.
  - cbn in *. destruct o as [w|]; [|by intros st st' _; split; [|intros ([=] & _)]].
    destruct w; try (by apply IH).
    by intros st st' _; split; [|intros ([=] & _)].
Qed.

(** ** Single-pass payload writers

    The hot key-value commands are written without building the map they
    denote (src/native_codec_wire.go, src/native_codec_kv_wire.go). *)

Record nativeMGetPayload := MGetPayload {
  mget_stringKeys : option (list gstr);    (* [None]: a nil slice *)
  mget_args : list val;
  mget_id : option visit;                  (* identity of the slice used *)
}.

Record nativeMSetPayload := MSetPayload {
  mset_keys : option (list gstr);
  mset_values : list val;
  mset_args : list val;
}.

Record nativeKeyValueCommandPayload := KeyValueCommandPayload {
  kv_command : gstr;
  kv_keys : list gstr;
  kv_values : list val;
}.

Record nativeKeyCommandPayload := KeyCommandPayload {
  kc_command : gstr;
  kc_keys : list gstr;
  kc_id : option visit;
}.

(** [args[2*index], args[2*index+1]]: the pairs of an argument list. *)
Fixpoint pair_up {A} (l : list A) : list (A * A) :=
  match l with
  | a :: b :: l => (a, b) :: pair_up l
  | _ => []
  end.

Definition mget_items (p : nativeMGetPayload) : list val :=
  match mget_stringKeys p with Some ks => VString <$> ks | None => mget_args p end.

Definition mset_pairs (p : nativeMSetPayload) : list (val * val) :=
  match mset_keys p with
  | Some ks => zip (VString <$> ks) (mset_values p)
  | None => pair_up (mset_args p)
  end.

Definition kv_items (p : nativeKeyValueCommandPayload) : list val :=
  concat (zip_with (fun k v => [VString k; v]) (kv_keys p) (kv_values p)).

Section payloads.
Variable limit : Z.

Definition writeItems (depth : Z) (items : list val) (st : encState)
  : result encError encState :=
  rfold (fun st v => writeNativeValue limit v depth st) st items.

Definition writeNativeMGetPayload (p : nativeMGetPayload) (depth : Z) (st : encState)
  : result encError encState :=
  let! _ := ensureNativeEncodeContainerBudget 1 st in
  let! st := writeNativeSingleFieldMap limit (go "keys") st in
  let! st := enter (mget_id p) (depth + 1) st in
  let! _ := ensureNativeEncodeContainerBudget (blen (mget_items p)) st in
  let! st := writeNativeContainerHeader limit x05 (blen (mget_items p)) st in
  let! st := writeItems (depth + 2) (mget_items p) st in
  Ok (leave (mget_id p) st).

(** The body of the loop over the pairs. *)
Definition writeMSetPair (depth : Z) (st : encState) (pair : val * val)
  : result encError encState :=
  let! st := enter None (depth + 2) st in
  let! _ := ensureNativeEncodeContainerBudget 2 st in
  let! st := writeNativeContainerHeader limit x05 2 st in
  let! st := writeNativeValue limit pair.1 (depth + 3) st in
  let! st := writeNativeValue limit pair.2 (depth + 3) st in
  Ok (leave None st).

(** The length checks that precede the pairs. *)
Definition mset_shape (p : nativeMSetPayload) : result encError unit :=
  match mset_keys p with
  | Some ks => if blen ks =? blen (mset_values p) then Ok tt else Err EncMSetCount
  | None => if blen (mset_args p) mod 2 =? 0 then Ok tt else Err EncMSetPairs
  end.

Definition writeNativeMSetPayload (p : nativeMSetPayload) (depth : Z) (st : encState)
  : result encError encState :=
  let! _ := ensureNativeEncodeContainerBudget 1 st in
  let! st := writeNativeSingleFieldMap limit (go "pairs") st in
  let! _ := mset_shape p in
  let! st := enter None (depth + 1) st in
  let! _ := ensureNativeEncodeContainerBudget (blen (mset_pairs p)) st in
  let! st := writeNativeContainerHeader limit x05 (blen (mset_pairs p)) st in
  let! st := rfold (writeMSetPair depth) st (mset_pairs p) in
  Ok (leave None st).

(** The two-field map shared by the generic command payloads. *)
Definition writeCommandPayload (command : gstr) (id : option visit) (count : Z)
  (items : list val) (depth : Z) (st : encState) : result encError encState :=
  let! _ := ensureNativeEncodeContainerBudget 2 st in
  let! st := writeNativeContainerHeader limit x06 2 st in
  let! st := writeNativeMapKey limit (go "command") st in
  let! st := writeNativeValue limit (VString command) (depth + 1) st in
  let! st := writeNativeMapKey limit (go "args") st in
  let! st := enter id (depth + 1) st in
  let! _ := ensureNativeEncodeContainerBudget count st in
  let! st := writeNativeContainerHeader limit x05 count st in
  let! st := writeItems (depth + 2) items st in
  Ok (leave id st).

Definition writeNativeKeyValueCommandPayload (p : nativeKeyValueCommandPayload) (depth : Z)
  (st : encState) : result encError encState :=
  if blen (kv_keys p) =? blen (kv_values p) then
    writeCommandPayload (kv_command p) None (2 * blen (kv_keys p)) (kv_items p) depth st
  else Err EncKeyValueCount.

Definition writeNativeKeyCommandPayload (p : nativeKeyCommandPayload) (depth : Z)
  (st : encState) : result encError encState :=
  writeCommandPayload (kc_command p) (kc_id p) (blen (kc_keys p)) (VString <$> kc_keys p) depth st.

(** [writeNativeValue] on a payload struct: entered like any value, without
    identity. *)
Definition writePayload (w : Z -> encState -> result encError encState) (depth : Z)
  (st : encState) : result encError encState :=
  let! st := enter None depth st in
  let! st := w depth st in
  Ok (leave None st).
End payloads.

(** The values the payloads stand for. *)
Definition mget_value (p : nativeMGetPayload) : val :=
  VMap None [(go "keys", VArray (mget_id p) (mget_items p))].

Definition mset_value (p : nativeMSetPayload) : val :=
  VMap None [(go "pairs", VArray None ((fun kv => VArray None [kv.1; kv.2]) <$> mset_pairs p))].

Lemma rbind_assoc {E A B C} (m : result E A) (f : A -> result E B) (g : B -> result E C) :
  rbind (rbind m f) g = rbind m (fun a => rbind (f a) g).
Proof. by destruct m. Qed.

Lemma rbind_ext {E A B} (m : result E A) (f g : A -> result E B) :
  (forall a, f a = g a) -> rbind m f = rbind m g.
Proof. intros H. destruct m; cbn; auto. Qed.

Lemma rbind_ret {E A} (m : result E A) : rbind m Ok = m.
Proof. by destruct m. Qed.

Lemma writePayload_singleton limit key v w depth st :
  (forall st, w depth st =
     let! _ := ensureNativeEncodeContainerBudget 1 st in
     let! st := writeNativeSingleFieldMap limit key st in
     writeNativeValue limit v (depth + 1) st) ->
  writePayload w depth st = writeNativeValue limit (VMap None [(key, v)]) depth st.
Proof.
  intros Hw. unfold writePayload. cbn [writeNativeValue nativeEncodeIdentity].
  apply rbind_ext. intros st1. rewrite Hw. f_equal.
  unfold writeNativeMap. cbn [blen]. change (blen _) with 1.
  change (max_uint32 <? 1) with false. cbn [negb].
  apply rbind_ext. intros _. unfold writeNativeSingleFieldMap. rewrite rbind_assoc.
  apply rbind_ext. intros st2.
  replace (sort_entries _) with [(key, writeNativeValue limit v (depth + 1))].
  - cbn. unfold writeNativeEntry. cbn. by rewrite rbind_ret.
  - cbn. unfold sort_entries. cbn. rewrite bool_decide_true by done. done.
Qed.

Lemma writeNativeArray_unfold {A} limit (F : encState -> A -> result encError encState) l st :
  blen l <= max_uint32 ->
  writeNativeArray limit F l st =
    let! _ := ensureNativeEncodeContainerBudget (blen l) st in
    let! st := writeNativeContainerHeader limit x05 (blen l) st in
    rfold F st l.
Proof. intros H. unfold writeNativeArray. destruct (Z.ltb_spec max_uint32 (blen l)); [lia|done]. Qed.

(** Unfolding of [writeNativeValue] at an array that fits a 32-bit count. *)
Lemma writeNativeValue_array limit id l d st :
  blen l <= max_uint32 ->
  writeNativeValue limit (VArray id l) d st =
    let! st := enter id d st in
    let! _ := ensureNativeEncodeContainerBudget (blen l) st in
    let! st := writeNativeContainerHeader limit x05 (blen l) st in
    let! st := writeItems limit (d + 1) l st in
    Ok (leave id st).
Proof.
  intros Hl. cbn [writeNativeValue nativeEncodeIdentity]. apply rbind_ext. intros st1.
  rewrite writeNativeArray_unfold by done. by rewrite !rbind_assoc.
Qed.

(** The single-pass MGET writer produces exactly what the generic encoder
    produces on the map [{"keys": [...]}], errors included. *)
Theorem mget_payload_equiv limit p depth st :
  blen (mget_items p) <= max_uint32 ->
  writePayload (writeNativeMGetPayload limit p) depth st =
  writeNativeValue limit (mget_value p) depth st.
Proof.
  intros Hl. apply writePayload_singleton. intros st1.
  unfold writeNativeMGetPayload. do 2 (apply rbind_ext; intros ?).
  rewrite writeNativeValue_array by done.
  replace (depth + 1 + 1) with (depth + 2) by lia. done.
Qed.

Lemma writeMSetPair_value limit depth kv st :
  writeMSetPair limit depth st kv =
  writeNativeValue limit (VArray None [kv.1; kv.2]) (depth + 2) st.
Proof.
  rewrite writeNativeValue_array by done. unfold writeMSetPair.
  do 3 (apply rbind_ext; intros ?). replace (depth + 2 + 1) with (depth + 3) by lia.
  unfold writeItems. cbn. rewrite rbind_assoc. apply rbind_ext. intros st1.
  rewrite rbind_assoc. by apply rbind_ext.
Qed.

(** The single-pass MSET writer produces exactly what the generic encoder
    produces on the map of key/value pairs, whenever its length checks pass. *)
Theorem mset_payload_equiv limit p depth st :
  mset_shape p = Ok tt -> blen (mset_pairs p) <= max_uint32 ->
  writePayload (writeNativeMSetPayload limit p) depth st =
  writeNativeValue limit (mset_value p) depth st.
Proof.
  intros Hs Hl. apply writePayload_singleton. intros st1.
  unfold writeNativeMSetPayload. do 2 (apply rbind_ext; intros ?).
  assert (blen ((fun kv => VArray None [kv.1; kv.2]) <$> mset_pairs p) = blen (mset_pairs p)) as Hb.
  { unfold blen. by rewrite length_fmap. }
  rewrite Hs, writeNativeValue_array by (by rewrite Hb). rewrite Hb. cbn [rbind].
  do 3 (apply rbind_ext; intros ?). unfold writeItems. rewrite rfold_fmap.
  f_equal. apply rfold_ext. intros s kv _.
  rewrite writeMSetPair_value. by replace (depth + 1 + 1) with (depth + 2) by lia.
Qed.

Lemma runs_items limit d (items : list val) :
  forallb go_value items = true ->
  runs limit (concat ((fun v => wire (canon v)) <$> items)) (zsum (nodes <$> items))
    (fun V => forallb (encodable V d) items) (writeItems limit d items).
Proof.
  intros Hgo. apply (runs_fold limit (fun v => wire (canon v)) nodes
    (fun V v => encodable V d v) (fun st v => writeNativeValue limit v d st)).
  apply Forall_forall. intros v Hv. split; [pose proof (nodes_pos v); lia|].
  apply runs_value. rewrite forallb_forall in Hgo. by apply Hgo, list_elem_of_In.
Qed.

(** The wire form of the generic command payload, fields in the order written. *)
Definition command_wire (command : gstr) (items : list val) : gstr :=
  wire (VMap None [(go "command", VBytes command); (go "args", VArray None (canon <$> items))]).

Lemma runs_command limit command id items d :
  forallb go_value items = true -> blen items <= max_uint32 ->
  runs limit (command_wire command items) (2 + zsum (nodes <$> items))
    (fun V => encodable V (d + 1) (VString command) &&
              ((d + 1 <=? nativeMaxEncodeDepth) && fresh_id id V &&
               forallb (encodable (inside_id id V) (d + 2)) items))
    (writeCommandPayload limit command id (blen items) items d).
Proof.
  intros Hgo Hlen. unfold writeCommandPayload.
  assert (0 <= zsum (nodes <$> items)) as Hn.
  { apply zsum_nonneg. rewrite Forall_fmap. apply Forall_forall. intros x _.
    pose proof (nodes_pos x). cbn. lia. }
  pose proof (zsum_nodes_ge items). pose proof (blen_nonneg items).
  pose proof (runs_items limit (d + 2) items Hgo) as R.
  apply (runs_header limit x05 (blen items)) in R; [|lia|lia].
  apply (runs_guard limit _ _ _ _ (blen items)) in R; [|lia].
  apply (runs_enter limit id (d + 1)) in R; [|lia].
  pose proof (runs_bind limit _ _ 0 (1 + zsum (nodes <$> items)) _ _ _ _ ltac:(done) ltac:(lia)
    (runs_mapKey limit (go "args")) R) as R2.
  pose proof (runs_bind limit _ _ 1 (0 + (1 + zsum (nodes <$> items))) _ _ _ _ ltac:(done) ltac:(lia)
    (runs_value limit (VString command) (d + 1) eq_refl) R2) as R3.
  pose proof (runs_bind limit _ _ 0 (1 + (0 + (1 + zsum (nodes <$> items)))) _ _ _ _ ltac:(done) ltac:(lia)
    (runs_mapKey limit (go "command")) R3) as R4.
  apply (runs_header limit x06 2) in R4; [|lia|done].
  apply (runs_guard limit _ _ _ _ 2) in R4; [|cbn; lia].
  eapply runs_ext; [| | | |exact R4].
  - unfold command_wire. cbn [wire canon fmap list_fmap concat fst snd].
    unfold blen. rewrite length_fmap, <- list_fmap_compose, app_nil_r.
    by rewrite <- !app_assoc.
  - cbn. lia.
  - done.
  - intros st. do 6 (apply rbind_ext; intros ?). by rewrite !rbind_assoc.
Qed.

Lemma kv_items_go p : forallb go_value (kv_values p) = true -> forallb go_value (kv_items p) = true.
Proof.
  unfold kv_items. generalize (kv_keys p). induction (kv_values p) as [|v vs IH];
    intros [|k ks]; try done.
  cbn. intros Hv. z_tests. apply andb_true_iff. auto.
Qed.

Lemma kv_items_length p :
  blen (kv_keys p) = blen (kv_values p) -> blen (kv_items p) = 2 * blen (kv_keys p).
Proof.
  unfold kv_items. generalize (kv_keys p). induction (kv_values p) as [|v vs IH];
    intros [|k ks]; try done. cbn [zip_with concat app]. rewrite !blen_cons.
  intros H. rewrite IH by lia. lia.
Qed.

(** ** The decoder *)

Inductive decError :=
| DecEmpty
| DecTooDeep
| DecAggregate             (* "value exceeds aggregate item limit" *)
| DecIntTruncated
| DecBinaryLengthTruncated
| DecBinaryTruncated
| DecArrayLengthTruncated
| DecArrayAggregate
| DecMapLengthTruncated
| DecMapAggregate
| DecKeyLengthTruncated
| DecKeyTruncated
| DecDuplicateKey (key : gstr)
| DecFloatTruncated
| DecUintTruncated
| DecUnknownTag (tag : byte)
| DecCountLimit            (* nativeBoundedItemCount: more than the item limit *)
| DecCountPayload          (* nativeBoundedItemCount: more than the payload can hold *)
| DecLimitsInvalid.

#[global] Instance decError_eq_dec : EqDecision decError.
Proof. solve_decision. Defined.

(** [nativeBoundedItemCount] (src/native_frame.go). *)
Definition nativeBoundedItemCount (raw remainingBytes minBytesPerItem : Z) : result decError Z :=
  if nativeMaxContainerItems <? raw then Err DecCountLimit
  else if (0 <? minBytesPerItem) && (remainingBytes <? raw * minBytesPerItem)
  then Err DecCountPayload
  else Ok raw.

(** The item loop of an array, given the decoder of one value. *)
Definition decode_items (dec : gstr -> Z -> result decError (val * gstr * Z)) :
  nat -> gstr -> Z -> result decError (list val * gstr * Z) :=
  fix go_items count rest remaining :=
    match count with
    | O => Ok ([], rest, remaining)
    | S count =>
        let! (value, next, remaining) := dec rest remaining in
        let! (items, rest, remaining) := go_items count next remaining in
        Ok (value :: items, rest, remaining)
    end.

(** The entry loop of a map; [seen] holds the entries decoded so far. *)
Definition decode_entries (dec : gstr -> Z -> result decError (val * gstr * Z)) :
  nat -> list (gstr * val) -> gstr -> Z -> result decError (list (gstr * val) * gstr * Z) :=
  fix go_entries count seen rest remaining :=
    match count with
    | O => Ok (seen, rest, remaining)
    | S count =>
        if blen rest <? 4 then Err DecKeyLengthTruncated
        else
          let keySize := be_decode (btake 4 rest) in
          let rest := bdrop 4 rest in
          if blen rest <? keySize then Err DecKeyTruncated
          else
            let key := btake keySize rest in
            let rest := bdrop keySize rest in
            if assoc_has key seen then Err (DecDuplicateKey key)
            else
              let! (value, next, remaining) := dec rest remaining in
              go_entries count (seen ++ [(key, value)]) next remaining
    end.

(** [decodeNativeValueBudget]. [levels] is the number of nesting levels left,
    [budget.maxDepth - depth + 1]: the code's test [depth > budget.maxDepth] is
    [levels = 0]. The item budget is threaded through. *)
Fixpoint decodeNativeValueBudget (levels : nat) (data : gstr) (remaining : Z)
  : result decError (val * gstr * Z) :=
  match data with
  | [] => Err DecEmpty
  | tag :: rest =>
      match levels with
      | O => Err DecTooDeep
      | S levels =>
          let remaining := remaining - 1 in
          if remaining <? 0 then Err DecAggregate
          else match tag with
          | x00 => Ok (VNil, rest, remaining)
          | x01 => Ok (VBool true, rest, remaining)
          | x02 => Ok (VBool false, rest, remaining)
          | x03 =>
              if blen rest <? 8 then Err DecIntTruncated
              else Ok (VInt IInt64 (swrap 64 (be_decode (btake 8 rest))), bdrop 8 rest, remaining)
          | x04 =>
              if blen rest <? 4 then Err DecBinaryLengthTruncated
              else
                let size := be_decode (btake 4 rest) in
                let rest := bdrop 4 rest in
                if blen rest <? size then Err DecBinaryTruncated
                else Ok (VBytes (btake size rest), bdrop size rest, remaining)
          | x05 =>
              if blen rest <? 4 then Err DecArrayLengthTruncated
              else
                let! count := nativeBoundedItemCount (be_decode (btake 4 rest)) (blen rest - 4) 1 in
                let rest := bdrop 4 rest in
                if remaining <? count then Err DecArrayAggregate
                else
                  let! (items, rest, remaining) :=
                    decode_items (decodeNativeValueBudget levels) (Z.to_nat count) rest remaining in
                  Ok (VArray None items, rest, remaining)
          | x06 =>
              if blen rest <? 4 then Err DecMapLengthTruncated
              else
                let! count := nativeBoundedItemCount (be_decode (btake 4 rest)) (blen rest - 4) 5 in
                let rest := bdrop 4 rest in
                if remaining <? count then Err DecMapAggregate
                else
                  let! (mapping, rest, remaining) :=
                    decode_entries (decodeNativeValueBudget levels) (Z.to_nat count) [] rest remaining in
                  Ok (VMap None mapping, rest, remaining)
          | x07 =>
              if blen rest <? 8 then Err DecFloatTruncated
              else Ok (VFloat (be_decode (btake 8 rest)), bdrop 8 rest, remaining)
          | x08 =>
              if blen rest <? 8 then Err DecUintTruncated
              else Ok (VUint UUint64 (be_decode (btake 8 rest)), bdrop 8 rest, remaining)
          | _ => Err (DecUnknownTag tag)
          end
      end
  end.

(** [decodeNativeValueWithOwnership]. *)
Definition decodeNativeValueWithOwnership (data : gstr) (maxDepth maxItems : Z)
  : result decError (val * gstr) :=
  if (maxDepth <? 0) || (maxItems <=? 0) then Err DecLimitsInvalid
  else
    let! (value, rest, _) := decodeNativeValueBudget (Z.to_nat (maxDepth + 1)) data maxItems in
    Ok (value, rest).

(** [decodeNativeValue] and [decodeNativeOwnedValue]: they differ in whether the
    binaries alias the input buffer. *)
Definition decodeNativeValue (data : gstr) : result decError (val * gstr) :=
  decodeNativeValueWithOwnership data nativeMaxDecodeDepth nativeMaxContainerItems.

(** *** The language the decoder accepts *)

(** Nesting levels a value needs. *)
Fixpoint height (v : val) : nat :=
  match v with
  | VArray _ l => S (max_list_with height l)
  | VMap _ m => S (max_list_with (fun kv => height kv.2) m)
  | _ => 1
  end.

(** A value as the decoder builds it. *)
Fixpoint wire_value (v : val) : bool :=
  match v with
  | VNil | VBool _ => true
  | VInt IInt64 z => (- 2 ^ 63 <=? z) && (z <? 2 ^ 63)
  | VUint UUint64 z => (0 <=? z) && (z <? 2 ^ 64)
  | VFloat bits => (0 <=? bits) && (bits <? 2 ^ 64)
  | VBytes s => blen s <=? max_uint32
  | VArray None l => (blen l <=? nativeMaxContainerItems) && forallb wire_value l
  | VMap None m =>
      (blen m <=? nativeMaxContainerItems) && bool_decide (NoDup (keys m)) &&
      forallb (fun kv => (blen kv.1 <=? max_uint32) && wire_value kv.2) m
  | _ => false
  end.

Lemma wire_pos v : wire_value v = true -> 1 <= blen (wire v).
Proof.
  destruct v as [|[]|[]|[]|z|s|s|[]|[]|]; intros Hv; try done; cbn [wire];
    rewrite blen_cons;
    match goal with |- _ <= 1 + blen ?l => pose proof (blen_nonneg l); lia end.
Qed.

Lemma wire_items_pos l : forallb wire_value l = true -> blen l <= blen (concat (wire <$> l)).
Proof.
  induction l as [|v l IH]; cbn; [done|]. intros H. apply andb_true_iff in H as [Hv Hl].
  rewrite blen_cons, blen_app. pose proof (wire_pos v Hv). specialize (IH Hl). lia.
Qed.

Lemma wire_entries_pos m :
  forallb (fun kv => (blen kv.1 <=? max_uint32) && wire_value kv.2) m = true ->
  5 * blen m <=
  blen (concat ((fun kv => be_encode 4 (blen kv.1) ++ kv.1 ++ wire kv.2) <$> m)).
Proof.
  induction m as [|kv m IH]; cbn; [done|]. intros H.
  apply andb_true_iff in H as [Hv Hl]. apply andb_true_iff in Hv as [Hk Hv].
  rewrite blen_cons, !blen_app, blen_be_encode. pose proof (wire_pos _ Hv).
  pose proof (blen_nonneg kv.1). specialize (IH Hl). lia.
Qed.

(** Reading back a fixed-width field. *)
Lemma be_field n z rest :
  in_uint (8 * Z.of_nat n) z ->
  be_decode (btake (Z.of_nat n) (be_encode n z ++ rest)) = z /\
  bdrop (Z.of_nat n) (be_encode n z ++ rest) = rest.
Proof.
  intros Hz. rewrite btake_app, bdrop_app by (by rewrite blen_be_encode).
  split; [by apply be_roundtrip | done].
Qed.

Lemma blen_app_ltb (l k : gstr) n : n = blen l -> (blen (l ++ k) <? n) = false.
Proof. intros ->. rewrite blen_app. pose proof (blen_nonneg k). apply Z.ltb_ge. lia. Qed.

Lemma blen_field_ltb n z rest : (blen (be_encode n z ++ rest) <? Z.of_nat n) = false.
Proof. apply blen_app_ltb. by rewrite blen_be_encode. Qed.

Section decoder_complete.
Variable dec : gstr -> Z -> result decError (val * gstr * Z).

Lemma decode_items_wire (l : list val) rest rem :
  Forall (fun v => forall rest rem, nodes v <= rem ->
            dec (wire v ++ rest) rem = Ok (v, rest, rem - nodes v)) l ->
  zsum (nodes <$> l) <= rem ->
  decode_items dec (length l) (concat (wire <$> l) ++ rest) rem =
    Ok (l, rest, rem - zsum (nodes <$> l)).
Proof.
  intros Hl. revert rem. induction Hl as [|v l Hv Hl IH]; intros rem Hrem; cbn.
  - by rewrite Z.sub_0_r.
  - pose proof (zsum_nodes_ge l). pose proof (blen_nonneg l). cbn in Hrem.
    unfold zsum in *. rewrite <- app_assoc, Hv by lia. cbn.
    rewrite IH by lia. cbn. do 2 f_equal. lia.
Qed.

Lemma decode_entries_wire (m : list (gstr * val)) seen rest rem :
  Forall (fun kv => forall rest rem, nodes kv.2 <= rem ->
            dec (wire kv.2 ++ rest) rem = Ok (kv.2, rest, rem - nodes kv.2)) m ->
  Forall (fun kv => blen kv.1 <= max_uint32) m ->
  NoDup (keys (seen ++ m)) ->
  zsum ((fun kv => nodes kv.2) <$> m) <= rem ->
  decode_entries dec (length m) seen
    (concat ((fun kv => be_encode 4 (blen kv.1) ++ kv.1 ++ wire kv.2) <$> m) ++ rest) rem =
    Ok (seen ++ m, rest, rem - zsum ((fun kv => nodes kv.2) <$> m)).
Proof.
  intros Hm Hk. revert seen rem. induction Hm as [|[k v] m Hv Hm IH]; intros seen rem Hnd Hrem.
  - cbn. by rewrite Z.sub_0_r, app_nil_r.
  - apply Forall_cons in Hk as [Hk1 Hk]. cbn [fst snd] in *. cbn [length decode_entries].
    cbn [fmap list_fmap concat fst snd].
    pose proof (zsum_nodes_ge_map m). pose proof (blen_nonneg m). pose proof (blen_nonneg k).
    cbn in Hrem. unfold zsum in *.
    rewrite <- !app_assoc.
    destruct (be_field 4 (blen k) (k ++ wire v ++
      concat ((fun kv => be_encode 4 (blen kv.1) ++ kv.1 ++ wire kv.2) <$> m) ++ rest)) as [Hdec Hdrop].
    { unfold in_uint, max_uint32 in *. lia. }
    change (Z.of_nat 4) with 4 in Hdec, Hdrop. rewrite Hdec, Hdrop.
    pose proof (blen_field_ltb 4 (blen k)) as Hf. change (Z.of_nat 4) with 4 in Hf.
    rewrite Hf, blen_app_ltb by done. rewrite btake_app, bdrop_app by done.
    unfold keys in Hnd. rewrite fmap_app, fmap_cons in Hnd. cbn in Hnd.
    rewrite (proj2 (assoc_has_false k seen)).
    2: { apply NoDup_app in Hnd as (_ & Hd & _). intros Hin. apply (Hd k Hin). left. }
    rewrite Hv by lia. cbn [rbind].
    rewrite IH; [|done| |lia].
    + rewrite <- app_assoc. cbn. do 2 f_equal. lia.
    + unfold keys. rewrite !fmap_app, <- app_assoc. done.
Qed.
End decoder_complete.

Lemma max_list_with_le {A} (f : A -> nat) l x : x ∈ l -> (f x <= max_list_with f l)%nat.
Proof. induction 1; cbn; lia. Qed.

Lemma nativeBoundedItemCount_ok raw bytes per :
  raw <= nativeMaxContainerItems -> (0 < per -> raw * per <= bytes) ->
  nativeBoundedItemCount raw bytes per = Ok raw.
Proof.
  intros H1 H2. unfold nativeBoundedItemCount.
  destruct (Z.ltb_spec nativeMaxContainerItems raw); [lia|].
  destruct (Z.ltb_spec 0 per); cbn; [|done].
  destruct (Z.ltb_spec bytes (raw * per)); [lia|done].
Qed.

(** Reads back the [n]-byte field holding [z] that the input starts with. *)
Ltac wire_field n z rest :=
  let Hf := fresh "Hf" in let Hd := fresh "Hd" in let Ht := fresh "Ht" in
  pose proof (blen_field_ltb n z rest) as Hf;
  destruct (be_field n z rest) as [Hd Ht];
    [unfold in_uint, max_uint32, nativeMaxContainerItems in *; lia|];
  let k := eval cbv in (Z.of_nat n) in
  change (Z.of_nat n) with k in Hf, Hd, Ht; rewrite Hf, Hd, Ht; clear Hf Hd Ht.

Lemma decode_array_wire levels l rest rem :
  Forall (fun v => forall rest rem, wire_value v = true -> (height v <= levels)%nat ->
    nodes v <= rem ->
    decodeNativeValueBudget levels (wire v ++ rest) rem = Ok (v, rest, rem - nodes v)) l ->
  wire_value (VArray None l) = true -> (max_list_with height l <= levels)%nat ->
  nodes (VArray None l) <= rem ->
  decodeNativeValueBudget (S levels) (wire (VArray None l) ++ rest) rem =
    Ok (VArray None l, rest, rem - nodes (VArray None l)).
Proof.
  intros IH Hv Hh Hn. cbn [wire_value] in Hv. z_tests.
  match goal with H : forallb _ _ = true |- _ => rename H into Hl end.
  pose proof (wire_items_pos l Hl). pose proof (zsum_nodes_ge l). pose proof (blen_nonneg l).
  cbn [nodes] in Hn |- *. cbn [wire app decodeNativeValueBudget]. rewrite <- app_assoc.
  destruct (Z.ltb_spec (rem - 1) 0); [lia|].
  wire_field 4%nat (blen l) (concat (wire <$> l) ++ rest).
  rewrite nativeBoundedItemCount_ok; [|done|].
  2: { intros _. rewrite !blen_app, blen_be_encode. pose proof (blen_nonneg rest). lia. }
  cbn [rbind]. destruct (Z.ltb_spec (rem - 1) (blen l)); [lia|].
  unfold blen at 1. rewrite Nat2Z.id, decode_items_wire; [cbn; do 2 f_equal; lia| |lia].
  apply Forall_forall. intros v Hin rest' rem' Hrem. rewrite Forall_forall in IH.
  rewrite forallb_forall in Hl. apply IH; [done|by apply Hl, list_elem_of_In| |done].
  apply (max_list_with_le height) in Hin. lia.
Qed.

Lemma decode_map_wire levels m rest rem :
  Forall (fun kv => forall rest rem, wire_value kv.2 = true -> (height kv.2 <= levels)%nat ->
    nodes kv.2 <= rem ->
    decodeNativeValueBudget levels (wire kv.2 ++ rest) rem =
      Ok (kv.2, rest, rem - nodes kv.2)) m ->
  wire_value (VMap None m) = true ->
  (max_list_with (fun kv => height kv.2) m <= levels)%nat ->
  nodes (VMap None m) <= rem ->
  decodeNativeValueBudget (S levels) (wire (VMap None m) ++ rest) rem =
    Ok (VMap None m, rest, rem - nodes (VMap None m)).
Proof.
  intros IH Hv Hh Hn. cbn [wire_value] in Hv. z_tests.
  match goal with H : forallb _ _ = true |- _ => rename H into Hm end.
  pose proof (wire_entries_pos m Hm). pose proof (zsum_nodes_ge_map m). pose proof (blen_nonneg m).
  cbn [nodes] in Hn |- *. cbn [wire app decodeNativeValueBudget]. rewrite <- app_assoc.
  destruct (Z.ltb_spec (rem - 1) 0); [lia|].
  set (body := concat _) in *.
  wire_field 4%nat (blen m) (body ++ rest).
  rewrite nativeBoundedItemCount_ok; [|done|].
  2: { intros _. rewrite !blen_app, blen_be_encode. pose proof (blen_nonneg rest). lia. }
  cbn [rbind]. destruct (Z.ltb_spec (rem - 1) (blen m)); [lia|].
  rewrite forallb_forall in Hm. subst body.
  unfold blen at 1. rewrite Nat2Z.id, decode_entries_wire; [cbn; do 2 f_equal; lia| | |done|lia].
  - apply Forall_forall. intros kv Hin rest' rem' Hrem. rewrite Forall_forall in IH.
    pose proof (Hm kv ltac:(by apply list_elem_of_In)) as Hkv. z_tests.
    apply IH; [done|done| |done]. apply (max_list_with_le (fun kv => height kv.2)) in Hin. lia.
  - apply Forall_forall. intros kv Hin.
    pose proof (Hm kv ltac:(by apply list_elem_of_In)) as Hkv. z_tests. lia.
Qed.

(** Every wire form within the budgets is decoded to its value, and exactly its
    bytes are consumed. *)
Lemma decode_wire v : forall levels rest rem,
  wire_value v = true -> (height v <= levels)%nat -> nodes v <= rem ->
  decodeNativeValueBudget levels (wire v ++ rest) rem = Ok (v, rest, rem - nodes v).
Proof.
  induction v as [|b|k z|k z|z|s|s|id l IH|id m IH|o IH] using val_nested_ind;
    intros [|levels] rest rem Hv Hh Hn; cbn [height] in Hh; try lia; try done;
    try (cbn [nodes] in Hn; cbn [wire app decodeNativeValueBudget];
         destruct (Z.ltb_spec (rem - 1) 0); [lia|]).
  - done.
  - destruct b; cbn; destruct (Z.ltb_spec (rem - 1) 0); done || lia.
  - destruct k; try done. cbn [wire_value] in Hv. z_tests.
    pose proof (wrap_range 64 z ltac:(lia)).
    wire_field 8%nat (wrap 64 z) rest.
    rewrite swrap_wrap; [done|done|]. split; lia.
  - destruct k; try done. cbn [wire_value] in Hv. z_tests.
    by wire_field 8%nat z rest.
  - cbn [wire_value] in Hv. z_tests. by wire_field 8%nat z rest.
  - cbn [wire_value] in Hv. z_tests. pose proof (blen_nonneg s). rewrite <- app_assoc.
    wire_field 4%nat (blen s) (s ++ rest).
    rewrite blen_app_ltb by done. by rewrite btake_app, bdrop_app by done.
  - destruct id; [done|]. apply decode_array_wire; [|done|lia|done].
    eapply Forall_impl; [exact IH|]. cbn. auto.
  - destruct id; [done|]. apply decode_map_wire; [|done|lia|done].
    eapply Forall_impl; [exact IH|]. cbn. auto.
Qed.

(** *** Soundness: everything accepted is a wire form *)

Definition decodes_to (levels : nat) (data : gstr) (rem : Z) (v : val) (rest : gstr) (rem' : Z) : Prop :=
  data = wire v ++ rest /\ wire_value v = true /\ (height v <= levels)%nat /\
  rem' = rem - nodes v /\ nodes v <= rem.

Lemma btake_field n (l : gstr) : n <= blen l -> 0 <= n -> blen (btake n l) = n.
Proof. intros. apply blen_btake. lia. Qed.

(** A fixed-width field read from the input is the one that would be written. *)
Lemma be_field_inv (n : nat) l :
  (blen l <? Z.of_nat n) = false ->
  l = be_encode n (be_decode (btake (Z.of_nat n) l)) ++ bdrop (Z.of_nat n) l /\
  in_uint (8 * Z.of_nat n) (be_decode (btake (Z.of_nat n) l)).
Proof.
  intros Hl. z_tests.
  assert (blen (btake (Z.of_nat n) l) = Z.of_nat n) as Hb by (apply btake_field; lia).
  split.
  - rewrite be_encode_decode by (unfold blen in Hb; lia). symmetry. apply btake_bdrop.
  - pose proof (be_decode_range (btake (Z.of_nat n) l)) as Hr. by rewrite Hb in Hr.
Qed.

Lemma nativeBoundedItemCount_inv raw bytes per count :
  nativeBoundedItemCount raw bytes per = Ok count ->
  count = raw /\ raw <= nativeMaxContainerItems.
Proof.
  unfold nativeBoundedItemCount.
  destruct (Z.ltb_spec nativeMaxContainerItems raw); [done|].
  destruct (_ && _); [done|]. by intros [= <-].
Qed.

Section decoder_sound.
Variable dec : gstr -> Z -> result decError (val * gstr * Z).
Variable levels : nat.
Hypothesis dec_sound : forall data rem v rest rem',
  dec data rem = Ok (v, rest, rem') -> decodes_to levels data rem v rest rem'.

Lemma decode_items_sound count data rem l rest rem' :
  0 <= rem ->
  decode_items dec count data rem = Ok (l, rest, rem') ->
  data = concat (wire <$> l) ++ rest /\ length l = count /\ forallb wire_value l = true /\
  (max_list_with height l <= levels)%nat /\
  rem' = rem - zsum (nodes <$> l) /\ zsum (nodes <$> l) <= rem.
Proof using dec_sound.
  revert data rem l rest rem'. induction count as [|count IH]; intros data rem l rest rem' Hr; cbn.
  - intros [= <- <- <-]. cbn. repeat split; try done; try lia.
  - intros H. apply rbind_ok in H as ([[v next] rem1] & Hdec & H).
    apply rbind_ok in H as ([[l' rest1] rem2] & Hitems & [= <- <- <-]).
    apply dec_sound in Hdec as (-> & Hv & Hh & -> & Hn).
    apply IH in Hitems as (-> & <- & Hl & Hm & -> & Hs); [|lia]. cbn. unfold zsum in *.
    rewrite Hv, Hl, <- app_assoc. repeat split; try done; try lia.
Qed.

Lemma decode_entries_sound count seen data rem m rest rem' :
  0 <= rem -> NoDup (keys seen) ->
  decode_entries dec count seen data rem = Ok (m, rest, rem') ->
  exists m', m = seen ++ m' /\ length m' = count /\ NoDup (keys m) /\
    data = concat ((fun kv => be_encode 4 (blen kv.1) ++ kv.1 ++ wire kv.2) <$> m') ++ rest /\
    forallb (fun kv => (blen kv.1 <=? max_uint32) && wire_value kv.2) m' = true /\
    (max_list_with (fun kv => height kv.2) m' <= levels)%nat /\
    rem' = rem - zsum ((fun kv => nodes kv.2) <$> m') /\
    zsum ((fun kv => nodes kv.2) <$> m') <= rem.
Proof using dec_sound.
  revert seen data rem m rest rem'.
  induction count as [|count IH]; intros seen data rem m rest rem' Hr Hnd; cbn.
  - intros [= <- <- <-]. exists []. cbn. rewrite app_nil_r. repeat split; try done; lia.
  - destruct (blen data <? 4) eqn:H4; [done|].
    destruct (be_field_inv 4 data H4) as [Hd Hk].
    change (Z.of_nat 4) with 4 in *. unfold in_uint in Hk.
    revert Hd Hk. generalize (be_decode (btake 4 data)) (bdrop 4 data). intros size tail Hd Hk.
    destruct (Z.ltb_spec (blen tail) size) as [|Hsize]; [done|].
    destruct (assoc_has (btake size tail) seen) eqn:Hdup; [done|].
    intros H. apply rbind_ok in H as ([[v next] rem1] & Hdec & H).
    apply dec_sound in Hdec as (Hw & Hv & Hh & -> & Hn).
    assert (blen (btake size tail) = size) as Hks by (apply btake_field; lia).
    apply IH in H as (m' & -> & <- & Hnd' & -> & Hm & Hmax & -> & Hs); [|lia|].
    + exists ((btake size tail, v) :: m'). cbn. unfold zsum in *. rewrite Hks, Hv, Hm.
      rewrite <- app_assoc in *. cbn in *. repeat split; try done; try lia.
      * rewrite Hd at 1. rewrite <- (btake_bdrop size tail) at 1. rewrite Hw.
        by rewrite <- !app_assoc.
      * rewrite !andb_true_r. apply Z.leb_le. unfold max_uint32. lia.
    + unfold keys. rewrite fmap_app. cbn. apply NoDup_app. split; [done|].
      apply assoc_has_false in Hdup. split; [|apply NoDup_singleton].
      intros k Hin ->%list_elem_of_singleton. done.
Qed.
End decoder_sound.

(** Splits the [n]-byte field [data] starts with, as [z] and the tail. *)
Ltac read_field n data :=
  let Hl := fresh "Hl" in let Hd := fresh "Hd" in let Hz := fresh "Hz" in
  let k := eval cbv in (Z.of_nat n) in
  destruct (blen data <? k) eqn:Hl; [done|];
  destruct (be_field_inv n data Hl) as [Hd Hz];
  change (Z.of_nat n) with k in Hd, Hz;
  revert Hd Hz; generalize (be_decode (btake k data)) (bdrop k data).

(** The two bounds a container's count passes before its items are decoded. *)
Lemma decode_count_sound {A} count rem bytes per e (dec : Z -> result decError A) r :
  (let! count := nativeBoundedItemCount count bytes per in
   if rem <? count then Err e else dec count) = Ok r ->
  count <= nativeMaxContainerItems /\ count <= rem /\ dec count = Ok r.
Proof.
  intros H. apply rbind_ok in H as (c & Hc & H).
  apply nativeBoundedItemCount_inv in Hc as [-> Hmax].
  destruct (Z.ltb_spec rem count); [done|]. repeat split; [done|lia|done].
Qed.

Section sound_step.
Variable levels : nat.
Hypothesis IH : forall data rem v rest rem',
  decodeNativeValueBudget levels data rem = Ok (v, rest, rem') ->
  decodes_to levels data rem v rest rem'.

Lemma decode_binary_sound data rem v rest rem' :
  decodeNativeValueBudget (S levels) (x04 :: data) rem = Ok (v, rest, rem') ->
  decodes_to (S levels) (x04 :: data) rem v rest rem'.
Proof using.
  unfold decodes_to. cbn [decodeNativeValueBudget].
  destruct (Z.ltb_spec (rem - 1) 0) as [|Hrem]; [done|].
  read_field 4%nat data. intros size tail Hd Hz. unfold in_uint in Hz.
  destruct (Z.ltb_spec (blen tail) size); [done|]. intros [= <- <- <-].
  assert (blen (btake size tail) = size) as Hs by (apply btake_field; lia).
  cbn [wire wire_value nodes height app]. rewrite Hs. split_and!; [| |lia..].
  - rewrite Hd, <- (btake_bdrop size tail) at 1. by rewrite <- app_assoc.
  - apply Z.leb_le. unfold max_uint32. lia.
Qed.

Lemma decode_array_sound data rem v rest rem' :
  decodeNativeValueBudget (S levels) (x05 :: data) rem = Ok (v, rest, rem') ->
  decodes_to (S levels) (x05 :: data) rem v rest rem'.
Proof using IH.
  unfold decodes_to. cbn [decodeNativeValueBudget].
  destruct (Z.ltb_spec (rem - 1) 0) as [|Hrem]; [done|].
  read_field 4%nat data. intros size tail Hd Hz H. unfold in_uint in Hz.
  apply decode_count_sound in H as (Hmax & Hc & H).
  apply rbind_ok in H as ([[items rest1] rem1] & Hitems & [= <- <- <-]).
  apply (decode_items_sound _ levels IH) in Hitems as (-> & Hlen & Hw & Hh & -> & Hs); [|lia].
  assert (blen items = size) as Hb by (unfold blen; lia).
  cbn [wire wire_value nodes height app]. rewrite Hb, Hw. split_and!; [| |lia..].
  - by rewrite Hd, <- app_assoc.
  - rewrite andb_true_r. by apply Z.leb_le.
Qed.

Lemma decode_map_sound data rem v rest rem' :
  decodeNativeValueBudget (S levels) (x06 :: data) rem = Ok (v, rest, rem') ->
  decodes_to (S levels) (x06 :: data) rem v rest rem'.
Proof using IH.
  unfold decodes_to. cbn [decodeNativeValueBudget].
  destruct (Z.ltb_spec (rem - 1) 0) as [|Hrem]; [done|].
  read_field 4%nat data. intros size tail Hd Hz H. unfold in_uint in Hz.
  apply decode_count_sound in H as (Hmax & Hc & H).
  apply rbind_ok in H as ([[m rest1] rem1] & Hitems & [= <- <- <-]).
  apply (decode_entries_sound _ levels IH) in Hitems
    as (m' & -> & Hlen & Hnd & -> & Hw & Hh & -> & Hs); [|lia|apply NoDup_nil_2].
  assert (blen m' = size) as Hb by (unfold blen; lia).
  cbn [wire wire_value nodes height app] in *. rewrite Hb, Hw.
  rewrite bool_decide_true by done. split_and!; [| |lia..].
  - by rewrite Hd, <- app_assoc.
  - rewrite !andb_true_r. by apply Z.leb_le.
Qed.
End sound_step.

Lemma decodeNativeValueBudget_sound levels : forall data rem v rest rem',
  decodeNativeValueBudget levels data rem = Ok (v, rest, rem') ->
  decodes_to levels data rem v rest rem'.
Proof.
  induction levels as [|levels IH]; intros [|tag data] rem v rest rem'; try done.
  destruct tag;
    try (by cbn [decodeNativeValueBudget]; destruct (Z.ltb_spec (rem - 1) 0));
    eauto using decode_binary_sound, decode_array_sound, decode_map_sound;
    unfold decodes_to; cbn [decodeNativeValueBudget];
    destruct (Z.ltb_spec (rem - 1) 0) as [|Hrem]; try done.
  - intros [= <- <- <-]. cbn. split_and!; done || lia.
  - intros [= <- <- <-]. cbn. split_and!; done || lia.
  - intros [= <- <- <-]. cbn. split_and!; done || lia.
  - read_field 8%nat data. intros z tail Hd Hz [= <- <- <-].
    pose proof (swrap_range 64 z ltac:(lia)) as Hs. unfold in_sint in Hs.
    cbn [wire wire_value nodes height app]. split_and!; [|lia..].
    rewrite Hd at 1. do 3 f_equal. unfold swrap, wrap. rewrite Zminus_mod_idemp_l.
    replace (_ + _ - _) with z by lia. symmetry. by apply Z.mod_small.
  - read_field 8%nat data. intros z tail Hd Hz [= <- <- <-].
    cbn [wire wire_value nodes height app]. split_and!; [by rewrite Hd at 1| |lia..].
    unfold in_uint in Hz. apply andb_true_iff. rewrite Z.leb_le, Z.ltb_lt. lia.
  - read_field 8%nat data. intros z tail Hd Hz [= <- <- <-].
    cbn [wire wire_value nodes height app]. split_and!; [by rewrite Hd at 1| |lia..].
    unfold in_uint in Hz. apply andb_true_iff. rewrite Z.leb_le, Z.ltb_lt. lia.
Qed.

(** What the decoder returns is within its budgets. *)
Lemma decodeNativeValue_inv data v rest :
  decodeNativeValue data = Ok (v, rest) ->
  wire_value v = true /\ (height v <= 65)%nat /\ nodes v <= nativeMaxContainerItems.
Proof.
  unfold decodeNativeValue, decodeNativeValueWithOwnership, nativeMaxDecodeDepth.
  change ((64 <? 0) || (nativeMaxContainerItems <=? 0)) with false. cbn iota.
  change (Z.to_nat (64 + 1)) with 65%nat. rewrite rbind_ok.
  intros ([[v' rest'] rem] & Hdec & [= <- <-]).
  by apply decodeNativeValueBudget_sound in Hdec as (_ & ? & ? & _ & ?).
Qed.

(** ** Canonical values *)

Lemma nodes_le_zsum {A} (f : A -> Z) l x :
  x ∈ l -> (forall y, 1 <= f y) -> f x <= zsum (f <$> l).
Proof.
  intros Hx Hf.
  assert (forall l, 0 <= zsum (f <$> l)) as Hnn.
  { intros k. apply zsum_nonneg. rewrite Forall_fmap. apply Forall_forall.
    intros z _. cbn. specialize (Hf z). lia. }
  induction l as [|y l IH]; [by apply not_elem_of_nil in Hx|].
  specialize (Hnn l). cbn. fold (zsum (f <$> l)).
  apply elem_of_cons in Hx as [->|Hx]; [lia|]. specialize (IH Hx). specialize (Hf y). lia.
Qed.

Lemma nodes_canon v inside d :
  go_value v = true -> encodable inside d v = true -> nodes (canon v) = nodes v.
Proof.
  revert inside d.
  induction v as [|b|k z|k z|z|s|s|id l IH|id m IH|o IH] using val_nested_ind;
    intros inside d Hgo He; try done.
  - cbn. by destruct (_ <=? _).
  - cbn in *. f_equal. z_tests. rewrite <- list_fmap_compose. f_equal.
    apply list_fmap_ext. intros i v Hv%list_elem_of_lookup_2.
    rewrite forallb_forall in Hgo. rewrite Forall_forall in IH.
    match goal with H : forallb _ _ = true |- _ => rewrite forallb_forall in H end.
    eapply IH; [done| |]; eauto using list_elem_of_In.
    + apply Hgo. by apply list_elem_of_In.
    + match goal with H : forall x, In x l -> _ |- _ => apply H; by apply list_elem_of_In end.
  - cbn in *. f_equal. z_tests. rewrite sort_entries_fmap, <- list_fmap_compose.
    rewrite (zsum_perm _ ((fun kv => nodes (canon kv.2)) <$> m))
      by (by rewrite (sort_entries_perm m)).
    f_equal. apply list_fmap_ext. intros i [k v] Hv%list_elem_of_lookup_2.
    repeat match goal with H : forallb _ _ = true |- _ => rewrite forallb_forall in H end.
    rewrite Forall_forall in IH.
    repeat match goal with
    | H : forall x, In x m -> _ |- _ => specialize (H (k, v) ltac:(by apply list_elem_of_In))
    end. z_tests. eapply IH; eauto.
  - destruct o as [v|]; [|done]. cbn in *. destruct v; try done; eapply IH; eauto.
Qed.

Lemma encodable_depth v inside d : encodable inside d v = true -> d <= nativeMaxEncodeDepth.
Proof.
  revert inside d.
  induction v as [| | | | | | |id l IH|id m IH|o IH] using val_nested_ind;
    intros inside d He; cbn in He; z_tests; try done.
  destruct o as [v|]; [|done]. destruct v; try done; by eapply IH.
Qed.

Lemma max_list_with_bound {A} (f : A -> nat) l n :
  (forall x, x ∈ l -> (f x <= n)%nat) -> (max_list_with f l <= n)%nat.
Proof.
  induction l as [|x l IH]; cbn; intros H; [lia|].
  pose proof (H x ltac:(left)). apply Nat.max_lub; [done|]. apply IH. intros. apply H. by right.
Qed.

Lemma height_canon v inside d :
  encodable inside d v = true ->
  (height (canon v) <= Z.to_nat (nativeMaxEncodeDepth + 1 - d))%nat.
Proof.
  unfold nativeMaxEncodeDepth. revert inside d.
  induction v as [|b|k z|k z|z|s|s|id l IH|id m IH|o IH] using val_nested_ind; intros inside d He;
    pose proof (encodable_depth _ _ _ He) as Hd; unfold nativeMaxEncodeDepth in Hd; try (cbn; lia).
  - cbn. destruct (_ <=? _); cbn; lia.
  - cbn [canon height]. transitivity (S (Z.to_nat (64 + 1 - (d + 1)))); [|lia].
    apply le_n_S, max_list_with_bound. intros v (w & -> & Hw)%list_elem_of_fmap.
    rewrite Forall_forall in IH. cbn in He. z_tests.
    match goal with H : forallb _ _ = true |- _ => rewrite forallb_forall in H;
      specialize (H w ltac:(by apply list_elem_of_In)) end. eauto.
  - cbn [canon height]. transitivity (S (Z.to_nat (64 + 1 - (d + 1)))); [|lia].
    apply le_n_S, max_list_with_bound.
    intros kv (w & -> & Hw)%elem_of_sort_entries%list_elem_of_fmap.
    rewrite Forall_forall in IH. destruct w as [k w]. cbn in He |- *. z_tests.
    match goal with H : forallb _ _ = true |- _ => rewrite forallb_forall in H;
      specialize (H (k, w) ltac:(by apply list_elem_of_In)) end. z_tests.
    by eapply (IH (k, w)).
  - cbn in He |- *. destruct o as [v|]; [|done]. destruct v; try done; eapply IH; eauto.
Qed.

Lemma ikind_width_range k z :
  - 2 ^ (ikind_width k - 1) <= z < 2 ^ (ikind_width k - 1) -> - 2 ^ 63 <= z < 2 ^ 63.
Proof. destruct k; cbn; lia. Qed.

Lemma ukind_width_range k z : 0 <= z < 2 ^ ukind_width k -> 0 <= z < 2 ^ 64.
Proof. destruct k; cbn; lia. Qed.

Lemma wire_value_canon v inside d :
  go_value v = true -> encodable inside d v = true -> nodes v <= nativeMaxContainerItems ->
  wire_value (canon v) = true.
Proof.
  revert inside d.
  induction v as [|b|k z|k z|z|s|s|id l IH|id m IH|o IH] using val_nested_ind;
    intros inside d Hgo He Hn; try done.
  - cbn in *. z_tests. pose proof (ikind_width_range k z). lia.
  - cbn in *. z_tests. pose proof (ukind_width_range k z).
    destruct (Z.leb_spec z max_int64); cbn; unfold max_int64 in *; lia.
  - cbn in *. z_tests. by apply Z.leb_le.
  - cbn in *. z_tests. by apply Z.leb_le.
  - cbn in *. z_tests. pose proof (zsum_nodes_ge l).
    apply andb_true_iff. split.
    { unfold blen in *. rewrite length_fmap. apply Z.leb_le. lia. }
    apply forallb_forall. intros v (w & -> & Hw)%list_elem_of_In%list_elem_of_fmap.
    repeat match goal with H : forallb _ _ = true |- _ => rewrite forallb_forall in H;
      specialize (H w ltac:(by apply list_elem_of_In)) end.
    rewrite Forall_forall in IH. eapply IH; eauto.
    pose proof (nodes_le_zsum nodes l w Hw (fun v => nodes_pos v)). lia.
  - cbn in *. z_tests. pose proof (zsum_nodes_ge_map m).
    rewrite !andb_true_iff. split_and!.
    { unfold blen in *. rewrite length_sort_entries, length_fmap. apply Z.leb_le. lia. }
    { apply bool_decide_eq_true. rewrite keys_sort_entries, sort_strings_perm.
      by rewrite keys_fmap. }
    apply forallb_forall.
    intros kv ([k w] & -> & Hw)%list_elem_of_In%elem_of_sort_entries%list_elem_of_fmap.
    repeat match goal with H : forallb _ _ = true |- _ => rewrite forallb_forall in H;
      specialize (H (k, w) ltac:(by apply list_elem_of_In)) end.
    z_tests. rewrite Forall_forall in IH. cbn. apply andb_true_iff. split; [by apply Z.leb_le|].
    eapply (IH (k, w)); [done|done|done|].
    pose proof (nodes_le_zsum (fun kv => nodes kv.2) m (k, w) Hw (fun kv => nodes_pos kv.2)). cbn in *. lia.
  - destruct o as [v|]; [|done]. cbn in *. destruct v; try done; eapply IH; eauto.
Qed.

(** ** Properties *)

(** The encoder succeeds exactly on the values whose nesting, item count,
    field lengths and total size are within the limits and that contain no
    container inside itself, and its output is the wire form of the value. *)
Theorem encode_exact v limit bytes :
  go_value v = true -> 0 < limit ->
  encodeNativeValueWithLimit v limit = Ok bytes <->
  encodable ∅ 0 v = true /\ nodes v <= nativeMaxContainerItems /\
  blen (wire (canon v)) <= limit /\ bytes = wire (canon v).
Proof.
  intros Hgo Hlimit. unfold encodeNativeValueWithLimit.
  destruct (Z.leb_spec limit 0); [lia|]. rewrite rbind_ok.
  assert (good limit (EncState [] nativeMaxContainerItems ∅)) as Hgood.
  { split; [done|]. change (0 <= limit). lia. }
  split.
  - intros (st & Hst & [= <-]). apply (runs_value limit v 0 Hgo) in Hst as (? & ? & ? & ->); [|done].
    cbn in *. change (blen (@nil byte)) with 0 in *. split_and!; done.
  - intros (? & ? & ? & ->). eexists. split.
    + apply (runs_value limit v 0 Hgo); [done|]. cbn. by split_and!.
    + done.
Qed.

Lemma encode_exact_witness :
  encodeNativeValueWithLimit (VArray (Some 7) [VInt IInt 5; VNil]) 100 =
    Ok [x05; x00; x00; x00; x02; x03; x00; x00; x00; x00; x00; x00; x00; x05; x00].
Proof.
  apply (encode_exact (VArray (Some 7) [VInt IInt 5; VNil]) 100); [reflexivity|lia|].
  repeat split; vm_compute; congruence.
Defined.

(** C35: the decoder accepts exactly the wire forms of well-formed values within
    its depth and item budgets, and consumes exactly their bytes; in particular
    it terminates on every input. *)
Theorem decode_exact data v rest :
  decodeNativeValue data = Ok (v, rest) <->
  data = wire v ++ rest /\ wire_value v = true /\ (height v <= 65)%nat /\
  nodes v <= nativeMaxContainerItems.
Proof.
  unfold decodeNativeValue, decodeNativeValueWithOwnership, nativeMaxDecodeDepth.
  change ((64 <? 0) || (nativeMaxContainerItems <=? 0)) with false. cbn iota.
  change (Z.to_nat (64 + 1)) with 65%nat.
  rewrite rbind_ok. split.
  - intros ([[v' rest'] rem] & Hdec & [= <- <-]).
    by apply decodeNativeValueBudget_sound in Hdec as (? & ? & ? & _ & ?).
  - intros (-> & Hv & Hh & Hn). exists (v, rest, nativeMaxContainerItems - nodes v).
    split; [|done]. by apply decode_wire.
Qed.

(** The single-pass writers of generic key/value commands succeed exactly
    when the command's fields fit the limits, and write the two-field map whose
    arguments interleave keys and values. *)
Theorem key_value_payload_exact limit p depth st st' :
  good limit st -> forallb go_value (kv_values p) = true ->
  blen (kv_items p) <= max_uint32 ->
  writeNativeKeyValueCommandPayload limit p depth st = Ok st' <->
  blen (kv_keys p) = blen (kv_values p) /\
  encodable (es_visiting st) (depth + 1) (VString (kv_command p)) = true /\
  depth + 1 <= nativeMaxEncodeDepth /\
  forallb (encodable (es_visiting st) (depth + 2)) (kv_items p) = true /\
  2 + zsum (nodes <$> kv_items p) <= es_remaining st /\
  blen (es_buf st) + blen (command_wire (kv_command p) (kv_items p)) <= limit /\
  st' = EncState (es_buf st ++ command_wire (kv_command p) (kv_items p))
    (es_remaining st - (2 + zsum (nodes <$> kv_items p))) (es_visiting st).
Proof.
  intros Hst Hgo Hlen. unfold writeNativeKeyValueCommandPayload.
  destruct (Z.eqb_spec (blen (kv_keys p)) (blen (kv_values p))) as [Hk|Hk]; [|naive_solver].
  rewrite <- (kv_items_length p Hk).
  rewrite (runs_command limit _ None _ depth (kv_items_go p Hgo) Hlen st st' Hst).
  cbn [fresh_id inside_id]. rewrite !andb_true_iff, Z.leb_le. naive_solver.
Qed.

Lemma key_value_payload_exact_witness :
  writeNativeKeyValueCommandPayload 100 (KeyValueCommandPayload (go "SET") [go "k"] [VNil]) 0
    (EncState [] 9 ∅) =
  Ok (EncState (command_wire (go "SET") [VString (go "k"); VNil]) 5 ∅).
Proof.
  apply (key_value_payload_exact 100 (KeyValueCommandPayload (go "SET") [go "k"] [VNil]) 0
    (EncState [] 9 ∅));
    repeat split; vm_compute; congruence.
Defined.

(** C1: what the SDK encodes, a decoder reads back as the canonical value, and
    the bytes that follow are left untouched. *)
Theorem encode_decode_roundtrip v bytes rest :
  go_value v = true -> encodeNativeValue v = Ok bytes ->
  decodeNativeValue (bytes ++ rest) = Ok (canon v, rest).
Proof.
  intros Hgo H. unfold encodeNativeValue, encodeNativeValueWithLimit in H.
  change (nativeMaxFrameBytes <=? 0) with false in H. apply rbind_ok in H as (st & Hst & [= <-]).
  apply (runs_value _ v 0 Hgo) in Hst as (He & Hn & _ & ->); [cbn in He, Hn|].
  2: { split; [done|]. change (0 <= nativeMaxFrameBytes). done. }
  cbn [es_buf app].
  unfold decodeNativeValue, decodeNativeValueWithOwnership.
  change ((nativeMaxDecodeDepth <? 0) || (nativeMaxContainerItems <=? 0)) with false. cbn iota.
  rewrite decode_wire; [done| | |].
  - by eapply wire_value_canon.
  - by apply height_canon in He.
  - by erewrite nodes_canon.
Qed.

Lemma encode_decode_roundtrip_witness :
  decodeNativeValue
    ([x06; x00; x00; x00; x01; x00; x00; x00; x01; x6b; x04; x00; x00; x00; x01; x76] ++ [xff]) =
  Ok (canon (VMap (Some 1) [(go "k", VString (go "v"))]), [xff]).
Proof.
  apply (encode_decode_roundtrip (VMap (Some 1) [(go "k", VString (go "v"))]));
    vm_compute; reflexivity.
Defined.

Lemma mget_payload_equiv_witness :
  writePayload (writeNativeMGetPayload 64 (MGetPayload (Some [go "a"; go "b"]) [] None)) 0
    (EncState [] 10 ∅) =
  writeNativeValue 64 (mget_value (MGetPayload (Some [go "a"; go "b"]) [] None)) 0
    (EncState [] 10 ∅).
Proof.
  apply (mget_payload_equiv 64 (MGetPayload (Some [go "a"; go "b"]) [] None) 0
    (EncState [] 10 ∅)).
  vm_compute; congruence.
Defined.

Lemma mset_payload_equiv_witness :
  writePayload (writeNativeMSetPayload 64 (MSetPayload None [] [VString (go "k"); VInt IInt 1])) 0
    (EncState [] 10 ∅) =
  writeNativeValue 64 (mset_value (MSetPayload None [] [VString (go "k"); VInt IInt 1])) 0
    (EncState [] 10 ∅).
Proof.
  apply (mset_payload_equiv 64 (MSetPayload None [] [VString (go "k"); VInt IInt 1]) 0
    (EncState [] 10 ∅)).
  - reflexivity.
  - vm_compute; congruence.
Defined.
