(* ===== verification/FlowControl.v ===== *)
(** Client-side flow control (src/native_limits.go, [nativeFlowController]):
    in-flight credits per connection and per lane, FIFO queues of blocked
    requests per lane, served round-robin over the lanes that wait.

    The controller's methods run under its mutex, so each is one atomic step;
    a blocked [acquire] is two steps, entering the queue and leaving the
    [select], with any steps of other callers between them. Lanes are the
    [uint32] keys as [Z]; pointers to waiters, queues and list elements are
    allocation numbers. A lane queue's intrusive list is the list of its
    waiters from head to tail; [container/list] is a list of elements. *)

From S2P Require Export Prelude.

Inductive flowError :=
| FlowNoInflightCredit        (* errNativeNoInflightCredit *)
| FlowLaneQueueClosed         (* errNativeServerLaneQueueClosed *)
| FlowClientQueueFull         (* errNativeClientQueueFull *)
| FlowConnectionUnavailable   (* errNativeConnectionUnavailable *)
| FlowContext (cause : Z)     (* requestContextError(ctx) *)
| FlowClosed (cause : Z).     (* the error given to close *)

#[global] Instance flowError_eq_dec : EqDecision flowError.
Proof. solve_decision. Defined.

(** [nativeFlowWaiter]; [fw_closed]: its channel [ready] is closed. *)
Record nativeFlowWaiter := FlowWaiter {
  fw_queue : option nat;
  fw_settled : bool;
  fw_granted : bool;
  fw_err : option flowError;
  fw_closed : bool;
}.

(** [nativeFlowLaneQueue], at its address [lq_id]. *)
Record nativeFlowLaneQueue := LaneQueue {
  lq_id : nat;
  lq_waiters : list nat;
  lq_waiting : Z;
  lq_ready : option nat;
}.

(** [nativeFlowController], with the heap of its waiters. *)
Record nativeFlowController := FlowController {
  connectionLimit : Z;
  laneWindowLimit : Z;
  laneQueueLimit : Z;
  laneLimit : Z;
  maxQueued : Z;
  activeTotal : Z;
  activeByLane : gmap Z Z;
  queues : gmap Z nativeFlowLaneQueue;
  ready : list (nat * Z);
  queuedTotal : Z;
  closedErr : option flowError;
  waiters : gmap nat nativeFlowWaiter;
  nextAddr : nat;
}.

(** Field updates. *)
Definition set_active (total : Z) (byLane : gmap Z Z) (f : nativeFlowController) :=
  FlowController (connectionLimit f) (laneWindowLimit f) (laneQueueLimit f) (laneLimit f)
    (maxQueued f) total byLane (queues f) (ready f) (queuedTotal f) (closedErr f)
    (waiters f) (nextAddr f).

Definition set_queues (qs : gmap Z nativeFlowLaneQueue) (r : list (nat * Z)) (total : Z)
  (ws : gmap nat nativeFlowWaiter) (f : nativeFlowController) :=
  FlowController (connectionLimit f) (laneWindowLimit f) (laneQueueLimit f) (laneLimit f)
    (maxQueued f) (activeTotal f) (activeByLane f) qs r total (closedErr f) ws (nextAddr f).

Definition set_ready (r : list (nat * Z)) (f : nativeFlowController) :=
  set_queues (queues f) r (queuedTotal f) (waiters f) f.

Definition set_limits (connection window lane : Z) (f : nativeFlowController) :=
  FlowController connection window (laneQueueLimit f) lane
    (maxQueued f) (activeTotal f) (activeByLane f) (queues f) (ready f) (queuedTotal f)
    (closedErr f) (waiters f) (nextAddr f).

Definition set_closed (err : flowError) (f : nativeFlowController) :=
  FlowController (connectionLimit f) (laneWindowLimit f) (laneQueueLimit f) (laneLimit f)
    (maxQueued f) (activeTotal f) (activeByLane f) (queues f) (ready f) (queuedTotal f)
    (Some err) (waiters f) (nextAddr f).

Definition bump (n : nat) (f : nativeFlowController) :=
  FlowController (connectionLimit f) (laneWindowLimit f) (laneQueueLimit f) (laneLimit f)
    (maxQueued f) (activeTotal f) (activeByLane f) (queues f) (ready f) (queuedTotal f)
    (closedErr f) (waiters f) (nextAddr f + n).

(** ** The operations *)

Definition newNativeFlowController (connection lane queue : Z) (maxQueuedRequests : option Z)
  : nativeFlowController :=
  let connection := if connection <? 0 then 4096 else connection in
  let lane := if lane <? 0 then 1024 else lane in
  let queue := if queue <? 0 then 1024 else queue in
  let maxQueued :=
    match maxQueuedRequests with
    | Some n => if n <? 0 then 0 else n
    | None => 65536
    end in
  FlowController connection lane queue (Z.min lane queue) maxQueued
    0 ∅ ∅ [] 0 None ∅ 0.

(** [f.activeByLane[lane]]. *)
Definition activeOf (f : nativeFlowController) (lane : Z) : Z :=
  default 0 (activeByLane f !! lane).

Definition canAcquireLocked (lane : Z) (f : nativeFlowController) : bool :=
  (activeTotal f <? connectionLimit f) && (activeOf f lane <? laneLimit f).

Definition activateLocked (lane : Z) (f : nativeFlowController) : nativeFlowController :=
  set_active (activeTotal f + 1) (<[lane := activeOf f lane + 1]> (activeByLane f)) f.

(** The part of [acquire] that queues a new waiter on its lane. *)
Definition enqueue (lane : Z) (f : nativeFlowController) : nat * nativeFlowController :=
  let w := nextAddr f in
  let queue := default (LaneQueue (S w) [] 0 None) (queues f !! lane) in
  let waiter := FlowWaiter (Some (lq_id queue)) false false None false in
  let '(element, ring) :=
    match lq_ready queue with
    | Some element => (element, ready f)
    | None => (S (S w), ready f ++ [(S (S w), lane)])
    end in
  let queue := LaneQueue (lq_id queue) (lq_waiters queue ++ [w]) (lq_waiting queue + 1)
    (Some element) in
  (w, bump 3 (set_queues (<[lane := queue]> (queues f)) ring (queuedTotal f + 1)
    (<[w := waiter]> (waiters f)) f)).

(** What the first part of [acquire] does: return, or block on a waiter. *)
Inductive acquired :=
| Returned (err : option flowError)
| Blocked (waiter : nat).

(** [acquire] up to its [select]; [ctxErr] is [requestContextError(ctx)]. *)
Definition acquire_enter (ctxErr : option flowError) (lane : Z) (f : nativeFlowController)
  : acquired * nativeFlowController :=
  match ctxErr with
  | Some err => (Returned (Some err), f)
  | None =>
  match closedErr f with
  | Some err => (Returned (Some err), f)
  | None =>
      if laneQueueLimit f =? 0 then (Returned (Some FlowLaneQueueClosed), f)
      else if (connectionLimit f =? 0) || (laneLimit f =? 0)
      then (Returned (Some FlowNoInflightCredit), f)
      else if canAcquireLocked lane f then (Returned None, activateLocked lane f)
      else if maxQueued f <=? queuedTotal f then (Returned (Some FlowClientQueueFull), f)
      else let '(w, f) := enqueue lane f in (Blocked w, f)
  end
  end.

(** [f.ready.Remove(element)]. *)
Definition remove_element (element : nat) (ring : list (nat * Z)) : list (nat * Z) :=
  filter (fun e => e.1 ≠ element) ring.

(** [unlinkNativeFlowWaiter] on the queue's list and the waiter's fields. *)
Definition unlink_list (w : nat) (l : list nat) : list nat := filter (.≠ w) l.

Definition unlink_waiter (x : nativeFlowWaiter) : nativeFlowWaiter :=
  FlowWaiter None (fw_settled x) (fw_granted x) (fw_err x) (fw_closed x).

Definition removeLaneQueueLocked (lane : Z) (queue : nativeFlowLaneQueue)
  (f : nativeFlowController) : nativeFlowController :=
  let ring :=
    match lq_ready queue with
    | Some element => remove_element element (ready f)
    | None => ready f
    end in
  set_queues (delete lane (queues f)) ring (queuedTotal f) (waiters f) f.

Definition removeQueuedWaiterLocked (lane : Z) (w : nat) (f : nativeFlowController)
  : nativeFlowController :=
  match waiters f !! w, queues f !! lane with
  | Some x, Some queue =>
      if negb (bool_decide (fw_queue x = Some (lq_id queue))) || (lq_waiting queue <=? 0) then f
      else
        let queue := LaneQueue (lq_id queue) (unlink_list w (lq_waiters queue))
          (lq_waiting queue - 1) (lq_ready queue) in
        let f := set_queues (<[lane := queue]> (queues f)) (ready f) (queuedTotal f - 1)
          (<[w := unlink_waiter x]> (waiters f)) f in
        if lq_waiting queue =? 0 then removeLaneQueueLocked lane queue f else f
  | _, _ => f
  end.

(** [takeWaiterLocked]: the first unsettled waiter, the rest of the list and
    the heap in which the waiters passed over are unlinked. *)
Fixpoint takeWaiterLocked (l : list nat) (heap : gmap nat nativeFlowWaiter)
  : option nat * list nat * gmap nat nativeFlowWaiter :=
  match l with
  | [] => (None, [], heap)
  | w :: l =>
      match heap !! w with
      | Some x =>
          let heap := <[w := unlink_waiter x]> heap in
          if fw_settled x then takeWaiterLocked l heap else (Some w, l, heap)
      | None => takeWaiterLocked l heap
      end
  end.

(** The statements of [pumpLocked] after a waiter was taken. *)
Definition grantWaiter (lane : Z) (element : nat) (queue : nativeFlowLaneQueue) (w : nat)
  (f : nativeFlowController) : nativeFlowController :=
  let queue := LaneQueue (lq_id queue) (lq_waiters queue) (lq_waiting queue - 1)
    (lq_ready queue) in
  let f := set_queues (<[lane := queue]> (queues f)) (ready f) (queuedTotal f - 1)
    (waiters f) f in
  let f :=
    if lq_waiting queue =? 0 then removeLaneQueueLocked lane queue f
    else set_ready (remove_element element (ready f) ++ [(element, lane)]) f in
  let f := activateLocked lane f in
  set_queues (queues f) (ready f) (queuedTotal f)
    (alter (fun x => FlowWaiter (fw_queue x) true true (fw_err x) true) w (waiters f)) f.

(** The inner loop of [pumpLocked]: one turn over the ring; [true] when a
    waiter was granted. *)
Fixpoint pump_turn (attempts : nat) (f : nativeFlowController) : nativeFlowController * bool :=
  match attempts with
  | O => (f, false)
  | S attempts =>
      if connectionLimit f <=? activeTotal f then (f, false)
      else
        match ready f with
        | [] => (f, false)
        | (element, lane) :: rest =>
            match queues f !! lane with
            | None => pump_turn attempts (set_ready (remove_element element (ready f)) f)
            | Some queue =>
                if negb (bool_decide (lq_ready queue = Some element)) || (lq_waiting queue =? 0)
                then pump_turn attempts (set_ready (remove_element element (ready f)) f)
                else if laneLimit f <=? activeOf f lane
                then pump_turn attempts (set_ready (rest ++ [(element, lane)]) f)
                else
                  let '(taken, l, heap) := takeWaiterLocked (lq_waiters queue) (waiters f) in
                  let queue := LaneQueue (lq_id queue) l (lq_waiting queue) (lq_ready queue) in
                  let f := set_queues (<[lane := queue]> (queues f)) (ready f) (queuedTotal f)
                    heap f in
                  match taken with
                  | None => pump_turn attempts (removeLaneQueueLocked lane queue f)
                  | Some w => (grantWaiter lane element queue w f, true)
                  end
            end
        end
  end.

(** The outer loop, with fuel for its turns. *)
Fixpoint pump_loop (fuel : nat) (f : nativeFlowController) : nativeFlowController :=
  match fuel with
  | O => f
  | S fuel =>
      match closedErr f with
      | Some _ => f
      | None =>
          if (activeTotal f <? connectionLimit f) && negb (bool_decide (ready f = [])) then
            let '(f, granted) := pump_turn (length (ready f)) f in
            if granted then pump_loop fuel f else f
          else f
      end
  end.

(** Every turn but the last grants a queued waiter. *)
Definition pumpLocked (f : nativeFlowController) : nativeFlowController :=
  pump_loop (S (Z.to_nat (queuedTotal f))) f.

Definition release (lane : Z) (f : nativeFlowController) : nativeFlowController :=
  let active := activeOf f lane in
  if active <=? 0 then f
  else
    let f := set_active (activeTotal f - 1)
      (if active =? 1 then delete lane (activeByLane f)
       else <[lane := active - 1]> (activeByLane f)) f in
    match closedErr f with
    | None => pumpLocked f
    | Some _ => f
    end.

(** The [case <-waiter.ready] branch of [acquire]: enabled once the channel is
    closed. *)
Definition acquire_ready (w : nat) (f : nativeFlowController) : option (option flowError) :=
  match waiters f !! w with
  | Some x =>
      if fw_closed x then
        Some (match fw_err x with
              | Some err => Some err
              | None => if fw_granted x then None else Some FlowConnectionUnavailable
              end)
      else None
  | None => None
  end.

(** The [case <-ctx.Done()] branch: the call returns the context's error. *)
Definition acquire_cancel (lane : Z) (w : nat) (f : nativeFlowController) : nativeFlowController :=
  match waiters f !! w with
  | Some x =>
      if negb (fw_settled x) then
        let x := FlowWaiter (fw_queue x) true (fw_granted x) (fw_err x) (fw_closed x) in
        removeQueuedWaiterLocked lane w
          (set_queues (queues f) (ready f) (queuedTotal f) (<[w := x]> (waiters f)) f)
      else if fw_granted x then release lane f else f
  | None => f
  end.

(** The limits [updateLimits] stores: negative or absent ones are ignored. *)
Definition storeLimits (connection lane : option Z) (f : nativeFlowController)
  : nativeFlowController :=
  let c :=
    match connection with
    | Some c => if 0 <=? c then c else connectionLimit f
    | None => connectionLimit f
    end in
  let w :=
    match lane with
    | Some w => if 0 <=? w then w else laneWindowLimit f
    | None => laneWindowLimit f
    end in
  set_limits c w (Z.min w (laneQueueLimit f)) f.

Definition updateLimits (connection lane : option Z) (f : nativeFlowController)
  : nativeFlowController :=
  let f := storeLimits connection lane f in
  match closedErr f with
  | None => pumpLocked f
  | Some _ => f
  end.

(** The waiter loop of [close] over one queue. *)
Definition close_waiter (err : flowError) (heap : gmap nat nativeFlowWaiter) (w : nat)
  : gmap nat nativeFlowWaiter :=
  alter (fun x => if fw_settled x then x else FlowWaiter None true (fw_granted x) (Some err) true)
    w heap.

Definition close (err : option flowError) (f : nativeFlowController) : nativeFlowController :=
  let err := default FlowConnectionUnavailable err in
  match closedErr f with
  | Some _ => f
  | None =>
      let heap :=
        foldl (fun heap kq => foldl (close_waiter err) heap (lq_waiters kq.2)) (waiters f)
          (map_to_list (queues f)) in
      set_queues ∅ [] 0 heap (set_closed err f)
  end.

(** ** The callers

    [fs_calls]: the [acquire] calls blocked in their [select], by waiter;
    [fs_held]: the credits held by callers, per lane. A caller releases a
    credit it holds, once. *)

Record flowSystem := FlowSystem {
  fs_flow : nativeFlowController;
  fs_calls : gmap nat Z;
  fs_held : gmap Z Z;
}.

Inductive flowEvent :=
| EAcquire (lane : Z) (ctxErr : option flowError)
| EWake (waiter : nat)
| ECancel (waiter : nat)
| ERelease (lane : Z)
| EUpdate (connection lane : option Z)
| EClose (err : option flowError).

Definition heldOf (held : gmap Z Z) (lane : Z) : Z := default 0 (held !! lane).

Definition hold (n lane : Z) (held : gmap Z Z) : gmap Z Z :=
  <[lane := heldOf held lane + n]> held.

Definition flow_step (s : flowSystem) (e : flowEvent) : option flowSystem :=
  let '(FlowSystem f calls held) := s in
  match e with
  | EAcquire lane ctxErr =>
      let '(r, f) := acquire_enter ctxErr lane f in
      match r with
      | Returned None => Some (FlowSystem f calls (hold 1 lane held))
      | Returned (Some _) => Some (FlowSystem f calls held)
      | Blocked w => Some (FlowSystem f (<[w := lane]> calls) held)
      end
  | EWake w =>
      match calls !! w, acquire_ready w f with
      | Some lane, Some None => Some (FlowSystem f (delete w calls) (hold 1 lane held))
      | Some _, Some (Some _) => Some (FlowSystem f (delete w calls) held)
      | _, _ => None
      end
  | ECancel w =>
      match calls !! w with
      | Some lane => Some (FlowSystem (acquire_cancel lane w f) (delete w calls) held)
      | None => None
      end
  | ERelease lane =>
      if 0 <? heldOf held lane
      then Some (FlowSystem (release lane f) calls (hold (-1) lane held))
      else None
  | EUpdate c l => Some (FlowSystem (updateLimits c l f) calls held)
  | EClose err => Some (FlowSystem (close err f) calls held)
  end.

Inductive flow_reachable : flowSystem -> Prop :=
| flow_init connection lane queue maxQ :
    flow_reachable (FlowSystem (newNativeFlowController connection lane queue maxQ) ∅ ∅)
| flow_next s e s' : flow_reachable s -> flow_step s e = Some s' -> flow_reachable s'.

(** ** Invariants *)

Definition queue_of (f : nativeFlowController) (lane : Z) : list nat :=
  match queues f !! lane with Some q => lq_waiters q | None => [] end.

Definition granted_in (f : nativeFlowController) (w : nat) : bool :=
  match waiters f !! w with Some x => fw_granted x | None => false end.

Definition waiter_ok (f : nativeFlowController) (lane : Z) (w : nat) (x : nativeFlowWaiter) : Prop :=
  if fw_settled x
  then fw_closed x = true /\ fw_granted x = bool_decide (fw_err x = None)
  else w ∈ queue_of f lane.

Record queue_ok (f : nativeFlowController) (calls : gmap nat Z) (lane : Z)
  (q : nativeFlowLaneQueue) : Prop := QueueOk {
  qo_len : lq_waiting q = blen (lq_waiters q);
  qo_ne : lq_waiters q <> [];
  qo_nd : NoDup (lq_waiters q);
  qo_ready : exists e, lq_ready q = Some e /\ (e, lane) ∈ ready f;
  qo_waiters w : w ∈ lq_waiters q ->
    calls !! w = Some lane /\
    waiters f !! w = Some (FlowWaiter (Some (lq_id q)) false false None false);
}.

(** Queues, ring and blocked calls agree. *)
Record queue_inv (f : nativeFlowController) (calls : gmap nat Z) : Prop := QueueInv {
  qi_queue lane q : queues f !! lane = Some q -> queue_ok f calls lane q;
  qi_ready e lane : (e, lane) ∈ ready f ->
    exists q, queues f !! lane = Some q /\ lq_ready q = Some e;
  qi_nodup : NoDup (ready f).*1;
  qi_total : queuedTotal f = msum (fun _ q => lq_waiting q) (queues f);
  qi_calls w lane : calls !! w = Some lane ->
    exists x, waiters f !! w = Some x /\ waiter_ok f lane w x;
  qi_fresh_calls w lane : calls !! w = Some lane -> (w < nextAddr f)%nat;
  qi_fresh_ready e lane : (e, lane) ∈ ready f -> (e < nextAddr f)%nat;
  qi_closed : closedErr f <> None -> queues f = ∅;
}.

Definition unobserved (f : nativeFlowController) (lane : Z) (w : nat) (l : Z) : Z :=
  if (l =? lane) && granted_in f w then 1 else 0.

(** Every active credit is held by a caller or granted to a blocked call. *)
Record credit_inv (f : nativeFlowController) (calls : gmap nat Z) (held : gmap Z Z) : Prop :=
  CreditInv {
  ci_total : activeTotal f = msum (fun _ n => n) (activeByLane f);
  ci_pos lane n : activeByLane f !! lane = Some n -> 0 < n;
  ci_held lane : 0 <= heldOf held lane;
  ci_credit lane : activeOf f lane = heldOf held lane + msum (unobserved f lane) calls;
}.

(** No credit is free while a request that could use it waits. *)
Definition drained (f : nativeFlowController) : Prop :=
  closedErr f = None ->
  connectionLimit f <= activeTotal f \/
  forall lane, queue_of f lane <> [] -> laneLimit f <= activeOf f lane.

(** What serving the queues may change. *)
Record served (f f' : nativeFlowController) : Prop := Served {
  sv_fifo lane : exists done, queue_of f lane = done ++ queue_of f' lane /\
    Forall (fun w => granted_in f' w = true) done;
  sv_granted w : granted_in f w = true -> granted_in f' w = true;
  sv_lane lane : activeOf f' lane <= Z.max (activeOf f lane) (laneLimit f);
  sv_total : activeTotal f' <= Z.max (activeTotal f) (connectionLimit f);
  sv_limits : connectionLimit f' = connectionLimit f /\ laneLimit f' = laneLimit f /\
    closedErr f' = closedErr f;
}.

Lemma served_refl f : served f f.
Proof. split; eauto; try lia. intros lane. by exists []. Qed.

Lemma served_trans f1 f2 f3 : served f1 f2 -> served f2 f3 -> served f1 f3.
Proof.
  intros [F1 G1 L1 T1 (C1 & C1' & C1'')] [F2 G2 L2 T2 (C2 & C2' & C2'')]. split.
  - intros lane. destruct (F1 lane) as (d1 & -> & H1), (F2 lane) as (d2 & -> & H2).
    exists (d1 ++ d2). split; [by rewrite app_assoc|]. apply Forall_app. split; [|done].
    eapply Forall_impl; [exact H1|]. auto.
  - auto.
  - intros lane. specialize (L1 lane). specialize (L2 lane). lia.
  - lia.
  - split_and!; congruence.
Qed.

Lemma activeOf_activate f lane l :
  activeOf (activateLocked lane f) l = activeOf f l + if l =? lane then 1 else 0.
Proof.
  unfold activeOf, activateLocked. cbn. destruct (Z.eqb_spec l lane) as [->|Hne].
  - rewrite lookup_insert_eq. done.
  - rewrite lookup_insert_ne by done. lia.
Qed.

Lemma heldOf_hold n held lane l :
  heldOf (hold n lane held) l = heldOf held l + if l =? lane then n else 0.
Proof.
  unfold hold. unfold heldOf at 1. destruct (Z.eqb_spec l lane) as [->|Hne].
  - rewrite lookup_insert_eq. done.
  - rewrite lookup_insert_ne by done. unfold heldOf. lia.
Qed.

Lemma activeOf_nonneg f calls held lane : credit_inv f calls held -> 0 <= activeOf f lane.
Proof.
  intros [_ Hpos _ _]. unfold activeOf. destruct (_ !! lane) eqn:E; cbn; [|done].
  apply Hpos in E. lia.
Qed.

(** Taking a credit, for a caller or a waiter. *)
Lemma credit_activate f f' calls held held' lane :
  credit_inv f calls held ->
  activeTotal f' = activeTotal f + 1 ->
  activeByLane f' = <[lane := activeOf f lane + 1]> (activeByLane f) ->
  (forall l, 0 <= heldOf held' l) ->
  (forall l, heldOf held' l + msum (unobserved f' l) calls =
     heldOf held l + msum (unobserved f l) calls + if l =? lane then 1 else 0) ->
  credit_inv f' calls held'.
Proof.
  intros Hc Ht Hl Hh Hs. pose proof (activeOf_nonneg f calls held lane Hc) as Hnn.
  destruct Hc as [C1 C2 C3 C4]. split.
  - rewrite Ht, Hl, C1, msum_insert. unfold activeOf.
    destruct (activeByLane f !! lane); cbn; lia.
  - intros l n. rewrite Hl. intros [[<- <-]|[_ H]]%lookup_insert_Some; [lia|eauto].
  - done.
  - intros l. rewrite Hs, <- C4. rewrite <- (activeOf_activate f lane l).
    unfold activeOf at 1. rewrite Hl. done.
Qed.

Lemma credit_deactivate f calls held lane :
  credit_inv f calls held -> 0 < heldOf held lane ->
  credit_inv
    (set_active (activeTotal f - 1)
       (if activeOf f lane =? 1 then delete lane (activeByLane f)
        else <[lane := activeOf f lane - 1]> (activeByLane f)) f)
    calls (hold (-1) lane held) /\ 0 < activeOf f lane.
Proof.
  intros [C1 C2 C3 C4] Hh.
  assert (0 <= msum (unobserved f lane) calls) as Hm.
  { apply msum_nonneg. intros w l _. unfold unobserved. by destruct (_ && _). }
  assert (0 < activeOf f lane) as Ha by (rewrite C4; lia). split; [|done].
  assert (exists n, activeByLane f !! lane = Some n /\ activeOf f lane = n) as (n & Hn & Hact).
  { unfold activeOf in *. destruct (activeByLane f !! lane); cbn in *; [eauto|lia]. }
  rewrite Hact in *. split; cbn.
  - rewrite C1. destruct (Z.eqb_spec n 1) as [->|].
    + rewrite (msum_delete _ _ _ _ Hn). lia.
    + rewrite msum_insert, Hn. cbn. lia.
  - intros l k. destruct (Z.eqb_spec n 1).
    + intros [_ H]%lookup_delete_Some. eauto.
    + intros [[<- <-]|[_ H]]%lookup_insert_Some; [lia|eauto].
  - intros l. rewrite heldOf_hold. specialize (C3 l). destruct (Z.eqb_spec l lane); subst; lia.
  - intros l. rewrite heldOf_hold. change (unobserved _ l) with (unobserved f l) at 1.
    specialize (C4 l). unfold activeOf in *. cbn.
    destruct (Z.eqb_spec l lane) as [->|Hne], (Z.eqb_spec n 1) as [->|].
    + rewrite lookup_delete_eq. cbn. rewrite Hn in C4. cbn in C4. lia.
    + rewrite lookup_insert_eq. cbn. rewrite Hn in C4. cbn in C4. lia.
    + rewrite lookup_delete_ne by done. lia.
    + rewrite lookup_insert_ne by done. lia.
Qed.

(** Removing a waiter from its lane's queue, and the lane from the ring when
    it was the last. *)
Definition shrink (lane : Z) (q : nativeFlowLaneQueue) (w : nat) (l : list nat)
  (ring : list (nat * Z)) (x : nativeFlowWaiter) (f : nativeFlowController) :=
  set_queues
    (if decide (l = []) then delete lane (queues f)
     else <[lane := LaneQueue (lq_id q) l (blen l) (lq_ready q)]> (queues f))
    ring (queuedTotal f - 1) (<[w := x]> (waiters f)) f.

Lemma queue_inv_element f calls e e' lane lane' :
  queue_inv f calls -> (e, lane) ∈ ready f -> (e', lane') ∈ ready f -> e = e' <-> lane = lane'.
Proof.
  intros Q H1 H2. split.
  - intros <-. pose proof (qi_nodup _ _ Q) as Hnd.
    apply list_elem_of_lookup in H1 as [i Hi], H2 as [j Hj].
    assert (i = j) as ->.
    { apply (NoDup_lookup (ready f).*1 i j e); [done|..];
        rewrite list_lookup_fmap, ?Hi, ?Hj; done. }
    congruence.
  - intros <-. destruct (qi_ready _ _ Q _ _ H1) as (q1 & ? & ?), (qi_ready _ _ Q _ _ H2) as (q2 & ? & ?).
    congruence.
Qed.

Lemma queue_of_shrink lane q w l ring x f lane' :
  queue_of (shrink lane q w l ring x f) lane' = if decide (lane' = lane) then l else queue_of f lane'.
Proof.
  unfold queue_of, shrink; cbn. destruct (decide (lane' = lane)) as [->|Hne], (decide (l = [])) as [->|].
  - by rewrite lookup_delete_eq.
  - by rewrite lookup_insert_eq.
  - by rewrite lookup_delete_ne.
  - by rewrite lookup_insert_ne.
Qed.

Lemma queues_shrink lane q w l ring x f lane' q' :
  queues (shrink lane q w l ring x f) !! lane' = Some q' <->
  (lane' = lane /\ l <> [] /\ q' = LaneQueue (lq_id q) l (blen l) (lq_ready q)) \/
  (lane' <> lane /\ queues f !! lane' = Some q').
Proof.
  unfold shrink; cbn. destruct (decide (l = [])) as [->|].
  - rewrite lookup_delete_Some. naive_solver.
  - rewrite lookup_insert_Some. naive_solver.
Qed.

Section shrink.
Context (f : nativeFlowController) (calls calls' : gmap nat Z).
Context (lane : Z) (q : nativeFlowLaneQueue) (w : nat) (l : list nat).
Context (ring : list (nat * Z)) (x : nativeFlowWaiter).
Hypothesis Q : queue_inv f calls.
Hypothesis Hq : queues f !! lane = Some q.
Hypothesis Hl : w :: l ≡ₚ lq_waiters q.
Hypothesis Hring : forall e lane', (e, lane') ∈ ring <->
  (e, lane') ∈ ready f /\ (l = [] -> lane' <> lane).
Hypothesis Hnodup : NoDup ring.*1.
Hypothesis Hsettled : fw_settled x = true.
Hypothesis Hcalls' : forall w' lane', calls' !! w' = Some lane' ->
  calls !! w' = Some lane' /\
  (w' = w -> fw_closed x = true /\ fw_granted x = bool_decide (fw_err x = None)).
Hypothesis Hkeep : forall w' lane', w' <> w -> calls !! w' = Some lane' -> calls' !! w' = Some lane'.

Lemma shrink_other w' : w' ∈ l -> w' <> w.
Proof using Q Hq Hl.
  intros Hin ->. pose proof (qo_nd _ _ _ _ (qi_queue _ _ Q _ _ Hq)) as Hnd.
  rewrite <- Hl in Hnd. apply NoDup_cons in Hnd as [? _]. done.
Qed.

Lemma shrink_total :
  queuedTotal f - 1 = msum (fun _ q => lq_waiting q) (queues (shrink lane q w l ring x f)).
Proof using Q Hq Hl.
  clear -Q Hq Hl. pose proof (qi_queue _ _ Q _ _ Hq) as [Hlen _ _ _ _].
  assert (lq_waiting q = blen l + 1) as Hw.
  { rewrite Hlen. unfold blen. rewrite <- (Permutation_length Hl). cbn. lia. }
  rewrite (qi_total _ _ Q), (msum_delete _ _ _ _ Hq), Hw. unfold shrink; cbn.
  destruct (decide (l = [])) as [->|].
  - change (blen []) with 0. lia.
  - rewrite msum_insert, Hq. cbn. rewrite Hw, (msum_delete _ _ _ _ Hq), Hw. lia.
Qed.

Lemma queue_inv_shrink : queue_inv (shrink lane q w l ring x f) calls'.
Proof using All.
  pose proof (qi_queue _ _ Q _ _ Hq) as [Hlen Hne Hnd (e & He & Hin) Hws].
  assert (forall w', w' ∈ l -> calls !! w' = Some lane /\
    waiters f !! w' = Some (FlowWaiter (Some (lq_id q)) false false None false)) as Hl'.
  { intros w' Hw'. apply Hws. rewrite <- Hl. by right. }
  split.
  - intros lane' q'. rewrite queues_shrink. intros [(-> & Hl0 & ->)|[Hne' Hq']].
    + split; cbn; [done|done| | |].
      * rewrite <- Hl in Hnd. by apply NoDup_cons in Hnd as [_ ?].
      * exists e. split; [done|]. apply Hring. done.
      * intros w' Hw'. pose proof (shrink_other w' Hw').
        destruct (Hl' w' Hw'). rewrite lookup_insert_ne by done. eauto.
    + pose proof (qi_queue _ _ Q _ _ Hq') as [Hlen' Hne'' Hnd' (e' & He' & Hin') Hws'].
      split; cbn; [done|done|done| |].
      * exists e'. split; [done|]. by apply Hring.
      * intros w' Hw'. destruct (Hws' w' Hw') as [Hc Hh].
        assert (w' <> w). { intros ->. destruct (Hws w); [rewrite <- Hl, elem_of_cons; auto|]. congruence. }
        rewrite lookup_insert_ne by done. eauto.
  - intros e' lane' [Hr Hll]%Hring. destruct (qi_ready _ _ Q _ _ Hr) as (q' & Hq' & He').
    setoid_rewrite queues_shrink. destruct (decide (lane' = lane)) as [->|Hd]; [|eauto].
    rewrite Hq in Hq'. simplify_eq. eexists. split; [left; split_and!; naive_solver|done].
  - done.
  - apply shrink_total.
  - intros w' lane' [Hc Hx]%Hcalls'. destruct (qi_calls _ _ Q _ _ Hc) as (x' & Hx' & Hok).
    unfold waiter_ok in *. cbn. destruct (decide (w' = w)) as [->|Hd].
    + exists x. rewrite lookup_insert_eq, Hsettled. auto.
    + exists x'. rewrite lookup_insert_ne by done. split; [done|].
      destruct (fw_settled x') eqn:Hs; [done|]. rewrite queue_of_shrink.
      destruct (decide (lane' = lane)) as [->|]; [|done].
      unfold queue_of in Hok. rewrite Hq, <- Hl in Hok. set_solver.
  - intros w' lane' [Hc _]%Hcalls'. exact (qi_fresh_calls _ _ Q _ _ Hc).
  - intros e' lane' [Hr _]%Hring. exact (qi_fresh_ready _ _ Q _ _ Hr).
  - cbn. intros Hc%(qi_closed _ _ Q). rewrite Hc in Hq. done.
Qed.
End shrink.

(** ** Serving the queues *)

Definition granted_waiter : nativeFlowWaiter := FlowWaiter None true true None true.

Definition ring_after (e : nat) (lane : Z) (l : list nat) (ring : list (nat * Z)) :=
  remove_element e ring ++ if decide (l = []) then [] else [(e, lane)].

(** One grant: the head [w] of the lane's queue gets a credit, the lane goes to
    the back of the ring. *)
Definition grant (lane : Z) (q : nativeFlowLaneQueue) (e w : nat) (l : list nat)
  (f : nativeFlowController) :=
  activateLocked lane (shrink lane q w l (ring_after e lane l (ready f)) granted_waiter f).

Lemma alter_insert_same {V} (g : V -> V) k (v : V) (m : gmap nat V) :
  alter g k (<[k := v]> m) = <[k := g v]> m.
Proof. apply map_eq. intros i. destruct (decide (i = k)) as [->|];
  [by rewrite lookup_alter_eq, !lookup_insert_eq | by rewrite lookup_alter_ne, !lookup_insert_ne].
Qed.

Lemma grantWaiter_eq f calls lane q e w l :
  queue_ok f calls lane q -> lq_waiters q = w :: l -> lq_ready q = Some e ->
  takeWaiterLocked (lq_waiters q) (waiters f) =
    (Some w, l, <[w := FlowWaiter None false false None false]> (waiters f)) /\
  grantWaiter lane e (LaneQueue (lq_id q) l (lq_waiting q) (lq_ready q)) w
    (set_queues (<[lane := LaneQueue (lq_id q) l (lq_waiting q) (lq_ready q)]> (queues f))
       (ready f) (queuedTotal f) (<[w := FlowWaiter None false false None false]> (waiters f)) f)
  = grant lane q e w l f.
Proof.
  intros [Hlen _ _ _ Hws] Hl He.
  destruct (Hws w) as [_ Hw]; [rewrite Hl; left|]. split.
  { rewrite Hl. cbn. by rewrite Hw. }
  assert (lq_waiting q = blen l + 1) as Hb by (rewrite Hlen, Hl, blen_cons; lia).
  rewrite Hb, He. pose proof (blen_nonneg l).
  unfold grantWaiter, grant, shrink, ring_after, activateLocked. cbn.
  replace (blen l + 1 - 1) with (blen l) by lia. rewrite He.
  destruct (decide (l = [])) as [->|Hne].
  - change (blen [] =? 0) with true. cbn.
    rewrite alter_insert_same, app_nil_r, insert_insert_eq, delete_insert_eq. done.
  - destruct (Z.eqb_spec (blen l) 0) as [H0|_]; [destruct l; [done|cbn in H0; unfold blen in H0; cbn in H0; lia]|].
    cbn. by rewrite alter_insert_same, insert_insert_eq.
Qed.

Lemma elem_remove_element e e' (lane : Z) ring :
  (e', lane) ∈ remove_element e ring <-> (e', lane) ∈ ring /\ e' <> e.
Proof. unfold remove_element. rewrite list_elem_of_filter. cbn. naive_solver. Qed.

Lemma NoDup_remove_element e ring : NoDup ring.*1 -> NoDup (remove_element e ring).*1.
Proof.
  unfold remove_element. induction ring as [|[e' lane] ring IH]; [done|].
  rewrite fmap_cons, NoDup_cons, filter_cons. cbn [fst]. intros [Hn Hd]. case_decide; cbn; [|auto].
  apply NoDup_cons. split; [|auto]. intros ([e'' l'] & -> & Hin)%list_elem_of_fmap.
  apply Hn. apply list_elem_of_fmap. exists (e'', l'). split; [done|].
  by apply list_elem_of_filter in Hin as [_ ?].
Qed.

Lemma NoDup_ring_after e lane l ring : NoDup ring.*1 -> NoDup (ring_after e lane l ring).*1.
Proof.
  intros Hnd. unfold ring_after. rewrite fmap_app. apply NoDup_app. split_and!.
  - by apply NoDup_remove_element.
  - intros e' ([e1 l1] & -> & [_ Hne]%elem_remove_element)%list_elem_of_fmap.
    cbn. case_decide; cbn; [apply not_elem_of_nil|]. by rewrite list_elem_of_singleton.
  - case_decide; cbn; [apply NoDup_nil_2|apply NoDup_singleton].
Qed.

Lemma queue_inv_active t m f calls : queue_inv f calls <-> queue_inv (set_active t m f) calls.
Proof. split; intros [Hq]; split; try done; intros lane q Hl; destruct (Hq _ _ Hl); split; done. Qed.

Section grant_inv.
Context (f : nativeFlowController) (calls : gmap nat Z) (held : gmap Z Z).
Context (lane : Z) (q : nativeFlowLaneQueue) (e w : nat) (l : list nat).
Hypothesis Q : queue_inv f calls.
Hypothesis Hq : queues f !! lane = Some q.
Hypothesis Hl : lq_waiters q = w :: l.
Hypothesis He : lq_ready q = Some e.

Lemma grant_waiter_before :
  calls !! w = Some lane /\
  waiters f !! w = Some (FlowWaiter (Some (lq_id q)) false false None false).
Proof using Q Hq Hl. apply (qo_waiters _ _ _ _ (qi_queue _ _ Q _ _ Hq)). rewrite Hl. left. Qed.

Lemma queue_inv_grant : queue_inv (grant lane q e w l f) calls.
Proof using Q Hq Hl He.
  apply queue_inv_active.
  destruct (qo_ready _ _ _ _ (qi_queue _ _ Q _ _ Hq)) as (e0 & He0 & Hin). simplify_eq.
  apply (queue_inv_shrink f calls); try done.
  - by rewrite Hl.
  - intros e' lane'. unfold ring_after. rewrite elem_of_app, elem_remove_element.
    split.
    + intros [[Hr Hne]|Hr].
      * split; [done|]. intros _ ->. apply Hne. by apply (queue_inv_element f calls e' e lane lane).
      * case_decide; [by apply not_elem_of_nil in Hr|].
        apply list_elem_of_singleton in Hr. by simplify_eq.
    + intros [Hr Hll]. destruct (decide (e' = e)) as [->|]; [right|by left].
      assert (lane' = lane) as ->.
      { symmetry. by apply (queue_inv_element f calls e e lane lane'). }
      rewrite decide_False by naive_solver. by left.
  - apply NoDup_ring_after, Q.
Qed.

Lemma granted_in_grant w' :
  granted_in (grant lane q e w l f) w' = bool_decide (w' = w) || granted_in f w'.
Proof using.
  unfold granted_in; cbn. case_bool_decide; subst.
  - by rewrite lookup_insert_eq.
  - by rewrite lookup_insert_ne.
Qed.

Lemma credit_inv_grant : credit_inv f calls held -> credit_inv (grant lane q e w l f) calls held.
Proof using Q Hq Hl.
  intros C. eapply credit_activate; [exact C|done|done|apply C|].
  intros l'. destruct grant_waiter_before as [Hc Hw].
  assert (granted_in f w = false) as Hg by (unfold granted_in; by rewrite Hw).
  rewrite (msum_update (unobserved f l') _ calls w lane Hc).
  - unfold unobserved. rewrite granted_in_grant, bool_decide_true, Hg by done. cbn.
    rewrite (Z.eqb_sym lane l'). destruct (l' =? lane); cbn; lia.
  - intros w' k Hne. unfold unobserved. by rewrite granted_in_grant, bool_decide_false.
Qed.

Lemma queue_of_grant lane' :
  queue_of (grant lane q e w l f) lane' = if decide (lane' = lane) then l else queue_of f lane'.
Proof using. apply (queue_of_shrink lane q w l). Qed.

Lemma served_grant :
  activeTotal f < connectionLimit f -> activeOf f lane < laneLimit f ->
  served f (grant lane q e w l f).
Proof using Q Hq Hl.
  intros Ht Ha. split.
  - intros lane'. rewrite queue_of_grant. destruct (decide (lane' = lane)) as [->|].
    + exists [w]. unfold queue_of. rewrite Hq, Hl. split; [done|].
      constructor; [|done]. by rewrite granted_in_grant, bool_decide_true.
    + by exists [].
  - intros w' Hw'. by rewrite granted_in_grant, Hw', orb_true_r.
  - intros lane'. unfold grant. rewrite activeOf_activate.
    change (activeOf (shrink _ _ _ _ _ _ _) lane') with (activeOf f lane').
    destruct (Z.eqb_spec lane' lane); subst; lia.
  - cbn. lia.
  - done.
Qed.
End grant_inv.

Lemma queue_inv_rotate f calls r :
  r ≡ₚ ready f -> queue_inv f calls -> queue_inv (set_ready r f) calls.
Proof.
  intros Hr [Q1 Q2 Q3 Q4 Q5 Q6 Q7 Q8]. split; cbn; try done.
  - intros lane q Hq. destruct (Q1 _ _ Hq) as [? ? ? (e & ? & ?) ?]. split; cbn; try done.
    exists e. by rewrite Hr.
  - intros e lane. rewrite Hr. apply Q2.
  - by rewrite Hr.
  - intros e lane. rewrite Hr. apply Q7.
Qed.

Lemma served_set_ready r f : served f (set_ready r f).
Proof. destruct (served_refl f). by split. Qed.

Lemma queue_of_ready f calls lane :
  queue_inv f calls -> queue_of f lane <> [] -> exists e, (e, lane) ∈ ready f.
Proof.
  intros Q. unfold queue_of. destruct (queues f !! lane) as [q|] eqn:Hq; [|done].
  intros _. destruct (qo_ready _ _ _ _ (qi_queue _ _ Q _ _ Hq)) as (e & _ & ?). eauto.
Qed.

Lemma queuedTotal_nonneg f calls : queue_inv f calls -> 0 <= queuedTotal f.
Proof.
  intros Q. rewrite (qi_total _ _ Q). apply msum_nonneg. intros lane q Hq.
  rewrite (qo_len _ _ _ _ (qi_queue _ _ Q _ _ Hq)). apply blen_nonneg.
Qed.

(** What one turn over the ring achieves. *)
Definition turn_done (calls : gmap nat Z) (held : gmap Z Z) (f f' : nativeFlowController)
  (granted : bool) : Prop :=
  queue_inv f' calls /\ credit_inv f' calls held /\ served f f' /\
  if granted then queuedTotal f' = queuedTotal f - 1
  else drained f' /\ queuedTotal f' = queuedTotal f.

Lemma pump_turn_spec calls held n : forall f l1 l2,
  queue_inv f calls -> credit_inv f calls held ->
  ready f = l1 ++ l2 -> length l1 = n ->
  (forall e lane, (e, lane) ∈ l2 -> laneLimit f <= activeOf f lane) ->
  turn_done calls held f (pump_turn n f).1 (pump_turn n f).2.
Proof.
  induction n as [|n IH]; intros f l1 l2 Q C Hr Hn Hsat; cbn [pump_turn].
  - destruct l1; [|done]. unfold turn_done; cbn. split_and!; auto using served_refl. intros _. right. intros lane Hl.
    destruct (queue_of_ready f calls lane Q Hl) as (e & He). rewrite Hr in He. eauto.
  - destruct (Z.leb_spec (connectionLimit f) (activeTotal f)) as [Ht|Ht].
    { unfold turn_done; cbn. split_and!; auto using served_refl. intros _. by left. }
    destruct l1 as [|[e lane] l1]; [done|]. cbn [app] in Hr. rewrite Hr.
    destruct (qi_ready _ _ Q e lane) as (q & Hq & He); [rewrite Hr; left|].
    pose proof (qi_queue _ _ Q _ _ Hq) as Hok. rewrite Hq, He.
    rewrite bool_decide_true by done. cbn [negb orb].
    destruct (lq_waiters q) as [|w l] eqn:Hl; [by destruct (qo_ne _ _ _ _ Hok)|].
    destruct (Z.eqb_spec (lq_waiting q) 0) as [H0|_].
    { rewrite (qo_len _ _ _ _ Hok), Hl, blen_cons in H0. pose proof (blen_nonneg l). lia. }
    destruct (Z.leb_spec (laneLimit f) (activeOf f lane)) as [Ha|Ha].
    + destruct (IH (set_ready ((l1 ++ l2) ++ [(e, lane)]) f) l1 (l2 ++ [(e, lane)]))
        as (Q' & C' & S' & Hg).
      * apply queue_inv_rotate; [|done]. rewrite Hr. by rewrite Permutation_app_comm.
      * destruct C; by split.
      * cbn. by rewrite app_assoc.
      * cbn in Hn. lia.
      * intros e' lane' [?|?%list_elem_of_singleton]%elem_of_app; simplify_eq; cbn; eauto.
      * split_and!; [done|done| |done].
        eapply served_trans; [apply served_set_ready|exact S'].
    + destruct (grantWaiter_eq f calls lane q e w l Hok Hl He) as [Htake Hgrant].
      rewrite <- Hl, Htake. cbn [fst snd]. rewrite <- Hr.
      rewrite He in Hgrant. rewrite Hgrant.
      split_and!.
      * by eapply queue_inv_grant.
      * by eapply credit_inv_grant.
      * by eapply served_grant.
      * done.
Qed.

(** With as much fuel as there are queued waiters the loop runs to its end. *)
Lemma pump_loop_spec calls held fuel : forall f,
  queue_inv f calls -> credit_inv f calls held ->
  (Z.to_nat (queuedTotal f) < fuel)%nat ->
  let f' := pump_loop fuel f in
  queue_inv f' calls /\ credit_inv f' calls held /\ served f f' /\ drained f' /\
  forall more, pump_loop (fuel + more) f = f'.
Proof.
  induction fuel as [|fuel IH]; intros f Q C Hf; [lia|]. cbn [pump_loop plus].
  destruct (closedErr f) eqn:Hc.
  { split_and!; auto using served_refl. unfold drained. by rewrite Hc. }
  destruct (Z.ltb_spec (activeTotal f) (connectionLimit f)) as [Ht|Ht]; cbn [andb].
  2: { split_and!; auto using served_refl. intros _. by left. }
  case_bool_decide as Hr; cbn [negb].
  { split_and!; auto using served_refl. intros _. right. intros lane Hl.
    destruct (queue_of_ready f calls lane Q Hl) as (e & He). rewrite Hr in He.
    by apply not_elem_of_nil in He. }
  pose proof (pump_turn_spec calls held (length (ready f)) f (ready f) [] Q C) as Hturn.
  destruct Hturn as (Q1 & C1 & S1 & Hg); [by rewrite app_nil_r|done| |].
  { by intros e lane ?%not_elem_of_nil. }
  destruct (pump_turn (length (ready f)) f) as [f1 []]; cbn [fst snd] in *.
  - pose proof (queuedTotal_nonneg f1 calls Q1).
    destruct (IH f1 Q1 C1) as (Q2 & C2 & S2 & D2 & Hm); [lia|].
    split_and!; eauto using served_trans.
  - destruct Hg as [Hd _]. by split_and!.
Qed.

Lemma pumpLocked_spec calls held f :
  queue_inv f calls -> credit_inv f calls held ->
  queue_inv (pumpLocked f) calls /\ credit_inv (pumpLocked f) calls held /\
  served f (pumpLocked f) /\ drained (pumpLocked f).
Proof.
  intros Q C. destruct (pump_loop_spec calls held (S (Z.to_nat (queuedTotal f))) f Q C)
    as (? & ? & ? & ? & _); [lia|]. by split_and!.
Qed.

(** ** The invariant of the system *)

Definition flow_inv (s : flowSystem) : Prop :=
  queue_inv (fs_flow s) (fs_calls s) /\ credit_inv (fs_flow s) (fs_calls s) (fs_held s) /\
  drained (fs_flow s).

Lemma flow_inv_init connection lane queue maxQ :
  flow_inv (FlowSystem (newNativeFlowController connection lane queue maxQ) ∅ ∅).
Proof.
  split_and!.
  - split; cbn; try done; try (by intros ?? ?%not_elem_of_nil).
    apply NoDup_nil_2.
  - by split.
  - intros _. right. intros l. unfold queue_of; cbn. by rewrite lookup_empty.
Qed.

Lemma unobserved_new f calls w lane :
  calls !! w = None -> granted_in f w = false ->
  forall l, msum (unobserved f l) (<[w := lane]> calls) = msum (unobserved f l) calls.
Proof.
  intros Hw Hg l. rewrite msum_insert_new by done. unfold unobserved at 1.
  rewrite Hg, andb_false_r. lia.
Qed.

Lemma unobserved_delete f calls w lane :
  calls !! w = Some lane ->
  forall l, msum (unobserved f l) calls =
    (if (lane =? l) && granted_in f w then 1 else 0) + msum (unobserved f l) (delete w calls).
Proof. intros Hw l. by rewrite (msum_delete _ _ _ _ Hw). Qed.

Lemma credit_inv_ext f f' calls calls' held :
  activeTotal f' = activeTotal f -> activeByLane f' = activeByLane f ->
  (forall l, msum (unobserved f' l) calls' = msum (unobserved f l) calls) ->
  credit_inv f calls held -> credit_inv f' calls' held.
Proof.
  intros Ht Hl Hs [C1 C2 C3 C4]. split; rewrite ?Ht, ?Hl; try done.
  intros l. rewrite Hs, <- C4. unfold activeOf. by rewrite Hl.
Qed.

(** *** Entering the queue *)

Lemma queue_of_enqueue lane f lane' :
  queue_of (enqueue lane f).2 lane' =
  if decide (lane' = lane) then queue_of f lane ++ [nextAddr f] else queue_of f lane'.
Proof.
  unfold enqueue, queue_of.
  destruct (lq_ready _); cbn; destruct (decide (lane' = lane)) as [->|];
    rewrite ?lookup_insert_eq, ?lookup_insert_ne by done; cbn; by destruct (queues f !! _).
Qed.

(** The queue and the ring once a waiter [w] joined [lane]. *)
Lemma enqueue_shape f calls lane :
  queue_inv f calls ->
  exists q0 e ring,
    (enqueue lane f).2 = bump 3 (set_queues
      (<[lane := LaneQueue (lq_id q0) (lq_waiters q0 ++ [nextAddr f]) (lq_waiting q0 + 1) (Some e)]>
        (queues f)) ring (queuedTotal f + 1)
      (<[nextAddr f := FlowWaiter (Some (lq_id q0)) false false None false]> (waiters f)) f) /\
    (queues f !! lane = Some q0 /\ lq_ready q0 = Some e /\ ring = ready f \/
     queues f !! lane = None /\ lq_waiters q0 = [] /\ lq_waiting q0 = 0 /\
     e = S (S (nextAddr f)) /\ ring = ready f ++ [(e, lane)]).
Proof.
  intros Q. unfold enqueue. destruct (queues f !! lane) as [q|] eqn:Hq; cbn.
  - destruct (qo_ready _ _ _ _ (qi_queue _ _ Q _ _ Hq)) as (e & He & _).
    exists q, e, (ready f). rewrite He. cbn. auto.
  - exists (LaneQueue (S (nextAddr f)) [] 0 None), (S (S (nextAddr f))). eexists. cbn.
    split; [done|]. right. by split_and!.
Qed.

Lemma queue_inv_enqueue f calls lane :
  queue_inv f calls -> closedErr f = None ->
  queue_inv (enqueue lane f).2 (<[nextAddr f := lane]> calls).
Proof.
  intros Q Hopen.
  assert (forall w l, calls !! w = Some l -> w <> nextAddr f) as Hfresh.
  { intros w l Hw%(qi_fresh_calls _ _ Q). lia. }
  pose proof (queue_of_enqueue lane f) as Hqo.
  destruct (enqueue_shape f calls lane Q) as (q0 & e & ring & Heq & Hcase).
  assert (forall e' l', (e', l') ∈ ring <-> (e', l') ∈ ready f \/ (e' = e /\ l' = lane)) as Hring.
  { intros e' l'. destruct Hcase as [(Hq & He & ->)|(Hq & _ & _ & _ & ->)].
    - destruct (qo_ready _ _ _ _ (qi_queue _ _ Q _ _ Hq)) as (e1 & ? & ?). naive_solver.
    - rewrite elem_of_app, list_elem_of_singleton. naive_solver. }
  assert (lq_waiting q0 = blen (lq_waiters q0) /\ NoDup (lq_waiters q0) /\
    forall w, w ∈ lq_waiters q0 -> calls !! w = Some lane /\
      waiters f !! w = Some (FlowWaiter (Some (lq_id q0)) false false None false)) as (Hlen & Hnd & Hws).
  { destruct Hcase as [(Hq & _)|(_ & -> & -> & _)].
    - destruct (qi_queue _ _ Q _ _ Hq). by split_and!.
    - split_and!; [done|apply NoDup_nil_2|]. by intros w ?%not_elem_of_nil. }
  rewrite Heq in Hqo |- *. split; cbn.
  - intros lane' q [[<- <-]|[Hne Hq]]%lookup_insert_Some.
    + split; cbn; [rewrite blen_snoc; lia|by destruct (lq_waiters q0)| | |].
      * apply NoDup_app. split_and!; [done| |apply NoDup_singleton].
        intros w [Hw _]%Hws ->%list_elem_of_singleton. by eapply Hfresh.
      * exists e. split; [done|]. apply Hring. by right.
      * intros w [[Hc Hw]%Hws| ->%list_elem_of_singleton]%elem_of_app.
        -- pose proof (Hfresh _ _ Hc). by rewrite !lookup_insert_ne by done.
        -- by rewrite !lookup_insert_eq.
    + destruct (qi_queue _ _ Q _ _ Hq) as [? ? ? (e' & ? & ?) Hw']. split; cbn; [done|done|done| |].
      * exists e'. split; [done|]. apply Hring. by left.
      * intros w [Hc Hw]%Hw'. pose proof (Hfresh _ _ Hc). by rewrite !lookup_insert_ne by done.
  - intros e' l' [Hr|[-> ->]]%Hring; [|rewrite lookup_insert_eq; eauto].
    destruct (qi_ready _ _ Q _ _ Hr) as (q & Hq & He). destruct (decide (l' = lane)) as [->|].
    + rewrite lookup_insert_eq. eexists. split; [done|]. cbn.
      destruct Hcase as [(? & ? & _)|(? & _)]; congruence.
    + rewrite lookup_insert_ne by done. eauto.
  - destruct Hcase as [(_ & _ & ->)|(Hq & _ & _ & -> & ->)]; [apply Q|].
    rewrite fmap_app. apply NoDup_app. split_and!; [apply Q| |apply NoDup_singleton].
    intros e' ([e1 l1] & -> & Hin%(qi_fresh_ready _ _ Q))%list_elem_of_fmap.
    cbn in *. rewrite list_elem_of_singleton. lia.
  - rewrite (qi_total _ _ Q), msum_insert. cbn.
    destruct Hcase as [(-> & _)|(-> & _ & -> & _)]; cbn; lia.
  - intros w l [[<- <-]|[Hne Hc]]%lookup_insert_Some.
    + eexists. rewrite lookup_insert_eq. split; [done|]. unfold waiter_ok; cbn.
      rewrite Hqo, decide_True by done. set_solver.
    + destruct (qi_calls _ _ Q _ _ Hc) as (x & Hx & Hok). exists x.
      rewrite lookup_insert_ne by done. split; [done|]. unfold waiter_ok in *.
      destruct (fw_settled x); [done|]. rewrite Hqo. destruct (decide (l = lane)); set_solver.
  - intros w l [[<- <-] | [Hne Hc%(qi_fresh_calls _ _ Q)]]%lookup_insert_Some; lia.
  - intros e' l' [Hr%(qi_fresh_ready _ _ Q)|[-> ->]]%Hring; [lia|].
    destruct Hcase as [(Hq & He & _)|(_ & _ & _ & -> & _)]; [|lia].
    destruct (qo_ready _ _ _ _ (qi_queue _ _ Q _ _ Hq)) as (e1 & ? & Hr%(qi_fresh_ready _ _ Q)).
    simplify_eq. lia.
  - by rewrite Hopen.
Qed.

Lemma enqueue_frame lane f :
  let f' := (enqueue lane f).2 in
  activeTotal f' = activeTotal f /\ activeByLane f' = activeByLane f /\
  connectionLimit f' = connectionLimit f /\ laneLimit f' = laneLimit f /\
  closedErr f' = closedErr f /\ (enqueue lane f).1 = nextAddr f /\
  forall w, w <> nextAddr f -> waiters f' !! w = waiters f !! w.
Proof.
  unfold enqueue. destruct (lq_ready _); cbn; split_and!; try done;
    intros w Hw; by rewrite lookup_insert_ne.
Qed.

Lemma granted_in_enqueue lane f w :
  granted_in (enqueue lane f).2 w = if decide (w = nextAddr f) then false else granted_in f w.
Proof.
  unfold granted_in. destruct (decide (w = nextAddr f)) as [->|Hne].
  - unfold enqueue. destruct (lq_ready _); cbn; by rewrite lookup_insert_eq.
  - by rewrite (proj2 (proj2 (proj2 (proj2 (proj2 (proj2 (enqueue_frame lane f))))))).
Qed.

(** *** Leaving the queue *)

(** A settled call is in no queue, so the caller can forget it. *)
Lemma queue_inv_forget f calls w x :
  waiters f !! w = Some x -> fw_settled x = true ->
  queue_inv f calls -> queue_inv f (delete w calls).
Proof.
  intros Hx Hs [Q1 Q2 Q3 Q4 Q5 Q6 Q7 Q8]. split; try done.
  - intros lane q Hq. destruct (Q1 _ _ Hq) as [? ? ? ? Hws]. split; try done.
    intros w' [Hc Hw]%Hws. split; [|done].
    rewrite lookup_delete_ne; [done|]. intros ->. by simplify_eq.
  - intros w' lane [_ Hc]%lookup_delete_Some. eauto.
  - intros w' lane [_ Hc]%lookup_delete_Some. eauto.
Qed.

Definition cancelled_waiter : nativeFlowWaiter := FlowWaiter None true false None false.

(** Cancelling a queued call shrinks its lane's queue by that waiter. *)
Lemma cancel_queued f calls w lane q :
  queue_inv f calls -> queues f !! lane = Some q -> w ∈ lq_waiters q ->
  let l := unlink_list w (lq_waiters q) in
  acquire_cancel lane w f =
    shrink lane q w l
      (if decide (l = []) then from_option remove_element id (lq_ready q) (ready f) else ready f)
      cancelled_waiter f /\
  w :: l ≡ₚ lq_waiters q.
Proof.
  intros Q Hq Hw l. pose proof (qi_queue _ _ Q _ _ Hq) as [Hlen _ Hnd (e & He & _) Hws].
  destruct (Hws w Hw) as [Hc Hx].
  assert (w :: l ≡ₚ lq_waiters q) as Hp.
  { apply NoDup_Permutation; [|done|].
    - apply NoDup_cons. split; [|by apply NoDup_filter].
      unfold l, unlink_list. by intros [? _]%list_elem_of_filter.
    - intros w'. unfold l, unlink_list. rewrite elem_of_cons, list_elem_of_filter.
      destruct (decide (w' = w)) as [->|]; naive_solver. }
  split; [|done].
  assert (lq_waiting q = blen l + 1) as Hb.
  { rewrite Hlen. unfold blen. rewrite <- (Permutation_length Hp). cbn. lia. }
  pose proof (blen_nonneg l). unfold acquire_cancel. rewrite Hx. cbn [fw_settled negb].
  unfold removeQueuedWaiterLocked. cbn. rewrite lookup_insert_eq, Hq. cbn.
  rewrite bool_decide_true by done. destruct (Z.leb_spec (lq_waiting q) 0); [lia|]. cbn.
  fold l. rewrite Hb. replace (blen l + 1 - 1) with (blen l) by lia.
  unfold shrink. cbn. rewrite He. cbn. rewrite insert_insert_eq.
  destruct (decide (l = [])) as [->|Hne].
  - change (blen [] =? 0) with true. unfold removeLaneQueueLocked. cbn.
    by rewrite delete_insert_eq.
  - destruct (Z.eqb_spec (blen l) 0) as [Hz|]; [|done].
    destruct l; [done|]. rewrite blen_cons in Hz. pose proof (blen_nonneg l). lia.
Qed.

Lemma cancel_queued_inv f calls held w lane q :
  queue_inv f calls -> credit_inv f calls held -> drained f ->
  queues f !! lane = Some q -> w ∈ lq_waiters q ->
  let f' := acquire_cancel lane w f in
  queue_inv f' (delete w calls) /\ credit_inv f' (delete w calls) held /\ drained f'.
Proof.
  intros Q C D Hq Hw. destruct (cancel_queued f calls w lane q Q Hq Hw) as [-> Hp].
  pose proof (qi_queue _ _ Q _ _ Hq) as [_ _ _ (e & He & Hin) Hws].
  destruct (Hws w Hw) as [Hc Hx]. rewrite He. cbn [from_option id].
  set (l := unlink_list w (lq_waiters q)) in *. split_and!.
  - apply (queue_inv_shrink f calls); try done.
    + intros e' lane'. destruct (decide (l = [])) as [Hnil|]; [|naive_solver].
      rewrite elem_remove_element. split; intros [Hr Hne]; (split; [done|]).
      * intros _ ->. apply Hne. by apply (queue_inv_element f calls e' e lane lane).
      * intros ->. apply Hne; [done|]. symmetry.
        by apply (queue_inv_element f calls e e lane lane').
    + case_decide; [apply NoDup_remove_element|]; apply Q.
    + intros w' lane' [Hne ?]%lookup_delete_Some. naive_solver.
    + intros w' lane' Hne ?. by rewrite lookup_delete_ne.
  - apply (credit_inv_ext f _ calls); [done|done| |exact C]. intros l'.
    rewrite (unobserved_delete f calls w lane Hc).
    assert (granted_in f w = false) as -> by (unfold granted_in; by rewrite Hx).
    rewrite andb_false_r. apply msum_ext. intros w' k [Hne _]%lookup_delete_Some.
    unfold unobserved, granted_in. cbn. by rewrite lookup_insert_ne.
  - intros Hopen. destruct (D Hopen) as [|Hd]; [by left|right]. intros lane'.
    rewrite queue_of_shrink. destruct (decide (lane' = lane)) as [->|]; [|apply Hd].
    intros _. apply Hd. unfold queue_of. rewrite Hq. intros Hnil. rewrite Hnil in Hw.
    by apply not_elem_of_nil in Hw.
Qed.

(** *** Releasing, updating limits, closing *)

Lemma release_inv f calls held lane :
  queue_inv f calls -> credit_inv f calls held -> drained f -> 0 < heldOf held lane ->
  flow_inv (FlowSystem (release lane f) calls (hold (-1) lane held)).
Proof.
  intros Q C D Hh. destruct (credit_deactivate f calls held lane C Hh) as [C' Ha].
  unfold release. destruct (Z.leb_spec (activeOf f lane) 0); [lia|].
  revert C'. set (f1 := set_active _ _ f). intros C'.
  assert (queue_inv f1 calls) as Q' by by apply queue_inv_active.
  change (closedErr f1) with (closedErr f). destruct (closedErr f) eqn:Hclosed.
  - split_and!; [done|done|]. unfold drained. cbn. by rewrite Hclosed.
  - destruct (pumpLocked_spec calls _ f1 Q' C') as (? & ? & _ & ?). by split_and!.
Qed.

Lemma queue_inv_limits f calls c w l : queue_inv f calls -> queue_inv (set_limits c w l f) calls.
Proof. intros [Q1]. split; try done. intros lane q Hq. destruct (Q1 _ _ Hq). by split. Qed.

Lemma update_inv f calls held c w l :
  queue_inv f calls -> credit_inv f calls held ->
  let f' := set_limits c w l f in
  flow_inv (FlowSystem match closedErr f' with None => pumpLocked f' | Some _ => f' end calls held).
Proof.
  intros Q C f'.
  assert (queue_inv f' calls) as Q' by by apply queue_inv_limits.
  assert (credit_inv f' calls held) as C' by (destruct C; by split).
  destruct (closedErr f') eqn:Hclosed.
  - split_and!; [done|done|]. unfold drained. cbn [fs_flow]. by rewrite Hclosed.
  - destruct (pumpLocked_spec calls held f' Q' C') as (? & ? & _ & ?). by split_and!.
Qed.

Definition closed_waiter (err : flowError) (x : nativeFlowWaiter) : nativeFlowWaiter :=
  if fw_settled x then x else FlowWaiter None true (fw_granted x) (Some err) true.

Lemma lookup_close_waiters err l heap w :
  foldl (close_waiter err) heap l !! w =
  if decide (w ∈ l) then closed_waiter err <$> heap !! w else heap !! w.
Proof.
  revert heap. induction l as [|w' l IH]; intros heap; cbn.
  - rewrite decide_False by apply not_elem_of_nil. done.
  - rewrite IH. unfold close_waiter at 1 2. destruct (decide (w = w')) as [->|Hne].
    + rewrite lookup_alter_eq, (decide_True (P := w' ∈ w' :: l)) by left.
      fold (closed_waiter err). case_decide; [|done].
      destruct (heap !! w') as [x|]; [|done]. cbn. unfold closed_waiter.
      by destruct (fw_settled x) eqn:E; rewrite ?E.
    + rewrite lookup_alter_ne by done. destruct (decide (w ∈ l)).
      * by rewrite decide_True by (by right).
      * rewrite decide_False; [done|]. by rewrite elem_of_cons; intros [].
Qed.

Lemma foldl_concat_map {A B C} (f : A -> B -> A) (g : C -> list B) a l :
  foldl (fun a c => foldl f a (g c)) a l = foldl f a (concat (g <$> l)).
Proof. revert a. induction l as [|c l IH]; intros a; cbn; [done|]. by rewrite IH, foldl_app. Qed.

(** After [close] every queued call is settled with the error. *)
Lemma close_waiters f calls err w lane :
  queue_inv f calls -> closedErr f = None -> calls !! w = Some lane ->
  exists x, waiters f !! w = Some x /\
    waiters (close err f) !! w = Some (closed_waiter (default FlowConnectionUnavailable err) x).
Proof.
  intros Q Hopen Hc. destruct (qi_calls _ _ Q _ _ Hc) as (x & Hx & Hok). exists x.
  split; [done|]. unfold close. rewrite Hopen. cbn.
  rewrite foldl_concat_map, lookup_close_waiters, Hx.
  unfold waiter_ok in Hok. unfold closed_waiter. destruct (fw_settled x) eqn:Hs.
  - case_decide; cbn; [|done]. unfold closed_waiter. by rewrite Hs.
  - rewrite decide_True; cbn; [unfold closed_waiter; by rewrite Hs|].
    unfold queue_of in Hok. destruct (queues f !! lane) as [q|] eqn:Hq; [|by apply not_elem_of_nil in Hok].
    apply list_elem_of_In, in_concat. exists (lq_waiters q). rewrite <- !list_elem_of_In.
    split; [|done]. apply list_elem_of_fmap. exists (lane, q). split; [done|].
    by apply elem_of_map_to_list.
Qed.

Lemma close_inv f calls held err :
  queue_inv f calls -> credit_inv f calls held -> drained f ->
  flow_inv (FlowSystem (close err f) calls held).
Proof.
  intros Q C D. destruct (closedErr f) as [e|] eqn:Hopen.
  { unfold close. rewrite Hopen. by split_and!. }
  pose proof (fun w lane => close_waiters f calls err w lane Q Hopen) as Hw.
  assert (forall w lane, calls !! w = Some lane -> exists x,
    waiters (close err f) !! w = Some x /\ fw_settled x = true /\ fw_closed x = true /\
    fw_granted x = bool_decide (fw_err x = None) /\ granted_in f w = fw_granted x) as Hall.
  { intros w lane Hc. destruct (Hw w lane Hc) as (x & Hx & Hx'). eexists. split; [exact Hx'|].
    unfold granted_in. rewrite Hx. destruct (qi_calls _ _ Q _ _ Hc) as (x1 & ? & Hok).
    simplify_eq. unfold waiter_ok, closed_waiter in *. destruct (fw_settled x) eqn:Hs; cbn.
    - naive_solver.
    - split_and!; try done. unfold queue_of in Hok.
      destruct (queues f !! lane) as [q|] eqn:Hq; [|by apply not_elem_of_nil in Hok].
      apply (qo_waiters _ _ _ _ (qi_queue _ _ Q _ _ Hq)) in Hok as [_ Hok]. by simplify_eq. }
  assert (queues (close err f) = ∅ /\ ready (close err f) = [] /\ queuedTotal (close err f) = 0 /\
    closedErr (close err f) <> None /\ nextAddr (close err f) = nextAddr f /\
    activeTotal (close err f) = activeTotal f /\ activeByLane (close err f) = activeByLane f)
    as (Eq & Er & Et & Ec & En & Ea & El).
  { unfold close. rewrite Hopen. by split_and!. }
  split_and!; cbn [fs_flow fs_calls fs_held].
  - split; rewrite ?Eq, ?Er, ?Et, ?En; try done; try (by intros ?? ?%not_elem_of_nil).
    + apply NoDup_nil_2.
    + intros w lane Hc. destruct (Hall w lane Hc) as (x & Hx & Hs & ? & ? & _).
      exists x. split; [done|]. unfold waiter_ok. by rewrite Hs.
    + apply Q.
  - apply (credit_inv_ext f _ calls); [done|done| |exact C]. intros l. apply msum_ext.
    intros w lane Hc. destruct (Hall w lane Hc) as (x & Hx & _ & _ & _ & Hg).
    unfold unobserved. rewrite Hg. unfold granted_in. by rewrite Hx.
  - by intros ?.
Qed.

(** *** One step of the system *)

Lemma waiter_ready f calls w lane r :
  queue_inv f calls -> calls !! w = Some lane -> acquire_ready w f = Some r ->
  exists x, waiters f !! w = Some x /\ fw_settled x = true /\
    granted_in f w = bool_decide (r = None).
Proof.
  intros Q Hc. unfold acquire_ready, granted_in.
  destruct (qi_calls _ _ Q _ _ Hc) as (x & Hx & Hok). rewrite Hx.
  destruct (fw_closed x) eqn:Hcl; [|done]. intros [= <-]. exists x. split; [done|].
  unfold waiter_ok in Hok. destruct (fw_settled x) eqn:Hs.
  - split; [done|]. destruct Hok as [_ Hg]. rewrite Hg.
    destruct (fw_err x) as [err|]; [done|]. done.
  - unfold queue_of in Hok. destruct (queues f !! lane) as [q|] eqn:Hq;
      [|by apply not_elem_of_nil in Hok].
    apply (qo_waiters _ _ _ _ (qi_queue _ _ Q _ _ Hq)) in Hok as [_ Hw].
    rewrite Hx in Hw. by simplify_eq.
Qed.

(** A caller that leaves with its grant holds the credit. *)
Lemma credit_inv_wake f calls held w lane :
  credit_inv f calls held -> calls !! w = Some lane ->
  credit_inv f (delete w calls) (if granted_in f w then hold 1 lane held else held).
Proof.
  intros [C1 C2 C3 C4] Hc. split; try done.
  - intros l. destruct (granted_in f w); [|done]. rewrite heldOf_hold.
    specialize (C3 l). destruct (l =? lane); lia.
  - intros l. rewrite C4, (unobserved_delete f calls w lane Hc).
    destruct (granted_in f w); [|by rewrite andb_false_r].
    rewrite heldOf_hold, andb_true_r, (Z.eqb_sym lane l). lia.
Qed.

Lemma acquire_enter_inv f calls held lane ctxErr :
  flow_inv (FlowSystem f calls held) ->
  match acquire_enter ctxErr lane f with
  | (Returned None, f') => flow_inv (FlowSystem f' calls (hold 1 lane held))
  | (Returned (Some _), f') => f' = f
  | (Blocked w, f') => flow_inv (FlowSystem f' (<[w := lane]> calls) held)
  end.
Proof.
  intros (Q & C & D). cbn [fs_flow fs_calls fs_held] in *. unfold acquire_enter.
  destruct ctxErr; [done|]. destruct (closedErr f) eqn:Hopen; [done|].
  destruct (laneQueueLimit f =? 0); [done|]. destruct (_ || _); [done|].
  unfold canAcquireLocked. destruct (_ && _) eqn:Hcan.
  - z_tests. split_and!; cbn [fs_flow fs_calls fs_held].
    + by apply queue_inv_active.
    + eapply credit_activate; [exact C|done|done| |].
      * intros l. rewrite heldOf_hold. pose proof (ci_held _ _ _ C l). destruct (l =? lane); lia.
      * intros l. rewrite heldOf_hold. change (unobserved _ l) with (unobserved f l) at 1. lia.
    + intros _. destruct (D Hopen) as [|Hd]; [lia|]. right. intros l Hl.
      rewrite activeOf_activate. specialize (Hd l Hl). cbn. destruct (l =? lane); lia.
  - destruct (maxQueued f <=? queuedTotal f); [done|].
    pose proof (queue_inv_enqueue f calls lane Q Hopen) as Q'.
    pose proof (queue_of_enqueue lane f) as Hqo. pose proof (granted_in_enqueue lane f) as Hg.
    destruct (enqueue_frame lane f) as (Et & El & Ec & Ell & _ & Ew & _).
    destruct (enqueue lane f) as [w f'] eqn:E. cbn [fst snd] in *. subst w.
    assert (calls !! nextAddr f = None) as Hnew.
    { destruct (calls !! nextAddr f) eqn:Hc; [|done]. apply (qi_fresh_calls _ _ Q) in Hc. lia. }
    split_and!; cbn [fs_flow fs_calls fs_held]; [done| |].
    + apply (credit_inv_ext f _ calls); [done|done| |exact C]. intros l.
      rewrite unobserved_new; [|done|by rewrite Hg, decide_True].
      apply msum_ext. intros w' k Hc. unfold unobserved. rewrite Hg, decide_False; [done|].
      intros ->. congruence.
    + intros _. rewrite Et, Ec, Ell. unfold activeOf. rewrite El. fold (activeOf f).
      apply andb_false_iff in Hcan as [Hcan|Hcan]; z_tests; [by left|].
      destruct (D Hopen) as [|Hd]; [by left|right]. intros l. rewrite Hqo.
      destruct (decide (l = lane)) as [->|]; [done|apply Hd].
Qed.

Lemma acquire_cancel_inv f calls held w lane :
  flow_inv (FlowSystem f calls held) -> calls !! w = Some lane ->
  flow_inv (FlowSystem (acquire_cancel lane w f) (delete w calls) held).
Proof.
  intros (Q & C & D) Hc. cbn [fs_flow fs_calls fs_held] in *.
  destruct (qi_calls _ _ Q _ _ Hc) as (x & Hx & Hok). unfold waiter_ok in Hok.
  destruct (fw_settled x) eqn:Hs.
  - pose proof (queue_inv_forget f calls w x Hx Hs Q) as Q'.
    pose proof (credit_inv_wake f calls held w lane C Hc) as C'.
    unfold acquire_cancel. rewrite Hx, Hs. unfold granted_in in C'. rewrite Hx in C'. cbn [negb].
    destruct (fw_granted x); [|by split_and!].
    destruct (release_inv f (delete w calls) (hold 1 lane held) lane Q' C' D) as (Q2 & C2 & D2).
    { rewrite heldOf_hold, Z.eqb_refl. pose proof (ci_held _ _ _ C lane). lia. }
    split_and!; [done| |done]. cbn [fs_flow fs_calls fs_held] in *.
    destruct C2 as [C2a C2b C2c C2d]. split; try done; [apply C|].
    intros l. rewrite C2d, !heldOf_hold. destruct (l =? lane); lia.
  - unfold queue_of in Hok. destruct (queues f !! lane) as [q|] eqn:Hq;
      [|by apply not_elem_of_nil in Hok].
    destruct (cancel_queued_inv f calls held w lane q Q C D Hq Hok) as (? & ? & ?). by split_and!.
Qed.

Lemma flow_inv_step s e s' : flow_inv s -> flow_step s e = Some s' -> flow_inv s'.
Proof.
  destruct s as [f calls held]. intros Hinv. pose proof Hinv as (Q & C & D).
  cbn [fs_flow fs_calls fs_held] in *.
  destruct e as [lane ctxErr|w|w|lane|c l|err]; cbn [flow_step].
  - pose proof (acquire_enter_inv f calls held lane ctxErr Hinv) as H.
    destruct (acquire_enter ctxErr lane f) as [[[err|]|w] f']; intros [= <-]; subst; done.
  - destruct (calls !! w) as [lane|] eqn:Hc; [|done].
    destruct (acquire_ready w f) as [r|] eqn:Hr; [|by intros].
    destruct (waiter_ready f calls w lane r Q Hc Hr) as (x & Hx & Hs & Hg).
    pose proof (queue_inv_forget f calls w x Hx Hs Q).
    pose proof (credit_inv_wake f calls held w lane C Hc) as C'. rewrite Hg in C'.
    destruct r; intros [= <-]; by split_and!.
  - destruct (calls !! w) as [lane|] eqn:Hc; [|done]. intros [= <-]. by apply acquire_cancel_inv.
  - destruct (Z.ltb_spec 0 (heldOf held lane)); [|done]. intros [= <-]. by apply release_inv.
  - intros [= <-]. by apply update_inv.
  - intros [= <-]. by apply close_inv.
Qed.

Lemma flow_reachable_inv s : flow_reachable s -> flow_inv s.
Proof.
  induction 1 as [|s e s' _ IH Hs]; [apply flow_inv_init|]. by eapply flow_inv_step.
Qed.

(** ** Properties *)

(** C37: credits are conserved. In every reachable state the controller's
    counters are exactly the credits callers hold plus those granted to calls
    that have not woken up yet; in particular when no caller holds a credit
    and no call is blocked, no credit is in use. *)
Theorem flow_credits_conserved s lane :
  flow_reachable s ->
  activeOf (fs_flow s) lane =
    heldOf (fs_held s) lane + msum (unobserved (fs_flow s) lane) (fs_calls s) /\
  activeTotal (fs_flow s) = msum (fun _ n => n) (activeByLane (fs_flow s)) /\
  queuedTotal (fs_flow s) = msum (fun _ q => blen (lq_waiters q)) (queues (fs_flow s)).
Proof.
  intros (Q & C & _)%flow_reachable_inv. split_and!; [apply C|apply C|].
  rewrite (qi_total _ _ Q). apply msum_ext. intros l q Hq.
  apply (qo_len _ _ _ _ (qi_queue _ _ Q _ _ Hq)).
Qed.

(** C3: no lost wake-ups. In every reachable open state either all credits of
    the connection are in use, or every lane with blocked requests has all of
    its lane's credits in use. *)
Theorem flow_no_lost_wakeup s :
  flow_reachable s -> closedErr (fs_flow s) = None ->
  connectionLimit (fs_flow s) <= activeTotal (fs_flow s) \/
  forall lane, queue_of (fs_flow s) lane <> [] ->
    laneLimit (fs_flow s) <= activeOf (fs_flow s) lane.
Proof. intros (_ & _ & D)%flow_reachable_inv. exact D. Qed.

(** After [close] every blocked call is woken with the error (or already
    had its grant), and nothing is queued any more. *)
Theorem flow_close_wakes_all s err s' w lane :
  flow_reachable s -> flow_step s (EClose err) = Some s' -> fs_calls s' !! w = Some lane ->
  exists r, acquire_ready w (fs_flow s') = Some r /\ queuedTotal (fs_flow s') = 0.
Proof.
  intros Hr Hs Hc. pose proof (flow_next _ _ _ Hr Hs) as (Q & C & _)%flow_reachable_inv.
  assert (closedErr (fs_flow s') <> None) as Hclosed.
  { destruct s as [f calls held]. cbn in Hs. injection Hs as <-. cbn. unfold close.
    destruct (closedErr f) eqn:E; [by rewrite E|done]. }
  pose proof (qi_closed _ _ Q Hclosed) as Hq.
  destruct (qi_calls _ _ Q _ _ Hc) as (x & Hx & Hok). unfold waiter_ok, queue_of in Hok.
  rewrite Hq, lookup_empty in Hok. destruct (fw_settled x); [|by apply not_elem_of_nil in Hok].
  unfold acquire_ready. rewrite Hx. destruct Hok as [-> _]. eexists. split; [done|].
  by rewrite (qi_total _ _ Q), Hq.
Qed.

(** Serving after a release or a change of limits. *)
Lemma served_release f calls held lane :
  queue_inv f calls -> credit_inv f calls held -> 0 < heldOf held lane ->
  served f (release lane f).
Proof.
  intros Q C Hh. destruct (credit_deactivate f calls held lane C Hh) as [C' Ha].
  unfold release. destruct (Z.leb_spec (activeOf f lane) 0); [lia|].
  revert C'. set (f1 := set_active _ _ f). intros C'.
  assert (queue_inv f1 calls) as Q' by by apply queue_inv_active.
  assert (served f f1) as S.
  { destruct (served_refl f) as [S1 S2 _ _ S5]. split; try done.
    - intros l. enough (activeOf f1 l <= activeOf f l) by (change (laneLimit f1) with (laneLimit f); lia).
      unfold activeOf at 1. subst f1. cbn. destruct (decide (l = lane)) as [->|Hne].
      + destruct (activeOf f lane =? 1); rewrite ?lookup_delete_eq, ?lookup_insert_eq; cbn; lia.
      + destruct (activeOf f lane =? 1); rewrite ?lookup_delete_ne, ?lookup_insert_ne by done;
          unfold activeOf; lia.
    - cbn. lia. }
  change (closedErr f1) with (closedErr f). destruct (closedErr f); [done|].
  destruct (pumpLocked_spec calls _ f1 Q' C') as (_ & _ & S' & _). by eapply served_trans.
Qed.

Lemma served_update f calls held c l :
  queue_inv f calls -> credit_inv f calls held ->
  served (storeLimits c l f) (updateLimits c l f).
Proof.
  intros Q C. unfold updateLimits. set (f1 := storeLimits c l f).
  assert (queue_inv f1 calls) as Q' by by apply queue_inv_limits.
  assert (credit_inv f1 calls held) as C' by (destruct C; by split).
  destruct (closedErr f1) eqn:Hc; [apply served_refl|].
  by destruct (pumpLocked_spec calls held f1 Q' C') as (_ & _ & S & _).
Qed.

(** Cancelling a call changes no credit, or releases the one it was granted. *)
Lemma active_cancel f calls held w lane :
  queue_inv f calls -> credit_inv f calls held -> calls !! w = Some lane ->
  (activeTotal (acquire_cancel lane w f) = activeTotal f /\
   activeByLane (acquire_cancel lane w f) = activeByLane f) \/
  served f (acquire_cancel lane w f).
Proof.
  intros Q C Hc. destruct (qi_calls _ _ Q _ _ Hc) as (x & Hx & Hok). unfold waiter_ok in Hok.
  destruct (fw_settled x) eqn:Hs.
  - pose proof (queue_inv_forget f calls w x Hx Hs Q) as Q'.
    pose proof (credit_inv_wake f calls held w lane C Hc) as C'.
    unfold acquire_cancel. rewrite Hx, Hs. unfold granted_in in C'. rewrite Hx in C'. cbn [negb].
    destruct (fw_granted x); [right|by left].
    apply (served_release f _ _ lane Q' C'). rewrite heldOf_hold, Z.eqb_refl.
    pose proof (ci_held _ _ _ C lane). lia.
  - left. unfold queue_of in Hok. destruct (queues f !! lane) as [q|] eqn:Hq;
      [|by apply not_elem_of_nil in Hok].
    by destruct (cancel_queued f calls w lane q Q Hq Hok) as [-> _].
Qed.

(** Waiting requests of a lane are served in arrival order. A release or a
    change of limits takes a prefix of each lane's queue, and everything taken
    is granted; a new request is granted at once only when nothing waits on its
    lane, and otherwise joins at the end. *)
Theorem flow_fifo s e s' lane :
  flow_reachable s -> flow_step s e = Some s' ->
  match e with
  | ERelease _ | EUpdate _ _ =>
      exists done, queue_of (fs_flow s) lane = done ++ queue_of (fs_flow s') lane /\
        Forall (fun w => granted_in (fs_flow s') w = true) done
  | EAcquire _ _ =>
      (heldOf (fs_held s) lane < heldOf (fs_held s') lane -> queue_of (fs_flow s) lane = []) /\
      exists new, queue_of (fs_flow s') lane = queue_of (fs_flow s) lane ++ new /\
        Forall (fun w => fs_calls s !! w = None) new
  | _ => True
  end.
Proof.
  intros (Q & C & D)%flow_reachable_inv Hs. destruct s as [f calls held].
  cbn [fs_flow fs_calls fs_held] in *.
  destruct e as [lane' ctxErr|w|w|lane'|c l|err]; cbn [flow_step] in Hs; try done.
  - destruct (acquire_enter ctxErr lane' f) as [r f'] eqn:E. unfold acquire_enter in E.
    destruct ctxErr; [simplify_eq; split; [cbn; lia|exists []; by rewrite app_nil_r]|].
    destruct (closedErr f) eqn:Ho; [simplify_eq; split; [cbn; lia|exists []; by rewrite app_nil_r]|].
    destruct (laneQueueLimit f =? 0); [simplify_eq; split; [cbn; lia|exists []; by rewrite app_nil_r]|].
    destruct (_ || _); [simplify_eq; split; [cbn; lia|exists []; by rewrite app_nil_r]|].
    destruct (canAcquireLocked lane' f) eqn:Hcan.
    + simplify_eq. cbn. split; [|exists []; by rewrite app_nil_r]. rewrite heldOf_hold.
      destruct (Z.eqb_spec lane lane') as [->|]; [|lia]. intros _.
      unfold canAcquireLocked in Hcan. z_tests. destruct (D Ho) as [|Hd]; [lia|].
      destruct (queue_of f lane') eqn:Hq; [done|]. specialize (Hd lane' ltac:(by rewrite Hq)). lia.
    + destruct (maxQueued f <=? queuedTotal f); [simplify_eq; split; [cbn; lia|exists []; by rewrite app_nil_r]|].
      pose proof (queue_of_enqueue lane' f lane) as Hqo.
      pose proof (proj1 (proj2 (proj2 (proj2 (proj2 (proj2 (enqueue_frame lane' f))))))) as Hw.
      destruct (enqueue lane' f) as [w f1]. simplify_eq. cbn [fst snd fs_flow fs_held fs_calls] in *.
      split; [lia|]. rewrite Hqo. destruct (decide (lane = lane')) as [->|].
      * exists [nextAddr f]. split; [done|]. constructor; [|done].
        destruct (calls !! nextAddr f) eqn:Hc; [|done]. apply (qi_fresh_calls _ _ Q) in Hc. lia.
      * exists []. by rewrite app_nil_r.
  - destruct (Z.ltb_spec 0 (heldOf held lane')); [|done]. simplify_eq.
    apply (sv_fifo _ _ (served_release f calls held lane' Q C ltac:(done))).
  - simplify_eq. apply (sv_fifo _ _ (served_update f calls held c l Q C)).
Qed.

(** A credit is only taken within the limits. No step raises the number of
    credits in use above the limits in force after it. *)
Theorem flow_limits_respected s e s' lane :
  flow_reachable s -> flow_step s e = Some s' ->
  activeTotal (fs_flow s') <= Z.max (activeTotal (fs_flow s)) (connectionLimit (fs_flow s')) /\
  activeOf (fs_flow s') lane <= Z.max (activeOf (fs_flow s) lane) (laneLimit (fs_flow s')).
Proof.
  intros Hr Hs. pose proof (flow_reachable_inv _ Hr) as (Q & C & D).
  destruct s as [f calls held]. cbn [fs_flow fs_calls fs_held] in *.
  assert (forall f', served f f' ->
    activeTotal f' <= Z.max (activeTotal f) (connectionLimit f') /\
    activeOf f' lane <= Z.max (activeOf f lane) (laneLimit f')) as Hserved.
  { intros f' S. destruct (sv_limits _ _ S) as (-> & -> & _). split; [apply S|apply S]. }
  assert (forall w lane', calls !! w = Some lane' ->
    let f' := acquire_cancel lane' w f in
    activeTotal f' <= Z.max (activeTotal f) (connectionLimit f') /\
    activeOf f' lane <= Z.max (activeOf f lane) (laneLimit f')) as Hcancel.
  { intros w lane' Hc. cbn. destruct (active_cancel f calls held w lane' Q C Hc) as [[-> El]|S];
      [|by apply Hserved]. unfold activeOf. rewrite El. lia. }
  destruct e as [lane' ctxErr|w|w|lane'|c l|err]; cbn [flow_step] in Hs.
  - assert (let f' := (acquire_enter ctxErr lane' f).2 in
      activeTotal f' <= Z.max (activeTotal f) (connectionLimit f') /\
      activeOf f' lane <= Z.max (activeOf f lane) (laneLimit f')) as H.
    { unfold acquire_enter. destruct ctxErr; [cbn; lia|]. destruct (closedErr f); [cbn; lia|].
      destruct (laneQueueLimit f =? 0); [cbn; lia|]. destruct (_ || _); [cbn; lia|].
      destruct (canAcquireLocked lane' f) eqn:Hcan.
      - unfold canAcquireLocked in Hcan. z_tests. cbn [snd]. rewrite activeOf_activate. cbn.
        destruct (Z.eqb_spec lane lane'); subst; lia.
      - destruct (maxQueued f <=? queuedTotal f); [cbn; lia|].
        destruct (enqueue_frame lane' f) as (Et & El & Ec & Ell & _).
        destruct (enqueue lane' f) as [w f1]. cbn [fst snd] in *.
        unfold activeOf. rewrite Et, El, Ec, Ell. lia. }
    by destruct (acquire_enter ctxErr lane' f) as [[[]|] f']; simplify_eq.
  - destruct (calls !! w), (acquire_ready w f) as [[]|]; simplify_eq; cbn; lia.
  - destruct (calls !! w) as [lane'|] eqn:Hc; [|done]. simplify_eq. apply (Hcancel w lane' Hc).
  - destruct (Z.ltb_spec 0 (heldOf held lane')); [|done]. simplify_eq.
    apply Hserved, (served_release f calls held lane' Q C). done.
  - simplify_eq. cbn [fs_flow]. pose proof (served_update f calls held c l Q C) as S.
    destruct (sv_limits _ _ S) as (-> & -> & _).
    split; [apply (sv_total _ _ S)|apply (sv_lane _ _ S)].
  - simplify_eq. cbn [fs_flow]. unfold close. destruct (closedErr f); [lia|].
    unfold activeOf. cbn [set_queues set_closed activeTotal activeByLane connectionLimit laneLimit]. lia.
Qed.

(** Serving the queues after the limits changed in any way terminates: fuel
    beyond the number of queued requests changes nothing, and afterwards no
    credit is free that a queued request could use. *)
Theorem flow_pump_terminates s connection window lane more :
  flow_reachable s ->
  let f := set_limits connection window lane (fs_flow s) in
  pump_loop (S (Z.to_nat (queuedTotal f)) + more) f = pumpLocked f /\ drained (pumpLocked f).
Proof.
  intros (Q & C & _)%flow_reachable_inv f.
  destruct (pump_loop_spec (fs_calls s) (fs_held s) (S (Z.to_nat (queuedTotal f))) f)
    as (_ & _ & _ & ? & Hm); [by apply queue_inv_limits|by destruct C|lia|].
  split; [apply Hm|done].
Qed.

(** *** Witnesses: one credit, three requests of two lanes *)

Definition example_events : list flowEvent :=
  [EAcquire 1 None; EAcquire 1 None; EAcquire 2 None; ERelease 1].

Definition flow_run (s : flowSystem) (es : list flowEvent) : option flowSystem :=
  foldl (fun s e => match s with Some s => flow_step s e | None => None end) (Some s) es.

Definition example_start : flowSystem :=
  FlowSystem (newNativeFlowController 1 1 4 None) ∅ ∅.

Definition example_state (n : nat) : flowSystem :=
  default example_start (flow_run example_start (take n example_events)).

Lemma example_step n e :
  example_events !! n = Some e -> flow_step (example_state n) e = Some (example_state (S n)).
Proof.
  do 4 (destruct n as [|n]; [intros [= <-]; vm_compute; reflexivity|]). done.
Qed.

Lemma example_reachable n : (n <= 4)%nat -> flow_reachable (example_state n).
Proof.
  induction n as [|n IH]; intros Hn; [apply flow_init|].
  destruct (lookup_lt_is_Some_2 example_events n) as [e He]; [cbn; lia|].
  eapply flow_next; [apply IH; lia|by apply example_step].
Qed.

Lemma flow_credits_conserved_witness :
  activeOf (fs_flow (example_state 4)) 1 = 1 /\ heldOf (fs_held (example_state 4)) 1 = 0 /\
  activeTotal (fs_flow (example_state 4)) =
    msum (fun _ n => n) (activeByLane (fs_flow (example_state 4))).
Proof.
  split_and!; [vm_compute; reflexivity|vm_compute; reflexivity|].
  apply (flow_credits_conserved (example_state 4) 1). apply example_reachable. lia.
Defined.

Lemma flow_no_lost_wakeup_witness :
  queue_of (fs_flow (example_state 3)) 2 = [3%nat] /\
  (connectionLimit (fs_flow (example_state 3)) <= activeTotal (fs_flow (example_state 3)) \/
   forall lane, queue_of (fs_flow (example_state 3)) lane <> [] ->
    laneLimit (fs_flow (example_state 3)) <= activeOf (fs_flow (example_state 3)) lane).
Proof.
  split; [vm_compute; reflexivity|].
  apply flow_no_lost_wakeup; [apply example_reachable; lia|vm_compute; reflexivity].
Defined.

Definition example_closed : flowSystem :=
  default example_start (flow_step (example_state 3) (EClose None)).

Lemma flow_close_wakes_all_witness :
  exists r, acquire_ready 3 (fs_flow example_closed) = Some r /\
    queuedTotal (fs_flow example_closed) = 0.
Proof.
  apply (flow_close_wakes_all (example_state 3) None example_closed 3 2).
  - apply example_reachable. lia.
  - vm_compute. reflexivity.
  - vm_compute. reflexivity.
Defined.

Lemma flow_fifo_witness :
  queue_of (fs_flow (example_state 3)) 1 = [0%nat] /\
  exists done, queue_of (fs_flow (example_state 3)) 1 =
      done ++ queue_of (fs_flow (example_state 4)) 1 /\
    Forall (fun w => granted_in (fs_flow (example_state 4)) w = true) done.
Proof.
  split; [vm_compute; reflexivity|].
  apply (flow_fifo (example_state 3) (ERelease 1) (example_state 4) 1).
  - apply example_reachable. lia.
  - vm_compute. reflexivity.
Defined.

Lemma flow_limits_respected_witness :
  activeTotal (fs_flow (example_state 4)) <= 1 /\
  activeOf (fs_flow (example_state 4)) 1 <= 1.
Proof.
  apply (flow_limits_respected (example_state 3) (ERelease 1) (example_state 4) 1).
  - apply example_reachable. lia.
  - vm_compute. reflexivity.
Defined.

Lemma flow_pump_terminates_witness :
  drained (pumpLocked (set_limits 2 1 1 (fs_flow (example_state 3)))) /\
  queue_of (pumpLocked (set_limits 2 1 1 (fs_flow (example_state 3)))) 2 = [].
Proof.
  split; [|vm_compute; reflexivity].
  apply (flow_pump_terminates (example_state 3) 2 1 1 0). apply example_reachable. lia.
Defined.
