(* ===== verification/Commands.v ===== *)
(** Commands and the keys they touch: command names
    (src/topology_routing.go), the command table and key extraction
    (src/topology_command_policy.go), command wrapping
    (src/native_command.go, src/native_command_metadata.go).

    An argument is a dynamic value or the request-context marker, which is a
    string type of its own. *)

From S2P Require Export GoValue.

(** An argument of a command. *)
Inductive arg :=
| Arg (v : val)
| ArgMarker (text : gstr).      (* nativeRequestContextMarker *)

Definition requestContextMarker : gstr := go "REQUEST_CONTEXT".

(** [commandText] on an argument: the marker is a string kind. *)
Definition argText (a : arg) : option gstr :=
  match a with Arg v => commandText v | ArgMarker s => Some s end.

(** [commandPart] on an argument. *)
Definition argPart (a : arg) : gstr :=
  match argText a with Some s => to_upper s | None => [] end.

Definition argInt64 (a : arg) : Z :=
  match a with Arg v => asInt64 v | ArgMarker s => parse_int64_or_bound s end.

Definition argRouteKey (a : arg) : bool :=
  match a with Arg v => isRouteKey v | ArgMarker _ => false end.

Definition is_part (text : gstr) (a : arg) : bool := bool_decide (argPart a = text).

(** [commandName]; the code indexes [args[0]], so it is given a first argument. *)
Definition commandName (args : list arg) : gstr :=
  match args with
  | [] => []
  | first :: rest =>
      let first := argPart first in
      match rest with
      | second :: _ =>
          if bool_decide (first = go "FLOW") || bool_decide (first = go "CLIENT") ||
             bool_decide (first = go "CLUSTER")
          then
            let second := argPart second in
            if bool_decide (second = []) then first else first ++ go "." ++ second
          else first
      | [] => first
      end
  end.

(** [splitNativeRequestContext]: payload arguments and attached context. *)
Definition splitNativeRequestContext (args : list arg) : list arg * option arg :=
  match rev args with
  | context :: ArgMarker text :: payload =>
      if bool_decide (text = requestContextMarker) then (rev payload, Some context)
      else (args, None)
  | _ => (args, None)
  end.

Definition appendNativeRequestContext (args : list arg) (context : arg) : list arg :=
  args ++ [ArgMarker requestContextMarker; context].

(** The loop of [canonicalCommandArgs]. *)
Fixpoint stripCommandExec (args : list arg) : list arg :=
  match args with
  | a :: (_ :: _) as rest => if is_part (go "COMMAND_EXEC") a then stripCommandExec rest else args
  | _ => args
  end.

Definition canonicalCommandArgs (args : list arg) : list arg :=
  (splitNativeRequestContext (stripCommandExec args)).1.

(** ** The command table *)

Inductive topologyKeyMode :=
| KeysNone | KeysFirst | KeysAll | KeysAlternating | KeysFirstTwo | KeysBitOp
| KeysCountedRead | KeysCountedStore | KeysBlockingCounted | KeysBlockingTrailing
| KeysStreams | KeysSubcommandThird | KeysHelpAwareThird | KeysMemoryUsage | KeysSort.

Record topologyCommandPolicy := Policy {
  keyMode : topologyKeyMode;
  requireSameSlot : bool;
  scatter : bool;
  destructive : bool;
}.

Definition multiKeyPolicies : list (gstr * topologyCommandPolicy) := [
  (go "MGET", Policy KeysAll false true false);
  (go "DEL", Policy KeysAll false true true);
  (go "EXISTS", Policy KeysAll false true false);
  (go "UNLINK", Policy KeysAll false true true);
  (go "TOUCH", Policy KeysAll false true false);
  (go "MSET", Policy KeysAlternating true false false);
  (go "MSETNX", Policy KeysAlternating true false false);
  (go "BITOP", Policy KeysBitOp true false false);
  (go "RENAME", Policy KeysFirstTwo true false false);
  (go "RENAMENX", Policy KeysFirstTwo true false false);
  (go "COPY", Policy KeysFirstTwo true false false);
  (go "LMOVE", Policy KeysFirstTwo true false false);
  (go "BLMOVE", Policy KeysFirstTwo true false false);
  (go "RPOPLPUSH", Policy KeysFirstTwo true false false);
  (go "BRPOPLPUSH", Policy KeysFirstTwo true false false);
  (go "SMOVE", Policy KeysFirstTwo true false false);
  (go "GEOSEARCHSTORE", Policy KeysFirstTwo true false false);
  (go "ZRANGESTORE", Policy KeysFirstTwo true false false);
  (go "BLMPOP", Policy KeysBlockingCounted true false false);
  (go "BZMPOP", Policy KeysBlockingCounted true false false);
  (go "BLPOP", Policy KeysBlockingTrailing true false false);
  (go "BRPOP", Policy KeysBlockingTrailing true false false);
  (go "BZPOPMIN", Policy KeysBlockingTrailing true false false);
  (go "BZPOPMAX", Policy KeysBlockingTrailing true false false);
  (go "SINTERCARD", Policy KeysCountedRead true false false);
  (go "ZINTERCARD", Policy KeysCountedRead true false false);
  (go "ZUNION", Policy KeysCountedRead true false false);
  (go "ZINTER", Policy KeysCountedRead true false false);
  (go "ZDIFF", Policy KeysCountedRead true false false);
  (go "ZMPOP", Policy KeysCountedRead true false false);
  (go "LMPOP", Policy KeysCountedRead true false false);
  (go "LCS", Policy KeysFirstTwo true false false);
  (go "SORT", Policy KeysSort true false false);
  (go "PFCOUNT", Policy KeysAll true false false);
  (go "SDIFF", Policy KeysAll true false false);
  (go "SINTER", Policy KeysAll true false false);
  (go "SUNION", Policy KeysAll true false false);
  (go "PFMERGE", Policy KeysAll true false false);
  (go "SDIFFSTORE", Policy KeysAll true false false);
  (go "SINTERSTORE", Policy KeysAll true false false);
  (go "SUNIONSTORE", Policy KeysAll true false false);
  (go "ZDIFFSTORE", Policy KeysCountedStore true false false);
  (go "ZINTERSTORE", Policy KeysCountedStore true false false);
  (go "ZUNIONSTORE", Policy KeysCountedStore true false false);
  (go "CMS.MERGE", Policy KeysCountedStore true false false);
  (go "TDIGEST.MERGE", Policy KeysCountedStore true false false);
  (go "XREAD", Policy KeysStreams true false false);
  (go "XREADGROUP", Policy KeysStreams true false false);
  (go "XGROUP", Policy KeysSubcommandThird false false false);
  (go "XINFO", Policy KeysHelpAwareThird false false false);
  (go "OBJECT", Policy KeysHelpAwareThird false false false);
  (go "MEMORY", Policy KeysMemoryUsage false false false)].

Definition firstKeyCommands1 : list gstr := [
  go "APPEND"; go "BF.ADD"; go "BF.CARD"; go "BF.EXISTS"; go "BF.INFO"; go "BF.MADD";
  go "BF.MEXISTS"; go "BF.RESERVE"; go "BITCOUNT"; go "BITFIELD"; go "BITPOS"; go "CAS";
  go "CF.ADD"; go "CF.ADDNX"; go "CF.COUNT"; go "CF.DEL"; go "CF.EXISTS"; go "CF.INFO";
  go "CF.MEXISTS"; go "CF.RESERVE"; go "CMS.INCRBY"; go "CMS.INFO"; go "CMS.INITBYDIM";
  go "CMS.INITBYPROB"; go "CMS.QUERY"; go "DECR"; go "DECRBY"; go "EXPIRE"; go "EXPIREAT";
  go "EXPIRETIME"; go "EXTEND"; go "FETCH_OR_COMPUTE"; go "FETCH_OR_COMPUTE_ERROR";
  go "FETCH_OR_COMPUTE_RESULT"; go "FERRICSTORE.KEY_INFO"; go "GET"; go "GETBIT"; go "GETDEL";
  go "GETEX"; go "GETRANGE"; go "GETSET"; go "GEOADD"; go "GEODIST"; go "GEOHASH"; go "GEOPOS";
  go "GEOSEARCH"; go "HDEL"; go "HEXISTS"; go "HGET"; go "HGETALL"; go "HGETDEL"; go "HGETEX";
  go "HINCRBY"; go "HINCRBYFLOAT"; go "HKEYS"; go "HLEN"; go "HMGET"; go "HMSET"; go "HSET";
  go "HSETEX"; go "HSETNX"; go "HSTRLEN"; go "HTTL"; go "HEXPIRE"; go "HEXPIRETIME";
  go "HPERSIST"; go "HPEXPIRE"; go "HPEXPIRETIME"; go "HPTTL"; go "HRANDFIELD"; go "HSCAN";
  go "HVALS"; go "INCR"; go "INCRBY"; go "INCRBYFLOAT"; go "KEY_INFO"; go "LINDEX";
  go "LINSERT"; go "LLEN"; go "LOCK"; go "LPOP"; go "LPUSH"; go "LPUSHX"; go "LRANGE";
  go "LREM"; go "LSET"; go "LTRIM"; go "LPOS"].

Definition firstKeyCommands2 : list gstr := [
  go "PFADD"; go "PEXPIRE"; go "PEXPIREAT"; go "PEXPIRETIME"; go "PERSIST"; go "PSETEX";
  go "PTTL"; go "RATELIMIT.ADD"; go "RPOP"; go "RPUSH"; go "RPUSHX"; go "SADD"; go "SCARD";
  go "SISMEMBER"; go "SMEMBERS"; go "SREM"; go "SET"; go "SETBIT"; go "SETEX"; go "SETNX";
  go "SETRANGE"; go "SMISMEMBER"; go "SPOP"; go "SRANDMEMBER"; go "SSCAN"; go "STRLEN";
  go "TDIGEST.ADD"; go "TDIGEST.BYRANK"; go "TDIGEST.BYREVRANK"; go "TDIGEST.CDF";
  go "TDIGEST.CREATE"; go "TDIGEST.INFO"; go "TDIGEST.MAX"; go "TDIGEST.MIN";
  go "TDIGEST.QUANTILE"; go "TDIGEST.RANK"; go "TDIGEST.RESET"; go "TDIGEST.REVRANK";
  go "TDIGEST.TRIMMED_MEAN"; go "TOPK.ADD"; go "TOPK.COUNT"; go "TOPK.INCRBY"; go "TOPK.INFO";
  go "TOPK.LIST"; go "TOPK.QUERY"; go "TOPK.RESERVE"; go "TTL"; go "TYPE"; go "UNLOCK";
  go "BF.INSERT"; go "BITFIELD_RO"; go "CF.INSERT"; go "CF.INSERTNX"; go "HEXPIREAT";
  go "HPEXPIREAT"; go "SORT_RO"; go "XADD"; go "XACK"; go "XAUTOCLAIM"; go "XCLAIM"; go "XDEL";
  go "XLEN"; go "XPENDING"; go "XRANGE"; go "XREVRANGE"; go "XSETID"; go "XTRIM"; go "ZADD";
  go "ZCARD"; go "ZCOUNT"; go "ZINCRBY"; go "ZLEXCOUNT"; go "ZRANGE"; go "ZRANGEBYLEX";
  go "ZREMRANGEBYLEX"; go "ZREMRANGEBYRANK"; go "ZREMRANGEBYSCORE"; go "ZREVRANGEBYLEX";
  go "ZRANGEBYSCORE"; go "ZRANDMEMBER"; go "ZREM"; go "ZREVRANGE"; go "ZREVRANGEBYSCORE";
  go "ZMSCORE"; go "ZPOPMAX"; go "ZPOPMIN"; go "ZRANK"; go "ZSCAN"; go "ZSCORE";
  go "ZREVRANK"].

(** [topologyCommandPolicies]. *)
Definition topologyCommandPolicies : list (gstr * topologyCommandPolicy) :=
  multiKeyPolicies ++
  ((fun name => (name, Policy KeysFirst false false false)) <$>
    (firstKeyCommands1 ++ firstKeyCommands2)).

(** ** Key extraction *)

(** [boundedRoutingCount]. *)
Definition boundedRoutingCount (value : arg) (available : Z) (allowZero : bool) : option Z :=
  let count := argInt64 value in
  if (count <? 0) || (negb allowZero && (count =? 0)) || (available <? count) then None
  else Some count.

Definition countedReadKeys (args : list arg) : option (list arg) :=
  match args with
  | _ :: count :: (_ :: _) as rest =>
      (fun n => btake n rest) <$> boundedRoutingCount count (blen args - 2) false
  | _ => None
  end.

Definition countedStoreKeys (args : list arg) : option (list arg) :=
  match args with
  | _ :: store :: count :: (_ :: _) as rest =>
      (fun n => store :: btake n rest) <$> boundedRoutingCount count (blen args - 3) false
  | _ => None
  end.

(** Every other element, from the first. *)
Fixpoint alternate {A} (l : list A) : list A :=
  match l with
  | [] => []
  | [a] => [a]
  | a :: _ :: l => a :: alternate l
  end.

(** The option loop of [sortKeys]. *)
Fixpoint sortStores (l : list arg) : list arg :=
  match l with
  | [] => []
  | a :: l =>
      if is_part (go "STORE") a then
        match l with [] => [] | d :: l => d :: sortStores l end
      else if is_part (go "BY") a || is_part (go "GET") a then
        match l with [] => [] | _ :: l => sortStores l end
      else if is_part (go "LIMIT") a then
        match l with _ :: _ :: l => sortStores l | _ => [] end
      else sortStores l
  end.

Definition sortKeys (args : list arg) : option (list arg) :=
  match args with
  | _ :: key :: options => Some (key :: sortStores options)
  | _ => None
  end.

(** The option loop of [streamReadKeys]. *)
Fixpoint streamOptions (group : bool) (l : list arg) : option (list arg) :=
  match l with
  | [] => None
  | a :: l =>
      if is_part (go "STREAMS") a then
        if (blen l =? 0) || negb (blen l mod 2 =? 0) then None
        else Some (btake (blen l / 2) l)
      else if is_part (go "COUNT") a || is_part (go "BLOCK") a then
        match l with [] => None | _ :: l => streamOptions group l end
      else if is_part (go "NOACK") a then if group then streamOptions group l else None
      else None
  end.

Definition streamReadKeys (args : list arg) : option (list arg) :=
  if blen args <? 2 then None
  else if bool_decide (commandName args = go "XREADGROUP") then
    match args with
    | _ :: group :: _ :: _ :: (_ :: _) as rest =>
        if is_part (go "GROUP") group then streamOptions true rest else None
    | _ => None
    end
  else streamOptions false (tail args).

Definition topologyKeysForMode (mode : topologyKeyMode) (args : list arg) : option (list arg) :=
  match mode with
  | KeysFirst => match args with _ :: key :: _ => Some [key] | _ => None end
  | KeysAll => match args with _ :: (_ :: _) as keys => Some keys | _ => None end
  | KeysAlternating =>
      if (3 <=? blen args) && ((blen args - 1) mod 2 =? 0) then Some (alternate (tail args)) else None
  | KeysFirstTwo => match args with _ :: a :: b :: _ => Some [a; b] | _ => None end
  | KeysBitOp => match args with _ :: _ :: (_ :: _ :: _) as keys => Some keys | _ => None end
  | KeysCountedRead => countedReadKeys args
  | KeysCountedStore => countedStoreKeys args
  | KeysBlockingCounted =>
      match args with
      | _ :: _ :: count :: (_ :: _) as rest =>
          (fun n => btake n rest) <$> boundedRoutingCount count (blen args - 3) false
      | _ => None
      end
  | KeysBlockingTrailing =>
      match args with
      | _ :: (_ :: _ :: _) as rest => Some (removelast rest)
      | _ => None
      end
  | KeysStreams => streamReadKeys args
  | KeysSubcommandThird => match args with _ :: _ :: key :: _ => Some [key] | _ => None end
  | KeysHelpAwareThird =>
      match args with
      | _ :: sub :: key :: _ => if is_part (go "HELP") sub then None else Some [key]
      | _ => None
      end
  | KeysMemoryUsage =>
      match args with
      | _ :: sub :: key :: _ => if is_part (go "USAGE") sub then Some [key] else None
      | _ => None
      end
  | KeysSort => sortKeys args
  | KeysNone => None
  end.

(** [topologyPolicyKeys]: the keys and the policy of a known command. *)
Definition topologyPolicyKeys (name : gstr) (args : list arg)
  : option (list arg * topologyCommandPolicy) :=
  match assoc_get name topologyCommandPolicies with
  | None => None
  | Some policy => (fun keys => (keys, policy)) <$> topologyKeysForMode (keyMode policy) args
  end.

Definition sameSlotCommandKeys (args : list arg) : option (list arg) :=
  let args := canonicalCommandArgs args in
  match args with
  | [] => None
  | _ =>
      match topologyPolicyKeys (commandName args) args with
      | Some (keys, policy) => if requireSameSlot policy then Some keys else None
      | None => None
      end
  end.

(** ** Commands that concern the connection they are sent on (src/transaction.go) *)

Definition statefulCommands : list gstr :=
  [go "WATCH"; go "UNWATCH"; go "MULTI"; go "EXEC"; go "DISCARD"].

Definition mutationCommands : list gstr :=
  [go "AUTH"; go "CLIENT.SETNAME"; go "HELLO"; go "QUIT"; go "RESET"; go "SANDBOX"; go "STARTUP";
   go "SUBSCRIBE_EVENTS"; go "UNSUBSCRIBE_EVENTS"; go "WINDOW_UPDATE"].

(** [connectionStateCommand]: the name, when the command is one. *)
Definition connectionStateCommand (args : list arg) : option gstr :=
  match args with
  | [] => None
  | first :: rest =>
      let name :=
        match rest with
        | second :: _ => if is_part (go "COMMAND_EXEC") first then argPart second else argPart first
        | [] => argPart first
        end in
      if bool_decide (name ∈ statefulCommands) then Some name else None
  end.

(** [connectionStateMutationCommand]. *)
Definition connectionStateMutationCommand (args : list arg) : option gstr :=
  let args :=
    match args with
    | first :: (_ :: _) as rest => if is_part (go "COMMAND_EXEC") first then rest else args
    | _ => args
    end in
  match args with
  | [] => None
  | first :: rest =>
      let name :=
        match rest with
        | second :: _ =>
            if is_part (go "CLIENT") first && is_part (go "SETNAME") second then go "CLIENT.SETNAME"
            else argPart first
        | [] => argPart first
        end in
      if bool_decide (name ∈ mutationCommands) then Some name else None
  end.

(** [affineCommandArgs]. *)
Definition affineCommandArgs (args : list arg) : list arg :=
  match args with
  | [] => args
  | first :: rest =>
      if is_part (go "COMMAND_EXEC") first then args
      else Arg (VString (go "COMMAND_EXEC")) :: Arg (VString (default [] (argText first))) :: rest
  end.

(** ** Facts *)

Lemma boundedRoutingCount_some v available z n :
  boundedRoutingCount v available z = Some n <->
  argInt64 v = n /\ 0 <= n <= available /\ (z = false -> n <> 0).
Proof.
  unfold boundedRoutingCount.
  destruct (Z.ltb_spec (argInt64 v) 0), (Z.eqb_spec (argInt64 v) 0),
    (Z.ltb_spec available (argInt64 v)), z; cbn; naive_solver lia.
Qed.

Lemma elem_of_btake {A} (x : A) n l : x ∈ btake n l -> x ∈ l.
Proof. intros H. rewrite <- (btake_bdrop n l). apply elem_of_app. by left. Qed.

Lemma btake_nonempty {A} n (l : list A) : 0 < n -> l <> [] -> btake n l <> [].
Proof. intros Hn Hl. destruct l; [done|]. unfold btake. by destruct (Z.to_nat n) eqn:E; [lia|]. Qed.

Lemma elem_of_alternate {A} (x : A) l : x ∈ alternate l -> x ∈ l.
Proof.
  induction l as [[|a [|b l]] IH] using list_len_ind; cbn; [done|done|].
  rewrite !elem_of_cons. intros [->|H%IH]; auto. cbn; lia.
Qed.

Lemma elem_of_removelast {A} (x : A) l : x ∈ removelast l -> x ∈ l.
Proof.
  induction l as [|a l IH]; cbn; [done|]. destruct l as [|b l].
  - intros H. by apply not_elem_of_nil in H.
  - intros [->|H]%elem_of_cons; [left|right; auto].
Qed.

Lemma elem_of_sortStores x l : x ∈ sortStores l -> x ∈ l.
Proof.
  induction l as [[|a l] IH] using list_len_ind; cbn; [done|]. rewrite elem_of_cons.
  destruct (is_part (go "STORE") a).
  { destruct l as [|d l]; [by intros ?%not_elem_of_nil|].
    rewrite !elem_of_cons. intros [->|H%IH]; auto. cbn; lia. }
  destruct (is_part (go "BY") a || is_part (go "GET") a).
  { destruct l as [|d l]; [by intros ?%not_elem_of_nil|]. rewrite elem_of_cons.
    intros H%IH; auto. cbn; lia. }
  destruct (is_part (go "LIMIT") a); [|intros H%IH; auto].
  destruct l as [|d [|e l]]; try (by intros ?%not_elem_of_nil). rewrite !elem_of_cons.
  intros H%IH; auto. cbn; lia.
Qed.

Lemma streamOptions_spec group l keys :
  streamOptions group l = Some keys ->
  exists options streams ids, l = options ++ streams :: keys ++ ids /\
    argPart streams = go "STREAMS" /\ length ids = length keys /\ keys <> [].
Proof.
  induction l as [[|a l] IH] using list_len_ind; cbn; [done|].
  destruct (is_part (go "STREAMS") a) eqn:Hs.
  - destruct (Z.eqb_spec (blen l) 0); cbn; [done|].
    destruct (Z.eqb_spec (blen l mod 2) 0) as [Hm|]; cbn; [|done]. intros [= <-].
    exists [], a, (bdrop (blen l / 2) l). unfold is_part in Hs. z_tests.
    pose proof (Z.div_mod (blen l) 2 ltac:(lia)). pose proof (blen_nonneg l).
    split_and!; [by rewrite btake_bdrop|done| |].
    + pose proof (blen_btake (blen l / 2) l ltac:(lia)) as H1.
      pose proof (blen_bdrop (blen l / 2) l ltac:(lia)) as H2. unfold blen in *. lia.
    + apply btake_nonempty; [lia|]. by intros ->.
  - destruct (is_part (go "COUNT") a || is_part (go "BLOCK") a).
    + destruct l as [|b l]; [done|]. intros (o & s & i & -> & ?)%IH; [|cbn; lia].
      by exists (a :: b :: o), s, i.
    + destruct (is_part (go "NOACK") a); [|done]. destruct group; [|done].
      intros (o & s & i & -> & ?)%IH; [|cbn; lia]. by exists (a :: o), s, i.
Qed.

Lemma streamReadKeys_spec args keys :
  streamReadKeys args = Some keys ->
  exists name options streams ids, args = name :: options ++ streams :: keys ++ ids /\
    argPart streams = go "STREAMS" /\ length ids = length keys /\ keys <> [].
Proof.
  unfold streamReadKeys. destruct (Z.ltb_spec (blen args) 2); [done|].
  destruct (bool_decide _).
  - destruct args as [|n [|g [|a [|b [|c l]]]]]; try done.
    destruct (is_part _ g); [|done]. intros (o & s & i & -> & ?)%streamOptions_spec.
    by exists n, (g :: a :: b :: o), s, i.
  - destruct args as [|n l]; [done|]. cbn. intros (o & s & i & -> & ?)%streamOptions_spec.
    by exists n, o, s, i.
Qed.

Lemma boundedCount_keys {A} v available n (l : list A) :
  boundedRoutingCount v available false = Some n -> available = blen l ->
  argInt64 v = blen (btake n l) /\ btake n l <> [].
Proof.
  intros (Hn & Hb & Hz)%boundedRoutingCount_some ->. specialize (Hz eq_refl).
  rewrite blen_btake by done. split; [done|]. apply btake_nonempty; [lia|].
  intros ->. change (blen []) with 0 in Hb. lia.
Qed.

(** ** Properties *)

(** Key extraction never leaves the arguments: for every command of the
    table the extracted keys are arguments after the command name, and a
    successful extraction finds at least one. *)
Theorem policy_keys_are_arguments name args keys policy :
  topologyPolicyKeys name args = Some (keys, policy) ->
  keys <> [] /\ forall k, k ∈ keys -> k ∈ tail args.
Proof.
  unfold topologyPolicyKeys. destruct (assoc_get name _) as [p|]; [|done].
  destruct (topologyKeysForMode (keyMode p) args) as [ks|] eqn:Hk; cbn; [|done].
  intros [= <- _]. revert Hk. unfold topologyKeysForMode, countedReadKeys, countedStoreKeys, sortKeys.
  destruct (keyMode p); try done.
  - destruct args as [|n [|k l]]; try done. intros [= <-]. set_solver.
  - destruct args as [|n [|k l]]; try done. intros [= <-]. set_solver.
  - destruct (Z.leb_spec 3 (blen args)); cbn; [|done]. destruct (_ =? 0); [|done].
    intros [= <-]. destruct args as [|n [|k [|v l]]]; try (unfold blen in *; cbn in *; lia).
    split; [done|]. intros x. apply elem_of_alternate.
  - destruct args as [|n [|k [|v l]]]; try done. intros [= <-]. set_solver.
  - destruct args as [|n [|k [|v [|w l]]]]; try done. intros [= <-]. set_solver.
  - destruct args as [|n [|c [|k l]]]; try done.
    destruct (boundedRoutingCount _ _ _) as [m|] eqn:Hc; cbn; [|done]. intros [= <-].
    apply (boundedCount_keys _ _ _ (k :: l)) in Hc as [_ Hne]; [|unfold blen; cbn; lia].
    split; [done|]. intros x Hx%elem_of_btake. cbn. by right.
  - destruct args as [|n [|s [|c [|k l]]]]; try done.
    destruct (boundedRoutingCount _ _ _) as [m|] eqn:Hc; cbn; [|done]. intros [= <-].
    split; [done|]. intros x [->|Hx%elem_of_btake]%elem_of_cons; set_solver.
  - destruct args as [|n [|s [|c [|k l]]]]; try done.
    destruct (boundedRoutingCount _ _ _) as [m|] eqn:Hc; cbn; [|done]. intros [= <-].
    apply (boundedCount_keys _ _ _ (k :: l)) in Hc as [_ Hne]; [|unfold blen; cbn; lia].
    split; [done|]. intros x Hx%elem_of_btake. set_solver.
  - destruct args as [|n [|a [|b l]]]; try done. intros [= <-].
    split; [done|]. intros x Hx. cbn [tail]. apply (elem_of_removelast x (a :: b :: l)), Hx.
  - intros (n & o & s & i & -> & _ & _ & Hne)%streamReadKeys_spec. set_solver.
  - destruct args as [|n [|a [|b l]]]; try done. intros [= <-]. set_solver.
  - destruct args as [|n [|a [|b l]]]; try done. destruct (is_part _ a); [done|].
    intros [= <-]. set_solver.
  - destruct args as [|n [|a [|b l]]]; try done. destruct (is_part _ a); [|done].
    intros [= <-]. set_solver.
  - destruct args as [|n [|a l]]; try done. intros [= <-]. split; [done|].
    intros x [->|Hx%elem_of_sortStores]%elem_of_cons; set_solver.
Qed.

Lemma policy_keys_are_arguments_witness :
  [Arg (VString (go "a")); Arg (VString (go "b"))] <> [] /\
  forall k, k ∈ [Arg (VString (go "a")); Arg (VString (go "b"))] ->
    k ∈ tail [Arg (VString (go "ZUNION")); Arg (VInt IInt 2); Arg (VString (go "a")); Arg (VString (go "b"))].
Proof.
  apply (policy_keys_are_arguments (go "ZUNION")
    [Arg (VString (go "ZUNION")); Arg (VInt IInt 2); Arg (VString (go "a")); Arg (VString (go "b"))]
    _ (Policy KeysCountedRead true false false)).
  vm_compute. reflexivity.
Defined.

(** A counted command's keys are exactly the arguments its count announces:
    extraction succeeds precisely when the count is positive and covered. *)
Theorem counted_keys_exact args keys :
  countedReadKeys args = Some keys <->
  exists name count rest, args = name :: count :: keys ++ rest /\
    argInt64 count = blen keys /\ keys <> [].
Proof.
  unfold countedReadKeys. split.
  - destruct args as [|n [|c [|k l]]]; try done.
    destruct (boundedRoutingCount _ _ _) as [m|] eqn:Hc; cbn; [|done]. intros [= <-].
    apply (boundedCount_keys _ _ _ (k :: l)) in Hc as [Hm Hne]; [|unfold blen; cbn; lia].
    exists n, c, (bdrop m (k :: l)). by rewrite btake_bdrop.
  - intros (n & c & rest & -> & Hc & Hne). destruct keys as [|k ks]; [done|].
    cbn [app]. change (k :: ks ++ rest) with ((k :: ks) ++ rest).
    assert (boundedRoutingCount c (blen (n :: c :: (k :: ks) ++ rest) - 2) false =
      Some (blen (k :: ks))) as ->.
    { apply boundedRoutingCount_some. rewrite Hc. pose proof (blen_nonneg rest).
      pose proof (blen_nonneg ks). split_and!; [done|done| |];
        autorewrite with ferric; lia. }
    cbn [fmap option_fmap option_map]. by rewrite btake_app.
Qed.

(** Attaching a request context and wrapping a command in [COMMAND_EXEC]
    is transparent: the canonical arguments are those of the command, and the
    context is recovered. *)
Lemma canonical_wrapped name args context :
  argPart name <> go "COMMAND_EXEC" ->
  canonicalCommandArgs
    (Arg (VString (go "COMMAND_EXEC")) :: appendNativeRequestContext (name :: args) context) =
    name :: args /\
  splitNativeRequestContext (appendNativeRequestContext (name :: args) context) =
    (name :: args, Some context).
Proof.
  intros Hname.
  assert (splitNativeRequestContext (appendNativeRequestContext (name :: args) context) =
    (name :: args, Some context)) as Hs.
  { unfold splitNativeRequestContext, appendNativeRequestContext. rewrite rev_app_distr.
    cbn [rev app]. rewrite bool_decide_true by done.
    by rewrite rev_app_distr, rev_involutive. }
  split; [|done]. unfold canonicalCommandArgs.
  assert (stripCommandExec
    (Arg (VString (go "COMMAND_EXEC")) :: appendNativeRequestContext (name :: args) context) =
    appendNativeRequestContext (name :: args) context) as ->; [|by rewrite Hs].
  unfold appendNativeRequestContext. cbn [stripCommandExec app].
  change (is_part (go "COMMAND_EXEC") (Arg (VString (go "COMMAND_EXEC")))) with true. cbn iota.
  assert (is_part (go "COMMAND_EXEC") name = false) as -> by by apply bool_decide_eq_false.
  by destruct (args ++ _).
Qed.

(** Without a marker there is no request context to split off. *)
Lemma split_no_marker args :
  Forall (fun a => argRouteKey a = true) args ->
  splitNativeRequestContext args = (args, None).
Proof.
  intros H. unfold splitNativeRequestContext.
  destruct (rev args) as [|c [|[v|text] payload]] eqn:E; try done.
  rewrite Forall_forall in H. specialize (H (ArgMarker text)).
  enough (ArgMarker text ∈ args) as Hin by by apply H in Hin.
  apply list_elem_of_In, in_rev. rewrite E. right. by left.
Qed.
