(* ===== verification/Hashes.v ===== *)
(** The checksums and encodings routing is built on: CRC-32 as
    src/topology_routing.go computes it from the table of [hash/crc32], and the
    standard library's SHA-256 and unpadded URL-safe base64. *)

From S2P Require Export Prelude.

(** ** CRC-32 *)

(** One bit of the reflected IEEE polynomial, as [hash/crc32] builds its table. *)
Definition crc_poly : Z := 0xEDB88320.

Definition crc_step (c : Z) : Z :=
  if Z.testbit c 0 then Z.lxor (Z.shiftr c 1) crc_poly else Z.shiftr c 1.

(** [crc32.IEEETable[i]]. *)
Definition IEEETable (i : Z) : Z := Nat.iter 8 crc_step i.

Definition crc_byte (crc : Z) (b : byte) : Z :=
  Z.lxor (IEEETable (Z.lxor (Z.land crc 255) (byteZ b))) (Z.shiftr crc 8).

(** [routeCRC32]. *)
Definition routeCRC32 (value : gstr) : Z :=
  Z.lxor (fold_left crc_byte value (Z.ones 32)) (Z.ones 32).

(** The bit-serial definition of CRC-32. *)
Definition crc32_serial (value : gstr) : Z :=
  Z.lxor (fold_left (fun crc b => Nat.iter 8 crc_step (Z.lxor crc (byteZ b))) value (Z.ones 32))
    (Z.ones 32).

Lemma crc_step_linear a b : crc_step (Z.lxor a b) = Z.lxor (crc_step a) (crc_step b).
Proof.
  unfold crc_step. rewrite Z.lxor_spec, Z.shiftr_lxor.
  destruct (Z.testbit a 0), (Z.testbit b 0); cbn;
    apply Z.bits_inj'; intros i _; rewrite !Z.lxor_spec;
    destruct (Z.testbit (Z.shiftr a 1) i), (Z.testbit (Z.shiftr b 1) i), (Z.testbit crc_poly i); done.
Qed.

Lemma crc_iter_linear n a b :
  Nat.iter n crc_step (Z.lxor a b) = Z.lxor (Nat.iter n crc_step a) (Nat.iter n crc_step b).
Proof. induction n as [|n IH]; [done|]. by rewrite !Nat.iter_succ, IH, crc_step_linear. Qed.

Lemma crc_iter_shift n y : Nat.iter n crc_step (Z.shiftl y (Z.of_nat n)) = y.
Proof.
  induction n as [|n IH] in y |- *; [apply Z.shiftl_0_r|].
  rewrite Nat.iter_succ_r. rewrite <- (IH y) at 2. f_equal.
  unfold crc_step. rewrite Z.shiftl_spec_low by lia.
  apply Z.bits_inj'. intros i Hi. rewrite Z.shiftr_spec, !Z.shiftl_spec by lia. f_equal. lia.
Qed.

Lemma low_byte_split x : x = Z.lxor (Z.land x 255) (Z.shiftl (Z.shiftr x 8) 8).
Proof.
  apply Z.bits_inj'. intros i Hi. rewrite Z.lxor_spec, Z.land_spec.
  change 255 with (Z.ones 8). destruct (Z.ltb_spec i 8).
  - rewrite Z.ones_spec_low, Z.shiftl_spec_low by lia. by rewrite andb_true_r, xorb_false_r.
  - rewrite Z.ones_spec_high, Z.shiftl_spec, Z.shiftr_spec by lia.
    rewrite andb_false_r, xorb_false_l. f_equal. lia.
Qed.

Lemma crc_byte_serial crc b :
  crc_byte crc b = Nat.iter 8 crc_step (Z.lxor crc (byteZ b)).
Proof.
  unfold crc_byte, IEEETable.
  rewrite (low_byte_split crc) at 3. rewrite Z.lxor_assoc, (Z.lxor_comm (Z.shiftl _ _)), <- Z.lxor_assoc.
  rewrite (crc_iter_linear 8 _ (Z.shiftl _ _)).
  by rewrite (crc_iter_shift 8).
Qed.

Lemma routeCRC32_serial value : routeCRC32 value = crc32_serial value.
Proof.
  unfold routeCRC32, crc32_serial. f_equal. generalize (Z.ones 32).
  induction value as [|b l IH]; intros crc; cbn [fold_left]; [done|].
  by rewrite crc_byte_serial, IH.
Qed.

Lemma lxor_range n a b : 0 <= n -> in_uint n a -> in_uint n b -> in_uint n (Z.lxor a b).
Proof.
  unfold in_uint. intros Hn Ha Hb.
  assert (0 <= Z.lxor a b) as H0 by (apply Z.lxor_nonneg; lia). split; [done|].
  destruct (Z.eq_dec (Z.lxor a b) 0) as [->|Hne]; [lia|].
  apply Z.log2_lt_pow2; [lia|]. pose proof (Z.log2_lxor a b ltac:(lia) ltac:(lia)).
  assert (forall c, 0 <= c < 2 ^ n -> 0 < n -> Z.log2 c < n) as Hlog.
  { intros c Hc Hn0. destruct (Z.eq_dec c 0) as [->|]; [done|]. apply Z.log2_lt_pow2; lia. }
  destruct (Z.eq_dec n 0) as [->|].
  - assert (a = 0) as -> by lia. assert (b = 0) as -> by lia. done.
  - pose proof (Hlog a Ha ltac:(lia)). pose proof (Hlog b Hb ltac:(lia)). lia.
Qed.

Lemma crc_step_range c : in_uint 32 c -> in_uint 32 (crc_step c).
Proof.
  unfold crc_step. intros Hc.
  assert (in_uint 32 (Z.shiftr c 1)) as Hs.
  { unfold in_uint in *. rewrite Z.shiftr_div_pow2 by lia. split; [apply Z.div_pos; lia|].
    apply Z.div_lt_upper_bound; lia. }
  destruct (Z.testbit c 0); [|done]. apply lxor_range; [lia|done|done].
Qed.

Lemma routeCRC32_range value : in_uint 32 (routeCRC32 value).
Proof.
  rewrite routeCRC32_serial. unfold crc32_serial. apply lxor_range; [lia| |done].
  assert (in_uint 32 (Z.ones 32)) as Hi by done. revert Hi. generalize (Z.ones 32).
  induction value as [|b l IH]; intros crc Hc; cbn [fold_left]; [done|]. apply IH.
  assert (in_uint 32 (Z.lxor crc (byteZ b))) as Hx.
  { apply lxor_range; [lia|done|]. pose proof (byteZ_range b). unfold in_uint. lia. }
  revert Hx. generalize (Z.lxor crc (byteZ b)). intros x Hx. cbn.
  by repeat apply crc_step_range.
Qed.

(** The published check value. *)
Example routeCRC32_check : routeCRC32 (go "123456789") = 0xCBF43926.
Proof. vm_compute. reflexivity. Qed.

(** ** SHA-256 *)

Definition rotr (x n : Z) : Z := Z.lor (Z.shiftr x n) (wrap 32 (Z.shiftl x (32 - n))).

(** The primes that the constants of FIPS 180-4 are made of. *)
Definition prime (n : nat) : bool :=
  forallb (fun d => negb (Nat.eqb (n mod d) 0)) (seq 2 (n - 2)).

Definition sha_primes : list Z := Z.of_nat <$> base.filter (fun n => prime n = true) (seq 2 310).

(** Integer cube root, bit by bit from bit [bits - 1] down. *)
Fixpoint cube_root (bits : nat) (root target : Z) : Z :=
  match bits with
  | O => root
  | S bits =>
      let next := root + 2 ^ Z.of_nat bits in
      cube_root bits (if next ^ 3 <=? target then next else root) target
  end.

(** The first 32 fractional bits of the cube roots of the 64 first primes. *)
Definition sha_k : list Z :=
  Eval vm_compute in (fun p => wrap 32 (cube_root 36 0 (p * 2 ^ 96))) <$> sha_primes.

(** The first 32 fractional bits of the square roots of the 8 first primes. *)
Definition sha_h0 : list Z :=
  Eval vm_compute in (fun p => wrap 32 (Z.sqrt (p * 2 ^ 64))) <$> take 8 sha_primes.

(** The message schedule, newest word first. *)
Fixpoint sha_schedule (n : nat) (w : list Z) : list Z :=
  match n with
  | O => w
  | S n =>
      let w2 := nth 1 w 0 in
      let w7 := nth 6 w 0 in
      let w15 := nth 14 w 0 in
      let w16 := nth 15 w 0 in
      let s0 := Z.lxor (Z.lxor (rotr w15 7) (rotr w15 18)) (Z.shiftr w15 3) in
      let s1 := Z.lxor (Z.lxor (rotr w2 17) (rotr w2 19)) (Z.shiftr w2 10) in
      sha_schedule n (wrap 32 (w16 + s0 + w7 + s1) :: w)
  end.

Definition sha_round (s : list Z) (kw : Z * Z) : list Z :=
  match s with
  | [a; b; c; d; e; f; g; h] =>
      let s1 := Z.lxor (Z.lxor (rotr e 6) (rotr e 11)) (rotr e 25) in
      let ch := Z.lxor (Z.land e f) (Z.land (Z.lxor e (Z.ones 32)) g) in
      let t1 := h + s1 + ch + kw.1 + kw.2 in
      let s0 := Z.lxor (Z.lxor (rotr a 2) (rotr a 13)) (rotr a 22) in
      let maj := Z.lxor (Z.lxor (Z.land a b) (Z.land a c)) (Z.land b c) in
      [wrap 32 (t1 + s0 + maj); a; b; c; wrap 32 (d + t1); e; f; g]
  | _ => s
  end.

(** The [n]-byte big-endian words of a block. *)
Fixpoint be_words (count n : nat) (l : gstr) : list Z :=
  match count with
  | O => []
  | S count => be_decode (take n l) :: be_words count n (drop n l)
  end.

Definition sha_block (s : list Z) (block : gstr) : list Z :=
  let w := rev (sha_schedule 48 (rev (be_words 16 4 block))) in
  zip_with (fun a b => wrap 32 (a + b)) s (fold_left sha_round (zip sha_k w) s).

Fixpoint sha_blocks (n : nat) (s : list Z) (l : gstr) : list Z :=
  match n with
  | O => s
  | S n => sha_blocks n (sha_block s (take 64 l)) (drop 64 l)
  end.

Definition sha_pad (l : gstr) : gstr :=
  l ++ [x80] ++ replicate (Z.to_nat ((55 - blen l) mod 64)) x00 ++ be_encode 8 (8 * blen l).

(** [sha256.Sum256]. *)
Definition sha256 (l : gstr) : gstr :=
  let padded := sha_pad l in
  concat (be_encode 4 <$> sha_blocks (length padded / 64) sha_h0 padded).

Example sha256_abc : be_decode (sha256 (go "abc")) =
  0xba7816bf8f01cfea414140de5dae2223b00361a396177a9cb410ff61f20015ad.
Proof. vm_compute. reflexivity. Qed.

Example sha256_empty : be_decode (sha256 []) =
  0xe3b0c44298fc1c149afbf4c8996fb92427ae41e4649b934ca495991b7852b855.
Proof. vm_compute. reflexivity. Qed.

(** ** [base64.RawURLEncoding] *)

Definition b64_char (d : Z) : byte :=
  if d <? 26 then Zbyte (65 + d)
  else if d <? 52 then Zbyte (97 + (d - 26))
  else if d <? 62 then Zbyte (48 + (d - 52))
  else if d =? 62 then x2d else x5f.

Definition b64_digit (b : byte) : option Z :=
  let z := byteZ b in
  if (65 <=? z) && (z <=? 90) then Some (z - 65)
  else if (97 <=? z) && (z <=? 122) then Some (z - 97 + 26)
  else if (48 <=? z) && (z <=? 57) then Some (z - 48 + 52)
  else if z =? 45 then Some 62
  else if z =? 95 then Some 63
  else None.

(** [EncodeToString]. *)
Fixpoint base64_encode (l : gstr) : gstr :=
  match l with
  | [] => []
  | [a] =>
      let v := byteZ a * 16 in [b64_char (v / 64); b64_char (v mod 64)]
  | [a; b] =>
      let v := (byteZ a * 256 + byteZ b) * 4 in
      [b64_char (v / 4096); b64_char (v / 64 mod 64); b64_char (v mod 64)]
  | a :: b :: c :: l =>
      let v := byteZ a * 65536 + byteZ b * 256 + byteZ c in
      b64_char (v / 262144) :: b64_char (v / 4096 mod 64) :: b64_char (v / 64 mod 64) ::
      b64_char (v mod 64) :: base64_encode l
  end.

(** The digits of a text; line breaks are skipped. *)
Definition b64_digits (l : gstr) : option (list Z) :=
  mapM b64_digit (filter (fun b => b ≠ x0a /\ b ≠ x0d) l).

Fixpoint b64_bytes (l : list Z) : option gstr :=
  match l with
  | [] => Some []
  | [_] => None
  | [w; x] => Some [Zbyte ((w * 64 + x) / 16)]
  | [w; x; y] =>
      let v := (w * 64 + x) * 64 + y in Some [Zbyte (v / 1024); Zbyte (v / 4)]
  | w :: x :: y :: z :: l =>
      let v := ((w * 64 + x) * 64 + y) * 64 + z in
      (fun rest => Zbyte (v / 65536) :: Zbyte (v / 256) :: Zbyte v :: rest) <$> b64_bytes l
  end.

(** [DecodeString]; unused low bits of the last digit are ignored. *)
Definition base64_decode (l : gstr) : option gstr :=
  match b64_digits l with Some ds => b64_bytes ds | None => None end.

Lemma b64_char_digit d : 0 <= d < 64 -> b64_digit (b64_char d) = Some d.
Proof.
  intros Hd. assert (forall n, (n < 64)%nat -> b64_digit (b64_char (Z.of_nat n)) = Some (Z.of_nat n)) as H.
  { do 64 (destruct n as [|n]; [reflexivity|]). lia. }
  rewrite <- (Z2Nat.id d) by lia. apply H. lia.
Qed.

Lemma b64_digit_not_break b d : b64_digit b = Some d -> b <> x0a /\ b <> x0d.
Proof. destruct b; try done; by split. Qed.

Lemma b64_digits_chars ds :
  Forall (fun d => 0 <= d < 64) ds -> b64_digits (b64_char <$> ds) = Some ds.
Proof.
  unfold b64_digits. induction 1 as [|d ds Hd _ IH]; [done|]. cbn [fmap list_fmap].
  pose proof (b64_char_digit d Hd) as Hc.
  rewrite filter_cons_True by (by eapply b64_digit_not_break).
  cbn. rewrite Hc. cbn. by rewrite IH.
Qed.

(** The encoder's output as digits. *)
Fixpoint b64_split (l : gstr) : list Z :=
  match l with
  | [] => []
  | [a] => let v := byteZ a * 16 in [v / 64; v mod 64]
  | [a; b] => let v := (byteZ a * 256 + byteZ b) * 4 in [v / 4096; v / 64 mod 64; v mod 64]
  | a :: b :: c :: l =>
      let v := byteZ a * 65536 + byteZ b * 256 + byteZ c in
      v / 262144 :: v / 4096 mod 64 :: v / 64 mod 64 :: v mod 64 :: b64_split l
  end.

Lemma base64_encode_split l : base64_encode l = b64_char <$> b64_split l.
Proof. induction l as [[|a [|b [|c l]]] IH] using list_len_ind; try done. cbn. by rewrite IH by (cbn; lia). Qed.

Lemma div_range v n k : 0 < n -> 0 <= v < k * n -> 0 <= v / n < k.
Proof. intros. split; [apply Z.div_pos; lia|apply Z.div_lt_upper_bound; lia]. Qed.

Lemma b64_split_range l : Forall (fun d => 0 <= d < 64) (b64_split l).
Proof.
  induction l as [[|a [|b [|c l]]] IH] using list_len_ind; cbn [b64_split]; [done|..];
    pose proof (byteZ_range a); try pose proof (byteZ_range b); try pose proof (byteZ_range c);
    repeat apply Forall_cons_2; try (by apply Z.mod_pos_bound); try (apply div_range; lia);
    try apply Forall_nil_2.
  apply IH. cbn. lia.
Qed.

Lemma Zbyte_of b z : z mod 256 = byteZ b -> Zbyte z = b.
Proof. intros H. apply byteZ_inj. by rewrite byteZ_Zbyte. Qed.

Lemma b64_bytes_split l : b64_bytes (b64_split l) = Some l.
Proof.
  induction l as [[|a [|b [|c l]]] IH] using list_len_ind; cbn [b64_split b64_bytes]; [done|..];
    pose proof (byteZ_range a); try pose proof (byteZ_range b); try pose proof (byteZ_range c).
  - do 2 f_equal. apply Zbyte_of.
    replace (byteZ a * 16 / 64 * 64 + (byteZ a * 16) mod 64) with (byteZ a * 16) by (pose proof (Z.div_mod (byteZ a * 16) 64); lia).
    rewrite Z.div_mul by done. by apply Z.mod_small.
  - set (v := (byteZ a * 256 + byteZ b) * 4).
    assert ((v / 4096 * 64 + v / 64 mod 64) * 64 + v mod 64 = v) as ->.
    { replace (v / 4096) with (v / 64 / 64) by (by rewrite Z.div_div by lia).
      pose proof (Z.div_mod v 64). pose proof (Z.div_mod (v / 64) 64). lia. }
    subst v. do 2 f_equal; [|f_equal]; apply Zbyte_of.
    + replace ((byteZ a * 256 + byteZ b) * 4 / 1024) with (byteZ a); [by apply Z.mod_small|].
      apply (Z.div_unique_pos _ _ _ (byteZ b * 4)); lia.
    + rewrite Z.div_mul by done. rewrite Z.add_comm, Z_mod_plus_full. by apply Z.mod_small.
  - set (v := byteZ a * 65536 + byteZ b * 256 + byteZ c).
    assert (((v / 262144 * 64 + v / 4096 mod 64) * 64 + v / 64 mod 64) * 64 + v mod 64 = v) as ->.
    { replace (v / 262144) with (v / 64 / 64 / 64) by (by rewrite !Z.div_div by lia).
      replace (v / 4096) with (v / 64 / 64) by (by rewrite Z.div_div by lia).
      pose proof (Z.div_mod v 64). pose proof (Z.div_mod (v / 64) 64).
      pose proof (Z.div_mod (v / 64 / 64) 64). lia. }
    rewrite IH by (cbn; lia). cbn. subst v. do 2 f_equal; [|f_equal; [|f_equal]]; apply Zbyte_of.
    + replace ((byteZ a * 65536 + byteZ b * 256 + byteZ c) / 65536) with (byteZ a); [by apply Z.mod_small|].
      apply (Z.div_unique_pos _ _ _ (byteZ b * 256 + byteZ c)); lia.
    + replace ((byteZ a * 65536 + byteZ b * 256 + byteZ c) / 256) with (byteZ b + byteZ a * 256).
      * rewrite Z_mod_plus_full. by apply Z.mod_small.
      * apply (Z.div_unique_pos _ _ _ (byteZ c)); lia.
    + replace (byteZ a * 65536 + byteZ b * 256 + byteZ c) with (byteZ c + (byteZ a * 256 + byteZ b) * 256) by lia.
      rewrite Z_mod_plus_full. by apply Z.mod_small.
Qed.

Lemma base64_roundtrip l : base64_decode (base64_encode l) = Some l.
Proof.
  unfold base64_decode. rewrite base64_encode_split, b64_digits_chars by apply b64_split_range.
  apply b64_bytes_split.
Qed.

(** No character of the encoding closes a hash tag. *)
Lemma b64_char_not b d : 0 <= d < 64 -> b64_digit b = None -> b64_char d <> b.
Proof. intros Hd Hb <-. by rewrite b64_char_digit in Hb. Qed.

Lemma base64_encode_not b l : b64_digit b = None -> b ∉ base64_encode l.
Proof.
  intros Hb. rewrite base64_encode_split. intros (d & -> & Hd)%list_elem_of_fmap.
  pose proof (b64_split_range l) as Hr. rewrite Forall_forall in Hr.
  by rewrite b64_char_digit in Hb by auto.
Qed.
