(* ===== verification/Routing.v ===== *)
(** Routing of keys to slots: hash tags and slots (src/topology_routing.go),
    the Flow commands' routing keys (src/topology_flow_routing.go), the key
    spaces reserved for the server (src/internal_key.go). *)

From S2P Require Export Commands Hashes.

Definition routeSlotCount : Z := 1024.
Definition routeSlotMask : Z := routeSlotCount - 1.

(** ** Strings *)

(** [strings.IndexByte] followed by the two slices around the byte found. *)
Fixpoint cut_byte (b : byte) (s : gstr) : option (gstr * gstr) :=
  match s with
  | [] => None
  | x :: s =>
      if bool_decide (x = b) then Some ([], s)
      else (fun p => (x :: p.1, p.2)) <$> cut_byte b s
  end.

(** [strings.CutPrefix]; [strings.HasPrefix] is [is_Some]. *)
Fixpoint cut_prefix (p s : gstr) : option gstr :=
  match p, s with
  | [], s => Some s
  | x :: p, y :: s => if bool_decide (x = y) then cut_prefix p s else None
  | _ :: _, [] => None
  end.

Definition has_prefix (p s : gstr) : bool :=
  match cut_prefix p s with Some _ => true | None => false end.

(** ** Slots *)

Definition hashTagOrKey (key : gstr) : gstr :=
  match cut_byte x7b key with
  | None => key
  | Some (_, rest) =>
      match cut_byte x7d rest with
      | Some ((_ :: _) as tag, _) => tag
      | _ => key
      end
  end.

Definition flowHashTag (rest fallbackKey : gstr) : gstr :=
  match cut_byte x7d rest with
  | Some ((_ :: _) as tag, _) => tag
  | _ => hashTagOrKey fallbackKey
  end.

Definition routeSlotForString (text : gstr) : Z :=
  let hashInput :=
    match cut_prefix (go "f:{") text with
    | Some rest => flowHashTag rest text
    | None =>
        match cut_prefix (go "X:f:{") text with
        | Some rest => flowHashTag rest text
        | None => hashTagOrKey text
        end
    end in
  Z.land (routeCRC32 hashInput) routeSlotMask.

(** A routing key: an argument, or a slot chosen by the Flow rules
    ([topologyRouteSlot]). *)
Inductive routingKey :=
| KeyArg (a : arg)
| KeySlot (slot : Z).

(** [routeSlotForKey] on a route key. *)
Definition routeSlotForKey (a : arg) : Z :=
  routeSlotForString (default [] (argText a)).

Definition routingTargetSlot (key : routingKey) : option Z :=
  match key with
  | KeySlot slot => if slot <? routeSlotCount then Some slot else None
  | KeyArg a => if argRouteKey a then Some (routeSlotForKey a) else None
  end.

(** The loop of [singleShardKey] once a first key was found. *)
Fixpoint sameSlotAs (slot : Z) (keys : list routingKey) : bool :=
  match keys with
  | [] => true
  | key :: keys =>
      match routingTargetSlot key with
      | Some s => (s =? slot) && sameSlotAs slot keys
      | None => false
      end
  end.

Definition singleShardKey (keys : list routingKey) : option routingKey :=
  match keys with
  | [] => None
  | first :: rest =>
      match routingTargetSlot first with
      | Some slot => if sameSlotAs slot rest then Some first else None
      | None => None
      end
  end.

(** ** Flow routing *)

Definition flowTagRoutingSlot (tag : gstr) : Z := Z.land (routeCRC32 tag) routeSlotMask.

(** [strconv.Atoi], and the test that it reads the decimal text of a bucket. *)
Definition bucketText (text : gstr) : bool :=
  match parse_int64 text with
  | ParsedInt bucket =>
      (0 <=? bucket) && (bucket <? 256) && bool_decide (format_int bucket = text)
  | _ => false
  end.

(** The hash tag of a logical partition. *)
Definition logicalPartitionTag (text : gstr) : gstr :=
  match cut_prefix (go "__flow_auto__:") text with
  | Some bucket =>
      if bucketText bucket then go "fa:" ++ bucket
      else go "f:" ++ base64_encode (sha256 text)
  | None => go "f:" ++ base64_encode (sha256 text)
  end.

Definition flowLogicalPartitionRoutingKey (value : arg) : option routingKey :=
  if argRouteKey value
  then Some (KeySlot (flowTagRoutingSlot (logicalPartitionTag (default [] (argText value)))))
  else None.

(** The hash tag of a Flow identifier without a partition. *)
Definition autoIDTag (id : gstr) : gstr := go "fa:" ++ format_int (Z.land (routeCRC32 id) 255).

Definition flowAutoIDRoutingKey (value : arg) : option routingKey :=
  if argRouteKey value
  then Some (KeySlot (flowTagRoutingSlot (autoIDTag (default [] (argText value)))))
  else None.

Definition flowClaimPartitionRoutingKey (value : arg) : option routingKey :=
  if argRouteKey value then
    if is_part (go "AUTO") value || is_part (go "ANY") value then None
    else if is_part (go "GLOBAL") value then Some (KeySlot (flowTagRoutingSlot (go "f")))
    else flowLogicalPartitionRoutingKey value
  else None.

Definition flowValueReturnCommands : list gstr :=
  [go "FLOW.CLAIM_DUE"; go "FLOW.GET"; go "FLOW.RECLAIM"].

Definition flowScheduleCommands : list gstr :=
  [go "FLOW.SCHEDULE.CREATE"; go "FLOW.SCHEDULE.DELETE"; go "FLOW.SCHEDULE.FIRE";
   go "FLOW.SCHEDULE.FIRE_DUE"; go "FLOW.SCHEDULE.GET"; go "FLOW.SCHEDULE.LIST";
   go "FLOW.SCHEDULE.PAUSE"; go "FLOW.SCHEDULE.RESUME"].

Definition flowApprovalIDCommands : list gstr :=
  [go "FLOW.APPROVAL.APPROVE"; go "FLOW.APPROVAL.GET"; go "FLOW.APPROVAL.REJECT";
   go "FLOW.APPROVAL.REQUEST"].

Definition flowGovernanceScopeCommands : list gstr :=
  [go "FLOW.BUDGET.COMMIT"; go "FLOW.BUDGET.GET"; go "FLOW.BUDGET.RELEASE";
   go "FLOW.BUDGET.RESERVE"; go "FLOW.CIRCUIT.CLOSE"; go "FLOW.CIRCUIT.GET";
   go "FLOW.CIRCUIT.OPEN"; go "FLOW.LIMIT.GET"; go "FLOW.LIMIT.LEASE";
   go "FLOW.LIMIT.RELEASE"; go "FLOW.LIMIT.SPEND"].

Definition typeScopedFlowCommands : list gstr :=
  [go "FLOW.APPROVAL.LIST"; go "FLOW.ATTRIBUTE_VALUES"; go "FLOW.ATTRIBUTES";
   go "FLOW.BUDGET.LIST"; go "FLOW.GOVERNANCE.OVERVIEW"; go "FLOW.INFO"; go "FLOW.LIMIT.LIST";
   go "FLOW.POLICY.GET"; go "FLOW.POLICY.SET"; go "FLOW.RETENTION_CLEANUP";
   go "FLOW.SCHEDULE.FIRE_DUE"; go "FLOW.SCHEDULE.LIST"; go "FLOW.STATS"].

Definition flowStateIDCommands : list gstr :=
  [go "FLOW.CANCEL"; go "FLOW.COMPLETE"; go "FLOW.CREATE"; go "FLOW.EFFECT.COMPENSATE";
   go "FLOW.EFFECT.CONFIRM"; go "FLOW.EFFECT.FAIL"; go "FLOW.EFFECT.GET";
   go "FLOW.EFFECT.RESERVE"; go "FLOW.EXTEND_LEASE"; go "FLOW.FAIL"; go "FLOW.GET";
   go "FLOW.GOVERNANCE.LEDGER"; go "FLOW.HISTORY"; go "FLOW.RETRY"; go "FLOW.REWIND";
   go "FLOW.SIGNAL"; go "FLOW.SPAWN_CHILDREN"; go "FLOW.START_AND_CLAIM";
   go "FLOW.STEP_CONTINUE"; go "FLOW.TRANSITION"].

Definition flowManyCommands : list gstr :=
  [go "FLOW.CREATE_MANY"; go "FLOW.COMPLETE_MANY"; go "FLOW.TRANSITION_MANY";
   go "FLOW.RETRY_MANY"; go "FLOW.FAIL_MANY"; go "FLOW.CANCEL_MANY"].

Definition listed (name : gstr) (l : list gstr) : bool := bool_decide (name ∈ l).

Definition flowOptionStart (name : gstr) : nat :=
  if listed name [go "FLOW.APPROVAL.LIST"; go "FLOW.GOVERNANCE.OVERVIEW"; go "FLOW.BUDGET.LIST";
                  go "FLOW.LIMIT.LIST"] then 0
  else if listed name [go "FLOW.ATTRIBUTE_VALUES"; go "FLOW.EXTEND_LEASE"; go "FLOW.COMPLETE";
                       go "FLOW.RETRY"; go "FLOW.FAIL"] then 2
  else if bool_decide (name = go "FLOW.TRANSITION") then 3
  else if bool_decide (name = go "FLOW.STEP_CONTINUE") then 4
  else 1.

(** [nextFlowOption]: the arguments from the next option on. *)
Definition nextFlowOption (name : gstr) (l : list arg) : list arg :=
  match l with
  | [] => []
  | token :: rest =>
      if is_part (go "ATTRIBUTE") token || is_part (go "ATTRIBUTE_MERGE") token ||
         is_part (go "VALUE_REF") token || is_part (go "STATE_META") token then drop 3 l
      else if is_part (go "VALUE") token then
        if listed name flowValueReturnCommands then drop 2 l else drop 3 l
      else if is_part (go "ITEMS") token || is_part (go "ITEMS_EXT") token ||
              is_part (go "ITEMS_MAPS") token then []
      else if is_part (go "PARTITIONS") token then
        match rest with
        | [] => []
        | count :: rest =>
            match boundedRoutingCount count (blen rest) true with
            | Some n => bdrop n rest
            | None => []
            end
        end
      else drop 2 l
  end.

(** The suffixes the loop [for idx := start; idx < len(args); idx = next] visits. *)
Fixpoint flowOptions (fuel : nat) (name : gstr) (l : list arg) : list (list arg) :=
  match fuel, l with
  | S fuel, _ :: _ => l :: flowOptions fuel name (nextFlowOption name l)
  | _, _ => []
  end.

Definition flowOptionsFrom (name : gstr) (args : list arg) (start : nat) : list (list arg) :=
  flowOptions (length args) name (drop start args).

Definition partitionKey (claim : bool) (value : arg) : option routingKey :=
  if claim then flowClaimPartitionRoutingKey value else flowLogicalPartitionRoutingKey value.

(** The body of the loop of [flowPartitionRoutingKey] at one option; [None]
    when the loop goes on, otherwise the returned key. *)
Definition partitionOption (claim : bool) (option_ : list arg) : option (option routingKey) :=
  match option_ with
  | token :: rest =>
      if is_part (go "PARTITION") token then
        Some (match rest with
              | value :: _ => if argRouteKey value then partitionKey claim value else None
              | [] => None
              end)
      else if is_part (go "PARTITIONS") token then
        Some (match rest with
              | count :: rest =>
                  if (argInt64 count <? 0) || (blen rest <? argInt64 count) then None
                  else
                    match mapM (partitionKey claim) (btake (argInt64 count) rest) with
                    | Some keys => singleShardKey keys
                    | None => None
                    end
              | [] => None
              end)
      else None
  | [] => None
  end.

Fixpoint first_some {A B} (f : A -> option B) (l : list A) : option B :=
  match l with
  | [] => None
  | a :: l => match f a with Some b => Some b | None => first_some f l end
  end.

Definition flowPartitionRoutingKey (name : gstr) (args : list arg) (start : nat) (claim : bool)
  : option routingKey :=
  match first_some (partitionOption claim) (flowOptionsFrom name args start) with
  | Some key => key
  | None => None
  end.

Definition flowHasPartitionOption (name : gstr) (args : list arg) (start : nat) : bool :=
  existsb (fun l => match l with
                    | token :: _ => is_part (go "PARTITION") token || is_part (go "PARTITIONS") token
                    | [] => false
                    end) (flowOptionsFrom name args start).

(** [flowNamedOption]: the value after the option, when it is a route key. *)
Definition flowNamedOption (name : gstr) (args : list arg) (start : nat) (wanted : gstr)
  : option arg :=
  match first_some (fun l => match l with
                             | token :: value :: _ =>
                                 if is_part wanted token then Some value else None
                             | _ => None
                             end) (flowOptionsFrom name args start) with
  | Some value => if argRouteKey value then Some value else None
  | None => None
  end.

Definition flowValueMGetRoutingRefs (args : list arg) : list arg :=
  match rev args with
  | limit :: token :: refs =>
      if is_part (go "MAX_BYTES") token || is_part (go "MAXBYTES") token then
        match limit with
        | Arg v =>
            match topologyInteger v with
            | Some maximum => if maximum <? 0 then args else rev refs
            | None => args
            end
        | ArgMarker _ => args
        end
      else args
  | _ => args
  end.

Definition flowRoutingKey (name : gstr) (args : list arg) : option routingKey :=
  if bool_decide (name = go "FLOW.QUERY") || bool_decide (name = go "FLOW.QUERY.INDEXES") then None
  else
  match tail args with
  | [] => None
  | (first :: _) as flowArgs =>
      if bool_decide (name = go "FLOW.VALUE.MGET")
      then singleShardKey (KeyArg <$> flowValueMGetRoutingRefs flowArgs)
      else if listed name flowScheduleCommands then None
      else if listed name flowApprovalIDCommands || listed name flowGovernanceScopeCommands
      then flowLogicalPartitionRoutingKey first
      else if listed name flowManyCommands then
        if negb (argRouteKey first) || is_part (go "AUTO") first || is_part (go "MIXED") first
        then None
        else flowLogicalPartitionRoutingKey first
      else
        let claim := listed name [go "FLOW.CLAIM_DUE"; go "FLOW.RECLAIM"] in
        let optionStart := flowOptionStart name in
        match flowPartitionRoutingKey name flowArgs optionStart claim with
        | Some key => Some key
        | None =>
            if flowHasPartitionOption name flowArgs optionStart then None
            else if bool_decide (name = go "FLOW.VALUE.PUT") then
              match flowNamedOption name flowArgs optionStart (go "OWNER_FLOW_ID"),
                    flowNamedOption name flowArgs optionStart (go "NAME") with
              | Some owner, Some _ => flowAutoIDRoutingKey owner
              | _, _ => None
              end
            else if listed name typeScopedFlowCommands then None
            else if listed name flowStateIDCommands then flowAutoIDRoutingKey first
            else None
        end
  end.

(** [routingKeyFromArgs]. *)
Definition routingKeyFromArgs (name : gstr) (args : list arg) : option routingKey :=
  if has_prefix (go "FLOW.") name then flowRoutingKey name args
  else
    match topologyPolicyKeys name args with
    | Some (keys, _) => singleShardKey (KeyArg <$> keys)
    | None => None
    end.

(** ** Reserved keys *)

Definition reservedFlowTag (tag : gstr) : bool :=
  bool_decide (tag = go "f") || bool_decide (tag = go "flow-governance") ||
  match cut_prefix (go "fa:") tag with
  | Some bucket => bucketText bucket
  | None =>
      existsb (fun prefix =>
        match cut_prefix prefix tag with
        | Some digest =>
            (blen digest =? 43) &&
            match base64_decode digest with
            | Some decoded =>
                (blen decoded =? 32) && bool_decide (base64_encode decoded = digest)
            | None => false
            end
        | None => false
        end) [go "f:"; go "fgc:"]
  end.

Definition reservedFlowInternalKey (key : gstr) : bool :=
  match cut_prefix (go "f:{") key with
  | None => false
  | Some rest =>
      match cut_byte x7d rest with
      | Some ((_ :: _) as tag, suffix) =>
          if bool_decide (suffix = []) || has_prefix (go ":") suffix then reservedFlowTag tag
          else false
      | _ => false
      end
  end.

Definition internalCompoundKeyPrefixes : list gstr :=
  [go "H:"; go "L:"; go "S:"; go "Z:"; go "X:"; go "XM:"; go "XG:"; go "T:";
   go "V:"; go "VM:"; go "PM:"; go "LM:"; go "FC:"].

Definition reservedInternalKeyString (key : gstr) : bool :=
  has_prefix (go "f:{__server__}:catalog:") key || reservedFlowInternalKey key ||
  existsb (fun prefix => has_prefix prefix key) internalCompoundKeyPrefixes.

Definition maxStringKeyBytesV080 : Z := 65535.

Inductive keyError := ReservedInternalKey | EmptyStringKey | StringKeyTooLarge.

Definition validateStringKeyV080 (key : gstr) : result keyError unit :=
  if bool_decide (key = []) then Err EmptyStringKey
  else if maxStringKeyBytesV080 <? blen key then Err StringKeyTooLarge
  else Ok tt.

Definition validatePublicStringKey (key : gstr) : result keyError unit :=
  if reservedInternalKeyString key then Err ReservedInternalKey else Ok tt.

Definition validatePublicV080StringKey (key : gstr) : result keyError unit :=
  let! _ := validatePublicStringKey key in validateStringKeyV080 key.

Definition validatePublicStringKeys (keys : list gstr) : result keyError unit :=
  rfold (fun _ key => validatePublicStringKey key) tt keys.

Definition validatePublicV080StringKeys (keys : list gstr) : result keyError unit :=
  rfold (fun _ key => validatePublicV080StringKey key) tt keys.

Definition v080ValidatesStringCommandKeys (name : gstr) : bool :=
  listed name [go "GET"; go "SET"; go "MSET"; go "MSETNX"].

(** The [COMMAND GETKEYS] loop of [publicIntrospectionKeys]: every turn strips
    at least the two leading arguments. *)
Fixpoint getKeysLoop (fuel : nat) (name : gstr) (args : list arg)
  : gstr * list arg * option (option (list arg)) :=
  match fuel, args with
  | S fuel, _ :: sub :: (_ :: _) as inner =>
      if bool_decide (name = go "COMMAND") && is_part (go "GETKEYS") sub then
        let args := canonicalCommandArgs inner in
        match args with
        | [] => (name, args, Some None)
        | _ =>
            let name := commandName args in
            match topologyPolicyKeys name args with
            | Some (keys, _) => (name, args, Some (Some keys))
            | None => getKeysLoop fuel name args
            end
        end
      else (name, args, None)
  | _, _ => (name, args, None)
  end.

Definition publicIntrospectionKeys (name : gstr) (args : list arg) : option (list arg) :=
  match getKeysLoop (length args) name args with
  | (_, _, Some keys) => keys
  | (name, args, None) =>
      if listed name [go "CLUSTER.KEYSLOT"; go "ROUTE"] then
        match args with _ :: key :: _ => Some [key] | _ => None end
      else if bool_decide (name = go "ROUTE_BATCH") then
        match args with _ :: (_ :: _) as keys => Some keys | _ => None end
      else None
  end.

(** The key loop of [validatePublicCommandKeys]. *)
Definition validateKey (validateStringKey : bool) (key : arg) : result keyError unit :=
  match argText key with
  | Some text =>
      if reservedInternalKeyString text then Err ReservedInternalKey
      else if validateStringKey then validateStringKeyV080 text
      else Ok tt
  | None => Ok tt
  end.

Definition validatePublicCommandKeys (args : list arg) : result keyError unit :=
  let args := canonicalCommandArgs args in
  match args with
  | [] => Ok tt
  | _ =>
      let name := commandName args in
      if has_prefix (go "FLOW.") name then Ok tt
      else
        match topologyPolicyKeys name args with
        | Some (keys, _) =>
            rfold (fun _ => validateKey (v080ValidatesStringCommandKeys name)) tt keys
        | None =>
            match publicIntrospectionKeys name args with
            | Some keys => rfold (fun _ => validateKey false) tt keys
            | None => Ok tt
            end
        end
  end.

(** ** Facts *)

(** Membership in a concrete text. *)
Ltac not_in := apply (bool_decide_eq_false_1 _); vm_compute; reflexivity.

Lemma cut_byte_app b p rest : b ∉ p -> cut_byte b (p ++ b :: rest) = Some (p, rest).
Proof.
  induction p as [|x p IH]; cbn [app cut_byte]; intros Hp.
  - by rewrite bool_decide_true.
  - apply not_elem_of_cons in Hp as [Hx Hp]. rewrite bool_decide_false by congruence.
    by rewrite IH.
Qed.

Lemma cut_byte_spec b s p rest : cut_byte b s = Some (p, rest) <-> s = p ++ b :: rest /\ b ∉ p.
Proof.
  split; [|intros [-> ?]; by apply cut_byte_app].
  revert p. induction s as [|x s IH]; intros p; cbn; [done|].
  case_bool_decide as Hx.
  - intros [= <- <-]. subst. split; [done|apply not_elem_of_nil].
  - destruct (cut_byte b s) as [[p' rest']|]; cbn; [|done]. intros [= <- <-].
    destruct (IH p' eq_refl) as [-> Hp]. split; [done|]. apply not_elem_of_cons. split; congruence.
Qed.

Lemma cut_prefix_spec p s rest : cut_prefix p s = Some rest <-> s = p ++ rest.
Proof.
  revert s. induction p as [|x p IH]; intros s; cbn; [naive_solver|].
  destruct s as [|y s]; [by split|]. case_bool_decide; subst; [|naive_solver].
  rewrite IH. naive_solver.
Qed.

Lemma cut_prefix_app p rest : cut_prefix p (p ++ rest) = Some rest.
Proof. by apply cut_prefix_spec. Qed.

Lemma has_prefix_app p rest : has_prefix p (p ++ rest) = true.
Proof. unfold has_prefix. by rewrite cut_prefix_app. Qed.

Lemma hashTagOrKey_tag p tag rest :
  x7b ∉ p -> x7d ∉ tag -> tag <> [] -> hashTagOrKey (p ++ x7b :: tag ++ x7d :: rest) = tag.
Proof.
  intros Hp Ht Hne. unfold hashTagOrKey. rewrite cut_byte_app by done.
  rewrite cut_byte_app by done. by destruct tag.
Qed.

(** The prefix cases of [routeSlotForString] agree with the generic rule. *)
Lemma flowHashTag_generic p rest :
  x7b ∉ p -> flowHashTag rest (p ++ x7b :: rest) = hashTagOrKey (p ++ x7b :: rest).
Proof.
  intros Hp. unfold flowHashTag, hashTagOrKey. rewrite cut_byte_app by done.
  by destruct (cut_byte x7d rest) as [[[|] ?]|].
Qed.

Lemma routeSlotForString_generic text :
  routeSlotForString text = flowTagRoutingSlot (hashTagOrKey text).
Proof.
  unfold routeSlotForString, flowTagRoutingSlot. do 2 f_equal.
  destruct (cut_prefix (go "f:{") text) as [rest|] eqn:E1.
  - apply cut_prefix_spec in E1 as ->.
    apply (flowHashTag_generic (go "f:") rest). not_in.
  - destruct (cut_prefix (go "X:f:{") text) as [rest|] eqn:E2; [|done].
    apply cut_prefix_spec in E2 as ->.
    apply (flowHashTag_generic (go "X:f:") rest). not_in.
Qed.

Lemma flowTagRoutingSlot_range tag : 0 <= flowTagRoutingSlot tag < routeSlotCount.
Proof.
  unfold flowTagRoutingSlot, routeSlotMask, routeSlotCount. change (1024 - 1) with (Z.ones 10).
  rewrite Z.land_ones by lia. apply Z.mod_pos_bound. lia.
Qed.

Lemma sameSlotAs_spec slot keys :
  sameSlotAs slot keys = true <-> forall k, k ∈ keys -> routingTargetSlot k = Some slot.
Proof.
  induction keys as [|k keys IH]; cbn.
  - split; [|done]. by intros _ k ?%not_elem_of_nil.
  - destruct (routingTargetSlot k) as [s|] eqn:Hs; cbn.
    + rewrite andb_true_iff, IH, Z.eqb_eq. split.
      * intros [-> H] k' [->|Hk]%elem_of_cons; auto.
      * intros H. split; [|intros; apply H; by right].
        specialize (H k ltac:(left)). congruence.
    + split; [done|]. intros H. specialize (H k ltac:(left)). congruence.
Qed.

Lemma length_base64_encode l : length (base64_encode l) = ((length l * 4 + 2) / 3)%nat.
Proof.
  induction l as [[|a [|b [|c l]]] IH] using list_len_ind; try done.
  cbn [base64_encode length]. rewrite IH by (cbn; lia).
  replace (S (S (S (length l))) * 4 + 2)%nat with ((length l * 4 + 2) + 4 * 3)%nat by lia.
  rewrite Nat.div_add by lia. lia.
Qed.

Lemma length_sha_round s kw : length (sha_round s kw) = length s.
Proof. unfold sha_round. by repeat (destruct s as [|? s]; try done). Qed.

Lemma length_sha_rounds kws s : length (fold_left sha_round kws s) = length s.
Proof. revert s. induction kws as [|kw kws IH]; intros s; cbn [fold_left]; [done|]. by rewrite IH, length_sha_round. Qed.

Lemma length_sha_blocks n s l : length (sha_blocks n s l) = length s.
Proof.
  revert s l. induction n as [|n IH]; intros s l; cbn [sha_blocks]; [done|].
  rewrite IH. unfold sha_block. rewrite length_zip_with, length_sha_rounds. lia.
Qed.

Lemma length_sha256 l : length (sha256 l) = 32%nat.
Proof.
  unfold sha256. pose proof (length_sha_blocks (length (sha_pad l) / 64) sha_h0 (sha_pad l)) as H.
  change (length sha_h0) with 8%nat in H. revert H. generalize (sha_blocks (length (sha_pad l) / 64) sha_h0 (sha_pad l)).
  intros s H. do 8 (destruct s as [|? s]; [done|]). destruct s; [|done].
  cbn [fmap list_fmap concat]. rewrite !length_app, !length_be_encode. done.
Qed.

(** *** Tags of Flow partitions *)

Definition flow_tag_ok (tag : gstr) : Prop :=
  tag <> [] /\ x7d ∉ tag /\ reservedFlowTag tag = true.

Lemma digits_no_brace fuel n acc : 0 <= n -> x7d ∉ acc -> x7d ∉ digits_fuel fuel n acc.
Proof.
  revert n acc. induction fuel as [|fuel IH]; intros n acc Hn Hacc; cbn; [done|].
  assert (x7d ∉ Zbyte (48 + n mod 10) :: acc) as H.
  { apply not_elem_of_cons. split; [|done]. intros Hb.
    apply (f_equal byteZ) in Hb. pose proof (Z.mod_pos_bound n 10 ltac:(lia)).
    rewrite Zbyte_small in Hb by lia. cbn in Hb. lia. }
  destruct (n <? 10); [done|]. apply IH; [apply Z.div_pos; lia|done].
Qed.

Lemma bucketText_spec text :
  bucketText text = true -> exists bucket, 0 <= bucket < 256 /\ text = format_int bucket.
Proof.
  unfold bucketText. destruct (parse_int64 text) as [bucket| |]; try done.
  intros H. z_tests. exists bucket. split; [lia|done].
Qed.

Lemma bucketText_format bucket : 0 <= bucket < 256 -> bucketText (format_int bucket) = true.
Proof.
  intros H. unfold bucketText. rewrite parse_format_int by (unfold max_int64; lia).
  rewrite bool_decide_true by done. rewrite (proj2 (Z.leb_le _ _)), (proj2 (Z.ltb_lt _ _)) by lia. done.
Qed.

Lemma format_int_no_brace n : 0 <= n -> x7d ∉ format_int n.
Proof.
  intros Hn. unfold format_int, format_nat. destruct (Z.ltb_spec n 0); [lia|].
  apply digits_no_brace; [done|apply not_elem_of_nil].
Qed.

Lemma flow_tag_bucket bucket : 0 <= bucket < 256 -> flow_tag_ok (go "fa:" ++ format_int bucket).
Proof.
  intros H. split_and!; [done| |].
  - apply not_elem_of_app. split; [|apply format_int_no_brace; lia].
    not_in.
  - unfold reservedFlowTag. rewrite cut_prefix_app, bucketText_format by done. apply orb_true_r.
Qed.

Lemma flow_tag_digest text : flow_tag_ok (go "f:" ++ base64_encode (sha256 text)).
Proof.
  split_and!; [done| |].
  - apply not_elem_of_app. split; [|by apply base64_encode_not].
    not_in.
  - unfold reservedFlowTag.
    assert (cut_prefix (go "fa:") (go "f:" ++ base64_encode (sha256 text)) = None) as -> by done.
    cbn [existsb]. rewrite cut_prefix_app, base64_roundtrip.
    assert (blen (sha256 text) = 32) as -> by (unfold blen; by rewrite length_sha256).
    assert (blen (base64_encode (sha256 text)) = 43) as ->.
    { unfold blen. by rewrite length_base64_encode, length_sha256. }
    rewrite (bool_decide_true (base64_encode (sha256 text) = _)) by done. apply orb_true_r.
Qed.

Lemma logicalPartitionTag_ok text : flow_tag_ok (logicalPartitionTag text).
Proof.
  unfold logicalPartitionTag. destruct (cut_prefix _ text) as [bucket|]; [|apply flow_tag_digest].
  destruct (bucketText bucket) eqn:Hb; [|apply flow_tag_digest].
  apply bucketText_spec in Hb as (n & Hn & ->). by apply flow_tag_bucket.
Qed.

Lemma autoIDTag_ok id : flow_tag_ok (autoIDTag id).
Proof.
  apply flow_tag_bucket. change 255 with (Z.ones 8). rewrite Z.land_ones by lia.
  apply Z.mod_pos_bound. lia.
Qed.

Lemma flow_tag_global : flow_tag_ok (go "f").
Proof.
  split_and!; [done| |done]. not_in.
Qed.

Lemma flow_tag_slot tag suffix :
  flow_tag_ok tag ->
  routeSlotForString (go "f:{" ++ tag ++ go "}" ++ suffix) = flowTagRoutingSlot tag.
Proof.
  intros (Hne & Hb & _). rewrite routeSlotForString_generic. f_equal.
  apply (hashTagOrKey_tag (go "f:") tag suffix); [not_in|done|done].
Qed.

Lemma flow_tag_reserved tag suffix :
  flow_tag_ok tag ->
  reservedInternalKeyString (go "f:{" ++ tag ++ go "}:" ++ suffix) = true.
Proof.
  intros (Hne & Hb & Hr). unfold reservedInternalKeyString.
  assert (reservedFlowInternalKey (go "f:{" ++ tag ++ go "}:" ++ suffix) = true) as ->;
    [|by rewrite orb_true_r].
  unfold reservedFlowInternalKey. rewrite cut_prefix_app.
  change (tag ++ go "}:" ++ suffix) with (tag ++ x7d :: go ":" ++ suffix).
  rewrite cut_byte_app by done. rewrite has_prefix_app, orb_true_r. by destruct tag.
Qed.

(** A slot chosen by the Flow rules is the slot of the Flow's storage keys. *)
Definition flow_slot (key : routingKey) : Prop :=
  exists tag, key = KeySlot (flowTagRoutingSlot tag) /\ flow_tag_ok tag.

Lemma flow_slot_logical a key : flowLogicalPartitionRoutingKey a = Some key -> flow_slot key.
Proof.
  unfold flowLogicalPartitionRoutingKey. destruct (argRouteKey a); [|done].
  intros [= <-]. eexists. split; [done|apply logicalPartitionTag_ok].
Qed.

Lemma flow_slot_auto a key : flowAutoIDRoutingKey a = Some key -> flow_slot key.
Proof.
  unfold flowAutoIDRoutingKey. destruct (argRouteKey a); [|done].
  intros [= <-]. eexists. split; [done|apply autoIDTag_ok].
Qed.

Lemma flow_slot_partition claim a key : partitionKey claim a = Some key -> flow_slot key.
Proof.
  unfold partitionKey, flowClaimPartitionRoutingKey.
  destruct claim; [|apply flow_slot_logical]. destruct (argRouteKey a); [|done].
  destruct (_ || _); [done|]. destruct (is_part _ a); [|apply flow_slot_logical].
  intros [= <-]. eexists. split; [done|apply flow_tag_global].
Qed.

Lemma singleShardKey_elem keys key : singleShardKey keys = Some key -> key ∈ keys.
Proof.
  destruct keys as [|k keys]; [done|]. cbn. destruct (routingTargetSlot k); [|done].
  destruct (sameSlotAs _ _); [|done]. intros [= <-]. left.
Qed.

Lemma flow_slot_options claim name args start key :
  flowPartitionRoutingKey name args start claim = Some key -> flow_slot key.
Proof.
  unfold flowPartitionRoutingKey. generalize (flowOptionsFrom name args start). intros l.
  induction l as [|o l IH]; cbn; [done|].
  destruct (partitionOption claim o) as [r|] eqn:Ho; [|done]. intros ->. clear IH.
  destruct o as [|token rest]; [done|]. cbn in Ho.
  destruct (is_part (go "PARTITION") token); simplify_eq.
  - destruct rest as [|value rest]; [done|]. destruct (argRouteKey value); [|done].
    by apply flow_slot_partition in Ho.
  - destruct (is_part (go "PARTITIONS") token); simplify_eq.
    destruct rest as [|count rest]; [done|]. destruct (_ || _); [done|].
    destruct (mapM (partitionKey claim) _) as [keys|] eqn:Hk; [|done].
    apply singleShardKey_elem in Ho. apply mapM_Some in Hk.
    apply (Forall2_Forall_r _ flow_slot) in Hk.
    + rewrite Forall_forall in Hk. by apply Hk.
    + apply Forall_forall. intros a _ k. apply flow_slot_partition.
Qed.

Lemma elem_of_mget_refs a l : a ∈ flowValueMGetRoutingRefs l -> a ∈ l.
Proof.
  unfold flowValueMGetRoutingRefs.
  destruct (rev l) as [|limit [|token refs]] eqn:Hr; try (by intros).
  destruct (_ || _); [|by intros]. destruct limit as [v|]; [|by intros].
  destruct (topologyInteger v) as [m|]; [|by intros]. destruct (m <? 0); [by intros|].
  intros Ha. rewrite <- (rev_involutive l), Hr. cbn. rewrite !elem_of_app. by left; left.
Qed.

Lemma flow_key_shape name args key :
  flowRoutingKey name args = Some key ->
  flow_slot key \/ exists a, key = KeyArg a /\ a ∈ tail args.
Proof.
  unfold flowRoutingKey. destruct (_ || _); [done|].
  destruct (tail args) as [|first rest]; [done|].
  destruct (bool_decide (name = go "FLOW.VALUE.MGET")).
  { intros Hk%singleShardKey_elem. apply list_elem_of_fmap in Hk as (a & -> & Ha).
    right. exists a. split; [done|]. exact (elem_of_mget_refs _ _ Ha). }
  destruct (listed name flowScheduleCommands); [done|].
  destruct (_ || _); [intros ?%flow_slot_logical; by left|].
  destruct (listed name flowManyCommands).
  { destruct (_ || _); [done|]. intros ?%flow_slot_logical. by left. }
  destruct (flowPartitionRoutingKey _ _ _ _) eqn:Hp.
  { intros [= <-]. left. by eapply flow_slot_options. }
  destruct (flowHasPartitionOption _ _ _); [done|].
  destruct (bool_decide (name = go "FLOW.VALUE.PUT")).
  { destruct (flowNamedOption _ _ _ (go "OWNER_FLOW_ID")); [|done].
    destruct (flowNamedOption _ _ _ (go "NAME")); [|done]. intros ?%flow_slot_auto. by left. }
  destruct (listed name typeScopedFlowCommands); [done|].
  destruct (listed name flowStateIDCommands); [|done]. intros ?%flow_slot_auto. by left.
Qed.

Lemma nextFlowOption_shorter name l :
  l <> [] -> (length (nextFlowOption name l) < length l)%nat.
Proof.
  destruct l as [|token rest]; [done|]. intros _. cbn [nextFlowOption].
  assert (forall n, (length (drop (S n) (token :: rest)) < length (token :: rest))%nat) as Hd.
  { intros n. rewrite length_drop. cbn. lia. }
  repeat match goal with |- context [if ?b then _ else _] => destruct b end;
    try apply Hd; try (cbn; lia).
  destruct rest as [|count rest]; [cbn; lia|].
  destruct (boundedRoutingCount _ _ _); [|cbn; lia].
  unfold bdrop. rewrite length_drop. cbn. lia.
Qed.

Lemma flowOptions_fuel name n1 : forall n2 l,
  (length l <= n1)%nat -> (length l <= n2)%nat -> flowOptions n1 name l = flowOptions n2 name l.
Proof.
  induction n1 as [|n1 IH]; intros [|n2] [|a l] H1 H2; cbn in H1, H2; try done; try lia.
  cbn [flowOptions]. f_equal.
  pose proof (nextFlowOption_shorter name (a :: l) ltac:(done)) as Hs. cbn [length] in Hs.
  apply IH; lia.
Qed.

(** ** Properties *)

(** Every key's slot is the CRC-32 of its hash tag, the special cases for
    Flow keys included: the slot function is the generic hash-tag rule over the
    bit-serial CRC-32, and lies in the slot range. *)
Theorem slot_of_key text :
  routeSlotForString text = Z.land (crc32_serial (hashTagOrKey text)) 1023 /\
  0 <= routeSlotForString text < routeSlotCount.
Proof.
  rewrite routeSlotForString_generic. split; [|apply flowTagRoutingSlot_range].
  unfold flowTagRoutingSlot. by rewrite routeCRC32_serial.
Qed.

(** Keys with the same hash tag share a slot, whatever surrounds the tag. *)
Theorem hash_tag_colocates p1 p2 tag s1 s2 :
  x7b ∉ p1 -> x7b ∉ p2 -> x7d ∉ tag -> tag <> [] ->
  routeSlotForString (p1 ++ x7b :: tag ++ x7d :: s1) =
  routeSlotForString (p2 ++ x7b :: tag ++ x7d :: s2).
Proof. intros. by rewrite !routeSlotForString_generic, !hashTagOrKey_tag. Qed.

Lemma hash_tag_colocates_witness :
  routeSlotForString (go "user:{42}:name") = routeSlotForString (go "X:f:{42}").
Proof.
  apply (hash_tag_colocates (go "user:") (go "X:f:") (go "42") (go ":name") []);
    try not_in; done.
Defined.

(** The slot a Flow command is sent to is the slot of keys that hold flows, and those keys are reserved, so that no key command can
    reach them; only the references of FLOW.VALUE.MGET are routed as keys. *)
Theorem flow_routing_matches_storage name args key :
  flowRoutingKey name args = Some key ->
  (exists tag, key = KeySlot (flowTagRoutingSlot tag) /\
    forall suffix,
      routeSlotForString (go "f:{" ++ tag ++ go "}:" ++ suffix) = flowTagRoutingSlot tag /\
      reservedInternalKeyString (go "f:{" ++ tag ++ go "}:" ++ suffix) = true) \/
  exists a, key = KeyArg a /\ a ∈ tail args.
Proof.
  intros [(tag & -> & Hok)|H]%flow_key_shape; [left|by right].
  exists tag. split; [done|]. intros suffix.
  split; [apply (flow_tag_slot tag (go ":" ++ suffix)); done|by apply flow_tag_reserved].
Qed.

Lemma flow_routing_matches_storage_witness :
  (exists tag, KeySlot 794 = KeySlot (flowTagRoutingSlot tag) /\
    forall suffix,
      routeSlotForString (go "f:{" ++ tag ++ go "}:" ++ suffix) = flowTagRoutingSlot tag /\
      reservedInternalKeyString (go "f:{" ++ tag ++ go "}:" ++ suffix) = true) \/
  exists a, KeySlot 794 = KeyArg a /\
    a ∈ tail [Arg (VString (go "FLOW.GET")); Arg (VString (go "order-1"))].
Proof.
  apply (flow_routing_matches_storage (go "FLOW.GET")
    [Arg (VString (go "FLOW.GET")); Arg (VString (go "order-1"))]).
  vm_compute. reflexivity.
Defined.

(** A group of keys has a routing key exactly when all of them have a slot
    and the slots agree; the first key is then the one used. *)
Theorem single_shard_exact keys key :
  singleShardKey keys = Some key <->
  head keys = Some key /\
  exists slot, forall k, k ∈ keys -> routingTargetSlot k = Some slot.
Proof.
  destruct keys as [|k keys]; cbn; [split; [done|by intros [? _]]|].
  destruct (routingTargetSlot k) as [slot|] eqn:Hk.
  - destruct (sameSlotAs slot keys) eqn:Hs; split.
    + intros [= <-]. split; [done|]. exists slot. rewrite sameSlotAs_spec in Hs.
      intros k' [->|?]%elem_of_cons; auto.
    + by intros [[= <-] _].
    + done.
    + intros [_ [s H]]. pose proof (H k ltac:(left)). simplify_eq.
      assert (sameSlotAs slot keys = true); [|congruence].
      apply sameSlotAs_spec. intros k' Hin. apply H. by right.
  - split; [done|]. intros [_ [s H]]. specialize (H k ltac:(left)). congruence.
Qed.

(** A command that passes key validation names no reserved key: of a
    command of the table (outside FLOW) no key is reserved, and the keys of the
    string commands are non-empty and within the size limit. *)
Theorem validated_keys_public args keys policy :
  let args' := canonicalCommandArgs args in
  validatePublicCommandKeys args = Ok tt ->
  has_prefix (go "FLOW.") (commandName args') = false ->
  topologyPolicyKeys (commandName args') args' = Some (keys, policy) ->
  forall key text, key ∈ keys -> argText key = Some text ->
    reservedInternalKeyString text = false /\
    (v080ValidatesStringCommandKeys (commandName args') = true ->
     text <> [] /\ blen text <= maxStringKeyBytesV080).
Proof.
  intros args'. unfold validatePublicCommandKeys. fold args'. intros Hv Hflow Hkeys key text Hin Ht.
  destruct args' as [|a l] eqn:Ha; [done|]. rewrite Hflow, Hkeys in Hv.
  revert Hv. generalize (v080ValidatesStringCommandKeys (commandName (a :: l))).
  intros b Hv. clear - Hv Hin Ht. induction keys as [|k ks IH]; [by apply not_elem_of_nil in Hin|].
  cbn in Hv. apply rbind_ok in Hv as ([] & Hk & Hv).
  apply elem_of_cons in Hin as [<-|Hin]; [|by apply IH]. clear - Hk Ht.
  unfold validateKey in Hk. rewrite Ht in Hk.
  destruct (reservedInternalKeyString text); [done|]. split; [done|]. intros ->.
  unfold validateStringKeyV080 in Hk. case_bool_decide; [done|].
  destruct (Z.ltb_spec maxStringKeyBytesV080 (blen text)); [done|]. done.
Qed.

Lemma validated_keys_public_witness :
  reservedInternalKeyString (go "user") = false /\
  (v080ValidatesStringCommandKeys (go "GET") = true ->
   go "user" <> [] /\ blen (go "user") <= maxStringKeyBytesV080).
Proof.
  apply (validated_keys_public [Arg (VString (go "get")); Arg (VString (go "user"))]
    [Arg (VString (go "user"))] (Policy KeysFirst false false false)) with (key := Arg (VString (go "user")));
    try (vm_compute; reflexivity). left.
Defined.
