(* ===== verification/Normalize.v ===== *)
(** Normalisation of decoded responses (src/response_map.go,
    src/admin_response.go): maps in their two array forms become maps, nested
    values are copied within a depth bound and an item budget, and the admin
    form turns bytes into text. *)

From S2P Require Export Wire.

Inductive normError :=
| NormTooDeep
| NormTooManyItems
| NormNotMap
| NormMapKey
| NormDuplicateKey (key : gstr)
| NormOddLength.

(** [nativeNormalizeBudget.consume] and [adminNormalizeBudget.consume]. *)
Definition consume (count remaining : Z) : result normError Z :=
  if (count <? 0) || (remaining <? count) then Err NormTooManyItems else Ok (remaining - count).

(** A loop that transforms elements and threads the remaining budget. *)
Definition rmap_budget {E A B} (f : A -> Z -> result E (B * Z)) :
  list A -> Z -> result E (list B * Z) :=
  fix go_items l remaining :=
    match l with
    | [] => Ok ([], remaining)
    | a :: l =>
        let! (b, remaining) := f a remaining in
        let! (bs, remaining) := go_items l remaining in
        Ok (b :: bs, remaining)
    end.

(** [normalizeNativeCheckedDepth], and [nativeMapDepth] on a map. *)
Fixpoint normalizeNativeCheckedDepth (v : val) (depth remaining : Z) : result normError (val * Z) :=
  if nativeMaxDecodeDepth <? depth then Err NormTooDeep
  else match v with
  | VMap _ m =>
      let! remaining := consume (blen m) remaining in
      let! (out, remaining) :=
        rmap_budget (fun kv remaining =>
          let! (v, remaining) := normalizeNativeCheckedDepth kv.2 (depth + 1) remaining in
          Ok ((kv.1, v), remaining)) m remaining in
      Ok (VMap None out, remaining)
  | VArray _ l =>
      let! remaining := consume (blen l) remaining in
      let! (out, remaining) :=
        rmap_budget (fun v remaining => normalizeNativeCheckedDepth v (depth + 1) remaining) l remaining in
      Ok (VArray None out, remaining)
  | _ => Ok (v, remaining)
  end.

Definition nativeMapKey (v : val) : result normError gstr :=
  match v with VString s | VBytes s => Ok s | _ => Err NormMapKey end.

Definition is_pair (v : val) : bool :=
  match v with VArray _ [_; _] => true | _ => false end.

Definition allPairs (items : list val) : bool := forallb is_pair items.

(** One entry of an array form, at the depth of its value; a pair's own two
    elements are charged. *)
Definition addEntry (charge : bool) (depth : Z) (st : list (gstr * val) * Z) (kv : val * val)
  : result normError (list (gstr * val) * Z) :=
  let! remaining := if charge then consume 2 st.2 else Ok st.2 in
  let! key := nativeMapKey kv.1 in
  if assoc_has key st.1 then Err (NormDuplicateKey key)
  else
    let! (v, remaining) := normalizeNativeCheckedDepth kv.2 depth remaining in
    Ok (st.1 ++ [(key, v)], remaining).

(** The two elements of each pair. *)
Definition pair_entries (items : list val) : list (val * val) :=
  omap (fun v => match v with VArray _ [k; w] => Some (k, w) | _ => None end) items.

(** [pairArrayMapDepth]. *)
Definition pairArrayMapDepth (items : list val) (depth remaining : Z)
  : result normError (list (gstr * val) * Z) :=
  if nativeMaxDecodeDepth <? depth then Err NormTooDeep
  else
    let! remaining := consume (blen items) remaining in
    if bool_decide (items = []) then Ok ([], remaining)
    else if allPairs items then rfold (addEntry true (depth + 2)) ([], remaining) (pair_entries items)
    else if negb (blen items mod 2 =? 0) then Err NormOddLength
    else rfold (addEntry false (depth + 1)) ([], remaining) (pair_up items).

(** [nativeMapDepth]. *)
Definition nativeMapDepth (v : val) (depth remaining : Z)
  : result normError (list (gstr * val) * Z) :=
  if nativeMaxDecodeDepth <? depth then Err NormTooDeep
  else match v with
  | VMap _ m =>
      let! remaining := consume (blen m) remaining in
      rmap_budget (fun kv remaining =>
        let! (v, remaining) := normalizeNativeCheckedDepth kv.2 (depth + 1) remaining in
        Ok ((kv.1, v), remaining)) m remaining
  | VArray _ l => pairArrayMapDepth l depth remaining
  | _ => Err NormNotMap
  end.

(** [nativeMap]. *)
Definition nativeMap (v : val) : result normError (list (gstr * val)) :=
  let! (m, _) := nativeMapDepth v 0 nativeMaxContainerItems in Ok m.

(** [normalizeAdminResponseDepth]. *)
Fixpoint normalizeAdminResponseDepth (v : val) (depth remaining : Z) : result normError (val * Z) :=
  if nativeMaxDecodeDepth <? depth then Err NormTooDeep
  else match v with
  | VBytes s => Ok (VString s, remaining)
  | VArray _ l =>
      let! remaining := consume (blen l) remaining in
      let! (out, remaining) :=
        rmap_budget (fun v remaining => normalizeAdminResponseDepth v (depth + 1) remaining) l remaining in
      Ok (VArray None out, remaining)
  | VMap _ m =>
      let! remaining := consume (blen m) remaining in
      let! (out, remaining) :=
        rmap_budget (fun kv remaining =>
          let! (v, remaining) := normalizeAdminResponseDepth kv.2 (depth + 1) remaining in
          Ok ((kv.1, v), remaining)) m remaining in
      Ok (VMap None out, remaining)
  | _ => Ok (v, remaining)
  end.

(** [normalizeAdminResponse]. *)
Definition normalizeAdminResponse (v : val) : result normError val :=
  let! (v, _) := normalizeAdminResponseDepth v 0 nativeMaxContainerItems in Ok v.

(** ** What normalisation computes *)

(** The value without container identities, bytes read as text or kept. *)
Fixpoint plain (text : bool) (v : val) : val :=
  match v with
  | VBytes s => if text then VString s else VBytes s
  | VArray _ l => VArray None (plain text <$> l)
  | VMap _ m => VMap None (prod_map id (plain text) <$> m)
  | _ => v
  end.

(** The items charged: every element and entry below the value. *)
Definition children (v : val) : Z := nodes v - 1.

(** [f] copies the value and charges its items, within the depth and the budget. *)
Definition copies {A B} (f : A -> Z -> result normError (B * Z)) (g : A -> B) (cost : A -> Z)
  (fits : A -> Prop) : Prop :=
  forall a remaining, fits a -> cost a <= remaining -> f a remaining = Ok (g a, remaining - cost a).

Lemma consume_ok count remaining :
  0 <= count <= remaining -> consume count remaining = Ok (remaining - count).
Proof.
  intros H. unfold consume.
  destruct (Z.ltb_spec count 0), (Z.ltb_spec remaining count); try lia. done.
Qed.

Lemma rmap_budget_copies {A B} (f : A -> Z -> result normError (B * Z)) g cost l remaining :
  Forall (fun a => 0 <= cost a /\
    forall remaining, cost a <= remaining -> f a remaining = Ok (g a, remaining - cost a)) l ->
  zsum (cost <$> l) <= remaining ->
  rmap_budget f l remaining = Ok (g <$> l, remaining - zsum (cost <$> l)).
Proof.
  intros Hl. revert remaining. induction Hl as [|a l [Hc Ha] Hl IH]; intros remaining Hr; cbn.
  - by rewrite Z.sub_0_r.
  - cbn in Hr. assert (0 <= zsum (cost <$> l)) as Hnn.
    { apply zsum_nonneg. rewrite Forall_fmap. eapply Forall_impl; [exact Hl|]. by intros ? [? _]. }
    unfold zsum in *. rewrite Ha by lia. cbn. rewrite IH by lia. cbn. do 2 f_equal. lia.
Qed.

(** The cost of a container is its length and the cost of its elements. *)
Lemma zsum_children {A} (f : A -> val) (l : list A) :
  zsum ((fun a => nodes (f a)) <$> l) = blen l + zsum ((fun a => children (f a)) <$> l).
Proof.
  induction l as [|a l IH]; [done|]. rewrite blen_cons. cbn. unfold children, zsum in *. lia.
Qed.

Lemma children_nonneg v : 0 <= children v.
Proof. pose proof (nodes_pos v). unfold children. lia. Qed.

Lemma max_list_with_elem {A} (f : A -> nat) l x n :
  x ∈ l -> (max_list_with f l <= n)%nat -> (f x <= n)%nat.
Proof. intros Hx Hn. pose proof (max_list_with_le f l x Hx). lia. Qed.

(** Both normalisers are this recursion over containers; they differ at the
    leaves. *)
Section normaliser.
Context (text : bool) (norm : val -> Z -> Z -> result normError (val * Z)).
Hypothesis norm_array : forall id l depth remaining, depth <= nativeMaxDecodeDepth ->
  norm (VArray id l) depth remaining =
    let! remaining := consume (blen l) remaining in
    let! (out, remaining) := rmap_budget (fun v => norm v (depth + 1)) l remaining in
    Ok (VArray None out, remaining).
Hypothesis norm_map : forall id m depth remaining, depth <= nativeMaxDecodeDepth ->
  norm (VMap id m) depth remaining =
    let! remaining := consume (blen m) remaining in
    let! (out, remaining) :=
      rmap_budget (fun kv remaining =>
        let! (v, remaining) := norm kv.2 (depth + 1) remaining in
        Ok ((kv.1, v), remaining)) m remaining in
    Ok (VMap None out, remaining).
Hypothesis norm_leaf : forall v depth remaining, depth <= nativeMaxDecodeDepth ->
  children v = 0 -> height v = 1%nat -> wire_value v = true ->
  (forall id l, v <> VArray id l) -> (forall id m, v <> VMap id m) ->
  norm v depth remaining = Ok (plain text v, remaining).

Lemma norm_entries_copy (m : list (gstr * val)) depth remaining :
  Forall (fun kv => forall depth remaining, wire_value kv.2 = true ->
    depth + Z.of_nat (height kv.2) <= nativeMaxDecodeDepth + 1 -> children kv.2 <= remaining ->
    norm kv.2 depth remaining = Ok (plain text kv.2, remaining - children kv.2)) m ->
  forallb (fun kv => (blen kv.1 <=? max_uint32) && wire_value kv.2) m = true ->
  depth + Z.of_nat (max_list_with (fun kv => height kv.2) m) <= nativeMaxDecodeDepth ->
  zsum ((fun kv => children kv.2) <$> m) <= remaining ->
  rmap_budget (fun kv remaining =>
      let! (v, remaining) := norm kv.2 (depth + 1) remaining in Ok ((kv.1, v), remaining)) m remaining =
    Ok (prod_map id (plain text) <$> m, remaining - zsum ((fun kv => children kv.2) <$> m)).
Proof using.
  intros IH Hm Hd Hr. apply (rmap_budget_copies _ _ (fun kv => children kv.2)); [|done].
  apply Forall_forall. intros [k v] Hin. split; [apply children_nonneg|]. intros r Hc.
  rewrite forallb_forall in Hm. specialize (Hm (k, v) ltac:(by apply list_elem_of_In)).
  rewrite Forall_forall in IH. pose proof (max_list_with_le (fun kv => height kv.2) m (k, v) Hin).
  cbn in *. z_tests. by rewrite (IH (k, v) Hin) by (cbn; done || lia).
Qed.

Lemma norm_copies v : forall depth remaining,
  wire_value v = true -> depth + Z.of_nat (height v) <= nativeMaxDecodeDepth + 1 ->
  children v <= remaining ->
  norm v depth remaining = Ok (plain text v, remaining - children v).
Proof using norm_array norm_map norm_leaf.
  induction v as [|b|k z|k z|z|s|s|id l IH|id m IH|o IH] using val_nested_ind;
    intros depth remaining Hv Hd Hr; cbn [height] in Hd;
    try (rewrite norm_leaf by (done || lia); do 2 f_equal; unfold children; cbn [nodes]; lia).
  - destruct id; [done|]. cbn [wire_value] in Hv. z_tests. rename select (forallb _ _ = true) into Hl.
    assert (children (VArray None l) = blen l + zsum (children <$> l)) as Hch.
    { unfold children at 1. cbn [nodes]. pose proof (zsum_children (fun v => v) l) as E.
      change (zsum (nodes <$> l) = blen l + zsum (children <$> l)) in E. lia. }
    pose proof (blen_nonneg l).
    assert (0 <= zsum (children <$> l)).
    { apply zsum_nonneg. rewrite Forall_fmap. apply Forall_forall. intros v _. apply children_nonneg. }
    rewrite norm_array, consume_ok by lia. cbn [rbind].
    rewrite (rmap_budget_copies _ (plain text) children); [cbn; do 2 f_equal; lia| |lia].
    apply Forall_forall. intros v Hin. split; [apply children_nonneg|]. intros r Hc.
    rewrite forallb_forall in Hl. specialize (Hl v ltac:(by apply list_elem_of_In)).
    rewrite Forall_forall in IH. apply IH; [done|done| |done].
    pose proof (max_list_with_le height l v Hin). lia.
  - destruct id; [done|]. cbn [wire_value] in Hv. z_tests. rename select (forallb _ _ = true) into Hm.
    assert (children (VMap None m) = blen m + zsum ((fun kv => children kv.2) <$> m)) as Hch.
    { unfold children at 1. cbn [nodes]. rewrite (zsum_children snd m). lia. }
    pose proof (blen_nonneg m).
    assert (0 <= zsum ((fun kv => children kv.2) <$> m)).
    { apply zsum_nonneg. rewrite Forall_fmap. apply Forall_forall. intros v _. apply children_nonneg. }
    rewrite norm_map, consume_ok by lia. cbn [rbind].
    rewrite norm_entries_copy by (done || lia). cbn. do 2 f_equal. lia.
  - done.
Qed.
End normaliser.

Ltac unfold_depth := intros; unfold nativeMaxDecodeDepth in *;
  match goal with |- context [?a <? ?b] => destruct (Z.ltb_spec a b); [lia|done] end.

Lemma normalizeNative_copies v depth remaining :
  wire_value v = true -> depth + Z.of_nat (height v) <= nativeMaxDecodeDepth + 1 ->
  children v <= remaining ->
  normalizeNativeCheckedDepth v depth remaining = Ok (plain false v, remaining - children v).
Proof.
  apply norm_copies.
  - cbn [normalizeNativeCheckedDepth]. unfold_depth.
  - cbn [normalizeNativeCheckedDepth]. unfold_depth.
  - intros [] ? ? ? ? ? ? Ha Hm; try (by cbn [normalizeNativeCheckedDepth]; unfold_depth);
      [by destruct (Ha id l)|by destruct (Hm id m)].
Qed.

Lemma normalizeAdmin_copies v depth remaining :
  wire_value v = true -> depth + Z.of_nat (height v) <= nativeMaxDecodeDepth + 1 ->
  children v <= remaining ->
  normalizeAdminResponseDepth v depth remaining = Ok (plain true v, remaining - children v).
Proof.
  apply norm_copies.
  - cbn [normalizeAdminResponseDepth]. unfold_depth.
  - cbn [normalizeAdminResponseDepth]. unfold_depth.
  - intros [] ? ? ? ? ? ? Ha Hm; try (by cbn [normalizeAdminResponseDepth]; unfold_depth);
      [by destruct (Ha id l)|by destruct (Hm id m)].
Qed.

(** A normaliser that succeeds has copied the value. *)
Lemma rmap_budget_sound {A B} (f : A -> Z -> result normError (B * Z)) g l : forall remaining out remaining',
  Forall (fun a => forall r b r', f a r = Ok (b, r') -> b = g a) l ->
  rmap_budget f l remaining = Ok (out, remaining') -> out = g <$> l.
Proof.
  induction l as [|a l IH]; intros remaining out remaining' Hl; cbn; [by intros [= <- _]|].
  inversion Hl as [|? ? Ha Hl']; subst. intros H.
  apply rbind_ok in H as ([b r1] & Hb & H). apply rbind_ok in H as ([bs r2] & Hbs & [= <- _]).
  apply Ha in Hb as ->. by apply IH in Hbs as ->.
Qed.

Lemma normalizeNative_sound v : forall depth remaining w remaining',
  normalizeNativeCheckedDepth v depth remaining = Ok (w, remaining') -> w = plain false v.
Proof.
  induction v as [|b|k z|k z|z|s|s|id l IH|id m IH|o IH] using val_nested_ind;
    intros depth remaining w remaining'; cbn [normalizeNativeCheckedDepth plain];
    destruct (_ <? depth); try done; try (by intros [= <- _]).
  - intros H. inv_result. f_equal. eapply rmap_budget_sound; [|eassumption].
    eapply Forall_impl; [exact IH|]. cbn. intros v Hv n b n' Hb. by eapply Hv.
  - intros H. inv_result. f_equal. eapply rmap_budget_sound; [|eassumption].
    eapply Forall_impl; [exact IH|]. cbn. intros [k v] Hv n b n' Hb. cbn in *. inv_result.
    simplify_eq. unfold prod_map. cbn. f_equal. by eapply Hv.
Qed.

Lemma nativeMap_sound id m m' : nativeMap (VMap id m) = Ok m' -> m' = prod_map Datatypes.id (plain false) <$> m.
Proof.
  unfold nativeMap, nativeMapDepth. change (nativeMaxDecodeDepth <? 0) with false. cbn iota. intros H. inv_result.
  eapply rmap_budget_sound; [|eassumption]. apply Forall_forall. intros [k v] _ n b n' Hb. cbn in *. inv_result.
  simplify_eq. unfold prod_map. cbn. f_equal. by eapply normalizeNative_sound.
Qed.

(** A decoded value is its own copy. *)
Lemma plain_wire v : wire_value v = true -> plain false v = v.
Proof.
  induction v as [|b|k z|k z|z|s|s|id l IH|id m IH|o IH] using val_nested_ind; try done.
  - destruct id; [done|]. cbn [wire_value plain]. intros H. z_tests. f_equal.
    rename select (forallb _ _ = true) into Hl. rewrite forallb_forall in Hl. rewrite Forall_forall in IH.
    rewrite <- (list_fmap_id l) at 2. apply list_fmap_ext. intros i v Hv. apply IH.
    + by eapply list_elem_of_lookup_2.
    + apply Hl, list_elem_of_In. by eapply list_elem_of_lookup_2.
  - destruct id; [done|]. cbn [wire_value plain]. intros H. z_tests. f_equal.
    rename select (forallb _ _ = true) into Hm. rewrite forallb_forall in Hm. rewrite Forall_forall in IH.
    rewrite <- (list_fmap_id m) at 2. apply list_fmap_ext. intros i [k v] Hv.
    assert ((k, v) ∈ m) as Hin by (by eapply list_elem_of_lookup_2).
    specialize (Hm (k, v) ltac:(by apply list_elem_of_In)). specialize (IH (k, v) Hin). cbn in *. z_tests.
    unfold prod_map. cbn. f_equal. by apply IH.
Qed.

(** ** Properties *)

(** Normalisation never rejects a decoded response: for every value the
    decoder can return, the depth bound and the item budget suffice, and the
    result is the value itself, with its binaries as text in the admin form. *)
Theorem normalize_decoded data v rest :
  decodeNativeValue data = Ok (v, rest) ->
  normalizeAdminResponse v = Ok (plain true v) /\
  forall id m, v = VMap id m -> nativeMap v = Ok (prod_map Datatypes.id (plain false) <$> m).
Proof.
  intros H. apply decodeNativeValue_inv in H as (Hv & Hh & Hn).
  unfold nativeMaxContainerItems in Hn.
  assert (0 + Z.of_nat (height v) <= nativeMaxDecodeDepth + 1) as Hd
    by (unfold nativeMaxDecodeDepth; lia).
  split.
  - unfold normalizeAdminResponse. rewrite normalizeAdmin_copies; [done|done|done|].
    unfold children, nativeMaxContainerItems. lia.
  - intros i m ->. unfold nativeMap.
    pose proof (normalizeNative_copies (VMap i m) 0 nativeMaxContainerItems Hv Hd) as Hc.
    unfold children, nativeMaxContainerItems in *. specialize (Hc ltac:(lia)).
    cbn [normalizeNativeCheckedDepth] in Hc. unfold nativeMapDepth.
    change (nativeMaxDecodeDepth <? 0) with false in *. cbn iota in *.
    apply rbind_ok in Hc as (r & -> & Hc). cbn [rbind].
    apply rbind_ok in Hc as ([out r'] & -> & Hc). cbn. cbn in Hc. by simplify_eq.
Qed.

Lemma normalize_decoded_witness :
  normalizeAdminResponse (VArray None [VBytes (go "a"); VInt IInt64 1]) =
    Ok (VArray None [VString (go "a"); VInt IInt64 1]).
Proof.
  exact (proj1 (normalize_decoded [x05; x00; x00; x00; x02; x04; x00; x00; x00; x01; x61;
    x03; x00; x00; x00; x00; x00; x00; x00; x01]
    (VArray None [VBytes (go "a"); VInt IInt64 1]) [] ltac:(vm_compute; reflexivity))).
Defined.

(** The entries of an array form read one after another. *)
Lemma addEntries_copy (charge : bool) depth (m : list (gstr * val)) : forall st remaining,
  NoDup (keys (st ++ (prod_map Datatypes.id (plain false) <$> m))) ->
  forallb (fun kv => wire_value kv.2) m = true ->
  depth + Z.of_nat (max_list_with (fun kv => height kv.2) m) <= nativeMaxDecodeDepth + 1 ->
  zsum ((fun kv : gstr * val => (if charge then 2 else 0) + children kv.2) <$> m) <= remaining ->
  rfold (addEntry charge depth) (st, remaining) (prod_map VBytes Datatypes.id <$> m) =
    Ok (st ++ (prod_map Datatypes.id (plain false) <$> m),
        remaining - zsum ((fun kv => (if charge then 2 else 0) + children kv.2) <$> m)).
Proof.
  induction m as [|[k v] m IH]; intros st remaining Hnd Hw Hd Hr; cbn.
  - by rewrite app_nil_r, Z.sub_0_r.
  - cbn in Hw, Hd, Hr. z_tests. unfold addEntry at 1. cbn [fst snd].
    assert (0 <= zsum ((fun kv => (if charge then 2 else 0) + children kv.2) <$> m)).
    { apply zsum_nonneg. rewrite Forall_fmap. apply Forall_forall. intros kv _. cbn.
      pose proof (children_nonneg kv.2). destruct charge; lia. }
    pose proof (children_nonneg v). unfold zsum in *.
    assert ((if charge then consume 2 remaining else Ok remaining) =
      Ok (remaining - if charge then 2 else 0)) as ->.
    { destruct charge; [apply consume_ok; lia|]. f_equal. lia. }
    cbn [rbind nativeMapKey].
    assert (assoc_has k st = false) as ->.
    { apply assoc_has_false. unfold keys in *. rewrite fmap_app in Hnd.
      apply NoDup_app in Hnd as (_ & Hd' & _). intros Hin. apply (Hd' k Hin). cbn. left. }
    cbn [negb]. rewrite normalizeNative_copies by (done || (destruct charge; lia)). cbn [rbind].
    rewrite IH.
    + rewrite <- app_assoc. cbn. do 2 f_equal. destruct charge; lia.
    + rewrite <- app_assoc. done.
    + done.
    + lia.
    + destruct charge; lia.
Qed.

(** The two array forms of a map's entries. *)
Lemma zsum_shift {A} c (f : A -> Z) (l : list A) :
  zsum ((fun a => c + f a) <$> l) = c * blen l + zsum (f <$> l).
Proof.
  induction l as [|a l IH]; [change (0 = c * 0 + 0); lia|].
  rewrite blen_cons. cbn. unfold zsum in *. lia.
Qed.

Lemma blen_fmap {A B} (f : A -> B) l : blen (f <$> l) = blen l.
Proof. unfold blen. by rewrite length_fmap. Qed.

Lemma blen_flat (m : list (gstr * val)) :
  blen (concat ((fun kv => [VBytes kv.1; kv.2]) <$> m)) = 2 * blen m.
Proof. induction m as [|kv m IH]; [done|]. cbn. rewrite !blen_cons, IH. lia. Qed.

Lemma allPairs_pairs (m : list (gstr * val)) :
  allPairs ((fun kv => VArray None [VBytes kv.1; kv.2]) <$> m) = true.
Proof. by induction m. Qed.

Lemma pair_entries_pairs (m : list (gstr * val)) :
  pair_entries ((fun kv => VArray None [VBytes kv.1; kv.2]) <$> m) =
  prod_map VBytes Datatypes.id <$> m.
Proof. induction m as [|[k v] m IH]; [done|]. unfold pair_entries in *. cbn. by rewrite IH. Qed.

Lemma allPairs_flat (m : list (gstr * val)) :
  m <> [] -> allPairs (concat ((fun kv => [VBytes kv.1; kv.2]) <$> m)) = false.
Proof. by destruct m. Qed.

Lemma pair_up_flat (m : list (gstr * val)) :
  pair_up (concat ((fun kv => [VBytes kv.1; kv.2]) <$> m)) = prod_map VBytes Datatypes.id <$> m.
Proof. induction m as [|[k v] m IH]; [done|]. cbn. by rewrite IH. Qed.

(** A response map sent as an array of pairs, or as a flat array of keys
    and values, is read as the map sent as a map. *)
Theorem map_forms_agree (m : list (gstr * val)) :
  m <> [] -> NoDup (keys m) -> forallb (fun kv => wire_value kv.2) m = true ->
  (max_list_with (fun kv => height kv.2) m <= 62)%nat ->
  zsum ((fun kv => 3 + children kv.2) <$> m) <= nativeMaxContainerItems ->
  let pairs := VArray None ((fun kv => VArray None [VBytes kv.1; kv.2]) <$> m) in
  let flat := VArray None (concat ((fun kv => [VBytes kv.1; kv.2]) <$> m)) in
  nativeMap pairs = Ok (prod_map Datatypes.id (plain false) <$> m) /\ nativeMap flat = nativeMap pairs.
Proof.
  intros Hne Hnd Hw Hh Hb pairs flat.
  assert (keys ([] ++ (prod_map Datatypes.id (plain false) <$> m)) = keys m) as Hk by apply keys_fmap.
  rewrite <- Hk in Hnd.
  pose proof (fun c => zsum_shift c (fun kv => children kv.2) m) as Hz.
  pose proof (Hz 0) as H0. pose proof (Hz 2) as H2. pose proof (Hz 3) as H3. cbn beta in H0, H2, H3. clear Hz.
  pose proof (blen_nonneg m).
  assert (0 <= zsum ((fun kv => children kv.2) <$> m)) as Hc.
  { apply zsum_nonneg. rewrite Forall_fmap. apply Forall_forall. intros v _. apply children_nonneg. }
  assert (nativeMap pairs = Ok (prod_map Datatypes.id (plain false) <$> m)) as Hp.
  { unfold nativeMap, nativeMapDepth, pairs, pairArrayMapDepth.
    change (nativeMaxDecodeDepth <? 0) with false. cbn iota.
    rewrite blen_fmap, consume_ok by lia. cbn [rbind].
    rewrite bool_decide_false by (by destruct m). rewrite allPairs_pairs, pair_entries_pairs.
    rewrite (addEntries_copy true (0 + 2) m [] _ Hnd Hw) by (unfold nativeMaxDecodeDepth; cbn iota; lia). done. }
  split; [done|]. rewrite Hp. unfold nativeMap, nativeMapDepth, flat, pairArrayMapDepth.
  change (nativeMaxDecodeDepth <? 0) with false. cbn iota.
  rewrite blen_flat, consume_ok by (unfold zsum in *; lia). cbn [rbind].
  rewrite bool_decide_false by (by destruct m). rewrite allPairs_flat by done.
  rewrite (Z.mul_comm 2), Z_mod_mult. cbn [negb Z.eqb]. rewrite pair_up_flat.
  rewrite (addEntries_copy false (0 + 1) m [] _ Hnd Hw) by (unfold nativeMaxDecodeDepth; cbn iota; lia). done.
Qed.

Lemma map_forms_agree_witness :
  nativeMap (VArray None [VBytes (go "a"); VInt IInt64 1; VBytes (go "b"); VNil]) =
  nativeMap (VArray None [VArray None [VBytes (go "a"); VInt IInt64 1];
    VArray None [VBytes (go "b"); VNil]]).
Proof.
  refine (proj2 (map_forms_agree [(go "a", VInt IInt64 1); (go "b", VNil)] _ _ _ _ _)).
  - done.
  - apply (bool_decide_unpack _). vm_compute. exact I.
  - reflexivity.
  - cbn. lia.
  - vm_compute. congruence.
Defined.
