(* ===== verification/Topology.v ===== *)
(** The routing topology: parsing of the server's SHARDS answer into a total map
    from slots to routes (src/topology_build.go), lookups (src/topology.go),
    endpoint keys and the endpoint policy (src/topology_url.go,
    src/topology_adapter.go), comparison of topologies (src/topology_equal.go).

    The 1024-entry slot array is a finite map; the code only indexes it within
    its bounds. *)

From S2P Require Export Normalize Response Routing.

Record RoutingEndpoint := Endpoint {
  Node : gstr;
  Host : gstr;
  NativePort : Z;
  NativeTLSPort : Z;
}.

#[global] Instance RoutingEndpoint_eq_dec : EqDecision RoutingEndpoint.
Proof. solve_decision. Defined.

Record RoutingRoute := Route {
  Shard : Z;
  LaneID : Z;
  EndpointKey : gstr;
  REndpoint : RoutingEndpoint;
  LeaderNode : gstr;
  Slot : Z;
}.

#[global] Instance RoutingRoute_eq_dec : EqDecision RoutingRoute.
Proof. solve_decision. Defined.

Record RoutingTopology := Topology {
  RouteEpoch : Z;
  ShardCount : Z;
  slots : gmap Z RoutingRoute;
  endpoints : gmap gstr RoutingEndpoint;
}.

Inductive topoError :=
| TopoNorm (e : normError)
| TopoEpoch | TopoShardCount | TopoSlots | TopoPayload
| TopoNoLeader
| TopoRangeMetadata
| TopoEndpoint | TopoTLSEndpoint | TopoEndpointNode
| TopoRange
| TopoInconsistentShard (shard : Z)
| TopoInconsistentEndpoint (key : gstr)
| TopoOverlap (slot : Z)
| TopoShardsDescribed
| TopoMissingShard (shard : Z)
| TopoMissingSlot (slot : Z)
| TopoEmpty
| TopoUnsupportedKey
| TopoReservedKey
| TopoInvalidSlot
| TopoNoRoute
| TopoInvalidEndpoint
| TopoUnsafeEndpoint.

(** ** Endpoints *)

Definition endpointKey (e : RoutingEndpoint) : gstr :=
  if 0 <? NativeTLSPort e
  then to_lower (Host e) ++ go ":" ++ format_int (NativePort e) ++ go ":" ++
       format_int (NativeTLSPort e)
  else to_lower (Host e) ++ go ":" ++ format_int (NativePort e).

Definition connectionKeyForEndpoint (e : RoutingEndpoint) (useTLS : bool) : gstr :=
  let scheme := if useTLS then go "ferrics" else go "ferric" in
  let port := if useTLS && (0 <? NativeTLSPort e) then NativeTLSPort e else NativePort e in
  scheme ++ go "://" ++ to_lower (Host e) ++ go ":" ++ format_int port.

Inductive EndpointPolicy := PolicySeedHosts | PolicyNone | PolicyAny.

(** The parts of a topology executor that [validateEndpoint] reads. *)
Record endpointRules := EndpointRules {
  endpointPolicy : EndpointPolicy;
  seedEndpointKeys : gset gstr;
  trustedHosts : gset gstr;
  useTLS : bool;
  endpointValidator : option (RoutingEndpoint -> bool);
}.

Definition validateEndpoint (rules : endpointRules) (e : RoutingEndpoint) : result topoError unit :=
  let host := to_lower (Host e) in
  if bool_decide (host = []) || (NativePort e <=? 0) then Err TopoInvalidEndpoint
  else
    let seed := bool_decide (connectionKeyForEndpoint e (useTLS rules) ∈ seedEndpointKeys rules) in
    let allowed :=
      match endpointPolicy rules with
      | PolicySeedHosts => seed || bool_decide (host ∈ trustedHosts rules)
      | PolicyNone => seed
      | PolicyAny => true
      end in
    if negb allowed then Err TopoUnsafeEndpoint
    else match endpointValidator rules with
    | Some validator => if validator e then Ok tt else Err TopoUnsafeEndpoint
    | None => Ok tt
    end.

(** ** Parsing *)

(** [m[key]] on a Go map: [nil] when absent. *)
Definition mget (key : gstr) (m : list (gstr * val)) : val := default VNil (assoc_get key m).

Fixpoint firstPresent (m : list (gstr * val)) (keys : list gstr) : val :=
  match keys with
  | [] => VNil
  | key :: keys => match assoc_get key m with Some v => v | None => firstPresent m keys end
  end.

(** [optionalTopologyText]. *)
Definition optionalTopologyText (v : val) : option gstr :=
  match v with VNil => Some [] | _ => trim_space <$> responseString v end.

Definition of_norm {A} (m : result normError A) : result topoError A :=
  match m with Ok a => Ok a | Err e => Err (TopoNorm e) end.

Definition nodeFields : list gstr := [go "node"; go "leader_node"; go "owner_node"].

Definition endpointFromRange (item : list (gstr * val)) : result topoError RoutingEndpoint :=
  let! (raw, nested) :=
    match assoc_get (go "endpoint") item with
    | Some VNil | None => Ok (item, false)
    | Some endpoint => let! m := of_norm (nativeMap endpoint) in Ok (m, true)
    end in
  let host := trim_space <$> responseString (firstPresent raw [go "host"; go "native_host"]) in
  match host, topologyInteger (firstPresent raw [go "native_port"]) with
  | Some host, Some port =>
      if bool_decide (host = []) || (port <=? 0) || (65535 <? port) then Err TopoEndpoint
      else
        let! tls :=
          match firstPresent raw [go "native_tls_port"] with
          | VNil => Ok 0
          | rawTLS =>
              match topologyInteger rawTLS with
              | Some tls => if (tls <=? 0) || (65535 <? tls) then Err TopoTLSEndpoint else Ok tls
              | None => Err TopoTLSEndpoint
              end
          end in
        match optionalTopologyText (firstPresent raw nodeFields) with
        | None => Err TopoEndpointNode
        | Some node =>
            let! node :=
              if bool_decide (node = []) && nested then
                match optionalTopologyText (firstPresent item nodeFields) with
                | Some node => Ok node
                | None => Err TopoEndpointNode
                end
              else Ok node in
            Ok (Endpoint (if bool_decide (node = []) then host else node) host port tls)
        end
  | _, _ => Err TopoEndpoint
  end.

(** The shards, endpoints and slots described so far; [shardRoute] is the lane,
    endpoint and leader of a shard. *)
Abbreviation shardRoute := (Z * gstr * gstr)%type.

Record buildState := BuildState {
  bs_shards : gmap Z shardRoute;
  bs_endpoints : gmap gstr RoutingEndpoint;
  bs_slots : gmap Z RoutingRoute;
}.

(** The slot loop of a range: [count] slots from [slot] on. *)
Fixpoint fillSlots (count : nat) (slot : Z) (route : RoutingRoute) (m : gmap Z RoutingRoute)
  : result topoError (gmap Z RoutingRoute) :=
  match count with
  | O => Ok m
  | S count =>
      match m !! slot with
      | Some _ => Err (TopoOverlap slot)
      | None =>
          fillSlots count (slot + 1) route
            (<[slot := Route (Shard route) (LaneID route) (EndpointKey route) (REndpoint route)
                         (LeaderNode route) slot]> m)
      end
  end.

(** The body of the loop over the ranges. *)
Definition addRange (shardCount : Z) (st : buildState) (rawRange : val)
  : result topoError buildState :=
  let! item := of_norm (nativeMap rawRange) in
  if equal_fold (default [] (commandText (mget (go "hint") item))) (go "leader_unknown")
  then Err TopoNoLeader
  else
  match topologyInteger (mget (go "first_slot") item), topologyInteger (mget (go "last_slot") item),
        topologyInteger (mget (go "shard") item), topologyInteger (mget (go "lane_id") item) with
  | Some first, Some last, Some shard, Some lane =>
      let! endpoint := endpointFromRange item in
      if (first <? 0) || (last <? first) || (routeSlotCount <=? last) || (shard <? 0) ||
         (shardCount <=? shard) || (lane <=? 0) || (max_uint32 <=? lane)
      then Err TopoRange
      else
        let key := endpointKey endpoint in
        let identity := (lane, key, Node endpoint) in
        if match bs_shards st !! shard with
           | Some previous => negb (bool_decide (previous = identity))
           | None => false
           end
        then Err (TopoInconsistentShard shard)
        else if match bs_endpoints st !! key with
                | Some previous => negb (bool_decide (previous = endpoint))
                | None => false
                end
        then Err (TopoInconsistentEndpoint key)
        else
          let route := Route shard lane key endpoint (Node endpoint) 0 in
          let! m := fillSlots (Z.to_nat (last - first + 1)) first route (bs_slots st) in
          Ok (BuildState (<[shard := identity]> (bs_shards st))
                (<[key := endpoint]> (bs_endpoints st)) m)
  | _, _, _, _ => Err TopoRangeMetadata
  end.

Definition interval (n : Z) : list Z := Z.of_nat <$> seq 0 (Z.to_nat n).

Definition buildRoutingTopology (value : val) : result topoError RoutingTopology :=
  let! payload := of_norm (nativeMap value) in
  match topologyInteger (mget (go "route_epoch") payload) with
  | None => Err TopoEpoch
  | Some routeEpoch =>
  if routeEpoch <? 0 then Err TopoEpoch
  else match topologyInteger (mget (go "shard_count") payload) with
  | None => Err TopoShardCount
  | Some shardCount =>
  if (shardCount <=? 0) || (routeSlotCount <? shardCount) then Err TopoShardCount
  else if match assoc_get (go "slots") payload with
          | Some raw => negb (bool_decide (topologyInteger raw = Some routeSlotCount))
          | None => false
          end
  then Err TopoSlots
  else
    let! normalized := of_norm (normalizeAdminResponse (mget (go "ranges") payload)) in
    match normalized with
    | VArray _ rawRanges =>
        if (blen rawRanges =? 0) || (routeSlotCount <? blen rawRanges) then Err TopoPayload
        else
          let! st := rfold (addRange shardCount) (BuildState ∅ ∅ ∅) rawRanges in
          if negb (Z.of_nat (size (bs_shards st)) =? shardCount) then Err TopoShardsDescribed
          else
            let! _ := rfold (fun _ shard =>
              match bs_shards st !! shard with
              | Some _ => Ok tt | None => Err (TopoMissingShard shard) end) tt (interval shardCount) in
            let! _ := rfold (fun _ slot =>
              match bs_slots st !! slot with
              | Some _ => Ok tt | None => Err (TopoMissingSlot slot) end) tt (interval routeSlotCount) in
            Ok (Topology routeEpoch shardCount (bs_slots st) (bs_endpoints st))
    | _ => Err TopoPayload
    end
  end
  end.

(** ** Lookups *)

(** [RoutingTopology.routeSlot]. *)
Definition routeSlot (t : RoutingTopology) (slot : Z) : result topoError RoutingRoute :=
  if (slot <? 0) || (routeSlotCount <=? slot) then Err TopoInvalidSlot
  else match slots t !! slot with
  | None => Err TopoNoRoute
  | Some route =>
      Ok (Route (Shard route) (LaneID route) (EndpointKey route) (REndpoint route)
            (LeaderNode route) slot)
  end.

(** [RoutingTopology.RouteKey]; [None] is a nil topology. *)
Definition RouteKey (t : option RoutingTopology) (key : arg) : result topoError RoutingRoute :=
  match t with
  | None => Err TopoEmpty
  | Some t =>
      if negb (argRouteKey key) then Err TopoUnsupportedKey
      else if reservedInternalKeyString (default [] (argText key)) then Err TopoReservedKey
      else routeSlot t (routeSlotForKey key)
  end.

(** [routeInSnapshot], given the topology of the snapshot. *)
Definition routeInSnapshot (rules : endpointRules) (t : option RoutingTopology) (key : routingKey)
  : result topoError RoutingRoute :=
  match t with
  | None => Err TopoEmpty
  | Some topology =>
      let! route :=
        match key with
        | KeySlot slot => routeSlot topology slot
        | KeyArg a => RouteKey t a
        end in
      let! _ := validateEndpoint rules (REndpoint route) in
      Ok route
  end.

(** [routeStringKeyInTopology]. *)
Definition routeStringKeyInTopology (t : option RoutingTopology) (key : gstr)
  : result topoError RoutingRoute :=
  match t with
  | None => Err TopoEmpty
  | Some t =>
      let slot := routeSlotForString key in
      match slots t !! slot with
      | None => Err TopoNoRoute
      | Some route =>
          Ok (Route (Shard route) (LaneID route) (EndpointKey route) (REndpoint route)
                (LeaderNode route) slot)
      end
  end.

(** [routingTopologiesEqual] on two topologies at different addresses. *)
Definition routingTopologiesEqual (a b : option RoutingTopology) : bool :=
  match a, b with
  | None, None => true
  | Some a, Some b =>
      (RouteEpoch a =? RouteEpoch b) && (ShardCount a =? ShardCount b) &&
      bool_decide (size (endpoints a) = size (endpoints b)) &&
      forallb (fun kv => bool_decide (endpoints b !! kv.1 = Some kv.2))
        (map_to_list (endpoints a)) &&
      forallb (fun slot => bool_decide (slots a !! slot = slots b !! slot))
        (interval routeSlotCount)
  | _, _ => false
  end.

(** ** Facts *)

Lemma elem_of_interval n z : z ∈ interval n <-> 0 <= z < n.
Proof.
  unfold interval. rewrite list_elem_of_fmap. setoid_rewrite elem_of_seq. split.
  - intros (k & -> & Hk). lia.
  - intros Hz. exists (Z.to_nat z). lia.
Qed.

Lemma rfold_check {E A} (f : A -> bool) (e : A -> E) l :
  rfold (fun _ a => if f a then Ok tt else Err (e a)) tt l = Ok tt <-> forallb f l = true.
Proof. induction l as [|a l IH]; cbn; [done|]. destruct (f a); cbn; [apply IH|done]. Qed.

Lemma rfold_present {V} (m : gmap Z V) (e : Z -> topoError) n :
  rfold (fun _ k => match m !! k with Some _ => Ok tt | None => Err (e k) end) tt (interval n) = Ok tt ->
  forall k, 0 <= k < n -> is_Some (m !! k).
Proof.
  intros H k Hk%elem_of_interval. revert k Hk H. generalize (interval n).
  induction l as [|a l IH]; intros k Hk; [by apply not_elem_of_nil in Hk|]. cbn.
  destruct (m !! a) eqn:E; cbn; [|done]. apply elem_of_cons in Hk as [->|Hk]; eauto.
Qed.

(** The route of a range at one of its slots. *)
Definition at_slot (route : RoutingRoute) (slot : Z) : RoutingRoute :=
  Route (Shard route) (LaneID route) (EndpointKey route) (REndpoint route) (LeaderNode route) slot.

Lemma fillSlots_spec count : forall slot route m m',
  fillSlots count slot route m = Ok m' ->
  forall s, m' !! s = if decide (slot <= s < slot + Z.of_nat count) then Some (at_slot route s) else m !! s.
Proof.
  induction count as [|count IH]; intros slot route m m'; cbn [fillSlots].
  - intros [= <-] s. rewrite decide_False by lia. done.
  - destruct (m !! slot) eqn:E; [done|]. intros H s. apply (IH _ _ _ _) with (s := s) in H.
    rewrite H. destruct (decide (s = slot)) as [->|Hne].
    + rewrite decide_False, decide_True by lia. by rewrite lookup_insert_eq.
    + rewrite lookup_insert_ne by done.
      destruct (decide (slot + 1 <= s < slot + 1 + Z.of_nat count));
        [rewrite decide_True by lia|rewrite decide_False by lia]; done.
Qed.

Lemma fillSlots_fresh count : forall slot route m m',
  fillSlots count slot route m = Ok m' ->
  forall s, slot <= s < slot + Z.of_nat count -> m !! s = None.
Proof.
  induction count as [|count IH]; intros slot route m m'; cbn [fillSlots]; [lia|].
  destruct (m !! slot) eqn:E; [done|]. intros H s Hs.
  destruct (decide (s = slot)) as [->|Hne]; [done|].
  specialize (IH _ _ _ _ H s ltac:(lia)). by rewrite lookup_insert_ne in IH.
Qed.

(** A route as the build records it. *)
Record route_ok (shardCount : Z) (st : buildState) (slot : Z) (r : RoutingRoute) : Prop := RouteOk {
  ro_slot : Slot r = slot /\ 0 <= slot < routeSlotCount;
  ro_shard : 0 <= Shard r < shardCount;
  ro_lane : 0 < LaneID r < max_uint32;
  ro_key : EndpointKey r = endpointKey (REndpoint r) /\ LeaderNode r = Node (REndpoint r);
  ro_identity : bs_shards st !! Shard r = Some (LaneID r, EndpointKey r, LeaderNode r);
  ro_endpoint : bs_endpoints st !! EndpointKey r = Some (REndpoint r);
}.

Record build_inv (shardCount : Z) (st : buildState) : Prop := BuildInv {
  bi_slots slot r : bs_slots st !! slot = Some r -> route_ok shardCount st slot r;
  bi_shards shard id : bs_shards st !! shard = Some id ->
    0 <= shard < shardCount /\ exists slot r, bs_slots st !! slot = Some r /\ Shard r = shard;
}.

Lemma consistent_insert {K V} `{Countable K} `{EqDecision V} (m : gmap K V) k v :
  match m !! k with Some p => negb (bool_decide (p = v)) | None => false end = false ->
  forall k' v', m !! k' = Some v' -> <[k := v]> m !! k' = Some v'.
Proof.
  intros Hk k' v' Hv. destruct (decide (k' = k)) as [->|]; [|by rewrite lookup_insert_ne].
  rewrite Hv in Hk. rewrite lookup_insert_eq. case_bool_decide; [by subst|done].
Qed.

Lemma addRange_inv shardCount st raw st' :
  build_inv shardCount st -> addRange shardCount st raw = Ok st' -> build_inv shardCount st'.
Proof.
  intros [I1 I2] H. unfold addRange in H. apply rbind_ok in H as (item & _ & H).
  destruct (equal_fold _ _); [done|].
  destruct (topologyInteger (mget (go "first_slot") item)) as [first|]; [|done].
  destruct (topologyInteger (mget (go "last_slot") item)) as [last|]; [|done].
  destruct (topologyInteger (mget (go "shard") item)) as [shard|]; [|done].
  destruct (topologyInteger (mget (go "lane_id") item)) as [lane|]; [|done].
  apply rbind_ok in H as (ep & _ & H).
  destruct (_ || _) eqn:Hb in H; [done|]. repeat (apply orb_false_iff in Hb as [Hb ?]). z_tests.
  destruct (match bs_shards st !! shard with Some _ => _ | None => _ end) eqn:Hs; [done|].
  destruct (match bs_endpoints st !! endpointKey ep with Some _ => _ | None => _ end) eqn:He; [done|].
  apply rbind_ok in H as (m & Hm & [= <-]).
  pose proof (fillSlots_spec _ _ _ _ _ Hm) as Hspec.
  assert (Z.of_nat (Z.to_nat (last - first + 1)) = last - first + 1) as Hcount by lia.
  rewrite Hcount in Hspec.
  pose proof (consistent_insert _ _ _ Hs) as Hs'. pose proof (consistent_insert _ _ _ He) as He'.
  split; cbn [bs_shards bs_endpoints bs_slots].
  - intros slot r Hr. rewrite Hspec in Hr. case_decide.
    + simplify_eq. split; cbn; [lia|lia|lia|done| |]; by rewrite lookup_insert_eq.
    + destruct (I1 _ _ Hr) as [? ? ? ? Hid Hep]. split; cbn; try done; eauto.
  - intros shard' id. intros [[<- <-]|[Hne Hid]]%lookup_insert_Some.
    + split; [lia|]. exists first. eexists. rewrite Hspec, decide_True by lia. done.
    + destruct (I2 _ _ Hid) as (? & slot & r & Hr & ?). split; [done|]. exists slot, r.
      rewrite Hspec. case_decide as Hin; [|done].
      pose proof (fillSlots_fresh _ _ _ _ _ Hm slot ltac:(lia)). congruence.
Qed.

Lemma build_inv_start shardCount : build_inv shardCount (BuildState ∅ ∅ ∅).
Proof. split; cbn; intros ? ? H; by rewrite lookup_empty in H. Qed.

(** ** Properties *)

(** What a topology promises the routing code. *)
Record topology_ok (t : RoutingTopology) : Prop := TopologyOk {
  to_counts : 0 <= RouteEpoch t /\ 1 <= ShardCount t <= routeSlotCount;
  to_total slot : is_Some (slots t !! slot) <-> 0 <= slot < routeSlotCount;
  to_route slot r : slots t !! slot = Some r ->
    Slot r = slot /\ 0 <= Shard r < ShardCount t /\ 0 < LaneID r < max_uint32 /\
    EndpointKey r = endpointKey (REndpoint r) /\ endpoints t !! EndpointKey r = Some (REndpoint r);
  to_shard slot1 slot2 r1 r2 : slots t !! slot1 = Some r1 -> slots t !! slot2 = Some r2 ->
    Shard r1 = Shard r2 -> r2 = at_slot r1 slot2;
  to_all shard : 0 <= shard < ShardCount t ->
    exists slot r, slots t !! slot = Some r /\ Shard r = shard;
}.

Lemma build_topology_inv value t : buildRoutingTopology value = Ok t -> topology_ok t.
Proof.
  unfold buildRoutingTopology. intros H. apply rbind_ok in H as (payload & _ & H).
  destruct (topologyInteger (mget (go "route_epoch") payload)) as [epoch|]; [|done].
  destruct (Z.ltb_spec epoch 0); [done|].
  destruct (topologyInteger (mget (go "shard_count") payload)) as [count|]; [|done].
  destruct (_ || _) eqn:Hc in H; [done|]. z_tests.
  destruct (match assoc_get (go "slots") payload with Some _ => _ | None => _ end); [done|].
  apply rbind_ok in H as (normalized & _ & H). destruct normalized as [| | | | | | |id ranges| |]; try done.
  destruct (_ || _) in H; [done|]. apply rbind_ok in H as (st & Hst & H).
  pose proof (rfold_invariant (build_inv count) _ _ _ _ (addRange_inv count) (build_inv_start count) Hst)
    as [I1 I2].
  destruct (negb _) in H; [done|].
  apply rbind_ok in H as ([] & Hshards & H). apply rbind_ok in H as ([] & Hslots & [= <-]).
  pose proof (rfold_present _ _ _ Hshards) as Hshards'. pose proof (rfold_present _ _ _ Hslots) as Hslots'.
  split; cbn.
  - lia.
  - intros slot. split; [|apply Hslots']. intros [r Hr]. by destruct (I1 _ _ Hr) as [[_ ?]].
  - intros slot r Hr. destruct (I1 _ _ Hr) as [[? ?] ? ? [? ?] ? ?]. split_and!; done || lia.
  - intros s1 s2 r1 r2 Hr1 Hr2 Hsh.
    destruct (I1 _ _ Hr1) as [[? ?] ? ? [? ?] Hid1 Hep1], (I1 _ _ Hr2) as [[? ?] ? ? [? ?] Hid2 Hep2].
    rewrite Hsh, Hid2 in Hid1. injection Hid1 as Hlane Hkey Hleader.
    assert (REndpoint r2 = REndpoint r1) as Hep by congruence.
    destruct r1, r2; unfold at_slot; cbn in *. congruence.
  - intros shard [id' Hid]%Hshards'. by destruct (I2 _ _ Hid) as (_ & ?).
Qed.

Lemma topology_lookup t slot :
  topology_ok t -> 0 <= slot < routeSlotCount ->
  exists r, slots t !! slot = Some r /\ Slot r = slot.
Proof.
  intros [_ Ht Hr _ _] Hs. apply Ht in Hs as [r Hs]. exists r. split; [done|].
  by apply Hr in Hs as (? & _).
Qed.

(** C34: an accepted SHARDS answer is a complete and consistent topology: every
    slot has exactly one route, every announced shard owns a slot, all slots of a
    shard share lane and endpoint, and every endpoint is registered under its key. *)
Theorem build_topology_ok value t :
  buildRoutingTopology value = Ok t -> topology_ok t.
Proof. apply build_topology_inv. Qed.

(** On an accepted topology every public key is routed, to the route of its
    own slot; a reserved key never is. *)
Theorem route_key_total value t text :
  buildRoutingTopology value = Ok t ->
  (reservedInternalKeyString text = false ->
   exists r, RouteKey (Some t) (Arg (VString text)) = Ok r /\
     slots t !! routeSlotForString text = Some r /\ Slot r = routeSlotForString text) /\
  (reservedInternalKeyString text = true ->
   RouteKey (Some t) (Arg (VString text)) = Err TopoReservedKey).
Proof.
  intros Hok%build_topology_inv. unfold RouteKey, routeSlotForKey. cbn [argRouteKey isRouteKey negb argText commandText default].
  split; intros Hr; cbn; rewrite Hr; [|done].
  assert (0 <= routeSlotForString text < routeSlotCount) as Hs.
  { rewrite routeSlotForString_generic. apply flowTagRoutingSlot_range. }
  destruct (topology_lookup t _ Hok Hs) as (r & Hlook & Hslot). exists r.
  split_and!; [|done|done]. unfold routeSlot.
  destruct (Z.ltb_spec (routeSlotForString text) 0), (Z.leb_spec routeSlotCount (routeSlotForString text));
    try lia. cbn. rewrite Hlook. destruct r; cbn in *. by rewrite Hslot.
Qed.

(** Comparing two accepted topologies field by field decides their
    equality. *)
Theorem topologies_equal_exact a b va vb :
  buildRoutingTopology va = Ok a -> buildRoutingTopology vb = Ok b ->
  routingTopologiesEqual (Some a) (Some b) = true <-> a = b.
Proof.
  intros Ha%build_topology_inv Hb%build_topology_inv. unfold routingTopologiesEqual.
  rewrite !andb_true_iff, !Z.eqb_eq, bool_decide_eq_true, !forallb_forall. split.
  - intros ((((He & Hc) & Hsize) & Hend) & Hslots). destruct a as [ea ca sa na], b as [eb cb sb nb].
    cbn in *. subst. f_equal.
    + apply map_eq. intros slot. destruct (decide (0 <= slot < routeSlotCount)) as [Hin|Hout].
      * apply elem_of_interval, list_elem_of_In in Hin. by apply Hslots, bool_decide_eq_true in Hin.
      * pose proof (to_total _ Ha slot) as H1. pose proof (to_total _ Hb slot) as H2. cbn in *.
        destruct (sa !! slot) eqn:E1; [exfalso; apply Hout, H1; eauto|].
        destruct (sb !! slot) eqn:E2; [exfalso; apply Hout, H2; eauto|done].
    + apply map_subseteq_size_eq; [|lia]. apply map_subseteq_spec. intros k e Hk.
      specialize (Hend (k, e)). cbn in Hend.
      assert (bool_decide (nb !! k = Some e) = true) as Hd.
      { apply Hend, list_elem_of_In, elem_of_map_to_list. done. }
      by apply bool_decide_eq_true in Hd.
  - intros <-. split_and!; try done.
    + intros [k e] Hk%list_elem_of_In%elem_of_map_to_list. by apply bool_decide_eq_true.
    + intros slot _. by apply bool_decide_eq_true.
Qed.

(** *** Witnesses: one shard owning all slots *)

Definition example_range : val :=
  VMap None [(go "first_slot", VInt IInt64 0); (go "last_slot", VInt IInt64 1023);
    (go "shard", VInt IInt64 0); (go "lane_id", VInt IInt64 1);
    (go "host", VBytes (go "db1")); (go "native_port", VInt IInt64 6388)].

Definition example_shards : val :=
  VMap None [(go "route_epoch", VInt IInt64 7); (go "shard_count", VInt IInt64 1);
    (go "ranges", VArray None [example_range])].

Definition example_topology : RoutingTopology :=
  match buildRoutingTopology example_shards with
  | Ok t => t
  | Err _ => Topology 0 0 ∅ ∅
  end.

Lemma example_build : buildRoutingTopology example_shards = Ok example_topology.
Proof. vm_compute. reflexivity. Qed.

Lemma build_topology_ok_witness : topology_ok example_topology.
Proof. apply (build_topology_ok example_shards). apply example_build. Defined.

Lemma route_key_total_witness :
  exists r, RouteKey (Some example_topology) (Arg (VString (go "user"))) = Ok r /\
    slots example_topology !! routeSlotForString (go "user") = Some r /\
    Slot r = routeSlotForString (go "user").
Proof.
  apply (route_key_total example_shards example_topology (go "user")).
  - apply example_build.
  - vm_compute. reflexivity.
Defined.

Lemma topologies_equal_exact_witness :
  routingTopologiesEqual (Some example_topology) (Some example_topology) = true.
Proof.
  apply (topologies_equal_exact example_topology example_topology example_shards example_shards);
    [apply example_build|apply example_build|reflexivity].
Defined.
