(* ===== verification/ScatterPlan.v ===== *)
(** Planning of multi-key commands over a topology: the grouping of keys by
    route (src/topology_snapshot.go, src/topology_kv_route.go) and the planning
    loops that accept a plan only for a snapshot that is still current.

    [groups_ok] states what a plan promises the code that executes it. *)

From S2P Require Export Topology.

Record topologyRouteIdentity := Identity {
  idEndpoint : gstr;
  idLane : Z;
}.

#[global] Instance identity_eq_dec : EqDecision topologyRouteIdentity.
Proof. solve_decision. Defined.

#[global] Program Instance identity_countable : Countable topologyRouteIdentity :=
  inj_countable' (fun i => (idEndpoint i, idLane i)) (fun p => Identity p.1 p.2) _.
Next Obligation. by intros []. Qed.

Definition routeIdentity (route : RoutingRoute) : topologyRouteIdentity :=
  Identity (if bool_decide (EndpointKey route = []) then endpointKey (REndpoint route)
            else EndpointKey route) (LaneID route).

(** [scatterRouteGroup] and [stringKeyRouteGroup]. *)
Record routeGroup (K : Type) := Group {
  groute : RoutingRoute;
  gkeys : list K;
  gpositions : list nat;
}.
Arguments Group {K}.
Arguments groute {K}.
Arguments gkeys {K}.
Arguments gpositions {K}.

Abbreviation routeGroups K := (gmap topologyRouteIdentity (routeGroup K)).

(** Appending a key to the group of its route, created on first use. *)
Definition addToGroup {K} (includePositions : bool) (groups : routeGroups K)
  (route : RoutingRoute) (key : K) (position : nat) : routeGroups K :=
  let group := default (Group route [] []) (groups !! routeIdentity route) in
  <[routeIdentity route :=
      Group (groute group) (gkeys group ++ [key])
        (if includePositions then gpositions group ++ [position] else gpositions group)]> groups.

(** The loop of [planScatterRoutes] over the keys. *)
Definition groupKeys {E K} (route : K -> result E RoutingRoute) (keys : list K)
  : result E (routeGroups K) :=
  rfold (fun groups pk =>
    let! r := route pk.2 in Ok (addToGroup true groups r pk.2 pk.1)) ∅ (imap pair keys).

Definition planScatterGroups (rules : endpointRules) (t : option RoutingTopology) (keys : list arg)
  : result topoError (routeGroups arg) :=
  groupKeys (fun key => routeInSnapshot rules t (KeyArg key)) keys.

(** The loop of [singleRouteInTopology]: the position of the first key whose
    route differs; [None] when all keys have one route. *)
Fixpoint divergenceFrom (t : option RoutingTopology) (identity : topologyRouteIdentity)
  (offset : nat) (keys : list gstr) : result topoError (option nat) :=
  match keys with
  | [] => Ok None
  | key :: keys =>
      let! route := routeStringKeyInTopology t key in
      if bool_decide (routeIdentity route = identity) then divergenceFrom t identity (S offset) keys
      else Ok (Some offset)
  end.

(** [singleRouteInTopology] on the keys [key :: rest]; the code indexes the
    first key, its callers return before on an empty list. *)
Definition singleRouteInTopology (rules : endpointRules) (t : option RoutingTopology)
  (key : gstr) (rest : list gstr) : result topoError (RoutingRoute * option nat) :=
  let! first := routeStringKeyInTopology t key in
  let! _ := validateEndpoint rules (REndpoint first) in
  let! divergence := divergenceFrom t (routeIdentity first) 1 rest in
  Ok (first, divergence).

(** The loop of [planStringKeyRoutesInTopology] after the first two groups: an
    endpoint is validated when its group is created. *)
Definition addStringKey (rules : endpointRules) (t : option RoutingTopology) (includePositions : bool)
  (groups : routeGroups gstr) (pk : nat * gstr) : result topoError (routeGroups gstr) :=
  let! route := routeStringKeyInTopology t pk.2 in
  let! _ := match groups !! routeIdentity route with
            | Some _ => Ok tt
            | None => validateEndpoint rules (REndpoint route)
            end in
  Ok (addToGroup includePositions groups route pk.2 pk.1).

Definition planStringKeyRoutesInTopology (rules : endpointRules) (t : option RoutingTopology)
  (key : gstr) (rest : list gstr) (includePositions : bool)
  : result topoError (RoutingRoute * option (routeGroups gstr)) :=
  let keys := key :: rest in
  let! (first, divergence) := singleRouteInTopology rules t key rest in
  match divergence with
  | None => Ok (first, None)
  | Some divergence =>
      match drop divergence keys with
      | [] => Ok (first, None)       (* not reached: the divergence is a position *)
      | divergent :: tail =>
          let! divergentRoute := routeStringKeyInTopology t divergent in
          let! _ := validateEndpoint rules (REndpoint divergentRoute) in
          let groups :=
            <[routeIdentity divergentRoute :=
                Group divergentRoute [divergent] (if includePositions then [divergence] else [])]>
            (<[routeIdentity first :=
                Group first (take divergence keys)
                  (if includePositions then seq 0 divergence else [])]> ∅) in
          let! groups := rfold (addStringKey rules t includePositions) groups
            (imap (fun i k => (S divergence + i, k)%nat) tail) in
          Ok (first, Some groups)
      end
  end.

(** ** The planning loops *)

(** What one attempt of a planning loop sees of the rest of the program: the
    topology captured ([None] when the executor is closed), whether the snapshot
    is still the executor's after planning, and the outcome of a refresh. *)
Record planningRound := Round {
  captured : option (option RoutingTopology);
  stillCurrent : bool;
  refreshed : option topoError;
}.

Inductive planError :=
| PlanClosed
| PlanStale
| PlanRoute (e : topoError)
| PlanRefresh (e : topoError).

Definition maxTopologyPlanningAttempts : nat := 8.

(** The loop of [planScatterRoutes] and [planStringKeyRoutesSnapshot]; it returns
    the number of the attempt whose snapshot the plan is for. *)
Fixpoint planAttempts {A} (plan : option RoutingTopology -> result topoError A)
  (rounds : nat -> planningRound) (attempts attempt : nat) (hasRefreshed : bool)
  : result planError (nat * A) :=
  match attempts with
  | O => Err PlanStale
  | S attempts =>
      let round := rounds attempt in
      match captured round with
      | None => Err PlanClosed
      | Some topology =>
          if negb (stillCurrent round) then planAttempts plan rounds attempts (S attempt) hasRefreshed
          else match plan topology with
          | Ok a => Ok (attempt, a)
          | Err e =>
              if hasRefreshed then Err (PlanRoute e)
              else match refreshed round with
              | Some e => Err (PlanRefresh e)
              | None => planAttempts plan rounds attempts (S attempt) true
              end
          end
      end
  end.

(** The loop of [routeWithRefreshSnapshot], which looks at the route first. *)
Fixpoint routeAttempts {A} (plan : option RoutingTopology -> result topoError A)
  (rounds : nat -> planningRound) (attempts attempt : nat) (hasRefreshed : bool)
  : result planError (nat * A) :=
  match attempts with
  | O => Err PlanStale
  | S attempts =>
      let round := rounds attempt in
      match captured round with
      | None => Err PlanClosed
      | Some topology =>
          match plan topology with
          | Err e =>
              if hasRefreshed then Err (PlanRoute e)
              else match refreshed round with
              | Some e => Err (PlanRefresh e)
              | None => routeAttempts plan rounds attempts (S attempt) true
              end
          | Ok a =>
              if stillCurrent round then Ok (attempt, a)
              else routeAttempts plan rounds attempts (S attempt) hasRefreshed
          end
      end
  end.

Definition planScatterRoutes (rules : endpointRules) (rounds : nat -> planningRound) (keys : list arg)
  : result planError (nat * routeGroups arg) :=
  if forallb argRouteKey keys
  then planAttempts (fun t => planScatterGroups rules t keys) rounds maxTopologyPlanningAttempts 0 false
  else Err (PlanRoute TopoUnsupportedKey).

Definition planStringKeyRoutesSnapshot (rules : endpointRules) (rounds : nat -> planningRound)
  (key : gstr) (rest : list gstr) (includePositions : bool) :=
  planAttempts (fun t => planStringKeyRoutesInTopology rules t key rest includePositions)
    rounds maxTopologyPlanningAttempts 0 false.

Definition routeWithRefreshSnapshot (rules : endpointRules) (rounds : nat -> planningRound)
  (key : routingKey) :=
  routeAttempts (fun t => routeInSnapshot rules t key) rounds maxTopologyPlanningAttempts 0 false.

(** ** What a plan promises *)

(** The groups cover each key of [keys] at exactly one position, each under the
    identity of its own route. *)
Record groups_ok {K} (R : K -> RoutingRoute) (keys : list K) (groups : routeGroups K) : Prop := GroupsOk {
  go_route id g : groups !! id = Some g -> routeIdentity (groute g) = id;
  go_keys id g : groups !! id = Some g ->
    gkeys g <> [] /\ Forall (fun k => routeIdentity (R k) = id) (gkeys g) /\
    Forall2 (fun k p => keys !! p = Some k) (gkeys g) (gpositions g);
  go_cover : concat ((fun kv => gpositions kv.2) <$> map_to_list groups) ≡ₚ seq 0 (length keys);
}.

Lemma groups_ok_empty {K} (R : K -> RoutingRoute) : groups_ok R [] ∅.
Proof. split; try (intros ? ? H; by rewrite lookup_empty in H). by rewrite map_to_list_empty. Qed.

Lemma positions_insert {K} (groups : routeGroups K) id old new :
  groups !! id = Some old ->
  concat ((fun kv => gpositions kv.2) <$> map_to_list (<[id := new]> groups)) ≡ₚ
  gpositions new ++ concat ((fun kv => gpositions kv.2) <$> map_to_list (delete id groups)).
Proof.
  intros H. rewrite <- insert_delete_eq. rewrite map_to_list_insert by apply lookup_delete_eq. done.
Qed.

Lemma add_cover {K} (groups : routeGroups K) r k p :
  concat ((fun kv => gpositions kv.2) <$> map_to_list (addToGroup true groups r k p)) ≡ₚ
  concat ((fun kv => gpositions kv.2) <$> map_to_list groups) ++ [p].
Proof.
  unfold addToGroup. destruct (groups !! routeIdentity r) as [g|] eqn:E; cbn [default].
  - rewrite (positions_insert _ _ _ _ E). cbn [gpositions].
    assert (concat ((fun kv => gpositions kv.2) <$> map_to_list groups) ≡ₚ
      gpositions g ++ concat ((fun kv => gpositions kv.2) <$> map_to_list (delete (routeIdentity r) groups)))
      as ->.
    { rewrite <- (insert_id groups (routeIdentity r) g) at 1 by done. apply (positions_insert _ _ _ _ E). }
    rewrite <- !app_assoc. apply Permutation_app_head, Permutation_app_comm.
  - rewrite map_to_list_insert by done. cbn. by rewrite Permutation_cons_append.
Qed.

Lemma add_ok {K} (R : K -> RoutingRoute) keys groups k :
  groups_ok R keys groups ->
  groups_ok R (keys ++ [k]) (addToGroup true groups (R k) k (length keys)).
Proof.
  intros [Hr Hk Hc]. split.
  - intros id g. unfold addToGroup. intros [[<- <-]|[Hne Hg]]%lookup_insert_Some; [|eauto].
    cbn. destruct (groups !! routeIdentity (R k)) eqn:E; cbn; eauto.
  - intros id g. unfold addToGroup. intros [[<- <-]|[Hne Hg]]%lookup_insert_Some.
    + cbn. split; [by destruct (gkeys _)|].
      assert (Forall (fun k' => routeIdentity (R k') = routeIdentity (R k))
          (gkeys (default (Group (R k) [] []) (groups !! routeIdentity (R k)))) /\
        Forall2 (fun k' p => keys !! p = Some k')
          (gkeys (default (Group (R k) [] []) (groups !! routeIdentity (R k))))
          (gpositions (default (Group (R k) [] []) (groups !! routeIdentity (R k))))) as [Hf Hp].
      { destruct (groups !! routeIdentity (R k)) eqn:E; cbn; [by apply Hk in E as (_ & ?)|by split; constructor]. }
      split; [apply Forall_app; split; [done|by constructor]|].
      apply Forall2_app.
      * eapply Forall2_impl; [exact Hp|]. intros k' p Hkp. cbn in Hkp. by apply lookup_app_l_Some.
      * constructor; [|constructor]. rewrite lookup_app_r by lia. by rewrite Nat.sub_diag.
    + destruct (Hk _ _ Hg) as (? & ? & Hp). split_and!; try done.
      eapply Forall2_impl; [exact Hp|]. intros k' p Hkp. cbn in Hkp. by apply lookup_app_l_Some.
  - rewrite add_cover, Hc, length_app. cbn. rewrite Nat.add_1_r, seq_S. done.
Qed.

Lemma imap_pair_snoc {A} (l : list A) a : imap pair (l ++ [a]) = imap pair l ++ [(length l, a)].
Proof. rewrite imap_app. cbn. by rewrite Nat.add_0_r. Qed.

Lemma add_new {K} i (groups : routeGroups K) r k p :
  groups !! routeIdentity r = None ->
  addToGroup i groups r k p = <[routeIdentity r := Group r [k] (if i then [p] else [])]> groups.
Proof. intros H. unfold addToGroup. by rewrite H. Qed.

(** A plan made key by key covers the keys. *)
Lemma groupKeys_ok {E K} (route : K -> result E RoutingRoute) (R : K -> RoutingRoute) keys groups :
  (forall k r, route k = Ok r -> r = R k) ->
  groupKeys route keys = Ok groups -> groups_ok R keys groups.
Proof.
  intros HR. unfold groupKeys. revert groups. induction keys as [|k keys IH] using rev_ind; intros groups.
  - intros [= <-]. apply groups_ok_empty.
  - rewrite imap_pair_snoc, rfold_app. intros H. apply rbind_ok in H as (g & Hg & H).
    cbn in H. apply rbind_ok in H as (? & H & [= <-]). apply rbind_ok in H as (r & Hr & [= <-]).
    rewrite (HR _ _ Hr). apply add_ok, IH, Hg.
Qed.

(** ** The typed planner is the general planner *)

Definition group_map {A B} (f : A -> B) (g : routeGroup A) : routeGroup B :=
  Group (groute g) (f <$> gkeys g) (gpositions g).

Lemma add_map {A B} (f : A -> B) i groups r k p :
  group_map f <$> addToGroup i groups r k p = addToGroup i (group_map f <$> groups) r (f k) p.
Proof.
  unfold addToGroup. rewrite fmap_insert, lookup_fmap. f_equal.
  destruct (groups !! routeIdentity r); unfold group_map; cbn; by rewrite ?fmap_app.
Qed.

Lemma groupKeys_map {E A B} (route : B -> result E RoutingRoute) (f : A -> B) keys :
  groupKeys route (f <$> keys) =
  rmap (fmap (group_map f)) (groupKeys (fun k => route (f k)) keys).
Proof.
  unfold groupKeys. rewrite imap_fmap.
  replace (imap (pair ∘ id) (f <$> keys)) with (imap pair (f <$> keys)) by done.
  assert (forall (l : list (nat * A)) (s : routeGroups A),
    rfold (fun groups pk => let! r := route pk.2 in Ok (addToGroup true groups r pk.2 pk.1))
      (group_map f <$> s) (prod_map id f <$> l) =
    rmap (fmap (group_map f))
      (rfold (fun groups pk => let! r := route (f pk.2) in Ok (addToGroup true groups r pk.2 pk.1)) s l)) as H.
  { induction l as [|[p k] l IH]; intros s; cbn; [done|]. destruct (route (f k)); cbn; [|done].
    by rewrite <- add_map, IH. }
  specialize (H (imap pair keys) ∅). rewrite fmap_empty in H. rewrite <- H. f_equal.
  by rewrite fmap_imap.
Qed.

Section Planners.
Context (R : gstr -> RoutingRoute) (V : RoutingEndpoint -> result topoError unit).
Context (endpoint_of_identity : forall a b, routeIdentity (R a) = routeIdentity (R b) ->
  REndpoint (R a) = REndpoint (R b)).

Definition checkedRoute (k : gstr) : result topoError RoutingRoute :=
  let! _ := V (REndpoint (R k)) in Ok (R k).

Definition each_key (groups : routeGroups gstr) (pk : nat * gstr) : result topoError (routeGroups gstr) :=
  let! r := checkedRoute pk.2 in Ok (addToGroup true groups r pk.2 pk.1).

Definition each_group (groups : routeGroups gstr) (pk : nat * gstr) : result topoError (routeGroups gstr) :=
  let! _ := match groups !! routeIdentity (R pk.2) with Some _ => Ok tt | None => V (REndpoint (R pk.2)) end in
  Ok (addToGroup true groups (R pk.2) pk.2 pk.1).

Definition validated (groups : routeGroups gstr) : Prop :=
  forall id g, groups !! id = Some g -> exists k, routeIdentity (R k) = id /\ V (REndpoint (R k)) = Ok tt.

Lemma each_key_group groups pk : validated groups -> each_group groups pk = each_key groups pk.
Proof.
  intros Hv. unfold each_group, each_key, checkedRoute.
  destruct (groups !! routeIdentity (R pk.2)) as [g|] eqn:E; cbn.
  - destruct (Hv _ _ E) as (k & Hid & Hk). apply endpoint_of_identity in Hid.
    rewrite Hid in Hk. by rewrite Hk.
  - by destruct (V _) as [[]|].
Qed.

Lemma each_key_validated groups pk groups' :
  validated groups -> each_key groups pk = Ok groups' -> validated groups'.
Proof.
  intros Hv H. unfold each_key, checkedRoute in H. apply rbind_ok in H as (r & H & [= <-]).
  apply rbind_ok in H as ([] & HV & [= <-]).
  intros id g. unfold addToGroup. intros [[<- _]|[_ Hg]]%lookup_insert_Some; eauto.
Qed.

Lemma each_fold l : forall groups, validated groups -> rfold each_group groups l = rfold each_key groups l.
Proof.
  induction l as [|pk l IH]; intros groups Hv; cbn; [done|]. rewrite each_key_group by done.
  destruct (each_key groups pk) eqn:E; cbn; [|done]. apply IH. by eapply each_key_validated.
Qed.

(** Keys of one identity form one group. *)
Lemma one_group first rest :
  Forall (fun k => routeIdentity (R k) = routeIdentity (R first)) rest ->
  V (REndpoint (R first)) = Ok tt ->
  groupKeys checkedRoute (first :: rest) =
    Ok (<[routeIdentity (R first) := Group (R first) (first :: rest) (seq 0 (S (length rest)))]> ∅).
Proof.
  intros Hrest HV. induction rest as [|k rest IH] using rev_ind.
  - unfold groupKeys, checkedRoute. cbn. rewrite HV. cbn. unfold addToGroup.
    by rewrite lookup_empty.
  - apply Forall_app in Hrest as [Hrest Hk]. apply Forall_cons in Hk as [Hk _].
    change (first :: rest ++ [k]) with ((first :: rest) ++ [k]). unfold groupKeys.
    rewrite imap_pair_snoc, rfold_app. fold (groupKeys checkedRoute (first :: rest)).
    rewrite IH by done. cbn [rbind rfold snd fst]. unfold checkedRoute at 1.
    rewrite (endpoint_of_identity _ _ Hk), HV. cbn [rbind]. unfold addToGroup.
    rewrite Hk, lookup_insert_eq. cbn [default groute gkeys gpositions]. rewrite insert_insert_eq.
    cbn [length]. by rewrite length_app, Nat.add_1_r, (seq_S (S (length rest))).
Qed.

End Planners.

(** The route of a key on an accepted topology. *)
Definition routeOfKey (t : RoutingTopology) (key : gstr) : RoutingRoute :=
  default (Route 0 0 [] (Endpoint [] [] 0 0) [] 0) (slots t !! routeSlotForString key).

Lemma routeOfKey_lookup t key :
  topology_ok t -> slots t !! routeSlotForString key = Some (routeOfKey t key) /\
    Slot (routeOfKey t key) = routeSlotForString key.
Proof.
  intros Hok. assert (0 <= routeSlotForString key < routeSlotCount) as Hs.
  { rewrite routeSlotForString_generic. apply flowTagRoutingSlot_range. }
  destruct (topology_lookup t _ Hok Hs) as (r & Hlook & Hslot).
  unfold routeOfKey. by rewrite Hlook.
Qed.

Lemma route_string_key t key :
  topology_ok t -> routeStringKeyInTopology (Some t) key = Ok (routeOfKey t key).
Proof.
  intros Hok. destruct (routeOfKey_lookup t key Hok) as [Hl Hs]. unfold routeStringKeyInTopology.
  rewrite Hl. destruct (routeOfKey t key); cbn in *. by rewrite Hs.
Qed.

Lemma route_in_snapshot rules t key :
  topology_ok t -> reservedInternalKeyString key = false ->
  routeInSnapshot rules (Some t) (KeyArg (Arg (VString key))) =
  checkedRoute (routeOfKey t) (validateEndpoint rules) key.
Proof.
  intros Hok Hr. destruct (routeOfKey_lookup t key Hok) as [Hl Hs].
  unfold routeInSnapshot, RouteKey, routeSlotForKey, checkedRoute.
  change (default [] (argText (Arg (VString key)))) with key.
  cbn [argRouteKey isRouteKey negb]. rewrite Hr. unfold routeSlot.
  assert (0 <= routeSlotForString key < routeSlotCount) as Hb.
  { rewrite routeSlotForString_generic. apply flowTagRoutingSlot_range. }
  destruct (Z.ltb_spec (routeSlotForString key) 0), (Z.leb_spec routeSlotCount (routeSlotForString key));
    try lia. cbn [orb]. rewrite Hl. destruct (routeOfKey t key); cbn in *. by rewrite Hs.
Qed.

Lemma identity_endpoint t a b :
  topology_ok t -> routeIdentity (routeOfKey t a) = routeIdentity (routeOfKey t b) ->
  REndpoint (routeOfKey t a) = REndpoint (routeOfKey t b).
Proof.
  intros Hok H. destruct (routeOfKey_lookup t a Hok) as [Ha _], (routeOfKey_lookup t b Hok) as [Hb _].
  apply (to_route _ Hok) in Ha as (_ & _ & _ & Hka & Hea).
  apply (to_route _ Hok) in Hb as (_ & _ & _ & Hkb & Heb).
  unfold routeIdentity in H. rewrite <- Hka, <- Hkb in H.
  assert (EndpointKey (routeOfKey t a) = EndpointKey (routeOfKey t b)) as Hk.
  { injection H. repeat case_bool_decide; congruence. }
  rewrite Hk in Hea. congruence.
Qed.

Lemma divergence_spec t id keys : forall offset,
  topology_ok t ->
  (divergenceFrom (Some t) id offset keys = Ok None /\
   Forall (fun k => routeIdentity (routeOfKey t k) = id) keys) \/
  exists pre k tail, keys = pre ++ k :: tail /\
    divergenceFrom (Some t) id offset keys = Ok (Some (offset + length pre)%nat) /\
    Forall (fun k => routeIdentity (routeOfKey t k) = id) pre /\ routeIdentity (routeOfKey t k) <> id.
Proof.
  induction keys as [|k keys IH]; intros offset Hok; cbn [divergenceFrom].
  - left. by split.
  - rewrite route_string_key by done. cbn [rbind]. case_bool_decide as Hk.
    + destruct (IH (S offset) Hok) as [[-> ?]|(pre & k' & tail & -> & -> & ? & ?)].
      * left. split; [done|by constructor].
      * right. exists (k :: pre), k', tail. split_and!; [done| |by constructor|done].
        do 2 f_equal. cbn. lia.
    + right. exists [], k, keys. split_and!; [done| |constructor|done]. by rewrite Nat.add_0_r.
Qed.

Lemma groupKeys_ext {E K} (route1 route2 : K -> result E RoutingRoute) keys :
  Forall (fun k => route1 k = route2 k) keys -> groupKeys route1 keys = groupKeys route2 keys.
Proof.
  intros H. apply rfold_ext. intros s [p k] Hin.
  apply elem_of_lookup_imap in Hin as (i & k' & [= -> ->] & Hk).
  cbn [fst snd]. pose proof (Forall_lookup_1 _ _ _ _ H Hk) as Hr. cbn in Hr. by rewrite Hr.
Qed.

Lemma divergence_split {A} (a : A) pre k tail :
  take (1 + length pre) (a :: pre ++ k :: tail) = a :: pre /\
  drop (1 + length pre) (a :: pre ++ k :: tail) = k :: tail.
Proof. cbn. by rewrite take_app_length, drop_app_length. Qed.

(** The groups of a typed plan; one group when all keys have one route. *)
Definition asPlan {K} (keys : list K) (p : RoutingRoute * option (routeGroups K)) : routeGroups K :=
  match p.2 with
  | Some groups => groups
  | None => <[routeIdentity p.1 := Group p.1 keys (seq 0 (length keys))]> ∅
  end.

Lemma plan_string_groups rules t key rest :
  topology_ok t ->
  rmap (asPlan (key :: rest)) (planStringKeyRoutesInTopology rules (Some t) key rest true) =
  groupKeys (checkedRoute (routeOfKey t) (validateEndpoint rules)) (key :: rest).
Proof.
  intros Hok. pose proof (identity_endpoint t) as Hid.
  assert (forall a b, routeIdentity (routeOfKey t a) = routeIdentity (routeOfKey t b) ->
    REndpoint (routeOfKey t a) = REndpoint (routeOfKey t b)) as Hep by eauto. clear Hid.
  unfold planStringKeyRoutesInTopology, singleRouteInTopology. rewrite route_string_key by done.
  cbn [rbind]. destruct (validateEndpoint rules (REndpoint (routeOfKey t key))) as [[]|e] eqn:HV.
  2: { unfold groupKeys, checkedRoute. cbn. by rewrite HV. }
  cbn [rbind].
  destruct (divergence_spec t (routeIdentity (routeOfKey t key)) rest 1 Hok)
    as [[-> Hall]|(pre & k & tail & -> & -> & Hpre & Hk)]; cbn [rbind].
  - by rewrite one_group.
  - destruct (divergence_split key pre k tail) as [-> ->]. rewrite route_string_key by done.
    unfold groupKeys. change (key :: pre ++ k :: tail) with ((key :: pre) ++ k :: tail).
    rewrite imap_app, rfold_app. fold (groupKeys (checkedRoute (routeOfKey t) (validateEndpoint rules)) (key :: pre)).
    rewrite one_group by done. cbn [rbind imap rfold snd fst]. unfold checkedRoute at 1.
    destruct (validateEndpoint rules (REndpoint (routeOfKey t k))) as [[]|e] eqn:HVk; [|done].
    cbn [rbind]. rewrite (add_new true _ (routeOfKey t k)) by (by rewrite lookup_insert_ne, lookup_empty).
    cbn [length]. rewrite Nat.add_0_r. change (1 + length pre)%nat with (S (length pre)).
    set (groups := <[routeIdentity (routeOfKey t k) := _]> _).
    rewrite (rfold_ext (addStringKey rules (Some t) true)
      (each_group (routeOfKey t) (validateEndpoint rules))).
    2: { intros s pk _. unfold addStringKey. by rewrite route_string_key. }
    rewrite each_fold; [|done|].
    + rewrite (imap_ext ((fun n => pair (S (length pre) + n)%nat) ∘ S)
        (fun i k => (S (S (length pre)) + i, k)%nat)) by (intros; cbn; f_equal; lia).
      unfold each_key. by destruct (rfold _ groups _).
    + intros id g. unfold groups. intros [[<- _]|[_ Hg]]%lookup_insert_Some; [eauto|].
      apply lookup_insert_Some in Hg as [[<- _]|[_ Hg]]; [eauto|]. by rewrite lookup_empty in Hg.
Qed.

Definition keyArg (key : gstr) : arg := Arg (VString key).

(** The typed planner, which finds the common prefix and checks an endpoint
    once per group, makes the plan of the general planner, which looks at every
    key on its own: same groups, same positions, same error. *)
Theorem planners_agree value t rules key rest :
  buildRoutingTopology value = Ok t ->
  Forall (fun k => reservedInternalKeyString k = false) (key :: rest) ->
  planScatterGroups rules (Some t) (keyArg <$> key :: rest) =
  rmap (fun p => group_map keyArg <$> asPlan (key :: rest) p)
    (planStringKeyRoutesInTopology rules (Some t) key rest true).
Proof.
  intros Hok%build_topology_inv Hpub. unfold planScatterGroups. rewrite groupKeys_map.
  rewrite (groupKeys_ext _ (checkedRoute (routeOfKey t) (validateEndpoint rules))).
  - rewrite <- plan_string_groups by done. by destruct (planStringKeyRoutesInTopology _ _ _ _ _).
  - eapply Forall_impl; [exact Hpub|]. intros k Hk. by apply route_in_snapshot.
Qed.

(** ** The planning loops *)

(** An attempt that ended in a refresh: a failed plan for a current snapshot. *)
Definition refreshes {A} (plan : option RoutingTopology -> result topoError A)
  (rounds : nat -> planningRound) (attempt : nat) : bool :=
  match captured (rounds attempt) with
  | Some t => stillCurrent (rounds attempt) && negb (is_ok (plan t))
  | None => false
  end.

Lemma planAttempts_spec {A} (plan : option RoutingTopology -> result topoError A) rounds n :
  forall i hasRefreshed j a,
  planAttempts plan rounds n i hasRefreshed = Ok (j, a) ->
  (i <= j < i + n)%nat /\
  (exists t, captured (rounds j) = Some t /\ stillCurrent (rounds j) = true /\ plan t = Ok a) /\
  (length (filter (fun k => refreshes plan rounds k = true) (seq i (j - i)))
     <= if hasRefreshed then 0 else 1)%nat.
Proof.
  induction n as [|n IH]; intros i hasRefreshed j a; cbn [planAttempts]; [done|].
  destruct (captured (rounds i)) as [t|] eqn:Ec; [|done].
  assert (forall b, planAttempts plan rounds n (S i) b = Ok (j, a) ->
    (i <= j < i + S n)%nat /\
    (exists t, captured (rounds j) = Some t /\ stillCurrent (rounds j) = true /\ plan t = Ok a) /\
    (length (filter (fun k => refreshes plan rounds k = true) (seq i (j - i))) <=
      (if refreshes plan rounds i then 1 else 0) + if b then 0 else 1)%nat) as Hnext.
  { intros b (Hj & Ht & Hl)%IH. split_and!; [lia|lia|done|].
    replace (j - i)%nat with (S (j - S i)) by lia. cbn [seq]. rewrite filter_cons.
    destruct (refreshes plan rounds i); case_decide; try done; cbn; lia. }
  destruct (stillCurrent (rounds i)) eqn:Es; cbn [negb].
  - destruct (plan t) as [a'|e] eqn:Ep.
    + intros [= <- <-]. rewrite Nat.sub_diag. split_and!; [lia|lia|eauto|cbn; destruct hasRefreshed; lia].
    + destruct hasRefreshed; [done|]. destruct (refreshed (rounds i)); [done|].
      assert (refreshes plan rounds i = true) as Er by (unfold refreshes; by rewrite Ec, Es, Ep).
      intros (? & ? & Hl)%Hnext. by rewrite Er in Hl.
  - assert (refreshes plan rounds i = false) as Er by (unfold refreshes; by rewrite Ec, Es).
    intros (? & ? & Hl)%Hnext. by rewrite Er in Hl.
Qed.

Lemma planScatterRoutes_spec rules rounds keys attempt groups :
  planScatterRoutes rules rounds keys = Ok (attempt, groups) ->
  Forall (fun k => argRouteKey k = true) keys /\
  (attempt < maxTopologyPlanningAttempts)%nat /\
  exists t R, captured (rounds attempt) = Some t /\ stillCurrent (rounds attempt) = true /\
    (forall k r, routeInSnapshot rules t (KeyArg k) = Ok r -> r = R k) /\ groups_ok R keys groups /\
    (length (filter (fun i => refreshes (fun t => planScatterGroups rules t keys) rounds i = true)
       (seq 0 attempt)) <= 1)%nat.
Proof.
  unfold planScatterRoutes. destruct (forallb argRouteKey keys) eqn:Hk; [|done].
  intros (Hj & (t & Hc & Hs & Hp) & Hl)%planAttempts_spec. split; [|split; [lia|]].
  { apply Forall_forall. intros k Hin. rewrite forallb_forall in Hk.
    by apply Hk, list_elem_of_In. }
  set (R := fun k => match routeInSnapshot rules t (KeyArg k) with
    | Ok r => r | Err _ => Route 0 0 [] (Endpoint [] [] 0 0) [] 0 end).
  assert (forall k r, routeInSnapshot rules t (KeyArg k) = Ok r -> r = R k) as HR.
  { intros k r Hr. unfold R. by rewrite Hr. }
  exists t, R. split_and!; [done|done|done|exact (groupKeys_ok _ R keys groups HR Hp)|].
  rewrite Nat.sub_0_r in Hl. exact Hl.
Qed.

(** A scatter plan is only dispatched for a snapshot that was still current
    once planned, after at most eight attempts and one refresh; its groups hold
    every key exactly once, at its position, under its own route. *)
Theorem scatter_plan_current rules rounds keys attempt groups :
  planScatterRoutes rules rounds keys = Ok (attempt, groups) ->
  (attempt < maxTopologyPlanningAttempts)%nat /\
  exists t R, captured (rounds attempt) = Some t /\ stillCurrent (rounds attempt) = true /\
    (forall k r, routeInSnapshot rules t (KeyArg k) = Ok r -> r = R k) /\ groups_ok R keys groups /\
    (length (filter (fun i => refreshes (fun t => planScatterGroups rules t keys) rounds i = true)
       (seq 0 attempt)) <= 1)%nat.
Proof. intros (_ & H)%planScatterRoutes_spec. exact H. Qed.

(** ** A concrete plan *)

Definition example_rules : endpointRules := EndpointRules PolicyAny ∅ ∅ false None.

(** Two shards, on two endpoints. *)
Definition example_half (first last shard : Z) (host : gstr) : val :=
  VMap None [(go "first_slot", VInt IInt64 first); (go "last_slot", VInt IInt64 last);
    (go "shard", VInt IInt64 shard); (go "lane_id", VInt IInt64 (shard + 1));
    (go "host", VBytes host); (go "native_port", VInt IInt64 6388)].

Definition two_shards : val :=
  VMap None [(go "route_epoch", VInt IInt64 7); (go "shard_count", VInt IInt64 2);
    (go "ranges", VArray None [example_half 0 511 0 (go "db1"); example_half 512 1023 1 (go "db2")])].

Definition two_topology : RoutingTopology :=
  match buildRoutingTopology two_shards with Ok t => t | Err _ => Topology 0 0 ∅ ∅ end.

Lemma two_build : buildRoutingTopology two_shards = Ok two_topology.
Proof. vm_compute. reflexivity. Qed.

(** Slots 579, 183 and 716: "cart" goes to the first shard, "a" and "d" to the second. *)
Example two_groups :
  ((fun kv => (idEndpoint kv.1, gkeys kv.2, gpositions kv.2)) <$>
    match planStringKeyRoutesInTopology example_rules (Some two_topology) (go "a") [go "cart"; go "d"] true with
    | Ok (_, Some m) => map_to_list m | _ => [] end)
  ≡ₚ [(go "db2:6388", [go "a"; go "d"], [0; 2]%nat); (go "db1:6388", [go "cart"], [1%nat])].
Proof. vm_compute. solve_Permutation. Qed.

Lemma planners_agree_witness :
  planScatterGroups example_rules (Some two_topology) (keyArg <$> [go "a"; go "cart"; go "d"]) =
  rmap (fun p => group_map keyArg <$> asPlan [go "a"; go "cart"; go "d"] p)
    (planStringKeyRoutesInTopology example_rules (Some two_topology) (go "a") [go "cart"; go "d"] true).
Proof.
  apply (planners_agree two_shards); [exact two_build|].
  repeat (apply Forall_cons; split; [vm_compute; reflexivity|]). constructor.
Defined.

(** The second attempt, after a refresh of an empty topology. *)
Definition example_rounds (attempt : nat) : planningRound :=
  match attempt with
  | O => Round (Some None) true None
  | _ => Round (Some (Some two_topology)) true None
  end.

Definition example_keys : list arg := [keyArg (go "a"); keyArg (go "cart")].

Definition example_groups : routeGroups arg :=
  match planScatterRoutes example_rules example_rounds example_keys with
  | Ok (_, groups) => groups
  | Err _ => ∅
  end.

Lemma example_plan :
  planScatterRoutes example_rules example_rounds example_keys = Ok (1%nat, example_groups).
Proof.
  assert (match planScatterRoutes example_rules example_rounds example_keys with
          | Ok (S O, _) => true | _ => false end = true) as H by (vm_compute; reflexivity).
  unfold example_groups. destruct (planScatterRoutes _ _ _) as [[[|[|n]] groups]|]; done.
Qed.

Lemma scatter_plan_current_witness :
  exists t R, captured (example_rounds 1) = Some t /\
    (forall k r, routeInSnapshot example_rules t (KeyArg k) = Ok r -> r = R k) /\
    groups_ok R example_keys example_groups.
Proof.
  destruct (scatter_plan_current _ _ _ _ _ example_plan) as (_ & t & R & Hc & _ & HR & Hok & _).
  exists t, R. split_and!; [exact Hc|exact HR|exact Hok].
Defined.
