(* ===== verification/Order.v ===== *)
(** Strict total orders as boolean functions, their lexicographic products, and
    sorting by a key: what [sort.SliceStable] promises when the comparison is an
    order on a key of the elements. *)

From S2P Require Export Prelude.

Class StrictOrd (A : Type) := {
  sltb : A -> A -> bool;
  sltb_irrefl a : sltb a a = false;
  sltb_trans a b c : sltb a b = true -> sltb b c = true -> sltb a c = true;
  sltb_total a b : sltb a b = false -> sltb b a = false -> a = b;
}.

#[export] Program Instance gstr_ord : StrictOrd gstr := {| sltb := gstr_ltb |}.
Next Obligation. apply gstr_ltb_irrefl. Qed.
Next Obligation. eapply gstr_ltb_trans; eauto. Qed.
Next Obligation. by apply gstr_ltb_total. Qed.

#[export] Program Instance Z_ord : StrictOrd Z := {| sltb := Z.ltb |}.
Next Obligation. apply Z.ltb_irrefl. Qed.
Next Obligation. lia. Qed.
Next Obligation. lia. Qed.

#[export] Program Instance bool_ord : StrictOrd bool := {| sltb a b := negb a && b |}.
Next Obligation. by intros []. Qed.
Next Obligation. by intros [] [] []. Qed.
Next Obligation. by intros [] []. Qed.

Section lexicographic.
Context `{OA : StrictOrd A}.

Lemma sltb_asym a b : sltb a b = true -> sltb b a = false.
Proof.
  intros H. destruct (sltb b a) eqn:E; [|done].
  pose proof (sltb_trans _ _ _ H E) as F. by rewrite sltb_irrefl in F.
Qed.

(** Not less is transitive: a total preorder. *)
Lemma sltb_ge_trans a b c : sltb b a = false -> sltb c b = false -> sltb c a = false.
Proof.
  intros Hba Hcb. destruct (sltb c a) eqn:Hca; [|done].
  destruct (sltb a b) eqn:Hab.
  - by rewrite (sltb_trans _ _ _ Hca Hab) in Hcb.
  - rewrite (sltb_total _ _ Hab Hba) in Hca. congruence.
Qed.

Definition lex_ltb {B} (ltb : B -> B -> bool) (p q : A * B) : bool :=
  if sltb p.1 q.1 then true else if sltb q.1 p.1 then false else ltb p.2 q.2.

Fixpoint list_ltb (l k : list A) : bool :=
  match l, k with
  | [], [] => false
  | [], _ :: _ => true
  | _ :: _, [] => false
  | a :: l, b :: k => if sltb a b then true else if sltb b a then false else list_ltb l k
  end.

(** Case analysis on how two keys compare. *)
Lemma sltb_cases a b :
  (sltb a b = true /\ sltb b a = false) \/ (sltb a b = false /\ sltb b a = true) \/
  (a = b /\ sltb a b = false /\ sltb b a = false).
Proof.
  destruct (sltb a b) eqn:Hab; [left; by auto using sltb_asym|right].
  destruct (sltb b a) eqn:Hba; [by left|right]. split_and!; [by apply sltb_total|done|done].
Qed.

End lexicographic.

#[export] Program Instance prod_ord `{OA : StrictOrd A, OB : StrictOrd B} : StrictOrd (A * B) :=
  {| sltb := lex_ltb sltb |}.
Next Obligation. intros A OA B OB [a b]. unfold lex_ltb. cbn. by rewrite !sltb_irrefl. Qed.
Next Obligation.
  intros A OA B OB [a1 b1] [a2 b2] [a3 b3]. unfold lex_ltb. cbn.
  destruct (sltb_cases a1 a2) as [[H1 H1']|[[H1 H1']|(-> & H1 & H1')]]; rewrite H1, ?H1'; try done;
    destruct (sltb_cases a2 a3) as [[H2 H2']|[[H2 H2']|(-> & H2 & H2')]]; rewrite ?H2, ?H2'; try done;
    try (by rewrite (sltb_trans _ _ _ H1 H2)); try (by rewrite ?H1, ?H1').
  apply sltb_trans.
Qed.
Next Obligation.
  intros A OA B OB [a1 b1] [a2 b2]. unfold lex_ltb. cbn.
  destruct (sltb_cases a1 a2) as [[H H']|[[H H']|(-> & H & H')]]; rewrite H, ?H'; try done.
  intros. f_equal. by apply sltb_total.
Qed.

#[export] Program Instance list_ord `{OA : StrictOrd A} : StrictOrd (list A) := {| sltb := list_ltb |}.
Next Obligation.
  intros A OA l. induction l as [|a l IH]; cbn; [done|]. by rewrite sltb_irrefl.
Qed.
Next Obligation.
  intros A OA l. induction l as [|a l IH]; intros [|b k] [|c m]; cbn; try done.
  destruct (sltb_cases a b) as [[H1 H1']|[[H1 H1']|(-> & H1 & H1')]]; rewrite H1, ?H1'; try done;
    destruct (sltb_cases b c) as [[H2 H2']|[[H2 H2']|(-> & H2 & H2')]]; rewrite ?H2, ?H2'; try done;
    try (by rewrite (sltb_trans _ _ _ H1 H2)); try (by rewrite ?H1, ?H1').
  apply IH.
Qed.
Next Obligation.
  intros A OA l. induction l as [|a l IH]; intros [|b k]; cbn; try done.
  destruct (sltb_cases a b) as [[H H']|[[H H']|(-> & H & H')]]; rewrite H, ?H'; try done.
  intros. f_equal. by apply IH.
Qed.

(** ** Sorting *)

Definition in_order {A} (less : A -> A -> bool) (a b : A) : Prop := less b a = false.

#[export] Instance in_order_dec {A} (less : A -> A -> bool) : RelDecision (in_order less).
Proof. intros a b. unfold in_order. apply _. Defined.

(** [sort.SliceStable(l, less)]. *)
Definition sliceStable {A} (less : A -> A -> bool) (l : list A) : list A :=
  merge_sort (in_order less) l.

Section by_key.
Context {A} `{OK : StrictOrd K} (key : A -> K) (less : A -> A -> bool).
Context (less_key : forall a b, less a b = sltb (key a) (key b)).

Lemma sliceStable_perm l : sliceStable less l ≡ₚ l.
Proof. apply merge_sort_Permutation. Qed.

Lemma sliceStable_sorted l : Sorted (in_order less) (sliceStable less l).
Proof.
  apply Sorted_merge_sort. intros a b. unfold in_order. rewrite !less_key.
  destruct (sltb_cases (key a) (key b)) as [[H H']|[[H H']|(H & H' & _)]]; auto.
Qed.

(** The sorted keys do not depend on the order of the elements. *)
Lemma sliceStable_keys l k : l ≡ₚ k -> key <$> sliceStable less l = key <$> sliceStable less k.
Proof.
  intros Hp. set (R := fun x y : K => sltb y x = false).
  assert (forall l, Sorted R (key <$> sliceStable less l)) as Hs.
  { intros l'. generalize (sliceStable_sorted l'). generalize (sliceStable less l').
    intros l0 H. induction H as [|a l0 H IH Hd]; cbn; constructor; [done|].
    destruct Hd as [|b l0 Hd]; constructor. unfold R. rewrite <- less_key. done. }
  assert (Transitive R) as HT by (intros x y z; unfold R; intros; by eapply sltb_ge_trans).
  assert (AntiSymm (=) R) as HA by (intros x y; unfold R; intros; by apply sltb_total).
  apply (Sorted_unique R); [apply Hs|apply Hs|].
  apply (Permutation_map key). by rewrite (sliceStable_perm l), (sliceStable_perm k).
Qed.

End by_key.
