(* ===== verification/Scatter.v ===== *)
(** Multi-key commands split over the shards (src/topology_scatter.go,
    src/topology_scatter_command.go, src/topology_scatter_retry.go,
    src/topology_kv.go, src/topology_errors.go): one
    request per group of a plan, run concurrently, their results put together in
    the order they complete.

    The shards, connections and the topology refresh are parameters: what a
    request returns, whether it may be repeated after a refresh, the plan of the
    repetition, and the order of completion. [X] is the type of their errors. *)

From S2P Require Export ScatterPlan Commands Order.

Section Errors.
Context {X : Type}.

Inductive scError :=
| ScExec (x : X)
| ScPlan (e : planError)
| ScCrossShard (command : gstr)
| ScShape (value : val) (expected : Z)
| ScInteger (value : val)
| ScCount (command : gstr) (count size : Z)
| ScUnsupported (command : gstr)
| ScWriteFailure (route : RoutingRoute) (keys : list gstr) (err : scError)
| ScPartial (command : gstr) (succeeded : Z) (failures : list scError).

(** [topologyStringKeyWriteFailure] and, on the texts of the keys,
    [topologyKeyWriteFailure]. *)
Definition topologyKeyWriteFailure (attributed : bool) (route : RoutingRoute) (keys : list gstr)
  (err : scError) : scError :=
  if attributed then ScWriteFailure route keys err else err.

(** [errors.As(err, *TopologyWriteFailure)]: the first in the chain, the failures
    of a partial error included. *)
Fixpoint asWriteFailure (err : scError) : option (RoutingRoute * list gstr * scError) :=
  match err with
  | ScWriteFailure route keys err => Some (route, keys, err)
  | ScPartial _ _ failures =>
      (fix first l := match l with
        | [] => None
        | e :: l => match asWriteFailure e with Some f => Some f | None => first l end
        end) failures
  | _ => None
  end.

(** [errors.As(err, *TopologyPartialWriteError)]. *)
Fixpoint asPartial (err : scError) : option (Z * list scError) :=
  match err with
  | ScPartial _ succeeded failures => Some (succeeded, failures)
  | ScWriteFailure _ _ err => asPartial err
  | _ => None
  end.

(** [err.Error()]. *)
Context (error_text : scError -> gstr).

(** [compareTopologyFailureKeys]: negative, zero or positive. *)
Fixpoint compareTopologyFailureKeys (lkeys rkeys : list gstr) : Z :=
  match lkeys, rkeys with
  | [], [] => 0
  | [], _ :: _ => -1
  | _ :: _, [] => 1
  | l :: lkeys, r :: rkeys =>
      if gstr_ltb l r then -1 else if gstr_ltb r l then 1
      else compareTopologyFailureKeys lkeys rkeys
  end.

Definition failureEndpoint (route : RoutingRoute) : gstr :=
  if bool_decide (EndpointKey route = []) then endpointKey (REndpoint route) else EndpointKey route.

Definition topologyFailureLess (l r : scError) : bool :=
  match asWriteFailure l, asWriteFailure r with
  | Some _, None => true
  | None, Some _ => false
  | None, None => gstr_ltb (error_text l) (error_text r)
  | Some (lroute, lkeys, lerr), Some (rroute, rkeys, rerr) =>
      let leftEndpoint := failureEndpoint lroute in
      let rightEndpoint := failureEndpoint rroute in
      if negb (bool_decide (leftEndpoint = rightEndpoint)) then gstr_ltb leftEndpoint rightEndpoint
      else if negb (Shard lroute =? Shard rroute) then Shard lroute <? Shard rroute
      else if negb (LaneID lroute =? LaneID rroute) then LaneID lroute <? LaneID rroute
      else
        let comparison := compareTopologyFailureKeys lkeys rkeys in
        if negb (comparison =? 0) then comparison <? 0
        else gstr_ltb (error_text lerr) (error_text rerr)
  end.

Definition newTopologyPartialWriteError (command : gstr) (succeeded : Z) (failures : list scError)
  : scError :=
  ScPartial command succeeded (sliceStable topologyFailureLess failures).

End Errors.
Arguments scError : clear implicits.

(** ** Commands of a group *)

Definition safeScatterCommand (args : list arg) : option (gstr * list arg) :=
  let args := canonicalCommandArgs args in
  match args with
  | [] => None
  | _ =>
      let name := commandName args in
      match topologyPolicyKeys name args with
      | Some (keys, policy) => if scatter policy then Some (name, keys) else None
      | None => None
      end
  end.

Definition destructiveScatterCommand (name : gstr) : bool :=
  match assoc_get name topologyCommandPolicies with
  | Some policy => destructive policy
  | None => false
  end.

(** [scatterCommandArgs]; [None] is the absence of a request context. *)
Definition scatterCommandArgs (name : gstr) (keys : list arg) (requestContext : option arg) : list arg :=
  match requestContext with
  | Some context =>
      appendNativeRequestContext (Arg (VString (go "COMMAND_EXEC")) :: Arg (VString name) :: keys) context
  | None => Arg (VString name) :: keys
  end.

(** [topologyScatterGroupResult]. *)
Record groupResult (X : Type) := GroupResult {
  gr_values : list val;
  gr_count : Z;
  gr_failures : list (scError X);
}.
Arguments GroupResult {X}.
Arguments gr_values {X}.
Arguments gr_count {X}.
Arguments gr_failures {X}.

(** [asString] of a routing key. *)
Definition keyText (key : arg) : gstr := default [] (argText key).

Definition failedScatterGroup {X} (attributed : bool) (group : routeGroup arg) (err : scError X)
  : groupResult X :=
  GroupResult [] 0 [topologyKeyWriteFailure attributed (groute group) (keyText <$> gkeys group) err].

(** The answer [items] to an MGET of [size] keys. *)
Definition mgetItems {X} (value : val) (size : Z) : result (scError X) (list val) :=
  match value with
  | VArray _ items => if blen items =? size then Ok items else Err (ScShape value size)
  | _ => Err (ScShape value size)
  end.

(** The answer to a counting command on [size] keys. *)
Definition shardCountOf {X} (name : gstr) (value : val) (size : Z) : result (scError X) Z :=
  match responseInt64 value with
  | None => Err (ScInteger value)
  | Some count => if (count <? 0) || (size <? count) then Err (ScCount name count size) else Ok count
  end.

Definition decodedScatterGroup {X} (name : gstr) (group : routeGroup arg) (value : val)
  (destructive : bool) : groupResult X :=
  if bool_decide (name = go "MGET") then
    match mgetItems value (blen (gpositions group)) with
    | Ok items => GroupResult items 0 []
    | Err e => failedScatterGroup destructive group e
    end
  else match shardCountOf name value (blen (gkeys group)) with
  | Ok count => GroupResult [] count []
  | Err e => failedScatterGroup destructive group e
  end.

(** ** Putting results together *)

(** [values[position] = item] over a group. *)
Definition writeGroup (values : list val) (writes : list (nat * val)) : list val :=
  foldl (fun values w => <[w.1 := w.2]> values) values writes.

(** The writes of a group; the code indexes [result.values] by the positions, of
    which there are as many. *)
Definition groupWrites {K X} (gr : routeGroup K * groupResult X) : list (nat * val) :=
  zip (gpositions gr.1) (gr_values gr.2).

Definition topologyScatterValueSlots (name : gstr) (count : nat) : list val :=
  if bool_decide (name = go "MGET") then replicate count VNil else [].

(** [total += result.count] on [int64]. *)
Definition sumCounts (counts : list Z) : Z := foldl (fun total count => swrap 64 (total + count)) 0 counts.

(** ** Execution *)

Section Execution.
Context {X : Type}.
Context (error_text : scError X -> gstr).

(** One request: no connection (or no command) for it, an error, or an answer. *)
Inductive shardOutcome := NotSent (x : X) | Failed (x : X) | Reply (value : val).

(** What the scatter sees of the connections, the server and the scheduler: the
    outcome of a request, whether a failed one may be repeated (the topology
    having been refreshed), the attempts of the planning loop, the order in which
    the tasks of the groups complete and the order of their writes to the shared
    slice of values. The parent of a request is the group it repeats, if any. *)
Record scatterWorld := World {
  send : option (routeGroup arg) -> RoutingRoute -> list arg -> shardOutcome;
  reroute : X -> result X bool;
  rules : endpointRules;
  rounds : option (routeGroup arg) -> nat -> planningRound;
  completion {K} : routeGroups K -> list (routeGroup K);
  interleave : list (list (nat * val)) -> list (nat * val);
}.

(** The end of [scatterCommandAttempt], on the groups in order of completion. *)
Definition combine {K} (w : scatterWorld) (name : gstr) (count : nat)
  (done : list (routeGroup K * groupResult X)) : result (scError X) val :=
  let values := writeGroup (topologyScatterValueSlots name count) (interleave w (groupWrites <$> done)) in
  let total := sumCounts ((fun gr => gr_count gr.2) <$> done) in
  let failures := concat ((fun gr => gr_failures gr.2) <$> done) in
  match failures with
  | first :: _ =>
      if destructiveScatterCommand name
      then Err (newTopologyPartialWriteError error_text name total failures)
      else Err first
  | [] => if bool_decide (name = go "MGET") then Ok (VArray None values) else Ok (VInt IInt64 total)
  end.

Definition crossShardRejected (perShardWrites : bool) (name : gstr) (groups : nat) : bool :=
  (1 <? groups)%nat && destructiveScatterCommand name && negb perShardWrites.

(** [scatterCommandAttempt], given what one group's task returns. *)
Definition scatterCommandAttempt (w : scatterWorld) (perShardWrites : bool)
  (parent : option (routeGroup arg)) (name : gstr) (keys : list arg)
  (run : routeGroup arg -> groupResult X) : result (scError X) val :=
  match planScatterRoutes (rules w) (rounds w parent) keys with
  | Err e => Err (ScPlan e)
  | Ok (_, groups) =>
      if crossShardRejected perShardWrites name (size groups) then Err (ScCrossShard name)
      else combine w name (length keys) ((fun g => (g, run g)) <$> completion w groups)
  end.

(** [executeScatterCommandGroup] without a safe reroute. *)
Definition executeOnce (w : scatterWorld) (parent : option (routeGroup arg)) (name : gstr)
  (context : option arg) (group : routeGroup arg) : groupResult X :=
  let destructive := destructiveScatterCommand name in
  match send w parent (groute group) (scatterCommandArgs name (gkeys group) context) with
  | NotSent x | Failed x => failedScatterGroup destructive group (ScExec x)
  | Reply value => decodedScatterGroup name group value destructive
  end.

Definition retryScatterCommandGroup (w : scatterWorld) (perShardWrites : bool) (name : gstr)
  (context : option arg) (group : routeGroup arg) : groupResult X :=
  let value := scatterCommandAttempt w perShardWrites (Some group) name (gkeys group)
    (executeOnce w (Some group) name context) in
  match value with
  | Err err =>
      match asPartial err with
      | Some (succeeded, failures) => GroupResult [] succeeded failures
      | None => GroupResult [] 0 [err]
      end
  | Ok value =>
      if bool_decide (name = go "MGET") then
        match mgetItems value (blen (gkeys group)) with
        | Ok items => GroupResult items 0 []
        | Err e => failedScatterGroup false group e
        end
      else match shardCountOf name value (blen (gkeys group)) with
      | Ok count => GroupResult [] count []
      | Err e => failedScatterGroup (destructiveScatterCommand name) group e
      end
  end.

(** [executeScatterCommandGroup] with a safe reroute. *)
Definition executeScatterCommandGroup (w : scatterWorld) (perShardWrites : bool) (name : gstr)
  (context : option arg) (group : routeGroup arg) : groupResult X :=
  let destructive := destructiveScatterCommand name in
  match send w None (groute group) (scatterCommandArgs name (gkeys group) context) with
  | NotSent x => failedScatterGroup destructive group (ScExec x)
  | Failed x =>
      match reroute w x with
      | Err x => failedScatterGroup destructive group (ScExec x)
      | Ok true => retryScatterCommandGroup w perShardWrites name context group
      | Ok false => failedScatterGroup destructive group (ScExec x)
      end
  | Reply value => decodedScatterGroup name group value destructive
  end.

(** [scatterCommandWithContext]. *)
Definition scatterCommandWithContext (w : scatterWorld) (perShardWrites : bool) (name : gstr)
  (keys : list arg) (context : option arg) : result (scError X) val :=
  scatterCommandAttempt w perShardWrites None name keys (executeScatterCommandGroup w perShardWrites name context).

(** ** The typed commands *)

(** [retryStringMGetGroup]. *)
Definition retryStringMGetGroup (w : scatterWorld) (perShardWrites : bool) (group : routeGroup gstr)
  : result (scError X) (list val) :=
  let parent := group_map keyArg group in
  let! value := scatterCommandAttempt w perShardWrites (Some parent) (go "MGET") (gkeys parent)
    (executeOnce w (Some parent) (go "MGET") None) in
  mgetItems value (blen (gkeys group)).

(** [retryStringCountGroup]. *)
Definition retryStringCountGroup (w : scatterWorld) (perShardWrites : bool) (name : gstr)
  (group : routeGroup gstr) : groupResult X :=
  let parent := group_map keyArg group in
  match scatterCommandAttempt w perShardWrites (Some parent) name (gkeys parent)
    (executeOnce w (Some parent) name None) with
  | Err err =>
      match asPartial err with
      | Some (succeeded, failures) => GroupResult [] succeeded failures
      | None => GroupResult [] 0 [err]
      end
  | Ok value =>
      match shardCountOf name value (blen (gkeys group)) with
      | Ok count => GroupResult [] count []
      | Err e => GroupResult [] 0 [e]
      end
  end.

(** The requests of the typed commands: one per group, and the one of a plan with
    a single route, with its safe reroute. *)
Record typedWorld := TypedWorld {
  general : scatterWorld;
  sendKeys : RoutingRoute -> gstr -> list gstr -> shardOutcome;
  onRoute : RoutingRoute -> gstr -> list gstr -> result X val;
  typedRounds : nat -> planningRound;
}.

(** The task of a group in [scatterStringMGet]. *)
Definition stringMGetGroup (w : typedWorld) (perShardWrites : bool) (group : routeGroup gstr)
  : groupResult X :=
  let failed e := GroupResult [] 0 [e] in
  let decoded (r : result (scError X) (list val)) :=
    match r with Ok items => GroupResult items 0 [] | Err e => failed e end in
  match sendKeys w (groute group) (go "MGET") (gkeys group) with
  | NotSent x => failed (ScExec x)
  | Failed x =>
      match reroute (general w) x with
      | Err x => failed (ScExec x)
      | Ok true => decoded (retryStringMGetGroup (general w) perShardWrites group)
      | Ok false => failed (ScExec x)
      end
  | Reply value => decoded (mgetItems value (blen (gpositions group)))
  end.

(** The task of a group in [scatterStringCountCommand]. *)
Definition stringCountGroup (w : typedWorld) (perShardWrites : bool) (name : gstr)
  (group : routeGroup gstr) : groupResult X :=
  let failed e :=
    GroupResult [] 0 [topologyKeyWriteFailure (destructiveScatterCommand name) (groute group) (gkeys group) e] in
  match sendKeys w (groute group) name (gkeys group) with
  | NotSent x => failed (ScExec x)
  | Failed x =>
      match reroute (general w) x with
      | Err x => failed (ScExec x)
      | Ok true => retryStringCountGroup (general w) perShardWrites name group
      | Ok false => failed (ScExec x)
      end
  | Reply value =>
      match shardCountOf name value (blen (gkeys group)) with
      | Ok count => GroupResult [] count []
      | Err e => failed e
      end
  end.

(** [keyValueMGet] on an open executor. *)
Definition keyValueMGet (w : typedWorld) (perShardWrites : bool) (keys : list gstr)
  : result (scError X) val :=
  match keys with
  | [] => Ok (VArray None [])
  | key :: rest =>
      match planStringKeyRoutesSnapshot (rules (general w)) (typedRounds w) key rest true with
      | Err e => Err (ScPlan e)
      | Ok (_, (route, None)) =>
          match onRoute w route (go "MGET") keys with
          | Err x => Err (ScExec x)
          | Ok value => let! items := mgetItems value (blen keys) in Ok (VArray None items)
          end
      | Ok (_, (_, Some groups)) =>
          combine (general w) (go "MGET") (length keys)
            ((fun g => (g, stringMGetGroup w perShardWrites g)) <$> completion (general w) groups)
      end
  end.

(** [keyValueDel] and [keyValueExists] on an open executor. *)
Definition keyValueCount (w : typedWorld) (perShardWrites : bool) (name : gstr) (keys : list gstr)
  : result (scError X) val :=
  match keys with
  | [] => Ok (VInt IInt64 0)
  | key :: rest =>
      match planStringKeyRoutesSnapshot (rules (general w)) (typedRounds w) key rest false with
      | Err e => Err (ScPlan e)
      | Ok (_, (route, None)) =>
          match onRoute w route name keys with
          | Err x => Err (ScExec x)
          | Ok value => let! count := shardCountOf name value (blen keys) in Ok (VInt IInt64 count)
          end
      | Ok (_, (_, Some groups)) =>
          if crossShardRejected perShardWrites name (size groups) then Err (ScCrossShard name)
          else combine (general w) name (length keys)
            ((fun g => (g, stringCountGroup w perShardWrites name g)) <$> completion (general w) groups)
      end
  end.

End Execution.
Arguments shardOutcome : clear implicits.
Arguments scatterWorld : clear implicits.
Arguments typedWorld : clear implicits.

(** ** Reading results off the groups *)

Lemma writeGroup_lookup target writes : forall init,
  length init = length target ->
  Forall (fun w => target !! w.1 = Some w.2) writes ->
  forall p, writeGroup init writes !! p =
    if decide (p ∈ writes.*1) then target !! p else init !! p.
Proof.
  induction writes as [|[q x] writes IH]; intros init Hlen Hw p.
  - cbn. rewrite decide_False; [done|]. apply not_elem_of_nil.
  - apply Forall_cons in Hw as [Hq Hw]. cbn in Hq.
    change (writeGroup init ((q, x) :: writes)) with (writeGroup (<[q:=x]> init) writes).
    rewrite IH by (rewrite ?length_insert; done). rewrite fmap_cons. cbn [fst].
    destruct (decide (p ∈ writes.*1)) as [Hin|Hin].
    + rewrite decide_True; [done|]. by apply list_elem_of_further.
    + destruct (decide (p = q)) as [->|Hne].
      * rewrite decide_True by apply list_elem_of_here. rewrite Hq, list_lookup_insert_eq; [done|].
        rewrite Hlen. by eapply lookup_lt_Some.
      * rewrite decide_False; [by rewrite list_lookup_insert_ne|].
        intros [?|?]%elem_of_cons; done.
Qed.

(** Whatever their order, writes that agree with a target and cover it build it. *)
Lemma writeGroup_target target writes init :
  length init = length target -> Forall (fun w => target !! w.1 = Some w.2) writes ->
  writes.*1 ≡ₚ seq 0 (length target) -> writeGroup init writes = target.
Proof.
  intros Hlen Hw Hp. apply list_eq. intros p. rewrite (writeGroup_lookup target) by done.
  destruct (decide (p ∈ writes.*1)) as [_|Hin]; [done|].
  rewrite Hp, elem_of_seq in Hin. rewrite !lookup_ge_None_2 by lia. done.
Qed.

Lemma omap_lookup_seq {A} (l : list A) : omap (fun p => l !! p) (seq 0 (length l)) = l.
Proof.
  induction l as [|a l IH]; [done|]. cbn. f_equal. rewrite <- fmap_S_seq. rewrite <- IH at 2.
  generalize (seq 0 (length l)). intros k. induction k as [|q k IHk]; [done|]. cbn.
  destruct (l !! q); by rewrite IHk.
Qed.

Lemma concat_perm {A} (l k : list (list A)) : l ≡ₚ k -> concat l ≡ₚ concat k.
Proof.
  induction 1 as [|a l k _ IH|a b l|l k m _ IH1 _ IH2]; cbn.
  - done.
  - by rewrite IH.
  - rewrite !app_assoc. apply Permutation_app_tail, Permutation_app_comm.
  - by rewrite IH1.
Qed.

Section Covering.
Context {K : Type} (R : K -> RoutingRoute) (keys : list K) (groups : routeGroups K).
Context (Hok : groups_ok R keys groups).
Context (finished : list (routeGroup K)) (Hfin : finished ≡ₚ (map_to_list groups).*2).

Lemma finished_group g : g ∈ finished ->
  Forall2 (fun k p => keys !! p = Some k) (gkeys g) (gpositions g) /\ gkeys g <> [].
Proof.
  rewrite Hfin. intros ([id g'] & -> & Hin)%list_elem_of_fmap. apply elem_of_map_to_list in Hin.
  destruct (go_keys _ _ _ Hok _ _ Hin) as (? & _ & ?). done.
Qed.

Lemma finished_positions : concat (gpositions <$> finished) ≡ₚ seq 0 (length keys).
Proof.
  rewrite <- (go_cover _ _ _ Hok). apply concat_perm.
  etrans; [apply (Permutation_map gpositions), Hfin|]. by rewrite map_map.
Qed.

Lemma group_keys g : g ∈ finished -> gkeys g = omap (fun p => keys !! p) (gpositions g).
Proof.
  intros [Hg _]%finished_group. induction Hg as [|k p ks ps Hk _ IH]; [done|]. cbn. by rewrite Hk, IH.
Qed.

Lemma finished_keys : concat (gkeys <$> finished) ≡ₚ keys.
Proof.
  rewrite <- (omap_lookup_seq keys) at 1. rewrite <- finished_positions.
  assert (forall l, (forall g, g ∈ l -> gkeys g = omap (fun p => keys !! p) (gpositions g)) ->
    concat (gkeys <$> l) = omap (fun p => keys !! p) (concat (gpositions <$> l))) as ->; [|done|apply group_keys].
  induction l as [|g l IH]; intros Hl; cbn; [done|].
  rewrite omap_app, (Hl g) by apply list_elem_of_here. f_equal. apply IH.
  intros g' ?. by apply Hl, list_elem_of_further.
Qed.

Lemma finished_size g : g ∈ finished -> blen (gkeys g) <= blen keys.
Proof.
  intros Hg. assert (gkeys g ⊆+ keys) as Hs.
  { rewrite <- finished_keys. apply list_elem_of_split in Hg as (l1 & l2 & ->).
    rewrite fmap_app, concat_app. cbn. apply submseteq_inserts_l, submseteq_inserts_r. done. }
  apply submseteq_length in Hs. unfold blen. lia.
Qed.

(** Values of the keys of every group, written at their positions. *)
Lemma write_values (value : K -> val) (ws : list (nat * val)) :
  ws ≡ₚ concat ((fun g => zip (gpositions g) (value <$> gkeys g)) <$> finished) ->
  writeGroup (replicate (length keys) VNil) ws = value <$> keys.
Proof.
  intros Hws. apply writeGroup_target.
  - by rewrite length_replicate, length_fmap.
  - rewrite Hws. apply Forall_forall. intros [p x] Hin.
    apply list_elem_of_In, in_concat in Hin as (l & Hl & Hin).
    apply list_elem_of_In, list_elem_of_fmap in Hl as (g & -> & Hg).
    apply finished_group in Hg as [Hg _]. apply list_elem_of_In in Hin. cbn.
    induction Hg as [|k q ks qs Hk _ IH]; [by apply not_elem_of_nil in Hin|].
    cbn in Hin. apply elem_of_cons in Hin as [[= -> ->]|Hin]; [|by apply IH].
    by rewrite list_lookup_fmap, Hk.
  - rewrite length_fmap, <- finished_positions, Hws. 
    assert (forall l, (forall g, g ∈ l -> length (gkeys g) = length (gpositions g)) ->
      (concat ((fun g => zip (gpositions g) (value <$> gkeys g)) <$> l)).*1 = concat (gpositions <$> l))
      as ->; [|done|].
    + induction l as [|g l IH]; intros Hl; cbn; [done|].
      rewrite fmap_app, fst_zip, IH; [done| |].
      * intros g' ?. by apply Hl, list_elem_of_further.
      * rewrite length_fmap, (Hl g) by apply list_elem_of_here. done.
    + intros g [Hg _]%finished_group. by eapply Forall2_length.
Qed.

End Covering.

(** ** The requests of a group *)

Lemma scatter_names name policy :
  assoc_get name topologyCommandPolicies = Some policy -> scatter policy = true ->
  name ∈ [go "MGET"; go "DEL"; go "EXISTS"; go "UNLINK"; go "TOUCH"].
Proof.
  intros Hp%assoc_get_elem Hs.
  assert (forallb (fun np => negb (scatter np.2) ||
      bool_decide (np.1 ∈ [go "MGET"; go "DEL"; go "EXISTS"; go "UNLINK"; go "TOUCH"]))
    topologyCommandPolicies = true) as H by (vm_compute; reflexivity).
  rewrite forallb_forall in H. apply list_elem_of_In in Hp. specialize (H _ Hp).
  cbn [fst snd] in H. rewrite Hs in H. by apply bool_decide_eq_true in H.
Qed.

(** A request of a group is the scattered command on the group's keys. *)
Lemma scatter_args_same name keys context :
  name ∈ [go "MGET"; go "DEL"; go "EXISTS"; go "UNLINK"; go "TOUCH"] ->
  keys <> [] -> Forall (fun k => argRouteKey k = true) keys ->
  safeScatterCommand (scatterCommandArgs name keys context) = Some (name, keys).
Proof.
  intros Hname Hne Hkeys.
  assert (canonicalCommandArgs (scatterCommandArgs name keys context) = Arg (VString name) :: keys) as Hc.
  { destruct context as [context|].
    - apply canonical_wrapped. clear Hkeys. repeat (apply elem_of_cons in Hname as [->|Hname]; [by vm_compute|]).
      by apply not_elem_of_nil in Hname.
    - unfold canonicalCommandArgs, scatterCommandArgs.
      assert (stripCommandExec (Arg (VString name) :: keys) = Arg (VString name) :: keys) as ->.
      { destruct keys as [|k keys]; [done|]. cbn [stripCommandExec].
        assert (is_part (go "COMMAND_EXEC") (Arg (VString name)) = false) as ->; [|done].
        repeat (apply elem_of_cons in Hname as [->|Hname]; [by vm_compute|]).
        by apply not_elem_of_nil in Hname. }
      rewrite split_no_marker; [done|]. by constructor. }
  unfold safeScatterCommand. rewrite Hc. destruct keys as [|k keys]; [done|].
  repeat (apply elem_of_cons in Hname as [->|Hname]; [reflexivity|]).
  by apply not_elem_of_nil in Hname.
Qed.

(** ** Exactness *)

Section Exact.
Context {X : Type} (error_text : scError X -> gstr).
Context (w : scatterWorld X) (perShardWrites : bool).

(** Every task runs once, its writes take effect once, in any order. *)
Definition fair : Prop :=
  (forall (K : Type) (groups : routeGroups K), completion w groups ≡ₚ (map_to_list groups).*2) /\
  (forall writes, interleave w writes ≡ₚ concat writes).

Context (Hfair : fair).

(** The groups of a plan, as the tasks see them. *)
Record proper (g : routeGroup arg) : Prop := Proper_ {
  proper_keys : gkeys g <> [];
  proper_route : Forall (fun k => argRouteKey k = true) (gkeys g);
  proper_positions : length (gpositions g) = length (gkeys g);
}.

Lemma planned_proper parent keys attempt groups g :
  planScatterRoutes (rules w) (rounds w parent) keys = Ok (attempt, groups) ->
  g ∈ completion w groups -> proper g.
Proof.
  intros (Hkeys & _ & t & R & _ & _ & _ & Hok & _)%planScatterRoutes_spec Hg.
  destruct (finished_group R keys groups Hok _ (proj1 Hfair _ groups) g Hg) as [Hp Hne].
  split; [done| |by symmetry; eapply Forall2_length].
  apply Forall_forall. intros k Hk. apply list_elem_of_lookup in Hk as (i & Hi).
  destruct (Forall2_lookup_l _ _ _ _ _ Hp Hi) as (p & _ & Hkp).
  rewrite Forall_forall in Hkeys. by eapply Hkeys, list_elem_of_lookup_2.
Qed.

(** No failure in [combine] means no failure of any group. *)
Lemma combine_ok {K} name count (finished : list (routeGroup K)) (run : routeGroup K -> groupResult X) v :
  combine error_text w name count ((fun g => (g, run g)) <$> finished) = Ok v ->
  Forall (fun g => gr_failures (run g) = []) finished /\
  v = if bool_decide (name = go "MGET")
      then VArray None (writeGroup (topologyScatterValueSlots name count)
        (interleave w ((fun g => zip (gpositions g) (gr_values (run g))) <$> finished)))
      else VInt IInt64 (sumCounts ((fun g => gr_count (run g)) <$> finished)).
Proof.
  unfold combine. rewrite <- !list_fmap_compose. intros H.
  destruct (concat _) as [|e l] eqn:E; [|by destruct (destructiveScatterCommand name)].
  split.
  - apply Forall_forall. intros g Hg.
    destruct (gr_failures (run g)) as [|e l] eqn:Ef; [done|].
    assert (e ∈ concat ((fun g => gr_failures (run g)) <$> finished)) as Hin.
    { apply list_elem_of_In, in_concat. exists (e :: l). split; [|by left].
      apply list_elem_of_In, list_elem_of_fmap. by exists g. }
    replace (concat _) with (@nil (scError X)) in Hin by (by symmetry). by apply not_elem_of_nil in Hin.
  - case_bool_decide; by simplify_eq.
Qed.

Lemma combine_all_ok {K} name count (finished : list (routeGroup K)) (run : routeGroup K -> groupResult X) :
  Forall (fun g => gr_failures (run g) = []) finished ->
  exists v, combine error_text w name count ((fun g => (g, run g)) <$> finished) = Ok v.
Proof.
  intros Hf. unfold combine. rewrite <- !list_fmap_compose.
  assert (concat (((fun gr => gr_failures gr.2) ∘ (fun g => (g, run g))) <$> finished) = []) as ->.
  { induction Hf as [|g l Hg _ IH]; [done|]. cbn. by rewrite Hg. }
  case_bool_decide; eauto.
Qed.

(** The scatter answers when every group of its plan is answered. *)
Definition answered (name : gstr) (context : option arg) (keys : list arg) : Prop :=
  exists attempt groups,
    planScatterRoutes (rules w) (rounds w None) keys = Ok (attempt, groups) /\
    crossShardRejected perShardWrites name (size groups) = false /\
    forall g, g ∈ completion w groups ->
      exists value, send w None (groute g) (scatterCommandArgs name (gkeys g) context) = Reply value.

Lemma answered_ok name context keys :
  (forall g value, proper g ->
    send w None (groute g) (scatterCommandArgs name (gkeys g) context) = Reply value ->
    gr_failures (@decodedScatterGroup X name g value (destructiveScatterCommand name)) = []) ->
  answered name context keys ->
  exists v, scatterCommandWithContext error_text w perShardWrites name keys context = Ok v.
Proof.
  intros Hd (attempt & groups & E & Hc & Hs). unfold scatterCommandWithContext, scatterCommandAttempt.
  rewrite E, Hc. apply combine_all_ok, Forall_forall. intros g Hg.
  destruct (Hs g Hg) as [value Hv]. unfold executeScatterCommandGroup. rewrite Hv.
  apply Hd; [|done]. by apply (planned_proper None keys attempt groups).
Qed.

(** *** Partial errors *)

Lemma failed_not_partial attributed route keys (e : scError X) :
  asPartial e = None -> asPartial (topologyKeyWriteFailure attributed route keys e) = None.
Proof. by destruct attributed. Qed.

Lemma once_failures parent name context g :
  Forall (fun e => asPartial e = None) (gr_failures (executeOnce w parent name context g)).
Proof.
  unfold executeOnce, decodedScatterGroup, failedScatterGroup.
  assert (forall name value size (e : scError X), shardCountOf name value size = Err e -> asPartial e = None) as Hc.
  { intros ? ? ? e. unfold shardCountOf. destruct (responseInt64 _); [destruct (_ || _)|]; by intros [= <-]. }
  assert (forall value size (e : scError X), mgetItems value size = Err e -> asPartial e = None) as Hm.
  { intros value size e. unfold mgetItems. destruct value; try (by intros [= <-]).
    destruct (_ =? _); by intros [= <-]. }
  destruct (send _ _ _ _); [| |case_bool_decide].
  1,2: by constructor; [apply failed_not_partial|].
  - destruct (mgetItems _ _) eqn:E; [constructor|]. by constructor; [apply failed_not_partial; eauto|].
  - destruct (shardCountOf _ _ _) eqn:E; [constructor|]. by constructor; [apply failed_not_partial; eauto|].
Qed.

(** A partial error of an attempt reports the counts and the failures of its
    groups. *)
Lemma attempt_partial parent name keys run e succeeded failures :
  (forall g, Forall (fun e => asPartial e = None) (gr_failures (run g))) ->
  scatterCommandAttempt error_text w perShardWrites parent name keys run = Err e ->
  asPartial e = Some (succeeded, failures) -> failures <> [].
Proof.
  intros Hrun. unfold scatterCommandAttempt.
  destruct (planScatterRoutes _ _ _) as [[attempt groups]|pe]; [|by intros [= <-]].
  destruct (crossShardRejected _ _ _); [by intros [= <-]|]. unfold combine.
  rewrite <- !list_fmap_compose. destruct (concat _) as [|first l] eqn:E; [by case_bool_decide|].
  destruct (destructiveScatterCommand name); intros [= <-].
  - intros Hs Hnil.
    assert (failures = sliceStable (topologyFailureLess error_text) (first :: l)) as Hf by (by injection Hs).
    rewrite Hf in Hnil. pose proof (sliceStable_perm (topologyFailureLess error_text) (first :: l)) as Hp.
    rewrite Hnil in Hp. by apply Permutation_nil_cons in Hp.
  - intros Hp. exfalso.
    assert (first ∈ concat ((fun g => gr_failures (run g)) <$> completion w groups)) as Hin.
    { change (first ∈ concat (((fun gr => gr_failures gr.2) ∘ (fun g => (g, run g))) <$> completion w groups)).
      rewrite E. apply list_elem_of_here. }
    apply list_elem_of_In, in_concat in Hin as (fs & Hfs & Hin).
    apply list_elem_of_In, list_elem_of_fmap in Hfs as (g & -> & _).
    specialize (Hrun g). rewrite Forall_forall in Hrun. apply list_elem_of_In in Hin.
    specialize (Hrun _ Hin). congruence.
Qed.

(** *** Counts *)

(** A group never counts more than its keys. *)
Lemma zsum_weights {K} (weight : K -> Z) keys :
  (forall k, 0 <= weight k <= 1) -> 0 <= zsum (weight <$> keys) <= blen keys.
Proof.
  intros Hw. induction keys as [|k keys IH]; [done|]. rewrite blen_cons. cbn.
  specialize (Hw k). unfold zsum in *. lia.
Qed.

Lemma sumCounts_small counts : forall total,
  0 <= total -> Forall (Z.le 0) counts -> total + zsum counts <= max_int64 ->
  foldl (fun total count => swrap 64 (total + count)) total counts = total + zsum counts.
Proof.
  induction counts as [|c counts IH]; intros total Ht Hc Hmax; cbn in *; [lia|].
  apply Forall_cons in Hc as [Hc Hcs]. pose proof (zsum_nonneg _ Hcs) as Hz. unfold zsum in *.
  unfold max_int64 in *. rewrite swrap_small by (lia || split; lia). rewrite IH; [lia|lia|done|lia].
Qed.

Lemma zsum_concat {K} (weight : K -> Z) (ls : list (list K)) :
  zsum ((fun l => zsum (weight <$> l)) <$> ls) = zsum (weight <$> concat ls).
Proof.
  induction ls as [|l ls IH]; [done|]. cbn. rewrite fmap_app, zsum_app. by rewrite <- IH.
Qed.

Lemma combine_count (K : Type) (weight : K -> Z) name (keys : list K) finished run v :
  (forall k, 0 <= weight k <= 1) -> blen keys <= max_int64 ->
  concat (gkeys <$> finished) ≡ₚ keys -> bool_decide (name = go "MGET") = false ->
  (forall g, g ∈ finished -> gr_failures (run g) = [] -> gr_count (run g) = zsum (weight <$> gkeys g)) ->
  combine error_text w name (length keys) ((fun g => (g, run g)) <$> finished) = Ok v ->
  v = VInt IInt64 (zsum (weight <$> keys)).
Proof.
  intros Hw Hlen Hcover Hname Hrun (Hf & ->)%combine_ok. rewrite Hname. f_equal.
  rewrite Forall_forall in Hf.
  assert ((fun g => gr_count (run g)) <$> finished = (fun l => zsum (weight <$> l)) <$> (gkeys <$> finished))
    as ->.
  { rewrite <- list_fmap_compose. apply list_fmap_ext. intros i g Hg%list_elem_of_lookup_2.
    apply (Hrun g Hg (Hf g Hg)). }
  assert (zsum ((fun l => zsum (weight <$> l)) <$> (gkeys <$> finished)) = zsum (weight <$> keys)) as Hsum.
  { rewrite zsum_concat. apply zsum_perm. by apply (Permutation_map weight). }
  pose proof (zsum_weights weight keys Hw). unfold sumCounts.
  rewrite sumCounts_small; [lia|lia| |lia].
  apply Forall_forall. intros z (l & -> & _)%list_elem_of_fmap. by apply zsum_weights.
Qed.

Section MGet.
(** Every shard answers MGET with the values it stores. *)
Context (store : arg -> val).
Context (Hsend : forall parent route args value keys,
  send w parent route args = Reply value -> safeScatterCommand args = Some (go "MGET", keys) ->
  exists id, value = VArray id (store <$> keys)).

Lemma mgetItems_array (id : option Z) items size got :
  @mgetItems X (VArray id items) size = Ok got -> got = items.
Proof. unfold mgetItems. destruct (_ =? _); congruence. Qed.

Lemma combine_mget (K : Type) (R : K -> RoutingRoute) (value : K -> val) (keys : list K) (groups : routeGroups K) run v :
  groups_ok R keys groups ->
  (forall g, g ∈ completion w groups -> gr_failures (run g) = [] -> gr_values (run g) = value <$> gkeys g) ->
  combine error_text w (go "MGET") (length keys) ((fun g => (g, run g)) <$> completion w groups) = Ok v ->
  v = VArray None (value <$> keys).
Proof.
  intros Hok Hrun (Hf & ->)%combine_ok. rewrite bool_decide_true by done. f_equal.
  apply (write_values R keys groups Hok _ (proj1 Hfair _ groups) value).
  rewrite (proj2 Hfair). rewrite Forall_forall in Hf.
  replace ((fun g => zip (gpositions g) (gr_values (run g))) <$> completion w groups)
    with ((fun g => zip (gpositions g) (value <$> gkeys g)) <$> completion w groups); [done|].
  apply list_fmap_ext. intros i g Hg%list_elem_of_lookup_2. by rewrite (Hrun g Hg (Hf g Hg)).
Qed.

Lemma attempt_mget parent keys run v :
  (forall g, proper g -> gr_failures (run g) = [] -> gr_values (run g) = store <$> gkeys g) ->
  scatterCommandAttempt error_text w perShardWrites parent (go "MGET") keys run = Ok v ->
  v = VArray None (store <$> keys).
Proof.
  intros Hrun. unfold scatterCommandAttempt.
  destruct (planScatterRoutes _ _ _) as [[attempt groups]|e] eqn:E; [|done].
  destruct (crossShardRejected _ _ _); [done|].
  pose proof E as (_ & _ & t & R & _ & _ & _ & Hok & _)%planScatterRoutes_spec.
  apply (combine_mget _ R); [done|]. intros g Hg. by apply Hrun, (planned_proper parent keys attempt groups).
Qed.

Lemma decoded_mget g parent context value :
  proper g -> send w parent (groute g) (scatterCommandArgs (go "MGET") (gkeys g) context) = Reply value ->
  gr_failures (@decodedScatterGroup X (go "MGET") g value false) = [] ->
  gr_values (@decodedScatterGroup X (go "MGET") g value false) = store <$> gkeys g.
Proof.
  intros [Hne Hr _] Hs. destruct (Hsend _ _ _ _ (gkeys g) Hs) as [id ->].
  { apply scatter_args_same; [|done|done]. apply list_elem_of_here. }
  unfold decodedScatterGroup. rewrite bool_decide_true by done.
  destruct (mgetItems _ _) eqn:E; [|done]. by apply mgetItems_array in E as ->.
Qed.

Lemma once_mget parent context g :
  proper g -> gr_failures (executeOnce w parent (go "MGET") context g) = [] ->
  gr_values (executeOnce w parent (go "MGET") context g) = store <$> gkeys g.
Proof.
  intros Hp. unfold executeOnce. destruct (send _ _ _ _) eqn:E; [done|done|]. by eapply decoded_mget.
Qed.

Lemma execute_mget context g :
  proper g ->
  gr_failures (executeScatterCommandGroup error_text w perShardWrites (go "MGET") context g) = [] ->
  gr_values (executeScatterCommandGroup error_text w perShardWrites (go "MGET") context g) = store <$> gkeys g.
Proof.
  intros Hp. unfold executeScatterCommandGroup.
  destruct (send _ _ _ _) as [x|x|value] eqn:E; [done| |by eapply decoded_mget].
  destruct (reroute w x) as [[]|]; [|done|done]. unfold retryScatterCommandGroup.
  destruct (scatterCommandAttempt _ _ _ _ _ _ _) as [v|e] eqn:Ea.
  - apply attempt_mget in Ea as ->; [|apply once_mget]. rewrite bool_decide_true by done.
    destruct (mgetItems _ _) eqn:Em; [|done]. by apply mgetItems_array in Em as ->.
  - destruct (asPartial e) as [[]|] eqn:Ep; [|done]. cbn. intros ->. exfalso.
    by apply (attempt_partial _ _ _ _ _ _ _ (once_failures _ _ _) Ea Ep).
Qed.

(** C2: an MGET scattered over the shards returns the value of every key, at the
    position of the key, or an error: whatever the topology, the order in which
    shards answer and values are written, and the groups repeated after a refresh.
    It does return them when every shard of its plan answers. *)
Theorem scatter_mget_exact context keys :
  (forall v, scatterCommandWithContext error_text w perShardWrites (go "MGET") keys context = Ok v ->
     v = VArray None (store <$> keys)) /\
  (answered (go "MGET") context keys ->
     scatterCommandWithContext error_text w perShardWrites (go "MGET") keys context =
       Ok (VArray None (store <$> keys))).
Proof.
  assert (forall v, scatterCommandWithContext error_text w perShardWrites (go "MGET") keys context = Ok v ->
    v = VArray None (store <$> keys)) as H.
  { intros v. apply attempt_mget. intros g. apply execute_mget. }
  split; [done|]. intros [v Hv]%answered_ok; [by rewrite Hv, (H v Hv)|].
  intros g value [Hne Hr Hl] Hs. destruct (Hsend _ _ _ _ (gkeys g) Hs) as [id ->].
  { apply scatter_args_same; [|done|done]. apply list_elem_of_here. }
  unfold decodedScatterGroup. rewrite bool_decide_true by done. unfold mgetItems, blen.
  by rewrite length_fmap, Hl, Z.eqb_refl.
Qed.

End MGet.

Section Count.
(** Every shard answers the counting command with the number of keys that count,
    each key on its own (for DEL and UNLINK: on distinct keys). *)
Context (name : gstr) (weight : arg -> Z).
Context (Hname : name ∈ [go "DEL"; go "EXISTS"; go "UNLINK"; go "TOUCH"]).
Context (Hweight : forall k, 0 <= weight k <= 1).
Context (Hsend : forall parent route args value keys,
  send w parent route args = Reply value -> safeScatterCommand args = Some (name, keys) ->
  responseInt64 value = Some (zsum (weight <$> keys))).

Lemma not_mget : bool_decide (name = go "MGET") = false.
Proof. clear -Hname. repeat (apply elem_of_cons in Hname as [->|Hname]; [done|]). by apply not_elem_of_nil in Hname. Qed.

Lemma counts_split : name ∈ [go "MGET"; go "DEL"; go "EXISTS"; go "UNLINK"; go "TOUCH"].
Proof. by apply list_elem_of_further. Qed.

Lemma shardCountOf_ok value size n count :
  responseInt64 value = Some n -> @shardCountOf X name value size = Ok count -> count = n.
Proof. unfold shardCountOf. intros ->. destruct (_ || _); congruence. Qed.

Lemma decoded_count g parent context value :
  proper g -> send w parent (groute g) (scatterCommandArgs name (gkeys g) context) = Reply value ->
  gr_failures (@decodedScatterGroup X name g value (destructiveScatterCommand name)) = [] ->
  gr_count (@decodedScatterGroup X name g value (destructiveScatterCommand name)) = zsum (weight <$> gkeys g).
Proof.
  intros [Hne Hr _] Hs. pose proof (Hsend _ _ _ _ (gkeys g) Hs
    (scatter_args_same _ _ _ counts_split Hne Hr)) as Hv.
  unfold decodedScatterGroup. rewrite not_mget.
  destruct (shardCountOf _ _ _) eqn:E; [|done]. by apply (shardCountOf_ok _ _ _ _ Hv) in E as ->.
Qed.

Lemma once_count parent context g :
  proper g -> gr_failures (executeOnce w parent name context g) = [] ->
  gr_count (executeOnce w parent name context g) = zsum (weight <$> gkeys g).
Proof.
  intros Hp. unfold executeOnce. destruct (send _ _ _ _) eqn:E; [done|done|]. by eapply decoded_count.
Qed.

Lemma attempt_count parent keys run v :
  blen keys <= max_int64 ->
  (forall g, proper g -> blen (gkeys g) <= blen keys ->
    gr_failures (run g) = [] -> gr_count (run g) = zsum (weight <$> gkeys g)) ->
  scatterCommandAttempt error_text w perShardWrites parent name keys run = Ok v ->
  v = VInt IInt64 (zsum (weight <$> keys)).
Proof.
  intros Hlen Hrun. unfold scatterCommandAttempt.
  destruct (planScatterRoutes _ _ _) as [[attempt groups]|e] eqn:E; [|done].
  destruct (crossShardRejected _ _ _); [done|].
  pose proof E as (_ & _ & t & R & _ & _ & _ & Hok & _)%planScatterRoutes_spec.
  apply (combine_count _ weight); [done|done| |apply not_mget|].
  { apply (finished_keys R keys groups Hok), (proj1 Hfair). }
  intros g Hg. apply Hrun; [by apply (planned_proper parent keys attempt groups)|].
  by apply (finished_size R keys groups Hok _ (proj1 Hfair _ groups)).
Qed.

Lemma execute_count context g :
  blen (gkeys g) <= max_int64 -> proper g ->
  gr_failures (executeScatterCommandGroup error_text w perShardWrites name context g) = [] ->
  gr_count (executeScatterCommandGroup error_text w perShardWrites name context g) =
  zsum (weight <$> gkeys g).
Proof.
  intros Hlen Hp. unfold executeScatterCommandGroup.
  destruct (send _ _ _ _) as [x|x|value] eqn:E; [done| |by eapply decoded_count].
  destruct (reroute w x) as [[]|]; [|done|done]. unfold retryScatterCommandGroup.
  destruct (scatterCommandAttempt _ _ _ _ _ _ _) as [v|e] eqn:Ea.
  - apply attempt_count in Ea as ->; [|done|intros g' Hg' _; by apply once_count]. rewrite not_mget.
    destruct (shardCountOf _ _ _) eqn:Em; [|done]. by eapply shardCountOf_ok in Em as ->.
  - destruct (asPartial e) as [[]|] eqn:Ep; [|done]. cbn. intros ->. exfalso.
    by apply (attempt_partial _ _ _ _ _ _ _ (once_failures _ _ _) Ea Ep).
Qed.

(** A counting command scattered over the shards returns the number one server
    would, or an error; the sum over the shards never overflows. It does return
    it when every shard of its plan answers. *)
Theorem scatter_count_exact context keys :
  blen keys <= max_int64 ->
  (forall v, scatterCommandWithContext error_text w perShardWrites name keys context = Ok v ->
     v = VInt IInt64 (zsum (weight <$> keys))) /\
  (answered name context keys ->
     scatterCommandWithContext error_text w perShardWrites name keys context =
       Ok (VInt IInt64 (zsum (weight <$> keys)))).
Proof.
  intros Hlen.
  assert (forall v, scatterCommandWithContext error_text w perShardWrites name keys context = Ok v ->
    v = VInt IInt64 (zsum (weight <$> keys))) as H.
  { intros v. apply attempt_count; [done|]. intros g Hp Hg. apply execute_count; [lia|done]. }
  split; [done|]. intros [v Hv]%answered_ok; [by rewrite Hv, (H v Hv)|].
  intros g value [Hne Hr _] Hs.
  pose proof (Hsend _ _ _ _ (gkeys g) Hs (scatter_args_same _ _ _ counts_split Hne Hr)) as Hv.
  unfold decodedScatterGroup. rewrite not_mget. unfold shardCountOf. rewrite Hv.
  pose proof (zsum_weights weight (gkeys g) Hweight).
  destruct (Z.ltb_spec (zsum (weight <$> gkeys g)) 0), (Z.ltb_spec (blen (gkeys g)) (zsum (weight <$> gkeys g)));
    try lia. done.
Qed.

End Count.

End Exact.
