(* ===== verification/ScatterTyped.v ===== *)
(** The typed commands over a topology: [keyValueMGet], [keyValueDel] and
    [keyValueExists] (src/topology_kv.go) return what one server would, whatever
    the plan, the failures and the repetitions; and the report of a partially
    completed write (src/topology_errors.go) does not depend on the order in
    which the shards fail. *)

From S2P Require Export Scatter.

Definition emptyRoutingTopology : RoutingTopology := Topology 0 0 ∅ ∅.

(** A topology the executor can hold: the empty one or an accepted one. *)
Definition installed (t : option RoutingTopology) : Prop :=
  match t with
  | None => False
  | Some t => topology_ok t \/ t = emptyRoutingTopology
  end.

Definition strip {K} (g : routeGroup K) : routeGroup K := Group (groute g) (gkeys g) [].

Lemma strip_add {K} (groups : routeGroups K) r k p :
  addToGroup false (strip <$> groups) r k p = strip <$> addToGroup true groups r k p.
Proof.
  unfold addToGroup. rewrite fmap_insert, lookup_fmap. f_equal.
  by destruct (groups !! routeIdentity r).
Qed.

Lemma strip_step rules t groups pk :
  addStringKey rules t false (strip <$> groups) pk =
  rmap (fun groups : routeGroups gstr => strip <$> groups) (addStringKey rules t true groups pk).
Proof.
  unfold addStringKey. destruct (routeStringKeyInTopology t pk.2) as [r|]; [|done]. cbn [rbind].
  rewrite lookup_fmap. destruct (groups !! routeIdentity r); cbn.
  - by rewrite strip_add.
  - destruct (validateEndpoint rules (REndpoint r)); cbn; by rewrite ?strip_add.
Qed.

(** Leaving the positions out changes nothing else in a plan. *)
Lemma plan_strip rules t key rest :
  planStringKeyRoutesInTopology rules t key rest false =
  rmap (fun p => (p.1, (fun groups : routeGroups gstr => strip <$> groups) <$> p.2)) (planStringKeyRoutesInTopology rules t key rest true).
Proof.
  unfold planStringKeyRoutesInTopology.
  destruct (singleRouteInTopology rules t key rest) as [[first [d|]]|]; [|done|done]. cbn [rbind].
  destruct (drop d (key :: rest)) as [|divergent tail]; [done|].
  destruct (routeStringKeyInTopology t divergent) as [dr|]; [|done]. cbn [rbind].
  destruct (validateEndpoint rules (REndpoint dr)); [|done]. cbn [rbind].
  match goal with |- context [rfold (addStringKey _ _ true) ?g ?l] =>
    set (groups := g); generalize l; intros pks end.
  match goal with |- context [rfold (addStringKey _ _ false) ?g _] =>
    replace g with (strip <$> groups) end.
  2: { unfold groups. rewrite !fmap_insert, fmap_empty. reflexivity. }
  assert (rfold (addStringKey rules t false) (strip <$> groups) pks =
    rmap (fun groups => strip <$> groups) (rfold (addStringKey rules t true) groups pks)) as ->.
  { generalize groups. clear groups. induction pks as [|pk pks IH]; intros groups; [done|].
    cbn [rfold]. rewrite strip_step. destruct (addStringKey rules t true groups pk); cbn; [apply IH|done]. }
  by destruct (rfold _ groups pks).
Qed.

(** A typed plan for a topology the executor can hold covers the keys. *)
Lemma typed_plan_ok rules rounds key rest attempt route groups :
  (forall i t, captured (rounds i) = Some t -> installed t) ->
  planStringKeyRoutesSnapshot rules rounds key rest true = Ok (attempt, (route, Some groups)) ->
  exists R, groups_ok R (key :: rest) groups.
Proof.
  intros Hinst (_ & (t & Hc & _ & Hp) & _)%planAttempts_spec. apply Hinst in Hc.
  destruct t as [t|]; [|done]. destruct Hc as [Hok| ->].
  - pose proof (plan_string_groups rules t key rest Hok) as Hg. rewrite Hp in Hg. cbn in Hg.
    exists (routeOfKey t). symmetry in Hg. eapply groupKeys_ok; [|exact Hg].
    intros k r H. unfold checkedRoute in H. apply rbind_ok in H as (? & _ & [= <-]). done.
  - exfalso. unfold planStringKeyRoutesInTopology, singleRouteInTopology in Hp. cbn in Hp.
    by rewrite lookup_empty in Hp.
Qed.

Lemma strip_attempts rules rounds key rest attempt route groups n : forall i b,
  planAttempts (fun t => planStringKeyRoutesInTopology rules t key rest false) rounds n i b =
    Ok (attempt, (route, Some groups)) ->
  exists groups', groups = strip <$> groups' /\
    planAttempts (fun t => planStringKeyRoutesInTopology rules t key rest true) rounds n i b =
      Ok (attempt, (route, Some groups')).
Proof.
  induction n as [|n IH]; intros i b; cbn [planAttempts]; [done|].
  destruct (captured (rounds i)) as [t|]; [|done]. destruct (negb _); [apply IH|].
  rewrite plan_strip. destruct (planStringKeyRoutesInTopology rules t key rest true) as [[r [g|]]|]; cbn.
  - intros [= -> -> <-]. by exists g.
  - done.
  - destruct b; [done|]. destruct (refreshed (rounds i)); [done|]. apply IH.
Qed.

Lemma typed_plan_keys rules rounds key rest attempt route groups :
  (forall i t, captured (rounds i) = Some t -> installed t) ->
  planStringKeyRoutesSnapshot rules rounds key rest false = Ok (attempt, (route, Some groups)) ->
  concat (gkeys <$> (map_to_list groups).*2) ≡ₚ key :: rest.
Proof.
  intros Hinst H. unfold planStringKeyRoutesSnapshot in H.
  assert (exists groups', groups = strip <$> groups' /\
    planStringKeyRoutesSnapshot rules rounds key rest true = Ok (attempt, (route, Some groups'))) as
    (groups' & -> & H').
  { unfold planStringKeyRoutesSnapshot. by apply strip_attempts. }
  destruct (typed_plan_ok _ _ _ _ _ _ _ Hinst H') as [R Hok].
  rewrite <- (finished_keys R (key :: rest) groups' Hok _ (reflexivity _)) at 1.
  rewrite map_to_list_fmap, <- !list_fmap_compose. done.
Qed.

(** ** Exactness of the typed commands *)

Section Typed.
Context {X : Type} (error_text : scError X -> gstr).
Context (w : typedWorld X) (perShardWrites : bool).
Context (Hfair : fair (general w)).
Context (Hinst : forall i t, captured (typedRounds w i) = Some t -> installed t).

(** The typed command answers when every request of its plan is answered. *)
Definition typed_answered (name : gstr) (includePositions : bool) (key : gstr) (rest : list gstr) : Prop :=
  exists attempt route groups,
    planStringKeyRoutesSnapshot (rules (general w)) (typedRounds w) key rest includePositions =
      Ok (attempt, (route, groups)) /\
    match groups with
    | None => exists value, onRoute w route name (key :: rest) = Ok value
    | Some groups =>
        crossShardRejected perShardWrites name (size groups) = false /\
        forall g, g ∈ completion (general w) groups ->
          exists value, sendKeys w (groute g) name (gkeys g) = Reply value
    end.

Section MGet.
Context (store : arg -> val).
Context (Hsend : forall parent route args value keys,
  send (general w) parent route args = Reply value ->
  safeScatterCommand args = Some (go "MGET", keys) -> exists id, value = VArray id (store <$> keys)).
Context (Hkeys : forall route value keys,
  sendKeys w route (go "MGET") keys = Reply value \/ onRoute w route (go "MGET") keys = Ok value ->
  exists id, value = VArray id (store <$> (keyArg <$> keys))).

Lemma string_group_mget g :
  gr_failures (stringMGetGroup error_text w perShardWrites g) = [] ->
  gr_values (stringMGetGroup error_text w perShardWrites g) = (fun k => store (keyArg k)) <$> gkeys g.
Proof.
  rewrite (list_fmap_compose keyArg store). unfold stringMGetGroup.
  destruct (sendKeys _ _ _ _) as [x|x|value] eqn:E; [done| |].
  - destruct (reroute _ x) as [[]|]; [|done|done]. unfold retryStringMGetGroup.
    destruct (scatterCommandAttempt _ _ _ _ _ _ _) as [v|e] eqn:Ea; [|done]. cbn [rbind].
    eapply attempt_mget in Ea as ->; [|exact Hfair|by apply once_mget].
    destruct (mgetItems _ _) eqn:Em; [|done]. by apply mgetItems_array in Em as ->.
  - destruct (Hkeys _ _ _ (or_introl E)) as [id ->].
    destruct (mgetItems _ _) eqn:Em; [|done]. by apply mgetItems_array in Em as ->.
Qed.

Lemma key_value_mget_sound keys v :
  keyValueMGet error_text w perShardWrites keys = Ok v ->
  v = VArray None ((fun k => store (keyArg k)) <$> keys).
Proof.
  unfold keyValueMGet. destruct keys as [|key rest]; [by intros [= <-]|].
  destruct (planStringKeyRoutesSnapshot _ _ _ _ _) as [[attempt [route [groups|]]]|] eqn:E; [| |done].
  - destruct (typed_plan_ok _ _ _ _ _ _ _ Hinst E) as [R Hok].
    eapply (combine_mget error_text (general w) Hfair); [exact Hok|].
    intros g _. apply string_group_mget.
  - destruct (onRoute _ _ _ _) as [value|] eqn:Eo; [|done].
    destruct (Hkeys _ _ _ (or_intror Eo)) as [id ->].
    destruct (mgetItems _ _) eqn:Em; [|done]. apply mgetItems_array in Em as ->. cbn [rbind].
    intros [= <-]. by rewrite <- list_fmap_compose.
Qed.

(** An array with one item per key passes the shape check. *)
Lemma mgetItems_keys id (keys : list gstr) size :
  size = blen keys ->
  @mgetItems X (VArray id (store <$> (keyArg <$> keys))) size = Ok (store <$> (keyArg <$> keys)).
Proof. intros ->. unfold mgetItems, blen. by rewrite !length_fmap, Z.eqb_refl. Qed.

(** [keyValueMGet] returns the value of every key at its position, or an
    error: on one route or over the shards, in any order of completion, with
    groups repeated through the general scatter after a refresh. It does return
    them when every request of its plan is answered. *)
Theorem key_value_mget_exact keys :
  (forall v, keyValueMGet error_text w perShardWrites keys = Ok v ->
     v = VArray None ((fun k => store (keyArg k)) <$> keys)) /\
  (forall key rest, keys = key :: rest -> typed_answered (go "MGET") true key rest ->
     keyValueMGet error_text w perShardWrites keys = Ok (VArray None ((fun k => store (keyArg k)) <$> keys))).
Proof.
  split; [apply key_value_mget_sound|]. intros key rest Hk (attempt & route & groups & E & Ha).
  enough (exists v, keyValueMGet error_text w perShardWrites keys = Ok v) as [v Hv]
    by by rewrite Hv, (key_value_mget_sound _ _ Hv).
  subst keys. unfold keyValueMGet. rewrite E. destruct groups as [groups|].
  - destruct (typed_plan_ok _ _ _ _ _ _ _ Hinst E) as [R Hok].
    apply combine_all_ok, Forall_forall. intros g Hg. destruct Ha as [_ Ha].
    destruct (Ha g Hg) as [value Hv]. unfold stringMGetGroup. rewrite Hv.
    destruct (Hkeys _ _ _ (or_introl Hv)) as [id ->]. rewrite mgetItems_keys; [done|].
    destruct (finished_group R _ groups Hok _ (proj1 Hfair _ groups) g Hg) as [Hp _].
    unfold blen. by rewrite (Forall2_length _ _ _ Hp).
  - destruct Ha as [value Ha]. rewrite Ha. destruct (Hkeys _ _ _ (or_intror Ha)) as [id ->].
    rewrite mgetItems_keys by done. eauto.
Qed.

End MGet.

Section Count.
Context (name : gstr) (weight : arg -> Z).
Context (Hname : name ∈ [go "DEL"; go "EXISTS"]).
Context (Hweight : forall k, 0 <= weight k <= 1).
Context (Hsend : forall parent route args value keys,
  send (general w) parent route args = Reply value -> safeScatterCommand args = Some (name, keys) ->
  responseInt64 value = Some (zsum (weight <$> keys))).
Context (Hkeys : forall route value keys,
  sendKeys w route name keys = Reply value \/ onRoute w route name keys = Ok value ->
  responseInt64 value = Some (zsum (weight <$> (keyArg <$> keys)))).

Lemma name_splits : name ∈ [go "DEL"; go "EXISTS"; go "UNLINK"; go "TOUCH"].
Proof.
  apply elem_of_cons in Hname as [->|Hn]; [apply list_elem_of_here|].
  apply list_elem_of_further. apply elem_of_cons in Hn as [->|Hn]; [apply list_elem_of_here|].
  by apply not_elem_of_nil in Hn.
Qed.

Lemma string_group_count g :
  blen (gkeys g) <= max_int64 ->
  gr_failures (stringCountGroup error_text w perShardWrites name g) = [] ->
  gr_count (stringCountGroup error_text w perShardWrites name g) =
  zsum ((fun k => weight (keyArg k)) <$> gkeys g).
Proof.
  intros Hlen. rewrite (list_fmap_compose keyArg weight). unfold stringCountGroup.
  destruct (sendKeys _ _ _ _) as [x|x|value] eqn:E; [done| |].
  - destruct (reroute _ x) as [[]|]; [|done|done]. unfold retryStringCountGroup.
    destruct (scatterCommandAttempt _ _ _ _ _ _ _) as [v|e] eqn:Ea.
    + eapply attempt_count in Ea as ->; [|exact Hfair|exact name_splits|exact Hweight| |].
      * destruct (shardCountOf _ _ _) eqn:Em; [|done]. by eapply shardCountOf_ok in Em as ->.
      * unfold blen in *. cbn. by rewrite length_fmap.
      * intros g' Hg' _. apply once_count; [exact name_splits|exact Hsend|done].
    + destruct (asPartial e) as [[]|] eqn:Ep; [|done]. cbn. intros ->. exfalso.
      by apply (attempt_partial _ _ _ _ _ _ _ _ _ _ (once_failures _ _ _ _) Ea Ep).
  - pose proof (Hkeys _ _ _ (or_introl E)) as Hv.
    destruct (shardCountOf _ _ _) as [n|] eqn:Em; [|done]. cbn. intros _.
    by eapply shardCountOf_ok.
Qed.

Lemma key_value_count_sound keys v :
  blen keys <= max_int64 ->
  keyValueCount error_text w perShardWrites name keys = Ok v ->
  v = VInt IInt64 (zsum ((fun k => weight (keyArg k)) <$> keys)).
Proof.
  intros Hlen. unfold keyValueCount. destruct keys as [|key rest]; [by intros [= <-]|].
  destruct (planStringKeyRoutesSnapshot _ _ _ _ _) as [[attempt [route [groups|]]]|] eqn:E; [| |done].
  - destruct (crossShardRejected _ _ _) eqn:Ec; [done|]. intros Hv.
    pose proof (typed_plan_keys _ _ _ _ _ _ _ Hinst E) as Hcover.
    assert (concat (gkeys <$> completion (general w) groups) ≡ₚ key :: rest) as Hfin.
    { rewrite <- Hcover. apply concat_perm. by apply (Permutation_map gkeys), (proj1 Hfair). }
    eapply (combine_count error_text (general w) _ (fun k => weight (keyArg k))) in Hv;
      [exact Hv|intros k; apply Hweight|exact Hlen|exact Hfin|apply not_mget, name_splits|].
    intros g Hg. apply string_group_count.
    assert (gkeys g ⊆+ key :: rest) as Hs.
    { rewrite <- Hfin. apply list_elem_of_split in Hg as (l1 & l2 & ->).
      rewrite fmap_app, concat_app. cbn. by apply submseteq_inserts_l, submseteq_inserts_r. }
    apply submseteq_length in Hs. unfold blen in *. lia.
  - destruct (onRoute _ _ _ _) as [value|] eqn:Eo; [|done].
    pose proof (Hkeys _ _ _ (or_intror Eo)) as Hv.
    destruct (shardCountOf _ _ _) as [n|] eqn:Em; [|done]. cbn [rbind]. intros [= <-].
    f_equal. rewrite (list_fmap_compose keyArg weight). by eapply shardCountOf_ok.
Qed.

(** An honest count is in range. *)
Lemma shardCountOf_keys value (keys : list gstr) :
  responseInt64 value = Some (zsum (weight <$> (keyArg <$> keys))) ->
  exists n, @shardCountOf X name value (blen keys) = Ok n.
Proof.
  intros Hv. unfold shardCountOf. rewrite Hv.
  pose proof (zsum_weights weight (keyArg <$> keys) Hweight) as Hb. unfold blen in *. rewrite length_fmap in Hb.
  destruct (Z.ltb_spec (zsum (weight <$> (keyArg <$> keys))) 0),
    (Z.ltb_spec (Z.of_nat (length keys)) (zsum (weight <$> (keyArg <$> keys)))); try lia. eauto.
Qed.

(** [keyValueDel] and [keyValueExists] return the number one server would, or
    an error, without overflow. They do return it when every request of the plan
    is answered; a DEL planned over several shards is refused unless enabled. *)
Theorem key_value_count_exact keys :
  blen keys <= max_int64 ->
  (forall v, keyValueCount error_text w perShardWrites name keys = Ok v ->
     v = VInt IInt64 (zsum ((fun k => weight (keyArg k)) <$> keys))) /\
  (forall key rest, keys = key :: rest -> typed_answered name false key rest ->
     keyValueCount error_text w perShardWrites name keys =
       Ok (VInt IInt64 (zsum ((fun k => weight (keyArg k)) <$> keys)))) /\
  (forall key rest attempt route groups, keys = key :: rest ->
     planStringKeyRoutesSnapshot (rules (general w)) (typedRounds w) key rest false =
       Ok (attempt, (route, Some groups)) ->
     perShardWrites = false -> name = go "DEL" -> (1 < size groups)%nat ->
     keyValueCount error_text w perShardWrites name keys = Err (ScCrossShard name)).
Proof.
  intros Hlen. split; [intros v; by apply key_value_count_sound|]. split.
  - intros key rest Hk (attempt & route & groups & E & Ha).
    enough (exists v, keyValueCount error_text w perShardWrites name keys = Ok v) as [v Hv]
      by by rewrite Hv, (key_value_count_sound _ _ Hlen Hv).
    subst keys. unfold keyValueCount. rewrite E. destruct groups as [groups|].
    + destruct Ha as [Hc Ha]. rewrite Hc. apply combine_all_ok, Forall_forall. intros g Hg.
      destruct (Ha g Hg) as [value Hv]. unfold stringCountGroup. rewrite Hv.
      destruct (shardCountOf_keys _ _ (Hkeys _ _ _ (or_introl Hv))) as [n Hn]. by rewrite Hn.
    + destruct Ha as [value Ha]. rewrite Ha.
      destruct (shardCountOf_keys _ _ (Hkeys _ _ _ (or_intror Ha))) as [n Hn]. rewrite Hn. cbn. eauto.
  - intros key rest attempt route groups -> E -> -> Hs. unfold keyValueCount. rewrite E.
    unfold crossShardRejected. change (destructiveScatterCommand (go "DEL")) with true.
    by destruct (Nat.ltb_spec 1 (size groups)); [|lia].
Qed.

End Count.

End Typed.

(** ** The report of a partially completed write *)

Section Report.
Context {X : Type} (error_text : scError X -> gstr).

(** What the report orders failures by. *)
Abbreviation reportKey := (bool * (gstr * (Z * (Z * (list gstr * gstr)))))%type.

Definition failureKey (e : scError X) : reportKey :=
  match asWriteFailure e with
  | Some (route, keys, err) =>
      (false, (failureEndpoint route, (Shard route, (LaneID route, (keys, error_text err)))))
  | None => (true, ([], (0, (0, ([], error_text e)))))
  end.

Lemma compare_keys_spec l : forall k,
  (compareTopologyFailureKeys l k =? 0 = true /\ l = k) \/
  (compareTopologyFailureKeys l k =? 0 = false /\
   (compareTopologyFailureKeys l k <? 0) = sltb l k /\ sltb l k = negb (sltb k l)).
Proof.
  induction l as [|a l IH]; intros [|b k]; cbn; [by left|by right|by right|].
  change (gstr_ltb a b) with (sltb a b). change (gstr_ltb b a) with (sltb b a).
  destruct (sltb_cases a b) as [[H H']|[[H H']|(-> & H & H')]]; rewrite H, ?H'; [by right|by right|].
  destruct (IH k) as [[Hz ->]|(Hz & Hl & Hk)]; [left|right]; by rewrite Hz.
Qed.

Lemma less_failureKey l r : topologyFailureLess error_text l r = sltb (failureKey l) (failureKey r).
Proof.
  unfold topologyFailureLess, failureKey.
  destruct (asWriteFailure l) as [[[lr lk] le]|], (asWriteFailure r) as [[[rr rk] re]|]; try done.
  cbn -[compareTopologyFailureKeys gstr_ltb]. unfold lex_ltb. cbn -[compareTopologyFailureKeys gstr_ltb sltb].
  case_bool_decide as Hep; cbn [negb].
  - rewrite Hep, !sltb_irrefl. change (@sltb Z _) with Z.ltb.
    destruct (Z.eqb_spec (Shard lr) (Shard rr)) as [->|Hs]; cbn [negb].
    + rewrite !Z.ltb_irrefl. destruct (Z.eqb_spec (LaneID lr) (LaneID rr)) as [->|Hl]; cbn [negb].
      * rewrite !Z.ltb_irrefl. destruct (compare_keys_spec lk rk) as [[Hz ->]|(Hz & Hl & Hk)]; rewrite Hz; cbn [negb].
        -- by rewrite !sltb_irrefl.
        -- rewrite Hl. destruct (sltb lk rk) eqn:E; [done|]. by destruct (sltb rk lk).
      * destruct (Z.ltb_spec (LaneID lr) (LaneID rr)), (Z.ltb_spec (LaneID rr) (LaneID lr)); done || lia.
    + destruct (Z.ltb_spec (Shard lr) (Shard rr)), (Z.ltb_spec (Shard rr) (Shard lr)); done || lia.
  - change (gstr_ltb (failureEndpoint lr) (failureEndpoint rr)) with (sltb (failureEndpoint lr) (failureEndpoint rr)).
    destruct (sltb_cases (failureEndpoint lr) (failureEndpoint rr)) as [[H H']|[[H H']|(? & _)]]; [..|done];
      by rewrite H, ?H'.
Qed.

Lemma sumCounts_swrap counts : forall total,
  foldl (fun total count => swrap 64 (total + count)) (swrap 64 total) counts = swrap 64 (total + zsum counts).
Proof.
  induction counts as [|c counts IH]; intros total; cbn; [f_equal; lia|].
  rewrite swrap_add, IH. unfold zsum. cbn. f_equal. lia.
Qed.

Lemma sumCounts_perm l k : l ≡ₚ k -> sumCounts l = sumCounts k.
Proof.
  intros H. unfold sumCounts. change 0 with (swrap 64 0). rewrite !sumCounts_swrap.
  by rewrite (zsum_perm l k H).
Qed.

(** C36: when a destructive command fails on some shards, its report does not
    depend on the order in which shards complete: it counts the mutations of all
    groups and lists the failures of all groups, sorted by endpoint, shard, lane,
    keys and text. Over several shards it needs the caller's consent. *)
Theorem partial_write_report (w : scatterWorld X) name count
  (groups : list (routeGroup arg * groupResult X)) :
  destructiveScatterCommand name = true ->
  (forall perShardWrites parent keys run attempt plan,
     planScatterRoutes (rules w) (rounds w parent) keys = Ok (attempt, plan) -> (1 < size plan)%nat ->
     perShardWrites = false ->
     scatterCommandAttempt error_text w perShardWrites parent name keys run = Err (ScCrossShard name)) /\
  ((concat ((fun gr => gr_failures gr.2) <$> groups) = [] /\
    combine error_text w name count groups =
      Ok (VInt IInt64 (sumCounts ((fun gr => gr_count gr.2) <$> groups)))) \/
   exists reported,
     combine error_text w name count groups =
       Err (ScPartial name (sumCounts ((fun gr => gr_count gr.2) <$> groups)) reported) /\
     reported <> [] /\ reported ≡ₚ concat ((fun gr => gr_failures gr.2) <$> groups) /\
     Sorted (in_order (topologyFailureLess error_text)) reported /\
     forall groups', groups' ≡ₚ groups -> exists reported',
       combine error_text w name count groups' =
         Err (ScPartial name (sumCounts ((fun gr => gr_count gr.2) <$> groups)) reported') /\
       failureKey <$> reported' = failureKey <$> reported).
Proof.
  intros Hd. split.
  { intros perShardWrites parent keys run attempt plan Hp Hs ->. unfold scatterCommandAttempt.
    rewrite Hp. unfold crossShardRejected. rewrite Hd. by destruct (Nat.ltb_spec 1 (size plan)); [|lia]. }
  unfold combine. rewrite Hd. assert (bool_decide (name = go "MGET") = false) as Hm.
  { apply bool_decide_eq_false. by intros ->. }
  destruct (concat ((fun gr => gr_failures gr.2) <$> groups)) as [|first failures] eqn:E.
  { left. by rewrite Hm. }
  right. eexists. split; [reflexivity|].
  pose proof (sliceStable_perm (topologyFailureLess error_text) (first :: failures)) as Hperm.
  split_and!; [|exact Hperm|by apply (sliceStable_sorted failureKey), less_failureKey|].
  { intros Hnil. rewrite Hnil in Hperm. by apply Permutation_nil_cons in Hperm. }
  intros groups' Hg.
  assert (concat ((fun gr => gr_failures gr.2) <$> groups') ≡ₚ first :: failures) as Hf.
  { rewrite <- E. apply concat_perm. by apply (Permutation_map (fun gr : _ * groupResult X => gr_failures gr.2)). }
  destruct (concat ((fun gr => gr_failures gr.2) <$> groups')) as [|first' failures'] eqn:E'.
  { by apply Permutation_nil_cons in Hf. }
  eexists. split.
  { unfold newTopologyPartialWriteError. do 2 f_equal. apply sumCounts_perm.
    by apply (Permutation_map (fun gr : _ * groupResult X => gr_count gr.2)). }
  by apply (sliceStable_keys failureKey _ less_failureKey).
Qed.

End Report.

(** ** Two honest shards *)

Definition echo (key : arg) : val := VBytes (keyText key).

Definition one (key : arg) : Z := if bool_decide (keyText key = go "cart") then 1 else 0.

(** The answer of a shard: the keys echoed, or the number of keys "cart". *)
Definition serve (name : gstr) (keys : list arg) : val :=
  if bool_decide (name = go "MGET") then VArray None (echo <$> keys)
  else VInt IInt64 (zsum (one <$> keys)).

Definition example_world : scatterWorld Z := {|
  send := fun _ _ args =>
    match safeScatterCommand args with Some (name, keys) => Reply (serve name keys) | None => NotSent 0 end;
  reroute := fun _ => Ok false;
  rules := example_rules;
  rounds := fun _ => example_rounds;
  completion := fun K groups => (map_to_list groups).*2;
  interleave := @concat _;
|}.

Definition example_typed : typedWorld Z := {|
  general := example_world;
  sendKeys := fun _ name keys => Reply (serve name (keyArg <$> keys));
  onRoute := fun _ name keys => Ok (serve name (keyArg <$> keys));
  typedRounds := fun _ => Round (Some (Some two_topology)) true None;
|}.

Definition no_text (e : scError Z) : gstr := [].

Lemma example_fair : fair example_world.
Proof. by split. Qed.

Lemma serve_mget parent route args value keys :
  send example_world parent route args = Reply value ->
  safeScatterCommand args = Some (go "MGET", keys) -> exists id, value = VArray id (echo <$> keys).
Proof. cbn. intros H E. rewrite E in H. exists None. by injection H. Qed.

Lemma serve_count name parent route args value keys :
  name ∈ [go "DEL"; go "EXISTS"] ->
  send example_world parent route args = Reply value ->
  safeScatterCommand args = Some (name, keys) -> responseInt64 value = Some (zsum (one <$> keys)).
Proof.
  intros Hn. cbn. intros H E. rewrite E in H. injection H as <-. unfold serve.
  by repeat (apply elem_of_cons in Hn as [->|Hn]; [done|]); apply not_elem_of_nil in Hn.
Qed.

Lemma one_bound k : 0 <= one k <= 1.
Proof. unfold one. case_bool_decide; lia. Qed.

Lemma example_installed i t : captured (typedRounds example_typed i) = Some t -> installed t.
Proof. cbn. intros [= <-]. left. eapply build_topology_inv, two_build. Qed.

Lemma example_answered name : crossShardRejected false name (size example_groups) = false ->
  name ∈ [go "MGET"; go "DEL"; go "EXISTS"; go "UNLINK"; go "TOUCH"] ->
  answered example_world false name None example_keys.
Proof.
  intros Hc Hn. exists 1%nat, example_groups. split_and!; [exact example_plan|exact Hc|].
  intros g Hg. destruct (planned_proper example_world example_fair None _ _ _ g example_plan Hg) as [Hne Hr _].
  exists (serve name (gkeys g)). cbn [send example_world]. by rewrite scatter_args_same.
Qed.

Lemma scatter_mget_exact_witness :
  scatterCommandWithContext no_text example_world false (go "MGET") example_keys None =
    Ok (VArray None [VBytes (go "a"); VBytes (go "cart")]).
Proof.
  apply (scatter_mget_exact no_text example_world false example_fair echo serve_mget None example_keys).
  apply example_answered; [reflexivity|apply list_elem_of_here].
Defined.

Lemma scatter_count_exact_witness :
  scatterCommandWithContext no_text example_world false (go "EXISTS") example_keys None =
    Ok (VInt IInt64 1).
Proof.
  apply (scatter_count_exact no_text example_world false example_fair (go "EXISTS") one).
  - right. left.
  - exact one_bound.
  - intros parent route args value keys. apply serve_count. right. left.
  - vm_compute. congruence.
  - apply example_answered; [reflexivity|]. do 2 right. left.
Defined.

Lemma serve_typed_mget route value keys :
  sendKeys example_typed route (go "MGET") keys = Reply value \/
    onRoute example_typed route (go "MGET") keys = Ok value ->
  exists id, value = VArray id (echo <$> (keyArg <$> keys)).
Proof. intros [[= <-]|[= <-]]; by exists None. Qed.

Lemma serve_typed_count name route value keys :
  name ∈ [go "DEL"; go "EXISTS"] ->
  sendKeys example_typed route name keys = Reply value \/ onRoute example_typed route name keys = Ok value ->
  responseInt64 value = Some (zsum (one <$> (keyArg <$> keys))).
Proof.
  intros Hn H. assert (value = serve name (keyArg <$> keys)) as -> by (by destruct H as [[= <-]|[= <-]]).
  unfold serve. repeat (apply elem_of_cons in Hn as [->|Hn]; [done|]). by apply not_elem_of_nil in Hn.
Qed.

Lemma key_value_mget_exact_witness :
  keyValueMGet no_text example_typed false [go "a"; go "cart"; go "d"] =
    Ok (VArray None [VBytes (go "a"); VBytes (go "cart"); VBytes (go "d")]) /\
  VArray None [VBytes (go "a"); VBytes (go "cart"); VBytes (go "d")] =
    VArray None ((fun k => echo (keyArg k)) <$> [go "a"; go "cart"; go "d"]).
Proof.
  assert (keyValueMGet no_text example_typed false [go "a"; go "cart"; go "d"] =
    Ok (VArray None [VBytes (go "a"); VBytes (go "cart"); VBytes (go "d")])) as H by (vm_compute; reflexivity).
  split; [exact H|].
  apply (key_value_mget_exact no_text example_typed false example_fair example_installed echo
    serve_mget serve_typed_mget). exact H.
Defined.

Lemma key_value_count_exact_witness :
  keyValueCount no_text example_typed true (go "DEL") [go "a"; go "cart"; go "d"] = Ok (VInt IInt64 1) /\
  VInt IInt64 1 = VInt IInt64 (zsum ((fun k => one (keyArg k)) <$> [go "a"; go "cart"; go "d"])).
Proof.
  assert (keyValueCount no_text example_typed true (go "DEL") [go "a"; go "cart"; go "d"] =
    Ok (VInt IInt64 1)) as H by (vm_compute; reflexivity).
  assert (go "DEL" ∈ [go "DEL"; go "EXISTS"]) as Hn by left.
  split; [exact H|].
  apply (key_value_count_exact no_text example_typed true example_fair example_installed (go "DEL") one Hn
    one_bound (fun p r a v k => serve_count _ p r a v k Hn) (fun r v k => serve_typed_count _ r v k Hn)).
  - vm_compute. congruence.
  - exact H.
Defined.

Definition example_failures : list (routeGroup arg * groupResult Z) :=
  [(Group (Route 1 2 (go "db2:6388") (Endpoint [] (go "db2") 6388 0) [] 0) [keyArg (go "a")] [0%nat],
    GroupResult [] 0 [ScWriteFailure (Route 1 2 (go "db2:6388") (Endpoint [] (go "db2") 6388 0) [] 0)
      [go "a"] (ScExec 7)]);
   (Group (Route 0 1 (go "db1:6388") (Endpoint [] (go "db1") 6388 0) [] 0) [keyArg (go "cart")] [1%nat],
    GroupResult [] 1 [])].

Lemma partial_write_report_witness :
  exists reported,
    combine no_text example_world (go "DEL") 2 example_failures = Err (ScPartial (go "DEL") 1 reported) /\
    reported <> [].
Proof.
  destruct (partial_write_report no_text example_world (go "DEL") 2 example_failures eq_refl)
    as [_ [[H _]|(reported & H & Hne & _)]]; [discriminate H|].
  exists reported. split; [exact H|exact Hne].
Defined.
