(* ===== verification/Frame.v ===== *)
(** Frames of the native protocol and the reassembly of chunked responses
    (src/native_frame.go, src/native_response.go, and the frame layout of
    [writeRequest] in src/native_connection.go).

    The compact payload codecs (src/native_compact*.go) are a parameter of the
    response decoder. A stream is the list of the bytes it delivers before its
    end. *)

From S2P Require Export Wire.

Record nativeFrame := Frame {
  f_flags : Z;
  f_lane : Z;
  f_opcode : Z;
  f_request : Z;
  f_body : gstr;
}.

Definition nativeMagic : gstr := go "FSNP".
Definition nativeRequestVersion : byte := x01.
Definition nativeResponseVersion : byte := x81.
Definition nativeHeaderLen : Z := 24.

Definition nativeFlagTrace : Z := 1.
Definition nativeFlagCustomPayload : Z := 2.
Definition nativeFlagWarning : Z := 4.
Definition nativeFlagCompressed : Z := 8.
Definition nativeFlagNoReply : Z := 16.
Definition nativeFlagMoreChunks : Z := 32.
Definition nativeResponseWireFlags : Z :=
  Z.lor nativeFlagTrace (Z.lor nativeFlagCustomPayload
    (Z.lor nativeFlagWarning (Z.lor nativeFlagCompressed nativeFlagMoreChunks))).
Definition nativeStableChunkFlags : Z :=
  Z.lor nativeFlagTrace (Z.lor nativeFlagCustomPayload nativeFlagWarning).
Definition nativeStatusOK : Z := 0.
Definition nativeMaxResponseChunkFrames : Z := 65536.

(** [flags & mask != 0]. *)
Definition has_flag (mask flags : Z) : bool := negb (Z.land flags mask =? 0).

(** ** Frames on the wire *)

(** The header and body [writeRequest] puts on the wire, for a version byte. *)
Definition frameBytes (version : byte) (f : nativeFrame) : gstr :=
  nativeMagic ++ [version] ++ be_encode 1 (f_flags f) ++ be_encode 4 (f_lane f) ++
  be_encode 2 (f_opcode f) ++ be_encode 8 (f_request f) ++ be_encode 4 (blen (f_body f)) ++ f_body f.

Inductive frameError :=
| FrameEOF
| FrameUnexpectedEOF
| FrameMagic
| FrameVersion (version : byte)
| FrameTooLarge (limit : Z).

(** [io.ReadFull] of [n] bytes. *)
Definition readFull (n : Z) (stream : gstr) : result frameError (gstr * gstr) :=
  if n <=? blen stream then Ok (btake n stream, bdrop n stream)
  else if bool_decide (stream = []) then Err FrameEOF else Err FrameUnexpectedEOF.

(** [header[i:j]]. *)
Definition slice (i j : Z) (header : gstr) : gstr := btake (j - i) (bdrop i header).

Definition frameLimit (maxBodyBytes : Z) : Z :=
  if (maxBodyBytes <=? 0) || (nativeMaxFrameBytes <? maxBodyBytes) then nativeMaxFrameBytes
  else maxBodyBytes.

Definition readNativeFrameWithLimit (stream : gstr) (maxBodyBytes : Z)
  : result frameError (nativeFrame * gstr) :=
  let maxBodyBytes := frameLimit maxBodyBytes in
  let! (header, stream) := readFull nativeHeaderLen stream in
  if negb (bool_decide (slice 0 4 header = nativeMagic)) then Err FrameMagic
  else match slice 4 5 header with
  | [version] =>
      if negb (bool_decide (version = nativeResponseVersion)) then Err (FrameVersion version)
      else
        let bodyLen := be_decode (slice 20 24 header) in
        if maxBodyBytes <? bodyLen then Err (FrameTooLarge maxBodyBytes)
        else
          let! (body, stream) := readFull bodyLen stream in
          Ok (Frame (be_decode (slice 5 6 header)) (be_decode (slice 6 10 header))
                (be_decode (slice 10 12 header)) (be_decode (slice 12 20 header)) body, stream)
  | _ => Err FrameMagic      (* not reached: the header has 24 bytes *)
  end.

(** The fields of a frame at their widths. *)
Definition frame_fields (f : nativeFrame) : Prop :=
  in_uint 8 (f_flags f) /\ in_uint 32 (f_lane f) /\ in_uint 16 (f_opcode f) /\
  in_uint 64 (f_request f) /\ blen (f_body f) <= nativeMaxFrameBytes.

(** A list of known length, byte by byte. *)
Ltac bytes_of l :=
  lazymatch goal with
  | H : length l = ?n |- _ =>
      let rec split n :=
        lazymatch n with
        | O => destruct l as [|? ?]; [clear H|discriminate H]
        | S ?n =>
            let b := fresh "b" in
            destruct l as [|b l]; [discriminate H|]; apply (f_equal Nat.pred) in H; cbn in H; split n
        end in split n
  end.

Lemma readFull_ok n stream got rest :
  0 <= n -> readFull n stream = Ok (got, rest) <-> stream = got ++ rest /\ blen got = n.
Proof.
  intros Hn. unfold readFull. destruct (Z.leb_spec n (blen stream)) as [Hle|Hlt].
  - split.
    + intros [= <- <-]. split; [by rewrite btake_bdrop|by apply blen_btake].
    + intros [-> <-]. by rewrite btake_app, bdrop_app.
  - split; [by destruct (bool_decide _)|]. intros [-> <-]. exfalso.
    rewrite blen_app in Hlt. pose proof (blen_nonneg rest). lia.
Qed.

(** The header as its fields. *)
Lemma header_fields header :
  length header = 24%nat ->
  exists m v fl la op re le,
    header = m ++ [v] ++ fl ++ la ++ op ++ re ++ le /\
    slice 0 4 header = m /\ slice 4 5 header = [v] /\ slice 5 6 header = fl /\ slice 6 10 header = la /\
    slice 10 12 header = op /\ slice 12 20 header = re /\ slice 20 24 header = le /\
    length m = 4%nat /\ length fl = 1%nat /\ length la = 4%nat /\ length op = 2%nat /\ length re = 8%nat /\
    length le = 4%nat.
Proof.
  intros H. bytes_of header.
  eexists [_; _; _; _], _, [_], [_; _; _; _], [_; _], [_; _; _; _; _; _; _; _], [_; _; _; _].
  cbn. done.
Qed.

Lemma fields_header m v fl la op re le :
  length m = 4%nat -> length fl = 1%nat -> length la = 4%nat -> length op = 2%nat -> length re = 8%nat ->
  length le = 4%nat ->
  let header := m ++ [v] ++ fl ++ la ++ op ++ re ++ le in
  length header = 24%nat /\
  slice 0 4 header = m /\ slice 4 5 header = [v] /\ slice 5 6 header = fl /\ slice 6 10 header = la /\
  slice 10 12 header = op /\ slice 12 20 header = re /\ slice 20 24 header = le.
Proof.
  intros Hm Hfl Hla Hop Hre Hle.
  bytes_of m. bytes_of fl. bytes_of la. bytes_of op. bytes_of re. bytes_of le. done.
Qed.

Lemma read_frame_spec stream limit f rest :
  readNativeFrameWithLimit stream limit = Ok (f, rest) <->
  stream = frameBytes nativeResponseVersion f ++ rest /\ frame_fields f /\
  blen (f_body f) <= frameLimit limit.
Proof.
  unfold readNativeFrameWithLimit.
  assert (frameLimit limit <= nativeMaxFrameBytes) as Hlim.
  { unfold frameLimit. destruct (Z.leb_spec limit 0), (Z.ltb_spec nativeMaxFrameBytes limit); cbn; lia. }
  assert (nativeMaxFrameBytes < 2 ^ 32) as Hmax by done. split.
  - intros H. apply rbind_ok in H as ([header s] & Hh & H). apply readFull_ok in Hh as [-> Hh]; [|done].
    unfold blen in Hh. destruct (header_fields header ltac:(unfold nativeHeaderLen in Hh; lia))
      as (m & v & fl & la & op & re & le & -> & Em & Ev & Efl & Ela & Eop & Ere & Ele & Hm & Hfl & Hla & Hop & Hre & Hle).
    rewrite Em, Ev, Efl, Ela, Eop, Ere, Ele in H.
    case_bool_decide as Hmagic; [cbn in H|done]. case_bool_decide as Hv; [cbn in H|done].
    destruct (Z.ltb_spec (frameLimit limit) (be_decode le)) as [|Hlen]; [done|].
    apply rbind_ok in H as ([body s'] & Hb & [= <- <-]).
    pose proof (be_decode_range le) as Rle. pose proof (be_decode_range fl) as Rfl.
    pose proof (be_decode_range la) as Rla. pose proof (be_decode_range op) as Rop.
    pose proof (be_decode_range re) as Rre. unfold blen in Rle, Rfl, Rla, Rop, Rre.
    rewrite Hfl in Rfl. rewrite Hla in Rla. rewrite Hop in Rop. rewrite Hre in Rre. rewrite Hle in Rle.
    apply readFull_ok in Hb as [-> Hb]; [|by destruct Rle].
    split; [|split; [split_and!; cbn; try done; lia|cbn; lia]].
    unfold frameBytes. cbn [f_flags f_lane f_opcode f_request f_body]. subst m v.
    rewrite Hb, !be_encode_decode by done. by rewrite <- !app_assoc.
  - intros (-> & (Hfl & Hla & Hop & Hre & Hb) & Hlen). destruct f as [fl la op re body].
    unfold frameBytes. cbn [f_flags f_lane f_opcode f_request f_body] in *.
    destruct (fields_header nativeMagic nativeResponseVersion (be_encode 1 fl) (be_encode 4 la) (be_encode 2 op)
      (be_encode 8 re) (be_encode 4 (blen body))) as (Hh & Em & Ev & Efl & Ela & Eop & Ere & Ele);
      [done|by rewrite length_be_encode..|].
    set (header := nativeMagic ++ [nativeResponseVersion] ++ be_encode 1 fl ++ be_encode 4 la ++
      be_encode 2 op ++ be_encode 8 re ++ be_encode 4 (blen body)) in *.
    match goal with |- context [readFull _ ?s] =>
      assert (s = header ++ body ++ rest) as -> by (unfold header; by rewrite <- !app_assoc) end.
    rewrite (proj2 (readFull_ok nativeHeaderLen (header ++ body ++ rest) header (body ++ rest) ltac:(done)));
      [|split; [done|unfold blen, nativeHeaderLen; lia]].
    cbn [rbind]. rewrite Em, Ev, Efl, Ela, Eop, Ere, Ele. rewrite !bool_decide_true by done. cbn [negb].
    pose proof (blen_nonneg body).
    rewrite !be_decode_encode, !Z.mod_small by (split; lia || (unfold in_uint in *; lia)).
    destruct (Z.ltb_spec (frameLimit limit) (blen body)); [lia|].
    rewrite (proj2 (readFull_ok (blen body) (body ++ rest) body rest ltac:(lia))); done.
Qed.

(** The frame reader accepts exactly the frames of the wire layout that are
    within the negotiated limit, field by field, and leaves the rest of the
    stream; a request header written by the client has the same layout. *)
Theorem read_frame_exact stream limit f rest :
  readNativeFrameWithLimit stream limit = Ok (f, rest) <->
  stream = frameBytes nativeResponseVersion f ++ rest /\ frame_fields f /\
  blen (f_body f) <= frameLimit limit.
Proof. apply read_frame_spec. Qed.

(** Facts about the flags of a byte, by enumeration. *)
Lemma byte_flags (P : Z -> bool) :
  forallb P (Z.of_nat <$> seq 0 256) = true -> forall flags, in_uint 8 flags -> P flags = true.
Proof.
  intros H flags [H0 H1]. rewrite forallb_forall in H. apply H.
  apply list_elem_of_In, list_elem_of_fmap. exists (Z.to_nat flags). rewrite elem_of_seq. lia.
Qed.

Lemma length_frameBytes v f : (24 <= length (frameBytes v f))%nat.
Proof. unfold frameBytes. rewrite !length_app, !length_be_encode. change (length nativeMagic) with 4%nat. cbn [length]. lia. Qed.
