(* ===== verification/Assembler.v ===== *)
(** Reassembly of chunked responses (src/native_frame.go) and decoding of a
    response body (src/native_response.go).

    [decodeCompact], the reading of custom payloads, is a parameter:
    [decodeNativeCompactResponseWithMode] of CompactResponse.v, [None] where it does
    not know the marker. *)

From S2P Require Export Frame.

Inductive nativeResponseDecodeMode := DecodeGeneric | DecodeFlowQuery.

#[global] Instance decode_mode_eq_dec : EqDecision nativeResponseDecodeMode.
Proof. solve_decision. Defined.

Inductive respError (E : Type) :=
| RespFlags (flags : Z)
| RespStillChunked
| RespTooLarge
| RespFrameLimit
| RespBufferedBytes
| RespBufferedFrames
| RespFlagsChanged
| RespModeChanged
| RespChunkFrames
| RespCompressed
| RespTruncated
| RespEmptyCustom
| RespMarker
| RespTrailing
| RespValue (e : decError)
| RespCompact (e : E).
Arguments RespFlags {E}.
Arguments RespStillChunked {E}.
Arguments RespTooLarge {E}.
Arguments RespFrameLimit {E}.
Arguments RespBufferedBytes {E}.
Arguments RespBufferedFrames {E}.
Arguments RespFlagsChanged {E}.
Arguments RespModeChanged {E}.
Arguments RespChunkFrames {E}.
Arguments RespCompressed {E}.
Arguments RespTruncated {E}.
Arguments RespEmptyCustom {E}.
Arguments RespMarker {E}.
Arguments RespTrailing {E}.
Arguments RespValue {E}.
Arguments RespCompact {E}.

Section Assembler.
(** The values and the errors of the compact codecs. *)
Context {V E : Type}.
Context (decodeCompact : Z -> gstr -> nativeResponseDecodeMode -> option (result E V)).

Inductive responseValue := Plain (v : val) | Compact (v : V).

Record nativeResponse := Response {
  r_flags : Z;
  r_lane : Z;
  r_opcode : Z;
  r_request : Z;
  r_status : Z;
  r_value : responseValue;
  r_wireBytes : Z;
}.

Definition validateNativeResponseFlags (flags : Z) (chunksAllowed : bool) : result (respError E) unit :=
  if has_flag (Z.lxor 255 nativeResponseWireFlags) flags || has_flag nativeFlagNoReply flags
  then Err (RespFlags flags)
  else if negb chunksAllowed && has_flag nativeFlagMoreChunks flags then Err RespStillChunked
  else Ok tt.

(** [decodeNativeResponseFrameWithCodecsAndMode]; of [first] it reads the lane,
    opcode and request identifier. *)
Definition decodeNativeResponseFrame (first : nativeFrame) (body : gstr) (flags : Z)
  (mode : nativeResponseDecodeMode) : result (respError E) nativeResponse :=
  let! _ := validateNativeResponseFlags flags false in
  if has_flag nativeFlagCompressed flags then Err RespCompressed
  else if blen body <? 2 then Err RespTruncated
  else
    let status := be_decode (btake 2 body) in
    let payload := bdrop 2 body in
    let response value :=
      Response flags (f_lane first) (f_opcode first) (f_request first) status value (blen body) in
    if has_flag nativeFlagCustomPayload flags then
      if blen body =? 2 then Err RespEmptyCustom
      else
        let responseMode := if status =? nativeStatusOK then mode else DecodeGeneric in
        match decodeCompact (f_opcode first) payload responseMode with
        | Some (Err e) => Err (RespCompact e)
        | None => Err RespMarker
        | Some (Ok value) => Ok (response (Compact value))
        end
    else
      match decodeNativeValue payload with
      | Err e => Err (RespValue e)
      | Ok (value, rest) =>
          if bool_decide (rest = []) then Ok (response (Plain value)) else Err RespTrailing
      end.

(** ** The assembler *)

(** [nativeResponseChunkKey]: request, opcode and lane. *)
Abbreviation chunkKey := (Z * Z * Z)%type.

Definition frame_key (f : nativeFrame) : chunkKey := (f_request f, f_opcode f, f_lane f).

(** [body] with its capacity, once the parts are compacted. *)
Record nativeResponseChunkState := Chunk {
  first : nativeFrame;
  parts : list gstr;
  cbody : option (gstr * Z);
  cbytes : Z;
  cframes : Z;
  cmode : nativeResponseDecodeMode;
}.

Record nativeResponseAssembler := Assembler {
  maxBytes : Z;
  maxFrames : Z;
  chunks : gmap chunkKey nativeResponseChunkState;
  bufferedBytes : Z;
  bufferedFrames : Z;
}.

Definition newNativeResponseAssembler (maxBytes maxFrames : Z) : nativeResponseAssembler :=
  Assembler maxBytes maxFrames ∅ 0 0.

Definition set_chunks (m : gmap chunkKey nativeResponseChunkState) (bytes frames : Z)
  (a : nativeResponseAssembler) : nativeResponseAssembler :=
  Assembler (maxBytes a) (maxFrames a) m bytes frames.

Definition compactionThreshold (a : nativeResponseAssembler) : Z := Z.max 1 (maxBytes a / 2).

(** [compact]: the parts copied into one body. *)
Definition compact (maxBytes : Z) (s : nativeResponseChunkState) : nativeResponseChunkState :=
  let capacity := if cbytes s <=? maxBytes / 2 then cbytes s * 2 else maxBytes in
  Chunk (first s) [] (Some (concat (parts s), capacity)) (cbytes s) (cframes s) (cmode s).

(** [appendNativeResponseChunk]: the body and its capacity. *)
Definition appendNativeResponseChunk (body : gstr * Z) (next : gstr) (max : Z)
  : result (respError E) (gstr * Z) :=
  let (bytes, cap) := body in
  if max - blen bytes <? blen next then Err RespTooLarge
  else
    let required := blen bytes + blen next in
    let cap :=
      if cap <? required
      then Z.min max (Z.max required (if cap <=? max / 2 then cap * 2 else max))
      else cap in
    Ok (bytes ++ next, cap).

Definition with_flags (flags : Z) (f : nativeFrame) : nativeFrame :=
  Frame flags (f_lane f) (f_opcode f) (f_request f) (f_body f).

(** The body of a completed response. *)
Definition content (s : nativeResponseChunkState) : gstr :=
  match cbody s with Some (body, _) => body | None => concat (parts s) end.

(** The state of the response a frame belongs to, created or checked, with the
    flags of the frame. *)
Definition startChunk (found : option nativeResponseChunkState) (frame : nativeFrame)
  (mode : nativeResponseDecodeMode) : result (respError E) nativeResponseChunkState :=
  let! state :=
    match found with
    | None => Ok (Chunk (Frame (f_flags frame) (f_lane frame) (f_opcode frame) (f_request frame) [])
                    [] None 0 0 mode)
    | Some state =>
        if negb (Z.land (f_flags (first state)) nativeStableChunkFlags
                 =? Z.land (f_flags frame) nativeStableChunkFlags) then Err RespFlagsChanged
        else if negb (bool_decide (cmode state = mode)) then Err RespModeChanged
        else Ok state
    end in
  Ok (Chunk (with_flags (Z.lor (f_flags (first state)) (f_flags frame)) (first state))
        (parts state) (cbody state) (cbytes state) (cframes state) (cmode state)).

(** The limits of a chunk, of its response and of all buffered responses. *)
Definition chunkLimits (a : nativeResponseAssembler) (state : nativeResponseChunkState) (size : Z)
  : option (respError E) :=
  if maxBytes a - cbytes state <? size then Some RespTooLarge
  else if maxFrames a <=? cframes state then Some RespChunkFrames
  else if maxBytes a - bufferedBytes a <? size then Some RespBufferedBytes
  else if maxFrames a <=? bufferedFrames a then Some RespBufferedFrames
  else None.

(** The body of a frame added to its response, compacted past the threshold. *)
Definition appendChunk (a : nativeResponseAssembler) (state : nativeResponseChunkState) (body : gstr)
  : result (respError E) nativeResponseChunkState :=
  let! (newParts, newBody) :=
    match cbody state with
    | Some old =>
        let! new := appendNativeResponseChunk old body (maxBytes a) in Ok (parts state, Some new)
    | None => Ok (parts state ++ [body], None)
    end in
  let state := Chunk (first state) newParts newBody (cbytes state + blen body)
                 (cframes state + 1) (cmode state) in
  Ok (match cbody state with
      | None => if compactionThreshold a <=? cbytes state then compact (maxBytes a) state else state
      | Some _ => state
      end).

(** [addWithDecodeMode]; the assembler is returned with an error too, as the
    code leaves it. *)
Definition addWithDecodeMode (a : nativeResponseAssembler) (frame : nativeFrame)
  (mode : nativeResponseDecodeMode)
  : nativeResponseAssembler * result (respError E) (option nativeResponse) :=
  let size := blen (f_body frame) in
  match validateNativeResponseFlags (f_flags frame) true with
  | Err e => (a, Err e)
  | Ok _ =>
  if (maxBytes a <=? 0) || (maxBytes a <? size) then (a, Err RespTooLarge)
  else if maxFrames a <=? 0 then (a, Err RespFrameLimit)
  else
  let key := frame_key frame in
  let found := chunks a !! key in
  let more := has_flag nativeFlagMoreChunks (f_flags frame) in
  if bool_decide (found = None) && negb more then
    if maxBytes a - bufferedBytes a <? size then (a, Err RespBufferedBytes)
    else if maxFrames a <=? bufferedFrames a then (a, Err RespBufferedFrames)
    else (a, rmap Some (decodeNativeResponseFrame frame (f_body frame) (f_flags frame) mode))
  else
  match startChunk found frame mode with
  | Err e => (a, Err e)
  | Ok state =>
      let a := set_chunks (<[key := state]> (chunks a)) (bufferedBytes a) (bufferedFrames a) a in
      match chunkLimits a state size with
      | Some e => (a, Err e)
      | None =>
          match appendChunk a state (f_body frame) with
          | Err e => (a, Err e)
          | Ok state =>
              let a := set_chunks (<[key := state]> (chunks a)) (bufferedBytes a + size)
                         (bufferedFrames a + 1) a in
              if more then (a, Ok None)
              else
                let flags := Z.land (Z.lor (f_flags (first state)) (f_flags frame))
                               (Z.lxor 255 nativeFlagMoreChunks) in
                (set_chunks (delete key (chunks a)) (bufferedBytes a - cbytes state)
                   (bufferedFrames a - cframes state) a,
                 rmap Some (decodeNativeResponseFrame (first state) (content state) flags (cmode state)))
          end
      end
  end
  end.

(** Frames given to [add] until the first error. *)
Fixpoint addAll (a : nativeResponseAssembler) (frames : list (nativeFrame * nativeResponseDecodeMode))
  : result (respError E) (nativeResponseAssembler * list nativeResponse) :=
  match frames with
  | [] => Ok (a, [])
  | (frame, mode) :: frames =>
      match addWithDecodeMode a frame mode with
      | (_, Err e) => Err e
      | (a, Ok response) =>
          let! (a, responses) := addAll a frames in
          Ok (a, option_list response ++ responses)
      end
  end.

(** [readNativeResponseWithPolicy]: frames are read until one completes a
    response; every frame has a header, so the length of the stream bounds them. *)
Fixpoint readFrames (fuel : nat) (a : nativeResponseAssembler) (stream : gstr)
  : result (frameError + respError E) (nativeResponse * gstr) :=
  match fuel with
  | O => Err (inl FrameEOF)
  | S fuel =>
      match readNativeFrameWithLimit stream (maxBytes a) with
      | Err e => Err (inl e)
      | Ok (frame, stream) =>
          match addWithDecodeMode a frame DecodeGeneric with
          | (_, Err e) => Err (inr e)
          | (_, Ok (Some response)) => Ok (response, stream)
          | (a, Ok None) => readFrames fuel a stream
          end
      end
  end.

Definition readNativeResponseWithPolicy (maxBytes : Z) (stream : gstr) :=
  readFrames (S (length stream)) (newNativeResponseAssembler maxBytes nativeMaxResponseChunkFrames) stream.

(** ** Bounds *)

(** What the assembler keeps of a response. *)
Record chunk_ok (a : nativeResponseAssembler) (key : chunkKey) (s : nativeResponseChunkState) : Prop := ChunkOk {
  co_key : frame_key (first s) = key;
  co_bytes : cbytes s = blen (content s) /\ cbytes s <= maxBytes a;
  co_frames : 0 <= cframes s <= maxFrames a;
  co_body : match cbody s with
            | Some (body, cap) => parts s = [] /\ blen body <= cap <= maxBytes a /\ cap <= 2 * cbytes s + 1
            | None => cbytes s < compactionThreshold a
            end;
}.

Record asm_inv (a : nativeResponseAssembler) : Prop := AsmInv {
  ai_chunks key s : chunks a !! key = Some s -> chunk_ok a key s;
  ai_bytes : bufferedBytes a = msum (fun _ s => cbytes s) (chunks a) /\ bufferedBytes a <= Z.max 0 (maxBytes a);
  ai_frames : bufferedFrames a = msum (fun _ s => cframes s) (chunks a) /\
    bufferedFrames a <= Z.max 0 (maxFrames a);
}.

Lemma chunk_nonneg a key s : chunk_ok a key s -> 0 <= cbytes s /\ 0 <= cframes s.
Proof. intros [? [-> ?] ? ?]. split; [apply blen_nonneg|lia]. Qed.

Lemma asm_inv_init mb mf : asm_inv (newNativeResponseAssembler mb mf).
Proof. split; cbn; [intros ? ? H; by rewrite lookup_empty in H|rewrite msum_empty; lia..]. Qed.

(** The bounds depend on the limits only. *)
Lemma chunk_ok_limits a a' key s :
  maxBytes a' = maxBytes a -> maxFrames a' = maxFrames a -> chunk_ok a key s -> chunk_ok a' key s.
Proof.
  intros Hb Hf [? ? ? ?]. split; rewrite ?Hb, ?Hf; try done.
  destruct (cbody s) as [[]|]; unfold compactionThreshold in *; rewrite ?Hb; done.
Qed.

Lemma asm_inv_insert a key s bytes frames :
  asm_inv a -> chunk_ok a key s ->
  bytes = bufferedBytes a + cbytes s - default 0 (cbytes <$> chunks a !! key) ->
  frames = bufferedFrames a + cframes s - default 0 (cframes <$> chunks a !! key) ->
  bytes <= Z.max 0 (maxBytes a) -> frames <= Z.max 0 (maxFrames a) ->
  asm_inv (set_chunks (<[key := s]> (chunks a)) bytes frames a).
Proof.
  intros [Hc [Hb _] [Hf _]] Hs -> -> ? ?. split; cbn.
  - intros k s' [[<- <-]|[_ Hk]]%lookup_insert_Some; [by eapply chunk_ok_limits; [..|exact Hs]|].
    by eapply chunk_ok_limits; [..|apply Hc, Hk].
  - split; [|done]. rewrite msum_insert, Hb. destruct (chunks a !! key); cbn; lia.
  - split; [|done]. rewrite msum_insert, Hf. destruct (chunks a !! key); cbn; lia.
Qed.

Lemma asm_inv_delete a key s :
  asm_inv a -> chunks a !! key = Some s ->
  asm_inv (set_chunks (delete key (chunks a)) (bufferedBytes a - cbytes s) (bufferedFrames a - cframes s) a).
Proof.
  intros [Hc [Hbytes Hbl] [Hframes Hfl]] Hin. pose proof (chunk_nonneg _ _ _ (Hc _ _ Hin)).
  pose proof (msum_delete (fun _ s => cbytes s) _ _ _ Hin) as Hd1.
  pose proof (msum_delete (fun _ s => cframes s) _ _ _ Hin) as Hd2. cbn beta in Hd1, Hd2.
  split; cbn [chunks bufferedBytes bufferedFrames maxBytes maxFrames set_chunks]; [|lia..].
  intros k x [_ Hx]%lookup_delete_Some. apply (chunk_ok_limits a); [done|done|]. by apply Hc.
Qed.

Lemma startChunk_spec a found frame mode s :
  (forall s, found = Some s -> chunk_ok a (frame_key frame) s) -> 0 < maxBytes a -> 0 < maxFrames a ->
  startChunk found frame mode = Ok s ->
  chunk_ok a (frame_key frame) s /\
  cbytes s = default 0 (cbytes <$> found) /\ cframes s = default 0 (cframes <$> found) /\
  cmode s = mode /\
  (f_flags (first s), content s) =
    match found with
    | Some old => (Z.lor (f_flags (first old)) (f_flags frame), content old)
    | None => (Z.lor (f_flags frame) (f_flags frame), [])
    end /\
  match found with Some old => cmode old = mode | None => True end.
Proof.
  intros Hf Hb Hfr H. unfold startChunk in H. apply rbind_ok in H as (s0 & H & [= <-]).
  destruct found as [old|].
  - destruct (negb _) in H; [done|]. case_bool_decide as Hm; [|done]. injection H as <-.
    destruct (Hf old eq_refl) as [Hk [? ?] ? Hbody]. split; [|by split_and!].
    split; cbn; [by destruct (first old)|done|done|done].
  - injection H as <-. split; [|by split_and!]. split; cbn; [done|split; [done|lia]|lia|].
    unfold compactionThreshold. lia.
Qed.

Lemma chunkLimits_spec a s size : chunkLimits a s size = None ->
  size <= maxBytes a - cbytes s /\ cframes s < maxFrames a /\
  size <= maxBytes a - bufferedBytes a /\ bufferedFrames a < maxFrames a.
Proof.
  unfold chunkLimits.
  destruct (Z.ltb_spec (maxBytes a - cbytes s) size); [done|].
  destruct (Z.leb_spec (maxFrames a) (cframes s)); [done|].
  destruct (Z.ltb_spec (maxBytes a - bufferedBytes a) size); [done|].
  destruct (Z.leb_spec (maxFrames a) (bufferedFrames a)); [done|]. lia.
Qed.

Lemma appendChunk_spec a key s body s' :
  0 < maxBytes a -> chunk_ok a key s -> blen body <= maxBytes a - cbytes s -> cframes s < maxFrames a ->
  appendChunk a s body = Ok s' ->
  chunk_ok a key s' /\ cbytes s' = cbytes s + blen body /\ cframes s' = cframes s + 1 /\
  first s' = first s /\ cmode s' = cmode s /\ content s' = content s ++ body.
Proof.
  intros Hmax [Hk [Hbytes Hle] Hfr Hb] Hsize Hframes H. pose proof (blen_nonneg body) as Hn.
  pose proof (blen_nonneg (content s)) as Hc. unfold appendChunk in H.
  apply rbind_ok in H as ([np nb] & H & [= <-]). destruct (cbody s) as [[b cap]|] eqn:Eb.
  - destruct Hb as (Hparts & Hcap & Hcap2). apply rbind_ok in H as ([b' cap'] & H & [= <- <-]).
    unfold appendNativeResponseChunk in H. unfold content in Hbytes, Hc. rewrite Eb in Hbytes, Hc.
    destruct (Z.ltb_spec (maxBytes a - blen b) (blen body)); [done|]. injection H as <- <-.
    cbn [cbody]. split; [|by unfold content; cbn; rewrite Eb]. unfold content. split; cbn; [done| |lia|].
    + rewrite blen_app. lia.
    + rewrite blen_app. split; [done|].
      destruct (Z.ltb_spec cap (blen b + blen body)), (Z.leb_spec cap (maxBytes a / 2)); 
        pose proof (Z.div_mod (maxBytes a) 2 ltac:(lia)); pose proof (Z.mod_pos_bound (maxBytes a) 2 ltac:(lia)); lia.
  - injection H as <- <-. cbn [cbody]. unfold content in Hbytes, Hc. rewrite Eb in Hbytes, Hc.
    assert (blen (concat (parts s ++ [body])) = cbytes s + blen body) as Hnew.
    { rewrite concat_app, blen_app. cbn. rewrite app_nil_r. lia. }
    assert (concat (parts s ++ [body]) = concat (parts s) ++ body) as Hcat.
    { rewrite concat_app. cbn. by rewrite app_nil_r. }
    cbn [cbytes]. unfold compactionThreshold in *.
    destruct (Z.leb_spec (Z.max 1 (maxBytes a / 2)) (cbytes s + blen body)) as [Hth|Hth].
    + unfold compact. cbn. split; [|unfold content; cbn; rewrite Eb; by split_and!]. unfold content.
      split; cbn; [done|lia|lia|]. split; [done|].
      pose proof (Z.div_mod (maxBytes a) 2 ltac:(lia)); pose proof (Z.mod_pos_bound (maxBytes a) 2 ltac:(lia)).
      destruct (Z.leb_spec (cbytes s + blen body) (maxBytes a / 2)); lia.
    + split; [|unfold content; cbn; rewrite Eb; by split_and!]. unfold content.
      split; cbn; [done|lia|lia|]. unfold compactionThreshold. lia.
Qed.

(** ** Refinement: responses, one key at a time *)

(** What is pending for a key: the flags and the body so far. *)
Definition pending (a : nativeResponseAssembler) (key : chunkKey) : option (Z * gstr) :=
  (fun s => (f_flags (first s), content s)) <$> chunks a !! key.

(** The reference: the bodies of a response's frames, appended. *)
Definition merge (old : option (Z * gstr)) (frame : nativeFrame) : Z * gstr :=
  match old with
  | None => (f_flags frame, f_body frame)
  | Some (flags, body) => (Z.lor flags (f_flags frame), body ++ f_body frame)
  end.

Definition finalFlags (old : option (Z * gstr)) (frame : nativeFrame) : Z :=
  match old with
  | None => f_flags frame
  | Some _ => Z.land (merge old frame).1 (Z.lxor 255 nativeFlagMoreChunks)
  end.

Definition decodeMerged (old : option (Z * gstr)) (frame : nativeFrame) (mode : nativeResponseDecodeMode) :=
  decodeNativeResponseFrame frame (merge old frame).2 (finalFlags old frame) mode.

Lemma decode_frame_key f1 f2 body flags mode :
  frame_key f1 = frame_key f2 ->
  decodeNativeResponseFrame f1 body flags mode = decodeNativeResponseFrame f2 body flags mode.
Proof.
  destruct f1, f2. cbn. intros [= -> -> ->]. done.
Qed.

(** One frame: the invariant is kept whatever happens, and without an error the
    frame goes to its own response only. *)
Record add_post (a : nativeResponseAssembler) (frame : nativeFrame) (mode : nativeResponseDecodeMode)
  (a' : nativeResponseAssembler) (r : result (respError E) (option nativeResponse)) : Prop := AddPost {
  ap_inv : asm_inv a';
  ap_limits : maxBytes a' = maxBytes a /\ maxFrames a' = maxFrames a;
  ap_other key : key <> frame_key frame -> chunks a' !! key = chunks a !! key;
  ap_result : match r with
    | Err _ => True
    | Ok None =>
        has_flag nativeFlagMoreChunks (f_flags frame) = true /\
        pending a' (frame_key frame) = Some (merge (pending a (frame_key frame)) frame) /\
        exists s, chunks a' !! frame_key frame = Some s /\ cmode s = mode /\
          cframes s = default 0 (cframes <$> chunks a !! frame_key frame) + 1
    | Ok (Some response) =>
        has_flag nativeFlagMoreChunks (f_flags frame) = false /\
        pending a' (frame_key frame) = None /\
        decodeMerged (pending a (frame_key frame)) frame mode = Ok response
    end;
}.

Lemma add_unchanged a frame mode e : asm_inv a -> add_post a frame mode a (Err e).
Proof. by split. Qed.

Lemma pending_set a key m b f : pending (set_chunks m b f a) key = (fun s => (f_flags (first s), content s)) <$> m !! key.
Proof. done. Qed.

(** [a0] is the assembler with the started chunk stored. *)
Lemma add_append a frame mode s s' :
  asm_inv a -> 0 < maxBytes a -> 0 < maxFrames a ->
  startChunk (chunks a !! frame_key frame) frame mode = Ok s ->
  let a0 := set_chunks (<[frame_key frame := s]> (chunks a)) (bufferedBytes a) (bufferedFrames a) a in
  chunkLimits a0 s (blen (f_body frame)) = None ->
  appendChunk a0 s (f_body frame) = Ok s' ->
  let a1 := set_chunks (<[frame_key frame := s']> (chunks a0)) (bufferedBytes a0 + blen (f_body frame))
              (bufferedFrames a0 + 1) a0 in
  asm_inv a0 /\ asm_inv a1 /\ chunk_ok a1 (frame_key frame) s' /\
  (cmode s' = mode /\ cframes s' = default 0 (cframes <$> chunks a !! frame_key frame) + 1) /\
  content s' = (merge (pending a (frame_key frame)) frame).2 /\
  (f_flags (first s') = match pending a (frame_key frame) with
     | Some (flags, _) => Z.lor flags (f_flags frame) | None => Z.lor (f_flags frame) (f_flags frame) end) /\
  frame_key (first s') = frame_key frame.
Proof.
  intros Hinv Hb Hf Hs a0 Hl Ha a1.
  destruct (startChunk_spec a _ frame mode s (fun s H => ai_chunks _ Hinv _ _ H) Hb Hf Hs)
    as (Hok & Hcb & Hcf & Hmode & Hflags & _).
  assert (asm_inv a0) as H0.
  { apply asm_inv_insert; try done; [lia|lia|apply Hinv|apply Hinv]. }
  apply chunkLimits_spec in Hl. cbn in Hl.
  assert (chunk_ok a0 (frame_key frame) s) as Hok0 by by eapply chunk_ok_limits; [..|exact Hok].
  destruct (appendChunk_spec a0 (frame_key frame) s (f_body frame) s' ltac:(done) Hok0
    ltac:(cbn; lia) ltac:(cbn; lia) Ha) as (Hok' & Hb' & Hf' & Hfirst & Hm' & Hcontent).
  pose proof (blen_nonneg (f_body frame)).
  assert (asm_inv a1) as H1.
  { apply asm_inv_insert; [done|done|cbn; rewrite lookup_insert_eq; cbn; lia..| |]; cbn; lia. }
  split; [done|]. split; [done|]. split; [by eapply chunk_ok_limits; [..|exact Hok']|].
  split; [split; [congruence|lia]|]. split_and!.
  - rewrite Hcontent. unfold pending. destruct (chunks a !! frame_key frame); cbn in *;
      injection Hflags as Hfl Hct; rewrite ?Hfl, ?Hct; done.
  - rewrite Hfirst. unfold pending. destruct (chunks a !! frame_key frame); cbn in *;
      injection Hflags as Hfl Hct; rewrite ?Hfl, ?Hct; done.
  - by destruct Hok'.
Qed.

Lemma add_spec a frame mode a' r :
  asm_inv a -> addWithDecodeMode a frame mode = (a', r) -> add_post a frame mode a' r.
Proof.
  intros Hinv. unfold addWithDecodeMode.
  destruct (validateNativeResponseFlags _ _); [|intros [= <- <-]; by apply add_unchanged].
  destruct (Z.leb_spec (maxBytes a) 0) as [|Hb]; [intros [= <- <-]; by apply add_unchanged|].
  destruct (Z.ltb_spec (maxBytes a) (blen (f_body frame))) as [|Hsize];
    cbn [orb]; [intros [= <- <-]; by apply add_unchanged|].
  destruct (Z.leb_spec (maxFrames a) 0) as [|Hf]; [intros [= <- <-]; by apply add_unchanged|].
  destruct (bool_decide (chunks a !! frame_key frame = None) && _) eqn:Hsingle.
  { apply andb_prop in Hsingle as [Hnone%bool_decide_eq_true Hmore%negb_true_iff].
    destruct (_ <? _); [intros [= <- <-]; by apply add_unchanged|].
    destruct (_ <=? _); [intros [= <- <-]; by apply add_unchanged|].
    intros [= <- <-]. split; [done|done|done|].
    unfold pending, decodeMerged. rewrite Hnone. cbn.
    by destruct (decodeNativeResponseFrame _ _ _ _). }
  destruct (startChunk _ _ _) as [s|e] eqn:Hs; [|intros [= <- <-]; by apply add_unchanged].
  set (a0 := set_chunks (<[frame_key frame := s]> (chunks a)) _ _ a).
  assert (asm_inv a0) as H0.
  { destruct (startChunk_spec a _ frame mode s (fun s H => ai_chunks _ Hinv _ _ H) Hb Hf Hs)
      as (Hok & Hcb & Hcf & _). apply asm_inv_insert; try done; [lia|lia|apply Hinv|apply Hinv]. }
  assert (forall key, key <> frame_key frame -> chunks a0 !! key = chunks a !! key) as Hother.
  { intros key Hne. cbn. by rewrite lookup_insert_ne. }
  destruct (chunkLimits a0 s _) as [e|] eqn:Hl; [intros [= <- <-]; by split|].
  destruct (appendChunk a0 s (f_body frame)) as [s'|e] eqn:Ha; [|intros [= <- <-]; by split].
  destruct (add_append a frame mode s s' Hinv Hb Hf Hs Hl Ha) as (_ & H1 & Hok1 & [Hmode Hnum] & Hcontent & Hflags & Hkey).
  set (a1 := set_chunks (<[frame_key frame := s']> (chunks a0)) _ _ a0) in *.
  destruct (has_flag nativeFlagMoreChunks (f_flags frame)) eqn:Hmore; intros [= <- <-].
  - split; [done|done| |].
    + intros key Hne. cbn. rewrite lookup_insert_ne by done. by apply Hother.
    + split; [done|]. split.
      * unfold pending at 1. cbn. rewrite lookup_insert_eq. cbn. rewrite Hcontent, Hflags.
        destruct (pending a (frame_key frame)) as [[]|]; cbn; by rewrite ?Z.lor_diag.
      * exists s'. split; [|done]. cbn. by rewrite lookup_insert_eq.
  - pose proof (chunk_nonneg _ _ _ Hok1). split; [|done| |].
    + apply (asm_inv_delete a1 (frame_key frame) s'); [exact H1|]. cbn. by rewrite lookup_insert_eq.
    + intros key Hne. cbn. by rewrite lookup_delete_ne, lookup_insert_ne, lookup_insert_ne by done.
    + assert (pending (set_chunks (delete (frame_key frame) (chunks a1)) (bufferedBytes a1 - cbytes s')
          (bufferedFrames a1 - cframes s') a1) (frame_key frame) = None) as Hdel.
      { unfold pending. cbn. by rewrite lookup_delete_eq. }
      rewrite (decode_frame_key _ _ _ _ _ Hkey), Hcontent, Hmode.
      unfold decodeMerged, finalFlags.
      destruct (pending a (frame_key frame)) as [[flags body]|] eqn:Hp.
      * cbn [merge fst snd]. rewrite Hflags, <- Z.lor_assoc, Z.lor_diag.
        destruct (decodeNativeResponseFrame _ _ _ _); done.
      * exfalso. unfold pending in Hp. destruct (chunks a !! frame_key frame); [done|].
        by rewrite bool_decide_true in Hsingle.
Qed.

(** Frames given to the assembler, errors ignored. *)
Definition addMany (a : nativeResponseAssembler) (frames : list (nativeFrame * nativeResponseDecodeMode))
  : nativeResponseAssembler :=
  foldl (fun a fm => (addWithDecodeMode a fm.1 fm.2).1) a frames.

Lemma addMany_inv frames : forall a, asm_inv a ->
  asm_inv (addMany a frames) /\ maxBytes (addMany a frames) = maxBytes a /\
  maxFrames (addMany a frames) = maxFrames a.
Proof.
  induction frames as [|[f m] frames IH]; intros a Ha; [by split|]. cbn.
  destruct (addWithDecodeMode a f m) as [a' r] eqn:Eadd. cbn.
  destruct (add_spec _ _ _ _ _ Ha Eadd) as [Ha' [Hb Hf] _ _].
  destruct (IH a' Ha') as (? & Hb' & Hf'). unfold addMany in *. split_and!; [done|congruence|congruence].
Qed.

(** C40: whatever frames the server sends, and whatever errors they cause, what the
    assembler keeps is accounted for exactly and within its limits: the bytes and
    frames buffered are those of the pending responses, each body stays within
    the response limit, and a compacted body never reserves more than the limit,
    nor more than twice what it holds. *)
Theorem assembler_bounded mb mf frames :
  let a := addMany (newNativeResponseAssembler mb mf) frames in
  bufferedBytes a = msum (fun _ s => blen (content s)) (chunks a) /\ bufferedBytes a <= Z.max 0 mb /\
  bufferedFrames a = msum (fun _ s => cframes s) (chunks a) /\ bufferedFrames a <= Z.max 0 mf /\
  forall key s, chunks a !! key = Some s ->
    frame_key (first s) = key /\ blen (content s) <= mb /\
    match cbody s with
    | Some (body, cap) => parts s = [] /\ cap <= mb /\ cap <= 2 * blen body + 1
    | None => blen (content s) < Z.max 1 (mb / 2)
    end.
Proof.
  intros a. destruct (addMany_inv frames _ (asm_inv_init mb mf)) as ([Hc [Hb Hbl] [Hf Hfl]] & Emb & Emf).
  fold a in Hc, Hb, Hbl, Hf, Hfl, Emb, Emf. cbn in Emb, Emf. rewrite Emb in Hbl. rewrite Emf in Hfl.
  split; [|split_and!; try done].
  - rewrite Hb. apply msum_ext. intros k s Hs. by destruct (Hc _ _ Hs) as [_ [? _] _ _].
  - intros key s Hs. destruct (Hc _ _ Hs) as [Hk [Hbytes Hle] _ Hbody]. rewrite Emb in Hle.
    split_and!; [done|lia|]. unfold content in Hbytes |- *.
    destruct (cbody s) as [[body cap]|]; unfold compactionThreshold in *; rewrite Emb in Hbody;
      [destruct Hbody as (? & ? & ?); split_and!; [done|lia|lia]|lia].
Qed.

(** The responses the frames of one key complete, by appending their bodies. *)
Fixpoint reassemble (old : option (Z * gstr)) (frames : list (nativeFrame * nativeResponseDecodeMode))
  : list (result (respError E) nativeResponse) :=
  match frames with
  | [] => []
  | (frame, mode) :: frames =>
      if has_flag nativeFlagMoreChunks (f_flags frame) then reassemble (Some (merge old frame)) frames
      else decodeMerged old frame mode :: reassemble None frames
  end.

Definition response_key (r : nativeResponse) : chunkKey := (r_request r, r_opcode r, r_lane r).

Definition of_key (key : chunkKey) (fm : nativeFrame * nativeResponseDecodeMode) : Prop := frame_key fm.1 = key.

#[local] Instance of_key_dec key fm : Decision (of_key key fm).
Proof. unfold of_key. apply _. Defined.

Lemma decode_key first body flags mode r :
  decodeNativeResponseFrame first body flags mode = Ok r -> response_key r = frame_key first.
Proof.
  unfold decodeNativeResponseFrame. intros H. apply rbind_ok in H as (? & _ & H).
  destruct (has_flag nativeFlagCompressed flags); [done|]. destruct (_ <? 2); [done|].
  destruct (has_flag nativeFlagCustomPayload flags).
  - destruct (_ =? 2); [done|]. destruct (decodeCompact _ _ _) as [[]|]; [|done|done]. by injection H as <-.
  - destruct (decodeNativeValue _) as [[v rest]|]; [|done]. destruct (bool_decide _); [|done]. by injection H as <-.
Qed.

Lemma addAll_reassembles frames key : forall a a' responses,
  asm_inv a -> addAll a frames = Ok (a', responses) ->
  reassemble (pending a key) (base.filter (of_key key) frames) =
  Ok <$> base.filter (fun r => response_key r = key) responses.
Proof.
  induction frames as [|[f m] frames IH]; intros a a' responses Ha; cbn [addAll].
  { by intros [= <- <-]. }
  destruct (addWithDecodeMode a f m) as [a1 [out|e]] eqn:E1; [|done].
  destruct (add_spec _ _ _ _ _ Ha E1) as [Ha1 _ Hother Hout]. intros H.
  apply rbind_ok in H as ([a2 rs] & H & [= <- <-]). specialize (IH _ _ _ Ha1 H).
  rewrite filter_cons. unfold of_key at 1. cbn [fst].
  destruct (decide (frame_key f = key)) as [Hk|Hne].
  - cbn [reassemble]. destruct out as [r|].
    + destruct Hout as (-> & Hnone & Hdec). change (option_list (Some r) ++ rs) with (r :: rs). rewrite filter_cons.
      rewrite decide_True by (rewrite <- Hk; unfold decodeMerged in Hdec; by apply decode_key in Hdec).
      rewrite Hk in Hdec, Hnone. rewrite Hdec. cbn. rewrite Hnone in IH. by rewrite IH.
    + destruct Hout as (-> & Hpend & _). change (option_list None ++ rs) with rs. rewrite Hk in Hpend. by rewrite Hpend in IH.
  - assert (pending a1 key = pending a key) as Hp by (unfold pending; by rewrite Hother).
    rewrite Hp in IH. destruct out as [r|]; [change (option_list (Some r) ++ rs) with (r :: rs)|exact IH].
    rewrite filter_cons, decide_False; [done|]. intros Hr. apply Hne. rewrite <- Hr.
    destruct Hout as (_ & _ & Hdec). symmetry. by apply decode_key in Hdec.
Qed.

(** Chunks of different responses may be interleaved in any way: what the
    assembler returns for a request is what the frames of that request alone give
    when their bodies are appended in order, and decoded. *)
Theorem interleaved_chunks mb mf frames a responses key :
  addAll (newNativeResponseAssembler mb mf) frames = Ok (a, responses) ->
  Ok <$> base.filter (fun r => response_key r = key) responses =
  reassemble None (base.filter (fun fm => frame_key fm.1 = key) frames).
Proof.
  intros H. pose proof (addAll_reassembles frames key _ _ _ (asm_inv_init mb mf) H) as Hr.
  unfold pending in Hr. cbn in Hr. rewrite lookup_empty in Hr. symmetry. exact Hr.
Qed.

(** ** Chunking is transparent *)

Lemma appendChunk_total a key s body :
  chunk_ok a key s -> blen body <= maxBytes a - cbytes s -> exists s', appendChunk a s body = Ok s'.
Proof.
  intros [_ [Hb _] _ _] Hsize. unfold appendChunk. unfold content in Hb.
  destruct (cbody s) as [[b cap]|]; [|by eexists]. unfold appendNativeResponseChunk.
  destruct (Z.ltb_spec (maxBytes a - blen b) (blen body)); [lia|by eexists].
Qed.

(** A frame within the limits, of a response whose other frames agree with it. *)
Record fits (a : nativeResponseAssembler) (frame : nativeFrame) (mode : nativeResponseDecodeMode) : Prop := Fits {
  fi_flags : validateNativeResponseFlags (f_flags frame) true = Ok tt;
  fi_limits : 0 < maxBytes a /\ 0 < maxFrames a;
  fi_state s : chunks a !! frame_key frame = Some s ->
    Z.land (f_flags (first s)) nativeStableChunkFlags = Z.land (f_flags frame) nativeStableChunkFlags /\
    cmode s = mode;
  fi_bytes : bufferedBytes a + blen (f_body frame) <= maxBytes a;
  fi_frames : bufferedFrames a < maxFrames a;
}.

(** The buffered totals dominate each response. *)
Lemma buffered_ge a key s : asm_inv a -> chunks a !! key = Some s ->
  cbytes s <= bufferedBytes a /\ cframes s <= bufferedFrames a.
Proof.
  intros [Hc [-> _] [-> _]] Hs.
  split; apply (msum_ge _ _ _ _ (fun k v Hk => proj1 (chunk_nonneg _ _ _ (Hc k v Hk))) Hs) ||
         apply (msum_ge _ _ _ _ (fun k v Hk => proj2 (chunk_nonneg _ _ _ (Hc k v Hk))) Hs).
Qed.

Lemma add_fits a frame mode :
  asm_inv a -> fits a frame mode ->
  (addWithDecodeMode a frame mode).2 =
    if has_flag nativeFlagMoreChunks (f_flags frame) then Ok None
    else rmap Some (decodeMerged (pending a (frame_key frame)) frame mode).
Proof.
  intros Hinv [Hflags [Hb Hf] Hstate Hbytes Hframes]. pose proof (blen_nonneg (f_body frame)) as Hn.
  assert (0 <= bufferedBytes a /\ 0 <= bufferedFrames a) as [Hb0 Hf0].
  { destruct Hinv as [Hc [-> _] [-> _]].
    split; apply msum_nonneg; intros k v Hk; by destruct (chunk_nonneg _ _ _ (Hc k v Hk)). }
  unfold addWithDecodeMode. rewrite Hflags.
  destruct (Z.leb_spec (maxBytes a) 0), (Z.ltb_spec (maxBytes a) (blen (f_body frame))),
    (Z.leb_spec (maxFrames a) 0); try lia. cbn [orb].
  destruct (bool_decide (chunks a !! frame_key frame = None) && _) eqn:Hsingle.
  { apply andb_prop in Hsingle as [Hnone%bool_decide_eq_true ->%negb_true_iff].
    destruct (Z.ltb_spec (maxBytes a - bufferedBytes a) (blen (f_body frame))); [lia|].
    destruct (Z.leb_spec (maxFrames a) (bufferedFrames a)); [lia|].
    unfold decodeMerged, pending. by rewrite Hnone. }
  destruct (startChunk (chunks a !! frame_key frame) frame mode) as [s|e] eqn:Hs.
  2: { exfalso. unfold startChunk in Hs. destruct (chunks a !! frame_key frame) as [s|] eqn:Hfound; [|done].
       destruct (Hstate s eq_refl) as [Hst Hm]. rewrite Hst, Z.eqb_refl, bool_decide_true in Hs by done. done. }
  destruct (startChunk_spec a _ frame mode s (fun s H => ai_chunks _ Hinv _ _ H) Hb Hf Hs)
    as (Hok & Hcb & Hcf & _).
  assert (cbytes s <= bufferedBytes a /\ cframes s <= bufferedFrames a) as [? ?].
  { rewrite Hcb, Hcf. destruct (chunks a !! frame_key frame) as [s0|] eqn:Hfound; cbn; [|done].
    by apply (buffered_ge a _ _ Hinv Hfound). }
  set (a0 := set_chunks (<[frame_key frame := s]> (chunks a)) _ _ a).
  assert (chunkLimits a0 s (blen (f_body frame)) = None) as Hl.
  { unfold chunkLimits. cbn [maxBytes maxFrames bufferedBytes bufferedFrames a0 set_chunks].
    destruct (Z.ltb_spec (maxBytes a - cbytes s) (blen (f_body frame))); [lia|].
    destruct (Z.leb_spec (maxFrames a) (cframes s)); [lia|].
    destruct (Z.ltb_spec (maxBytes a - bufferedBytes a) (blen (f_body frame))); [lia|].
    destruct (Z.leb_spec (maxFrames a) (bufferedFrames a)); [lia|done]. }
  rewrite Hl.
  destruct (appendChunk_total a0 (frame_key frame) s (f_body frame)) as [s' Ha].
  { by eapply chunk_ok_limits; [..|exact Hok]. }
  { cbn. lia. }
  rewrite Ha.
  destruct (add_append a frame mode s s' Hinv Hb Hf Hs Hl Ha) as (_ & _ & _ & [Hmode _] & Hcontent & Hfl & Hkey).
  destruct (has_flag nativeFlagMoreChunks (f_flags frame)) eqn:Hmore; [done|]. cbn [snd].
  rewrite (decode_frame_key _ _ _ _ _ Hkey), Hcontent, Hmode. unfold decodeMerged, finalFlags.
  destruct (pending a (frame_key frame)) as [[flags body]|] eqn:Hp.
  - cbn [merge fst snd]. by rewrite Hfl, <- Z.lor_assoc, Z.lor_diag.
  - exfalso. unfold pending in Hp. destruct (chunks a !! frame_key frame); [done|].
    by rewrite bool_decide_true in Hsingle.
Qed.

(** A response body cut into the frames of one request, all but the last marked. *)
Definition chunkFrames (flags lane opcode request : Z) (front : list gstr) (last : gstr) : list nativeFrame :=
  (Frame (Z.lor flags nativeFlagMoreChunks) lane opcode request <$> front) ++
  [Frame flags lane opcode request last].

(** The flags of the pieces of a response. *)
Lemma piece_flags flags :
  in_uint 8 flags -> validateNativeResponseFlags flags false = Ok tt ->
  let marked := Z.lor flags nativeFlagMoreChunks in
  in_uint 8 marked /\ validateNativeResponseFlags marked true = Ok tt /\
  validateNativeResponseFlags flags true = Ok tt /\
  has_flag nativeFlagMoreChunks marked = true /\ has_flag nativeFlagMoreChunks flags = false /\
  Z.lor marked marked = marked /\
  Z.land marked nativeStableChunkFlags = Z.land flags nativeStableChunkFlags /\
  Z.land (Z.lor marked flags) (Z.lxor 255 nativeFlagMoreChunks) = flags.
Proof.
  intros Hf Hv marked.
  pose proof (byte_flags (fun f =>
    let bad g := has_flag (Z.lxor 255 nativeResponseWireFlags) g || has_flag nativeFlagNoReply g in
    let m := Z.lor f nativeFlagMoreChunks in
    bad f || has_flag nativeFlagMoreChunks f ||
    ((m <? 256) && negb (bad m) && has_flag nativeFlagMoreChunks m && (0 <=? m) &&
     (Z.land m nativeStableChunkFlags =? Z.land f nativeStableChunkFlags) &&
     (Z.land (Z.lor m f) (Z.lxor 255 nativeFlagMoreChunks) =? f)))
    ltac:(vm_compute; reflexivity) flags Hf) as H.
  unfold validateNativeResponseFlags in *. cbv beta zeta in H. fold marked in H.
  destruct (has_flag (Z.lxor 255 nativeResponseWireFlags) flags || has_flag nativeFlagNoReply flags); [done|].
  cbn [negb andb] in Hv. destruct (has_flag nativeFlagMoreChunks flags) eqn:Em; [done|]. cbn [orb] in H.
  repeat (apply andb_prop in H as [H ?]). z_tests.
  split; [split; [lia|change (2 ^ 8) with 256; lia]|]. 
  repeat match goal with Hm : has_flag _ marked = _ |- _ => rewrite Hm; clear Hm end.
  split_and!; try done. apply Z.lor_diag.
Qed.

(** The assembler after the first pieces of a response. *)
Record partly (a : nativeResponseAssembler) (mb mf : Z) (key : chunkKey) (mode : nativeResponseDecodeMode)
  (flags : Z) (pieces : list gstr) : Prop := Partly {
  pa_inv : asm_inv a;
  pa_limits : maxBytes a = mb /\ maxFrames a = mf;
  pa_other k : k <> key -> chunks a !! k = None;
  pa_state : match chunks a !! key with
    | None => pieces = []
    | Some s => pieces <> [] /\ f_flags (first s) = flags /\ content s = concat pieces /\
                cmode s = mode /\ cframes s = Z.of_nat (length pieces)
    end;
}.

Lemma partly_buffered a mb mf key mode flags pieces :
  partly a mb mf key mode flags pieces ->
  bufferedBytes a = blen (concat pieces) /\ bufferedFrames a = Z.of_nat (length pieces).
Proof.
  intros [[Hc [-> _] [-> _]] _ Hother Hstate]. destruct (chunks a !! key) as [s|] eqn:Hk.
  - assert (chunks a = <[key := s]> ∅) as ->.
    { apply map_eq. intros k. destruct (decide (k = key)) as [->|Hne].
      - by rewrite lookup_insert_eq.
      - by rewrite lookup_insert_ne, lookup_empty, Hother. }
    destruct Hstate as (_ & _ & Hcont & _ & Hnum). destruct (Hc _ _ Hk) as [_ [Hb _] _ _].
    rewrite !msum_insert_new, !msum_empty by apply lookup_empty. rewrite Hb, Hcont, Hnum. lia.
  - assert (chunks a = ∅) as ->.
    { apply map_eq. intros k. rewrite lookup_empty.
      destruct (decide (k = key)) as [->|Hne]; [done|by apply Hother]. }
    subst pieces. by rewrite !msum_empty.
Qed.

Section Chunked.
Context (mb mf flags lane opcode request : Z) (mode : nativeResponseDecodeMode).
Context (Hmb : 0 < mb) (Hmf : 0 < mf).
Context (Hflags : in_uint 8 flags) (Hvalid : validateNativeResponseFlags flags false = Ok tt).

#[local] Abbreviation key := (request, opcode, lane).
#[local] Abbreviation marked := (Z.lor flags nativeFlagMoreChunks).
#[local] Abbreviation piece flags body := (Frame flags lane opcode request body).

Lemma partly_fits a pieces f body :
  partly a mb mf key mode marked pieces ->
  f = marked \/ f = flags ->
  blen (concat pieces) + blen body <= mb -> Z.of_nat (length pieces) < mf ->
  fits a (piece f body) mode.
Proof.
  intros Hp Hf Hsize Hnum. destruct (partly_buffered _ _ _ _ _ _ _ Hp) as [Hb Hn].
  destruct Hp as [Hinv [<- <-] _ Hstate].
  destruct (piece_flags flags Hflags Hvalid) as (_ & Hvm & Hvf & _ & _ & _ & Hst & _).
  split; cbn [f_flags f_body frame_key f_request f_opcode f_lane]; [by destruct Hf as [->| ->]|done| |lia|lia].
  intros s Hs. change (chunks a !! key = Some s) in Hs. rewrite Hs in Hstate.
  destruct Hstate as (_ & -> & _ & -> & _).
  split; [|done]. destruct Hf as [->| ->]; [done|exact Hst].
Qed.

Lemma partly_merge a pieces f body :
  partly a mb mf key mode marked pieces ->
  merge (pending a key) (piece f body) =
    (if bool_decide (pieces = []) then f else Z.lor marked f, concat (pieces ++ [body])).
Proof.
  intros [_ _ _ Hstate]. unfold pending. rewrite concat_app. cbn [concat]. rewrite app_nil_r.
  destruct (chunks a !! key) as [s|]; cbn [fmap option_fmap option_map merge f_flags f_body].
  - destruct Hstate as (Hne & -> & -> & _). by rewrite bool_decide_false.
  - by subst pieces.
Qed.

Lemma partly_step a pieces body :
  partly a mb mf key mode marked pieces ->
  blen (concat pieces) + blen body <= mb -> Z.of_nat (length pieces) < mf ->
  exists a', addWithDecodeMode a (piece marked body) mode = (a', Ok None) /\
    partly a' mb mf key mode marked (pieces ++ [body]).
Proof.
  intros Hp Hsize Hnum. pose proof (partly_fits a pieces marked body Hp (or_introl eq_refl) Hsize Hnum) as Hfit.
  destruct (piece_flags flags Hflags Hvalid) as (_ & _ & _ & Hmore & _ & Hdiag & _).
  pose proof (add_fits a (piece marked body) mode (pa_inv _ _ _ _ _ _ _ Hp) Hfit) as Hadd.
  cbn [f_flags] in Hadd. rewrite Hmore in Hadd.
  destruct (addWithDecodeMode a (piece marked body) mode) as [a' r] eqn:Hr. cbn in Hadd. subst r.
  exists a'. split; [done|].
  destruct (add_spec _ _ _ _ _ (pa_inv _ _ _ _ _ _ _ Hp) Hr) as [Hinv' [Hb' Hf'] Hother (_ & Hpend & s & Hs & Hmode & Hcount)].
  change (frame_key (piece marked body)) with key in *.
  rewrite (partly_merge a pieces marked body Hp) in Hpend.
  pose proof (pa_limits _ _ _ _ _ _ _ Hp) as [<- <-]. split; [done|done| |].
  - intros k Hne. rewrite Hother by done. by apply (pa_other _ _ _ _ _ _ _ Hp).
  - unfold pending in Hpend. rewrite Hs in Hpend |- *. cbn in Hpend. injection Hpend as Hfl Hct.
    split_and!; [by destruct pieces|by rewrite Hfl; case_bool_decide|done|done|].
    rewrite Hcount, length_app. cbn [length]. pose proof (pa_state _ _ _ _ _ _ _ Hp) as Hstate.
    destruct (chunks a !! key); cbn; [destruct Hstate as (_ & _ & _ & _ & ->); lia|subst pieces; done].
Qed.

Lemma partly_last a pieces body :
  partly a mb mf key mode marked pieces ->
  blen (concat pieces) + blen body <= mb -> Z.of_nat (length pieces) < mf ->
  (addWithDecodeMode a (piece flags body) mode).2 =
    rmap Some (decodeNativeResponseFrame (piece flags []) (concat (pieces ++ [body])) flags mode).
Proof.
  intros Hp Hsize Hnum. pose proof (partly_fits a pieces flags body Hp (or_intror eq_refl) Hsize Hnum) as Hfit.
  destruct (piece_flags flags Hflags Hvalid) as (_ & _ & _ & _ & Hmore & _ & _ & Hfinal).
  rewrite (add_fits a (piece flags body) mode (pa_inv _ _ _ _ _ _ _ Hp) Hfit).
  change (f_flags (piece flags body)) with flags. change (frame_key (piece flags body)) with key.
  rewrite Hmore. f_equal.
  unfold decodeMerged. rewrite (partly_merge a pieces flags body Hp). cbn [snd].
  rewrite (decode_frame_key _ (piece flags [])) by done. f_equal. unfold finalFlags.
  destruct (pending a key) as [[fl b]|] eqn:Hpe; [|done].
  rewrite <- Hpe, (partly_merge a pieces flags body Hp). cbn [fst].
  rewrite bool_decide_false; [exact Hfinal|]. intros ->.
  pose proof (pa_state _ _ _ _ _ _ _ Hp) as Hstate. unfold pending in Hpe.
  destruct (chunks a !! key); [by destruct Hstate|done].
Qed.

Context (Hmax : mb <= nativeMaxFrameBytes).
Context (Hfields : in_uint 32 lane /\ in_uint 16 opcode /\ in_uint 64 request).

(** The bytes of one piece are read back as the piece. *)
Lemma read_piece a f body rest :
  in_uint 8 f -> maxBytes a = mb -> blen body <= mb ->
  readNativeFrameWithLimit (frameBytes nativeResponseVersion (piece f body) ++ rest) (maxBytes a) =
    Ok (piece f body, rest).
Proof.
  intros Hf -> Hsize. apply read_frame_spec. split; [done|]. destruct Hfields as (? & ? & ?).
  split; [split_and!; cbn; done || lia|]. cbn. unfold frameLimit.
  destruct (Z.leb_spec mb 0), (Z.ltb_spec nativeMaxFrameBytes mb); cbn; lia.
Qed.

End Chunked.

(** The frames of a response, read to the end from the state reached so far. *)
Lemma readFrames_chunks mb mf flags lane opcode request last :
  0 < mb <= nativeMaxFrameBytes -> 0 < mf -> in_uint 8 flags ->
  validateNativeResponseFlags flags false = Ok tt ->
  in_uint 32 lane /\ in_uint 16 opcode /\ in_uint 64 request ->
  forall front a pieces fuel rest,
  partly a mb mf (request, opcode, lane) DecodeGeneric (Z.lor flags nativeFlagMoreChunks) pieces ->
  blen (concat pieces) + blen (concat (front ++ [last])) <= mb ->
  Z.of_nat (length pieces + length front) < mf -> (length front < fuel)%nat ->
  readFrames fuel a
    (concat (frameBytes nativeResponseVersion <$> chunkFrames flags lane opcode request front last) ++ rest) =
  match decodeNativeResponseFrame (Frame flags lane opcode request []) (concat (pieces ++ front ++ [last]))
          flags DecodeGeneric with
  | Ok r => Ok (r, rest)
  | Err e => Err (inr e)
  end.
Proof.
  intros [Hmb Hmax] Hmf Hflags Hvalid Hfields front.
  destruct (piece_flags flags Hflags Hvalid) as (Hmarked & _).
  induction front as [|body front IH]; intros a pieces fuel rest Hp Hsize Hnum Hfuel;
    (destruct fuel as [|fuel]; [cbn in Hfuel; lia|]); cbn [readFrames chunkFrames fmap list_fmap app concat].
  - cbn [app concat] in Hsize. rewrite app_nil_r in Hsize |- *. cbn [length] in Hnum.
    pose proof (blen_nonneg (concat pieces)).
    rewrite (read_piece mb lane opcode request Hmb Hmax Hfields a) by
      (done || apply (pa_limits _ _ _ _ _ _ _ Hp) || lia).
    pose proof (partly_last mb mf flags lane opcode request DecodeGeneric Hmb Hmf Hflags Hvalid
      a pieces last Hp ltac:(lia) ltac:(lia)) as Hlast.
    destruct (addWithDecodeMode a _ _) as [a' r]. cbn [snd] in Hlast. subst r.
    by destruct (decodeNativeResponseFrame _ _ _ _).
  - cbn [app concat] in Hsize. rewrite blen_app in Hsize. cbn [length] in Hnum, Hfuel.
    pose proof (blen_nonneg (concat pieces)). pose proof (blen_nonneg (concat (front ++ [last]))).
    rewrite <- app_assoc.
    rewrite (read_piece mb lane opcode request Hmb Hmax Hfields a) by
      (done || apply (pa_limits _ _ _ _ _ _ _ Hp) || lia).
    destruct (partly_step mb mf flags lane opcode request DecodeGeneric Hmb Hmf Hflags Hvalid
      a pieces body Hp ltac:(lia) ltac:(lia)) as (a' & -> & Hp').
    unfold chunkFrames in IH. rewrite (IH a' (pieces ++ [body]) fuel rest Hp').
    + by rewrite <- app_assoc.
    + rewrite concat_app, blen_app. cbn. rewrite app_nil_r. lia.
    + rewrite length_app. cbn. lia.
    + lia.
Qed.

(** C7: cutting a response into chunks is transparent: reading the frames of a
    body cut in any way, within the limits, returns what decoding the whole body
    returns, and leaves the bytes that follow. *)
Theorem chunked_response_read mb flags lane opcode request front last rest :
  0 < mb <= nativeMaxFrameBytes -> in_uint 8 flags -> validateNativeResponseFlags flags false = Ok tt ->
  in_uint 32 lane /\ in_uint 16 opcode /\ in_uint 64 request ->
  blen (concat (front ++ [last])) <= mb -> Z.of_nat (length front) < nativeMaxResponseChunkFrames ->
  readNativeResponseWithPolicy mb
    (concat (frameBytes nativeResponseVersion <$> chunkFrames flags lane opcode request front last) ++ rest) =
  match decodeNativeResponseFrame (Frame flags lane opcode request []) (concat (front ++ [last]))
          flags DecodeGeneric with
  | Ok r => Ok (r, rest)
  | Err e => Err (inr e)
  end.
Proof.
  intros Hmb Hflags Hvalid Hfields Hsize Hnum. unfold readNativeResponseWithPolicy.
  apply (readFrames_chunks mb nativeMaxResponseChunkFrames flags lane opcode request last Hmb ltac:(done)
    Hflags Hvalid Hfields front _ [] _ rest).
  - split; [apply asm_inv_init|done| |].
    + intros k _. cbn. apply lookup_empty.
    + cbn. by rewrite lookup_empty.
  - change (blen (concat [])) with 0. lia.
  - exact Hnum.
  - rewrite length_app. assert (length front <= length (concat (frameBytes nativeResponseVersion <$>
      chunkFrames flags lane opcode request front last)))%nat; [|lia].
    unfold chunkFrames. rewrite fmap_app, concat_app, length_app.
    enough (length front <= length (concat (frameBytes nativeResponseVersion <$>
      (Frame (Z.lor flags nativeFlagMoreChunks) lane opcode request <$> front))))%nat by lia.
    clear. induction front as [|b front IH]; [done|]. rewrite !fmap_cons. cbn [concat]. rewrite length_app.
    pose proof (length_frameBytes nativeResponseVersion
      (Frame (Z.lor flags nativeFlagMoreChunks) lane opcode request b)). cbn [length]. lia.
Qed.

End Assembler.

(** ** Witnesses: two interleaved responses *)

Definition no_compact (opcode : Z) (data : gstr) (mode : nativeResponseDecodeMode)
  : option (result unit unit) := None.

Definition example_body (text : gstr) : gstr := be_encode 2 0 ++ wire (VString text).

Lemma chunked_response_read_witness :
  readNativeResponseWithPolicy no_compact 4096
    (concat (frameBytes nativeResponseVersion <$>
       chunkFrames 0 1 257 7 [btake 3 (example_body (go "ok"))] (bdrop 3 (example_body (go "ok")))) ++ [x00]) =
  Ok (Response 0 1 257 7 0 (Plain (VBytes (go "ok"))) 9, [x00]).
Proof.
  rewrite (chunked_response_read no_compact 4096 0 1 257 7 [btake 3 (example_body (go "ok"))]
    (bdrop 3 (example_body (go "ok"))) [x00]); [vm_compute; reflexivity|done|done|done|done| |done].
  vm_compute. congruence.
Defined.

Definition example_frames : list (nativeFrame * nativeResponseDecodeMode) :=
  [(Frame nativeFlagMoreChunks 1 257 7 (btake 4 (example_body (go "seven"))), DecodeGeneric);
   (Frame nativeFlagMoreChunks 2 257 8 (btake 3 (example_body (go "eight"))), DecodeGeneric);
   (Frame 0 1 257 7 (bdrop 4 (example_body (go "seven"))), DecodeGeneric);
   (Frame 0 2 257 8 (bdrop 3 (example_body (go "eight"))), DecodeGeneric)].

Lemma interleaved_chunks_witness :
  exists a responses,
    addAll no_compact (newNativeResponseAssembler 4096 16) example_frames = Ok (a, responses) /\
    Ok <$> base.filter (fun r => response_key r = (7, 257, 1)) responses =
      reassemble no_compact None (base.filter (fun fm => frame_key fm.1 = (7, 257, 1)) example_frames).
Proof.
  destruct (addAll no_compact (newNativeResponseAssembler 4096 16) example_frames) as [[a responses]|e] eqn:H.
  - exists a, responses. split; [reflexivity|]. exact (interleaved_chunks no_compact 4096 16 _ a responses _ H).
  - exfalso. assert (is_ok (addAll no_compact (newNativeResponseAssembler 4096 16) example_frames) = true) as Hok
      by (vm_compute; reflexivity). rewrite H in Hok. discriminate Hok.
Defined.
