(* ===== verification/Errors.v ===== *)
(** Errors and what they tell about a request: the error values of the native
    client, whether the server allows a retry (src/native_retry.go), whether the
    request reached it (src/request_delivery.go, src/durable_mutation_delivery.go)
    and which transport failures a reconnection can mend (src/native_request.go).

    An error is its chain: [errors.Is] and [errors.As] walk it, outermost first. *)

From S2P Require Export Response.

Definition nativeStatusError : Z := 1.
Definition nativeStatusAuth : Z := 2.
Definition nativeStatusNoPerm : Z := 3.
Definition nativeStatusBusy : Z := 4.
Definition nativeStatusReroute : Z := 5.
Definition nativeStatusBadRequest : Z := 6.

Record NativeError := Native {
  Status : Z;
  Kind : gstr;
  Value : val;
}.

(** The error values compared with [errors.Is]. *)
Inductive sentinel :=
| errNativeConnectionUnavailable
| errNativeGoAway
| errNetClosed
| errEOF | errUnexpectedEOF | errConnAborted | errConnReset | errPipe
| errCanceled | errDeadlineExceeded
| errPipelineNotExecuted.

#[global] Instance sentinel_eq_dec : EqDecision sentinel.
Proof. solve_decision. Defined.

Inductive goError :=
| ErrSentinel (s : sentinel)
| ErrText (text : gstr)                        (* errors.New, fmt.Errorf without %w *)
| ErrNative (e : NativeError)
| ErrLimit (limit : Z)                         (* nativeEncodeLimitError *)
| ErrNotSent (cause : goError)                 (* commandNotSentError *)
| ErrWrap (text : gstr) (cause : goError)      (* fmt.Errorf("...%w", ...) *)
| ErrWrap2 (first second : goError).           (* fmt.Errorf("%w: %w", ...) *)

(** [errors.Is(err, s)]. *)
Fixpoint errors_is (s : sentinel) (err : goError) : bool :=
  match err with
  | ErrSentinel t => bool_decide (s = t)
  | ErrText _ | ErrNative _ | ErrLimit _ => false
  | ErrNotSent cause | ErrWrap _ cause => errors_is s cause
  | ErrWrap2 first second => errors_is s first || errors_is s second
  end.

(** [errors.As(err, &marked)] for a [*commandNotSentError]. *)
Fixpoint not_sent (err : goError) : bool :=
  match err with
  | ErrNotSent _ => true
  | ErrSentinel _ | ErrText _ | ErrNative _ | ErrLimit _ => false
  | ErrWrap _ cause => not_sent cause
  | ErrWrap2 first second => not_sent first || not_sent second
  end.

(** [errors.As(err, &limitErr)] for a [nativeEncodeLimitError]. *)
Fixpoint over_limit (err : goError) : bool :=
  match err with
  | ErrLimit _ => true
  | ErrSentinel _ | ErrText _ | ErrNative _ => false
  | ErrNotSent cause | ErrWrap _ cause => over_limit cause
  | ErrWrap2 first second => over_limit first || over_limit second
  end.

(** [nativeErrorValue]. *)
Fixpoint nativeErrorValue (err : goError) : option NativeError :=
  match err with
  | ErrNative e => Some e
  | ErrSentinel _ | ErrText _ | ErrLimit _ => None
  | ErrNotSent cause | ErrWrap _ cause => nativeErrorValue cause
  | ErrWrap2 first second =>
      match nativeErrorValue first with Some e => Some e | None => nativeErrorValue second end
  end.

(** [markCommandNotSent], for an error. *)
Definition markCommandNotSent (err : goError) : goError :=
  if not_sent err then err else ErrNotSent err.

(** [isNativeReconnectableTransportError]. *)
Definition isNativeReconnectableTransportError (err : goError) : bool :=
  errors_is errNativeConnectionUnavailable err || errors_is errNativeGoAway err ||
  errors_is errNetClosed err || errors_is errEOF err || errors_is errUnexpectedEOF err ||
  errors_is errConnAborted err || errors_is errConnReset err || errors_is errPipe err.

(** ** What the server says about a retry *)

(** [nativeErrorField]. *)
Definition nativeErrorField (value : val) (name : gstr) : val :=
  match value with
  | VMap _ m => default VNil (assoc_get name m)
  | _ => VNil
  end.

(** [nativeErrorHasKind]. *)
Definition nativeErrorHasKind (e : NativeError) (status : Z) (kind : gstr) : bool :=
  if (Status e =? status) || equal_fold (Kind e) kind then true
  else match nativeErrorField (Value e) (go "code") with
  | VString s | VBytes s => equal_fold s kind
  | _ => false
  end.

Definition nativeRetryAfterMilliseconds (value : val) : option Z :=
  match value with
  | VInt _ number => Some number
  | VUint _ number => if number <=? max_int64 then Some number else None
  | _ => None
  end.

(** [nativeRetryAfter], in nanoseconds. *)
Definition nativeRetryAfter (value : val) : Z :=
  match nativeRetryAfterMilliseconds value with
  | None => 0
  | Some milliseconds =>
      if milliseconds <=? 0 then 0
      else if max_int64 / 1000000 <? milliseconds then max_int64
      else swrap 64 (milliseconds * 1000000)
  end.

Record nativeRetryDisposition := Disposition {
  busy : bool;
  reroute : bool;
  retryable : bool;
  retryAfter : Z;
}.

Definition noDisposition : nativeRetryDisposition := Disposition false false false 0.

Definition isTrue (v : val) : bool := match v with VBool b => b | _ => false end.

Definition nativeServerRetryDisposition (err : goError) : nativeRetryDisposition :=
  match nativeErrorValue err with
  | None => noDisposition
  | Some e =>
      let busy := nativeErrorHasKind e nativeStatusBusy (go "busy") in
      let reroute := nativeErrorHasKind e nativeStatusReroute (go "reroute") in
      if negb busy && negb reroute then noDisposition
      else Disposition busy reroute
             (isTrue (nativeErrorField (Value e) (go "retryable")) &&
              isTrue (nativeErrorField (Value e) (go "safe_to_retry")))
             (nativeRetryAfter (nativeErrorField (Value e) (go "retry_after_ms")))
  end.

(** The server refused the request and says it may be repeated. *)
Definition busy_safe (err : goError) : bool :=
  busy (nativeServerRetryDisposition err) && retryable (nativeServerRetryDisposition err).

(** ** Whether the request reached the server *)

Inductive RequestDelivery := DeliveryUnknown | DeliveryNotSent | DeliveryRejected.

(** [strings.Contains]. *)
Fixpoint contains (fragment s : gstr) : bool :=
  bool_decide (take (length fragment) s = fragment) ||
  match s with [] => false | _ :: s => contains fragment s end.

Section Delivery.
(** [fmt.Sprint] on values other than text, integers and nil. *)
Context (sprint : val -> gstr).

Definition asString (v : val) : gstr :=
  match v with
  | VNil => []
  | VString s | VBytes s => s
  | VInt IInt64 z | VInt IInt z => format_int z
  | _ => sprint v
  end.

Definition durableRejectionPrefixes : list gstr := [go "noauth "; go "noperm "].

Definition durableRejectionFragments : list gstr := [
  go "err stale flow lease"; go "err stale lease"; go "err stale token"; go "err wrong state";
  go "err flow not found"; go "err flow does not exist"; go "err wrong number of arguments";
  go "err syntax error"; go "err request too large"].

Definition durableRejectionCodes : list gstr := [
  go "auth"; go "unauthenticated"; go "unauthorized"; go "noperm"; go "forbidden";
  go "bad_request"; go "invalid_command"; go "invalid_request"; go "not_found";
  go "flow_not_found"; go "stale_lease"; go "wrong_state"; go "conflict"; go "request_too_large"].

Definition knownDurableRejectionMessage (value : val) : bool :=
  let message := to_lower (trim_space (asString value)) in
  existsb (fun prefix => bool_decide (take (length prefix) message = prefix)) durableRejectionPrefixes ||
  existsb (fun fragment => contains fragment message) durableRejectionFragments.

Definition knownDurableRejectionCode (value : val) : bool :=
  bool_decide (to_lower (asString value) ∈ durableRejectionCodes).

(** [NativeError.RequestDelivery]. *)
Definition nativeDelivery (e : NativeError) : RequestDelivery :=
  if bool_decide (Status e ∈ [nativeStatusAuth; nativeStatusNoPerm; nativeStatusBusy; nativeStatusReroute;
                              nativeStatusBadRequest])
  then DeliveryRejected
  else if Status e =? nativeStatusError then
    if isTrue (nativeErrorField (Value e) (go "safe_to_retry")) ||
       knownDurableRejectionCode (VString (Kind e)) ||
       knownDurableRejectionCode (nativeErrorField (Value e) (go "code")) ||
       knownDurableRejectionCode (nativeErrorField (Value e) (go "error_code")) ||
       knownDurableRejectionMessage (Value e) ||
       knownDurableRejectionMessage (nativeErrorField (Value e) (go "message"))
    then DeliveryRejected else DeliveryUnknown
  else DeliveryUnknown.

(** [errors.As(err, &delivery)] for a [RequestDeliveryFailure]. *)
Fixpoint requestDelivery (err : goError) : option RequestDelivery :=
  match err with
  | ErrNative e => Some (nativeDelivery e)
  | ErrNotSent _ => Some DeliveryNotSent
  | ErrSentinel _ | ErrText _ | ErrLimit _ => None
  | ErrWrap _ cause => requestDelivery cause
  | ErrWrap2 first second =>
      match requestDelivery first with Some d => Some d | None => requestDelivery second end
  end.

(** [durableMutationDefinitelyRejected]. *)
Definition durableMutationDefinitelyRejected (err : goError) : bool :=
  match requestDelivery err with
  | Some DeliveryNotSent | Some DeliveryRejected => true
  | _ => false
  end.

Lemma delivery_not_sent err : requestDelivery err = Some DeliveryNotSent -> not_sent err = true.
Proof.
  induction err as [s|t|e|l|c IH|t c IH|a IHa b IHb]; cbn; try done; try (by intros).
  - unfold nativeDelivery. repeat case_match; done.
  - destruct (requestDelivery a) as [d|]; [intros [= ->]; by rewrite IHa|].
    intros H. rewrite (IHb H). by destruct (not_sent a).
Qed.
End Delivery.

Lemma mark_not_sent err : not_sent (markCommandNotSent err) = true.
Proof. unfold markCommandNotSent. by destruct (not_sent err) eqn:E. Qed.

Lemma mark_is s err : errors_is s (markCommandNotSent err) = errors_is s err.
Proof. unfold markCommandNotSent. by destruct (not_sent err). Qed.

(** A marked error other than a server's answer is no server's answer. *)
Lemma mark_native err : nativeErrorValue (markCommandNotSent err) = nativeErrorValue err.
Proof. unfold markCommandNotSent. by destruct (not_sent err). Qed.

(** The delay is a non-negative 64-bit duration, saturated and not wrapped. *)
Lemma retry_after_exact value :
  nativeRetryAfter value =
    match nativeRetryAfterMilliseconds value with
    | Some ms => Z.max 0 (if max_int64 / 1000000 <? ms then max_int64 else ms * 1000000)
    | None => 0
    end.
Proof.
  unfold nativeRetryAfter. destruct (nativeRetryAfterMilliseconds value) as [ms|]; [|done].
  destruct (Z.leb_spec ms 0).
  - destruct (Z.ltb_spec (max_int64 / 1000000) ms); [|lia].
    assert (0 <= max_int64 / 1000000) by (vm_compute; discriminate). lia.
  - destruct (Z.ltb_spec (max_int64 / 1000000) ms) as [_|Hle]; [done|].
    rewrite Z.max_r by lia.
    assert (ms * 1000000 <= max_int64).
    { etransitivity; [apply Z.mul_le_mono_nonneg_r; [lia|exact Hle]|]. vm_compute. discriminate. }
    unfold swrap. rewrite Z.mod_small; [lia|]. unfold max_int64 in *. lia.
Qed.
