(* ===== verification/Retry.v ===== *)
(** One request of a caller, with its retries (src/native_request.go): what a
    single attempt on a connection returns and whether it wrote anything, and the
    loop around it, which waits for a draining connection, obeys the server's busy
    answers and reconnects.

    The outcomes of the calls below (connecting, credits, writing, the response)
    are a world the loop runs in, one [round] per turn. *)

From S2P Require Export Errors Frame.

Definition nativeOpPing : Z := 3.
Definition nativeOpPipeline : Z := 14.
Definition nativeOpCommandExec : Z := 256.
Definition nativeOpShards : Z := 7.
Definition nativeMaxServerRetries : Z := 1.

Definition nativeOpcodeUsesFlowCredit (opcode : Z) : bool :=
  (nativeOpCommandExec <=? opcode) || (opcode =? nativeOpPipeline).

Definition nativeOpcodeDrainsOnCancellation (opcode : Z) : bool :=
  nativeOpcodeUsesFlowCredit opcode || (opcode =? nativeOpShards).

(** [requestContextError(ctx)], when it is not nil. *)
Inductive ctxError := CtxCanceled | CtxDeadline.

Definition ctx_error (c : ctxError) : goError :=
  ErrSentinel match c with CtxCanceled => errCanceled | CtxDeadline => errDeadlineExceeded end.

(** ** One attempt *)

(** The errors of reading and writing a [net.Conn]: the library's own values, never
    those of the client. *)
Inductive ioCause := IoClosed | IoEOF | IoUnexpectedEOF | IoAborted | IoReset | IoPipe.

Inductive ioError :=
| IoErr (cause : ioCause)
| IoText (text : gstr)                         (* a deadline, TLS, any other *)
| IoWrap (text : gstr) (cause : ioError).      (* *net.OpError *)

Definition io_sentinel (cause : ioCause) : sentinel :=
  match cause with
  | IoClosed => errNetClosed | IoEOF => errEOF | IoUnexpectedEOF => errUnexpectedEOF
  | IoAborted => errConnAborted | IoReset => errConnReset | IoPipe => errPipe
  end.

Fixpoint io_error (err : ioError) : goError :=
  match err with
  | IoErr cause => ErrSentinel (io_sentinel cause)
  | IoText text => ErrText text
  | IoWrap text cause => ErrWrap text (io_error cause)
  end.

(** [nativeWriteContextError]: the context's error, or the writer's. *)
Definition write_error (err : ctxError + ioError) : goError :=
  match err with inl c => ctx_error c | inr err => io_error err end.

(** [writeRequest]: it gives up before a byte is written, it fails later, or the
    request is on the wire. *)
Inductive writeOutcome := WriteRefused (err : goError) | WriteFailed (err : ctxError + ioError) | Written.

(** Why the connection of a waiting request was closed ([failNativePending]). *)
Inductive closeCause :=
| CloseIO (err : ctxError + ioError)           (* the reader's error, or another writer's *)
| CloseProtocol (text : gstr)                  (* a frame that cannot be, the drain's timeout *)
| CloseUnavailable                             (* the end of a drain *)
| CloseServer (e : NativeError)                (* the server's error for the connection *)
| CloseOther (err : goError).                  (* the error of another request: its retry, the
                                                  heartbeat, an aborted session *)

Definition close_error (cause : closeCause) : goError :=
  match cause with
  | CloseIO err => write_error err
  | CloseProtocol text => ErrText text
  | CloseUnavailable => ErrSentinel errNativeConnectionUnavailable
  | CloseServer e => ErrNative e
  | CloseOther err => err
  end.

(** What the [select] sees: a frame, the close of the connection, the context. *)
Inductive replyOutcome :=
| Replied (opcode lane status : Z) (value : val)
| RepliedError (cause : closeCause)
| Cancelled (c : ctxError).

Record attempt := Attempt {
  a_started : option ctxError;      (* the context at the start of [requestOnce] *)
  a_connect : option goError;       (* [ensureConnectedLocked] *)
  a_connected : bool;               (* the connection read afterwards is not nil *)
  a_ready : option ctxError;        (* the context before the credit *)
  a_credit : option goError;        (* [acquireFlowCredit] *)
  a_write : writeOutcome;
  a_reply : replyOutcome;
  a_finished : option ctxError;     (* the context after an answer *)
}.

Definition errTransactionConnectionLost : goError := ErrText (go "ferricstore transaction connection was lost").

(** After the write: the branch of the [select]. *)
Definition receive (opcode lane : Z) (a : attempt) : result goError val :=
  match a_reply a with
  | RepliedError cause => Err (close_error cause)
  | Cancelled c => Err (ctx_error c)
  | Replied opcode' lane' status value =>
      if negb ((opcode' =? opcode) && (lane' =? lane))
      then Err (ErrText (go "ferricstore native response mismatch"))
      else if negb (status =? nativeStatusOK) then Err (ErrNative (Native status [] value))
      else match a_finished a with Some c => Err (ctx_error c) | None => Ok value end
  end.

(** [requestOnceOnConnection]: the outcome and whether it may be tried again. *)
Definition requestOnceOnConnection (opcode lane : Z) (a : attempt) : result goError val * bool :=
  if negb (a_connected a) then (Err (markCommandNotSent errTransactionConnectionLost), false)
  else match a_ready a with
  | Some c => (Err (markCommandNotSent (ctx_error c)), false)
  | None =>
      match (if nativeOpcodeUsesFlowCredit opcode then a_credit a else None) with
      | Some err => (Err (markCommandNotSent err), errors_is errNativeConnectionUnavailable err)
      | None =>
          match a_write a with
          | WriteRefused err =>
              let err := markCommandNotSent err in
              if errors_is errNativeGoAway err then (Err err, true)
              else (Err err, errors_is errNativeConnectionUnavailable err)
          | WriteFailed failure =>
              let err := write_error failure in
              if errors_is errNativeGoAway err then (Err err, true)
              else (Err err, errors_is errNativeConnectionUnavailable err)
          | Written => (receive opcode lane a, false)
          end
      end
  end.

(** [requestOnce]. *)
Definition requestOnce (opcode lane : Z) (a : attempt) : result goError val * bool :=
  match a_started a with
  | Some c => (Err (markCommandNotSent (ctx_error c)), false)
  | None =>
      match a_connect a with
      | Some err => (Err (markCommandNotSent err), isNativeReconnectableTransportError err)
      | None => requestOnceOnConnection opcode lane a
      end
  end.

(** Bytes of the request may have reached the server. *)
Definition written (opcode : Z) (a : attempt) : bool :=
  match a_started a, a_connect a, a_connected a, a_ready a with
  | None, None, true, None =>
      match (if nativeOpcodeUsesFlowCredit opcode then a_credit a else None), a_write a with
      | None, WriteFailed _ | None, Written => true
      | _, _ => false
      end
  | _, _, _, _ => false
  end.

(** ** The loop *)

Inductive nativeReplayPolicy := nativeReplayDefault | nativeReplayNever.

Definition may_replay (p : nativeReplayPolicy) : bool :=
  match p with nativeReplayDefault => true | nativeReplayNever => false end.

(** One turn of the loop: the attempt and what the loop observes around it. *)
Record round := Round {
  r_expired : option ctxError;      (* the context at the top of the loop *)
  r_attempt : attempt;
  r_live_drain : bool;              (* the context is alive, at the test for GOAWAY *)
  r_live_busy : bool;               (* ... at the test for a busy server *)
  r_wait : option ctxError;         (* [waitNativeRetry] *)
  r_live_retry : bool;              (* ... at the test for a reconnection *)
  r_closed : bool;                  (* the executor is closed *)
}.

Section Loop.
Context (opcode lane : Z) (replayPolicy : nativeReplayPolicy) (maxRetries : Z).
Context (world : nat -> round).

(** [requestWithoutSessionGateWithReplayPolicy], from turn [i]; the outcome and the
    number of turns begun. *)
Fixpoint requestLoop (fuel i : nat) (transportAttempts serverRetries : Z) : option (result goError val * nat) :=
  match fuel with
  | O => None
  | S fuel =>
      let r := world i in
      match r_expired r with
      | Some c => Some (Err (ctx_error c), i)
      | None =>
          match requestOnce opcode lane (r_attempt r) with
          | (Ok value, _) => Some (Ok value, S i)
          | (Err err, again) =>
              let disposition := nativeServerRetryDisposition err in
              if may_replay replayPolicy && errors_is errNativeGoAway err && r_live_drain r
              then requestLoop fuel (S i) transportAttempts serverRetries
              else if may_replay replayPolicy && busy disposition && retryable disposition &&
                      (serverRetries <? nativeMaxServerRetries) && r_live_busy r
              then match r_wait r with
                   | Some c => Some (Err (ctx_error c), S i)
                   | None => requestLoop fuel (S i) transportAttempts (serverRetries + 1)
                   end
              else if negb (may_replay replayPolicy) || negb again || (maxRetries <=? transportAttempts) ||
                      negb (r_live_retry r)
              then Some (Err err, S i)
              else if r_closed r then Some (Err err, S i)
              else requestLoop fuel (S i) (transportAttempts + 1) serverRetries
          end
      end
  end.

Definition request (fuel : nat) : option (result goError val * nat) := requestLoop fuel 0 0 0.

(** ** Facts about one attempt *)

Lemma ctx_error_facts c :
  not_sent (ctx_error c) = false /\ errors_is errNativeGoAway (ctx_error c) = false /\
  errors_is errNativeConnectionUnavailable (ctx_error c) = false /\ nativeErrorValue (ctx_error c) = None.
Proof. by destruct c. Qed.

(** An error of the socket or of the context is none of the client's refusals and
    no answer. *)
Lemma write_error_facts failure :
  not_sent (write_error failure) = false /\ errors_is errNativeGoAway (write_error failure) = false /\
  errors_is errNativeConnectionUnavailable (write_error failure) = false /\
  nativeErrorValue (write_error failure) = None.
Proof.
  destruct failure as [c|err]; [apply ctx_error_facts|].
  induction err as [cause|text|text cause IH]; [by destruct cause|done|exact IH].
Qed.

Lemma no_answer_not_busy err : nativeErrorValue err = None -> busy_safe err = false.
Proof. unfold busy_safe, nativeServerRetryDisposition. by intros ->. Qed.

(** The answer to the attempt of turn [i]. *)
Definition answer (i : nat) : result goError val := (requestOnce opcode lane (r_attempt (world i))).1.

Definition turn_writes (i : nat) : bool := written opcode (r_attempt (world i)).

(** The server itself refused the request as busy and allowed its repetition, in
    the answer to it or in its error for the connection. *)
Definition refused (i : nat) : Prop :=
  exists err, answer i = Err err /\ busy_safe err = true /\
    ((exists op l st v, a_reply (r_attempt (world i)) = Replied op l st v) \/
     (exists e, a_reply (r_attempt (world i)) = RepliedError (CloseServer e))).

(** The connection was closed under the waiting request with another request's
    error, one that is a refusal or says that nothing was sent. *)
Definition misled (i : nat) : Prop :=
  exists err, a_reply (r_attempt (world i)) = RepliedError (CloseOther err) /\
    (errors_is errNativeGoAway err = true \/ busy_safe err = true \/ not_sent err = true).

(** ... with one that says that the connection is draining. *)
Definition drained_by_other (i : nat) : bool :=
  match a_reply (r_attempt (world i)) with
  | RepliedError (CloseOther err) => errors_is errNativeGoAway err
  | _ => false
  end.

(** A refusal reported to a request that was written is the server's, or another
    request's. *)
Lemma written_refusal i err again :
  requestOnce opcode lane (r_attempt (world i)) = (Err err, again) -> turn_writes i = true ->
  again = false /\
  (errors_is errNativeGoAway err = true -> drained_by_other i = true) /\
  (busy_safe err = true -> refused i \/ misled i) /\
  (not_sent err = true -> misled i).
Proof.
  intros H Hw. assert (Hans : answer i = Err err) by (unfold answer; by rewrite H).
  unfold requestOnce, turn_writes, written in *.
  set (a := r_attempt (world i)) in *.
  destruct (a_started a), (a_connect a); try done. unfold requestOnceOnConnection in H.
  destruct (a_connected a), (a_ready a); try done.
  destruct (if nativeOpcodeUsesFlowCredit opcode then a_credit a else None); [done|]. cbn in H.
  destruct (a_write a) as [e|failure|]; [done| |].
  - destruct (write_error_facts failure) as (Hn & Hg & Hc & Hv). rewrite Hg, Hc in H. simplify_eq.
    rewrite Hn, Hg, (no_answer_not_busy _ Hv). done.
  - apply pair_eq in H as [H <-]. split; [done|]. unfold receive in H.
    destruct (a_reply a) as [op l st v|cause|c] eqn:E.
    + destruct (negb ((op =? opcode) && (l =? lane))); [by simplify_eq|].
      destruct (negb (st =? nativeStatusOK)).
      * simplify_eq. split_and!; [done| |done]. intros Hb. left. exists (ErrNative (Native st [] v)).
        split_and!; [done..|left; by exists op, l, st, v].
      * destruct (a_finished a) as [c|]; [simplify_eq|done].
        destruct (ctx_error_facts c) as (Hn & Hg & _ & Hv).
        by rewrite Hn, Hg, (no_answer_not_busy _ Hv).
    + simplify_eq. destruct cause as [failure|text| |e|e]; cbn [close_error] in *; try done.
      * destruct (write_error_facts failure) as (Hn & Hg & _ & Hv).
        by rewrite Hn, Hg, (no_answer_not_busy _ Hv).
      * split_and!; [done| |done]. intros Hb. left. exists (ErrNative e).
        split_and!; [done..|right; by exists e].
      * unfold drained_by_other. fold a. rewrite E. split_and!; [done| |]; intros Hb.
        -- right. exists e. split; [done|]. by right; left.
        -- exists e. split; [done|]. by right; right.
    + simplify_eq. destruct (ctx_error_facts c) as (Hn & Hg & _ & Hv).
      by rewrite Hn, Hg, (no_answer_not_busy _ Hv).
Qed.

Lemma drained_misled i : drained_by_other i = true -> misled i.
Proof.
  unfold drained_by_other. intros H. destruct (a_reply _) as [|[]|] eqn:E; try done.
  exists err. split; [done|by left].
Qed.

(** ** Counting turns *)

(** The turns from [i] on, up to turn [n], at which [f] holds. *)
Definition turns (f : nat -> bool) (i n : nat) : nat :=
  length (filter (fun j => f j = true) (seq i (n - i))).

Definition writes : nat -> nat -> nat := turns turn_writes.

Lemma turns_step f i n : (i < n)%nat -> turns f i n = ((if f i then 1 else 0) + turns f (S i) n)%nat.
Proof.
  intros H. unfold turns. replace (n - i)%nat with (S (n - S i)) by lia. cbn [seq]. rewrite filter_cons.
  destruct (f i); by case_decide.
Qed.

Lemma turns_none f i n : (n <= i)%nat -> turns f i n = 0%nat.
Proof. intros H. unfold turns. by replace (n - i)%nat with 0%nat by lia. Qed.

Lemma turns_later f i n : (turns f (S i) n <= turns f i n)%nat.
Proof.
  destruct (decide (i < n)%nat) as [H|H]; [rewrite (turns_step f i n H); lia|].
  rewrite !turns_none by lia. done.
Qed.

(** ** What a run writes *)

(** What a run from turn [i] that ends before turn [n] with [res] did. *)
Definition run_ok (i n : nat) (serverRetries : Z) (res : result goError val) : Prop :=
  (i <= n)%nat /\
  (forall j, (i <= j)%nat -> (S j < n)%nat -> turn_writes j = true -> refused j \/ misled j) /\
  Z.of_nat (writes i n) <= 1 + Z.max 0 (nativeMaxServerRetries - serverRetries) + Z.of_nat (turns drained_by_other i n) /\
  (may_replay replayPolicy = false -> (n <= S i)%nat) /\
  (forall err j, res = Err err -> not_sent err = true -> (i <= j < n)%nat -> turn_writes j = true ->
     refused j \/ misled j).

Lemma run_ok_stop i serverRetries res :
  (forall err, res = Err err -> not_sent err = true -> turn_writes i = true -> refused i \/ misled i) ->
  run_ok i (S i) serverRetries res.
Proof.
  intros H. unfold run_ok, writes. split_and!; [lia| | |done|].
  - intros j Hi Hj. lia.
  - rewrite (turns_step turn_writes), turns_none by lia. destruct (turn_writes i); lia.
  - intros err j He Hn Hj. assert (j = i) as -> by lia. eauto.
Qed.

Lemma run_ok_expired i serverRetries res : run_ok i i serverRetries res.
Proof.
  unfold run_ok, writes. rewrite !turns_none by lia. repeat split; intros; lia.
Qed.

Lemma run_ok_next i n sr sr' res :
  may_replay replayPolicy = true -> run_ok (S i) n sr' res -> sr <= sr' ->
  (turn_writes i = true -> (refused i \/ misled i) /\
     (drained_by_other i = true \/ sr' = sr + 1 /\ sr < nativeMaxServerRetries)) ->
  run_ok i n sr res.
Proof.
  intros Hrep (Hle & Hmid & Hcount & _ & Hns) Hsr Hi. unfold run_ok, writes in *.
  split_and!; [lia| | |congruence|].
  - intros j Hj Hn Hw. destruct (decide (j = i)) as [->|]; [by apply Hi|]. apply Hmid; [lia|done|done].
  - rewrite (turns_step turn_writes), (turns_step drained_by_other) by lia.
    destruct (turn_writes i) eqn:E; [destruct (Hi eq_refl) as (_ & [->|(-> & ?)])|]; [lia| |];
      destruct (drained_by_other i); lia.
  - intros err j He Hne Hj Hw. destruct (decide (j = i)) as [->|]; [by apply Hi|].
    apply (Hns err j He Hne); [lia|done].
Qed.

Lemma requestLoop_run fuel : forall i ta sr res n,
  requestLoop fuel i ta sr = Some (res, n) -> run_ok i n sr res.
Proof.
  induction fuel as [|fuel IH]; intros i ta sr res n H; [done|]. cbn [requestLoop] in H.
  destruct (r_expired (world i)) as [c|]; [simplify_eq; apply run_ok_expired|].
  destruct (requestOnce opcode lane (r_attempt (world i))) as [[value|err] again] eqn:E.
  { simplify_eq. by apply run_ok_stop. }
  pose proof (written_refusal i err again E) as Hw.
  assert (Hstop : forall res', res' = Err err \/ (exists c, res' = Err (ctx_error c)) -> run_ok i (S i) sr res').
  { intros res' Hres. apply run_ok_stop. intros err' He Hn Hwr.
    destruct Hres as [->|[c ->]]; injection He as <-; [right; by apply Hw|]. by destruct c. }
  destruct (may_replay replayPolicy) eqn:Hrep; cbn [andb negb orb] in H; [|simplify_eq; by apply Hstop; left].
  destruct (errors_is errNativeGoAway err && r_live_drain (world i)) eqn:Hg.
  { apply andb_true_iff in Hg as [Hg _]. apply (run_ok_next i n sr sr); [done|by eapply IH|lia|].
    intros Hwr. destruct (Hw Hwr) as (_ & Hd & _). specialize (Hd Hg).
    split; [right; by apply drained_misled|by left]. }
  destruct (busy _ && retryable _ && _ && _) eqn:Hb.
  { destruct (r_wait (world i)) as [c|]; [simplify_eq; apply Hstop; right; by exists c|].
    apply andb_true_iff in Hb as [[Hbs Hlt%Z.ltb_lt]%andb_true_iff _].
    apply (run_ok_next i n sr (sr + 1)); [done|by eapply IH|lia|]. intros Hwr.
    split; [by apply (Hw Hwr)|right; lia]. }
  destruct (negb again || _ || _) eqn:Ha; [simplify_eq; by apply Hstop; left|].
  destruct (r_closed (world i)); [simplify_eq; by apply Hstop; left|].
  apply (run_ok_next i n sr sr); [done|by eapply IH|lia|]. intros Hwr.
  destruct (Hw Hwr) as (-> & _). by rewrite orb_true_l in Ha.
Qed.

(** ** Termination *)

(** Turn [i] is turned away by a draining connection. *)
Definition turned_away (i : nat) : bool :=
  match answer i with Err err => errors_is errNativeGoAway err | Ok _ => false end.

(** The turns a run may still begin, besides those turned away. *)
Definition budget (ta sr : Z) : Z := Z.max 0 (maxRetries - ta) + Z.max 0 (nativeMaxServerRetries - sr) + 1.

Lemma requestLoop_ends fuel : forall k i ta sr,
  (forall n, (turns turned_away i n <= k)%nat) -> 0 <= ta -> 0 <= sr ->
  Z.of_nat k + budget ta sr <= Z.of_nat fuel ->
  exists res n, requestLoop fuel i ta sr = Some (res, n).
Proof.
  unfold budget. induction fuel as [|fuel IH]; intros k i ta sr Hk Hta Hsr Hf; [lia|]. cbn [requestLoop].
  assert (Hk' : forall n, (turns turned_away (S i) n <= k)%nat).
  { intros n. pose proof (turns_later turned_away i n). specialize (Hk n). lia. }
  destruct (r_expired (world i)); [eauto|].
  destruct (requestOnce opcode lane (r_attempt (world i))) as [[value|err] again] eqn:E; [eauto|].
  destruct (may_replay replayPolicy); cbn [andb negb orb]; [|eauto].
  destruct (errors_is errNativeGoAway err && _) eqn:Hg.
  { apply andb_true_iff in Hg as [Hg _].
    assert (Ht : turned_away i = true) by (unfold turned_away, answer; by rewrite E).
    assert (1 <= k)%nat.
    { specialize (Hk (S i)). rewrite turns_step, Ht in Hk by lia. lia. }
    apply (IH (k - 1)%nat); [|done|done|lia]. intros n. destruct (decide (i < n)%nat) as [Hn|Hn].
    - specialize (Hk n). rewrite turns_step, Ht in Hk by done. lia.
    - rewrite turns_none by lia. lia. }
  destruct (busy _ && retryable _ && _ && _) eqn:Hb.
  { destruct (r_wait (world i)); [eauto|].
    apply andb_true_iff in Hb as [[_ Hlt%Z.ltb_lt]%andb_true_iff _]. apply (IH k); [done|done|lia|lia]. }
  destruct (negb again || _ || _) eqn:Ha; [eauto|].
  destruct (r_closed (world i)); [eauto|].
  apply orb_false_iff in Ha as [[_ Ha%Z.leb_gt]%orb_false_iff _]. apply (IH k); [done|lia|done|lia].
Qed.

(** Each turn is turned away, the last, or uses up one of the retries. *)
Lemma requestLoop_bound fuel : forall i ta sr res n,
  requestLoop fuel i ta sr = Some (res, n) ->
  (i <= n)%nat /\ Z.of_nat n <= Z.of_nat i + Z.of_nat (turns turned_away i n) + budget ta sr.
Proof.
  unfold budget. induction fuel as [|fuel IH]; intros i ta sr res n H; [done|]. cbn [requestLoop] in H.
  destruct (r_expired (world i)); [simplify_eq; lia|].
  destruct (requestOnce opcode lane (r_attempt (world i))) as [[value|err] again] eqn:E; [simplify_eq; lia|].
  destruct (may_replay replayPolicy); cbn [andb negb orb] in H; [|simplify_eq; lia].
  destruct (errors_is errNativeGoAway err && _) eqn:Hg.
  { apply andb_true_iff in Hg as [Hg _].
    assert (Ht : turned_away i = true) by (unfold turned_away, answer; by rewrite E).
    apply IH in H as [Hle H]. rewrite (turns_step turned_away i n), Ht by lia. lia. }
  destruct (busy _ && retryable _ && _ && _) eqn:Hb.
  { destruct (r_wait (world i)); [simplify_eq; lia|].
    apply andb_true_iff in Hb as [[_ Hlt%Z.ltb_lt]%andb_true_iff _].
    apply IH in H as [Hle H]. pose proof (turns_later turned_away i n). lia. }
  destruct (negb again || _ || _) eqn:Ha; [simplify_eq; lia|].
  destruct (r_closed (world i)); [simplify_eq; lia|].
  apply orb_false_iff in Ha as [[_ Ha%Z.leb_gt]%orb_false_iff _].
  apply IH in H as [Hle H]. pose proof (turns_later turned_away i n). lia.
Qed.

(** ** Properties *)

(** C8: a request that was written is written again only after the server itself
    refused it as busy and said that it may be repeated, or after its connection was
    closed with the refusal of another request (the retry and the heartbeat do so,
    see the findings); it is written at most twice, apart from the times it was
    handed another request's GOAWAY, whatever happens to connections; a request that
    must not be replayed is attempted once; and an error that reports the request as
    not sent means that nothing was written, but for writings the server refused or
    that another request's error was handed to. *)
Theorem request_written_once sprint fuel res n :
  request fuel = Some (res, n) ->
  (forall j, (S j < n)%nat -> turn_writes j = true -> refused j \/ misled j) /\
  (writes 0 n <= 2 + turns drained_by_other 0 n)%nat /\
  (replayPolicy = nativeReplayNever -> (n <= 1)%nat) /\
  (forall err j, res = Err err -> requestDelivery sprint err = Some DeliveryNotSent -> (j < n)%nat ->
     turn_writes j = true -> refused j \/ misled j).
Proof.
  intros (_ & Hmid & Hcount & Hnever & Hns)%requestLoop_run. split_and!.
  - intros j Hj. apply Hmid; [lia|done].
  - unfold nativeMaxServerRetries in Hcount. lia.
  - intros ->. by apply Hnever.
  - intros err j He Hd%delivery_not_sent Hj. apply (Hns err); [done|done|lia].
Qed.

(** C39: the retry loop ends. If draining connections turn the request away at most
    [k] times in all, it returns; and whenever it returns it has made at most one
    attempt for each time it was turned away, one for each allowed reconnection, one
    for the repetition the server may ask for, and the last. *)
Theorem request_ends k :
  (forall n, (turns turned_away 0 n <= k)%nat) ->
  exists res n, request (k + Z.to_nat maxRetries + 2) = Some (res, n) /\
    (n <= turns turned_away 0 n + Z.to_nat maxRetries + 2)%nat.
Proof.
  intros Hk. destruct (requestLoop_ends (k + Z.to_nat maxRetries + 2) k 0 0 0) as (res & n & Hr);
    [done|done|done|unfold budget, nativeMaxServerRetries; lia|].
  exists res, n. split; [done|]. apply requestLoop_bound in Hr as [_ Hr].
  unfold budget, nativeMaxServerRetries in Hr. lia.
Qed.
End Loop.

(** ** A run: the connection is lost, then the server is busy, then it answers *)

Definition example_attempt (w : writeOutcome) (r : replyOutcome) : attempt :=
  Attempt None None true None None w r None.

Definition busy_value : val :=
  VMap None [(go "retryable", VBool true); (go "safe_to_retry", VBool true); (go "retry_after_ms", VInt IInt64 5)].

Definition example_rounds : list attempt := [
  example_attempt (WriteRefused (ErrSentinel errNativeConnectionUnavailable)) (Cancelled CtxCanceled);
  example_attempt Written (Replied 257 1 nativeStatusBusy busy_value);
  example_attempt Written (Replied 257 1 nativeStatusOK (VString (go "OK")))].

Definition example_world (i : nat) : round :=
  Round None (default (example_attempt (WriteRefused (ErrText (go "closed"))) (Cancelled CtxCanceled))
                (example_rounds !! i)) true true None true false.

Definition example_run := request 257 1 nativeReplayDefault 1 example_world 4.

Lemma request_written_once_witness :
  exists n, example_run = Some (Ok (VString (go "OK")), n) /\ writes 257 example_world 0 n = 2%nat /\
    (forall j, (S j < n)%nat -> turn_writes 257 example_world j = true ->
       refused 257 1 example_world j \/ misled example_world j).
Proof.
  exists 3%nat. assert (E : example_run = Some (Ok (VString (go "OK")), 3%nat)) by (vm_compute; reflexivity).
  split; [exact E|]. split; [vm_compute; reflexivity|].
  exact (proj1 (request_written_once 257 1 nativeReplayDefault 1 example_world (fun _ => []) 4 _ _ E)).
Defined.

(** A draining connection turns the request away twice, and the server is busy. *)
Definition draining_rounds : list attempt := [
  example_attempt (WriteRefused (ErrSentinel errNativeGoAway)) (Cancelled CtxCanceled);
  example_attempt (WriteRefused (ErrSentinel errNativeGoAway)) (Cancelled CtxCanceled)] ++ example_rounds.

Definition draining_world (i : nat) : round :=
  Round None (default (example_attempt (WriteRefused (ErrText (go "closed"))) (Cancelled CtxCanceled))
                (draining_rounds !! i)) true true None true false.

Lemma draining_turns n : (turns (turned_away 257 1 draining_world) 0 n <= 2)%nat.
Proof.
  assert (Hlate : forall m i, (2 <= i)%nat -> turns (turned_away 257 1 draining_world) i (i + m) = 0%nat).
  { induction m as [|m IH]; intros i Hi; [apply turns_none; lia|].
    rewrite turns_step by lia. replace (i + S m)%nat with (S i + m)%nat by lia. rewrite IH by lia.
    destruct i as [|[|[|[|[|i]]]]]; [lia..|done|done|done|done]. }
  destruct n as [|[|n]]; [by vm_compute; lia|vm_compute; lia|].
  rewrite turns_step, (turns_step _ 1) by lia. change (S (S n)) with (2 + n)%nat. rewrite Hlate by lia.
  vm_compute. lia.
Qed.

Lemma request_ends_witness :
  exists res n, request 257 1 nativeReplayDefault 1 draining_world (2 + Z.to_nat 1 + 2) = Some (res, n) /\
    (n <= turns (turned_away 257 1 draining_world) 0 n + Z.to_nat 1 + 2)%nat.
Proof. exact (request_ends 257 1 nativeReplayDefault 1 draining_world 2 draining_turns). Defined.
