(* ===== verification/Connection.v ===== *)
(** Requests in flight on a native connection (src/native_pending.go,
    src/native_reader.go, src/native_request.go, and the installation and closing
    of connections in src/native_connection.go, src/native_response.go and
    src/native.go).

    One definition per critical section of the executor's mutex; the callers of
    [requestOnce], the reader of a connection and the other users of the executor
    interleave these sections: [conn_step]. What a section does with requests it has
    taken out of the map after unlocking counts as part of it: nobody else can
    reach them. A pending request is an object shared by
    the map and the goroutines that hold a pointer to it, so requests live in a
    heap and the map holds their addresses. *)

From S2P Require Export Assembler.
From S2P Require Export Retry.

Definition connUnavailable : goError := ErrSentinel errNativeConnectionUnavailable.
Definition netClosed : goError := ErrSentinel errNetClosed.
Definition responseMismatch : goError := ErrText (go "ferricstore native response mismatch").

Section Connection.
(** The value of a compact response, as in [Assembler]. *)
Context {V : Type}.

(** What is sent on a response channel, of capacity 1. *)
Inductive reply :=
| ReplyFrame (frame : nativeResponse (V := V))
| ReplyError (err : goError).

(** Where the goroutine of [requestOnceOnConnection] is: before [writeRequest]
    has checked the connection, writing, waiting in the [select], done. *)
Inductive callerPhase := Registered | Writing | Waiting | Done.

#[global] Instance phase_eq_dec : EqDecision callerPhase.
Proof. solve_decision. Defined.

(** [nativePendingRequest]. [q_id], [q_conn] and [q_phase] are local variables of
    the caller; [q_uses] and [q_released] record that a flow credit was acquired
    and how often it was released. *)
Record nativePendingRequest := Pending {
  q_id : Z;
  q_conn : nat;
  q_opcode : Z;
  q_lane : Z;
  q_phase : callerPhase;
  q_credit : bool;
  q_abandoned : bool;
  q_replies : list reply;
  q_uses : bool;
  q_released : nat;
}.

(** [conn] stands for the fields that live and die with it (reader, writer, flow
    controller, [connectionDone]), [goAway] for [goAwayDone]. *)
Record executor := Executor {
  conn : option nat;
  goAway : bool;
  isClosed : bool;
  retiring : bool;
  activeRequests : nat;
  connecting : bool;
  nextID : Z;
  pending : gmap Z nat;
  requests : gmap nat nativePendingRequest;
  conns : nat;              (* connections ever opened *)
}.

Definition newNativeExecutor : executor := Executor None false false false 0 false 0 ∅ ∅ 0.

(** ** Field updates *)

Definition set_conn (c : option nat) (draining : bool) (e : executor) : executor :=
  Executor c draining (isClosed e) (retiring e) (activeRequests e) (connecting e) (nextID e) (pending e)
    (requests e) (conns e).

Definition set_pending (p : gmap Z nat) (e : executor) : executor :=
  Executor (conn e) (goAway e) (isClosed e) (retiring e) (activeRequests e) (connecting e) (nextID e) p
    (requests e) (conns e).

Definition set_requests (m : gmap nat nativePendingRequest) (e : executor) : executor :=
  Executor (conn e) (goAway e) (isClosed e) (retiring e) (activeRequests e) (connecting e) (nextID e)
    (pending e) m (conns e).

Definition set_lifecycle (closed ret : bool) (active : nat) (e : executor) : executor :=
  Executor (conn e) (goAway e) closed ret active (connecting e) (nextID e) (pending e) (requests e) (conns e).

Definition set_phase (p : callerPhase) (q : nativePendingRequest) : nativePendingRequest :=
  Pending (q_id q) (q_conn q) (q_opcode q) (q_lane q) p (q_credit q) (q_abandoned q) (q_replies q)
    (q_uses q) (q_released q).

Definition abandon (q : nativePendingRequest) : nativePendingRequest :=
  Pending (q_id q) (q_conn q) (q_opcode q) (q_lane q) (q_phase q) (q_credit q) true (q_replies q)
    (q_uses q) (q_released q).

(** [request.responseCh <- reply]. *)
Definition send (r : reply) (q : nativePendingRequest) : nativePendingRequest :=
  Pending (q_id q) (q_conn q) (q_opcode q) (q_lane q) (q_phase q) (q_credit q) (q_abandoned q)
    (q_replies q ++ [r]) (q_uses q) (q_released q).

Definition on_request (f : nativePendingRequest -> nativePendingRequest) (w : nat) (e : executor) : executor :=
  set_requests (alter f w (requests e)) e.

(** ** Critical sections *)

(** [releaseNativePending]. *)
Definition releaseNativePending (q : nativePendingRequest) : nativePendingRequest :=
  if q_credit q
  then Pending (q_id q) (q_conn q) (q_opcode q) (q_lane q) (q_phase q) false (q_abandoned q) (q_replies q)
         (q_uses q) (S (q_released q))
  else q.

(** The body of the loop of [failNativePending]. *)
Definition failRequest (err : goError) (q : nativePendingRequest) : nativePendingRequest :=
  let q := releaseNativePending q in
  if q_abandoned q then q else send (ReplyError err) q.

(** [failNativePending]. *)
Definition failNativePending (taken : gmap Z nat) (err : goError) (e : executor) : executor :=
  set_requests
    (foldl (fun heap iw => alter (failRequest err) iw.2 heap) (requests e) (map_to_list taken)) e.

(** [takePendingLocked]: the map is replaced, the old one returned. *)
Definition takePendingLocked (e : executor) : gmap Z nat * executor := (pending e, set_pending ∅ e).

Definition closeConnLocked (e : executor) : executor := set_conn None false e.

(** [takePendingLocked], [closeConnLocked] and [failNativePending], in the order
    all the closing paths have them. *)
Definition closeAndFail (err : goError) (e : executor) : executor :=
  let (taken, e) := takePendingLocked e in
  failNativePending taken err (closeConnLocked e).

Definition isLive (e : executor) (w : nat) : bool :=
  match requests e !! w with Some q => negb (q_abandoned q) | None => false end.

Definition hasLivePendingLocked (e : executor) : bool :=
  existsb (fun iw => isLive e iw.2) (map_to_list (pending e)).

(** The connection is closed once the last live request of a draining one is gone. *)
Definition closeIfDrained (e : executor) : executor :=
  if goAway e && negb (hasLivePendingLocked e) then closeAndFail connUnavailable e else e.

(** [removePending]. *)
Definition removePending (id : Z) (e : executor) : executor :=
  closeIfDrained (set_pending (delete id (pending e)) e).

(** [releaseNativePending(e.removePending(id))], by the caller of [w]. *)
Definition withdraw (id : Z) (e : executor) : executor :=
  let request := pending e !! id in
  let e := removePending id e in
  match request with
  | Some w => on_request releaseNativePending w e
  | None => e
  end.

(** [cancelPendingDataRequest]. *)
Definition cancelPendingDataRequest (id : Z) (c : nat) (e : executor) : executor :=
  match pending e !! id with
  | None => e
  | Some w =>
      let e := on_request abandon w e in
      if negb (bool_decide (conn e = Some c))
      then on_request releaseNativePending w (set_pending (delete id (pending e)) e)
      else
        let e := set_conn (conn e) true e in
        if negb (hasLivePendingLocked e) then closeAndFail connUnavailable e else e
  end.

(** [handleGoAway]. *)
Definition handleGoAway (c : nat) (e : executor) : executor :=
  if negb (bool_decide (conn e = Some c)) || goAway e then e
  else
    let e := set_conn (conn e) true e in
    if negb (hasLivePendingLocked e) then closeAndFail connUnavailable e else e.

Definition closeConnAndFailPendingIfCurrent (c : nat) (err : goError) (e : executor) : executor :=
  if bool_decide (conn e = Some c) then closeAndFail err e else e.

Definition closeConnAndFailPending (err : goError) (e : executor) : executor := closeAndFail err e.

Definition closeConnAndFailPendingUnlessRetiring (err : goError) (e : executor) : executor :=
  if retiring e || isClosed e then e else closeAndFail err e.

(** [validateNativeWireFrameTuple]: a frame of the reader of [c] closes the
    connection when its request, opcode or lane is not the pending one's. *)
Definition frameMatches (e : executor) (f : nativeFrame) : bool :=
  if f_request f =? 0 then true
  else match pending e !! f_request f with
  | None => f_lane f =? 0
  | Some w =>
      match requests e !! w with
      | Some q => (q_opcode q =? f_opcode f) && (q_lane q =? f_lane f)
      | None => false
      end
  end.

Definition validateNativeWireFrameTuple (c : nat) (f : nativeFrame) (e : executor) : executor :=
  if negb (bool_decide (conn e = Some c)) then e
  else if frameMatches e f then e
  else closeConnAndFailPendingIfCurrent c responseMismatch e.

(** The end of the loop of [readerLoop]: a complete response to a request. *)
Definition deliverResponse (c : nat) (f : nativeResponse) (e : executor) : executor :=
  if negb (bool_decide (conn e = Some c)) then e
  else
    let found := pending e !! r_request f in
    let mismatch :=
      match found ≫= (fun w => requests e !! w) with
      | Some q => negb ((q_opcode q =? r_opcode f) && (q_lane q =? r_lane f))
      | None => false
      end in
    if mismatch then closeConnAndFailPendingIfCurrent c responseMismatch e
    else
      let e := set_pending (delete (r_request f) (pending e)) e in
      let drained := goAway e && negb (hasLivePendingLocked e) in
      let taken := if drained then pending e else ∅ in
      let e := if drained then closeConnLocked (takePendingLocked e).2 else e in
      let e :=
        match found with
        | Some w =>
            on_request (fun q =>
              let q := releaseNativePending q in
              if q_abandoned q then q else send (ReplyFrame f) q) w e
        | None => e
        end in
      failNativePending taken connUnavailable e.

(** [nextRequestIDLocked]: the counter wraps, skips 0 and the pending ones. *)
Fixpoint nextRequestIDFrom (fuel : nat) (last : Z) (pending : gmap Z nat) : option Z :=
  match fuel with
  | O => None
  | S fuel =>
      let id := wrap 64 (last + 1) in
      if id =? 0 then nextRequestIDFrom fuel id pending
      else match pending !! id with
      | Some _ => nextRequestIDFrom fuel id pending
      | None => Some id
      end
  end.

Definition nextRequestID (e : executor) : option Z :=
  nextRequestIDFrom (S (S (size (pending e)))) (nextID e) (pending e).

(** A handshake request takes an identifier but is not registered. *)
Definition nativeHandshakeRequestID (e : executor) : option executor :=
  id ← nextRequestID e;
  Some (Executor (conn e) (goAway e) (isClosed e) (retiring e) (activeRequests e) (connecting e) id
          (pending e) (requests e) (conns e)).

(** [addPendingRequest], for a caller that has seen connection [c]. *)
Definition addPendingRequest (w c : nat) (opcode lane : Z) (credit : bool) (e : executor) : option executor :=
  id ← nextRequestID e;
  Some (Executor (conn e) (goAway e) (isClosed e) (retiring e) (activeRequests e) (connecting e) id
          (<[id := w]> (pending e))
          (<[w := Pending id c opcode lane Registered credit false [] credit 0]> (requests e)) (conns e)).

Definition beginRequest (e : executor) : option executor :=
  if isClosed e || retiring e then None
  else Some (set_lifecycle (isClosed e) (retiring e) (S (activeRequests e)) e).

(** [markClosedLocked], then [closeAndFail]. *)
Definition closeExecutor (e : executor) : executor :=
  closeAndFail netClosed (set_lifecycle true (retiring e) (activeRequests e) e).

Definition endRequest (e : executor) : executor :=
  let e := set_lifecycle (isClosed e) (retiring e) (pred (activeRequests e)) e in
  if negb (activeRequests e =? 0)%nat || negb (retiring e) || isClosed e then e else closeExecutor e.

Definition retire (e : executor) : executor :=
  if isClosed e || retiring e then e
  else
    let e := set_lifecycle (isClosed e) true (activeRequests e) e in
    if negb (activeRequests e =? 0)%nat then e else closeExecutor e.

Definition Close (e : executor) : executor := if isClosed e then e else closeExecutor e.

(** The start of an attempt in [ensureConnectedLocked]. *)
Definition startConnect (e : executor) : executor :=
  if bool_decide (conn e = None) && negb (isClosed e || retiring e)
  then Executor (conn e) (goAway e) (isClosed e) (retiring e) (activeRequests e) true (nextID e) (pending e)
         (requests e) (conns e)
  else e.

(** The end of [runConnectAttempt], for the attempt in flight. *)
Definition finishConnect (ok : bool) (e : executor) : executor :=
  if ok && connecting e && negb (isClosed e || retiring e)
  then Executor (Some (conns e)) (goAway e) (isClosed e) (retiring e) (activeRequests e) false (nextID e)
         (pending e) (requests e) (S (conns e))
  else Executor (conn e) (goAway e) (isClosed e) (retiring e) (activeRequests e) false (nextID e) (pending e)
         (requests e) (conns e).

(** ** Interleavings *)

(** [writeMu] is free: no caller is between its check of the connection and the
    end of its write. *)
Definition no_writer (e : executor) : Prop :=
  forall w q, requests e !! w = Some q -> q_phase q <> Writing.

(** The atomic steps of the callers, the readers and the other users. A request
    identifier is not handed out again while the request that had it is still
    inside [requestOnce]: fewer than 2^64 requests start in the meantime. *)
Inductive conn_step : executor -> executor -> Prop :=
| StepBegin e e' : beginRequest e = Some e' -> conn_step e e'
| StepEnd e : conn_step e (endRequest e)
| StepRetire e : conn_step e (retire e)
| StepClose e : conn_step e (Close e)
| StepConnectStart e : conn_step e (startConnect e)
| StepConnectEnd e ok : conn_step e (finishConnect ok e)
| StepHandshake e e' : nativeHandshakeRequestID e = Some e' -> conn_step e e'
| StepAdd e e' w c opcode lane credit :
    requests e !! w = None -> (c < conns e)%nat ->
    (forall w' q', requests e !! w' = Some q' -> q_phase q' <> Done -> nextRequestID e <> Some (q_id q')) ->
    addPendingRequest w c opcode lane credit e = Some e' -> conn_step e e'
| StepWrite e w q :
    requests e !! w = Some q -> q_phase q = Registered -> no_writer e ->
    conn e = Some (q_conn q) -> goAway e = false ->
    conn_step e (on_request (set_phase Writing) w e)
| StepWritten e w q :
    requests e !! w = Some q -> q_phase q = Writing -> conn_step e (on_request (set_phase Waiting) w e)
| StepWriteFail e w q :
    requests e !! w = Some q -> q_phase q = Registered \/ q_phase q = Writing ->
    conn_step e (on_request (set_phase Done) w (withdraw (q_id q) e))
| StepReceive e w q r replies :
    requests e !! w = Some q -> q_phase q = Waiting -> q_replies q = r :: replies ->
    conn_step e (on_request (set_phase Done) w e)
| StepCancelData e w q :
    requests e !! w = Some q -> q_phase q = Waiting -> no_writer e ->
    conn_step e (on_request (set_phase Done) w (cancelPendingDataRequest (q_id q) (q_conn q) e))
| StepCancelControl e w q :
    requests e !! w = Some q -> q_phase q = Waiting ->
    conn_step e (on_request (set_phase Done) w (withdraw (q_id q) e))
| StepTuple e c f : conn_step e (validateNativeWireFrameTuple c f e)
| StepDeliver e c f : r_request f <> 0 -> conn_step e (deliverResponse c f e)
| StepGoAway e c : no_writer e -> conn_step e (handleGoAway c e)
| StepDisconnect e c err : conn_step e (closeConnAndFailPendingIfCurrent c err e)
| StepRetryClose e opcode lane a err :
    requestOnce opcode lane a = (Err err, true) -> conn_step e (closeConnAndFailPending err e)
| StepHeartbeat e err : conn_step e (closeConnAndFailPendingUnlessRetiring err e).

Inductive conn_reachable : executor -> Prop :=
| conn_start : conn_reachable newNativeExecutor
| conn_next e e' : conn_reachable e -> conn_step e e' -> conn_reachable e'.

(** ** Heap updates *)

Lemma alter_swap (f g : nativePendingRequest -> nativePendingRequest) (i j : nat)
  (m : gmap nat nativePendingRequest) :
  (forall q, f (g q) = g (f q)) -> alter f i (alter g j m) = alter g j (alter f i m).
Proof.
  intros Hfg. destruct (decide (i = j)) as [->|Hne]; [|by apply alter_alter_ne].
  rewrite !alter_alter_eq. apply alter_ext. intros q _. cbn. apply Hfg.
Qed.

Lemma foldl_alter_swap {A} (f g : nativePendingRequest -> nativePendingRequest) (w : nat) (key : A -> nat) l :
  (forall q, f (g q) = g (f q)) -> forall m : gmap nat nativePendingRequest,
  alter f w (foldl (fun heap a => alter g (key a) heap) m l) =
  foldl (fun heap a => alter g (key a) heap) (alter f w m) l.
Proof.
  intros Hfg. induction l as [|a l IH]; intros m; cbn; [done|]. by rewrite IH, alter_swap.
Qed.

(** Updating each request of a list once. *)
Lemma lookup_foldl_alter (f : nativePendingRequest -> nativePendingRequest) (l : list (Z * nat)) :
  NoDup l.*2 -> forall (m : gmap nat nativePendingRequest) w,
  foldl (fun heap iw => alter f iw.2 heap) m l !! w =
    if decide (w ∈ l.*2) then f <$> m !! w else m !! w.
Proof.
  induction l as [|[i v] l IH]; intros Hnd m w; cbn [foldl fmap list_fmap fst snd].
  - rewrite decide_False; [done|]. apply not_elem_of_nil.
  - apply NoDup_cons in Hnd as [Hv Hnd]. rewrite IH by done.
    destruct (decide (w = v)) as [->|Hne].
    + rewrite decide_False, (decide_True (P := v ∈ _)) by (done || apply list_elem_of_here).
      by rewrite lookup_alter_eq.
    + rewrite lookup_alter_ne by done. destruct (decide (w ∈ l.*2)).
      * rewrite decide_True; [done|]. by apply list_elem_of_further.
      * rewrite decide_False; [done|]. by intros [?|?]%elem_of_cons.
Qed.

Lemma release_fail err q :
  releaseNativePending (failRequest err q) = failRequest err (releaseNativePending q).
Proof. destruct q as [? ? ? ? ? [] [] ? ? ?]; done. Qed.

Lemma set_phase_fail p err q : set_phase p (failRequest err q) = failRequest err (set_phase p q).
Proof. destruct q as [? ? ? ? ? [] [] ? ? ?]; done. Qed.

(** An update that commutes with failing a request commutes with closing. *)
Lemma on_request_close f w err e :
  (forall q, f (failRequest err q) = failRequest err (f q)) ->
  on_request f w (closeAndFail err e) = closeAndFail err (on_request f w e).
Proof.
  intros Hf. unfold closeAndFail, failNativePending, on_request, set_requests. cbn. f_equal.
  apply (foldl_alter_swap f (failRequest err) w snd); exact Hf.
Qed.

(** Being live depends on the abandoned flags only. *)
Lemma isLive_update f w e v :
  (forall q, q_abandoned (f q) = q_abandoned q) -> isLive (on_request f w e) v = isLive e v.
Proof.
  intros Hf. unfold isLive. cbn [on_request set_requests requests].
  destruct (decide (v = w)) as [->|Hne]; [|by rewrite lookup_alter_ne].
  rewrite lookup_alter_eq. destruct (requests e !! w); cbn; [by rewrite Hf|done].
Qed.

Lemma existsb_cong {A} (f g : A -> bool) l : (forall a, f a = g a) -> existsb f l = existsb g l.
Proof. intros H. induction l as [|a l IH]; cbn; [done|]. by rewrite H, IH. Qed.

Lemma hasLive_update f w e :
  (forall q, q_abandoned (f q) = q_abandoned q) ->
  hasLivePendingLocked (on_request f w e) = hasLivePendingLocked e.
Proof. intros Hf. apply existsb_cong. intros [i v]. by apply isLive_update. Qed.

Lemma on_request_closeIfDrained f w e :
  (forall q, q_abandoned (f q) = q_abandoned q) ->
  (forall q, f (failRequest connUnavailable q) = failRequest connUnavailable (f q)) ->
  on_request f w (closeIfDrained e) = closeIfDrained (on_request f w e).
Proof.
  intros Ha Hf. unfold closeIfDrained. rewrite hasLive_update by done.
  change (goAway (on_request f w e)) with (goAway e).
  destruct (goAway e && negb (hasLivePendingLocked e)); [|done]. by apply on_request_close.
Qed.

(** ** The invariant *)

(** A request object, given the current connection and whether the map holds it. *)
Definition q_ok (c : option nat) (registered : bool) (q : nativePendingRequest) : Prop :=
  0 < q_id q < 2 ^ 64 /\
  (q_abandoned q = true -> q_phase q = Done) /\
  (forall f, ReplyFrame f ∈ q_replies q -> r_request f = q_id q /\ r_opcode f = q_opcode q /\ r_lane f = q_lane q) /\
  if registered then
    q_replies q = [] /\ q_credit q = q_uses q /\ q_released q = 0%nat /\
    (q_phase q = Done -> q_abandoned q = true) /\
    (q_phase q = Writing \/ q_phase q = Waiting -> c = Some (q_conn q))
  else
    q_credit q = false /\ q_released q = (if q_uses q then 1 else 0)%nat /\
    (length (q_replies q) <= 1)%nat /\ (q_phase q <> Done -> q_replies q <> []).

Definition registered (e : executor) (w : nat) (q : nativePendingRequest) : bool :=
  bool_decide (pending e !! q_id q = Some w).

Record core (e : executor) : Prop := {
  core_pending : forall id w, pending e !! id = Some w -> exists q, requests e !! w = Some q /\ q_id q = id;
  core_request : forall w q, requests e !! w = Some q -> q_ok (conn e) (registered e w q) q;
  core_unique : forall w w' q q', requests e !! w = Some q -> requests e !! w' = Some q' ->
    q_id q = q_id q' -> q_phase q <> Done -> q_phase q' <> Done \/ registered e w' q' = true -> w = w';
}.

(** The executor's own flags. *)
Record lifecycle (e : executor) : Prop := {
  life_draining : goAway e = true -> conn e <> None;
  life_connecting : connecting e = true -> conn e = None;
  life_closed : isClosed e = true -> conn e = None;
  life_retired : retiring e = true -> activeRequests e = 0%nat -> isClosed e = true;
}.

Definition drains_live (e : executor) : Prop := goAway e = true -> hasLivePendingLocked e = true.

Definition conn_inv (e : executor) : Prop := core e /\ lifecycle e /\ drains_live e.

(** *** What the updates do to one request *)

Ltac no_frame :=
  match goal with
  | H : ReplyFrame _ ∈ [] |- _ => by apply not_elem_of_nil in H
  | H : ReplyFrame _ ∈ [_] |- _ => apply list_elem_of_singleton in H; congruence
  end.

Lemma q_ok_fail c err q : q_ok c true q -> q_ok None false (failRequest err q).
Proof.
  destruct q as [id k op lane ph cr ab rs us rel]. unfold q_ok; cbn.
  intros (Hid & Hab & _ & -> & -> & -> & Hdone & _).
  destruct us, ab; cbn; repeat split; try (done || lia || no_frame); intros Hph; try done;
    exfalso; apply Hph; by apply Hab.
Qed.

Lemma q_ok_close c q : q_ok c false q -> q_ok None false q.
Proof. done. Qed.

(** The caller takes itself out: [release] is for the one that finds itself registered. *)
Lemma q_ok_leave c q : q_ok c true q -> q_ok c false (set_phase Done (releaseNativePending q)).
Proof.
  destruct q as [id k op lane ph cr ab rs us rel]. unfold q_ok; cbn.
  intros (Hid & _ & _ & -> & -> & -> & _). destruct us; cbn; repeat split; try (done || lia || no_frame).
Qed.

Lemma q_ok_done c q : q_ok c false q -> q_ok c false (set_phase Done q).
Proof. unfold q_ok; cbn. intros (Hid & _ & Hrep & Hcr & Hrel & Hlen & _). by split_and!; try lia. Qed.

Lemma q_ok_abandon c q : q_ok c true q -> q_ok c true (set_phase Done (abandon q)).
Proof.
  unfold q_ok; cbn. intros (Hid & _ & Hrep & Hrs & Hcr & Hrel & _). split_and!; try (done || lia).
  intros [?|?]; done.
Qed.

Lemma q_ok_phase c b p q :
  q_ok c b q -> q_phase q <> Done -> p <> Done -> (b = true -> c = Some (q_conn q)) -> q_ok c b (set_phase p q).
Proof.
  intros (Hid & Hab & Hrep & Hb) Hq Hp Hc. unfold q_ok; cbn.
  split; [done|]. split; [intros H; by apply Hab in H|]. split; [done|].
  destruct b; cbn in *; [|destruct Hb as (? & ? & ? & Hne); split_and!; try done; intros; by apply Hne].
  destruct Hb as (Hrs & Hcr & Hrel & Hdone & Hw). split_and!; try done. intros. by apply Hc.
Qed.

Definition deliver (f : nativeResponse) (q : nativePendingRequest) : nativePendingRequest :=
  let q := releaseNativePending q in
  if q_abandoned q then q else send (ReplyFrame f) q.

Lemma q_ok_deliver c f q :
  q_ok c true q -> r_request f = q_id q -> q_opcode q = r_opcode f -> q_lane q = r_lane f ->
  q_ok c false (deliver f q).
Proof.
  destruct q as [id k op lane ph cr ab rs us rel]. unfold q_ok, deliver; cbn.
  intros (Hid & Hab & _ & -> & -> & -> & Hdone & _) Hreq -> ->.
  destruct us, ab; cbn; repeat split; try (done || lia || no_frame).
  all: intros Hph; exfalso; apply Hph; by apply Hab.
Qed.

(** *** What the updates do to the executor *)

(** One request changes; the map may lose its entry. *)
Lemma core_update e w q f p :
  core e -> requests e !! w = Some q -> q_id (f q) = q_id q -> (q_phase (f q) <> Done -> q_phase q <> Done) ->
  p = pending e \/ p = delete (q_id q) (pending e) /\ pending e !! q_id q = Some w ->
  q_ok (conn e) (bool_decide (p !! q_id q = Some w)) (f q) ->
  core (on_request f w (set_pending p e)).
Proof.
  intros [Hp Hq Hu] Hw Hid Hph Hdel Hok.
  assert (Hsub : forall id v, p !! id = Some v -> pending e !! id = Some v).
  { destruct Hdel as [->|[-> _]]; [done|]. intros id v Hv. by apply lookup_delete_Some in Hv as [_ Hv]. }
  assert (Hother : forall v, v <> w -> forall id, p !! id = Some v <-> pending e !! id = Some v).
  { intros v Hv id. split; [apply Hsub|]. destruct Hdel as [->|[-> Hin]]; [done|]. intros Hv'.
    apply lookup_delete_Some. split; [|done]. intros <-. congruence. }
  assert (Hget : forall v q', alter f w (requests e) !! v = Some q' ->
    exists q0, requests e !! v = Some q0 /\ q_id q' = q_id q0 /\ (q_phase q' <> Done -> q_phase q0 <> Done)).
  { intros v q' [[-> (q0 & ? & ->)]|[_ ?]]%lookup_alter_Some; [|by eauto].
    exists q0. simplify_eq. done. }
  split; cbn.
  - intros id v (q0 & Hv & <-)%Hsub%Hp. destruct (decide (v = w)) as [->|Hne].
    + rewrite lookup_alter_eq, Hw. exists (f q). by simplify_eq.
    + rewrite lookup_alter_ne by done. by exists q0.
  - intros v q' [[-> (q0 & ? & ->)]|[Hne Hv]]%lookup_alter_Some; simplify_eq.
    + unfold registered; cbn. by rewrite Hid.
    + unfold registered; cbn. rewrite (bool_decide_ext _ _ (Hother v (not_eq_sym Hne) _)). by apply Hq.
  - intros v v' q1 q2 H1 H2 Hids Hnd Hor.
    destruct (Hget _ _ H1) as (r1 & Hr1 & Hi1 & Hd1), (Hget _ _ H2) as (r2 & Hr2 & Hi2 & Hd2).
    apply (Hu v v' r1 r2 Hr1 Hr2); [congruence|auto|]. destruct Hor as [Hor|Hor]; [auto|right].
    apply bool_decide_eq_true in Hor. apply bool_decide_eq_true. apply Hsub. cbn in Hor. congruence.
Qed.

Lemma pending_NoDup e : core e -> NoDup (map_to_list (pending e)).*2.
Proof.
  intros [Hp _ _]. apply (NoDup_fmap_2_strong (A := Z * nat)); [|apply NoDup_map_to_list].
  intros [i v] [j v'] Hi%elem_of_map_to_list Hj%elem_of_map_to_list; cbn. intros ->.
  destruct (Hp _ _ Hi) as (q & Hq & <-), (Hp _ _ Hj) as (q' & Hq' & <-). congruence.
Qed.

Lemma elem_of_pending e w :
  w ∈ (map_to_list (pending e)).*2 <-> exists id, pending e !! id = Some w.
Proof.
  rewrite list_elem_of_fmap. split.
  - intros ([id v] & -> & H%elem_of_map_to_list). by exists id.
  - intros [id H%elem_of_map_to_list]. by exists (id, w).
Qed.

(** Closing fails every registered request and leaves the others alone. *)
Lemma closeAndFail_lookup err e w : core e ->
  requests (closeAndFail err e) !! w =
    (fun q => if registered e w q then failRequest err q else q) <$> requests e !! w.
Proof.
  intros Hcore. unfold closeAndFail, failNativePending. cbn.
  rewrite (lookup_foldl_alter _ _ (pending_NoDup e Hcore)).
  assert (Hr : forall q, requests e !! w = Some q -> registered e w q = true <-> exists id, pending e !! id = Some w).
  { intros q Hw. unfold registered. rewrite bool_decide_eq_true. split; [by eauto|].
    intros [id Hid]. destruct (core_pending e Hcore _ _ Hid) as (q' & ? & <-). by simplify_eq. }
  destruct (requests e !! w) as [q|] eqn:Hw; cbn; [|by destruct (decide _)].
  specialize (Hr q eq_refl). rewrite <- elem_of_pending in Hr.
  destruct (decide _) as [Hin|Hin]; [by rewrite (proj2 Hr Hin)|].
  destruct (registered e w q); [by destruct Hin; apply Hr|done].
Qed.

Lemma failRequest_fields err q :
  q_id (failRequest err q) = q_id q /\ q_phase (failRequest err q) = q_phase q.
Proof. destruct q as [? ? ? ? ? [] [] ? ? ?]; done. Qed.

Lemma core_closeAndFail err e : core e -> core (closeAndFail err e).
Proof.
  intros Hcore. pose proof Hcore as [Hp Hq Hu].
  assert (Hget : forall w q', requests (closeAndFail err e) !! w = Some q' ->
    exists q, requests e !! w = Some q /\ q' = (if registered e w q then failRequest err q else q) /\
      q_id q' = q_id q /\ q_phase q' = q_phase q).
  { intros w q'. rewrite closeAndFail_lookup by done. intros (q & Hw & ->)%fmap_Some.
    exists q. split; [done|]. split; [done|]. destruct (registered e w q); [apply failRequest_fields|done]. }
  split.
  - cbn. intros id w Hid. by apply lookup_empty_Some in Hid.
  - intros w q' (q & Hw & -> & Hid & _)%Hget. specialize (Hq w q Hw).
    assert (Hun : forall q0, registered (closeAndFail err e) w q0 = false).
    { intros q0. apply bool_decide_eq_false. apply (lookup_empty_Some (M := gmap Z)). }
    rewrite Hun. cbn [conn]. destruct (registered e w q); [by eapply q_ok_fail|by apply q_ok_close in Hq].
  - intros w w' q1 q2 (r1 & H1 & _ & Hi1 & Hd1)%Hget (r2 & H2 & _ & Hi2 & Hd2)%Hget Hids Hnd [Hor|Hor].
    + eapply (Hu w w' r1 r2); eauto; [congruence|congruence|]. left. congruence.
    + apply bool_decide_eq_true in Hor. by destruct (lookup_empty_Some (M := gmap Z) _ _ Hor).
Qed.

Lemma core_frame e e' :
  core e -> pending e' = pending e -> requests e' = requests e ->
  (conn e' = conn e \/ conn e = None) -> core e'.
Proof.
  intros [Hp Hq Hu] Hpe Hre Hc. split; unfold registered in *; rewrite Hpe, Hre; [done| |done].
  intros w q Hw. specialize (Hq w q Hw). destruct Hc as [->|Hc]; [done|]. rewrite Hc in Hq.
  unfold q_ok in *. destruct (bool_decide _); [|done].
  destruct Hq as (? & ? & ? & ? & ? & ? & ? & Hcon). split_and!; try (done || lia).
  intros Hph. by specialize (Hcon Hph).
Qed.

Lemma inv_closeAndFail err e :
  core e -> (retiring e = true -> activeRequests e = 0%nat -> isClosed e = true) -> conn_inv (closeAndFail err e).
Proof. intros Hc Hr. split; [by apply core_closeAndFail|]. by split; [split|]. Qed.

(** The last live request of a draining connection closes it. *)
Lemma inv_closeIfDrained e : core e -> lifecycle e -> conn_inv (closeIfDrained e).
Proof.
  intros Hc Hl. unfold closeIfDrained.
  destruct (goAway e && negb (hasLivePendingLocked e)) eqn:Hd.
  - apply inv_closeAndFail; [done|]. apply (life_retired e Hl).
  - split; [done|]. split; [done|]. intros Hg. rewrite Hg in Hd. by apply negb_false_iff in Hd.
Qed.

(** *** The steps *)

Lemma on_request_fuse f g w e : on_request f w (on_request g w e) = on_request (fun q => f (g q)) w e.
Proof. unfold on_request, set_requests; cbn. by rewrite alter_alter_eq. Qed.

Lemma set_pending_same e : set_pending (pending e) e = e.
Proof. by destruct e. Qed.

(** The request a caller finds under its identifier is its own. *)
Lemma pending_owner e w q w' :
  core e -> requests e !! w = Some q -> q_phase q <> Done -> pending e !! q_id q = Some w' -> w' = w.
Proof.
  intros [Hp _ Hu] Hw Hph Hin. destruct (Hp _ _ Hin) as (q' & Hw' & Hid). symmetry.
  apply (Hu w w' q q' Hw Hw'); [done|done|]. right. apply bool_decide_eq_true. congruence.
Qed.

Lemma registered_false e w q :
  core e -> requests e !! w = Some q -> q_phase q <> Done -> pending e !! q_id q <> Some w ->
  pending e !! q_id q = None.
Proof.
  intros Hc Hw Hph Hne. destruct (pending e !! q_id q) as [w'|] eqn:Hin; [|done].
  by rewrite (pending_owner e w q w' Hc Hw Hph Hin) in Hne.
Qed.

(** The state of a request of the heap, by whether it is registered. *)
Lemma request_cases e w q :
  core e -> requests e !! w = Some q -> q_phase q <> Done ->
  (pending e !! q_id q = Some w /\ q_ok (conn e) true q) \/
  (pending e !! q_id q = None /\ q_ok (conn e) false q).
Proof.
  intros Hc Hw Hph. pose proof (core_request e Hc w q Hw) as Hok. unfold registered in Hok.
  case_bool_decide as Hin; [by left|right]. split; [by eapply registered_false|done].
Qed.

Lemma lifecycle_frame e e' :
  lifecycle e -> conn e' = conn e -> goAway e' = goAway e -> isClosed e' = isClosed e ->
  retiring e' = retiring e -> activeRequests e' = activeRequests e -> connecting e' = connecting e -> lifecycle e'.
Proof. intros [] H1 H2 H3 H4 H5 H6. by split; rewrite ?H1, ?H2, ?H3, ?H4, ?H5, ?H6. Qed.

Lemma inv_phase p w q e :
  conn_inv e -> requests e !! w = Some q -> q_phase q <> Done -> p <> Done ->
  (pending e !! q_id q = Some w -> conn e = Some (q_conn q)) -> conn_inv (on_request (set_phase p) w e).
Proof.
  intros (Hc & Hl & Hd) Hw Hph Hp Hcon. split; [|split].
  - rewrite <- (set_pending_same e). eapply core_update; eauto.
    apply q_ok_phase; [by apply (core_request e Hc)|done|done|]. intros Hr. apply bool_decide_eq_true in Hr. auto.
  - by apply (lifecycle_frame e).
  - intros Hg. rewrite hasLive_update by done. by apply Hd.
Qed.

Lemma inv_receive w q r replies e :
  conn_inv e -> requests e !! w = Some q -> q_phase q <> Done -> q_replies q = r :: replies ->
  conn_inv (on_request (set_phase Done) w e).
Proof.
  intros (Hc & Hl & Hd) Hw Hph Hrep. split; [|split].
  - rewrite <- (set_pending_same e). eapply core_update; eauto.
    destruct (request_cases e w q Hc Hw Hph) as [[Hin Hok]|[Hin Hok]].
    + destruct Hok as (_ & _ & _ & Hnil & _). congruence.
    + rewrite Hin. by apply q_ok_done.
  - by apply (lifecycle_frame e).
  - intros Hg. rewrite hasLive_update by done. by apply Hd.
Qed.

Lemma inv_withdraw w q e :
  conn_inv e -> requests e !! w = Some q -> q_phase q <> Done ->
  conn_inv (on_request (set_phase Done) w (withdraw (q_id q) e)).
Proof.
  intros (Hc & Hl & Hd) Hw Hph. unfold withdraw, removePending.
  destruct (request_cases e w q Hc Hw Hph) as [[Hin Hok]|[Hin Hok]]; rewrite Hin.
  - rewrite on_request_fuse, on_request_closeIfDrained; [|by intros [? ? ? ? ? []] ..|].
    2:{ intros q'. by rewrite release_fail, set_phase_fail. }
    apply inv_closeIfDrained; [|by apply (lifecycle_frame e)].
    apply (core_update e w q); [done|done| | |by right|].
    + by destruct q as [? ? ? ? ? []].
    + by destruct q as [? ? ? ? ? []].
    + rewrite lookup_delete_eq. by apply q_ok_leave.
  - rewrite on_request_closeIfDrained by (done || (intros; apply set_phase_fail)).
    apply inv_closeIfDrained; [|by apply (lifecycle_frame e)].
    apply (core_update e w q); [done|done|done|done| |].
    + left. by apply delete_id.
    + rewrite lookup_delete_eq. by apply q_ok_done.
Qed.

Lemma core_draining e : core e -> core (set_conn (conn e) true e).
Proof. intros Hc. apply (core_frame e); auto. Qed.

Lemma lifecycle_draining c e : lifecycle e -> conn e = Some c -> lifecycle (set_conn (conn e) true e).
Proof. intros [] Hc. split; cbn; [by rewrite Hc|done..]. Qed.

Lemma inv_cancel_data w q e :
  conn_inv e -> requests e !! w = Some q -> q_phase q = Waiting ->
  conn_inv (on_request (set_phase Done) w (cancelPendingDataRequest (q_id q) (q_conn q) e)).
Proof.
  intros (Hc & Hl & Hd) Hw Hph. unfold cancelPendingDataRequest.
  destruct (request_cases e w q Hc Hw ltac:(congruence)) as [[Hin Hok]|[Hin Hok]]; rewrite Hin.
  - assert (Hcon : conn e = Some (q_conn q)) by (apply Hok; by right). cbn [on_request set_requests conn].
    rewrite bool_decide_eq_true_2 by done. cbn [negb].
    change (conn_inv (on_request (set_phase Done) w
      (closeIfDrained (on_request abandon w (set_conn (conn e) true e))))).
    rewrite on_request_closeIfDrained by (done || (intros; apply set_phase_fail)). rewrite on_request_fuse.
    apply inv_closeIfDrained.
    + rewrite <- (set_pending_same (set_conn (conn e) true e)).
      apply (core_update (set_conn (conn e) true e) w q); [by apply core_draining|done|done|done|by left|].
      cbn. rewrite Hin, bool_decide_eq_true_2 by done. by apply q_ok_abandon.
    + eapply (lifecycle_frame (set_conn (conn e) true e)); try done. by eapply lifecycle_draining.
  - split; [|split].
    + rewrite <- (set_pending_same e). apply (core_update e w q); [done|done|done|done|by left|].
      rewrite Hin. by apply q_ok_done.
    + by apply (lifecycle_frame e).
    + intros Hg. rewrite hasLive_update by done. by apply Hd.
Qed.

Lemma inv_goaway c e : conn_inv e -> conn_inv (handleGoAway c e).
Proof.
  intros Hinv. unfold handleGoAway. case_bool_decide as Hcon; cbn; [|done].
  destruct (goAway e); [done|]. destruct Hinv as (Hc & Hl & _).
  change (conn_inv (closeIfDrained (set_conn (conn e) true e))).
  apply inv_closeIfDrained; [by apply core_draining|by eapply lifecycle_draining].
Qed.

Lemma inv_close err e : conn_inv e -> conn_inv (closeAndFail err e).
Proof. intros (Hc & Hl & _). apply inv_closeAndFail; [done|]. apply (life_retired e Hl). Qed.

Lemma inv_close_current c err e : conn_inv e -> conn_inv (closeConnAndFailPendingIfCurrent c err e).
Proof. intros H. unfold closeConnAndFailPendingIfCurrent. destruct (bool_decide _); [by apply inv_close|done]. Qed.

Lemma failNativePending_none err e : failNativePending ∅ err e = e.
Proof. unfold failNativePending. rewrite map_to_list_empty. by destruct e. Qed.

(** Delivering is: the entry goes, the request is answered, and the connection is
    closed when that was the last live request of a draining one. *)
Lemma deliverResponse_eq c f e :
  conn e = Some c ->
  (forall w q, pending e !! r_request f = Some w -> requests e !! w = Some q ->
    q_opcode q = r_opcode f /\ q_lane q = r_lane f) ->
  deliverResponse c f e =
    let e' := set_pending (delete (r_request f) (pending e)) e in
    closeIfDrained match pending e !! r_request f with Some w => on_request (deliver f) w e' | None => e' end.
Proof.
  intros Hc Hm. unfold deliverResponse. rewrite bool_decide_eq_true_2 by done. cbn [negb].
  replace (match pending e !! r_request f ≫= _ with Some q => _ | None => false end) with false.
  2:{ destruct (pending e !! r_request f) as [w|] eqn:Hp; [|done]. cbn.
      destruct (requests e !! w) as [q|] eqn:Hq; [|done].
      destruct (Hm w q eq_refl Hq) as [-> ->]. by rewrite !Z.eqb_refl. }
  cbv zeta. set (e' := set_pending (delete (r_request f) (pending e)) e).
  assert (Hab : forall q, q_abandoned (deliver f q) = q_abandoned q) by (by intros [? ? ? ? ? [] [] ? ? ?]).
  unfold closeIfDrained. destruct (pending e !! r_request f) as [w|].
  - rewrite hasLive_update by done. change (goAway (on_request (deliver f) w e')) with (goAway e').
    destruct (goAway e' && negb (hasLivePendingLocked e')); [done|]. apply failNativePending_none.
  - destruct (goAway e' && negb (hasLivePendingLocked e')); [done|]. apply failNativePending_none.
Qed.

Lemma inv_deliver c f e : conn_inv e -> conn_inv (deliverResponse c f e).
Proof.
  intros Hinv. pose proof Hinv as (Hc & Hl & Hd).
  destruct (decide (conn e = Some c)) as [Hcon|Hcon].
  2:{ unfold deliverResponse. by rewrite bool_decide_eq_false_2. }
  destruct (pending e !! r_request f) as [w|] eqn:Hp.
  - destruct (core_pending e Hc _ _ Hp) as (q & Hq & Hid).
    pose proof (core_request e Hc w q Hq) as Hok. unfold registered in Hok.
    rewrite bool_decide_eq_true_2 in Hok by congruence.
    destruct ((q_opcode q =? r_opcode f) && (q_lane q =? r_lane f)) eqn:Hm.
    2:{ unfold deliverResponse. rewrite bool_decide_eq_true_2, Hp by done. cbn. rewrite Hq. cbn.
        rewrite Hm. by apply inv_close_current. }
    apply andb_true_iff in Hm as [Hop%Z.eqb_eq Hlane%Z.eqb_eq].
    rewrite deliverResponse_eq, Hp; [|done|intros w' q' Hw' Hq'; by simplify_eq].
    apply inv_closeIfDrained; [|by apply (lifecycle_frame e)]. cbv zeta.
    apply (core_update e w q); [done|done| | |by right; rewrite Hid|].
    + by destruct q as [? ? ? ? ? [] [] ? ? ?].
    + by destruct q as [? ? ? ? ? [] [] ? ? ?].
    + rewrite Hid, lookup_delete_eq. by apply q_ok_deliver.
  - rewrite deliverResponse_eq, Hp by (done || congruence). cbv zeta.
    rewrite delete_id by done. rewrite set_pending_same. by apply inv_closeIfDrained.
Qed.

(** [nextRequestIDLocked]: what it returns, and that it returns. *)
Lemma nextRequestIDFrom_fresh fuel : forall last p id,
  nextRequestIDFrom fuel last p = Some id -> 0 < id < 2 ^ 64 /\ p !! id = None.
Proof.
  induction fuel as [|fuel IH]; intros last p id; cbn [nextRequestIDFrom]; [done|].
  destruct (Z.eqb_spec (wrap 64 (last + 1)) 0); [apply IH|].
  destruct (p !! wrap 64 (last + 1)) eqn:Hp; [apply IH|]. intros [= <-]. split; [|done].
  unfold wrap in *. pose proof (Z.mod_pos_bound (last + 1) (2 ^ 64) ltac:(lia)). lia.
Qed.

Lemma inv_add e e' w c opcode lane credit :
  conn_inv e -> requests e !! w = None ->
  (forall w' q', requests e !! w' = Some q' -> q_phase q' <> Done -> nextRequestID e <> Some (q_id q')) ->
  addPendingRequest w c opcode lane credit e = Some e' -> conn_inv e'.
Proof.
  intros (Hc & Hl & Hd) Hw Hfresh Hadd. unfold addPendingRequest in Hadd.
  destruct (nextRequestID e) as [id|] eqn:Hn; simplify_eq/=.
  destruct (nextRequestIDFrom_fresh _ _ _ _ Hn) as [Hid Hnone]. pose proof Hc as [Hp Hq Hu].
  assert (Hnew : forall v q, v <> w -> <[id := w]> (pending e) !! q_id q = Some v <-> pending e !! q_id q = Some v).
  { intros v q Hne. rewrite lookup_insert_Some. split; [by intros [[? ?]|[? ?]]|].
    intros Hv. right. split; [congruence|done]. }
  split; [split|split].
  - cbn. intros id' w' [[<- <-]|[Hne H]]%lookup_insert_Some.
    + rewrite lookup_insert_eq. by eexists.
    + destruct (Hp _ _ H) as (q & Hw' & <-). exists q. split; [|done]. rewrite lookup_insert_ne; [done|congruence].
  - unfold registered; cbn. intros v q [[<- <-]|[Hne H]]%lookup_insert_Some.
    + cbn. rewrite lookup_insert_eq, bool_decide_eq_true_2 by done.
      split; [done|]. split; [done|]. split; [by intros f ?%not_elem_of_nil|].
      split_and!; try done. by intros [?|?].
    + rewrite (bool_decide_ext _ _ (Hnew v q (not_eq_sym Hne))). by apply Hq.
  - unfold registered; cbn. intros v v' q q' [[<- <-]|[Hne H]]%lookup_insert_Some
      [[<- <-]|[Hne' H']]%lookup_insert_Some Hids Hph Hor; [done| | |].
    + cbn in Hids. destruct Hor as [Hor|Hor]; [by destruct (Hfresh v' q' H' Hor); rewrite Hids|].
      rewrite bool_decide_eq_true, (Hnew v' q' (not_eq_sym Hne')) in Hor. by rewrite <- Hids, Hnone in Hor.
    + cbn in Hids. by destruct (Hfresh v q H Hph); rewrite Hids.
    + apply (Hu v v' q q'); [done..|]. destruct Hor as [Hor|Hor]; [by left|right].
      by rewrite (bool_decide_ext _ _ (Hnew v' q' (not_eq_sym Hne'))) in Hor.
  - by apply (lifecycle_frame e).
  - intros _. apply existsb_exists. exists (id, w). split.
    + apply list_elem_of_In, elem_of_map_to_list, lookup_insert_eq.
    + unfold isLive; cbn. by rewrite lookup_insert_eq.
Qed.

(** Identifiers that the loop has passed over. *)
Lemma nextRequestIDFrom_none fuel : forall last p,
  nextRequestIDFrom fuel last p = None ->
  forall i, (i < fuel)%nat -> wrap 64 (last + 1 + Z.of_nat i) ∈ ({[0]} ∪ dom p : gset Z).
Proof.
  induction fuel as [|fuel IH]; intros last p Hnone i Hi; [lia|]. cbn [nextRequestIDFrom] in Hnone.
  assert (Hrest : nextRequestIDFrom fuel (wrap 64 (last + 1)) p = None /\
    wrap 64 (last + 1) ∈ ({[0]} ∪ dom p : gset Z)).
  { destruct (Z.eqb_spec (wrap 64 (last + 1)) 0) as [->|Hnz]; [split; [done|set_solver]|].
    destruct (p !! wrap 64 (last + 1)) eqn:Hp; [|done]. split; [done|].
    apply elem_of_union_r, elem_of_dom. by eexists. }
  destruct Hrest as [Hrest Hhere]. destruct i as [|i]; [by rewrite Z.add_0_r|].
  specialize (IH _ _ Hrest i ltac:(lia)). unfold wrap in *.
  replace (last + 1 + Z.of_nat (S i)) with ((last + 1) + (1 + Z.of_nat i)) by lia.
  rewrite <- Z.add_assoc, Zplus_mod_idemp_l in IH. done.
Qed.

Lemma nextRequestID_total e :
  Z.of_nat (size (pending e)) + 2 <= 2 ^ 64 -> exists id, nextRequestID e = Some id.
Proof.
  intros Hsize. destruct (nextRequestID e) as [id|] eqn:Hn; [by exists id|exfalso].
  set (n := S (S (size (pending e)))) in *.
  pose proof (nextRequestIDFrom_none n (nextID e) (pending e) Hn) as Hall.
  set (ids := (fun i => wrap 64 (nextID e + 1 + Z.of_nat i)) <$> seq 0 n).
  assert (Hnd : NoDup ids).
  { apply NoDup_fmap_2_strong; [|apply NoDup_seq]. intros i j Hi%elem_of_seq Hj%elem_of_seq Heq.
    unfold wrap in Heq. pose proof (Z.div_mod (nextID e + 1 + Z.of_nat i) (2 ^ 64) ltac:(lia)).
    pose proof (Z.div_mod (nextID e + 1 + Z.of_nat j) (2 ^ 64) ltac:(lia)). lia. }
  assert (Hsub : list_to_set ids ⊆ ({[0]} ∪ dom (pending e) : gset Z)).
  { intros x (i & -> & Hi%elem_of_seq)%elem_of_list_to_set%list_elem_of_fmap. apply Hall. lia. }
  apply subseteq_size in Hsub. rewrite size_list_to_set in Hsub by done.
  unfold ids in Hsub. rewrite length_fmap, length_seq in Hsub.
  pose proof (size_union_alt ({[0]} : gset Z) (dom (pending e))) as Hu.
  assert (size (dom (pending e) ∖ {[0%Z]} : gset Z) <= size (dom (pending e) : gset Z))%nat by (apply subseteq_size, subseteq_difference_l; done).
  rewrite size_singleton in Hu. rewrite size_dom in *. lia.
Qed.

(** *** The other sections *)

Lemma inv_nextID e id :
  conn_inv e ->
  conn_inv (Executor (conn e) (goAway e) (isClosed e) (retiring e) (activeRequests e) (connecting e) id
              (pending e) (requests e) (conns e)).
Proof. intros (Hc & Hl & Hd). split; [by apply (core_frame e); auto|]. split; [by apply (lifecycle_frame e)|done]. Qed.

Lemma inv_closeExecutor e : core e -> conn_inv (closeExecutor e).
Proof. intros Hc. apply inv_closeAndFail; [|done]. apply (core_frame e); auto. Qed.

Lemma inv_begin e e' : conn_inv e -> beginRequest e = Some e' -> conn_inv e'.
Proof.
  intros (Hc & [] & Hd) Hb. unfold beginRequest in Hb.
  destruct (isClosed e || retiring e) eqn:Hr; simplify_eq. apply orb_false_iff in Hr as [Hcl Hr].
  split; [by apply (core_frame e); auto|]. split; [|done]. split; cbn; [done..|]. congruence.
Qed.

Lemma inv_end e : conn_inv e -> conn_inv (endRequest e).
Proof.
  intros (Hc & Hl & Hd). unfold endRequest. cbv zeta.
  destruct (_ || isClosed _) eqn:Hb; cbn in Hb.
  - split; [by apply (core_frame e); auto|]. split; [|done]. destruct Hl. split; cbn; [done..|].
    intros Hr Ha. rewrite Hr, Ha in Hb. by destruct (isClosed e).
  - apply inv_closeExecutor. by apply (core_frame e); auto.
Qed.

Lemma inv_retire e : conn_inv e -> conn_inv (retire e).
Proof.
  intros Hinv. pose proof Hinv as (Hc & Hl & Hd). unfold retire. destruct (isClosed e || retiring e); [done|]. cbv zeta.
  destruct (negb _) eqn:Ha; cbn in Ha.
  - split; [by apply (core_frame e); auto|]. split; [|done]. destruct Hl. split; cbn; [done..|].
    intros _ Hz. by rewrite Hz in Ha.
  - apply inv_closeExecutor. by apply (core_frame e); auto.
Qed.

Lemma inv_connect_start e : conn_inv e -> conn_inv (startConnect e).
Proof.
  intros Hinv. unfold startConnect. case_bool_decide as Hcon; [|done].
  destruct (isClosed e || retiring e); [done|]. destruct Hinv as (Hc & Hl & Hd). cbn.
  split; [by apply (core_frame e); auto|]. split; [|done]. destruct Hl. by split.
Qed.

Lemma inv_connect_end ok e : conn_inv e -> conn_inv (finishConnect ok e).
Proof.
  intros (Hc & Hl & Hd). unfold finishConnect.
  destruct (ok && connecting e && negb (isClosed e || retiring e)) eqn:Hb.
  - apply andb_true_iff in Hb as [[_ Hcn]%andb_true_iff [Hcl Hr]%negb_true_iff%orb_false_iff].
    destruct Hl as [Hg Hcc Hcl' Hre]. specialize (Hcc Hcn).
    split; [apply (core_frame e); auto|]. split; [|done]. split; cbn; congruence || done.
  - split; [by apply (core_frame e); auto|]. split; [|done]. destruct Hl. by split.
Qed.

Lemma conn_step_inv e e' : conn_inv e -> conn_step e e' -> conn_inv e'.
Proof.
  intros Hinv Hstep. revert Hinv.
  destruct Hstep as [e e' Hb|e|e|e|e|e ok|e e' Hn|e e' w c opcode lane credit Hw Hc Hf Ha|e w q Hw Hph Hno Hcon Hg
    |e w q Hw Hph|e w q Hw Hph|e w q r replies Hw Hph Hr|e w q Hw Hph Hno|e w q Hw Hph|e c f|e c f Hf|e c Hno
    |e c err|e opcode lane a err Hret|e err]; intros Hinv.
  - by eapply inv_begin.
  - by apply inv_end.
  - by apply inv_retire.
  - unfold Close. destruct (isClosed e); [done|]. apply inv_closeExecutor, Hinv.
  - by apply inv_connect_start.
  - by apply inv_connect_end.
  - unfold nativeHandshakeRequestID in Hn. destruct (nextRequestID e); simplify_eq/=. by apply inv_nextID.
  - by eapply inv_add.
  - eapply inv_phase; [done..|congruence|done|done].
  - eapply inv_phase; [done..|congruence|done|]. intros Hin.
    destruct (request_cases e w q) as [[? Hok]|[? ?]]; [apply Hinv|done|congruence| |congruence].
    apply Hok. by left.
  - apply inv_withdraw; [done..|]. destruct Hph; congruence.
  - eapply inv_receive; [done..|congruence|done].
  - by apply inv_cancel_data.
  - apply inv_withdraw; [done..|]. congruence.
  - unfold validateNativeWireFrameTuple. destruct (negb _); [done|].
    destruct (frameMatches e f); [done|by apply inv_close_current].
  - by apply inv_deliver.
  - by apply inv_goaway.
  - by apply inv_close_current.
  - by apply inv_close.
  - unfold closeConnAndFailPendingUnlessRetiring. destruct (_ || _); [done|by apply inv_close].
Qed.

Lemma conn_reachable_inv e : conn_reachable e -> conn_inv e.
Proof.
  induction 1 as [|e e' _ IH Hs]; [|by eapply conn_step_inv].
  split; [|by split; [split|]]. split; cbn; [by intros ? ? H%lookup_empty_Some..|by intros ? ? ? ? H%lookup_empty_Some].
Qed.

(** ** Properties *)

Definition answers (r : reply) (q : nativePendingRequest) : Prop :=
  match r with
  | ReplyFrame f => r_request f = q_id q /\ r_opcode f = q_opcode q /\ r_lane f = q_lane q
  | ReplyError _ => True
  end.

(** C4: in every interleaving, a request that waits for its response either is
    still registered under its identifier on the connection it was written to and
    has no reply, or has been taken out of the map and has exactly one reply, an
    error or a response with its identifier, opcode and lane: no request is lost,
    answered twice (a second send would block the reader for ever) or given the
    response to another one. *)
Theorem request_exactly_one_reply (e : executor) (w : nat) (q : nativePendingRequest) :
  conn_reachable e -> requests e !! w = Some q -> q_phase q = Waiting ->
  (pending e !! q_id q = Some w /\ conn e = Some (q_conn q) /\ q_replies q = []) \/
  (pending e !! q_id q = None /\ exists r, q_replies q = [r] /\ answers r q).
Proof.
  intros (Hc & _ & _)%conn_reachable_inv Hw Hph.
  destruct (request_cases e w q Hc Hw ltac:(congruence)) as [[Hin Hok]|[Hin Hok]].
  - left. destruct Hok as (_ & _ & _ & Hnil & _ & _ & _ & Hcon). split; [done|]. split; [apply Hcon; by right|done].
  - right. split; [done|]. destruct Hok as (_ & _ & Hrep & _ & _ & Hlen & Hne).
    destruct (q_replies q) as [|r [|r' l]] eqn:Hr; [by destruct Hne; [congruence|]| |cbn in Hlen; lia].
    exists r. split; [done|]. destruct r as [f|err]; [|done]. apply Hrep, list_elem_of_here.
Qed.

(** The flow credit of a request is released exactly once: not while the
    request is registered, and once it is taken out of the map, by whichever of its
    response, the failure of its write, a cancellation, the closing of the
    connection or of the executor. *)
Theorem request_credit_released_once (e : executor) (w : nat) (q : nativePendingRequest) :
  conn_reachable e -> requests e !! w = Some q ->
  q_released q = (if bool_decide (pending e !! q_id q = Some w) then 0 else if q_uses q then 1 else 0)%nat.
Proof.
  intros (Hc & _ & _)%conn_reachable_inv Hw. destruct (core_request e Hc w q Hw) as (_ & _ & _ & Hok).
  unfold registered in Hok. destruct (bool_decide _); apply Hok.
Qed.

(** A connection that drains (after GOAWAY or after a cancellation) still has
    a registered request that its caller waits for: it is closed together with the
    last one, so draining ends. An executor that is closed, or retired with no
    request inside, has no connection. *)
Theorem draining_connection_is_live (e : executor) :
  conn_reachable e ->
  (goAway e = true -> exists c id w q,
     conn e = Some c /\ pending e !! id = Some w /\ requests e !! w = Some q /\ q_phase q <> Done) /\
  (isClosed e = true \/ (retiring e = true /\ activeRequests e = 0%nat) -> conn e = None).
Proof.
  intros (Hc & Hl & Hd)%conn_reachable_inv. split.
  - intros Hg. pose proof (life_draining e Hl Hg) as Hcon. destruct (conn e) as [c|] eqn:Hce; [|done].
    specialize (Hd Hg). apply existsb_exists in Hd as ([id w] & Hin & Hlive). cbn in Hlive.
    apply list_elem_of_In, elem_of_map_to_list in Hin. unfold isLive in Hlive.
    destruct (requests e !! w) as [q|] eqn:Hw; [|done]. exists c, id, w, q. split_and!; [done..|].
    intros Hdone. destruct (core_pending e Hc _ _ Hin) as (q' & Hw' & Hid). simplify_eq.
    destruct (core_request e Hc w q Hw) as (_ & _ & _ & Hok). unfold registered in Hok.
    rewrite bool_decide_eq_true_2 in Hok by done. destruct Hok as (_ & _ & _ & Hab & _).
    by rewrite Hab in Hlive.
  - intros [Hcl|[Hr Ha]]; [by apply (life_closed e Hl)|]. apply (life_closed e Hl). by apply (life_retired e Hl).
Qed.

(** The identifier of a new request is found after at most two more tries than
    there are registered requests; it is a nonzero 64-bit number that no registered
    request has. *)
Theorem request_identifier_fresh (e : executor) :
  Z.of_nat (size (pending e)) + 2 <= 2 ^ 64 ->
  exists id, nextRequestID e = Some id /\ 0 < id < 2 ^ 64 /\ pending e !! id = None.
Proof.
  intros [id Hid]%nextRequestID_total. exists id. split; [done|]. by eapply nextRequestIDFrom_fresh.
Qed.

End Connection.

(** ** A run: a connection is opened; a request is registered, written and waits *)

Definition opened : executor (V := unit) := finishConnect true (startConnect newNativeExecutor).
Definition added (c : nat) (e : executor (V := unit)) : executor :=
  default e (addPendingRequest 0 c 257 1 true e).
Definition writing (c : nat) (e : executor) : executor := on_request (set_phase Writing) 0 (added c e).
Definition sent (c : nat) (e : executor) : executor := on_request (set_phase Waiting) 0 (writing c e).
Definition waiting : executor := sent 0 opened.
Definition example_answer : nativeResponse := Response 0 1 257 1 0 (Compact tt) 2.
Definition replied : executor := deliverResponse 0 example_answer waiting.

Lemma opened_reachable : conn_reachable opened.
Proof.
  eapply conn_next; [eapply conn_next; [apply conn_start|apply StepConnectStart]|apply (StepConnectEnd _ true)].
Qed.

(** A fresh executor with a connection can register, write and wait. *)
Lemma sent_reachable c e :
  conn_reachable e -> requests e = ∅ -> pending e = ∅ -> nextID e = 0 -> conn e = Some c -> goAway e = false ->
  (c < conns e)%nat -> conn_reachable (sent c e).
Proof.
  intros He Hr Hp Hid Hc Hg Hlt.
  assert (Hadd : addPendingRequest 0 c 257 1 true e = Some (added c e)).
  { unfold added, addPendingRequest, nextRequestID. by rewrite Hp, Hid. }
  assert (Hreq : requests (added c e) = <[0%nat := Pending 1 c 257 1 Registered true false [] true 0]> ∅).
  { unfold added, addPendingRequest, nextRequestID. rewrite Hp, Hid. cbn. by rewrite Hr. }
  assert (Hall : forall w q, requests (added c e) !! w = Some q -> q = Pending 1 c 257 1 Registered true false [] true 0).
  { intros w q. rewrite Hreq. intros [[_ <-]|[_ Hq]]%lookup_insert_Some; [done|].
    by destruct (lookup_empty_Some (M := gmap nat) _ _ Hq). }
  assert (Hsame : conn (added c e) = conn e /\ goAway (added c e) = goAway e).
  { unfold added, addPendingRequest, nextRequestID. by rewrite Hp, Hid. }
  destruct Hsame as [Hcon Hga].
  apply conn_next with (e := writing c e); [apply conn_next with (e := added c e)|].
  - eapply conn_next; [exact He|]. apply (StepAdd e (added c e) 0 c 257 1 true); [by rewrite Hr|done| |done].
    rewrite Hr. intros w q Hq. by destruct (lookup_empty_Some (M := gmap nat) _ _ Hq).
  - eapply (StepWrite _ 0); [by rewrite Hreq, lookup_insert_eq|done| |by rewrite Hcon|congruence].
    intros w q ->%Hall. done.
  - apply (StepWritten (writing c e) 0 (Pending 1 c 257 1 Writing true false [] true 0)); [|reflexivity].
    unfold writing. cbn [on_request set_requests requests]. by rewrite lookup_alter_eq, Hreq, lookup_insert_eq.
Qed.

Lemma waiting_reachable : conn_reachable waiting.
Proof. apply sent_reachable; [apply opened_reachable|done..|]. cbn. lia. Qed.

Lemma replied_reachable : conn_reachable replied.
Proof. eapply conn_next; [apply waiting_reachable|by apply StepDeliver]. Qed.

Lemma request_exactly_one_reply_witness :
  exists q, requests replied !! 0%nat = Some q /\ q_replies q = [ReplyFrame example_answer] /\
    ((pending replied !! q_id q = Some 0%nat /\ conn replied = Some (q_conn q) /\ q_replies q = []) \/
     (pending replied !! q_id q = None /\ exists r, q_replies q = [r] /\ answers r q)).
Proof.
  eexists. split; [reflexivity|]. split; [reflexivity|].
  apply (request_exactly_one_reply replied 0); [apply replied_reachable|reflexivity|reflexivity].
Defined.

Lemma request_credit_released_once_witness :
  exists q, requests replied !! 0%nat = Some q /\
    q_released q = (if bool_decide (pending replied !! q_id q = Some 0%nat) then 0 else if q_uses q then 1 else 0)%nat /\
    q_released q = 1%nat.
Proof.
  eexists. split; [reflexivity|]. split; [|reflexivity].
  apply (request_credit_released_once replied 0); [apply replied_reachable|reflexivity].
Defined.

Lemma draining_connection_is_live_witness :
  conn replied = Some 0%nat /\ goAway (handleGoAway 0 waiting) = true /\
  (goAway (handleGoAway 0 waiting) = true -> exists c id w q,
     conn (handleGoAway 0 waiting) = Some c /\ pending (handleGoAway 0 waiting) !! id = Some w /\
     requests (handleGoAway 0 waiting) !! w = Some q /\ q_phase q <> Done).
Proof.
  split; [reflexivity|]. split; [reflexivity|]. apply draining_connection_is_live.
  eapply conn_next; [apply waiting_reachable|]. apply StepGoAway. intros w q Hq.
  change (requests waiting) with (alter (set_phase Waiting) 0%nat (requests (writing 0 opened))) in Hq.
  apply lookup_alter_Some in Hq as [[_ (q' & _ & ->)]|[Hne Hq]]; [done|].
  unfold writing in Hq. cbn [on_request set_requests requests] in Hq. rewrite lookup_alter_ne in Hq by done.
  change (requests (added 0 opened)) with
    (<[0%nat := Pending 1 0 257 1 Registered true false [] true 0]> (requests opened)) in Hq.
  rewrite lookup_insert_ne in Hq by done. by destruct (lookup_empty_Some (M := gmap nat) _ _ Hq).
Defined.

Lemma request_identifier_fresh_witness :
  Z.of_nat (size (pending waiting)) + 2 <= 2 ^ 64 /\
  exists id, nextRequestID waiting = Some id /\ 0 < id < 2 ^ 64 /\ pending waiting !! id = None.
Proof.
  assert (H : Z.of_nat (size (pending waiting)) + 2 <= 2 ^ 64) by (vm_compute; discriminate).
  split; [exact H|]. exact (request_identifier_fresh waiting H).
Defined.

(** ** A retry that closes somebody else's connection *)

(** The attempt of a caller whose connection was replaced before it had a credit:
    nothing was written, and the loop may reconnect. *)
Definition replaced_attempt : attempt :=
  Attempt None None true None (Some (ErrWrap (go "connection changed") connUnavailable))
    (WriteRefused netClosed) (Cancelled CtxCanceled) None.

Definition replaced_error : goError := markCommandNotSent (ErrWrap (go "connection changed") connUnavailable).

(** The first connection fails, a second one is opened, and a request is written to it. *)
Definition reopened : executor (V := unit) :=
  finishConnect true (startConnect (closeConnAndFailPendingIfCurrent 0 (ErrSentinel errEOF) opened)).

(** The retry of a request that found its connection replaced closes the
    current connection, not the one it used, and hands its own error to every
    request in flight there: a request that was written and is waited for fails
    with an error that says it was not sent, on which callers repeat mutations. *)
Theorem retry_misreports_sent_request :
  let e := closeConnAndFailPending replaced_error (sent 1 reopened) in
  requestOnce 257 1 replaced_attempt = (Err replaced_error, true) /\
  conn_reachable (sent 1 reopened) /\ conn_reachable e /\
  exists q, requests (sent 1 reopened) !! 0%nat = Some q /\ q_phase q = Waiting /\ q_replies q = [] /\
    requests e !! 0%nat = Some (failRequest replaced_error q) /\
    q_replies (failRequest replaced_error q) = [ReplyError replaced_error] /\
    forall sprint, durableMutationDefinitelyRejected sprint replaced_error = true.
Proof.
  assert (Hret : requestOnce 257 1 replaced_attempt = (Err replaced_error, true)) by (vm_compute; reflexivity).
  assert (Hsent : conn_reachable (sent 1 reopened)).
  { apply sent_reachable; [|done..|vm_compute; constructor]. eapply conn_next; [|apply (StepConnectEnd _ true)].
    eapply conn_next; [|apply StepConnectStart].
    eapply conn_next; [apply opened_reachable|apply (StepDisconnect _ 0 (ErrSentinel errEOF))]. }
  split; [exact Hret|]. split; [exact Hsent|]. split; [eapply conn_next; [exact Hsent|by eapply StepRetryClose]|].
  eexists. do 5 (split; [reflexivity|]). done.
Qed.

(** ** A heartbeat that repeats somebody else's request *)

(** The server's answer to the PING of a heartbeat: busy, to be tried again. *)
Definition ping_busy : NativeError := Native nativeStatusBusy [] busy_value.

Definition busy_ping (i : nat) : round :=
  Round None (example_attempt Written (Replied nativeOpPing 0 nativeStatusBusy busy_value)) true true None true false.

(** A request whose connection is closed with the heartbeat's error while it waits,
    and which is answered when it is sent again. *)
Definition beaten_rounds : list attempt := [
  example_attempt Written (RepliedError (CloseOther (ErrNative ping_busy)));
  example_attempt Written (Replied 257 1 nativeStatusOK (VString (go "OK")))].

Definition beaten_world (i : nat) : round :=
  Round None (default (example_attempt (WriteRefused netClosed) (Cancelled CtxCanceled)) (beaten_rounds !! i))
    true true None true false.

(** The heartbeat hands the error of its own PING to every request in flight: when
    the server answers two PINGs in a row as busy and to be tried again, a request
    that was written, and that the server did not refuse, fails with that answer, and
    its retry loop writes it to the server a second time. *)
Theorem heartbeat_repeats_sent_request :
  request nativeOpPing 0 nativeReplayDefault 1 busy_ping 3 = Some (Err (ErrNative ping_busy), 2%nat) /\
  (let e := closeConnAndFailPendingUnlessRetiring (ErrNative ping_busy) waiting in
   conn_reachable e /\
   exists q, requests waiting !! 0%nat = Some q /\ q_phase q = Waiting /\
     requests e !! 0%nat = Some (failRequest (ErrNative ping_busy) q) /\
     q_replies (failRequest (ErrNative ping_busy) q) = [ReplyError (ErrNative ping_busy)]) /\
  request 257 1 nativeReplayDefault 1 beaten_world 3 = Some (Ok (VString (go "OK")), 2%nat) /\
  writes 257 beaten_world 0 2 = 2%nat /\ ~ refused 257 1 beaten_world 0.
Proof.
  split; [vm_compute; reflexivity|]. split.
  { split; [eapply conn_next; [apply waiting_reachable|apply StepHeartbeat]|].
    eexists. do 3 (split; [reflexivity|]). reflexivity. }
  split; [vm_compute; reflexivity|]. split; [vm_compute; reflexivity|].
  intros (err & _ & _ & [(op & l & st & v & H)|(e & H)]); done.
Qed.
