(* ===== verification/CompactPipeline.v ===== *)
(** The compact request form of a pipeline of SET, GET, XADD or PUBLISH commands
    (src/native_pipeline.go): recognising such a pipeline, computing the size of
    its encoding within the frame limit before encoding, and the encoding. A reader of the
    form that shares nothing with the writer ([readPipeline]) reads the commands back. *)

From S2P Require Export Commands.

Abbreviation command := (list arg).

Definition nativeCompactPipelineRequest : byte := x94.
Definition nativeCompactPipelineHeaderBytes : Z := 6.
Definition nativeCompactStreamXAddMaxFieldPairs : Z := 65535.

(** The markers of the four forms. *)
Inductive planKind := PlanSet | PlanGet | PlanXAdd | PlanPublish.

Definition kindByte (k : planKind) : byte :=
  match k with PlanSet => x81 | PlanGet => x82 | PlanXAdd => xa2 | PlanPublish => xa3 end.

Record nativeCompactPipelinePlan := Plan {
  p_kind : planKind;
  p_commands : list command;
  p_size : Z;
}.

(** [(plan, ok, err)]: not this form, over the limit, a plan. *)
Inductive planResult := NoPlan | PlanLimit | PlanOk (p : nativeCompactPipelinePlan).

(** [compactBytes]. *)
Definition compactBytes (a : arg) : option gstr :=
  match a with Arg (VBytes s) | Arg (VString s) => Some s | _ => None end.

(** The loop over the commands: [step] checks one and advances the size. *)
Fixpoint planLoop (k : planKind) (all : list command) (step : command -> Z -> option (option Z))
  (size : Z) (commands : list command) : planResult :=
  match commands with
  | [] => PlanOk (Plan k all size)
  | c :: rest =>
      match step c size with
      | None => NoPlan
      | Some None => PlanLimit
      | Some (Some size) => planLoop k all step size rest
      end
  end.

Definition compactPlan (k : planKind) (limit : Z) (step : command -> Z -> option (option Z))
  (commands : list command) : planResult :=
  if limit <? nativeCompactPipelineHeaderBytes then PlanLimit
  else planLoop k commands step nativeCompactPipelineHeaderBytes commands.

(** One command of [compactSetPipelinePlanWithLimit] and
    [compactPubSubPublishPipelinePlanWithLimit]. *)
Definition pairStep (name : gstr) (limit : Z) (c : command) (size : Z) : option (option Z) :=
  match c with
  | [verb; a; b] =>
      if negb (is_part name verb) then None
      else match compactBytes a, compactBytes b with
      | Some key, Some value =>
          let remaining := limit - size in
          if (remaining <? 8) || (remaining - 8 <? blen key) then Some None
          else
            let remaining := remaining - (8 + blen key) in
            if remaining <? blen value then Some None
            else Some (Some (limit - (remaining - blen value)))
      | _, _ => None
      end
  | _ => None
  end.

Definition compactSetPipelinePlanWithLimit (commands : list command) (limit : Z) : planResult :=
  compactPlan PlanSet limit (pairStep (go "SET") limit) commands.

Definition compactPubSubPublishPipelinePlanWithLimit (commands : list command) (limit : Z) : planResult :=
  compactPlan PlanPublish limit (pairStep (go "PUBLISH") limit) commands.

Definition getStep (limit : Z) (c : command) (size : Z) : option (option Z) :=
  match c with
  | [verb; a] =>
      if negb (is_part (go "GET") verb) then None
      else match compactBytes a with
      | Some key =>
          let remaining := limit - size in
          if (remaining <? 4) || (remaining - 4 <? blen key) then Some None
          else Some (Some (size + (4 + blen key)))
      | None => None
      end
  | _ => None
  end.

Definition compactGetPipelinePlanWithLimit (commands : list command) (limit : Z) : planResult :=
  compactPlan PlanGet limit (getStep limit) commands.

Definition compactStreamXAddPairCount (c : command) : option Z :=
  match c with
  | verb :: _ :: id :: fields =>
      if (blen c <? 5) || negb ((blen c - 3) mod 2 =? 0) || negb (is_part (go "XADD") verb) ||
         negb (is_part (go "*") id)
      then None
      else
        let pairCount := (blen c - 3) / 2 in
        if pairCount <=? nativeCompactStreamXAddMaxFieldPairs then Some pairCount else None
  | _ => None
  end.

Fixpoint fieldLoop (remaining : Z) (fields : list arg) : option (option Z) :=
  match fields with
  | [] => Some (Some remaining)
  | raw :: fields =>
      match compactBytes raw with
      | None => None
      | Some value =>
          if (remaining <? 4) || (remaining - 4 <? blen value) then Some None
          else fieldLoop (remaining - (4 + blen value)) fields
      end
  end.

Definition xaddStep (limit : Z) (c : command) (size : Z) : option (option Z) :=
  match compactStreamXAddPairCount c, c with
  | Some _, _ :: rawKey :: _ :: fields =>
      match compactBytes rawKey with
      | None => None
      | Some key =>
          let remaining := limit - size in
          if (remaining <? 6) || (remaining - 6 <? blen key) then Some None
          else match fieldLoop (remaining - (6 + blen key)) fields with
          | None => None
          | Some None => Some None
          | Some (Some remaining) => Some (Some (limit - remaining))
          end
      end
  | _, _ => None
  end.

Definition compactStreamXAddPipelinePlanWithLimit (commands : list command) (limit : Z) : planResult :=
  compactPlan PlanXAdd limit (xaddStep limit) commands.

Definition compactPipelinePlanWithLimit (commands : list command) (limit : Z) : planResult :=
  match commands with
  | (verb :: _) :: _ =>
      if is_part (go "SET") verb then compactSetPipelinePlanWithLimit commands limit
      else if is_part (go "GET") verb then compactGetPipelinePlanWithLimit commands limit
      else if is_part (go "XADD") verb then compactStreamXAddPipelinePlanWithLimit commands limit
      else if is_part (go "PUBLISH") verb then compactPubSubPublishPipelinePlanWithLimit commands limit
      else NoPlan
  | _ => NoPlan
  end.

(** ** The encoding *)

Definition appendCompactBinary (payload value : gstr) : gstr :=
  payload ++ be_encode 4 (wrap 32 (blen value)) ++ value.

(** [value, _ := compactBytes(raw)]. *)
Definition bytesOf (c : command) (i : nat) : gstr := default [] (c !! i ≫= compactBytes).

Definition encodeCommand (k : planKind) (payload : gstr) (c : command) : gstr :=
  let payload := appendCompactBinary payload (bytesOf c 1) in
  match k with
  | PlanSet | PlanPublish => appendCompactBinary payload (bytesOf c 2)
  | PlanXAdd =>
      let payload := payload ++ be_encode 2 (wrap 16 (default 0 (compactStreamXAddPairCount c))) in
      foldl (fun payload raw => appendCompactBinary payload (default [] (compactBytes raw))) payload (drop 3 c)
  | PlanGet => payload
  end.

(** [nativeCompactPipelinePlan.encode]. *)
Definition encode (p : nativeCompactPipelinePlan) : gstr :=
  foldl (encodeCommand (p_kind p))
    ([nativeCompactPipelineRequest; kindByte (p_kind p)] ++ be_encode 4 (wrap 32 (blen (p_commands p))))
    (p_commands p).

(** [nativeCompactPipelinePlan.encodeNativeCustomPayload]; [None] is the limit error. *)
Definition encodeNativeCustomPayload (p : nativeCompactPipelinePlan) (limit : Z) : option gstr :=
  if limit <? p_size p then None else Some (encode p).

(** ** Sizes *)

Definition fieldBytes (raw : arg) : Z := 4 + blen (default [] (compactBytes raw)).
Definition fieldsBytes (fields : list arg) : Z := zsum (fieldBytes <$> fields).

Lemma fieldsBytes_cons raw fields : fieldsBytes (raw :: fields) = fieldBytes raw + fieldsBytes fields.
Proof. done. Qed.

Definition commandBytes (k : planKind) (c : command) : Z :=
  4 + blen (bytesOf c 1) +
  match k with
  | PlanSet | PlanPublish => 4 + blen (bytesOf c 2)
  | PlanXAdd => 2 + fieldsBytes (drop 3 c)
  | PlanGet => 0
  end.

Definition planBytes (k : planKind) (commands : list command) : Z :=
  nativeCompactPipelineHeaderBytes + zsum (commandBytes k <$> commands).

Lemma blen_appendCompactBinary payload value :
  blen (appendCompactBinary payload value) = blen payload + 4 + blen value.
Proof. unfold appendCompactBinary. autorewrite with ferric. lia. Qed.

Lemma blen_appendFields fields : forall payload,
  blen (foldl (fun payload raw => appendCompactBinary payload (default [] (compactBytes raw))) payload fields) =
  blen payload + fieldsBytes fields.
Proof.
  induction fields as [|raw fields IH]; intros payload; cbn [foldl].
  - unfold fieldsBytes, zsum. cbn. lia.
  - rewrite IH, blen_appendCompactBinary, fieldsBytes_cons. unfold fieldBytes. lia.
Qed.

Lemma blen_encodeCommand k payload c : blen (encodeCommand k payload c) = blen payload + commandBytes k c.
Proof.
  unfold encodeCommand, commandBytes. destruct k; rewrite ?blen_appendFields, ?blen_appendCompactBinary; try lia.
  autorewrite with ferric. rewrite blen_appendCompactBinary. lia.
Qed.

Lemma blen_encode p : blen (encode p) = planBytes (p_kind p) (p_commands p).
Proof.
  unfold encode, planBytes.
  assert (H : forall cs payload, blen (foldl (encodeCommand (p_kind p)) payload cs) =
    blen payload + zsum (commandBytes (p_kind p) <$> cs)).
  { induction cs as [|c cs IH]; intros payload; cbn [foldl fmap list_fmap].
    - unfold zsum. cbn. lia.
    - rewrite IH, blen_encodeCommand. unfold zsum. cbn [foldr]. lia. }
  rewrite H. unfold nativeCompactPipelineHeaderBytes, blen. cbn [app length]. rewrite length_be_encode. lia.
Qed.

(** What one step of a loop promises. *)
Definition step_exact (k : planKind) (limit : Z) (step : command -> Z -> option (option Z)) : Prop :=
  forall c size, size <= limit ->
  match step c size with
  | Some (Some size') => size' = size + commandBytes k c /\ size' <= limit
  | Some None => limit < size + commandBytes k c
  | None => True
  end.

Lemma pair_exact k name limit : (k = PlanSet \/ k = PlanPublish) -> step_exact k limit (pairStep name limit).
Proof.
  intros Hk c size Hs. unfold pairStep. destruct c as [|verb [|a [|b [|]]]]; try done.
  destruct (negb (is_part name verb)); [done|]. unfold commandBytes, bytesOf. cbn [lookup list_lookup].
  destruct (compactBytes a) as [key|] eqn:Ha; [|done]. destruct (compactBytes b) as [value|] eqn:Hb; [|done].
  cbn. rewrite Ha, Hb. cbn. pose proof (blen_nonneg key). pose proof (blen_nonneg value).
  destruct (Z.ltb_spec (limit - size) 8), (Z.ltb_spec (limit - size - 8) (blen key)),
    (Z.ltb_spec (limit - size - (8 + blen key)) (blen value)); cbn; destruct Hk as [-> | ->]; lia.
Qed.

Lemma get_exact limit : step_exact PlanGet limit (getStep limit).
Proof.
  intros c size Hs. unfold getStep. destruct c as [|verb [|a [|]]]; try done.
  destruct (negb _); [done|]. unfold commandBytes, bytesOf. cbn.
  destruct (compactBytes a) as [key|] eqn:Ha; [|done]. cbn. pose proof (blen_nonneg key).
  destruct (Z.ltb_spec (limit - size) 4), (Z.ltb_spec (limit - size - 4) (blen key)); cbn; lia.
Qed.

Lemma fieldBytes_some raw value : compactBytes raw = Some value -> fieldBytes raw = 4 + blen value.
Proof. unfold fieldBytes. by intros ->. Qed.

Lemma fieldsBytes_nonneg fields : 0 <= fieldsBytes fields.
Proof.
  apply zsum_nonneg, Forall_fmap, Forall_true. intros raw. cbn. unfold fieldBytes.
  pose proof (blen_nonneg (default [] (compactBytes raw))). lia.
Qed.

Lemma field_exact fields : forall remaining, 0 <= remaining ->
  match fieldLoop remaining fields with
  | Some (Some rest) => rest = remaining - fieldsBytes fields /\ 0 <= rest
  | Some None => remaining < fieldsBytes fields
  | None => True
  end.
Proof.
  induction fields as [|raw fields IH]; intros remaining Hr; cbn [fieldLoop].
  - unfold fieldsBytes, zsum. cbn. lia.
  - destruct (compactBytes raw) as [value|] eqn:Hv; [|done].
    rewrite fieldsBytes_cons, (fieldBytes_some raw value Hv).
    pose proof (fieldsBytes_nonneg fields). pose proof (blen_nonneg value).
    destruct (Z.ltb_spec remaining 4), (Z.ltb_spec (remaining - 4) (blen value)); cbn [orb]; try lia.
    specialize (IH (remaining - (4 + blen value)) ltac:(lia)).
    destruct (fieldLoop _ fields) as [[rest|]|]; lia || done.
Qed.

Lemma bytesOf_at c i raw value : c !! i = Some raw -> compactBytes raw = Some value -> bytesOf c i = value.
Proof. unfold bytesOf. intros -> H. cbn. by rewrite H. Qed.

Lemma xadd_exact limit : step_exact PlanXAdd limit (xaddStep limit).
Proof.
  intros c size Hs. unfold xaddStep. destruct (compactStreamXAddPairCount c) as [n|]; [|done].
  destruct c as [|verb [|raw [|star fields]]]; try done. unfold commandBytes. change (drop 3 (verb :: raw :: star :: fields)) with fields.
  destruct (compactBytes raw) as [key|] eqn:Hk; [|done].
  rewrite (bytesOf_at (verb :: raw :: star :: fields) 1 raw key eq_refl Hk).
  pose proof (blen_nonneg key). pose proof (fieldsBytes_nonneg fields).
  destruct (Z.ltb_spec (limit - size) 6), (Z.ltb_spec (limit - size - 6) (blen key)); cbn [orb]; try lia.
  pose proof (field_exact fields (limit - size - (6 + blen key)) ltac:(lia)) as Hf.
  destruct (fieldLoop _ fields) as [[rest|]|]; lia || done.
Qed.

Lemma commandBytes_nonneg k c : 0 <= commandBytes k c.
Proof.
  unfold commandBytes. pose proof (blen_nonneg (bytesOf c 1)). pose proof (blen_nonneg (bytesOf c 2)).
  pose proof (fieldsBytes_nonneg (drop 3 c)). destruct k; lia.
Qed.

Lemma zsum_commands_nonneg k cs : 0 <= zsum (commandBytes k <$> cs).
Proof. apply zsum_nonneg, Forall_fmap, Forall_true. intros c. apply commandBytes_nonneg. Qed.

Lemma planLoop_exact k all limit step : step_exact k limit step -> forall commands size, size <= limit ->
  match planLoop k all step size commands with
  | PlanOk p => p = Plan k all (size + zsum (commandBytes k <$> commands)) /\ p_size p <= limit
  | PlanLimit => limit < size + zsum (commandBytes k <$> commands)
  | NoPlan => True
  end.
Proof.
  intros Hstep. induction commands as [|c commands IH]; intros size Hs; cbn [planLoop fmap list_fmap].
  - unfold zsum. cbn. rewrite Z.add_0_r. done.
  - pose proof (Hstep c size Hs) as Hc. pose proof (zsum_commands_nonneg k commands).
    unfold zsum in *. cbn [foldr].
    destruct (step c size) as [[size'|]|]; [|lia|done]. destruct Hc as [-> Hle].
    specialize (IH _ Hle). destruct (planLoop _ _ _ _ commands); [done|lia|].
    by rewrite Z.add_assoc.
Qed.

Lemma compactPlan_exact k limit step commands : step_exact k limit step ->
  match compactPlan k limit step commands with
  | PlanOk p => p = Plan k commands (planBytes k commands) /\ planBytes k commands <= limit
  | PlanLimit => limit < planBytes k commands
  | NoPlan => True
  end.
Proof.
  intros Hstep. unfold compactPlan, planBytes. pose proof (zsum_commands_nonneg k commands).
  destruct (Z.ltb_spec limit nativeCompactPipelineHeaderBytes); [lia|].
  pose proof (planLoop_exact k commands limit step Hstep commands nativeCompactPipelineHeaderBytes ltac:(lia)) as Hp.
  destruct (planLoop _ _ _ _ commands); [done|done|]. destruct Hp as [-> Hp]. done.
Qed.

Lemma plan_cases commands limit :
  match compactPipelinePlanWithLimit commands limit with
  | PlanOk p => p_commands p = commands /\ p_size p = planBytes (p_kind p) commands /\ p_size p <= limit
  | PlanLimit => exists k, limit < planBytes k commands
  | NoPlan => True
  end.
Proof.
  unfold compactPipelinePlanWithLimit. destruct commands as [|[|verb c] rest]; try done.
  set (commands := (verb :: c) :: rest).
  assert (Hgo : forall k step, step_exact k limit step ->
    match compactPlan k limit step commands with
    | PlanOk p => p_commands p = commands /\ p_size p = planBytes (p_kind p) commands /\ p_size p <= limit
    | PlanLimit => exists k, limit < planBytes k commands
    | NoPlan => True
    end).
  { intros k step Hs%(compactPlan_exact k limit step commands). destruct (compactPlan _ _ _ commands); [done|by exists k|].
    by destruct Hs as [-> Hs]. }
  destruct (is_part (go "SET") verb); [apply Hgo, pair_exact; by left|].
  destruct (is_part (go "GET") verb); [apply Hgo, get_exact|].
  destruct (is_part (go "XADD") verb); [apply Hgo, xadd_exact|].
  destruct (is_part (go "PUBLISH") verb); [apply Hgo, pair_exact; by right|done].
Qed.

(** The compact form of a pipeline is sized exactly before it is encoded: the
    plan keeps the commands, its size is the length of their encoding and within the
    frame limit, so that the encoder never fails, and the limit error is reported
    only when the encoding would exceed the limit. *)
Theorem compact_plan_exact commands limit :
  match compactPipelinePlanWithLimit commands limit with
  | PlanOk p =>
      p_commands p = commands /\ blen (encode p) = p_size p /\
      encodeNativeCustomPayload p limit = Some (encode p) /\ blen (encode p) <= limit
  | PlanLimit => exists k, limit < blen (encode (Plan k commands 0))
  | NoPlan => True
  end.
Proof.
  pose proof (plan_cases commands limit) as H.
  destruct (compactPipelinePlanWithLimit commands limit) as [| |p]; [done| |].
  - destruct H as [k Hk]. exists k. by rewrite blen_encode.
  - destruct H as (Hc & Hs & Hle). rewrite blen_encode, Hc. split_and!; [done|done| |lia].
    unfold encodeNativeCustomPayload. destruct (Z.ltb_spec limit (p_size p)); [lia|done].
Qed.

Example plan_example :
  let commands := [[Arg (VString (go "get")); Arg (VString (go "k"))]; [Arg (VString (go "GET")); Arg (VBytes (go "xyz"))]] in
  compactPipelinePlanWithLimit commands 18 = PlanOk (Plan PlanGet commands 18) /\
  compactPipelinePlanWithLimit commands 17 = PlanLimit.
Proof. split; vm_compute; reflexivity. Qed.

(** ** What a server reads *)

(** The texts of a command: its verb in capitals, its arguments as they are. *)
Definition commandTexts (c : command) : list gstr :=
  match c with
  | [] => []
  | verb :: rest => argPart verb :: ((fun a => default [] (argText a)) <$> rest)
  end.

(** A text behind its 32-bit length. *)
Definition readBinary (data : gstr) : option (gstr * gstr) :=
  let size := be_decode (btake 4 data) in
  let rest := bdrop 4 data in
  if (blen data <? 4) || (blen rest <? size) then None else Some (btake size rest, bdrop size rest).

Fixpoint readBinaries (n : nat) (data : gstr) : option (list gstr * gstr) :=
  match n with
  | O => Some ([], data)
  | S n =>
      match readBinary data with
      | None => None
      | Some (text, data) =>
          match readBinaries n data with Some (texts, rest) => Some (text :: texts, rest) | None => None end
      end
  end.

(** One command of a compact pipeline: the format fixes the verb by the kind, and an
    XADD always lets the server choose the identifier. *)
Definition readWords (kind : byte) (data : gstr) : option (list gstr * gstr) :=
  let plain verb count :=
    match readBinaries count data with Some (texts, rest) => Some (go verb :: texts, rest) | None => None end in
  match kind with
  | x81 => plain "SET"%string 2%nat
  | x82 => plain "GET"%string 1%nat
  | xa3 => plain "PUBLISH"%string 2%nat
  | xa2 =>
      match readBinary data with
      | None => None
      | Some (key, data) =>
          if blen data <? 2 then None
          else match readBinaries (Z.to_nat (2 * be_decode (btake 2 data))) (bdrop 2 data) with
               | Some (fields, rest) => Some (go "XADD" :: key :: go "*" :: fields, rest)
               | None => None
               end
      end
  | _ => None
  end.

Fixpoint readCompactCommands (kind : byte) (n : nat) (data : gstr) : option (list (list gstr) * gstr) :=
  match n with
  | O => Some ([], data)
  | S n =>
      match readWords kind data with
      | None => None
      | Some (words, data) =>
          match readCompactCommands kind n data with Some (l, rest) => Some (words :: l, rest) | None => None end
      end
  end.

(** A whole compact pipeline: its marker, its kind, the number of commands, and nothing
    behind the last one. *)
Definition readPipeline (data : gstr) : option (list (list gstr)) :=
  match data with
  | x94 :: kind :: data =>
      if blen data <? 4 then None
      else match readCompactCommands kind (Z.to_nat (be_decode (btake 4 data))) (bdrop 4 data) with
           | Some (l, []) => Some l
           | _ => None
           end
  | _ => None
  end.

(** *** The encoder in the same pieces *)

Definition field (raw : arg) : gstr := default [] (compactBytes raw).

Lemma append_app payload value : appendCompactBinary payload value = payload ++ appendCompactBinary [] value.
Proof. done. Qed.

Lemma appendFields_app fields : forall payload,
  foldl (fun payload raw => appendCompactBinary payload (default [] (compactBytes raw))) payload fields =
  payload ++ concat ((fun raw => appendCompactBinary [] (field raw)) <$> fields).
Proof.
  induction fields as [|raw fields IH]; intros payload; cbn [foldl fmap list_fmap concat]; [by rewrite app_nil_r|].
  by rewrite IH, (append_app payload), <- (assoc_L (++)).
Qed.

Lemma encodeCommand_app k payload c : encodeCommand k payload c = payload ++ encodeCommand k [] c.
Proof.
  unfold encodeCommand. destruct k; rewrite ?appendFields_app; unfold appendCompactBinary; by rewrite <- ?(assoc_L (++)).
Qed.

Lemma encodeCommands_app k cs : forall payload, foldl (encodeCommand k) payload cs = payload ++ concat (encodeCommand k [] <$> cs).
Proof.
  induction cs as [|c cs IH]; intros payload; cbn [foldl fmap list_fmap concat]; [by rewrite app_nil_r|].
  by rewrite IH, (encodeCommand_app k payload), <- (assoc_L (++)).
Qed.

Lemma readBinary_app value rest : blen value < 2 ^ 32 -> readBinary (appendCompactBinary [] value ++ rest) = Some (value, rest).
Proof.
  intros Hv. pose proof (blen_nonneg value). unfold readBinary, appendCompactBinary. cbn [app]. rewrite <- (assoc_L (++)).
  rewrite btake_app, bdrop_app by (by rewrite blen_be_encode).
  assert (be_decode (be_encode 4 (wrap 32 (blen value))) = blen value) as ->.
  { unfold wrap. rewrite be_decode_encode. change (8 * Z.of_nat 4) with 32. rewrite Zmod_mod. apply Z.mod_small. lia. }
  rewrite !blen_app, blen_be_encode, btake_app, bdrop_app by done. pose proof (blen_nonneg rest).
  destruct (Z.ltb_spec (Z.of_nat 4 + (blen value + blen rest)) 4); [lia|].
  by destruct (Z.ltb_spec (blen value + blen rest) (blen value)); [lia|].
Qed.

Lemma readFields_app fields rest : fieldsBytes fields < 2 ^ 32 ->
  readBinaries (length fields) (concat ((fun raw => appendCompactBinary [] (field raw)) <$> fields) ++ rest) =
  Some (field <$> fields, rest).
Proof.
  induction fields as [|raw fields IH]; intros Hb; [done|]. rewrite fieldsBytes_cons in Hb.
  pose proof (fieldsBytes_nonneg fields). unfold fieldBytes in Hb. fold (field raw) in Hb. pose proof (blen_nonneg (field raw)).
  cbn [length readBinaries fmap list_fmap concat]. rewrite <- (assoc_L (++)), readBinary_app by lia. by rewrite IH by lia.
Qed.

(** *** Commands of a plan *)

Definition carried (a : arg) : Prop := is_Some (compactBytes a).

Lemma carried_text a : carried a -> field a = default [] (argText a).
Proof. unfold field, carried. intros [s Hs]. rewrite Hs. destruct a as [[]|]; by simplify_eq/=. Qed.

Lemma carried_texts fields : Forall carried fields -> field <$> fields = (fun a => default [] (argText a)) <$> fields.
Proof. induction 1 as [|a fields Ha _ IH]; [done|]. cbn. by rewrite IH, (carried_text a Ha). Qed.

(** What the planning step of a form has seen of a command. *)
Definition planned (k : planKind) (c : command) : Prop :=
  match k with
  | PlanSet => exists verb a b, c = [verb; a; b] /\ argPart verb = go "SET" /\ carried a /\ carried b
  | PlanPublish => exists verb a b, c = [verb; a; b] /\ argPart verb = go "PUBLISH" /\ carried a /\ carried b
  | PlanGet => exists verb a, c = [verb; a] /\ argPart verb = go "GET" /\ carried a
  | PlanXAdd =>
      exists verb a id fields pairs, c = verb :: a :: id :: fields /\ argPart verb = go "XADD" /\ argPart id = go "*" /\
        carried a /\ Forall carried fields /\ compactStreamXAddPairCount c = Some pairs /\
        blen fields = 2 * pairs /\ 0 <= pairs <= nativeCompactStreamXAddMaxFieldPairs
  end.

Lemma pairStep_planned name limit c size r : pairStep name limit c size = Some r ->
  exists verb a b, c = [verb; a; b] /\ argPart verb = name /\ carried a /\ carried b.
Proof.
  unfold pairStep. destruct c as [|verb [|a [|b [|]]]]; try done.
  destruct (is_part name verb) eqn:Hv; cbn [negb]; [|done]. unfold is_part in Hv. rewrite bool_decide_eq_true in Hv.
  destruct (compactBytes a) eqn:Ha; [|done]. destruct (compactBytes b) eqn:Hb; [|done]. intros _.
  exists verb, a, b. unfold carried. rewrite Ha, Hb. by split_and!.
Qed.

Lemma getStep_planned limit c size r : getStep limit c size = Some r -> planned PlanGet c.
Proof.
  unfold getStep. destruct c as [|verb [|a [|]]]; try done.
  destruct (is_part (go "GET") verb) eqn:Hv; cbn [negb]; [|done]. unfold is_part in Hv. rewrite bool_decide_eq_true in Hv.
  destruct (compactBytes a) eqn:Ha; [|done]. intros _. exists verb, a. unfold carried. rewrite Ha. by split_and!.
Qed.

Lemma fieldLoop_carried fields : forall remaining rest, fieldLoop remaining fields = Some (Some rest) -> Forall carried fields.
Proof.
  induction fields as [|raw fields IH]; intros remaining rest H; [constructor|]. cbn [fieldLoop] in H.
  destruct (compactBytes raw) eqn:Hr; [|done]. destruct (_ || _); [done|]. constructor; [by unfold carried; rewrite Hr|by eapply IH].
Qed.

Lemma xaddStep_planned limit c size size' : xaddStep limit c size = Some (Some size') -> planned PlanXAdd c.
Proof.
  unfold xaddStep. destruct (compactStreamXAddPairCount c) as [pairs|] eqn:Hp; [|done].
  destruct c as [|verb [|a [|id fields]]]; try done. destruct (compactBytes a) eqn:Ha; [|done]. destruct (_ || _); [done|].
  destruct (fieldLoop _ fields) as [[rest|]|] eqn:Hf; try done. intros _. exists verb, a, id, fields, pairs.
  pose proof Hp as Hp'. unfold compactStreamXAddPairCount in Hp'.
  set (all := verb :: a :: id :: fields) in *.
  destruct (Z.ltb_spec (blen all) 5); [done|]. destruct (Z.eqb_spec ((blen all - 3) mod 2) 0) as [Hmod|]; [|done].
  cbn [negb orb] in Hp'. unfold is_part in Hp'.
  destruct (bool_decide_reflect (argPart verb = go "XADD")) as [Hv|]; [|done].
  destruct (bool_decide_reflect (argPart id = go "*")) as [Hi|]; [|done]. cbn [negb orb] in Hp'.
  destruct (Z.leb_spec ((blen all - 3) / 2) nativeCompactStreamXAddMaxFieldPairs); [|done]. injection Hp' as <-.
  assert (blen all = blen fields + 3) as Hl by (unfold all, blen; cbn [length]; lia).
  pose proof (Z.div_mod (blen all - 3) 2 ltac:(lia)).
  split_and!; try done; [by unfold carried; rewrite Ha|by eapply fieldLoop_carried|lia|apply Z.div_pos; lia].
Qed.

Lemma planLoop_planned k all step : (forall c size size', step c size = Some (Some size') -> planned k c) ->
  forall commands size p, planLoop k all step size commands = PlanOk p -> Forall (planned k) commands.
Proof.
  intros Hstep. induction commands as [|c commands IH]; intros size p H; [constructor|]. cbn [planLoop] in H.
  destruct (step c size) as [[size'|]|] eqn:Hc; try done. constructor; [by eapply Hstep|by eapply IH].
Qed.

Lemma plan_planned commands limit p : compactPipelinePlanWithLimit commands limit = PlanOk p ->
  Forall (planned (p_kind p)) commands.
Proof.
  unfold compactPipelinePlanWithLimit. destruct commands as [|[|verb c] rest]; try done.
  set (commands := (verb :: c) :: rest).
  assert (Hgo : forall k step, step_exact k limit step -> (forall c size size', step c size = Some (Some size') -> planned k c) ->
    compactPlan k limit step commands = PlanOk p -> Forall (planned (p_kind p)) commands).
  { intros k step He Hstep H. pose proof (compactPlan_exact k limit step commands He) as Hp. rewrite H in Hp.
    destruct Hp as [-> _]. unfold compactPlan in H. destruct (_ <? _); [done|]. by eapply planLoop_planned. }
  destruct (is_part (go "SET") verb).
  { apply Hgo; [apply pair_exact; by left|]. intros ??? H. by apply pairStep_planned in H. }
  destruct (is_part (go "GET") verb); [apply Hgo; [apply get_exact|intros ??? H; by eapply getStep_planned]|].
  destruct (is_part (go "XADD") verb); [apply Hgo; [apply xadd_exact|apply xaddStep_planned]|].
  destruct (is_part (go "PUBLISH") verb); [|done].
  apply Hgo; [apply pair_exact; by right|]. intros ??? H. by apply pairStep_planned in H.
Qed.

Lemma star_text id : argPart id = go "*" -> default [] (argText id) = go "*".
Proof.
  unfold argPart. destruct (argText id) as [[|b [|b' s]]|]; try done. cbn. intros H. injection H as H.
  f_equal. by destruct b.
Qed.

#[local] Arguments appendCompactBinary : simpl never.
#[local] Arguments readBinary : simpl never.

(** A server reads a command as it was given, whatever follows. *)
Lemma readWords_app k c rest : planned k c -> commandBytes k c < 2 ^ 32 ->
  readWords (kindByte k) (encodeCommand k [] c ++ rest) = Some (commandTexts c, rest).
Proof.
  pose proof (fun a => blen_nonneg (field a)) as Hnn.
  assert (Hpair : forall a b, carried a -> carried b -> blen (field a) < 2 ^ 32 -> blen (field b) < 2 ^ 32 ->
    readBinaries 2 (appendCompactBinary (appendCompactBinary [] (field a)) (field b) ++ rest) =
      Some ([default [] (argText a); default [] (argText b)], rest)).
  { intros a b Ha Hb Hla Hlb. rewrite append_app, <- (assoc_L (++)). cbn [readBinaries].
    by rewrite !readBinary_app, (carried_text a), (carried_text b) by done. }
  destruct k; cbn [planned]; unfold commandBytes, encodeCommand, bytesOf.
  - intros (verb & a & b & -> & Hv & Ha & Hb). cbn. fold (field a) (field b). intros Hlen. pose proof (Hnn a). pose proof (Hnn b).
    cbn in Hpair. rewrite Hpair by (done || lia). by rewrite Hv.
  - intros (verb & a & -> & Hv & Ha). cbn. fold (field a). intros Hlen.
    rewrite readBinary_app by lia. by rewrite Hv, (carried_text a).
  - intros (verb & a & id & fields & pairs & -> & Hv & Hi & Ha & Hf & Hp & Hl & Hr). rewrite Hp.
    change (default 0 (Some pairs)) with pairs.
    change (drop 3 (verb :: a :: id :: fields)) with fields. change ((verb :: a :: id :: fields) !! 1%nat) with (Some a).
    change (default [] (Some a ≫= compactBytes)) with (field a). intros Hlen. pose proof (Hnn a). pose proof (fieldsBytes_nonneg fields).
    rewrite appendFields_app. cbn [readWords kindByte]. rewrite <- !(assoc_L (++)), readBinary_app by lia.
    unfold nativeCompactStreamXAddMaxFieldPairs in Hr. pose proof (blen_nonneg fields).
    rewrite btake_app, bdrop_app, blen_app, blen_be_encode by (by rewrite blen_be_encode).
    destruct (Z.ltb_spec (Z.of_nat 2 + blen (concat ((fun raw => appendCompactBinary [] (field raw)) <$> fields) ++ rest)) 2) as [Hlt|];
      [pose proof (blen_nonneg (concat ((fun raw => appendCompactBinary [] (field raw)) <$> fields) ++ rest)); lia|].
    assert (be_decode (be_encode 2 (wrap 16 pairs)) = pairs) as ->.
    { unfold wrap. rewrite be_decode_encode. change (8 * Z.of_nat 2) with 16. rewrite Zmod_mod. apply Z.mod_small. lia. }
    rewrite <- Hl. unfold blen at 1. rewrite Nat2Z.id, readFields_app by lia.
    cbn [commandTexts fmap list_fmap]. by rewrite Hv, (star_text id Hi), (carried_text a Ha), (carried_texts fields Hf).
  - intros (verb & a & b & -> & Hv & Ha & Hb). cbn. fold (field a) (field b). intros Hlen. pose proof (Hnn a). pose proof (Hnn b).
    cbn in Hpair. rewrite Hpair by (done || lia). by rewrite Hv.
Qed.

Lemma readCommands_app k cs rest : Forall (planned k) cs -> Forall (fun c => commandBytes k c < 2 ^ 32) cs ->
  readCompactCommands (kindByte k) (length cs) (concat (encodeCommand k [] <$> cs) ++ rest) = Some (commandTexts <$> cs, rest).
Proof.
  induction 1 as [|c cs Hc _ IH]; intros Hb; [done|]. apply Forall_cons in Hb as [Hbc Hb].
  cbn [length readCompactCommands fmap list_fmap concat]. rewrite <- (assoc_L (++)), readWords_app by done. by rewrite IH.
Qed.

(** A server reads the commands of a plan from its encoding, all of them, in order, with
    their texts, when the frame limit is one that fits the header's length field. *)
Theorem compact_plan_read commands limit p :
  compactPipelinePlanWithLimit commands limit = PlanOk p -> limit < 2 ^ 32 ->
  readPipeline (encode p) = Some (commandTexts <$> commands).
Proof.
  intros H Hlimit. pose proof (plan_cases commands limit) as Hp. rewrite H in Hp. destruct Hp as (Hc & Hs & Hle).
  pose proof (plan_planned commands limit p H) as Hplan. rewrite Hs in Hle. unfold planBytes, nativeCompactPipelineHeaderBytes in Hle.
  set (k := p_kind p) in *.
  assert (Hone : Forall (fun c => commandBytes k c < 2 ^ 32) commands /\ blen commands <= zsum (commandBytes k <$> commands)).
  { clear -Hle Hlimit. assert (zsum (commandBytes k <$> commands) < 2 ^ 32) as Hz by lia. clear Hle Hlimit limit.
    induction commands as [|c cs IH]; [split; [constructor|done]|]. unfold zsum in *. cbn [fmap list_fmap foldr] in *.
    pose proof (zsum_commands_nonneg k cs). unfold zsum in *. pose proof (commandBytes_nonneg k c).
    assert (1 <= commandBytes k c).
    { unfold commandBytes. pose proof (blen_nonneg (bytesOf c 1)). pose proof (blen_nonneg (bytesOf c 2)).
      pose proof (fieldsBytes_nonneg (drop 3 c)). destruct k; lia. }
    destruct IH as [IH1 IH2]; [lia|]. split; [constructor; [lia|done]|]. rewrite blen_cons. lia. }
  destruct Hone as [Hone Hcount]. unfold encode. fold k. rewrite encodeCommands_app, Hc. unfold nativeCompactPipelineRequest.
  cbn [app readPipeline]. rewrite btake_app, bdrop_app, blen_app, blen_be_encode by (by rewrite blen_be_encode).
  pose proof (blen_nonneg (concat (encodeCommand k [] <$> commands))). pose proof (blen_nonneg commands).
  destruct (Z.ltb_spec (Z.of_nat 4 + blen (concat (encodeCommand k [] <$> commands))) 4); [lia|].
  assert (be_decode (be_encode 4 (wrap 32 (blen commands))) = blen commands) as ->.
  { unfold wrap. rewrite be_decode_encode. change (8 * Z.of_nat 4) with 32. rewrite Zmod_mod. apply Z.mod_small. lia. }
  unfold blen at 1. rewrite Nat2Z.id. rewrite <- (app_nil_r (concat _)), readCommands_app by done. done.
Qed.
