(* ===== verification/Pipeline.v ===== *)
(** Pipelines of a native executor (src/native_pipeline.go, src/native.go,
    src/native_command_metadata.go): cutting a batch of commands into requests the
    server accepts, splitting a request that is over the frame limit, giving every
    command its own outcome, and the report of what was not executed.

    The server and the path to it are an oracle that sees the requests sent so far;
    the history of requests is kept as the commands each of them carried. Where a theorem
    needs a server that executes what it reads, the server has a state, reads the payload
    with a reader of its own and answers in a form that says the outcomes. *)

From S2P Require Export CompactPipeline Retry.

(** ** Limits of time and replay of a batch *)

Record nativeRequestBudget := Budget { disableDefault : bool; extension : Z }.

Record nativeCommandExecutionPolicy := ExecPolicy { budget : nativeRequestBudget; replay : nativeReplayPolicy }.

Definition noPolicy : nativeCommandExecutionPolicy := ExecPolicy (Budget false 0) nativeReplayDefault.

(** A built command as a pipeline carries it: a map body and its policy. *)
Record nativeCommand := NativeCommand {
  c_opcode : Z;
  c_body : val;
  c_budget : nativeRequestBudget;
  c_replay : nativeReplayPolicy;
}.

(** [nativeCommandExecutionPolicy.add]. *)
Definition addPolicy (p : nativeCommandExecutionPolicy) (c : nativeCommand) : nativeCommandExecutionPolicy :=
  let replay := match c_replay c with nativeReplayNever => nativeReplayNever | nativeReplayDefault => replay p end in
  if disableDefault (budget p) then ExecPolicy (budget p) replay
  else if disableDefault (c_budget c) || (max_int64 - extension (budget p) <? extension (c_budget c))
  then ExecPolicy (Budget true 0) replay
  else ExecPolicy (Budget false (extension (budget p) + extension (c_budget c))) replay.

(** ** Outcomes *)

Section Pipeline.
(** [ClaimedItem], as the compact codecs decode it. *)
Context {C : Type}.
Context (sprint : val -> gstr).

Inductive itemValue := ItemVal (v : val) | ItemClaim (c : C).

(** [pipelineItemResult]. *)
Record itemResult := Item { i_value : itemValue; i_err : option goError }.

Definition emptyItem : itemResult := Item (ItemVal VNil) None.
Definition set_err (err : goError) (r : itemResult) : itemResult := Item (i_value r) (Some err).

Inductive pipeReply :=
| PipeValue (v : val)
| PipeOKCount (count : Z)             (* nativeCompactOKCount *)
| PipeCompact (v : val)               (* nativeCompactPipelineValues *)
| PipeClaims (l : list C).            (* ... of claimed items *)

(** [pipelineItemValue]. *)
Definition pipelineItemValue (item : val) : itemResult :=
  let outcome status value :=
    let kind := to_lower (asString sprint status) in
    if bool_decide (kind = go "ok") then Item (ItemVal value) None
    else Item (ItemVal VNil) (Some (ErrNative (Native 1 kind value))) in
  match item with
  | VArray _ [status; value] => outcome status value
  | VMap _ m =>
      match assoc_get (go "status") m with
      | Some status => outcome status (default VNil (assoc_get (go "value") m))
      | None => Item (ItemVal item) None
      end
  | _ => Item (ItemVal item) None
  end.

Definition shapeError : goError := ErrText (go "PIPELINE returned an unexpected number of results").

(** [pipelineItemResults]. *)
Definition pipelineItemResults (reply : pipeReply) (expected : nat) : result goError (list itemResult) :=
  match reply with
  | PipeCompact (VArray _ values) =>
      if (length values =? expected)%nat then Ok ((fun v => Item (ItemVal v) None) <$> values) else Err shapeError
  | PipeClaims values =>
      if (length values =? expected)%nat then Ok ((fun v => Item (ItemClaim v) None) <$> values) else Err shapeError
  | PipeCompact value =>
      if negb (expected =? 1)%nat then Err shapeError else Ok [Item (ItemVal value) None]
  | PipeOKCount count =>
      if negb (count =? Z.of_nat expected) then Err shapeError
      else Ok (replicate expected (Item (ItemVal (VBytes (go "OK"))) None))
  | PipeValue (VArray _ items) =>
      if negb (length items =? expected)%nat then Err shapeError else Ok (pipelineItemValue <$> items)
  | PipeValue _ => Err shapeError
  end.

(** [retryableBusyPipeline]: the delay when every item is refused as busy. *)
Definition retryableBusyPipeline (items : list itemResult) : option Z :=
  match items with
  | [] => None
  | _ =>
      if forallb (fun r => match i_err r with Some err => busy_safe err | None => false end) items
      then Some (foldl Z.max 0 ((fun r => match i_err r with
                   | Some err => retryAfter (nativeServerRetryDisposition err) | None => 0 end) <$> items))
      else None
  end.

(** ** Requests *)

(** The error of a chunk. *)
Inductive pipeError :=
| BuildError (index : nat) (cause : goError)        (* pipelineCommandBuildError *)
| ChunkError (cause : goError) (affected : nat)     (* pipelineChunkExecutionError *)
| OtherError (err : goError).

Definition pipe_cause (e : pipeError) : goError :=
  match e with BuildError _ cause => cause | ChunkError cause _ => cause | OtherError err => err end.

(** [pipelineChunkAffectedCommands]. *)
Definition pipelineChunkAffectedCommands (e : pipeError) (fallback : nat) : nat :=
  match e with
  | ChunkError _ affected => if (0 <? affected)%nat then min affected fallback else fallback
  | _ => fallback
  end.

Inductive pipePayload := CompactPayload (p : nativeCompactPipelinePlan) | ItemsPayload (items : list nativeCommand).

(** The value of the generic payload. *)
Definition itemsValue (laneID : Z) (items : list nativeCommand) : val :=
  VMap None [
    (go "atomicity", VString (go "none"));
    (go "commands", VArray None (imap (fun idx c => VMap None [
       (go "opcode", VInt IInt64 (c_opcode c)); (go "lane_id", VInt IInt64 laneID);
       (go "request_id", VInt IInt64 (Z.of_nat idx + 1)); (go "body", c_body c)]) items));
    (go "return", VString (go "compact"))].

(** Building one command of a batch, its body made nestable: the command
    builders, see the header of the development. *)
Context (buildItem : command -> result goError nativeCommand).
Context (maxFrameBytes : Z) (compactStreamXAdd compactPubSubPublish : bool).

(** The loop of [nativePipelinePayloadWithCapabilities]. *)
Fixpoint buildItems (idx : nat) (policy : nativeCommandExecutionPolicy) (commands : list command)
  : result pipeError (list nativeCommand * nativeCommandExecutionPolicy) :=
  match commands with
  | [] => Ok ([], policy)
  | args :: rest =>
      match buildItem args with
      | Err cause => Err (BuildError idx cause)
      | Ok c =>
          let! (items, policy) := buildItems (S idx) (addPolicy policy c) rest in
          Ok (c :: items, policy)
      end
  end.

Definition firstPart (commands : list command) : gstr :=
  match commands with (verb :: _) :: _ => argPart verb | _ => [] end.

(** [nativePipelinePayloadWithCapabilities]. *)
Definition nativePipelinePayload (commands : list command)
  : result pipeError (pipePayload * nativeCommandExecutionPolicy) :=
  let first := firstPart commands in
  let allowCompact :=
    (negb (bool_decide (first = go "XADD")) || compactStreamXAdd) &&
    (negb (bool_decide (first = go "PUBLISH")) || compactPubSubPublish) in
  let generic := let! (items, policy) := buildItems 0 noPolicy commands in Ok (ItemsPayload items, policy) in
  if allowCompact then
    match compactPipelinePlanWithLimit commands maxFrameBytes with
    | PlanOk p => Ok (CompactPayload p, noPolicy)
    | PlanLimit => Err (OtherError (ErrLimit maxFrameBytes))
    | NoPlan => generic
    end
  else generic.

(** The requests that reached the connection, as the commands they carried. *)
Abbreviation history := (list (list command)).

(** [requestWithoutSessionGateWithReplayPolicy] for a pipeline, and
    [waitNativeRetry]. An error over the frame limit is found before writing. *)
Context (send : history -> pipePayload -> nativeCommandExecutionPolicy -> result goError pipeReply).
Context (wait : history -> Z -> option ctxError).

Definition chunkFailure (err : goError) (commands : list command) : pipeError :=
  ChunkError (ErrWrap (go "PIPELINE: ") err) (length commands).

(** The second request of a batch that was refused as busy. *)
Definition repeatChunk (commands : list command) (payload : pipePayload)
  (policy : nativeCommandExecutionPolicy) (delay : Z) (h : history)
  : (list itemResult * option pipeError) * history :=
  match wait h delay with
  | Some c => (([], Some (OtherError (ctx_error c))), h)
  | None =>
      match send h payload policy with
      | Err err => (([], Some (chunkFailure err commands)), if over_limit err then h else h ++ [commands])
      | Ok reply =>
          match pipelineItemResults reply (length commands) with
          | Err err => (([], Some (OtherError err)), h ++ [commands])
          | Ok items => ((items, None), h ++ [commands])
          end
      end
  end.

(** [pipelineChunkWithoutGate] and [splitOversizedPipelineChunk]; the fuel bounds
    the depth of the splitting. *)
Fixpoint pipelineChunk (fuel : nat) (commands : list command) (h : history)
  : (list itemResult * option pipeError) * history :=
  match fuel with
  | O => (([], Some (OtherError (ErrText []))), h)
  | S fuel =>
      let split :=
        if (length commands =? 1)%nat
        then (([], Some (ChunkError (ErrText (go "PIPELINE command exceeds the frame limit")) 1)), h)
        else
          let middle := (length commands / 2)%nat in
          match pipelineChunk fuel (take middle commands) h with
          | ((lefts, Some err), h) => ((lefts, Some err), h)
          | ((lefts, None), h) =>
              match pipelineChunk fuel (drop middle commands) h with
              | ((rights, err), h) => ((lefts ++ rights, err), h)
              end
          end in
      match nativePipelinePayload commands with
      | Err err => if over_limit (pipe_cause err) then split else (([], Some err), h)
      | Ok (payload, policy) =>
          match send h payload policy with
          | Err err =>
              if over_limit err then split
              else (([], Some (chunkFailure err commands)), h ++ [commands])
          | Ok reply =>
              let h := h ++ [commands] in
              match pipelineItemResults reply (length commands) with
              | Err err => (([], Some (OtherError err)), h)
              | Ok items =>
                  match retryableBusyPipeline items with
                  | Some delay =>
                      if may_replay (replay policy) then repeatChunk commands payload policy delay h
                      else ((items, None), h)
                  | None => ((items, None), h)
                  end
              end
          end
      end
  end.

(** ** The batch *)

(** [copy(results[start:], items)]. *)
Definition copyAt (start : nat) (items results : list itemResult) : list itemResult :=
  list_inserts start items results.

(** [results[index].err = err] for the indices from [first] to [last]. *)
Definition failRange (first last : nat) (err : goError) (results : list itemResult) : list itemResult :=
  imap (fun i r => if (first <=? i)%nat && (i <? last)%nat then set_err err r else r) results.

Definition notExecuted (cause : goError) : goError := ErrWrap2 (ErrSentinel errPipelineNotExecuted) cause.

(** [markPipelineNotExecuted(results[first:], cause)]. *)
Definition markPipelineNotExecuted (first : nat) (cause : goError) (results : list itemResult) : list itemResult :=
  failRange first (length results) (notExecuted cause) results.

(** The outcome of commands [first] to [last] and of those behind them, after an
    error with [done] outcomes of the range. *)
Definition stopAt (first last : nat) (items : list itemResult) (err : pipeError)
  (results : list itemResult) : list itemResult :=
  let failureStart := (first + length items)%nat in
  let failureEnd := min last (failureStart + pipelineChunkAffectedCommands err (last - failureStart)) in
  markPipelineNotExecuted failureEnd (pipe_cause err)
    (failRange failureStart failureEnd (pipe_cause err) (copyAt first items results)).

Definition segment {A} (first last : nat) (l : list A) : list A := take (last - first) (drop first l).

(** The loop of [pipelineDetailedOnLane]. *)
Fixpoint pipelineLoop (fuel : nat) (maxCommands : nat) (commands : list command) (start : nat)
  (results : list itemResult) (h : history) : result goError (list itemResult) * history :=
  match fuel with
  | O => (Err (ErrText []), h)
  | S fuel =>
      if (length commands <=? start)%nat then (Ok results, h)
      else
        let last := min (start + maxCommands) (length commands) in
        match pipelineChunk (S (last - start)) (segment start last commands) h with
        | ((items, None), h) => pipelineLoop fuel maxCommands commands last (copyAt start items results) h
        | ((_, Some (BuildError index cause)), h) =>
            if (last - start <=? index)%nat then (Err (ErrText (go "PIPELINE reported invalid build-error index")), h)
            else
              let failureIndex := (start + index)%nat in
              if (start <? failureIndex)%nat then
                match pipelineChunk (S index) (segment start failureIndex commands) h with
                | ((prefix, Some err), h) =>
                    if (failureIndex - start <? length prefix)%nat
                    then (Err (ErrText (go "PIPELINE returned too many partial results")), h)
                    else (Ok (stopAt start failureIndex prefix err results), h)
                | ((prefix, None), h) =>
                    pipelineLoop fuel maxCommands commands (S failureIndex)
                      (failRange failureIndex (S failureIndex) cause (copyAt start prefix results)) h
                end
              else
                pipelineLoop fuel maxCommands commands (S failureIndex)
                  (failRange failureIndex (S failureIndex) cause results) h
        | ((items, Some err), h) =>
            if (last - start <? length items)%nat
            then (Err (ErrText (go "PIPELINE returned too many partial results")), h)
            else (Ok (stopAt start last items err results), h)
        end
  end.

(** [pipelineDetailedOnLane] on a connection that negotiated pipelines of
    [maxCommands] commands, at least one. *)
Definition pipelineDetailed (maxCommands : nat) (commands : list command) (h : history)
  : result goError (list itemResult) * history :=
  match commands with
  | [] => (Ok [], h)
  | _ =>
      if existsb (fun c => bool_decide (is_Some (connectionStateMutationCommand c))) commands
      then (Err (ErrText (go "connection-local command in a pipeline")), h)
      else
        pipelineLoop (S (length commands)) maxCommands commands 0
          (replicate (length commands) emptyItem) h
  end.

(** ** What a run did *)








(** ** Chunks *)

Definition builds (commands : list command) : Prop := Forall (fun c => is_ok (buildItem c) = true) commands.

Lemma buildItems_ok commands : builds commands -> forall idx policy, is_ok (buildItems idx policy commands) = true.
Proof.
  induction 1 as [|c rest Hc _ IH]; intros idx policy; cbn [buildItems]; [done|].
  destruct (buildItem c) as [item|e]; [|done].
  specialize (IH (S idx) (addPolicy policy item)). destruct (buildItems _ _ rest) as [[]|]; done.
Qed.

Lemma payload_error commands e :
  builds commands -> nativePipelinePayload commands = Err e -> e = OtherError (ErrLimit maxFrameBytes).
Proof.
  intros Hb H. unfold nativePipelinePayload in H. pose proof (buildItems_ok commands Hb 0 noPolicy) as Hok.
  destruct (buildItems 0 noPolicy commands) as [[items policy]|]; [|done]. cbn in H.
  destruct (_ && _); [|done]. by destruct (compactPipelinePlanWithLimit commands maxFrameBytes); simplify_eq.
Qed.










Lemma take_ne {A} k (l : list A) : (1 <= k)%nat -> l <> [] -> take k l <> [].
Proof. destruct k, l; [lia|lia|done|done]. Qed.

Lemma drop_ne {A} k (l : list A) : (k < length l)%nat -> drop k l <> [].
Proof. intros Hk Hnil. pose proof (length_drop l k) as Hl. rewrite Hnil in Hl. cbn in Hl. lia. Qed.

Lemma half_bounds n : (2 <= n)%nat -> (1 <= n / 2)%nat /\ (n / 2 < n)%nat.
Proof. intros H. split; [apply Nat.div_str_pos; lia|apply Nat.div_lt; lia]. Qed.


(** ** The results array *)

Lemma copyAt_eq pre items n x : (length items <= n)%nat ->
  copyAt (length pre) items (pre ++ replicate n x) = pre ++ items ++ replicate (n - length items) x.
Proof.
  intros Hn. unfold copyAt. rewrite <- (Nat.add_0_r (length pre)), list_inserts_app_r. f_equal.
  replace n with (length items + (n - length items))%nat at 1 by lia.
  rewrite replicate_add. apply list_inserts_0_r. by rewrite length_replicate.
Qed.



(** After a failure: the outcomes so far, the failed commands, those not executed. *)
Definition failedItem (err : goError) : itemResult := set_err err emptyItem.


(** ** The loop over chunks *)



Lemma segment_props commands start last :
  (start < last <= length commands)%nat -> builds commands ->
  builds (segment start last commands) /\ segment start last commands <> [] /\
  length (segment start last commands) = (last - start)%nat.
Proof.
  intros H Hb. assert (Hlen : length (segment start last commands) = (last - start)%nat).
  { unfold segment. rewrite length_take, length_drop. lia. }
  split_and!; [by apply Forall_take, Forall_drop| |done].
  intros Hnil. rewrite Hnil in Hlen. cbn in Hlen. lia.
Qed.


(** ** A server that answers *)

(** What a server makes of a command. *)
Inductive outcome :=
| Done (v : val)
| Refused (kind : gstr) (v : val)
| Claimed (c : C).

(** A command as a server reads it from a request: an opcode and its body, or texts. *)
Inductive wireCommand := ByOpcode (opcode : Z) (body : val) | ByTexts (texts : list gstr).

(** The items of a generic pipeline: a lane, and identifiers counted from 1. *)
Definition readItem (lane index : Z) (item : val) : option wireCommand :=
  match item with
  | VMap _ m =>
      match assoc_get (go "opcode") m, assoc_get (go "lane_id") m, assoc_get (go "request_id") m, assoc_get (go "body") m with
      | Some (VInt _ opcode), Some (VInt _ lane'), Some (VInt _ id), Some body =>
          if (lane' =? lane) && (id =? index) then Some (ByOpcode opcode body) else None
      | _, _, _, _ => None
      end
  | _ => None
  end.

Fixpoint readItems (lane index : Z) (items : list val) : option (list wireCommand) :=
  match items with
  | [] => Some []
  | item :: items =>
      match readItem lane index item, readItems lane (index + 1) items with
      | Some command, Some commands => Some (command :: commands)
      | _, _ => None
      end
  end.

Definition readGeneric (lane : Z) (value : val) : option (list wireCommand) :=
  match value with
  | VMap _ m =>
      match assoc_get (go "atomicity") m, assoc_get (go "return") m, assoc_get (go "commands") m with
      | Some (VString atomicity), Some (VString return_), Some (VArray _ items) =>
          if bool_decide (atomicity = go "none") && bool_decide (return_ = go "compact") then readItems lane 1 items else None
      | _, _, _ => None
      end
  | _ => None
  end.

(** The commands a server reads from the payload of a request, as it is sent. *)
Definition payloadCommands (lane : Z) (payload : pipePayload) : option (list wireCommand) :=
  match payload with
  | CompactPayload p => match readPipeline (CompactPipeline.encode p) with Some l => Some (ByTexts <$> l) | None => None end
  | ItemsPayload items => readGeneric lane (itemsValue lane items)
  end.

(** The forms of one item of an answer: a status with a value, as a pair or a map, or
    a value on its own. *)
Definition status_text (status : val) (kind : gstr) : Prop :=
  exists text, (status = VString text \/ status = VBytes text) /\ to_lower text = kind.

Definition pair_of (item status value : val) : Prop :=
  (exists id, item = VArray id [status; value]) \/
  (exists id m, item = VMap id m /\ assoc_get (go "status") m = Some status /\ default VNil (assoc_get (go "value") m) = value).

Definition bare_item (item : val) : Prop :=
  match item with VArray _ l => length l <> 2%nat | VMap _ m => assoc_get (go "status") m = None | _ => True end.

Definition item_says (out : outcome) (item : val) : Prop :=
  match out with
  | Done v => (bare_item item /\ item = v) \/ (exists status, status_text status (go "ok") /\ pair_of item status v)
  | Refused kind v => kind <> go "ok" /\ exists status, status_text status kind /\ pair_of item status v
  | Claimed _ => False
  end.

(** The forms of an answer to a pipeline. *)
Inductive reply_says : pipeReply -> list outcome -> Prop :=
| says_items id items outs : Forall2 item_says outs items -> reply_says (PipeValue (VArray id items)) outs
| says_values id values : reply_says (PipeCompact (VArray id values)) (Done <$> values)
| says_value v : (forall id l, v <> VArray id l) -> reply_says (PipeCompact v) [Done v]
| says_ok n : reply_says (PipeOKCount (Z.of_nat n)) (replicate n (Done (VBytes (go "OK"))))
| says_claims l : reply_says (PipeClaims l) (Claimed <$> l).

(** What a caller is told of an outcome. *)
Definition itemOf (out : outcome) : itemResult :=
  match out with
  | Done v => Item (ItemVal v) None
  | Refused kind v => Item (ItemVal VNil) (Some (ErrNative (Native nativeStatusError kind v)))
  | Claimed c => Item (ItemClaim c) None
  end.

Lemma item_says_value out item : item_says out item -> pipelineItemValue item = itemOf out.
Proof.
  assert (Hpair : forall status kind v, status_text status kind -> pair_of item status v ->
    pipelineItemValue item = if bool_decide (kind = go "ok") then Item (ItemVal v) None
                             else Item (ItemVal VNil) (Some (ErrNative (Native 1 kind v)))).
  { intros status kind v (text & Hs & <-) [(id & ->)|(id & m & -> & Hst & Hv)]; unfold pipelineItemValue; rewrite ?Hst, ?Hv;
      by destruct Hs as [-> | ->]. }
  destruct out as [v|kind v|c]; cbn [item_says itemOf]; [| |done].
  - intros [[Hb ->]|(status & Hs & Hp)]; [|by rewrite (Hpair _ _ _ Hs Hp)].
    destruct v; try done; cbn in *; [|by rewrite Hb].
    match goal with |- context [match ?l with _ => _ end] => by destruct l as [|? [|? [|]]] end.
  - intros [Hk (status & Hs & Hp)]. rewrite (Hpair _ _ _ Hs Hp). by rewrite bool_decide_false.
Qed.

Lemma reply_says_results reply outs : reply_says reply outs ->
  pipelineItemResults reply (length outs) = Ok (itemOf <$> outs).
Proof.
  destruct 1 as [id items outs Hi|id values|v Hv|n|l]; cbn [pipelineItemResults].
  - rewrite (Forall2_length _ _ _ Hi), Nat.eqb_refl. cbn [negb]. f_equal. induction Hi as [|out item outs items Ho _ IH]; [done|].
    cbn. by rewrite IH, (item_says_value _ _ Ho).
  - rewrite length_fmap, Nat.eqb_refl, <- list_fmap_compose. done.
  - destruct v; try done. by destruct (Hv id l).
  - rewrite length_replicate, Z.eqb_refl. cbn [negb]. by rewrite fmap_replicate.
  - rewrite length_fmap, Nat.eqb_refl, <- list_fmap_compose. done.
Qed.

Section Served.
Context {State : Type}.
(** How the server executes what it reads, and what the commands mean. *)
Context (lane : Z) (exec : State -> wireCommand -> outcome * State) (execute : State -> command -> outcome * State) (s0 : State).

(** Executing a sequence in order. *)
Fixpoint execInOrder {A} (step : State -> A -> outcome * State) (s : State) (l : list A) : list outcome * State :=
  match l with
  | [] => ([], s)
  | a :: l => let (out, s) := step s a in let (outs, s) := execInOrder step s l in (out :: outs, s)
  end.

(** The state behind the requests of a history. *)
Definition after (h : history) : State := (execInOrder execute s0 (concat h)).2.

(** Both forms of a command mean the same. *)
Definition understands : Prop :=
  (forall s c item, buildItem c = Ok item -> exec s (ByOpcode (c_opcode item) (c_body item)) = execute s c) /\
  (forall s c k, planned k c -> exec s (ByTexts (commandTexts c)) = execute s c).

(** A request is answered with the outcomes of the commands read from it, executed in
    order, or refused before it is sent because its several commands are over the frame
    limit; no command is refused as busy. *)
Definition server_answers : Prop :=
  (forall h payload policy requests, requests <> [] -> payloadCommands lane payload = Some requests ->
     (exists reply, send h payload policy = Ok reply /\ reply_says reply (execInOrder exec (after h) requests).1) \/
     ((2 <= length requests)%nat /\ exists err, send h payload policy = Err err /\ over_limit err = true)) /\
  (forall s c kind v, (execute s c).1 = Refused kind v -> busy_safe (ErrNative (Native nativeStatusError kind v)) = false).

Hypothesis Hunderstands : understands.
Hypothesis Hserver : server_answers.
Hypothesis Hframe : maxFrameBytes < 2 ^ 32.

(** Every command alone is within the frame limit. *)
Definition fits (commands : list command) : Prop :=
  Forall (fun c => is_ok (nativePipelinePayload [c]) = true) commands.

Lemma inOrder_app {A} (step : State -> A -> outcome * State) l1 : forall s l2,
  execInOrder step s (l1 ++ l2) =
    ((execInOrder step s l1).1 ++ (execInOrder step (execInOrder step s l1).2 l2).1, (execInOrder step (execInOrder step s l1).2 l2).2).
Proof.
  induction l1 as [|a l1 IH]; intros s l2; cbn [app execInOrder fst snd]; [by destruct (execInOrder step s l2)|].
  destruct (step s a) as [out s']. rewrite IH. destruct (execInOrder step s' l1) as [outs s'']. done.
Qed.

Lemma inOrder_length {A} (step : State -> A -> outcome * State) l : forall s, length (execInOrder step s l).1 = length l.
Proof.
  induction l as [|a l IH]; intros s; cbn [execInOrder]; [done|]. destruct (step s a) as [out s']. specialize (IH s').
  destruct (execInOrder step s' l) as [outs s'']. cbn in *. by rewrite IH.
Qed.

Lemma inOrder_same requests cs : Forall2 (fun r c => forall s, exec s r = execute s c) requests cs ->
  forall s, execInOrder exec s requests = execInOrder execute s cs.
Proof. induction 1 as [|r c requests cs Hr _ IH]; intros s; cbn [execInOrder]; [done|]. rewrite Hr. destruct (execute s c). by rewrite IH. Qed.

Lemma after_app h batches : after (h ++ batches) = (execInOrder execute (after h) (concat batches)).2.
Proof. unfold after. by rewrite concat_app, inOrder_app. Qed.

(** What the requests say is what the commands mean. *)
Lemma buildItems_all cs : forall idx policy items policy', buildItems idx policy cs = Ok (items, policy') ->
  Forall2 (fun c item => buildItem c = Ok item) cs items.
Proof.
  induction cs as [|c cs IH]; intros idx policy items policy' H; cbn [buildItems] in H; [injection H as <- <-; constructor|].
  destruct (buildItem c) as [item|] eqn:Hc; [|done]. apply rbind_ok in H as ([items' p'] & H & [= <- <-]).
  constructor; [done|by eapply IH].
Qed.

Lemma readItems_all items : forall n,
  readItems lane (Z.of_nat n + 1) (imap (fun idx c => VMap None [
       (go "opcode", VInt IInt64 (c_opcode c)); (go "lane_id", VInt IInt64 lane);
       (go "request_id", VInt IInt64 (Z.of_nat (n + idx) + 1)); (go "body", c_body c)]) items) =
  Some ((fun c => ByOpcode (c_opcode c) (c_body c)) <$> items).
Proof.
  induction items as [|c items IH]; intros n; [done|]. rewrite imap_cons. cbn [readItems fmap list_fmap].
  assert (readItem lane (Z.of_nat n + 1) (VMap None [(go "opcode", VInt IInt64 (c_opcode c)); (go "lane_id", VInt IInt64 lane);
       (go "request_id", VInt IInt64 (Z.of_nat (n + 0) + 1)); (go "body", c_body c)]) = Some (ByOpcode (c_opcode c) (c_body c))) as ->.
  { rewrite Nat.add_0_r.
    transitivity (if (lane =? lane) && (Z.of_nat n + 1 =? Z.of_nat n + 1) then Some (ByOpcode (c_opcode c) (c_body c)) else None);
      [reflexivity|by rewrite !Z.eqb_refl]. }
  specialize (IH (S n)). replace (Z.of_nat n + 1 + 1) with (Z.of_nat (S n) + 1) by lia.
  match goal with |- context [imap ?f items] => match type of IH with context [imap ?g items] =>
    rewrite (imap_ext f g) by (intros i x _; cbn; by rewrite Nat.add_succ_r) end end.
  by rewrite IH.
Qed.

Lemma generic_read cs items policy : buildItems 0 noPolicy cs = Ok (items, policy) ->
  exists requests, payloadCommands lane (ItemsPayload items) = Some requests /\
    Forall2 (fun r c => forall s, exec s r = execute s c) requests cs.
Proof.
  intros H. exists ((fun c => ByOpcode (c_opcode c) (c_body c)) <$> items).
  split; [exact (readItems_all items 0)|]. apply Forall2_fmap_l, Forall2_flip.
  eapply Forall2_impl; [by eapply buildItems_all|]. intros c item Hc s. by apply Hunderstands.
Qed.

Lemma payload_read cs payload policy : nativePipelinePayload cs = Ok (payload, policy) ->
  exists requests, payloadCommands lane payload = Some requests /\
    Forall2 (fun r c => forall s, exec s r = execute s c) requests cs.
Proof.
  unfold nativePipelinePayload. intros H.
  assert (Hgeneric : (let! (items, policy) := buildItems 0 noPolicy cs in Ok (ItemsPayload items, policy)) = Ok (payload, policy) ->
    exists requests, payloadCommands lane payload = Some requests /\ Forall2 (fun r c => forall s, exec s r = execute s c) requests cs).
  { intros Hg. apply rbind_ok in Hg as ([items p] & Hi & [= <- <-]). by eapply generic_read. }
  destruct (_ && _); [|by apply Hgeneric].
  destruct (compactPipelinePlanWithLimit cs maxFrameBytes) as [| |p] eqn:Hp; [by apply Hgeneric|done|]. injection H as <- <-.
  exists (ByTexts <$> (commandTexts <$> cs)). cbn [payloadCommands]. rewrite (compact_plan_read _ _ _ Hp Hframe). split; [done|].
  rewrite <- list_fmap_compose. apply Forall2_fmap_l, Forall_Forall2_diag.
  eapply Forall_impl; [by eapply plan_planned|]. intros c Hc s. by eapply Hunderstands.
Qed.

Lemma served_not_busy s b : b <> [] -> retryableBusyPipeline (itemOf <$> (execInOrder execute s b).1) = None.
Proof.
  intros Hb. destruct b as [|c b]; [done|]. unfold retryableBusyPipeline. cbn [execInOrder].
  destruct (execute s c) as [out s'] eqn:E. destruct (execInOrder execute s' b) as [outs s'']. cbn [fst fmap list_fmap forallb].
  destruct out as [v|kind v|x]; [done| |done]. cbn [itemOf i_err].
  by rewrite (proj2 Hserver s c kind v) by (by rewrite E).
Qed.

Lemma chunk_served fuel : forall cs h,
  builds cs -> fits cs -> cs <> [] -> (length cs < fuel)%nat ->
  exists batches, pipelineChunk fuel cs h = ((itemOf <$> (execInOrder execute (after h) cs).1, None), h ++ batches) /\ concat batches = cs.
Proof.
  induction fuel as [|fuel IH]; intros cs h Hb Hfit Hne Hf; [lia|]. cbn [pipelineChunk].
  match goal with |- context [if (length cs =? 1)%nat then ?a else ?b] =>
    set (split_ := if (length cs =? 1)%nat then a else b) end.
  assert (Hsplit : (2 <= length cs)%nat ->
    exists batches, split_ = ((itemOf <$> (execInOrder execute (after h) cs).1, None), h ++ batches) /\ concat batches = cs).
  { intros H2. unfold split_. destruct (Nat.eqb_spec (length cs) 1) as [H1|_]; [lia|].
    destruct (half_bounds (length cs) H2) as [Hm1 Hm2].
    destruct (IH (take (length cs / 2) cs) h) as (b1 & -> & Hb1);
      [by apply Forall_take|by apply Forall_take|by apply take_ne|rewrite length_take; lia|].
    destruct (IH (drop (length cs / 2) cs) (h ++ b1)) as (b2 & -> & Hb2);
      [by apply Forall_drop|by apply Forall_drop|by apply drop_ne|rewrite length_drop; lia|].
    exists (b1 ++ b2). rewrite concat_app, Hb1, Hb2, take_drop, (assoc_L (++)). split; [|done].
    pose proof (inOrder_app execute (take (length cs / 2) cs) (after h) (drop (length cs / 2) cs)) as Hcut. rewrite take_drop in Hcut.
    by rewrite after_app, Hb1, <- fmap_app, Hcut. }
  destruct (nativePipelinePayload cs) as [[payload policy]|err] eqn:Hp.
  - destruct (payload_read _ _ _ Hp) as (requests & Hread & Hsame). pose proof (Forall2_length _ _ _ Hsame) as Hlen.
    destruct (proj1 Hserver h payload policy requests) as [(reply & Hr & Hi)|(H2 & err & -> & ->)];
      [by destruct requests, cs|done| |apply Hsplit; lia].
    rewrite (inOrder_same _ _ Hsame) in Hi. apply reply_says_results in Hi. rewrite inOrder_length in Hi.
    rewrite Hr, Hi, served_not_busy by done. exists [cs]. cbn. by rewrite app_nil_r.
  - rewrite (payload_error cs err Hb Hp). apply Hsplit.
    destruct cs as [|c [|c2 rest]]; [done| |cbn; lia].
    inversion Hfit as [|? ? Hc]; subst. by rewrite Hp in Hc.
Qed.

Lemma loop_served maxCommands commands : builds commands -> fits commands -> (1 <= maxCommands)%nat ->
  forall fuel start pre h, (start <= length commands)%nat -> length pre = start ->
  (length commands - start < fuel)%nat ->
  exists batches,
    pipelineLoop fuel maxCommands commands start (pre ++ replicate (length commands - start) emptyItem) h =
      (Ok (pre ++ (itemOf <$> (execInOrder execute (after h) (drop start commands)).1)), h ++ batches) /\
    concat batches = drop start commands.
Proof.
  intros Hb Hfit Hmax. induction fuel as [|fuel IH]; intros start pre h Hle Hpre Hf; [lia|]. cbn [pipelineLoop].
  destruct (Nat.leb_spec (length commands) start) as [Hdone|Hmore].
  { exists []. rewrite drop_ge by done. replace (length commands - start)%nat with 0%nat by lia.
    split; [|done]. by rewrite !app_nil_r. }
  set (last := min (start + maxCommands) (length commands)).
  assert (Hlast : (start < last <= length commands)%nat) by lia.
  destruct (segment_props commands start last Hlast Hb) as (Hbs & Hne & Hlen).
  destruct (chunk_served (S (last - start)) (segment start last commands) h Hbs
    ltac:(by apply Forall_take, Forall_drop) Hne ltac:(lia)) as (b1 & -> & Hb1).
  replace (copyAt start) with (copyAt (length pre)) by (by rewrite Hpre). rewrite copyAt_eq by (rewrite length_fmap, inOrder_length; lia).
  rewrite length_fmap, inOrder_length, Hlen, (assoc_L (++)).
  replace (length commands - start - (last - start))%nat with (length commands - last)%nat by lia.
  destruct (IH last (pre ++ (itemOf <$> (execInOrder execute (after h) (segment start last commands)).1)) (h ++ b1)) as (b2 & -> & Hb2);
    [lia|rewrite length_app, length_fmap, inOrder_length; lia|lia|].
  assert (Hcat : segment start last commands ++ drop last commands = drop start commands).
  { unfold segment. rewrite <- (take_drop (last - start) (drop start commands)) at 2. rewrite drop_drop.
    do 2 f_equal. lia. }
  exists (b1 ++ b2). pose proof (inOrder_app execute (segment start last commands) (after h) (drop last commands)) as Hcut. rewrite Hcat in Hcut.
  rewrite <- !(assoc_L (++)), <- fmap_app, after_app, Hb1, Hcut. split; [done|].
  by rewrite concat_app, Hb1, Hb2.
Qed.
End Served.

(** ** Properties *)

Definition no_local (commands : list command) : Prop :=
  Forall (fun c => connectionStateMutationCommand c = None) commands.

Lemma no_local_false commands : no_local commands ->
  existsb (fun c => bool_decide (is_Some (connectionStateMutationCommand c))) commands = false.
Proof.
  induction 1 as [|c rest Hc _ IH]; cbn; [done|]. rewrite IH, orb_false_r.
  apply bool_decide_eq_false. rewrite Hc. apply is_Some_None.
Qed.

(** C11: a pipeline is exact. Of commands that can all be built, of which each alone fits
    a frame and none is about the connection itself, sent to a server that executes, in
    order, the commands it reads from each request and reports their outcomes: the result
    holds at every place the outcome of that command when the commands are executed one
    after the other, and the requests carried every command exactly once and in order,
    however the pipeline was cut by the number of commands and the size of frames, and
    whichever form the requests and the answers have. *)
Theorem pipeline_exact {State} lane exec execute (s0 : State) maxCommands commands h :
  understands exec execute -> server_answers lane exec execute s0 -> maxFrameBytes < 2 ^ 32 ->
  builds commands -> fits commands -> no_local commands -> (1 <= maxCommands)%nat ->
  exists batches,
    pipelineDetailed maxCommands commands h =
      (Ok (itemOf <$> (execInOrder execute (after execute s0 h) commands).1), h ++ batches) /\
    concat batches = commands.
Proof.
  intros Hu Hs Hframe Hb Hfit Hl Hmax. unfold pipelineDetailed. destruct commands as [|c rest].
  { exists []. by rewrite app_nil_r. }
  rewrite (no_local_false _ Hl).
  destruct (loop_served lane exec execute s0 Hu Hs Hframe maxCommands (c :: rest) Hb Hfit Hmax (S (length (c :: rest))) 0 [] h)
    as (batches & Hrun & Hc); [lia|done|lia|].
  exists batches. split; [exact Hrun|exact Hc].
Qed.

End Pipeline.


(** ** A run *)

Definition text (s : String.string) : arg := Arg (VString (go s)).

(** A builder that knows one failure: LOCK without its owner and time. *)
Definition example_item (c : command) : nativeCommand :=
  NativeCommand nativeOpCommandExec (VArray None (VString <$> commandTexts c)) (Budget false 0) nativeReplayDefault.

Definition example_build (c : command) : result goError nativeCommand :=
  match c with
  | [verb; _] =>
      if is_part (go "LOCK") verb then Err (ErrText (go "LOCK requires key, owner and ttl_ms")) else Ok (example_item c)
  | _ => Ok (example_item c)
  end.

(** A server that counts the messages published, and refuses those to one channel. *)
Definition example_texts (count : Z) (texts : list gstr) : outcome (C := unit) * Z :=
  match texts with
  | [_; channel; _] =>
      if bool_decide (channel = go "full") then (Refused (go "overflow") (VInt IInt64 count), count)
      else (Done (VInt IInt64 (count + 1)), count + 1)
  | _ => (Done VNil, count)
  end.

Definition example_exec (count : Z) (c : wireCommand) : outcome (C := unit) * Z :=
  match c with
  | ByTexts texts => example_texts count texts
  | ByOpcode _ (VArray _ texts) => example_texts count ((fun v => default [] (commandText v)) <$> texts)
  | ByOpcode _ _ => (Done VNil, count)
  end.

Definition example_execute (count : Z) (c : command) : outcome (C := unit) * Z := example_texts count (commandTexts c).

Definition example_pair (out : outcome (C := unit)) : val :=
  match out with
  | Done v => VArray None [VString (go "ok"); v]
  | Refused kind v => VArray None [VBytes kind; v]
  | Claimed _ => VNil
  end.

Definition example_lane : Z := 1.

Definition example_send (h : list (list command)) (payload : pipePayload) (policy : nativeCommandExecutionPolicy)
  : result goError (pipeReply (C := unit)) :=
  match payloadCommands example_lane payload with
  | Some requests =>
      Ok (PipeValue (VArray None (example_pair <$> (execInOrder example_exec (after example_execute 0 h) requests).1)))
  | None => Err (ErrText (go "bad request"))
  end.

Definition example_wait (h : list (list command)) (delay : Z) : option ctxError := None.

Definition example_run (limit : Z) (maxCommands : nat) (commands : list command) :=
  pipelineDetailed (fun _ => []) example_build limit true true example_send example_wait maxCommands commands [].

Lemma example_understands : understands example_build example_exec example_execute.
Proof.
  split; [|done]. intros s c item H.
  assert (item = example_item c) as ->.
  { unfold example_build in H. destruct c as [|verb [|a [|b c]]]; try by injection H as <-. destruct (is_part _ verb); [done|by injection H as <-]. }
  cbn [example_item c_opcode c_body example_exec]. unfold example_execute. f_equal. rewrite <- list_fmap_compose.
  induction (commandTexts c) as [|text texts IH]; [done|]. cbn. by rewrite IH.
Qed.

Lemma example_outcomes requests : forall s,
  Forall2 item_says (execInOrder example_exec s requests).1 (example_pair <$> (execInOrder example_exec s requests).1).
Proof.
  assert (Hone : forall s r, item_says (example_exec s r).1 (example_pair (example_exec s r).1)).
  { assert (Htexts : forall s texts, item_says (example_texts s texts).1 (example_pair (example_texts s texts).1)).
    { intros s texts. unfold example_texts.
      assert (Hdone : forall v, item_says (C := unit) (Done v) (VArray None [VString (go "ok"); v])).
      { intros v. right. exists (VString (go "ok")). split; [exists (go "ok"); split; [by left|done]|left; by exists None]. }
      destruct texts as [|a [|b [|c [|]]]]; try apply Hdone. destruct (bool_decide _); [|apply Hdone].
      split; [done|]. exists (VBytes (go "overflow")). split; [exists (go "overflow"); split; [by right|done]|left; by exists None]. }
    intros s [opcode []|texts]; try apply Htexts;
      right; (exists (VString (go "ok"))); (split; [exists (go "ok"); split; [by left|done]|left; by exists None]). }
  induction requests as [|r requests IH]; intros s; cbn [execInOrder]; [constructor|]. specialize (Hone s r).
  destruct (example_exec s r) as [out s']. specialize (IH s'). destruct (execInOrder example_exec s' requests). cbn. by constructor.
Qed.

Lemma example_answers : server_answers example_send example_lane example_exec example_execute 0.
Proof.
  split.
  - intros h payload policy requests _ H. left. unfold example_send. rewrite H. eexists. split; [reflexivity|].
    constructor. apply example_outcomes.
  - intros s c kind v. unfold example_execute, example_texts. destruct (commandTexts c) as [|a [|b [|d [|]]]]; try done.
    destruct (bool_decide _); [|done]. by intros [= <- <-].
Qed.

Definition example_commands : list command := [
  [text "PUBLISH"; text "c"; text "m1"]; [text "PUBLISH"; text "c"; text "m2"]; [text "PUBLISH"; text "c"; text "m3"]].

(** A mixed batch, which is sent in the generic form, and a refusal in it. *)
Definition example_batch : list command := [
  [text "PUBLISH"; text "c"; text "m1"]; [text "SET"; text "k"; text "v"]; [text "PUBLISH"; text "full"; text "m3"]].

(** Three commands, two to a request, each request over the frame limit and split. *)
Lemma pipeline_exact_witness :
  example_run 20 2 example_commands =
    (Ok [Item (ItemVal (VInt IInt64 1)) None; Item (ItemVal (VInt IInt64 2)) None; Item (ItemVal (VInt IInt64 3)) None],
     (fun c => [c]) <$> example_commands) /\
  (exists batches,
    example_run 20 2 example_commands = (Ok (itemOf <$> (execInOrder example_execute 0 example_commands).1), [] ++ batches) /\
    concat batches = example_commands) /\
  (exists batches,
    example_run 1000 2 example_batch = (Ok (itemOf <$> (execInOrder example_execute 0 example_batch).1), [] ++ batches) /\
    concat batches = example_batch) /\
  (execInOrder example_execute 0 example_batch).1 =
    [Done (VInt IInt64 1); Done (VInt IInt64 2); Refused (go "overflow") (VInt IInt64 2)].
Proof.
  split; [vm_compute; reflexivity|].
  split; [|split; [|vm_compute; reflexivity]];
    [apply (pipeline_exact (fun _ => []) example_build 20 true true example_send example_wait example_lane example_exec example_execute 0 2 example_commands [])
    |apply (pipeline_exact (fun _ => []) example_build 1000 true true example_send example_wait example_lane example_exec example_execute 0 2 example_batch [])];
    first [apply example_understands|apply example_answers|lia|repeat constructor].
Defined.




(** ** A build error behind a split *)

(** When a chunk is split because its compact form is over the frame limit and
    a command of the second half cannot be built, its index in that half is taken
    for its index in the chunk: the first command is sent a second time, the second
    one is never sent and is given the error of the third. *)
Theorem pipeline_build_error_after_split :
  let commands := [[text "PUBLISH"; text "c"; text "m1"]; [text "PUBLISH"; text "c"; text "m2"];
                   [text "LOCK"; text "k"]] in
  let invalid := ErrText (go "LOCK requires key, owner and ttl_ms") in
  is_ok (nativePipelinePayload example_build 20 true true [[text "PUBLISH"; text "c"; text "m2"]]) = true /\
  example_run 20 3 commands =
    (Ok [Item (ItemVal (VInt IInt64 2)) None; failedItem invalid; failedItem invalid],
     [[[text "PUBLISH"; text "c"; text "m1"]]; [[text "PUBLISH"; text "c"; text "m1"]]]).
Proof. split; vm_compute; reflexivity. Qed.
