(* ===== verification/SessionGate.v ===== *)
(** The gate between requests and transactions (src/session.go): a reader/writer
    gate whose acquisitions can be cancelled. Requests hold the reader side for a
    moment, a transaction holds the writer side for its lifetime, and no reader
    enters while a writer waits.

    One definition per critical section of the gate's mutex; goroutines interleave
    the sections. Waiters sleep on a channel that a change closes and replaces:
    channels are numbered, and every channel but the current one is closed. *)

From S2P Require Export Prelude.

Record sessionGate := Gate {
  readers : nat;
  writer : bool;
  waitingWriters : nat;
  changed : option nat;     (* the current channel; [None] for nil *)
  channels : nat;           (* channels made so far *)
}.

Definition newSessionGate : sessionGate := Gate 0 false 0 None 0.

(** [changedLocked]: the gate and the channel to wait on. *)
Definition changedLocked (g : sessionGate) : sessionGate * nat :=
  match changed g with
  | Some c => (g, c)
  | None => (Gate (readers g) (writer g) (waitingWriters g) (Some (channels g)) (S (channels g)), channels g)
  end.

Definition signalLocked (g : sessionGate) : sessionGate :=
  match changed g with
  | None => g
  | Some _ => Gate (readers g) (writer g) (waitingWriters g) (Some (channels g)) (S (channels g))
  end.

Definition mayRead (g : sessionGate) : bool := negb (writer g) && (waitingWriters g =? 0)%nat.
Definition mayWrite (g : sessionGate) : bool := negb (writer g) && (readers g =? 0)%nat.

(** One turn of the loop of [readLock]: [None] when the lock is taken, the channel
    to wait on otherwise. *)
Definition readTurn (g : sessionGate) : sessionGate * option nat :=
  if mayRead g then (Gate (S (readers g)) (writer g) (waitingWriters g) (changed g) (channels g), None)
  else let (g, c) := changedLocked g in (g, Some c).

Definition tryReadLock (g : sessionGate) : sessionGate * bool :=
  if mayRead g then (Gate (S (readers g)) (writer g) (waitingWriters g) (changed g) (channels g), true)
  else (g, false).

Definition readUnlock (g : sessionGate) : sessionGate :=
  let g := Gate (pred (readers g)) (writer g) (waitingWriters g) (changed g) (channels g) in
  if (readers g =? 0)%nat then signalLocked g else g.

(** The registration at the start of [lock], one turn of its loop, and its deferred
    function when the lock was not taken. *)
Definition lockRegister (g : sessionGate) : sessionGate :=
  Gate (readers g) (writer g) (S (waitingWriters g)) (changed g) (channels g).

Definition lockTurn (g : sessionGate) : sessionGate * option nat :=
  if mayWrite g then (Gate (readers g) true (pred (waitingWriters g)) (changed g) (channels g), None)
  else let (g, c) := changedLocked g in (g, Some c).

Definition lockAbandon (g : sessionGate) : sessionGate :=
  signalLocked (Gate (readers g) (writer g) (pred (waitingWriters g)) (changed g) (channels g)).

Definition unlock (g : sessionGate) : sessionGate :=
  if writer g then signalLocked (Gate (readers g) false (waitingWriters g) (changed g) (channels g)) else g.

(** ** Goroutines *)

(** Where a goroutine is: about to take its next turn, asleep on a channel, inside,
    or about to withdraw its registration. *)
Inductive phase :=
| Reading | ReadAsleep (c : nat) | ReadInside
| Locking | LockAsleep (c : nat) | LockInside | LockLeaving.

#[global] Instance gate_phase_eq_dec : EqDecision phase.
Proof. solve_decision. Defined.

Record gateWorld := World { gate : sessionGate; procs : gmap nat phase }.

(** A channel is closed once another one is current. *)
Definition closed (g : sessionGate) (c : nat) : Prop := changed g <> Some c.

Definition after_read (r : option nat) : phase := match r with None => ReadInside | Some c => ReadAsleep c end.
Definition after_lock (r : option nat) : phase := match r with None => LockInside | Some c => LockAsleep c end.

Definition to (w : nat) (p : phase) (g : sessionGate) (s : gateWorld) : gateWorld := World g (<[w := p]> (procs s)).
Definition gone (w : nat) (g : sessionGate) (s : gateWorld) : gateWorld := World g (delete w (procs s)).

(** A cancelled context ends a [readLock] and sends a [lock] to its deferred
    function, before a turn or in the [select]. *)
Inductive gate_step : gateWorld -> gateWorld -> Prop :=
| ReadStart s w : procs s !! w = None -> gate_step s (to w Reading (gate s) s)
| ReadTurn s w : procs s !! w = Some Reading ->
    gate_step s (to w (after_read (readTurn (gate s)).2) (readTurn (gate s)).1 s)
| ReadWake s w c : procs s !! w = Some (ReadAsleep c) -> closed (gate s) c -> gate_step s (to w Reading (gate s) s)
| ReadCancel s w p : procs s !! w = Some p -> p = Reading \/ (exists c, p = ReadAsleep c) -> gate_step s (gone w (gate s) s)
| ReadTry s w : procs s !! w = None -> (tryReadLock (gate s)).2 = true ->
    gate_step s (to w ReadInside (tryReadLock (gate s)).1 s)
| ReadLeave s w : procs s !! w = Some ReadInside -> gate_step s (gone w (readUnlock (gate s)) s)
| LockStart s w : procs s !! w = None -> gate_step s (to w Locking (lockRegister (gate s)) s)
| LockTurn s w : procs s !! w = Some Locking ->
    gate_step s (to w (after_lock (lockTurn (gate s)).2) (lockTurn (gate s)).1 s)
| LockWake s w c : procs s !! w = Some (LockAsleep c) -> closed (gate s) c -> gate_step s (to w Locking (gate s) s)
| LockCancel s w p : procs s !! w = Some p -> p = Locking \/ (exists c, p = LockAsleep c) ->
    gate_step s (to w LockLeaving (gate s) s)
| LockWithdraw s w : procs s !! w = Some LockLeaving -> gate_step s (gone w (lockAbandon (gate s)) s)
| LockLeave s w : procs s !! w = Some LockInside -> gate_step s (gone w (unlock (gate s)) s).

Inductive gate_reachable : gateWorld -> Prop :=
| gate_start : gate_reachable (World newSessionGate ∅)
| gate_next s s' : gate_reachable s -> gate_step s s' -> gate_reachable s'.

(** ** Counting goroutines *)

Definition count (P : phase -> bool) (m : gmap nat phase) : nat := size (filter (fun kv => P kv.2 = true) m).

Definition b2n (b : bool) : nat := if b then 1%nat else 0%nat.

Lemma count_new P m w p : m !! w = None -> count P (<[w := p]> m) = (b2n (P p) + count P m)%nat.
Proof.
  intros Hw. unfold count. destruct (P p) eqn:E.
  - rewrite map_filter_insert_True by done. rewrite map_size_insert_None; [done|].
    apply map_lookup_filter_None. by left.
  - rewrite map_filter_insert_False by (cbn; congruence). by rewrite delete_id.
Qed.

Lemma count_delete P m w p : m !! w = Some p -> (b2n (P p) + count P (delete w m))%nat = count P m.
Proof.
  intros Hw. rewrite <- (insert_delete_id m w p) at 2 by done. symmetry. apply count_new, lookup_delete_eq.
Qed.

Lemma count_insert P m w p q : m !! w = Some q ->
  (b2n (P q) + count P (<[w := p]> m))%nat = (b2n (P p) + count P m)%nat.
Proof.
  intros Hw. rewrite <- (insert_delete_eq m w p), count_new by apply lookup_delete_eq.
  pose proof (count_delete P m w q Hw). lia.
Qed.

Lemma count_pos P m w p : m !! w = Some p -> P p = true -> (1 <= count P m)%nat.
Proof. intros Hw HP. pose proof (count_delete P m w p Hw). rewrite HP in *. cbn in *. lia. Qed.

Lemma count_zero P m w p : count P m = 0%nat -> m !! w = Some p -> P p = false.
Proof. intros H0 Hw. destruct (P p) eqn:E; [|done]. pose proof (count_pos P m w p Hw E). lia. Qed.

Lemma count_exists P m : (1 <= count P m)%nat -> exists w p, m !! w = Some p /\ P p = true.
Proof.
  intros H. unfold count in H.
  destruct (map_choose (filter (fun kv : nat * phase => P kv.2 = true) m)) as (w & p & Hw).
  - intros He. rewrite He, map_size_empty in H. lia.
  - apply map_lookup_filter_Some in Hw as [Hw HP]. by exists w, p.
Qed.

Definition is_reader (p : phase) : bool := match p with ReadInside => true | _ => false end.
Definition is_writer (p : phase) : bool := match p with LockInside => true | _ => false end.
Definition is_waiting (p : phase) : bool := match p with Locking | LockAsleep _ | LockLeaving => true | _ => false end.

(** ** The invariant *)

(** A sleeper on the current channel has something to wait for. *)
Definition sleeper_ok (g : sessionGate) (p : phase) : Prop :=
  match p with
  | ReadAsleep c => (c < channels g)%nat /\ (changed g = Some c -> mayRead g = false)
  | LockAsleep c => (c < channels g)%nat /\ (changed g = Some c -> mayWrite g = false)
  | _ => True
  end.

Record gate_inv (s : gateWorld) : Prop := {
  gate_readers : readers (gate s) = count is_reader (procs s);
  gate_writer : b2n (writer (gate s)) = count is_writer (procs s);
  gate_waiting : waitingWriters (gate s) = count is_waiting (procs s);
  gate_exclusive : writer (gate s) = true -> readers (gate s) = 0%nat;
  gate_channel : forall c, changed (gate s) = Some c -> (c < channels (gate s))%nat;
  gate_sleepers : forall w p, procs s !! w = Some p -> sleeper_ok (gate s) p;
}.

(** Sleepers stay well placed when the gate does not open for them silently. *)
Definition quiet (g g' : sessionGate) : Prop :=
  (channels g <= channels g')%nat /\
  (forall c, (c < channels g)%nat -> changed g' = Some c ->
     changed g = Some c /\ (mayRead g = false -> mayRead g' = false) /\ (mayWrite g = false -> mayWrite g' = false)).

Lemma sleeper_quiet g g' p : quiet g g' -> sleeper_ok g p -> sleeper_ok g' p.
Proof.
  intros [Hch Hq]. destruct p as [|c| | |c| |]; try done; intros [Hc Hok]; (split; [lia|]); intros Hcur;
    destruct (Hq c Hc Hcur) as (H1 & Hr & Hw); auto.
Qed.

Lemma quiet_signal g r w n : quiet g (signalLocked (Gate r w n (changed g) (channels g))).
Proof.
  unfold signalLocked. cbn. destruct (changed g) as [c0|] eqn:E; split; cbn; try lia.
  - intros c Hc Hcur. assert (channels g = c) by congruence. lia.
  - intros c Hc Hcur. congruence.
Qed.

Lemma signal_fields g :
  readers (signalLocked g) = readers g /\ writer (signalLocked g) = writer g /\
  waitingWriters (signalLocked g) = waitingWriters g.
Proof. unfold signalLocked. by destruct (changed g). Qed.

Lemma signal_channel g : (forall c, changed g = Some c -> (c < channels g)%nat) ->
  forall c, changed (signalLocked g) = Some c -> (c < channels (signalLocked g))%nat.
Proof. intros Hlt c. unfold signalLocked. destruct (changed g) eqn:E; cbn; [intros [= <-]; lia|congruence]. Qed.

Lemma changedLocked_facts g : (forall c, changed g = Some c -> (c < channels g)%nat) ->
  let g' := (changedLocked g).1 in let c := (changedLocked g).2 in
  readers g' = readers g /\ writer g' = writer g /\ waitingWriters g' = waitingWriters g /\
  changed g' = Some c /\ (c < channels g')%nat /\ quiet g g'.
Proof.
  intros Hlt. unfold changedLocked. destruct (changed g) as [c|] eqn:E; cbn.
  - split_and!; try (done || by apply Hlt).
  - split_and!; try (done || lia). split; cbn; [lia|]. intros c' Hc' Heq.
    assert (channels g = c') by congruence. lia.
Qed.

(** A step of [w] that leaves it in phase [p], the gate having gone quietly to [g]. *)
Lemma inv_to s w p g :
  gate_inv s ->
  readers g = count is_reader (<[w := p]> (procs s)) -> b2n (writer g) = count is_writer (<[w := p]> (procs s)) ->
  waitingWriters g = count is_waiting (<[w := p]> (procs s)) -> (writer g = true -> readers g = 0%nat) ->
  (forall c, changed g = Some c -> (c < channels g)%nat) -> quiet (gate s) g -> sleeper_ok g p ->
  gate_inv (to w p g s).
Proof.
  intros Hs Hr Hw Hn Hx Hc Hq Hp. split; cbn; try done.
  intros v q [[<- <-]|[_ Hv]]%lookup_insert_Some; [done|]. eapply sleeper_quiet; [exact Hq|]. by eapply (gate_sleepers s).
Qed.

Lemma inv_gone s w g :
  gate_inv s ->
  readers g = count is_reader (delete w (procs s)) -> b2n (writer g) = count is_writer (delete w (procs s)) ->
  waitingWriters g = count is_waiting (delete w (procs s)) -> (writer g = true -> readers g = 0%nat) ->
  (forall c, changed g = Some c -> (c < channels g)%nat) -> quiet (gate s) g -> gate_inv (gone w g s).
Proof.
  intros Hs Hr Hw Hn Hx Hc Hq. split; cbn; try done.
  intros v q [_ Hv]%lookup_delete_Some. eapply sleeper_quiet; [exact Hq|]. by eapply (gate_sleepers s).
Qed.

Lemma quiet_refl g : quiet g g.
Proof. split; [done|]. auto. Qed.

Lemma quiet_fields g r w n :
  (mayRead g = false -> negb w && (n =? 0)%nat = false) -> (mayWrite g = false -> negb w && (r =? 0)%nat = false) ->
  quiet g (Gate r w n (changed g) (channels g)).
Proof. intros Hr Hw. split; [done|]. intros c _ Hc. split; [done|]. by split. Qed.

Lemma quiet_readUnlock g : quiet g (readUnlock g).
Proof.
  unfold readUnlock. cbn. destruct (pred (readers g) =? 0)%nat eqn:E; [apply quiet_signal|].
  apply quiet_fields; [done|]. intros _. by rewrite E, andb_false_r.
Qed.

Ltac counts s w p :=
  rewrite ?(count_new _ (procs s) w p), ?(gate_readers s), ?(gate_writer s), ?(gate_waiting s) by done.

(** Goroutines that are neither inside nor registered come and go freely. *)
Lemma inv_quiet_to s w p :
  gate_inv s -> is_reader p = false -> is_writer p = false -> is_waiting p = false -> sleeper_ok (gate s) p ->
  match procs s !! w with
  | Some q => is_reader q = false /\ is_writer q = false /\ is_waiting q = false
  | None => True
  end -> gate_inv (to w p (gate s) s).
Proof.
  intros Hs Hr Hw Hn Hp Hq.
  assert (Hcount : forall P : phase -> bool, P p = false ->
    match procs s !! w with Some q => P q = false | None => True end -> count P (<[w := p]> (procs s)) = count P (procs s)).
  { intros P HP HQ. destruct (procs s !! w) as [q|] eqn:E.
    - pose proof (count_insert P (procs s) w p q E) as Hc. rewrite HP, HQ in Hc. exact Hc.
    - rewrite count_new by done. by rewrite HP. }
  pose proof Hs as [Hrs Hws Hns Hx Hc Hsl]. pose proof (quiet_refl (gate s)).
  assert (Hq' : forall P, (forall q, procs s !! w = Some q -> P q = false) ->
    match procs s !! w with Some q => P q = false | None => True end) by (intros P HP; destruct (procs s !! w); auto).
  apply inv_to; try done; rewrite Hcount; try done; apply Hq'; intros q Eq; rewrite Eq in Hq; tauto.
Qed.

Lemma asleep_gone s w p :
  gate_inv s -> procs s !! w = Some p -> is_reader p = false -> is_writer p = false -> is_waiting p = false ->
  gate_inv (gone w (gate s) s).
Proof.
  intros Hs Hw Hr Hwr Hn. pose proof (count_delete is_reader _ _ _ Hw) as H1.
  pose proof (count_delete is_writer _ _ _ Hw) as H2. pose proof (count_delete is_waiting _ _ _ Hw) as H3.
  rewrite Hr, Hwr, Hn in *. cbn in *. pose proof Hs as [Hrs Hws Hns Hx Hc Hsl].
  pose proof (quiet_refl (gate s)). apply inv_gone; congruence || done.
Qed.

(** What a step does to the three counts. *)
Lemma counts_to s w p q : procs s !! w = Some q ->
  (b2n (is_reader q) + count is_reader (<[w := p]> (procs s)) = b2n (is_reader p) + count is_reader (procs s))%nat /\
  (b2n (is_writer q) + count is_writer (<[w := p]> (procs s)) = b2n (is_writer p) + count is_writer (procs s))%nat /\
  (b2n (is_waiting q) + count is_waiting (<[w := p]> (procs s)) = b2n (is_waiting p) + count is_waiting (procs s))%nat.
Proof. intros H. split_and!; by apply count_insert. Qed.

Lemma counts_gone s w q : procs s !! w = Some q ->
  (b2n (is_reader q) + count is_reader (delete w (procs s)) = count is_reader (procs s))%nat /\
  (b2n (is_writer q) + count is_writer (delete w (procs s)) = count is_writer (procs s))%nat /\
  (b2n (is_waiting q) + count is_waiting (delete w (procs s)) = count is_waiting (procs s))%nat.
Proof. intros H. split_and!; by apply count_delete. Qed.

Lemma mayRead_true g : mayRead g = true -> writer g = false /\ waitingWriters g = 0%nat.
Proof. intros [H1%negb_true_iff H2%Nat.eqb_eq]%andb_true_iff. done. Qed.

Lemma mayWrite_true g : mayWrite g = true -> writer g = false /\ readers g = 0%nat.
Proof. intros [H1%negb_true_iff H2%Nat.eqb_eq]%andb_true_iff. done. Qed.

(** Taking the reader side, by [readLock] or [tryReadLock]. *)
Lemma inv_read_enter s w :
  gate_inv s -> mayRead (gate s) = true ->
  procs s !! w = None \/ procs s !! w = Some Reading ->
  gate_inv (to w ReadInside (Gate (S (readers (gate s))) (writer (gate s)) (waitingWriters (gate s))
    (changed (gate s)) (channels (gate s))) s).
Proof.
  intros Hs Hm Hw. destruct (mayRead_true _ Hm) as [Hwr Hn0]. pose proof Hs as [Hr Hwc Hn Hx Hc Hsl].
  assert (Hcount : (count is_reader (<[w := ReadInside]> (procs s)) = S (count is_reader (procs s)) /\
    count is_writer (<[w := ReadInside]> (procs s)) = count is_writer (procs s) /\
    count is_waiting (<[w := ReadInside]> (procs s)) = count is_waiting (procs s))%nat).
  { destruct Hw as [Hw|Hw]; [by rewrite !count_new by done|].
    destruct (counts_to s w ReadInside Reading Hw) as (H1 & H2 & H3). done. }
  destruct Hcount as (H1 & H2 & H3).
  apply inv_to; cbn; try done; [congruence..|]. apply quiet_fields; [congruence|].
  intros _. by rewrite andb_false_r.
Qed.

Lemma inv_asleep_read s w :
  gate_inv s -> procs s !! w = Some Reading -> mayRead (gate s) = false ->
  gate_inv (to w (ReadAsleep (changedLocked (gate s)).2) (changedLocked (gate s)).1 s).
Proof.
  intros Hs Hw Hm. pose proof Hs as [Hr Hwc Hn Hx Hc Hsl].
  destruct (changedLocked_facts (gate s) Hc) as (Er & Ew & En & Hcur & Hlt & Hq).
  destruct (counts_to s w (ReadAsleep (changedLocked (gate s)).2) Reading Hw) as (H1 & H2 & H3). cbn in *.
  apply inv_to; rewrite ?Er, ?Ew, ?En; try congruence; try done.
  split; [done|]. intros _. unfold mayRead. rewrite Ew, En. exact Hm.
Qed.

Lemma inv_asleep_lock s w :
  gate_inv s -> procs s !! w = Some Locking -> mayWrite (gate s) = false ->
  gate_inv (to w (LockAsleep (changedLocked (gate s)).2) (changedLocked (gate s)).1 s).
Proof.
  intros Hs Hw Hm. pose proof Hs as [Hr Hwc Hn Hx Hc Hsl].
  destruct (changedLocked_facts (gate s) Hc) as (Er & Ew & En & Hcur & Hlt & Hq).
  destruct (counts_to s w (LockAsleep (changedLocked (gate s)).2) Locking Hw) as (H1 & H2 & H3). cbn in *.
  apply inv_to; rewrite ?Er, ?Ew, ?En; try congruence; try done; try lia.
  split; [done|]. intros _. unfold mayWrite. rewrite Er, Ew. exact Hm.
Qed.

Lemma inv_lock_enter s w :
  gate_inv s -> procs s !! w = Some Locking -> mayWrite (gate s) = true ->
  gate_inv (to w LockInside (Gate (readers (gate s)) true (pred (waitingWriters (gate s)))
    (changed (gate s)) (channels (gate s))) s).
Proof.
  intros Hs Hw Hm. destruct (mayWrite_true _ Hm) as [Hwr Hr0]. pose proof Hs as [Hr Hwc Hn Hx Hc Hsl].
  destruct (counts_to s w LockInside Locking Hw) as (H1 & H2 & H3). cbn in *. rewrite Hwr in Hwc. cbn in Hwc.
  apply inv_to; cbn; try done; try congruence; try lia.
Qed.

Lemma inv_lock_start s w :
  gate_inv s -> procs s !! w = None -> gate_inv (to w Locking (lockRegister (gate s)) s).
Proof.
  intros Hs Hw. pose proof Hs as [Hr Hwc Hn Hx Hc Hsl].
  apply inv_to; cbn; try done; rewrite ?count_new by done; cbn; try congruence.
  apply quiet_fields; [|done]. intros _. by rewrite andb_false_r.
Qed.

Lemma inv_read_leave s w :
  gate_inv s -> procs s !! w = Some ReadInside -> gate_inv (gone w (readUnlock (gate s)) s).
Proof.
  intros Hs Hw. pose proof Hs as [Hr Hwc Hn Hx Hc Hsl].
  destruct (counts_gone s w ReadInside Hw) as (H1 & H2 & H3). cbn in *.
  pose proof (quiet_readUnlock (gate s)) as Hq. revert Hq. unfold readUnlock. cbn.
  destruct (_ =? _)%nat; intros Hq; apply inv_gone; try done;
    try (destruct (signal_fields (Gate (pred (readers (gate s))) (writer (gate s)) (waitingWriters (gate s))
           (changed (gate s)) (channels (gate s)))) as (E1 & E2 & E3); rewrite ?E1, ?E2, ?E3); cbn; try lia; try congruence.
  - intros Hwr. rewrite Hx; done.
  - apply signal_channel. exact Hc.
  - intros Hwr. rewrite Hx; done.
Qed.

Lemma inv_lock_withdraw s w :
  gate_inv s -> procs s !! w = Some LockLeaving -> gate_inv (gone w (lockAbandon (gate s)) s).
Proof.
  intros Hs Hw. pose proof Hs as [Hr Hwc Hn Hx Hc Hsl].
  destruct (counts_gone s w LockLeaving Hw) as (H1 & H2 & H3). cbn in *. unfold lockAbandon.
  destruct (signal_fields (Gate (readers (gate s)) (writer (gate s)) (pred (waitingWriters (gate s)))
    (changed (gate s)) (channels (gate s)))) as (E1 & E2 & E3).
  apply inv_gone; rewrite ?E1, ?E2, ?E3; cbn; try done; try lia; try congruence.
  - apply signal_channel. exact Hc.
  - apply quiet_signal.
Qed.

Lemma inv_lock_leave s w :
  gate_inv s -> procs s !! w = Some LockInside -> gate_inv (gone w (unlock (gate s)) s).
Proof.
  intros Hs Hw. pose proof Hs as [Hr Hwc Hn Hx Hc Hsl].
  destruct (counts_gone s w LockInside Hw) as (H1 & H2 & H3). cbn in *. unfold unlock.
  destruct (writer (gate s)) eqn:Ewr; [|cbn in *; lia].
  destruct (signal_fields (Gate (readers (gate s)) false (waitingWriters (gate s))
    (changed (gate s)) (channels (gate s)))) as (E1 & E2 & E3).
  apply inv_gone; rewrite ?E1, ?E2, ?E3; cbn in *; try done; try lia; try congruence.
  - apply signal_channel. exact Hc.
  - apply quiet_signal.
Qed.

Lemma gate_step_inv s s' : gate_inv s -> gate_step s s' -> gate_inv s'.
Proof.
  intros Hs Hstep. revert Hs.
  destruct Hstep as [s w Hw|s w Hw|s w c Hw Hcl|s w p Hw Hp|s w Hw Ht|s w Hw|s w Hw|s w Hw|s w c Hw Hcl
    |s w p Hw Hp|s w Hw|s w Hw]; intros Hs.
  - apply inv_quiet_to; try done. by rewrite Hw.
  - unfold readTurn. destruct (mayRead (gate s)) eqn:E; [apply inv_read_enter; auto|].
    pose proof (inv_asleep_read s w Hs Hw E) as H. by destruct (changedLocked (gate s)).
  - apply inv_quiet_to; try done. by rewrite Hw.
  - eapply asleep_gone; [done|exact Hw|..]; destruct Hp as [->|[c ->]]; done.
  - unfold tryReadLock in *. destruct (mayRead (gate s)) eqn:E; [apply inv_read_enter; auto|done].
  - by apply inv_read_leave.
  - by apply inv_lock_start.
  - unfold lockTurn. destruct (mayWrite (gate s)) eqn:E; [by apply inv_lock_enter|].
    pose proof (inv_asleep_lock s w Hs Hw E) as H. by destruct (changedLocked (gate s)).
  - destruct (counts_to s w Locking (LockAsleep c) Hw) as (H1 & H2 & H3). cbn in *. pose proof Hs as [Hr Hwc Hn Hx Hc Hsl].
    pose proof (quiet_refl (gate s)). apply inv_to; done || congruence || lia.
  - pose proof Hs as [Hr Hwc Hn Hx Hc Hsl]. destruct (counts_to s w LockLeaving p Hw) as (H1 & H2 & H3).
    destruct Hp as [->|[c ->]]; cbn in *; (pose proof (quiet_refl (gate s)); apply inv_to; done || congruence || lia).
  - by apply inv_lock_withdraw.
  - by apply inv_lock_leave.
Qed.

Lemma gate_reachable_inv s : gate_reachable s -> gate_inv s.
Proof.
  induction 1 as [|s s' _ IH Hstep]; [|by eapply gate_step_inv].
  by split.
Qed.

(** ** What the gate promises *)

Definition inside (p : phase) : bool := is_reader p || is_writer p.

Lemma inside_count P m w p v q :
  m !! w = Some p -> P p = true -> m !! v = Some q -> P q = true -> v <> w -> (2 <= count P m)%nat.
Proof.
  intros Hw HP Hv HQ Hne. pose proof (count_delete P m w p Hw) as H. rewrite HP in H. cbn in H.
  assert (Hv' : delete w m !! v = Some q) by (rewrite lookup_delete_ne; done).
  pose proof (count_pos P (delete w m) v q Hv' HQ). lia.
Qed.

(** A transaction has the gate for itself: while a goroutine is inside with the
    writer side no other goroutine is inside, on either side. *)
Theorem gate_exclusion s w v p :
  gate_reachable s -> procs s !! w = Some LockInside -> procs s !! v = Some p -> v <> w -> inside p = false.
Proof.
  intros Hr Hw Hv Hne. destruct (gate_reachable_inv s Hr) as [Hrs Hws _ Hx _ _].
  pose proof (count_pos is_writer _ _ _ Hw eq_refl) as Hone.
  assert (Ewr : writer (gate s) = true) by (destruct (writer (gate s)); cbn in *; [done|lia]).
  rewrite Ewr in Hws. cbn in Hws. specialize (Hx Ewr).
  unfold inside. apply orb_false_iff. split.
  - apply (count_zero is_reader (procs s) v p); [congruence|done].
  - apply not_true_is_false. intros HQ. pose proof (inside_count is_writer _ w LockInside v p Hw eq_refl Hv HQ Hne). lia.
Qed.

(** Whoever sleeps on the open channel waits for a goroutine that is inside or
    registered as a writer. *)
Lemma sleeper_reason s w p c :
  gate_inv s -> procs s !! w = Some p -> p = ReadAsleep c \/ p = LockAsleep c -> changed (gate s) = Some c ->
  (exists v q, procs s !! v = Some q /\ inside q = true) \/
  (p = ReadAsleep c /\ exists v q, procs s !! v = Some q /\ is_waiting q = true).
Proof.
  intros [Hrs Hws Hns Hx Hc Hsl] Hw Hp Hcur. pose proof (Hsl w p Hw) as Hok.
  assert (Hin : forall P, (forall q, P q = true -> inside q = true) -> (1 <= count P (procs s))%nat ->
    exists v q, procs s !! v = Some q /\ inside q = true).
  { intros P HP H. destruct (count_exists P _ H) as (v & q & Hv & HQ). eauto. }
  assert (Hwr : writer (gate s) = true -> exists v q, procs s !! v = Some q /\ inside q = true).
  { intros E. apply (Hin is_writer); [|rewrite <- Hws, E; cbn; lia]. intros q Hq. unfold inside. by rewrite Hq, orb_true_r. }
  destruct Hp as [->| ->]; destruct Hok as [_ Hok]; specialize (Hok Hcur);
    apply andb_false_iff in Hok as [E%negb_false_iff|E%Nat.eqb_neq]; auto.
  - right. split; [done|]. apply count_exists. lia.
  - left. apply (Hin is_reader); [|lia]. intros q Hq. unfold inside. by rewrite Hq.
Qed.

(** A goroutine that can move without being cancelled. *)
Definition awake (s : gateWorld) (p : phase) : Prop :=
  match p with ReadAsleep c | LockAsleep c => closed (gate s) c | _ => True end.

(** No wakeup is lost: whenever a goroutine is at the gate, some goroutine there can
    move without being cancelled (it is inside, about to take a turn or to withdraw, or
    asleep on a channel that has been closed), so the gate never strands its waiters. *)
Theorem gate_no_lost_wakeup s w p :
  gate_reachable s -> procs s !! w = Some p -> exists v q, procs s !! v = Some q /\ awake s q.
Proof.
  intros Hr Hw. pose proof (gate_reachable_inv s Hr) as Hs.
  assert (Hmoves : forall v q, procs s !! v = Some q -> inside q = true -> exists v q, procs s !! v = Some q /\ awake s q).
  { intros v q Hv Hq. exists v, q. by destruct q. }
  assert (Hlock : forall v c, procs s !! v = Some (LockAsleep c) -> exists v q, procs s !! v = Some q /\ awake s q).
  { intros v c Hv. destruct (decide (changed (gate s) = Some c)) as [E|E]; [|by exists v, (LockAsleep c)].
    destruct (sleeper_reason s v _ c Hs Hv (or_intror eq_refl) E) as [(u & q & Hu & Hq)|[? _]]; [eauto|done]. }
  destruct p as [|c| | |c| |]; try (eexists w, _; split; [exact Hw|exact I]); [|by eapply Hlock].
  destruct (decide (changed (gate s) = Some c)) as [E|E]; [|by exists w, (ReadAsleep c)].
  destruct (sleeper_reason s w _ c Hs Hw (or_introl eq_refl) E) as [(u & q & Hu & Hq)|[_ (u & q & Hu & Hq)]]; [eauto|].
  destruct q as [|c'| | |c'| |]; try done; [by exists u, Locking|by eapply Hlock|by exists u, LockLeaving].
Qed.

(** Writers are preferred: while a goroutine is registered as a writer no step lets a
    reader in. *)
Lemma gate_prefers_writers s s' w q v :
  gate_reachable s -> procs s !! w = Some q -> is_waiting q = true -> gate_step s s' ->
  procs s' !! v = Some ReadInside -> procs s !! v = Some ReadInside.
Proof.
  intros Hr Hw Hq Hstep. destruct (gate_reachable_inv s Hr) as [_ _ Hns _ _ _].
  pose proof (count_pos is_waiting _ _ _ Hw Hq) as Hpos.
  assert (Hm : mayRead (gate s) = false).
  { unfold mayRead. destruct (waitingWriters (gate s)); [lia|]. by rewrite andb_false_r. }
  destruct Hstep; cbn; unfold readTurn, tryReadLock in *; rewrite ?Hm in *;
    try (intros [[<- E]|[_ Hv]]%lookup_insert_Some; done); try (intros [_ Hv]%lookup_delete_Some; done).
  - destruct (changedLocked (gate s)). intros [[<- E]|[_ Hv]]%lookup_insert_Some; done.
  - unfold lockTurn. destruct (mayWrite _); [|destruct (changedLocked (gate s))];
      intros [[<- E]|[_ Hv]]%lookup_insert_Some; done.
Qed.

(** A transaction inside and a request asleep behind it. *)
Definition gate_sample : gateWorld :=
  World (Gate 0 true 0 (Some 0%nat) 1) {[ 2%nat := ReadAsleep 0; 1%nat := LockInside ]}.

Lemma gate_sample_reachable : gate_reachable gate_sample.
Proof.
  assert (H1 : gate_reachable (to 1 Locking (lockRegister newSessionGate) (World newSessionGate ∅))).
  { eapply gate_next; [apply gate_start|]. by apply LockStart. }
  eapply gate_next in H1; [|by apply (LockTurn _ 1)]. eapply gate_next in H1; [|by apply (ReadStart _ 2)].
  eapply gate_next in H1; [|by apply (ReadTurn _ 2)]. exact H1.
Qed.

Lemma gate_exclusion_witness :
  gate_reachable gate_sample /\ inside (ReadAsleep 0) = false.
Proof.
  split; [exact gate_sample_reachable|].
  apply (gate_exclusion gate_sample 1 2 (ReadAsleep 0)); [exact gate_sample_reachable|reflexivity..|discriminate].
Defined.

Lemma gate_no_lost_wakeup_witness : exists v q, procs gate_sample !! v = Some q /\ awake gate_sample q.
Proof. apply (gate_no_lost_wakeup gate_sample 2 (ReadAsleep 0)); [exact gate_sample_reachable|reflexivity]. Defined.
