(* ===== verification/Validation.v ===== *)
(** Validation of commands before they leave the client: names and whole commands
    (src/command_validation.go), the options of SET (src/set_command.go), the range
    of expirations (src/expiry_validation.go) and the typed options of SET
    (src/stores_kv_extra.go). *)

From S2P Require Export Routing.

(** ** Expirations *)

Definition maxRelativeExpiryMillisV080 : Z := max_int64 - 281474976710655.
Definition maxRelativeExpirySecsV080 : Z := maxRelativeExpiryMillisV080 / 1000.
Definition maxAbsoluteExpirySecsV080 : Z := max_int64 / 1000.

Inductive expiryOption := EX | PX | EXAT | PXAT.

#[global] Instance expiryOption_eq_dec : EqDecision expiryOption.
Proof. solve_decision. Defined.

Definition expiryToken (o : expiryOption) : gstr :=
  match o with EX => go "EX" | PX => go "PX" | EXAT => go "EXAT" | PXAT => go "PXAT" end.

Definition expiryMaximum (o : expiryOption) : Z :=
  match o with
  | EX => maxRelativeExpirySecsV080
  | PX => maxRelativeExpiryMillisV080
  | EXAT => maxAbsoluteExpirySecsV080
  | PXAT => max_int64
  end.

Inductive setError :=
| SetArity                            (* SET requires key and value *)
| SetNotString (position : nat)
| SetDuplicate (token : gstr)
| SetExpirations                      (* SET accepts only one expiration option *)
| SetMissing (o : expiryOption)
| SetNotPositive
| SetRange (o : expiryOption)
| SetUnsupported (token : gstr)
| SetNXXX
| SetKeepTTL.

(** [validateExpiryOptionBound]. *)
Definition validateExpiryOptionBound (o : expiryOption) (value : option Z) : result setError unit :=
  match value with
  | Some value => if expiryMaximum o <? value then Err (SetRange o) else Ok tt
  | None => Ok tt
  end.

Definition validateExpiryOptionBounds (ex px exat pxat : option Z) : result setError unit :=
  let! _ := validateExpiryOptionBound EX ex in
  let! _ := validateExpiryOptionBound PX px in
  let! _ := validateExpiryOptionBound EXAT exat in
  validateExpiryOptionBound PXAT pxat.

(** ** The options of SET *)

Record setCommandOptions := SetCommandOptions {
  ttlMS : option Z; exat : option Z; pxat : option Z;    (* value and ...Set *)
  nx : bool; xx : bool; get : bool; keepTTL : bool;
}.

Definition noSetOptions : setCommandOptions := SetCommandOptions None None None false false false false.

Definition with_nx (o : setCommandOptions) := SetCommandOptions (ttlMS o) (exat o) (pxat o) true (xx o) (get o) (keepTTL o).
Definition with_xx (o : setCommandOptions) := SetCommandOptions (ttlMS o) (exat o) (pxat o) (nx o) true (get o) (keepTTL o).
Definition with_get (o : setCommandOptions) := SetCommandOptions (ttlMS o) (exat o) (pxat o) (nx o) (xx o) true (keepTTL o).
Definition with_keepTTL (o : setCommandOptions) := SetCommandOptions (ttlMS o) (exat o) (pxat o) (nx o) (xx o) (get o) true.

(** The inner switch: the value of an expiration option. *)
Definition with_expiry (e : expiryOption) (value : Z) (o : setCommandOptions) : setCommandOptions :=
  match e with
  | EX => SetCommandOptions (Some (swrap 64 (value * 1000))) (exat o) (pxat o) (nx o) (xx o) (get o) (keepTTL o)
  | PX => SetCommandOptions (Some value) (exat o) (pxat o) (nx o) (xx o) (get o) (keepTTL o)
  | EXAT => SetCommandOptions (ttlMS o) (Some value) (pxat o) (nx o) (xx o) (get o) (keepTTL o)
  | PXAT => SetCommandOptions (ttlMS o) (exat o) (Some value) (nx o) (xx o) (get o) (keepTTL o)
  end.

(** [topologyInteger] on an argument; text is parsed when that fails. *)
Definition argInteger (a : arg) : option Z :=
  match (match a with Arg v => topologyInteger v | ArgMarker _ => None end), argText a with
  | Some z, _ => Some z
  | None, Some text => match parse_int64 text with ParsedInt z => Some z | _ => None end
  | None, None => None
  end.

Definition setCommandPositiveInteger (value : arg) (e : expiryOption) : result setError Z :=
  match argInteger value with
  | None => Err SetNotPositive
  | Some integer =>
      if integer <=? 0 then Err SetNotPositive
      else
        let! _ := validateExpiryOptionBound e (Some integer) in
        Ok integer
  end.

(** The tokens of the switch. *)
Definition expiryOf (token : gstr) : option expiryOption :=
  if bool_decide (token = go "EX") then Some EX
  else if bool_decide (token = go "PX") then Some PX
  else if bool_decide (token = go "EXAT") then Some EXAT
  else if bool_decide (token = go "PXAT") then Some PXAT
  else None.

(** The loop of [parseSETCommandOptions]; [mode]: [expiryMode] is set. *)
Fixpoint parseSetLoop (index : nat) (mode : bool) (options : setCommandOptions) (args : list arg)
  : result setError setCommandOptions :=
  match args with
  | [] => Ok options
  | a :: rest =>
      let token := argPart a in
      if bool_decide (token = []) then Err (SetNotString (S index))
      else if bool_decide (token = go "NX") then
        if nx options then Err (SetDuplicate token) else parseSetLoop (S index) mode (with_nx options) rest
      else if bool_decide (token = go "XX") then
        if xx options then Err (SetDuplicate token) else parseSetLoop (S index) mode (with_xx options) rest
      else if bool_decide (token = go "GET") then
        if get options then Err (SetDuplicate token) else parseSetLoop (S index) mode (with_get options) rest
      else if bool_decide (token = go "KEEPTTL") then
        if keepTTL options then Err (SetDuplicate token)
        else parseSetLoop (S index) mode (with_keepTTL options) rest
      else match expiryOf token with
      | None => Err (SetUnsupported token)
      | Some e =>
          if mode then Err SetExpirations
          else match rest with
          | [] => Err (SetMissing e)
          | value :: rest =>
              let! value := setCommandPositiveInteger value e in
              parseSetLoop (S (S index)) true (with_expiry e value options) rest
          end
      end
  end.

Definition present (o : option Z) : nat := match o with Some _ => 1%nat | None => 0%nat end.

(** [parseSETCommandOptions]. *)
Definition parseSETCommandOptions (args : list arg) : result setError setCommandOptions :=
  let! options := parseSetLoop 0 false noSetOptions args in
  let expiryModes := (present (ttlMS options) + present (exat options) + present (pxat options))%nat in
  if nx options && xx options then Err SetNXXX
  else if (1 <? expiryModes)%nat then Err SetExpirations
  else if keepTTL options && negb (expiryModes =? 0)%nat then Err SetKeepTTL
  else Ok options.

(** [validateSETCommandArgs]. *)
Definition validateSETCommandArgs (args : list arg) : result setError unit :=
  let args := canonicalCommandArgs args in
  if bool_decide (args = []) || negb (bool_decide (commandName args = go "SET")) then Ok tt
  else if (length args <? 3)%nat then Err SetArity
  else let! _ := parseSETCommandOptions (drop 3 args) in Ok tt.

(** The payload of [buildNativeSETCommand]; the arguments follow the name. *)
Definition setPayload (key value : arg) (o : setCommandOptions) : list (gstr * arg) :=
  let field (name : gstr) (z : option Z) := match z with Some z => [(name, Arg (VInt IInt64 z))] | None => [] end in
  let flag (name : gstr) (b : bool) := if b then [(name, Arg (VBool true))] else [] in
  [(go "key", key); (go "value", value)] ++
  field (go "ttl") (ttlMS o) ++ field (go "exat") (exat o) ++ field (go "pxat") (pxat o) ++
  flag (go "nx") (nx o) ++ flag (go "xx") (xx o) ++ flag (go "get") (get o) ++ flag (go "keepttl") (keepTTL o).

Definition buildNativeSETCommand (args : list arg) : result setError (list (gstr * arg)) :=
  match args with
  | key :: value :: options =>
      let! o := parseSETCommandOptions options in Ok (setPayload key value o)
  | _ => Err SetArity
  end.

(** ** The typed options of SET *)

Record SetOptions := TypedSet {
  EXSeconds : option Z; PXMilliseconds : option Z; EXATSeconds : option Z; PXATMillis : option Z;
  NX : bool; XX : bool; Get : bool; KeepTTL : bool;
}.

Definition countPresentInt64 (values : list (option Z)) : nat := sum_list (present <$> values).

Definition positive (v : option Z) : bool := match v with Some z => 0 <? z | None => true end.

Definition validatePositiveExpiryOptions (values : list (option Z)) : result setError unit :=
  if forallb positive values then Ok tt else Err SetNotPositive.

Definition expiries (o : SetOptions) : list (option Z) :=
  [EXSeconds o; PXMilliseconds o; EXATSeconds o; PXATMillis o].

Definition validateSetOptions (o : SetOptions) : result setError unit :=
  if NX o && XX o then Err SetNXXX
  else
    let expiryModes := countPresentInt64 (expiries o) in
    if (1 <? expiryModes)%nat then Err SetExpirations
    else if KeepTTL o && negb (expiryModes =? 0)%nat then Err SetKeepTTL
    else
      let! _ := validatePositiveExpiryOptions (expiries o) in
      validateExpiryOptionBounds (EXSeconds o) (PXMilliseconds o) (EXATSeconds o) (PXATMillis o).

(** [appendInt64Ptr]. *)
Definition int64Ptr (name : gstr) (value : option Z) : list arg :=
  match value with Some z => [Arg (VString name); Arg (VInt IInt64 z)] | None => [] end.

Definition flagArg (name : gstr) (b : bool) : list arg := if b then [Arg (VString name)] else [].

(** The command [SetWithOptions] sends. *)
Definition setWithOptionsArgs (key : gstr) (encoded : val) (o : SetOptions) : list arg :=
  [Arg (VString (go "SET")); Arg (VString key); Arg encoded] ++
  int64Ptr (go "EX") (EXSeconds o) ++ int64Ptr (go "PX") (PXMilliseconds o) ++
  int64Ptr (go "EXAT") (EXATSeconds o) ++ int64Ptr (go "PXAT") (PXATMillis o) ++
  flagArg (go "NX") (NX o) ++ flagArg (go "XX") (XX o) ++ flagArg (go "GET") (Get o) ++
  flagArg (go "KEEPTTL") (KeepTTL o).

(** ** Whole commands *)

Inductive commandError :=
| CommandEmpty                        (* requires at least a command name *)
| CommandNameType
| CommandNameEmpty
| CommandNameSpace                    (* contains whitespace or control characters *)
| CommandKey (e : keyError)
| CommandSet (e : setError)
| SignalArity
| SignalMissing (token : gstr)
| SignalUnsupported (token : gstr)
| MSetSlots (name : gstr).

(** [unicode.IsSpace(r) || unicode.IsControl(r)] for some rune of UTF-8 text: the
    ASCII and Latin-1 controls, U+00A0, U+1680, U+2000 to U+200A, U+2028, U+2029,
    U+202F, U+205F and U+3000. A lead byte always starts a rune, so their encodings
    can be looked for at every position. *)
Fixpoint hasSpaceOrControl (s : gstr) : bool :=
  match s with
  | [] => false
  | b :: rest =>
      (byteZ b <=? 32) || (byteZ b =? 127) ||
      match b, rest with
      | xc2, c :: _ => (128 <=? byteZ c) && (byteZ c <=? 160)
      | xe1, x9a :: x80 :: _ => true
      | xe2, x80 :: c :: _ =>
          ((128 <=? byteZ c) && (byteZ c <=? 138)) || bool_decide (c ∈ [xa8; xa9; xaf])
      | xe2, x81 :: x9f :: _ => true
      | xe3, x80 :: x80 :: _ => true
      | _, _ => false
      end || hasSpaceOrControl rest
  end.

Definition validatedCommandName (value : arg) : result commandError gstr :=
  match argText value with
  | None => Err CommandNameType
  | Some [] => Err CommandNameEmpty
  | Some name => if hasSpaceOrControl name then Err CommandNameSpace else Ok name
  end.

(** How many arguments an option of FLOW.SIGNAL takes. *)
Definition signalNamedValue : list gstr := [go "VALUE"; go "VALUE_REF"].
Definition signalNames : list gstr := [go "DROP_VALUE"; go "OVERRIDE_VALUE"].
Definition signalValues : list gstr :=
  [go "PARTITION"; go "SIGNAL"; go "IDEMPOTENCY"; go "IDEMPOTENCY_KEY"; go "IF_STATE"; go "TRANSITION_TO";
   go "RUN_AT"; go "NOW"].

(** The loop of [validateV080FlowSignalArgs]. *)
Fixpoint signalLoop (args : list arg) : result commandError unit :=
  match args with
  | [] => Ok tt
  | a :: rest =>
      let token := argPart a in
      if bool_decide (token ∈ signalNamedValue) then
        match rest with _ :: _ :: rest => signalLoop rest | _ => Err (SignalMissing token) end
      else if bool_decide (token ∈ signalNames ++ signalValues) then
        match rest with _ :: rest => signalLoop rest | [] => Err (SignalMissing token) end
      else Err (SignalUnsupported token)
  end.

Definition validateV080FlowSignalArgs (args : list arg) : result commandError unit :=
  let args := canonicalCommandArgs args in
  if bool_decide (args = []) || negb (bool_decide (commandName args = go "FLOW.SIGNAL")) then Ok tt
  else if (length args <? 2)%nat then Err SignalArity
  else signalLoop (drop 2 args).

Definition validateAtomicMSetSlots (args : list arg) : result commandError unit :=
  let args := canonicalCommandArgs args in
  match args with
  | [] => Ok tt
  | _ =>
      let name := commandName args in
      if negb (bool_decide (name = go "MSET") || bool_decide (name = go "MSETNX")) then Ok tt
      else match topologyPolicyKeys name args with
      | None => Ok tt
      | Some (keys, _) =>
          match singleShardKey (KeyArg <$> keys) with Some _ => Ok tt | None => Err (MSetSlots name) end
      end
  end.

Definition in_command {E A} (wrap : E -> commandError) (m : result E A) : result commandError A :=
  match m with Ok a => Ok a | Err e => Err (wrap e) end.

Definition validateCommandArgs (args : list arg) : result commandError unit :=
  match args with
  | [] => Err CommandEmpty
  | name :: _ =>
      let! _ := validatedCommandName name in
      let! _ := in_command CommandKey (validatePublicCommandKeys args) in
      let! _ := in_command CommandSet (validateSETCommandArgs args) in
      let! _ := validateV080FlowSignalArgs args in
      validateAtomicMSetSlots args
  end.

(** [validatePipelineCommands]: the first refused command and its error. *)
Fixpoint validatePipelineFrom (index : nat) (commands : list (list arg)) : result (nat * commandError) unit :=
  match commands with
  | [] => Ok tt
  | command :: rest =>
      match validateCommandArgs command with
      | Err e => Err (index, e)
      | Ok _ => validatePipelineFrom (S index) rest
      end
  end.

Definition validatePipelineCommands (commands : list (list arg)) : result (nat * commandError) unit :=
  validatePipelineFrom 0 commands.

(** ** Facts *)

Definition max_ttl : Z := maxRelativeExpirySecsV080 * 1000.

Lemma expiry_no_overflow z : 0 < z <= maxRelativeExpirySecsV080 -> swrap 64 (z * 1000) = z * 1000.
Proof.
  intros Hz. apply swrap_small; [lia|]. unfold in_sint.
  assert (z * 1000 <= max_ttl) by (unfold max_ttl; lia).
  assert (max_ttl < 2 ^ 63) by (vm_compute; reflexivity). lia.
Qed.

(** The valid values of an expiration. *)
Definition expiry_ok (e : expiryOption) (z : Z) : Prop := 0 < z <= expiryMaximum e.

Lemma setCommandPositiveInteger_int e z :
  if bool_decide (expiry_ok e z) then setCommandPositiveInteger (Arg (VInt IInt64 z)) e = Ok z
  else is_ok (setCommandPositiveInteger (Arg (VInt IInt64 z)) e) = false.
Proof.
  unfold setCommandPositiveInteger, expiry_ok. cbn [argInteger topologyInteger validateExpiryOptionBound].
  destruct (Z.leb_spec z 0); [rewrite bool_decide_eq_false_2 by lia; done|].
  destruct (Z.ltb_spec (expiryMaximum e) z); [rewrite bool_decide_eq_false_2 by lia; done|].
  rewrite bool_decide_eq_true_2 by lia. done.
Qed.

Definition is_marker (a : arg) : bool := match a with ArgMarker _ => true | Arg _ => false end.

(** Arguments without a marker have no attached context. *)
Lemma split_plain args :
  forallb (fun a => negb (is_marker a)) args = true -> splitNativeRequestContext args = (args, None).
Proof.
  intros H. unfold splitNativeRequestContext. destruct (rev args) as [|c [|[v|t] p]] eqn:E; try done.
  assert (Hin : ArgMarker t ∈ args).
  { apply list_elem_of_In, in_rev. rewrite E. right. by left. }
  rewrite forallb_forall in H. apply list_elem_of_In, H in Hin. done.
Qed.

Lemma int64Ptr_no_marker name v : forallb (fun a => negb (is_marker a)) (int64Ptr name v) = true.
Proof. by destruct v. Qed.

Lemma flagArg_no_marker name b : forallb (fun a => negb (is_marker a)) (flagArg name b) = true.
Proof. by destruct b. Qed.

Lemma set_args_canonical key encoded o :
  canonicalCommandArgs (setWithOptionsArgs key encoded o) = setWithOptionsArgs key encoded o.
Proof.
  unfold canonicalCommandArgs. change (stripCommandExec (setWithOptionsArgs key encoded o)) with
    (setWithOptionsArgs key encoded o).
  rewrite split_plain; [done|]. unfold setWithOptionsArgs.
  rewrite !forallb_app, !int64Ptr_no_marker, !flagArg_no_marker. done.
Qed.

(** What one option of the typed form does to the parser. *)
Lemma parse_int64Ptr e v i mode o rest :
  parseSetLoop i mode o (int64Ptr (expiryToken e) v ++ rest) =
  match v with
  | None => parseSetLoop i mode o rest
  | Some z =>
      if mode then Err SetExpirations
      else let! z := setCommandPositiveInteger (Arg (VInt IInt64 z)) e in
           parseSetLoop (S (S i)) true (with_expiry e z o) rest
  end.
Proof. destruct v; [|done]. by destruct e. Qed.

Lemma parse_flag i mode o rest name set (seen : setCommandOptions -> bool) b :
  In (name, (set, seen)) [(go "NX", (with_nx, nx)); (go "XX", (with_xx, xx)); (go "GET", (with_get, get));
                          (go "KEEPTTL", (with_keepTTL, keepTTL))] ->
  seen o = false ->
  exists j, parseSetLoop i mode o (flagArg name b ++ rest) = parseSetLoop j mode (if b then set o else o) rest.
Proof.
  intros Hin Ho. destruct b; [|by exists i]. exists (S i).
  destruct Hin as [H|[H|[H|[H|[]]]]]; injection H as <- <- <-; destruct o; cbn in Ho; subst; reflexivity.
Qed.

(** The options as the parser holds them. *)
Definition denoted (o : SetOptions) : setCommandOptions :=
  SetCommandOptions (match EXSeconds o with Some s => Some (s * 1000) | None => PXMilliseconds o end)
    (EXATSeconds o) (PXATMillis o) (NX o) (XX o) (Get o) (KeepTTL o).

(** An option of a kind the expirations left untouched. *)
Definition flagless (o : setCommandOptions) : Prop :=
  nx o = false /\ xx o = false /\ get o = false /\ keepTTL o = false.

Definition with_flags (o : SetOptions) (e : setCommandOptions) : setCommandOptions :=
  SetCommandOptions (ttlMS e) (exat e) (pxat e) (NX o) (XX o) (Get o) (KeepTTL o).

Lemma parse_flags i mode e o :
  flagless e ->
  parseSetLoop i mode e (flagArg (go "NX") (NX o) ++ flagArg (go "XX") (XX o) ++ flagArg (go "GET") (Get o) ++
    flagArg (go "KEEPTTL") (KeepTTL o)) = Ok (with_flags o e).
Proof.
  destruct e as [t ea pa n x g k]. intros (Hn & Hx & Hg & Hk). cbn in Hn, Hx, Hg, Hk. subst.
  destruct o as [e1 e2 e3 e4 b1 b2 b3 b4]. by destruct b1, b2, b3, b4.
Qed.

Definition typed_step (e : expiryOption) (v : option Z) (st : bool * setCommandOptions)
  : result setError (bool * setCommandOptions) :=
  match v with
  | None => Ok st
  | Some z =>
      if st.1 then Err SetExpirations
      else let! z := setCommandPositiveInteger (Arg (VInt IInt64 z)) e in Ok (true, with_expiry e z st.2)
  end.

(** The parser on a typed command: the four expirations in turn, then the flags. *)
Lemma parse_typed key encoded o :
  parseSetLoop 0 false noSetOptions (drop 3 (setWithOptionsArgs key encoded o)) =
  (let! st := typed_step EX (EXSeconds o) (false, noSetOptions) in
   let! st := typed_step PX (PXMilliseconds o) st in
   let! st := typed_step EXAT (EXATSeconds o) st in
   let! st := typed_step PXAT (PXATMillis o) st in
   Ok (with_flags o st.2)).
Proof.
  cbn [setWithOptionsArgs drop app].
  assert (Hstep : forall e v st (k : bool * setCommandOptions -> result setError setCommandOptions) rest,
    flagless st.2 ->
    (forall i st', flagless st'.2 -> parseSetLoop i st'.1 st'.2 rest = k st') ->
    forall i, parseSetLoop i st.1 st.2 (int64Ptr (expiryToken e) v ++ rest) = rbind (typed_step e v st) k).
  { intros e v st k rest Hf Hk i. rewrite parse_int64Ptr. destruct v as [z|]; cbn [typed_step rbind]; [|by apply Hk].
    destruct st as [m s]; cbn [fst snd] in *. destruct m; [done|].
    destruct (setCommandPositiveInteger _ e) as [z'|]; [|done]. cbn [rbind].
    apply (Hk _ (true, with_expiry e z' s)). destruct e; exact Hf. }
  apply (Hstep EX (EXSeconds o) (false, noSetOptions)) with (i := 0%nat); [done|]. intros i1 s1 H1. revert i1.
  apply (Hstep PX); [done|]. intros i2 s2 H2. revert i2.
  apply (Hstep EXAT); [done|]. intros i3 s3 H3. revert i3.
  apply (Hstep PXAT); [done|]. intros i4 s4 H4. rewrite parse_flags by done. done.
Qed.

(** A value: it is taken once and within its range. *)
Lemma typed_step_value e z m st :
  (exists err, typed_step e (Some z) (m, st) = Err err /\ ~ (m = false /\ expiry_ok e z)) \/
  (typed_step e (Some z) (m, st) = Ok (true, with_expiry e z st) /\ m = false /\ expiry_ok e z).
Proof.
  pose proof (setCommandPositiveInteger_int e z) as H. cbn [typed_step fst snd].
  destruct m; [left; eexists; split; [done|]; by intros [? _]|].
  case_bool_decide; [right; by rewrite H|]. left.
  destruct (setCommandPositiveInteger _ e) as [|err]; [done|]. exists err. split; [done|]. by intros [_ ?].
Qed.

(** The same condition in the typed validator. *)
Lemma typed_value_valid e z :
  is_ok (let! _ := validatePositiveExpiryOptions [Some z] in validateExpiryOptionBound e (Some z)) =
  bool_decide (expiry_ok e z).
Proof.
  unfold validatePositiveExpiryOptions, validateExpiryOptionBound, expiry_ok. cbn [forallb positive].
  rewrite andb_true_r. destruct (Z.ltb_spec 0 z); [|rewrite bool_decide_eq_false_2 by lia; done].
  cbn [rbind]. destruct (Z.ltb_spec (expiryMaximum e) z); [rewrite bool_decide_eq_false_2 by lia; done|].
  rewrite bool_decide_eq_true_2 by lia. done.
Qed.

Lemma parse_error key encoded o :
  is_ok (parseSETCommandOptions (drop 3 (setWithOptionsArgs key encoded o))) = false ->
  is_ok (validateSETCommandArgs (setWithOptionsArgs key encoded o)) = false /\
  is_ok (buildNativeSETCommand (drop 1 (setWithOptionsArgs key encoded o))) = false.
Proof.
  intros H. unfold validateSETCommandArgs. rewrite set_args_canonical. unfold setWithOptionsArgs in *.
  cbn [app drop length buildNativeSETCommand] in *. by destruct (parseSETCommandOptions _).
Qed.

Lemma parse_ok key encoded o opts :
  parseSETCommandOptions (drop 3 (setWithOptionsArgs key encoded o)) = Ok opts ->
  validateSETCommandArgs (setWithOptionsArgs key encoded o) = Ok tt /\
  buildNativeSETCommand (drop 1 (setWithOptionsArgs key encoded o)) =
    Ok (setPayload (Arg (VString key)) (Arg encoded) opts).
Proof.
  intros H. unfold validateSETCommandArgs. rewrite set_args_canonical. unfold setWithOptionsArgs in *.
  cbn [app drop length buildNativeSETCommand] in *. rewrite drop_0 in *. rewrite H. split; reflexivity.
Qed.

Ltac next_value :=
  match goal with
  | |- context [typed_step ?e None ?st] =>
      change (typed_step e None st) with (Ok (E := setError) st); cbn [rbind]
  | |- context [typed_step ?e (Some ?z) (?m, ?st)] =>
      destruct (typed_step_value e z m st) as [(? & -> & ?)|(-> & ? & ?)]; cbn [rbind]
  end.

(** The typed form of SET and its generic form agree: [SetWithOptions] refuses a
    combination of options exactly when the command it would send is refused by the
    validator of generic commands and by the builder of the native request, and the
    native request of an accepted one carries the same options, a time to live in
    seconds converted to milliseconds without overflow. *)
Theorem set_options_roundtrip key encoded o :
  match validateSetOptions o with
  | Ok _ =>
      validateSETCommandArgs (setWithOptionsArgs key encoded o) = Ok tt /\
      buildNativeSETCommand (drop 1 (setWithOptionsArgs key encoded o)) =
        Ok (setPayload (Arg (VString key)) (Arg encoded) (denoted o))
  | Err _ =>
      is_ok (validateSETCommandArgs (setWithOptionsArgs key encoded o)) = false /\
      is_ok (buildNativeSETCommand (drop 1 (setWithOptionsArgs key encoded o))) = false
  end.
Proof.
  assert (H : match validateSetOptions o with
    | Ok _ => parseSETCommandOptions (drop 3 (setWithOptionsArgs key encoded o)) = Ok (denoted o)
    | Err _ => is_ok (parseSETCommandOptions (drop 3 (setWithOptionsArgs key encoded o))) = false
    end).
  { unfold parseSETCommandOptions. rewrite parse_typed.
    destruct o as [ex px ea pa n x g k]. cbn [EXSeconds PXMilliseconds EXATSeconds PXATMillis].
    unfold validateSetOptions, countPresentInt64, validatePositiveExpiryOptions, validateExpiryOptionBounds,
      validateExpiryOptionBound, expiries. cbn -[expiryMaximum].
    destruct ex as [ex|], px as [px|], ea as [ea|], pa as [pa|]; cbn -[expiryMaximum typed_step];
      repeat next_value; cbn -[expiryMaximum].
    all: destruct n, x, k; cbn -[expiryMaximum].
    all: unfold expiry_ok in *.
    all: repeat match goal with |- context [?a <? ?b] => destruct (Z.ltb_spec a b) end; cbn -[expiryMaximum].
    all: try done; try (exfalso; intuition lia).
    all: try (rewrite expiry_no_overflow by (cbn in *; lia); done).
  }
  destruct (validateSetOptions o); [by apply parse_ok|by apply parse_error].
Qed.
