(* ===== verification/Transaction.v ===== *)
(** Transactions (src/transaction.go, src/transaction_policy_v080.go,
    src/topology_transaction_session.go, the session of src/native_request.go): a
    session pins a connection for WATCH and MULTI; the client keeps one implicitly
    (Watch, Multi, Exec, ...) or hands it to an explicit [Transaction].

    One step per critical section or finished [Do]; goroutines interleave them. What
    a connection keeps on the server, and the replies, are parameters with the
    documented behaviour of the five transaction commands as hypotheses. *)

From S2P Require Export Validation Errors.

(** ** Which commands a transaction takes *)

Definition v080TransactionLocalNoKeyCommand (name : gstr) : bool :=
  bool_decide (name ∈ [go "PING"; go "ECHO"; go "CLUSTER.KEYSLOT"]).

Definition v080RequestPrefixes : list gstr :=
  [go "BF."; go "CF."; go "CMS."; go "TOPK."; go "TDIGEST."; go "FLOW."].

Definition v080RequestCommands : list gstr := [
  go "AUTH"; go "HELLO"; go "CLIENT"; go "QUIT"; go "RESET"; go "MULTI"; go "EXEC"; go "DISCARD"; go "WATCH"; go "UNWATCH";
  go "SUBSCRIBE"; go "UNSUBSCRIBE"; go "PSUBSCRIBE"; go "PUNSUBSCRIBE"; go "SSUBSCRIBE"; go "SUNSUBSCRIBE";
  go "PUBLISH"; go "SPUBLISH"; go "PUBSUB";
  go "BLPOP"; go "BRPOP"; go "BLMOVE"; go "BLMPOP";
  go "XADD"; go "XLEN"; go "XRANGE"; go "XREVRANGE"; go "XREAD"; go "XTRIM"; go "XDEL"; go "XINFO"; go "XGROUP";
  go "XREADGROUP"; go "XACK";
  go "KEY_INFO"; go "FERRICSTORE.KEY_INFO"; go "CAS"; go "LOCK"; go "UNLOCK"; go "EXTEND"; go "RATELIMIT.ADD";
  go "FETCH_OR_COMPUTE"; go "FETCH_OR_COMPUTE_RESULT"; go "FETCH_OR_COMPUTE_ERROR";
  go "HRANDFIELD"; go "SRANDMEMBER"; go "SPOP"; go "ZRANDMEMBER"; go "RANDOMKEY"; go "ROUTE"; go "ROUTE_BATCH"].

Definition v080TransactionRequestCommand (name : gstr) : bool :=
  existsb (fun prefix => has_prefix prefix name) v080RequestPrefixes || bool_decide (name ∈ v080RequestCommands).

Definition is_some {A} (o : option A) : bool := match o with Some _ => true | None => false end.

(** [validateV080TransactionCommand]: accepted or not. *)
Definition validateV080TransactionCommand (args : list arg) : bool :=
  let args := canonicalCommandArgs args in
  match args with
  | [] => false
  | _ =>
      let name := commandName args in
      v080TransactionLocalNoKeyCommand name ||
      (negb (v080TransactionRequestCommand name) && is_some (assoc_get name topologyCommandPolicies))
  end.

(** ** Commands stay in the slot of the session *)

Inductive routeError :=
| RouteEmpty                          (* received an empty command *)
| RouteNoFlowKey (name : gstr)        (* has no explicit slot route *)
| RouteNoPolicy (name : gstr)
| RouteNoKeys (name : gstr)           (* has no valid slot route *)
| RouteKeyType (index : nat)
| RouteOtherSlot (index : nat) (slot : Z).

Fixpoint validateTopologyTransactionKeys (index : nat) (pinnedSlot : Z) (keys : list routingKey)
  : result routeError unit :=
  match keys with
  | [] => Ok tt
  | key :: keys =>
      match routingTargetSlot key with
      | None => Err (RouteKeyType index)
      | Some slot =>
          if negb (slot =? pinnedSlot) then Err (RouteOtherSlot index slot)
          else validateTopologyTransactionKeys (S index) pinnedSlot keys
      end
  end.

Definition validateTopologyTransactionRoute (slot : Z) (args : list arg) : result routeError unit :=
  match connectionStateCommand args with
  | Some _ => Ok tt
  | None =>
      let routeArgs := canonicalCommandArgs args in
      match routeArgs with
      | [] => Err RouteEmpty
      | _ =>
          let name := commandName routeArgs in
          if v080TransactionLocalNoKeyCommand name then Ok tt
          else if has_prefix (go "FLOW.") name then
            match flowRoutingKey name routeArgs with
            | None => Err (RouteNoFlowKey name)
            | Some key => validateTopologyTransactionKeys 0 slot [key]
            end
          else match assoc_get name topologyCommandPolicies with
          | None => Err (RouteNoPolicy name)
          | Some policy =>
              match topologyKeysForMode (keyMode policy) routeArgs with
              | None | Some [] => Err (RouteNoKeys name)
              | Some keys => validateTopologyTransactionKeys 0 slot (KeyArg <$> keys)
              end
          end
      end
  end.

(** ** Replies *)

Inductive response := RValue (v : val) | ROKCount (count : Z).

(** [responseString(value, nil)] and [responseOK(value, nil)]: [None] for any error. *)
Definition replyString (r : response) : option gstr :=
  match r with RValue v => responseString v | ROKCount _ => None end.

Definition responseOK (r : response) : bool :=
  match r with
  | ROKCount count => count =? 1
  | RValue v => match responseString v with Some text => equal_fold text (go "OK") | None => false end
  end.

(** [transactionArray(value, nil)]. *)
Definition transactionArray (r : response) : option (list val) :=
  match r with
  | RValue VNil => Some []
  | RValue (VArray _ items) => Some items
  | _ => None
  end.

Definition errNotOK : goError := ErrText (go "expected OK response").
Definition errNotArray : goError := ErrText (go "expected EXEC array response").
Definition errNotQueued : goError := ErrText (go "transaction command returned another value, expected QUEUED string").

(** [responseOK(session.Do(...))] and [transactionArray(session.Do(...))]. *)
Definition ok_reply (r : result goError response) : result goError unit :=
  match r with Err err => Err err | Ok v => if responseOK v then Ok tt else Err errNotOK end.

Definition array_reply (r : result goError response) : result goError (list val) :=
  match r with
  | Err err => Err err
  | Ok v => match transactionArray v with Some items => Ok items | None => Err errNotArray end
  end.

(** ** Sessions *)

Inductive ending := Aborted | Released.

Section Transactions.
(** What the server keeps for a connection. *)
Context {conn : Type}.

Record session := Session {
  s_conn : conn;
  s_slot : option Z;              (* [topologyCommandSession] *)
  s_end : option ending;
}.

(** [Abort] closes the connection, [Release] keeps it; the first of them counts. *)
Definition endSession (how : ending) (s : session) : session :=
  match s_end s with None => Session (s_conn s) (s_slot s) (Some how) | Some _ => s end.

(** [finishCommandSession]. *)
Definition finishHow {A} (r : result goError A) : ending := match r with Ok _ => Released | Err _ => Aborted end.

(** The outcome of a [Do]: refused by the route of a pinned session, failed before
    the request is written, served, or overtaken by the end of the session. *)
Inductive outcome := NotRouted | NotSent (err : goError) | Served (r : result goError response) (c : conn).

Definition errRoute : goError := ErrText (go "topologyTransactionRouteError").

Definition outcomeReply (o : outcome) : result goError response :=
  match o with NotRouted => Err errRoute | NotSent err => Err err | Served r _ => r end.

(** A session that has ended keeps the state it ended with. *)
Definition doSession (o : outcome) (s : session) : session :=
  match s_end s, o with
  | None, Served _ c => Session c (s_slot s) None
  | _, _ => s
  end.

(** ** The client *)

Record transaction := Transaction {
  t_session : nat;
  t_closed : bool;
  t_closeErr : option goError;
  t_ending : option ending;       (* closed, the session not ended yet *)
  t_done : bool;                  (* the channel [done] is closed *)
  t_op : bool;                    (* [opMu] is held *)
}.

(** The commands that end a session of the client. *)
Inductive endVerb := Unwatch | Exec | Discard.

Inductive txOp := TxCommand (args : list arg) | TxExec | TxDiscard.

(** A goroutine between two critical sections. *)
Inductive operation :=
| OpEnd (v : endVerb) (sid : nat)            (* took the session, runs its command *)
| OpBegin (sid : nat)                        (* [transactionForKeys] with its session *)
| OpClose (sid : nat)                        (* [Close] *)
| OpCommands (sid : nat) (commands : list (list arg))   (* [Command], [Pipeline] *)
| OpTx (tid : nat) (op : txOp).

Record client := Client {
  legacy : option nat;
  legacyMulti : bool;
  legacyActive : bool;
  sessions : gmap nat session;
  transactions : gmap nat transaction;
  operations : gmap nat operation;
}.

Definition newClient : client := Client None false false ∅ ∅ ∅.

Definition setLegacySessionLocked (s : option nat) (c : client) : client :=
  Client s false (is_some s) (sessions c) (transactions c) (operations c).

Definition set_sessions (f : gmap nat session -> gmap nat session) (c : client) : client :=
  Client (legacy c) (legacyMulti c) (legacyActive c) (f (sessions c)) (transactions c) (operations c).
Definition set_transactions (f : gmap nat transaction -> gmap nat transaction) (c : client) : client :=
  Client (legacy c) (legacyMulti c) (legacyActive c) (sessions c) (f (transactions c)) (operations c).
Definition set_operations (f : gmap nat operation -> gmap nat operation) (c : client) : client :=
  Client (legacy c) (legacyMulti c) (legacyActive c) (sessions c) (transactions c) (f (operations c)).
Definition set_multi (c : client) : client :=
  Client (legacy c) true (legacyActive c) (sessions c) (transactions c) (operations c).

Definition finishSession (sid : nat) (how : ending) (c : client) : client := set_sessions (alter (endSession how) sid) c.
Definition ran (sid : nat) (o : outcome) (c : client) : client := set_sessions (alter (doSession o) sid) c.

(** [currentLegacySessionState]. *)
Definition currentLegacySessionState (c : client) : option nat * bool :=
  if negb (legacyActive c) then (None, false) else (legacy c, legacyMulti c).

(** ** Operations on the implicit session *)

(** [Watch] after its [Do]; the session is acquired and used under the lock. *)
Definition afterWatch (sid : nat) (r : result goError response) (c : client) : client * result goError unit :=
  match ok_reply r with
  | Ok _ => (setLegacySessionLocked (Some sid) c, Ok tt)
  | Err err => (finishSession sid Aborted c, Err err)
  end.

(** [Multi] after its [Do]. *)
Definition afterMulti (sid : nat) (r : result goError response) (c : client) : client * result goError unit :=
  match ok_reply r with
  | Ok _ => (set_multi c, Ok tt)
  | Err err => (setLegacySessionLocked None (finishSession sid Aborted c), Err err)
  end.

Definition endArgs (v : endVerb) : list arg :=
  [Arg (VString match v with Unwatch => go "UNWATCH" | Exec => go "EXEC" | Discard => go "DISCARD" end)].

(** Unwatch wants no MULTI, Exec and Discard want one. *)
Definition endAllowed (v : endVerb) (c : client) : bool :=
  match v with Unwatch => negb (legacyMulti c) | Exec | Discard => legacyMulti c end.

(** [Unwatch], [Exec] and [Discard] after their [Do]. *)
Definition afterEnd (v : endVerb) (sid : nat) (r : result goError response) (c : client) : client :=
  match v with
  | Unwatch | Discard => finishSession sid (finishHow (ok_reply r)) c
  | Exec => finishSession sid (finishHow (array_reply r)) c
  end.

(** ** Explicit transactions *)

Definition newTransaction (sid : nat) : transaction := Transaction sid false None None false false.

(** [transactionForKeys] after its [Do]. *)
Definition afterBegin (sid tid : nat) (r : result goError response) (c : client) : client * result goError unit :=
  match ok_reply r with
  | Ok _ => (set_transactions <[tid := newTransaction sid]> c, Ok tt)
  | Err err => (finishSession sid Aborted c, Err err)
  end.

(** [markClosed] of [abort] and [releaseTx]: the caller whose mark counts goes on to
    end the session. *)
Definition markClosed (how : ending) (err : option goError) (t : transaction) : transaction :=
  if t_closed t then t else Transaction (t_session t) true err (Some how) (t_done t) (t_op t).

Definition abort (err : goError) : transaction -> transaction := markClosed Aborted (Some err).
Definition releaseTx : transaction -> transaction := markClosed Released None.

(** The rest of [abort] and [releaseTx], with [finish]. *)
Definition ended (t : transaction) : transaction :=
  Transaction (t_session t) (t_closed t) (t_closeErr t) None true (t_op t).

Definition with_op (b : bool) (t : transaction) : transaction :=
  Transaction (t_session t) (t_closed t) (t_closeErr t) (t_ending t) (t_done t) b.

Definition errClosed : goError := ErrText (go "transaction is closed").

Definition closedStateError (t : transaction) : option goError :=
  if negb (t_closed t) then None
  else match t_closeErr t with Some err => Some err | None => Some errClosed end.

Definition is_queued (v : response) : bool :=
  match replyString v with Some text => equal_fold text (go "QUEUED") | None => false end.

(** [Transaction.Command] after its [Do]. *)
Definition afterCommand (o : outcome) (t : transaction) : transaction * result goError response :=
  match o with
  | NotRouted => (t, Err errRoute)
  | NotSent err | Served (Err err) _ => (abort err t, Err err)
  | Served (Ok v) _ =>
      if is_queued v
      then (t, match closedStateError t with Some err => Err err | None => Ok v end)
      else (abort errNotQueued t, Err errNotQueued)
  end.

(** [Transaction.Exec] and [Transaction.Discard] after their [Do]. *)
Definition afterTxEnd {A} (r : result goError A) (t : transaction) : transaction :=
  match r with Ok _ => releaseTx t | Err err => abort err t end.

Definition afterTx (op : txOp) (o : outcome) (t : transaction) : transaction :=
  match op with
  | TxCommand _ => (afterCommand o t).1
  | TxExec => afterTxEnd (array_reply (outcomeReply o)) t
  | TxDiscard => afterTxEnd (ok_reply (outcomeReply o)) t
  end.

Definition txArgs (op : txOp) : list arg :=
  match op with
  | TxCommand args => affineCommandArgs args
  | TxExec => endArgs Exec
  | TxDiscard => endArgs Discard
  end.

(** The checks of [Transaction.Command] before it waits for its turn. *)
Definition commandAllowed (args : list arg) : bool :=
  is_ok (validateCommandArgs args) && negb (is_some (connectionStateCommand args)) &&
  negb (is_some (connectionStateMutationCommand args)) && validateV080TransactionCommand args.

(** [Client.Command] on the implicit session. *)
Definition clientCommandAllowed (multi : bool) (args : list arg) : bool :=
  is_ok (validateCommandArgs args) && negb (is_some (connectionStateCommand args)) &&
  (negb multi || validateV080TransactionCommand (affineCommandArgs args)).

(** [Client.Pipeline]. *)
Definition clientPipelineAllowed (commands : list (list arg)) : bool :=
  is_ok (validatePipelineCommands commands) &&
  forallb (fun command => negb (is_some (connectionStateCommand command))) commands.

(** [Client.Pipeline] goes on after an answered command. *)
Definition remaining (r : result goError response) (commands : list (list arg)) : list (list arg) :=
  match r with Ok _ => commands | Err _ => [] end.
End Transactions.

(** ** The server *)

(** A connection of the server, with the documented behaviour of the transaction
    commands: WATCH does not start queueing; an accepted UNWATCH outside MULTI, a
    DISCARD, and an EXEC answered with an array or nil leave nothing behind; no other
    command starts queueing or watching. *)
Record server := Server {
  conn : Type;
  fresh : conn;                                   (* a connection without WATCH or MULTI *)
  serve : conn -> list arg -> result goError response -> conn -> Prop;
  queueing : conn -> Prop;                        (* MULTI is open *)
  clean : conn -> Prop;                           (* neither WATCH nor MULTI *)
  fresh_clean : clean fresh;
  clean_not_queueing c : clean c -> ~ queueing c;
  serve_watch c args r c' : serve c args r c' -> connectionStateCommand args = Some (go "WATCH") ->
    ~ queueing c -> ~ queueing c';
  serve_unwatch c v c' : serve c (endArgs Unwatch) (Ok v) c' -> responseOK v = true -> ~ queueing c -> clean c';
  serve_discard c v c' : serve c (endArgs Discard) (Ok v) c' -> responseOK v = true -> clean c';
  serve_exec c v c' : serve c (endArgs Exec) (Ok v) c' -> is_some (transactionArray v) = true -> clean c';
  serve_other c args r c' : serve c args r c' -> connectionStateCommand args = None ->
    (queueing c' -> queueing c) /\ (clean c -> clean c');
}.

(** Wrapping a command in COMMAND_EXEC does not make it a transaction command. *)
Lemma affine_stateful args :
  connectionStateCommand args = None -> connectionStateCommand (affineCommandArgs args) = None.
Proof.
  destruct args as [|first rest]; [done|]. cbn [affineCommandArgs].
  destruct (is_part (go "COMMAND_EXEC") first) eqn:E; [done|]. unfold connectionStateCommand.
  change (is_part (go "COMMAND_EXEC") (Arg (VString (go "COMMAND_EXEC")))) with true. rewrite E.
  assert (argPart (Arg (VString (default [] (argText first)))) = argPart first) as ->.
  { unfold argPart. cbn [argText commandText]. by destruct (argText first). }
  by destruct rest.
Qed.

Lemma is_some_None {A} (o : option A) : is_some o = false -> o = None.
Proof. by destruct o. Qed.

Section Steps.
Context (S : server).

(** The outcomes of [Do] on a session; once the session has ended a reply may still
    have been on its way. *)
Definition routed (s : session (conn := conn S)) (args : list arg) : bool :=
  match s_slot s with Some slot => is_ok (validateTopologyTransactionRoute slot args) | None => true end.

Inductive did (s : session) (args : list arg) : outcome -> Prop :=
| DidNotRoute : routed s args = false -> did s args NotRouted
| DidNotSend err : routed s args = true -> did s args (NotSent err)
| DidServe r c : routed s args = true -> (s_end s = None -> serve S (s_conn s) args r c) -> did s args (Served r c).

Definition watchArgs (keys : list gstr) : list arg := Arg (VString (go "WATCH")) :: ((fun k => Arg (VString k)) <$> keys).
Definition multiArgs : list arg := [Arg (VString (go "MULTI"))].

Abbreviation world := (client (conn := conn S)).

Definition opened (slot : option Z) : session := Session (fresh S) slot None.
Definition add_session (sid : nat) (s : session) (c : world) : world := set_sessions <[sid := s]> c.
Definition add_op (n : nat) (op : operation) (c : world) : world := set_operations <[n := op]> c.
Definition drop_op (n : nat) (c : world) : world := set_operations (delete n) c.
Definition put_tx (tid : nat) (t : transaction) (c : world) : world := set_transactions <[tid := t]> c.

Definition txAllowed (op : txOp) : bool := match op with TxCommand args => commandAllowed args | _ => true end.

Inductive tx_step : world -> world -> Prop :=
| StepWatch c sid slot keys o :
    keys <> [] -> is_ok (validatePublicStringKeys keys) = true -> legacy c = None -> sessions c !! sid = None ->
    did (opened slot) (watchArgs keys) o ->
    tx_step c (afterWatch sid (outcomeReply o) (add_session sid (doSession o (opened slot)) c)).1
| StepMulti c sid s o :
    legacy c = Some sid -> legacyMulti c = false -> sessions c !! sid = Some s -> did s multiArgs o ->
    tx_step c (afterMulti sid (outcomeReply o) (add_session sid (doSession o s) c)).1
| StepMultiNew c sid slot o :
    legacy c = None -> sessions c !! sid = None -> did (opened slot) multiArgs o ->
    tx_step c (afterMulti sid (outcomeReply o)
      (setLegacySessionLocked (Some sid) (add_session sid (doSession o (opened slot)) c))).1
| StepEndTake c v sid n :
    legacy c = Some sid -> endAllowed v c = true -> operations c !! n = None ->
    tx_step c (add_op n (OpEnd v sid) (setLegacySessionLocked None c))
| StepEndRun c n v sid s o :
    operations c !! n = Some (OpEnd v sid) -> sessions c !! sid = Some s -> did s (endArgs v) o ->
    tx_step c (drop_op n (afterEnd v sid (outcomeReply o) (add_session sid (doSession o s) c)))
| StepBeginTake c sid n :
    legacy c = Some sid -> legacyMulti c = false -> operations c !! n = None ->
    tx_step c (add_op n (OpBegin sid) (setLegacySessionLocked None c))
| StepBeginNew c sid slot n :
    legacy c = None -> sessions c !! sid = None -> operations c !! n = None ->
    tx_step c (add_op n (OpBegin sid) (add_session sid (opened slot) c))
| StepBeginRun c n sid tid s o :
    operations c !! n = Some (OpBegin sid) -> sessions c !! sid = Some s -> transactions c !! tid = None ->
    did s multiArgs o ->
    tx_step c (drop_op n (afterBegin sid tid (outcomeReply o) (add_session sid (doSession o s) c)).1)
| StepClose c sid n :
    legacy c = Some sid -> operations c !! n = None ->
    tx_step c (add_op n (OpClose sid) (setLegacySessionLocked None c))
| StepCloseRun c n sid :
    operations c !! n = Some (OpClose sid) -> tx_step c (drop_op n (finishSession sid Aborted c))
| StepCommand c sid multi n args :
    currentLegacySessionState c = (Some sid, multi) -> clientCommandAllowed multi args = true ->
    operations c !! n = None -> tx_step c (add_op n (OpCommands sid [affineCommandArgs args]) c)
| StepPipeline c sid multi n commands :
    currentLegacySessionState c = (Some sid, multi) -> clientPipelineAllowed commands = true ->
    operations c !! n = None -> tx_step c (add_op n (OpCommands sid (affineCommandArgs <$> commands)) c)
| StepRun c n sid args rest s o :
    operations c !! n = Some (OpCommands sid (args :: rest)) -> sessions c !! sid = Some s -> did s args o ->
    tx_step c (add_op n (OpCommands sid (remaining (outcomeReply o) rest)) (add_session sid (doSession o s) c))
| StepRunEnd c n sid :
    operations c !! n = Some (OpCommands sid []) -> tx_step c (drop_op n c)
| StepTxStart c n tid t op :
    transactions c !! tid = Some t -> t_op t = false -> closedStateError t = None -> txAllowed op = true ->
    operations c !! n = None -> tx_step c (add_op n (OpTx tid op) (put_tx tid (with_op true t) c))
| StepTxRun c n tid op t s o :
    operations c !! n = Some (OpTx tid op) -> transactions c !! tid = Some t -> sessions c !! t_session t = Some s ->
    did s (txArgs op) o ->
    tx_step c (drop_op n (put_tx tid (with_op false (afterTx op o t)) (add_session (t_session t) (doSession o s) c)))
| StepTxEnd c tid t how :
    transactions c !! tid = Some t -> t_ending t = Some how ->
    tx_step c (put_tx tid (ended t) (finishSession (t_session t) how c))
| StepTxCancel c tid t err :
    transactions c !! tid = Some t -> t_done t = false -> tx_step c (put_tx tid (abort err t) c).

Inductive tx_reachable : world -> Prop :=
| tx_start : tx_reachable newClient
| tx_next c c' : tx_reachable c -> tx_step c c' -> tx_reachable c'.

(** ** Who holds a session *)

Inductive owner := OLegacy | OOp (n : nat) | OTx (tid : nat).

#[local] Instance owner_eq_dec : EqDecision owner.
Proof. solve_decision. Defined.

Definition op_session (op : operation) : option nat :=
  match op with OpEnd _ sid | OpBegin sid | OpClose sid => Some sid | OpCommands _ _ | OpTx _ _ => None end.

Definition tx_session (t : transaction) : option nat := if t_done t then None else Some (t_session t).

Definition holds (c : world) (o : owner) : option nat :=
  match o with
  | OLegacy => legacy c
  | OOp n => operations c !! n ≫= op_session
  | OTx tid => transactions c !! tid ≫= tx_session
  end.

(** What a holder relies on. *)
Definition relies (c : world) (o : owner) (k : conn S) : Prop :=
  match o with
  | OLegacy => legacyMulti c = false -> ~ queueing S k
  | OOp n => match operations c !! n with Some (OpEnd Unwatch _) => ~ queueing S k | _ => True end
  | OTx tid => match transactions c !! tid with Some t => t_ending t = Some Released -> clean S k | None => True end
  end.

Record held (c : world) : Prop := {
  held_live : forall o sid, holds c o = Some sid ->
    exists s, sessions c !! sid = Some s /\ s_end s = None /\ relies c o (s_conn s);
  held_once : forall o o' sid, holds c o = Some sid -> holds c o' = Some sid -> o = o';
  held_all : forall sid s, sessions c !! sid = Some s -> s_end s = None -> exists o, holds c o = Some sid;
  held_released : forall sid s, sessions c !! sid = Some s -> s_end s = Some Released -> clean S (s_conn s);
}.

(** A change of one session, which goes from holder [x] to holder [y]. *)
Lemma held_change c c' sid s' x y :
  held c ->
  sessions c' = <[sid := s']> (sessions c) ->
  match x with Some x => holds c x = Some sid | None => sessions c !! sid = None end ->
  (forall o, Some o <> x -> Some o <> y ->
     holds c' o = holds c o /\ (is_Some (holds c o) -> forall k, relies c o k -> relies c' o k)) ->
  (forall o, x = Some o -> x <> y -> holds c' o = None) ->
  match y with
  | Some y => holds c' y = Some sid /\ s_end s' = None /\ relies c' y (s_conn s') /\ (x <> Some y -> holds c y = None)
  | None => s_end s' <> None /\ (s_end s' = Some Released -> clean S (s_conn s'))
  end -> held c'.
Proof.
  intros Hc Hs Hx Hframe Hgone Hy.
  assert (Hold : forall o, holds c o = Some sid -> x = Some o).
  { intros o Ho. destruct x as [x|]; [f_equal; by eapply held_once|].
    destruct (held_live c Hc o sid Ho) as (s & E & _). congruence. }
  assert (Hnew : forall o sid', holds c' o = Some sid' ->
    (y = Some o /\ sid' = sid) \/ (holds c o = Some sid' /\ sid' <> sid /\ (forall k, relies c o k -> relies c' o k))).
  { intros o sid' Ho. destruct (decide (y = Some o)) as [->|Hyo]; [left; destruct Hy as (E & _); split; congruence|].
    destruct (decide (x = Some o)) as [->|Hxo]; [by rewrite (Hgone o) in Ho by congruence|].
    right. destruct (Hframe o) as [E Hr]; [congruence..|]. rewrite E in Ho. split; [done|].
    split; [intros ->; by apply Hold in Ho|]. apply Hr. by exists sid'. }
  split.
  - intros o sid' Ho. rewrite Hs. destruct (Hnew o sid' Ho) as [[-> ->]|(Hh & Hne & Hr)].
    + rewrite lookup_insert_eq. exists s'. by destruct Hy as (_ & ? & ? & _).
    + rewrite lookup_insert_ne by done. destruct (held_live c Hc o sid' Hh) as (s & ? & ? & ?). exists s. auto.
  - intros o o' sid' Ho Ho'. destruct (Hnew o sid' Ho) as [[E0 E1]|(Hh & Hne & _)],
      (Hnew o' sid' Ho') as [[E E']|(Hh' & Hne' & _)]; [congruence|done|done|by eapply held_once].
  - intros sid' s. rewrite Hs. intros [[<- <-]|[Hne Hl]]%lookup_insert_Some Hlive.
    + destruct y as [y|]; [exists y; tauto|tauto].
    + destruct (held_all c Hc sid' s Hl Hlive) as [o Ho].
      assert (x <> Some o) by (intros ->; congruence).
      assert (y <> Some o). { intros ->. destruct Hy as (_ & _ & _ & Hn). rewrite Hn in Ho by done. done. }
      exists o. destruct (Hframe o) as [-> _]; [congruence..|done].
  - intros sid' s. rewrite Hs. intros [[<- <-]|[Hne Hl]]%lookup_insert_Some Hrel.
    + destruct y as [y|]; [destruct Hy as (_ & E & _); congruence|tauto].
    + by eapply held_released.
Qed.

(** ** Well-formed operations and transactions *)

Definition plain (args : list arg) : Prop := connectionStateCommand args = None.

Definition op_wf (op : operation) : Prop :=
  match op with
  | OpCommands _ commands => Forall plain commands
  | OpTx _ (TxCommand args) => plain (affineCommandArgs args)
  | _ => True
  end.

Definition tx_wf (t : transaction) : Prop :=
  if t_closed t then t_done t = negb (is_some (t_ending t)) else t_ending t = None /\ t_done t = false.

Definition ended_in (m : gmap nat (session (conn := conn S))) (sid : nat) : Prop :=
  exists s, m !! sid = Some s /\ s_end s <> None.

Definition session_ended (c : world) (sid : nat) : Prop := ended_in (sessions c) sid.

Record wf (c : world) : Prop := {
  wf_op : forall n op, operations c !! n = Some op -> op_wf op;
  wf_tx : forall tid t, transactions c !! tid = Some t -> tx_wf t;
  wf_done : forall tid t, transactions c !! tid = Some t -> t_done t = true -> session_ended c (t_session t);
}.

Lemma wf_change c c' :
  wf c ->
  (forall n op, operations c' !! n = Some op -> operations c !! n = Some op \/ op_wf op) ->
  (forall tid t, transactions c' !! tid = Some t ->
     transactions c !! tid = Some t \/ (tx_wf t /\ (t_done t = true -> session_ended c' (t_session t)))) ->
  (forall sid, session_ended c sid -> session_ended c' sid) -> wf c'.
Proof.
  intros Hc Hop Htx Hend. split.
  - intros n op H. destruct (Hop n op H) as [H'|H']; [by eapply wf_op|done].
  - intros tid t H. destruct (Htx tid t H) as [H'|[H' _]]; [by eapply wf_tx|done].
  - intros tid t H Hd. destruct (Htx tid t H) as [H'|[_ H']]; [apply Hend; by eapply wf_done|auto].
Qed.

Lemma doSession_ended o (s : session (conn := conn S)) : s_end s <> None -> doSession o s = s.
Proof. unfold doSession. by destruct (s_end s), o. Qed.

Lemma doSession_end o (s : session (conn := conn S)) : s_end (doSession o s) = s_end s.
Proof. unfold doSession. destruct (s_end s) eqn:E, o; cbn; congruence. Qed.

Lemma endSession_ended how (s : session (conn := conn S)) : s_end (endSession how s) <> None.
Proof. unfold endSession. destruct (s_end s) eqn:E; cbn; congruence. Qed.

(** Sessions that have ended stay so. *)
Lemma ended_insert m sid s' i :
  (forall s, m !! sid = Some s -> s_end s <> None -> s_end s' <> None) ->
  ended_in m i -> ended_in (<[sid := s']> m) i.
Proof.
  intros Hk (s & Hl & He). destruct (decide (sid = i)) as [->|Hne].
  - exists s'. rewrite lookup_insert_eq. eauto.
  - exists s. by rewrite lookup_insert_ne.
Qed.

Lemma ended_finish m sid how i : ended_in m i -> ended_in (alter (endSession how) sid m) i.
Proof.
  intros (s & Hl & He). destruct (decide (sid = i)) as [->|Hne].
  - exists (endSession how s). rewrite lookup_alter_eq, Hl. split; [done|apply endSession_ended].
  - exists s. by rewrite lookup_alter_ne.
Qed.

Lemma ended_do m sid s o i : m !! sid = Some s -> ended_in m i -> ended_in (<[sid := doSession o s]> m) i.
Proof. intros Hs. apply ended_insert. intros s0 Hs0. rewrite doSession_end. congruence. Qed.

Lemma ended_new m sid s i : m !! sid = None -> ended_in m i -> ended_in (<[sid := s]> m) i.
Proof. intros Hs. apply ended_insert. congruence. Qed.

Lemma ended_now m sid s how : m !! sid = Some s -> ended_in (alter (endSession how) sid m) sid.
Proof. intros Hs. exists (endSession how s). rewrite lookup_alter_eq, Hs. split; [done|apply endSession_ended]. Qed.

Lemma tx_wf_new sid : tx_wf (newTransaction sid).
Proof. done. Qed.

Lemma tx_wf_mark how err t : tx_wf t -> tx_wf (markClosed how err t).
Proof. unfold tx_wf, markClosed. destruct (t_closed t) eqn:E; cbn; [by rewrite E|]. by intros [_ ->]. Qed.

Lemma tx_wf_op b t : tx_wf t -> tx_wf (with_op b t).
Proof. done. Qed.

Lemma mark_done how err t : t_done (markClosed how err t) = t_done t /\ t_session (markClosed how err t) = t_session t.
Proof. unfold markClosed. by destruct (t_closed t). Qed.

Lemma afterTx_marks op (o : outcome (conn := conn S)) t : (exists how err, afterTx op o t = markClosed how err t) \/ afterTx op o t = t.
Proof.
  destruct op; cbn [afterTx].
  - unfold afterCommand. destruct o as [|err|[v|err] c]; cbn; eauto.
    destruct (is_queued v); cbn; [auto|unfold abort; eauto].
  - unfold afterTxEnd, abort, releaseTx. destruct (array_reply _); eauto.
  - unfold afterTxEnd, abort, releaseTx. destruct (ok_reply _); eauto.
Qed.

Ltac wf_lookups :=
  intros; cbn in *; repeat match goal with
  | H : <[_ := _]> _ !! _ = Some _ |- _ => apply lookup_insert_Some in H as [[? ?]|[? ?]]; subst
  | H : delete _ _ !! _ = Some _ |- _ => apply lookup_delete_Some in H as [? ?]
  end; try (by left); try (by right).

Ltac wf_ended :=
  unfold session_ended in *; cbn in *; try apply ended_finish;
  solve [assumption | apply ended_finish; assumption | apply ended_new; assumption | eapply ended_do; eassumption].

Lemma allowed_plain args : commandAllowed args = true -> plain (affineCommandArgs args).
Proof.
  unfold commandAllowed. intros H. apply affine_stateful, is_some_None.
  by destruct (is_some (connectionStateCommand args)); rewrite ?andb_false_r in H.
Qed.

Lemma client_allowed_plain multi args : clientCommandAllowed multi args = true -> plain (affineCommandArgs args).
Proof.
  unfold clientCommandAllowed. intros H. apply affine_stateful, is_some_None.
  by destruct (is_some (connectionStateCommand args)); rewrite ?andb_false_r in H.
Qed.

Lemma pipeline_allowed_plain commands :
  clientPipelineAllowed commands = true -> Forall plain (affineCommandArgs <$> commands).
Proof.
  unfold clientPipelineAllowed. intros [_ H]%andb_true_iff. apply Forall_fmap, Forall_forall. intros c Hc.
  rewrite forallb_forall in H. apply list_elem_of_In, H, negb_true_iff, is_some_None in Hc. by apply affine_stateful.
Qed.

Lemma remaining_plain r commands : Forall plain commands -> Forall plain (remaining r commands).
Proof. destruct r; [done|constructor]. Qed.

Lemma tx_wf_after op (o : outcome (conn := conn S)) t : tx_wf t -> tx_wf (with_op false (afterTx op o t)).
Proof. intros H. apply tx_wf_op. destruct (afterTx_marks op o t) as [(how & err & ->)| ->]; [by apply tx_wf_mark|done]. Qed.

Lemma afterTx_done op (o : outcome (conn := conn S)) t :
  t_done (afterTx op o t) = t_done t /\ t_session (afterTx op o t) = t_session t.
Proof. destruct (afterTx_marks op o t) as [(how & err & ->)| ->]; [apply mark_done|done]. Qed.

(** A transaction that is not done holds its session. *)
Lemma tx_live c tid t : held c -> transactions c !! tid = Some t -> t_done t = false ->
  exists s, sessions c !! t_session t = Some s /\ s_end s = None /\ relies c (OTx tid) (s_conn s).
Proof. intros Hc Ht Hd. apply (held_live c Hc). cbn. rewrite Ht. cbn. unfold tx_session. by rewrite Hd. Qed.

Lemma ending_open t how : tx_wf t -> t_ending t = Some how -> t_done t = false /\ t_closed t = true.
Proof. unfold tx_wf. intros H E. destruct (t_closed t); rewrite E in H; [done|by destruct H]. Qed.

Lemma wf_step c c' : held c -> wf c -> tx_step c c' -> wf c'.
Proof.
  intros Hheld Hc Hstep. pose proof (wf_op c Hc) as Hop. pose proof (wf_tx c Hc) as Htx. pose proof (wf_done c Hc) as Hdone.
  destruct Hstep as [c sid slot keys o|c sid s o|c sid slot o|c v sid n|c n v sid s o Hn|c sid n|c sid slot n
    |c n sid tid s o|c sid n|c n sid|c sid multi n args Hcur Hok|c sid multi n commands Hcur Hok|c n sid args rest s o Hn
    |c n sid|c n tid t op Ht Hop1 Hcl Hall|c n tid op t s o Hn Ht Hs Hdid|c tid t how Ht He|c tid t err Ht Hd].
  all: try (apply (wf_change c); [done|..]).
  all: try (unfold afterWatch, afterMulti, afterBegin; destruct (ok_reply _)).
  all: try (destruct v).
  all: wf_lookups.
  all: try wf_ended.
  - right. constructor; [by eapply client_allowed_plain|constructor].
  - right. by apply pipeline_allowed_plain.
  - right. apply Hop in Hn. inversion Hn. by apply remaining_plain.
  - right. destruct op; [|done..]. by apply allowed_plain.
  - right. split; [apply tx_wf_op; eauto|]. intros. unfold session_ended. cbn. by eapply Hdone.
  - right. split; [apply tx_wf_after; eauto|]. cbn. destruct (afterTx_done op o t) as [-> ->]. intros H.
    unfold session_ended. cbn. apply (ended_do _ _ s); [done|]. by eapply Hdone.
  - right. destruct (ending_open t how) as [Hd Hcl]; [eauto..|]. split; [unfold tx_wf; cbn; by rewrite Hcl|].
    intros _. unfold session_ended. cbn. destruct (tx_live c tid0 t) as (s & Hs & _); [done..|]. by eapply ended_now.
  - right. split; [apply tx_wf_mark; eauto|]. unfold abort. destruct (mark_done Aborted (Some err) t) as [-> _]. congruence.
Qed.

(** ** Every step keeps the sessions held once *)

(** A change that leaves sessions and holders alone. *)
Lemma held_frame c c' :
  held c -> sessions c' = sessions c ->
  (forall o, holds c' o = holds c o /\ (is_Some (holds c o) -> forall k, relies c o k -> relies c' o k)) -> held c'.
Proof.
  intros Hc Hs Ho. split.
  - intros o sid H. destruct (Ho o) as [E Hr]. rewrite E in H. rewrite Hs.
    destruct (held_live c Hc o sid H) as (s & ? & ? & ?). exists s. split_and!; [done..|]. apply Hr; [by exists sid|done].
  - intros o o' sid H H'. destruct (Ho o) as [E _], (Ho o') as [E' _]. rewrite E in H. rewrite E' in H'. by eapply held_once.
  - intros sid s. rewrite Hs. intros H H'. destruct (held_all c Hc sid s H H') as [o Hh]. exists o. by destruct (Ho o) as [-> _].
  - intros sid s. rewrite Hs. by apply held_released.
Qed.

Lemma finish_insert (m : gmap nat session) sid (s : session (conn := conn S)) how :
  alter (endSession how) sid (<[sid := s]> m) = <[sid := endSession how s]> m.
Proof.
  apply map_eq. intros i. destruct (decide (sid = i)) as [->|Hne].
  - by rewrite lookup_alter_eq, !lookup_insert_eq.
  - by rewrite lookup_alter_ne, !lookup_insert_ne by done.
Qed.

Lemma finish_lookup (m : gmap nat session) sid (s : session (conn := conn S)) how :
  m !! sid = Some s -> alter (endSession how) sid m = <[sid := endSession how s]> m.
Proof. intros H. rewrite <- (insert_id m sid s H) at 1. apply finish_insert. Qed.

Lemma endSession_live how (s : session (conn := conn S)) : s_end s = None -> endSession how s = Session (s_conn s) (s_slot s) (Some how).
Proof. unfold endSession. by intros ->. Qed.

Ltac hframe :=
  intros [|?|?]; cbn; intros; rewrite ?lookup_insert_ne, ?lookup_delete_ne by congruence; try done.

(** A plain command on a session: whoever holds it may go on relying on it. *)
Lemma relies_plain c o s args out :
  plain args -> did s args out -> s_end s = None -> relies c o (s_conn s) -> relies c o (s_conn (doSession out s)).
Proof.
  intros Hp Hd He. unfold doSession. rewrite He. destruct Hd as [?|err ?|r k ? Hserve]; [done|done|]. cbn.
  destruct (serve_other S (s_conn s) args r k (Hserve He) Hp) as [Hq Hcl].
  destruct o as [|n|tid]; cbn.
  - tauto.
  - destruct (operations c !! n) as [[[]| | | |]|]; tauto.
  - destruct (transactions c !! tid); tauto.
Qed.

Lemma held_run c sid s args out c' :
  held c -> sessions c !! sid = Some s -> plain args -> did s args out ->
  sessions c' = <[sid := doSession out s]> (sessions c) ->
  (forall o, holds c' o = holds c o /\ (is_Some (holds c o) -> forall k, relies c o k -> relies c' o k)) -> held c'.
Proof.
  intros Hc Hs Hp Hd Hs' Ho. destruct (s_end s) as [how|] eqn:He.
  { apply (held_frame c); [done| |done]. rewrite Hs', doSession_ended by congruence. by apply insert_id. }
  destruct (held_all c Hc sid s Hs He) as [z Hz].
  destruct (held_live c Hc z sid Hz) as (s0 & Es & _ & Hr). assert (s0 = s) by congruence. subst s0.
  apply (held_change c _ sid (doSession out s) (Some z) (Some z)); try done.
  split_and!; [by destruct (Ho z) as [-> _]|by rewrite doSession_end| |done].
  destruct (Ho z) as [_ Hz']. apply Hz'; [by exists sid|]. by eapply relies_plain.
Qed.

(** A holder whose request was served as the last of its session. *)
Lemma served_conn s args out : did s args out -> s_end s = None ->
  forall v, outcomeReply out = Ok v -> serve S (s_conn s) args (Ok v) (s_conn (doSession out s)).
Proof.
  intros Hd He v. unfold doSession. rewrite He. destruct Hd as [?|?|r k ? Hserve]; cbn; try done. intros ->. by apply Hserve.
Qed.

Lemma ok_reply_ok r u : ok_reply r = Ok u -> exists v, r = Ok v /\ responseOK v = true.
Proof. unfold ok_reply. destruct r as [v|]; [|done]. destruct (responseOK v) eqn:E; [eauto|done]. Qed.

Lemma array_reply_ok r l : array_reply r = Ok l -> exists v, r = Ok v /\ is_some (transactionArray v) = true.
Proof. unfold array_reply. destruct r as [v|]; [|done]. destruct (transactionArray v) eqn:E; [|done]. exists v. by rewrite E. Qed.

(** A session ends with its last command: it is released only with nothing left on
    its connection. *)
Lemma released_end v s out :
  did s (endArgs v) out -> s_end s = None ->
  (v = Unwatch -> ~ queueing S (s_conn s)) ->
  match v with
  | Unwatch | Discard => is_ok (ok_reply (outcomeReply out))
  | Exec => is_ok (array_reply (outcomeReply out))
  end = true -> clean S (s_conn (doSession out s)).
Proof.
  intros Hd He Hq Hok. pose proof (served_conn s _ out Hd He) as Hserve.
  destruct v; [destruct (ok_reply _) eqn:E|destruct (array_reply _) eqn:E|destruct (ok_reply _) eqn:E]; try done.
  - destruct (ok_reply_ok _ _ E) as (r & Hr & Hv). eapply serve_unwatch; [by apply Hserve|done|by apply Hq].
  - destruct (array_reply_ok _ _ E) as (r & Hr & Hv). eapply serve_exec; [by apply Hserve|done].
  - destruct (ok_reply_ok _ _ E) as (r & Hr & Hv). eapply serve_discard; [by apply Hserve|done].
Qed.

Lemma held_watch c sid slot keys o :
  held c -> legacy c = None -> sessions c !! sid = None -> did (opened slot) (watchArgs keys) o ->
  held (afterWatch sid (outcomeReply o) (add_session sid (doSession o (opened slot)) c)).1.
Proof.
  intros Hc Hl Hs Hd. unfold afterWatch. destruct (ok_reply _) as [u|err] eqn:E.
  - apply (held_change c _ sid (doSession o (opened slot)) None (Some OLegacy)); try done; [hframe|].
    split_and!; [done|by rewrite doSession_end| |by intros _]. intros _.
    destruct (ok_reply_ok _ _ E) as (r & Hr & _). pose proof (served_conn _ _ o Hd eq_refl r Hr) as Hserve.
    eapply serve_watch; [exact Hserve| |apply clean_not_queueing, fresh_clean].
    unfold watchArgs. cbn. by destruct keys.
  - apply (held_change c _ sid (endSession Aborted (doSession o (opened slot))) None None); try done.
    + cbn. by rewrite finish_insert.
    + rewrite endSession_live by by rewrite doSession_end. done.
Qed.

Lemma held_multi c sid s o :
  held c -> legacy c = Some sid -> sessions c !! sid = Some s ->
  held (afterMulti sid (outcomeReply o) (add_session sid (doSession o s) c)).1.
Proof.
  intros Hc Hl Hs. destruct (held_live c Hc OLegacy sid Hl) as (s0 & E & He & _). assert (s0 = s) by congruence. subst s0.
  unfold afterMulti. destruct (ok_reply _) as [u|err].
  - apply (held_change c _ sid (doSession o s) (Some OLegacy) (Some OLegacy)); try done; [hframe|].
    split_and!; [done|by rewrite doSession_end|done|done].
  - apply (held_change c _ sid (endSession Aborted (doSession o s)) (Some OLegacy) None); try done.
    + cbn. by rewrite finish_insert.
    + hframe.
    + by intros ? [= <-].
    + rewrite endSession_live by by rewrite doSession_end. done.
Qed.

Lemma held_multi_new c sid slot o :
  held c -> legacy c = None -> sessions c !! sid = None ->
  held (afterMulti sid (outcomeReply o)
      (setLegacySessionLocked (Some sid) (add_session sid (doSession o (opened slot)) c))).1.
Proof.
  intros Hc Hl Hs. unfold afterMulti. destruct (ok_reply _) as [u|err].
  - apply (held_change c _ sid (doSession o (opened slot)) None (Some OLegacy)); try done; [hframe|].
    split_and!; [done|by rewrite doSession_end|done|done].
  - apply (held_change c _ sid (endSession Aborted (doSession o (opened slot))) None None); try done.
    + cbn. by rewrite finish_insert.
    + hframe. rewrite Hl. split; [done|]. by intros [? ?].
    + rewrite endSession_live by by rewrite doSession_end. done.
Qed.

(** The implicit session is taken by an operation that relies on no more. *)
Lemma held_take c sid n op :
  held c -> legacy c = Some sid -> operations c !! n = None -> op_session op = Some sid ->
  match op with OpEnd Unwatch _ => legacyMulti c = false | _ => True end ->
  held (add_op n op (setLegacySessionLocked None c)).
Proof.
  intros Hc Hl Hn Hop Hm. destruct (held_live c Hc OLegacy sid Hl) as (s & Hs & He & Hr).
  apply (held_change c _ sid s (Some OLegacy) (Some (OOp n))); try done.
  - cbn. symmetry. by apply insert_id.
  - hframe.
  - by intros ? [= <-].
  - cbn. rewrite lookup_insert_eq, Hn. split_and!; try done. destruct op as [[]| | | |]; try done. by apply Hr.
Qed.

Lemma held_end_run c n v sid s o :
  held c -> operations c !! n = Some (OpEnd v sid) -> sessions c !! sid = Some s -> did s (endArgs v) o ->
  held (drop_op n (afterEnd v sid (outcomeReply o) (add_session sid (doSession o s) c))).
Proof.
  intros Hc Hn Hs Hd. assert (Hh : holds c (OOp n) = Some sid) by (cbn; by rewrite Hn).
  destruct (held_live c Hc _ sid Hh) as (s0 & E & He & Hr). assert (s0 = s) by congruence. subst s0.
  cbn in Hr. rewrite Hn in Hr.
  set (how := match v with Unwatch | Discard => finishHow (ok_reply (outcomeReply o)) | Exec => finishHow (array_reply (outcomeReply o)) end).
  apply (held_change c _ sid (endSession how (doSession o s)) (Some (OOp n)) None); try done.
  - destruct v; cbn; by rewrite finish_insert.
  - destruct v; hframe.
  - intros ? [= <-] _. destruct v; cbn; by rewrite lookup_delete_eq.
  - rewrite endSession_live by by rewrite doSession_end. split; [done|]. cbn. intros [= Hrel].
    apply (released_end v s o Hd He); [by intros ->|]. unfold how, finishHow in Hrel.
    destruct v; [destruct (ok_reply _)|destruct (array_reply _)|destruct (ok_reply _)]; done.
Qed.

Lemma held_begin_new c sid slot n :
  held c -> sessions c !! sid = None -> operations c !! n = None ->
  held (add_op n (OpBegin sid) (add_session sid (opened slot) c)).
Proof.
  intros Hc Hs Hn. apply (held_change c _ sid (opened slot) None (Some (OOp n))); try done; [hframe|].
  cbn. rewrite lookup_insert_eq, Hn. done.
Qed.

Lemma held_begin_run c n sid tid s o :
  held c -> operations c !! n = Some (OpBegin sid) -> sessions c !! sid = Some s -> transactions c !! tid = None ->
  held (drop_op n (afterBegin sid tid (outcomeReply o) (add_session sid (doSession o s) c)).1).
Proof.
  intros Hc Hn Hs Ht. assert (Hh : holds c (OOp n) = Some sid) by (cbn; by rewrite Hn).
  destruct (held_live c Hc _ sid Hh) as (s0 & E & He & _). assert (s0 = s) by congruence. subst s0.
  unfold afterBegin. destruct (ok_reply _) as [u|err].
  - apply (held_change c _ sid (doSession o s) (Some (OOp n)) (Some (OTx tid))); try done; [hframe| |].
    + intros ? [= <-] _. cbn. by rewrite lookup_delete_eq.
    + cbn. rewrite lookup_insert_eq, Ht. by rewrite doSession_end.
  - apply (held_change c _ sid (endSession Aborted (doSession o s)) (Some (OOp n)) None); try done.
    + cbn. by rewrite finish_insert.
    + hframe.
    + intros ? [= <-] _. cbn. by rewrite lookup_delete_eq.
    + rewrite endSession_live by by rewrite doSession_end. done.
Qed.

Lemma held_close_run c n sid :
  held c -> operations c !! n = Some (OpClose sid) -> held (drop_op n (finishSession sid Aborted c)).
Proof.
  intros Hc Hn. assert (Hh : holds c (OOp n) = Some sid) by (cbn; by rewrite Hn).
  destruct (held_live c Hc _ sid Hh) as (s & Hs & He & _).
  apply (held_change c _ sid (endSession Aborted s) (Some (OOp n)) None); try done.
  - cbn. by apply finish_lookup.
  - hframe.
  - intros ? [= <-] _. cbn. by rewrite lookup_delete_eq.
  - rewrite endSession_live by done. done.
Qed.

Lemma held_tx_end c tid t how :
  held c -> wf c -> transactions c !! tid = Some t -> t_ending t = Some how ->
  held (put_tx tid (ended t) (finishSession (t_session t) how c)).
Proof.
  intros Hc Hw Ht Hend. destruct (ending_open t how) as [Hd _]; [by eapply wf_tx|done|].
  destruct (tx_live c tid t Hc Ht Hd) as (s & Hs & He & Hr). cbn in Hr. rewrite Ht in Hr.
  apply (held_change c _ (t_session t) (endSession how s) (Some (OTx tid)) None); try done.
  - cbn. by apply finish_lookup.
  - cbn. rewrite Ht. cbn. unfold tx_session. by rewrite Hd.
  - hframe.
  - intros ? [= <-] _. cbn. by rewrite lookup_insert_eq.
  - rewrite endSession_live by done. cbn. split; [done|]. intros [= ->]. by apply Hr.
Qed.

(** ** One operation at a time runs on a transaction *)

Record exclusive (c : world) : Prop := {
  ex_once : forall n n' tid op op', operations c !! n = Some (OpTx tid op) -> operations c !! n' = Some (OpTx tid op') -> n = n';
  ex_open : forall n tid op, operations c !! n = Some (OpTx tid op) ->
    exists t, transactions c !! tid = Some t /\ t_op t = true /\ t_ending t <> Some Released;
}.

Lemma exclusive_change c c' :
  exclusive c ->
  (forall n tid op, operations c' !! n = Some (OpTx tid op) -> operations c !! n = Some (OpTx tid op)) ->
  (forall n tid op t, operations c' !! n = Some (OpTx tid op) -> transactions c !! tid = Some t ->
     exists t', transactions c' !! tid = Some t' /\ t_op t' = t_op t /\
       (t_ending t' = Some Released -> t_ending t = Some Released)) -> exclusive c'.
Proof.
  intros Hc Hop Htx. split.
  - intros n n' tid op op' H H'. eapply (ex_once c Hc); by apply Hop.
  - intros n tid op H. destruct (ex_open c Hc n tid op (Hop _ _ _ H)) as (t & Ht & Ho & Hr).
    destruct (Htx n tid op t H Ht) as (t' & ? & ? & ?). exists t'. split_and!; [done|congruence|tauto].
Qed.

(** Steps that leave the transactions alone. *)
Lemma exclusive_same c c' :
  exclusive c -> transactions c' = transactions c ->
  (forall n tid op, operations c' !! n = Some (OpTx tid op) -> operations c !! n = Some (OpTx tid op)) -> exclusive c'.
Proof.
  intros Hc Ht Hop. apply (exclusive_change c); [done..|]. intros n tid op t _ H. exists t. by rewrite Ht.
Qed.

Lemma mark_ending how err t : t_ending (markClosed how err t) = Some Released ->
  t_ending t = Some Released \/ (how = Released /\ t_closed t = false).
Proof. unfold markClosed. destruct (t_closed t); cbn; [auto|]. intros [= ->]. auto. Qed.

Lemma exclusive_start c n tid t op :
  exclusive c -> transactions c !! tid = Some t -> t_op t = false -> t_ending t = None -> operations c !! n = None ->
  exclusive (add_op n (OpTx tid op) (put_tx tid (with_op true t) c)).
Proof.
  intros Hc Ht Hop He Hn.
  assert (Hno : forall n' op', operations c !! n' <> Some (OpTx tid op')).
  { intros n' op' H. destruct (ex_open c Hc _ _ _ H) as (t' & ? & ? & _). congruence. }
  split; cbn.
  - intros n1 n2 tid' op1 op2 [[<- E1]|[H1 E1]]%lookup_insert_Some [[<- E2]|[H2 E2]]%lookup_insert_Some; try done.
    + injection E1 as <- <-. by apply Hno in E2.
    + injection E2 as <- <-. by apply Hno in E1.
    + by eapply (ex_once c Hc).
  - intros n1 tid' op1 [[<- E1]|[H1 E1]]%lookup_insert_Some.
    + injection E1 as <- <-. rewrite lookup_insert_eq. eexists. split; [done|]. cbn. by rewrite He.
    + assert (tid <> tid') by (intros <-; by apply Hno in E1). rewrite lookup_insert_ne by done. by apply (ex_open c Hc n1 tid' op1).
Qed.

Lemma exclusive_put c tid t t' :
  exclusive c -> transactions c !! tid = Some t -> t_op t' = t_op t ->
  (t_ending t' = Some Released -> t_ending t = Some Released) -> exclusive (put_tx tid t' c).
Proof.
  intros Hc Ht Ho He. apply (exclusive_change c); [done..|]. cbn. intros n tid' op t0 _ H0.
  destruct (decide (tid = tid')) as [<-|Hne]; [exists t'|exists t0].
  - rewrite lookup_insert_eq. assert (t0 = t) by congruence. by subst.
  - by rewrite lookup_insert_ne.
Qed.

Lemma exclusive_step c c' : wf c -> exclusive c -> tx_step c c' -> exclusive c'.
Proof.
  intros Hw Hc Hstep.
  destruct Hstep as [c sid slot keys o|c sid s o|c sid slot o|c v sid n|c n v sid s o Hn|c sid n|c sid slot n
    |c n sid tid s o Hn Hs Htn|c sid n|c n sid|c sid multi n args Hcur Hok|c sid multi n commands Hcur Hok|c n sid args rest s o Hn
    |c n sid|c n tid t op Ht Hop1 Hcl Hall|c n tid op t s o Hn Ht Hs Hdid|c tid t how Ht He|c tid t err Ht Hd].
  all: try (unfold afterWatch, afterMulti; destruct (ok_reply _)).
  all: try (destruct v).
  all: try (apply (exclusive_same c); [done|done|]; cbn; intros ? ? ? Hl;
    first [apply lookup_insert_Some in Hl as [[_ Hl]|[_ Hl]]|apply lookup_delete_Some in Hl as [_ Hl]|idtac]; done).
  - unfold afterBegin. destruct (ok_reply _).
    + apply (exclusive_change c); [done|cbn; intros ? ? ?; rewrite lookup_delete_Some; tauto|]. cbn. intros n' tid' op t _ Ht.
      assert (tid <> tid') by congruence. exists t. by rewrite lookup_insert_ne.
    + apply (exclusive_same c); [done|done|]. cbn. intros ? ? ?. rewrite lookup_delete_Some. tauto.
  - apply exclusive_start; try done. pose proof (wf_tx c Hw tid t Ht) as Hwf. unfold tx_wf in Hwf.
    unfold closedStateError in Hcl. destruct (t_closed t); [cbn in Hcl; by destruct (t_closeErr t)|tauto].
  - apply (exclusive_change c); [done|cbn; intros ? ? ?; rewrite lookup_delete_Some; tauto|]. cbn.
    intros n' tid' op' t' [Hne H']%lookup_delete_Some Ht'. destruct (decide (tid = tid')) as [<-|Hne'].
    + destruct Hne. by eapply (ex_once c Hc).
    + exists t'. by rewrite lookup_insert_ne.
  - apply (exclusive_change c); [done|done|]. cbn. intros n' tid' op' t' H' Ht'.
    destruct (decide (tid = tid')) as [<-|Hne']; [|exists t'; by rewrite lookup_insert_ne].
    exists (ended t). rewrite lookup_insert_eq. assert (t' = t) by congruence. by subst.
  - apply (exclusive_put c tid t); [done..| |].
    + unfold abort, markClosed. by destruct (t_closed t).
    + intros H. destruct (mark_ending _ _ _ H) as [|[? _]]; done.
Qed.

(** ** A finished operation of a transaction *)

Lemma afterTx_closed op (o : outcome (conn := conn S)) t : t_closed t = true -> afterTx op o t = t.
Proof.
  intros H. destruct (afterTx_marks op o t) as [(how & err & ->)| ->]; [|done]. unfold markClosed. by rewrite H.
Qed.

(** What a transaction relies on after its operation. *)
Lemma tx_relies op o t s :
  tx_wf t -> t_ending t <> Some Released -> did s (txArgs op) o -> s_end s = None ->
  t_ending (afterTx op o t) = Some Released -> clean S (s_conn (doSession o s)).
Proof.
  intros Hwf Hne Hd He Hrel.
  assert (Hmark : forall A (r : result goError A), afterTx op o t = afterTxEnd r t -> is_ok r = true).
  { intros A r E. rewrite E in Hrel. unfold afterTxEnd in Hrel. destruct r; [done|].
    destruct (mark_ending _ _ _ Hrel) as [?|[? _]]; done. }
  destruct op as [args| |]; cbn [afterTx txArgs] in *.
  - exfalso. unfold afterCommand in Hrel. destruct o as [|err|[v|err] k]; try done;
      try destruct (is_queued v); try done; destruct (mark_ending _ _ _ Hrel) as [?|[? _]]; done.
  - apply (released_end Exec s o Hd He); [done|]. by eapply Hmark.
  - apply (released_end Discard s o Hd He); [done|]. by eapply Hmark.
Qed.

Lemma held_tx_run c n tid op t s o :
  held c -> wf c -> exclusive c ->
  operations c !! n = Some (OpTx tid op) -> transactions c !! tid = Some t -> sessions c !! t_session t = Some s ->
  did s (txArgs op) o ->
  held (drop_op n (put_tx tid (with_op false (afterTx op o t)) (add_session (t_session t) (doSession o s) c))).
Proof.
  intros Hc Hw Hex Hn Ht Hs Hd. destruct (afterTx_done op o t) as [Edone Esess].
  assert (Hthis : forall m op', operations c !! m = Some (OpTx tid op') -> m = n) by (intros; by eapply (ex_once c Hex)).
  assert (Hops : forall m, delete n (operations c) !! m ≫= op_session = operations c !! m ≫= op_session).
  { intros m. destruct (decide (n = m)) as [<-|Hne]; [by rewrite lookup_delete_eq, Hn|by rewrite lookup_delete_ne]. }
  destruct (t_done t) eqn:Htd.
  - destruct (wf_done c Hw tid t Ht Htd) as (s0 & E & He). assert (s0 = s) by congruence. subst s0.
    pose proof (wf_tx c Hw tid t Ht) as Hwf.
    assert (Hcl : t_closed t = true) by (unfold tx_wf in Hwf; destruct (t_closed t); [done|by destruct Hwf; congruence]).
    rewrite afterTx_closed by done. apply (held_frame c); [done| |].
    + cbn. rewrite doSession_ended by done. by apply insert_id.
    + intros [|m|u]; cbn; [done| |].
      * rewrite Hops. split; [done|]. intros _ k. destruct (decide (n = m)) as [<-|Hne]; [by rewrite lookup_delete_eq|].
        by rewrite lookup_delete_ne.
      * destruct (decide (tid = u)) as [<-|Hne]; [rewrite lookup_insert_eq, Ht; done|by rewrite lookup_insert_ne].
  - destruct (tx_live c tid t Hc Ht Htd) as (s0 & E & He & _). assert (s0 = s) by congruence. subst s0.
    apply (held_change c _ (t_session t) (doSession o s) (Some (OTx tid)) (Some (OTx tid))); try done.
    + cbn. rewrite Ht. cbn. unfold tx_session. by rewrite Htd.
    + intros [|m|u] Hx _; cbn; [done| |].
      * rewrite Hops. split; [done|]. intros _ k. destruct (decide (n = m)) as [<-|Hne]; [by rewrite lookup_delete_eq|].
        by rewrite lookup_delete_ne.
      * by rewrite lookup_insert_ne by congruence.
    + cbn. rewrite lookup_insert_eq. cbn. unfold tx_session. cbn. rewrite Edone, Esess.
      split_and!; [done|by rewrite doSession_end| |done].
      apply (tx_relies op); try done; [by eapply wf_tx|].
      destruct (ex_open c Hex n tid op Hn) as (t' & Ht' & _ & Hr). assert (t' = t) by congruence. by subst.
Qed.

Lemma held_step c c' : held c -> wf c -> exclusive c -> tx_step c c' -> held c'.
Proof.
  intros Hc Hw Hex Hstep.
  destruct Hstep as [c sid slot keys o|c sid s o|c sid slot o|c v sid n Hl Hv|c n v sid s o Hn|c sid n|c sid slot n
    |c n sid tid s o Hn Hs Htn|c sid n|c n sid|c sid multi n args Hcur Hok|c sid multi n commands Hcur Hok
    |c n sid args rest s o Hn Hs Hdid|c n sid Hn|c n tid t op Ht Hop1 Hcl Hall|c n tid op t s o Hn Ht Hs Hdid|c tid t how Ht He|c tid t err Ht Hd].
  - by eapply held_watch.
  - by apply held_multi.
  - by apply held_multi_new.
  - apply (held_take c sid); try done. destruct v; try done. by apply negb_true_iff in Hv.
  - by eapply held_end_run.
  - by apply (held_take c sid).
  - by apply held_begin_new.
  - by apply held_begin_run.
  - by apply (held_take c sid).
  - by apply held_close_run.
  - apply (held_frame c); [done..|]. intros [|m|]; cbn; try done. destruct (decide (n = m)) as [<-|Hne];
      [rewrite lookup_insert_eq, H; done|by rewrite lookup_insert_ne].
  - apply (held_frame c); [done..|]. intros [|m|]; cbn; try done. destruct (decide (n = m)) as [<-|Hne];
      [rewrite lookup_insert_eq, H; done|by rewrite lookup_insert_ne].
  - eapply (held_run c sid s args o); try done; [by apply (wf_op c Hw) in Hn; inversion Hn|].
    intros [|m|]; cbn; try done. destruct (decide (n = m)) as [<-|Hne];
      [rewrite lookup_insert_eq, Hn; done|by rewrite lookup_insert_ne].
  - apply (held_frame c); [done..|]. intros [|m|]; cbn; try done. destruct (decide (n = m)) as [<-|Hne];
      [rewrite lookup_delete_eq, Hn; done|by rewrite lookup_delete_ne].
  - apply (held_frame c); [done..|]. intros [|m|u]; cbn; try done.
    + destruct (decide (n = m)) as [<-|Hne]; [rewrite lookup_insert_eq, H; done|by rewrite lookup_insert_ne].
    + destruct (decide (tid = u)) as [<-|Hne]; [rewrite lookup_insert_eq, Ht; done|by rewrite lookup_insert_ne].
  - by eapply held_tx_run.
  - by eapply held_tx_end.
  - apply (held_frame c); [done..|]. intros [|m|u]; cbn; try done.
    destruct (decide (tid = u)) as [<-|Hne]; [|by rewrite lookup_insert_ne]. rewrite lookup_insert_eq, Ht. cbn.
    unfold tx_session, abort. destruct (mark_done Aborted (Some err) t) as [-> ->]. split; [done|]. intros _ k Hk Hm.
    apply Hk. by destruct (mark_ending _ _ _ Hm) as [|[? _]].
Qed.

Lemma reachable_inv c : tx_reachable c -> held c /\ wf c /\ exclusive c.
Proof.
  induction 1 as [|c c' _ (Hh & Hw & Hex) Hstep].
  - split_and!; split; cbn; try (intros; by simplify_map_eq).
    + intros [|n|tid] sid; cbn; by rewrite ?lookup_empty.
    + intros [|n|tid] o' sid; cbn; by rewrite ?lookup_empty.
  - split_and!; [by eapply held_step|by eapply wf_step|by eapply exclusive_step].
Qed.
End Steps.

(** ** Properties *)

(** C10: sessions are never leaked nor shared: in every interleaving a session is open
    exactly while somebody holds it (the client's implicit transaction, an operation
    that took it, or a transaction not yet finished), and never two at once, so that a
    client with no implicit transaction, no operation in progress and no unfinished
    transaction has ended all its sessions. *)
Theorem session_held_once S c sid s :
  tx_reachable S c -> sessions c !! sid = Some s ->
  (s_end s = None <-> exists o, holds S c o = Some sid) /\
  (forall o o', holds S c o = Some sid -> holds S c o' = Some sid -> o = o') /\
  (legacy c = None -> operations c = ∅ -> (forall tid t, transactions c !! tid = Some t -> t_done t = true) -> s_end s <> None).
Proof.
  intros Hr Hs. destruct (reachable_inv S c Hr) as (Hh & _ & _).
  assert (Hiff : s_end s = None <-> exists o, holds S c o = Some sid).
  { split; [by apply (held_all S c Hh)|]. intros [o Ho]. destruct (held_live S c Hh o sid Ho) as (s0 & E & He & _). congruence. }
  split; [done|]. split; [intros o o'; by apply (held_once S c Hh)|].
  intros Hl Ho Ht Hlive. apply Hiff in Hlive as [[|n|tid] H]; cbn in H; [congruence|by rewrite Ho, lookup_empty in H|].
  destruct (transactions c !! tid) as [t|] eqn:E; [|done]. cbn in H. unfold tx_session in H. by rewrite (Ht tid t E) in H.
Qed.

(** C9: the connection of a session goes back to other requests only with nothing left
    on it: a session that was released, and not aborted with its connection, has
    neither WATCH nor MULTI open on the server, whatever was cancelled, failed or ran
    at the same time. *)
Theorem released_session_clean S c sid s :
  tx_reachable S c -> sessions c !! sid = Some s -> s_end s = Some Released -> clean S (s_conn s).
Proof. intros Hr. destruct (reachable_inv S c Hr) as (Hh & _ & _). by apply (held_released S c Hh). Qed.

Lemma validate_keys_slot slot keys : forall i,
  validateTopologyTransactionKeys i slot keys = Ok tt <-> Forall (fun key => routingTargetSlot key = Some slot) keys.
Proof.
  induction keys as [|key keys IH]; intros i; cbn; [split; [constructor|done]|].
  rewrite Forall_cons, <- (IH (S i)). destruct (routingTargetSlot key) as [s|]; [|split; [done|by intros []]].
  destruct (Z.eqb_spec s slot) as [->|Hne]; cbn; [tauto|]. split; [done|]. intros [[= ?] _]. done.
Qed.

Lemma policies_not_flow name policy :
  assoc_get name topologyCommandPolicies = Some policy -> has_prefix (go "FLOW.") name = false.
Proof.
  intros H. apply assoc_get_elem in H.
  assert (Hall : forallb (fun p => negb (has_prefix (go "FLOW.") p.1)) topologyCommandPolicies = true) by (vm_compute; done).
  rewrite forallb_forall in Hall. apply negb_true_iff. apply (Hall (name, policy)). by apply list_elem_of_In.
Qed.

Lemma policies_not_local name policy :
  assoc_get name topologyCommandPolicies = Some policy -> v080TransactionLocalNoKeyCommand name = false.
Proof.
  intros H. apply assoc_get_elem in H.
  assert (Hall : forallb (fun p => negb (v080TransactionLocalNoKeyCommand p.1)) topologyCommandPolicies = true) by (vm_compute; done).
  rewrite forallb_forall in Hall. apply negb_true_iff. apply (Hall (name, policy)). by apply list_elem_of_In.
Qed.

(** A transaction on a topology stays in the slot it is pinned to: a command is
    sent exactly when it needs no key, is a Flow command routed to that slot, or is a
    command of the table whose keys all hash to that slot; any other is refused before
    anything is sent, and leaves session and transaction as they were. *)
Theorem transaction_pinned slot args :
  connectionStateCommand args = None -> canonicalCommandArgs args <> [] ->
  let args' := canonicalCommandArgs args in
  let name := commandName args' in
  (is_ok (validateTopologyTransactionRoute slot args) = true <->
     v080TransactionLocalNoKeyCommand name = true \/
     (has_prefix (go "FLOW.") name = true /\
        exists key, flowRoutingKey name args' = Some key /\ routingTargetSlot key = Some slot) \/
     (exists keys policy, keys <> [] /\ topologyPolicyKeys name args' = Some (keys, policy) /\
        Forall (fun a => argRouteKey a = true /\ routeSlotForKey a = slot) keys)) /\
  (forall S (s : session (conn := conn S)) o t, s_slot s = Some slot ->
     is_ok (validateTopologyTransactionRoute slot args) = false -> did S s args o ->
     doSession o s = s /\ afterCommand o t = (t, Err errRoute)).
Proof.
  intros Hplain Hne args' name. split.
  - unfold validateTopologyTransactionRoute. rewrite Hplain. fold args'. fold name.
    assert (Hok : forall keys, is_ok (validateTopologyTransactionKeys 0 slot keys) = true <->
      Forall (fun key => routingTargetSlot key = Some slot) keys).
    { intros keys. rewrite <- (validate_keys_slot slot keys 0). by destruct (validateTopologyTransactionKeys _ _ _) as [[]|]. }
    assert (Hkeys : forall keys, Forall (fun a => argRouteKey a = true /\ routeSlotForKey a = slot) keys <->
      Forall (fun key => routingTargetSlot key = Some slot) (KeyArg <$> keys)).
    { intros keys. rewrite Forall_fmap. apply Forall_iff. intros a. cbn. destruct (argRouteKey a); [|by split; [intros []|]].
      split; [by intros [_ ->]|by intros [= ->]]. }
    destruct args' as [|a rest] eqn:E; [done|]. rewrite <- E in *.
    destruct (v080TransactionLocalNoKeyCommand name) eqn:El; [tauto|].
    destruct (has_prefix (go "FLOW.") name) eqn:Ef.
    + assert (Hno : forall keys policy, topologyPolicyKeys name args' <> Some (keys, policy)).
      { intros keys policy. unfold topologyPolicyKeys. destruct (assoc_get name _) as [p|] eqn:Ep; [|done].
        by rewrite (policies_not_flow name p Ep) in Ef. }
      destruct (flowRoutingKey name args') as [key|].
      * rewrite Hok, Forall_singleton. split; [intros H; right; left; eauto|].
        intros [?|[(_ & k & [= <-] & ?)|(keys & policy & _ & H & _)]]; [done|done|by apply Hno in H].
      * split; [done|]. intros [?|[(_ & k & ? & _)|(keys & policy & _ & H & _)]]; [done|done|by apply Hno in H].
    + unfold topologyPolicyKeys. destruct (assoc_get name _) as [p|]; [|split; [done|]; intros [?|[[? _]|(? & ? & _ & ? & _)]]; done].
      destruct (topologyKeysForMode (keyMode p) args') as [[|k ks]|]; cbn [fmap option_fmap option_map].
      * split; [done|]. intros [?|[[? _]|(keys & ? & Hk & [= <- <-] & _)]]; done.
      * rewrite Hok, <- Hkeys. split; [intros H; right; right; by exists (k :: ks), p|].
        by intros [?|[[? _]|(keys & ? & _ & [= <- <-] & ?)]].
      * split; [done|]. intros [?|[[? _]|(keys & ? & _ & ? & _)]]; done.
  - intros S s o t Hs Hbad Hd. destruct Hd as [_|err Hr|r k Hr _]; [|unfold routed in Hr; rewrite Hs in Hr; congruence..].
    unfold doSession. by destruct (s_end s).
Qed.

(** PUBLISH, which FerricStore does not run inside a transaction. *)
Definition publish : list arg := [Arg (VString (go "PUBLISH")); Arg (VString (go "news")); Arg (VString (go "hello"))].

(** While the client's MULTI is open [Client.Command] refuses a command the server
    does not accept in a transaction, without sending it, and [Client.Pipeline] lets
    the same command through to the connection. *)
Lemma pipeline_skips_transaction_policy :
  validateV080TransactionCommand publish = false /\
  clientCommandAllowed true publish = false /\
  clientPipelineAllowed [publish] = true.
Proof. vm_compute. done. Qed.

(** ** A server *)

(** A server that keeps to the contract, as a function. *)
Inductive kv_conn := KIdle | KWatching | KQueueing.

Definition kv_reply (text : String.string) : result goError response := Ok (RValue (VString (go text))).
Definition kv_error : result goError response := Err (ErrText (go "ERR")).

Definition kv_serve (k : kv_conn) (args : list arg) : result goError response * kv_conn :=
  match connectionStateCommand args with
  | Some name =>
      if bool_decide (name = go "WATCH") then
        match k with KQueueing => (kv_error, k) | _ => (kv_reply "OK", KWatching) end
      else if bool_decide (name = go "UNWATCH") then
        match k with KQueueing => (kv_reply "QUEUED", k) | _ => (kv_reply "OK", KIdle) end
      else if bool_decide (name = go "MULTI") then
        match k with KQueueing => (kv_error, k) | _ => (kv_reply "OK", KQueueing) end
      else if bool_decide (name = go "EXEC") then
        match k with KQueueing => (Ok (RValue (VArray None [])), KIdle) | _ => (kv_error, k) end
      else match k with KQueueing => (kv_reply "OK", KIdle) | _ => (kv_error, k) end
  | None => match k with KQueueing => (kv_reply "QUEUED", k) | _ => (Ok (RValue VNil), k) end
  end.

Definition kv_server : server.
Proof.
  refine (Server kv_conn KIdle (fun k args r k' => kv_serve k args = (r, k'))
    (fun k => k = KQueueing) (fun k => k = KIdle) _ _ _ _ _ _ _); try done.
  - by intros c ->.
  - intros c args r c' H Hw Hq. unfold kv_serve in H. rewrite Hw in H. destruct c; [| |done]; vm_compute in H; by injection H as <- <-.
  - intros c v c' H Hv Hq. destruct c; vm_compute in H; injection H as H <-; done.
  - intros c v c' H Hv. destruct c; vm_compute in H; injection H as H <-; done.
  - intros c v c' H Hv. destruct c; vm_compute in H; injection H as H <-; done.
  - intros c args r c' H Hp. unfold kv_serve in H. rewrite Hp in H. by destruct c; injection H as <- <-.
Defined.

Definition kv_session (k : kv_conn) (how : option ending) : session (conn := conn kv_server) := Session k None how.

(** WATCH and UNWATCH, served. *)
Definition sample_client : client (conn := conn kv_server) :=
  Client None false false {[ 0%nat := kv_session KIdle (Some Released) ]} ∅ ∅.

Lemma sample_reachable : tx_reachable kv_server sample_client.
Proof.
  assert (H1 : tx_reachable kv_server
    (Client (Some 0%nat) false true {[ 0%nat := kv_session KWatching None ]} ∅ ∅)).
  { eapply tx_next; [apply tx_start|].
    apply (StepWatch kv_server newClient 0 None [go "k"] (Served (kv_reply "OK") (KWatching : conn kv_server))); try done.
    apply DidServe; [done|]. intros _. vm_compute. done. }
  eapply tx_next in H1; [|by apply (StepEndTake kv_server _ Unwatch 0 0)].
  eapply tx_next in H1; [|apply (StepEndRun kv_server _ 0 Unwatch 0 (kv_session KWatching None)
    (Served (kv_reply "OK") (KIdle : conn kv_server))); [reflexivity..|]; apply DidServe; [done|]; intros _; vm_compute; done].
  match type of H1 with tx_reachable _ ?c => assert (E : c = sample_client) by (vm_compute; reflexivity) end.
  by rewrite E in H1.
Qed.

Lemma session_held_once_witness :
  tx_reachable kv_server sample_client /\ s_end (kv_session KIdle (Some Released)) <> None.
Proof.
  split; [exact sample_reachable|].
  destruct (session_held_once kv_server sample_client 0 (kv_session KIdle (Some Released)) sample_reachable eq_refl) as (_ & _ & H).
  apply H; [reflexivity|reflexivity|]. intros tid t Ht. discriminate Ht.
Defined.

Lemma released_session_clean_witness : clean kv_server (KIdle : conn kv_server).
Proof.
  exact (released_session_clean kv_server sample_client 0 (kv_session KIdle (Some Released)) sample_reachable eq_refl eq_refl).
Defined.

Definition get_k : list arg := [Arg (VString (go "GET")); Arg (VString (go "{user}:1"))].

Lemma transaction_pinned_witness :
  is_ok (validateTopologyTransactionRoute (routeSlotForString (go "user")) get_k) = true.
Proof.
  apply (transaction_pinned (routeSlotForString (go "user")) get_k); [reflexivity|discriminate|].
  right. right. exists [Arg (VString (go "{user}:1"))], (Policy KeysFirst false false false).
  split; [discriminate|]. split; [vm_compute; reflexivity|]. apply Forall_singleton. vm_compute. split; reflexivity.
Defined.
