(* ===== verification/Compact.v ===== *)
(** The compact forms of responses (src/native_compact.go,
    src/native_compact_collections.go, src/native_compact_flow_record.go): one codec
    per marker, and the choice among them. The form of whole pipelines, which can be
    ambiguous, has a file of its own.

    A position in the payload is the list of the bytes behind it. *)

From S2P Require Export Wire.

(** The markers; 0x95 and 0xA0 are decoded elsewhere. *)
Definition nativeCompactFlowClaimJobs : byte := x80.
Definition nativeCompactOKList : byte := x81.
Definition nativeCompactKVGet : byte := x82.
Definition nativeCompactKVMGet : byte := x83.
Definition nativeCompactFlowRecord : byte := x84.
Definition nativeCompactFlowRecordList : byte := x85.
Definition nativeCompactBinaryListList : byte := x86.
Definition nativeCompactBinaryMapList : byte := x87.
Definition nativeCompactIntegerList : byte := x88.
Definition nativeCompactKVMGetFixed : byte := x89.
Definition nativeCompactPipelineResponse : byte := x95.
Definition nativeCompactFlowQueryResult : byte := xa0.

Inductive compactError :=
| CompactEmpty
| CompactInvalid                      (* too short, or another marker *)
| CompactTruncated
| CompactTrailing
| CompactTag (b : byte)
| CompactCount (e : decError)
| CompactLength                       (* payload length mismatch *)
| CompactAggregate
| CompactField (e : decError)
| CompactEmptyName
| CompactDuplicate (key : gstr)
| CompactNegative
| CompactClaims
| CompactAmbiguous.                   (* exceeds ambiguity budget *)

(** ** Readers *)

(** [readNativeCompactBinary]. *)
Definition readNativeCompactBinary (data : gstr) : result compactError (gstr * gstr) :=
  if blen data <? 4 then Err CompactTruncated
  else
    let rawSize := be_decode (btake 4 data) in
    let data := bdrop 4 data in
    if blen data <? rawSize then Err CompactTruncated
    else Ok (btake rawSize data, bdrop rawSize data).

(** [readNativeCompactOptionalBinary]; [None] for nil. *)
Definition readNativeCompactOptionalBinary (data : gstr) : result compactError (option gstr * gstr) :=
  if blen data <? 4 then Err CompactTruncated
  else if be_decode (btake 4 data) =? nativeCompactNilU32 then Ok (None, bdrop 4 data)
  else let! (value, data) := readNativeCompactBinary data in Ok (Some value, data).

(** The loops over a counted number of items. *)
Fixpoint readMany {E A S} (read : gstr -> S -> result E (A * gstr * S)) (count : nat) (data : gstr) (s : S)
  : result E (list A * gstr * S) :=
  match count with
  | O => Ok ([], data, s)
  | S count =>
      let! (a, data, s) := read data s in
      let! (l, data, s) := readMany read count data s in
      Ok (a :: l, data, s)
  end.

Definition bounded (raw remainingBytes minBytesPerItem : Z) : result compactError Z :=
  match nativeBoundedItemCount raw remainingBytes minBytesPerItem with
  | Ok count => Ok count
  | Err e => Err (CompactCount e)
  end.

(** The count behind a marker: [len(data) < 5 || data[0] != marker] is refused. *)
Definition countedHeader (marker : byte) (minBytes : Z) (data : gstr) : result compactError (Z * gstr) :=
  match data with
  | m :: rest =>
      if (blen data <? 5) || negb (bool_decide (m = marker)) then Err CompactInvalid
      else
        let! count := bounded (be_decode (btake 4 rest)) (blen rest - 4) minBytes in
        Ok (count, bdrop 4 rest)
  | [] => Err CompactInvalid
  end.

Definition atEnd {A} (r : A * gstr) : result compactError A :=
  match r with (a, []) => Ok a | _ => Err CompactTrailing end.

(** [consumeNativeCompactItems] and [consumeNativeCompactFlowRecordItems]. *)
Definition consumeNativeCompactItems (budget count : Z) : result compactError Z :=
  if budget <? count then Err CompactAggregate else Ok (budget - count).

(** ** Keys and values *)

Definition decodeNativeCompactOKList (data : gstr) : result compactError Z :=
  match data with
  | m :: rest =>
      if negb (blen data =? 5) || negb (bool_decide (m = nativeCompactOKList)) then Err CompactInvalid
      else bounded (be_decode (btake 4 rest)) 0 0
  | [] => Err CompactInvalid
  end.

Definition decodeNativeCompactKVGet (data : gstr) : result compactError val :=
  match data with
  | m :: present :: rest =>
      if negb (bool_decide (m = nativeCompactKVGet)) then Err CompactInvalid
      else match present with
      | x00 => match rest with [] => Ok VNil | _ => Err CompactTrailing end
      | x01 =>
          let! (value, rest) := readNativeCompactBinary rest in
          atEnd (VBytes value, rest)
      | _ => Err (CompactTag present)
      end
  | _ => Err CompactInvalid
  end.

(** One item of [decodeNativeCompactKVMGet]. *)
Definition readMGetItem (data : gstr) (_ : unit) : result compactError (val * gstr * unit) :=
  match data with
  | [] => Err CompactTruncated
  | x00 :: data => Ok (VNil, data, tt)
  | x01 :: data => let! (value, data) := readNativeCompactBinary data in Ok (VBytes value, data, tt)
  | present :: _ => Err (CompactTag present)
  end.

Definition decodeNativeCompactKVMGet (data : gstr) : result compactError (list val) :=
  let! (count, rest) := countedHeader nativeCompactKVMGet 1 data in
  let! (items, rest, _) := readMany readMGetItem (Z.to_nat count) rest tt in
  atEnd (items, rest).

(** The rows of a fixed-size MGET. *)
Fixpoint fixedRows (count : nat) (size : Z) (data : gstr) : list val :=
  match count with O => [] | S count => VBytes (btake size data) :: fixedRows count size (bdrop size data) end.

Definition decodeNativeCompactKVMGetFixed (data : gstr) : result compactError (list val) :=
  match data with
  | m :: rest =>
      if (blen data <? 9) || negb (bool_decide (m = nativeCompactKVMGetFixed)) then Err CompactInvalid
      else
        let! count := bounded (be_decode (btake 4 rest)) (blen data - 9) 0 in
        let size := be_decode (btake 4 (bdrop 4 rest)) in
        let rest := bdrop 8 rest in
        if negb (wrap 64 (count * size) =? blen rest) then Err CompactLength
        else Ok (fixedRows (Z.to_nat count) size rest)
  | [] => Err CompactInvalid
  end.

(** ** Collections *)

Fixpoint integerRows (count : nat) (data : gstr) : list val :=
  match count with
  | O => []
  | S count => VInt IInt64 (swrap 64 (be_decode (btake 8 data))) :: integerRows count (bdrop 8 data)
  end.

Definition decodeNativeCompactIntegerList (data : gstr) : result compactError (list val) :=
  let! (count, rest) := countedHeader nativeCompactIntegerList 8 data in
  if negb (count * 8 =? blen rest) then Err CompactLength
  else Ok (integerRows (Z.to_nat count) rest).

Definition readBinaryItem (data : gstr) (s : unit) : result compactError (val * gstr * unit) :=
  let! (value, data) := readNativeCompactBinary data in Ok (VBytes value, data, s).

(** [takeNativeCompactBinaryList]. *)
Definition takeNativeCompactBinaryList (data : gstr) (budget : Z) : result compactError (list val * gstr * Z) :=
  if blen data <? 4 then Err CompactTruncated
  else
    let! count := bounded (be_decode (btake 4 data)) (blen data - 4) 4 in
    let! budget := consumeNativeCompactItems budget count in
    let! (values, data, _) := readMany readBinaryItem (Z.to_nat count) (bdrop 4 data) tt in
    Ok (values, data, budget).

(** The entry loop of [takeNativeCompactBinaryMap]; the entries read so far are
    threaded through. *)
Definition readMapEntry (data : gstr) (seen : list (gstr * val))
  : result compactError (unit * gstr * list (gstr * val)) :=
  let! (key, data) := readNativeCompactBinary data in
  let! (value, data) := readNativeCompactBinary data in
  if assoc_has key seen then Err (CompactDuplicate key)
  else Ok (tt, data, seen ++ [(key, VBytes value)]).

Definition takeNativeCompactBinaryMap (data : gstr) (budget : Z)
  : result compactError (list (gstr * val) * gstr * Z) :=
  if blen data <? 4 then Err CompactTruncated
  else
    let! count := bounded (be_decode (btake 4 data)) (blen data - 4) 8 in
    let! budget := consumeNativeCompactItems budget count in
    let! (_, data, values) := readMany readMapEntry (Z.to_nat count) (bdrop 4 data) [] in
    Ok (values, data, budget).

Definition takeList (data : gstr) (budget : Z) : result compactError (val * gstr * Z) :=
  let! (values, data, budget) := takeNativeCompactBinaryList data budget in Ok (VArray None values, data, budget).
Definition takeMap (data : gstr) (budget : Z) : result compactError (val * gstr * Z) :=
  let! (values, data, budget) := takeNativeCompactBinaryMap data budget in Ok (VMap None values, data, budget).

(** [decodeNativeCompactBinaryListList] and [decodeNativeCompactBinaryMapList]. *)
Definition decodeRows (marker : byte) (take : gstr -> Z -> result compactError (val * gstr * Z)) (data : gstr)
  : result compactError (list val) :=
  let! (count, rest) := countedHeader marker 4 data in
  let! budget := consumeNativeCompactItems nativeMaxContainerItems count in
  let! (values, rest, _) := readMany take (Z.to_nat count) rest budget in
  atEnd (values, rest).

Definition decodeNativeCompactBinaryListList : gstr -> result compactError (list val) :=
  decodeRows nativeCompactBinaryListList takeList.
Definition decodeNativeCompactBinaryMapList : gstr -> result compactError (list val) :=
  decodeRows nativeCompactBinaryMapList takeMap.

(** ** Flow records *)

Definition nativeCompactFlowRecordFields : list gstr := [
  []; go "id"; go "type"; go "state"; go "version"; go "priority"; go "partition_key";
  go "payload_ref"; go "result_ref"; go "error_ref"; go "payload"; go "result"; go "error";
  go "created_at_ms"; go "updated_at_ms"; go "next_run_at_ms"; go "lease_deadline_ms";
  go "lease_owner"; go "lease_token"; go "fencing_token"; go "attempts"; go "history_max_events";
  go "history_hot_max_events"; go "child_groups"; go "parent_flow_id"; go "parent_partition_key";
  go "root_flow_id"; go "correlation_id"; go "terminal_retention_until_ms"; go "ttl_ms";
  go "retention_ttl_ms"; go "run_state"; go "value_refs"; go "values"; go "payload_omitted";
  go "payload_size"; go "result_omitted"; go "result_size"; go "error_omitted"; go "error_size";
  go "max_attempts"; go "attributes"].

(** [nativeCompactFlowRecordFieldName]; empty for a field this version does not know. *)
Definition nativeCompactFlowRecordFieldName (id : byte) : gstr :=
  default [] (nativeCompactFlowRecordFields !! Z.to_nat (byteZ id)).

(** [decodeNativeValueBudget(data, budget, 0)] with the budget of a record. *)
Definition decodeField (data : gstr) (budget : Z) : result compactError (val * gstr * Z) :=
  match decodeNativeValueBudget (Z.to_nat (nativeMaxDecodeDepth + 1)) data budget with
  | Ok r => Ok r
  | Err e => Err (CompactField e)
  end.

(** One field of [takeNativeCompactFlowRecordWithBudget]; the budget and the record
    so far are threaded through. *)
Definition readRecordField (data : gstr) (s : Z * list (gstr * val))
  : result compactError (unit * gstr * (Z * list (gstr * val))) :=
  match data with
  | [] => Err CompactTruncated
  | fieldID :: data =>
      let! (fieldName, data) :=
        (if bool_decide (fieldID = x00) then
           let! (name, data) := readNativeCompactBinary data in
           if bool_decide (name = []) then Err CompactEmptyName else Ok (name, data)
         else Ok (nativeCompactFlowRecordFieldName fieldID, data)) in
      let! (value, data, budget) := decodeField data s.1 in
      if bool_decide (fieldName = []) then Ok (tt, data, (budget, s.2))
      else if assoc_has fieldName s.2 then Err (CompactDuplicate fieldName)
      else Ok (tt, data, (budget, s.2 ++ [(fieldName, value)]))
  end.

Definition takeNativeCompactFlowRecordWithBudget (data : gstr) (budget : Z)
  : result compactError (list (gstr * val) * gstr * Z) :=
  let! (count, rest) := countedHeader nativeCompactFlowRecord 2 data in
  let! budget := consumeNativeCompactItems budget count in
  let! (_, rest, s) := readMany readRecordField (Z.to_nat count) rest (budget, []) in
  Ok (s.2, rest, s.1).

Definition takeRecord (data : gstr) (budget : Z) : result compactError (val * gstr * Z) :=
  let! (record, rest, budget) := takeNativeCompactFlowRecordWithBudget data budget in
  Ok (VMap None record, rest, budget).

Definition takeNativeCompactFlowRecordListWithBudget (data : gstr) (budget : Z)
  : result compactError (list val * gstr * Z) :=
  let! (count, rest) := countedHeader nativeCompactFlowRecordList 5 data in
  let! budget := consumeNativeCompactItems budget count in
  readMany takeRecord (Z.to_nat count) rest budget.

Definition decodeNativeCompactFlowRecord (data : gstr) : result compactError val :=
  let! (record, rest, _) := takeRecord data nativeMaxContainerItems in atEnd (record, rest).

Definition decodeNativeCompactFlowRecordList (data : gstr) : result compactError (list val) :=
  let! (records, rest, _) := takeNativeCompactFlowRecordListWithBudget data nativeMaxContainerItems in
  atEnd (records, rest).

(** ** Claimed jobs *)

Record ClaimedItem := Claimed {
  ID : gstr;
  PartitionKey : gstr;
  LeaseToken : gstr;
  FencingToken : Z;
  State : gstr;
  RunState : gstr;
  Attributes : option (list (gstr * val));
}.

Inductive nativeCompactClaimLayout := ClaimBase | ClaimAttributes | ClaimState | ClaimStateAttributes.

Definition with_attributes (l : nativeCompactClaimLayout) : bool :=
  match l with ClaimAttributes | ClaimStateAttributes => true | _ => false end.
Definition with_state (l : nativeCompactClaimLayout) : bool :=
  match l with ClaimState | ClaimStateAttributes => true | _ => false end.

Definition readAttributes (data : gstr) (budget : Z) : result compactError (list (gstr * val) * gstr * Z) :=
  let! (attrs, data, budget) := decodeField data budget in
  match attrs with VMap _ m => Ok (m, data, budget) | _ => Err CompactInvalid end.

(** The fields all layouts have. *)
Definition readClaimBase (data : gstr) : result compactError (gstr * option gstr * gstr * Z * gstr) :=
  let! (id, data) := readNativeCompactBinary data in
  let! (partition, data) := readNativeCompactOptionalBinary data in
  let! (lease, data) := readNativeCompactBinary data in
  if blen data <? 8 then Err CompactTruncated
  else
    let fencing := be_decode (btake 8 data) in
    if max_int64 <? fencing then Err CompactNegative
    else Ok (id, partition, lease, fencing, bdrop 8 data).

(** One item of [tryDecodeNativeCompactClaimJobsLayout]. *)
Definition readClaim (layout : nativeCompactClaimLayout) (data : gstr) (budget : Z)
  : result compactError (ClaimedItem * gstr * Z) :=
  let! (id, partition, lease, fencing, data) := readClaimBase data in
  let! (runState, data) :=
    (if with_state layout then readNativeCompactOptionalBinary data else Ok (None, data)) in
  let! (attributes, data, budget) :=
    (if with_attributes layout then
       let! (attrs, data, budget) := readAttributes data budget in Ok (Some attrs, data, budget)
     else Ok (None, data, budget)) in
  Ok (Claimed id (default [] partition) lease fencing (go "running") (default [] runState) attributes, data, budget).

Definition tryDecodeNativeCompactClaimJobsLayout (data : gstr) (count : Z) (layout : nativeCompactClaimLayout)
  : option (list ClaimedItem) :=
  match consumeNativeCompactItems nativeMaxContainerItems count with
  | Err _ => None
  | Ok budget =>
      match readMany (readClaim layout) (Z.to_nat count) data budget with
      | Ok (items, [], _) => Some items
      | _ => None
      end
  end.

Definition decodeNativeCompactClaimJobs (data : gstr) : result compactError (list ClaimedItem) :=
  let! (count, rest) := countedHeader nativeCompactFlowClaimJobs 16 data in
  let try layout := tryDecodeNativeCompactClaimJobsLayout rest count layout in
  match try ClaimBase with
  | Some items => Ok items
  | None =>
      match try ClaimAttributes with
      | Some items => Ok items
      | None =>
          match try ClaimState with
          | Some items => Ok items
          | None => match try ClaimStateAttributes with Some items => Ok items | None => Err CompactClaims end
          end
      end
  end.

(** ** The choice of a codec *)

Inductive nativeCompactCodec :=
| CodecFlowClaimJobs | CodecFlowRecord | CodecFlowRecordList | CodecKVGet | CodecKVMGet | CodecOKList
| CodecPipeline | CodecFlowQueryResult.

#[global] Instance nativeCompactCodec_eq_dec : EqDecision nativeCompactCodec.
Proof. solve_decision. Defined.

Definition nativeCompactCodecAcceptsMarker (codec : nativeCompactCodec) (marker : byte) : bool :=
  match codec with
  | CodecFlowClaimJobs => bool_decide (marker = nativeCompactFlowClaimJobs)
  | CodecFlowRecord => bool_decide (marker = nativeCompactFlowRecord)
  | CodecFlowRecordList => bool_decide (marker = nativeCompactFlowRecordList)
  | CodecKVGet => bool_decide (marker = nativeCompactKVGet)
  | CodecKVMGet => bool_decide (marker ∈ [nativeCompactKVMGet; nativeCompactKVMGetFixed])
  | CodecOKList => bool_decide (marker = nativeCompactOKList)
  | CodecPipeline => bool_decide (marker ∈ [nativeCompactFlowClaimJobs; nativeCompactOKList; nativeCompactKVGet;
      nativeCompactKVMGet; nativeCompactFlowRecord; nativeCompactFlowRecordList; nativeCompactBinaryListList;
      nativeCompactBinaryMapList; nativeCompactIntegerList; nativeCompactKVMGetFixed; nativeCompactPipelineResponse])
  | CodecFlowQueryResult => bool_decide (marker = nativeCompactFlowQueryResult)
  end.
