(* ===== verification/CompactBatch.v ===== *)
(** The compact form of a pipeline's responses (src/native_compact_pipeline.go).
    Items of one tag, claimed jobs, can be read in up to four ways, so the decoder
    searches: it takes the first reading of every item, keeps the others on a stack,
    and comes back to them when the rest of the payload cannot be read. States known
    to fail are remembered, and the number of attempts is bounded.

    The search is verified against a plain recursive one. *)

From S2P Require Export Compact.

(** ** Readings of one item *)

Record candidate := Candidate { value : val; next : gstr; cost : Z }.

(** [takeNativeCompactPipelineAttributes]. *)
Definition takeAttributes (data : gstr) : option (val * gstr * Z) :=
  match readAttributes data nativeMaxContainerItems with
  | Ok (attributes, data, budget) => Some (VMap None attributes, data, nativeMaxContainerItems - budget)
  | Err _ => None
  end.

Definition optionalBytes (b : option gstr) : val := VBytes (default [] b).

(** [decodeNativeCompactPipelineClaim]. A nil partition or state is a nil slice. *)
Definition decodeNativeCompactPipelineClaim (data : gstr) : result compactError (list candidate) :=
  let! (id, partition, lease, fencing, data) := readClaimBase data in
  let base := [VBytes id; optionalBytes partition; VBytes lease; VInt IInt64 fencing] in
  let claim fields next cost := Candidate (VArray None (base ++ fields)) next cost in
  let state := match readNativeCompactOptionalBinary data with Ok r => Some r | Err _ => None end in
  let stateAttributes :=
    match state with
    | Some (runState, data) =>
        match takeAttributes data with
        | Some (attributes, data, cost) => [claim [optionalBytes runState; attributes] data cost]
        | None => []
        end
    | None => []
    end in
  let attributesOnly :=
    match takeAttributes data with Some (attributes, data, cost) => [claim [attributes] data cost] | None => [] end in
  let stateOnly :=
    match state with Some (runState, data) => [claim [optionalBytes runState] data 0] | None => [] end in
  Ok (stateAttributes ++ attributesOnly ++ stateOnly ++ [claim [] data 0]).

(** [takeNativeCompactPipelineValueRef]. *)
Definition takeNativeCompactPipelineValueRef (data : gstr) : result compactError (val * gstr) :=
  let! (ref, data) := readNativeCompactBinary data in
  let! (partition, data) := readNativeCompactOptionalBinary data in
  let! (owner, data) := readNativeCompactOptionalBinary data in
  let field name v := match v with Some s => [(name, VBytes s)] | None => [] end in
  Ok (VMap None ([(go "ref", VBytes ref)] ++ field (go "partition_key") partition ++ field (go "owner_flow_id") owner), data).

Definition single {A} (f : A -> val) (r : result compactError (A * gstr * Z)) : result compactError (list candidate) :=
  let! (v, data, budget) := r in Ok [Candidate (f v) data (nativeMaxContainerItems - budget)].

(** [decodeNativeCompactPipelineOKValues]. *)
Definition decodeNativeCompactPipelineOKValues (present : byte) (data : gstr) : result compactError (list candidate) :=
  match present with
  | x00 => Ok [Candidate VNil data 0]
  | x01 => let! (v, data) := readNativeCompactBinary data in Ok [Candidate (VBytes v) data 0]
  | x02 => single id (takeRecord data nativeMaxContainerItems)
  | x03 => single (VArray None) (takeNativeCompactFlowRecordListWithBudget data nativeMaxContainerItems)
  | x04 => decodeNativeCompactPipelineClaim data
  | x05 => let! (v, data) := takeNativeCompactPipelineValueRef data in Ok [Candidate v data 0]
  | x06 => single id (takeList data nativeMaxContainerItems)
  | x07 => single id (takeMap data nativeMaxContainerItems)
  | _ => Err (CompactTag present)
  end.

Definition okCandidate (c : candidate) : candidate :=
  Candidate (VArray None [VString (go "ok"); value c]) (next c) (cost c).

(** [decodeNativeCompactPipelineItem]. *)
Definition decodeNativeCompactPipelineItem (data : gstr) : result compactError (list candidate) :=
  match data with
  | [] => Err CompactTruncated
  | x00 :: [] => Err CompactTruncated
  | x00 :: present :: data =>
      let! values := decodeNativeCompactPipelineOKValues present data in Ok (okCandidate <$> values)
  | status :: data =>
      if bool_decide (status ∈ [x01; x02]) then
        let! (reason, data) := readNativeCompactBinary data in
        Ok [Candidate (VArray None [VString (if bool_decide (status = x01) then go "busy" else go "error"); VBytes reason]) data 0]
      else Err (CompactTag status)
  end.

(** ** The search *)

Section Search.
(** The readings of the item at a position. *)
Context (readings : gstr -> result compactError (list candidate)).
(** The number of items, the end of the search's budget of attempts. *)
Context (count : nat) (maxAttempts : Z).

(** [nativeCompactPipelineDecision]; the readings not tried yet. *)
Record decision := Decision { d_item : nat; d_data : gstr; d_untried : list candidate; d_remaining : Z }.

(** [nativeCompactPipelineState], the offset counted from the end of the payload. *)
Abbreviation state := (nat * nat * Z)%type.
Definition state_of (item : nat) (data : gstr) (remaining : Z) : state := (item, length data, remaining).

Record search := Search {
  items : list val;
  decisions : list decision;        (* the last one first *)
  failed : list state;
  item : nat;
  data : gstr;
  remaining : Z;
  attempts : Z;
  parseErr : option compactError;
}.

(** [nextNativeCompactPipelineCandidate]: the first affordable reading and those
    behind it. *)
Fixpoint nextCandidate (candidates : list candidate) (remaining : Z) : option (candidate * list candidate) :=
  match candidates with
  | [] => None
  | c :: rest => if cost c <=? remaining then Some (c, rest) else nextCandidate rest remaining
  end.

Inductive resumed :=
| Exhausted (failed : list state)
| OverBudget
| Resumed (d : decision) (below : list decision) (failed : list state) (c : candidate).

(** The inner loop: the next reading of a decision that is not known to fail. *)
Fixpoint retry (d : decision) (untried : list candidate) (failed : list state) : option (candidate * list candidate) :=
  match untried with
  | [] => None
  | c :: rest =>
      if negb (cost c <=? d_remaining d) then retry d rest failed
      else if bool_decide (state_of (S (d_item d)) (next c) (d_remaining d - cost c) ∈ failed) then retry d rest failed
      else Some (c, rest)
  end.

(** The loop over the stack. *)
Fixpoint resume (attempts : Z) (decisions : list decision) (failed : list state) : resumed :=
  match decisions with
  | [] => Exhausted failed
  | d :: below =>
      match retry d (d_untried d) failed with
      | Some (c, rest) =>
          if maxAttempts <? attempts + 1 then OverBudget
          else Resumed (Decision (d_item d) (d_data d) rest (d_remaining d)) below failed c
      | None => resume attempts below (state_of (d_item d) (d_data d) (d_remaining d) :: failed)
      end
  end.

(** After a failure: go on with another reading, or give up. *)
Definition backtrack (s : search) (failed : list state) (attempts : Z) (parseErr : option compactError)
  : search + result compactError (list val) :=
  match resume attempts (decisions s) failed with
  | Exhausted _ => inr (Err (default CompactInvalid parseErr))
  | OverBudget => inr (Err CompactAmbiguous)
  | Resumed d below failed c =>
      inl (Search (<[d_item d := value c]> (items s)) (d :: below) failed (S (d_item d)) (next c)
        (d_remaining d - cost c) (attempts + 1) parseErr)
  end.

(** One turn of the outer loop. *)
Definition turn (s : search) : search + result compactError (list val) :=
  let here := state_of (item s) (data s) (remaining s) in
  if (item s =? count)%nat then
    match data s with
    | [] => inr (Ok (items s))
    | _ => backtrack s (here :: failed s) (attempts s) (Some CompactTrailing)
    end
  else if bool_decide (here ∈ failed s) then backtrack s (failed s) (attempts s) (parseErr s)
  else
    let attempts := attempts s + 1 in
    if maxAttempts <? attempts then inr (Err CompactAmbiguous)
    else match readings (data s) with
    | Err e => backtrack s (here :: failed s) attempts (Some e)
    | Ok candidates =>
        match nextCandidate candidates (remaining s) with
        | None => backtrack s (here :: failed s) attempts (Some CompactAggregate)
        | Some (c, rest) =>
            let decisions :=
              match rest with [] => decisions s | _ => Decision (item s) (data s) rest (remaining s) :: decisions s end in
            inl (Search (<[item s := value c]> (items s)) decisions (failed s) (S (item s)) (next c)
              (remaining s - cost c) attempts (parseErr s))
        end
    end.

(** The loop; every turn but the last makes an attempt. *)
Fixpoint run (fuel : nat) (s : search) : option (result compactError (list val)) :=
  match fuel with
  | O => None
  | S fuel => match turn s with inl s => run fuel s | inr r => Some r end
  end.

Definition start (data : gstr) (remaining : Z) : search :=
  Search (replicate count VNil) [] [] 0 data remaining 0 None.

Definition fuel : nat := S (S (Z.to_nat maxAttempts)).
End Search.

(** [decodeNativeCompactPipelineResponse]; [None] would be a loop that does not end. *)
Definition decodeNativeCompactPipelineResponse (data : gstr) : option (result compactError (list val)) :=
  match countedHeader nativeCompactPipelineResponse 2 data with
  | Err e => Some (Err e)
  | Ok (count, rest) =>
      let maxAttempts := 8 * (count + 1) + 64 in
      run decodeNativeCompactPipelineItem (Z.to_nat count) maxAttempts (fuel maxAttempts)
        (start (Z.to_nat count) rest (nativeMaxContainerItems - count))
  end.

(** ** The plain search *)

(** The first reading that leads to a result. *)
Fixpoint first_reading (f : candidate -> option (list val)) (candidates : list candidate) : option (list val) :=
  match candidates with
  | [] => None
  | c :: rest => match f c with Some l => Some l | None => first_reading f rest end
  end.

Section Reference.
Context (readings : gstr -> result compactError (list candidate)).

(** The values of [n] items that take up [data] exactly. *)
Fixpoint parse (n : nat) (data : gstr) (remaining : Z) : option (list val) :=
  match n with
  | O => match data with [] => Some [] | _ => None end
  | S n =>
      match readings data with
      | Err _ => None
      | Ok candidates =>
          first_reading (fun c =>
            if cost c <=? remaining then cons (value c) <$> parse n (next c) (remaining - cost c) else None) candidates
      end
  end.

(** One reading of an item with [n] items behind it. *)
Definition branch (n : nat) (remaining : Z) (c : candidate) : option (list val) :=
  if cost c <=? remaining then cons (value c) <$> parse n (next c) (remaining - cost c) else None.

Context (whole : gstr).
Context (Hnext : forall data candidates c, readings data = Ok candidates -> c ∈ candidates -> next c `suffix_of` data).
Context (count : nat) (maxAttempts : Z).
Context (remaining0 : Z).

Definition target : option (list val) := parse count whole remaining0.

Definition full (items : list val) (i : nat) (r : option (list val)) : option (list val) := (fun l => take i items ++ l) <$> r.

Lemma suffix_same (a b : gstr) : a `suffix_of` whole -> b `suffix_of` whole -> length a = length b -> a = b.
Proof. intros [x Hx] [y Hy] Hl. rewrite Hx in Hy. by apply app_inj_2 in Hy as [_ ->]. Qed.

(** Failed states do fail. *)
Definition failed_ok (failed : list (nat * nat * Z)) : Prop :=
  forall i data r, state_of i data r ∈ failed -> data `suffix_of` whole -> parse (count - i) data r = None.

Lemma failed_ok_cons i data r failed :
  failed_ok failed -> data `suffix_of` whole -> parse (count - i) data r = None -> failed_ok (state_of i data r :: failed).
Proof.
  intros Hf Hd Hp i' data' r' Hin Hd'. apply elem_of_cons in Hin as [Heq|Hin]; [|by apply Hf].
  unfold state_of in Heq. injection Heq as -> Hl ->. by rewrite (suffix_same data' data).
Qed.

Definition decision_ok (d : decision) : Prop :=
  (d_item d < count)%nat /\ d_data d `suffix_of` whole /\ Forall (fun c => next c `suffix_of` whole) (d_untried d).

(** The result of the search, given the result [F] of the branch in progress: the
    untried readings of the decisions, the last decision first, come after it. *)
Fixpoint linked (items : list val) (top : nat) (decisions : list decision) (F : option (list val)) : Prop :=
  match decisions with
  | [] => target = F
  | d :: below =>
      let here := full items (d_item d) (parse (count - d_item d) (d_data d) (d_remaining d)) in
      (d_item d < top)%nat /\
      here = match F with
             | Some l => Some l
             | None => full items (d_item d) (first_reading (branch (count - S (d_item d)) (d_remaining d)) (d_untried d))
             end /\
      linked items (d_item d) below here
  end.

(** The search only writes above the decisions. *)
Lemma full_write items i v n r : (n <= i)%nat -> full (<[i := v]> items) n r = full items n r.
Proof. intros H. unfold full. by rewrite take_insert_ge by lia. Qed.

Lemma linked_write items i v ds : forall top F,
  (top <= i)%nat -> linked items top ds F -> linked (<[i := v]> items) top ds F.
Proof.
  induction ds as [|d ds IH]; intros top F Hi; cbn; [done|].
  intros (Hd & He & Hl). rewrite !full_write by lia. split_and!; [done|done|]. apply IH; [lia|done].
Qed.

Lemma linked_top items top top' ds F : (top <= top')%nat -> linked items top ds F -> linked items top' ds F.
Proof. destruct ds; cbn; [done|]. intros Ht (? & ? & ?). split; [lia|done]. Qed.

Lemma full_next items i v r :
  (i < length items)%nat -> full (<[i := v]> items) (S i) r = full items i (cons v <$> r).
Proof.
  intros Hi. unfold full. destruct r as [l|]; [|done]. cbn. f_equal.
  erewrite take_S_r by by apply list_lookup_insert_eq. rewrite take_insert_ge by lia. by rewrite <- app_assoc.
Qed.

Lemma full_None items i r : full items i r = None -> r = None.
Proof. by destruct r. Qed.

(** ** The next reading *)

Lemma retry_spec d failed untried :
  failed_ok failed -> Forall (fun c => next c `suffix_of` whole) untried ->
  match retry d untried failed with
  | None => first_reading (branch (count - S (d_item d)) (d_remaining d)) untried = None
  | Some (c, rest) =>
      cost c <= d_remaining d /\ next c `suffix_of` whole /\ Forall (fun c => next c `suffix_of` whole) rest /\
      first_reading (branch (count - S (d_item d)) (d_remaining d)) untried =
        match branch (count - S (d_item d)) (d_remaining d) c with
        | Some l => Some l
        | None => first_reading (branch (count - S (d_item d)) (d_remaining d)) rest
        end
  end.
Proof.
  intros Hf. induction untried as [|c rest IH]; intros Hs; [done|]. apply Forall_cons in Hs as [Hc Hs]. cbn.
  destruct (Z.leb_spec (cost c) (d_remaining d)) as [Hle|Hgt]; cbn.
  - case_bool_decide as Hin.
    + assert (branch (count - S (d_item d)) (d_remaining d) c = None) as ->; [|by apply IH].
      unfold branch. rewrite (Hf _ _ _ Hin Hc). by destruct (_ <=? _).
    + split_and!; done.
  - assert (branch (count - S (d_item d)) (d_remaining d) c = None) as ->; [|by apply IH].
    unfold branch. by rewrite (proj2 (Z.leb_gt _ _)).
Qed.

Lemma nextCandidate_spec n r candidates :
  match nextCandidate candidates r with
  | None => first_reading (branch n r) candidates = None
  | Some (c, rest) =>
      cost c <= r /\ c ∈ candidates /\ rest ⊆ candidates /\
      first_reading (branch n r) candidates = match branch n r c with Some l => Some l | None => first_reading (branch n r) rest end
  end.
Proof.
  induction candidates as [|c rest IH]; cbn; [done|].
  destruct (Z.leb_spec (cost c) r) as [Hle|Hgt].
  - split_and!; [done|left|set_solver|done].
  - assert (branch n r c = None) as -> by (unfold branch; by rewrite (proj2 (Z.leb_gt _ _))).
    destruct (nextCandidate rest r) as [[c' rest']|]; [|done]. destruct IH as (? & ? & ? & ?).
    split_and!; [done|by right|set_solver|done].
Qed.

(** ** Backtracking *)

Lemma parse_step i data r candidates :
  (i < count)%nat -> readings data = Ok candidates ->
  parse (count - i) data r = first_reading (branch (count - S i) r) candidates.
Proof. intros Hi Hr. replace (count - i)%nat with (S (count - S i)) by lia. cbn. by rewrite Hr. Qed.

Lemma resume_spec items attempts ds : forall top failed,
  length items = count -> failed_ok failed -> Forall decision_ok ds -> linked items top ds None ->
  match resume maxAttempts attempts ds failed with
  | Exhausted _ => target = None
  | OverBudget => True
  | Resumed d below failed' c =>
      attempts + 1 <= maxAttempts /\ failed_ok failed' /\ Forall decision_ok (d :: below) /\ next c `suffix_of` whole /\
      linked (<[d_item d := value c]> items) (S (d_item d)) (d :: below)
        (full (<[d_item d := value c]> items) (S (d_item d)) (parse (count - S (d_item d)) (next c) (d_remaining d - cost c)))
  end.
Proof.
  induction ds as [|d below IH]; intros top failed Hlen Hf Hok; cbn; [done|].
  intros (Htop & Hhere & Hbelow). apply Forall_cons in Hok as [(Hi & Hd & Hu) Hok].
  pose proof (retry_spec d failed (d_untried d) Hf Hu) as Hretry.
  destruct (retry d (d_untried d) failed) as [[c rest]|].
  - destruct Hretry as (Hcost & Hc & Hrest & Hfirst). destruct (Z.ltb_spec maxAttempts (attempts + 1)); [done|].
    split; [done|]. split; [done|]. split; [by constructor|]. split; [done|].
    cbn [linked d_item d_data d_untried d_remaining]. rewrite full_next by lia. split; [lia|]. split.
    + rewrite !full_write by lia. rewrite Hhere, Hfirst.
      assert (branch (count - S (d_item d)) (d_remaining d) c =
        cons (value c) <$> parse (count - S (d_item d)) (next c) (d_remaining d - cost c)) as ->.
      { unfold branch. by rewrite (proj2 (Z.leb_le _ _) Hcost). }
      generalize (cons (value c) <$> parse (count - S (d_item d)) (next c) (d_remaining d - cost c)). by intros [|].
    + rewrite full_write by lia. apply linked_write; [lia|]. exact Hbelow.
  - rewrite Hretry in Hhere. cbn in Hhere. rewrite Hhere in Hbelow. apply full_None in Hhere.
    apply (IH (d_item d)); [done| |done|done]. by apply failed_ok_cons.
Qed.
(** ** One turn *)

Record search_inv (s : search) : Prop := {
  inv_item : (item s <= count)%nat;
  inv_items : length (items s) = count;
  inv_data : data s `suffix_of` whole;
  inv_decisions : Forall decision_ok (decisions s);
  inv_failed : failed_ok (failed s);
  inv_linked : linked (items s) (item s) (decisions s)
    (full (items s) (item s) (parse (count - item s) (data s) (remaining s)));
}.

(** What a turn leads to. *)
Definition turn_ok (attempts0 : Z) (r : search + result compactError (list val)) : Prop :=
  match r with
  | inl s' => search_inv s' /\ attempts0 < attempts s' <= maxAttempts
  | inr (Ok l) => target = Some l
  | inr (Err e) => e = CompactAmbiguous \/ target = None
  end.

Lemma backtrack_ok s failed a e :
  search_inv s -> failed_ok failed -> attempts s <= a ->
  parse (count - item s) (data s) (remaining s) = None ->
  turn_ok (attempts s) (backtrack maxAttempts s failed a e).
Proof.
  intros Hs Hf Ha Hnone. pose proof (inv_linked s Hs) as Hl. rewrite Hnone in Hl. cbn in Hl.
  pose proof (resume_spec (items s) a (decisions s) (item s) failed (inv_items s Hs) Hf (inv_decisions s Hs) Hl) as Hr.
  unfold backtrack. destruct (resume _ _ _ _) as [f| |d below f c]; cbn; [by right|by left|].
  destruct Hr as (Hmax & Hf' & Hok & Hc & Hl'). split; [|cbn; lia].
  apply Forall_cons in Hok as Hok'. destruct Hok' as [(Hi & _ & _) _].
  split; cbn; try done. rewrite length_insert. apply (inv_items s Hs).
Qed.

Lemma linked_some items ds l : forall top, linked items top ds (Some l) -> target = Some l.
Proof. induction ds as [|d ds IH]; intros top; cbn; [done|]. intros (_ & Hh & Hl). rewrite Hh in Hl. by eapply IH. Qed.

Lemma turn_spec s : search_inv s -> attempts s <= maxAttempts -> turn_ok (attempts s) (turn readings count maxAttempts s).
Proof.
  intros Hs Ha. pose proof (inv_data s Hs) as Hd. pose proof (inv_linked s Hs) as Hl.
  assert (Hfail : forall a e, attempts s <= a -> parse (count - item s) (data s) (remaining s) = None ->
    turn_ok (attempts s) (backtrack maxAttempts s (state_of (item s) (data s) (remaining s) :: failed s) a e)).
  { intros a e Hle Hp. apply backtrack_ok; [done| |done|done]. apply failed_ok_cons; [apply (inv_failed s Hs)|done|done]. }
  unfold turn. destruct (Nat.eqb_spec (item s) count) as [Hi|Hi].
  - destruct (data s) as [|b rest] eqn:E; [|apply Hfail; [lia|by rewrite Hi, Nat.sub_diag]].
    cbn. rewrite Hi, Nat.sub_diag in Hl. cbn in Hl. rewrite app_nil_r, take_ge in Hl by (rewrite (inv_items s Hs); lia).
    by eapply linked_some.
  - assert (Hlt : (item s < count)%nat) by (pose proof (inv_item s Hs); lia).
    case_bool_decide as Hin.
    { apply backtrack_ok; [done|apply (inv_failed s Hs)|lia|]. by apply (inv_failed s Hs). }
    destruct (Z.ltb_spec maxAttempts (attempts s + 1)); [by left|].
    destruct (readings (data s)) as [candidates|e] eqn:E.
    2: { apply Hfail; [lia|]. replace (count - item s)%nat with (S (count - S (item s))) by lia. cbn. by rewrite E. }
    pose proof (parse_step (item s) (data s) (remaining s) candidates Hlt E) as Hp.
    pose proof (nextCandidate_spec (count - S (item s)) (remaining s) candidates) as Hnc.
    destruct (nextCandidate candidates (remaining s)) as [[c rest]|]; [|apply Hfail; [lia|by rewrite Hp]].
    destruct Hnc as (Hcost & Hc & Hrest & Hfirst).
    assert (Hsuf : forall c, c ∈ candidates -> next c `suffix_of` whole).
    { intros c' Hc'. etransitivity; [by eapply Hnext|done]. }
    assert (Hbranch : branch (count - S (item s)) (remaining s) c =
      cons (value c) <$> parse (count - S (item s)) (next c) (remaining s - cost c)).
    { unfold branch. by rewrite (proj2 (Z.leb_le _ _) Hcost). }
    assert (Hnew : full (<[item s := value c]> (items s)) (S (item s)) (parse (count - S (item s)) (next c) (remaining s - cost c)) =
      full (items s) (item s) (branch (count - S (item s)) (remaining s) c)).
    { rewrite full_next by (rewrite (inv_items s Hs); done). by rewrite Hbranch. }
    cbn. split; [|cbn; lia]. split; cbn; [lia|by rewrite length_insert, (inv_items s Hs)|by apply Hsuf| |apply (inv_failed s Hs)|].
    + destruct rest as [|c2 rest']; [apply (inv_decisions s Hs)|]. constructor; [|apply (inv_decisions s Hs)].
      split; [done|]. split; [done|]. cbn [d_untried]. apply Forall_forall. intros c' Hc'. by apply Hsuf, Hrest.
    + rewrite Hnew. rewrite Hp, Hfirst in Hl. destruct rest as [|c2 rest'].
      * assert (match branch (count - S (item s)) (remaining s) c with Some l => Some l
          | None => first_reading (branch (count - S (item s)) (remaining s)) [] end =
          branch (count - S (item s)) (remaining s) c) as Eb by (by destruct (branch _ _ c)).
        rewrite Eb in Hl. apply (linked_top _ (item s)); [lia|]. by apply linked_write.
      * cbn [linked d_item d_data d_untried d_remaining]. split; [lia|]. rewrite !full_write by lia. split.
        -- rewrite Hp, Hfirst. generalize (branch (count - S (item s)) (remaining s) c). by intros [|].
        -- apply linked_write; [lia|]. by rewrite Hp, Hfirst.
Qed.

(** ** The whole search *)

Lemma run_spec n : forall s, search_inv s -> attempts s <= maxAttempts -> (Z.to_nat (maxAttempts - attempts s) < n)%nat ->
  exists r, run readings count maxAttempts n s = Some r /\
    match r with Ok l => target = Some l | Err e => e = CompactAmbiguous \/ target = None end.
Proof.
  induction n as [|n IH]; intros s Hs Ha Hn; [lia|]. cbn.
  pose proof (turn_spec s Hs Ha) as Ht. destruct (turn readings count maxAttempts s) as [s'|r].
  - destruct Ht as [Hs' Hatt]. apply IH; [done|lia|lia].
  - exists r. split; [done|]. destruct r as [l|e]; exact Ht.
Qed.

Lemma search_spec : 0 <= maxAttempts ->
  exists r, run readings count maxAttempts (fuel maxAttempts) (start count whole remaining0) = Some r /\
    match r with Ok l => target = Some l | Err e => e = CompactAmbiguous \/ target = None end.
Proof.
  intros Hm. apply run_spec; cbn [start attempts]; [|done|unfold fuel; lia].
  split; cbn; [lia|apply length_replicate|done|constructor|intros ? ? ? H; by apply elem_of_nil in H|].
  unfold full. rewrite Nat.sub_0_r. unfold target. by destruct (parse count whole remaining0).
Qed.

(** The first affordable reading of every item, without coming back. *)
Fixpoint greedy (n : nat) (data : gstr) (remaining : Z) : option (list val) :=
  match n with
  | O => match data with [] => Some [] | _ => None end
  | S n =>
      match readings data with
      | Err _ => None
      | Ok candidates =>
          match nextCandidate candidates remaining with
          | Some (c, _) => cons (value c) <$> greedy n (next c) (remaining - cost c)
          | None => None
          end
      end
  end.

Lemma run_greedy n : forall fuel s l,
  failed s = [] -> (item s + n = count)%nat -> length (items s) = count ->
  attempts s + Z.of_nat n <= maxAttempts -> (n < fuel)%nat ->
  greedy n (data s) (remaining s) = Some l ->
  run readings count maxAttempts fuel s = Some (Ok (take (item s) (items s) ++ l)).
Proof.
  induction n as [|n IH]; intros fuel s l Hf Hi Hlen Ha Hfuel Hg; (destruct fuel as [|fuel]; [lia|]); cbn [run turn] in *.
  - unfold turn. rewrite (proj2 (Nat.eqb_eq _ _)) by lia. cbn in Hg. destruct (data s); [|done]. injection Hg as <-.
    rewrite app_nil_r, take_ge by lia. done.
  - unfold turn. rewrite (proj2 (Nat.eqb_neq _ _)) by lia. rewrite Hf.
    rewrite bool_decide_eq_false_2 by apply not_elem_of_nil. rewrite (proj2 (Z.ltb_ge _ _)) by lia.
    cbn [greedy] in Hg. destruct (readings (data s)) as [candidates|]; [|done].
    destruct (nextCandidate candidates (remaining s)) as [[c rest]|]; [|done].
    destruct (greedy n _ _) as [l'|] eqn:E; [|done]. injection Hg as <-.
    erewrite IH; [| | | | | |exact E]; cbn; try done; try lia; [|by rewrite length_insert].
    f_equal. f_equal. erewrite take_S_r by (apply list_lookup_insert_eq; lia).
    rewrite take_insert_ge by lia. by rewrite <- app_assoc.
Qed.
End Reference.

(** ** Readings move forward *)

Lemma readBinary_suffix data v rest : readNativeCompactBinary data = Ok (v, rest) -> rest `suffix_of` data.
Proof.
  unfold readNativeCompactBinary. destruct (_ <? _); [done|]. destruct (_ <? _); [done|]. intros [= <- <-].
  etransitivity; apply suffix_drop.
Qed.

Lemma readOptional_suffix data v rest : readNativeCompactOptionalBinary data = Ok (v, rest) -> rest `suffix_of` data.
Proof.
  unfold readNativeCompactOptionalBinary. destruct (_ <? _); [done|]. destruct (_ =? _); [intros [= <- <-]; apply suffix_drop|].
  destruct (readNativeCompactBinary data) as [[w r]|] eqn:E; [|done]. cbn. intros [= <- <-]. by eapply readBinary_suffix.
Qed.

Lemma readMany_suffix {A S} (read : gstr -> S -> result compactError (A * gstr * S)) :
  (forall data s a rest s', read data s = Ok (a, rest, s') -> rest `suffix_of` data) ->
  forall n data s l rest s', readMany read n data s = Ok (l, rest, s') -> rest `suffix_of` data.
Proof.
  intros Hread. induction n as [|n IH]; intros data s l rest s'; cbn; [by intros [= <- <- <-]|].
  destruct (read data s) as [[[a d] s1]|] eqn:E; [|done]. cbn.
  destruct (readMany read n d s1) as [[[l' d'] s2]|] eqn:E'; [|done]. cbn. intros [= <- <- <-].
  etransitivity; [by eapply IH|by eapply Hread].
Qed.

Lemma countedHeader_suffix marker m data count rest : countedHeader marker m data = Ok (count, rest) -> rest `suffix_of` data.
Proof.
  unfold countedHeader. destruct data as [|b data]; [done|]. destruct (_ || _); [done|].
  destruct (bounded _ _ _); [|done]. cbn. intros [= <- <-]. etransitivity; [apply suffix_drop|by apply suffix_cons_r].
Qed.

Lemma decodeField_suffix data s v rest s' : decodeField data s = Ok (v, rest, s') -> rest `suffix_of` data.
Proof.
  unfold decodeField. destruct (decodeNativeValueBudget _ _ _) as [[[v' r'] s1]|] eqn:E; [|done]. intros [= <- <- <-].
  destruct (decodeNativeValueBudget_sound _ _ _ _ _ _ E) as (-> & _). by exists (wire v').
Qed.

(** Follows the position through the binds of a reader. *)
Ltac follow :=
  repeat match goal with
  | H : Err _ = Ok _ |- _ => discriminate H
  | H : Ok _ = Ok _ |- _ => injection H as; subst
  | H : rbind ?m _ = Ok _ |- _ =>
      let E := fresh "E" in destruct m as [[[? ?] ?]|] eqn:E + destruct m as [[? ?]|] eqn:E + destruct m as [?|] eqn:E; cbn in H; [|discriminate H]
  | H : context [match ?m with _ => _ end] |- _ => destruct m eqn:?; try discriminate H
  end.

Lemma readBinaryItem_suffix data s v rest s' : readBinaryItem data s = Ok (v, rest, s') -> rest `suffix_of` data.
Proof. unfold readBinaryItem. intros H. follow. by eapply readBinary_suffix. Qed.

Lemma readMapEntry_suffix data s v rest s' : readMapEntry data s = Ok (v, rest, s') -> rest `suffix_of` data.
Proof.
  unfold readMapEntry. intros H. follow. etransitivity; by eapply readBinary_suffix.
Qed.

Lemma takeList_suffix data s v rest s' : takeList data s = Ok (v, rest, s') -> rest `suffix_of` data.
Proof.
  unfold takeList, takeNativeCompactBinaryList. intros H. follow.
  etransitivity; [eapply readMany_suffix; [apply readBinaryItem_suffix|done]|apply suffix_drop].
Qed.

Lemma takeMap_suffix data s v rest s' : takeMap data s = Ok (v, rest, s') -> rest `suffix_of` data.
Proof.
  unfold takeMap, takeNativeCompactBinaryMap. intros H. follow.
  etransitivity; [eapply readMany_suffix; [apply readMapEntry_suffix|done]|apply suffix_drop].
Qed.

Lemma readRecordField_suffix data s v rest s' : readRecordField data s = Ok (v, rest, s') -> rest `suffix_of` data.
Proof.
  unfold readRecordField. intros H. destruct data as [|f data]; [done|].
  destruct (bool_decide (f = x00)).
  - follow; (etransitivity; [by eapply decodeField_suffix|]; apply suffix_cons_r; by eapply readBinary_suffix).
  - cbn in H. follow; (apply suffix_cons_r; by eapply decodeField_suffix).
Qed.

Lemma takeRecord_suffix data s v rest s' : takeRecord data s = Ok (v, rest, s') -> rest `suffix_of` data.
Proof.
  unfold takeRecord, takeNativeCompactFlowRecordWithBudget. intros H. follow.
  etransitivity; [eapply readMany_suffix; [apply readRecordField_suffix|done]|by eapply countedHeader_suffix].
Qed.

Lemma takeRecords_suffix data s v rest s' :
  takeNativeCompactFlowRecordListWithBudget data s = Ok (v, rest, s') -> rest `suffix_of` data.
Proof.
  unfold takeNativeCompactFlowRecordListWithBudget. intros H. follow.
  etransitivity; [eapply readMany_suffix; [apply takeRecord_suffix|done]|by eapply countedHeader_suffix].
Qed.

Definition forward (data : gstr) (c : candidate) : Prop := next c `suffix_of` data.

Lemma readClaimBase_suffix data r : readClaimBase data = Ok r -> r.2 `suffix_of` data.
Proof.
  unfold readClaimBase. intros H.
  destruct (readNativeCompactBinary data) as [[id d1]|] eqn:E1; [|done]. cbn in H.
  destruct (readNativeCompactOptionalBinary d1) as [[p d2]|] eqn:E2; [|done]. cbn in H.
  destruct (readNativeCompactBinary d2) as [[l d3]|] eqn:E3; [|done]. cbn in H.
  destruct (_ <? _); [done|]. destruct (_ <? _); [done|]. injection H as <-. cbn.
  etransitivity; [apply suffix_drop|]. etransitivity; [by eapply readBinary_suffix|].
  etransitivity; [by eapply readOptional_suffix|by eapply readBinary_suffix].
Qed.

Lemma takeAttributes_suffix data v rest n : takeAttributes data = Some (v, rest, n) -> rest `suffix_of` data.
Proof.
  unfold takeAttributes, readAttributes. destruct (decodeField data _) as [[[a d] b]|] eqn:E; [|done]. cbn.
  destruct a; try done. intros [= <- <- <-]. by eapply decodeField_suffix.
Qed.

Lemma claim_forward data cs : decodeNativeCompactPipelineClaim data = Ok cs -> Forall (forward data) cs.
Proof.
  unfold decodeNativeCompactPipelineClaim. intros H.
  destruct (readClaimBase data) as [[[[[id p] l] f] d]|] eqn:E; [|done]. cbn in H. injection H as <-.
  apply readClaimBase_suffix in E. cbn in E.
  assert (Hopt : forall v r, readNativeCompactOptionalBinary d = Ok (v, r) -> r `suffix_of` data).
  { intros v r Hr. etransitivity; [by eapply readOptional_suffix|done]. }
  rewrite !Forall_app. split_and!.
  - destruct (readNativeCompactOptionalBinary d) as [[v r]|] eqn:Er; [|constructor].
    destruct (takeAttributes r) as [[[a r'] n]|] eqn:Ea; [|constructor]. constructor; [|constructor].
    unfold forward. cbn. etransitivity; [by eapply takeAttributes_suffix|by eapply Hopt].
  - destruct (takeAttributes d) as [[[a r'] n]|] eqn:Ea; [|constructor]. constructor; [|constructor].
    unfold forward. cbn. etransitivity; [by eapply takeAttributes_suffix|done].
  - destruct (readNativeCompactOptionalBinary d) as [[v r]|] eqn:Er; constructor; [|constructor]. by eapply Hopt.
  - by constructor.
Qed.

Lemma valueRef_suffix data v rest : takeNativeCompactPipelineValueRef data = Ok (v, rest) -> rest `suffix_of` data.
Proof.
  unfold takeNativeCompactPipelineValueRef. intros H.
  destruct (readNativeCompactBinary data) as [[r d1]|] eqn:E1; [|done]. cbn in H.
  destruct (readNativeCompactOptionalBinary d1) as [[p d2]|] eqn:E2; [|done]. cbn in H.
  destruct (readNativeCompactOptionalBinary d2) as [[o d3]|] eqn:E3; [|done]. cbn in H. injection H as <- <-.
  etransitivity; [by eapply readOptional_suffix|]. etransitivity; [by eapply readOptional_suffix|by eapply readBinary_suffix].
Qed.

Lemma single_forward {A} (f : A -> val) data (r : result compactError (A * gstr * Z)) cs :
  (forall v rest n, r = Ok (v, rest, n) -> rest `suffix_of` data) -> single f r = Ok cs -> Forall (forward data) cs.
Proof.
  intros Hr H. unfold single in H. destruct r as [[[v rest] n]|]; [|done]. cbn in H. injection H as <-.
  constructor; [by eapply Hr|constructor].
Qed.

Lemma okValues_forward present data cs : decodeNativeCompactPipelineOKValues present data = Ok cs -> Forall (forward data) cs.
Proof.
  unfold decodeNativeCompactPipelineOKValues. intros H. destruct present; try discriminate H.
  - injection H as <-. constructor; [unfold forward; done|constructor].
  - destruct (readNativeCompactBinary data) as [[v r]|] eqn:E; [|done]. cbn in H. injection H as <-.
    constructor; [by eapply readBinary_suffix|constructor].
  - eapply single_forward; [|exact H]. apply takeRecord_suffix.
  - eapply single_forward; [|exact H]. apply takeRecords_suffix.
  - by apply claim_forward.
  - destruct (takeNativeCompactPipelineValueRef data) as [[v r]|] eqn:E; [|done]. cbn in H. injection H as <-.
    constructor; [by eapply valueRef_suffix|constructor].
  - eapply single_forward; [|exact H]. apply takeList_suffix.
  - eapply single_forward; [|exact H]. apply takeMap_suffix.
Qed.

Lemma item_forward data cs c : decodeNativeCompactPipelineItem data = Ok cs -> c ∈ cs -> next c `suffix_of` data.
Proof.
  intros H Hc. revert c Hc. apply Forall_forall.
  assert (Herr : forall status data, (if bool_decide (status ∈ [x01; x02]) then
        let! (reason, data) := readNativeCompactBinary data in
        Ok [Candidate (VArray None [VString (if bool_decide (status = x01) then go "busy" else go "error"); VBytes reason]) data 0]
      else Err (CompactTag status)) = Ok cs -> Forall (forward (status :: data)) cs).
  { intros status d. case_bool_decide; [|done].
    destruct (readNativeCompactBinary d) as [[v r]|] eqn:E; [|done]. cbn. intros [= <-].
    constructor; [|constructor]. apply suffix_cons_r. by eapply readBinary_suffix. }
  unfold decodeNativeCompactPipelineItem in H. destruct data as [|status data]; [done|].
  destruct status; try (by apply Herr). destruct data as [|present data]; [done|].
  destruct (decodeNativeCompactPipelineOKValues present data) as [values|] eqn:E; [|done]. cbn in H. injection H as <-.
  apply Forall_fmap. eapply Forall_impl; [by eapply okValues_forward|]. intros c Hf. unfold forward in *. cbn.
  by do 2 apply suffix_cons_r.
Qed.

(** ** The decoder *)

(** What a payload says, by the plain search; and by first readings only. *)
Definition batch (data : gstr) : option (list val) :=
  match countedHeader nativeCompactPipelineResponse 2 data with
  | Ok (count, rest) => parse decodeNativeCompactPipelineItem (Z.to_nat count) rest (nativeMaxContainerItems - count)
  | Err _ => None
  end.

Definition first_batch (data : gstr) : option (list val) :=
  match countedHeader nativeCompactPipelineResponse 2 data with
  | Ok (count, rest) => greedy decodeNativeCompactPipelineItem (Z.to_nat count) rest (nativeMaxContainerItems - count)
  | Err _ => None
  end.

Lemma countedHeader_nonneg marker m data count rest : countedHeader marker m data = Ok (count, rest) -> 0 <= count.
Proof.
  unfold countedHeader. destruct data as [|b data]; [done|]. destruct (_ || _); [done|]. unfold bounded, nativeBoundedItemCount.
  pose proof (be_decode_range (btake 4 data)) as [H _].
  destruct (_ <? _); [done|]. destruct (_ && _); [done|]. cbn. intros [= <- <-]. exact H.
Qed.

(** C29: the decoder of compact pipeline responses always ends, and agrees with the
    plain recursive search over the readings of every item: the values it returns are
    those of the first combination of readings, in order, that takes up the payload
    within the item limit, and when it reports another error than its own limit of
    attempts there is no such combination. That limit is never met by a payload whose
    items can be read one after the other by their first readings. *)
Theorem compact_batch_exact payload :
  exists r, decodeNativeCompactPipelineResponse payload = Some r /\
    match r with
    | Ok l => batch payload = Some l
    | Err e => e = CompactAmbiguous \/ batch payload = None
    end /\
    (forall l, first_batch payload = Some l -> r = Ok l).
Proof.
  unfold decodeNativeCompactPipelineResponse, batch, first_batch.
  destruct (countedHeader _ _ _) as [[count rest]|e] eqn:E; [|exists (Err e); split; [done|]; split; [by right|done]].
  pose proof (countedHeader_nonneg _ _ _ _ _ E) as Hcount.
  destruct (search_spec decodeNativeCompactPipelineItem rest item_forward (Z.to_nat count) (8 * (count + 1) + 64)
    (nativeMaxContainerItems - count) ltac:(lia)) as (r & Hr & Hspec).
  exists r. split; [exact Hr|]. split; [exact Hspec|]. intros l Hl.
  pose proof (run_greedy decodeNativeCompactPipelineItem (Z.to_nat count) (8 * (count + 1) + 64) (Z.to_nat count)
    (fuel (8 * (count + 1) + 64)) (start (Z.to_nat count) rest (nativeMaxContainerItems - count)) l) as Hg.
  cbn [start failed item items attempts data remaining take app] in Hg. rewrite Hg in Hr; try done.
  - by injection Hr as <-.
  - apply length_replicate.
  - lia.
  - unfold fuel. lia.
Qed.

(** A claimed job and a busy item. *)
Definition example_batch : gstr :=
  [x95; x00; x00; x00; x02; x00; x04; x00; x00; x00; x01; x6a; xff; xff; xff; xff; x00; x00; x00; x01; x74;
   x00; x00; x00; x00; x00; x00; x00; x07; x01; x00; x00; x00; x01; x62].

Example example_batch_decoded :
  decodeNativeCompactPipelineResponse example_batch =
  Some (Ok [VArray None [VString (go "ok"); VArray None [VBytes (go "j"); VBytes []; VBytes (go "t"); VInt IInt64 7]];
            VArray None [VString (go "busy"); VBytes (go "b")]]).
Proof. vm_compute. reflexivity. Qed.
