(* ===== verification/FlowQuery.v ===== *)
(** FLOW.QUERY responses: the compact codec of its results in its two forms, for
    untyped and typed callers (src/native_flow_query_result_codec.go,
    src/native_flow_query_typed_codec.go), and the decoding of results, explanations
    and diagnostics (src/flow_query_response.go, src/flow_query_explain_response.go,
    src/flow_query_diagnostic_contract.go).

    The two codecs are proved to agree: the native client owns the maps it decodes and takes
    them as they are, another executor's are copied within the normaliser's limits first. *)

From S2P Require Export Compact Normalize Response.

(** ** UTF-8 *)

Definition byte_between (lo hi : Z) (b : byte) : bool := (lo <=? byteZ b) && (byteZ b <=? hi).

(** [utf8.Valid] and [utf8.ValidString]. *)
Fixpoint utf8_valid (s : gstr) : bool :=
  match s with
  | [] => true
  | a :: s =>
      if byte_between 0 127 a then utf8_valid s
      else if byte_between 194 223 a then
        match s with b :: s => byte_between 128 191 b && utf8_valid s | _ => false end
      else if byte_between 224 239 a then
        match s with
        | b :: c :: s =>
            byte_between (if byteZ a =? 224 then 160 else 128) (if byteZ a =? 237 then 159 else 191) b &&
            byte_between 128 191 c && utf8_valid s
        | _ => false
        end
      else if byte_between 240 244 a then
        match s with
        | b :: c :: d :: s =>
            byte_between (if byteZ a =? 240 then 144 else 128) (if byteZ a =? 244 then 143 else 191) b &&
            byte_between 128 191 c && byte_between 128 191 d && utf8_valid s
        | _ => false
        end
      else false
  end.

(** ** Results *)

Definition flowQueryResultContract : gstr := go "ferric.flow.query.result/v1".
Definition flowExplainContract : gstr := go "ferric.flow.explain/v1".
Definition flowQueryMaxResponseRecords : Z := 100.
Definition flowQueryMaxQualityBytes : Z := 64.

Abbreviation mapping := (list (gstr * val)).

(** A nil page has [HasMore = false] and no cursor only when it is present. *)
Record FlowQueryPage := Page { HasMore : bool; Cursor : gstr }.

Record FlowQueryQuality := Quality { Exactness : gstr; Freshness : gstr; Coverage : gstr; Pagination : gstr }.

Record FlowQueryUsage := Usage {
  RangeSeeks : Z;
  RangePages : Z;
  ScannedEntries : Z;
  ScannedBytes : Z;
  HydratedRecords : Z;
  ResidualChecks : Z;
  DuplicateEntries : Z;
  ResultRecords : Z;
  ResponseBytes : Z;
  MemoryHighWaterBytes : Z;
  WallTimeUS : Z;
}.

Record FlowQueryResult := QueryResult {
  Version : gstr;
  Records : option (list mapping);
  ResultPage : option FlowQueryPage;
  Count : option Z;
  ResultQuality : FlowQueryQuality;
  ResultUsage : FlowQueryUsage;
  Raw : mapping;
}.

Inductive queryError :=
| QueryTruncated
| QueryQuality
| QueryInteger
| QueryPage
| QueryTooManyRecords
| QueryCompact (e : compactError)     (* of a record, or of the item budget *)
| QueryReserved                       (* reserved fields of a record *)
| QueryText                           (* a text that is empty or no UTF-8 *)
| QueryKind
| QueryTrailing
| QueryResponseBytes
| QueryUsage                          (* counters missing or inconsistent *)
| QueryMap (e : normError)
| QueryContract
| QueryField                          (* missing or of another type *)
| QueryShape
| QueryNil
| QueryExplain
| QueryDiagnostic.

(** *** The limits among the counters *)

Definition validateFlowQueryUsageCounters (usage : FlowQueryUsage) : result queryError unit :=
  let maxPages :=
    if ScannedEntries usage <=? max_int64 - RangeSeeks usage then ScannedEntries usage + RangeSeeks usage else max_int64 in
  let maxResidualChecks :=
    if ScannedEntries usage <=? max_int64 / 12 then ScannedEntries usage * 12 else max_int64 in
  rguard (negb ((ScannedEntries usage <? HydratedRecords usage) || (ScannedEntries usage <? DuplicateEntries usage) ||
    (maxPages <? RangePages usage) || (maxResidualChecks <? ResidualChecks usage))) QueryUsage.

Definition validateFlowQueryRecordUsage (usage : FlowQueryUsage) (count : Z) : result queryError unit :=
  if negb (ResultRecords usage =? count) then Err QueryUsage
  else rguard (ResultRecords usage <=? ScannedEntries usage) QueryUsage.

Definition validateFlowQueryCountUsage (usage : FlowQueryUsage) : result queryError unit :=
  rguard (ResultRecords usage =? 1) QueryUsage.

(** ** The compact codec *)

Definition nativeCompactQueryMaxRecords : Z := 100.
Definition nativeCompactQueryMinCursorBytes : Z := 16.
Definition nativeCompactQueryMaxCursorBytes : Z := 4096.
Definition nativeCompactQueryCursorPrefix : gstr := go "fqc1_".
Definition nativeCompactQueryRecordMask : Z := 2 ^ 20 - 1.

Definition nativeCompactQueryRecordFields : list gstr := [
  go "id"; go "type"; go "state"; go "version"; go "priority"; go "partition_key";
  go "created_at_ms"; go "updated_at_ms"; go "next_run_at_ms"; go "lease_deadline_ms";
  go "attempts"; go "run_state"; go "max_active_ms"; go "parent_flow_id"; go "root_flow_id";
  go "correlation_id"; go "attributes"; go "state_meta"; go "event_id"; go "fields"].

Definition nativeCompactQueryQualityFields : list gstr := [go "exactness"; go "freshness"; go "coverage"; go "pagination"].

Definition nativeCompactQueryQualityValues : list (list gstr) := [
  [go "authoritative"; go "projected_exact"; go "exact"; go "not_applicable"];
  [go "current"; go "projection_watermark"; go "not_applicable"; []];
  [go "complete"; go "unavailable"; []; []];
  [go "none"; go "complete"; go "authenticated_seek"; go "live_seek"]].

Definition nativeCompactQueryUsageFields : list gstr := [
  go "range_seeks"; go "range_pages"; go "scanned_entries"; go "scanned_bytes";
  go "hydrated_records"; go "residual_checks"; go "duplicate_entries"; go "result_records";
  go "response_bytes"; go "memory_high_water_bytes"; go "wall_time_us"].

Definition readNativeCompactQueryU64 (data : gstr) : result queryError (Z * gstr) :=
  if blen data <? 8 then Err QueryTruncated
  else
    let value := be_decode (btake 8 data) in
    if max_int64 <? value then Err QueryInteger else Ok (value, bdrop 8 data).

(** The two loops of [readNativeCompactQueryHeader]. *)
Fixpoint readQuality (values : list (list gstr)) (data : gstr) : result queryError (list gstr * gstr) :=
  match values with
  | [] => Ok ([], data)
  | row :: values =>
      match data with
      | [] => Err QueryTruncated
      | code :: data =>
          let value := default [] (row !! Z.to_nat (byteZ code)) in
          if (4 <=? byteZ code) || bool_decide (value = []) then Err QueryQuality
          else let! (l, data) := readQuality values data in Ok (value :: l, data)
      end
  end.

Fixpoint readUsage {A} (fields : list A) (data : gstr) : result queryError (list Z * gstr) :=
  match fields with
  | [] => Ok ([], data)
  | _ :: fields =>
      let! (value, data) := readNativeCompactQueryU64 data in
      let! (l, data) := readUsage fields data in Ok (value :: l, data)
  end.

Record nativeCompactQueryHeader := Header { kind : byte; h_quality : list gstr; h_usage : list Z; body : gstr }.

Definition readNativeCompactQueryHeader (data : gstr) : result queryError nativeCompactQueryHeader :=
  match data with
  | marker :: kind :: rest =>
      if (blen data <? 2 + blen nativeCompactQueryQualityFields + 8 * blen nativeCompactQueryUsageFields)
         || negb (bool_decide (marker = nativeCompactFlowQueryResult)) then Err QueryTruncated
      else
        let! (quality, rest) := readQuality nativeCompactQueryQualityValues rest in
        let! (usage, rest) := readUsage nativeCompactQueryUsageFields rest in
        Ok (Header kind quality usage rest)
  | _ => Err QueryTruncated
  end.

Definition flowQueryUsageFromCompact (values : list Z) : FlowQueryUsage :=
  let v i := nth i values 0 in
  Usage (v 0%nat) (v 1%nat) (v 2%nat) (v 3%nat) (v 4%nat) (v 5%nat) (v 6%nat) (v 7%nat) (v 8%nat) (v 9%nat) (v 10%nat).

Definition nativeCompactQueryRawQuality (values : list gstr) : mapping :=
  zip nativeCompactQueryQualityFields (VBytes <$> values).
Definition nativeCompactQueryRawUsage (values : list Z) : mapping :=
  zip nativeCompactQueryUsageFields (VInt IInt64 <$> values).

(** [readNativeCompactQueryPageData]: the cursor, when there is more. *)
Definition readNativeCompactQueryPageData (data : gstr) : result queryError (option gstr * gstr) :=
  match data with
  | hasMore :: rest =>
      if blen data <? 5 then Err QueryTruncated
      else
        let size := be_decode (btake 4 rest) in
        let rest := bdrop 4 rest in
        if bool_decide (hasMore = x00) && (size =? nativeCompactNilU32) then Ok (None, rest)
        else if negb (bool_decide (hasMore = x01)) || (size <? nativeCompactQueryMinCursorBytes)
                || (size =? nativeCompactNilU32) || (nativeCompactQueryMaxCursorBytes <? size)
                || (blen rest <? size) then Err QueryPage
        else
          let cursor := btake size rest in
          if negb (bool_decide (nativeCompactQueryCursorPrefix `prefix_of` cursor)) || negb (utf8_valid cursor)
          then Err QueryPage
          else Ok (Some cursor, bdrop size rest)
  | [] => Err QueryTruncated
  end.

Definition raw_page (cursor : option gstr) : mapping :=
  match cursor with
  | None => [(go "has_more", VBool false); (go "cursor", VNil)]
  | Some cursor => [(go "has_more", VBool true); (go "cursor", VBytes cursor)]
  end.

Definition readNativeCompactQueryPage (data : gstr) : result queryError (mapping * gstr) :=
  let! (page, rest) := readNativeCompactQueryPageData data in Ok (raw_page page, rest).

Definition typedNativeCompactQueryPage (page : option gstr) : FlowQueryPage * mapping :=
  (match page with None => Page false [] | Some cursor => Page true cursor end, raw_page page).

(** [readNativeCompactQueryText], behind its tag: [VNil] or [VString]. *)
Definition readNativeCompactQueryText (data : gstr) (budget : Z) : result queryError (val * gstr * Z) :=
  match data with
  | [] => Err QueryTruncated
  | tag :: data =>
      let budget := budget - 1 in
      if budget <? 0 then Err (QueryCompact CompactAggregate)
      else match tag with
      | x00 => Ok (VNil, data, budget)
      | x04 =>
          if blen data <? 4 then Err QueryTruncated
          else
            let size := be_decode (btake 4 data) in
            let data := bdrop 4 data in
            if blen data <? size then Err QueryTruncated
            else
              let value := btake size data in
              if bool_decide (value = []) || negb (utf8_valid value) then Err QueryText
              else Ok (VString value, bdrop size data, budget)
      | _ => Err QueryText
      end
  end.

Definition readQueryValue (data : gstr) (budget : Z) : result queryError (val * gstr * Z) :=
  match decodeField data budget with Ok r => Ok r | Err e => Err (QueryCompact e) end.

Definition nativeCompactQueryRecordTextField (index : nat) : bool :=
  bool_decide (index ∈ [0; 1; 2; 5; 11; 13; 14; 15; 18]%nat).

(** The loop over the fields of a record, with the reader of each field. *)
Fixpoint readFields (read : nat -> gstr -> Z -> result queryError (val * gstr * Z)) (fields : list gstr) (index : nat)
  (bitmap : Z) (data : gstr) (budget : Z) : result queryError (mapping * gstr * Z) :=
  match fields with
  | [] => Ok ([], data, budget)
  | field :: fields =>
      if negb (Z.testbit bitmap (Z.of_nat index)) then readFields read fields (S index) bitmap data budget
      else
        let! (value, data, budget) := read index data budget in
        let! (record, data, budget) := readFields read fields (S index) bitmap data budget in
        Ok ((field, value) :: record, data, budget)
  end.

Definition readRecord (read : nat -> gstr -> Z -> result queryError (val * gstr * Z)) (data : gstr) (budget : Z)
  : result queryError (mapping * gstr * Z) :=
  if blen data <? 4 then Err QueryTruncated
  else
    let bitmap := be_decode (btake 4 data) in
    if negb (Z.land bitmap (Z.lxor (2 ^ 32 - 1) nativeCompactQueryRecordMask) =? 0) then Err QueryReserved
    else readFields read nativeCompactQueryRecordFields 0 bitmap (bdrop 4 data) budget.

Definition readNativeCompactQueryRecord : gstr -> Z -> result queryError (mapping * gstr * Z) :=
  readRecord (fun _ => readQueryValue).

Definition readNativeCompactQueryRecordTyped : gstr -> Z -> result queryError (mapping * gstr * Z) :=
  readRecord (fun index => if nativeCompactQueryRecordTextField index then readNativeCompactQueryText else readQueryValue).

(** The number of records behind the page. *)
Definition readRecordCount (data : gstr) : result queryError (Z * gstr) :=
  if blen data <? 4 then Err QueryTruncated
  else
    let rawCount := be_decode (btake 4 data) in
    if nativeCompactQueryMaxRecords <? rawCount then Err QueryTooManyRecords else Ok (rawCount, bdrop 4 data).

Definition recordBudget (count : Z) : result queryError Z :=
  match consumeNativeCompactItems nativeMaxContainerItems count with Ok b => Ok b | Err e => Err (QueryCompact e) end.

Definition count_result (count : Z) : val :=
  VMap None [(go "kind", VBytes (go "count")); (go "value", VInt IInt64 count)].

(** The checks that end both decoders. *)
Definition checkEnd (data rest : gstr) (usage : FlowQueryUsage) : result queryError unit :=
  require! bool_decide (rest = []) else QueryTrailing;
  rguard (ResponseBytes usage =? blen data) QueryResponseBytes.

(** The part of both raw maps that does not depend on the kind. *)
Definition raw_envelope (header : nativeCompactQueryHeader) : mapping :=
  [(go "version", VBytes flowQueryResultContract);
   (go "quality", VMap None (nativeCompactQueryRawQuality (h_quality header)));
   (go "usage", VMap None (nativeCompactQueryRawUsage (h_usage header)))].

(** [decodeNativeCompactFlowQueryResult]. *)
Definition decodeNativeCompactFlowQueryResult (data : gstr) : result queryError mapping :=
  let! header := readNativeCompactQueryHeader data in
  let usage := flowQueryUsageFromCompact (h_usage header) in
  let! _ := validateFlowQueryUsageCounters usage in
  let envelope := raw_envelope header in
  let! (raw, rest) :=
    (match kind header with
     | x00 =>
         let! (page, rest) := readNativeCompactQueryPage (body header) in
         let! (count, rest) := readRecordCount rest in
         let! _ := validateFlowQueryRecordUsage usage count in
         let! budget := recordBudget count in
         let! (records, rest, _) := readMany readNativeCompactQueryRecord (Z.to_nat count) rest budget in
         Ok (envelope ++ [(go "records", VArray None (VMap None <$> records)); (go "page", VMap None page)], rest)
     | x01 =>
         let! _ := validateFlowQueryCountUsage usage in
         let! (count, rest) := readNativeCompactQueryU64 (body header) in
         Ok (envelope ++ [(go "result", count_result count)], rest)
     | _ => Err QueryKind
     end) in
  let! _ := checkEnd data rest usage in
  Ok raw.

(** [decodeNativeCompactFlowQueryResultTyped]. *)
Definition decodeNativeCompactFlowQueryResultTyped (data : gstr) : result queryError FlowQueryResult :=
  let! header := readNativeCompactQueryHeader data in
  let q i := nth i (h_quality header) [] in
  let quality := Quality (q 0%nat) (q 1%nat) (q 2%nat) (q 3%nat) in
  let usage := flowQueryUsageFromCompact (h_usage header) in
  let! _ := validateFlowQueryUsageCounters usage in
  let envelope := raw_envelope header in
  let! (r, rest) :=
    (match kind header with
     | x00 =>
         let! (pageData, rest) := readNativeCompactQueryPageData (body header) in
         let (page, rawPage) := typedNativeCompactQueryPage pageData in
         let! (count, rest) := readRecordCount rest in
         let! budget := recordBudget count in
         let! (records, rest, _) := readMany readNativeCompactQueryRecordTyped (Z.to_nat count) rest budget in
         let! _ := validateFlowQueryRecordUsage usage count in
         Ok (QueryResult flowQueryResultContract (Some records) (Some page) None quality usage
               (envelope ++ [(go "records", VArray None (VMap None <$> records)); (go "page", VMap None rawPage)]), rest)
     | x01 =>
         let! (count, rest) := readNativeCompactQueryU64 (body header) in
         let! _ := validateFlowQueryCountUsage usage in
         Ok (QueryResult flowQueryResultContract None None (Some count) quality usage
               (envelope ++ [(go "result", count_result count)]), rest)
     | _ => Err QueryKind
     end) in
  let! _ := checkEnd data rest usage in
  Ok r.

(** ** Decoding a response *)

(** What a request gives back: a value, a map the native client hands over
    ([ownedNativeFlowQueryResponse]), or a result the typed codec has read
    ([ownedNativeFlowQueryResult]). *)
Inductive queryResponse :=
| Native (v : val)
| OwnedResponse (m : mapping)
| Owned (r : option FlowQueryResult).

(** The value an executor's request returned, after [executePreparedFlowQuery]. *)
Definition ownResponse (response : queryResponse) : queryResponse :=
  match response with Native (VMap _ m) => OwnedResponse m | _ => response end.

(** [nativeMap] with this decoder's errors. *)
Definition nativeMapOf (v : val) : result queryError mapping :=
  match nativeMap v with Ok m => Ok m | Err e => Err (QueryMap e) end.

(** A map of the native client is taken as it is. *)
Definition flowQueryResponseMap (response : queryResponse) : result queryError mapping :=
  match response with
  | OwnedResponse m => Ok m
  | Native v => nativeMapOf v
  | Owned _ => Err (QueryMap NormNotMap)
  end.

(** [m[key]] of a map with [any] values. *)
Definition field_of (key : gstr) (m : mapping) : val := default VNil (assoc_get key m).

(** [m[key] = v]. *)
Fixpoint assoc_put (key : gstr) (v : val) (m : mapping) : mapping :=
  match m with
  | [] => [(key, v)]
  | (k, w) :: m => if bool_decide (k = key) then (k, v) :: m else (k, w) :: assoc_put key v m
  end.

Definition flowQueryResponseString (v : val) : option gstr :=
  match v with
  | VString s | VBytes s => if utf8_valid s then Some s else None
  | _ => responseString v
  end.

Definition requiredFlowQueryStringField (m : mapping) (key : gstr) : result queryError gstr :=
  match field_of key m with
  | VNil => Err QueryField
  | raw =>
      match flowQueryResponseString raw with
      | Some [] | None => Err QueryField
      | Some s => Ok s
      end
  end.

Definition flowQueryUint64 (v : val) : option Z :=
  match v with
  | VInt _ z => if 0 <=? z then Some z else None
  | VUint _ z => Some (wrap 64 z)
  | _ => None
  end.

Definition nonNegativeResponseInteger (v : val) : result queryError Z :=
  match flowQueryUint64 v with
  | Some z => if max_int64 <? z then Err QueryInteger else Ok z
  | None => Err QueryInteger
  end.

Definition flowQueryRecordTextFields : list gstr := [
  go "id"; go "type"; go "state"; go "partition_key"; go "run_state";
  go "parent_flow_id"; go "root_flow_id"; go "correlation_id"; go "event_id"].

(** One turn of the loop over the text fields of a record. *)
Definition normalizeTextField (m : mapping) (field : gstr) : result queryError mapping :=
  match field_of field m with
  | VNil => Ok m
  | VString text => if bool_decide (text = []) || negb (utf8_valid text) then Err QueryText else Ok m
  | raw =>
      match flowQueryResponseString raw with
      | Some [] | None => Err QueryText
      | Some text => Ok (assoc_put field (VString text) m)
      end
  end.

Definition flowQueryRecordMaps (v : val) : result queryError (list mapping) :=
  match v with
  | VArray _ items =>
      if flowQueryMaxResponseRecords <? blen items then Err QueryTooManyRecords
      else rmapM (fun item =>
        match item with
        | VMap _ m => rfold normalizeTextField m flowQueryRecordTextFields
        | _ => Err QueryField
        end) items
  | _ => Err QueryField
  end.

Definition decodeFlowQueryPage (v : val) : result queryError FlowQueryPage :=
  let! m := nativeMapOf v in
  match field_of (go "has_more") m with
  | VBool hasMore =>
      let! cursor :=
        (match field_of (go "cursor") m with
         | VNil => Ok []
         | raw =>
             match flowQueryResponseString raw with
             | None => Err QueryPage
             | Some cursor =>
                 if (blen cursor <? 16) || (4096 <? blen cursor) || negb (bool_decide (go "fqc1_" `prefix_of` cursor))
                 then Err QueryPage else Ok cursor
             end
         end) in
      if Bool.eqb hasMore (negb (bool_decide (cursor = []))) then Ok (Page hasMore cursor) else Err QueryPage
  | _ => Err QueryField
  end.

Definition validFlowQueryQuality (field value : gstr) : bool :=
  bool_decide (
    (field = go "exactness" /\ value ∈ [go "authoritative"; go "projected_exact"; go "exact"; go "not_applicable"]) \/
    (field = go "freshness" /\ value ∈ [go "current"; go "projection_watermark"; go "not_applicable"]) \/
    (field = go "coverage" /\ value ∈ [go "complete"; go "unavailable"]) \/
    (field = go "pagination" /\ value ∈ [go "none"; go "complete"; go "authenticated_seek"; go "live_seek"])).

Definition qualityField (m : mapping) (name : gstr) : result queryError gstr :=
  let! value := requiredFlowQueryStringField m name in
  if flowQueryMaxQualityBytes <? blen value then Err QueryQuality
  else if negb (validFlowQueryQuality name value) then Err QueryQuality
  else Ok value.

Definition decodeFlowQueryQuality (v : val) : result queryError FlowQueryQuality :=
  let! m := nativeMapOf v in
  let! exactness := qualityField m (go "exactness") in
  let! freshness := qualityField m (go "freshness") in
  let! coverage := qualityField m (go "coverage") in
  let! pagination := qualityField m (go "pagination") in
  Ok (Quality exactness freshness coverage pagination).

Definition usageField (m : mapping) (name : gstr) : result queryError Z :=
  match assoc_get name m with
  | None => Err QueryUsage
  | Some v => nonNegativeResponseInteger v
  end.

Definition decodeFlowQueryUsage (v : val) : result queryError FlowQueryUsage :=
  let! m := nativeMapOf v in
  let! values := rmapM (usageField m) nativeCompactQueryUsageFields in
  let usage := flowQueryUsageFromCompact values in
  let! _ := validateFlowQueryUsageCounters usage in
  Ok usage.

(** [decodeFlowQueryResult], from the map on. The records are normalised in place,
    so the raw map shows their texts too. *)
Definition decodeFlowQueryMapping (m : mapping) : result queryError FlowQueryResult :=
  let! version := requiredFlowQueryStringField m (go "version") in
  if negb (bool_decide (version = flowQueryResultContract)) then Err QueryContract
  else
    let! quality := decodeFlowQueryQuality (field_of (go "quality") m) in
    let! usage := decodeFlowQueryUsage (field_of (go "usage") m) in
    let hasRecords := assoc_has (go "records") m in
    if Bool.eqb hasRecords (assoc_has (go "result") m) then Err QueryShape
    else if hasRecords then
      let! records := flowQueryRecordMaps (field_of (go "records") m) in
      let! page := decodeFlowQueryPage (field_of (go "page") m) in
      let! _ := validateFlowQueryRecordUsage usage (blen records) in
      Ok (QueryResult version (Some records) (Some page) None quality usage
            (assoc_put (go "records") (VArray None (VMap None <$> records)) m))
    else if assoc_has (go "page") m then Err QueryShape
    else
      let! countResult := nativeMapOf (field_of (go "result") m) in
      let! kind := requiredFlowQueryStringField countResult (go "kind") in
      if negb (bool_decide (kind = go "count")) then Err QueryShape
      else
        let! count := nonNegativeResponseInteger (field_of (go "value") countResult) in
        let! _ := validateFlowQueryCountUsage usage in
        Ok (QueryResult version None None (Some count) quality usage m).

Definition decodeFlowQueryResult (response : queryResponse) : result queryError FlowQueryResult :=
  match response with
  | Owned None => Err QueryNil
  | Owned (Some r) => Ok r
  | _ => let! m := flowQueryResponseMap response in decodeFlowQueryMapping m
  end.

(** ** What the two codecs have in common *)

(** Membership in a list given by its elements. *)
Ltac elem := rewrite ?elem_of_cons, ?elem_of_nil; intuition congruence.

(** A text field of a record, as the typed caller sees it. *)
Definition text_of (v : val) : result queryError val :=
  match v with
  | VNil => Ok VNil
  | VString s | VBytes s => if bool_decide (s = []) || negb (utf8_valid s) then Err QueryText else Ok (VString s)
  | _ => Err QueryText
  end.

(** An entry of a record before and after its text is read. *)
Definition converted (texts : list gstr) (e e' : gstr * val) : Prop :=
  e'.1 = e.1 /\ if bool_decide (e.1 ∈ texts) then text_of e.2 = Ok e'.2 else e'.2 = e.2.

Lemma normalizeTextField_hit m field v : assoc_get field m = Some v -> forall m',
  normalizeTextField m field = Ok m' <-> exists v', text_of v = Ok v' /\ m' = assoc_put field v' m.
Proof.
  intros Hv m'. unfold normalizeTextField, field_of. rewrite Hv. cbn [from_option id].
  assert (assoc_put field v m = m) as Hself.
  { clear - Hv. induction m as [|[k w] m IH]; [done|]. cbn in *. case_bool_decide; [congruence|]. by rewrite IH. }
  destruct v as [|b|k z|k z|z|s|s|id l|id l|o]; cbn [text_of flowQueryResponseString responseString];
    try (split; [done|by intros (? & ? & ?)]).
  - split; [intros [= <-]; by exists VNil|]. intros (? & [= <-] & ->). by rewrite Hself.
  - destruct (_ || _); [split; [done|by intros (? & ? & ?)]|].
    split; [intros [= <-]; by exists (VString s)|]. intros (? & [= <-] & ->). by rewrite Hself.
  - destruct (utf8_valid s); cbn [negb]; [|rewrite orb_true_r; split; [done|by intros (? & ? & ?)]].
    destruct s as [|b s]; [split; [done|by intros (? & ? & ?)]|]. rewrite bool_decide_false by done. cbn [orb].
    split; [intros [= <-]; by exists (VString (b :: s))|]. by intros (? & [= <-] & ->).
Qed.

Lemma normalizeTextField_miss m field : assoc_get field m = None -> normalizeTextField m field = Ok m.
Proof. intros Hv. unfold normalizeTextField, field_of. by rewrite Hv. Qed.

Lemma converted_refl texts m : (forall e, e ∈ m -> e.1 ∉ texts) -> forall m', Forall2 (converted texts) m m' <-> m' = m.
Proof.
  induction m as [|[k v] m IH]; intros H m'.
  - split; [by inversion 1|]. intros ->. constructor.
  - assert (bool_decide (k ∈ texts) = false) as Hk by (apply bool_decide_eq_false, (H (k, v)); left).
    assert (forall e, e ∈ m -> e.1 ∉ texts) as Hm by (intros e He; apply H; by right).
    split.
    + inversion 1 as [|? [k' v'] ? m1 [Ha Hb] Hr]; subst. cbn in Ha, Hb. rewrite Hk in Hb.
      apply IH in Hr; [|done]. by subst.
    + intros ->. constructor; [by split; cbn; rewrite ?Hk|]. by apply IH.
Qed.

Lemma keys_apart field (m : mapping) : field ∉ keys m -> forall e, e ∈ m -> e.1 ∉ [field].
Proof.
  intros H [k v] Hin Hk%list_elem_of_singleton. cbn in Hk. subst. apply H, list_elem_of_fmap. by exists (field, v).
Qed.

Lemma normalizeTextField_converted field m : NoDup (keys m) -> forall m',
  normalizeTextField m field = Ok m' <-> Forall2 (converted [field]) m m'.
Proof.
  intros Hnd m'. destruct (assoc_get field m) as [v|] eqn:Hv.
  - rewrite (normalizeTextField_hit _ _ _ Hv). revert m' Hnd Hv.
    induction m as [|[k w] m IH]; intros m' Hnd; [done|]. cbn in Hnd |- *. apply NoDup_cons in Hnd as [Hk Hnd].
    case_bool_decide as Hkf.
    + subst k. intros [= <-]. split.
      * intros (v' & Hv' & ->). constructor; [by split; cbn; rewrite ?bool_decide_true by elem|].
        apply converted_refl; [by apply keys_apart|done].
      * inversion 1 as [|? [k' v'] ? m1 [Ha Hb] Hr]; subst. cbn in Ha, Hb.
        rewrite bool_decide_true in Hb by elem. apply converted_refl in Hr; [subst; by exists v'|by apply keys_apart].
    + intros Hv. assert (bool_decide (k ∈ [field]) = false) as Hb by (apply bool_decide_eq_false; elem). split.
      * intros (v' & Hv' & ->). constructor; [by split; cbn; rewrite ?Hb|]. apply IH; [done|done|]. by exists v'.
      * inversion 1 as [|? [k' v'] ? m1 [Ha Hc] Hr]; subst. cbn in Ha, Hc. rewrite Hb in Hc.
        apply IH in Hr as (u & Hu & ->); [|done|done]. exists u. by subst.
  - rewrite normalizeTextField_miss by done. rewrite converted_refl; [split; congruence|].
    apply keys_apart, assoc_has_false. unfold assoc_has. by rewrite Hv.
Qed.

Lemma converted_keys texts m m' : Forall2 (converted texts) m m' -> keys m' = keys m.
Proof. unfold keys. induction 1 as [|e e' m m' [He _] _ IH]; [done|]. cbn. by rewrite He, IH. Qed.

Lemma converted_compose f texts m m1 : f ∉ texts -> Forall2 (converted [f]) m m1 -> forall m',
  Forall2 (converted texts) m1 m' <-> Forall2 (converted (f :: texts)) m m'.
Proof.
  intros Hf. induction 1 as [|[k v] [k1 v1] m m1 [Ha Hb] _ IH]; intros m'.
  - split; inversion 1; constructor.
  - cbn in Ha, Hb. subst k1.
    assert (forall e', converted texts (k, v1) e' <-> converted (f :: texts) (k, v) e') as He.
    { intros [k' v']. unfold converted. cbn. destruct (decide (k = f)) as [->|Hk].
      - rewrite bool_decide_true in Hb by elem. rewrite (bool_decide_false (f ∈ texts)) by done.
        rewrite bool_decide_true by elem. rewrite Hb. split; intros [-> H]; split; congruence.
      - rewrite bool_decide_false in Hb by elem. subst v1.
        by rewrite (bool_decide_ext (k ∈ f :: texts) (k ∈ texts)) by elem. }
    split; inversion 1; subst; constructor; by (apply He || apply IH).
Qed.

(** The loop over the text fields converts each entry on its own. *)
Lemma normalizeTexts_converted texts : NoDup texts -> forall m m', NoDup (keys m) ->
  rfold normalizeTextField m texts = Ok m' <-> Forall2 (converted texts) m m'.
Proof.
  induction 1 as [|f texts Hf _ IH]; intros m m' Hnd; cbn.
  - rewrite converted_refl by (intros ? ? []%not_elem_of_nil). split; congruence.
  - rewrite rbind_ok. split.
    + intros (m1 & H1 & H2). apply normalizeTextField_converted in H1; [|done].
      apply (converted_compose f texts m m1); [done|done|]. apply IH; [|done].
      by rewrite (converted_keys _ _ _ H1).
    + intros H. assert (exists m1, Forall2 (converted [f]) m m1) as [m1 H1].
      { clear - H Hf. induction H as [|[k v] [k' v'] m m' [Ha Hb] _ [m1 IH]]; [by exists []|].
        cbn in Ha, Hb. destruct (decide (k = f)) as [->|Hk].
        - rewrite bool_decide_true in Hb by elem. exists ((f, v') :: m1). constructor; [|done].
          split; cbn; [done|]. by rewrite bool_decide_true by elem.
        - exists ((k, v) :: m1). constructor; [|done]. split; cbn; [done|]. by rewrite bool_decide_false by elem. }
      exists m1. split; [by apply normalizeTextField_converted|]. apply IH; [by rewrite (converted_keys _ _ _ H1)|].
      by apply (converted_compose f texts m m1).
Qed.

(** A text is read as the value at its place, and converted. *)
Lemma text_value levels data budget v' rest budget' :
  readNativeCompactQueryText data budget = Ok (v', rest, budget') <->
  exists v, decodeNativeValueBudget (S levels) data budget = Ok (v, rest, budget') /\ text_of v = Ok v'.
Proof.
  assert (forall (r : result decError (val * gstr * Z)) e,
    (forall v rest' b', r = Ok (v, rest', b') -> text_of v = Err e) ->
    (@Err queryError (val * gstr * Z) QueryText = Ok (v', rest, budget') <->
     exists v, r = Ok (v, rest, budget') /\ text_of v = Ok v')) as Hno.
  { intros r e Hr. split; [done|]. intros (v & Hv & Ht). apply Hr in Hv. congruence. }
  destruct data as [|tag data]; [split; [done|by intros (? & ? & _)]|].
  cbn [readNativeCompactQueryText decodeNativeValueBudget].
  destruct (budget - 1 <? 0); [split; [done|by intros (? & ? & _)]|].
  destruct tag; try (apply (Hno _ QueryText); intros ? ? ? H;
    repeat (destruct (_ <? _) in H; [done|]); inv_result; repeat (destruct (_ <? _) in H; [done|]); inv_result; by simplify_eq).
  - split; [intros [= <- <- <-]; by exists VNil|]. by intros (v & [= <- <- <-] & [= <-]).
  - destruct (blen data <? 4); [split; [done|by intros (? & ? & _)]|].
    destruct (blen (bdrop 4 data) <? _); [split; [done|by intros (? & ? & _)]|].
    set (s := btake _ _). split.
    + intros H. exists (VBytes s). cbn [text_of]. destruct (_ || _); [done|]. injection H as <- <- <-. done.
    + intros (v & [= <- <- <-] & Ht). cbn [text_of] in Ht. destruct (_ || _); [done|]. by injection Ht as <-.
Qed.

Lemma readQueryValue_ok data budget r :
  readQueryValue data budget = Ok r <-> decodeNativeValueBudget (S 64) data budget = Ok r.
Proof.
  unfold readQueryValue, decodeField. change (Z.to_nat (nativeMaxDecodeDepth + 1)) with (S 64).
  destruct (decodeNativeValueBudget (S 64) data budget); split; congruence.
Qed.

Lemma readQueryText_ok data budget v' rest budget' :
  readNativeCompactQueryText data budget = Ok (v', rest, budget') <->
  exists v, readQueryValue data budget = Ok (v, rest, budget') /\ text_of v = Ok v'.
Proof.
  rewrite (text_value 64). split; intros (v & H1 & H2); exists v; (split; [by apply readQueryValue_ok|done]).
Qed.

Definition typedReader (index : nat) : gstr -> Z -> result queryError (val * gstr * Z) :=
  if nativeCompactQueryRecordTextField index then readNativeCompactQueryText else readQueryValue.

Lemma readFields_typed fields : forall index bitmap data budget record' rest budget',
  (forall j f, fields !! j = Some f ->
    nativeCompactQueryRecordTextField (index + j) = bool_decide (f ∈ flowQueryRecordTextFields)) ->
  readFields typedReader fields index bitmap data budget = Ok (record', rest, budget') <->
  exists record, readFields (fun _ => readQueryValue) fields index bitmap data budget = Ok (record, rest, budget') /\
    Forall2 (converted flowQueryRecordTextFields) record record'.
Proof.
  induction fields as [|f fields IH]; intros index bitmap data budget record' rest budget' Hf; cbn [readFields].
  - split; [intros [= <- <- <-]; by exists []|]. intros (r & [= <- <- <-] & H). by inversion H.
  - assert (forall j g, fields !! j = Some g ->
      nativeCompactQueryRecordTextField (S index + j) = bool_decide (g ∈ flowQueryRecordTextFields)) as Hf'.
    { intros j g Hj. rewrite <- (Hf (S j) g Hj). f_equal. lia. }
    specialize (Hf 0%nat f eq_refl). rewrite Nat.add_0_r in Hf.
    destruct (negb _); [by apply IH|]. rewrite rbind_ok. setoid_rewrite rbind_ok.
    assert (forall v' rest1 b1, typedReader index data budget = Ok (v', rest1, b1) <->
      exists v, readQueryValue data budget = Ok (v, rest1, b1) /\ converted flowQueryRecordTextFields (f, v) (f, v')) as Hread.
    { intros. unfold typedReader, converted. cbn. rewrite Hf. case_bool_decide as Hin.
      - rewrite readQueryText_ok. split; [intros (v & ? & ?); by exists v|]. intros (v & ? & _ & ?). by exists v.
      - split; [intros; eexists; split; [eassumption|done]|]. by intros (v & ? & _ & ->). }
    split.
    + intros ([[v' rest1] b1] & Hv & H). apply Hread in Hv as (v & Hv & Hc).
      apply rbind_ok in H as ([[r' rest2] b2] & Hr & [= <- <- <-]). apply IH in Hr as (r & Hr & Hrc); [|done].
      exists ((f, v) :: r). split; [|by constructor]. exists (v, rest1, b1). split; [done|]. by rewrite Hr.
    + intros (record & ([[v rest1] b1] & Hv & H) & Hc). apply rbind_ok in H as ([[r rest2] b2] & Hr & [= <- <- <-]).
      inversion Hc as [|? [k v'] ? r' He Hrc]; subst. assert (k = f) as -> by apply He.
      exists (v', rest1, b1). split; [apply Hread; by exists v|].
      assert (exists r, readFields (fun _ => readQueryValue) fields (S index) bitmap rest1 b1 = Ok (r, rest2, b2) /\
        Forall2 (converted flowQueryRecordTextFields) r r') as Hx by eauto.
      apply IH in Hx; [|done]. by rewrite Hx.
Qed.

Lemma readFields_inv fields : forall index bitmap data budget record rest budget',
  readFields (fun _ => readQueryValue) fields index bitmap data budget = Ok (record, rest, budget') ->
  keys record `sublist_of` fields /\ forallb (fun kv => wire_value kv.2) record = true.
Proof.
  induction fields as [|f fields IH]; intros index bitmap data budget record rest budget'; cbn [readFields].
  - intros [= <- _ _]. split; [constructor|done].
  - destruct (negb _); intros H.
    + apply IH in H as [Hk Hw]. split; [by constructor|done].
    + apply rbind_ok in H as ([[v rest1] b1] & Hv & H). apply rbind_ok in H as ([[r rest2] b2] & Hr & [= <- _ _]).
      apply IH in Hr as [Hk Hw]. apply readQueryValue_ok, decodeNativeValueBudget_sound in Hv as (_ & Hv & _).
      split; [by constructor|]. cbn. by rewrite Hv, Hw.
Qed.

Definition text_record (record record' : mapping) : Prop :=
  rfold normalizeTextField record flowQueryRecordTextFields = Ok record'.

Lemma NoDup_record_fields : NoDup nativeCompactQueryRecordFields.
Proof. apply (bool_decide_unpack _). vm_compute. exact I. Qed.

Lemma NoDup_text_fields : NoDup flowQueryRecordTextFields.
Proof. apply (bool_decide_unpack _). vm_compute. exact I. Qed.

(** A typed record is the untyped one with its texts read. *)
Lemma readRecord_typed data budget record' rest budget' :
  readNativeCompactQueryRecordTyped data budget = Ok (record', rest, budget') <->
  exists record, readNativeCompactQueryRecord data budget = Ok (record, rest, budget') /\ text_record record record'.
Proof.
  unfold readNativeCompactQueryRecordTyped, readNativeCompactQueryRecord, readRecord.
  destruct (blen data <? 4); [split; [done|by intros (? & ? & _)]|].
  destruct (negb _); [split; [done|by intros (? & ? & _)]|].
  change (fun index => if nativeCompactQueryRecordTextField index then _ else _) with typedReader.
  rewrite readFields_typed.
  2:{ intros j f Hj. cbn [Nat.add]. do 20 (destruct j as [|j]; [injection Hj as <-; reflexivity|]). done. }
  apply exist_proper. intros record. split; intros [Hr Hc]; (split; [exact Hr|]);
    pose proof (readFields_inv _ _ _ _ _ _ _ _ Hr) as [Hk _];
    pose proof (sublist_NoDup _ _ NoDup_record_fields Hk) as Hnd;
    by apply (normalizeTexts_converted _ NoDup_text_fields).
Qed.

Lemma readRecord_inv data budget record rest budget' :
  readNativeCompactQueryRecord data budget = Ok (record, rest, budget') ->
  forallb (fun kv => wire_value kv.2) record = true.
Proof.
  unfold readNativeCompactQueryRecord, readRecord. destruct (blen data <? 4); [done|]. destruct (negb _); [done|].
  intros H. by apply readFields_inv in H as [_ H].
Qed.

Lemma readRecords_typed count : forall data budget records' rest budget',
  readMany readNativeCompactQueryRecordTyped count data budget = Ok (records', rest, budget') <->
  exists records, readMany readNativeCompactQueryRecord count data budget = Ok (records, rest, budget') /\
    Forall2 text_record records records'.
Proof.
  induction count as [|count IH]; intros data budget records' rest budget'; cbn [readMany].
  - split; [intros [= <- <- <-]; by exists []|]. intros (r & [= <- <- <-] & H). by inversion H.
  - rewrite rbind_ok. setoid_rewrite rbind_ok. split.
    + intros ([[r' rest1] b1] & Hr & H). apply readRecord_typed in Hr as (r & Hr & Ht).
      apply rbind_ok in H as ([[l' rest2] b2] & Hl & [= <- <- <-]). apply IH in Hl as (l & Hl & Htl).
      exists (r :: l). split; [|by constructor]. exists (r, rest1, b1). split; [done|]. by rewrite Hl.
    + intros (records & ([[r rest1] b1] & Hr & H) & Ht). apply rbind_ok in H as ([[l rest2] b2] & Hl & [= <- <- <-]).
      inversion Ht as [|? r' ? l' Htr Htl]; subst. exists (r', rest1, b1).
      split; [apply readRecord_typed; by exists r|].
      assert (readMany readNativeCompactQueryRecordTyped count rest1 b1 = Ok (l', rest2, b2)) as -> by (apply IH; by exists l).
      done.
Qed.

Lemma readRecords_inv count : forall data budget records rest budget',
  readMany readNativeCompactQueryRecord count data budget = Ok (records, rest, budget') ->
  length records = count /\ Forall (fun r => forallb (fun kv => wire_value kv.2) r = true) records.
Proof.
  induction count as [|count IH]; intros data budget records rest budget'; cbn [readMany].
  - by intros [= <- _ _].
  - intros H. apply rbind_ok in H as ([[r rest1] b1] & Hr & H). apply rbind_ok in H as ([[l rest2] b2] & Hl & [= <- _ _]).
    apply readRecord_inv in Hr. apply IH in Hl as [<- Hl]. split; [done|]. by constructor.
Qed.

(** ** The envelope *)

Lemma readQuality_inv values : forall data l rest, readQuality values data = Ok (l, rest) ->
  Forall2 (fun v row => v ∈ row /\ v <> []) l values.
Proof.
  induction values as [|row values IH]; intros data l rest; cbn [readQuality]; [intros [= <- _]; constructor|].
  destruct data as [|code data]; [done|]. destruct (_ || _) eqn:E; [done|]. z_tests. intros Hr.
  apply rbind_ok in Hr as ([l' rest'] & Hl & [= <- <-]). constructor; [|by eapply IH]. split; [|done].
  destruct (row !! Z.to_nat (byteZ code)) eqn:Hr; [by eapply list_elem_of_lookup_2|done].
Qed.

Lemma readUsage_inv {A} (fields : list A) : forall data l rest, readUsage fields data = Ok (l, rest) ->
  Forall2 (fun z _ => 0 <= z <= max_int64) l fields.
Proof.
  induction fields as [|f fields IH]; intros data l rest; cbn [readUsage]; [intros [= <- _]; constructor|]. intros H.
  apply rbind_ok in H as ([z rest1] & Hz & H). apply rbind_ok in H as ([l' rest2] & Hl & [= <- <-]).
  constructor; [|by eapply IH]. unfold readNativeCompactQueryU64 in Hz. destruct (blen data <? 8); [done|].
  destruct (max_int64 <? _) eqn:E; [done|]. injection Hz as <- _. z_tests.
  split; [|done]. apply be_decode_range.
Qed.

(** What a header guarantees of its fields. *)
Record header_ok (h : nativeCompactQueryHeader) : Prop := {
  quality_ok : Forall2 (fun v row => v ∈ row /\ v <> []) (h_quality h) nativeCompactQueryQualityValues;
  usage_ok : Forall2 (fun z _ => 0 <= z <= max_int64) (h_usage h) nativeCompactQueryUsageFields;
}.

Lemma header_inv data h : readNativeCompactQueryHeader data = Ok h -> header_ok h.
Proof.
  unfold readNativeCompactQueryHeader. destruct data as [|marker [|k rest]]; [done..|]. destruct (_ || _); [done|].
  intros H. apply rbind_ok in H as ([q r1] & Hq & H). apply rbind_ok in H as ([u r2] & Hu & [= <-]).
  constructor; cbn; [by eapply readQuality_inv|by eapply readUsage_inv].
Qed.

(** The header's words are words the response decoder accepts. *)
Definition quality_word (name v : gstr) : bool :=
  bool_decide (v = []) ||
  (utf8_valid v && negb (flowQueryMaxQualityBytes <? blen v) && validFlowQueryQuality name v).

Lemma quality_words :
  forallb (fun nr => forallb (quality_word nr.1) nr.2)
    (zip nativeCompactQueryQualityFields nativeCompactQueryQualityValues) = true.
Proof. vm_compute. reflexivity. Qed.

Lemma qualityField_ok m name row v :
  field_of name m = VBytes v -> v ∈ row -> v <> [] -> forallb (quality_word name) row = true ->
  qualityField m name = Ok v.
Proof.
  intros Hf Hin Hne Hw. rewrite forallb_forall in Hw. apply list_elem_of_In, Hw in Hin.
  unfold quality_word in Hin. rewrite bool_decide_false in Hin by done. cbn [orb] in Hin. z_tests.
  unfold qualityField, requiredFlowQueryStringField. rewrite Hf. cbn [flowQueryResponseString].
  rename select (utf8_valid v = true) into Hu. rename select (validFlowQueryQuality _ _ = true) into Hv.
  rewrite Hu. destruct v as [|b v]; [done|]. cbn [rbind]. rewrite Hv.
  by destruct (Z.ltb_spec flowQueryMaxQualityBytes (blen (b :: v))); [lia|].
Qed.

Definition header_quality (h : nativeCompactQueryHeader) : FlowQueryQuality :=
  let q i := nth i (h_quality h) [] in Quality (q 0%nat) (q 1%nat) (q 2%nat) (q 3%nat).

Lemma decode_quality h : header_ok h ->
  decodeFlowQueryQuality (VMap None (nativeCompactQueryRawQuality (h_quality h))) = Ok (header_quality h).
Proof.
  intros [Hq _]. unfold header_quality. destruct h as [k q u b]. cbn [h_quality] in *.
  pose proof quality_words as Hw. cbn [forallb zip zip_with nativeCompactQueryQualityFields nativeCompactQueryQualityValues fst snd] in Hw.
  unfold nativeCompactQueryQualityValues in Hq.
  inversion_clear Hq as [|a ? q1 ? [Ha Ha0] Hq1]. inversion_clear Hq1 as [|b' ? q2 ? [Hb Hb0] Hq2].
  inversion_clear Hq2 as [|c ? q3 ? [Hc Hc0] Hq3]. inversion_clear Hq3 as [|d ? q4 ? [Hd Hd0] Hq4]. inversion_clear Hq4.
  apply andb_true_iff in Hw as [Hwa Hw]. apply andb_true_iff in Hw as [Hwb Hw].
  apply andb_true_iff in Hw as [Hwc Hw]. apply andb_true_iff in Hw as [Hwd _].
  unfold decodeFlowQueryQuality.
  change (nativeMapOf (VMap None (nativeCompactQueryRawQuality [a; b'; c; d])))
    with (@Ok queryError mapping (nativeCompactQueryRawQuality [a; b'; c; d])).
  cbn [rbind].
  rewrite (qualityField_ok (nativeCompactQueryRawQuality [a; b'; c; d]) (go "exactness") _ a eq_refl Ha Ha0 Hwa). cbn [rbind].
  rewrite (qualityField_ok (nativeCompactQueryRawQuality [a; b'; c; d]) (go "freshness") _ b' eq_refl Hb Hb0 Hwb). cbn [rbind].
  rewrite (qualityField_ok (nativeCompactQueryRawQuality [a; b'; c; d]) (go "coverage") _ c eq_refl Hc Hc0 Hwc). cbn [rbind].
  rewrite (qualityField_ok (nativeCompactQueryRawQuality [a; b'; c; d]) (go "pagination") _ d eq_refl Hd Hd0 Hwd). done.
Qed.

Lemma Forall2_const_l {A B} (P : A -> Prop) (l : list A) (k : list B) :
  Forall2 (fun a _ => P a) l k -> Forall P l /\ length l = length k.
Proof. induction 1 as [|a b l k Ha _ [IH1 IH2]]; [done|]. split; [by constructor|]. cbn. by rewrite IH2. Qed.

Lemma usageField_ok m name z : assoc_get name m = Some (VInt IInt64 z) -> 0 <= z <= max_int64 -> usageField m name = Ok z.
Proof.
  intros Hf Hz. unfold usageField. rewrite Hf. unfold nonNegativeResponseInteger, flowQueryUint64.
  destruct (Z.leb_spec 0 z); [|lia]. by destruct (Z.ltb_spec max_int64 z); [lia|].
Qed.

Lemma decode_usage h : header_ok h ->
  decodeFlowQueryUsage (VMap None (nativeCompactQueryRawUsage (h_usage h))) =
  let! _ := validateFlowQueryUsageCounters (flowQueryUsageFromCompact (h_usage h)) in
  Ok (flowQueryUsageFromCompact (h_usage h)).
Proof.
  intros [_ Hu]. destruct h as [k q u b]. cbn [h_usage] in *. apply Forall2_const_l in Hu as [Hu Hl]. cbn in Hl.
  do 11 (destruct u as [|? u]; [done|]). destruct u; [|done]. repeat (apply Forall_cons in Hu as [? Hu]). clear Hl Hu.
  unfold decodeFlowQueryUsage.
  match goal with |- context [flowQueryUsageFromCompact ?u] => set (values := u) end.
  change (nativeMapOf (VMap None (nativeCompactQueryRawUsage values)))
    with (@Ok queryError mapping (nativeCompactQueryRawUsage values)). cbn [rbind].
  assert (rmapM (usageField (nativeCompactQueryRawUsage values)) nativeCompactQueryUsageFields = Ok values) as ->; [|done].
  apply rmapM_ok. unfold values, nativeCompactQueryUsageFields.
  repeat (constructor; [apply usageField_ok; [reflexivity|assumption]|]). constructor.
Qed.

Lemma decode_page data cursor rest : readNativeCompactQueryPageData data = Ok (cursor, rest) ->
  decodeFlowQueryPage (VMap None (raw_page cursor)) = Ok (typedNativeCompactQueryPage cursor).1.
Proof.
  unfold readNativeCompactQueryPageData. destruct data as [|more data]; [done|]. destruct (_ <? 5); [done|].
  destruct (_ && _); [intros [= <- <-]; reflexivity|]. destruct (_ || _) eqn:Es; [done|]. z_tests.
  destruct (_ || _) eqn:Ec; [done|]. z_tests. intros [= <- <-]. unfold decodeFlowQueryPage.
  set (c := btake (be_decode (btake 4 data)) (bdrop 4 data)) in *.
  change (nativeMapOf (VMap None (raw_page (Some c)))) with (@Ok queryError mapping (raw_page (Some c))). cbn [rbind].
  change (field_of (go "has_more") (raw_page (Some c))) with (VBool true). cbn iota.
  change (field_of (go "cursor") (raw_page (Some c))) with (VBytes c). cbn [flowQueryResponseString].
  rename select (utf8_valid c = true) into Hu. rewrite Hu.
  assert (blen c = be_decode (btake 4 data)) as Hb.
  { apply blen_btake. split; [apply be_decode_range|lia]. }
  unfold nativeCompactQueryMinCursorBytes, nativeCompactQueryMaxCursorBytes, nativeCompactQueryCursorPrefix in *.
  destruct (Z.ltb_spec (blen c) 16); [lia|]. destruct (Z.ltb_spec 4096 (blen c)); [lia|]. cbn [orb].
  rewrite bool_decide_true by done. cbn [negb rbind]. rewrite bool_decide_false; [done|].
  clearbody c. intros ->. change (blen []) with 0 in *. lia.
Qed.

Lemma recordMaps_ok records records' : blen records <= flowQueryMaxResponseRecords ->
  flowQueryRecordMaps (VArray None (VMap None <$> records)) = Ok records' <-> Forall2 text_record records records'.
Proof.
  intros Hl. unfold flowQueryRecordMaps. rewrite blen_fmap.
  destruct (Z.ltb_spec flowQueryMaxResponseRecords (blen records)); [lia|].
  rewrite rmapM_ok, Forall2_fmap_l. done.
Qed.

(** ** The two codecs agree *)

Definition wire_record (r : mapping) : Prop := forallb (fun kv => wire_value kv.2) r = true.

Lemma plain_records records : Forall wire_record records ->
  plain false (VArray None (VMap None <$> records)) = VArray None (VMap None <$> records).
Proof.
  intros H. cbn [plain]. f_equal. rewrite <- list_fmap_compose. induction H as [|r records Hr _ IH]; [done|].
  cbn. f_equal; [|exact IH]. f_equal. unfold wire_record in Hr. rewrite forallb_forall in Hr.
  rewrite <- (list_fmap_id r) at 2. apply list_fmap_ext. intros i [k v] Hv.
  specialize (Hr (k, v) ltac:(apply list_elem_of_In; by eapply list_elem_of_lookup_2)). cbn in *.
  unfold prod_map. cbn. f_equal. by apply plain_wire.
Qed.

Lemma plain_quality l : plain false (VMap None (nativeCompactQueryRawQuality l)) = VMap None (nativeCompactQueryRawQuality l).
Proof.
  cbn [plain]. f_equal. unfold nativeCompactQueryRawQuality. generalize nativeCompactQueryQualityFields.
  induction l as [|v l IH]; intros [|f fs]; try done. cbn. f_equal. apply IH.
Qed.

Lemma plain_usage l : plain false (VMap None (nativeCompactQueryRawUsage l)) = VMap None (nativeCompactQueryRawUsage l).
Proof.
  cbn [plain]. f_equal. unfold nativeCompactQueryRawUsage. generalize nativeCompactQueryUsageFields.
  induction l as [|v l IH]; intros [|f fs]; try done. cbn. f_equal. apply IH.
Qed.

(** The normaliser hands the envelope on as it is. *)
Lemma envelope_copied h tail m' :
  prod_map id (plain false) <$> tail = tail ->
  nativeMap (VMap None (raw_envelope h ++ tail)) = Ok m' -> m' = raw_envelope h ++ tail.
Proof.
  intros Ht H%nativeMap_sound. rewrite H, fmap_app, Ht. f_equal. unfold raw_envelope. cbn [fmap list_fmap].
  unfold prod_map. cbn [fst snd id]. rewrite plain_quality, plain_usage. done.
Qed.

(** What the response decoder makes of the untyped map of a page. *)
Lemma decode_records h cursor data rest records : header_ok h ->
  validateFlowQueryUsageCounters (flowQueryUsageFromCompact (h_usage h)) = Ok tt ->
  readNativeCompactQueryPageData data = Ok (cursor, rest) ->
  blen records <= flowQueryMaxResponseRecords ->
  let raw := raw_envelope h ++ [(go "records", VArray None (VMap None <$> records)); (go "page", VMap None (raw_page cursor))] in
  forall r, decodeFlowQueryMapping raw = Ok r <->
  exists records', Forall2 text_record records records' /\
    validateFlowQueryRecordUsage (flowQueryUsageFromCompact (h_usage h)) (blen records) = Ok tt /\
    r = QueryResult flowQueryResultContract (Some records') (Some (typedNativeCompactQueryPage cursor).1) None
          (header_quality h) (flowQueryUsageFromCompact (h_usage h))
          (raw_envelope h ++ [(go "records", VArray None (VMap None <$> records')); (go "page", VMap None (raw_page cursor))]).
Proof.
  intros Hh Hu Hpage Hl raw r. unfold decodeFlowQueryMapping.
  change (requiredFlowQueryStringField raw (go "version")) with (@Ok queryError gstr flowQueryResultContract). cbn [rbind].
  rewrite bool_decide_true by done. cbn [negb].
  change (field_of (go "quality") raw) with (VMap None (nativeCompactQueryRawQuality (h_quality h))).
  rewrite decode_quality by done. cbn [rbind].
  change (field_of (go "usage") raw) with (VMap None (nativeCompactQueryRawUsage (h_usage h))).
  rewrite decode_usage, Hu by done. cbn [rbind].
  change (assoc_has (go "records") raw) with true. change (assoc_has (go "result") raw) with false. cbn [Bool.eqb].
  change (field_of (go "records") raw) with (VArray None (VMap None <$> records)).
  change (field_of (go "page") raw) with (VMap None (raw_page cursor)). rewrite (decode_page _ _ _ Hpage).
  rewrite rbind_ok. cbn [rbind]. setoid_rewrite rbind_ok.
  split.
  - intros (l & Hrec & [] & Hv & [= <-]). apply recordMaps_ok in Hrec; [|done]. exists l. split; [done|].
    unfold blen in *. rewrite <- (Forall2_length _ _ _ Hrec) in Hv. done.
  - intros (l & Hrec & Hv & ->). exists l. split; [by apply recordMaps_ok|]. exists tt.
    unfold blen in *. by rewrite <- (Forall2_length _ _ _ Hrec).
Qed.

(** And of a count. *)
Lemma decode_count h count : header_ok h ->
  validateFlowQueryUsageCounters (flowQueryUsageFromCompact (h_usage h)) = Ok tt -> 0 <= count <= max_int64 ->
  let raw := raw_envelope h ++ [(go "result", count_result count)] in
  decodeFlowQueryMapping raw =
  let! _ := validateFlowQueryCountUsage (flowQueryUsageFromCompact (h_usage h)) in
  Ok (QueryResult flowQueryResultContract None None (Some count) (header_quality h) (flowQueryUsageFromCompact (h_usage h)) raw).
Proof.
  intros Hh Hu Hc raw. unfold decodeFlowQueryMapping.
  change (requiredFlowQueryStringField raw (go "version")) with (@Ok queryError gstr flowQueryResultContract). cbn [rbind].
  rewrite bool_decide_true by done. cbn [negb].
  change (field_of (go "quality") raw) with (VMap None (nativeCompactQueryRawQuality (h_quality h))).
  rewrite decode_quality by done. cbn [rbind].
  change (field_of (go "usage") raw) with (VMap None (nativeCompactQueryRawUsage (h_usage h))).
  rewrite decode_usage, Hu by done. cbn [rbind].
  change (assoc_has (go "records") raw) with false. change (assoc_has (go "result") raw) with true.
  change (assoc_has (go "page") raw) with false. cbn [Bool.eqb].
  change (field_of (go "result") raw) with (count_result count).
  set (fields := [(go "kind", VBytes (go "count")); (go "value", VInt IInt64 count)]).
  change (nativeMapOf (count_result count)) with (@Ok queryError mapping fields). cbn [rbind].
  change (requiredFlowQueryStringField fields (go "kind")) with (@Ok queryError gstr (go "count")). cbn [rbind].
  rewrite bool_decide_true by done. cbn [negb].
  change (field_of (go "value") fields) with (VInt IInt64 count). unfold nonNegativeResponseInteger, flowQueryUint64.
  destruct (Z.leb_spec 0 count); [|lia]. by destruct (Z.ltb_spec max_int64 count); [lia|].
Qed.

Lemma recordCount_range data count rest : readRecordCount data = Ok (count, rest) -> 0 <= count <= flowQueryMaxResponseRecords.
Proof.
  unfold readRecordCount. destruct (blen data <? 4); [done|].
  destruct (nativeCompactQueryMaxRecords <? _) eqn:E; [done|]. intros [= <- _]. z_tests. split; [apply be_decode_range|done].
Qed.

Lemma readU64_range data z rest : readNativeCompactQueryU64 data = Ok (z, rest) -> 0 <= z <= max_int64.
Proof.
  intros H. assert (readUsage [tt] data = Ok ([z], rest)) as Hu by (cbn; by rewrite H).
  apply readUsage_inv in Hu. by inversion Hu.
Qed.

(** The map of a payload is one the normaliser copies as it is, when it accepts it. *)
Lemma raw_copied data m m' :
  decodeNativeCompactFlowQueryResult data = Ok m -> nativeMap (VMap None m) = Ok m' -> m' = m.
Proof.
  unfold decodeNativeCompactFlowQueryResult. intros H Hm. apply rbind_ok in H as (h & _ & H).
  apply rbind_ok in H as ([] & _ & H). apply rbind_ok in H as ([raw rest] & H & Hend).
  apply rbind_ok in Hend as ([] & _ & [= <-]). destruct (kind h); try done.
  - apply rbind_ok in H as ([page rest1] & Hp & H). apply rbind_ok in H as ([count rest2] & _ & H).
    apply rbind_ok in H as ([] & _ & H). apply rbind_ok in H as (budget & _ & H).
    apply rbind_ok in H as ([[records rest3] b3] & Hr & [= <- <-]). apply readRecords_inv in Hr as [_ Hw].
    unfold readNativeCompactQueryPage in Hp. apply rbind_ok in Hp as ([cursor rest4] & _ & [= <- <-]).
    eapply envelope_copied; [|exact Hm]. cbn [fmap list_fmap]. unfold prod_map. cbn [fst snd id].
    rewrite plain_records by done. by destruct cursor.
  - apply rbind_ok in H as ([] & _ & H). apply rbind_ok in H as ([count rest1] & _ & [= <- <-]).
    by eapply envelope_copied; [|exact Hm].
Qed.

(** C28: the codec for typed callers returns exactly the results that the untyped
    codec followed by the native client's response decoder returns; and the same map
    from another executor, which is copied by the normaliser first, decodes alike
    when the normaliser's limits admit it. *)
Theorem query_codecs_agree data :
  (forall r, decodeNativeCompactFlowQueryResultTyped data = Ok r <->
    exists m, decodeNativeCompactFlowQueryResult data = Ok m /\
      decodeFlowQueryResult (ownResponse (Native (VMap None m))) = Ok r) /\
  (forall m, decodeNativeCompactFlowQueryResult data = Ok m -> is_ok (nativeMap (VMap None m)) = true ->
    decodeFlowQueryResult (Native (VMap None m)) = decodeFlowQueryResult (ownResponse (Native (VMap None m)))).
Proof.
  split.
  2:{ intros m H Hm. cbn. unfold nativeMapOf. destruct (nativeMap (VMap None m)) as [m'|] eqn:E; [|done].
      by rewrite (raw_copied _ _ _ H E). }
  intros r. cbn [ownResponse decodeFlowQueryResult flowQueryResponseMap rbind].
  unfold decodeNativeCompactFlowQueryResultTyped, decodeNativeCompactFlowQueryResult.
  destruct (readNativeCompactQueryHeader data) as [h|] eqn:Hh; [|by split; [|intros (? & ? & _)]].
  apply header_inv in Hh. cbn [rbind].
  destruct (validateFlowQueryUsageCounters _) as [[]|] eqn:Hu; [|by split; [|intros (? & ? & _)]]. cbn [rbind].
  destruct (kind h); try by (split; [|intros (? & ? & _)]).
  - destruct (readNativeCompactQueryPageData (body h)) as [[cursor rest]|] eqn:Hp;
      unfold readNativeCompactQueryPage; rewrite Hp; [|by split; [|intros (? & ? & _)]].
    cbn [rbind typedNativeCompactQueryPage].
    destruct (readRecordCount rest) as [[count rest1]|] eqn:Hc; [|by split; [|intros (? & ? & _)]]. cbn [rbind].
    apply recordCount_range in Hc. destruct (recordBudget count) as [budget|] eqn:Hb; cbn [rbind].
    2:{ split; [done|]. intros (m & H & _). by destruct (validateFlowQueryRecordUsage _ _). }
    assert (forall records rest2 b2, readMany readNativeCompactQueryRecord (Z.to_nat count) rest1 budget = Ok (records, rest2, b2) ->
      blen records = count) as Hinv.
    { intros records rest2 b2 H. apply readRecords_inv in H as [Hl _]. unfold blen. lia. }
    split.
    + intros H. apply rbind_ok in H as ([r' rest2] & H & Hend).
      apply rbind_ok in H as ([[records' rest3] b3] & Hr & H). apply rbind_ok in H as ([] & Hv & [= <- <-]).
      apply rbind_ok in Hend as ([] & Hend & [= <-]). apply readRecords_typed in Hr as (records & Hr & Ht).
      pose proof (Hinv _ _ _ Hr) as Hl. rewrite Hv, Hr. cbn [rbind]. rewrite Hend. cbn [rbind].
      eexists; split; [reflexivity|]. eapply decode_records; try done; [lia|]. exists records'. by rewrite Hl.
    + intros (m & H & Hdec). apply rbind_ok in H as ([m0 rest2] & H & Hend). apply rbind_ok in H as ([] & Hv & H).
      apply rbind_ok in H as ([[records rest3] b3] & Hr & [= <- <-]). apply rbind_ok in Hend as ([] & Hend & [= <-]).
      pose proof (Hinv _ _ _ Hr) as Hl.
      eapply decode_records in Hdec as (records' & Ht & _ & ->); try done; [|lia].
      assert (readMany readNativeCompactQueryRecordTyped (Z.to_nat count) rest1 budget = Ok (records', rest3, b3)) as ->
        by (apply readRecords_typed; by exists records).
      cbn [rbind]. rewrite Hv. cbn [rbind]. by rewrite Hend.
  - destruct (readNativeCompactQueryU64 (body h)) as [[count rest]|] eqn:Hc; cbn [rbind].
    2:{ split; [done|]. intros (m & H & _). by destruct (validateFlowQueryCountUsage _). }
    pose proof (readU64_range _ _ _ Hc) as Hr. pose proof (decode_count h count Hh Hu Hr) as Hd.
    destruct (validateFlowQueryCountUsage _) as [[]|] eqn:Hv; [|by split; [|intros (? & ? & _)]]. cbn [rbind] in *.
    destruct (checkEnd _ _ _) as [[]|]; [|by split; [|intros (? & ? & _)]]. cbn [rbind]. split.
    + intros [= <-]. eexists; split; [reflexivity|exact Hd].
    + intros (m & [= <-] & Hdec). exact (eq_trans (eq_sym Hd) Hdec).
Qed.

(** A page with one record. *)
Definition example_query : gstr :=
  [xa0; x00; x00; x00; x00; x02] ++ concat (be_encode 8 <$> [0; 0; 1; 0; 1; 0; 0; 1; 113; 0; 0]) ++
  [x00; xff; xff; xff; xff; x00; x00; x00; x01; x00; x00; x00; x01; x04; x00; x00; x00; x01; x6a].

Example example_query_decoded :
  Records <$> match decodeNativeCompactFlowQueryResultTyped example_query with Ok r => Some r | Err _ => None end =
    Some (Some [[(go "id", VString (go "j"))]]) /\
  match decodeNativeCompactFlowQueryResult example_query with
  | Ok m => decodeFlowQueryResult (ownResponse (Native (VMap None m))) = decodeNativeCompactFlowQueryResultTyped example_query
  | Err _ => False
  end.
Proof. vm_compute. split; reflexivity. Qed.
