(* ===== verification/FlowExplain.v ===== *)
(** FLOW.QUERY diagnostics and explanations (src/flow_query_response.go,
    src/flow_query_diagnostic_contract.go, src/flow_query_explain_response.go): the
    contract of an explained plan and of the diagnostic a query is refused with. *)

From S2P Require Export FlowQuery.

Definition flowQueryDiagnosticTextBytes : Z := 1024.
Definition flowQueryDiagnosticContextEntries : Z := 16.
Definition flowQueryDiagnosticContextItems : Z := 32.
Definition flowQueryDiagnosticContextKeyBytes : Z := 128.
Definition flowQueryDiagnosticContextDepth : nat := 6.
Definition flowQueryDiagnosticContextNodes : Z := 512.

(** ** Diagnostics *)

Definition requiredFlowQueryDiagnosticText (m : mapping) (key : gstr) : result queryError gstr :=
  match requiredFlowQueryStringField m key with
  | Ok value => if flowQueryDiagnosticTextBytes <? blen value then Err QueryDiagnostic else Ok value
  | Err _ => Err QueryDiagnostic
  end.

Definition optionalFlowQueryDiagnosticText (m : mapping) (key : gstr) : result queryError gstr :=
  match field_of key m with
  | VNil => Ok []
  | raw =>
      match flowQueryResponseString raw with
      | Some value => if flowQueryDiagnosticTextBytes <? blen value then Err QueryDiagnostic else Ok value
      | None => Err QueryDiagnostic
      end
  end.

(** [validateFlowQueryDiagnosticContextValue]; the nodes left are threaded through. *)
Fixpoint validateFlowQueryDiagnosticContextValue (v : val) (depth : nat) (remaining : Z) : result queryError Z :=
  if remaining <=? 0 then Err QueryDiagnostic
  else
    let remaining := remaining - 1 in
    match v with
    | VNil | VBool _ | VInt _ _ => Ok remaining
    | VUint (UUint | UUint64) z => if z <=? max_int64 then Ok remaining else Err QueryDiagnostic
    | VUint _ _ => Ok remaining
    | VString s | VBytes s =>
        if utf8_valid s && (blen s <=? flowQueryDiagnosticTextBytes) then Ok remaining else Err QueryDiagnostic
    | VMap _ m =>
        match depth with
        | O => Err QueryDiagnostic
        | S depth =>
            if flowQueryDiagnosticContextEntries <? blen m then Err QueryDiagnostic
            else rfold (fun remaining kv =>
              if bool_decide (kv.1 = []) || (flowQueryDiagnosticContextKeyBytes <? blen kv.1) || negb (utf8_valid kv.1)
              then Err QueryDiagnostic
              else validateFlowQueryDiagnosticContextValue kv.2 depth remaining) remaining m
        end
    | VArray _ l =>
        match depth with
        | O => Err QueryDiagnostic
        | S depth =>
            if flowQueryDiagnosticContextItems <? blen l then Err QueryDiagnostic
            else rfold (fun remaining v => validateFlowQueryDiagnosticContextValue v depth remaining) remaining l
        end
    | VFloat _ | VDeferred _ => Err QueryDiagnostic
    end.

Definition validateFlowQueryDiagnosticContext (m : mapping) : result queryError unit :=
  if flowQueryDiagnosticContextEntries <? blen m then Err QueryDiagnostic
  else
    let! _ := validateFlowQueryDiagnosticContextValue (VMap None m) flowQueryDiagnosticContextDepth flowQueryDiagnosticContextNodes in
    Ok tt.

Record FlowQueryErrorPosition := Position { Byte : Z; Line : Z; Column : Z }.

(** The error it unwraps to is the one it was decoded for. *)
Record FlowQueryError := QueryFailure {
  Code : gstr;
  Message : gstr;
  Detail : gstr;
  Hint : gstr;
  Retryable : bool;
  SafeToRetry : bool;
  RetryAfterMS : Z;
  FailurePosition : option FlowQueryErrorPosition;
  Context_ : option mapping;
}.

Definition boolField (m : mapping) (key : gstr) : result queryError bool :=
  match field_of key m with VBool b => Ok b | _ => Err QueryDiagnostic end.

(** The optional context and position of a diagnostic. *)
Definition diagnosticContext (m : mapping) : result queryError (option mapping) :=
  match field_of (go "context") m with
  | VNil => Ok None
  | v =>
      match nativeMap v with
      | Err _ => Err QueryDiagnostic
      | Ok context => let! _ := validateFlowQueryDiagnosticContext context in Ok (Some context)
      end
  end.

Definition positiveField (m : mapping) (key : gstr) : result queryError Z :=
  match nonNegativeResponseInteger (field_of key m) with
  | Ok z => if z =? 0 then Err QueryDiagnostic else Ok z
  | Err _ => Err QueryDiagnostic
  end.

Definition diagnosticPosition (m : mapping) : result queryError (option FlowQueryErrorPosition) :=
  match field_of (go "position") m with
  | VNil => Ok None
  | v =>
      match nativeMap v with
      | Err _ => Err QueryDiagnostic
      | Ok position =>
          let! byte := positiveField position (go "byte") in
          let! line := positiveField position (go "line") in
          let! column := positiveField position (go "column") in
          Ok (Some (Position byte line column))
      end
  end.

Definition decodeFlowQueryErrorMap (m : mapping) : result queryError FlowQueryError :=
  let! code := requiredFlowQueryDiagnosticText m (go "code") in
  let! message := requiredFlowQueryDiagnosticText m (go "message") in
  let! detail := optionalFlowQueryDiagnosticText m (go "detail") in
  let! hint := optionalFlowQueryDiagnosticText m (go "hint") in
  let! retryable := boolField m (go "retryable") in
  let! safe := boolField m (go "safe_to_retry") in
  match field_of (go "retry_after_ms") m with
  | VNil => Err QueryDiagnostic
  | v =>
      let! retryAfter := nonNegativeResponseInteger v in
      let! context := diagnosticContext m in
      let! position := diagnosticPosition m in
      Ok (QueryFailure code message detail hint retryable safe retryAfter position context)
  end.

Definition decodeFlowQueryErrorPayload (v : val) : result queryError FlowQueryError :=
  let! m := nativeMapOf v in decodeFlowQueryErrorMap m.

(** ** Explanations *)

Record FlowExplainCapabilities := Capabilities {
  Requested : list gstr;
  Available : list gstr;
  Missing : list gstr;
  CapabilitiesRaw : mapping;
}.

Record FlowExplainResult := Explain {
  ExplainVersion : gstr;
  QueryFingerprint : gstr;
  Status : gstr;
  Plan : mapping;
  Estimate : mapping;
  Stats : option mapping;
  ExplainQuality : option FlowQueryQuality;
  Bounds : mapping;
  Pressure : option mapping;
  ExplainDecision : option mapping;
  Alternatives : list mapping;
  ExplainCapabilities : option FlowExplainCapabilities;
  Actual : option FlowQueryUsage;
  Diagnostic : option FlowQueryError;
  ExplainRaw : mapping;
}.

Definition requiredFlowQueryMap (m : mapping) (key : gstr) : result queryError mapping :=
  match assoc_get key m with None => Err QueryExplain | Some v => nativeMapOf v end.

Definition hexadecimal (b : byte) : bool := byte_between 48 57 b || byte_between 97 102 b || byte_between 65 70 b.

Definition validFlowQueryFingerprint (value : gstr) : bool := (blen value =? 64) && forallb hexadecimal value.

Definition decodeFlowExplainCapabilityList (v : val) : result queryError (list gstr) :=
  match v with
  | VArray _ items =>
      if 64 <? blen items then Err QueryExplain
      else rfold (fun values item =>
        match flowQueryResponseString item with
        | None => Err QueryExplain
        | Some text =>
            if bool_decide (text = []) || (128 <? blen text) || bool_decide (text ∈ values) then Err QueryExplain
            else Ok (values ++ [text])
        end) [] items
  | _ => Err QueryExplain
  end.

Definition decodeFlowExplainCapabilities (m : mapping) : result queryError (option FlowExplainCapabilities) :=
  match assoc_get (go "capabilities") m with
  | None => Ok None
  | Some v =>
      let! capabilities := nativeMapOf v in
      let! requested := decodeFlowExplainCapabilityList (field_of (go "requested") capabilities) in
      let! available := decodeFlowExplainCapabilityList (field_of (go "available") capabilities) in
      let! missing := decodeFlowExplainCapabilityList (field_of (go "missing") capabilities) in
      Ok (Some (Capabilities requested available missing capabilities))
  end.

Definition decodeFlowExplainAlternatives (v : val) : result queryError (list mapping) :=
  match v with
  | VArray _ items => if 31 <? blen items then Err QueryExplain else rmapM nativeMapOf items
  | _ => Err QueryExplain
  end.

Definition extendedFields : list gstr := [go "stats"; go "quality"; go "pressure"; go "decision"; go "alternatives"].

(** The fields an extended explanation carries, none in a specialised one. *)
Record extension := Extension {
  e_stats : option mapping;
  e_quality : option FlowQueryQuality;
  e_pressure : option mapping;
  e_decision : option mapping;
  e_alternatives : list mapping;
}.

Definition readExtension (m : mapping) (status : gstr) (capabilities : option FlowExplainCapabilities)
  : result queryError extension :=
  let hasExtended := existsb (fun f => assoc_has f m) extendedFields in
  let hasAllExtended := forallb (fun f => assoc_has f m) extendedFields in
  let hasActual := assoc_has (go "actual") m in
  let hasDiagnostic := assoc_has (go "diagnostic") m in
  let specialized := match capabilities with Some _ => negb hasExtended | None => false end in
  if specialized then
    if negb (bool_decide (status = go "planned")) then Err QueryExplain
    else if hasActual || hasDiagnostic then Err QueryExplain
    else Ok (Extension None None None None [])
  else if negb hasAllExtended || negb hasActual || negb hasDiagnostic then Err QueryExplain
  else
    let! stats := requiredFlowQueryMap m (go "stats") in
    let! quality := decodeFlowQueryQuality (field_of (go "quality") m) in
    let! pressure := requiredFlowQueryMap m (go "pressure") in
    let! decision := requiredFlowQueryMap m (go "decision") in
    let! alternatives := decodeFlowExplainAlternatives (field_of (go "alternatives") m) in
    Ok (Extension (Some stats) (Some quality) (Some pressure) (Some decision) alternatives).

(** The usage of an executed plan, and of no other. *)
Definition readActual (m : mapping) (status : gstr) : result queryError (option FlowQueryUsage) :=
  let! actual :=
    (match field_of (go "actual") m with
     | VNil => Ok None
     | v =>
         if negb (bool_decide (status = go "executed")) then Err QueryExplain
         else let! usage := decodeFlowQueryUsage v in Ok (Some usage)
     end) in
  if bool_decide (status = go "executed" /\ actual = None) then Err QueryExplain else Ok actual.

(** The diagnostic of a rejected plan, and of no other. *)
Definition readDiagnostic (m : mapping) (status : gstr) : result queryError (option FlowQueryError) :=
  let! diagnostic :=
    (match field_of (go "diagnostic") m with
     | VNil => Ok None
     | v =>
         if negb (bool_decide (status = go "rejected")) then Err QueryExplain
         else let! failure := decodeFlowQueryErrorPayload v in Ok (Some failure)
     end) in
  match diagnostic with
  | None => if bool_decide (status = go "rejected") then Err QueryExplain else Ok None
  | _ => Ok diagnostic
  end.

Definition decodeFlowExplainResult (v : val) : result queryError FlowExplainResult :=
  let! m := nativeMapOf v in
  let! version := requiredFlowQueryStringField m (go "version") in
  if negb (bool_decide (version = flowExplainContract)) then Err QueryContract
  else
    let! fingerprint := requiredFlowQueryStringField m (go "query_fingerprint") in
    if negb (validFlowQueryFingerprint fingerprint) then Err QueryExplain
    else
      let! status := requiredFlowQueryStringField m (go "status") in
      if negb (bool_decide (status ∈ [go "planned"; go "rejected"; go "executed"])) then Err QueryExplain
      else
        let! plan := requiredFlowQueryMap m (go "plan") in
        let! estimate := requiredFlowQueryMap m (go "estimate") in
        let! bounds := requiredFlowQueryMap m (go "bounds") in
        let! capabilities := decodeFlowExplainCapabilities m in
        let! x := readExtension m status capabilities in
        let! actual := readActual m status in
        let! diagnostic := readDiagnostic m status in
        Ok (Explain version fingerprint status plan estimate (e_stats x) (e_quality x) bounds (e_pressure x)
              (e_decision x) (e_alternatives x) capabilities actual diagnostic m).

(** ** What a decoded explanation guarantees *)

(** The loop over the children of a node, when each child takes its nodes. *)
Lemma rfold_nodes {A} (f : Z -> A -> result queryError Z) (g : A -> val) (d : nat) l :
  Forall (fun a => forall remaining r, f remaining a = Ok r ->
    r = remaining - nodes (g a) /\ nodes (g a) <= remaining /\ (height (g a) <= d)%nat) l ->
  forall remaining r, 0 <= remaining -> rfold f remaining l = Ok r ->
  r = remaining - zsum ((fun a => nodes (g a)) <$> l) /\ zsum ((fun a => nodes (g a)) <$> l) <= remaining /\
  (max_list_with (fun a => height (g a)) l <= d)%nat.
Proof.
  induction 1 as [|a l Ha _ IH]; intros remaining r Hr; cbn.
  - intros [= <-]. split_and!; lia.
  - intros H. apply rbind_ok in H as (r1 & H1 & H). apply Ha in H1 as (-> & Hn & Hh).
    apply IH in H as (-> & Hz & Hm); [|lia]. unfold zsum in *. split_and!; lia.
Qed.

(** A context that is accepted is within its limits, and every node is charged. *)
Lemma context_value_bounded v : forall depth remaining r,
  validateFlowQueryDiagnosticContextValue v depth remaining = Ok r ->
  r = remaining - nodes v /\ nodes v <= remaining /\ (height v <= S depth)%nat.
Proof.
  induction v as [|b|k z|k z|z|s|s|id l IH|id m IH|o IH] using val_nested_ind; intros depth remaining r;
    cbn [validateFlowQueryDiagnosticContextValue nodes height]; destruct (Z.leb_spec remaining 0); try done.
  1-3: intros [= <-]; split_and!; lia.
  - destruct k; repeat (destruct (_ <=? _)); intros H'; try done; injection H' as <-; split_and!; lia.
  - destruct (_ && _); [|done]. intros [= <-]. split_and!; lia.
  - destruct (_ && _); [|done]. intros [= <-]. split_and!; lia.
  - destruct depth as [|depth]; [done|]. destruct (_ <? _); [done|]. intros Hf.
    apply (rfold_nodes _ (fun v => v) (S depth)) in Hf as (-> & Hz & Hm); [|clear - IH|lia].
    + change (zsum ((fun a => nodes a) <$> l)) with (zsum (nodes <$> l)) in *. split_and!; try lia.
      change (max_list_with (fun a => height a) l) with (max_list_with height l) in Hm. lia.
    + eapply Forall_impl; [exact IH|]. intros v Hv remaining r H. by apply Hv in H.
  - destruct depth as [|depth]; [done|]. destruct (_ <? _); [done|]. intros Hf.
    apply (rfold_nodes _ snd (S depth)) in Hf as (-> & Hz & Hm); [|clear - IH|lia].
    + split_and!; try lia.
    + eapply Forall_impl; [exact IH|]. intros [k v] Hv remaining r H. cbn in *. destruct (_ || _); [done|]. by apply Hv in H.
Qed.

Definition context_ok (context : mapping) : Prop :=
  blen context <= flowQueryDiagnosticContextEntries /\ nodes (VMap None context) <= flowQueryDiagnosticContextNodes /\
  (height (VMap None context) <= S flowQueryDiagnosticContextDepth)%nat.

(** The capabilities of one list: texts, each once. *)
Definition capabilities_ok (l : list gstr) : Prop :=
  NoDup l /\ blen l <= 64 /\ Forall (fun text => text <> [] /\ blen text <= 128) l.

Record failure_ok (f : FlowQueryError) : Prop := {
  code_ok : Code f <> [] /\ blen (Code f) <= flowQueryDiagnosticTextBytes;
  message_ok : Message f <> [] /\ blen (Message f) <= flowQueryDiagnosticTextBytes;
  retry_ok : 0 <= RetryAfterMS f <= max_int64;
  failure_context_ok : forall context, Context_ f = Some context -> context_ok context;
  position_ok : forall p, FailurePosition f = Some p -> 0 < Byte p /\ 0 < Line p /\ 0 < Column p;
}.

Record explain_ok (r : FlowExplainResult) : Prop := {
  contract_ok : ExplainVersion r = flowExplainContract;
  fingerprint_ok : blen (QueryFingerprint r) = 64 /\ Forall (fun b => hexadecimal b = true) (QueryFingerprint r);
  executed_ok : Status r = go "executed" <-> Actual r <> None;
  rejected_ok : Status r = go "rejected" <-> Diagnostic r <> None;
  status_ok : Status r ∈ [go "planned"; go "rejected"; go "executed"];
  usage_consistent : forall u, Actual r = Some u -> validateFlowQueryUsageCounters u = Ok tt;
  diagnostic_ok : forall f, Diagnostic r = Some f -> failure_ok f;
  (* an explanation without the extended fields is a plan with capabilities *)
  specialised_ok : Stats r = None -> Status r = go "planned" /\ ExplainCapabilities r <> None /\ ExplainQuality r = None /\
    Pressure r = None /\ ExplainDecision r = None /\ Alternatives r = [];
  extended_ok : Stats r <> None -> ExplainQuality r <> None /\ Pressure r <> None /\ ExplainDecision r <> None /\
    blen (Alternatives r) <= 31;
  capability_lists_ok : forall c, ExplainCapabilities r = Some c ->
    capabilities_ok (Requested c) /\ capabilities_ok (Available c) /\ capabilities_ok (Missing c);
}.

Lemma stringField_ok m key s : requiredFlowQueryStringField m key = Ok s -> s <> [].
Proof.
  unfold requiredFlowQueryStringField. destruct (field_of key m); try done;
    (destruct (flowQueryResponseString _) as [[|b l]|]; [done| |done]); by intros [= <-].
Qed.

Lemma diagnosticText_ok m key s : requiredFlowQueryDiagnosticText m key = Ok s ->
  s <> [] /\ blen s <= flowQueryDiagnosticTextBytes.
Proof.
  unfold requiredFlowQueryDiagnosticText. destruct (requiredFlowQueryStringField m key) as [t|] eqn:E; [|done].
  apply stringField_ok in E. destruct (Z.ltb_spec flowQueryDiagnosticTextBytes (blen t)); [done|]. by intros [= <-].
Qed.

Lemma nonNegative_ok v z : nonNegativeResponseInteger v = Ok z -> 0 <= z <= max_int64.
Proof.
  unfold nonNegativeResponseInteger. destruct (flowQueryUint64 v) as [n|] eqn:E; [|done].
  destruct (Z.ltb_spec max_int64 n); [done|]. intros [= <-]. split; [|done].
  unfold flowQueryUint64 in E. destruct v; try done.
  - destruct (Z.leb_spec 0 z); [|done]. by injection E as <-.
  - injection E as <-. by apply wrap_range.
Qed.

Lemma context_accepted context : validateFlowQueryDiagnosticContext context = Ok tt -> context_ok context.
Proof.
  unfold validateFlowQueryDiagnosticContext. destruct (Z.ltb_spec flowQueryDiagnosticContextEntries (blen context)); [done|].
  intros H'. apply rbind_ok in H' as (r & Hv & _). apply context_value_bounded in Hv as (_ & Hn & Hh). done.
Qed.

Lemma diagnosticContext_ok m context : diagnosticContext m = Ok (Some context) -> context_ok context.
Proof.
  unfold diagnosticContext. destruct (field_of (go "context") m); try done;
    (destruct (nativeMap _) as [c|]; [|done]; intros H; apply rbind_ok in H as ([] & Hv & [= <-]); by apply context_accepted).
Qed.

Lemma positive_ok m key z : positiveField m key = Ok z -> 0 < z.
Proof.
  unfold positiveField. destruct (nonNegativeResponseInteger _) as [n|] eqn:E; [|done]. apply nonNegative_ok in E.
  destruct (Z.eqb_spec n 0); [done|]. intros [= <-]. lia.
Qed.

Lemma diagnosticPosition_ok m p : diagnosticPosition m = Ok (Some p) -> 0 < Byte p /\ 0 < Line p /\ 0 < Column p.
Proof.
  unfold diagnosticPosition. destruct (field_of (go "position") m); try done;
    (destruct (nativeMap _) as [c|]; [|done]; intros H; apply rbind_ok in H as (bt & Hb & H);
     apply rbind_ok in H as (ln & Hl & H); apply rbind_ok in H as (cl & Hk & [= <-]); cbn; split_and!; by eapply positive_ok).
Qed.

Lemma failure_decoded m f : decodeFlowQueryErrorMap m = Ok f -> failure_ok f.
Proof.
  unfold decodeFlowQueryErrorMap. intros H.
  apply rbind_ok in H as (code & Hcode & H). apply rbind_ok in H as (message & Hmessage & H).
  apply rbind_ok in H as (detail & _ & H). apply rbind_ok in H as (hint & _ & H).
  apply rbind_ok in H as (retryable & _ & H). apply rbind_ok in H as (safe & _ & H).
  apply diagnosticText_ok in Hcode, Hmessage.
  assert (exists after context position, nonNegativeResponseInteger (field_of (go "retry_after_ms") m) = Ok after /\
    diagnosticContext m = Ok context /\ diagnosticPosition m = Ok position /\
    f = QueryFailure code message detail hint retryable safe after position context) as (after & context & position & Ha & Hc & Hp & ->).
  { destruct (field_of (go "retry_after_ms") m); try done;
      (apply rbind_ok in H as (after & Ha & H); apply rbind_ok in H as (context & Hc & H);
       apply rbind_ok in H as (position & Hp & [= <-]); by exists after, context, position). }
  constructor; cbn; try done.
  - by eapply nonNegative_ok.
  - intros c ->. by eapply diagnosticContext_ok.
  - intros p ->. by eapply diagnosticPosition_ok.
Qed.

(** ** Capabilities *)

Lemma capabilityList_ok v l : decodeFlowExplainCapabilityList v = Ok l -> capabilities_ok l.
Proof.
  unfold decodeFlowExplainCapabilityList. destruct v as [| | | | | | |id items| |]; try done.
  destruct (Z.ltb_spec 64 (blen items)) as [|Hl]; [done|]. intros H.
  assert (forall values l, rfold (fun values item => match flowQueryResponseString item with
      | None => Err QueryExplain
      | Some text => if bool_decide (text = []) || (128 <? blen text) || bool_decide (text ∈ values) then Err QueryExplain
                     else Ok (values ++ [text]) end) values items = Ok l ->
    NoDup values -> Forall (fun text => text <> [] /\ blen text <= 128) values ->
    NoDup l /\ blen l = blen values + blen items /\ Forall (fun text => text <> [] /\ blen text <= 128) l) as Hgen.
  { clear. induction items as [|item items IH]; intros values l; cbn; [intros [= <-]; intros; rewrite Z.add_0_r; done|].
    destruct (flowQueryResponseString item) as [text|]; [|done]. destruct (_ || _) eqn:E; [done|]. cbn [rbind].
    z_tests. intros Hr Hnd Hf. apply IH in Hr as (? & Hb & ?).
    - rewrite blen_snoc in Hb. rewrite blen_cons. split_and!; [done|lia|done].
    - apply NoDup_app. split_and!; [done| |apply NoDup_singleton]. intros x Hx ->%list_elem_of_singleton. done.
    - apply Forall_app. split; [done|]. by constructor. }
  apply Hgen in H as (? & Hb & ?); [|constructor|constructor].
  split_and!; [done| |done]. change (blen (@nil gstr)) with 0 in Hb. lia.
Qed.

Lemma capabilities_decoded m c : decodeFlowExplainCapabilities m = Ok (Some c) ->
  capabilities_ok (Requested c) /\ capabilities_ok (Available c) /\ capabilities_ok (Missing c).
Proof.
  unfold decodeFlowExplainCapabilities. destruct (assoc_get _ _); [|done]. intros H.
  apply rbind_ok in H as (raw & _ & H). apply rbind_ok in H as (r & Hr & H). apply rbind_ok in H as (a & Ha & H).
  apply rbind_ok in H as (i & Hi & [= <-]). cbn. split_and!; by eapply capabilityList_ok.
Qed.

(** ** Explanations *)

Lemma extension_ok m status capabilities x : readExtension m status capabilities = Ok x ->
  (e_stats x = None /\ status = go "planned" /\ capabilities <> None /\ e_quality x = None /\ e_pressure x = None /\
     e_decision x = None /\ e_alternatives x = []) \/
  (e_stats x <> None /\ e_quality x <> None /\ e_pressure x <> None /\ e_decision x <> None /\ blen (e_alternatives x) <= 31).
Proof.
  unfold readExtension. destruct (match capabilities with Some _ => _ | None => false end) eqn:Es.
  - destruct (negb (bool_decide (status = go "planned"))) eqn:Ep; [done|]. destruct (_ || _); [done|].
    intros [= <-]. z_tests. left. cbn. split_and!; try done. by destruct capabilities.
  - destruct (_ || _); [done|]. intros H.
    apply rbind_ok in H as (st & _ & H). apply rbind_ok in H as (q & _ & H). apply rbind_ok in H as (p & _ & H).
    apply rbind_ok in H as (d & _ & H). apply rbind_ok in H as (a & Ha & [= <-]). right. cbn. split_and!; try done.
    unfold decodeFlowExplainAlternatives in Ha. destruct (field_of _ _) as [| | | | | | |id items| |]; try done.
    destruct (Z.ltb_spec 31 (blen items)); [done|]. apply rmapM_ok, Forall2_length in Ha. unfold blen in *. lia.
Qed.

Lemma usage_decoded v u : decodeFlowQueryUsage v = Ok u -> validateFlowQueryUsageCounters u = Ok tt.
Proof.
  unfold decodeFlowQueryUsage. intros H. apply rbind_ok in H as (m & _ & H). apply rbind_ok in H as (values & _ & H).
  by apply rbind_ok in H as ([] & Hv & [= <-]).
Qed.

Lemma actual_ok m status actual : readActual m status = Ok actual ->
  (status = go "executed" <-> actual <> None) /\ forall u, actual = Some u -> validateFlowQueryUsageCounters u = Ok tt.
Proof.
  unfold readActual. intros H. apply rbind_ok in H as (a & Ha & H). case_bool_decide as Hn; [done|]. injection H as <-.
  destruct (field_of (go "actual") m); [injection Ha as <-; split; [|done]; split; [by intros ->; destruct Hn|done]| ..];
    (case_bool_decide as Hs; cbn [negb] in Ha; [|done]; apply rbind_ok in Ha as (u & Hu & [= <-]); split; [done|];
     intros u' [= <-]; by eapply usage_decoded).
Qed.

Lemma rejected_diagnostic m status d : readDiagnostic m status = Ok d ->
  (status = go "rejected" <-> d <> None) /\ forall f, d = Some f -> failure_ok f.
Proof.
  unfold readDiagnostic. intros H. apply rbind_ok in H as (a & Ha & H).
  destruct (field_of (go "diagnostic") m);
    [injection Ha as <-; case_bool_decide; [done|]; by injection H as <-| ..];
    (case_bool_decide as Hs; cbn [negb] in Ha; [|done]; apply rbind_ok in Ha as (u & Hu & [= <-]); injection H as <-;
     split; [done|]; intros f [= <-]; unfold decodeFlowQueryErrorPayload in Hu; apply rbind_ok in Hu as (raw & _ & Hu);
     by eapply failure_decoded).
Qed.

(** A decoded explanation satisfies its contract: a fingerprint of 64 hexadecimal
    digits; a usage, with consistent counters, exactly when the plan was executed; a
    diagnostic, with its texts, context and position in their limits, exactly when it
    was rejected; all of the extended fields or, for a planned query with capabilities,
    none; lists of capabilities without duplicates. *)
Theorem explain_well_formed v r : decodeFlowExplainResult v = Ok r -> explain_ok r.
Proof.
  unfold decodeFlowExplainResult. intros H. apply rbind_ok in H as (m & _ & H). apply rbind_ok in H as (version & _ & H).
  destruct (negb _) eqn:Hver in H; [done|]. apply rbind_ok in H as (fingerprint & _ & H).
  destruct (negb _) eqn:Hfp in H; [done|]. apply rbind_ok in H as (status & _ & H).
  destruct (negb _) eqn:Hst in H; [done|].
  apply rbind_ok in H as (plan & _ & H). apply rbind_ok in H as (estimate & _ & H). apply rbind_ok in H as (bounds & _ & H).
  apply rbind_ok in H as (capabilities & Hcap & H). apply rbind_ok in H as (x & Hx & H).
  apply rbind_ok in H as (actual & Hact & H). apply rbind_ok in H as (diagnostic & Hdiag & [= <-]).
  apply extension_ok in Hx. apply actual_ok in Hact as [Ha Hu]. apply rejected_diagnostic in Hdiag as [Hd Hf].
  z_tests. apply andb_true_iff in Hfp as [Hlen Hhex]. z_tests.
  constructor; cbn; try done.
  - split; [done|]. rewrite forallb_forall in Hhex. apply Forall_forall. intros b Hb. by apply Hhex, list_elem_of_In.
  - intros Hn. destruct Hx as [(_ & Hx)|[Hs _]]; [exact Hx|by destruct Hs].
  - intros Hn. destruct Hx as [(Hs & _)|(_ & Hx)]; [by destruct Hn|exact Hx].
  - intros c ->. by eapply capabilities_decoded.
Qed.

(** A planned query with capabilities only. *)
Definition example_explain : val :=
  VMap None [(go "version", VBytes flowExplainContract); (go "query_fingerprint", VBytes (replicate 64 x61));
    (go "status", VBytes (go "planned")); (go "plan", VMap None []); (go "estimate", VMap None []); (go "bounds", VMap None []);
    (go "capabilities", VMap None [(go "requested", VArray None [VBytes (go "point")]); (go "available", VArray None []);
      (go "missing", VArray None [VBytes (go "point")])])].

Lemma explain_well_formed_witness : exists r, decodeFlowExplainResult example_explain = Ok r /\ explain_ok r.
Proof.
  destruct (decodeFlowExplainResult example_explain) as [r|e] eqn:E; [|vm_compute in E; discriminate].
  exists r. split; [reflexivity|exact (explain_well_formed example_explain r E)].
Defined.
