(* ===== verification/CompactResponse.v ===== *)
(** The payload of a response whose frame has the custom-payload flag
    (src/native_compact.go, src/native_response.go): which compact codec reads it, under
    the codecs negotiated for the connection, and what it gives. This is the decoder the
    response assembler takes as a parameter. *)

From S2P Require Export CompactBatch FlowQuery Assembler Retry.

(** What [any] holds behind a custom payload. *)
Inductive compactValue :=
| CompactClaimed (items : list ClaimedItem)
| CompactOKCount (count : Z)
| CompactPlain (v : val)
| CompactPipelineValues (v : compactValue)
| CompactOwnedQuery (r : FlowQueryResult).

Inductive customError :=
| CustomCompact (e : compactError)
| CustomQuery (e : queryError).

(** [nativeResponseCodecs]; opcodes are [uint16]. *)
Record nativeResponseCodecs := Codecs { byOpcode : gmap Z nativeCompactCodec; negotiated : bool }.

(** The type of every codec's result. *)
Abbreviation decoded := (result customError compactValue).

Definition compactResult {A} (f : A -> compactValue) (r : result compactError A) : decoded :=
  match r with Ok a => Ok (f a) | Err e => Err (CustomCompact e) end.

Definition query {A} (f : A -> compactValue) (r : result queryError A) : decoded :=
  match r with Ok a => Ok (f a) | Err e => Err (CustomQuery e) end.

Definition rows (l : list val) : compactValue := CompactPlain (VArray None l).

(** The pipeline codec ends, so its missing result never shows. *)
Definition pipelineResponse (data : gstr) : result compactError (list val) :=
  default (Err CompactAmbiguous) (decodeNativeCompactPipelineResponse data).

Lemma pipelineResponse_total data : decodeNativeCompactPipelineResponse data = Some (pipelineResponse data).
Proof.
  unfold pipelineResponse, decodeNativeCompactPipelineResponse.
  destruct (countedHeader _ _ _) as [[count rest]|e] eqn:E; [|done].
  pose proof (countedHeader_nonneg _ _ _ _ _ E) as Hcount.
  destruct (search_spec decodeNativeCompactPipelineItem rest item_forward (Z.to_nat count) (8 * (count + 1) + 64)
    (nativeMaxContainerItems - count) ltac:(lia)) as (r & Hr & _). by rewrite Hr.
Qed.

(** [nativeCompactResult]. *)
Definition nativeCompactResult (opcode : Z) (marker : byte) (r : decoded) : decoded :=
  match r with
  | Ok value =>
      if (opcode =? nativeOpPipeline) && negb (bool_decide (marker = nativeCompactOKList))
         && negb (bool_decide (marker = nativeCompactPipelineResponse))
      then Ok (CompactPipelineValues value) else Ok value
  | Err e => Err e
  end.

(** The codec of a marker. *)
Definition decodeMarker (marker : byte) (data : gstr) : option decoded :=
  match marker with
  | x80 => Some (compactResult CompactClaimed (decodeNativeCompactClaimJobs data))
  | x81 => Some (compactResult CompactOKCount (decodeNativeCompactOKList data))
  | x82 => Some (compactResult CompactPlain (decodeNativeCompactKVGet data))
  | x83 => Some (compactResult rows (decodeNativeCompactKVMGet data))
  | x89 => Some (compactResult rows (decodeNativeCompactKVMGetFixed data))
  | x84 => Some (compactResult CompactPlain (decodeNativeCompactFlowRecord data))
  | x85 => Some (compactResult rows (decodeNativeCompactFlowRecordList data))
  | x86 => Some (compactResult rows (decodeNativeCompactBinaryListList data))
  | x87 => Some (compactResult rows (decodeNativeCompactBinaryMapList data))
  | x88 => Some (compactResult rows (decodeNativeCompactIntegerList data))
  | x95 => Some (compactResult rows (pipelineResponse data))
  | xa0 => Some (query (fun m => CompactPlain (VMap None m)) (decodeNativeCompactFlowQueryResult data))
  | _ => None
  end.

(** [decodeNativeCompactValueWithCodecs]; [None] for [ok = false] without error. *)
Definition decodeNativeCompactValueWithCodecs (opcode : Z) (data : gstr) (codecs : nativeResponseCodecs) : option decoded :=
  match data with
  | [] => Some (Err (CustomCompact CompactEmpty))
  | marker :: _ =>
      let accepted :=
        match byOpcode codecs !! opcode with
        | Some codec => nativeCompactCodecAcceptsMarker codec marker
        | None => false
        end in
      if negotiated codecs && negb accepted then None
      else nativeCompactResult opcode marker <$> decodeMarker marker data
  end.

Definition nativeCompactFlowQueryCodecAccepted (opcode : Z) (data : gstr) (codecs : nativeResponseCodecs) : bool :=
  match data with
  | [] => false
  | marker :: _ =>
      if negb (bool_decide (marker = nativeCompactFlowQueryResult)) then false
      else if negb (negotiated codecs) then true
      else match byOpcode codecs !! opcode with
           | Some codec => nativeCompactCodecAcceptsMarker codec marker
           | None => false
           end
  end.

(** [decodeNativeCompactResponseWithMode]. *)
Definition decodeNativeCompactResponseWithMode (codecs : nativeResponseCodecs) (opcode : Z) (data : gstr)
  (mode : nativeResponseDecodeMode) : option decoded :=
  if bool_decide (mode = DecodeFlowQuery) && nativeCompactFlowQueryCodecAccepted opcode data codecs
  then Some (query CompactOwnedQuery (decodeNativeCompactFlowQueryResultTyped data))
  else decodeNativeCompactValueWithCodecs opcode data codecs.

(** ** Which payloads are read *)

(** The markers this version has a codec for. *)
Definition known_markers : list byte :=
  [x80; x81; x82; x83; x84; x85; x86; x87; x88; x89; x95; xa0].

Lemma decodeMarker_known marker data : decodeMarker marker data <> None <-> marker ∈ known_markers.
Proof.
  split.
  - destruct marker; intros H; first [by destruct H | by repeat (left || right)].
  - intros H. unfold known_markers in H. repeat (apply elem_of_cons in H as [->|H]; [done|]). by apply not_elem_of_nil in H.
Qed.

Lemma accepted_known codec marker : nativeCompactCodecAcceptsMarker codec marker = true -> marker ∈ known_markers.
Proof.
  intros H. destruct codec; cbn [nativeCompactCodecAcceptsMarker] in H; apply bool_decide_eq_true in H; try (subst; by repeat (left || right)).
  - repeat (apply elem_of_cons in H as [->|H]; [by repeat (left || right)|]). by apply not_elem_of_nil in H.
  - repeat (apply elem_of_cons in H as [->|H]; [by repeat (left || right)|]). by apply not_elem_of_nil in H.
Qed.

Lemma nativeCompactResult_none opcode marker (r : option decoded) : nativeCompactResult opcode marker <$> r <> None <-> r <> None.
Proof. by destruct r. Qed.

(** A custom payload is read exactly when its codec was agreed on: on a negotiated
    connection when the opcode's codec is one that accepts the payload's marker, else
    when its marker is known at all; whatever the caller's mode. Every accepted marker
    has a decoder. *)
Theorem custom_payload_read codecs opcode marker data mode :
  decodeNativeCompactResponseWithMode codecs opcode (marker :: data) mode <> None <->
  if negotiated codecs then
    exists codec, byOpcode codecs !! opcode = Some codec /\ nativeCompactCodecAcceptsMarker codec marker = true
  else marker ∈ known_markers.
Proof.
  assert (decodeNativeCompactValueWithCodecs opcode (marker :: data) codecs <> None <->
    if negotiated codecs then
      exists codec, byOpcode codecs !! opcode = Some codec /\ nativeCompactCodecAcceptsMarker codec marker = true
    else marker ∈ known_markers) as Hval.
  { cbn [decodeNativeCompactValueWithCodecs]. destruct (negotiated codecs); cbn [andb].
    - destruct (byOpcode codecs !! opcode) as [codec|]; [|cbn; split; [done|by intros (? & ? & _)]].
      destruct (nativeCompactCodecAcceptsMarker codec marker) eqn:Ha; cbn [negb].
      + rewrite nativeCompactResult_none, decodeMarker_known. split; [by exists codec|].
        intros _. by eapply accepted_known.
      + split; [done|]. intros (c & [= <-] & Hc). congruence.
    - by rewrite nativeCompactResult_none, decodeMarker_known. }
  unfold decodeNativeCompactResponseWithMode. destruct (_ && _) eqn:Hm; [|exact Hval].
  apply andb_true_iff in Hm as [_ Hm]. split; [|done]. intros _. cbn [nativeCompactFlowQueryCodecAccepted] in Hm.
  case_bool_decide as Hq; cbn [negb] in Hm; [|done]. destruct (negotiated codecs); cbn [negb] in Hm.
  - destruct (byOpcode codecs !! opcode) as [codec|]; [|done]. by exists codec.
  - subst. by repeat (left || right).
Qed.

(** A response read through the assembler with the codecs of this file. *)
Example example_compact_response :
  readNativeResponseWithPolicy (decodeNativeCompactResponseWithMode (Codecs {[257 := CodecKVGet]} true)) 4096
    (frameBytes nativeResponseVersion
       (Frame nativeFlagCustomPayload 1 257 7 (be_encode 2 0 ++ [x82; x01] ++ be_encode 4 2 ++ go "ok"))) =
  Ok (Response nativeFlagCustomPayload 1 257 7 0 (Compact (CompactPlain (VBytes (go "ok")))) 10, []).
Proof. vm_compute. reflexivity. Qed.
