(* ===== verification/Contract.v ===== *)
(** The contract a server advertises when a connection is opened
    (src/native_server_contract.go, src/native_flow_query_contract.go,
    src/native_policy_contract.go, src/native_limits.go): reading the HELLO response,
    with the limits and the codecs the connection then works with, and the updates of
    its window. *)

From S2P Require Export CompactResponse FlowControl Errors.

Definition nativeDefaultResponseBytes : Z := 64 * 1024 * 1024.
Definition nativeDefaultRequestFrameBytes : Z := 16 * 1024 * 1024.
Definition nativeDefaultPipelineCommands : Z := 1024.
Definition nativeDefaultConnectionCredits : Z := 4096.
Definition nativeDefaultLaneCredits : Z := 1024.
Definition nativeDefaultLaneQueue : Z := 1024.
Definition nativeDefaultProtocolLanes : Z := 8.
Definition nativeUnauthenticatedFrameBytes : Z := 64 * 1024.
Definition nativeMaxResponseCodecs : Z := 32.
Definition nativeMaxResponseOpcodes : Z := 1024.
Definition nativeMaxSchemaFields : Z := 256.
Definition max_int : Z := max_int64.

Inductive helloError :=
| HelloMap
| HelloProtocol
| HelloVersion
| HelloAuth
| HelloMissing (key : gstr)
| HelloCapability (key : gstr)
| HelloProtocolVersions
| HelloSchema
| HelloFlowQuery
| HelloCodecs
| HelloEvents.

(** ** Capabilities *)

Definition helloMap (v : val) : result helloError mapping :=
  match nativeMap v with Ok m => Ok m | Err _ => Err HelloMap end.

Definition requiredNativeCapabilityMap (m : mapping) (key : gstr) : result helloError mapping :=
  match assoc_get key m with
  | None => Err (HelloMissing key)
  | Some v => match nativeMap v with Ok m => Ok m | Err _ => Err (HelloCapability key) end
  end.

(** A nil map reads as an empty one. *)
Definition optionalNativeCapabilityMap (m : mapping) (key : gstr) : result helloError mapping :=
  match field_of key m with
  | VNil => Ok []
  | v => match nativeMap v with Ok m => Ok m | Err _ => Err (HelloCapability key) end
  end.

Definition requiredPositiveNativeCapability (m : mapping) (key : gstr) : result helloError Z :=
  match assoc_get key m with
  | None => Err (HelloMissing key)
  | Some v =>
      match topologyInteger v with
      | Some n => if n <=? 0 then Err (HelloCapability key) else Ok n
      | None => Err (HelloCapability key)
      end
  end.

Definition optionalNativeCapabilityInteger (m : mapping) (key : gstr) (positive : bool) : option Z :=
  match topologyInteger (field_of key m) with
  | Some n => if (if positive then 0 <? n else 0 <=? n) then Some n else None
  | None => None
  end.

Definition boundedNativePositiveInt (n : Z) : Z := Z.min n max_int.
Definition boundedNativeFrameBytes (n : Z) : Z := if nativeMaxFrameBytes <? n then nativeMaxFrameBytes else n.

(** A set of texts, each given once. *)
Definition addText (maximum : Z) (fields : gset gstr) (v : val) : option (gset gstr) :=
  match commandText v with
  | None | Some [] => None
  | Some text => if (maximum <? blen text) || bool_decide (text ∈ fields) then None else Some ({[text]} ∪ fields)
  end.

Fixpoint textSet (maximum : Z) (fields : gset gstr) (l : list val) : option (gset gstr) :=
  match l with
  | [] => Some fields
  | v :: l => match addText maximum fields v with Some fields => textSet maximum fields l | None => None end
  end.

(** [nativeSchemaFields]; texts of any length. *)
Definition nativeSchemaFields (v : val) : result helloError (gset gstr) :=
  match v with
  | VArray _ values =>
      if nativeMaxSchemaFields <? blen values then Err HelloSchema
      else match textSet max_int ∅ values with Some fields => Ok fields | None => Err HelloSchema end
  | _ => Err HelloSchema
  end.

Definition validateNativeFlowPolicyCapabilities (capabilities : mapping) : result helloError unit :=
  let! schemas := requiredNativeCapabilityMap capabilities (go "schemas") in
  let! policySchema := requiredNativeCapabilityMap schemas (go "FLOW.POLICY.SET") in
  let! fields := nativeSchemaFields (field_of (go "fields") policySchema) in
  rguard (bool_decide (Forall (fun f => f ∈ fields) [go "replace"; go "expected_generation"])) HelloSchema.

(** ** The FLOW.QUERY contract *)

Definition flowQueryRequestContract : gstr := go "ferric.flow.query.request/v1".
Definition flowQueryIndexesContract : gstr := go "ferric.flow.query.indexes/v1".
Definition flowQueryLanguageVersion : gstr := go "FQL1".

Definition requiredNativeFlowQueryCapabilities : list gstr := [
  go "flow_query_v1"; go "flow_query_result_projection_v1"; go "flow_explain_v1";
  go "flow_explain_analyze_v1"; go "flow_composite_index_v1"; go "flow_query_index_status_v1"].

Definition requiredNativeFlowQueryShapes : list gstr := [
  go "runs_by_run_id_record";
  go "runs_by_partition_and_run_id_record";
  go "runs_by_partition_predicates_ordered_records";
  go "runs_by_partition_type_state_ordered_records";
  go "runs_by_partition_type_terminals_ordered_records";
  go "runs_by_partition_metadata_ordered_records";
  go "runs_by_partition_type_running_lease_deadline_ordered_records";
  go "runs_by_partition_parent_ordered_records";
  go "runs_by_partition_root_ordered_records";
  go "runs_by_partition_correlation_ordered_records";
  go "runs_by_partition_predicates_count";
  go "events_by_run_id_ordered_records"].

Record nativeFlowQueryContract := QueryContractOf {
  RequestContract : gstr;
  ResultContract : gstr;
  ExplainContract : gstr;
  IndexStatusContract : gstr;
  q_capabilities : gset gstr;
  q_languages : gset gstr;
  q_shapes : gset gstr;
}.

Definition supportsCapability (c : nativeFlowQueryContract) (name : gstr) : bool := bool_decide (name ∈ q_capabilities c).
Definition supportsShape (c : nativeFlowQueryContract) (name : gstr) : bool := bool_decide (name ∈ q_shapes c).

Definition requiredNativeFlowQueryString (m : mapping) (key : gstr) : result helloError gstr :=
  match commandText (field_of key m) with
  | None | Some [] => Err HelloFlowQuery
  | Some text => if 256 <? blen text then Err HelloFlowQuery else Ok text
  end.

Definition nativeFlowQueryStringSet (v : val) (maximum : Z) : result helloError (gset gstr) :=
  match v with
  | VArray _ items =>
      if (blen items =? 0) || (maximum <? blen items) then Err HelloFlowQuery
      else match textSet 256 ∅ items with Some values => Ok values | None => Err HelloFlowQuery end
  | _ => Err HelloFlowQuery
  end.

Definition validateNativeFlowQuerySchema (capabilities : mapping) : result helloError unit :=
  let! schemas := requiredNativeCapabilityMap capabilities (go "schemas") in
  let! querySchema := requiredNativeCapabilityMap schemas (go "FLOW.QUERY") in
  let! fields := nativeSchemaFields (field_of (go "fields") querySchema) in
  if negb (bool_decide (Forall (fun f => f ∈ fields) [go "version"; go "query"; go "params"; go "deadline_ms"]))
  then Err HelloSchema
  else
    let! required := nativeSchemaFields (field_of (go "required") querySchema) in
    if negb (bool_decide (Forall (fun f => f ∈ required) [go "version"; go "query"])) then Err HelloSchema
    else rguard (size required =? 2)%nat HelloSchema.

(** A field of the manifest that must be a fixed contract. *)
Definition contractField (m : mapping) (key contract : gstr) : result helloError gstr :=
  let! value := requiredNativeFlowQueryString m key in
  if bool_decide (value = contract) then Ok value else Err HelloFlowQuery.

Definition parseNativeFlowQueryContract (capabilities : mapping) : result helloError nativeFlowQueryContract :=
  let! manifest := requiredNativeCapabilityMap capabilities (go "flow_query") in
  let! request := contractField manifest (go "request_contract") flowQueryRequestContract in
  let! result := contractField manifest (go "result_contract") flowQueryResultContract in
  let! explain := contractField manifest (go "explain_contract") flowExplainContract in
  let! index := contractField manifest (go "index_status_contract") flowQueryIndexesContract in
  let! queryCapabilities := nativeFlowQueryStringSet (field_of (go "capabilities") manifest) 64 in
  let! languages := nativeFlowQueryStringSet (field_of (go "language_versions") manifest) 16 in
  let! shapes := nativeFlowQueryStringSet (field_of (go "shapes") manifest) 128 in
  require! bool_decide (flowQueryLanguageVersion ∈ languages) else HelloFlowQuery;
  require! bool_decide (Forall (fun c => c ∈ queryCapabilities) requiredNativeFlowQueryCapabilities) else HelloFlowQuery;
  require! bool_decide (Forall (fun s => s ∈ shapes) requiredNativeFlowQueryShapes) else HelloFlowQuery;
  let! _ := validateNativeFlowQuerySchema capabilities in
  Ok (QueryContractOf request result explain index queryCapabilities languages shapes).

(** ** Response codecs *)

Definition nativeCompactCodecByName (name : gstr) : option nativeCompactCodec :=
  if bool_decide (name = go "flow_claim_jobs_v1") then Some CodecFlowClaimJobs
  else if bool_decide (name = go "flow_record_v1") then Some CodecFlowRecord
  else if bool_decide (name = go "flow_record_list_v1") then Some CodecFlowRecordList
  else if bool_decide (name = go "kv_get_v1") then Some CodecKVGet
  else if bool_decide (name = go "kv_mget_v1") then Some CodecKVMGet
  else if bool_decide (name = go "ok_list_v1") then Some CodecOKList
  else if bool_decide (name = go "pipeline_v1") then Some CodecPipeline
  else if bool_decide (name = go "flow_query_result_v1") then Some CodecFlowQueryResult
  else None.

(** The maps the loops fill, and the number of opcodes so far. *)
Record codecTable := CodecTable { t_codecs : gmap Z nativeCompactCodec; t_advertised : gmap Z gstr; t_count : Z }.

(** One opcode of a codec's list. *)
Definition addOpcode (name : gstr) (t : codecTable) (raw : val) : result helloError codecTable :=
  match topologyInteger raw with
  | None => Err HelloCodecs
  | Some opcode =>
      if (opcode <? 0) || (65535 <? opcode) then Err HelloCodecs
      else if nativeMaxResponseOpcodes <? t_count t + 1 then Err HelloCodecs
      else if bool_decide (is_Some (t_advertised t !! opcode)) then Err HelloCodecs
      else
        Ok (CodecTable
              (match nativeCompactCodecByName name with Some codec => <[opcode := codec]> (t_codecs t) | None => t_codecs t end)
              (<[opcode := name]> (t_advertised t)) (t_count t + 1))
  end.

(** One entry of the table. *)
Definition addCodec (t : codecTable) (entry : gstr * val) : result helloError codecTable :=
  match entry.2 with
  | VArray _ opcodes => rfold (addOpcode entry.1) t opcodes
  | _ => Err HelloCodecs
  end.

Definition parseNativeResponseCodecs (v : val) : result helloError nativeResponseCodecs :=
  let! responseCodecs := helloMap v in
  match field_of (go "typed_value") responseCodecs with
  | VBool true =>
      let! table := requiredNativeCapabilityMap responseCodecs (go "compact_response_opcodes") in
      if nativeMaxResponseCodecs <? blen table then Err HelloCodecs
      else
        let! t := rfold addCodec (CodecTable ∅ ∅ 0) table in
        Ok (Codecs (t_codecs t) true)
  | _ => Err HelloCodecs
  end.

(** ** HELLO *)

Record nativeHelloContract := HelloContract {
  maxRequestFrameBytes : Z;
  maxResponseBytes : Z;
  maxPipelineCommands : Z;
  maxDataLanes : Z;
  connectionCredits : Z;
  laneCredits : Z;
  laneQueue : Z;
  responseCodecs : nativeResponseCodecs;
  flowQuery : option nativeFlowQueryContract;   (* [None]: the zero contract *)
  compactPubSubPublish : bool;
  compactStreamXAdd : bool;
  events : gset gstr;
  authRequired : bool;
}.

Definition configuredResponseBytes (configured : Z) : Z :=
  if configured <=? 0 then nativeDefaultResponseBytes else configured.

Definition defaultNativeHelloContract (configuredMaxResponseBytes : Z) : nativeHelloContract :=
  HelloContract nativeDefaultRequestFrameBytes (configuredResponseBytes configuredMaxResponseBytes)
    nativeDefaultPipelineCommands 1 nativeDefaultConnectionCredits nativeDefaultLaneCredits nativeDefaultLaneQueue
    (Codecs ∅ true) None false false ∅ false.

Definition validateNativeProtocolVersions (v : val) : result helloError unit :=
  match v with
  | VArray _ versions =>
      rguard (existsb (fun raw => bool_decide (topologyInteger raw = Some (byteZ nativeRequestVersion))) versions) HelloProtocolVersions
  | _ => Err HelloProtocolVersions
  end.

Fixpoint eventNames (names : gset gstr) (items : list val) : result helloError (gset gstr) :=
  match items with
  | [] => Ok names
  | item :: items =>
      match commandText item with
      | None | Some [] => Err HelloEvents
      | Some name => eventNames ({[name]} ∪ names) items
      end
  end.

Definition parseNativeEventCapabilities (v : val) : result helloError (gset gstr) :=
  match v with
  | VNil => Ok ∅
  | VArray _ items => if 64 <? blen items then Err HelloEvents else eventNames ∅ items
  | _ => Err HelloEvents
  end.

Definition supportsEvents (c : nativeHelloContract) (names : list gstr) : bool :=
  forallb (fun name => bool_decide (name ∈ events c)) names && negb (bool_decide (names = [])).

Section Hello.
(** [fmt.Sprint], for a protocol that is no text. *)
Context (sprint : val -> gstr).

Definition parseNativeHelloContract (v : val) (configuredMaxResponseBytes : Z) : result helloError nativeHelloContract :=
  let contract := defaultNativeHelloContract configuredMaxResponseBytes in
  let! hello := helloMap v in
  require! assoc_has (go "protocol") hello && bool_decide (asString sprint (field_of (go "protocol") hello) = go "ferricstore-native")
    else HelloProtocol;
  require! bool_decide (topologyInteger (field_of (go "version") hello) = Some (byteZ nativeRequestVersion)) else HelloVersion;
  let! authRequired :=
    (match assoc_get (go "auth_required") hello with
     | None => Ok (authRequired contract)
     | Some (VBool required) => Ok required
     | Some _ => Err HelloAuth
     end) in
  let! capabilities := requiredNativeCapabilityMap hello (go "capabilities") in
  let! _ := validateNativeProtocolVersions (field_of (go "protocol_versions") capabilities) in
  let! _ := validateNativeFlowPolicyCapabilities capabilities in
  let! flowQuery := parseNativeFlowQueryContract capabilities in
  let! pipeline := optionalNativeCapabilityMap capabilities (go "pipeline") in
  let! modes := optionalNativeCapabilityMap pipeline (go "modes") in
  let xadd := match optionalNativeCapabilityInteger modes (go "stream_xadd_auto") true with Some mode => mode =? 34 | None => false end in
  let publish := match optionalNativeCapabilityInteger modes (go "pubsub_publish") true with Some mode => mode =? 35 | None => false end in
  let! limits := requiredNativeCapabilityMap capabilities (go "limits") in
  let! serverResponseBytes := requiredPositiveNativeCapability limits (go "max_response_bytes") in
  let maxResponse := Z.min (maxResponseBytes contract) (boundedNativePositiveInt serverResponseBytes) in
  let maxFrame :=
    match optionalNativeCapabilityInteger limits (go "max_frame_bytes") true with
    | Some raw => boundedNativeFrameBytes raw | None => maxRequestFrameBytes contract end in
  let maxCommands :=
    match optionalNativeCapabilityInteger limits (go "max_pipeline_commands") false with
    | Some raw => if raw <=? max_int then raw else maxPipelineCommands contract | None => maxPipelineCommands contract end in
  let queue :=
    match optionalNativeCapabilityInteger limits (go "max_lane_queue") false with
    | Some raw => if raw <=? max_int then raw else laneQueue contract | None => laneQueue contract end in
  let! multiplexing := optionalNativeCapabilityMap capabilities (go "multiplexing") in
  let lanes :=
    match optionalNativeCapabilityInteger multiplexing (go "max_lanes_per_connection") true with
    | Some raw => if raw <=? max_uint32 then raw else maxDataLanes contract | None => maxDataLanes contract end in
  let! flowControl := optionalNativeCapabilityMap capabilities (go "flow_control") in
  let connection :=
    match optionalNativeCapabilityInteger flowControl (go "max_inflight_per_connection") false with
    | Some raw => if raw <=? max_int then raw else connectionCredits contract | None => connectionCredits contract end in
  let lane :=
    match optionalNativeCapabilityInteger flowControl (go "max_inflight_per_lane") false with
    | Some raw => if raw <=? max_int then raw else laneCredits contract | None => laneCredits contract end in
  let! rawCodecs := requiredNativeCapabilityMap capabilities (go "response_codecs") in
  let! codecs := parseNativeResponseCodecs (VMap None rawCodecs) in
  let! events := parseNativeEventCapabilities (field_of (go "events") capabilities) in
  Ok (HelloContract maxFrame maxResponse maxCommands lanes connection lane queue codecs (Some flowQuery) publish xadd events authRequired).
End Hello.

Definition constrainNativeContractForAuthentication (c : nativeHelloContract) (authenticated : bool) : nativeHelloContract :=
  if negb authenticated && ((maxRequestFrameBytes c <=? 0) || (nativeUnauthenticatedFrameBytes <? maxRequestFrameBytes c))
  then HelloContract nativeUnauthenticatedFrameBytes (maxResponseBytes c) (maxPipelineCommands c) (maxDataLanes c)
         (connectionCredits c) (laneCredits c) (laneQueue c) (responseCodecs c) (flowQuery c) (compactPubSubPublish c)
         (compactStreamXAdd c) (events c) (authRequired c)
  else c.

(** What an executor keeps of the contract: [applyHelloContractLocked]. *)
Record negotiation := Negotiation { n_contract : nativeHelloContract; n_nextLane : Z; n_flow : nativeFlowController }.

Definition applyHelloContractLocked (protocolLanes maxQueuedRequests : Z) (c : nativeHelloContract) : negotiation :=
  let configuredLanes := if protocolLanes =? 0 then nativeDefaultProtocolLanes else protocolLanes in
  let lanes := if (maxDataLanes c =? 0) || (configuredLanes <? maxDataLanes c) then configuredLanes else maxDataLanes c in
  Negotiation
    (HelloContract (maxRequestFrameBytes c) (maxResponseBytes c) (maxPipelineCommands c) lanes
       (connectionCredits c) (laneCredits c) (laneQueue c) (responseCodecs c) (flowQuery c) (compactPubSubPublish c)
       (compactStreamXAdd c) (events c) (authRequired c))
    0 (newNativeFlowController (connectionCredits c) (laneCredits c) (laneQueue c) (Some maxQueuedRequests)).

(** [nextDataLane]: the counter is an atomic [uint32]. *)
Definition nextDataLane (n : negotiation) : Z * negotiation :=
  let lanes := if maxDataLanes (n_contract n) =? 0 then 1 else maxDataLanes (n_contract n) in
  let next := wrap 32 (n_nextLane n + 1) in
  (wrap 32 (next - 1) mod lanes + 1, Negotiation (n_contract n) next (n_flow n)).

(** ** Window updates *)

(** The value of a field in one map, if it is one. *)
Definition capabilityAt (field : gstr) (positive : bool) (v : val) : option Z :=
  match nativeMap v with
  | Ok m => optionalNativeCapabilityInteger m field positive
  | Err _ => None
  end.

Definition nestedValues (nestedKeys : list gstr) (v : val) : list val :=
  match nativeMap v with
  | Ok m => omap (fun key => match field_of key m with VNil => None | child => Some child end) nestedKeys
  | Err _ => []
  end.

(** [nativeCapabilityInteger]: level by level, to the given depth. *)
Fixpoint nativeCapabilityInteger (depth : nat) (level : list val) (field : gstr) (nestedKeys : list gstr) (positive : bool)
  : option Z :=
  match depth with
  | O => None
  | S depth =>
      match omap (capabilityAt field positive) level with
      | n :: _ => Some n
      | [] => nativeCapabilityInteger depth (level ≫= nestedValues nestedKeys) field nestedKeys positive
      end
  end.

Definition nativeFlowControlLimits (v : val) : option Z * option Z :=
  let nested := [go "flow_control"; go "limits"; go "payload"] in
  (nativeCapabilityInteger 3 [v] (go "max_inflight_per_connection") nested false,
   nativeCapabilityInteger 3 [v] (go "max_inflight_per_lane") nested false).

(** [applyFlowControlLimits] on the connection the update arrived on. *)
Definition applyFlowControlLimits (n : negotiation) (v : val) : negotiation :=
  match nativeFlowControlLimits v with
  | (None, None) => n
  | (connectionLimit, laneLimit) =>
      Negotiation (n_contract n) (n_nextLane n) (updateLimits connectionLimit laneLimit (n_flow n))
  end.

(** ** Reading the table of codecs does not depend on its order *)

Definition opcodeOf (raw : val) : option Z :=
  match topologyInteger raw with
  | Some opcode => if (opcode <? 0) || (65535 <? opcode) then None else Some opcode
  | None => None
  end.

(** The opcodes of an entry, with its name; of the whole table. *)
Definition entryOpcodes (entry : gstr * val) : option (list (gstr * Z)) :=
  match entry.2 with
  | VArray _ opcodes => mapM (fun raw => pair entry.1 <$> opcodeOf raw) opcodes
  | _ => None
  end.

Definition tableOpcodes (table : mapping) : option (list (gstr * Z)) := concat (A:=_) <$> mapM entryOpcodes table.

Definition addPair (t : codecTable) (p : gstr * Z) : result helloError codecTable :=
  if nativeMaxResponseOpcodes <? t_count t + 1 then Err HelloCodecs
  else if bool_decide (is_Some (t_advertised t !! p.2)) then Err HelloCodecs
  else Ok (CodecTable
             (match nativeCompactCodecByName p.1 with Some codec => <[p.2 := codec]> (t_codecs t) | None => t_codecs t end)
             (<[p.2 := p.1]> (t_advertised t)) (t_count t + 1)).

Lemma addOpcode_pair name t raw t' :
  addOpcode name t raw = Ok t' <-> exists p, pair name <$> opcodeOf raw = Some p /\ addPair t p = Ok t'.
Proof.
  unfold addOpcode, opcodeOf, addPair. destruct (topologyInteger raw) as [z|]; [|split; [done|by intros (? & ? & ?)]].
  destruct (_ || _); [split; [done|by intros (? & ? & ?)]|]. cbn. split; [intros H; by exists (name, z)|].
  by intros (p & [= <-] & H).
Qed.

Lemma addOpcodes_pairs name raws : forall t t',
  rfold (addOpcode name) t raws = Ok t' <->
  exists ps, mapM (fun raw => pair name <$> opcodeOf raw) raws = Some ps /\ rfold addPair t ps = Ok t'.
Proof.
  induction raws as [|raw raws IH]; intros t t'; cbn.
  - split; [intros [= <-]; by exists []|]. by intros (ps & [= <-] & H).
  - rewrite rbind_ok. setoid_rewrite addOpcode_pair. setoid_rewrite IH. split.
    + intros (t1 & (p & Hp & Ht) & ps & Hps & H). exists (p :: ps). cbn in *. rewrite Hp, Hps. cbn. split; [done|].
      by rewrite Ht.
    + intros (ps & Hps & H). destruct (pair name <$> opcodeOf raw) as [p|] eqn:Hp; [|done].
      cbn in Hps. destruct (mapM _ raws) as [ps'|] eqn:Hm; [|done].
      injection Hps as <-. cbn in H. apply rbind_ok in H as (t1 & H1 & H2). exists t1. split; [by exists p|]. by exists ps'.
Qed.

Lemma addCodecs_pairs table : forall t t',
  rfold addCodec t table = Ok t' <-> exists ps, tableOpcodes table = Some ps /\ rfold addPair t ps = Ok t'.
Proof.
  unfold tableOpcodes. induction table as [|[name v] table IH]; intros t t'; cbn [rfold].
  - split; [intros [= <-]; by exists []|]. by intros (ps & [= <-] & H).
  - rewrite rbind_ok. setoid_rewrite IH. unfold addCodec. cbn [fst snd].
    assert (forall t1, match v with VArray _ opcodes => rfold (addOpcode name) t opcodes | _ => Err HelloCodecs end = Ok t1 <->
      exists ps, entryOpcodes (name, v) = Some ps /\ rfold addPair t ps = Ok t1) as Hv.
    { intros t1. unfold entryOpcodes. cbn [fst snd]. destruct v; try (split; [done|by intros (? & ? & ?)]).
      apply addOpcodes_pairs. }
    setoid_rewrite Hv. cbn [mapM]. split.
    + intros (t1 & (ps1 & H1 & Ht1) & ps2 & H2 & Ht2). rewrite H1. cbn.
      destruct (mapM entryOpcodes table) as [l|]; [|done]. cbn in *. injection H2 as <-. eexists; split; [reflexivity|].
      rewrite rfold_app, Ht1. done.
    + intros (ps & Hps & H). destruct (entryOpcodes (name, v)) as [ps1|]; [|done]. cbn in Hps.
      destruct (mapM entryOpcodes table) as [l|]; [|done]. cbn in Hps. injection Hps as <-.
      rewrite rfold_app in H. apply rbind_ok in H as (t1 & H1 & H2). exists t1. split; [by exists ps1|]. by exists (concat l).
Qed.

(** What the table holds once its opcodes are in. *)
Definition codecsOf (ps : list (gstr * Z)) : gmap Z nativeCompactCodec :=
  list_to_map (omap (fun p => pair p.2 <$> nativeCompactCodecByName p.1) ps).

Lemma addPairs_exact ps : forall t t', t_count t <= nativeMaxResponseOpcodes ->
  rfold addPair t ps = Ok t' <->
  NoDup ps.*2 /\ Forall (fun p => t_advertised t !! p.2 = None) ps /\ t_count t + blen ps <= nativeMaxResponseOpcodes /\
  t' = CodecTable (foldl (fun m p => match nativeCompactCodecByName p.1 with Some c => <[p.2 := c]> m | None => m end) (t_codecs t) ps)
         (foldl (fun m p => <[p.2 := p.1]> m) (t_advertised t) ps) (t_count t + blen ps).
Proof.
  induction ps as [|p ps IH]; intros t t' Ht; cbn [rfold].
  - rewrite blen_nil, Z.add_0_r. cbn. split.
    + intros [= <-]. split_and!; [constructor|constructor|done|by destruct t].
    + intros (_ & _ & _ & ->). by destruct t.
  - unfold addPair at 1. rewrite blen_cons. cbn [fmap list_fmap foldl].
    destruct (Z.ltb_spec nativeMaxResponseOpcodes (t_count t + 1)) as [Hc|Hc]; cbn [rbind].
    { split; [done|]. intros (_ & _ & ? & _). pose proof (blen_nonneg ps). lia. }
    case_bool_decide as Hadv; cbn [rbind].
    { split; [done|]. intros (_ & Hf & _). apply Forall_cons in Hf as [Hf _]. rewrite Hf in Hadv. by destruct Hadv. }
    apply eq_None_not_Some in Hadv. rewrite IH by (cbn; lia). cbn [t_count t_advertised t_codecs].
    rewrite Forall_cons, NoDup_cons.
    assert (Forall (fun q => <[p.2:=p.1]> (t_advertised t) !! q.2 = None) ps <->
      (p.2 ∉ ps.*2) /\ Forall (fun q => t_advertised t !! q.2 = None) ps) as ->.
    { rewrite !Forall_forall. split.
      - intros H. split; [|intros q Hq; specialize (H q Hq); by apply lookup_insert_None in H as [? _]].
        intros (q & Hq & Hin)%list_elem_of_fmap. apply H in Hin. apply lookup_insert_None in Hin as [_ Hin]. by rewrite Hq in Hin.
      - intros [Hp H] q Hq. apply lookup_insert_None. split; [by apply H|]. intros He. apply Hp, list_elem_of_fmap. by exists q. }
    replace (t_count t + 1 + blen ps) with (t_count t + (1 + blen ps)) by lia. tauto.
Qed.

Lemma codecs_foldl ps : NoDup ps.*2 -> forall m : gmap Z nativeCompactCodec,
  foldl (fun m p => match nativeCompactCodecByName p.1 with Some c => <[p.2 := c]> m | None => m end) m ps = codecsOf ps ∪ m.
Proof.
  unfold codecsOf. induction ps as [|[name op] ps IH]; cbn [fmap list_fmap foldl]; intros Hnd m; [cbn; by rewrite map_empty_union|].
  apply NoDup_cons in Hnd as [Hop Hnd]. cbn in *.
  assert (list_to_map (M := gmap Z nativeCompactCodec) (omap (fun p => pair p.2 <$> nativeCompactCodecByName p.1) ps) !! op = None) as Hnone.
  { apply not_elem_of_list_to_map_1. intros ([o c] & Ho & Hin)%list_elem_of_fmap. cbn in Ho. subst o.
    apply list_elem_of_omap in Hin as ([n o] & Hin & Hc). cbn in Hc. destruct (nativeCompactCodecByName n); [|done].
    injection Hc as -> ->. apply Hop, list_elem_of_fmap. by exists (n, op). }
  destruct (nativeCompactCodecByName name) as [c|]; cbn; rewrite IH by done; [|done].
  by rewrite <- insert_union_l, insert_union_r.
Qed.

(** What reading a table gives. *)
Lemma readTable_ok table m :
  rmap t_codecs (rfold addCodec (CodecTable ∅ ∅ 0) table) = Ok m <->
  exists ps, tableOpcodes table = Some ps /\ NoDup ps.*2 /\ blen ps <= nativeMaxResponseOpcodes /\ m = codecsOf ps.
Proof.
  unfold rmap. rewrite rbind_ok. setoid_rewrite addCodecs_pairs. split.
  - intros (t & (ps & Hps & H) & [= <-]). apply addPairs_exact in H as (Hnd & _ & Hlen & ->); [|cbn; done].
    exists ps. cbn [t_codecs t_count] in *. rewrite codecs_foldl, map_union_empty by done. split_and!; try done; lia.
  - intros (ps & Hps & Hnd & Hlen & ->). eexists. split.
    + exists ps. split; [done|]. apply addPairs_exact; [cbn; done|]. split_and!; [done| |cbn; lia|reflexivity].
      apply Forall_forall. intros p _. cbn. apply lookup_empty.
    + cbn [t_codecs]. by rewrite codecs_foldl, map_union_empty.
Qed.

Lemma tableOpcodes_cons e table ps : tableOpcodes (e :: table) = Some ps <->
  exists ps1 ps2, entryOpcodes e = Some ps1 /\ tableOpcodes table = Some ps2 /\ ps = ps1 ++ ps2.
Proof.
  unfold tableOpcodes. cbn. destruct (entryOpcodes e) as [ps1|]; cbn; [|split; [done|by intros (? & ? & ? & _)]].
  destruct (mapM entryOpcodes table) as [l|]; cbn; [|split; [done|by intros (? & ? & _ & ? & _)]].
  split; [intros [= <-]; by exists ps1, (concat l)|]. by intros (? & ? & [= <-] & [= <-] & ->).
Qed.

Lemma tableOpcodes_perm table table' : table ≡ₚ table' -> forall ps, tableOpcodes table = Some ps ->
  exists ps', tableOpcodes table' = Some ps' /\ ps ≡ₚ ps'.
Proof.
  induction 1 as [|e table table' _ IH|e1 e2 table|t1 t2 t3 _ IH1 _ IH2]; intros ps Hps.
  - by exists ps.
  - apply tableOpcodes_cons in Hps as (ps1 & ps2 & He & Ht & ->). apply IH in Ht as (ps2' & Ht & Hp).
    exists (ps1 ++ ps2'). split; [apply tableOpcodes_cons; by exists ps1, ps2'|]. by rewrite Hp.
  - apply tableOpcodes_cons in Hps as (ps1 & ps' & H1 & Ht & ->). apply tableOpcodes_cons in Ht as (ps2 & ps3 & H2 & H3 & ->).
    exists (ps2 ++ (ps1 ++ ps3)). split; [|by rewrite !app_assoc, (Permutation_app_comm ps1 ps2)].
    apply tableOpcodes_cons. exists ps2, (ps1 ++ ps3). split_and!; [done| |done]. apply tableOpcodes_cons. by exists ps1, ps3.
  - apply IH1 in Hps as (ps2 & H2 & Hp2). apply IH2 in H2 as (ps3 & H3 & Hp3). exists ps3. split; [done|]. by rewrite Hp2.
Qed.

Lemma tableOpcodes_elem table : forall ps name opcode, tableOpcodes table = Some ps ->
  (name, opcode) ∈ ps <-> exists id raws raw, (name, VArray id raws) ∈ table /\ raw ∈ raws /\ opcodeOf raw = Some opcode.
Proof.
  induction table as [|[n v] table IH]; intros ps name opcode Hps.
  - injection Hps as <-. split; [by intros ?%not_elem_of_nil|]. by intros (? & ? & ? & ?%not_elem_of_nil & _).
  - apply tableOpcodes_cons in Hps as (ps1 & ps2 & He & Ht & ->). rewrite elem_of_app, (IH _ _ _ Ht).
    unfold entryOpcodes in He. cbn [fst snd] in He. destruct v as [| | | | | | |id raws| |]; try done.
    apply mapM_Some in He. split.
    + intros [Hin|(i & rs & raw & Hin & Hr)]; [|exists i, rs, raw; split; [by right|done]].
      apply list_elem_of_lookup in Hin as (j & Hj). pose proof (Forall2_lookup_r _ _ _ _ _ He Hj) as (raw & Hraw & Ho).
      exists id, raws, raw. destruct (opcodeOf raw); [|done]. injection Ho as -> ->.
      split_and!; [left|by eapply list_elem_of_lookup_2|done].
    + intros (i & rs & raw & Hin & Hr & Ho). apply elem_of_cons in Hin as [[= -> -> ->]|Hin]; [left|right; by exists i, rs, raw].
      apply list_elem_of_lookup in Hr as (j & Hj). pose proof (Forall2_lookup_l _ _ _ _ _ He Hj) as (p & Hp & Heq).
      rewrite Ho in Heq. injection Heq as <-. by eapply list_elem_of_lookup_2.
Qed.

(** The codecs by opcode, as pairs. *)
Abbreviation codec_pairs ps := (omap (fun p : gstr * Z => pair p.2 <$> nativeCompactCodecByName p.1) ps).

Lemma NoDup_codec_pairs ps : NoDup ps.*2 -> NoDup (codec_pairs ps).*1.
Proof.
  induction ps as [|[name op] ps IH]; [constructor|]. cbn. rewrite NoDup_cons. intros [Hop Hnd].
  destruct (nativeCompactCodecByName name); cbn; [|by apply IH]. apply NoDup_cons. split; [|by apply IH].
  intros ([o c] & Ho & Hin)%list_elem_of_fmap. cbn in Ho. subst o.
  apply list_elem_of_omap in Hin as ([n' o] & Hin & Hc). cbn in Hc. destruct (nativeCompactCodecByName n'); [|done].
  injection Hc as -> ->. apply Hop, list_elem_of_fmap. by exists (n', op).
Qed.

Lemma codecsOf_lookup ps opcode codec : NoDup ps.*2 ->
  codecsOf ps !! opcode = Some codec <-> exists name, (name, opcode) ∈ ps /\ nativeCompactCodecByName name = Some codec.
Proof.
  intros Hnd. unfold codecsOf. rewrite <- elem_of_list_to_map by by apply NoDup_codec_pairs. rewrite list_elem_of_omap. split.
  - intros ([name o] & Hin & Hc). cbn in Hc. destruct (nativeCompactCodecByName name) eqn:E; [|done]. injection Hc as -> ->.
    by exists name.
  - intros (name & Hin & Hc). exists (name, opcode). split; [done|]. cbn. by rewrite Hc.
Qed.

Definition readTable (table : mapping) : result helloError (gmap Z nativeCompactCodec) :=
  rmap t_codecs (rfold addCodec (CodecTable ∅ ∅ 0) table).

(** The codecs negotiated for a connection do not depend on the order in which Go
    ranges over the advertised table: an accepted table is accepted in every order, with
    the same result, and an opcode has a codec exactly when the table lists it under the
    name of a codec this version knows. *)
Theorem codec_table_exact table table' m : table ≡ₚ table' -> readTable table = Ok m ->
  readTable table' = Ok m /\
  forall opcode codec, m !! opcode = Some codec <->
    exists name id raws raw, (name, VArray id raws) ∈ table /\ raw ∈ raws /\ opcodeOf raw = Some opcode /\
      nativeCompactCodecByName name = Some codec.
Proof.
  intros Hp (ps & Hps & Hnd & Hlen & ->)%readTable_ok. split.
  - destruct (tableOpcodes_perm _ _ Hp _ Hps) as (ps' & Hps' & Hpp). apply readTable_ok. exists ps'.
    split_and!; [done|by rewrite <- Hpp|unfold blen; by rewrite <- Hpp|].
    unfold codecsOf. apply list_to_map_proper; [by apply NoDup_codec_pairs|]. by rewrite Hpp.
  - intros opcode codec. rewrite codecsOf_lookup by done. setoid_rewrite (tableOpcodes_elem _ _ _ _ Hps). split.
    + intros (name & (id & raws & raw & H1 & H2 & H3) & H4). by exists name, id, raws, raw.
    + intros (name & id & raws & raw & H1 & H2 & H3 & H4). exists name. split; [by exists id, raws, raw|done].
Qed.

Definition example_table : mapping :=
  [(go "kv_get_v1", VArray None [VInt IInt64 257]); (go "next_v2", VArray None [VInt IInt64 300]);
   (go "pipeline_v1", VArray None [VInt IInt64 14])].

Definition example_codecs : gmap Z nativeCompactCodec := {[257 := CodecKVGet; 14 := CodecPipeline]}.

Lemma codec_table_exact_witness : readTable (rev example_table) = Ok example_codecs.
Proof.
  exact (proj1 (codec_table_exact example_table (rev example_table) example_codecs
    (Permutation_rev example_table) ltac:(vm_compute; reflexivity))).
Defined.

(** ** The limits of an accepted contract *)

Record contract_ok (configuredMaxResponseBytes : Z) (authenticated : bool) (c : nativeHelloContract) : Prop := {
  frame_ok : 0 < maxRequestFrameBytes c <= nativeMaxFrameBytes;
  unauthenticated_ok : authenticated = false -> maxRequestFrameBytes c <= nativeUnauthenticatedFrameBytes;
  response_ok : 0 < maxResponseBytes c <= configuredResponseBytes configuredMaxResponseBytes;
  commands_ok : 0 <= maxPipelineCommands c <= max_int;
  lanes_ok : 1 <= maxDataLanes c <= max_uint32;
  credits_ok : 0 <= connectionCredits c <= max_int /\ 0 <= laneCredits c <= max_int /\ 0 <= laneQueue c <= max_int;
  codecs_ok : negotiated (responseCodecs c) = true;
  query_ok : exists q, flowQuery c = Some q /\ ResultContract q = flowQueryResultContract /\
    (forall name : gstr, name ∈ requiredNativeFlowQueryCapabilities -> supportsCapability q name = true) /\
    (forall shape : gstr, shape ∈ requiredNativeFlowQueryShapes -> supportsShape q shape = true);
}.

Lemma optionalInteger_range m key positive n : optionalNativeCapabilityInteger m key positive = Some n ->
  (if positive then 0 < n else 0 <= n).
Proof.
  unfold optionalNativeCapabilityInteger. destruct (topologyInteger _) as [z|]; [|done].
  destruct positive; [destruct (Z.ltb_spec 0 z)|destruct (Z.leb_spec 0 z)]; by intros [= <-].
Qed.

(** A limit taken from the server within a bound, or the default. *)
Lemma limit_range m key (positive : bool) (hi d lo : Z) : lo = (if positive then 1 else 0) -> lo <= d <= hi ->
  lo <= match optionalNativeCapabilityInteger m key positive with
        | Some raw => if raw <=? hi then raw else d | None => d end <= hi.
Proof.
  intros -> Hd. destruct (optionalNativeCapabilityInteger m key positive) as [raw|] eqn:E; [|done].
  apply optionalInteger_range in E. destruct (Z.leb_spec raw hi); [|done]. destruct positive; lia.
Qed.

Lemma required_positive m key n : requiredPositiveNativeCapability m key = Ok n -> 0 < n.
Proof.
  unfold requiredPositiveNativeCapability. destruct (assoc_get key m) as [v|]; [|done]. destruct (topologyInteger v) as [z|]; [|done].
  destruct (Z.leb_spec z 0); [done|]. intros [= <-]. lia.
Qed.

Lemma codecs_negotiated v c : parseNativeResponseCodecs v = Ok c -> negotiated c = true.
Proof.
  unfold parseNativeResponseCodecs. intros H. apply rbind_ok in H as (m & _ & H). destruct (field_of _ m) as [|[]| | | | | | | |]; try done.
  apply rbind_ok in H as (table & _ & H). destruct (_ <? _); [done|]. by apply rbind_ok in H as (t & _ & [= <-]).
Qed.

Lemma flowQuery_supported capabilities q : parseNativeFlowQueryContract capabilities = Ok q ->
  ResultContract q = flowQueryResultContract /\
  (forall name : gstr, name ∈ requiredNativeFlowQueryCapabilities -> supportsCapability q name = true) /\
  (forall shape : gstr, shape ∈ requiredNativeFlowQueryShapes -> supportsShape q shape = true).
Proof.
  unfold parseNativeFlowQueryContract. intros H.
  apply rbind_ok in H as (manifest & _ & H). apply rbind_ok in H as (rq & _ & H). apply rbind_ok in H as (rs & Hrs & H).
  apply rbind_ok in H as (ex & _ & H). apply rbind_ok in H as (ix & _ & H). apply rbind_ok in H as (cs & _ & H).
  apply rbind_ok in H as (ls & _ & H). apply rbind_ok in H as (ss & _ & H). apply rbind_ok in H as (? & _ & H).
  apply rbind_ok in H as (? & Hcs & H). apply rbind_ok in H as (? & Hss & H). apply rbind_ok in H as (? & _ & [= <-]).
  apply rguard_ok, bool_decide_eq_true in Hcs. apply rguard_ok, bool_decide_eq_true in Hss.
  rewrite Forall_forall in Hcs, Hss. cbn. split_and!.
  - unfold contractField in Hrs. apply rbind_ok in Hrs as (value & _ & Hrs). case_bool_decide; [|done]. by injection Hrs as <-.
  - intros name Hn. apply bool_decide_eq_true. by apply Hcs.
  - intros shape Hs. apply bool_decide_eq_true. by apply Hss.
Qed.

Lemma frame_range limits d : 0 < d <= nativeMaxFrameBytes ->
  0 < match optionalNativeCapabilityInteger limits (go "max_frame_bytes") true with
      | Some raw => boundedNativeFrameBytes raw | None => d end <= nativeMaxFrameBytes.
Proof.
  intros Hd. destruct (optionalNativeCapabilityInteger _ _ _) as [raw|] eqn:E; [|done].
  apply optionalInteger_range in E. unfold boundedNativeFrameBytes.
  destruct (Z.ltb_spec nativeMaxFrameBytes raw); [by unfold nativeMaxFrameBytes|lia].
Qed.

Lemma configured_positive configured : 0 < configuredResponseBytes configured.
Proof. unfold configuredResponseBytes, nativeDefaultResponseBytes. destruct (Z.leb_spec configured 0); lia. Qed.

Lemma hello_parsed sprint v configured c : parseNativeHelloContract sprint v configured = Ok c ->
  contract_ok configured true c.
Proof.
  unfold parseNativeHelloContract. intros H.
  apply rbind_ok in H as (hello & _ & H). apply rbind_ok in H as (? & _ & H). apply rbind_ok in H as (? & _ & H).
  apply rbind_ok in H as (auth & _ & H). apply rbind_ok in H as (capabilities & _ & H). apply rbind_ok in H as (? & _ & H).
  apply rbind_ok in H as (? & _ & H). apply rbind_ok in H as (q & Hq & H). apply rbind_ok in H as (pipeline & _ & H).
  apply rbind_ok in H as (modes & _ & H). apply rbind_ok in H as (limits & _ & H). apply rbind_ok in H as (bytes & Hbytes & H).
  apply rbind_ok in H as (multiplexing & _ & H). apply rbind_ok in H as (flowControl & _ & H).
  apply rbind_ok in H as (rawCodecs & _ & H). apply rbind_ok in H as (codecs & Hcodecs & H).
  apply rbind_ok in H as (evs & _ & [= <-]). apply required_positive in Hbytes. pose proof (configured_positive configured).

  constructor; cbn [maxRequestFrameBytes maxResponseBytes maxPipelineCommands maxDataLanes connectionCredits laneCredits laneQueue
    responseCodecs flowQuery defaultNativeHelloContract].
  - by apply frame_range.
  - done.
  - unfold boundedNativePositiveInt, max_int, max_int64. split; [lia|]. apply Z.le_min_l.
  - by apply (limit_range _ _ false).
  - by apply (limit_range _ _ true).
  - split; [|split]; by apply (limit_range _ _ false).
  - by eapply codecs_negotiated.
  - exists q. split; [done|]. by eapply flowQuery_supported.
Qed.

Lemma constrained configured authenticated c : contract_ok configured true c ->
  contract_ok configured authenticated (constrainNativeContractForAuthentication c authenticated).
Proof.
  intros [Hf _ Hr Hc Hl Hcr Hco Hq]. unfold constrainNativeContractForAuthentication. destruct authenticated; cbn [negb andb].
  - constructor; done.
  - destruct (Z.leb_spec (maxRequestFrameBytes c) 0); [lia|]. cbn [orb].
    destruct (Z.ltb_spec nativeUnauthenticatedFrameBytes (maxRequestFrameBytes c)); constructor; try done.
Qed.

Lemma lane_in_range n lane n' : 1 <= maxDataLanes (n_contract n) -> nextDataLane n = (lane, n') ->
  1 <= lane <= maxDataLanes (n_contract n) /\ n_contract n' = n_contract n.
Proof.
  intros Hl [= <- <-]. destruct (Z.eqb_spec (maxDataLanes (n_contract n)) 0); [lia|]. split; [|done].
  pose proof (Z.mod_pos_bound (wrap 32 (wrap 32 (n_nextLane n + 1) - 1)) (maxDataLanes (n_contract n)) ltac:(lia)). lia.
Qed.

(** The lanes given to the next [k] requests. *)
Fixpoint lanes_of (k : nat) (n : negotiation) : list Z :=
  match k with O => [] | S k => let (lane, n) := nextDataLane n in lane :: lanes_of k n end.

Lemma lanes_of_range k : forall n, 1 <= maxDataLanes (n_contract n) ->
  Forall (fun lane => 1 <= lane <= maxDataLanes (n_contract n)) (lanes_of k n).
Proof.
  induction k as [|k IH]; intros n Hn; [constructor|]. cbn [lanes_of]. destruct (nextDataLane n) as [lane n'] eqn:E.
  apply lane_in_range in E as [Hlane Hn']; [|done]. constructor; [done|]. rewrite <- Hn'. apply IH. by rewrite Hn'.
Qed.

(** What a connection works with after an accepted HELLO is within its limits,
    whatever the server advertised: frames of at least one byte and at most the
    protocol's (64 KiB before authentication), responses no larger than configured,
    between one and the configured number of lanes, with every request on one of them,
    credits that are Go integers, and a query contract with everything this version
    needs. *)
Theorem hello_contract_bounded sprint v configured authenticated c protocolLanes maxQueued k :
  0 <= protocolLanes <= max_uint32 ->
  parseNativeHelloContract sprint v configured = Ok c ->
  let n := applyHelloContractLocked protocolLanes maxQueued (constrainNativeContractForAuthentication c authenticated) in
  contract_ok configured authenticated (n_contract n) /\
  maxDataLanes (n_contract n) <= (if protocolLanes =? 0 then nativeDefaultProtocolLanes else protocolLanes) /\
  Forall (fun lane => 1 <= lane <= maxDataLanes (n_contract n)) (lanes_of k n).
Proof.
  intros Hp H n. apply hello_parsed, (constrained _ authenticated) in H. destruct H as [Hf Hu Hr Hc Hl Hcr Hco Hq].
  set (c' := constrainNativeContractForAuthentication c authenticated) in *.
  set (configuredLanes := if protocolLanes =? 0 then nativeDefaultProtocolLanes else protocolLanes).
  assert (1 <= configuredLanes <= max_uint32) as Hconf.
  { unfold configuredLanes, nativeDefaultProtocolLanes, max_uint32 in *. destruct (Z.eqb_spec protocolLanes 0); lia. }
  assert (1 <= maxDataLanes (n_contract n) <= configuredLanes) as Hlanes.
  { unfold n, applyHelloContractLocked. cbn [n_contract maxDataLanes]. fold configuredLanes.
    destruct (Z.eqb_spec (maxDataLanes c') 0), (Z.ltb_spec configuredLanes (maxDataLanes c')); cbn [orb]; lia. }
  split; [|split; [lia|apply lanes_of_range; lia]].
  constructor; try done. lia.
Qed.

(** A HELLO with everything that is required, and larger limits than the client's. *)
Definition example_hello : val :=
  let texts l := VArray None (VBytes <$> l) in
  VMap None [
    (go "protocol", VBytes (go "ferricstore-native")); (go "version", VInt IInt64 1);
    (go "capabilities", VMap None [
      (go "protocol_versions", VArray None [VInt IInt64 1]);
      (go "schemas", VMap None [
        (go "FLOW.POLICY.SET", VMap None [(go "fields", texts [go "replace"; go "expected_generation"])]);
        (go "FLOW.QUERY", VMap None [(go "fields", texts [go "version"; go "query"; go "params"; go "deadline_ms"]);
           (go "required", texts [go "version"; go "query"])])]);
      (go "flow_query", VMap None [
        (go "request_contract", VBytes flowQueryRequestContract); (go "result_contract", VBytes flowQueryResultContract);
        (go "explain_contract", VBytes flowExplainContract); (go "index_status_contract", VBytes flowQueryIndexesContract);
        (go "capabilities", texts requiredNativeFlowQueryCapabilities);
        (go "language_versions", texts [flowQueryLanguageVersion]); (go "shapes", texts requiredNativeFlowQueryShapes)]);
      (go "limits", VMap None [(go "max_response_bytes", VInt IInt64 (2 ^ 40)); (go "max_frame_bytes", VInt IInt64 (2 ^ 40))]);
      (go "multiplexing", VMap None [(go "max_lanes_per_connection", VInt IInt64 3)]);
      (go "response_codecs", VMap None [(go "typed_value", VBool true);
        (go "compact_response_opcodes", VMap None example_table)])])].

Lemma example_hello_accepted : is_ok (parseNativeHelloContract (fun _ => []) example_hello 4096) = true.
Proof. vm_compute. reflexivity. Qed.

Lemma hello_contract_bounded_witness : exists c,
  parseNativeHelloContract (fun _ => []) example_hello 4096 = Ok c /\
  let n := applyHelloContractLocked 2 10 (constrainNativeContractForAuthentication c false) in
  contract_ok 4096 false (n_contract n) /\ maxDataLanes (n_contract n) <= 2 /\
  Forall (fun lane => 1 <= lane <= maxDataLanes (n_contract n)) (lanes_of 3 n).
Proof.
  pose proof example_hello_accepted as Hok.
  destruct (parseNativeHelloContract (fun _ => []) example_hello 4096) as [c|e] eqn:E; [|discriminate Hok].
  exists c. split; [reflexivity|].
  exact (hello_contract_bounded (fun _ => []) example_hello 4096 false c 2 10 3 ltac:(split; vm_compute; discriminate) E).
Defined.
