(* ===== verification/AutoBatch.v ===== *)
(** The autobatch executor (src/auto_batch.go, src/auto_batch_pipeline.go,
    src/auto_batch_kv.go, src/auto_batch_kv_request.go): concurrent commands are queued,
    gathered into batches by one loop and sent as pipelines, one at a time.

    The first part is what a batch sends and how its results go back to the requests.
    The second is the loop with its channels, its timer, its flushes, the goroutine of a
    pipeline and the closing of the executor, as a step relation. The client below is a
    parameter. *)

From S2P Require Export GoValue.

(** ** Requests *)

Inductive autoBatchTypedKVKind := TypedNone | TypedMGet | TypedMSet | TypedMSetNX | TypedDel | TypedExists.

#[global] Instance typed_kind_eq_dec : EqDecision autoBatchTypedKVKind.
Proof. solve_decision. Defined.

Record autoBatchRequestControl := Control {
  typedKind : autoBatchTypedKVKind;
  typedKeys : list gstr;
  typedValues : list val;
  pipelineCommands : option (list (list val));
  allowQueued : bool;
  flush_ : bool;
}.

Definition autoBatchDisallowQueuedControl : autoBatchRequestControl := Control TypedNone [] [] None false false.
Definition autoBatchFlushControl : autoBatchRequestControl := Control TypedNone [] [] None false true.

(** The result channel of a request is its number. *)
Record autoBatchRequest := Request {
  q_result : nat;
  q_args : list val;
  q_control : option autoBatchRequestControl;
}.

Definition isFlushRequest (r : autoBatchRequest) : bool :=
  match q_control r with Some c => flush_ c | None => false end.
Definition queueAllowed (r : autoBatchRequest) : bool :=
  match q_control r with Some c => allowQueued c | None => true end.
Definition explicitPipeline (r : autoBatchRequest) : option (list (list val)) :=
  match q_control r with Some c => pipelineCommands c | None => None end.

Definition keyListCommandArgs (command : gstr) (keys : list gstr) : list val := VString command :: (VString <$> keys).

Fixpoint keyValuePairs (keys : list gstr) (values : list val) : list val :=
  match keys, values with
  | key :: keys, value :: values => VString key :: value :: keyValuePairs keys values
  | _, _ => []
  end.
Definition keyValuePairCommandArgs (command : gstr) (keys : list gstr) (values : list val) : list val :=
  VString command :: keyValuePairs keys values.

Definition commandArgs (r : autoBatchRequest) : list val :=
  match q_control r with
  | None => q_args r
  | Some c =>
      match typedKind c with
      | TypedMGet => keyListCommandArgs (go "MGET") (typedKeys c)
      | TypedMSet => keyValuePairCommandArgs (go "MSET") (typedKeys c) (typedValues c)
      | TypedMSetNX => keyValuePairCommandArgs (go "MSETNX") (typedKeys c) (typedValues c)
      | TypedDel => keyListCommandArgs (go "DEL") (typedKeys c)
      | TypedExists => keyListCommandArgs (go "EXISTS") (typedKeys c)
      | TypedNone => q_args r
      end
  end.

(** ** One batch *)

Section Batch.
(** The outcome of one command, the errors of the client. *)
Context {I E : Type}.

(** The client below: its pipelines, which typed commands its executor offers, and the
    outcome of one. *)
Record clientBelow := ClientBelow {
  pipelineDetailedWithQueuePolicy : list (list val) -> option (list bool) -> result E (list I);
  offers : autoBatchTypedKVKind -> bool;
  executeTypedKVDirect : autoBatchRequest -> I;
}.

(** What a request is answered with: an outcome, or those of its explicit pipeline. *)
Inductive batchItem := Single (i : I) | Grouped (items : list I).

Inductive batchError :=
| BatchCancelled
| BatchTimeout                 (* of the flush, or of closing *)
| BatchFailed (e : E)
| BatchCount.                  (* another number of results than of commands *)

Definition canExecuteTypedKVDirect (c : clientBelow) (r : autoBatchRequest) : bool :=
  match q_control r with
  | Some control => match typedKind control with TypedNone => false | kind => offers c kind end
  | None => false
  end.

(** The policies of a pipeline: none when every command may be queued. *)
Definition policies (allowed : list bool) : option (list bool) :=
  if forallb id allowed then None else Some allowed.

Definition requestCommands (r : autoBatchRequest) : list (list val) :=
  match explicitPipeline r with Some commands => commands | None => [commandArgs r] end.

(** An explicit pipeline has no policy of its own. *)
Definition requestPolicies (r : autoBatchRequest) : list bool :=
  match explicitPipeline r with Some commands => replicate (length commands) true | None => [queueAllowed r] end.

(** The loop that hands the flat results back. *)
Fixpoint groupResults (requests : list autoBatchRequest) (flat : list I) : list batchItem :=
  match requests with
  | [] => []
  | r :: requests =>
      match explicitPipeline r with
      | Some commands => Grouped (take (length commands) flat) :: groupResults requests (drop (length commands) flat)
      | None => match flat with i :: flat => Single i :: groupResults requests flat | [] => [] end
      end
  end.

Definition batched (c : clientBelow) (requests : list autoBatchRequest) : result batchError (list batchItem) :=
  let commands := concat (requestCommands <$> requests) in
  let allowed := policies (concat (requestPolicies <$> requests)) in
  match pipelineDetailedWithQueuePolicy c commands allowed with
  | Err e => Err (BatchFailed e)
  | Ok flat =>
      if forallb (fun r => match explicitPipeline r with None => true | Some _ => false end) requests
      then Ok (Single <$> flat)
      else if negb (length flat =? length commands)%nat then Err BatchCount
      else Ok (groupResults requests flat)
  end.

(** [executeAutoBatchRequests]. *)
Definition executeAutoBatchRequests (c : clientBelow) (requests : list autoBatchRequest) : result batchError (list batchItem) :=
  match requests with
  | [r] => if canExecuteTypedKVDirect c r then Ok [Single (executeTypedKVDirect c r)] else batched c requests
  | _ => batched c requests
  end.

(** The end of [flush], once the pipeline has answered: the replies, and the error of
    the whole flush. *)
Inductive autoBatchResult := ReplyItem (item : batchItem) | ReplyError (e : batchError) | ReplyFlushed (e : option batchError).

Definition failAll (active : list autoBatchRequest) (e : batchError) : list (nat * autoBatchResult) :=
  (fun r => (q_result r, ReplyError e)) <$> active.

Definition finishFlush (active : list autoBatchRequest) (answer : result batchError (list batchItem))
  : list (nat * autoBatchResult) * option batchError :=
  match answer with
  | Err e => (failAll active e, Some e)
  | Ok results =>
      if negb (length results =? length active)%nat then (failAll active BatchCount, Some BatchCount)
      else (zip_with (fun r item => (q_result r, ReplyItem item)) active results, None)
  end.

(** *** The results of a batch go to the requests that asked for them *)

Definition answers (r : autoBatchRequest) (outcomes : list I) (item : batchItem) : Prop :=
  match explicitPipeline r with
  | Some _ => item = Grouped outcomes
  | None => exists i, outcomes = [i] /\ item = Single i
  end.

Definition commandCount (r : autoBatchRequest) : nat := length (requestCommands r).

(** [item] is what [c] made of the commands of [r], sent in the batch [active]. *)
Definition answered (c : clientBelow) (active : list autoBatchRequest) (r : autoBatchRequest) (item : batchItem) : Prop :=
  exists pre post, active = pre ++ r :: post /\
    ((active = [r] /\ canExecuteTypedKVDirect c r = true /\ item = Single (executeTypedKVDirect c r)) \/
     exists flat,
       pipelineDetailedWithQueuePolicy c (concat (requestCommands <$> active)) (policies (concat (requestPolicies <$> active))) = Ok flat /\
       length flat = length (concat (requestCommands <$> active)) /\
       answers r (take (commandCount r) (drop (length (concat (requestCommands <$> pre))) flat)) item).

Lemma answers_explicit r commands outcomes : explicitPipeline r = Some commands -> answers r outcomes (Grouped outcomes).
Proof. intros Hr. unfold answers. by rewrite Hr. Qed.

Lemma answers_single r i : explicitPipeline r = None -> answers r [i] (Single i).
Proof. intros Hr. unfold answers. rewrite Hr. by exists i. Qed.

Lemma requestCommands_explicit r commands : explicitPipeline r = Some commands -> requestCommands r = commands.
Proof. intros Hr. unfold requestCommands. by rewrite Hr. Qed.

Lemma requestCommands_single r : explicitPipeline r = None -> requestCommands r = [commandArgs r].
Proof. intros Hr. unfold requestCommands. by rewrite Hr. Qed.

Lemma groupResults_length requests : forall flat,
  length flat = length (concat (requestCommands <$> requests)) -> length (groupResults requests flat) = length requests.
Proof.
  induction requests as [|r requests IH]; intros flat Hl; [done|]. cbn [groupResults fmap list_fmap concat] in *.
  rewrite length_app in Hl. destruct (explicitPipeline r) as [commands|] eqn:Hr.
  - rewrite (requestCommands_explicit _ _ Hr) in Hl. cbn. rewrite IH; [done|]. rewrite length_drop. lia.
  - rewrite (requestCommands_single _ Hr) in Hl. destruct flat as [|i flat]; [done|]. cbn in *. rewrite IH; [done|]. lia.
Qed.

Lemma groupResults_answers pre : forall r post flat,
  length flat = length (concat (requestCommands <$> (pre ++ r :: post))) ->
  exists item, groupResults (pre ++ r :: post) flat !! length pre = Some item /\
    answers r (take (commandCount r) (drop (length (concat (requestCommands <$> pre))) flat)) item.
Proof.
  induction pre as [|p pre IH]; intros r post flat Hl; cbn [groupResults app fmap list_fmap concat length] in *; rewrite length_app in Hl.
  - unfold commandCount. rewrite drop_0. destruct (explicitPipeline r) as [commands|] eqn:Hr.
    + rewrite (requestCommands_explicit _ _ Hr) in *. eexists; split; [reflexivity|]. by eapply answers_explicit.
    + rewrite (requestCommands_single _ Hr) in *. destruct flat as [|i flat]; [done|]. cbn. eexists; split; [reflexivity|].
      rewrite take_0. by apply answers_single.
  - destruct (explicitPipeline p) as [commands|] eqn:Hp.
    + rewrite (requestCommands_explicit _ _ Hp) in *.
      destruct (IH r post (drop (length commands) flat)) as (item & Hi & Ha); [rewrite length_drop; lia|].
      exists item. split; [exact Hi|]. by rewrite length_app, <- drop_drop.
    + rewrite (requestCommands_single _ Hp) in *. destruct flat as [|i flat]; [done|]. cbn [length] in *.
      destruct (IH r post flat) as (item & Hi & Ha); [lia|]. exists item. split; [exact Hi|]. exact Ha.
Qed.

(** Without explicit pipelines the groups are the outcomes. *)
Lemma groupResults_singles requests : forall flat,
  forallb (fun r => match explicitPipeline r with None => true | Some _ => false end) requests = true ->
  length flat = length requests -> groupResults requests flat = Single <$> flat.
Proof.
  induction requests as [|r requests IH]; intros [|i flat] Hs Hl; try done. cbn in *.
  destruct (explicitPipeline r); [done|]. cbn in *. f_equal. by apply IH; [|lia].
Qed.

Lemma commands_singles requests :
  forallb (fun r => match explicitPipeline r with None => true | Some _ => false end) requests = true ->
  length (concat (requestCommands <$> requests)) = length requests.
Proof.
  induction requests as [|r requests IH]; [done|]. cbn. destruct (explicitPipeline r) eqn:Hr; [done|]. intros H.
  by rewrite (requestCommands_single _ Hr), length_app, IH.
Qed.

Lemma batched_ok c active results : batched c active = Ok results -> length results = length active ->
  exists flat, pipelineDetailedWithQueuePolicy c (concat (requestCommands <$> active)) (policies (concat (requestPolicies <$> active))) = Ok flat /\
    length flat = length (concat (requestCommands <$> active)) /\ results = groupResults active flat.
Proof.
  unfold batched. destruct (pipelineDetailedWithQueuePolicy _ _ _) as [flat|]; [|done].
  destruct (forallb _ active) eqn:Hs.
  - intros [= <-] Hl. rewrite length_fmap in Hl. exists flat. split_and!; [done|by rewrite commands_singles|].
    by rewrite groupResults_singles.
  - destruct (Nat.eqb_spec (length flat) (length (concat (requestCommands <$> active)))); [|done]. intros [= <-] _. by exists flat.
Qed.

(** Every request of a batch gets one reply, and a reply with an outcome is the outcome
    of its own commands. *)
Lemma deliver_replies active a : (finishFlush active a).1.*1 = q_result <$> active.
Proof.
  unfold finishFlush. destruct a as [results|e].
  - destruct (Nat.eqb_spec (length results) (length active)) as [Hl|]; cbn [negb fst].
    + revert results Hl. induction active as [|r active IH]; intros [|i results] Hl; try done. cbn in *. f_equal. apply IH. lia.
    + unfold failAll. rewrite <- list_fmap_compose. by apply list_fmap_ext.
  - cbn [fst]. unfold failAll. rewrite <- list_fmap_compose. by apply list_fmap_ext.
Qed.

Lemma failAll_no_item active e id item : (id, ReplyItem item) ∉ failAll active e.
Proof. unfold failAll. intros (r & Hr & _)%list_elem_of_fmap. done. Qed.

Lemma deliver_answered c active id item :
  (id, ReplyItem item) ∈ (finishFlush active (executeAutoBatchRequests c active)).1 ->
  exists r, r ∈ active /\ q_result r = id /\ answered c active r item.
Proof.
  unfold finishFlush. destruct (executeAutoBatchRequests c active) as [results|e] eqn:Hx; cbn [fst]; [|by intros ?%failAll_no_item].
  destruct (Nat.eqb_spec (length results) (length active)) as [Hl|]; cbn [negb fst]; [|by intros ?%failAll_no_item].
  intros (j & Hj)%list_elem_of_lookup. apply lookup_zip_with_Some in Hj as (r & it & Heq & Hr & Hit).
  injection Heq as -> ->. exists r. split; [by eapply list_elem_of_lookup_2|]. split; [done|].
  destruct (list_elem_of_split_length _ _ _ Hr) as (pre & post & -> & Hpre). exists pre, post. split; [done|].
  assert (forall results, batched c (pre ++ r :: post) = Ok results -> length results = length (pre ++ r :: post) ->
    results !! j = Some it -> exists flat,
       pipelineDetailedWithQueuePolicy c (concat (requestCommands <$> (pre ++ r :: post)))
         (policies (concat (requestPolicies <$> (pre ++ r :: post)))) = Ok flat /\
       length flat = length (concat (requestCommands <$> (pre ++ r :: post))) /\
       answers r (take (commandCount r) (drop (length (concat (requestCommands <$> pre))) flat)) it) as Hb.
  { intros rs Hrs Hlen Hget. apply batched_ok in Hrs as (flat & Hp & Hf & ->); [|done]. exists flat. split_and!; [done|done|].
    destruct (groupResults_answers pre r post flat Hf) as (it' & Hit' & Ha). subst j. rewrite Hit' in Hget. by injection Hget as <-. }
  unfold executeAutoBatchRequests in Hx. destruct (pre ++ r :: post) as [|r1 [|r2 l]] eqn:Ha; [by right; eapply Hb| |by right; eapply Hb].
  destruct (canExecuteTypedKVDirect c r1) eqn:Hd; [|by right; eapply Hb]. left.
  destruct pre as [|p pre]; [|by destruct pre]. injection Ha as -> ->. injection Hx as <-. subst j. injection Hit as <-. done.
Qed.
End Batch.

(** ** The loop *)

Section Loop.
Context {I E : Type}.
(** The size of a batch and of the queue, both positive. *)
Context (maxSize queueSize : nat).

Abbreviation request := autoBatchRequest.
Abbreviation batchReply := (nat * @autoBatchResult I E)%type.
Abbreviation outcome := (result (@batchError E) (list (@batchItem I))).

(** What a flush does when it has ended: nothing, answer the request that asked for it,
    or end the loop. *)
Inductive after := Resume | Acknowledge (r : request) | Finish.

(** Where the loop is. *)
Inductive loopPhase :=
| Selecting
| Received (r : request)                            (* the slot of [r] not given back yet *)
| Flushing (k : after)
| Acquiring (active : list request) (k : after)     (* [acquirePipelineSlot] *)
| Waiting (active : list request) (k : after)       (* for the goroutine of the pipeline *)
| Flushed (err : option (@batchError E)) (k : after)
| WaitingForPipeline
| Done.

(** The goroutine of a flush, until it has given the pipeline slot back. *)
Inductive runner := Running (active : list request) | Posted.

Record AutoBatchExecutor := Executor {
  queueSlots : nat;
  reserved : nat;                  (* slots held by submitters *)
  requests : list request;
  pipelineSlot : bool;
  isClosed : bool;                 (* and [closed] *)
  closeErr : option (@batchError E);
  batch : list request;
  timerActive : bool;
  at_ : loopPhase;
  draining : option bool;          (* [drainAndFlush], and whether it has a terminal error *)
  goroutine : option runner;
  resultCh : option outcome;       (* of the flush that waits *)
  replies : list batchReply;
  accepted : list request;         (* every request sent to the loop, in order *)
  sent : list (list request);      (* every batch given to the client, in order *)
}.

Definition newAutoBatchExecutor : AutoBatchExecutor :=
  Executor queueSize 0 [] true false None [] false Selecting None None None [] [] [].

(** *** Updates *)

Definition with_phase (p : loopPhase) (s : AutoBatchExecutor) :=
  Executor (queueSlots s) (reserved s) (requests s) (pipelineSlot s) (isClosed s) (closeErr s) (batch s) (timerActive s) p
    (draining s) (goroutine s) (resultCh s) (replies s) (accepted s) (sent s).
Definition with_slots (free held : nat) (s : AutoBatchExecutor) :=
  Executor free held (requests s) (pipelineSlot s) (isClosed s) (closeErr s) (batch s) (timerActive s) (at_ s)
    (draining s) (goroutine s) (resultCh s) (replies s) (accepted s) (sent s).
Definition with_queue (q all : list request) (s : AutoBatchExecutor) :=
  Executor (queueSlots s) (reserved s) q (pipelineSlot s) (isClosed s) (closeErr s) (batch s) (timerActive s) (at_ s)
    (draining s) (goroutine s) (resultCh s) (replies s) all (sent s).
Definition with_closed (s : AutoBatchExecutor) :=
  Executor (queueSlots s) (reserved s) (requests s) (pipelineSlot s) true (closeErr s) (batch s) (timerActive s) (at_ s)
    (draining s) (goroutine s) (resultCh s) (replies s) (accepted s) (sent s).
Definition with_batch (b : list request) (timer : bool) (s : AutoBatchExecutor) :=
  Executor (queueSlots s) (reserved s) (requests s) (pipelineSlot s) (isClosed s) (closeErr s) b timer (at_ s)
    (draining s) (goroutine s) (resultCh s) (replies s) (accepted s) (sent s).
Definition with_draining (d : option bool) (s : AutoBatchExecutor) :=
  Executor (queueSlots s) (reserved s) (requests s) (pipelineSlot s) (isClosed s) (closeErr s) (batch s) (timerActive s) (at_ s)
    d (goroutine s) (resultCh s) (replies s) (accepted s) (sent s).
Definition with_runner (slot : bool) (g : option runner) (ch : option outcome) (s : AutoBatchExecutor) :=
  Executor (queueSlots s) (reserved s) (requests s) slot (isClosed s) (closeErr s) (batch s) (timerActive s) (at_ s)
    (draining s) g ch (replies s) (accepted s) (sent s).
Definition with_sent (b : list request) (s : AutoBatchExecutor) :=
  Executor (queueSlots s) (reserved s) (requests s) (pipelineSlot s) (isClosed s) (closeErr s) (batch s) (timerActive s) (at_ s)
    (draining s) (goroutine s) (resultCh s) (replies s) (accepted s) (sent s ++ [b]).
Definition replying (rs : list batchReply) (s : AutoBatchExecutor) :=
  Executor (queueSlots s) (reserved s) (requests s) (pipelineSlot s) (isClosed s) (closeErr s) (batch s) (timerActive s) (at_ s)
    (draining s) (goroutine s) (resultCh s) (replies s ++ rs) (accepted s) (sent s).
(** [setCloseError]. *)
Definition setCloseError (err : option (@batchError E)) (s : AutoBatchExecutor) :=
  Executor (queueSlots s) (reserved s) (requests s) (pipelineSlot s) (isClosed s)
    (match closeErr s with Some e => Some e | None => err end) (batch s) (timerActive s) (at_ s)
    (draining s) (goroutine s) (resultCh s) (replies s) (accepted s) (sent s).

(** *** The loop's reactions *)

Definition replyError (e : @batchError E) (r : request) : batchReply := (q_result r, ReplyError e).

(** A request has been received: the cases of the loop and of [drainAndFlush]. *)
Definition dispatch (r : request) (s : AutoBatchExecutor) : AutoBatchExecutor :=
  match draining s with
  | Some true =>
      let answer := if isFlushRequest r then (q_result r, ReplyFlushed (Some BatchTimeout)) else replyError BatchTimeout r in
      with_phase Selecting (replying [answer] s)
  | mode =>
      if isFlushRequest r then with_phase (Flushing (Acknowledge r)) s
      else
        (* [startTimer], outside of [drainAndFlush], for the first request of a batch *)
        let timer := match mode, batch s with None, [] => true | _, _ => timerActive s end in
        let s := with_batch (batch s ++ [r]) timer s in
        if (maxSize <=? length (batch s))%nat then with_phase (Flushing Resume) s else with_phase Selecting s
  end.

(** [flush] up to [acquirePipelineSlot]; [cancelled]: the requests whose context has ended. *)
Definition startFlush (cancelled : request -> bool) (k : after) (s : AutoBatchExecutor) : AutoBatchExecutor :=
  match batch s with
  | [] => with_phase (Flushed None k) s
  | all =>
      let active := List.filter (fun r => negb (cancelled r)) all in
      let s := replying (failAll (List.filter cancelled all) BatchCancelled) (with_batch [] false s) in
      match active with
      | [] => with_phase (Flushed None k) s
      | _ => with_phase (Acquiring active k) s
      end
  end.

(** A flush has ended without a result of its pipeline. *)
Definition failFlush (active : list request) (k : after) (s : AutoBatchExecutor) : AutoBatchExecutor :=
  with_phase (Flushed (Some BatchTimeout) k) (replying (failAll active BatchTimeout) s).

(** The end of [flush] in the loop; [expired]: the context of [drainAndFlush] has ended. *)
Definition endFlush (err : option (@batchError E)) (k : after) (expired : bool) (s : AutoBatchExecutor) : AutoBatchExecutor :=
  let s := if isClosed s then setCloseError err s else s in
  let terminal :=
    match draining s, err with
    | Some t, Some _ => Some (t || expired)
    | d, _ => d
    end in
  match k with
  | Resume => with_phase Selecting (with_draining terminal s)
  | Acknowledge r => with_phase Selecting (with_draining terminal (replying [(q_result r, ReplyFlushed err)] s))
  | Finish => with_phase WaitingForPipeline s
  end.

(** Who takes a step: a submitter or [Close], the loop, the goroutine of a pipeline. *)
Inductive actor := Caller | Loop | Pipeline_.

Inductive step : actor -> AutoBatchExecutor -> AutoBatchExecutor -> Prop :=
(* submitters: [reserveQueueSlot], giving a slot back, [sendReserved] *)
| S_reserve s n : queueSlots s = S n -> step Caller s (with_slots n (S (reserved s)) s)
| S_giveBack s n : reserved s = S n -> (queueSlots s < queueSize)%nat -> step Caller s (with_slots (S (queueSlots s)) n s)
| S_send s n r : reserved s = S n -> isClosed s = false -> (length (requests s) < queueSize)%nat ->
    q_result r ∉ q_result <$> accepted s ->
    step Caller s (with_queue (requests s ++ [r]) (accepted s ++ [r]) (with_slots (queueSlots s) n s))
(* [Close] *)
| S_close s : step Caller s (with_closed s)
(* the loop receives a request, and gives its slot back *)
| S_receive s r q : at_ s = Selecting -> requests s = r :: q ->
    step Loop s (with_phase (Received r) (with_queue q (accepted s) s))
| S_slot s r : at_ s = Received r -> (queueSlots s < queueSize)%nat ->
    step Loop s (dispatch r (with_slots (S (queueSlots s)) (reserved s) s))
(* the timer, and the closing *)
| S_timer s : at_ s = Selecting -> draining s = None -> batch s <> [] -> timerActive s = true ->
    step Loop s (with_phase (Flushing Resume) (with_batch (batch s) false s))
| S_drain s : at_ s = Selecting -> draining s = None -> isClosed s = true -> step Loop s (with_draining (Some false) s)
| S_drained s t : at_ s = Selecting -> draining s = Some t -> requests s = [] ->
    step Loop s (if t then with_phase WaitingForPipeline (with_batch [] (timerActive s) (replying (failAll (batch s) BatchTimeout) s))
            else with_phase (Flushing Finish) s)
(* a flush *)
| S_flush s k cancelled : at_ s = Flushing k -> step Loop s (startFlush cancelled k s)
| S_acquire s active k : at_ s = Acquiring active k -> pipelineSlot s = true ->
    step Loop s (with_phase (Waiting active k) (with_sent active (with_runner false (Some (Running active)) None s)))
| S_acquireFailed s active k : at_ s = Acquiring active k -> step Loop s (failFlush active k s)
| S_result s active k out : at_ s = Waiting active k -> resultCh s = Some out ->
    step Loop s (with_phase (Flushed (finishFlush active out).2 k) (replying (finishFlush active out).1 s))
| S_waitFailed s active k : at_ s = Waiting active k -> step Loop s (failFlush active k s)
| S_flushed s err k expired : at_ s = Flushed err k -> step Loop s (endFlush err k expired s)
(* the goroutine: it posts its result, then gives the pipeline slot back *)
| S_post s active c : goroutine s = Some (Running active) ->
    step Pipeline_ s (with_runner (pipelineSlot s) (Some Posted) (Some (executeAutoBatchRequests c active)) s)
| S_release s : goroutine s = Some Posted -> step Pipeline_ s (with_runner true None (resultCh s) s)
(* [waitForPipeline] *)
| S_end s : at_ s = WaitingForPipeline -> pipelineSlot s = true -> step Loop s (with_phase Done s)
| S_endTimeout s : at_ s = WaitingForPipeline -> step Loop s (with_phase Done (setCloseError (Some BatchTimeout) s)).

Definition reachable : AutoBatchExecutor -> Prop := rtc (fun s s' => exists a, step a s s') newAutoBatchExecutor.

(** The steps the executor takes by itself. *)
Definition internal (s s' : AutoBatchExecutor) : Prop := exists a, a <> Caller /\ step a s s'.

(** ** Where a request is *)

Definition afterRequests (k : after) : list request := match k with Acknowledge r => [r] | _ => [] end.

(** Requests the loop is working on. *)
Definition phaseRequests (p : loopPhase) : list request :=
  match p with
  | Received r => [r]
  | Flushing k | Flushed _ k => afterRequests k
  | Acquiring active k | Waiting active k => active ++ afterRequests k
  | _ => []
  end.

Definition pending (s : AutoBatchExecutor) : list request := requests s ++ phaseRequests (at_ s) ++ batch s.

(** The result channels of requests, and those that have been answered. *)
Definition ids (l : list request) : list nat := q_result <$> l.
Definition repliedIds (l : list batchReply) : list nat := l.*1.

Definition occ (id : nat) (l : list nat) : nat := count_occ Nat.eq_dec l id.
Definition one (id x : nat) : nat := if (x =? id)%nat then 1 else 0.

Lemma occ_app id l k : occ id (l ++ k) = (occ id l + occ id k)%nat.
Proof. apply count_occ_app. Qed.

Lemma occ_cons id x l : occ id (x :: l) = (one id x + occ id l)%nat.
Proof.
  unfold occ, one. cbn. destruct (Nat.eq_dec x id) as [->|Hx]; [by rewrite Nat.eqb_refl|].
  apply Nat.eqb_neq in Hx. by rewrite Hx.
Qed.

Lemma occ_nil id : occ id [] = 0%nat.
Proof. done. Qed.

Lemma occ_notin id l : id ∉ l <-> occ id l = 0%nat.
Proof. unfold occ. rewrite <- count_occ_not_In. by rewrite <- list_elem_of_In. Qed.

Lemma occ_NoDup l : NoDup l <-> forall id, (occ id l <= 1)%nat.
Proof. rewrite NoDup_ListNoDup. apply (NoDup_count_occ Nat.eq_dec). Qed.

Lemma ids_app l k : ids (l ++ k) = ids l ++ ids k.
Proof. apply fmap_app. Qed.
Lemma ids_cons r l : ids (r :: l) = q_result r :: ids l.
Proof. done. Qed.
Lemma ids_nil : ids [] = [].
Proof. done. Qed.
Lemma repliedIds_app l k : repliedIds (l ++ k) = repliedIds l ++ repliedIds k.
Proof. apply fmap_app. Qed.
Lemma repliedIds_cons x l : repliedIds (x :: l) = x.1 :: repliedIds l.
Proof. done. Qed.
Lemma repliedIds_nil : repliedIds [] = [].
Proof. done. Qed.
Lemma repliedIds_failAll l e : repliedIds (failAll l e) = ids l.
Proof. unfold repliedIds, failAll, ids. rewrite <- list_fmap_compose. by apply list_fmap_ext. Qed.
Lemma repliedIds_deliver l out : repliedIds (finishFlush l out).1 = ids l.
Proof. apply deliver_replies. Qed.

(** The requests of a batch are the cancelled ones and the others. *)
Lemma occ_filter id (f : request -> bool) l :
  occ id (ids l) = (occ id (ids (List.filter f l)) + occ id (ids (List.filter (fun r => negb (f r)) l)))%nat.
Proof.
  induction l as [|r l IH]; [done|]. cbn [List.filter]. destruct (f r); cbn [negb]; rewrite !ids_cons, !occ_cons; lia.
Qed.

Create Rewrite HintDb count.
Hint Rewrite ids_app ids_cons ids_nil repliedIds_app repliedIds_cons repliedIds_nil repliedIds_failAll repliedIds_deliver
  occ_app occ_cons occ_nil : count.

(** Every accepted request is in one place: it waits, the loop has it, or it has been answered. *)
Definition places (s : AutoBatchExecutor) : Prop :=
  forall id, occ id (ids (accepted s)) = (occ id (ids (pending s)) + occ id (repliedIds (replies s)))%nat.

Ltac proj := cbn [with_phase with_slots with_queue with_closed with_batch with_draining with_runner with_sent replying
  setCloseError queueSlots reserved requests pipelineSlot isClosed closeErr batch timerActive at_ draining goroutine resultCh
  replies accepted sent phaseRequests afterRequests fst snd] in *.
Ltac count := proj; autorewrite with count in *; cbn [fst] in *; lia.

Lemma startFlush_places cancelled k s : at_ s = Flushing k -> places s -> places (startFlush cancelled k s).
Proof.
  intros Hat H id. specialize (H id). unfold startFlush, pending in *. rewrite Hat in H. cbn [phaseRequests] in H.
  destruct (batch s) as [|r0 b] eqn:Hb; [cbn; rewrite Hb; exact H|].
  pose proof (occ_filter id cancelled (r0 :: b)) as Hf.
  destruct (List.filter (fun r => negb (cancelled r)) (r0 :: b)) as [|a l] eqn:Ha;
    cbn [with_phase replying with_batch accepted requests at_ batch replies phaseRequests]; autorewrite with count in *; lia.
Qed.

(** The cases of a step. *)
Ltac step_cases H := destruct H as [s n Hslots|s n Hres Hfree|s n r Hres Hopen Hroom Hfresh|s|s r q Hat Hq|s r Hat Hfree
    |s Hat Hd Hb Htimer|s Hat Hd Hclosed|s t Hat Hd Hq|s k cancelled Hat|s active k Hat Hslot|s active k Hat|s active k out Hat Hout
    |s active k Hat|s err k expired Hat|s active c Hg|s Hg|s Hat Hslot|s Hat].

Ltac loop_cases := unfold dispatch, failFlush, endFlush, replyError in *;
  repeat (proj; match goal with
    | |- context [match draining ?s with _ => _ end] => destruct (draining s) as [[]|] eqn:?
    | |- context [if isFlushRequest ?r then _ else _] => destruct (isFlushRequest r)
    | |- context [if (maxSize <=? ?n)%nat then _ else _] => destruct (Nat.leb_spec maxSize n)
    | |- context [if isClosed ?s then _ else _] => destruct (isClosed s) eqn:?
    | k : after |- context [match ?k with _ => _ end] => destruct k
    | t : bool |- context [if ?t then _ else _] => destruct t
    end); proj.

Lemma places_step a s s' : step a s s' -> places s -> places s'.
Proof.
  intros Hstep H. step_cases Hstep; try (by apply startFlush_places); intros id; specialize (H id); unfold pending in *;
    try rewrite Hat in H; try rewrite Hq in H; loop_cases; try rewrite Hat; try rewrite Hq; try count.
Qed.

(** ** The other invariants *)

Definition received (p : loopPhase) : nat := match p with Received _ => 1 | _ => 0 end.

(** The loop has seen an empty queue behind a closed executor. *)
Definition final (p : loopPhase) : bool :=
  match p with
  | Flushing Finish | Acquiring _ Finish | Waiting _ Finish | Flushed _ Finish | WaitingForPipeline | Done => true
  | _ => false
  end.

Definition selecting (p : loopPhase) : bool := match p with Selecting | Received _ => true | _ => false end.

Definition batchBound (p : loopPhase) (b : list request) : Prop :=
  match p with
  | Selecting | Received _ => (length b < maxSize)%nat
  | Flushing _ => (length b <= maxSize)%nat
  | _ => b = []
  end.

Definition full (b : list request) : Prop := b <> [] /\ (length b <= maxSize)%nat.

Definition activeBound (p : loopPhase) : Prop :=
  match p with Acquiring active _ | Waiting active _ => full active | _ => True end.

(** The batch behind the last one sent. *)
Definition unsent (p : loopPhase) : list request := match p with Acquiring active _ => active | _ => [] end.
Definition inHand (p : loopPhase) : list request := match p with Received r => [r] | _ => [] end.

(** The result of a flush that waits comes from its own goroutine. *)
Definition ownResult (active : list request) (g : option runner) (ch : option outcome) : Prop :=
  (g = Some (Running active) /\ ch = None) \/
  ((forall a, g <> Some (Running a)) /\ exists c, ch = Some (executeAutoBatchRequests c active)).

(** Replies without an outcome. *)
Definition silent (rs : list batchReply) : Prop := forall id item, (id, ReplyItem item) ∉ rs.

Lemma silent_failAll active e : silent (failAll active e).
Proof. intros id item. apply failAll_no_item. Qed.

Lemma silent_error id e : silent [(id, ReplyError e)].
Proof. intros id' item Hin. by apply list_elem_of_singleton in Hin. Qed.

Lemma silent_flushed id e : silent [(id, ReplyFlushed e)].
Proof. intros id' item Hin. by apply list_elem_of_singleton in Hin. Qed.

Create HintDb silent.
#[local] Hint Resolve silent_failAll silent_error silent_flushed : silent.

Definition itemsFrom (batches : list (list request)) (rs : list batchReply) : Prop :=
  forall id item, (id, ReplyItem item) ∈ rs ->
    exists (c : @clientBelow I E) active r, active ∈ batches /\ r ∈ active /\ q_result r = id /\ answered c active r item.

Lemma itemsFrom_silent batches rs rs' : silent rs' -> itemsFrom batches rs -> itemsFrom batches (rs ++ rs').
Proof. intros Hs H id item [Hin|Hin]%elem_of_app; [by apply H|by apply Hs in Hin]. Qed.

Lemma itemsFrom_sent batches b rs : itemsFrom batches rs -> itemsFrom (batches ++ [b]) rs.
Proof. intros H id item Hin. destruct (H id item Hin) as (c & a & r & ? & ? & ? & ?). exists c, a, r. split_and!; try done. apply elem_of_app. by left. Qed.

Lemma itemsFrom_deliver batches rs active (c : @clientBelow I E) : active ∈ batches -> itemsFrom batches rs ->
  itemsFrom batches (rs ++ (finishFlush active (executeAutoBatchRequests c active)).1).
Proof.
  intros Ha H id item [Hin|Hin]%elem_of_app; [by apply H|]. apply deliver_answered in Hin as (r & Hr & Hid & Han). by exists c, active, r.
Qed.

Record wf (s : AutoBatchExecutor) : Prop := {
  w_slots : (queueSlots s + reserved s + length (requests s) + received (at_ s) = queueSize)%nat;
  w_slot : pipelineSlot s = bool_decide (goroutine s = None);
  w_closed : draining s <> None -> isClosed s = true;
  w_final : final (at_ s) = true -> isClosed s = true /\ requests s = [];
  w_batch : batchBound (at_ s) (batch s);
  w_active : activeBound (at_ s);
  w_sent : Forall full (sent s);
  w_timer : selecting (at_ s) = true -> draining s = None -> batch s <> [] -> timerActive s = true;
  w_result : forall active k, at_ s = Waiting active k -> active ∈ sent s /\ ownResult active (goroutine s) (resultCh s);
  w_order : concat (sent s) ++ unsent (at_ s) ++ batch s ++ inHand (at_ s) ++ requests s `sublist_of` accepted s;
  w_items : itemsFrom (sent s) (replies s);
}.

Hypothesis Hmax : (0 < maxSize)%nat.

Lemma filter_sublist (f : request -> bool) l : List.filter f l `sublist_of` l.
Proof. induction l as [|x l IH]; [constructor|]. cbn. destruct (f x); by constructor. Qed.

Lemma filter_length_le (f : request -> bool) l : (length (List.filter f l) <= length l)%nat.
Proof. apply sublist_length, filter_sublist. Qed.

Lemma wf_startFlush cancelled k s : at_ s = Flushing k -> wf s -> wf (startFlush cancelled k s).
Proof.
  intros Hat [H1 H2 H3 H4 H5 H6 H7 H8 H9 H10 H11]. rewrite Hat in *. unfold startFlush.
  destruct (batch s) as [|r0 b] eqn:Hb.
  { constructor; proj; rewrite ?Hb; try done; try (by destruct k). }
  cbn [batchBound] in H5.
  pose proof (filter_sublist (fun r => negb (cancelled r)) (r0 :: b)) as Hsub.
  pose proof (sublist_length _ _ Hsub) as Hlen.
  pose proof (itemsFrom_silent _ _ _ (silent_failAll (List.filter cancelled (r0 :: b)) BatchCancelled) H11) as Hit.
  assert (forall l, l `sublist_of` r0 :: b ->
    concat (sent s) ++ l ++ [] ++ [] ++ requests s `sublist_of` accepted s) as Hord.
  { intros l Hl. etrans; [|exact H10]. cbn [unsent inHand].
    apply (sublist_app (concat (sent s)) (concat (sent s)) (l ++ requests s) ((r0 :: b) ++ requests s)); [done|].
    by apply (sublist_app l (r0 :: b) (requests s) (requests s)). }
  destruct (List.filter (fun r => negb (cancelled r)) (r0 :: b)) as [|a l] eqn:Ha; constructor; proj; try done; try (by destruct k).
  - apply (Hord []). apply sublist_nil_l.
  - split; [done|]. cbn [length] in *. lia.
  - by apply (Hord (a :: l)).
Qed.

(** Dropping requests from a sequence. *)
Ltac sublist_drop := rewrite <- ?app_assoc in *; cbn [app] in *;
  repeat first [reflexivity | apply sublist_app; [reflexivity|] | apply sublist_inserts_l | apply sublist_cons].

Lemma ownResult_running active a ch : ownResult active (Some (Running a)) ch -> a = active /\ ch = None.
Proof. intros [[[= ->] ->]|[Hn _]]; [done|]. by destruct (Hn a). Qed.

Lemma ownResult_posted active c : ownResult active (Some Posted) (Some (executeAutoBatchRequests c active)).
Proof. right. split; [done|by exists c]. Qed.

Lemma ownResult_released active ch : ownResult active (Some Posted) ch -> ownResult active None ch.
Proof. intros [[? _]|[_ ?]]; [done|]. by right. Qed.

Lemma wf_preserved a s s' : step a s s' -> wf s -> wf s'.
Proof.
  intros Hstep H. step_cases Hstep; try (by apply wf_startFlush); destruct H as [H1 H2 H3 H4 H5 H6 H7 H8 H9 H10 H11];
    try rewrite Hat in *; try rewrite Hq in *.
  all: constructor; loop_cases; cbn [received final selecting batchBound activeBound unsent inHand] in *; try rewrite Hat; try done; try lia;
    try (rewrite ?length_app in *; cbn [length] in *; lia);
    try (intros _; apply H3; congruence);
    try (etrans; [|exact H10]; sublist_drop; fail);
    try (apply itemsFrom_silent; [by auto with silent|exact H11]).
  all: try (rewrite H5; cbn [length]; exact Hmax); try (intros _; apply H3; destruct d; congruence);
    try (rewrite ?Hq; cbn [length] in *; lia);
    try (rewrite ?Hq; cbn [app] in *; etrans; [|exact H10]; sublist_drop; fail);
    try (intros _ ?; apply H8; done); try (intros _ ? ?; congruence);
    try (intros _; apply H3; congruence); try (intros _; rewrite ?Hq; split; [apply H3; congruence|done]);
    try (intros _; done); try (intros _; by apply H4); try (intros Hf; destruct (H4 Hf); by try congruence);
    try (intros ? ? [= <- <-]; split; [by apply elem_of_app; right; left|by left]);
    try (apply itemsFrom_sent; done); 
    try (intros _; assert (false = true) by (apply H3; congruence); done).
  1: { rewrite !app_assoc in *. by apply sublist_app. }
  1: { intros _ Hd Hb. destruct (batch s); [done|]. by apply H8. }
  1: { apply Forall_app_2; [done|]. by constructor. }
  1: { rewrite concat_app. cbn [concat]. rewrite app_nil_r, <- app_assoc. exact H10. }
  1: { destruct (H9 active k eq_refl) as (Ha & [[_ Hn]|[_ [c Hc]]]); [congruence|]. assert (out = executeAutoBatchRequests c active) as -> by congruence. by apply itemsFrom_deliver. }
  1: { rewrite H2, Hg. done. }
  1: { intros a k Hat. destruct (H9 a k Hat) as [Ha Ho]. rewrite Hg in Ho. apply ownResult_running in Ho as [-> _]. split; [done|apply ownResult_posted]. }
  1: { intros a k Hat. destruct (H9 a k Hat) as [Ha Ho]. rewrite Hg in Ho. split; [done|by apply ownResult_released]. }
Qed.
(** Every result channel belongs to one request. *)
Lemma accepted_step a s s' : step a s s' -> NoDup (ids (accepted s)) -> NoDup (ids (accepted s')).
Proof.
  intros Hstep H. step_cases Hstep; loop_cases; try done.
  - rewrite ids_app. apply NoDup_app. split_and!; [done| |apply NoDup_singleton]. intros x Hx Hr. apply list_elem_of_singleton in Hr. by subst x.
  - unfold startFlush. destruct (batch s); [done|]. by destruct (List.filter _ _).
Qed.

Record invariant (s : AutoBatchExecutor) : Prop := { i_places : places s; i_wf : wf s; i_ids : NoDup (ids (accepted s)) }.

Lemma invariant_init : invariant newAutoBatchExecutor.
Proof.
  constructor; [done| |constructor]. constructor; cbn; try done; try lia; try constructor. intros id item Hin. by apply not_elem_of_nil in Hin.
Qed.

Lemma invariant_step a s s' : step a s s' -> invariant s -> invariant s'.
Proof. intros Hstep [? ? ?]. constructor; [by eapply places_step|by eapply wf_preserved|by eapply accepted_step]. Qed.

Lemma reachable_invariant s : reachable s -> invariant s.
Proof.
  intros Hr. eapply (rtc_ind_r (fun s => invariant s)); [apply invariant_init| |exact Hr].
  intros y z _ [a Hs] H. by eapply invariant_step.
Qed.

(** A count in every place is a permutation. *)
Lemma places_permutation s : places s -> ids (accepted s) ≡ₚ ids (pending s) ++ repliedIds (replies s).
Proof. intros H. apply (Permutation_count_occ Nat.eq_dec). intros id. specialize (H id). rewrite <- occ_app in H. exact H. Qed.

(** ** What the executor guarantees *)


(** No send of the executor blocks: a submitter that holds a slot finds room in the queue
    of requests, the loop finds room for the slot of a request it received, a goroutine for
    the pipeline slot, and the channel of a request that is answered is empty. *)
Theorem autobatch_sends_never_block s : reachable s ->
  ((0 < reserved s)%nat -> (length (requests s) < queueSize)%nat /\ (queueSlots s < queueSize)%nat) /\
  (forall r, at_ s = Received r -> (queueSlots s < queueSize)%nat) /\
  (goroutine s <> None -> pipelineSlot s = false) /\
  (forall r, r ∈ pending s -> q_result r ∉ repliedIds (replies s)).
Proof.
  intros [Hp Hw Hi]%reachable_invariant. pose proof (w_slots s Hw) as Hs. split_and!.
  - lia.
  - intros r Hat. rewrite Hat in Hs. cbn in Hs. lia.
  - intros Hg. rewrite (w_slot s Hw). by apply bool_decide_eq_false.
  - intros r Hr. rewrite (places_permutation s Hp) in Hi. apply NoDup_app in Hi as (_ & Hd & _).
    apply (Hd (q_result r)). apply list_elem_of_fmap. by exists r.
Qed.

(** When the loop has ended every accepted request has been answered, once. *)
Lemma drained s : reachable s -> at_ s = Done -> ids (accepted s) ≡ₚ repliedIds (replies s).
Proof.
  intros [Hp Hw Hi]%reachable_invariant Hat. destruct (w_final s Hw) as [Hc Hq]; [by rewrite Hat|].
  pose proof (w_batch s Hw) as Hb. rewrite Hat in Hb. rewrite (places_permutation s Hp). unfold pending. by rewrite Hat, Hq, Hb.
Qed.

(** ** The loop of a closed executor ends *)

Definition afterRank (k : after) : nat := match k with Finish => 1 | _ => 12 end.

Definition phaseRank (p : loopPhase) : nat :=
  (match p with
  | Done => 0
  | WaitingForPipeline => 1
  | Selecting => 12
  | Received _ => 31
  | Flushed _ k => 1 + afterRank k
  | Waiting _ k => 2 + afterRank k
  | Acquiring _ k => 6 + afterRank k
  | Flushing k => 8 + afterRank k
  end)%nat.

Definition runnerRank (g : option runner) : nat := match g with Some (Running _) => 2 | Some Posted => 1 | None => 0 end.

Definition measure (s : AutoBatchExecutor) : nat :=
  (20 * length (requests s) + phaseRank (at_ s) + (if timerActive s then 9 else 0) + runnerRank (goroutine s)
    + match draining s with None => 1 | _ => 0 end)%nat.

Lemma startFlush_measure cancelled k s : at_ s = Flushing k -> (measure (startFlush cancelled k s) < measure s)%nat.
Proof.
  intros Hat. unfold measure, startFlush. destruct (batch s); [|destruct (List.filter _ _)]; proj; rewrite Hat; cbn [phaseRank];
    destruct (timerActive s); lia.
Qed.

Lemma endFlush_measure err k expired s : at_ s = Flushed err k -> (measure (endFlush err k expired s) < measure s)%nat.
Proof.
  intros Hat. unfold measure, endFlush.
  destruct (isClosed s), k, (draining s) as [t|] eqn:Hd, err; proj; rewrite ?Hat, ?Hd; cbn [phaseRank afterRank]; lia.
Qed.

Lemma measure_step a s s' : step a s s' -> a <> Caller -> wf s -> (measure s' < measure s)%nat.
Proof.
  intros Hstep Ha Hw. step_cases Hstep; try done; try (by apply startFlush_measure); try (by apply endFlush_measure);
    try (assert (goroutine s = None) as Hg by (pose proof (w_slot s Hw) as Hx; rewrite Hslot in Hx; by apply bool_decide_eq_true in Hx));
    unfold measure; loop_cases; rewrite ?Hat, ?Hq, ?Hd, ?Hg, ?Htimer; try (match goal with H : draining s = _ |- _ => rewrite H end);
    cbn [length phaseRank afterRank runnerRank]; try (destruct (timerActive s)); try lia; try (destruct (batch s)); try lia; congruence.
Qed.

Lemma internal_reachable s s' : reachable s -> internal s s' -> reachable s'.
Proof. intros Hr (a & _ & Hs). eapply rtc_r; [exact Hr|by exists a]. Qed.

Lemma closed_step a s s' : step a s s' -> isClosed s = true -> isClosed s' = true.
Proof.
  intros Hstep H. step_cases Hstep; loop_cases; try done. unfold startFlush. destruct (batch s); [done|]. by destruct (List.filter _ _).
Qed.

(** Every internal step leaves less to do. *)
Lemma internal_sn s : reachable s -> sn internal s.
Proof.
  remember (measure s) as n eqn:Hn. revert s Hn. induction (lt_wf n) as [n _ IH]. intros s -> Hr. constructor. intros s' Hs.
  eapply IH; [|done|by eapply internal_reachable]. destruct Hs as (a & Ha & Hs). eapply measure_step; [exact Hs|done|].
  by apply i_wf, reachable_invariant.
Qed.

Lemma loop_progress s : reachable s -> isClosed s = true -> at_ s <> Done -> red internal s.
Proof.
  intros Hr Hc Hat. pose proof (i_wf s (reachable_invariant s Hr)) as Hw. pose proof (w_slots s Hw) as Hslots.
  assert (forall s', step Loop s s' -> red internal s) as Hloop by (intros s' Hs; exists s', Loop; done).
  destruct (at_ s) as [|r|k|active k|active k|err k| |] eqn:Hp; try done.
  - destruct (draining s) as [t|] eqn:Hd; [|by eapply Hloop, S_drain].
    destruct (requests s) as [|r q] eqn:Hq; [by eapply Hloop, S_drained|by eapply Hloop, S_receive].
  - eapply Hloop, S_slot; [done|]. cbn [received] in Hslots. lia.
  - by eapply Hloop, (S_flush s k (fun _ => false)).
  - by eapply Hloop, S_acquireFailed.
  - by eapply Hloop, S_waitFailed.
  - by eapply Hloop, (S_flushed s err k false).
  - by eapply Hloop, S_endTimeout.
Qed.

(** C32: Once the executor is closed its loop ends, whatever the client and the deadlines do:
    the steps of the loop and of the pipeline goroutine cannot go on for ever, from no
    reachable state, and when none is left the loop has ended and every accepted request has
    been answered. *)
Theorem autobatch_close_ends s : reachable s ->
  sn internal s /\
  (isClosed s = true -> forall s', rtc internal s s' -> nf internal s' ->
     at_ s' = Done /\ ids (accepted s') ≡ₚ repliedIds (replies s')).
Proof.
  intros Hr. split; [by apply internal_sn|]. intros Hc s' Hs Hnf.
  assert (reachable s' /\ isClosed s' = true) as [Hr' Hc'].
  { clear Hnf. induction Hs as [|x y z (a & Ha & Hx) _ IH]; [done|]. apply IH; [|by eapply closed_step]. by eapply internal_reachable; [|exists a]. }
  assert (at_ s' = Done) as Hat.
  { destruct (at_ s') eqn:Hp; try done; destruct Hnf; apply loop_progress; try done; congruence. }
  split; [done|]. by apply drained.
Qed.
End Loop.

(** ** A run *)

(** The client numbers the commands of a pipeline. *)
Definition numbering : @clientBelow nat nat :=
  ClientBelow (fun commands _ => Ok (seq 0 (length commands))) (fun _ => false) (fun _ => 0%nat).

Definition sample1 : autoBatchRequest := Request 1 [VString (go "PING")] None.
Definition sample2 : autoBatchRequest :=
  Request 2 [] (Some (Control TypedNone [] [] (Some [[VString (go "GET"); VString (go "a")]; [VString (go "PING")]]) true false)).

(** Two requests in a batch of two, after the executor has been closed. *)
Definition sample_replies : list (nat * @autoBatchResult nat nat) :=
  [(1%nat, ReplyItem (Single 0%nat)); (2%nat, ReplyItem (Grouped [1%nat; 2%nat]))].
Definition sample_state : @AutoBatchExecutor nat nat :=
  Executor 2 0 [] true true None [] false Selecting None None (Some (Ok [Single 0%nat; Grouped [1%nat; 2%nat]]))
    sample_replies [sample1; sample2] [[sample1; sample2]].

Tactic Notation "by_step" uconstr(c) :=
  eapply rtc_l; [eexists; eapply c; cbn; first [reflexivity | lia | discriminate | by apply (bool_decide_unpack _)]|];
  lazymatch goal with |- rtc _ ?s _ => let s' := eval vm_compute in s in replace s with s' by (vm_compute; reflexivity) end.

Lemma batched_reachable : reachable 2 2 sample_state.
Proof.
  unfold reachable, newAutoBatchExecutor.
  by_step (S_reserve 2 2 _ 1). by_step (S_reserve 2 2 _ 0). by_step (S_send 2 2 _ 1 sample1). by_step (S_send 2 2 _ 0 sample2).
  by_step (S_receive 2 2 _ sample1 [sample2]). by_step (S_slot 2 2 _ sample1).
  by_step (S_receive 2 2 _ sample2 []). by_step (S_slot 2 2 _ sample2).
  by_step (S_flush 2 2 _ Resume (fun _ => false)). by_step (S_acquire 2 2 _ [sample1; sample2] Resume).
  by_step (S_post 2 2 _ [sample1; sample2] numbering). by_step (S_release 2 2 _). by_step (S_close 2 2 _).
  by_step (S_result 2 2 _ [sample1; sample2] Resume (Ok [Single 0%nat; Grouped [1%nat; 2%nat]])).
  by_step (S_flushed 2 2 _ None Resume false).
  apply rtc_refl.
Qed.


Lemma autobatch_sends_never_block_witness :
  (goroutine sample_state <> None -> pipelineSlot sample_state = false) /\
  (forall r, r ∈ pending sample_state -> q_result r ∉ repliedIds sample_replies).
Proof. destruct (autobatch_sends_never_block 2 2 ltac:(lia) sample_state batched_reachable) as (_ & _ & Hg & H). split; [exact Hg|exact H]. Defined.

Lemma autobatch_close_ends_witness : sn (internal 2 2) sample_state /\ (forall s', rtc (internal 2 2) sample_state s' -> nf (internal 2 2) s' ->
  at_ s' = Done /\ ids (accepted s') ≡ₚ repliedIds (replies s')).
Proof. destruct (autobatch_close_ends 2 2 ltac:(lia) sample_state batched_reachable) as (Hsn & H). split; [exact Hsn|exact (H eq_refl)]. Defined.
