(* ===== verification/FlowTypes.v ===== *)
(** The options of the Flow commands (src/types.go, src/types_flow_operations.go). A Go
    map is the list of its entries, with distinct keys; a pointer is an [option]; a field
    of type [any] is a dynamic value. *)

From S2P Require Export GoValue.

Abbreviation valueMap := (list (gstr * val)).
Abbreviation textMap := (list (gstr * gstr)).

Record NamedValues := Named {
  nv_Values : valueMap;
  nv_ValueRefs : textMap;
  nv_DropValues : list gstr;
  nv_OverrideValues : list gstr;
  nv_AttributesMerge : valueMap;
  nv_AttributesDelete : list gstr;
}.

(** [NamedValues{Values: values, ValueRefs: refs}]. *)
Definition valuesAndRefs (values : valueMap) (refs : textMap) : NamedValues := Named values refs [] [] [] [].

(** ** Items of batches *)

Record CreateItem := CreateItemOf {
  ci_ID : gstr;
  ci_Payload : val;
  ci_PartitionKey : gstr;
  ci_Values : valueMap;
  ci_ValueRefs : textMap;
  ci_Attributes : valueMap;
  ci_StateMeta : valueMap;
  ci_MaxActiveMS : val;
}.

Record ChildSpec := ChildOf {
  ch_ID : gstr;
  ch_Type : gstr;
  ch_Payload : val;
  ch_PartitionKey : gstr;
  ch_Values : valueMap;
  ch_ValueRefs : textMap;
  ch_Attributes : valueMap;
  ch_StateMeta : valueMap;
  ch_MaxActiveMS : val;
}.

(** [ClaimedItem], in the fields a mutation reads. *)
Record ClaimedItemRef := ClaimedOf {
  cl_ID : gstr;
  cl_LeaseToken : gstr;
  cl_FencingToken : Z;
  cl_PartitionKey : gstr;
}.

Record FencedItem := FencedOf {
  fe_ID : gstr;
  fe_FencingToken : Z;
  fe_LeaseToken : gstr;
  fe_PartitionKey : gstr;
}.

Record RunStepsItem := RunStepsItemOf { ri_ID : gstr; ri_PartitionKey : gstr }.

(** ** Creation and claims *)

Record CreateOptions := CreateOf {
  cr_ID : gstr;
  cr_Type : gstr;
  cr_State : gstr;
  cr_Payload : val;
  cr_PartitionKey : gstr;
  cr_ParentFlowID : gstr;
  cr_RootFlowID : gstr;
  cr_CorrelationID : gstr;
  cr_RunAtMS : Z;
  cr_NowMS : Z;
  cr_Priority : option Z;
  cr_Idempotent : option bool;
  cr_RetentionTTLMS : option Z;
  cr_MaxActiveMS : val;
  cr_Values : valueMap;
  cr_ValueRefs : textMap;
  cr_Attributes : valueMap;
  cr_StateMeta : valueMap;
}.

Record CreateManyOptions := CreateManyOf {
  cm_PartitionKey : gstr;
  cm_Items : list CreateItem;
  cm_Type : gstr;
  cm_State : gstr;
  cm_RunAtMS : Z;
  cm_NowMS : Z;
  cm_Priority : option Z;
  cm_Idempotent : option bool;
  cm_Independent : option bool;
  cm_RetentionTTLMS : option Z;
  cm_MaxActiveMS : val;
  cm_Values : valueMap;
  cm_ValueRefs : textMap;
  cm_Attributes : valueMap;
  cm_StateMeta : valueMap;
}.

Record StartAndClaimOptions := StartAndClaimOf {
  sc_ID : gstr;
  sc_Type : gstr;
  sc_InitialState : gstr;
  sc_Worker : gstr;
  sc_LeaseMS : Z;
  sc_Payload : val;
  sc_PartitionKey : gstr;
  sc_ParentFlowID : gstr;
  sc_RootFlowID : gstr;
  sc_CorrelationID : gstr;
  sc_NowMS : Z;
  sc_Priority : option Z;
  sc_RetentionTTLMS : option Z;
  sc_MaxActiveMS : val;
  sc_Values : valueMap;
  sc_ValueRefs : textMap;
  sc_Attributes : valueMap;
  sc_StateMeta : valueMap;
}.

Record ClaimDueOptions := ClaimDueOf {
  cd_Type : gstr;
  cd_State : gstr;
  cd_States : list gstr;
  cd_Worker : gstr;
  cd_PartitionKey : gstr;
  cd_PartitionKeys : list gstr;
  cd_LeaseMS : Z;
  cd_Limit : Z;
  cd_Priority : option Z;
  cd_NowMS : Z;
  cd_BlockMS : option Z;
  cd_ReclaimExpired : option bool;
  cd_ReclaimRatio : option Z;
  cd_JobOnly : bool;
  cd_Payload : option bool;
  cd_PayloadMaxBytes : option Z;
  cd_Values : list gstr;
  cd_IncludeState : bool;
  cd_IncludeAttributes : option bool;
}.

Record ReclaimOptions := ReclaimOf {
  re_Type : gstr;
  re_State : gstr;
  re_Worker : gstr;
  re_PartitionKey : gstr;
  re_PartitionKeys : list gstr;
  re_LeaseMS : Z;
  re_Limit : Z;
  re_Priority : option Z;
  re_NowMS : Z;
  re_JobOnly : bool;
  re_Payload : option bool;
  re_PayloadMaxBytes : option Z;
  re_Values : list gstr;
  re_IncludeAttributes : option bool;
}.

(** ** Mutations *)

Record StepContinueOptions := StepContinueOf {
  st_ID : gstr;
  st_LeaseToken : gstr;
  st_FromState : gstr;
  st_ToState : gstr;
  st_FencingToken : Z;
  st_LeaseMS : Z;
  st_PartitionKey : gstr;
  st_Payload : val;
  st_Worker : gstr;
  st_NowMS : Z;
  st_StateMeta : valueMap;
  st_Named : NamedValues;
}.

Record CompleteOptions := CompleteOf {
  co_ID : gstr;
  co_LeaseToken : gstr;
  co_FencingToken : Z;
  co_PartitionKey : gstr;
  co_Result : val;
  co_Payload : val;
  co_TTLMS : option Z;
  co_NowMS : Z;
  co_StateMeta : valueMap;
  co_Named : NamedValues;
}.

Record TransitionOptions := TransitionOf {
  tr_ID : gstr;
  tr_FromState : gstr;
  tr_ToState : gstr;
  tr_LeaseToken : gstr;
  tr_FencingToken : Z;
  tr_PartitionKey : gstr;
  tr_Payload : val;
  tr_RunAtMS : Z;
  tr_NowMS : Z;
  tr_Priority : option Z;
  tr_StateMeta : valueMap;
  tr_Named : NamedValues;
}.

Record RetryOptions := RetryOf {
  rt_ID : gstr;
  rt_LeaseToken : gstr;
  rt_FencingToken : Z;
  rt_PartitionKey : gstr;
  rt_Error : val;
  rt_Payload : val;
  rt_RunAtMS : Z;
  rt_NowMS : Z;
  rt_StateMeta : valueMap;
  rt_AttributesMerge : valueMap;
  rt_AttributesDelete : list gstr;
}.

Record FailOptions := FailOf {
  fl_ID : gstr;
  fl_LeaseToken : gstr;
  fl_FencingToken : Z;
  fl_PartitionKey : gstr;
  fl_Error : val;
  fl_Payload : val;
  fl_TTLMS : option Z;
  fl_NowMS : Z;
  fl_StateMeta : valueMap;
  fl_Named : NamedValues;
}.

Record CancelOptions := CancelOf {
  ca_ID : gstr;
  ca_FencingToken : Z;
  ca_LeaseToken : gstr;
  ca_PartitionKey : gstr;
  ca_Reason : val;
  ca_TTLMS : option Z;
  ca_NowMS : Z;
  ca_StateMeta : valueMap;
  ca_Named : NamedValues;
}.

Record RewindOptions := RewindOf {
  rw_ID : gstr;
  rw_ToEvent : gstr;
  rw_Reason : val;
  rw_PartitionKey : gstr;
  rw_ExpectState : gstr;
  rw_RunAtMS : Z;
  rw_NowMS : Z;
}.

Record SignalOptions := SignalOf {
  si_ID : gstr;
  si_Signal : gstr;
  si_PartitionKey : gstr;
  si_IdempotencyKey : gstr;
  si_IfStates : list gstr;
  si_TransitionTo : gstr;
  si_RunAtMS : Z;
  si_NowMS : Z;
  si_Named : NamedValues;
}.

(** ** Mutations of batches *)

Record CompleteManyOptions := CompleteManyOf {
  cmp_PartitionKey : gstr;
  cmp_Items : list ClaimedItemRef;
  cmp_Result : val;
  cmp_Payload : val;
  cmp_TTLMS : option Z;
  cmp_NowMS : Z;
  cmp_Independent : option bool;
  cmp_StateMeta : valueMap;
  cmp_Named : NamedValues;
}.

Record TransitionManyOptions := TransitionManyOf {
  tm_PartitionKey : gstr;
  tm_FromState : gstr;
  tm_ToState : gstr;
  tm_Items : list FencedItem;
  tm_Payload : val;
  tm_RunAtMS : Z;
  tm_NowMS : Z;
  tm_Priority : option Z;
  tm_Independent : option bool;
  tm_StateMeta : valueMap;
  tm_Named : NamedValues;
}.

Record RetryManyOptions := RetryManyOf {
  rm_PartitionKey : gstr;
  rm_Items : list ClaimedItemRef;
  rm_Error : val;
  rm_Payload : val;
  rm_RunAtMS : Z;
  rm_NowMS : Z;
  rm_Independent : option bool;
  rm_StateMeta : valueMap;
  rm_AttributesMerge : valueMap;
  rm_AttributesDelete : list gstr;
}.

Record FailManyOptions := FailManyOf {
  fm_PartitionKey : gstr;
  fm_Items : list ClaimedItemRef;
  fm_Error : val;
  fm_Payload : val;
  fm_TTLMS : option Z;
  fm_NowMS : Z;
  fm_Independent : option bool;
  fm_StateMeta : valueMap;
  fm_Named : NamedValues;
}.

Record CancelManyOptions := CancelManyOf {
  cam_PartitionKey : gstr;
  cam_Items : list FencedItem;
  cam_Reason : val;
  cam_TTLMS : option Z;
  cam_NowMS : Z;
  cam_Independent : option bool;
  cam_StateMeta : valueMap;
  cam_Named : NamedValues;
}.

Record RunStepsManyOptions := RunStepsManyOf {
  rs_Items : list RunStepsItem;
  rs_Type : gstr;
  rs_States : list gstr;
  rs_Steps : Z;
  rs_Worker : gstr;
  rs_LeaseMS : Z;
  rs_NowMS : Z;
  rs_Payload : val;
  rs_Result : val;
  rs_PartitionKey : gstr;
  rs_RetentionTTLMS : option Z;
}.

Record SpawnChildrenOptions := SpawnOf {
  sp_ID : gstr;
  sp_Children : list ChildSpec;
  sp_PartitionKey : gstr;
  sp_LeaseToken : gstr;
  sp_FencingToken : option Z;
  sp_GroupID : gstr;
  sp_Wait : gstr;
  sp_WaitState : gstr;
  sp_Success : gstr;
  sp_Failure : gstr;
  sp_FromState : gstr;
  sp_OnChildFailed : gstr;
  sp_OnParentClosed : gstr;
  sp_NowMS : Z;
  sp_MaxActiveMS : val;
  sp_Values : valueMap;
  sp_ValueRefs : textMap;
}.

(** ** Values, reads and policies *)

Record ValuePutOptions := ValuePutOf {
  vp_PartitionKey : gstr;
  vp_OwnerFlowID : gstr;
  vp_Name : gstr;
  vp_Override : option bool;
  vp_TTLMS : option Z;
  vp_NowMS : Z;
}.

Record ReadOptions := ReadOf {
  ro_PartitionKey : gstr;
  ro_Count : option Z;
  ro_FromMS : option Z;
  ro_ToMS : option Z;
  ro_Rev : option bool;
  ro_State : gstr;
  ro_TerminalOnly : option bool;
  ro_IncludeCold : option bool;
  ro_ConsistentProjection : option bool;
  ro_Attributes : valueMap;
}.

Record SearchOptions := SearchOf {
  se_Type : gstr;
  se_State : gstr;
  se_PartitionKey : gstr;
  se_Count : option Z;
  se_FromMS : option Z;
  se_ToMS : option Z;
  se_Rev : option bool;
  se_TerminalOnly : option bool;
  se_IncludeCold : option bool;
  se_ConsistentProjection : option bool;
  se_Attributes : valueMap;
  se_StateMeta : list (gstr * valueMap);
}.

Record HistoryOptions := HistoryOf {
  hi_ID : gstr;
  hi_PartitionKey : gstr;
  hi_Count : Z;
  hi_FromEvent : gstr;
  hi_ToEvent : gstr;
  hi_FromMS : option Z;
  hi_ToMS : option Z;
  hi_FromVersion : option Z;
  hi_ToVersion : option Z;
  hi_Rev : option bool;
  hi_Event : gstr;
  hi_Worker : gstr;
  hi_IncludeCold : option bool;
  hi_ConsistentProjection : option bool;
  hi_Values : option bool;
  hi_PayloadMaxBytes : option Z;
}.

Record RetryPolicy := RetryPolicyOf {
  rp_MaxRetries : Z;
  rp_MaxRetriesSet : bool;
  rp_Backoff : gstr;
  rp_BaseMS : Z;
  rp_BaseMSSet : bool;
  rp_MaxMS : Z;
  rp_MaxMSSet : bool;
  rp_JitterPct : Z;
  rp_JitterPctSet : bool;
  rp_ExhaustedTo : gstr;
}.

Record FlowStatePolicy := StatePolicyOf { sy_Mode : gstr; sy_Retry : option RetryPolicy }.

Record PolicyOptions := PolicyOf {
  po_MaxActiveMS : val;
  po_Retry : option RetryPolicy;
  po_States : list (gstr * RetryPolicy);
  po_Replace : option bool;
  po_ExpectedGeneration : option Z;
  po_StatePolicies : list (gstr * FlowStatePolicy);
  po_IndexedAttributes : option (list gstr);
  po_IndexedStateMeta : gstr;
  po_IndexedStateMetaSet : bool;
}.

Record RetentionCleanupOptions := RetentionOf { rc_Limit : option Z; rc_NowMS : option Z }.
