(* ===== verification/FlowValidation.v ===== *)
(** The checks of the options of Flow commands: identifiers, deadlines and exact integers
    (src/flow_contract_validation.go), metadata
    (src/client_flow_metadata_validation.go), limits of activity (src/flow_max_active.go),
    and the checks of each command (src/client_flow_mutation_validation.go,
    src/client_flow_many_validation.go, src/client_flow_claim_validation.go,
    src/client_flow_spawn_validation.go, src/client_flow_batch_validation.go,
    src/client_flow_read_validation.go, src/client_flow_policy_validation.go). *)

From S2P Require Export FlowTypes.

(** ** Errors *)

Inductive flowError :=
| FieldEmpty (field : gstr)
| FieldReserved (field : gstr)
| FieldTooLarge (field : gstr)
| FieldNegative (field : gstr)
| FieldNotPositive (field : gstr)
| FieldExceeds (field : gstr)
| DeadlineExceeds (field : gstr)
| NotHistoryEvent (field : gstr)
| OutOfRange (field : gstr)
| NotAllowed (reason : gstr)
| Exclusive (first second : gstr)
| TooMany (what : gstr)
| Duplicate (what : gstr)
| NotScalar (kind : gstr)
| Mismatch (what : gstr).

Abbreviation checked := (result flowError unit).

(** [for _, x := range l { if err := f(x); err != nil { return err } }] *)
Definition each {A} (f : A -> checked) : list A -> checked := rfold (fun _ x => f x) tt.

Definition whenSome {A} (f : A -> checked) (o : option A) : checked :=
  match o with Some a => f a | None => Ok tt end.

(** [name != ""]. *)
Definition given (s : gstr) : bool := negb (bool_decide (s = [])).

(** ** Exact integers, identifiers and deadlines *)

Definition maxFlowExactIntegerV080 : Z := 9007199254740991.
Definition maxFlowReferenceBytesV080 : Z := 4096.
Definition reservedScheduleFlowTypeV080 : gstr := go "__ferricstore_schedule".
Definition reservedScheduleFlowIDPrefixV080 : gstr := go "__ferricstore_schedule__:".

Definition validateFlowMutationText (name value : gstr) : checked := rguard (given value) (FieldEmpty name).

Definition validatePublicFlowID (name value : gstr) : checked :=
  let! _ := validateFlowMutationText name value in
  rguard (negb (bool_decide (reservedScheduleFlowIDPrefixV080 `prefix_of` value))) (FieldReserved name).

Definition validatePublicFlowType (name value : gstr) : checked :=
  let! _ := validateFlowMutationText name value in
  rguard (negb (bool_decide (value = reservedScheduleFlowTypeV080))) (FieldReserved name).

Definition validateFlowReference (name value : gstr) : checked :=
  rguard (blen value <=? maxFlowReferenceBytesV080) (FieldTooLarge name).

Definition validateOptionalPublicFlowIDReference (name value : gstr) : checked :=
  if given value then let! _ := validatePublicFlowID name value in validateFlowReference name value else Ok tt.

Definition validateFlowExactNonNegative (name : gstr) (value : Z) : checked :=
  let! _ := rguard (0 <=? value) (FieldNegative name) in rguard (value <=? maxFlowExactIntegerV080) (FieldExceeds name).

Definition validateOptionalFlowExactNonNegative (name : gstr) : option Z -> checked :=
  whenSome (validateFlowExactNonNegative name).

Definition validateFlowExactPositive (name : gstr) (value : Z) : checked :=
  let! _ := rguard (0 <? value) (FieldNotPositive name) in rguard (value <=? maxFlowExactIntegerV080) (FieldExceeds name).

Definition validateOptionalFlowExactPositive (name : gstr) : option Z -> checked := whenSome (validateFlowExactPositive name).

(** [clock] is [nowMS()]. *)
Definition validateFlowDeadline (clock : Z) (name : gstr) (suppliedNowMS durationMS : Z) : checked :=
  let now := if suppliedNowMS =? 0 then clock else suppliedNowMS in
  let! _ := validateFlowExactNonNegative (go "flow now milliseconds") now in
  let! _ := validateFlowExactPositive name durationMS in
  rguard (now <=? swrap 64 (maxFlowExactIntegerV080 - durationMS)) (DeadlineExceeds name).

Definition validateOptionalFlowDeadline (clock : Z) (name : gstr) (nowMS : Z) : option Z -> checked :=
  whenSome (validateFlowDeadline clock name nowMS).

(** [validateRequiredText] and the like (src/flow_schedule_validation.go). *)
Definition validateRequiredText (name value : gstr) : checked := rguard (given (trim_space value)) (FieldEmpty name).
Definition validateOptionalNonNegativeInt64 (name : gstr) : option Z -> checked := whenSome (fun z => rguard (0 <=? z) (FieldNegative name)).
Definition validateOptionalPositiveInt64 (name : gstr) : option Z -> checked := whenSome (fun z => rguard (0 <? z) (FieldNotPositive name)).
Definition validateOptionalPositiveInt : gstr -> option Z -> checked := validateOptionalPositiveInt64.
Definition canonicalAdminEnum (value : gstr) : gstr := to_lower (trim_space value).

Definition maxBlockingTimeoutMS : Z := 2 ^ 32 - 1.

Definition validateOptionalBlockingTimeoutMS (command : gstr) : option Z -> checked :=
  whenSome (fun z => rguard ((0 <=? z) && (z <=? maxBlockingTimeoutMS)) (OutOfRange command)).

(** [strings.Cut(s, "-")]. *)
Fixpoint cutDash (s : gstr) : option (gstr * gstr) :=
  match s with
  | [] => None
  | b :: s => if bool_decide (b = x2d) then Some ([], s) else prod_map (cons b) id <$> cutDash s
  end.

Definition canonicalFlowEventInteger (value : gstr) : bool :=
  match parse_int64 value with
  | ParsedInt parsed => (0 <=? parsed) && (parsed <=? maxFlowExactIntegerV080) && bool_decide (value = format_int parsed)
  | _ => false
  end.

Definition validateFlowHistoryEvent (name value : gstr) : result flowError Z :=
  if given value then
    match cutDash value with
    | Some (milliseconds, version) =>
        if bool_decide (x2d ∈ version) || negb (canonicalFlowEventInteger milliseconds) || negb (canonicalFlowEventInteger version)
        then Err (NotHistoryEvent name)
        else Ok (parse_int64_or_bound milliseconds)
    | None => Err (NotHistoryEvent name)
    end
  else Ok 0.

(** ** The limit of activity *)

Definition FlowMaxActiveInfinity : gstr := go "infinity".
Definition maxFlowActiveMS : Z := 31536000000.

(** A missing limit is [None]. *)
Definition canonicalFlowMaxActiveMS (value : val) : result flowError (option val) :=
  let range := OutOfRange (go "flow max_active_ms") in
  match value with
  | VNil => Ok None
  | VString text => if equal_fold text FlowMaxActiveInfinity then Ok (Some (VString FlowMaxActiveInfinity)) else Err range
  | VInt _ z => if (z <=? 0) || (maxFlowActiveMS <? z) then Err range else Ok (Some (VInt IInt64 z))
  | VUint _ z => if (maxFlowActiveMS <? z) || (z <=? 0) then Err range else Ok (Some (VInt IInt64 z))
  | _ => Err range
  end.

Definition validMaxActive (value : val) : checked := let! _ := canonicalFlowMaxActiveMS value in Ok tt.

(** ** Metadata *)

Definition maxFlowAttributes : Z := 16.
Definition maxFlowAttributeKeyBytes : Z := 64.
Definition maxFlowAttributeValueBytes : Z := 256.
Definition maxFlowAttributeTotalBytes : Z := 2048.
Definition maxFlowAttributeListValues : Z := 16.
Definition maxFlowStateMetaEntries : Z := 16.
Definition maxFlowStateMetaStates : Z := 64.
Definition maxFlowStateMetaStateBytes : Z := 64.
Definition maxFlowStateMetaTotalBytes : Z := 16384.

Definition canonicalFlowMetadataKey (name : gstr) : gstr := trim_space name.

Definition validateFlowMetadataKey (kind name : gstr) : result flowError gstr :=
  let name := canonicalFlowMetadataKey name in
  if bool_decide (name = []) then Err (FieldEmpty kind)
  else if maxFlowAttributeKeyBytes <? blen name then Err (FieldTooLarge kind)
  else if bool_decide (go "__" `prefix_of` name) then Err (FieldReserved kind)
  else Ok name.

(** A float64 is finite unless its exponent is all ones. *)
Definition finite (bits : Z) : bool := negb (Z.land (Z.shiftr bits 52) 2047 =? 2047).

Definition flowMetadataScalarSize (value : val) (kind : gstr) : result flowError Z :=
  match value with
  | VString s | VBytes s => if maxFlowAttributeValueBytes <? blen s then Err (FieldTooLarge kind) else Ok (blen s)
  | VBool _ => Ok 1
  | VInt _ _ | VUint _ _ => Ok 8
  | VFloat bits => if finite bits then Ok 8 else Err (NotScalar kind)
  | _ => Err (NotScalar kind)
  end.

Definition listValueSize (item : val) : result flowError Z :=
  match item with
  | VString s | VBytes s => if maxFlowAttributeValueBytes <? blen s then Err (FieldTooLarge (go "attribute")) else Ok (blen s)
  | _ => Err (NotScalar (go "attribute list"))
  end.

Definition flowAttributeValueSize (value : val) : result flowError Z :=
  match value with
  | VArray _ [] => Err (FieldEmpty (go "attribute list"))
  | VArray _ items =>
      if maxFlowAttributeListValues <? blen items then Err (FieldTooLarge (go "attribute list"))
      else rfold (fun total item => let! size := listValueSize item in Ok (total + size)) 0 items
  | _ => flowMetadataScalarSize value (go "attribute")
  end.

(** The loop over the entries of a metadata map: the names met and the bytes counted. *)
Definition metadataEntry {A} (kind : gstr) (sizeOf : A -> result flowError Z) (st : list gstr * Z) (entry : gstr * A)
  : result flowError (list gstr * Z) :=
  let! key := validateFlowMetadataKey kind entry.1 in
  if bool_decide (key ∈ st.1) then Err (Duplicate kind)
  else let! size := sizeOf entry.2 in Ok (key :: st.1, st.2 + blen key + size).

Definition validateFlowAttributes (attributes : valueMap) : checked :=
  if maxFlowAttributes <? blen attributes then Err (TooMany (go "attribute"))
  else
    let! (_, total) := rfold (metadataEntry (go "attribute") flowAttributeValueSize) ([], 0) attributes in
    rguard (total <=? maxFlowAttributeTotalBytes) (FieldTooLarge (go "attributes")).

Definition flowStateMetaEntrySize (stateMeta : valueMap) : result flowError Z :=
  if maxFlowStateMetaEntries <? blen stateMeta then Err (TooMany (go "state_meta"))
  else
    let! (_, total) := rfold (metadataEntry (go "state_meta") (fun v => flowMetadataScalarSize v (go "state_meta"))) ([], 0) stateMeta in
    Ok total.

Definition validateFlowStateMeta (stateMeta : valueMap) : checked := let! _ := flowStateMetaEntrySize stateMeta in Ok tt.

Definition validateFlowMetadata (attributes attributesMerge : valueMap) (attributesDelete : list gstr) (stateMeta : valueMap) : checked :=
  let! _ := validateFlowAttributes attributes in
  let! _ := validateFlowAttributes attributesMerge in
  let! _ := each (fun name => let! _ := validateFlowMetadataKey (go "attribute") name in Ok tt) attributesDelete in
  validateFlowStateMeta stateMeta.

(** The state of a metadata query: trimmed, short and not repeated. *)
Definition stateMetaState (st : list gstr * Z) (entry : gstr * valueMap) : result flowError (list gstr * Z) :=
  let state := trim_space entry.1 in
  if bool_decide (state = []) then Err (FieldEmpty (go "state_meta state"))
  else if maxFlowStateMetaStateBytes <? blen state then Err (FieldTooLarge (go "state_meta state"))
  else if bool_decide (state ∈ st.1) then Err (Duplicate (go "state_meta state"))
  else let! size := flowStateMetaEntrySize entry.2 in Ok (state :: st.1, st.2 + blen state + size).

Definition validateFlowStateMetaQuery (stateMeta : list (gstr * valueMap)) : checked :=
  if maxFlowStateMetaStates <? blen stateMeta then Err (TooMany (go "state_meta states"))
  else
    let! (_, total) := rfold stateMetaState ([], 0) stateMeta in
    rguard (total <=? maxFlowStateMetaTotalBytes) (FieldTooLarge (go "state_meta")).

(** ** Single mutations *)

Definition maxFlowMutationPriority : Z := 2.
Definition running : gstr := go "running".

Definition notRunning (state : gstr) : checked :=
  rguard (negb (bool_decide (state = running))) (NotAllowed (go "flow running state is only entered by ClaimDue")).

Definition validateFlowMutationTimes (nowMS runAtMS : Z) : checked :=
  let! _ := validateFlowExactNonNegative (go "flow now milliseconds") nowMS in
  validateFlowExactNonNegative (go "flow run_at milliseconds") runAtMS.

Definition validateFlowMutationPriority : option Z -> checked :=
  whenSome (fun p => rguard ((0 <=? p) && (p <=? maxFlowMutationPriority)) (OutOfRange (go "flow priority"))).

Definition validateCreateMutationFields (nowMS runAtMS : Z) (priority retentionTTLMS : option Z) : checked :=
  let! _ := validateFlowMutationTimes nowMS runAtMS in
  let! _ := validateFlowMutationPriority priority in
  validateOptionalPositiveInt64 (go "flow retention ttl milliseconds") retentionTTLMS.

Definition valueName (name : gstr) : checked := validateFlowMutationText (go "flow value name") name.

Definition validateNamedValues (named : NamedValues) : checked :=
  let! _ := each (fun entry => valueName entry.1) (nv_Values named) in
  let! _ := each (fun entry => let! _ := valueName entry.1 in validateFlowMutationText (go "flow value ref") entry.2) (nv_ValueRefs named) in
  let! _ := each valueName (nv_DropValues named) in
  each valueName (nv_OverrideValues named).

(** The metadata of a mutation that merges attributes. *)
Definition validateMergedMetadata (named : NamedValues) (stateMeta : valueMap) : checked :=
  let! _ := validateNamedValues named in
  validateFlowMetadata [] (nv_AttributesMerge named) (nv_AttributesDelete named) stateMeta.

Definition validateCreateOptions (opt : CreateOptions) : checked :=
  let! _ := validatePublicFlowID (go "flow id") (cr_ID opt) in
  let! _ := validatePublicFlowType (go "flow type") (cr_Type opt) in
  let! _ := if given (cr_State opt) then validateFlowMutationText (go "flow state") (cr_State opt) else Ok tt in
  let! _ := validateOptionalPublicFlowIDReference (go "flow parent_flow_id") (cr_ParentFlowID opt) in
  let! _ := validateOptionalPublicFlowIDReference (go "flow root_flow_id") (cr_RootFlowID opt) in
  let! _ := validateFlowReference (go "flow correlation_id") (cr_CorrelationID opt) in
  let! _ := validateCreateMutationFields (cr_NowMS opt) (cr_RunAtMS opt) (cr_Priority opt) (cr_RetentionTTLMS opt) in
  let! _ := validMaxActive (cr_MaxActiveMS opt) in
  let! _ := validateNamedValues (valuesAndRefs (cr_Values opt) (cr_ValueRefs opt)) in
  validateFlowMetadata (cr_Attributes opt) [] [] (cr_StateMeta opt).

Definition validateValuePutOptions (clock : Z) (opt : ValuePutOptions) : checked :=
  let! _ := validateFlowExactNonNegative (go "flow now milliseconds") (vp_NowMS opt) in
  let! _ := validateOptionalPublicFlowIDReference (go "flow owner_flow_id") (vp_OwnerFlowID opt) in
  let! _ := validateFlowReference (go "flow value name") (vp_Name opt) in
  let owner := given (vp_OwnerFlowID opt) in let named := given (vp_Name opt) in
  let! _ := rguard (negb (named && negb owner)) (NotAllowed (go "flow named value put requires owner_flow_id")) in
  let! _ := rguard (negb (bool_decide (is_Some (vp_Override opt)) && (negb owner || negb named)))
              (NotAllowed (go "flow value override requires owner_flow_id and name")) in
  let! _ := rguard (negb (owner && named && bool_decide (is_Some (vp_TTLMS opt))))
              (NotAllowed (go "flow named values inherit retention and do not support ttl")) in
  validateOptionalFlowDeadline clock (go "flow value ttl milliseconds") (vp_NowMS opt) (vp_TTLMS opt).

Definition validateValueMGet (refs : list gstr) (maxBytes : option Z) : checked :=
  let! _ := each (validateFlowMutationText (go "flow value ref")) refs in
  validateOptionalNonNegativeInt64 (go "flow value maximum bytes") maxBytes.

Definition validateSignalOptions (opt : SignalOptions) : checked :=
  let! _ := validatePublicFlowID (go "flow id") (si_ID opt) in
  let! _ := validateFlowMutationText (go "flow signal") (si_Signal opt) in
  let! _ := validateFlowReference (go "flow idempotency_key") (si_IdempotencyKey opt) in
  let! _ := each (validateFlowMutationText (go "flow if_state")) (si_IfStates opt) in
  let! _ := notRunning (si_TransitionTo opt) in
  let! _ := validateFlowMutationTimes (si_NowMS opt) (si_RunAtMS opt) in
  validateNamedValues (si_Named opt).

(** [leaseMS], 30 seconds when it is zero. *)
Definition leaseOr (leaseMS : Z) : Z := if leaseMS =? 0 then 30000 else leaseMS.

Definition validateStartAndClaimOptions (clock : Z) (opt : StartAndClaimOptions) : checked :=
  let! _ := validatePublicFlowID (go "flow id") (sc_ID opt) in
  let! _ := validatePublicFlowType (go "flow type") (sc_Type opt) in
  let! _ := validateFlowMutationText (go "flow initial state") (sc_InitialState opt) in
  let! _ := validateFlowMutationText (go "flow worker") (sc_Worker opt) in
  let! _ := notRunning (sc_InitialState opt) in
  let! _ := validateOptionalPublicFlowIDReference (go "flow parent_flow_id") (sc_ParentFlowID opt) in
  let! _ := validateOptionalPublicFlowIDReference (go "flow root_flow_id") (sc_RootFlowID opt) in
  let! _ := validateFlowReference (go "flow correlation_id") (sc_CorrelationID opt) in
  let! _ := validateCreateMutationFields (sc_NowMS opt) 0 (sc_Priority opt) (sc_RetentionTTLMS opt) in
  let! _ := validateFlowDeadline clock (go "flow lease milliseconds") (sc_NowMS opt) (leaseOr (sc_LeaseMS opt)) in
  let! _ := validMaxActive (sc_MaxActiveMS opt) in
  let! _ := validateNamedValues (valuesAndRefs (sc_Values opt) (sc_ValueRefs opt)) in
  validateFlowMetadata (sc_Attributes opt) [] [] (sc_StateMeta opt).

Definition validateExtendLease (clock : Z) (id leaseToken : gstr) (fencingToken leaseMS : Z) : checked :=
  let! _ := validatePublicFlowID (go "flow id") id in
  let! _ := validateFlowMutationText (go "flow lease token") leaseToken in
  let! _ := validateFlowExactNonNegative (go "flow fencing token") fencingToken in
  validateFlowDeadline clock (go "flow lease milliseconds") 0 leaseMS.

Definition validateFlowTransitionFields (id fromState toState : gstr) (fencingToken : Z) : checked :=
  let! _ := validatePublicFlowID (go "flow id") id in
  let! _ := validateFlowMutationText (go "flow from state") fromState in
  let! _ := validateFlowMutationText (go "flow to state") toState in
  let! _ := notRunning toState in
  validateFlowExactNonNegative (go "flow fencing token") fencingToken.

Definition validateTransitionOptions (opt : TransitionOptions) : checked :=
  let! _ := validateFlowTransitionFields (tr_ID opt) (tr_FromState opt) (tr_ToState opt) (tr_FencingToken opt) in
  let! _ := validateFlowMutationText (go "flow lease token") (tr_LeaseToken opt) in
  let! _ := validateFlowMutationTimes (tr_NowMS opt) (tr_RunAtMS opt) in
  let! _ := validateFlowMutationPriority (tr_Priority opt) in
  validateMergedMetadata (tr_Named opt) (tr_StateMeta opt).

Definition validateStepContinueOptions (clock : Z) (opt : StepContinueOptions) : checked :=
  let! _ := validateFlowTransitionFields (st_ID opt) (st_FromState opt) (st_ToState opt) (st_FencingToken opt) in
  let! _ := validateFlowMutationText (go "flow lease token") (st_LeaseToken opt) in
  let! _ := validateFlowDeadline clock (go "flow lease milliseconds") (st_NowMS opt) (leaseOr (st_LeaseMS opt)) in
  validateMergedMetadata (st_Named opt) (st_StateMeta opt).

Definition validateClaimedMutation (id leaseToken : gstr) (fencingToken nowMS : Z) : checked :=
  let! _ := validatePublicFlowID (go "flow id") id in
  let! _ := validateFlowMutationText (go "flow lease token") leaseToken in
  let! _ := validateFlowExactNonNegative (go "flow fencing token") fencingToken in
  validateFlowExactNonNegative (go "flow now milliseconds") nowMS.

Definition validateTTL (clock nowMS : Z) (ttl : option Z) : checked :=
  validateOptionalFlowDeadline clock (go "flow ttl milliseconds") nowMS ttl.

Definition validateCompleteOptions (clock : Z) (opt : CompleteOptions) : checked :=
  let! _ := validateClaimedMutation (co_ID opt) (co_LeaseToken opt) (co_FencingToken opt) (co_NowMS opt) in
  let! _ := validateTTL clock (co_NowMS opt) (co_TTLMS opt) in
  validateMergedMetadata (co_Named opt) (co_StateMeta opt).

Definition validateRetryOptions (opt : RetryOptions) : checked :=
  let! _ := validateClaimedMutation (rt_ID opt) (rt_LeaseToken opt) (rt_FencingToken opt) (rt_NowMS opt) in
  let! _ := validateFlowExactNonNegative (go "flow run_at milliseconds") (rt_RunAtMS opt) in
  validateFlowMetadata [] (rt_AttributesMerge opt) (rt_AttributesDelete opt) (rt_StateMeta opt).

Definition validateFailOptions (clock : Z) (opt : FailOptions) : checked :=
  let! _ := validateClaimedMutation (fl_ID opt) (fl_LeaseToken opt) (fl_FencingToken opt) (fl_NowMS opt) in
  let! _ := validateTTL clock (fl_NowMS opt) (fl_TTLMS opt) in
  validateMergedMetadata (fl_Named opt) (fl_StateMeta opt).

Definition validateCancelOptions (clock : Z) (opt : CancelOptions) : checked :=
  let! _ := validatePublicFlowID (go "flow id") (ca_ID opt) in
  let! _ := validateFlowExactNonNegative (go "flow fencing token") (ca_FencingToken opt) in
  let! _ := validateFlowExactNonNegative (go "flow now milliseconds") (ca_NowMS opt) in
  let! _ := validateTTL clock (ca_NowMS opt) (ca_TTLMS opt) in
  validateMergedMetadata (ca_Named opt) (ca_StateMeta opt).

Definition validateRewindOptions (opt : RewindOptions) : checked :=
  let! _ := validatePublicFlowID (go "flow id") (rw_ID opt) in
  let! _ := validateFlowMutationText (go "flow to_event") (rw_ToEvent opt) in
  validateFlowMutationTimes (rw_NowMS opt) (rw_RunAtMS opt).

(** ** Batches *)

Definition maxFlowMutationBatchItemsV080 : Z := 100000.

Definition validateFlowBatchSize (count : Z) : checked := rguard (count <=? maxFlowMutationBatchItemsV080) (TooMany (go "flow batch item")).

(** The loop over the items of a batch, with the identifiers met. *)
Definition validBatchItem {A} (idOf : A -> gstr) (check : A -> checked) (unique : bool) (seen : list gstr) (item : A)
  : result flowError (list gstr) :=
  let! _ := check item in
  if unique then if bool_decide (idOf item ∈ seen) then Err (Duplicate (go "id")) else Ok (idOf item :: seen) else Ok seen.

Definition batchItems {A} (idOf : A -> gstr) (check : A -> checked) (unique : bool) (items : list A) : checked :=
  let! _ := rfold (validBatchItem idOf check unique) [] items in Ok tt.

Definition validateCreateItemIDs (items : list CreateItem) (unique : bool) : checked :=
  batchItems ci_ID (fun item => validatePublicFlowID (go "flow item id") (ci_ID item)) unique items.

Definition validateClaimedItems (items : list ClaimedItemRef) (allowDuplicates : bool) : checked :=
  let! _ := validateFlowBatchSize (blen items) in
  batchItems cl_ID (fun item =>
    let! _ := validatePublicFlowID (go "flow item id") (cl_ID item) in
    let! _ := validateFlowMutationText (go "flow item lease token") (cl_LeaseToken item) in
    validateFlowExactNonNegative (go "flow item fencing token") (cl_FencingToken item)) (negb allowDuplicates) items.

Definition validateFencedItems (items : list FencedItem) (allowDuplicates requireLease : bool) : checked :=
  let! _ := validateFlowBatchSize (blen items) in
  batchItems fe_ID (fun item =>
    let! _ := validatePublicFlowID (go "flow item id") (fe_ID item) in
    let! _ := validateFlowExactNonNegative (go "flow item fencing token") (fe_FencingToken item) in
    if requireLease then validateFlowMutationText (go "flow item lease token") (fe_LeaseToken item) else Ok tt)
    (negb allowDuplicates) items.

(** The partition a batch and its items name (src/client_flow_helpers.go). *)
Definition itemPartition (command : gstr) (partitionKey : gstr) (item : gstr) : checked :=
  let! _ := rguard (given partitionKey || given item) (FieldEmpty command) in
  rguard (negb (given partitionKey && given item && negb (bool_decide (item = partitionKey)))) (Mismatch command).

Definition validateClaimedItemPartitions (partitionKey : gstr) (items : list ClaimedItemRef) (command : gstr) : checked :=
  each (fun item => itemPartition command partitionKey (cl_PartitionKey item)) items.

Definition validateFencedItemPartitions (partitionKey : gstr) (items : list FencedItem) (command : gstr) : checked :=
  each (fun item => itemPartition command partitionKey (fe_PartitionKey item)) items.

Definition boolDefault (value : option bool) (fallback : bool) : bool := default fallback value.

Definition validateCreateItem (item : CreateItem) : checked :=
  let! _ := validMaxActive (ci_MaxActiveMS item) in
  let! _ := validateNamedValues (valuesAndRefs (ci_Values item) (ci_ValueRefs item)) in
  validateFlowMetadata (ci_Attributes item) [] [] (ci_StateMeta item).

Definition validateCreateManyOptions (opt : CreateManyOptions) : checked :=
  let! _ := validatePublicFlowType (go "flow type") (cm_Type opt) in
  let! _ := if given (cm_State opt) then validateFlowMutationText (go "flow state") (cm_State opt) else Ok tt in
  let! _ := validateCreateMutationFields (cm_NowMS opt) (cm_RunAtMS opt) (cm_Priority opt) (cm_RetentionTTLMS opt) in
  let! _ := validMaxActive (cm_MaxActiveMS opt) in
  let! _ := validateFlowBatchSize (blen (cm_Items opt)) in
  let! _ := validateCreateItemIDs (cm_Items opt) (negb (boolDefault (cm_Independent opt) false)) in
  let! _ := validateNamedValues (valuesAndRefs (cm_Values opt) (cm_ValueRefs opt)) in
  let! _ := validateFlowMetadata (cm_Attributes opt) [] [] (cm_StateMeta opt) in
  each validateCreateItem (cm_Items opt).

Definition validateCompleteManyOptions (clock : Z) (opt : CompleteManyOptions) : checked :=
  let! _ := validateClaimedItems (cmp_Items opt) (boolDefault (cmp_Independent opt) false) in
  let! _ := validateFlowExactNonNegative (go "flow now milliseconds") (cmp_NowMS opt) in
  let! _ := validateTTL clock (cmp_NowMS opt) (cmp_TTLMS opt) in
  validateMergedMetadata (cmp_Named opt) (cmp_StateMeta opt).

Definition validateTransitionManyOptions (opt : TransitionManyOptions) : checked :=
  let! _ := validateFlowMutationText (go "flow from state") (tm_FromState opt) in
  let! _ := validateFlowMutationText (go "flow to state") (tm_ToState opt) in
  let! _ := notRunning (tm_ToState opt) in
  let! _ := validateFencedItems (tm_Items opt) (boolDefault (tm_Independent opt) false) true in
  let! _ := validateFlowMutationTimes (tm_NowMS opt) (tm_RunAtMS opt) in
  let! _ := validateFlowMutationPriority (tm_Priority opt) in
  validateMergedMetadata (tm_Named opt) (tm_StateMeta opt).

Definition validateRetryManyOptions (opt : RetryManyOptions) : checked :=
  let! _ := validateClaimedItems (rm_Items opt) (boolDefault (rm_Independent opt) false) in
  let! _ := validateFlowMutationTimes (rm_NowMS opt) (rm_RunAtMS opt) in
  validateFlowMetadata [] (rm_AttributesMerge opt) (rm_AttributesDelete opt) (rm_StateMeta opt).

Definition validateFailManyOptions (clock : Z) (opt : FailManyOptions) : checked :=
  let! _ := validateClaimedItems (fm_Items opt) (boolDefault (fm_Independent opt) false) in
  let! _ := validateFlowExactNonNegative (go "flow now milliseconds") (fm_NowMS opt) in
  let! _ := validateTTL clock (fm_NowMS opt) (fm_TTLMS opt) in
  validateMergedMetadata (fm_Named opt) (fm_StateMeta opt).

Definition validateCancelManyOptions (clock : Z) (opt : CancelManyOptions) : checked :=
  let! _ := validateFencedItems (cam_Items opt) (boolDefault (cam_Independent opt) false) false in
  let! _ := validateFlowExactNonNegative (go "flow now milliseconds") (cam_NowMS opt) in
  let! _ := validateTTL clock (cam_NowMS opt) (cam_TTLMS opt) in
  validateMergedMetadata (cam_Named opt) (cam_StateMeta opt).

(** [maxFlowMutationBatchItemsV080/len(opt.Items)] is a division of machine integers. *)
Definition validateRunStepsManyOptions (clock : Z) (opt : RunStepsManyOptions) : checked :=
  let! _ := validateFlowBatchSize (blen (rs_Items opt)) in
  let! _ := rguard (negb (Bool.eqb (blen (rs_States opt) =? 0) (rs_Steps opt =? 0))) (Exclusive (go "states") (go "steps")) in
  let! _ := rguard (0 <=? rs_Steps opt) (FieldNotPositive (go "run_steps_many steps")) in
  let! _ := validatePublicFlowType (go "run_steps_many type") (rs_Type opt) in
  let! _ := validateFlowMutationText (go "run_steps_many worker") (rs_Worker opt) in
  let! _ := validateFlowDeadline clock (go "run_steps_many lease") (rs_NowMS opt) (leaseOr (rs_LeaseMS opt)) in
  let! _ := validateOptionalPositiveInt64 (go "run_steps_many retention ttl") (rs_RetentionTTLMS opt) in
  let! _ := each (validateFlowMutationText (go "run_steps_many states")) (rs_States opt) in
  let stepCount := if blen (rs_States opt) =? 0 then rs_Steps opt else blen (rs_States opt) in
  let! _ := rguard (negb ((0 <? blen (rs_Items opt)) && (maxFlowMutationBatchItemsV080 / blen (rs_Items opt) <? stepCount)))
              (TooMany (go "flow run step operation")) in
  batchItems ri_ID (fun item => validatePublicFlowID (go "run_steps_many item id") (ri_ID item)) true (rs_Items opt).

(** ** Children *)

Definition orDefault (value fallback : gstr) : gstr := if given value then value else fallback.
Definition canonicalIfGiven (value : gstr) : gstr := if given value then canonicalAdminEnum value else value.

Definition normalizeSpawnChildrenOptions (opt : SpawnChildrenOptions) : SpawnChildrenOptions :=
  SpawnOf (sp_ID opt) (sp_Children opt) (sp_PartitionKey opt) (sp_LeaseToken opt) (sp_FencingToken opt)
    (orDefault (sp_GroupID opt) (go "default"))
    (if given (sp_Wait opt) then canonicalAdminEnum (sp_Wait opt) else go "all")
    (sp_WaitState opt) (sp_Success opt) (sp_Failure opt) (sp_FromState opt)
    (canonicalIfGiven (sp_OnChildFailed opt)) (canonicalIfGiven (sp_OnParentClosed opt))
    (sp_NowMS opt) (sp_MaxActiveMS opt) (sp_Values opt) (sp_ValueRefs opt).

(** A word that is empty or one of a few. *)
Definition oneOf (words : list gstr) (field value : gstr) : checked := rguard (bool_decide (value ∈ words)) (NotAllowed field).

Definition validateChild (parent : gstr) (seen : list gstr) (child : ChildSpec) : result flowError (list gstr) :=
  let! _ := validatePublicFlowID (go "flow child id") (ch_ID child) in
  let! _ := validatePublicFlowType (go "flow child type") (ch_Type child) in
  let! _ := rguard (negb (bool_decide (ch_ID child = parent))) (NotAllowed (go "flow child id must differ from parent id")) in
  let! _ := rguard (negb (bool_decide (ch_ID child ∈ seen))) (Duplicate (go "id")) in
  let! _ := validMaxActive (ch_MaxActiveMS child) in
  let! _ := validateNamedValues (valuesAndRefs (ch_Values child) (ch_ValueRefs child)) in
  let! _ := validateFlowMetadata (ch_Attributes child) [] [] (ch_StateMeta child) in
  Ok (ch_ID child :: seen).

Definition validateSpawnChildrenOptions (opt : SpawnChildrenOptions) : checked :=
  let! _ := validatePublicFlowID (go "flow parent id") (sp_ID opt) in
  let! _ := validateFlowMutationText (go "flow partition key") (sp_PartitionKey opt) in
  let! _ := validateFlowMutationText (go "flow group id") (sp_GroupID opt) in
  let! _ := validateFlowMutationText (go "flow child success state") (sp_Success opt) in
  let! _ := validateFlowMutationText (go "flow child failure state") (sp_Failure opt) in
  let! _ := rguard (negb (bool_decide (go "__" `prefix_of` sp_GroupID opt))) (FieldReserved (go "flow group id")) in
  let! _ := match sp_FencingToken opt with
            | None => Err (FieldEmpty (go "flow fencing token"))
            | Some token => validateFlowExactNonNegative (go "flow fencing token") token end in
  let! _ := validateFlowExactNonNegative (go "flow now milliseconds") (sp_NowMS opt) in
  let! _ := validMaxActive (sp_MaxActiveMS opt) in
  let! _ := rguard (negb (bool_decide (sp_Children opt = []))) (FieldEmpty (go "flow children")) in
  let! _ := validateFlowBatchSize (blen (sp_Children opt)) in
  let! _ := oneOf [go "all"; go "any"; go "none"] (go "flow wait") (sp_Wait opt) in
  let! _ := oneOf [[]; go "fail_parent"; go "ignore"] (go "flow on_child_failed") (sp_OnChildFailed opt) in
  let! _ := oneOf [[]; go "cancel_children"; go "abandon_children"] (go "flow on_parent_closed") (sp_OnParentClosed opt) in
  let! _ := validateNamedValues (valuesAndRefs (sp_Values opt) (sp_ValueRefs opt)) in
  let! _ := rfold (validateChild (sp_ID opt)) [] (sp_Children opt) in Ok tt.

(** ** Claims *)

Definition maxFlowClaimPriority : Z := 2.

Definition validateClaimStrings (field : gstr) : list gstr -> checked := each (validateFlowMutationText field).

Definition validateFlowStateFilters (states : list gstr) : checked :=
  let! _ := each (validateFlowMutationText (go "flow states")) states in
  let isAny s := equal_fold s (go "ANY") in
  rguard (negb (existsb isAny states && existsb (negb ∘ isAny) states)) (Exclusive (go "ANY") (go "states")).

Definition validateClaimCommon (clock : Z) (flowType worker : gstr) (leaseMS limit nowMS : Z) (priority : option Z)
    (partitionKeys valueNames : list gstr) (payloadMaxBytes : option Z) : checked :=
  let! _ := validatePublicFlowType (go "flow type") flowType in
  let! _ := validateFlowMutationText (go "flow worker") worker in
  let! _ := validateFlowDeadline clock (go "flow lease milliseconds") nowMS (leaseOr leaseMS) in
  let! _ := rguard (0 <=? limit) (FieldNotPositive (go "flow claim limit")) in
  let! _ := whenSome (fun p => rguard ((0 <=? p) && (p <=? maxFlowClaimPriority)) (OutOfRange (go "flow claim priority"))) priority in
  let! _ := validateClaimStrings (go "partition keys") partitionKeys in
  let! _ := validateClaimStrings (go "value names") valueNames in
  validateOptionalNonNegativeInt64 (go "flow payload maximum bytes") payloadMaxBytes.

Definition exclusiveWith {A} (first second : gstr) (text : gstr) (l : list A) : checked :=
  rguard (negb (given text && (0 <? blen l))) (Exclusive first second).

Definition validateClaimDueOptions (clock : Z) (opt : ClaimDueOptions) : checked :=
  let! _ := exclusiveWith (go "state") (go "states") (cd_State opt) (cd_States opt) in
  let! _ := exclusiveWith (go "partition key") (go "partition keys") (cd_PartitionKey opt) (cd_PartitionKeys opt) in
  let! _ := rguard (negb (cd_IncludeState opt && negb (cd_JobOnly opt))) (NotAllowed (go "include state requires job only")) in
  let! _ := validateClaimCommon clock (cd_Type opt) (cd_Worker opt) (cd_LeaseMS opt) (cd_Limit opt) (cd_NowMS opt)
              (cd_Priority opt) (cd_PartitionKeys opt) (cd_Values opt) (cd_PayloadMaxBytes opt) in
  let! _ := validateOptionalBlockingTimeoutMS (go "FLOW.CLAIM_DUE") (cd_BlockMS opt) in
  let! _ := whenSome (fun r => rguard ((0 <=? r) && (r <=? 100)) (OutOfRange (go "flow reclaim ratio"))) (cd_ReclaimRatio opt) in
  validateFlowStateFilters (cd_States opt).

Definition validateReclaimOptions (clock : Z) (opt : ReclaimOptions) : checked :=
  let! _ := oneOf [[]; running] (go "FLOW.RECLAIM state") (re_State opt) in
  let! _ := exclusiveWith (go "partition key") (go "partition keys") (re_PartitionKey opt) (re_PartitionKeys opt) in
  validateClaimCommon clock (re_Type opt) (re_Worker opt) (re_LeaseMS opt) (re_Limit opt) (re_NowMS opt)
    (re_Priority opt) (re_PartitionKeys opt) (re_Values opt) (re_PayloadMaxBytes opt).

(** ** Reads *)

Definition validateFlowGet (id : gstr) (values : list gstr) : checked :=
  let! _ := validatePublicFlowID (go "flow id") id in validateClaimStrings (go "value names") values.

Definition notAfter (field : gstr) (from to : option Z) : checked :=
  match from, to with Some f, Some t => rguard (f <=? t) (Mismatch field) | _, _ => Ok tt end.

Definition validateFlowReadRange (count fromMS toMS : option Z) : checked :=
  let! _ := validateOptionalPositiveInt (go "count") count in
  let! _ := validateOptionalFlowExactNonNegative (go "from_ms") fromMS in
  let! _ := validateOptionalFlowExactNonNegative (go "to_ms") toMS in
  notAfter (go "from_ms") fromMS toMS.

(** [validateFlowReadOptions] (src/flow_schedule_validation.go). *)
Definition validateFlowReadOptions (opt : ReadOptions) : checked :=
  let! _ := validateFlowReadRange (ro_Count opt) (ro_FromMS opt) (ro_ToMS opt) in
  validateFlowAttributes (ro_Attributes opt).

Definition validateFlowSearch (opt : SearchOptions) : checked :=
  let! _ := if given (se_Type opt) then validatePublicFlowType (go "flow type") (se_Type opt) else Ok tt in
  let! _ := validateFlowReadRange (se_Count opt) (se_FromMS opt) (se_ToMS opt) in
  let! _ := validateFlowAttributes (se_Attributes opt) in
  validateFlowStateMetaQuery (se_StateMeta opt).

Definition validateFlowStuck (flowType : gstr) (count olderThanMS nowMS : option Z) : checked :=
  let! _ := validatePublicFlowType (go "flow type") flowType in
  let! _ := validateOptionalPositiveInt (go "count") count in
  let! _ := validateOptionalFlowExactNonNegative (go "older_than_ms") olderThanMS in
  validateOptionalFlowExactNonNegative (go "now_ms") nowMS.

Definition validateFlowHistory (opt : HistoryOptions) : checked :=
  let! _ := validatePublicFlowID (go "flow id") (hi_ID opt) in
  let! _ := rguard (0 <=? hi_Count opt) (FieldNotPositive (go "count")) in
  let! _ := validateFlowReadRange None (hi_FromMS opt) (hi_ToMS opt) in
  let! _ := validateOptionalFlowExactNonNegative (go "from_version") (hi_FromVersion opt) in
  let! _ := validateOptionalFlowExactNonNegative (go "to_version") (hi_ToVersion opt) in
  let! _ := notAfter (go "from_version") (hi_FromVersion opt) (hi_ToVersion opt) in
  let! fromEventMS := validateFlowHistoryEvent (go "from_event") (hi_FromEvent opt) in
  let! toEventMS := validateFlowHistoryEvent (go "to_event") (hi_ToEvent opt) in
  let! _ := rguard (negb (given (hi_FromEvent opt) && given (hi_ToEvent opt) &&
                ((toEventMS <? fromEventMS) ||
                 ((fromEventMS =? toEventMS) && gstr_ltb (hi_ToEvent opt) (hi_FromEvent opt)))))
              (Mismatch (go "from_event")) in
  validateOptionalFlowExactNonNegative (go "payload_max_bytes") (hi_PayloadMaxBytes opt).

(** ** Policies *)

Definition maxFlowPolicyRetries : Z := 1000.
Definition maxFlowRetryDelayMS : Z := 2592000000.
Definition maxFlowIndexedAttrs : Z := 3.
Definition maxFlowPolicyGeneration : Z := 9007199254740991.

Definition between (field : gstr) (lo hi value : Z) : checked := rguard ((lo <=? value) && (value <=? hi)) (OutOfRange field).

Definition validateRetryPolicy (policy : RetryPolicy) : checked :=
  let! _ := between (go "flow retry max_retries") 0 maxFlowPolicyRetries (rp_MaxRetries policy) in
  let! _ := if given (rp_Backoff policy)
            then oneOf [go "none"; go "fixed"; go "linear"; go "exponential"] (go "flow retry backoff") (to_lower (trim_space (rp_Backoff policy)))
            else Ok tt in
  let! _ := between (go "flow retry base_ms") 0 maxFlowRetryDelayMS (rp_BaseMS policy) in
  let! _ := between (go "flow retry max_ms") 0 maxFlowRetryDelayMS (rp_MaxMS policy) in
  let! _ := between (go "flow retry jitter_pct") 0 100 (rp_JitterPct policy) in
  rguard (negb (bool_decide (rp_ExhaustedTo policy = running))) (NotAllowed (go "flow retry exhausted_to cannot be running")).

Definition FlowStateModeParallel : gstr := go "PARALLEL".
Definition FlowStateModeFIFO : gstr := go "FIFO".

Definition flowStateModeCommandToken (mode : gstr) : result flowError gstr :=
  if bool_decide (to_upper mode ∈ [FlowStateModeParallel; FlowStateModeFIFO]) then Ok (to_upper mode)
  else Err (NotAllowed (go "flow state mode must be parallel or fifo")).

Definition validatePolicyState (state : gstr) : checked :=
  let! _ := validateRequiredText (go "flow state") state in
  rguard (negb (bool_decide (state = running))) (NotAllowed (go "flow policy state cannot be running")).

Definition validateStatePolicy (policy : FlowStatePolicy) : checked :=
  let! _ := if given (sy_Mode policy) then let! _ := flowStateModeCommandToken (sy_Mode policy) in Ok tt else Ok tt in
  whenSome validateRetryPolicy (sy_Retry policy).

Definition metadataKeyOnly (kind name : gstr) : checked := let! _ := validateFlowMetadataKey kind name in Ok tt.

Definition validatePolicyOptions (flowType : gstr) (opt : PolicyOptions) : checked :=
  let attributes := default [] (po_IndexedAttributes opt) in
  let! _ := validatePublicFlowType (go "flow type") flowType in
  let! _ := validMaxActive (po_MaxActiveMS opt) in
  let! _ := whenSome (between (go "flow policy expected_generation") 0 maxFlowPolicyGeneration) (po_ExpectedGeneration opt) in
  let! _ := each (metadataKeyOnly (go "attribute")) attributes in
  let! _ := rguard (blen attributes <=? maxFlowIndexedAttrs) (TooMany (go "flow indexed attributes")) in
  let! _ := if given (po_IndexedStateMeta opt) then metadataKeyOnly (go "state_meta") (po_IndexedStateMeta opt) else Ok tt in
  let! _ := whenSome validateRetryPolicy (po_Retry opt) in
  let! _ := each (fun entry =>
      let! _ := validatePolicyState entry.1 in
      let! _ := rguard (negb (assoc_has entry.1 (po_StatePolicies opt))) (Exclusive (go "States") (go "StatePolicies")) in
      validateRetryPolicy entry.2) (po_States opt) in
  each (fun entry => let! _ := validatePolicyState entry.1 in validateStatePolicy entry.2) (po_StatePolicies opt).

Definition validateRetentionCleanup (opt : RetentionCleanupOptions) : checked :=
  let! _ := validateOptionalPositiveInt (go "limit") (rc_Limit opt) in
  validateOptionalNonNegativeInt64 (go "now_ms") (rc_NowMS opt).

(** [canonicalizePolicyMetadataKeys]: names are trimmed, and repeated ones dropped. *)
Fixpoint distinctTrimmed (seen names : list gstr) : list gstr :=
  match names with
  | [] => []
  | name :: names =>
      let name := canonicalFlowMetadataKey name in
      if bool_decide (name ∈ seen) then distinctTrimmed seen names else name :: distinctTrimmed (name :: seen) names
  end.

Definition canonicalizePolicyMetadataKeys (opt : PolicyOptions) : PolicyOptions :=
  PolicyOf (po_MaxActiveMS opt) (po_Retry opt) (po_States opt) (po_Replace opt) (po_ExpectedGeneration opt) (po_StatePolicies opt)
    (distinctTrimmed [] <$> po_IndexedAttributes opt) (canonicalFlowMetadataKey (po_IndexedStateMeta opt)) (po_IndexedStateMetaSet opt).

(** ** What the checks accept *)

Lemma each_ok {A} (f : A -> checked) l : each f l = Ok tt <-> Forall (fun x => f x = Ok tt) l.
Proof.
  unfold each. induction l as [|x l IH]; cbn; [by split|].
  destruct (f x) as [[]|e] eqn:E; cbn.
  - rewrite IH, Forall_cons. by split; [intros|intros [_ ?]].
  - split; [done|]. rewrite Forall_cons. intros [Hx _]. congruence.
Qed.

(** A deadline that is accepted is exact: the sum of the present and the duration is
    within the integers a double represents, and far from overflow. *)
Theorem flow_deadline_exact clock name suppliedNow duration :
  let now := if suppliedNow =? 0 then clock else suppliedNow in
  validateFlowDeadline clock name suppliedNow duration = Ok tt <->
  0 <= now /\ 0 < duration /\ now + duration <= maxFlowExactIntegerV080.
Proof.
  intros now. unfold validateFlowDeadline, validateFlowExactNonNegative, validateFlowExactPositive. fold now.
  rewrite !rbind_ok. setoid_rewrite rbind_ok. setoid_rewrite rbind_ok. setoid_rewrite rguard_ok. split.
  - intros ([] & (_ & Hn & Hm) & [] & (_ & Hd & Hm') & Hs).
    apply Z.leb_le in Hn, Hm, Hm'. apply Z.ltb_lt in Hd. apply Z.leb_le in Hs.
    rewrite swrap_small in Hs; [lia|lia|]. unfold in_sint, maxFlowExactIntegerV080 in *. cbn. lia.
  - intros (? & ? & ?). unfold maxFlowExactIntegerV080 in *.
    exists tt. split; [exists tt; split; apply Z.leb_le; lia|].
    exists tt. split; [exists tt; split; [apply Z.ltb_lt|apply Z.leb_le]; lia|].
    apply Z.leb_le. rewrite swrap_small; [lia|lia|]. unfold in_sint. cbn. lia.
Qed.

(** *** Metadata *)

(** What an entry counts for: its name, trimmed, and its value. *)
Definition accepted_key (kind name : gstr) : Prop :=
  canonicalFlowMetadataKey name <> [] /\ blen (canonicalFlowMetadataKey name) <= maxFlowAttributeKeyBytes /\
  ~ go "__" `prefix_of` canonicalFlowMetadataKey name.

Lemma validateFlowMetadataKey_ok kind name key :
  validateFlowMetadataKey kind name = Ok key <-> accepted_key kind name /\ key = canonicalFlowMetadataKey name.
Proof.
  unfold validateFlowMetadataKey, accepted_key. generalize (canonicalFlowMetadataKey name). intros s.
  case_bool_decide as Hs; [split; [done|tauto]|].
  destruct (Z.ltb_spec maxFlowAttributeKeyBytes (blen s)); [split; [done|lia]|].
  case_bool_decide as Hp; [split; [done|tauto]|]. split; [intros [= <-]; tauto|intros [_ ->]; done].
Qed.

Section Entries.
Context {A : Type} (kind : gstr) (sizeOf : A -> result flowError Z).

Definition sized (m : list (gstr * A)) (sizes : list Z) : Prop := Forall2 (fun e z => sizeOf e.2 = Ok z) m sizes.

Definition counted (m : list (gstr * A)) (sizes : list Z) : Z :=
  zsum ((blen ∘ canonicalFlowMetadataKey) <$> m.*1) + zsum sizes.

Lemma metadataEntries_ok m : forall seen total st,
  rfold (metadataEntry kind sizeOf) (seen, total) m = Ok st <->
  Forall (accepted_key kind) m.*1 /\ NoDup (canonicalFlowMetadataKey <$> m.*1) /\
  (forall k, k ∈ canonicalFlowMetadataKey <$> m.*1 -> k ∉ seen) /\
  exists sizes, sized m sizes /\ st = (rev (canonicalFlowMetadataKey <$> m.*1) ++ seen, total + counted m sizes).
Proof.
  induction m as [|[name v] m IH]; intros seen total st; cbn [rfold fmap list_fmap].
  - split.
    + intros [= <-]. repeat split; [done|constructor|by intros k ?%elem_of_nil|].
      exists []. split; [constructor|]. unfold counted. cbn. f_equal. lia.
    + intros (_ & _ & _ & sizes & Hs & ->). inversion Hs; subst. unfold counted. cbn. do 2 f_equal. lia.
  - unfold metadataEntry at 1. cbn [fst snd]. rewrite rbind_ok. setoid_rewrite rbind_ok.
    setoid_rewrite validateFlowMetadataKey_ok. split.
    + intros (st' & (key & [Hkey ->] & Hif) & Hrest). case_bool_decide as Hin; [done|].
      apply rbind_ok in Hif as (size & Hsize & [= <-]).
      apply IH in Hrest as (Hall & Hnd & Hfresh & sizes & Hsizes & ->).
      repeat split.
      * by constructor.
      * constructor; [|done]. intros Hk. apply (Hfresh _ Hk). left.
      * intros k [->|Hk]%elem_of_cons; [done|]. intros Hs. apply (Hfresh _ Hk). by right.
      * exists (size :: sizes). split; [by constructor|]. unfold counted. cbn [fmap list_fmap rev zsum foldr fst].
        rewrite <- app_assoc. cbn [app compose]. f_equal. change (foldr Z.add 0 ?l) with (zsum l). lia.
    + intros (Hall & Hnd & Hfresh & sizes & Hsizes & ->). apply Forall_cons in Hall as [Hkey Hall].
      apply NoDup_cons in Hnd as [Hk Hnd]. inversion Hsizes as [|? size ? sizes' Hsize Hsizes']; subst.
      exists (canonicalFlowMetadataKey name :: seen, total + blen (canonicalFlowMetadataKey name) + size). split.
      * exists (canonicalFlowMetadataKey name). split; [done|].
        rewrite bool_decide_false by (apply Hfresh; left). cbn [snd] in Hsize. by rewrite Hsize.
      * apply IH. repeat split; [done|done| |].
        -- intros k Hk' [->|Hs]%elem_of_cons; [done|]. by apply (Hfresh k); [right|].
        -- exists sizes'. split; [done|]. unfold counted. cbn [fmap list_fmap rev zsum foldr fst].
           rewrite <- app_assoc. cbn [app compose]. f_equal. change (foldr Z.add 0 ?l) with (zsum l). lia.
Qed.

End Entries.

(** The size of a list of texts, the sum of theirs. *)
Lemma listSizes_ok items : forall total n,
  rfold (fun total item => let! size := listValueSize item in Ok (total + size)) total items = Ok n <->
  exists sizes, Forall2 (fun v z => listValueSize v = Ok z) items sizes /\ n = total + zsum sizes.
Proof.
  induction items as [|v items IH]; intros total n; cbn [rfold].
  - split; [intros [= <-]; exists []; split; [constructor|cbn; lia]|].
    intros (? & Hs & ->). inversion Hs; subst. cbn. f_equal. lia.
  - destruct (listValueSize v) as [size|e] eqn:E; cbn [rbind].
    + rewrite IH. split; intros (sizes & Hs & ->).
      * exists (size :: sizes). split; [by constructor|]. change (zsum (size :: sizes)) with (size + zsum sizes). lia.
      * inversion Hs as [|? z ? sizes' Hz Hs']; subst. rewrite E in Hz. injection Hz as <-.
        exists sizes'. split; [done|]. change (zsum (size :: sizes')) with (size + zsum sizes'). lia.
    + split; [done|]. intros (? & Hs & _). inversion Hs; congruence.
Qed.

Lemma attributes_exact m :
  validateFlowAttributes m = Ok tt <->
  blen m <= maxFlowAttributes /\ Forall (accepted_key (go "attribute")) m.*1 /\
  NoDup (canonicalFlowMetadataKey <$> m.*1) /\
  exists sizes, sized flowAttributeValueSize m sizes /\ counted m sizes <= maxFlowAttributeTotalBytes.
Proof.
  unfold validateFlowAttributes. destruct (Z.ltb_spec maxFlowAttributes (blen m)); [split; [done|lia]|].
  rewrite rbind_ok. split.
  - intros ([seen total] & Hfold & Hg%rguard_ok). apply metadataEntries_ok in Hfold as (? & ? & _ & sizes & ? & [= -> ->]).
    repeat split; [lia|done|done|]. exists sizes. split; [done|]. lia.
  - intros (_ & ? & ? & sizes & ? & ?). eexists. split.
    + apply metadataEntries_ok. repeat split; [done|done|by intros k _ ?%elem_of_nil|]. by exists sizes.
    + cbn beta iota. apply rguard_ok. lia.
Qed.

(** Attributes are accepted exactly when there are few of them, their trimmed names are
    short, not reserved and distinct, their values scalars or short lists of texts, and
    names and values together are within the budget; in whatever order the map is read. *)
Theorem flow_attributes_exact m :
  validateFlowAttributes m = Ok tt <->
  blen m <= maxFlowAttributes /\ Forall (accepted_key (go "attribute")) m.*1 /\
  NoDup (canonicalFlowMetadataKey <$> m.*1) /\
  exists sizes, sized flowAttributeValueSize m sizes /\ counted m sizes <= maxFlowAttributeTotalBytes.
Proof. apply attributes_exact. Qed.

Lemma counted_perm {A} (m1 m2 : list (gstr * A)) s1 s2 : m1 ≡ₚ m2 -> s1 ≡ₚ s2 -> counted m1 s1 = counted m2 s2.
Proof.
  intros Hm Hs. unfold counted. rewrite (zsum_perm _ _ Hs). f_equal. apply zsum_perm. by rewrite Hm.
Qed.

Lemma flow_attributes_order m1 m2 : m1 ≡ₚ m2 -> validateFlowAttributes m1 = Ok tt -> validateFlowAttributes m2 = Ok tt.
Proof.
  intros Hp. rewrite !attributes_exact. intros (? & ? & ? & sizes & Hs & ?).
  destruct (Permutation.Permutation_Forall2 Hp Hs) as (sizes' & Hp' & Hs').
  repeat split; [unfold blen; by rewrite <- Hp|by rewrite <- Hp|by rewrite <- Hp|].
  exists sizes'. split; [done|]. by rewrite <- (counted_perm m1 m2 sizes sizes').
Qed.

(** *** Batches *)

Lemma batchItems_ok {A} (idOf : A -> gstr) check unique items :
  batchItems idOf check unique items = Ok tt <->
  Forall (fun item => check item = Ok tt) items /\ (unique = true -> NoDup (idOf <$> items)).
Proof.
  unfold batchItems. enough (forall seen, is_ok (rfold (validBatchItem idOf check unique) seen items) = true <->
    Forall (fun item => check item = Ok tt) items /\
    (unique = true -> NoDup (idOf <$> items) /\ forall k, k ∈ idOf <$> items -> k ∉ seen)) as Hgen.
  { specialize (Hgen []). destruct (rfold _ _ _) as [s|e]; cbn [rbind is_ok] in *.
    - split; [intros _|done]. destruct Hgen as [[? Hn] _]; [done|]. split; [done|]. intros Hu. by apply Hn.
    - split; [done|]. intros [? Hn]. enough (false = true) by done. apply Hgen. split; [done|]. intros Hu.
      split; [by apply Hn|]. by intros k _ ?%elem_of_nil. }
  induction items as [|x items IH]; intros seen; cbn [rfold fmap list_fmap].
  - split; [intros _|done]. repeat split; [done|constructor|by intros k ?%elem_of_nil].
  - unfold validBatchItem at 1. rewrite Forall_cons. destruct (check x) as [[]|e]; cbn [rbind];
      [|split; [done|by intros [[? _] _]]].
    destruct unique; cbn [rbind]; [case_bool_decide as Hx; cbn [rbind]|].
    + split; [done|]. intros [_ Hn]. destruct (Hn eq_refl) as [_ Hf]. exfalso. by apply (Hf (idOf x)); [left|].
    + rewrite IH, NoDup_cons. setoid_rewrite elem_of_cons. split.
      * intros [? Hn]. destruct (Hn eq_refl) as [Hnd Hf]. split; [done|]. intros _. split; [split|].
        -- intros Hin. apply (Hf _ Hin). by left.
        -- done.
        -- intros k [->|Hk]; [done|]. intros Hs. apply (Hf _ Hk). by right.
      * intros [[_ ?] Hn]. destruct (Hn eq_refl) as [[Hni Hnd] Hf]. split; [done|]. intros _. split; [done|].
        intros k Hk [->|Hs]; [done|]. by apply (Hf k); [right|].
    + rewrite IH. split; [intros [? _]|intros [[_ ?] _]]; by split.
Qed.

(** The identifiers, leases and fencing tokens of a batch of claimed items. *)
Lemma flow_batch_exact items allowDuplicates :
  validateClaimedItems items allowDuplicates = Ok tt <->
  blen items <= maxFlowMutationBatchItemsV080 /\
  Forall (fun item => cl_ID item <> [] /\ ~ reservedScheduleFlowIDPrefixV080 `prefix_of` cl_ID item /\
                      cl_LeaseToken item <> [] /\ 0 <= cl_FencingToken item <= maxFlowExactIntegerV080) items /\
  (allowDuplicates = false -> NoDup (cl_ID <$> items)).
Proof.
  unfold validateClaimedItems, validateFlowBatchSize. rewrite rbind_ok. setoid_rewrite rguard_ok.
  setoid_rewrite Z.leb_le. setoid_rewrite batchItems_ok. setoid_rewrite negb_true_iff.
  split; [intros (_ & ? & Hf & ?)|intros (? & Hf & ?); exists tt]; (split; [done|split; [|done]]);
    refine (Forall_impl _ _ _ Hf _); intros item; unfold validatePublicFlowID, validateFlowMutationText,
    validateFlowExactNonNegative, given.
  - intros ([] & ([] & Hg%rguard_ok & Hr%rguard_ok)%rbind_ok & ([] & Hl%rguard_ok & ([] & Hz%rguard_ok & Hm%rguard_ok)%rbind_ok)%rbind_ok)%rbind_ok.
    rewrite negb_true_iff in *. apply bool_decide_eq_false in Hg, Hr, Hl. apply Z.leb_le in Hz, Hm. by repeat split.
  - intros (Hg & Hr & Hl & Hz & Hm). rewrite !bool_decide_false by done. cbn [negb rguard rbind].
    by rewrite (proj2 (Z.leb_le _ _) Hz), (proj2 (Z.leb_le _ _) Hm).
Qed.

(** *** History *)

Definition historyBetween (from to : gstr) : HistoryOptions :=
  HistoryOf (go "flow-1") [] 0 from to None None None None None [] [] None None None None.

(** Two events of one millisecond are compared as text: a range from version 9 to version
    10 is refused, and the reversed range is accepted. *)
Theorem flow_history_compared_as_text :
  validateFlowHistory (historyBetween (go "5-9") (go "5-10")) = Err (Mismatch (go "from_event")) /\
  validateFlowHistory (historyBetween (go "5-10") (go "5-9")) = Ok tt.
Proof. by split; vm_compute. Qed.
