(* ===== verification/FlowQueryText.v ===== *)
(** The text of FLOW.QUERY requests: parameters and the two forms of a request
    (src/flow_query_request.go, src/native_flow_query_request.go), the queries built from
    the options of reads (src/flow_query_builder.go), and projections
    (src/flow_query_projection.go).

    The text of a built query is read back by a reference lexer: what callers name occurs
    in it quoted, and values only as parameters. *)

From S2P Require Export FlowValidation.
From S2P Require Import FlowQuery.

(** ** Requests *)

Definition flowQueryMaxBytes : Z := 16 * 1024.
Definition flowQueryMaxParameters : Z := 64.
Definition flowQueryMaxParameterName : Z := 128.
Definition flowQueryMaxParameterValue : Z := 65535.

Inductive queryError :=
| QueryNotUTF8
| QueryEmpty
| QueryTooLong
| QueryTooManyParameters
| QueryParameterName
| QueryParameterDuplicate
| QueryParameterValue
| QueryVersion
| QueryArity
| QueryOption (e : flowError)
| QueryRefused (reason : gstr).

Definition validateFlowQueryText (query : gstr) : result queryError unit :=
  let! _ := rguard (utf8_valid query) QueryNotUTF8 in
  let! _ := rguard (given (trim_space query)) QueryEmpty in
  rguard (blen query <=? flowQueryMaxBytes) QueryTooLong.

Definition normalizeFlowQueryParameter (value : val) : option val :=
  match value with
  | VString s => if utf8_valid s && (blen s <=? flowQueryMaxParameterValue) then Some value else None
  | VBytes s => if blen s <=? flowQueryMaxParameterValue then Some value else None
  | VBool _ => Some value
  | VFloat bits => if finite bits then Some value else None
  | VInt _ z => Some (VInt IInt64 z)
  | VUint _ z => if z <=? max_int64 then Some (VInt IInt64 z) else None
  | _ => None
  end.

Definition parameterByte (b : byte) : bool :=
  byte_between 97 122 b || byte_between 65 90 b || byte_between 48 57 b || bool_decide (b ∈ [x5f; x2e; x2d]).

Definition validFlowQueryParameterName (name : gstr) : bool :=
  given name && (blen name <=? flowQueryMaxParameterName) && forallb parameterByte name.

Record preparedFlowQuery := PreparedQuery { pq_query : gstr; pq_parameters : list (gstr * val) }.

Definition prepareParameter (entry : gstr * val) : result queryError (gstr * val) :=
  if validFlowQueryParameterName entry.1
  then match normalizeFlowQueryParameter entry.2 with Some v => Ok (entry.1, v) | None => Err QueryParameterValue end
  else Err QueryParameterName.

Definition prepareFlowQuery (query : gstr) (params : list (gstr * val)) : result queryError preparedFlowQuery :=
  let! _ := validateFlowQueryText query in
  let! _ := rguard (blen params <=? flowQueryMaxParameters) QueryTooManyParameters in
  let! parameters := rmapM prepareParameter params in
  Ok (PreparedQuery query (sort_entries parameters)).

Definition queryLanguage : gstr := go "FQL1".

(** [preparedFlowQuery.commandArgs], behind the name of the command. *)
Definition preparedArgs (query : preparedFlowQuery) : list val :=
  VString queryLanguage :: VString (pq_query query) :: flat_map (fun p => [VString p.1; p.2]) (pq_parameters query).

(** The payload of a request. *)
Record queryPayload := QueryPayload { qp_query : gstr; qp_params : list (gstr * val) }.

(** The loop over the named parameters of [buildFlowQueryRequestNative]. *)
Fixpoint readParameters (seen : list (gstr * val)) (args : list val) : result queryError (list (gstr * val)) :=
  match args with
  | name :: value :: rest =>
      match commandText name with
      | Some name =>
          if validFlowQueryParameterName name then
            if assoc_has name seen then Err QueryParameterDuplicate
            else match normalizeFlowQueryParameter value with
            | Some v => readParameters (seen ++ [(name, v)]) rest
            | None => Err QueryParameterValue
            end
          else Err QueryParameterName
      | None => Err QueryParameterName
      end
  | _ => Ok seen
  end.

Definition buildFlowQueryRequest (args : list val) : result queryError queryPayload :=
  match args with
  | version :: query :: rest =>
      if negb (Nat.even (length rest)) then Err QueryArity
      else if negb (bool_decide (commandText version = Some queryLanguage)) then Err QueryVersion
      else match commandText query with
      | None => Err QueryVersion
      | Some query =>
          let! _ := validateFlowQueryText query in
          let! _ := rguard (blen rest / 2 <=? flowQueryMaxParameters) QueryTooManyParameters in
          let! params := readParameters [] rest in
          Ok (QueryPayload query params)
      end
  | _ => Err QueryArity
  end.

(** ** The builder *)

Definition maxFlowQueryPartitionBytes : Z := 65535.
Definition defaultFlowResponseLimitV080 : Z := 100.

Record flowCollectionQuery := CollectionQuery {
  q_text : gstr;
  q_predicateCount : Z;
  q_params : list (gstr * val);
  q_orderField : gstr;
  q_direction : gstr;
  q_limit : Z;
}.

(** [builder.params[name] = value]. *)
Fixpoint setParam (name : gstr) (value : val) (params : list (gstr * val)) : list (gstr * val) :=
  match params with
  | [] => [(name, value)]
  | (k, v) :: params => if bool_decide (k = name) then (name, value) :: params else (k, v) :: setParam name value params
  end.

Definition withText (text : gstr) (b : flowCollectionQuery) : flowCollectionQuery :=
  CollectionQuery (q_text b ++ text) (q_predicateCount b) (q_params b) (q_orderField b) (q_direction b) (q_limit b).
Definition withParam (name : gstr) (value : val) (b : flowCollectionQuery) : flowCollectionQuery :=
  CollectionQuery (q_text b) (q_predicateCount b) (setParam name value (q_params b)) (q_orderField b) (q_direction b) (q_limit b).

Definition startPredicate (b : flowCollectionQuery) : flowCollectionQuery :=
  CollectionQuery (q_text b ++ if 0 <? q_predicateCount b then go " AND " else []) (q_predicateCount b + 1) (q_params b)
    (q_orderField b) (q_direction b) (q_limit b).

Definition addPredicate (predicate : gstr) (b : flowCollectionQuery) : flowCollectionQuery := withText predicate (startPredicate b).

Definition addEquality (field parameter : gstr) (value : val) (b : flowCollectionQuery) : flowCollectionQuery :=
  withParam parameter value (addPredicate (field ++ go " = @" ++ parameter) b).

(** [writeFlowQueryMetadataName]: quotes are doubled. *)
Definition quoteBytes (name : gstr) : gstr := flat_map (fun b => if bool_decide (b = x27) then [x27; x27] else [b]) name.

Definition addMetadataEquality (root parameter : gstr) (value : val) (names : list gstr) (b : flowCollectionQuery) : flowCollectionQuery :=
  withParam parameter value
    (addPredicate (root ++ flat_map (fun name => go "['" ++ quoteBytes name ++ go "']") names ++ go " = @" ++ parameter) b).

Definition asQuery {A} (m : result flowError A) : result queryError A := match m with Ok a => Ok a | Err e => Err (QueryOption e) end.

Definition newFlowCollectionQuery (partitionKey : gstr) (count : option Z) (reverse : option bool) (orderField : gstr)
  : result queryError flowCollectionQuery :=
  if negb (given partitionKey) || (maxFlowQueryPartitionBytes <? blen partitionKey) then Err (QueryRefused (go "partition key"))
  else
    let limit := default defaultFlowResponseLimitV080 count in
    if (limit <=? 0) || (defaultFlowResponseLimitV080 <? limit) then Err (QueryRefused (go "limit"))
    else
      Ok (addEquality (go "partition_key") (go "partition_key") (VString partitionKey)
            (CollectionQuery (go "FROM runs WHERE ") 0 [] orderField (if default false reverse then go "DESC" else go "ASC") limit)).

Definition addUpdatedWindow (fromMS toMS : option Z) (b : flowCollectionQuery) : result queryError flowCollectionQuery :=
  match fromMS, toMS with
  | None, None => Ok b
  | _, _ =>
      let from := default 0 fromMS in
      let to := default maxFlowExactIntegerV080 toMS in
      let! _ := asQuery (validateFlowExactNonNegative (go "from_ms") from) in
      let! _ := asQuery (validateFlowExactNonNegative (go "to_ms") to) in
      let! _ := rguard (from <=? to) (QueryRefused (go "from_ms")) in
      Ok (withParam (go "to_ms") (VInt IInt64 to)
           (withParam (go "from_ms") (VInt IInt64 from) (addPredicate (go "updated_at_ms BETWEEN @from_ms AND @to_ms") b)))
  end.

Definition indexedFlowQueryParameter (prefix : gstr) (index : nat) : gstr := prefix ++ format_int (Z.of_nat index).

(** Attributes, by trimmed name. [slices.SortFunc] is not stable; names are distinct. *)
Definition sortedAttributes (attributes : valueMap) : list (gstr * val) :=
  sort_entries (prod_map canonicalFlowMetadataKey id <$> attributes).

Definition addIndexed {A} (add : gstr -> A -> flowCollectionQuery -> flowCollectionQuery) (prefix : gstr) (entries : list A)
    (b : flowCollectionQuery) : flowCollectionQuery :=
  foldl (fun b e => add (indexedFlowQueryParameter prefix e.1) e.2 b) b (imap pair entries).

Definition addAttributes (attributes : valueMap) : flowCollectionQuery -> flowCollectionQuery :=
  addIndexed (fun parameter entry => addMetadataEquality (go "attribute") parameter entry.2 [entry.1]) (go "attribute_")
    (sortedAttributes attributes).

(** State metadata, by state and name. *)
Definition sortedStateMeta (stateMeta : list (gstr * valueMap)) : list (gstr * gstr * val) :=
  flat_map (fun state => (fun e => (state.1, e.1, e.2)) <$> sortedAttributes state.2)
    (sort_entries (prod_map trim_space id <$> stateMeta)).

Definition addStateMeta (stateMeta : list (gstr * valueMap)) : flowCollectionQuery -> flowCollectionQuery :=
  addIndexed (fun parameter entry => addMetadataEquality (go "state_meta") parameter entry.2 [entry.1.1; entry.1.2]) (go "state_meta_")
    (sortedStateMeta stateMeta).

Definition buildQuery (b : flowCollectionQuery) : result queryError (gstr * list (gstr * val)) :=
  if 12 <? q_predicateCount b then Err (QueryRefused (go "at most 12 predicates"))
  else
    let query := q_text b ++ go " ORDER BY " ++ q_orderField b ++ go " " ++ q_direction b ++ go " LIMIT " ++
                 format_int (q_limit b) ++ go " RETURN RECORDS" in
    let! _ := validateFlowQueryText query in
    Ok (query, q_params b).

(** ** Queries of reads *)

Definition isTrue (b : option bool) : bool := bool_decide (b = Some true).
Definition anyText : gstr := go "any".
Definition isAny (s : gstr) : bool := bool_decide (s = anyText).
Definition refuse (b : bool) (reason : String.string) : result queryError unit := rguard (negb b) (QueryRefused (go reason)).

Definition validateFlowQueryReadOptions (opt : ReadOptions) : result queryError unit :=
  let! _ := asQuery (validateFlowReadOptions opt) in
  let! _ := refuse (isTrue (ro_IncludeCold opt)) "include_cold" in
  let! _ := refuse (isTrue (ro_ConsistentProjection opt)) "consistent_projection" in
  refuse (match ro_Count opt with Some n => defaultFlowResponseLimitV080 <? n | None => false end) "limit".

Definition updatedAt : gstr := go "updated_at_ms".
Definition terminalStates : list gstr := go <$> ["completed"; "failed"; "cancelled"]%string.

Definition addFlowTerminalPredicate (state : gstr) (b : flowCollectionQuery) : result queryError flowCollectionQuery :=
  if negb (given state) || isAny state then
    Ok (withParam (go "terminal_2") (VString (go "cancelled"))
         (withParam (go "terminal_1") (VString (go "failed"))
           (withParam (go "terminal_0") (VString (go "completed"))
             (addPredicate (go "state IN (@terminal_0, @terminal_1, @terminal_2)") b))))
  else if bool_decide (state ∈ terminalStates) then Ok (addEquality (go "state") (go "state") (VString state) b)
  else Err (QueryRefused (go "terminal state")).

Definition addTextEquality (field : String.string) (value : gstr) : flowCollectionQuery -> flowCollectionQuery :=
  addEquality (go field) (go field) (VString value).

Definition builtQuery : Type := result queryError (gstr * list (gstr * val)).

Definition buildFlowListQuery (flowType : gstr) (opt : ReadOptions) : builtQuery :=
  let! _ := asQuery (validatePublicFlowType (go "flow type") flowType) in
  let! _ := validateFlowQueryReadOptions opt in
  let noAttributes := bool_decide (ro_Attributes opt = []) in
  let! _ := refuse (isAny flowType && noAttributes) "list requires a concrete flow type or an attribute predicate" in
  let! _ := refuse (negb (isTrue (ro_TerminalOnly opt)) && isAny (ro_State opt) && noAttributes) "list state any" in
  let! b := newFlowCollectionQuery (ro_PartitionKey opt) (ro_Count opt) (ro_Rev opt) updatedAt in
  let b := if isAny flowType then b else addTextEquality "type" flowType b in
  let! b :=
    if isTrue (ro_TerminalOnly opt) then addFlowTerminalPredicate (ro_State opt) b
    else if negb (given (ro_State opt)) then Ok (addTextEquality "state" (go "queued") b)
    else Ok (if isAny (ro_State opt) then b else addTextEquality "state" (ro_State opt) b) in
  let! b := addUpdatedWindow (ro_FromMS opt) (ro_ToMS opt) (addAttributes (ro_Attributes opt) b) in
  buildQuery b.

Definition buildFlowSearchQuery (opt : SearchOptions) : builtQuery :=
  let! _ := asQuery (validateFlowSearch opt) in
  let! _ := refuse (negb (given (se_PartitionKey opt))) "search requires partition_key" in
  let! _ := refuse (bool_decide (se_Attributes opt = []) && bool_decide (se_StateMeta opt = []))
              "search requires an attribute or state_meta predicate" in
  let concrete := given (se_Type opt) && negb (isAny (se_Type opt)) in
  let! _ := refuse (negb concrete && negb (bool_decide (se_StateMeta opt = []))) "state_meta predicates require a concrete flow type" in
  let! _ := refuse (isTrue (se_IncludeCold opt)) "include_cold" in
  let! _ := refuse (isTrue (se_ConsistentProjection opt)) "consistent_projection" in
  let! b := newFlowCollectionQuery (se_PartitionKey opt) (se_Count opt) (se_Rev opt) updatedAt in
  let b := if concrete then addTextEquality "type" (se_Type opt) b else b in
  let! b :=
    if isTrue (se_TerminalOnly opt) then addFlowTerminalPredicate (se_State opt) b
    else Ok (if given (se_State opt) && negb (isAny (se_State opt)) then addTextEquality "state" (se_State opt) b else b) in
  let! b := addUpdatedWindow (se_FromMS opt) (se_ToMS opt) (addStateMeta (se_StateMeta opt) (addAttributes (se_Attributes opt) b)) in
  buildQuery b.

Definition buildFlowTerminalQuery (flowType : gstr) (opt : ReadOptions) : builtQuery :=
  let! _ := asQuery (validatePublicFlowType (go "flow type") flowType) in
  let! _ := validateFlowQueryReadOptions opt in
  let! _ := refuse (isAny flowType) "terminals require a concrete flow type" in
  let! _ := refuse (negb (bool_decide (ro_Attributes opt = []))) "terminals do not support attribute predicates" in
  let! b := newFlowCollectionQuery (ro_PartitionKey opt) (ro_Count opt) (ro_Rev opt) updatedAt in
  let! b := addFlowTerminalPredicate (ro_State opt) (addTextEquality "type" flowType b) in
  let! b := addUpdatedWindow (ro_FromMS opt) (ro_ToMS opt) b in
  buildQuery b.

Definition buildFlowFailureQuery (flowType : gstr) (opt : ReadOptions) : builtQuery :=
  let! _ := refuse (given (ro_State opt) && negb (isAny (ro_State opt)) && negb (bool_decide (ro_State opt = go "failed"))) "failures state" in
  buildFlowListQuery flowType
    (ReadOf (ro_PartitionKey opt) (ro_Count opt) (ro_FromMS opt) (ro_ToMS opt) (ro_Rev opt) (go "failed") None (ro_IncludeCold opt)
       (ro_ConsistentProjection opt) (ro_Attributes opt)).

(** The three fields a lineage is read by. *)
Inductive lineage := ByParent | ByRoot | ByCorrelation.
Definition lineageField (l : lineage) : gstr :=
  go (match l with ByParent => "parent_flow_id" | ByRoot => "root_flow_id" | ByCorrelation => "correlation_id" end).

Definition buildFlowLineageQuery (field : lineage) (id : gstr) (opt : ReadOptions) : builtQuery :=
  let! _ := asQuery (validateRequiredText (go "flow lineage id") id) in
  let! _ := validateFlowQueryReadOptions opt in
  let! _ := refuse (negb (bool_decide (ro_Attributes opt = []))) "lineage does not support attribute predicates" in
  let! b := newFlowCollectionQuery (ro_PartitionKey opt) (ro_Count opt) (ro_Rev opt) updatedAt in
  let b := addEquality (lineageField field) (go "lineage_id") (VString id) b in
  let b := if given (ro_State opt) && negb (isAny (ro_State opt)) then addTextEquality "state" (ro_State opt) b else b in
  let! _ := refuse (isTrue (ro_TerminalOnly opt)) "terminal_only cannot be combined with a lineage query" in
  let! b := addUpdatedWindow (ro_FromMS opt) (ro_ToMS opt) (addAttributes (ro_Attributes opt) b) in
  buildQuery b.

(** [clock] is [nowMS()]; the difference of two [int64]. *)
Definition buildFlowStuckQuery (clock : Z) (flowType partitionKey : gstr) (count olderThanMS suppliedNow : option Z) : builtQuery :=
  let! _ := asQuery (validateFlowStuck flowType count olderThanMS suppliedNow) in
  let! _ := refuse (isAny flowType) "stuck requires a concrete flow type" in
  let cutoff := swrap 64 (default clock suppliedNow - default 0 olderThanMS) in
  let! _ := refuse (cutoff <? 0) "older_than_ms must not exceed now_ms" in
  let! b := newFlowCollectionQuery partitionKey count None (go "lease_deadline_ms") in
  let b := addTextEquality "state" running (addTextEquality "type" flowType b) in
  let b := addPredicate (go "lease_deadline_ms BETWEEN @lease_from_ms AND @lease_to_ms") b in
  buildQuery (withParam (go "lease_to_ms") (VInt IInt64 cutoff) (withParam (go "lease_from_ms") (VInt IInt64 0) b)).

(** ** Projections *)

Definition flowQueryWhitespace (b : byte) : bool := bool_decide (b ∈ [x20; x09; x0a; x0d]).

Fixpoint trimStart (s : gstr) : gstr := match s with b :: rest => if flowQueryWhitespace b then trimStart rest else s | [] => [] end.
Definition trimWhitespace (s : gstr) : gstr := rev (trimStart (rev (trimStart s))).

(** The word a query starts with, up to white space. *)
Definition startsWithWord (word : String.string) (query : gstr) : bool :=
  let query := trimStart query in
  let n := length (go word) in
  equal_fold (take n query) (go word) && (length (go word) <=? length query)%nat &&
  match drop n query with [] => true | b :: _ => flowQueryWhitespace b end.

Definition hasFlowExplainPrefix : gstr -> bool := startsWithWord "EXPLAIN".

Inductive explainKind := Explain | ExplainAnalyze.
Definition explainPrefix (k : explainKind) : gstr := go (match k with Explain => "EXPLAIN " | ExplainAnalyze => "EXPLAIN ANALYZE " end).

(** What [FlowQuery] and [flowExplain] send. *)
Definition flowQueryRequest (query : gstr) (params : list (gstr * val)) : result queryError preparedFlowQuery :=
  let! _ := refuse (hasFlowExplainPrefix query) "EXPLAIN" in prepareFlowQuery query params.

Definition flowExplainRequest (k : explainKind) (query : gstr) (params : list (gstr * val)) : result queryError preparedFlowQuery :=
  let! _ := validateFlowQueryText query in
  let! _ := refuse (hasFlowExplainPrefix query) "EXPLAIN" in
  prepareFlowQuery (explainPrefix k ++ query) params.

Definition wordStart (b : byte) : bool := bool_decide (b = x5f) || byte_between 65 90 b || byte_between 97 122 b.
Definition wordContinue (b : byte) : bool := wordStart b || byte_between 48 57 b.

(** The scan of [containsFlowQueryReturn]: outside quotes and words, inside quotes, or
    inside a word, which is kept. A quote inside quotes closes them unless doubled. *)
Inductive scanMode := ScanOpen | ScanQuoted | ScanQuote | ScanWord (word : gstr).

Definition isReturn (word : gstr) : bool := equal_fold word (go "RETURN").

Definition scanOpenByte (b : byte) : scanMode :=
  if bool_decide (b = x27) then ScanQuoted else if wordStart b then ScanWord [b] else ScanOpen.

Fixpoint scanReturn (mode : scanMode) (query : gstr) : bool :=
  match query with
  | [] => match mode with ScanWord word => isReturn word | _ => false end
  | b :: query =>
      match mode with
      | ScanOpen => scanReturn (scanOpenByte b) query
      | ScanQuoted => scanReturn (if bool_decide (b = x27) then ScanQuote else ScanQuoted) query
      | ScanQuote => scanReturn (if bool_decide (b = x27) then ScanQuoted else scanOpenByte b) query
      | ScanWord word =>
          if wordContinue b then scanReturn (ScanWord (word ++ [b])) query
          else isReturn word || scanReturn (scanOpenByte b) query
      end
  end.

Definition containsFlowQueryReturn : gstr -> bool := scanReturn ScanOpen.

Definition flowQueryMaxProjectionFields : Z := 32.
Definition flowQueryMaxDynamicNameBytes : Z := 64.

Definition quoteFlowProjectionName (value : gstr) (allowPrivate : bool) : result queryError gstr :=
  if negb (utf8_valid value) || negb (given value) || (flowQueryMaxDynamicNameBytes <? blen value) ||
     negb allowPrivate && bool_decide (go "__" `prefix_of` value)
  then Err (QueryRefused (go "projection name")) else Ok ([x27] ++ quoteBytes value ++ [x27]).

Inductive projectionSource := Runs | Events.
#[global] Instance projectionSource_eq_dec : EqDecision projectionSource.
Proof. solve_decision. Defined.

Inductive projectionField :=
| RunField (selector : gstr)
| EventField (selector : gstr)
| DynamicField (source : projectionSource) (selector : gstr).

Definition runFields : list gstr := go <$> [
  "run_id"; "type"; "state"; "version"; "priority"; "partition_key"; "created_at_ms"; "updated_at_ms"; "next_run_at_ms";
  "lease_deadline_ms"; "attempts"; "run_state"; "max_active_ms"; "parent_flow_id"; "root_flow_id"; "correlation_id";
  "attributes"; "state_meta"]%string.
Definition eventFields : list gstr := go <$> ["event_id"; "fields"]%string.

Definition flowAttributeProjection (name : gstr) : result queryError projectionField :=
  let! quoted := quoteFlowProjectionName name false in Ok (DynamicField Runs (go "attribute[" ++ quoted ++ go "]")).
Definition flowStateMetaProjection (state name : gstr) : result queryError projectionField :=
  let! quotedState := quoteFlowProjectionName state true in
  let! quotedName := quoteFlowProjectionName name false in
  Ok (DynamicField Runs (go "state_meta[" ++ quotedState ++ go "][" ++ quotedName ++ go "]")).
Definition flowEventFieldProjection (name : gstr) : result queryError projectionField :=
  let! quoted := quoteFlowProjectionName name false in Ok (DynamicField Events (go "fields[" ++ quoted ++ go "]")).

(** [validatedFlowProjection]: the source and selector of a valid field. *)
Definition validatedFlowProjection (f : projectionField) : option (projectionSource * gstr) :=
  match f with
  | RunField s => if bool_decide (s ∈ runFields) then Some (Runs, s) else None
  | EventField s => if bool_decide (s ∈ eventFields) then Some (Events, s) else None
  | DynamicField source s => Some (source, s)
  end.

Definition takeWord (s : gstr) : gstr := (fix go s := match s with b :: rest => if flowQueryWhitespace b then [] else b :: go rest | [] => [] end) s.

Definition projectedFlowQuerySource (query : gstr) : result queryError projectionSource :=
  let query := trimStart query in
  let failed := Err (QueryRefused (go "projected query must start with FROM runs or FROM events")) in
  if startsWithWord "FROM" query && negb (Nat.eqb (length query) (length (go "FROM"))) then
    let source := to_lower (takeWord (trimStart (drop (length (go "FROM")) query))) in
    if bool_decide (source = go "runs") then Ok Runs else if bool_decide (source = go "events") then Ok Events else failed
  else failed.

Definition endsWithSemicolon (s : gstr) : bool := bool_decide (last s = Some x3b).

Definition stripOptionalFlowQueryTerminator (query : gstr) : result queryError gstr :=
  let trimmed := trimWhitespace query in
  if endsWithSemicolon trimmed then
    let base := trimWhitespace (removelast trimmed) in
    if endsWithSemicolon base then Err (QueryRefused (go "semicolon")) else Ok base
  else Ok trimmed.

Inductive projectionShape := ShapeRecord | ShapeRecords.
Definition shapeText (s : projectionShape) : gstr := go (match s with ShapeRecord => "RECORD" | ShapeRecords => "RECORDS" end).

(** The loop over the fields: each of the query's source, none twice. *)
Fixpoint projectionSelectors (source : projectionSource) (seen : list gstr) (fields : list projectionField) : result queryError (list gstr) :=
  match fields with
  | [] => Ok (rev seen)
  | f :: fields =>
      match validatedFlowProjection f with
      | Some (s, selector) =>
          if negb (bool_decide (s = source)) then Err (QueryRefused (go "projection field source"))
          else if bool_decide (selector ∈ seen) then Err (QueryRefused (go "duplicate projection field"))
          else projectionSelectors source (selector :: seen) fields
      | None => Err (QueryRefused (go "projection field"))
      end
  end.

(** [strings.Join]. *)
Fixpoint joinTexts (separator : gstr) (l : list gstr) : gstr :=
  match l with [] => [] | [s] => s | s :: l => s ++ separator ++ joinTexts separator l end.

Definition projectFlowQuery (query : gstr) (shape : projectionShape) (fields : list projectionField) : result queryError gstr :=
  let! _ := validateFlowQueryText query in
  let! _ := rguard (negb (bool_decide (fields = [])) && (blen fields <=? flowQueryMaxProjectionFields)) (QueryRefused (go "projection fields")) in
  let! source := projectedFlowQuerySource query in
  let! selectors := projectionSelectors source [] fields in
  let! _ := refuse (containsFlowQueryReturn query) "RETURN" in
  let! base := stripOptionalFlowQueryTerminator query in
  let projected := base ++ go " RETURN " ++ shapeText shape ++ go " (" ++ joinTexts (go ", ") selectors ++ go ")" in
  let! _ := validateFlowQueryText projected in
  Ok projected.

(** ** The reference lexer

    Words, quoted texts with doubled quotes inside, and signs, one byte each. *)

Inductive token := TWord (word : gstr) | TQuoted (text : gstr) | TSign (b : byte).

Inductive lexMode := LexOpen | LexWord (word : gstr) | LexQuoted (text : gstr) | LexQuote (text : gstr).

Definition lexOpen (b : byte) : list token * lexMode :=
  if flowQueryWhitespace b then ([], LexOpen)
  else if bool_decide (b = x27) then ([], LexQuoted [])
  else if wordContinue b then ([], LexWord [b]) else ([TSign b], LexOpen).

(** What is pending becomes a token. *)
Definition flushed (m : lexMode) : list token := match m with LexWord w => [TWord w] | LexQuote s => [TQuoted s] | _ => [] end.

Definition lexByte (m : lexMode) (b : byte) : list token * lexMode :=
  let next := (flushed m ++ (lexOpen b).1, (lexOpen b).2) in
  match m with
  | LexOpen => next
  | LexWord w => if wordContinue b then ([], LexWord (w ++ [b])) else next
  | LexQuoted s => if bool_decide (b = x27) then ([], LexQuote s) else ([], LexQuoted (s ++ [b]))
  | LexQuote s => if bool_decide (b = x27) then ([], LexQuoted (s ++ [x27])) else next
  end.

Fixpoint lexRun (m : lexMode) (text : gstr) : list token * lexMode :=
  match text with
  | [] => ([], m)
  | b :: text => let r := lexByte m b in let r' := lexRun r.2 text in (r.1 ++ r'.1, r'.2)
  end.

(** The tokens of a text; a quote left open is no token. *)
Definition lexQuery (text : gstr) : option (list token) :=
  let r := lexRun LexOpen text in match r.2 with LexQuoted _ => None | m => Some (r.1 ++ flushed m) end.

(** ** What a read asks for *)

(** A predicate: a field, under the names of its path, equal to a parameter; or one of the
    three fixed forms. *)
Inductive predicate :=
| FieldIs (field : gstr) (path : list gstr) (parameter : gstr) (value : val)
| UpdatedWithin (from to : Z)
| TerminalState
| LeaseWithin (from to : Z).

Definition word (s : String.string) : token := TWord (go s).
Definition sign (s : String.string) : list token := TSign <$> go s.
Definition betweenTokens (field from to : String.string) : list token :=
  [word field; word "BETWEEN"] ++ sign "@" ++ [word from; word "AND"] ++ sign "@" ++ [word to].

Definition predicateTokens (p : predicate) : list token :=
  match p with
  | FieldIs field path parameter _ =>
      TWord field :: flat_map (fun name => sign "[" ++ [TQuoted name] ++ sign "]") path ++ sign "=@" ++ [TWord parameter]
  | UpdatedWithin _ _ => betweenTokens "updated_at_ms" "from_ms" "to_ms"
  | TerminalState =>
      [word "state"; word "IN"] ++ sign "(@" ++ [word "terminal_0"] ++ sign ",@" ++ [word "terminal_1"] ++ sign ",@" ++
      [word "terminal_2"] ++ sign ")"
  | LeaseWithin _ _ => betweenTokens "lease_deadline_ms" "lease_from_ms" "lease_to_ms"
  end.

Definition predicateParams (p : predicate) : list (gstr * val) :=
  match p with
  | FieldIs _ _ parameter value => [(parameter, value)]
  | UpdatedWithin from to => [(go "from_ms", VInt IInt64 from); (go "to_ms", VInt IInt64 to)]
  | TerminalState => [(go "terminal_0", VString (go "completed")); (go "terminal_1", VString (go "failed")); (go "terminal_2", VString (go "cancelled"))]
  | LeaseWithin from to => [(go "lease_from_ms", VInt IInt64 from); (go "lease_to_ms", VInt IInt64 to)]
  end.

(** A query: the predicates on the runs of a partition, an order and a limit. *)
Record queryPlan := QueryPlan {
  plan_predicates : list predicate;
  plan_order : gstr;
  plan_descending : bool;
  plan_limit : Z;
}.

Fixpoint conjoined (l : list (list token)) : list token :=
  match l with [] => [] | [p] => p | p :: l => p ++ [word "AND"] ++ conjoined l end.

Definition planTokens (q : queryPlan) : list token :=
  [word "FROM"; word "runs"; word "WHERE"] ++ conjoined (predicateTokens <$> plan_predicates q) ++
  [word "ORDER"; word "BY"; TWord (plan_order q); word (if plan_descending q then "DESC" else "ASC"); word "LIMIT";
   TWord (format_int (plan_limit q)); word "RETURN"; word "RECORDS"].

Definition planParams (q : queryPlan) : list (gstr * val) := flat_map predicateParams (plan_predicates q).

Definition textIs (field : String.string) (value : gstr) : predicate := FieldIs (go field) [] (go field) (VString value).
Definition unlessAny (field : String.string) (value : gstr) : list predicate :=
  if given value && negb (isAny value) then [textIs field value] else [].

Definition windowPredicates (from to : option Z) : list predicate :=
  match from, to with None, None => [] | _, _ => [UpdatedWithin (default 0 from) (default maxFlowExactIntegerV080 to)] end.

Definition terminalPredicates (state : gstr) : list predicate :=
  if negb (given state) || isAny state then [TerminalState] else [textIs "state" state].

Definition attributePredicates (attributes : valueMap) : list predicate :=
  imap (fun i e => FieldIs (go "attribute") [e.1] (indexedFlowQueryParameter (go "attribute_") i) e.2) (sortedAttributes attributes).
Definition stateMetaPredicates (stateMeta : list (gstr * valueMap)) : list predicate :=
  imap (fun i e => FieldIs (go "state_meta") [e.1.1; e.1.2] (indexedFlowQueryParameter (go "state_meta_") i) e.2) (sortedStateMeta stateMeta).

Inductive flowCollection :=
| QList (flowType : gstr) (opt : ReadOptions)
| QSearch (opt : SearchOptions)
| QTerminals (flowType : gstr) (opt : ReadOptions)
| QFailures (flowType : gstr) (opt : ReadOptions)
| QLineage (field : lineage) (id : gstr) (opt : ReadOptions)
| QStuck (flowType partitionKey : gstr) (count olderThanMS now : option Z).

Definition buildCollection (clock : Z) (q : flowCollection) : builtQuery :=
  match q with
  | QList flowType opt => buildFlowListQuery flowType opt
  | QSearch opt => buildFlowSearchQuery opt
  | QTerminals flowType opt => buildFlowTerminalQuery flowType opt
  | QFailures flowType opt => buildFlowFailureQuery flowType opt
  | QLineage field id opt => buildFlowLineageQuery field id opt
  | QStuck flowType partitionKey count olderThanMS now => buildFlowStuckQuery clock flowType partitionKey count olderThanMS now
  end.

Definition readPlan (partitionKey : gstr) (count : option Z) (reverse : option bool) (predicates : list predicate) : queryPlan :=
  QueryPlan (textIs "partition_key" partitionKey :: predicates) updatedAt (isTrue reverse) (default defaultFlowResponseLimitV080 count).

(** What a list asks for; a state that is not given is [queued]. *)
Definition listPlan (flowType state : gstr) (terminalOnly : option bool) (opt : ReadOptions) : queryPlan :=
  readPlan (ro_PartitionKey opt) (ro_Count opt) (ro_Rev opt)
    (unlessAny "type" flowType ++
     (if isTrue terminalOnly then terminalPredicates state
      else if given state then unlessAny "state" state else [textIs "state" (go "queued")]) ++
     attributePredicates (ro_Attributes opt) ++ windowPredicates (ro_FromMS opt) (ro_ToMS opt)).

Definition collectionPlan (clock : Z) (q : flowCollection) : queryPlan :=
  match q with
  | QList flowType opt => listPlan flowType (ro_State opt) (ro_TerminalOnly opt) opt
  | QFailures flowType opt => listPlan flowType (go "failed") None opt
  | QSearch opt =>
      readPlan (se_PartitionKey opt) (se_Count opt) (se_Rev opt)
        (unlessAny "type" (se_Type opt) ++
         (if isTrue (se_TerminalOnly opt) then terminalPredicates (se_State opt) else unlessAny "state" (se_State opt)) ++
         attributePredicates (se_Attributes opt) ++ stateMetaPredicates (se_StateMeta opt) ++ windowPredicates (se_FromMS opt) (se_ToMS opt))
  | QTerminals flowType opt =>
      readPlan (ro_PartitionKey opt) (ro_Count opt) (ro_Rev opt)
        ([textIs "type" flowType] ++ terminalPredicates (ro_State opt) ++ windowPredicates (ro_FromMS opt) (ro_ToMS opt))
  | QLineage field id opt =>
      readPlan (ro_PartitionKey opt) (ro_Count opt) (ro_Rev opt)
        ([FieldIs (lineageField field) [] (go "lineage_id") (VString id)] ++ unlessAny "state" (ro_State opt) ++
         windowPredicates (ro_FromMS opt) (ro_ToMS opt))
  | QStuck flowType partitionKey count olderThanMS now =>
      QueryPlan [textIs "partition_key" partitionKey; textIs "type" flowType; textIs "state" running;
                 LeaseWithin 0 (swrap 64 (default clock now - default 0 olderThanMS))]
        (go "lease_deadline_ms") false (default defaultFlowResponseLimitV080 count)
  end.
