(* ===== verification/FlowQueryLex.v ===== *)
(** Queries built from the options of reads say what the options ask for: read back by the
    reference lexer of [FlowQueryText], the text of a query has the tokens of its plan,
    and its parameters are the plan's (src/flow_query_builder.go). *)

From S2P Require Import FlowQuery.
From S2P Require Export FlowQueryText.

(** ** The lexer on joined texts *)

Lemma lexRun_app m a b : lexRun m (a ++ b) = ((lexRun m a).1 ++ (lexRun (lexRun m a).2 b).1, (lexRun (lexRun m a).2 b).2).
Proof.
  revert m. induction a as [|x a IH]; intros m; cbn [app lexRun fst snd]; [by destruct (lexRun m b)|].
  rewrite IH. cbn. by rewrite app_assoc.
Qed.

(** A text that ends what is before it. *)
Definition detached (text : gstr) : bool :=
  match text with b :: _ => negb (wordContinue b) && negb (bool_decide (b = x27)) | [] => true end.

Lemma lexByte_detached m b : (forall s, m <> LexQuoted s) -> detached [b] = true ->
  lexByte m b = (flushed m ++ (lexOpen b).1, (lexOpen b).2).
Proof.
  cbn. intros Hm Hb. apply andb_prop in Hb as [Hw Hq]. apply negb_true_iff in Hw, Hq.
  destruct m as [| w | s | s]; cbn; rewrite ?Hw, ?Hq; try done. by destruct (Hm s).
Qed.

Lemma lexQuery_app a b ta tb : lexQuery a = Some ta -> lexQuery b = Some tb -> detached b = true ->
  lexQuery (a ++ b) = Some (ta ++ tb).
Proof.
  unfold lexQuery. rewrite lexRun_app. destruct (lexRun LexOpen a) as [la ma]. cbn [fst snd]. intros Ha Hb Hd.
  assert ((forall s, ma <> LexQuoted s) /\ ta = la ++ flushed ma) as [Hm ->] by (destruct ma; simplify_eq; done).
  destruct b as [|x b].
  - injection Hb as <-. by destruct ma; cbn in *; rewrite ?app_nil_r.
  - cbn [lexRun] in *. assert (lexByte LexOpen x = lexOpen x) as E by (unfold lexByte; by destruct (lexOpen x)). rewrite E in Hb.
    rewrite (lexByte_detached ma x Hm) by exact Hd. cbn [fst snd] in *.
    destruct (lexRun (lexOpen x).2 b) as [lb mb]. cbn [fst snd] in *.
    destruct mb; simplify_eq; by rewrite <- !app_assoc.
Qed.

Lemma wordContinue_plain b : wordContinue b = true -> lexOpen b = ([], LexWord [b]).
Proof. by destruct b. Qed.

Lemma lexRun_word p w : forallb wordContinue w = true -> lexRun (LexWord p) w = ([], LexWord (p ++ w)).
Proof.
  revert p. induction w as [|b w IH]; intros p; cbn; [by rewrite app_nil_r|]. intros Hw.
  apply andb_prop in Hw as [Hb Hw]. rewrite Hb. cbn. rewrite IH by done. cbn. by rewrite <- app_assoc.
Qed.

(** Words. *)
Definition isWord (w : gstr) : bool := given w && forallb wordContinue w.

Lemma lexQuery_word w : isWord w = true -> lexQuery w = Some [TWord w].
Proof.
  destruct w as [|b w]; [done|]. unfold isWord, lexQuery. cbn. intros Hw. apply andb_prop in Hw as [Hb Hw].
  rewrite (wordContinue_plain b Hb). cbn. by rewrite lexRun_word.
Qed.

Lemma isWord_app a b : isWord a = true -> isWord b = true -> isWord (a ++ b) = true.
Proof.
  unfold isWord. intros Ha Hb. apply andb_prop in Ha as [Ha Ha'], Hb as [Hb Hb']. rewrite forallb_app, Ha', Hb'.
  by destruct a.
Qed.

Lemma lexRun_quoteBytes s name : lexRun (LexQuoted s) (quoteBytes name) = ([], LexQuoted (s ++ name)).
Proof.
  revert s. induction name as [|b name IH]; intros s; [cbn; by rewrite app_nil_r|].
  unfold quoteBytes. cbn [flat_map]. case_bool_decide as E; fold (quoteBytes name).
  - subst b. do 2 (cbn -[quoteBytes]; rewrite !bool_decide_true by done). cbn -[quoteBytes].
    rewrite IH. by rewrite <- app_assoc.
  - cbn -[quoteBytes]. rewrite bool_decide_false by done. cbn -[quoteBytes]. rewrite IH. cbn. by rewrite <- app_assoc.
Qed.

(** A quoted name is one token, whatever its bytes. *)
Lemma lexQuery_quoted name : lexQuery (go "['" ++ quoteBytes name ++ go "']") = Some (sign "[" ++ [TQuoted name] ++ sign "]").
Proof.
  unfold lexQuery. rewrite lexRun_app. change (lexRun LexOpen (go "['")) with (sign "[", LexQuoted []). cbn [fst snd].
  rewrite lexRun_app, lexRun_quoteBytes. done.
Qed.

Lemma digits_word fuel n acc : 0 <= n -> forallb wordContinue acc = true -> forallb wordContinue (digits_fuel fuel n acc) = true.
Proof.
  revert n acc. induction fuel as [|fuel IH]; intros n acc Hn Hacc; cbn; [done|].
  assert (forallb wordContinue (Zbyte (48 + n mod 10) :: acc) = true) as H.
  { cbn. rewrite Hacc, andb_true_r. pose proof (Z.mod_pos_bound n 10 ltac:(lia)). unfold wordContinue, byte_between.
    rewrite Zbyte_small by lia. rewrite (proj2 (Z.leb_le _ _)), (proj2 (Z.leb_le _ _)) by lia. apply orb_true_r. }
  destruct (n <? 10); [done|]. apply IH; [apply Z.div_pos; lia|done].
Qed.

Lemma format_int_word n : 0 <= n -> isWord (format_int n) = true.
Proof.
  intros Hn. unfold format_int. destruct (Z.ltb_spec n 0); [lia|]. unfold isWord, given, format_nat.
  rewrite digits_word by done. rewrite bool_decide_false by apply digits_fuel_nonempty. done.
Qed.

Lemma indexed_word prefix i : isWord prefix = true -> isWord (indexedFlowQueryParameter prefix i) = true.
Proof. intros H. apply isWord_app; [done|]. apply format_int_word. lia. Qed.

(** ** Building *)

(** A query with more predicates. *)
Definition extended (q : queryPlan) (ps : list predicate) : queryPlan :=
  QueryPlan (plan_predicates q ++ ps) (plan_order q) (plan_descending q) (plan_limit q).

Definition setParams (entries : list (gstr * val)) (params : list (gstr * val)) : list (gstr * val) :=
  foldl (fun params e => setParam e.1 e.2 params) params entries.

(** The builder has written the predicates of a plan. *)
Record builds (q : queryPlan) (b : flowCollectionQuery) : Prop := Builds {
  builds_tokens : lexQuery (q_text b) = Some ([word "FROM"; word "runs"; word "WHERE"] ++ conjoined (predicateTokens <$> plan_predicates q));
  builds_some : plan_predicates q <> [];
  builds_count : q_predicateCount b = blen (plan_predicates q);
  builds_params : q_params b = setParams (planParams q) [];
  builds_order : q_orderField b = plan_order q;
  builds_direction : q_direction b = go (if plan_descending q then "DESC" else "ASC");
  builds_limit : q_limit b = plan_limit q;
}.

Lemma extended_nil q : extended q [] = q.
Proof. destruct q. unfold extended. cbn. by rewrite app_nil_r. Qed.

Lemma extended_app q ps qs : extended (extended q ps) qs = extended q (ps ++ qs).
Proof. unfold extended. cbn. by rewrite app_assoc. Qed.

Lemma conjoined_snoc l p : l <> [] -> conjoined (l ++ [p]) = conjoined l ++ [word "AND"] ++ p.
Proof.
  induction l as [|x l IH]; [done|]. intros _. destruct l as [|y l]; [done|].
  change (conjoined ((x :: y :: l) ++ [p])) with (x ++ [word "AND"] ++ conjoined ((y :: l) ++ [p])). rewrite IH by done.
  change (conjoined (x :: y :: l)) with (x ++ [word "AND"] ++ conjoined (y :: l)). by rewrite <- !app_assoc.
Qed.

Lemma setParams_app l k params : setParams (l ++ k) params = setParams k (setParams l params).
Proof. apply foldl_app. Qed.

Lemma planParams_snoc q p : planParams (extended q [p]) = planParams q ++ predicateParams p.
Proof. unfold planParams. cbn. rewrite flat_map_app. cbn. by rewrite app_nil_r. Qed.

(** Writing one more predicate, and setting its parameters. *)
Lemma builds_add q b b' p text :
  builds q b -> lexQuery text = Some (predicateTokens p) ->
  q_text b' = q_text b ++ go " AND " ++ text -> q_predicateCount b' = q_predicateCount b + 1 ->
  q_params b' = setParams (predicateParams p) (q_params b) ->
  (q_orderField b', q_direction b', q_limit b') = (q_orderField b, q_direction b, q_limit b) ->
  builds (extended q [p]) b'.
Proof.
  intros [Ht Hs Hc Hp Ho Hd Hl] Hlex Htext Hcount Hparams Hrest. simplify_eq/=. split; cbn; try congruence.
  - rewrite Htext, fmap_app. cbn. rewrite conjoined_snoc by (by destruct (plan_predicates q)).
    change (go " AND " ++ text) with (go " AND" ++ x20 :: text).
    rewrite (lexQuery_app _ _ _ ([word "AND"] ++ predicateTokens p) Ht).
    + by cbn; rewrite <- ?app_assoc.
    + by apply (lexQuery_app (go " AND") (x20 :: text) [word "AND"]).
    + done.
  - by destruct (plan_predicates q).
  - rewrite Hcount, Hc, blen_app. done.
  - rewrite Hparams, Hp, <- setParams_app. by rewrite <- planParams_snoc.
Qed.

Lemma builds_started q b : builds q b -> q_text (startPredicate b) = q_text b ++ go " AND ".
Proof.
  intros H. cbn. rewrite (builds_count _ _ H). destruct (plan_predicates q) eqn:E; [by destruct (builds_some _ _ H)|].
  rewrite blen_cons. pose proof (blen_nonneg l). by rewrite (proj2 (Z.ltb_lt _ _)) by lia.
Qed.

Lemma lexQuery_parameter p : isWord p = true -> lexQuery (go " = @" ++ p) = Some (sign "=@" ++ [TWord p]).
Proof.
  intros Hp. pose proof (lexQuery_word p Hp) as H. destruct p as [|b p]; [done|]. unfold lexQuery in *.
  rewrite lexRun_app. change (lexRun LexOpen (go " = @")) with (sign "=@", LexOpen). cbn [fst snd].
  destruct (lexRun LexOpen (b :: p)) as [l m]. destruct m; simplify_eq/=; rewrite <- ?app_assoc; congruence.
Qed.

Lemma lexQuery_path path p : isWord p = true ->
  lexQuery (flat_map (fun name => go "['" ++ quoteBytes name ++ go "']") path ++ go " = @" ++ p) =
  Some (flat_map (fun name => sign "[" ++ [TQuoted name] ++ sign "]") path ++ sign "=@" ++ [TWord p]).
Proof.
  intros Hp. induction path as [|name path IH]; [by apply lexQuery_parameter|]. cbn [flat_map].
  rewrite <- !(app_assoc _ (flat_map _ path)). apply lexQuery_app; [apply lexQuery_quoted|exact IH|by destruct path].
Qed.

(** The text of an equality, with the names of a path or none. *)
Lemma lexQuery_equality field path p value : isWord field = true -> isWord p = true ->
  lexQuery (field ++ flat_map (fun name => go "['" ++ quoteBytes name ++ go "']") path ++ go " = @" ++ p) =
  Some (predicateTokens (FieldIs field path p value)).
Proof.
  intros Hf Hp. apply (lexQuery_app field _ [TWord field]); [by apply lexQuery_word|by apply lexQuery_path|by destruct path].
Qed.

Lemma builds_metadata q b root p value names : isWord root = true -> isWord p = true ->
  builds q b -> builds (extended q [FieldIs root names p value]) (addMetadataEquality root p value names b).
Proof.
  intros Hr Hp H. eapply builds_add; [exact H|by apply (lexQuery_equality root names p value)|..]; try done.
  unfold addMetadataEquality, withParam, addPredicate, withText. cbn [q_text]. rewrite (builds_started q b H). by rewrite <- !app_assoc.
Qed.

Lemma builds_equality q b field p value : isWord field = true -> isWord p = true ->
  builds q b -> builds (extended q [FieldIs field [] p value]) (addEquality field p value b).
Proof. exact (fun Hf Hp H => builds_metadata q b field p value [] Hf Hp H). Qed.

Lemma builds_text q b field value : isWord (go field) = true -> builds q b -> builds (extended q [textIs field value]) (addTextEquality field value b).
Proof. intros Hf. by apply builds_equality. Qed.

Lemma builds_terminal q b b' state : addFlowTerminalPredicate state b = Ok b' -> builds q b ->
  builds (extended q (terminalPredicates state)) b'.
Proof.
  unfold addFlowTerminalPredicate, terminalPredicates. intros Hb H. destruct (_ || _); [|case_bool_decide; [|done]]; injection Hb as <-.
  - eapply builds_add; [exact H|by instantiate (1 := go "state IN (@terminal_0, @terminal_1, @terminal_2)")|..]; try done.
    unfold withParam, addPredicate, withText. cbn [q_text]. rewrite (builds_started q b H). by rewrite <- !app_assoc.
  - by apply (builds_text q b "state").
Qed.

Lemma builds_window q b b' from to : addUpdatedWindow from to b = Ok b' -> builds q b ->
  builds (extended q (windowPredicates from to)) b'.
Proof.
  unfold addUpdatedWindow, windowPredicates. intros Hb H.
  assert (builds (extended q [UpdatedWithin (default 0 from) (default maxFlowExactIntegerV080 to)])
    (withParam (go "to_ms") (VInt IInt64 (default maxFlowExactIntegerV080 to))
      (withParam (go "from_ms") (VInt IInt64 (default 0 from)) (addPredicate (go "updated_at_ms BETWEEN @from_ms AND @to_ms") b)))) as Hw.
  { eapply builds_add; [exact H|by instantiate (1 := go "updated_at_ms BETWEEN @from_ms AND @to_ms")|..]; try done.
    unfold withParam, addPredicate, withText. cbn [q_text]. rewrite (builds_started q b H). by rewrite <- !app_assoc. }
  destruct from, to; inv_result; try done. by rewrite extended_nil.
Qed.

(** Indexed entries, each under its own parameter. *)
Lemma builds_indexed {A} (add : gstr -> A -> flowCollectionQuery -> flowCollectionQuery) (predicateOf : gstr -> A -> predicate) prefix entries q b :
  isWord prefix = true ->
  (forall q b p e, isWord p = true -> builds q b -> builds (extended q [predicateOf p e]) (add p e b)) ->
  builds q b ->
  builds (extended q (imap (fun i e => predicateOf (indexedFlowQueryParameter prefix i) e) entries)) (addIndexed add prefix entries b).
Proof.
  intros Hp Hadd. unfold addIndexed. generalize (fun i => indexed_word prefix i Hp). intros Hword.
  assert (forall (f : nat -> nat) q b, builds q b ->
    builds (extended q (imap (fun i e => predicateOf (indexedFlowQueryParameter prefix (f i)) e) entries))
      (foldl (fun b e => add (indexedFlowQueryParameter prefix e.1) e.2 b) b (imap (fun i e => (f i, e)) entries))) as H.
  { induction entries as [|e entries IH]; intros f q' b' H; cbn; [by rewrite extended_nil|].
    specialize (IH (fun i => f (S i)) (extended q' [predicateOf (indexedFlowQueryParameter prefix (f 0%nat)) e])
      (add (indexedFlowQueryParameter prefix (f 0%nat)) e b')). rewrite extended_app in IH. apply IH. by apply Hadd. }
  apply (H id).
Qed.

Lemma builds_attributes q b attributes : builds q b -> builds (extended q (attributePredicates attributes)) (addAttributes attributes b).
Proof.
  apply (builds_indexed _ (fun p e => FieldIs (go "attribute") [e.1] p e.2)); [done|]. intros. by apply builds_metadata.
Qed.

Lemma builds_stateMeta q b stateMeta : builds q b -> builds (extended q (stateMetaPredicates stateMeta)) (addStateMeta stateMeta b).
Proof.
  apply (builds_indexed _ (fun p e => FieldIs (go "state_meta") [e.1.1; e.1.2] p e.2)); [done|]. intros. by apply builds_metadata.
Qed.

Lemma builds_new partitionKey count reverse orderField b :
  newFlowCollectionQuery partitionKey count reverse orderField = Ok b ->
  builds (QueryPlan [textIs "partition_key" partitionKey] orderField (isTrue reverse) (default defaultFlowResponseLimitV080 count)) b /\
  0 < default defaultFlowResponseLimitV080 count <= defaultFlowResponseLimitV080.
Proof.
  unfold newFlowCollectionQuery. destruct (_ || _); [done|]. destruct (_ || _) eqn:E; [done|]. z_tests. intros [= <-].
  split; [|done]. split; try done. cbn. by destruct reverse as [[]|].
Qed.

Lemma buildQuery_plan q b query params :
  builds q b -> isWord (plan_order q) = true -> 0 <= plan_limit q -> buildQuery b = Ok (query, params) ->
  lexQuery query = Some (planTokens q) /\ params = setParams (planParams q) [] /\
  blen (plan_predicates q) <= 12 /\ validateFlowQueryText query = Ok tt.
Proof.
  intros H Hword Hlimit. unfold buildQuery. destruct (Z.ltb_spec 12 (q_predicateCount b)); [done|]. intros Hb.
  match type of Hb with context [validateFlowQueryText ?t] => remember t as text eqn:Htext end.
  apply rbind_ok in Hb as ([] & Hv & [= <- <-]).
  rewrite (builds_order _ _ H), (builds_direction _ _ H), (builds_limit _ _ H) in Htext. rewrite (builds_params _ _ H).
  split_and!; [| done | rewrite <- (builds_count _ _ H); lia | done].
  rewrite Htext. unfold planTokens. rewrite (app_assoc [word "FROM"; _; _]).
  apply lexQuery_app; [exact (builds_tokens _ _ H)| |done].
  assert (lexQuery (go " ORDER BY " ++ plan_order q) = Some [word "ORDER"; word "BY"; TWord (plan_order q)]) as Ho.
  { change (go " ORDER BY " ++ plan_order q) with (go " ORDER BY" ++ x20 :: plan_order q).
    apply (lexQuery_app (go " ORDER BY") (x20 :: plan_order q) [word "ORDER"; word "BY"]); [done|exact (lexQuery_word _ Hword)|done]. }
  assert (lexQuery (go " LIMIT " ++ format_int (plan_limit q)) = Some [word "LIMIT"; TWord (format_int (plan_limit q))]) as Hl.
  { change (go " LIMIT " ++ format_int (plan_limit q)) with (go " LIMIT" ++ x20 :: format_int (plan_limit q)).
    apply (lexQuery_app (go " LIMIT") (x20 :: format_int (plan_limit q)) [word "LIMIT"]);
      [done|exact (lexQuery_word _ (format_int_word _ Hlimit))|done]. }
  rewrite app_assoc. apply (lexQuery_app _ _ _ [word (if plan_descending q then "DESC" else "ASC"); word "LIMIT";
    TWord (format_int (plan_limit q)); word "RETURN"; word "RECORDS"] Ho); [|done].
  rewrite app_assoc. apply (lexQuery_app _ _ [word (if plan_descending q then "DESC" else "ASC")]);
    [by destruct (plan_descending q)| |done].
  rewrite app_assoc. by apply (lexQuery_app _ (go " RETURN RECORDS") _ [word "RETURN"; word "RECORDS"] Hl).
Qed.

(** The builder writes the plan of each read. *)
Lemma builds_unlessAny q b field value : isWord (go field) = true -> builds q b ->
  builds (extended q (unlessAny field value)) (if given value && negb (isAny value) then addTextEquality field value b else b).
Proof. intros Hf H. unfold unlessAny. destruct (_ && _); [by apply builds_text|by rewrite extended_nil]. Qed.

Ltac extend := first [eassumption | eapply builds_window; [eassumption|] | eapply builds_terminal; [eassumption|] |
  apply builds_stateMeta | apply builds_attributes | apply builds_unlessAny; [done|] | apply builds_text; [done|] | apply builds_equality; [done|done|] ].

(** A query is written from a plan. *)
Definition written (q : queryPlan) (out : gstr * list (gstr * val)) : Prop :=
  exists b, builds q b /\ isWord (plan_order q) = true /\ 0 < plan_limit q <= defaultFlowResponseLimitV080 /\ buildQuery b = Ok out.

Lemma asQuery_ok {A} (m : result flowError A) a : asQuery m = Ok a <-> m = Ok a.
Proof. destruct m; cbn; split; congruence. Qed.

Lemma refuse_ok b reason u : refuse b reason = Ok u <-> b = false.
Proof. unfold refuse. rewrite rguard_ok. apply negb_true_iff. Qed.

Ltac read_query H := inv_result; repeat match goal with
  | K : asQuery _ = Ok _ |- _ => apply asQuery_ok in K
  | K : refuse _ _ = Ok ?u |- _ => apply refuse_ok in K; try clear u
  end.

Lemma type_given name flowType u : validatePublicFlowType name flowType = Ok u -> given flowType = true.
Proof. unfold validatePublicFlowType, validateFlowMutationText. intros. inv_result. done. Qed.

(** The plan of a read, one part at a time. *)
Lemma readPlan_extended partitionKey count reverse ps :
  readPlan partitionKey count reverse ps =
  extended (QueryPlan [textIs "partition_key" partitionKey] updatedAt (isTrue reverse) (default defaultFlowResponseLimitV080 count)) ps.
Proof. done. Qed.

Ltac written_by b Hlimit H :=
  refine (ex_intro _ b (conj _ (conj eq_refl (conj Hlimit H)))); unfold collectionPlan, listPlan; rewrite ?readPlan_extended, <- ?extended_app.

Lemma builds_type q b flowType : given flowType = true -> builds q b ->
  builds (extended q (unlessAny "type" flowType)) (if isAny flowType then b else addTextEquality "type" flowType b).
Proof.
  intros Hg H. pose proof (builds_unlessAny q b "type" flowType eq_refl H) as Hb. rewrite Hg in Hb. by destruct (isAny flowType).
Qed.

Lemma list_written flowType opt out :
  buildFlowListQuery flowType opt = Ok out -> written (listPlan flowType (ro_State opt) (ro_TerminalOnly opt) opt) out.
Proof.
  unfold buildFlowListQuery. intros H. read_query H.
  apply builds_new in Hr3 as [Hb Hlimit]. apply type_given in Hr. apply (builds_type _ _ flowType Hr) in Hb.
  written_by r5 Hlimit H. apply (builds_window _ _ _ _ _ Hr5). apply builds_attributes.
  destruct (isTrue (ro_TerminalOnly opt)); [by eapply builds_terminal|].
  destruct (given (ro_State opt)) eqn:Hs; cbn [negb] in Hr4; injection Hr4 as <-; [|by apply builds_text].
  pose proof (builds_unlessAny _ _ "state" (ro_State opt) eq_refl Hb) as Hu. rewrite Hs in Hu. by destruct (isAny (ro_State opt)).
Qed.

Lemma search_written opt out : buildFlowSearchQuery opt = Ok out -> written (collectionPlan 0 (QSearch opt)) out.
Proof.
  unfold buildFlowSearchQuery. intros H. read_query H. apply builds_new in Hr5 as [Hb Hlimit].
  written_by r7 Hlimit H. apply (builds_window _ _ _ _ _ Hr7). apply builds_stateMeta, builds_attributes.
  apply (builds_unlessAny _ _ "type" (se_Type opt) eq_refl) in Hb.
  destruct (isTrue (se_TerminalOnly opt)); [by eapply builds_terminal|]. injection Hr6 as <-. by apply builds_unlessAny.
Qed.

Lemma terminals_written flowType opt out : buildFlowTerminalQuery flowType opt = Ok out -> written (collectionPlan 0 (QTerminals flowType opt)) out.
Proof.
  unfold buildFlowTerminalQuery. intros H. read_query H. apply builds_new in Hr3 as [Hb Hlimit].
  written_by r5 Hlimit H. apply (builds_window _ _ _ _ _ Hr5).
  eapply builds_terminal; [eassumption|]. by apply builds_text.
Qed.

Lemma failures_written flowType opt out : buildFlowFailureQuery flowType opt = Ok out -> written (collectionPlan 0 (QFailures flowType opt)) out.
Proof. unfold buildFlowFailureQuery. intros H. read_query H. exact (list_written _ _ _ H). Qed.

Lemma lineage_written field id opt out : buildFlowLineageQuery field id opt = Ok out -> written (collectionPlan 0 (QLineage field id opt)) out.
Proof.
  unfold buildFlowLineageQuery. intros H. read_query H. apply builds_new in Hr2 as [Hb Hlimit].
  written_by r4 Hlimit H. apply (builds_window _ _ _ _ _ Hr4). z_tests. rewrite Hr1. apply builds_unlessAny; [done|].
  apply builds_equality; [by destruct field|done..].
Qed.

Lemma stuck_written clock flowType partitionKey count older now out :
  buildFlowStuckQuery clock flowType partitionKey count older now = Ok out ->
  written (collectionPlan clock (QStuck flowType partitionKey count older now)) out.
Proof.
  unfold buildFlowStuckQuery. intros H. read_query H. apply builds_new in Hr2 as [Hb Hlimit].
  apply (builds_text _ _ "type" flowType eq_refl) in Hb. apply (builds_text _ _ "state" running eq_refl) in Hb.
  refine (ex_intro _ _ (conj _ (conj eq_refl (conj Hlimit H)))).
  eapply (builds_add _ _ _ (LeaseWithin _ _) (go "lease_deadline_ms BETWEEN @lease_from_ms AND @lease_to_ms") Hb); try done.
  unfold withParam, addPredicate, withText. cbn [q_text]. rewrite (builds_started _ _ Hb). by rewrite <- !app_assoc.
Qed.

Lemma collection_written clock q out : buildCollection clock q = Ok out -> written (collectionPlan clock q) out.
Proof.
  destruct q; [apply list_written|apply search_written|apply terminals_written|apply failures_written|apply lineage_written|apply stuck_written].
Qed.

(** ** Names of parameters *)

Lemma setParam_fresh name value params : name ∉ keys params -> setParam name value params = params ++ [(name, value)].
Proof.
  induction params as [|[k v] params IH]; cbn; [done|]. intros H. apply not_elem_of_cons in H as [Hk H].
  rewrite bool_decide_false by congruence. by rewrite IH.
Qed.

Lemma setParams_distinct entries : forall params, NoDup (keys (params ++ entries)) -> setParams entries params = params ++ entries.
Proof.
  induction entries as [|[k v] entries IH]; intros params H; cbn; [by rewrite app_nil_r|].
  unfold keys in H. rewrite fmap_app in H. cbn in H. pose proof H as Hk. apply NoDup_app in Hk as (_ & Hk & _).
  rewrite setParam_fresh by (intros Hin; exact (Hk _ Hin (list_elem_of_here _ _))).
  fold (setParams entries (params ++ [(k, v)])). rewrite IH; [by rewrite <- app_assoc|].
  unfold keys. rewrite !fmap_app. cbn. rewrite <- app_assoc. exact H.
Qed.

Definition namesOf (ps : list predicate) : list gstr := keys (flat_map predicateParams ps).

Lemma namesOf_app ps qs : namesOf (ps ++ qs) = namesOf ps ++ namesOf qs.
Proof. unfold namesOf, keys. by rewrite flat_map_app, fmap_app. Qed.

Definition indexedNames (prefix : String.string) (n : nat) : list gstr := indexedFlowQueryParameter (go prefix) <$> seq 0 n.

(** Every parameter of a plan, in an order no plan leaves. *)
Definition fixedNames : list gstr := go <$> ["partition_key"; "lineage_id"; "type"]%string.
Definition stateNames : list gstr := go <$> ["state"; "terminal_0"; "terminal_1"; "terminal_2"]%string.
Definition windowNames : list gstr := go <$> ["from_ms"; "to_ms"; "lease_from_ms"; "lease_to_ms"]%string.
Definition allNames (n m : nat) : list gstr :=
  fixedNames ++ stateNames ++ indexedNames "attribute_" n ++ indexedNames "state_meta_" m ++ windowNames.

Lemma format_nat_inj a b : format_int (Z.of_nat a) = format_int (Z.of_nat b) -> a = b.
Proof.
  unfold format_int. destruct (Z.ltb_spec (Z.of_nat a) 0), (Z.ltb_spec (Z.of_nat b) 0); try lia. intros E.
  pose proof (parse_uint_format (Z.of_nat a) ltac:(lia)) as Ha. rewrite E, parse_uint_format in Ha by lia. injection Ha. lia.
Qed.

Lemma indexedNames_distinct prefix n : NoDup (indexedNames prefix n).
Proof.
  apply NoDup_fmap_2_strong; [|apply NoDup_seq]. intros i j _ _ H. apply app_inv_head in H. by apply format_nat_inj.
Qed.

Lemma indexedNames_elem prefix n name : name ∈ indexedNames prefix n -> go prefix `prefix_of` name.
Proof. intros (i & -> & _)%list_elem_of_fmap. eexists. reflexivity. Qed.

(** Fixed names start with neither prefix. *)
Definition unprefixed (l : list gstr) : bool :=
  forallb (fun name => negb (bool_decide (go "attribute_" `prefix_of` name)) && negb (bool_decide (go "state_meta_" `prefix_of` name))) l.

Lemma unprefixed_outside l prefix n name : unprefixed l = true -> prefix ∈ ["attribute_"; "state_meta_"]%string ->
  name ∈ l -> name ∉ indexedNames prefix n.
Proof.
  intros Hl Hp Hin Hn%indexedNames_elem. unfold unprefixed in Hl. rewrite forallb_forall in Hl.
  apply list_elem_of_In in Hin. specialize (Hl _ Hin). z_tests.
  repeat (apply elem_of_cons in Hp as [->|Hp]; [done|]). by apply not_elem_of_nil in Hp.
Qed.

Lemma allNames_distinct n m : NoDup (allNames n m).
Proof.
  assert (NoDup (fixedNames ++ stateNames ++ windowNames)) as Hf by (by apply (bool_decide_unpack _)).
  assert (unprefixed (fixedNames ++ stateNames) = true /\ unprefixed windowNames = true) as [Hu Hw] by done.
  rewrite app_assoc in Hf. unfold allNames. rewrite app_assoc. apply NoDup_app in Hf as (Hs & Hsw & Hn).
  assert (forall p q name, p ∈ ["attribute_"; "state_meta_"]%string -> name ∈ indexedNames p q -> name ∉ windowNames) as Hi.
  { intros p q name Hp Hin Hout. by apply (unprefixed_outside windowNames p q name). }
  apply NoDup_app. split_and!; [done| |].
  - intros name Hin H. rewrite !elem_of_app in H.
    destruct H as [H|[H|H]]; [eapply (unprefixed_outside _ _ _ _ Hu) in H..|by apply (Hsw name)]; try done; by repeat constructor.
  - apply NoDup_app. split_and!; [apply indexedNames_distinct| |apply NoDup_app; split_and!; [apply indexedNames_distinct| |done]].
    + intros name Ha [Hm|Hout]%elem_of_app; [|eapply Hi; [|exact Ha|exact Hout]; by repeat constructor].
      apply indexedNames_elem in Ha as [x ->], Hm as [y Hy]. discriminate Hy.
    + intros name Hm. eapply Hi; [|exact Hm]. by repeat constructor.
Qed.

Lemma namesOf_indexed {A} (entries : list A) root prefix (path : A -> list gstr) (value : A -> val) :
  namesOf (imap (fun i e => FieldIs root (path e) (indexedFlowQueryParameter (go prefix) i) (value e)) entries) =
  indexedNames prefix (length entries).
Proof.
  unfold indexedNames.
  assert (forall f : nat -> nat, namesOf (imap (fun i e => FieldIs root (path e) (indexedFlowQueryParameter (go prefix) (f i)) (value e)) entries) =
    (fun i => indexedFlowQueryParameter (go prefix) (f i)) <$> seq 0 (length entries)) as H; [|exact (H id)].
  induction entries as [|e entries IH]; intros f; [done|]. cbn [length seq fmap list_fmap imap].
  change (namesOf (?p :: ?ps)) with (namesOf [p] ++ namesOf ps).
  rewrite <- seq_shift, <- list_fmap_compose. cbn. f_equal. apply (IH (fun i => f (S i))).
Qed.

Lemma unlessAny_names field value l : go field ∈ l -> namesOf (unlessAny field value) `sublist_of` l.
Proof. intros H. unfold unlessAny. destruct (_ && _); [|apply sublist_nil_l]. by apply singleton_sublist_l. Qed.

Lemma terminal_names state : namesOf (terminalPredicates state) `sublist_of` stateNames.
Proof. unfold terminalPredicates. destruct (_ || _); [by apply sublist_cons|by apply singleton_sublist_l; left]. Qed.

Lemma window_names from to : namesOf (windowPredicates from to) `sublist_of` windowNames.
Proof.
  assert (forall a b, namesOf [UpdatedWithin a b] `sublist_of` windowNames) as H.
  { intros a b. apply (sublist_app _ _ [] _ (reflexivity [_; _])). apply sublist_nil_l. }
  destruct from, to; try apply H. apply sublist_nil_l.
Qed.

Lemma attribute_names attributes : namesOf (attributePredicates attributes) = indexedNames "attribute_" (length (sortedAttributes attributes)).
Proof. apply (namesOf_indexed _ _ _ (fun e => [e.1])). Qed.

Lemma stateMeta_names stateMeta : namesOf (stateMetaPredicates stateMeta) = indexedNames "state_meta_" (length (sortedStateMeta stateMeta)).
Proof. apply (namesOf_indexed _ _ _ (fun e => [e.1.1; e.1.2])). Qed.

Lemma readPlan_names partitionKey count reverse lineage typed state window n m ps :
  namesOf lineage `sublist_of` [go "lineage_id"] -> namesOf typed `sublist_of` [go "type"] -> namesOf state `sublist_of` stateNames ->
  namesOf window `sublist_of` windowNames -> namesOf ps = indexedNames "attribute_" n ++ indexedNames "state_meta_" m ->
  NoDup (keys (planParams (readPlan partitionKey count reverse (lineage ++ typed ++ state ++ ps ++ window)))).
Proof.
  intros Hl Ht Hs Hw Hp. apply (sublist_NoDup _ _ (allNames_distinct n m)).
  change (keys (planParams ?q)) with (namesOf (plan_predicates q)). cbn [plan_predicates readPlan].
  change (textIs "partition_key" partitionKey :: ?l) with ([textIs "partition_key" partitionKey] ++ l).
  rewrite !namesOf_app, Hp. unfold allNames, fixedNames.
  change (go <$> ["partition_key"; "lineage_id"; "type"]%string) with ([go "partition_key"] ++ [go "lineage_id"] ++ [go "type"]).
  rewrite <- !app_assoc. repeat apply sublist_app; done.
Qed.

Lemma listPlan_names flowType state terminalOnly opt : NoDup (keys (planParams (listPlan flowType state terminalOnly opt))).
Proof.
  unfold listPlan. apply (readPlan_names _ _ _ [] _ _ _ (length (sortedAttributes (ro_Attributes opt))) 0).
  - apply sublist_nil_l.
  - by apply unlessAny_names, list_elem_of_here.
  - destruct (isTrue terminalOnly); [apply terminal_names|].
    destruct (given state); [apply unlessAny_names|apply singleton_sublist_l]; apply list_elem_of_here.
  - apply window_names.
  - rewrite attribute_names. by rewrite app_nil_r.
Qed.

Lemma collection_names clock q : NoDup (keys (planParams (collectionPlan clock q))).
Proof.
  destruct q as [flowType opt | opt | flowType opt | flowType opt | field id opt | flowType partitionKey count older now]; cbn [collectionPlan].
  - apply listPlan_names.
  - rewrite (app_assoc (attributePredicates _)).
    eapply (readPlan_names _ _ _ [] _ _ _ _ _ _); [apply sublist_nil_l|by apply unlessAny_names, list_elem_of_here| |apply window_names|].
    + destruct (isTrue (se_TerminalOnly opt)); [apply terminal_names|apply unlessAny_names, list_elem_of_here].
    + by rewrite namesOf_app, attribute_names, stateMeta_names.
  - apply (readPlan_names _ _ _ [] [textIs "type" flowType] _ _ 0 0 []); [apply sublist_nil_l|done|apply terminal_names|apply window_names|done].
  - apply listPlan_names.
  - apply (readPlan_names _ _ _ [FieldIs (lineageField field) [] (go "lineage_id") (VString id)] [] _ _ 0 0 []);
      [done|apply sublist_nil_l|apply unlessAny_names, list_elem_of_here|apply window_names|done].
  - by apply (bool_decide_unpack _).
Qed.

(** C6: The text of every query the client builds, for a list, a search, terminal or failed
    flows, a lineage or stuck flows, reads back token by token as the plan its options
    describe, whatever bytes the names of attributes hold: a name occurs as one quoted text
    and a value only as a parameter. The parameters are the plan's, each under its own name,
    and the query keeps the server's bounds. *)
Theorem flow_query_says_plan clock q query params :
  buildCollection clock q = Ok (query, params) ->
  lexQuery query = Some (planTokens (collectionPlan clock q)) /\
  params = planParams (collectionPlan clock q) /\ NoDup (keys params) /\
  blen (plan_predicates (collectionPlan clock q)) <= 12 /\ 0 < plan_limit (collectionPlan clock q) <= defaultFlowResponseLimitV080 /\
  utf8_valid query = true /\ blen query <= flowQueryMaxBytes.
Proof.
  intros H. apply collection_written in H as (b & Hb & Hword & Hlimit & H).
  apply (buildQuery_plan _ _ _ _ Hb Hword) in H as (Hlex & -> & Hcount & Hv); [|lia].
  pose proof (collection_names clock q) as Hn. rewrite setParams_distinct by exact Hn.
  unfold validateFlowQueryText in Hv. inv_result. z_tests. split_and!; try done.
Qed.

(** A search whose attribute names hold quotes and operators. *)
Definition searchFor (flowType : gstr) (attributes : valueMap) (stateMeta : list (gstr * valueMap)) : SearchOptions :=
  SearchOf flowType (go "any") (go "p1") None None None None None None None attributes stateMeta.

Definition sampleAttributes : valueMap := [(go " it's ", VString (go "x' OR 'y")); (go "a", VInt IInt 3)].

Lemma flow_query_says_plan_witness :
  exists query params,
    buildCollection 0 (QSearch (searchFor (go "order") sampleAttributes [])) = Ok (query, params) /\
    lexQuery query = Some (planTokens (collectionPlan 0 (QSearch (searchFor (go "order") sampleAttributes [])))) /\
    params = [(go "partition_key", VString (go "p1")); (go "type", VString (go "order"));
              (go "attribute_0", VInt IInt 3); (go "attribute_1", VString (go "x' OR 'y"))].
Proof.
  eexists _, _. match goal with |- ?H /\ _ => assert H as E by (vm_compute; reflexivity) end.
  destruct (flow_query_says_plan 0 _ _ _ E) as (Hlex & Hparams & _). split; [exact E|]. split; [exact Hlex|reflexivity].
Defined.

(** A search must name an attribute or a state metadata predicate, but a state without
    entries is taken for one: the query built has neither. *)
Theorem flow_search_without_predicate :
  buildFlowSearchQuery (searchFor (go "order") [] [(go "queued", [])]) =
  Ok (go "FROM runs WHERE partition_key = @partition_key AND type = @type ORDER BY updated_at_ms ASC LIMIT 100 RETURN RECORDS",
      [(go "partition_key", VString (go "p1")); (go "type", VString (go "order"))]).
Proof. vm_compute. reflexivity. Qed.
