(* ===== verification/FlowQueryWire.v ===== *)
(** FLOW.QUERY requests on the wire: the typed payload the native executors write without
    building a map, and its exact size (src/native_flow_query_request.go,
    src/native_codec_wire.go), against the request built from command arguments. *)

From S2P Require Import FlowQuery Wire.
From S2P Require Export FlowQueryText.

(** ** The payload *)

Record nativeFlowQueryPayload := FlowQueryPayload {
  fq_query : gstr;
  fq_parameters : list (gstr * val);
  fq_deadlineMS : Z;
}.

(** The deadline of a context, in whole milliseconds rounded up: [ms] is its
    [UnixMilli] and [beyond] says that it lies after that instant. *)
Definition newNativeFlowQueryPayload (query : preparedFlowQuery) (deadline : option (Z * bool)) : nativeFlowQueryPayload :=
  let ms :=
    match deadline with
    | None => 0
    | Some (ms, beyond) => if (0 <? ms) && (ms <? max_int64) && beyond then ms + 1 else if ms <? 0 then 0 else ms
    end in
  FlowQueryPayload (pq_query query) (pq_parameters query) ms.

Inductive sizeError :=
| SizeLimit
| SizeUnsupported
| SizeEncode (e : encError).

(** One part of the size; [None]: a parameter of a type that is not prepared. *)
Definition addPart (limit size : Z) (part : option Z) : result sizeError Z :=
  match part with
  | Some part => if (part <? 0) || (limit - size <? part) then Err SizeLimit else Ok (size + part)
  | None => Err SizeUnsupported
  end.

Definition binaryParts (s : gstr) : list (option Z) := [Some 5; Some (blen s)].
Definition mapKeyParts (name : gstr) : list (option Z) := [Some 4; Some (blen name)].

Definition parameterParts (value : val) : list (option Z) :=
  match value with
  | VString s | VBytes s => binaryParts s
  | VBool _ => [Some 1]
  | VInt IInt64 _ | VFloat _ => [Some 9]
  | _ => [None]
  end.

Definition payloadParts (p : nativeFlowQueryPayload) : list (option Z) :=
  [Some 5] ++
  (if 0 <? fq_deadlineMS p then mapKeyParts (go "deadline_ms") ++ [Some 9] else []) ++
  (if 0 <? blen (fq_parameters p)
   then mapKeyParts (go "params") ++ [Some 5] ++ flat_map (fun e => mapKeyParts e.1 ++ parameterParts e.2) (fq_parameters p) else []) ++
  mapKeyParts (go "query") ++ binaryParts (fq_query p) ++ mapKeyParts (go "version") ++ binaryParts queryLanguage.

Definition nativeEncodedSize (limit : Z) (p : nativeFlowQueryPayload) : result sizeError Z :=
  rfold (addPart limit) 0 (payloadParts p).

Section writer.
Variable limit : Z.

Definition writeField (key : gstr) (v : val) (depth : Z) (st : encState) : result encError encState :=
  let! st := writeNativeMapKey limit key st in writeNativeValue limit v depth st.

Definition writeParameters (parameters : list (gstr * val)) (depth : Z) (st : encState) : result encError encState :=
  let! st := writeNativeMapKey limit (go "params") st in
  let! st := enter None (depth + 1) st in
  let! _ := ensureNativeEncodeContainerBudget (blen parameters) st in
  let! st := writeNativeContainerHeader limit x06 (blen parameters) st in
  rfold (fun st e => writeField e.1 e.2 (depth + 2) st) st parameters.

Definition writeNativeFlowQueryPayload (p : nativeFlowQueryPayload) (depth : Z) (st : encState) : result encError encState :=
  let fieldCount := 2 + (if 0 <? fq_deadlineMS p then 1 else 0) + (if 0 <? blen (fq_parameters p) then 1 else 0) in
  let! _ := ensureNativeEncodeContainerBudget fieldCount st in
  let! st := writeNativeContainerHeader limit x06 fieldCount st in
  let! st := if 0 <? fq_deadlineMS p then writeField (go "deadline_ms") (VInt IInt64 (fq_deadlineMS p)) (depth + 1) st else Ok st in
  let! st := if 0 <? blen (fq_parameters p) then writeParameters (fq_parameters p) depth st else Ok st in
  let! st := writeField (go "query") (VString (fq_query p)) (depth + 1) st in
  writeField (go "version") (VString queryLanguage) (depth + 1) st.
End writer.

Definition liftEncode {A} (m : result encError A) : result sizeError A :=
  match m with Ok a => Ok a | Err e => Err (SizeEncode e) end.

(** [encodeNativeValueWithLimit] on the payload, which knows its size. *)
Definition encodeNativeFlowQuery (p : nativeFlowQueryPayload) (limit : Z) : result sizeError gstr :=
  if limit <=? 0 then Err (SizeEncode EncLimitNotPositive)
  else
    let! size := nativeEncodedSize limit p in
    let! _ := rguard ((0 <=? size) && (size <=? limit)) SizeLimit in
    liftEncode (let! st := writePayload (writeNativeFlowQueryPayload limit p) 0 (EncState [] nativeMaxContainerItems ∅) in Ok (es_buf st)).

(** ** The value a payload stands for

    The map [buildFlowQueryRequestNative] returns, and the deadline a request carries. *)

Definition queryPayloadValue (q : queryPayload) (deadlineMS : Z) : val :=
  VMap None ([(go "version", VString queryLanguage); (go "query", VString (qp_query q))] ++
    (if 0 <? blen (qp_params q) then [(go "params", VMap None (qp_params q))] else []) ++
    (if 0 <? deadlineMS then [(go "deadline_ms", VInt IInt64 deadlineMS)] else [])).

(** ** Prepared parameters *)

Lemma normalize_idempotent v w : normalizeFlowQueryParameter v = Some w -> normalizeFlowQueryParameter w = Some w.
Proof.
  destruct v; cbn; try done; intros H; try (destruct (_ && _) eqn:E); try (destruct (_ <=? _) eqn:E); try (destruct (finite _) eqn:E);
    simplify_eq; cbn; rewrite ?E; done.
Qed.

(** What [prepareFlowQuery] returns: the parameters in the order of their names, each
    normalised. *)
Definition preparedParameters (params prepared : list (gstr * val)) : Prop :=
  blen prepared <= flowQueryMaxParameters /\ NoDup (keys prepared) /\ Sorted gstr_le (keys prepared) /\
  Forall (fun e => validFlowQueryParameterName e.1 = true /\ normalizeFlowQueryParameter e.2 = Some e.2) prepared /\
  forall name, assoc_get name prepared = (v ← assoc_get name params; normalizeFlowQueryParameter v).

Lemma prepareParameter_ok e e' : prepareParameter e = Ok e' <->
  validFlowQueryParameterName e.1 = true /\ e'.1 = e.1 /\ normalizeFlowQueryParameter e.2 = Some e'.2.
Proof.
  destruct e as [k v], e' as [k' v']. unfold prepareParameter. cbn. destruct (validFlowQueryParameterName k); [|by split; [|intros (? & _)]].
  destruct (normalizeFlowQueryParameter v) as [w|]; split; try done; [intros [= <- <-]; done|intros (_ & -> & [= ->]); done|by intros (_ & _ & ?)].
Qed.

Lemma prepared_keys params ps : Forall2 (fun x y => prepareParameter x = Ok y) params ps -> keys ps = keys params.
Proof. induction 1 as [|x y l k H _ IH]; cbn; [done|]. apply prepareParameter_ok in H as (_ & -> & _). by f_equal. Qed.

Lemma prepared_lookup params ps name : Forall2 (fun x y => prepareParameter x = Ok y) params ps ->
  assoc_get name ps = (v ← assoc_get name params; normalizeFlowQueryParameter v).
Proof.
  induction 1 as [|[k v] [k' v'] l m H _ IH]; cbn; [done|]. apply prepareParameter_ok in H as (_ & H1 & H2). cbn in *. subst k'.
  case_bool_decide; cbn; [by rewrite H2|exact IH].
Qed.

Lemma prepare_ok query params p : NoDup (keys params) -> prepareFlowQuery query params = Ok p ->
  validateFlowQueryText query = Ok tt /\ pq_query p = query /\ preparedParameters params (pq_parameters p).
Proof.
  intros Hd. unfold prepareFlowQuery. intros H. apply rbind_ok in H as ([] & Hq & H). apply rbind_ok in H as (u & Hn & H).
  apply rbind_ok in H as (ps & Hps & [= <-]). apply rguard_ok in Hn. z_tests. apply rmapM_ok in Hps. cbn.
  pose proof (prepared_keys _ _ Hps) as Hk. assert (NoDup (keys ps)) as Hd' by (by rewrite Hk).
  pose proof (sort_entries_perm ps Hd') as Hperm. do 2 (split; [done|]). split_and!.
  - unfold blen in *. rewrite length_sort_entries, <- (Forall2_length _ _ _ Hps). done.
  - by rewrite keys_sort_entries, sort_strings_perm.
  - rewrite keys_sort_entries. apply sort_strings_sorted.
  - rewrite Hperm. clear -Hps. induction Hps as [|x y l k H _ IH]; constructor; [|done].
    apply prepareParameter_ok in H as (H1 & -> & H2). split; [done|]. by apply normalize_idempotent in H2.
  - intros name. rewrite <- (prepared_lookup params ps) by done. symmetry. by apply assoc_get_perm.
Qed.

(** Prepared arguments are read back as they are. *)
Lemma readParameters_prepared ps : forall seen,
  NoDup (keys (seen ++ ps)) ->
  Forall (fun e => validFlowQueryParameterName e.1 = true /\ normalizeFlowQueryParameter e.2 = Some e.2) ps ->
  readParameters seen (flat_map (fun p => [VString p.1; p.2]) ps) = Ok (seen ++ ps).
Proof.
  induction ps as [|[k v] ps IH]; intros seen Hd Hv; cbn; [by rewrite app_nil_r|].
  inversion Hv as [|? ? [Hk Hn] Hv']; subst. cbn in *. rewrite Hk.
  pose proof Hd as Hk'. unfold keys in Hk'. rewrite fmap_app in Hk'. apply NoDup_app in Hk' as (_ & Hk' & _).
  rewrite (proj2 (assoc_has_false k seen)) by (intros Hin; exact (Hk' _ Hin (list_elem_of_here _ _))).
  rewrite Hn, IH; [by rewrite <- app_assoc| |done]. by rewrite <- app_assoc.
Qed.

Lemma build_prepared query params p : NoDup (keys params) -> prepareFlowQuery query params = Ok p ->
  buildFlowQueryRequest (preparedArgs p) = Ok (QueryPayload (pq_query p) (pq_parameters p)).
Proof.
  intros Hd Hp. destruct (prepare_ok _ _ _ Hd Hp) as (Hq & <- & Hn & Hk & _ & Hv & _).
  assert (length (flat_map (fun e => [VString e.1; e.2]) (pq_parameters p)) = (2 * length (pq_parameters p))%nat) as Hlen.
  { clear. induction (pq_parameters p) as [|e l IH]; cbn; [done|]. rewrite IH. lia. }
  unfold preparedArgs, buildFlowQueryRequest. rewrite Hlen, Nat.even_mul, bool_decide_true by done. cbn [orb Nat.even negb commandText].
  rewrite Hq. cbn [rbind]. unfold blen. rewrite Hlen. replace (Z.of_nat (2 * length (pq_parameters p))) with (blen (pq_parameters p) * 2) by (unfold blen; lia).
  rewrite Z.div_mul by done. rewrite (proj2 (Z.leb_le _ _)) by exact Hn. cbn [rguard rbind].
  by rewrite (readParameters_prepared _ []).
Qed.

(** ** Entries in the order of their keys *)

Lemma omap_at {A B} (f : A -> option B) x l : omap f (x :: l) = match f x with Some y => y :: omap f l | None => omap f l end.
Proof. done. Qed.

Lemma omap_assoc_cons {V} k (v : V) m (ks : list gstr) : k ∉ ks ->
  omap (fun k' => (fun v => (k', v)) <$> assoc_get k' ((k, v) :: m)) ks = omap (fun k' => (fun v => (k', v)) <$> assoc_get k' m) ks.
Proof.
  induction ks as [|x ks IH]; intros H; [done|]. apply not_elem_of_cons in H as [Hx H].
  rewrite !omap_at, (IH H). cbn [assoc_get]. by rewrite bool_decide_false by done.
Qed.

Lemma sort_entries_id {V} (m : list (gstr * V)) : NoDup (keys m) -> Sorted gstr_le (keys m) -> sort_entries m = m.
Proof.
  intros Hd Hs. unfold sort_entries. rewrite <- (sort_strings_unique (keys m) (keys m)) by done. clear Hs.
  induction m as [|[k v] m IH]; [done|]. apply NoDup_cons in Hd as [Hk Hd].
  change (keys ((k, v) :: m)) with (k :: keys m). rewrite omap_at, (omap_assoc_cons k v m (keys m) Hk), IH by done.
  cbn [assoc_get]. by rewrite bool_decide_true by done.
Qed.

(** ** The writer is the general encoder *)

Lemma writeField_entry limit key v depth st :
  writeField limit key v depth st = writeNativeEntry limit (key, writeNativeValue limit v depth) st.
Proof. done. Qed.

Lemma writeNativeValue_map limit m d st :
  NoDup (keys m) -> blen m <= max_uint32 ->
  writeNativeValue limit (VMap None m) d st =
    let! st := enter None d st in
    let! _ := ensureNativeEncodeContainerBudget (blen m) st in
    let! st := writeNativeContainerHeader limit x06 (blen m) st in
    rfold (fun st e => writeField limit e.1 e.2 (d + 1) st) st (sort_entries m).
Proof.
  intros Hd Hm. cbn [writeNativeValue nativeEncodeIdentity]. apply rbind_ext. intros st1.
  unfold writeNativeMap. assert (blen ((fun kv : gstr * val => (kv.1, writeNativeValue limit kv.2 (d + 1))) <$> m) = blen m) as Hb
    by (unfold blen; by rewrite length_fmap).
  rewrite Hb. destruct (Z.ltb_spec max_uint32 (blen m)); [lia|]. rewrite rbind_assoc. apply rbind_ext. intros _.
  rewrite rbind_assoc. apply rbind_ext. intros st2. cbn [leave]. rewrite rbind_ret.
  change (fun kv : gstr * val => (kv.1, writeNativeValue limit kv.2 (d + 1))) with
    (fun kv : gstr * val => prod_map id (fun v => writeNativeValue limit v (d + 1)) kv).
  rewrite (sort_entries_fmap (fun v => writeNativeValue limit v (d + 1))), rfold_fmap. done.
Qed.

(** The fields of a payload, in the order of their names. *)
Definition sortedFields (q : queryPayload) (deadlineMS : Z) : list (gstr * val) :=
  (if 0 <? deadlineMS then [(go "deadline_ms", VInt IInt64 deadlineMS)] else []) ++
  (if 0 <? blen (qp_params q) then [(go "params", VMap None (qp_params q))] else []) ++
  [(go "query", VString (qp_query q)); (go "version", VString queryLanguage)].

Lemma fields_sorted q deadlineMS :
  exists m, queryPayloadValue q deadlineMS = VMap None m /\ NoDup (keys m) /\ sort_entries m = sortedFields q deadlineMS /\
    blen m = blen (sortedFields q deadlineMS).
Proof.
  unfold queryPayloadValue, sortedFields. eexists. split; [reflexivity|].
  destruct (0 <? blen (qp_params q)), (0 <? deadlineMS); (split_and!; [by apply (bool_decide_unpack _)| |done]);
    generalize (VInt IInt64 deadlineMS) (VMap None (qp_params q)) (VString (qp_query q)); intros; reflexivity.
Qed.

Lemma writeParameters_field limit parameters depth st :
  NoDup (keys parameters) -> Sorted gstr_le (keys parameters) -> blen parameters <= max_uint32 ->
  writeParameters limit parameters depth st = writeField limit (go "params") (VMap None parameters) (depth + 1) st.
Proof.
  intros Hd Hs Hn. unfold writeParameters, writeField at 2. apply rbind_ext. intros st1.
  rewrite writeNativeValue_map, sort_entries_id by done. by replace (depth + 1 + 1) with (depth + 2) by lia.
Qed.

Lemma flow_query_writer limit p depth st :
  NoDup (keys (fq_parameters p)) -> Sorted gstr_le (keys (fq_parameters p)) -> blen (fq_parameters p) <= max_uint32 ->
  writePayload (writeNativeFlowQueryPayload limit p) depth st =
  writeNativeValue limit (queryPayloadValue (QueryPayload (fq_query p) (fq_parameters p)) (fq_deadlineMS p)) depth st.
Proof.
  intros Hd Hs Hn. destruct (fields_sorted (QueryPayload (fq_query p) (fq_parameters p)) (fq_deadlineMS p)) as (m & -> & Hm & Hsorted & Hb).
  assert (blen m = 2 + (if 0 <? fq_deadlineMS p then 1 else 0) + (if 0 <? blen (fq_parameters p) then 1 else 0)) as Hcount.
  { rewrite Hb. unfold sortedFields. cbn [qp_params qp_query]. by destruct (0 <? fq_deadlineMS p), (0 <? blen (fq_parameters p)). }
  rewrite writeNativeValue_map by (done || (rewrite Hcount; unfold max_uint32; destruct (0 <? _), (0 <? _); lia)).
  unfold writePayload. apply rbind_ext. intros st1. rewrite Hcount, Hsorted. cbn [leave]. rewrite rbind_ret.
  unfold writeNativeFlowQueryPayload. do 2 (apply rbind_ext; intros ?). unfold sortedFields. cbn [qp_params qp_query].
  rewrite rfold_app. destruct (0 <? fq_deadlineMS p); cbn [rfold fst snd]; rewrite ?rbind_ret; apply rbind_ext || cbn [rbind]; intros;
    rewrite rfold_app; (destruct (0 <? blen (fq_parameters p)); cbn [rfold fst snd rbind];
      [rewrite rbind_ret, writeParameters_field by done|]); repeat (apply rbind_ext; intros); by rewrite ?rbind_ret.
Qed.

(** ** The size is exact *)

(** The parts of a size add up. *)
Definition sums (parts : list (option Z)) (total : Z) : Prop :=
  exists zs, parts = Some <$> zs /\ Forall (Z.le 0) zs /\ zsum zs = total.

Lemma sums_app a b x y : sums a x -> sums b y -> sums (a ++ b) (x + y).
Proof.
  intros (zs & -> & Hz & <-) (ws & -> & Hw & <-). exists (zs ++ ws). rewrite fmap_app, zsum_app. split_and!; [done|by apply Forall_app|done].
Qed.

Lemma sums_nil : sums [] 0.
Proof. by exists []. Qed.

Lemma sums_one z : 0 <= z -> sums [Some z] z.
Proof. intros H. exists [z]. split_and!; [done|by constructor|]. cbn. lia. Qed.

Lemma sums_mapKey name : sums (mapKeyParts name) (4 + blen name).
Proof. apply (sums_app [_] [_]); apply sums_one; [done|apply blen_nonneg]. Qed.

Lemma sums_binary s : sums (binaryParts s) (5 + blen s).
Proof. apply (sums_app [_] [_]); apply sums_one; [done|apply blen_nonneg]. Qed.

Lemma addParts limit parts total size : sums parts total -> size <= limit ->
  rfold (addPart limit) size parts = if size + total <=? limit then Ok (size + total) else Err SizeLimit.
Proof.
  intros (zs & -> & Hz & <-). revert size. induction Hz as [|z zs Hz Hzs IH]; intros size Hs; cbn [fmap list_fmap rfold addPart].
  - cbn. rewrite Z.add_0_r. by rewrite (proj2 (Z.leb_le _ _)).
  - pose proof (zsum_nonneg zs Hzs). change (zsum (z :: zs)) with (z + zsum zs). destruct (Z.ltb_spec z 0); [lia|]. cbn [orb].
    destruct (Z.ltb_spec (limit - size) z); cbn [rbind].
    + rewrite (proj2 (Z.leb_gt _ _)) by lia. done.
    + rewrite IH by lia. by rewrite Z.add_assoc.
Qed.

Definition entrySize (e : gstr * val) : Z := 4 + blen e.1 + blen (wire (canon e.2)).

Lemma blen_concat {A} (f : A -> gstr) l : blen (concat (f <$> l)) = zsum ((fun x => blen (f x)) <$> l).
Proof. induction l as [|x l IH]; cbn; [done|]. by rewrite blen_app, IH. Qed.

(** The length of a map on the wire. *)
Lemma wire_map_size m : blen (wire (canon (VMap None m))) = 5 + zsum (entrySize <$> sort_entries m).
Proof.
  cbn [canon wire]. rewrite sort_entries_fmap, <- list_fmap_compose, blen_cons, blen_app, blen_be_encode, blen_concat.
  assert ((fun x => blen ((fun kv : gstr * val => be_encode 4 (blen (prod_map id canon kv).1) ++ (prod_map id canon kv).1 ++ wire (prod_map id canon kv).2) x)) <$> sort_entries m
    = entrySize <$> sort_entries m) as <-; [|cbn; lia].
  apply list_fmap_ext. intros _ [k v] _. unfold entrySize. rewrite !blen_app, blen_be_encode. cbn. lia.
Qed.

Lemma parameter_size v : normalizeFlowQueryParameter v = Some v -> sums (parameterParts v) (blen (wire (canon v))).
Proof.
  destruct v as [|b|k z|k z|z|s|s|id l|id m|o]; cbn [normalizeFlowQueryParameter]; try done; intros H.
  - destruct b; by apply (sums_one 1).
  - injection H as <-. cbn [canon wire parameterParts]. rewrite blen_cons, blen_be_encode. by apply sums_one.
  - by destruct (_ <=? _).
  - cbn [canon wire parameterParts]. rewrite blen_cons, blen_be_encode. by apply sums_one.
  - cbn [canon wire parameterParts]. rewrite blen_cons, blen_app, blen_be_encode. replace (1 + _) with (5 + blen s) by lia. apply sums_binary.
  - cbn [canon wire parameterParts]. rewrite blen_cons, blen_app, blen_be_encode. replace (1 + _) with (5 + blen s) by lia. apply sums_binary.
Qed.

Lemma entry_size e : normalizeFlowQueryParameter e.2 = Some e.2 -> sums (mapKeyParts e.1 ++ parameterParts e.2) (entrySize e).
Proof. intros H. apply sums_app; [apply sums_mapKey|by apply parameter_size]. Qed.

Lemma parameters_size parameters : Forall (fun e => normalizeFlowQueryParameter e.2 = Some e.2) parameters ->
  sums (flat_map (fun e => mapKeyParts e.1 ++ parameterParts e.2) parameters) (zsum (entrySize <$> parameters)).
Proof. induction 1 as [|e l H _ IH]; [apply sums_nil|]. apply (sums_app _ _ (entrySize e)); [by apply entry_size|done]. Qed.

Lemma payload_size p :
  NoDup (keys (fq_parameters p)) -> Sorted gstr_le (keys (fq_parameters p)) ->
  Forall (fun e => normalizeFlowQueryParameter e.2 = Some e.2) (fq_parameters p) ->
  sums (payloadParts p) (blen (wire (canon (queryPayloadValue (QueryPayload (fq_query p) (fq_parameters p)) (fq_deadlineMS p))))).
Proof.
  intros Hd Hs Hp. destruct (fields_sorted (QueryPayload (fq_query p) (fq_parameters p)) (fq_deadlineMS p)) as (m & -> & _ & Hm & _).
  rewrite wire_map_size, Hm. unfold sortedFields, payloadParts. cbn [qp_params qp_query]. rewrite !fmap_app, !zsum_app.
  apply sums_app; [by apply sums_one|]. apply sums_app.
  - destruct (0 <? _); [|apply sums_nil]. cbn [fmap list_fmap zsum foldr]. rewrite Z.add_0_r.
    by apply (entry_size (go "deadline_ms", VInt IInt64 (fq_deadlineMS p))).
  - apply sums_app.
    + destruct (0 <? _); [|apply sums_nil]. cbn [fmap list_fmap zsum foldr]. rewrite Z.add_0_r. unfold entrySize. cbn [fst snd].
      apply sums_app; [apply sums_mapKey|]. rewrite wire_map_size, sort_entries_id by done. apply sums_app; [by apply sums_one|by apply parameters_size].
    + cbn [fmap list_fmap zsum foldr]. rewrite Z.add_0_r, app_assoc, app_assoc, <- (app_assoc (mapKeyParts _ ++ _)).
      apply sums_app; unfold entrySize; cbn [fst snd]; (apply sums_app; [apply sums_mapKey|]).
      * cbn [canon wire]. rewrite blen_cons, blen_app, blen_be_encode. replace (1 + _) with (5 + blen (fq_query p)) by lia. apply sums_binary.
      * apply sums_binary.
Qed.

(** ** The typed request *)

Lemma normalize_go_value v w : normalizeFlowQueryParameter v = Some w -> go_value v = true -> go_value w = true.
Proof.
  destruct v as [|b|k z|k z|z|s|s|id l|id m|o]; cbn [normalizeFlowQueryParameter]; try done; intros H Hv.
  - by injection H as <-.
  - injection H as <-. cbn in *. destruct k; cbn in *; z_tests; (apply andb_true_iff; split; [apply Z.leb_le|apply Z.ltb_lt]; lia).
  - destruct (Z.leb_spec z max_int64) as [Hz|]; [|done]. injection H as <-. cbn in *. unfold max_int64 in Hz. z_tests.
    apply andb_true_iff. split; [apply Z.leb_le|apply Z.ltb_lt]; lia.
  - destruct (finite z); [|done]. by injection H as <-.
  - destruct (_ && _); [|done]. by injection H as <-.
  - destruct (_ <=? _); [|done]. by injection H as <-.
Qed.

Lemma prepared_go_value params prepared : go_value (VMap None params) = true -> preparedParameters params prepared ->
  forallb (fun e => go_value e.2) prepared = true.
Proof.
  cbn. intros (_ & Hgo)%andb_prop (_ & Hd & _ & _ & Hget). rewrite forallb_forall in *. intros [k w] Hin.
  apply list_elem_of_In in Hin. apply (elem_assoc_get k w prepared Hd) in Hin. rewrite Hget in Hin.
  destruct (assoc_get k params) as [v|] eqn:E; [|done]. cbn in Hin. apply assoc_get_elem, list_elem_of_In in E.
  apply (normalize_go_value v w Hin). exact (Hgo _ E).
Qed.

Definition deadline_in_range (deadline : option (Z * bool)) : Prop :=
  match deadline with Some (ms, _) => in_sint 64 ms | None => True end.

Lemma deadline_go_value p deadline : deadline_in_range deadline ->
  go_value (VInt IInt64 (fq_deadlineMS (newNativeFlowQueryPayload p deadline))) = true.
Proof.
  unfold deadline_in_range, newNativeFlowQueryPayload, in_sint. cbn. intros H.
  destruct deadline as [[ms beyond]|]; [|done]. unfold max_int64. cbn in H.
  destruct (Z.ltb_spec 0 ms), (Z.ltb_spec ms (2 ^ 63 - 1)), beyond; cbn [andb]; try destruct (Z.ltb_spec ms 0);
    (apply andb_true_iff; split; [apply Z.leb_le|apply Z.ltb_lt]; lia).
Qed.

Lemma payload_go_value q deadlineMS : NoDup (keys (qp_params q)) -> forallb (fun e => go_value e.2) (qp_params q) = true ->
  go_value (VInt IInt64 deadlineMS) = true -> go_value (queryPayloadValue q deadlineMS) = true.
Proof.
  intros Hd Hp Hm. destruct (fields_sorted q deadlineMS) as (m & Hv & Hk & _). rewrite Hv. cbn [go_value]. rewrite bool_decide_true by done.
  unfold queryPayloadValue in Hv. injection Hv as <-. cbn [andb].
  destruct (0 <? blen (qp_params q)), (0 <? deadlineMS); cbn [forallb snd app]; rewrite ?Hm; cbn [go_value andb]; try done;
    rewrite bool_decide_true by done; by rewrite Hp.
Qed.

(** What the payload stands for, its writer and its size. *)
Lemma typed_payload_exact p limit bytes :
  NoDup (keys (fq_parameters p)) -> Sorted gstr_le (keys (fq_parameters p)) -> blen (fq_parameters p) <= max_uint32 ->
  Forall (fun e => normalizeFlowQueryParameter e.2 = Some e.2) (fq_parameters p) ->
  go_value (queryPayloadValue (QueryPayload (fq_query p) (fq_parameters p)) (fq_deadlineMS p)) = true ->
  (encodeNativeFlowQuery p limit = Ok bytes <->
   encodeNativeValueWithLimit (queryPayloadValue (QueryPayload (fq_query p) (fq_parameters p)) (fq_deadlineMS p)) limit = Ok bytes) /\
  (encodeNativeFlowQuery p limit = Ok bytes -> nativeEncodedSize limit p = Ok (blen bytes)).
Proof.
  intros Hd Hs Hn Hp Hgo. pose proof (payload_size p Hd Hs Hp) as Hsize. pose proof (flow_query_writer limit p 0 (EncState [] nativeMaxContainerItems ∅) Hd Hs Hn) as Hw.
  remember (queryPayloadValue _ _) as v eqn:Ev. unfold encodeNativeFlowQuery, encodeNativeValueWithLimit. rewrite Hw.
  destruct (Z.leb_spec limit 0); [done|]. unfold nativeEncodedSize. rewrite (addParts limit _ _ 0 Hsize) by lia. cbn [Z.add].
  assert (good limit (EncState [] nativeMaxContainerItems ∅)) as Hgood by (split; [done|]; change (0 <= limit); lia).
  destruct (writeNativeValue limit v 0 _) as [st|e] eqn:Est; cbn [rbind liftEncode].
  - apply (runs_value limit v 0 Hgo) in Est as (_ & _ & Hl & ->); [|done]. cbn [es_buf blen length app] in *.
    change (Z.of_nat 0 + blen (wire (canon v)) <= limit) in Hl. rewrite (proj2 (Z.leb_le _ _)) by lia. cbn [rbind].
    pose proof (blen_nonneg (wire (canon v))). rewrite (proj2 (Z.leb_le _ _)), (proj2 (Z.leb_le _ _)) by lia. cbn.
    split; [split; congruence|]. intros [= <-]. done.
  - destruct (_ <=? limit); cbn [rbind]; [|by split]. destruct (rguard _ _); cbn; by split.
Qed.

(** A query prepared once is sent the same whichever executor takes it. The arguments of
    the command read back as the query and its normalised parameters, in the order of their
    names; and the typed payload, written without building a map, is encoded to the very bytes
    of the map built from those arguments and the deadline, under every limit on their number.
    The size computed beforehand is the number of bytes written. *)
Theorem flow_query_typed_request query params p deadline :
  go_value (VMap None params) = true -> deadline_in_range deadline -> prepareFlowQuery query params = Ok p ->
  exists q, buildFlowQueryRequest (preparedArgs p) = Ok q /\ qp_query q = query /\ preparedParameters params (qp_params q) /\
    forall limit bytes,
      (encodeNativeFlowQuery (newNativeFlowQueryPayload p deadline) limit = Ok bytes <->
       encodeNativeValueWithLimit (queryPayloadValue q (fq_deadlineMS (newNativeFlowQueryPayload p deadline))) limit = Ok bytes) /\
      (encodeNativeFlowQuery (newNativeFlowQueryPayload p deadline) limit = Ok bytes ->
       nativeEncodedSize limit (newNativeFlowQueryPayload p deadline) = Ok (blen bytes)).
Proof.
  intros Hgo Hdl Hp. pose proof Hgo as Hd. cbn in Hd. apply andb_prop in Hd as [Hd%bool_decide_eq_true _].
  destruct (prepare_ok _ _ _ Hd Hp) as (_ & Hq & Hprep). exists (QueryPayload (pq_query p) (pq_parameters p)).
  split; [by apply (build_prepared query params)|]. split; [exact Hq|]. split; [exact Hprep|]. intros limit bytes.
  pose proof (prepared_go_value _ _ Hgo Hprep) as Hvals. destruct Hprep as (Hn & Hk & Hs & Hv & _).
  apply (typed_payload_exact (newNativeFlowQueryPayload p deadline)); cbn [newNativeFlowQueryPayload fq_query fq_parameters]; try done.
  - unfold flowQueryMaxParameters, max_uint32 in *. lia.
  - eapply Forall_impl; [exact Hv|]. by intros e [_ ?].
  - apply (payload_go_value (QueryPayload _ _)); [done|done|]. by apply deadline_go_value.
Qed.

Definition sampleParams : list (gstr * val) := [(go "limit", VInt IInt 3); (go "id", VString (go "a"))].

Lemma flow_query_typed_request_witness :
  exists p q bytes,
    prepareFlowQuery (go "FROM runs WHERE run_id = @id RETURN RECORD") sampleParams = Ok p /\
    buildFlowQueryRequest (preparedArgs p) = Ok q /\ qp_params q = [(go "id", VString (go "a")); (go "limit", VInt IInt64 3)] /\
    encodeNativeFlowQuery (newNativeFlowQueryPayload p (Some (5, true))) 200 = Ok bytes /\
    encodeNativeValueWithLimit (queryPayloadValue q 6) 200 = Ok bytes /\
    nativeEncodedSize 200 (newNativeFlowQueryPayload p (Some (5, true))) = Ok (blen bytes).
Proof.
  eexists _, _, _.
  match goal with |- ?H /\ _ => assert H as Hp by (vm_compute; reflexivity) end.
  destruct (flow_query_typed_request _ sampleParams _ (Some (5, true)) eq_refl ltac:(split; vm_compute; congruence) Hp) as (q & Hq & _ & _ & Hbytes).
  vm_compute in Hq. injection Hq as <-. split; [exact Hp|]. split; [vm_compute; reflexivity|]. split; [reflexivity|].
  match goal with |- ?H /\ _ => assert H as Hb by (vm_compute; reflexivity) end.
  split; [exact Hb|]. split; [exact (proj1 (proj1 (Hbytes _ _)) Hb)|exact (proj2 (Hbytes _ _) Hb)].
Defined.
