(* ===== verification/FlowNative.v ===== *)
(** Flow commands as native requests: the options of commands and the fields they become
    (src/native_flow_admin.go, src/native_flow_query.go, src/native_flow_options.go,
    src/native_flow_schedule.go), items of batches (src/native_flow_many.go,
    src/native_flow_extended.go), values (src/native_flow_value_put.go,
    src/native_flow_value_mget.go), and the table of commands (src/native_flow.go).

    A builder that declines ([ok = false]) leaves the command to the generic form. *)

From S2P Require Export Commands Response Errors Normalize FlowQueryText.

(** ** Opcodes (src/native_flow_opcodes.go) *)

Definition nativeOpFlowCreate : Z := 0x0201.
Definition nativeOpFlowGet : Z := 0x0202.
Definition nativeOpFlowClaimDue : Z := 0x0203.
Definition nativeOpFlowComplete : Z := 0x0204.
Definition nativeOpFlowTransition : Z := 0x0205.
Definition nativeOpFlowRetry : Z := 0x0206.
Definition nativeOpFlowFail : Z := 0x0207.
Definition nativeOpFlowCancel : Z := 0x0208.
Definition nativeOpFlowExtendLease : Z := 0x0209.
Definition nativeOpFlowHistory : Z := 0x020A.
Definition nativeOpFlowValuePut : Z := 0x020B.
Definition nativeOpFlowValueMGet : Z := 0x020C.
Definition nativeOpFlowSignal : Z := 0x020D.
Definition nativeOpFlowCreateMany : Z := 0x020F.
Definition nativeOpFlowCompleteMany : Z := 0x0210.
Definition nativeOpFlowTransitionMany : Z := 0x0211.
Definition nativeOpFlowRetryMany : Z := 0x0212.
Definition nativeOpFlowFailMany : Z := 0x0213.
Definition nativeOpFlowCancelMany : Z := 0x0214.
Definition nativeOpFlowReclaim : Z := 0x0215.
Definition nativeOpFlowRewind : Z := 0x0216.
Definition nativeOpFlowInfo : Z := 0x021C.
Definition nativeOpFlowPolicySet : Z := 0x021E.
Definition nativeOpFlowPolicyGet : Z := 0x021F.
Definition nativeOpFlowSpawnChildren : Z := 0x0220.
Definition nativeOpFlowRetentionCleanup : Z := 0x0221.
Definition nativeOpFlowStepContinue : Z := 0x0222.
Definition nativeOpFlowStartAndClaim : Z := 0x0223.
Definition nativeOpFlowRunStepsMany : Z := 0x0224.
Definition nativeOpFlowScheduleCreate : Z := 0x0225.
Definition nativeOpFlowScheduleGet : Z := 0x0226.
Definition nativeOpFlowScheduleDelete : Z := 0x0227.
Definition nativeOpFlowScheduleFireDue : Z := 0x0228.
Definition nativeOpFlowScheduleList : Z := 0x0229.
Definition nativeOpFlowScheduleFire : Z := 0x022A.
Definition nativeOpFlowSchedulePause : Z := 0x022B.
Definition nativeOpFlowScheduleResume : Z := 0x022C.
Definition nativeOpFlowStats : Z := 0x022D.
Definition nativeOpFlowAttributes : Z := 0x022E.
Definition nativeOpFlowAttributeValues : Z := 0x022F.
Definition nativeOpFlowQuery : Z := 0x0231.
Definition nativeOpFlowEffectReserve : Z := 0x0240.
Definition nativeOpFlowEffectConfirm : Z := 0x0241.
Definition nativeOpFlowEffectFail : Z := 0x0242.
Definition nativeOpFlowEffectCompensate : Z := 0x0243.
Definition nativeOpFlowEffectGet : Z := 0x0244.
Definition nativeOpFlowGovernanceLedger : Z := 0x0245.
Definition nativeOpFlowApprovalRequest : Z := 0x0246.
Definition nativeOpFlowApprovalApprove : Z := 0x0247.
Definition nativeOpFlowApprovalReject : Z := 0x0248.
Definition nativeOpFlowApprovalGet : Z := 0x0249.
Definition nativeOpFlowCircuitOpen : Z := 0x024A.
Definition nativeOpFlowCircuitClose : Z := 0x024B.
Definition nativeOpFlowCircuitGet : Z := 0x024C.
Definition nativeOpFlowBudgetReserve : Z := 0x024D.
Definition nativeOpFlowBudgetGet : Z := 0x024E.
Definition nativeOpFlowLimitLease : Z := 0x024F.
Definition nativeOpFlowLimitSpend : Z := 0x0250.
Definition nativeOpFlowLimitRelease : Z := 0x0251.
Definition nativeOpFlowLimitGet : Z := 0x0252.
Definition nativeOpFlowApprovalList : Z := 0x0253.
Definition nativeOpFlowGovernanceOverview : Z := 0x0254.
Definition nativeOpFlowBudgetList : Z := 0x0255.
Definition nativeOpFlowLimitList : Z := 0x0256.
Definition nativeOpFlowBudgetCommit : Z := 0x0257.
Definition nativeOpFlowBudgetRelease : Z := 0x0258.

(** ** Payloads *)

(** A value of a payload map: an argument, a [[]string], a [[]any] or a [map[string]any]
    made by a builder, or a boolean it has read. *)
#[warnings="-register-all"]
Inductive pval :=
| PArg (a : arg)
| PBool (b : bool)
| PInt (z : Z)
| PText (s : gstr)
| PStrings (l : list gstr)
| PList (l : list pval)
| PMap (m : gmap gstr pval).

Abbreviation payloadMap := (gmap gstr pval).

(** Why a builder gives no request: it declines, or the command is refused. *)
Inductive buildError :=
| MissingArguments (command : gstr)
| OptionArity (what : gstr)
| BadCount (what : gstr)
| BadItems (what : gstr)
| BadFencing (command : gstr)
| BadBool
| BadOption (what : gstr)
| BadReference
| BadQuery (e : queryError).

Inductive notBuilt := Declined | Refused (e : buildError).

(** [nativeFlowBool] and [responseBool] (src/native_flow_options.go, src/response.go). *)
Definition boolOfText (text : gstr) : option bool :=
  let text := trim_space text in
  let fold word := equal_fold text (go word) in
  if bool_decide (text = go "1") || fold "true" || fold "yes" || fold "on" then Some true
  else if bool_decide (text = go "0") || fold "false" || fold "no" || fold "off" then Some false
  else None.

Definition zeroOrOne (z : Z) : option bool := if z =? 0 then Some false else if z =? 1 then Some true else None.

Definition nativeFlowBool (a : arg) : option bool :=
  match a with
  | Arg (VString s) | Arg (VBytes s) => boolOfText s
  | Arg (VBool b) => Some b
  | Arg (VInt _ z) | Arg (VUint _ z) => zeroOrOne z
  | _ => None
  end.

Definition argIsNil (a : arg) : bool := match a with Arg VNil => true | _ => false end.

(** [responseInt64] of an argument. *)
Definition argResponseInt64 (a : arg) : option Z := match a with Arg v => responseInt64 v | ArgMarker _ => None end.

(** ** Fields *)

Abbreviation table := (list (gstr * gstr)).

Definition fieldTable (l : list (String.string * String.string)) : table := prod_map go go <$> l.

(** [scheduleNativeField]. *)
Definition scheduleFields : table := fieldTable [
  ("KIND", "kind"); ("TARGET", "target"); ("AT_MS", "at_ms"); ("FIRE_AT_MS", "fire_at_ms"); ("DELAY_MS", "delay_ms");
  ("START_AT_MS", "start_at_ms"); ("EVERY_MS", "every_ms"); ("CRON", "cron"); ("TIMEZONE", "timezone");
  ("NOW", "now_ms"); ("OVERWRITE", "overwrite"); ("CATCHUP_POLICY", "catchup_policy");
  ("OVERLAP_POLICY", "overlap_policy"); ("OVERLAP_RETRY_MS", "overlap_retry_ms"); ("MAX_FIRES", "max_fires");
  ("END_AT_MS", "end_at_ms"); ("WORKER", "worker"); ("LIMIT", "limit"); ("LEASE_MS", "lease_ms");
  ("BLOCK", "block_ms"); ("BLOCK_MS", "block_ms"); ("STATE", "state"); ("TARGET_TYPE", "target_type");
  ("FROM_MS", "from_ms"); ("TO_MS", "to_ms"); ("COUNT", "count"); ("DEADLINE_MS", "deadline_ms")]%string.

Definition scheduleNativeField (token : gstr) : option gstr := assoc_get (to_upper token) scheduleFields.

(** [flowAdminNativeField]. *)
Definition flowAdminFields : table := fieldTable [
  ("TYPE", "type"); ("INITIAL_STATE", "initial_state"); ("WORKER", "worker"); ("LEASE_MS", "lease_ms");
  ("COUNT", "count"); ("PAYLOAD", "payload"); ("PAYLOAD_REF", "payload_ref"); ("RESULT", "result");
  ("STATES", "states"); ("SIGNAL", "signal"); ("STEPS", "steps"); ("ITEMS", "items");
  ("PARENT_FLOW_ID", "parent_flow_id"); ("ROOT_FLOW_ID", "root_flow_id"); ("CORRELATION_ID", "correlation_id");
  ("PRIORITY", "priority"); ("RUN_AT", "run_at_ms"); ("IDEMPOTENT", "idempotent"); ("INDEPENDENT", "independent");
  ("RETENTION_TTL_MS", "retention_ttl_ms"); ("MAX_ACTIVE_MS", "max_active_ms");
  ("INDEXED_ATTRIBUTES", "indexed_attributes"); ("INDEXED_STATE_META", "indexed_state_meta"); ("STATE", "state");
  ("FROM_MS", "from_ms"); ("TO_MS", "to_ms"); ("FROM_EVENT", "from_event"); ("FROM_VERSION", "from_version");
  ("TO_VERSION", "to_version"); ("EVENT", "event"); ("VALUES", "values"); ("PAYLOAD_MAX_BYTES", "payload_max_bytes");
  ("MAXBYTES", "payload_max_bytes"); ("OLDER_THAN", "older_than_ms"); ("OLDER_THAN_MS", "older_than_ms");
  ("REV", "rev"); ("TERMINAL_ONLY", "terminal_only"); ("INCLUDE_COLD", "include_cold");
  ("CONSISTENT_PROJECTION", "consistent_projection"); ("RECLAIM_EXPIRED", "reclaim_expired");
  ("RECLAIM_RATIO", "reclaim_ratio"); ("BLOCK", "block_ms"); ("BLOCK_MS", "block_ms"); ("RETURN", "return");
  ("FULL", "full"); ("PARTITION", "partition_key"); ("LEASE_TOKEN", "lease_token"); ("FENCING", "fencing_token");
  ("FENCING_TOKEN", "fencing_token"); ("EFFECT_KEY", "effect_key"); ("EFFECT_TYPE", "effect_type");
  ("OPERATION_DIGEST", "operation_digest"); ("IDEMPOTENCY", "idempotency_key");
  ("IDEMPOTENCY_KEY", "idempotency_key"); ("TRANSITION_TO", "transition_to");
  ("GOVERNANCE_SCOPE", "governance_scope"); ("EXTERNAL_ID", "external_id"); ("ERROR", "error"); ("REASON", "reason");
  ("LATENCY_MS", "latency_ms"); ("FLOW_ID", "flow_id"); ("SCOPE", "scope"); ("REQUESTED_BY", "requested_by");
  ("ASSIGNEES", "assignees"); ("POLICY_HASH", "policy_hash"); ("POLICY_VERSION", "policy_version");
  ("TIMEOUT_MS", "timeout_ms"); ("EXPIRES_AT_MS", "expires_at_ms"); ("APPROVER", "approver"); ("STATUS", "status");
  ("OPEN_MS", "open_ms"); ("FAILURE_THRESHOLD", "failure_threshold"); ("MIN_CALLS", "min_calls");
  ("FAILURE_RATE_PCT", "failure_rate_pct"); ("LATENCY_THRESHOLD_MS", "latency_threshold_ms");
  ("ERROR_CLASSES", "error_classes"); ("HALF_OPEN_MAX_PROBES", "half_open_max_probes");
  ("HALF_OPEN_SUCCESS_THRESHOLD", "half_open_success_threshold"); ("AMOUNT", "amount"); ("LIMIT", "limit");
  ("WINDOW_MS", "window_ms"); ("RESERVATION_ID", "reservation_id"); ("RESERVATION_IDS", "reservation_ids");
  ("ACTUAL_AMOUNT", "actual_amount"); ("USAGE", "usage"); ("SHARD_ID", "shard_id"); ("TTL_MS", "ttl_ms");
  ("TTL", "ttl_ms"); ("RETENTION_TTL", "retention_ttl_ms"); ("TO_EVENT", "to_event");
  ("EXPECT_STATE", "expect_state"); ("REASON_REF", "reason_ref"); ("GROUP", "group_id"); ("WAIT", "wait");
  ("WAIT_STATE", "wait_state"); ("SUCCESS", "success"); ("FAILURE", "failure"); ("FROM_STATE", "from_state");
  ("ON_CHILD_FAILED", "on_child_failed"); ("ON_PARENT_CLOSED", "on_parent_closed"); ("NOW", "now_ms");
  ("DEADLINE_MS", "deadline_ms")]%string.

Definition flowAdminNativeField (token : gstr) : option gstr :=
  match assoc_get (to_upper token) flowAdminFields with Some field => Some field | None => scheduleNativeField token end.

(** ** Options of mutations *)

Section Builders.
(** [fmt.Sprint] on values other than text, integers and nil. *)
Context (sprint : val -> gstr).

Definition argString (a : arg) : gstr := match a with Arg v => asString sprint v | ArgMarker s => s end.
Definition argToken (a : arg) : gstr := to_upper (argString a).

(** [flowAdminMapField] on its tokens. *)
Definition mapFields : table := fieldTable [
  ("ATTRIBUTE", "attributes"); ("ATTRIBUTE_MERGE", "attributes_merge"); ("STATE_META", "state_meta");
  ("VALUE", "values"); ("VALUE_REF", "value_refs")]%string.

Definition flowAdminMapField (token : gstr) : option gstr := assoc_get token mapFields.

(** [flowAdminListField] on its tokens, and IF_STATE. *)
Definition listFields : table := fieldTable [
  ("ATTRIBUTE_DELETE", "attributes_delete"); ("DROP_VALUE", "drop_values"); ("OVERRIDE_VALUE", "override_values");
  ("IF_STATE", "if_state")]%string.

Definition flowAdminListField (token : gstr) : option gstr := assoc_get token listFields.

(** A non-nil [map[string]any] in a payload. *)
Definition mappingOf (v : option pval) : payloadMap :=
  match v with
  | Some (PMap m) => m
  | Some (PArg (Arg (VMap (Some _) m))) => list_to_map (prod_map id (PArg ∘ Arg) <$> m)
  | _ => ∅
  end.

Definition putNativeMapValue (payload : payloadMap) (field key : gstr) (value : pval) : payloadMap :=
  <[field := PMap (<[key := value]> (mappingOf (payload !! field)))]> payload.

Definition appendNativeListValue (value : option pval) (item : gstr) : pval :=
  match value with Some (PStrings items) => PStrings (items ++ [item]) | _ => PStrings [item] end.

Definition putNativeListValue (payload : payloadMap) (field item : gstr) : payloadMap :=
  <[field := appendNativeListValue (payload !! field) item]> payload.

Definition booleanFields : list gstr := go <$> [
  "rev"; "terminal_only"; "include_cold"; "consistent_projection"; "idempotent"; "independent"; "override";
  "full"; "values"; "reclaim_expired"]%string.

Definition flowAdminNativeValue (key : gstr) (value : arg) : option pval :=
  if bool_decide (key ∈ booleanFields) then if argIsNil value then None else PBool <$> nativeFlowBool value
  else Some (PArg value).

Definition isMapArg (a : arg) : bool := match a with Arg (VMap _ _) => true | _ => false end.

(** An option with one value. *)
Definition putAdminOption (payload : payloadMap) (token : gstr) (value : arg) : result notBuilt payloadMap :=
  match flowAdminNativeField token with
  | None => Err Declined
  | Some key =>
      match flowAdminNativeValue key value with None => Err Declined | Some converted => Ok (<[key := converted]> payload) end
  end.

(** [appendFlowAdminOptions]. *)
Fixpoint appendFlowAdminOptions (payload : payloadMap) (args : list arg) : result notBuilt payloadMap :=
  match args with
  | [] => Ok payload
  | token :: rest =>
      let token := argToken token in
      match flowAdminMapField token, flowAdminListField token with
      | Some field, _ =>
          match rest with
          | key :: rest =>
              if bool_decide (token = go "STATE_META") && isMapArg key
              then appendFlowAdminOptions (<[go "state_meta" := PArg key]> payload) rest
              else match rest with
              | value :: rest => appendFlowAdminOptions (putNativeMapValue payload field (argString key) (PArg value)) rest
              | [] => Err (Refused (OptionArity token))
              end
          | [] => Err (Refused (OptionArity token))
          end
      | None, Some field =>
          match rest with
          | value :: rest => appendFlowAdminOptions (putNativeListValue payload field (argString value)) rest
          | [] => Err (Refused (OptionArity token))
          end
      | None, None =>
          match rest with
          | value :: rest => let! payload := putAdminOption payload token value in appendFlowAdminOptions payload rest
          | [] => Err (Refused (OptionArity token))
          end
      end
  end.

(** ** Options of reads and claims *)

Record nativeFlowQueryShape := QueryShape { leadingFields : list gstr; repeatedStates : bool }.

(** The tokens an option of a read or claim starts with, when it is not a plain one. *)
Inductive readOption := ReadPayload (wanted : bool) | ReadValue | ReadPartitions | ReadState | ReadAttribute | ReadField.

Definition readOptionOf (shape : nativeFlowQueryShape) (token : gstr) : readOption :=
  if bool_decide (token = go "NOPAYLOAD") then ReadPayload false
  else if bool_decide (token = go "PAYLOAD") then ReadPayload true
  else if bool_decide (token = go "VALUE") then ReadValue
  else if bool_decide (token = go "PARTITIONS") then ReadPartitions
  else if bool_decide (token = go "STATE") && repeatedStates shape then ReadState
  else if bool_decide (token = go "ATTRIBUTE") then ReadAttribute
  else ReadField.

(** [appendFlowQueryOptions]; an option takes at least one argument. *)
Fixpoint appendFlowQueryOptions (fuel : nat) (shape : nativeFlowQueryShape) (payload : payloadMap) (args : list arg)
  : result notBuilt payloadMap :=
  match fuel, args with
  | _, [] => Ok payload
  | O, _ => Err Declined
  | S fuel, token :: rest =>
      let token := argToken token in
      match readOptionOf shape token, rest with
      | ReadPayload wanted, _ => appendFlowQueryOptions fuel shape (<[go "payload" := PBool wanted]> payload) rest
      | ReadValue, name :: rest => appendFlowQueryOptions fuel shape (putNativeListValue payload (go "values") (argString name)) rest
      | ReadPartitions, count :: rest =>
          match argResponseInt64 count with
          | Some count =>
              if (count <=? 0) || (blen rest <? count) then Err (Refused (BadCount token))
              else appendFlowQueryOptions fuel shape
                     (<[go "partition_keys" := PStrings (argString <$> btake count rest)]> payload) (bdrop count rest)
          | None => Err (Refused (BadCount token))
          end
      | ReadState, state :: rest => appendFlowQueryOptions fuel shape (putNativeListValue payload (go "states") (argString state)) rest
      | ReadAttribute, name :: value :: rest =>
          appendFlowQueryOptions fuel shape (putNativeMapValue payload (go "attributes") (argString name) (PArg value)) rest
      | ReadField, value :: rest =>
          let! payload := putAdminOption payload token value in appendFlowQueryOptions fuel shape payload rest
      | _, _ => Err (Refused (OptionArity token))
      end
  end.

(** ** Requests *)

Inductive flowBody :=
| BodyMap (m : payloadMap)
| BodyCreateMany (kind : Z) (flowType state : gstr) (partition : option gstr) (now runAt : Z) (independent : Z)
    (items : list (gstr * option gstr * gstr))
| BodyClaimDue (flowType : gstr) (state : option gstr) (worker : gstr) (leaseMS limit blockMS : Z) (reclaimExpired : Z)
    (reclaimRatio priority : Z) (returnMode partitionMode : Z) (partitions : list gstr)
| BodyCompleteMany (partition : option gstr) (now : Z) (independent : Z) (items : list (gstr * option gstr * gstr * Z))
| BodyValueMGet (refs : list gstr) (maxBytes : Z)
| BodyQuery (payload : queryPayload).

Record flowRequest := FlowRequest {
  fr_name : gstr;
  fr_opcode : Z;
  fr_body : flowBody;
  fr_replayNever : bool;
}.

Abbreviation builder := (list arg -> result notBuilt flowRequest).

Definition mapRequest (name : gstr) (opcode : Z) (m : payloadMap) : flowRequest := FlowRequest name opcode (BodyMap m) false.

Fixpoint leadingPayload (fields : list gstr) (args : list arg) : payloadMap :=
  match fields, args with
  | field :: fields, a :: args => <[field := PArg a]> (leadingPayload fields args)
  | _, _ => ∅
  end.

(** The leading arguments of a command, and the options behind them. *)
Definition withLeading (name : gstr) (fields : list gstr) (args : list arg)
    (options : payloadMap -> list arg -> result notBuilt payloadMap) : result notBuilt payloadMap :=
  if (length args <? length fields)%nat then Err (Refused (MissingArguments name))
  else options (leadingPayload fields args) (drop (length fields) args).

Definition buildFlowAdminNative (name : gstr) (opcode : Z) (fields : list gstr) : builder := fun args =>
  rmap (mapRequest name opcode) (withLeading name fields args appendFlowAdminOptions).

Definition buildFlowQueryNative (name : gstr) (opcode : Z) (shape : nativeFlowQueryShape) : builder := fun args =>
  rmap (mapRequest name opcode)
    (withLeading name (leadingFields shape) args (fun payload rest => appendFlowQueryOptions (length rest) shape payload rest)).

(** [appendScheduleOptions]. *)
Definition scheduleNativeValue (key : gstr) (value : arg) : option pval :=
  if bool_decide (key = go "overwrite") then if argIsNil value then None else PBool <$> nativeFlowBool value
  else Some (PArg value).

Fixpoint scheduleLoop (payload : payloadMap) (args : list arg) : result notBuilt payloadMap :=
  match args with
  | token :: value :: rest =>
      match scheduleNativeField (argString token) with
      | None => Err Declined
      | Some key =>
          match scheduleNativeValue key value with
          | None => Err Declined
          | Some converted => scheduleLoop (<[key := converted]> payload) rest
          end
      end
  | _ => Ok payload
  end.

Definition appendScheduleOptions (payload : payloadMap) (args : list arg) : result notBuilt payloadMap :=
  if Nat.even (length args) then scheduleLoop payload args else Err (Refused (OptionArity (go "FLOW.SCHEDULE"))).

(** [buildFlowScheduleCreateNative] and [buildFlowScheduleIDNative]: an identifier and options. *)
Definition buildFlowScheduleIDNative (name : gstr) (opcode : Z) : builder := fun args =>
  rmap (mapRequest name opcode) (withLeading name [go "id"] args appendScheduleOptions).

Definition buildFlowScheduleOptionsNative (name : gstr) (opcode : Z) (requireID : bool) : builder := fun args =>
  rmap (mapRequest name opcode) (withLeading name (if requireID then [go "id"] else []) args appendScheduleOptions).

(** ** The compact forms of claims and batches *)

(** [flowOptionSet]: the options seen, their values, and the list behind PARTITIONS. *)
Record flowOptionSet := OptionSet {
  o_values : list (gstr * arg);
  o_seen : list gstr;
  o_partitions : list arg;
}.

Definition noOptions : flowOptionSet := OptionSet [] [] [].

Definition o_has (key : gstr) (o : flowOptionSet) : bool := bool_decide (key ∈ o_seen o).
Definition o_only (allowed : list gstr) (o : flowOptionSet) : bool := forallb (fun k => bool_decide (k ∈ allowed)) (o_seen o).
Definition o_value (key : gstr) (o : flowOptionSet) : option arg := assoc_get key (o_values o).
Definition o_int64 (key : gstr) (o : flowOptionSet) : option Z := o_value key o ≫= argResponseInt64.

Definition o_string (key : gstr) (o : flowOptionSet) : option gstr :=
  match o_value key o with
  | Some value => if bool_decide (argString value = []) then None else Some (argString value)
  | None => None
  end.

(** [boolValue] and [boolMarker]. *)
Definition o_bool (key : gstr) (o : flowOptionSet) : option bool := o_value key o ≫= nativeFlowBool.
Definition boolMarker (b : bool) : Z := if b then 2 else 1.

Definition o_marker (key : gstr) (o : flowOptionSet) : option Z :=
  match o_value key o with None => Some 0 | Some value => boolMarker <$> nativeFlowBool value end.

Definition addOption (token : gstr) (value : arg) (o : flowOptionSet) : flowOptionSet :=
  OptionSet ((token, value) :: o_values o) (token :: o_seen o) (o_partitions o).

(** [parseFlowOptionsUntilItems]: the options, the marker and what is behind it. *)
Fixpoint parseFlowOptionsUntilItems (o : flowOptionSet) (args : list arg) : option (flowOptionSet * gstr * list arg) :=
  match args with
  | [] => None
  | a :: rest =>
      let token := argToken a in
      if bool_decide (token = go "ITEMS") || bool_decide (token = go "ITEMS_EXT") then Some (o, token, rest)
      else match rest with
      | [] => None
      | value :: rest => if o_has token o then None else parseFlowOptionsUntilItems (addOption token value o) rest
      end
  end.

(** [parseFlowOptions]. *)
Fixpoint parseFlowOptions (fuel : nat) (o : flowOptionSet) (args : list arg) : option flowOptionSet :=
  match fuel, args with
  | _, [] => Some o
  | O, _ => None
  | S fuel, a :: rest =>
      let token := argToken a in
      if o_has token o then None
      else if bool_decide (token = go "PARTITIONS") then
        match rest with
        | [] => None
        | count :: rest =>
            match argResponseInt64 count with
            | Some count =>
                if (count <? 0) || (blen rest <? count) then None
                else parseFlowOptions fuel (OptionSet (o_values o) (token :: o_seen o) (btake count rest)) (bdrop count rest)
            | None => None
            end
        end
      else match rest with [] => None | value :: rest => parseFlowOptions fuel (addOption token value o) rest end
  end.

(** [isCompactPayloadValue]: text or bytes. *)
Definition compactText (a : arg) : option gstr := match a with Arg (VString s) | Arg (VBytes s) => Some s | _ => None end.

Definition compactClaimReturnMode (value : option arg) : option Z :=
  match value with
  | None => Some 0
  | Some value =>
      if argIsNil value then Some 0
      else
        let mode := argToken value in
        let oneOf l := bool_decide (mode ∈ go <$> l) in
        if oneOf ["JOBS_COMPACT"]%string then Some 1
        else if oneOf ["JOBS_COMPACT_STATE"]%string then Some 2
        else if oneOf ["JOBS_COMPACT_ATTRS"; "JOBS_COMPACT_ATTRIBUTES"]%string then Some 3
        else if oneOf ["JOBS_COMPACT_STATE_ATTRS"; "JOBS_COMPACT_STATE_ATTRIBUTES"; "JOBS_COMPACT_WITH_STATE_ATTRS";
                       "JOBS_COMPACT_WITH_STATE_ATTRIBUTES"]%string then Some 4
        else None
  end.

Definition compactPartitionValues (o : flowOptionSet) : option (Z * list gstr) :=
  match o_has (go "PARTITION") o, o_has (go "PARTITIONS") o with
  | true, true => None
  | true, false => (fun p => (1, [p])) <$> (o_value (go "PARTITION") o ≫= compactText)
  | false, true => if bool_decide (o_partitions o = []) then None else (fun l => (2, l)) <$> mapM compactText (o_partitions o)
  | false, false => Some (0, [])
  end.

Definition orDecline {A} (o : option A) : result notBuilt A := match o with Some a => Ok a | None => Err Declined end.
Definition unless (refuse : bool) : result notBuilt unit := rguard (negb refuse) Declined.

(** An option that may be missing. *)
Definition o_int64_or (key : gstr) (fallback : Z) (o : flowOptionSet) : result notBuilt Z :=
  if o_has key o then orDecline (o_int64 key o) else Ok fallback.

Definition nativeFlowClaimDefaultReclaimRatio : Z := 25.
Definition nativeFlowClaimDefaultReclaimExpired : Z := 1.

Definition claimOptions : list gstr := go <$> [
  "STATE"; "WORKER"; "LEASE_MS"; "LIMIT"; "NOW"; "PARTITION"; "PARTITIONS"; "RETURN"; "BLOCK"; "RECLAIM_EXPIRED";
  "RECLAIM_RATIO"; "PRIORITY"]%string.

(** [buildFlowClaimDueNative]. *)
Definition buildFlowClaimDueNative : builder := fun args =>
  match args with
  | [] => Err Declined
  | flowType :: rest =>
      let! flowType := orDecline (compactText flowType) in
      let! o := orDecline (parseFlowOptions (length rest) noOptions rest) in
      let! _ := unless (negb (o_only claimOptions o)) in
      let! _ := unless (o_has (go "NOW") o) in
      let! worker := orDecline (o_value (go "WORKER") o ≫= compactText) in
      let! leaseMS := orDecline (o_int64 (go "LEASE_MS") o) in
      let! limit := orDecline (o_int64 (go "LIMIT") o) in
      let! blockMS := o_int64_or (go "BLOCK") (-1) o in
      let! reclaimRatio := o_int64_or (go "RECLAIM_RATIO") nativeFlowClaimDefaultReclaimRatio o in
      let! priority := o_int64_or (go "PRIORITY") min_int64 o in
      let! returnMode := orDecline (compactClaimReturnMode (o_value (go "RETURN") o)) in
      let! reclaimExpired :=
        if o_has (go "RECLAIM_EXPIRED") o
        then let! value := orDecline (o_bool (go "RECLAIM_EXPIRED") o) in
             Ok (if value then nativeFlowClaimDefaultReclaimExpired else 0)
        else Ok nativeFlowClaimDefaultReclaimExpired in
      let! partitions := orDecline (compactPartitionValues o) in
      let! state :=
        if o_has (go "STATE") o then rmap Some (orDecline (o_value (go "STATE") o ≫= compactText)) else Ok None in
      Ok (FlowRequest (go "FLOW.CLAIM_DUE") nativeOpFlowClaimDue
            (BodyClaimDue flowType state worker leaseMS limit blockMS reclaimExpired reclaimRatio priority returnMode
               partitions.1 partitions.2) false)
  end.

(** [buildFlowClaimDueAnyNative]: the compact form, or the map. *)
Definition orElse (first second : builder) : builder := fun args =>
  match first args with Err Declined => second args | r => r end.

Definition typeShape (repeated : bool) : nativeFlowQueryShape := QueryShape [go "type"] repeated.

Definition buildFlowClaimDueAnyNative : builder :=
  orElse buildFlowClaimDueNative (buildFlowQueryNative (go "FLOW.CLAIM_DUE") nativeOpFlowClaimDue (typeShape true)).

(** [flowItemMarker]: the options, the marker and what is behind it. *)
Definition wideOption (token : gstr) : bool :=
  bool_decide (token ∈ go <$> ["ATTRIBUTE"; "ATTRIBUTE_MERGE"; "STATE_META"; "VALUE"; "VALUE_REF"]%string).

Fixpoint flowItemMarker (args : list arg) : option (list arg * gstr * list arg) :=
  match args with
  | [] => None
  | a :: rest =>
      let token := argToken a in
      if bool_decide (token ∈ go <$> ["ITEMS"; "ITEMS_EXT"; "ITEMS_MAPS"]%string) then Some ([], token, rest)
      else match rest with
      | [] => None
      | b :: rest =>
          if wideOption token then
            match rest with
            | [] => None
            | c :: rest =>
                match flowItemMarker rest with
                | Some (opts, token, items) => Some (a :: b :: c :: opts, token, items)
                | None => None
                end
            end
          else match flowItemMarker rest with
               | Some (opts, token, items) => Some (a :: b :: opts, token, items)
               | None => None
               end
      end
  end.

Definition nativeCompactFlowCreateManyRequest : Z := 0x90.
Definition nativeCompactFlowCreateManyPartitionRequest : Z := 0x96.
Definition nativeCompactFlowCreateManyMixedRequest : Z := 0x9E.

(** The items of a batch of creations: identifier, partition of a mixed batch, payload. *)
Fixpoint createItems (mixed : bool) (args : list arg) : option (list (gstr * option gstr * gstr)) :=
  match args with
  | [] => Some []
  | id :: rest =>
      match mixed, rest with
      | true, partition :: payload :: rest =>
          match compactText id, compactText partition, compactText payload, createItems mixed rest with
          | Some id, Some partition, Some payload, Some items => Some ((id, Some partition, payload) :: items)
          | _, _, _, _ => None
          end
      | false, payload :: rest =>
          match compactText id, compactText payload, createItems mixed rest with
          | Some id, Some payload, Some items => Some ((id, None, payload) :: items)
          | _, _, _ => None
          end
      | _, _ => None
      end
  end.

Definition createManyOptions : list gstr := go <$> ["TYPE"; "STATE"; "NOW"; "RUN_AT"; "INDEPENDENT"]%string.

(** The compact form of [buildFlowCreateManyNative]. *)
Definition buildFlowCreateManyCompact : builder := fun args =>
  match args with
  | partition :: ((_ :: _) as rest) =>
      let wirePartition := argString partition in
      let! parsed := orDecline (parseFlowOptionsUntilItems noOptions rest) in
      let '(o, token, itemArgs) := parsed in
      let! _ := unless (negb (bool_decide (token = go "ITEMS"))) in
      let mixed := bool_decide (wirePartition = go "MIXED") in
      let width := if mixed then 3%nat else 2%nat in
      let! _ := unless (bool_decide (itemArgs = []) || negb (Nat.eqb (length itemArgs mod width) 0)) in
      let! flowType := orDecline (o_string (go "TYPE") o) in
      let! state := orDecline (o_string (go "STATE") o) in
      let! now := orDecline (o_int64 (go "NOW") o) in
      let runAt := default now (o_int64 (go "RUN_AT") o) in
      let! independent := orDecline (o_marker (go "INDEPENDENT") o) in
      let! _ := unless (negb (o_only createManyOptions o)) in
      let automatic := bool_decide (wirePartition = []) || bool_decide (wirePartition = go "AUTO") || equal_fold wirePartition (go "none") in
      let kind :=
        if mixed then nativeCompactFlowCreateManyMixedRequest
        else if automatic then nativeCompactFlowCreateManyRequest
        else nativeCompactFlowCreateManyPartitionRequest in
      let! items := orDecline (createItems mixed itemArgs) in
      Ok (FlowRequest (go "FLOW.CREATE_MANY") nativeOpFlowCreateMany
            (BodyCreateMany kind flowType state (if mixed || automatic then None else Some wirePartition) now runAt independent items) false)
  | _ => Err Declined
  end.

(** The items of a batch of completions: identifier, partition of a mixed batch, lease and
    fencing token. *)
Fixpoint completeItems (mixed : bool) (args : list arg) : option (list (gstr * option gstr * gstr * Z)) :=
  match args with
  | [] => Some []
  | id :: rest =>
      match mixed, rest with
      | true, partition :: lease :: fencing :: rest =>
          match compactText id, compactText partition, compactText lease, argResponseInt64 fencing, completeItems mixed rest with
          | Some id, Some partition, Some lease, Some fencing, Some items => Some ((id, Some partition, lease, fencing) :: items)
          | _, _, _, _, _ => None
          end
      | false, lease :: fencing :: rest =>
          match compactText id, compactText lease, argResponseInt64 fencing, completeItems mixed rest with
          | Some id, Some lease, Some fencing, Some items => Some ((id, None, lease, fencing) :: items)
          | _, _, _, _ => None
          end
      | _, _ => None
      end
  end.

(** [buildFlowCompleteManyNative]. *)
Definition buildFlowCompleteManyNative : builder := fun args =>
  match args with
  | partition :: ((_ :: _) as rest) =>
      let wirePartition := argString partition in
      let! parsed := orDecline (parseFlowOptionsUntilItems noOptions rest) in
      let '(o, token, itemArgs) := parsed in
      let! _ := unless (negb (bool_decide (token = go "ITEMS"))) in
      let! _ := unless (negb (o_only (go <$> ["NOW"; "INDEPENDENT"]%string) o)) in
      let! now := orDecline (o_int64 (go "NOW") o) in
      let mixed := bool_decide (wirePartition = go "MIXED") in
      let width := if mixed then 4%nat else 3%nat in
      let! _ := unless (bool_decide (itemArgs = []) || negb (Nat.eqb (length itemArgs mod width) 0)) in
      let! independent := orDecline (o_marker (go "INDEPENDENT") o) in
      let! items := orDecline (completeItems mixed itemArgs) in
      Ok (FlowRequest (go "FLOW.COMPLETE_MANY") nativeOpFlowCompleteMany
            (BodyCompleteMany (if mixed then None else Some wirePartition) now independent items) false)
  | _ => Err Declined
  end.

(** ** Mutations of batches as maps *)

Inductive nativeFlowManyItemKind := nativeFlowManyClaimed | nativeFlowManyTransition | nativeFlowManyCancel.

(** The fields of one item, from its arguments. *)
Definition manyItemFields (name : gstr) (kind : nativeFlowManyItemKind) (id : arg) (partition : option arg) (fields : list arg)
  : result notBuilt pval :=
  let fencingOf a := match argResponseInt64 a with Some z => Ok (PInt z) | None => Err (Refused (BadFencing name)) end in
  let item := <[go "id" := PArg id]> (match partition with Some p => {[go "partition_key" := PArg p]} | None => ∅ end) in
  match kind, fields with
  | nativeFlowManyClaimed, [lease; fencing] =>
      let! fencing := fencingOf fencing in
      Ok (PMap (<[go "fencing_token" := fencing]> (<[go "lease_token" := PArg lease]> item)))
  | nativeFlowManyTransition, [fencing; lease] =>
      let! fencing := fencingOf fencing in
      Ok (PMap (<[go "lease_token" := PArg lease]> (<[go "fencing_token" := fencing]> item)))
  | nativeFlowManyCancel, [fencing] =>
      let! fencing := fencingOf fencing in Ok (PMap (<[go "fencing_token" := fencing]> item))
  | _, _ => Err (Refused (BadItems name))
  end.

Definition manyFields (kind : nativeFlowManyItemKind) : nat := match kind with nativeFlowManyCancel => 1 | _ => 2 end.

(** The loop of [parseFlowMutationManyItems]. *)
Fixpoint manyItemsLoop (fuel : nat) (name : gstr) (mixed : bool) (kind : nativeFlowManyItemKind) (values : list arg)
  : result notBuilt (list pval) :=
  match fuel, values with
  | S fuel, id :: rest =>
      let partition := if mixed then head rest else None in
      let rest := if mixed then tail rest else rest in
      let! item := manyItemFields name kind id partition (take (manyFields kind) rest) in
      let! items := manyItemsLoop fuel name mixed kind (drop (manyFields kind) rest) in
      Ok (item :: items)
  | _, _ => Ok []
  end.

Definition parseFlowMutationManyItems (name : gstr) (values : list arg) (mixed : bool) (kind : nativeFlowManyItemKind)
  : result notBuilt (list pval) :=
  let width := (S (manyFields kind) + (if mixed then 1 else 0))%nat in
  if bool_decide (values = []) || negb (Nat.eqb (length values mod width) 0) then Err (Refused (BadItems name))
  else manyItemsLoop (length values) name mixed kind values.

(** [buildFlowMutationManyNative]. *)
Definition buildFlowMutationManyNative (name : gstr) (opcode : Z) (kind : nativeFlowManyItemKind) : builder := fun args =>
  let leading := match kind with nativeFlowManyTransition => 3%nat | _ => 1%nat end in
  if (length args <? leading)%nat then Err (Refused (MissingArguments name))
  else
    match args with
    | [] => Err Declined
    | partition :: _ =>
        let mixed := equal_fold (argString partition) (go "MIXED") in
        let payload := if mixed then ∅ else {[go "partition_key" := PArg partition]} in
        let payload :=
          match kind, args with
          | nativeFlowManyTransition, _ :: from :: to :: _ => <[go "to_state" := PArg to]> (<[go "from_state" := PArg from]> payload)
          | _, _ => payload
          end in
        match flowItemMarker (drop leading args) with
        | Some (options, token, items) =>
            if negb (bool_decide (token = go "ITEMS")) then Err Declined
            else
              let! payload := appendFlowAdminOptions payload options in
              let! items := parseFlowMutationManyItems name items mixed kind in
              Ok (mapRequest name opcode (<[go "items" := PList items]> payload))
        | None => Err Declined
        end
    end.

Definition buildFlowCompleteManyAnyNative : builder :=
  orElse buildFlowCompleteManyNative
    (buildFlowMutationManyNative (go "FLOW.COMPLETE_MANY") nativeOpFlowCompleteMany nativeFlowManyClaimed).

(** ** Items with values *)

(** [flowExtendedItemCount]. *)
Definition flowExtendedItemCount (command : gstr) (args : list arg) : result notBuilt (Z * list arg) :=
  match args with
  | [] => Err (Refused (BadCount command))
  | count :: rest =>
      match argResponseInt64 count with
      | Some count => if count <=? 0 then Err (Refused (BadCount command)) else Ok (count, rest)
      | None => Err (Refused (BadCount command))
      end
  end.

Definition argResponseString (a : arg) : option gstr := match a with Arg v => responseString v | ArgMarker _ => None end.

Fixpoint pairsLoop (count : nat) (args : list arg) (out : payloadMap) : result notBuilt (payloadMap * list arg) :=
  match count, args with
  | O, _ => Ok (out, args)
  | S count, name :: value :: rest =>
      match argResponseString name with
      | Some name =>
          if bool_decide (name = []) then Err (Refused (BadItems (go "name"))) else pairsLoop count rest (<[name := PArg value]> out)
      | None => Err (Refused (BadItems (go "name")))
      end
  | S _, _ => Err (Refused (BadItems (go "entries")))
  end.

(** [parseFlowExtendedPairs]: the pairs, and what is behind them. *)
Definition parseFlowExtendedPairs (command : gstr) (args : list arg) : result notBuilt (payloadMap * list arg) :=
  match args with
  | [] => Err (Refused (BadCount command))
  | count :: rest =>
      match argResponseInt64 count with
      | Some count =>
          if count <? 0 then Err (Refused (BadCount command))
          else if Z.quot (blen rest) 2 <? count then Err (Refused (BadItems command))
          else pairsLoop (Z.to_nat count) rest ∅
      | None => Err (Refused (BadCount command))
      end
  end.

(** A field that is there when its map is not empty. *)
Definition putIfAny (field : gstr) (m : payloadMap) (item : payloadMap) : payloadMap :=
  if decide (m = ∅) then item else <[field := PMap m]> item.

(** The values and references behind an item. *)
Definition itemValues (command : gstr) (item : payloadMap) (args : list arg) : result notBuilt (pval * list arg) :=
  let! values := parseFlowExtendedPairs command args in
  let! refs := parseFlowExtendedPairs command values.2 in
  Ok (PMap (putIfAny (go "value_refs") refs.1 (putIfAny (go "values") values.1 item)), refs.2).

Definition createExtendedItem (mixed : bool) (args : list arg) : result notBuilt (pval * list arg) :=
  let command := go "FLOW.CREATE_MANY" in
  match args with
  | id :: partition :: payload :: rest =>
      let item := <[go "payload" := PArg payload]> {[go "id" := PArg id]} in
      let named := mixed || negb (bool_decide (argString partition = go "-")) in
      itemValues command (if named then <[go "partition_key" := PArg partition]> item else item) rest
  | _ => Err (Refused (BadItems command))
  end.

Definition spawnExtendedItem (args : list arg) : result notBuilt (pval * list arg) :=
  let command := go "FLOW.SPAWN_CHILDREN" in
  match args with
  | id :: partition :: type :: payload :: rest =>
      let child := <[go "payload" := PArg payload]> (<[go "type" := PArg type]> {[go "id" := PArg id]}) in
      let named := negb (bool_decide (argString partition = go "-")) in
      itemValues command (if named then <[go "partition_key" := PArg partition]> child else child) rest
  | _ => Err (Refused (BadItems command))
  end.

(** The loop over extended items; nothing may be left behind the last one. *)
Fixpoint extendedLoop (readItem : list arg -> result notBuilt (pval * list arg)) (count : nat) (args : list arg)
  : result notBuilt (list pval) :=
  match count with
  | O => if bool_decide (args = []) then Ok [] else Err (Refused (BadItems (go "ITEMS_EXT")))
  | S count => let! item := readItem args in let! items := extendedLoop readItem count item.2 in Ok (item.1 :: items)
  end.

(** An item takes an argument at least, so a larger count fails where the arguments end. (The
    code allocates [count] items beforehand, and panics where that is out of range.) *)
Definition extendedItems (command : gstr) (readItem : list arg -> result notBuilt (pval * list arg)) (args : list arg)
  : result notBuilt (list pval) :=
  let! counted := flowExtendedItemCount command args in
  extendedLoop readItem (Z.to_nat (Z.min counted.1 (blen counted.2 + 1))) counted.2.

Definition parseFlowCreateManyExtendedItems (args : list arg) (mixed : bool) : result notBuilt (list pval) :=
  extendedItems (go "FLOW.CREATE_MANY") (createExtendedItem mixed) args.

Definition parseFlowSpawnExtendedItems (args : list arg) : result notBuilt (list pval) :=
  extendedItems (go "FLOW.SPAWN_CHILDREN") spawnExtendedItem args.

(** ** Items as maps and children *)

(** An item that is a map with an identifier. *)
Definition mappedItem (command : gstr) (a : arg) : result notBuilt pval :=
  match a with
  | Arg v =>
      match nativeMap v with
      | Ok m =>
          if bool_decide (asString sprint (default VNil (assoc_get (go "id") m)) = []) then Err (Refused (BadItems command))
          else Ok (PMap (list_to_map (prod_map id (PArg ∘ Arg) <$> m)))
      | Err _ => Err (Refused (BadItems command))
      end
  | ArgMarker _ => Err (Refused (BadItems command))
  end.

Fixpoint mappedItems (command : gstr) (values : list arg) : result notBuilt (list pval) :=
  match values with
  | [] => Ok []
  | v :: values => let! item := mappedItem command v in let! items := mappedItems command values in Ok (item :: items)
  end.

(** [parseFlowMappedItems]. *)
Definition parseFlowMappedItems (command : gstr) (args : list arg) : result notBuilt (list pval) :=
  let! counted := flowExtendedItemCount command args in
  if negb (blen counted.2 =? counted.1) then Err (Refused (BadItems command)) else mappedItems command counted.2.

(** The children of [parseFlowSpawnItems], three or four arguments each. *)
Fixpoint spawnItems (mixed : bool) (args : list arg) : list pval :=
  match mixed, args with
  | true, id :: partition :: type :: payload :: rest =>
      PMap (<[go "payload" := PArg payload]> (<[go "type" := PArg type]>
        (<[go "partition_key" := PArg partition]> {[go "id" := PArg id]}))) :: spawnItems mixed rest
  | false, id :: type :: payload :: rest =>
      PMap (<[go "payload" := PArg payload]> (<[go "type" := PArg type]> {[go "id" := PArg id]})) :: spawnItems mixed rest
  | _, _ => []
  end.

Definition parseFlowSpawnItems (args : list arg) : result notBuilt (list pval) :=
  let mixed := match args with a :: _ => equal_fold (argString a) (go "MIXED") | [] => false end in
  let args := if mixed then tail args else args in
  let width := if mixed then 4%nat else 3%nat in
  if bool_decide (args = []) || negb (Nat.eqb (length args mod width) 0) then Err (Refused (BadItems (go "FLOW.SPAWN_CHILDREN")))
  else Ok (spawnItems mixed args).

(** [buildFlowSpawnChildrenNative]. *)
Definition buildFlowSpawnChildrenNative : builder := fun args =>
  let command := go "FLOW.SPAWN_CHILDREN" in
  match args with
  | [] => Err (Refused (MissingArguments command))
  | id :: rest =>
      match flowItemMarker rest with
      | None => Err Declined
      | Some (options, token, items) =>
          let! payload := appendFlowAdminOptions {[go "id" := PArg id]} options in
          let! children :=
            if bool_decide (token = go "ITEMS_MAPS") then parseFlowMappedItems command items
            else if bool_decide (token = go "ITEMS_EXT") then parseFlowSpawnExtendedItems items
            else parseFlowSpawnItems items in
          Ok (mapRequest command nativeOpFlowSpawnChildren (<[go "children" := PList children]> payload))
      end
  end.

(** Partitions the server chooses, and batches of several. *)
Definition notOnePartition (wirePartition : gstr) : bool :=
  equal_fold wirePartition (go "AUTO") || equal_fold wirePartition (go "MIXED") || equal_fold wirePartition (go "NONE") ||
  bool_decide (wirePartition = []).

(** [buildFlowCreateManyExtendedNative]. *)
Definition buildFlowCreateManyExtendedNative : builder := fun args =>
  let command := go "FLOW.CREATE_MANY" in
  match args with
  | partition :: ((_ :: _) as rest) =>
      match flowItemMarker rest with
      | Some (options, token, items) =>
          let maps := bool_decide (token = go "ITEMS_MAPS") in
          if negb (maps || bool_decide (token = go "ITEMS_EXT")) then Err Declined
          else
            let wirePartition := argString partition in
            let! payload := appendFlowAdminOptions ∅ options in
            let! items :=
              if maps then parseFlowMappedItems command items
              else parseFlowCreateManyExtendedItems items (equal_fold wirePartition (go "MIXED")) in
            let payload := <[go "items" := PList items]> payload in
            let payload := if notOnePartition wirePartition then payload else <[go "partition_key" := PArg partition]> payload in
            Ok (mapRequest command nativeOpFlowCreateMany payload)
      | None => Err Declined
      end
  | _ => Err (Refused (MissingArguments command))
  end.

(** [buildFlowCreateManyNative]: extended items, or the compact form. *)
Definition buildFlowCreateManyNative : builder := fun args =>
  match args with
  | _ :: ((_ :: _) as rest) =>
      match flowItemMarker rest with
      | Some (_, token, _) =>
          if bool_decide (token = go "ITEMS_EXT") || bool_decide (token = go "ITEMS_MAPS")
          then buildFlowCreateManyExtendedNative args else buildFlowCreateManyCompact args
      | None => buildFlowCreateManyCompact args
      end
  | _ => Err Declined
  end.

(** ** Policies *)

(** What [putFlowPolicyOption] writes to: the payload, a policy (the payload itself at type
    level), its retry and its retention. *)
Record policyMaps := PolicyMaps { pm_payload : payloadMap; pm_policy : payloadMap; pm_retry : payloadMap; pm_retention : payloadMap }.

Definition put_payload (field : gstr) (v : pval) (p : policyMaps) : policyMaps :=
  PolicyMaps (<[field := v]> (pm_payload p)) (pm_policy p) (pm_retry p) (pm_retention p).
Definition put_policy (field : gstr) (v : pval) (p : policyMaps) : policyMaps :=
  PolicyMaps (pm_payload p) (<[field := v]> (pm_policy p)) (pm_retry p) (pm_retention p).
Definition put_retry (field : gstr) (v : pval) (p : policyMaps) : policyMaps :=
  PolicyMaps (pm_payload p) (pm_policy p) (<[field := v]> (pm_retry p)) (pm_retention p).
Definition put_retention (field : gstr) (v : pval) (p : policyMaps) : policyMaps :=
  PolicyMaps (pm_payload p) (pm_policy p) (pm_retry p) (<[field := v]> (pm_retention p)).

(** [putFlowPolicyBackoff]. *)
Definition put_backoff (field : gstr) (v : pval) (p : policyMaps) : policyMaps :=
  PolicyMaps (pm_payload p) (pm_policy p) (putNativeMapValue (pm_retry p) (go "backoff") field v) (pm_retention p).

Definition typeLevelFields : table := fieldTable [
  ("EXPECTED_GENERATION", "expected_generation"); ("INDEXED_ATTRIBUTES", "indexed_attributes");
  ("INDEXED_STATE_META", "indexed_state_meta"); ("MAX_ACTIVE_MS", "max_active_ms")]%string.
Definition retentionFields : table := fieldTable [
  ("RETENTION_TTL", "ttl_ms"); ("RETENTION_TTL_MS", "ttl_ms"); ("HISTORY_MAX_EVENTS", "history_max_events")]%string.
Definition retryFields : table := fieldTable [("MAX_RETRIES", "max_retries"); ("EXHAUSTED_TO", "exhausted_to")]%string.
Definition backoffFields : table := fieldTable [
  ("BACKOFF", "kind"); ("BASE_MS", "base_ms"); ("MAX_MS", "max_ms"); ("JITTER_PCT", "jitter_pct")]%string.

Definition flowStateModeNativeValue (value : arg) : option gstr :=
  let mode := argToken value in
  if bool_decide (mode = go "PARALLEL") then Some (go "parallel")
  else if bool_decide (mode = go "FIFO") then Some (go "fifo") else None.

(** [putFlowPolicyOption]. *)
Definition putFlowPolicyOption (stateScoped : bool) (token value : arg) (p : policyMaps) : result notBuilt policyMaps :=
  let token := argToken token in
  let refuse := Err (Refused (BadOption token)) in
  if bool_decide (token = go "REPLACE") then
    if stateScoped then refuse
    else match nativeFlowBool value with Some b => Ok (put_payload (go "replace") (PBool b) p) | None => Err (Refused BadBool) end
  else if bool_decide (token = go "MODE") then
    if stateScoped then match flowStateModeNativeValue value with Some mode => Ok (put_policy (go "mode") (PText mode) p) | None => refuse end
    else refuse
  else
    match assoc_get token typeLevelFields, assoc_get token retentionFields, assoc_get token retryFields, assoc_get token backoffFields with
    | Some field, _, _, _ => if stateScoped then refuse else Ok (put_payload field (PArg value) p)
    | None, Some field, _, _ => Ok (put_retention field (PArg value) p)
    | None, None, Some field, _ => Ok (put_retry field (PArg value) p)
    | None, None, None, Some field => Ok (put_backoff field (PArg value) p)
    | None, None, None, None => refuse
    end.

(** The policies being read: those of the type, those of the states read, and the state
    that is open. *)
Record policyReading := PolicyReading {
  pr_type : policyMaps;
  pr_states : payloadMap;
  pr_open : option (gstr * policyMaps);
}.

Definition emptyPolicy : policyMaps := PolicyMaps ∅ ∅ ∅ ∅.

Definition closedPolicy (p : policyMaps) : payloadMap :=
  putIfAny (go "retention") (pm_retention p) (putIfAny (go "retry") (pm_retry p) (pm_policy p)).

Definition closeState (r : policyReading) : policyReading :=
  match pr_open r with
  | None => r
  | Some (name, p) => PolicyReading (pr_type r) (<[name := PMap (closedPolicy p)]> (pr_states r)) None
  end.

(** The loops of [buildFlowPolicySetNative]: a STATE opens a policy that lasts to the next. *)
Fixpoint policyLoop (r : policyReading) (args : list arg) : result notBuilt policyReading :=
  match args with
  | [] => Ok (closeState r)
  | token :: value :: rest =>
      if bool_decide (argToken token = go "STATE")
      then let r := closeState r in policyLoop (PolicyReading (pr_type r) (pr_states r) (Some (argString value, emptyPolicy))) rest
      else match pr_open r with
      | None => let! p := putFlowPolicyOption false token value (pr_type r) in policyLoop (PolicyReading p (pr_states r) None) rest
      | Some (name, p) =>
          let! p := putFlowPolicyOption true token value p in policyLoop (PolicyReading (pr_type r) (pr_states r) (Some (name, p))) rest
      end
  | [_] => Err (Refused (OptionArity (go "FLOW.POLICY.SET")))
  end.

Definition buildFlowPolicySetNative : builder := fun args =>
  match args with
  | [] => Err (Refused (MissingArguments (go "FLOW.POLICY.SET")))
  | type :: rest =>
      let! r := policyLoop (PolicyReading (PolicyMaps {[go "type" := PArg type]} ∅ ∅ ∅) ∅ None) rest in
      let p := pr_type r in
      let payload := putIfAny (go "retention") (pm_retention p) (putIfAny (go "retry") (pm_retry p) (pm_payload p)) in
      let payload := putIfAny (go "states") (pr_states r) payload in
      Ok (FlowRequest (go "FLOW.POLICY.SET") nativeOpFlowPolicySet (BodyMap payload)
            (bool_decide (is_Some (payload !! go "expected_generation"))))
  end.

(** ** Values *)

Definition valuePutFields : table := fieldTable [
  ("PARTITION", "partition_key"); ("OWNER_FLOW_ID", "owner_flow_id"); ("NAME", "name"); ("TTL", "ttl_ms"); ("TTL_MS", "ttl_ms");
  ("NOW", "now_ms"); ("RETURN", "return")]%string.

Fixpoint valuePutLoop (payload : payloadMap) (args : list arg) : result notBuilt payloadMap :=
  match args with
  | [] => Ok payload
  | token :: value :: rest =>
      let token := argToken token in
      if bool_decide (token = go "OVERRIDE") then
        match nativeFlowBool value with
        | Some b => valuePutLoop (<[go "override" := PBool b]> payload) rest
        | None => Err (Refused BadBool)
        end
      else match assoc_get token valuePutFields with
      | Some field => valuePutLoop (<[field := PArg value]> payload) rest
      | None => Err Declined
      end
  | [_] => Err (Refused (OptionArity (go "FLOW.VALUE.PUT")))
  end.

(** [buildFlowValuePutNative]. *)
Definition buildFlowValuePutNative : builder := fun args =>
  match args with
  | [] => Err (Refused (MissingArguments (go "FLOW.VALUE.PUT")))
  | value :: rest => rmap (mapRequest (go "FLOW.VALUE.PUT") nativeOpFlowValuePut) (valuePutLoop {[go "value" := PArg value]} rest)
  end.

(** A reference is text that is not empty. *)
Definition valueRef (a : arg) : option gstr :=
  match argText a with Some (b :: s) => Some (b :: s) | _ => None end.

(** [buildFlowValueMGetNative]: the references, and the limit before the last argument. *)
Definition buildFlowValueMGetNative : builder := fun args =>
  let command := go "FLOW.VALUE.MGET" in
  let! (refs, maxBytes) :=
    match rev args with
    | limit :: option :: refs =>
        if bool_decide (argPart option = go "MAX_BYTES") || bool_decide (argPart option = go "MAXBYTES")
        then match match limit with Arg v => topologyInteger v | ArgMarker _ => None end with
             | Some n => if n <? 0 then Err (Refused (BadCount command)) else Ok (rev refs, n)
             | None => Err (Refused (BadCount command))
             end
        else Ok (args, min_int64)
    | _ => Ok (args, min_int64)
    end in
  if bool_decide (refs = []) then Err (Refused (MissingArguments command))
  else match mapM valueRef refs with
  | Some refs => Ok (FlowRequest command nativeOpFlowValueMGet (BodyValueMGet refs maxBytes) false)
  | None => Err (Refused BadReference)
  end.

(** ** FLOW.QUERY *)

Definition argVal (a : arg) : option val := match a with Arg v => Some v | ArgMarker _ => None end.

(** [buildFlowQueryRequestNative]; the context marker is no parameter. *)
Definition buildFlowQueryRequestNative : builder := fun args =>
  match mapM argVal args with
  | None => Err (Refused (BadQuery QueryParameterValue))
  | Some args =>
      match buildFlowQueryRequest args with
      | Ok payload => Ok (FlowRequest (go "FLOW.QUERY") nativeOpFlowQuery (BodyQuery payload) false)
      | Err e => Err (Refused (BadQuery e))
      end
  end.

(** ** The table of [buildFlowNativeCommand] *)

(** Commands with options of mutations: opcode and leading fields. *)
Definition adminCommands : list (gstr * (Z * list gstr)) := [
  (go "FLOW.CREATE", (nativeOpFlowCreate, [go "id"]));
  (go "FLOW.COMPLETE", (nativeOpFlowComplete, [go "id"; go "lease_token"]));
  (go "FLOW.TRANSITION", (nativeOpFlowTransition, [go "id"; go "from_state"; go "to_state"]));
  (go "FLOW.RETRY", (nativeOpFlowRetry, [go "id"; go "lease_token"]));
  (go "FLOW.FAIL", (nativeOpFlowFail, [go "id"; go "lease_token"]));
  (go "FLOW.CANCEL", (nativeOpFlowCancel, [go "id"]));
  (go "FLOW.EXTEND_LEASE", (nativeOpFlowExtendLease, [go "id"; go "lease_token"]));
  (go "FLOW.REWIND", (nativeOpFlowRewind, [go "id"]));
  (go "FLOW.POLICY.GET", (nativeOpFlowPolicyGet, [go "type"]));
  (go "FLOW.START_AND_CLAIM", (nativeOpFlowStartAndClaim, [go "id"]));
  (go "FLOW.SIGNAL", (nativeOpFlowSignal, [go "id"]));
  (go "FLOW.STEP_CONTINUE", (nativeOpFlowStepContinue, [go "id"; go "lease_token"; go "from_state"; go "to_state"]));
  (go "FLOW.RUN_STEPS_MANY", (nativeOpFlowRunStepsMany, []));
  (go "FLOW.EFFECT.RESERVE", (nativeOpFlowEffectReserve, [go "id"]));
  (go "FLOW.EFFECT.CONFIRM", (nativeOpFlowEffectConfirm, [go "id"]));
  (go "FLOW.EFFECT.FAIL", (nativeOpFlowEffectFail, [go "id"]));
  (go "FLOW.EFFECT.COMPENSATE", (nativeOpFlowEffectCompensate, [go "id"]));
  (go "FLOW.EFFECT.GET", (nativeOpFlowEffectGet, [go "id"]));
  (go "FLOW.GOVERNANCE.LEDGER", (nativeOpFlowGovernanceLedger, [go "id"]));
  (go "FLOW.APPROVAL.REQUEST", (nativeOpFlowApprovalRequest, [go "id"]));
  (go "FLOW.APPROVAL.APPROVE", (nativeOpFlowApprovalApprove, [go "id"]));
  (go "FLOW.APPROVAL.REJECT", (nativeOpFlowApprovalReject, [go "id"]));
  (go "FLOW.APPROVAL.GET", (nativeOpFlowApprovalGet, [go "id"]));
  (go "FLOW.APPROVAL.LIST", (nativeOpFlowApprovalList, []));
  (go "FLOW.GOVERNANCE.OVERVIEW", (nativeOpFlowGovernanceOverview, []));
  (go "FLOW.CIRCUIT.OPEN", (nativeOpFlowCircuitOpen, [go "scope"]));
  (go "FLOW.CIRCUIT.CLOSE", (nativeOpFlowCircuitClose, [go "scope"]));
  (go "FLOW.CIRCUIT.GET", (nativeOpFlowCircuitGet, [go "scope"]));
  (go "FLOW.BUDGET.RESERVE", (nativeOpFlowBudgetReserve, [go "scope"]));
  (go "FLOW.BUDGET.COMMIT", (nativeOpFlowBudgetCommit, [go "scope"]));
  (go "FLOW.BUDGET.RELEASE", (nativeOpFlowBudgetRelease, [go "scope"]));
  (go "FLOW.BUDGET.GET", (nativeOpFlowBudgetGet, [go "scope"]));
  (go "FLOW.BUDGET.LIST", (nativeOpFlowBudgetList, []));
  (go "FLOW.LIMIT.LEASE", (nativeOpFlowLimitLease, [go "scope"]));
  (go "FLOW.LIMIT.SPEND", (nativeOpFlowLimitSpend, [go "scope"]));
  (go "FLOW.LIMIT.RELEASE", (nativeOpFlowLimitRelease, [go "scope"]));
  (go "FLOW.LIMIT.GET", (nativeOpFlowLimitGet, [go "scope"]));
  (go "FLOW.LIMIT.LIST", (nativeOpFlowLimitList, []))].

(** Commands with options of reads: opcode and shape. *)
Definition readCommands : list (gstr * (Z * nativeFlowQueryShape)) := [
  (go "FLOW.GET", (nativeOpFlowGet, QueryShape [go "id"] false));
  (go "FLOW.HISTORY", (nativeOpFlowHistory, QueryShape [go "id"] false));
  (go "FLOW.RECLAIM", (nativeOpFlowReclaim, QueryShape [go "type"] true));
  (go "FLOW.INFO", (nativeOpFlowInfo, QueryShape [go "type"] false));
  (go "FLOW.RETENTION_CLEANUP", (nativeOpFlowRetentionCleanup, QueryShape [] false));
  (go "FLOW.STATS", (nativeOpFlowStats, QueryShape [go "type"] false));
  (go "FLOW.ATTRIBUTES", (nativeOpFlowAttributes, QueryShape [go "type"] false));
  (go "FLOW.ATTRIBUTE_VALUES", (nativeOpFlowAttributeValues, QueryShape [go "type"; go "attribute"] false))].

(** Commands with options of schedules: opcode, and whether an identifier leads. *)
Definition scheduleCommands : list (gstr * (Z * bool)) := [
  (go "FLOW.SCHEDULE.CREATE", (nativeOpFlowScheduleCreate, true));
  (go "FLOW.SCHEDULE.GET", (nativeOpFlowScheduleGet, true));
  (go "FLOW.SCHEDULE.FIRE", (nativeOpFlowScheduleFire, true));
  (go "FLOW.SCHEDULE.PAUSE", (nativeOpFlowSchedulePause, true));
  (go "FLOW.SCHEDULE.RESUME", (nativeOpFlowScheduleResume, true));
  (go "FLOW.SCHEDULE.DELETE", (nativeOpFlowScheduleDelete, true));
  (go "FLOW.SCHEDULE.FIRE_DUE", (nativeOpFlowScheduleFireDue, false));
  (go "FLOW.SCHEDULE.LIST", (nativeOpFlowScheduleList, false))].

(** Mutations of batches. *)
Definition manyCommands : list (gstr * (Z * nativeFlowManyItemKind)) := [
  (go "FLOW.TRANSITION_MANY", (nativeOpFlowTransitionMany, nativeFlowManyTransition));
  (go "FLOW.RETRY_MANY", (nativeOpFlowRetryMany, nativeFlowManyClaimed));
  (go "FLOW.FAIL_MANY", (nativeOpFlowFailMany, nativeFlowManyClaimed));
  (go "FLOW.CANCEL_MANY", (nativeOpFlowCancelMany, nativeFlowManyCancel))].

(** Commands with builders of their own. *)
Definition ownCommands : list (gstr * builder) := [
  (go "FLOW.POLICY.SET", buildFlowPolicySetNative);
  (go "FLOW.SPAWN_CHILDREN", buildFlowSpawnChildrenNative);
  (go "FLOW.CREATE_MANY", buildFlowCreateManyNative);
  (go "FLOW.CLAIM_DUE", buildFlowClaimDueAnyNative);
  (go "FLOW.QUERY", buildFlowQueryRequestNative);
  (go "FLOW.COMPLETE_MANY", buildFlowCompleteManyAnyNative);
  (go "FLOW.VALUE.PUT", buildFlowValuePutNative);
  (go "FLOW.VALUE.MGET", buildFlowValueMGetNative)].

Definition flowBuilder (name : gstr) : option builder :=
  match assoc_get name adminCommands, assoc_get name readCommands, assoc_get name scheduleCommands, assoc_get name manyCommands with
  | Some (opcode, fields), _, _, _ => Some (buildFlowAdminNative name opcode fields)
  | None, Some (opcode, shape), _, _ => Some (buildFlowQueryNative name opcode shape)
  | None, None, Some (opcode, requireID), _ => Some (buildFlowScheduleOptionsNative name opcode requireID)
  | None, None, None, Some (opcode, kind) => Some (buildFlowMutationManyNative name opcode kind)
  | None, None, None, None => assoc_get name ownCommands
  end.

Definition buildFlowNativeCommand (name : gstr) : builder := fun args =>
  match flowBuilder name with Some build => build args | None => Err Declined end.

End Builders.
