(* ===== verification/FlowOptions.v ===== *)
(** The options of Flow commands on both sides: how the client writes them into an argument
    list (the [append] functions of src/client.go and src/flow_admin_helpers.go), and what
    the native builders read from it. A list of options is described by its segments; the
    builders read from the arguments of distinct segments the fields they name. *)

From S2P Require Export FlowNative.

(** ** Writing options *)

Definition txt (s : gstr) : arg := Arg (VString s).
Definition tok (s : String.string) : arg := txt (go s).
Definition int64 (z : Z) : arg := Arg (VInt IInt64 z).
Definition int (z : Z) : arg := Arg (VInt IInt z).

(** An option that is written with its value when it has one. *)
Definition optionArgs (name : String.string) (value : option arg) : list arg :=
  match value with Some a => [tok name; a] | None => [] end.

(** What [appendOpt] writes: nothing for nil and for the empty string. A nil [[]byte], which
    is not written either, is no value of the model. *)
Definition written (value : val) : option arg :=
  match value with VNil | VString [] => None | _ => Some (Arg value) end.

Definition appendOpt (name : String.string) (value : val) : list arg := optionArgs name (written value).
Definition appendText (name : String.string) (value : gstr) : list arg := appendOpt name (VString value).
Definition appendInt64Ptr (name : String.string) (value : option Z) : list arg := optionArgs name (int64 <$> value).
Definition appendIntPtr (name : String.string) (value : option Z) : list arg := optionArgs name (int <$> value).

Definition boolText (b : bool) : arg := if b then tok "true" else tok "false".
Definition appendBoolPtr (name : String.string) (value : option bool) : list arg := optionArgs name (boolText <$> value).

(** [if value != 0 { appendOpt(&args, name, value) }] *)
Definition nonZero (z : Z) : option Z := if z =? 0 then None else Some z.
Definition appendNonZero (name : String.string) (z : Z) : list arg := appendInt64Ptr name (nonZero z).

Definition appendPairs (name : String.string) (entries : list (gstr * arg)) : list arg :=
  flat_map (fun e => [tok name; txt e.1; e.2]) entries.
Definition appendNames (name : String.string) (names : list gstr) : list arg := flat_map (fun s => [tok name; txt s]) names.

(** Metadata under trimmed names. *)
Definition trimmedArgs (m : valueMap) : list (gstr * arg) := prod_map canonicalFlowMetadataKey Arg <$> m.

Definition appendAttributes (attributes attributesMerge : valueMap) (attributesDelete : list gstr) : list arg :=
  appendPairs "ATTRIBUTE" (trimmedArgs attributes) ++ appendPairs "ATTRIBUTE_MERGE" (trimmedArgs attributesMerge) ++
  appendNames "ATTRIBUTE_DELETE" (canonicalFlowMetadataKey <$> attributesDelete).

Definition appendStateMeta (stateMeta : valueMap) : list arg := appendPairs "STATE_META" (trimmedArgs stateMeta).

(** [appendPayloadRead]. *)
Definition appendPayloadRead (payload : option bool) (maxBytes : option Z) : list arg :=
  match payload with
  | Some false => [tok "NOPAYLOAD"]
  | _ => (if bool_decide (is_Some payload) || bool_decide (is_Some maxBytes) then [tok "PAYLOAD"] else []) ++
         appendInt64Ptr "MAXBYTES" maxBytes
  end.

Definition appendValueReturn : list gstr -> list arg := appendNames "VALUE".

(** ** Segments *)

(** The payload that has the given fields. *)
Abbreviation fieldList := (list (String.string * option pval)).

Definition putField (m : payloadMap) (field : String.string * option pval) : payloadMap :=
  match field.2 with Some v => <[go field.1 := v]> m | None => m end.

Definition fieldsOf (fields : fieldList) : payloadMap := foldl putField ∅ fields.

(** The map of a list of entries; of entries under one name the last stands. *)
Definition entryMap (entries : list (gstr * pval)) : payloadMap := foldl (fun m e => <[e.1 := e.2]> m) ∅ entries.

Definition mapField (entries : list (gstr * pval)) : option pval :=
  match entries with [] => None | _ => Some (PMap (entryMap entries)) end.
Definition namesField (names : list gstr) : option pval := match names with [] => None | _ => Some (PStrings names) end.

(** What an option carries. *)
Inductive optionValue :=
| OArg (value : option arg)
| OFlag (value : option bool)
| OPairs (entries : list (gstr * arg))
| ONames (names : list gstr)
| OPayload (wanted : option bool)      (* PAYLOAD or NOPAYLOAD *)
| OCounted (names : list gstr).        (* a count, and the names *)

Record optionSegment := Seg { sg_token : String.string; sg_field : String.string; sg_value : optionValue }.

Definition segmentArgs (s : optionSegment) : list arg :=
  match sg_value s with
  | OArg a => optionArgs (sg_token s) a
  | OFlag b => optionArgs (sg_token s) (boolText <$> b)
  | OPairs entries => appendPairs (sg_token s) entries
  | ONames names => appendNames (sg_token s) names
  | OPayload wanted => match wanted with Some b => [tok (if b then "PAYLOAD" else "NOPAYLOAD")] | None => [] end
  | OCounted names => match names with [] => [] | _ => tok (sg_token s) :: int (blen names) :: (txt <$> names) end
  end.

Definition segmentValue (s : optionSegment) : option pval :=
  match sg_value s with
  | OArg a => PArg <$> a
  | OFlag b => PBool <$> b
  | OPairs entries => mapField (prod_map id PArg <$> entries)
  | ONames names | OCounted names => namesField names
  | OPayload wanted => PBool <$> wanted
  end.

Definition segmentField (s : optionSegment) : String.string * option pval := (sg_field s, segmentValue s).

Fixpoint noRepeatedNames (l : list String.string) : bool :=
  match l with [] => true | x :: l => negb (bool_decide (x ∈ l)) && noRepeatedNames l end.

(** A token and the field it stands for among the options of mutations. *)
Definition mutationToken (s : optionSegment) : bool :=
  let token := go (sg_token s) in
  let field := go (sg_field s) in
  bool_decide (to_upper token = token) &&
  match sg_value s with
  | OPairs _ => bool_decide (flowAdminMapField token = Some field)
  | ONames _ => bool_decide (flowAdminMapField token = None) && bool_decide (flowAdminListField token = Some field)
  | OArg _ =>
      bool_decide (flowAdminMapField token = None) && bool_decide (flowAdminListField token = None) &&
      bool_decide (flowAdminNativeField token = Some field) && negb (bool_decide (field ∈ booleanFields))
  | OFlag _ =>
      bool_decide (flowAdminMapField token = None) && bool_decide (flowAdminListField token = None) &&
      bool_decide (flowAdminNativeField token = Some field) && bool_decide (field ∈ booleanFields)
  | OPayload _ | OCounted _ => false
  end.

Definition mutationSegments (leading : list String.string) (segments : list optionSegment) : bool :=
  forallb mutationToken segments && noRepeatedNames (leading ++ (sg_field <$> segments)).

(** The same among the options of reads and claims. *)
Definition readToken (shape : nativeFlowQueryShape) (s : optionSegment) : bool :=
  let token := go (sg_token s) in
  let field := go (sg_field s) in
  bool_decide (to_upper token = token) &&
  match sg_value s, readOptionOf shape token with
  | OArg _, ReadField => bool_decide (flowAdminNativeField token = Some field) && negb (bool_decide (field ∈ booleanFields))
  | OFlag _, ReadField => bool_decide (flowAdminNativeField token = Some field) && bool_decide (field ∈ booleanFields)
  | OPairs _, ReadAttribute => bool_decide (field = go "attributes")
  | ONames _, ReadValue => bool_decide (field = go "values")
  | ONames _, ReadState => bool_decide (field = go "states")
  | OPayload _, ReadPayload true => bool_decide (field = go "payload")
  | OCounted _, ReadPartitions => bool_decide (field = go "partition_keys")
  | _, _ => false
  end.

Definition readSegments (shape : nativeFlowQueryShape) (leading : list String.string) (segments : list optionSegment) : bool :=
  forallb (readToken shape) segments && noRepeatedNames (leading ++ (sg_field <$> segments)).

(** Options that may stand before the items of a batch: none is taken for their marker. *)
Definition itemMarkers : list gstr := go <$> ["ITEMS"; "ITEMS_EXT"; "ITEMS_MAPS"]%string.

Definition beforeItems (s : optionSegment) : bool :=
  let token := go (sg_token s) in
  bool_decide (to_upper token = token) && negb (bool_decide (token ∈ itemMarkers)) &&
  match sg_value s with
  | OArg _ | OFlag _ | ONames _ => negb (wideOption token)
  | OPairs _ => wideOption token
  | OPayload _ | OCounted _ => false
  end.

(** ** Reading segments *)

#[global] Instance go_inj : Inj (=) (=) go.
Proof.
  intros s t H. rewrite <- (String.string_of_list_byte_of_string s), <- (String.string_of_list_byte_of_string t).
  unfold go in H. by rewrite H.
Qed.

Lemma fieldsOf_app fields more : fieldsOf (fields ++ more) = foldl putField (fieldsOf fields) more.
Proof. apply foldl_app. Qed.

Lemma putField_none m field : putField m (field, None) = m.
Proof. done. Qed.

Lemma putFields_lookup_ne fields m field : field ∉ fields.*1 -> foldl putField m fields !! go field = m !! go field.
Proof.
  revert m. induction fields as [|[f v] fields IH]; intros m H; [done|]. cbn in *.
  apply not_elem_of_cons in H as [Hf H]. rewrite IH by done. unfold putField. cbn.
  destruct v; [|done]. apply lookup_insert_ne. intros E. apply (inj go) in E. done.
Qed.

Lemma fieldsOf_missing fields field : field ∉ fields.*1 -> fieldsOf fields !! go field = None.
Proof. intros H. unfold fieldsOf. rewrite putFields_lookup_ne by done. apply lookup_empty. Qed.

Lemma distinctNames_app l k : noRepeatedNames (l ++ k) = true -> forall x, x ∈ k -> x ∉ l.
Proof.
  induction l as [|y l IH]; intros H x Hx; [apply not_elem_of_nil|]. cbn in H. apply andb_true_iff in H as [H1 H2].
  apply not_elem_of_cons. split; [|by apply IH].
  intros ->. apply negb_true_iff, bool_decide_eq_false in H1. apply H1, elem_of_app. by right.
Qed.

Lemma distinctNames_front l k : noRepeatedNames (l ++ k) = true -> noRepeatedNames l = true.
Proof.
  induction l as [|y l IH]; [done|]. cbn. rewrite !andb_true_iff, !negb_true_iff, !bool_decide_eq_false, elem_of_app.
  intros [H1 H2]. split; [tauto|by apply IH].
Qed.

Lemma segments_leading (token : optionSegment -> bool) leading segments :
  forallb token segments && noRepeatedNames (leading ++ (sg_field <$> segments)) = true -> noRepeatedNames leading = true.
Proof. intros H. apply andb_true_iff in H as [_ H]. by eapply distinctNames_front. Qed.

Section Reading.
Context (sprint : val -> gstr).

Abbreviation readMutation := (appendFlowAdminOptions sprint).

Lemma token_upper token : to_upper (go token) = go token -> argToken sprint (tok token) = go token.
Proof. done. Qed.

(** A pair added to the map under a field. *)
Lemma putNativeMapValue_next payload field (entries : list (gstr * pval)) k v :
  payload !! field = None ->
  putNativeMapValue (match mapField entries with Some m => <[field := m]> payload | None => payload end) field k v =
  <[field := PMap (entryMap (entries ++ [(k, v)]))]> payload.
Proof.
  intros H. unfold putNativeMapValue, entryMap. rewrite foldl_app. cbn.
  destruct entries as [|e entries]; cbn.
  - by rewrite H.
  - by rewrite lookup_insert_eq, insert_insert_eq.
Qed.

Lemma putNativeListValue_next payload field names name :
  payload !! field = None ->
  putNativeListValue (match namesField names with Some m => <[field := m]> payload | None => payload end) field name =
  <[field := PStrings (names ++ [name])]> payload.
Proof.
  intros H. unfold putNativeListValue. destruct names as [|n names]; cbn.
  - by rewrite H.
  - by rewrite lookup_insert_eq, insert_insert_eq.
Qed.

(** The pairs and the names of one option, in a loop of their own. *)
Lemma putPairs payload field entries : forall before, payload !! field = None ->
  foldl (fun m e => putNativeMapValue m field e.1 e.2)
    (match mapField before with Some m => <[field := m]> payload | None => payload end) entries =
  match mapField (before ++ entries) with Some m => <[field := m]> payload | None => payload end.
Proof.
  induction entries as [|[k v] entries IH]; intros before H; [by rewrite app_nil_r|].
  cbn. rewrite putNativeMapValue_next by done.
  specialize (IH (before ++ [(k, v)]) H). rewrite <- app_assoc in IH. cbn in IH.
  rewrite <- IH. f_equal. destruct before; done.
Qed.

Lemma putNames payload field names : forall before, payload !! field = None ->
  foldl (fun m name => putNativeListValue m field name)
    (match namesField before with Some m => <[field := m]> payload | None => payload end) names =
  match namesField (before ++ names) with Some m => <[field := m]> payload | None => payload end.
Proof.
  induction names as [|n names IH]; intros before H; [by rewrite app_nil_r|].
  cbn. rewrite putNativeListValue_next by done.
  specialize (IH (before ++ [n]) H). rewrite <- app_assoc in IH. cbn in IH.
  rewrite <- IH. f_equal. destruct before; done.
Qed.

(** One option of each kind. *)
Lemma read_option payload token a rest :
  argToken sprint (tok token) = go token -> flowAdminMapField (go token) = None -> flowAdminListField (go token) = None ->
  readMutation payload (tok token :: a :: rest) =
  (let! payload := putAdminOption payload (go token) a in readMutation payload rest).
Proof. intros Ht Hm Hl. cbn [appendFlowAdminOptions]. cbv zeta. by rewrite Ht, Hm, Hl. Qed.

Lemma read_pair payload token field k a rest :
  argToken sprint (tok token) = go token -> flowAdminMapField (go token) = Some field ->
  readMutation payload (tok token :: txt k :: a :: rest) = readMutation (putNativeMapValue payload field k (PArg a)) rest.
Proof.
  intros Ht Hm. cbn [appendFlowAdminOptions]. cbv zeta. rewrite Ht, Hm. cbn [isMapArg txt].
  by rewrite andb_false_r.
Qed.

Lemma read_name payload token field name rest :
  argToken sprint (tok token) = go token -> flowAdminMapField (go token) = None -> flowAdminListField (go token) = Some field ->
  readMutation payload (tok token :: txt name :: rest) = readMutation (putNativeListValue payload field name) rest.
Proof. intros Ht Hm Hl. cbn [appendFlowAdminOptions]. cbv zeta. by rewrite Ht, Hm, Hl. Qed.

Lemma boolText_read b : nativeFlowBool (boolText b) = Some b.
Proof. by destruct b. Qed.

Lemma putAdminOption_plain payload token field a :
  flowAdminNativeField token = Some field -> field ∉ booleanFields ->
  putAdminOption payload token a = Ok (<[field := PArg a]> payload).
Proof.
  intros Hf Hb. unfold putAdminOption. rewrite Hf. unfold flowAdminNativeValue.
  by rewrite bool_decide_eq_false_2.
Qed.

Lemma putAdminOption_flag payload token field b :
  flowAdminNativeField token = Some field -> field ∈ booleanFields ->
  putAdminOption payload token (boolText b) = Ok (<[field := PBool b]> payload).
Proof.
  intros Hf Hb. unfold putAdminOption. rewrite Hf. unfold flowAdminNativeValue.
  rewrite bool_decide_eq_true_2 by done. by destruct b.
Qed.

(** What reading one segment does to a payload. *)
Lemma readMutation_segment s payload rest :
  mutationToken s = true -> payload !! go (sg_field s) = None ->
  readMutation payload (segmentArgs s ++ rest) = readMutation (putField payload (segmentField s)) rest.
Proof.
  destruct s as [token field value]. unfold mutationToken, segmentArgs, segmentField, putField, segmentValue.
  cbn [sg_token sg_field sg_value fst snd].
  intros H Hnone. apply andb_true_iff in H as [Hup H]. apply bool_decide_eq_true in Hup.
  assert (Ht : argToken sprint (tok token) = go token) by exact Hup.
  destruct value as [o|o|entries|names|w|names]; try done; repeat (apply andb_true_iff in H as [H ?]);
    repeat match goal with h : bool_decide _ = true |- _ => apply bool_decide_eq_true in h end.
  - destruct o as [a|]; [|done]. cbn [optionArgs app fmap option_fmap option_map].
    rewrite read_option, (putAdminOption_plain _ _ (go field)) by (done || by apply negb_true_iff, bool_decide_eq_false in H0). done.
  - destruct o as [b|]; [|done]. cbn [optionArgs app fmap option_fmap option_map].
    rewrite read_option, (putAdminOption_flag _ _ (go field)) by done. done.
  - pose proof (putPairs payload (go field) (prod_map id PArg <$> entries) [] Hnone) as E. cbn [mapField app] in E.
    rewrite <- E. clear E Hnone. revert payload. unfold appendPairs.
    induction entries as [|[k a] entries IH]; intros payload; [done|].
    cbn [flat_map app fst snd]. rewrite (read_pair _ _ (go field)) by done. apply IH.
  - pose proof (putNames payload (go field) names [] Hnone) as E. cbn [namesField app] in E.
    rewrite <- E. clear E Hnone. revert payload. unfold appendNames.
    induction names as [|n names IH]; intros payload; [done|].
    cbn [flat_map app]. rewrite (read_name _ _ (go field)) by done. apply IH.
Qed.

(** The segments of a command, behind its leading fields. *)
Lemma readMutation_segments segments : forall leading,
  mutationSegments leading.*1 segments = true ->
  readMutation (fieldsOf leading) (flat_map segmentArgs segments) = Ok (fieldsOf (leading ++ (segmentField <$> segments))).
Proof.
  induction segments as [|s segments IH]; intros leading H; [by rewrite app_nil_r|].
  unfold mutationSegments in H. apply andb_true_iff in H as [Ht Hd]. cbn in Ht. apply andb_true_iff in Ht as [Hs Ht].
  cbn [flat_map]. rewrite readMutation_segment; [|done|].
  - change (putField (fieldsOf leading) (segmentField s)) with (foldl putField (fieldsOf leading) [segmentField s]).
    rewrite <- fieldsOf_app, IH; [by rewrite <- app_assoc|].
    unfold mutationSegments. rewrite Ht. cbn [andb]. rewrite fmap_app, <- app_assoc. exact Hd.
  - apply fieldsOf_missing. intros Hin. eapply distinctNames_app; [exact Hd| |exact Hin]. cbn. left.
Qed.

(** ** Reading the options of reads and claims *)

(** More fuel than arguments changes nothing. *)
Lemma appendFlowQueryOptions_fuel shape fuel : forall fuel' payload args,
  (length args <= fuel)%nat -> (length args <= fuel')%nat ->
  appendFlowQueryOptions sprint fuel shape payload args = appendFlowQueryOptions sprint fuel' shape payload args.
Proof.
  induction fuel as [|fuel IH]; intros fuel' payload args H H'.
  - destruct args; [|cbn in H; lia]. by destruct fuel'.
  - destruct args as [|a rest]; [by destruct fuel'|]. destruct fuel' as [|fuel']; [cbn in H'; lia|].
    cbn [length] in H, H'. cbn [appendFlowQueryOptions]. cbv zeta.
    destruct (readOptionOf shape (argToken sprint a)); destruct rest as [|b rest]; try done;
      try (apply IH; cbn [length] in *; lia).
    + destruct (argResponseInt64 b) as [count|]; [|done]. destruct (_ || _); [done|].
      apply IH; cbn [length] in *; unfold bdrop; rewrite length_drop; lia.
    + destruct rest as [|c rest]; [done|]. apply IH; cbn [length] in *; lia.
    + cbn [length] in *. destruct (putAdminOption payload (argToken sprint a) b) as [p|]; [|done]. cbn [rbind]. apply IH; lia.
Qed.

Definition readQuery (shape : nativeFlowQueryShape) (payload : payloadMap) (args : list arg) : result notBuilt payloadMap :=
  appendFlowQueryOptions sprint (length args) shape payload args.

Lemma readQuery_step shape payload a rest token :
  argToken sprint a = token ->
  readQuery shape payload (a :: rest) =
  match readOptionOf shape token, rest with
  | ReadPayload wanted, _ => readQuery shape (<[go "payload" := PBool wanted]> payload) rest
  | ReadValue, name :: rest => readQuery shape (putNativeListValue payload (go "values") (argString sprint name)) rest
  | ReadPartitions, count :: rest =>
      match argResponseInt64 count with
      | Some count =>
          if (count <=? 0) || (blen rest <? count) then Err (Refused (BadCount token))
          else readQuery shape (<[go "partition_keys" := PStrings (argString sprint <$> btake count rest)]> payload) (bdrop count rest)
      | None => Err (Refused (BadCount token))
      end
  | ReadState, state :: rest => readQuery shape (putNativeListValue payload (go "states") (argString sprint state)) rest
  | ReadAttribute, name :: value :: rest =>
      readQuery shape (putNativeMapValue payload (go "attributes") (argString sprint name) (PArg value)) rest
  | ReadField, value :: rest => let! payload := putAdminOption payload token value in readQuery shape payload rest
  | _, _ => Err (Refused (OptionArity token))
  end.
Proof.
  intros <-. unfold readQuery at 1. cbn [length appendFlowQueryOptions]. cbv zeta.
  destruct (readOptionOf shape (argToken sprint a)); destruct rest as [|b rest]; try done;
    try (apply appendFlowQueryOptions_fuel; cbn [length]; lia).
  - destruct (argResponseInt64 b) as [count|]; [|done]. destruct (_ || _); [done|].
    apply appendFlowQueryOptions_fuel; cbn [length]; unfold bdrop; rewrite ?length_drop; lia.
  - destruct rest as [|c rest]; [done|]. apply appendFlowQueryOptions_fuel; cbn [length]; lia.
  - destruct (putAdminOption payload (argToken sprint a) b) as [p|]; [|done]. cbn [rbind].
    apply appendFlowQueryOptions_fuel; cbn [length]; lia.
Qed.

Lemma argStrings_txt (names : list gstr) : argString sprint <$> (txt <$> names) = names.
Proof. rewrite <- list_fmap_compose. apply list_fmap_id. Qed.

Lemma readQuery_names shape read field token names rest :
  argToken sprint (tok token) = go token ->
  (forall payload name rest, readQuery shape payload (tok token :: txt name :: rest) =
    readQuery shape (putNativeListValue payload (go field) name) rest) ->
  forall payload, payload !! go field = None -> read = putField payload (field, namesField names) ->
  readQuery shape payload (appendNames token names ++ rest) = readQuery shape read rest.
Proof.
  intros Ht Hstep payload Hnone ->. pose proof (putNames payload (go field) names [] Hnone) as E. cbn [namesField app] in E.
  unfold putField. cbn [fst snd]. rewrite <- E. clear E Hnone. revert payload. unfold appendNames.
  induction names as [|n names IH]; intros payload; [done|]. cbn [flat_map app]. rewrite Hstep. apply IH.
Qed.

Lemma readQuery_segment shape s payload rest :
  readToken shape s = true -> payload !! go (sg_field s) = None ->
  readQuery shape payload (segmentArgs s ++ rest) = readQuery shape (putField payload (segmentField s)) rest.
Proof.
  destruct s as [token field value]. unfold readToken, segmentArgs, segmentField, segmentValue. cbn [sg_token sg_field sg_value].
  intros H Hnone. apply andb_true_iff in H as [Hup H]. apply bool_decide_eq_true in Hup.
  assert (Ht : argToken sprint (tok token) = go token) by exact Hup.
  destruct value as [o|o|entries|names|w|names]; destruct (readOptionOf shape (go token)) as [[|]| | | | |] eqn:Hread; try done;
    try (apply andb_true_iff in H as [H Hb]); apply bool_decide_eq_true in H;
    try (apply negb_true_iff, bool_decide_eq_false in Hb || apply bool_decide_eq_true in Hb);
    try (apply (inj go) in H; subst field).
  - destruct o as [a|]; [|done]. cbn [optionArgs app fmap option_fmap option_map].
    by rewrite (readQuery_step _ _ _ _ _ Ht), Hread, (putAdminOption_plain _ _ (go field)).
  - destruct o as [b|]; [|done]. cbn [optionArgs app fmap option_fmap option_map].
    by rewrite (readQuery_step _ _ _ _ _ Ht), Hread, (putAdminOption_flag _ _ (go field)).
  - pose proof (putPairs payload (go "attributes") (prod_map id PArg <$> entries) [] Hnone) as E. cbn [mapField app] in E.
    unfold putField. cbn [fst snd]. rewrite <- E. clear E Hnone. revert payload. unfold appendPairs.
    induction entries as [|[k a] entries IH]; intros payload; [done|].
    cbn [flat_map app fst snd]. rewrite (readQuery_step _ _ _ _ _ Ht), Hread. apply IH.
  - eapply readQuery_names; try done. intros p name r. by rewrite (readQuery_step _ _ _ _ _ Ht), Hread.
  - eapply readQuery_names; try done. intros p name r. by rewrite (readQuery_step _ _ _ _ _ Ht), Hread.
  - destruct w as [[|]|]; [| |done]; cbn [app]; by rewrite (readQuery_step _ _ _ _ _ eq_refl).
  - destruct names as [|n names]; [done|]. cbn [app]. rewrite (readQuery_step _ _ _ _ _ Ht), Hread.
    change (argResponseInt64 (int (blen (n :: names)))) with (Some (blen (n :: names))). cbv iota.
    rewrite (btake_app (txt <$> n :: names)), (bdrop_app (txt <$> n :: names)), argStrings_txt
      by (unfold blen; by rewrite length_fmap).
    replace ((_ <=? 0) || _) with false; [done|]. symmetry. unfold blen. apply orb_false_iff.
    rewrite length_app, length_fmap. cbn [length]. split; [apply Z.leb_gt|apply Z.ltb_ge]; lia.
Qed.

Lemma readQuery_segments shape segments : forall leading,
  readSegments shape leading.*1 segments = true ->
  readQuery shape (fieldsOf leading) (flat_map segmentArgs segments) = Ok (fieldsOf (leading ++ (segmentField <$> segments))).
Proof.
  induction segments as [|s segments IH]; intros leading H; [by rewrite app_nil_r|].
  unfold readSegments in H. apply andb_true_iff in H as [Ht Hd]. cbn in Ht. apply andb_true_iff in Ht as [Hs Ht].
  cbn [flat_map]. rewrite readQuery_segment; [|done|].
  - change (putField (fieldsOf leading) (segmentField s)) with (foldl putField (fieldsOf leading) [segmentField s]).
    rewrite <- fieldsOf_app, IH; [by rewrite <- app_assoc|].
    unfold readSegments. rewrite Ht. cbn [andb]. rewrite fmap_app, <- app_assoc. exact Hd.
  - apply fieldsOf_missing. intros Hin. eapply distinctNames_app; [exact Hd| |exact Hin]. cbn. left.
Qed.

(** ** Whole commands *)

Lemma putFields_insert field v fields : forall m, field ∉ fields.*1 ->
  foldl putField (<[go field := v]> m) fields = <[go field := v]> (foldl putField m fields).
Proof.
  induction fields as [|[f w] fields IH]; intros m H; [done|]. cbn in *. apply not_elem_of_cons in H as [Hf H].
  unfold putField at 2 4. cbn. destruct w as [w|]; [|by apply IH].
  rewrite insert_insert_ne by (intros E; apply (inj go) in E; done). by apply IH.
Qed.

(** Leading arguments as fields. *)
Definition leadingFieldsOf (names : list String.string) (values : list arg) : fieldList :=
  zip_with (fun name a => (name, Some (PArg a))) names values.

Lemma leadingFieldsOf_names names : forall values, length names = length values -> (leadingFieldsOf names values).*1 = names.
Proof. induction names as [|n names IH]; intros [|a values] H; try done. cbn. f_equal. apply IH. by injection H. Qed.

Lemma leadingPayload_fields names : forall values rest, length names = length values -> noRepeatedNames names = true ->
  leadingPayload (go <$> names) (values ++ rest) = fieldsOf (leadingFieldsOf names values).
Proof.
  induction names as [|n names IH]; intros [|a values] rest H Hd; try done. cbn in Hd. apply andb_true_iff in Hd as [Hn Hd].
  apply negb_true_iff, bool_decide_eq_false in Hn. injection H as H. cbn [leadingPayload fmap list_fmap app].
  rewrite (IH values rest H Hd). unfold fieldsOf. cbn. unfold putField at 2. cbn. symmetry. apply putFields_insert.
  by rewrite leadingFieldsOf_names.
Qed.

Lemma withLeading_segments (name : gstr) (names : list String.string) (values : list arg) (segments : list optionSegment)
    (options : payloadMap -> list arg -> result notBuilt payloadMap) (m : payloadMap) :
  length names = length values -> noRepeatedNames names = true ->
  options (fieldsOf (leadingFieldsOf names values)) (flat_map segmentArgs segments) = Ok m ->
  withLeading name (go <$> names) (values ++ flat_map segmentArgs segments) options = Ok m.
Proof.
  intros Hl Hd Ho. unfold withLeading. rewrite length_app, length_fmap.
  replace (_ <? _)%nat with false by (symmetry; apply Nat.ltb_ge; lia).
  rewrite leadingPayload_fields by done. by rewrite Hl, drop_app_length.
Qed.

(** A command with options of mutations. *)
Lemma buildFlowAdminNative_segments name opcode names values segments :
  length names = length values -> mutationSegments names segments = true ->
  buildFlowAdminNative sprint name opcode (go <$> names) (values ++ flat_map segmentArgs segments) =
  Ok (mapRequest name opcode (fieldsOf (leadingFieldsOf names values ++ (segmentField <$> segments)))).
Proof.
  intros Hl H. unfold buildFlowAdminNative.
  rewrite (withLeading_segments _ _ _ _ _ (fieldsOf (leadingFieldsOf names values ++ (segmentField <$> segments)))); [done|done| |].
  - by eapply segments_leading.
  - apply readMutation_segments. by rewrite leadingFieldsOf_names.
Qed.

(** A command with options of reads. *)
Lemma buildFlowQueryNative_segments name opcode names repeated values segments :
  length names = length values -> readSegments (QueryShape (go <$> names) repeated) names segments = true ->
  buildFlowQueryNative sprint name opcode (QueryShape (go <$> names) repeated) (values ++ flat_map segmentArgs segments) =
  Ok (mapRequest name opcode (fieldsOf (leadingFieldsOf names values ++ (segmentField <$> segments)))).
Proof.
  intros Hl H. unfold buildFlowQueryNative. cbn [leadingFields].
  rewrite (withLeading_segments _ _ _ _ _ (fieldsOf (leadingFieldsOf names values ++ (segmentField <$> segments)))); [done|done| |].
  - by eapply segments_leading.
  - apply (readQuery_segments (QueryShape (go <$> names) repeated)). by rewrite leadingFieldsOf_names.
Qed.

(** The options before the marker of items. *)
Lemma flowItemMarker_items marker items :
  argToken sprint (tok marker) = go marker -> go marker ∈ go <$> ["ITEMS"; "ITEMS_EXT"; "ITEMS_MAPS"]%string ->
  flowItemMarker sprint (tok marker :: items) = Some ([], go marker, items).
Proof. intros Ht Hin. cbn [flowItemMarker]. cbv zeta. rewrite Ht. by rewrite bool_decide_eq_true_2. Qed.

Definition behind (args : list arg) (r : option (list arg * gstr * list arg)) : option (list arg * gstr * list arg) :=
  match r with Some (options, token, items) => Some (args ++ options, token, items) | None => None end.

Lemma behind_app args more r : behind (args ++ more) r = behind args (behind more r).
Proof. destruct r as [[[options token] items]|]; [|done]. cbn. by rewrite app_assoc. Qed.

Lemma flowItemMarker_segment s rest :
  beforeItems s = true -> flowItemMarker sprint (segmentArgs s ++ rest) = behind (segmentArgs s) (flowItemMarker sprint rest).
Proof.
  destruct s as [token field value]. unfold beforeItems, segmentArgs. cbn [sg_token sg_field sg_value].
  intros H. apply andb_true_iff in H as [H Hw]. apply andb_true_iff in H as [Hup Hm].
  apply bool_decide_eq_true in Hup. apply negb_true_iff in Hm.
  assert (Ht : argToken sprint (tok token) = go token) by exact Hup.
  assert (narrow : wideOption (go token) = false -> forall a k,
    flowItemMarker sprint (tok token :: a :: k) = behind [tok token; a] (flowItemMarker sprint k)).
  { intros Hnw a k. cbn [flowItemMarker]. cbv zeta. rewrite Ht, Hnw. fold itemMarkers. rewrite Hm. by destruct (flowItemMarker sprint k) as [[[]]|]. }
  assert (nothing : forall r, r = behind [] r) by (by intros [[[]]|]).
  destruct value as [o|o|entries|names|w|names]; try done; try (apply negb_true_iff in Hw; specialize (narrow Hw)).
  - destruct o as [a|]; [apply narrow|apply nothing].
  - destruct o as [b|]; [apply narrow|apply nothing].
  - unfold appendPairs. induction entries as [|[k a] entries IH]; [apply nothing|].
    cbn [flat_map app fst snd]. change (?x :: ?y :: ?z :: ?l) with ([x; y; z] ++ l). rewrite behind_app, <- IH.
    cbn [app flowItemMarker]. cbv zeta. rewrite Ht, Hw. fold itemMarkers. rewrite Hm.
    by destruct (flowItemMarker sprint _) as [[[]]|].
  - unfold appendNames. induction names as [|n names IH]; [apply nothing|].
    cbn [flat_map app]. rewrite narrow, IH. by rewrite <- behind_app.
Qed.

(** The options of a batch and its items. *)
Lemma flowItemMarker_batch segments marker items :
  forallb beforeItems segments = true ->
  argToken sprint (tok marker) = go marker -> go marker ∈ itemMarkers ->
  flowItemMarker sprint (flat_map segmentArgs segments ++ tok marker :: items) =
  Some (flat_map segmentArgs segments, go marker, items).
Proof.
  intros H Ht Hin. induction segments as [|s segments IH]; [by apply flowItemMarker_items|].
  cbn [forallb] in H. apply andb_true_iff in H as [Hs H]. cbn [flat_map]. rewrite <- app_assoc, flowItemMarker_segment, IH by done.
  done.
Qed.
End Reading.
