(* ===== verification/FlowClient.v ===== *)
(** The Flow commands of the client: the argument list each sends for its options
    (src/client_flow.go, src/client_flow_mutations.go, src/client_flow_read.go,
    src/flow_admin_read.go), and the native request that the arguments become. *)

From S2P Require Export FlowOptions.

Inductive clientError :=
| Invalid (e : flowError)
| EncodingFailed
| MixedPartition.

Definition checkedBy {A} (m : result flowError A) : result clientError A :=
  match m with Ok a => Ok a | Err e => Err (Invalid e) end.

Section Client.
(** The client's codec, [None] where it fails, whether its calls are put in the order of
    the names, and the clock when options are checked and when they are sent. *)
Context (encode : val -> option val) (deterministic : bool) (checkedAt sentAt : Z).

Definition encoded (value : val) : result clientError val :=
  match encode value with Some v => Ok v | None => Err EncodingFailed end.

Definition valueOrNow (z : Z) : Z := if z =? 0 then sentAt else z.
Definition orElseText (s : gstr) (fallback : String.string) : gstr := if given s then s else go fallback.
Definition orElseInt (z fallback : Z) : Z := if z =? 0 then fallback else z.

(** [appendEncoded]. *)
Definition appendEncoded (name : String.string) (value : val) : result clientError (list arg) :=
  match value with VNil => Ok [] | _ => let! v := encoded value in Ok (appendOpt name v) end.

(** [deterministicMapKeysForCodec]. *)
Definition encodeOrder (values : valueMap) : valueMap := if deterministic then sort_entries values else values.

Fixpoint encodedEntries (values : valueMap) : result clientError (list (gstr * arg)) :=
  match values with
  | [] => Ok []
  | (name, value) :: values => let! v := encoded value in let! rest := encodedEntries values in Ok ((name, Arg v) :: rest)
  end.

Definition refArgs (refs : textMap) : list (gstr * arg) := prod_map id txt <$> refs.

(** [appendNamedValues]. *)
Definition appendNamedValues (named : NamedValues) : result clientError (list arg) :=
  let! values := encodedEntries (encodeOrder (nv_Values named)) in
  Ok (appendPairs "VALUE" values ++ appendPairs "VALUE_REF" (refArgs (nv_ValueRefs named)) ++
      appendNames "DROP_VALUE" (nv_DropValues named) ++ appendNames "OVERRIDE_VALUE" (nv_OverrideValues named)).

(** [appendFlowMaxActiveMS] (src/flow_max_active.go). *)
Definition appendFlowMaxActiveMS (value : val) : result clientError (list arg) :=
  rmap (optionArgs "MAX_ACTIVE_MS" ∘ fmap Arg) (checkedBy (canonicalFlowMaxActiveMS value)).

(** ** Creation *)

Definition createArgs (opt : CreateOptions) : result clientError (list arg) :=
  let! _ := checkedBy (validateCreateOptions opt) in
  let state := orElseText (cr_State opt) "queued" in
  let now := valueOrNow (cr_NowMS opt) in
  let runAt := orElseInt (cr_RunAtMS opt) now in
  let! payload := appendEncoded "PAYLOAD" (cr_Payload opt) in
  let! maxActive := appendFlowMaxActiveMS (cr_MaxActiveMS opt) in
  let! named := appendNamedValues (valuesAndRefs (cr_Values opt) (cr_ValueRefs opt)) in
  Ok ([tok "FLOW.CREATE"; txt (cr_ID opt); tok "TYPE"; txt (cr_Type opt); tok "STATE"; txt state; tok "NOW"; int64 now] ++
      appendText "PARTITION" (cr_PartitionKey opt) ++ payload ++ appendText "PARENT_FLOW_ID" (cr_ParentFlowID opt) ++
      appendText "ROOT_FLOW_ID" (cr_RootFlowID opt) ++ appendText "CORRELATION_ID" (cr_CorrelationID opt) ++
      [tok "RUN_AT"; int64 runAt] ++ appendInt64Ptr "PRIORITY" (cr_Priority opt) ++ appendBoolPtr "IDEMPOTENT" (cr_Idempotent opt) ++
      appendInt64Ptr "RETENTION_TTL_MS" (cr_RetentionTTLMS opt) ++ maxActive ++ appendAttributes (cr_Attributes opt) [] [] ++
      appendStateMeta (cr_StateMeta opt) ++ named).

(** [Enqueue]. *)
Definition enqueueArgs (opt : CreateOptions) : result clientError (list arg) :=
  createArgs (CreateOf (cr_ID opt) (cr_Type opt) (orElseText (cr_State opt) "queued") (cr_Payload opt) (cr_PartitionKey opt)
    (cr_ParentFlowID opt) (cr_RootFlowID opt) (cr_CorrelationID opt) (cr_RunAtMS opt) (cr_NowMS opt) (cr_Priority opt)
    (cr_Idempotent opt) (cr_RetentionTTLMS opt) (cr_MaxActiveMS opt) (cr_Values opt) (cr_ValueRefs opt) (cr_Attributes opt)
    (cr_StateMeta opt)).

Definition startAndClaimArgs (opt : StartAndClaimOptions) : result clientError (list arg) :=
  let! _ := checkedBy (validateStartAndClaimOptions checkedAt opt) in
  let now := valueOrNow (sc_NowMS opt) in
  let! payload := appendEncoded "PAYLOAD" (sc_Payload opt) in
  let! maxActive := appendFlowMaxActiveMS (sc_MaxActiveMS opt) in
  let! named := appendNamedValues (valuesAndRefs (sc_Values opt) (sc_ValueRefs opt)) in
  Ok ([tok "FLOW.START_AND_CLAIM"; txt (sc_ID opt); tok "TYPE"; txt (sc_Type opt); tok "INITIAL_STATE"; txt (sc_InitialState opt);
       tok "WORKER"; txt (sc_Worker opt); tok "LEASE_MS"; int64 (orElseInt (sc_LeaseMS opt) 30000); tok "NOW"; int64 now] ++
      appendText "PARTITION" (sc_PartitionKey opt) ++ payload ++ appendText "PARENT_FLOW_ID" (sc_ParentFlowID opt) ++
      appendText "ROOT_FLOW_ID" (sc_RootFlowID opt) ++ appendText "CORRELATION_ID" (sc_CorrelationID opt) ++
      appendInt64Ptr "PRIORITY" (sc_Priority opt) ++ appendInt64Ptr "RETENTION_TTL_MS" (sc_RetentionTTLMS opt) ++ maxActive ++
      appendAttributes (sc_Attributes opt) [] [] ++ appendStateMeta (sc_StateMeta opt) ++ named).

Definition signalArgs (opt : SignalOptions) : result clientError (list arg) :=
  let! _ := checkedBy (validateSignalOptions opt) in
  let! named := appendNamedValues (si_Named opt) in
  Ok ([tok "FLOW.SIGNAL"; txt (si_ID opt); tok "SIGNAL"; txt (si_Signal opt)] ++ appendText "PARTITION" (si_PartitionKey opt) ++
      appendText "IDEMPOTENCY" (si_IdempotencyKey opt) ++ flat_map (appendText "IF_STATE") (si_IfStates opt) ++
      appendText "TRANSITION_TO" (si_TransitionTo opt) ++ appendNonZero "RUN_AT" (si_RunAtMS opt) ++
      [tok "NOW"; int64 (valueOrNow (si_NowMS opt))] ++ named).

(** The attributes a signal is given are neither checked nor sent. *)
Theorem flow_signal_attributes_ignored id signal key idempotency ifStates to runAt now values refs drop override merge delete :
  signalArgs (SignalOf id signal key idempotency ifStates to runAt now (Named values refs drop override merge delete)) =
  signalArgs (SignalOf id signal key idempotency ifStates to runAt now (Named values refs drop override [] [])).
Proof. reflexivity. Qed.

(** ** Mutations of a flow *)

Definition extendLeaseArgs (id leaseToken : gstr) (fencingToken leaseMS : Z) (partitionKey : gstr) : result clientError (list arg) :=
  let! _ := checkedBy (validateExtendLease checkedAt id leaseToken fencingToken leaseMS) in
  Ok ([tok "FLOW.EXTEND_LEASE"; txt id; txt leaseToken; tok "FENCING"; int64 fencingToken; tok "LEASE_MS"; int64 leaseMS;
       tok "NOW"; int64 sentAt] ++ appendText "PARTITION" partitionKey).

(** The attributes and state metadata behind a mutation. *)
Definition mergedMetadata (merge : valueMap) (delete : list gstr) (stateMeta : valueMap) : list arg :=
  appendAttributes [] merge delete ++ appendStateMeta stateMeta.

Definition namedMetadata (named : NamedValues) (stateMeta : valueMap) : list arg :=
  mergedMetadata (nv_AttributesMerge named) (nv_AttributesDelete named) stateMeta.

Definition transitionArgs (opt : TransitionOptions) : result clientError (list arg) :=
  let! _ := checkedBy (validateTransitionOptions opt) in
  let now := valueOrNow (tr_NowMS opt) in
  let! payload := appendEncoded "PAYLOAD" (tr_Payload opt) in
  let! named := appendNamedValues (tr_Named opt) in
  Ok ([tok "FLOW.TRANSITION"; txt (tr_ID opt); txt (tr_FromState opt); txt (tr_ToState opt)] ++
      appendText "LEASE_TOKEN" (tr_LeaseToken opt) ++ [tok "FENCING"; int64 (tr_FencingToken opt); tok "NOW"; int64 now] ++
      appendText "PARTITION" (tr_PartitionKey opt) ++ payload ++ [tok "RUN_AT"; int64 (orElseInt (tr_RunAtMS opt) now)] ++
      appendInt64Ptr "PRIORITY" (tr_Priority opt) ++ named ++ namedMetadata (tr_Named opt) (tr_StateMeta opt)).

Definition stepContinueArgs (opt : StepContinueOptions) : result clientError (list arg) :=
  let! _ := checkedBy (validateStepContinueOptions checkedAt opt) in
  let! payload := appendEncoded "PAYLOAD" (st_Payload opt) in
  let! named := appendNamedValues (st_Named opt) in
  Ok ([tok "FLOW.STEP_CONTINUE"; txt (st_ID opt); txt (st_LeaseToken opt); txt (st_FromState opt); txt (st_ToState opt);
       tok "FENCING"; int64 (st_FencingToken opt); tok "LEASE_MS"; int64 (orElseInt (st_LeaseMS opt) 30000);
       tok "NOW"; int64 (valueOrNow (st_NowMS opt))] ++
      appendText "PARTITION" (st_PartitionKey opt) ++ appendText "WORKER" (st_Worker opt) ++ payload ++ named ++
      namedMetadata (st_Named opt) (st_StateMeta opt)).

Definition completeArgs (opt : CompleteOptions) : result clientError (list arg) :=
  let! _ := checkedBy (validateCompleteOptions checkedAt opt) in
  let! result := appendEncoded "RESULT" (co_Result opt) in
  let! payload := appendEncoded "PAYLOAD" (co_Payload opt) in
  let! named := appendNamedValues (co_Named opt) in
  Ok ([tok "FLOW.COMPLETE"; txt (co_ID opt); txt (co_LeaseToken opt); tok "FENCING"; int64 (co_FencingToken opt);
       tok "NOW"; int64 (valueOrNow (co_NowMS opt))] ++
      appendText "PARTITION" (co_PartitionKey opt) ++ result ++ payload ++ appendInt64Ptr "TTL" (co_TTLMS opt) ++ named ++
      namedMetadata (co_Named opt) (co_StateMeta opt)).

Definition retryArgs (opt : RetryOptions) : result clientError (list arg) :=
  let! _ := checkedBy (validateRetryOptions opt) in
  let! error := appendEncoded "ERROR" (rt_Error opt) in
  let! payload := appendEncoded "PAYLOAD" (rt_Payload opt) in
  Ok ([tok "FLOW.RETRY"; txt (rt_ID opt); txt (rt_LeaseToken opt); tok "FENCING"; int64 (rt_FencingToken opt);
       tok "NOW"; int64 (valueOrNow (rt_NowMS opt))] ++
      appendText "PARTITION" (rt_PartitionKey opt) ++ error ++ payload ++ appendNonZero "RUN_AT" (rt_RunAtMS opt) ++
      mergedMetadata (rt_AttributesMerge opt) (rt_AttributesDelete opt) (rt_StateMeta opt)).

Definition failArgs (opt : FailOptions) : result clientError (list arg) :=
  let! _ := checkedBy (validateFailOptions checkedAt opt) in
  let! error := appendEncoded "ERROR" (fl_Error opt) in
  let! payload := appendEncoded "PAYLOAD" (fl_Payload opt) in
  let! named := appendNamedValues (fl_Named opt) in
  Ok ([tok "FLOW.FAIL"; txt (fl_ID opt); txt (fl_LeaseToken opt); tok "FENCING"; int64 (fl_FencingToken opt);
       tok "NOW"; int64 (valueOrNow (fl_NowMS opt))] ++
      appendText "PARTITION" (fl_PartitionKey opt) ++ error ++ payload ++ appendInt64Ptr "TTL" (fl_TTLMS opt) ++ named ++
      namedMetadata (fl_Named opt) (fl_StateMeta opt)).

Definition cancelArgs (opt : CancelOptions) : result clientError (list arg) :=
  let! _ := checkedBy (validateCancelOptions checkedAt opt) in
  let! reason := appendEncoded "REASON" (ca_Reason opt) in
  let! named := appendNamedValues (ca_Named opt) in
  Ok ([tok "FLOW.CANCEL"; txt (ca_ID opt); tok "FENCING"; int64 (ca_FencingToken opt); tok "NOW"; int64 (valueOrNow (ca_NowMS opt))] ++
      appendText "LEASE_TOKEN" (ca_LeaseToken opt) ++ appendText "PARTITION" (ca_PartitionKey opt) ++ reason ++
      appendInt64Ptr "TTL" (ca_TTLMS opt) ++ named ++ namedMetadata (ca_Named opt) (ca_StateMeta opt)).

Definition rewindArgs (opt : RewindOptions) : result clientError (list arg) :=
  let! _ := checkedBy (validateRewindOptions opt) in
  let! reason := appendEncoded "REASON" (rw_Reason opt) in
  Ok ([tok "FLOW.REWIND"; txt (rw_ID opt); tok "TO_EVENT"; txt (rw_ToEvent opt); tok "NOW"; int64 (valueOrNow (rw_NowMS opt))] ++
      reason ++ appendText "PARTITION" (rw_PartitionKey opt) ++ appendText "EXPECT_STATE" (rw_ExpectState opt) ++
      appendNonZero "RUN_AT" (rw_RunAtMS opt)).

(** ** The commands together *)

Inductive flowMutation :=
| MCreate (opt : CreateOptions)
| MStartAndClaim (opt : StartAndClaimOptions)
| MSignal (opt : SignalOptions)
| MExtendLease (id leaseToken : gstr) (fencingToken leaseMS : Z) (partitionKey : gstr)
| MTransition (opt : TransitionOptions)
| MStepContinue (opt : StepContinueOptions)
| MComplete (opt : CompleteOptions)
| MRetry (opt : RetryOptions)
| MFail (opt : FailOptions)
| MCancel (opt : CancelOptions)
| MRewind (opt : RewindOptions).

Definition mutationArgs (m : flowMutation) : result clientError (list arg) :=
  match m with
  | MCreate opt => createArgs opt
  | MStartAndClaim opt => startAndClaimArgs opt
  | MSignal opt => signalArgs opt
  | MExtendLease id leaseToken fencingToken leaseMS partitionKey => extendLeaseArgs id leaseToken fencingToken leaseMS partitionKey
  | MTransition opt => transitionArgs opt
  | MStepContinue opt => stepContinueArgs opt
  | MComplete opt => completeArgs opt
  | MRetry opt => retryArgs opt
  | MFail opt => failArgs opt
  | MCancel opt => cancelArgs opt
  | MRewind opt => rewindArgs opt
  end.

(** ** What a mutation asks for

    The native request of each mutation: its opcode, its leading fields and, under the name
    of its option and of its field, each thing the options ask for. *)

Record requestSpec := RequestSpec { rq_name : String.string; rq_opcode : Z; rq_leading : list (String.string * gstr); rq_options : list optionSegment }.

Definition number (token field : String.string) (z : Z) : optionSegment := Seg token field (OArg (Some (int64 z))).
Definition maybeNumber (token field : String.string) (z : option Z) : optionSegment := Seg token field (OArg (int64 <$> z)).
Definition text (token field : String.string) (s : gstr) : optionSegment := Seg token field (OArg (Some (txt s))).
Definition maybeText (token field : String.string) (s : gstr) : optionSegment := Seg token field (OArg (written (VString s))).
Definition flag (token field : String.string) (b : option bool) : optionSegment := Seg token field (OFlag b).
Definition partition (s : gstr) : optionSegment := maybeText "PARTITION" "partition_key" s.
Definition atTime (z : Z) : optionSegment := number "NOW" "now_ms" (valueOrNow z).
Definition fencing (z : Z) : optionSegment := number "FENCING" "fencing_token" z.
Definition attributes (m : valueMap) : optionSegment := Seg "ATTRIBUTE" "attributes" (OPairs (trimmedArgs m)).
Definition stateMeta (m : valueMap) : optionSegment := Seg "STATE_META" "state_meta" (OPairs (trimmedArgs m)).

(** A user value, encoded; nil is left out, and so is a value whose encoding is the empty string. *)
Definition encodedValue (v : val) : option arg := match v with VNil => None | _ => encode v ≫= written end.
Definition userValue (token field : String.string) (v : val) : optionSegment := Seg token field (OArg (encodedValue v)).
Definition payload : val -> optionSegment := userValue "PAYLOAD" "payload".

(** The limit of activity; an invalid one is refused. *)
Definition maxActive (v : val) : optionSegment :=
  Seg "MAX_ACTIVE_MS" "max_active_ms"
    (OArg (match canonicalFlowMaxActiveMS v with Ok limit => Arg <$> limit | Err _ => None end)).

(** Values by name, each encoded. *)
Definition encodedMap (m : valueMap) : list (gstr * arg) := (fun e => (e.1, Arg (default VNil (encode e.2)))) <$> encodeOrder m.

Definition valuesAndRefsOptions (values : valueMap) (refs : textMap) : list optionSegment :=
  [Seg "VALUE" "values" (OPairs (encodedMap values)); Seg "VALUE_REF" "value_refs" (OPairs (refArgs refs))].
Definition namedOptions (named : NamedValues) : list optionSegment :=
  valuesAndRefsOptions (nv_Values named) (nv_ValueRefs named) ++
  [Seg "DROP_VALUE" "drop_values" (ONames (nv_DropValues named));
   Seg "OVERRIDE_VALUE" "override_values" (ONames (nv_OverrideValues named))].
Definition attributeChanges (merge : valueMap) (delete : list gstr) : list optionSegment :=
  [Seg "ATTRIBUTE_MERGE" "attributes_merge" (OPairs (trimmedArgs merge));
   Seg "ATTRIBUTE_DELETE" "attributes_delete" (ONames (canonicalFlowMetadataKey <$> delete))].
Definition metadataOptions (merge : valueMap) (delete : list gstr) (meta : valueMap) : list optionSegment :=
  attributeChanges merge delete ++ [stateMeta meta].
Definition namedAndMetadata (named : NamedValues) (meta : valueMap) : list optionSegment :=
  namedOptions named ++ metadataOptions (nv_AttributesMerge named) (nv_AttributesDelete named) meta.

Definition mutationSpec (m : flowMutation) : requestSpec :=
  match m with
  | MCreate opt =>
      let now := valueOrNow (cr_NowMS opt) in
      RequestSpec "FLOW.CREATE" nativeOpFlowCreate [("id"%string, cr_ID opt)]
        ([text "TYPE" "type" (cr_Type opt); text "STATE" "state" (orElseText (cr_State opt) "queued"); atTime (cr_NowMS opt);
          partition (cr_PartitionKey opt); payload (cr_Payload opt); maybeText "PARENT_FLOW_ID" "parent_flow_id" (cr_ParentFlowID opt);
          maybeText "ROOT_FLOW_ID" "root_flow_id" (cr_RootFlowID opt); maybeText "CORRELATION_ID" "correlation_id" (cr_CorrelationID opt);
          number "RUN_AT" "run_at_ms" (orElseInt (cr_RunAtMS opt) now); maybeNumber "PRIORITY" "priority" (cr_Priority opt);
          flag "IDEMPOTENT" "idempotent" (cr_Idempotent opt); maybeNumber "RETENTION_TTL_MS" "retention_ttl_ms" (cr_RetentionTTLMS opt);
          maxActive (cr_MaxActiveMS opt); attributes (cr_Attributes opt); stateMeta (cr_StateMeta opt)] ++
         valuesAndRefsOptions (cr_Values opt) (cr_ValueRefs opt))
  | MStartAndClaim opt =>
      RequestSpec "FLOW.START_AND_CLAIM" nativeOpFlowStartAndClaim [("id"%string, sc_ID opt)]
        ([text "TYPE" "type" (sc_Type opt); text "INITIAL_STATE" "initial_state" (sc_InitialState opt); text "WORKER" "worker" (sc_Worker opt);
          number "LEASE_MS" "lease_ms" (orElseInt (sc_LeaseMS opt) 30000); atTime (sc_NowMS opt); partition (sc_PartitionKey opt);
          payload (sc_Payload opt); maybeText "PARENT_FLOW_ID" "parent_flow_id" (sc_ParentFlowID opt);
          maybeText "ROOT_FLOW_ID" "root_flow_id" (sc_RootFlowID opt); maybeText "CORRELATION_ID" "correlation_id" (sc_CorrelationID opt);
          maybeNumber "PRIORITY" "priority" (sc_Priority opt); maybeNumber "RETENTION_TTL_MS" "retention_ttl_ms" (sc_RetentionTTLMS opt);
          maxActive (sc_MaxActiveMS opt); attributes (sc_Attributes opt); stateMeta (sc_StateMeta opt)] ++
         valuesAndRefsOptions (sc_Values opt) (sc_ValueRefs opt))
  | MSignal opt =>
      RequestSpec "FLOW.SIGNAL" nativeOpFlowSignal [("id"%string, si_ID opt)]
        ([text "SIGNAL" "signal" (si_Signal opt); partition (si_PartitionKey opt);
          maybeText "IDEMPOTENCY" "idempotency_key" (si_IdempotencyKey opt);
          Seg "IF_STATE" "if_state" (ONames (filter (fun s => given s) (si_IfStates opt)));
          maybeText "TRANSITION_TO" "transition_to" (si_TransitionTo opt); maybeNumber "RUN_AT" "run_at_ms" (nonZero (si_RunAtMS opt));
          atTime (si_NowMS opt)] ++ namedOptions (si_Named opt) ++
         attributeChanges (nv_AttributesMerge (si_Named opt)) (nv_AttributesDelete (si_Named opt)))
  | MExtendLease id leaseToken fencingToken leaseMS partitionKey =>
      RequestSpec "FLOW.EXTEND_LEASE" nativeOpFlowExtendLease [("id"%string, id); ("lease_token"%string, leaseToken)]
        [fencing fencingToken; number "LEASE_MS" "lease_ms" leaseMS; number "NOW" "now_ms" sentAt; partition partitionKey]
  | MTransition opt =>
      RequestSpec "FLOW.TRANSITION" nativeOpFlowTransition
        [("id"%string, tr_ID opt); ("from_state"%string, tr_FromState opt); ("to_state"%string, tr_ToState opt)]
        ([maybeText "LEASE_TOKEN" "lease_token" (tr_LeaseToken opt); fencing (tr_FencingToken opt); atTime (tr_NowMS opt);
          partition (tr_PartitionKey opt); payload (tr_Payload opt);
          number "RUN_AT" "run_at_ms" (orElseInt (tr_RunAtMS opt) (valueOrNow (tr_NowMS opt)));
          maybeNumber "PRIORITY" "priority" (tr_Priority opt)] ++ namedAndMetadata (tr_Named opt) (tr_StateMeta opt))
  | MStepContinue opt =>
      RequestSpec "FLOW.STEP_CONTINUE" nativeOpFlowStepContinue
        [("id"%string, st_ID opt); ("lease_token"%string, st_LeaseToken opt); ("from_state"%string, st_FromState opt);
         ("to_state"%string, st_ToState opt)]
        ([fencing (st_FencingToken opt); number "LEASE_MS" "lease_ms" (orElseInt (st_LeaseMS opt) 30000); atTime (st_NowMS opt);
          partition (st_PartitionKey opt); maybeText "WORKER" "worker" (st_Worker opt); payload (st_Payload opt)] ++
         namedAndMetadata (st_Named opt) (st_StateMeta opt))
  | MComplete opt =>
      RequestSpec "FLOW.COMPLETE" nativeOpFlowComplete [("id"%string, co_ID opt); ("lease_token"%string, co_LeaseToken opt)]
        ([fencing (co_FencingToken opt); atTime (co_NowMS opt); partition (co_PartitionKey opt);
          userValue "RESULT" "result" (co_Result opt); payload (co_Payload opt); maybeNumber "TTL" "ttl_ms" (co_TTLMS opt)] ++
         namedAndMetadata (co_Named opt) (co_StateMeta opt))
  | MRetry opt =>
      RequestSpec "FLOW.RETRY" nativeOpFlowRetry [("id"%string, rt_ID opt); ("lease_token"%string, rt_LeaseToken opt)]
        ([fencing (rt_FencingToken opt); atTime (rt_NowMS opt); partition (rt_PartitionKey opt);
          userValue "ERROR" "error" (rt_Error opt); payload (rt_Payload opt);
          maybeNumber "RUN_AT" "run_at_ms" (nonZero (rt_RunAtMS opt))] ++
         metadataOptions (rt_AttributesMerge opt) (rt_AttributesDelete opt) (rt_StateMeta opt))
  | MFail opt =>
      RequestSpec "FLOW.FAIL" nativeOpFlowFail [("id"%string, fl_ID opt); ("lease_token"%string, fl_LeaseToken opt)]
        ([fencing (fl_FencingToken opt); atTime (fl_NowMS opt); partition (fl_PartitionKey opt);
          userValue "ERROR" "error" (fl_Error opt); payload (fl_Payload opt); maybeNumber "TTL" "ttl_ms" (fl_TTLMS opt)] ++
         namedAndMetadata (fl_Named opt) (fl_StateMeta opt))
  | MCancel opt =>
      RequestSpec "FLOW.CANCEL" nativeOpFlowCancel [("id"%string, ca_ID opt)]
        ([fencing (ca_FencingToken opt); atTime (ca_NowMS opt); maybeText "LEASE_TOKEN" "lease_token" (ca_LeaseToken opt);
          partition (ca_PartitionKey opt); userValue "REASON" "reason" (ca_Reason opt); maybeNumber "TTL" "ttl_ms" (ca_TTLMS opt)] ++
         namedAndMetadata (ca_Named opt) (ca_StateMeta opt))
  | MRewind opt =>
      RequestSpec "FLOW.REWIND" nativeOpFlowRewind [("id"%string, rw_ID opt)]
        [text "TO_EVENT" "to_event" (rw_ToEvent opt); atTime (rw_NowMS opt); userValue "REASON" "reason" (rw_Reason opt);
         partition (rw_PartitionKey opt); maybeText "EXPECT_STATE" "expect_state" (rw_ExpectState opt);
         maybeNumber "RUN_AT" "run_at_ms" (nonZero (rw_RunAtMS opt))]
  end.

(** The payload of a specification: every field it names that has a value, and nothing else. *)
Definition specFields (r : requestSpec) : payloadMap :=
  fieldsOf (leadingFieldsOf (rq_leading r).*1 (txt <$> (rq_leading r).*2) ++ (segmentField <$> rq_options r)).

Definition specRequest (r : requestSpec) : flowRequest := mapRequest (go (rq_name r)) (rq_opcode r) (specFields r).

(** The native request of a command, as [buildNativeTransportCommand] makes it of a Flow command. *)
Definition flowCommandOf (sprint : val -> gstr) (args : list arg) : result notBuilt flowRequest :=
  match args with [] => Err Declined | name :: rest => buildFlowNativeCommand sprint (argPart name) rest end.

(** The command has an option for everything the call asks for: FLOW.SIGNAL has none for the
    attributes that its options let a caller name ([flow_signal_attributes_ignored]). *)
Definition hasCommand (m : flowMutation) : bool :=
  match m with
  | MSignal opt => bool_decide (nv_AttributesMerge (si_Named opt) = [] /\ nv_AttributesDelete (si_Named opt) = [])
  | _ => true
  end.

(** ** Options as segments *)

Lemma checkedBy_ok {A} (m : result flowError A) a : checkedBy m = Ok a <-> m = Ok a.
Proof. destruct m; cbn; split; congruence. Qed.

Lemma appendEncoded_ok name v l : appendEncoded name v = Ok l -> l = optionArgs name (encodedValue v).
Proof. destruct v; cbn; unfold encoded; try (by intros [= <-]); destruct (encode _) as [w|]; try done; by intros [= <-]. Qed.

Lemma appendFlowMaxActiveMS_ok v l : appendFlowMaxActiveMS v = Ok l -> l = segmentArgs (maxActive v).
Proof. unfold appendFlowMaxActiveMS, maxActive, segmentArgs. cbn. destruct (canonicalFlowMaxActiveMS v); [by intros [= <-]|done]. Qed.

Lemma encodedEntries_ok values : forall l, encodedEntries values = Ok l ->
  l = (fun e => (e.1, Arg (default VNil (encode e.2)))) <$> values.
Proof.
  induction values as [|[name v] values IH]; intros l; cbn; [by intros [= <-]|]. unfold encoded.
  destruct (encode v) as [w|]; [|done]. cbn. destruct (encodedEntries values) as [rest|]; [|done]. cbn. intros [= <-].
  by rewrite (IH rest eq_refl).
Qed.

Lemma appendNamedValues_ok named l : appendNamedValues named = Ok l -> l = flat_map segmentArgs (namedOptions named).
Proof.
  unfold appendNamedValues. destruct (encodedEntries _) as [values|] eqn:E; [|done]. apply encodedEntries_ok in E as ->.
  cbn. intros [= <-]. cbn. by rewrite app_nil_r.
Qed.

Lemma ifStates_args states : flat_map (appendText "IF_STATE") states = appendNames "IF_STATE" (filter (fun s => given s) states).
Proof. induction states as [|[|b s] states IH]; [done|exact IH|]. rewrite filter_cons_True by done. cbn. by rewrite IH. Qed.

Lemma namedMetadata_segments named meta :
  namedMetadata named meta =
  flat_map segmentArgs (metadataOptions (nv_AttributesMerge named) (nv_AttributesDelete named) meta).
Proof. unfold namedMetadata, mergedMetadata, appendAttributes. cbn. by rewrite <- !app_assoc, app_nil_r. Qed.

Lemma mutation_args m args :
  hasCommand m = true -> mutationArgs m = Ok args ->
  args = tok (rq_name (mutationSpec m)) :: (txt <$> (rq_leading (mutationSpec m)).*2) ++ flat_map segmentArgs (rq_options (mutationSpec m)).
Proof.
  destruct m; cbn [mutationArgs hasCommand]; intros Hc;
    unfold createArgs, startAndClaimArgs, signalArgs, extendLeaseArgs, transitionArgs, stepContinueArgs, completeArgs, retryArgs,
      failArgs, cancelArgs, rewindArgs;
    intros H; inv_result;
    repeat match goal with
    | H : appendEncoded _ _ = Ok _ |- _ => apply appendEncoded_ok in H as ->
    | H : appendFlowMaxActiveMS _ = Ok _ |- _ => apply appendFlowMaxActiveMS_ok in H as ->
    | H : appendNamedValues _ = Ok _ |- _ => apply appendNamedValues_ok in H as ->
    end.
  all: try (apply bool_decide_eq_true in Hc as [Hm Hd]; cbn; rewrite Hm, Hd).
  all: rewrite ?ifStates_args, ?namedMetadata_segments; unfold appendAttributes, mergedMetadata; cbn.
  all: rewrite <- ?app_assoc, ?app_nil_r; cbn.
  all: try reflexivity.
Qed.

(** The builder of each command and its options. *)
Lemma mutation_builder sprint m :
  let r := mutationSpec m in
  flowBuilder sprint (go (rq_name r)) =
    Some (buildFlowAdminNative sprint (go (rq_name r)) (rq_opcode r) (go <$> (rq_leading r).*1)) /\
  mutationSegments (rq_leading r).*1 (rq_options r) = true /\ to_upper (go (rq_name r)) = go (rq_name r).
Proof. destruct m; (split; [reflexivity|]); split; vm_compute; reflexivity. Qed.

(** C5: a mutation is sent as the native request of its command, whose payload says what
    the options ask for, field by field, and says nothing else. This holds of every
    mutation but a signal whose options change attributes, for which the command has no
    option. *)
Theorem flow_mutation_request sprint m args :
  hasCommand m = true -> mutationArgs m = Ok args -> flowCommandOf sprint args = Ok (specRequest (mutationSpec m)).
Proof.
  intros Hc H. apply (mutation_args m args Hc) in H as ->. destruct (mutation_builder sprint m) as (Hb & Hs & Hu).
  unfold flowCommandOf, buildFlowNativeCommand. change (argPart (tok ?n)) with (to_upper (go n)). rewrite Hu, Hb.
  rewrite buildFlowAdminNative_segments; [done| |done]. by rewrite !length_fmap.
Qed.
End Client.

(** A completion with a result, a value and a merged attribute, under the codec that
    encodes nothing. *)
Definition sampleComplete : flowMutation :=
  MComplete (CompleteOf (go "flow-1") (go "lease") 7 (go "tenant") (VString (go "done")) VNil (Some 60000) 1000 []
    (Named [(go "total", VInt IInt64 3)] [] [] [] [(go " region ", VString (go "eu"))] [])).

Lemma flow_mutation_request_witness :
  exists args, mutationArgs Some false 1000 1000 sampleComplete = Ok args /\
    flowCommandOf (fun _ => []) args = Ok (specRequest (mutationSpec Some false 1000 sampleComplete)) /\
    specFields (mutationSpec Some false 1000 sampleComplete) !! go "attributes_merge" =
      Some (PMap {[go "region" := PArg (txt (go "eu"))]}).
Proof.
  eexists. split; [vm_compute; reflexivity|]. split; [|vm_compute; reflexivity].
  apply (flow_mutation_request Some false 1000); vm_compute; reflexivity.
Defined.
