(* ===== verification/FlowRoutes.v ===== *)
(** Where the mutations of a flow are sent: the routing key that the topology client reads
    from a command (src/topology_flow_routing.go) is the slot of the keys under which the
    server stores the flow that the options name, by their partition or, without one, by
    their identifier. *)

From S2P Require Import Routing.
From S2P Require Import FlowClient.

(** ** Walking over options *)

(** The tokens the walk treats apart from an option and its value. *)
Definition wideTokens : list gstr := [go "ATTRIBUTE"; go "ATTRIBUTE_MERGE"; go "VALUE_REF"; go "STATE_META"; go "VALUE"].
Definition otherTokens : list gstr := [go "ITEMS"; go "ITEMS_EXT"; go "ITEMS_MAPS"; go "PARTITIONS"].

(** A segment whose options have the width that the walk gives their token. *)
Definition walked (s : optionSegment) : bool :=
  let token := to_upper (go (sg_token s)) in
  match sg_value s with
  | OPairs _ => listed token wideTokens
  | OArg _ => negb (listed token (wideTokens ++ otherTokens))
  | OFlag _ | ONames _ => negb (listed token (go "PARTITION" :: wideTokens ++ otherTokens))
  | OPayload _ | OCounted _ => false
  end.

(** The argument of the first PARTITION among the options. *)
Fixpoint partitionArg (options : list optionSegment) : option arg :=
  match options with
  | [] => None
  | s :: options =>
      if bool_decide (to_upper (go (sg_token s)) = go "PARTITION")
      then match sg_value s with OArg (Some a) => Some a | _ => partitionArg options end
      else partitionArg options
  end.

Lemma is_part_tok name s : is_part name (tok s) = bool_decide (to_upper (go s) = name).
Proof. done. Qed.

Lemma listed_false name l x : listed name l = false -> x ∈ l -> bool_decide (name = x) = false.
Proof. unfold listed. rewrite !bool_decide_eq_false. by intros Hn Hx ->. Qed.

Lemma listed_app t l k : listed t (l ++ k) = false -> listed t l = false /\ listed t k = false.
Proof. unfold listed. rewrite !bool_decide_eq_false, elem_of_app. tauto. Qed.

Lemma wide_other t : listed t wideTokens = true -> listed t otherTokens = false /\ bool_decide (t = go "PARTITION") = false.
Proof.
  unfold listed at 1. rewrite bool_decide_eq_true. unfold wideTokens. rewrite !elem_of_cons.
  by intros [->|[->|[->|[->|[->|[]%elem_of_nil]]]]].
Qed.

(** The walk leaves an option of two arguments, and one of three, behind. *)
Lemma next_narrow name token value rest : listed (to_upper (go token)) (wideTokens ++ otherTokens) = false ->
  nextFlowOption name (tok token :: value :: rest) = rest.
Proof.
  intros H. unfold nextFlowOption. rewrite !is_part_tok.
  assert (Hf : forall x, x ∈ wideTokens ++ otherTokens -> bool_decide (to_upper (go token) = x) = false)
    by (intros x Hx; by eapply listed_false).
  rewrite !Hf by (unfold wideTokens, otherTokens; cbn [app]; rewrite ?elem_of_cons; tauto). done.
Qed.

Lemma next_wide name token key value rest : listed (to_upper (go token)) wideTokens = true ->
  listed name flowValueReturnCommands = false -> nextFlowOption name (tok token :: key :: value :: rest) = rest.
Proof.
  unfold nextFlowOption. rewrite !is_part_tok. intros H Hname. rewrite Hname. unfold listed in H. rewrite bool_decide_eq_true in H.
  unfold wideTokens in H. rewrite !elem_of_cons in H. destruct H as [->|[->|[->|[->|[->|[]%elem_of_nil]]]]]; reflexivity.
Qed.

Section Walk.
Context (name : gstr) (Hname : listed name flowValueReturnCommands = false).

(** The suffixes seen from [l], whatever fuel is enough. *)
Definition suffixes (l : list arg) : list (list arg) := flowOptions (length l) name l.

Lemma suffixes_next l : l <> [] -> suffixes l = l :: suffixes (nextFlowOption name l).
Proof.
  intros Hl. pose proof (nextFlowOption_shorter name l Hl) as Hn. unfold suffixes at 1. destruct l as [|token rest]; [done|].
  cbn [flowOptions length] in *. f_equal. apply flowOptions_fuel; lia.
Qed.

(** Options that are no partition are passed over. *)
Definition passed {A} (P : list arg -> option A) (group rest : list arg) : Prop :=
  first_some P (suffixes (group ++ rest)) = first_some P (suffixes rest).

Lemma passed_app {A} (P : list arg -> option A) groups rest :
  Forall (fun group => forall rest, passed P group rest) groups -> passed P (concat groups) rest.
Proof.
  unfold passed. induction 1 as [|group groups Hg _ IH]; [done|]. cbn [concat]. rewrite <- (assoc_L (++)). by rewrite Hg.
Qed.

Lemma passed_narrow {A} (P : list arg -> option A) token value rest :
  listed (to_upper (go token)) (wideTokens ++ otherTokens) = false ->
  (forall more, P (tok token :: more) = None) -> passed P [tok token; value] rest.
Proof. intros H HP. unfold passed. cbn [app]. rewrite suffixes_next by done. cbn [first_some]. by rewrite HP, next_narrow. Qed.

Lemma passed_wide {A} (P : list arg -> option A) token key value rest : listed (to_upper (go token)) wideTokens = true ->
  (forall more, P (tok token :: more) = None) -> passed P [tok token; key; value] rest.
Proof. intros H HP. unfold passed. cbn [app]. rewrite suffixes_next by done. cbn [first_some]. by rewrite HP, next_wide. Qed.

(** The first option found is that of the first PARTITION that has an argument. *)
Section First.
Context {A} (P : list arg -> option A) (found : arg -> A).
Hypothesis found_at : forall token a rest, to_upper (go token) = go "PARTITION" -> P (tok token :: a :: rest) = Some (found a).
Hypothesis found_only : forall token more, bool_decide (to_upper (go token) = go "PARTITION") = false ->
  listed (to_upper (go token)) otherTokens = false -> P (tok token :: more) = None.

Lemma passed_names token names rest :
  listed (to_upper (go token)) (go "PARTITION" :: wideTokens ++ otherTokens) = false ->
  bool_decide (to_upper (go token) = go "PARTITION") = false /\ passed P (appendNames token names) rest.
Proof.
  intros H. assert (bool_decide (to_upper (go token) = go "PARTITION") = false) as Hp by (eapply listed_false; [exact H|left]).
  change (go "PARTITION" :: wideTokens ++ otherTokens) with ([go "PARTITION"] ++ wideTokens ++ otherTokens) in H.
  apply listed_app in H as [_ H]. pose proof (listed_app _ _ _ H) as [_ Ho]. split; [done|].
  unfold appendNames. rewrite flat_map_concat_map. apply passed_app, Forall_map, Forall_true. intros n more. apply passed_narrow; auto.
Qed.

Lemma first_partition options : forallb walked options = true ->
  first_some P (suffixes (flat_map segmentArgs options)) = found <$> partitionArg options.
Proof.
  induction options as [|[token field value] options IH]; intros Hw; [done|]. cbn [forallb] in Hw.
  apply andb_true_iff in Hw as [Hs Hw]. specialize (IH Hw). cbn [flat_map partitionArg]. unfold walked in Hs.
  unfold segmentArgs at 1. cbn [sg_token sg_value] in *. destruct value as [a|b|entries|names|w|names]; try done.
  - apply negb_true_iff in Hs. pose proof (listed_app _ _ _ Hs) as [_ Ho]. destruct a as [a|]; [|by case_match].
    cbn [optionArgs app]. destruct (bool_decide_reflect (to_upper (go token) = go "PARTITION")) as [Hp|Hp].
    + rewrite suffixes_next by done. cbn [first_some]. by rewrite found_at.
    + rewrite <- IH. apply (passed_narrow P token a); [done|]. intros more. apply found_only; [by apply bool_decide_false|done].
  - apply negb_true_iff in Hs. destruct (passed_names token [] [] Hs) as [Hp _]. rewrite Hp. destruct b as [b|]; [|done].
    rewrite <- IH. destruct b; [apply (passed_names token [go "true"] _ Hs)|apply (passed_names token [go "false"] _ Hs)].
  - destruct (wide_other _ Hs) as [Ho Hp]. rewrite Hp, <- IH. unfold appendPairs. rewrite flat_map_concat_map.
    apply passed_app, Forall_map, Forall_true. intros [k v] rest. apply passed_wide; auto.
  - apply negb_true_iff in Hs. destruct (passed_names token names (flat_map segmentArgs options) Hs) as [Hp H]. by rewrite Hp, <- IH.
Qed.
End First.
End Walk.

(** ** The routing key of a command with an identifier *)

(** A command that is routed by the partition among its options, and by its first argument
    when there is none. *)
Definition routedByID (name : gstr) : bool :=
  negb (listed name ([go "FLOW.QUERY"; go "FLOW.QUERY.INDEXES"; go "FLOW.VALUE.MGET"; go "FLOW.VALUE.PUT"] ++
    [go "FLOW.CLAIM_DUE"; go "FLOW.RECLAIM"] ++ flowScheduleCommands ++ flowApprovalIDCommands ++ flowGovernanceScopeCommands ++ flowManyCommands ++
    typeScopedFlowCommands ++ flowValueReturnCommands)) && listed name flowStateIDCommands.

Lemma no_partition_option claim l : first_some (partitionOption claim) l = None ->
  existsb (fun l => match l with
                    | token :: _ => is_part (go "PARTITION") token || is_part (go "PARTITIONS") token
                    | [] => false
                    end) l = false.
Proof.
  induction l as [|[|token rest] l IH]; [done|exact IH|]. cbn [first_some partitionOption existsb].
  destruct (is_part (go "PARTITION") token); [done|]. by destruct (is_part (go "PARTITIONS") token).
Qed.

(** The slot chosen for a partition, or without one for an identifier. *)
Definition routedTag (p id : gstr) : gstr := if given p then logicalPartitionTag p else autoIDTag id.

Lemma partition_found name options : listed name flowValueReturnCommands = false -> forallb walked options = true ->
  first_some (partitionOption false) (suffixes name (flat_map segmentArgs options)) =
    (fun a => if argRouteKey a then flowLogicalPartitionRoutingKey a else None) <$> partitionArg options.
Proof.
  intros Hn Hw. apply first_partition; [done| | |done].
  - intros token a rest Ht. cbn [partitionOption]. by rewrite is_part_tok, Ht.
  - intros token more Ht Ho. cbn [partitionOption]. rewrite !is_part_tok, Ht.
    rewrite (listed_false _ _ (go "PARTITIONS") Ho); [done|]. unfold otherTokens. rewrite !elem_of_cons. tauto.
Qed.

Lemma command_routed name id leading options p : routedByID name = true -> flowOptionStart name = S (length leading) ->
  forallb walked options = true -> partitionArg options = (if given p then Some (txt p) else None) ->
  forall first, flowRoutingKey name (first :: txt id :: leading ++ flat_map segmentArgs options) =
    Some (KeySlot (flowTagRoutingSlot (routedTag p id))).
Proof.
  intros [Hn Hid]%andb_true_iff Hstart Hw Hp first. apply negb_true_iff in Hn.
  apply listed_app in Hn as [Hx Hn]. repeat (apply listed_app in Hn as [? Hn]). unfold flowRoutingKey.
  rewrite !(listed_false _ _ _ Hx) by (rewrite !elem_of_cons; tauto). cbn [orb tail].
  repeat match goal with H : listed name ?l = ?b |- context [listed name ?l] => rewrite H end. cbn [orb].
  assert (Hopt : flowOptionsFrom name (txt id :: leading ++ flat_map segmentArgs options) (flowOptionStart name) =
                 suffixes name (flat_map segmentArgs options)).
  { unfold flowOptionsFrom. rewrite Hstart. cbn [drop]. rewrite drop_app_length.
    apply flowOptions_fuel; cbn; rewrite ?length_app; lia. }
  unfold flowPartitionRoutingKey, flowHasPartitionOption. rewrite Hopt.
  pose proof (partition_found name options Hn Hw) as Hfirst. rewrite Hp in Hfirst. unfold routedTag.
  destruct (given p); cbn in Hfirst; rewrite Hfirst; [done|]. by rewrite (no_partition_option false _ Hfirst).
Qed.

(** ** Mutations *)

(** The flow that the options of a mutation name. *)
Definition mutationPartition (m : flowMutation) : gstr :=
  match m with
  | MCreate opt => cr_PartitionKey opt
  | MStartAndClaim opt => sc_PartitionKey opt
  | MSignal opt => si_PartitionKey opt
  | MExtendLease _ _ _ _ partitionKey => partitionKey
  | MTransition opt => tr_PartitionKey opt
  | MStepContinue opt => st_PartitionKey opt
  | MComplete opt => co_PartitionKey opt
  | MRetry opt => rt_PartitionKey opt
  | MFail opt => fl_PartitionKey opt
  | MCancel opt => ca_PartitionKey opt
  | MRewind opt => rw_PartitionKey opt
  end.

Definition mutationID (m : flowMutation) : gstr :=
  match m with
  | MCreate opt => cr_ID opt
  | MStartAndClaim opt => sc_ID opt
  | MSignal opt => si_ID opt
  | MExtendLease id _ _ _ _ => id
  | MTransition opt => tr_ID opt
  | MStepContinue opt => st_ID opt
  | MComplete opt => co_ID opt
  | MRetry opt => rt_ID opt
  | MFail opt => fl_ID opt
  | MCancel opt => ca_ID opt
  | MRewind opt => rw_ID opt
  end.

(** The hash tag of the keys that hold a flow: the bucket that the partition names, the
    digest of any other partition, and without a partition the bucket of the identifier. *)
Inductive storage_tag (partition id : gstr) : gstr -> Prop :=
| TagOfBucket n : 0 <= n < 256 -> partition = go "__flow_auto__:" ++ format_int n ->
    storage_tag partition id (go "fa:" ++ format_int n)
| TagOfPartition : partition <> [] -> (forall n, 0 <= n < 256 -> partition <> go "__flow_auto__:" ++ format_int n) ->
    storage_tag partition id (go "f:" ++ base64_encode (sha256 partition))
| TagOfID : partition = [] -> storage_tag partition id (go "fa:" ++ format_int (crc32_serial id mod 256)).

Lemma cut_prefix_some p s rest : cut_prefix p s = Some rest -> s = p ++ rest.
Proof.
  revert s. induction p as [|x p IH]; intros s; cbn; [by intros [= ->]|]. destruct s as [|y s]; [done|].
  case_bool_decide as Hx; [|done]. subst. intros H. by rewrite (IH s H).
Qed.

Lemma routedTag_storage p id : storage_tag p id (routedTag p id).
Proof.
  unfold routedTag. destruct p as [|b p].
  - cbn [given]. unfold autoIDTag. rewrite routeCRC32_serial. change 255 with (Z.ones 8). rewrite Z.land_ones by lia. by apply TagOfID.
  - cbn [given negb]. set (text := b :: p). unfold logicalPartitionTag.
    destruct (cut_prefix (go "__flow_auto__:") text) as [bucket|] eqn:Hc.
    + destruct (bucketText bucket) eqn:Hb; [|apply TagOfPartition; [done|]].
      * apply cut_prefix_some in Hc. apply bucketText_spec in Hb as (n & Hn & ->). by apply TagOfBucket.
      * intros n Hn E. rewrite E, cut_prefix_app in Hc. injection Hc as <-. by rewrite bucketText_format in Hb.
    + apply TagOfPartition; [done|]. intros n Hn E. by rewrite E, cut_prefix_app in Hc.
Qed.

Lemma routedTag_ok p id : flow_tag_ok (routedTag p id).
Proof. unfold routedTag. destruct (given p); [apply logicalPartitionTag_ok|apply autoIDTag_ok]. Qed.

Section Mutations.
Context (encode : val -> option val) (deterministic : bool) (checkedAt sentAt : Z).

Notation mutationSpec := (mutationSpec encode deterministic sentAt).
Notation mutationArgs := (mutationArgs encode deterministic checkedAt sentAt).

Lemma mutation_walk m :
  let r := mutationSpec m in let name := go (rq_name r) in
  (to_upper name = name /\ has_prefix (go "FLOW.") name = true /\ routedByID name = true) /\
  (exists leading, (rq_leading r).*2 = mutationID m :: leading /\ flowOptionStart name = S (length leading)) /\
  forallb walked (rq_options r) = true /\
  partitionArg (rq_options r) = (if given (mutationPartition m) then Some (txt (mutationPartition m)) else None).
Proof.
  destruct m; cbv zeta; (split; [split_and!; vm_compute; reflexivity|]);
    (split; [eexists; split; [reflexivity|vm_compute; reflexivity]|]); (split; [vm_compute; reflexivity|]);
    cbn [FlowClient.mutationSpec rq_options mutationPartition];
    match goal with |- context [given ?p] => generalize p; intros [|? ?]; vm_compute; reflexivity end.
Qed.

(** The attributes of a signal are not sent. *)
Definition sent (m : flowMutation) : flowMutation :=
  match m with
  | MSignal (SignalOf id signal key idempotency ifStates to runAt now (Named values refs drop override _ _)) =>
      MSignal (SignalOf id signal key idempotency ifStates to runAt now (Named values refs drop override [] []))
  | _ => m
  end.

Lemma sent_same m : hasCommand (sent m) = true /\ mutationArgs (sent m) = mutationArgs m /\
  mutationPartition (sent m) = mutationPartition m /\ mutationID (sent m) = mutationID m.
Proof. destruct m as [| |[? ? ? ? ? ? ? ? []]| | | | | | | |]; split_and!; reflexivity. Qed.

Lemma commandName_plain name id rest : to_upper (go name) = go name -> has_prefix (go "FLOW.") (go name) = true ->
  commandName (tok name :: txt id :: rest) = go name.
Proof.
  intros Hu Hp. cbn [commandName]. change (argPart (tok name)) with (to_upper (go name)). rewrite Hu.
  assert (forall x, has_prefix (go "FLOW.") x = false -> bool_decide (go name = x) = false) as Hx.
  { intros x Hn. apply bool_decide_false. congruence. }
  by rewrite !Hx.
Qed.

(** C38: a mutation of a flow is routed to the slot of the keys that hold the flow its
    options name: the hash tag of those keys is that of the options' partition or, without
    one, that of their identifier, whatever else the command carries; and no key command can
    reach these keys, which are reserved. *)
Theorem flow_mutation_routed m args : mutationArgs m = Ok args ->
  exists tag, storage_tag (mutationPartition m) (mutationID m) tag /\
    routingKeyFromArgs (commandName args) args = Some (KeySlot (flowTagRoutingSlot tag)) /\
    forall suffix,
      routeSlotForString (go "f:{" ++ tag ++ go "}:" ++ suffix) = flowTagRoutingSlot tag /\
      reservedInternalKeyString (go "f:{" ++ tag ++ go "}:" ++ suffix) = true.
Proof.
  destruct (sent_same m) as (Hs & <- & <- & <-). intros ->%mutation_args; [|done].
  destruct (mutation_walk (sent m)) as ((Hu & Hf & Hr) & (leading & Hl & Hstart) & Hw & Hp).
  set (p := mutationPartition (sent m)) in *. set (id := mutationID (sent m)) in *.
  exists (routedTag p id). split; [apply routedTag_storage|]. split.
  - rewrite Hl. cbn [fmap list_fmap app]. rewrite commandName_plain by done. unfold routingKeyFromArgs. rewrite Hf.
    apply (command_routed _ id (txt <$> leading)); try done. by rewrite length_fmap.
  - intros suffix. split; [apply (flow_tag_slot _ (go ":" ++ suffix))|apply flow_tag_reserved]; apply routedTag_ok.
Qed.
End Mutations.

Lemma flow_mutation_routed_witness :
  exists args, mutationArgs Some false 1000 1000 sampleComplete = Ok args /\
    exists tag, storage_tag (go "tenant") (go "flow-1") tag /\
      routingKeyFromArgs (commandName args) args = Some (KeySlot (flowTagRoutingSlot tag)) /\
      forall suffix,
        routeSlotForString (go "f:{" ++ tag ++ go "}:" ++ suffix) = flowTagRoutingSlot tag /\
        reservedInternalKeyString (go "f:{" ++ tag ++ go "}:" ++ suffix) = true.
Proof.
  eexists. split; [vm_compute; reflexivity|].
  apply (flow_mutation_routed Some false 1000 1000 sampleComplete). vm_compute. reflexivity.
Defined.
