(* ===== verification/FlowReads.v ===== *)
(** The reads, claims and stored values of the client: the argument list each sends for its
    options (src/client_flow_read.go, src/flow_admin_read.go, src/client_flow.go,
    src/client_flow_policy.go, src/client_flow_values.go), and the native request it becomes. *)

From S2P Require Export FlowClient.

Section Reads.
Context (encode : val -> option val) (checkedAt sentAt : Z).

(** ** Reads *)

Definition getArgs (id partitionKey : gstr) (values : list gstr) : result clientError (list arg) :=
  let! _ := checkedBy (validateFlowGet id values) in
  Ok ([tok "FLOW.GET"; txt id] ++ appendText "PARTITION" partitionKey ++ appendValueReturn values).

Definition infoArgs (flowType partitionKey : gstr) (includeCold consistentProjection : option bool) : result clientError (list arg) :=
  let! _ := checkedBy (validatePublicFlowType (go "flow type") flowType) in
  Ok ([tok "FLOW.INFO"; txt flowType] ++ appendText "PARTITION" partitionKey ++ appendBoolPtr "INCLUDE_COLD" includeCold ++
      appendBoolPtr "CONSISTENT_PROJECTION" consistentProjection).

Definition historyArgs (opt : HistoryOptions) : result clientError (list arg) :=
  let! _ := checkedBy (validateFlowHistory opt) in
  Ok ([tok "FLOW.HISTORY"; txt (hi_ID opt); tok "COUNT"; int (orElseInt (hi_Count opt) 100)] ++
      appendText "PARTITION" (hi_PartitionKey opt) ++ appendText "FROM_EVENT" (hi_FromEvent opt) ++
      appendText "TO_EVENT" (hi_ToEvent opt) ++ appendInt64Ptr "FROM_MS" (hi_FromMS opt) ++ appendInt64Ptr "TO_MS" (hi_ToMS opt) ++
      appendInt64Ptr "FROM_VERSION" (hi_FromVersion opt) ++ appendInt64Ptr "TO_VERSION" (hi_ToVersion opt) ++
      appendBoolPtr "REV" (hi_Rev opt) ++ appendText "EVENT" (hi_Event opt) ++ appendText "WORKER" (hi_Worker opt) ++
      appendBoolPtr "INCLUDE_COLD" (hi_IncludeCold opt) ++ appendBoolPtr "CONSISTENT_PROJECTION" (hi_ConsistentProjection opt) ++
      appendBoolPtr "VALUES" (hi_Values opt) ++ appendInt64Ptr "PAYLOAD_MAX_BYTES" (hi_PayloadMaxBytes opt)).

Definition appendReadOptions (opt : ReadOptions) : list arg :=
  appendIntPtr "COUNT" (ro_Count opt) ++ appendText "PARTITION" (ro_PartitionKey opt) ++ appendInt64Ptr "FROM_MS" (ro_FromMS opt) ++
  appendInt64Ptr "TO_MS" (ro_ToMS opt) ++ appendBoolPtr "REV" (ro_Rev opt) ++ appendText "STATE" (ro_State opt) ++
  appendBoolPtr "TERMINAL_ONLY" (ro_TerminalOnly opt) ++ appendBoolPtr "INCLUDE_COLD" (ro_IncludeCold opt) ++
  appendBoolPtr "CONSISTENT_PROJECTION" (ro_ConsistentProjection opt) ++ appendAttributes (ro_Attributes opt) [] [].

Definition statsArgs (flowType : gstr) (opt : ReadOptions) : result clientError (list arg) :=
  let! _ := checkedBy (validatePublicFlowType (go "flow type") flowType) in
  let! _ := checkedBy (validateFlowReadOptions opt) in
  Ok ([tok "FLOW.STATS"; txt flowType] ++ appendReadOptions opt).

(** [CountByState]: the statistics of one state, without a limit. *)
Definition inState (state : gstr) (opt : ReadOptions) : ReadOptions :=
  ReadOf (ro_PartitionKey opt) None (ro_FromMS opt) (ro_ToMS opt) (ro_Rev opt) state (ro_TerminalOnly opt) (ro_IncludeCold opt)
    (ro_ConsistentProjection opt) (ro_Attributes opt).

Definition countByStateArgs (flowType state : gstr) (opt : ReadOptions) : result clientError (list arg) :=
  let! _ := checkedBy (validateRequiredText (go "state") state) in statsArgs flowType (inState state opt).

(** [Exists]. *)
Definition existsArgs (flowType : gstr) (opt : ReadOptions) : result clientError (list arg) :=
  statsArgs flowType (inState (ro_State opt) opt).

Definition attributesArgs (flowType : gstr) (opt : ReadOptions) : result clientError (list arg) :=
  let! _ := checkedBy (validatePublicFlowType (go "flow type") flowType) in
  let! _ := checkedBy (validateFlowReadOptions opt) in
  Ok ([tok "FLOW.ATTRIBUTES"; txt flowType] ++ appendReadOptions opt).

Definition attributeValuesArgs (flowType attribute : gstr) (opt : ReadOptions) : result clientError (list arg) :=
  let! _ := checkedBy (validatePublicFlowType (go "flow type") flowType) in
  let! _ := checkedBy (validateRequiredText (go "attribute") attribute) in
  let! _ := checkedBy (validateFlowReadOptions opt) in
  Ok ([tok "FLOW.ATTRIBUTE_VALUES"; txt flowType; txt attribute] ++ appendReadOptions opt).

Definition retentionCleanupArgs (opt : RetentionCleanupOptions) : result clientError (list arg) :=
  let! _ := checkedBy (validateRetentionCleanup opt) in
  Ok ([tok "FLOW.RETENTION_CLEANUP"] ++ appendIntPtr "LIMIT" (rc_Limit opt) ++ appendInt64Ptr "NOW" (rc_NowMS opt)).

(** ** Claims *)

Definition appendPartitions (keys : list gstr) : list arg :=
  match keys with [] => [] | _ => tok "PARTITIONS" :: int (blen keys) :: (txt <$> keys) end.

(** The shape of claimed work. *)
Definition claimReturn (jobOnly includeState : bool) (includeAttributes : option bool) : String.string :=
  if jobOnly then
    if includeState
    then if default true includeAttributes then "JOBS_COMPACT_STATE_ATTRS" else "JOBS_COMPACT_STATE"
    else if default true includeAttributes then "JOBS_COMPACT_ATTRS" else "JOBS_COMPACT"
  else "RECORDS".

(** [claimDue], where the compact form is not taken. *)
Definition claimDueArgs (opt : ClaimDueOptions) : result clientError (list arg) :=
  let! _ := checkedBy (validateClaimDueOptions checkedAt opt) in
  Ok ([tok "FLOW.CLAIM_DUE"; txt (cd_Type opt)] ++
      (match cd_States opt with [] => appendText "STATE" (cd_State opt) | states => flat_map (appendText "STATE") states end) ++
      [tok "WORKER"; txt (cd_Worker opt); tok "LEASE_MS"; int64 (orElseInt (cd_LeaseMS opt) 30000);
       tok "LIMIT"; int (orElseInt (cd_Limit opt) 1); tok "NOW"; int64 (valueOrNow sentAt (cd_NowMS opt))] ++
      appendText "PARTITION" (cd_PartitionKey opt) ++ appendPartitions (cd_PartitionKeys opt) ++
      appendInt64Ptr "PRIORITY" (cd_Priority opt) ++
      [tok "RETURN"; tok (claimReturn (cd_JobOnly opt) (cd_IncludeState opt) (cd_IncludeAttributes opt))] ++
      appendInt64Ptr "BLOCK" (cd_BlockMS opt) ++ appendPayloadRead (cd_Payload opt) (cd_PayloadMaxBytes opt) ++
      appendValueReturn (cd_Values opt) ++ appendBoolPtr "RECLAIM_EXPIRED" (cd_ReclaimExpired opt) ++
      appendInt64Ptr "RECLAIM_RATIO" (cd_ReclaimRatio opt)).

Definition reclaimArgs (opt : ReclaimOptions) : result clientError (list arg) :=
  let! _ := checkedBy (validateReclaimOptions checkedAt opt) in
  Ok ([tok "FLOW.RECLAIM"; txt (re_Type opt); tok "WORKER"; txt (re_Worker opt); tok "LEASE_MS"; int64 (orElseInt (re_LeaseMS opt) 30000);
       tok "LIMIT"; int (orElseInt (re_Limit opt) 1); tok "NOW"; int64 (valueOrNow sentAt (re_NowMS opt))] ++
      appendText "PARTITION" (re_PartitionKey opt) ++ appendPartitions (re_PartitionKeys opt) ++
      appendInt64Ptr "PRIORITY" (re_Priority opt) ++
      [tok "RETURN"; tok (claimReturn (re_JobOnly opt) false (re_IncludeAttributes opt))] ++
      appendPayloadRead (re_Payload opt) (re_PayloadMaxBytes opt) ++ appendValueReturn (re_Values opt)).

(** ** Values *)

Definition valuePutArgs (value : val) (opt : ValuePutOptions) : result clientError (list arg) :=
  let! _ := checkedBy (validateValuePutOptions checkedAt opt) in
  let! value := encoded encode value in
  Ok ([tok "FLOW.VALUE.PUT"; Arg value; tok "NOW"; int64 (valueOrNow sentAt (vp_NowMS opt))] ++
      appendText "PARTITION" (vp_PartitionKey opt) ++ appendText "OWNER_FLOW_ID" (vp_OwnerFlowID opt) ++
      appendText "NAME" (vp_Name opt) ++ appendBoolPtr "OVERRIDE" (vp_Override opt) ++ appendInt64Ptr "TTL" (vp_TTLMS opt)).

(** [PutValue]. *)
Definition putValueArgs (name : gstr) (value : val) (opt : ValuePutOptions) : result clientError (list arg) :=
  let! _ := checkedBy (validateFlowMutationText (go "flow value name") name) in
  valuePutArgs value (ValuePutOf (vp_PartitionKey opt) (vp_OwnerFlowID opt) name (vp_Override opt) (vp_TTLMS opt) (vp_NowMS opt)).

(** [ValueMGet] of some references; of none it sends nothing. *)
Definition valueMGetArgs (refs : list gstr) (maxBytes : option Z) : result clientError (list arg) :=
  let! _ := checkedBy (validateValueMGet refs maxBytes) in
  Ok (tok "FLOW.VALUE.MGET" :: (txt <$> refs) ++ appendInt64Ptr "MAX_BYTES" maxBytes).

(** ** Reads together *)

Inductive flowRead :=
| RGet (id partitionKey : gstr) (values : list gstr)
| RInfo (flowType partitionKey : gstr) (includeCold consistentProjection : option bool)
| RHistory (opt : HistoryOptions)
| RStats (flowType : gstr) (opt : ReadOptions)
| RAttributes (flowType : gstr) (opt : ReadOptions)
| RAttributeValues (flowType attribute : gstr) (opt : ReadOptions)
| RRetentionCleanup (opt : RetentionCleanupOptions)
| RClaimDue (opt : ClaimDueOptions)
| RReclaim (opt : ReclaimOptions).

Definition readArgs (r : flowRead) : result clientError (list arg) :=
  match r with
  | RGet id partitionKey values => getArgs id partitionKey values
  | RInfo flowType partitionKey includeCold consistentProjection => infoArgs flowType partitionKey includeCold consistentProjection
  | RHistory opt => historyArgs opt
  | RStats flowType opt => statsArgs flowType opt
  | RAttributes flowType opt => attributesArgs flowType opt
  | RAttributeValues flowType attribute opt => attributeValuesArgs flowType attribute opt
  | RRetentionCleanup opt => retentionCleanupArgs opt
  | RClaimDue opt => claimDueArgs opt
  | RReclaim opt => reclaimArgs opt
  end.

(** ** What a read asks for *)

Definition count (token field : String.string) (z : Z) : optionSegment := Seg token field (OArg (Some (int z))).
Definition maybeCount (token field : String.string) (z : option Z) : optionSegment := Seg token field (OArg (int <$> z)).
Definition valueNames (names : list gstr) : optionSegment := Seg "VALUE" "values" (ONames names).
Definition partitionsOption (keys : list gstr) : optionSegment := Seg "PARTITIONS" "partition_keys" (OCounted keys).

(** The payload is read when it is wanted or bounded; its bound is dropped when it is not. *)
Definition payloadOptions (payload : option bool) (maxBytes : option Z) : list optionSegment :=
  [Seg "PAYLOAD" "payload" (OPayload (match payload, maxBytes with None, Some _ => Some true | _, _ => payload end));
   maybeNumber "MAXBYTES" "payload_max_bytes" (match payload with Some false => None | _ => maxBytes end)].

Definition readOptions (opt : ReadOptions) : list optionSegment :=
  [maybeCount "COUNT" "count" (ro_Count opt); partition (ro_PartitionKey opt); maybeNumber "FROM_MS" "from_ms" (ro_FromMS opt);
   maybeNumber "TO_MS" "to_ms" (ro_ToMS opt); flag "REV" "rev" (ro_Rev opt); maybeText "STATE" "state" (ro_State opt);
   flag "TERMINAL_ONLY" "terminal_only" (ro_TerminalOnly opt); flag "INCLUDE_COLD" "include_cold" (ro_IncludeCold opt);
   flag "CONSISTENT_PROJECTION" "consistent_projection" (ro_ConsistentProjection opt); attributes (ro_Attributes opt)].

(** The states work is claimed in: those listed, or else the one given. *)
Definition claimStates (opt : ClaimDueOptions) : list gstr :=
  filter (fun s => given s) (match cd_States opt with [] => [cd_State opt] | states => states end).

Definition readSpec (r : flowRead) : requestSpec :=
  match r with
  | RGet id partitionKey values =>
      RequestSpec "FLOW.GET" nativeOpFlowGet [("id"%string, id)] [partition partitionKey; valueNames values]
  | RInfo flowType partitionKey includeCold consistentProjection =>
      RequestSpec "FLOW.INFO" nativeOpFlowInfo [("type"%string, flowType)]
        [partition partitionKey; flag "INCLUDE_COLD" "include_cold" includeCold;
         flag "CONSISTENT_PROJECTION" "consistent_projection" consistentProjection]
  | RHistory opt =>
      RequestSpec "FLOW.HISTORY" nativeOpFlowHistory [("id"%string, hi_ID opt)]
        [count "COUNT" "count" (orElseInt (hi_Count opt) 100); partition (hi_PartitionKey opt);
         maybeText "FROM_EVENT" "from_event" (hi_FromEvent opt); maybeText "TO_EVENT" "to_event" (hi_ToEvent opt);
         maybeNumber "FROM_MS" "from_ms" (hi_FromMS opt); maybeNumber "TO_MS" "to_ms" (hi_ToMS opt);
         maybeNumber "FROM_VERSION" "from_version" (hi_FromVersion opt); maybeNumber "TO_VERSION" "to_version" (hi_ToVersion opt);
         flag "REV" "rev" (hi_Rev opt); maybeText "EVENT" "event" (hi_Event opt); maybeText "WORKER" "worker" (hi_Worker opt);
         flag "INCLUDE_COLD" "include_cold" (hi_IncludeCold opt);
         flag "CONSISTENT_PROJECTION" "consistent_projection" (hi_ConsistentProjection opt); flag "VALUES" "values" (hi_Values opt);
         maybeNumber "PAYLOAD_MAX_BYTES" "payload_max_bytes" (hi_PayloadMaxBytes opt)]
  | RStats flowType opt => RequestSpec "FLOW.STATS" nativeOpFlowStats [("type"%string, flowType)] (readOptions opt)
  | RAttributes flowType opt => RequestSpec "FLOW.ATTRIBUTES" nativeOpFlowAttributes [("type"%string, flowType)] (readOptions opt)
  | RAttributeValues flowType attribute opt =>
      RequestSpec "FLOW.ATTRIBUTE_VALUES" nativeOpFlowAttributeValues [("type"%string, flowType); ("attribute"%string, attribute)]
        (readOptions opt)
  | RRetentionCleanup opt =>
      RequestSpec "FLOW.RETENTION_CLEANUP" nativeOpFlowRetentionCleanup []
        [maybeCount "LIMIT" "limit" (rc_Limit opt); maybeNumber "NOW" "now_ms" (rc_NowMS opt)]
  | RClaimDue opt =>
      RequestSpec "FLOW.CLAIM_DUE" nativeOpFlowClaimDue [("type"%string, cd_Type opt)]
        ([Seg "STATE" "states" (ONames (claimStates opt)); text "WORKER" "worker" (cd_Worker opt);
          number "LEASE_MS" "lease_ms" (orElseInt (cd_LeaseMS opt) 30000); count "LIMIT" "limit" (orElseInt (cd_Limit opt) 1);
          number "NOW" "now_ms" (valueOrNow sentAt (cd_NowMS opt)); partition (cd_PartitionKey opt);
          partitionsOption (cd_PartitionKeys opt); maybeNumber "PRIORITY" "priority" (cd_Priority opt);
          text "RETURN" "return" (go (claimReturn (cd_JobOnly opt) (cd_IncludeState opt) (cd_IncludeAttributes opt)));
          maybeNumber "BLOCK" "block_ms" (cd_BlockMS opt)] ++
         payloadOptions (cd_Payload opt) (cd_PayloadMaxBytes opt) ++
         [valueNames (cd_Values opt); flag "RECLAIM_EXPIRED" "reclaim_expired" (cd_ReclaimExpired opt);
          maybeNumber "RECLAIM_RATIO" "reclaim_ratio" (cd_ReclaimRatio opt)])
  | RReclaim opt =>
      RequestSpec "FLOW.RECLAIM" nativeOpFlowReclaim [("type"%string, re_Type opt)]
        ([text "WORKER" "worker" (re_Worker opt); number "LEASE_MS" "lease_ms" (orElseInt (re_LeaseMS opt) 30000);
          count "LIMIT" "limit" (orElseInt (re_Limit opt) 1); number "NOW" "now_ms" (valueOrNow sentAt (re_NowMS opt));
          partition (re_PartitionKey opt); partitionsOption (re_PartitionKeys opt);
          maybeNumber "PRIORITY" "priority" (re_Priority opt);
          text "RETURN" "return" (go (claimReturn (re_JobOnly opt) false (re_IncludeAttributes opt)))] ++
         payloadOptions (re_Payload opt) (re_PayloadMaxBytes opt) ++ [valueNames (re_Values opt)])
  end.

(** ** Reads as segments *)

Lemma appendPayloadRead_segments wanted maxBytes :
  appendPayloadRead wanted maxBytes = flat_map segmentArgs (payloadOptions wanted maxBytes).
Proof. destruct wanted as [[|]|], maxBytes; reflexivity. Qed.

Lemma appendTexts name names : flat_map (appendText name) names = appendNames name (filter (fun s => given s) names).
Proof. induction names as [|[|b s] names IH]; [done|exact IH|]. rewrite filter_cons_True by done. cbn. by rewrite IH. Qed.

Lemma claimStates_args opt :
  (match cd_States opt with [] => appendText "STATE" (cd_State opt) | states => flat_map (appendText "STATE") states end) =
  appendNames "STATE" (claimStates opt).
Proof.
  unfold claimStates. destruct (cd_States opt) as [|s states]; [|by rewrite <- appendTexts].
  rewrite <- appendTexts. cbn [flat_map]. by rewrite app_nil_r.
Qed.

Lemma read_args r args :
  readArgs r = Ok args ->
  args = tok (rq_name (readSpec r)) :: (txt <$> (rq_leading (readSpec r)).*2) ++ flat_map segmentArgs (rq_options (readSpec r)).
Proof.
  destruct r; cbn [readArgs];
    unfold getArgs, infoArgs, historyArgs, statsArgs, attributesArgs, attributeValuesArgs, retentionCleanupArgs, claimDueArgs, reclaimArgs;
    intros H; inv_result; rewrite ?claimStates_args, ?appendPayloadRead_segments;
    unfold appendReadOptions, appendAttributes, appendPartitions, readOptions; cbn.
  all: rewrite <- ?app_assoc, ?app_nil_r; cbn.
  all: try reflexivity.
Qed.

(** ** The compact claim declines an explicit time *)

Context (sprint : val -> gstr).

Lemma parseFlowOptions_seen fuel : forall o args o' k,
  parseFlowOptions sprint fuel o args = Some o' -> k ∈ o_seen o -> k ∈ o_seen o'.
Proof.
  induction fuel as [|fuel IH]; intros o args o' k H Hk; destruct args as [|a rest]; try done; cbn in H; try (by injection H as <-).
  destruct (o_has _ o); [done|]. destruct (bool_decide _).
  - destruct rest as [|c rest]; [done|]. destruct (argResponseInt64 c) as [z|]; [|done]. destruct (_ || _); [done|].
    eapply IH; [exact H|]. cbn. by right.
  - destruct rest as [|v rest]; [done|]. eapply IH; [exact H|]. cbn. by right.
Qed.

Lemma parseFlowOptions_pair fuel o t a rest o' :
  argToken sprint (tok t) = go t -> go t <> go "PARTITIONS" ->
  parseFlowOptions sprint fuel o (tok t :: a :: rest) = Some o' ->
  exists fuel', parseFlowOptions sprint fuel' (addOption (go t) a o) rest = Some o'.
Proof.
  intros Ht Hp. destruct fuel as [|fuel]; [done|]. cbn [parseFlowOptions]. cbv zeta. rewrite Ht.
  destruct (o_has _ o); [done|]. rewrite bool_decide_eq_false_2 by done. eauto.
Qed.

Lemma parseFlowOptions_names t names : forall fuel o rest o',
  argToken sprint (tok t) = go t -> go t <> go "PARTITIONS" ->
  parseFlowOptions sprint fuel o (appendNames t names ++ rest) = Some o' ->
  exists fuel' o1, parseFlowOptions sprint fuel' o1 rest = Some o'.
Proof.
  induction names as [|n names IH]; intros fuel o rest o' Ht Hp H; [by eauto|].
  cbn in H. apply parseFlowOptions_pair in H as [fuel' H]; [|done..]. by eapply IH.
Qed.

Lemma compact_declines_now flowType rest :
  (forall o, parseFlowOptions sprint (length rest) noOptions rest = Some o -> go "NOW" ∈ o_seen o) ->
  buildFlowClaimDueNative sprint (flowType :: rest) = Err Declined.
Proof.
  intros H. cbn [buildFlowClaimDueNative]. destruct (compactText flowType); [|done]. cbn [orDecline rbind].
  destruct (parseFlowOptions sprint _ _ rest) as [o|]; [|done]. cbn [orDecline rbind].
  destruct (o_only claimOptions o); [|done]. cbn [negb unless rguard rbind].
  unfold o_has. by rewrite bool_decide_eq_true_2 by by apply H.
Qed.

Lemma claimDue_declined opt args :
  claimDueArgs opt = Ok args -> buildFlowClaimDueNative sprint (tail args) = Err Declined.
Proof.
  intros H. unfold claimDueArgs in H. inv_result. rewrite claimStates_args. cbn [tail app].
  apply compact_declines_now. intros o Ho.
  apply parseFlowOptions_names in Ho as (f1 & o1 & Ho); [|done..]. cbn [app] in Ho.
  apply parseFlowOptions_pair in Ho as [f2 Ho]; [|done..].
  apply parseFlowOptions_pair in Ho as [f3 Ho]; [|done..].
  apply parseFlowOptions_pair in Ho as [f4 Ho]; [|done..].
  apply parseFlowOptions_pair in Ho as [f5 Ho]; [|done..].
  eapply parseFlowOptions_seen; [exact Ho|]. cbn. left.
Qed.

(** ** The requests *)

Definition readRepeats (r : flowRead) : bool := match r with RClaimDue _ | RReclaim _ => true | _ => false end.

Lemma read_segments r :
  let s := readSpec r in
  readSegments (QueryShape (go <$> (rq_leading s).*1) (readRepeats r)) (rq_leading s).*1 (rq_options s) = true /\
  to_upper (go (rq_name s)) = go (rq_name s).
Proof. destruct r; split; vm_compute; reflexivity. Qed.

Lemma read_builder r args :
  readArgs r = Ok args ->
  flowCommandOf sprint args =
  buildFlowQueryNative sprint (go (rq_name (readSpec r))) (rq_opcode (readSpec r))
    (QueryShape (go <$> (rq_leading (readSpec r)).*1) (readRepeats r)) (tail args).
Proof.
  intros H. assert (exists rest, args = tok (rq_name (readSpec r)) :: rest) as [rest ->] by (eexists; exact (read_args r args H)).
  cbn [flowCommandOf tail]. unfold buildFlowNativeCommand. destruct (read_segments r) as [_ Hu].
  change (argPart (tok ?n)) with (to_upper (go n)). rewrite Hu. clear Hu.
  destruct r as [| | | | | | |opt|]; try reflexivity.
  change (flowBuilder sprint _) with (Some (buildFlowClaimDueAnyNative sprint)). cbv iota.
  pose proof (claimDue_declined opt _ H) as D. cbn [tail] in D.
  unfold buildFlowClaimDueAnyNative, orElse. by rewrite D.
Qed.

(** C13: a read or a claim is sent as the native request of its command, whose payload says
    what the options ask for, field by field, and says nothing else. *)
Theorem flow_read_request r args :
  readArgs r = Ok args -> flowCommandOf sprint args = Ok (specRequest (readSpec r)).
Proof.
  intros H. rewrite (read_builder r args H). apply read_args in H as ->. cbn [tail].
  rewrite buildFlowQueryNative_segments; [done| |by destruct (read_segments r)]. by rewrite !length_fmap.
Qed.

(** ** Stored values *)

Definition valuePutSegments (opt : ValuePutOptions) : list optionSegment :=
  [number "NOW" "now_ms" (valueOrNow sentAt (vp_NowMS opt)); partition (vp_PartitionKey opt);
   maybeText "OWNER_FLOW_ID" "owner_flow_id" (vp_OwnerFlowID opt); maybeText "NAME" "name" (vp_Name opt);
   flag "OVERRIDE" "override" (vp_Override opt); maybeNumber "TTL" "ttl_ms" (vp_TTLMS opt)].

Lemma valuePutLoop_option payload token field a rest :
  argToken sprint (tok token) = go token -> go token <> go "OVERRIDE" -> assoc_get (go token) valuePutFields = Some field ->
  valuePutLoop sprint payload (tok token :: a :: rest) = valuePutLoop sprint (<[field := PArg a]> payload) rest.
Proof. intros Ht Hn Hf. cbn [valuePutLoop]. cbv zeta. rewrite Ht, bool_decide_eq_false_2 by done. by rewrite Hf. Qed.

Lemma valuePutLoop_maybe payload token field a rest :
  argToken sprint (tok token) = go token -> go token <> go "OVERRIDE" -> assoc_get (go token) valuePutFields = Some (go field) ->
  valuePutLoop sprint payload (optionArgs token a ++ rest) = valuePutLoop sprint (putField payload (field, PArg <$> a)) rest.
Proof. intros. destruct a as [a|]; [|done]. by apply (valuePutLoop_option _ _ (go field)). Qed.

Lemma valuePutLoop_override payload b rest :
  valuePutLoop sprint payload (appendBoolPtr "OVERRIDE" b ++ rest) =
  valuePutLoop sprint (putField payload ("override"%string, PBool <$> b)) rest.
Proof. destruct b as [[|]|]; reflexivity. Qed.

(** A stored value is sent with what its options ask for. *)
Theorem flow_value_put_request value opt args :
  valuePutArgs value opt = Ok args ->
  flowCommandOf sprint args =
  Ok (mapRequest (go "FLOW.VALUE.PUT") nativeOpFlowValuePut
        (fieldsOf (("value"%string, PArg ∘ Arg <$> encode value) :: (segmentField <$> valuePutSegments opt)))).
Proof.
  intros H. unfold valuePutArgs, encoded in H. inv_result. destruct (encode value) as [v|]; [|done]. inv_result.
  change (flowCommandOf _ _) with
    (buildFlowValuePutNative sprint (Arg r0 :: [tok "NOW"; int64 (valueOrNow sentAt (vp_NowMS opt))] ++
      appendText "PARTITION" (vp_PartitionKey opt) ++ appendText "OWNER_FLOW_ID" (vp_OwnerFlowID opt) ++
      appendText "NAME" (vp_Name opt) ++ appendBoolPtr "OVERRIDE" (vp_Override opt) ++ appendInt64Ptr "TTL" (vp_TTLMS opt))).
  unfold buildFlowValuePutNative, appendText, appendOpt, appendInt64Ptr. cbn [app].
  rewrite (valuePutLoop_option _ "NOW" (go "now_ms")) by done.
  rewrite (valuePutLoop_maybe _ "PARTITION" "partition_key") by done.
  rewrite (valuePutLoop_maybe _ "OWNER_FLOW_ID" "owner_flow_id") by done.
  rewrite (valuePutLoop_maybe _ "NAME" "name"), valuePutLoop_override by done.
  rewrite <- (app_nil_r (optionArgs "TTL" _)), (valuePutLoop_maybe _ "TTL" "ttl_ms") by done.
  reflexivity.
Qed.

(** The names under which the limit of a read of stored values is given. *)
Definition limitNames : list gstr := [go "MAX_BYTES"; go "MAXBYTES"].

Lemma valueRefs refs : Forall (fun r => r <> []) refs -> mapM valueRef (txt <$> refs) = Some refs.
Proof.
  induction 1 as [|r refs Hr _ IH]; [done|]. destruct r as [|b r]; [done|]. cbn [fmap list_fmap mapM valueRef txt argText commandText].
  by rewrite IH.
Qed.

Lemma validateValueMGet_ok refs maxBytes :
  validateValueMGet refs maxBytes = Ok tt -> Forall (fun r => r <> []) refs /\ forall n, maxBytes = Some n -> 0 <= n.
Proof.
  unfold validateValueMGet. intros H. apply rbind_ok in H as ([] & Hr & Hm). split.
  - apply each_ok in Hr. eapply Forall_impl; [exact Hr|]. intros [|b r]; [discriminate|done].
  - intros n ->. cbn in Hm. apply rguard_ok in Hm. lia.
Qed.

(** The builder on references it has taken apart from the limit. *)
Lemma mget_build refs n args :
  refs <> [] -> Forall (fun r => r <> []) refs ->
  (match rev args with
   | limit :: option :: rest =>
       if bool_decide (argPart option = go "MAX_BYTES") || bool_decide (argPart option = go "MAXBYTES")
       then match match limit with Arg v => topologyInteger v | ArgMarker _ => None end with
            | Some n => if n <? 0 then Err (Refused (BadCount (go "FLOW.VALUE.MGET"))) else Ok (rev rest, n)
            | None => Err (Refused (BadCount (go "FLOW.VALUE.MGET")))
            end
       else Ok (args, min_int64)
   | _ => Ok (args, min_int64)
   end = Ok (txt <$> refs, n)) ->
  buildFlowValueMGetNative args = Ok (FlowRequest (go "FLOW.VALUE.MGET") nativeOpFlowValueMGet (BodyValueMGet refs n) false).
Proof.
  intros Hne Hrefs H. unfold buildFlowValueMGetNative. rewrite H. cbn [rbind].
  rewrite bool_decide_eq_false_2 by (by destruct refs). by rewrite valueRefs.
Qed.

(** The references of stored values are asked for exactly, with the limit given, unless
    the last but one of them is the name of the limit. *)
Theorem flow_value_mget_request refs maxBytes args :
  valueMGetArgs refs maxBytes = Ok args -> refs <> [] ->
  (maxBytes = None -> forall before r last, refs = before ++ [r; last] -> to_upper r ∉ limitNames) ->
  flowCommandOf sprint args =
  Ok (FlowRequest (go "FLOW.VALUE.MGET") nativeOpFlowValueMGet (BodyValueMGet refs (default min_int64 maxBytes)) false).
Proof.
  intros H Hne Hname. unfold valueMGetArgs in H. apply rbind_ok in H as ([] & Hv & [= <-]).
  apply checkedBy_ok, validateValueMGet_ok in Hv as [Hrefs Hmax].
  change (flowCommandOf _ _) with (buildFlowValueMGetNative ((txt <$> refs) ++ appendInt64Ptr "MAX_BYTES" maxBytes)).
  apply mget_build; [done|done|]. destruct maxBytes as [n|]; cbn [appendInt64Ptr optionArgs fmap option_fmap option_map].
  - rewrite rev_app_distr. cbn [rev app]. change (argPart (tok "MAX_BYTES")) with (go "MAX_BYTES").
    rewrite bool_decide_eq_true_2 by done. cbn [orb topologyInteger int64].
    specialize (Hmax n eq_refl). replace (n <? 0) with false by lia. by rewrite rev_involutive.
  - rewrite app_nil_r. specialize (Hname eq_refl).
    destruct (rev (txt <$> refs)) as [|last [|option before]] eqn:E; [done..|].
    assert (exists r, option = txt r /\ to_upper r ∉ limitNames) as (r & -> & Hr).
    { apply (f_equal (@rev _)) in E. rewrite rev_involutive in E. cbn [rev] in E.
      rewrite <- app_assoc in E. cbn [app] in E.
      apply fmap_app_inv in E as (l1 & l2 & _ & E2 & ->). destruct l2 as [|r [|x [|]]]; try discriminate E2.
      injection E2 as Hr Hx. exists r. split; [done|]. by eapply Hname. }
    change (argPart (txt r)) with (to_upper r). unfold limitNames in Hr.
    rewrite !not_elem_of_cons in Hr. destruct Hr as (H1 & H2 & _).
    by rewrite !bool_decide_eq_false_2.
Qed.
End Reads.

(** A claim over two partitions, with payloads up to a size. *)
Definition sampleClaim : flowRead :=
  RClaimDue (ClaimDueOf (go "order") (go "queued") [] (go "worker-1") [] [go "a"; go "b"] 30000 10 None 1000 (Some 50) None None false
    (Some true) (Some 4096) [go "total"] false None).

Lemma flow_read_request_witness :
  exists args, readArgs 1000 1000 sampleClaim = Ok args /\
    flowCommandOf (fun _ => []) args = Ok (specRequest (readSpec 1000 sampleClaim)) /\
    specFields (readSpec 1000 sampleClaim) !! go "partition_keys" = Some (PStrings [go "a"; go "b"]).
Proof.
  eexists. split; [vm_compute; reflexivity|]. split; [|vm_compute; reflexivity].
  apply (flow_read_request 1000 1000). vm_compute. reflexivity.
Defined.

(** Two references, of which the first is named like the limit: it is taken for it. *)
Lemma flow_value_mget_name_refused :
  exists args, valueMGetArgs [go "max_bytes"; go "total"] None = Ok args /\ flowCommandOf (fun _ => []) args = Err (Refused (BadCount (go "FLOW.VALUE.MGET"))).
Proof. eexists. split; [vm_compute; reflexivity|].
 vm_compute. reflexivity. Qed.
