(* ===== verification/FlowBatches.v ===== *)
(** Batches of Flow mutations, children and policies: the argument list the client sends
    (src/client_flow_many.go, src/client_flow.go, src/client_flow_spawn.go,
    src/client_flow_helpers.go, src/client_flow_item_maps.go, src/client_flow_policy.go),
    and the native request it becomes. *)

From S2P Require Export FlowReads.

(** A name that is not in a list of names. *)
Ltac absent := match goal with |- ?x ∉ ?l => refine (bool_decide_eq_false_1 (x ∈ l) _); vm_compute; reflexivity end.

Section Batches.
(** The codec and the clock of the client, as for single mutations, and the identities of
    the containers a batch makes. *)
Context (encode : val -> option val) (deterministic : bool) (checkedAt sentAt : Z) (fresh : nat -> Z).

Abbreviation appendEncoded := (appendEncoded encode).
Abbreviation appendNamedValues := (appendNamedValues encode deterministic).
Abbreviation valueOrNow := (valueOrNow sentAt).
Abbreviation encoded := (encoded encode).

(** ** Partitions and items *)

Definition mixedPartition (partitionKey : gstr) : gstr := if given partitionKey then partitionKey else go "MIXED".

Definition appendClaimedItems (partitionKey : gstr) (items : list ClaimedItemRef) : list arg :=
  tok "ITEMS" :: flat_map (fun item =>
    if given partitionKey then [txt (cl_ID item); txt (cl_LeaseToken item); int64 (cl_FencingToken item)]
    else [txt (cl_ID item); txt (cl_PartitionKey item); txt (cl_LeaseToken item); int64 (cl_FencingToken item)]) items.

Definition appendFencedItems (partitionKey : gstr) (items : list FencedItem) (includeLease : bool) : list arg :=
  tok "ITEMS" :: flat_map (fun item =>
    (if given partitionKey then [txt (fe_ID item)] else [txt (fe_ID item); txt (fe_PartitionKey item)]) ++
    int64 (fe_FencingToken item) :: (if includeLease then [txt (fe_LeaseToken item)] else [])) items.

(** ** Mutations of batches

    Of no items nothing is sent. *)

Definition completeManyArgs (opt : CompleteManyOptions) : result clientError (list arg) :=
  let! _ := checkedBy (validateCompleteManyOptions checkedAt opt) in
  let! _ := checkedBy (validateClaimedItemPartitions (cmp_PartitionKey opt) (cmp_Items opt) (go "FLOW.COMPLETE_MANY")) in
  let! result := appendEncoded "RESULT" (cmp_Result opt) in
  let! payload := appendEncoded "PAYLOAD" (cmp_Payload opt) in
  let! named := appendNamedValues (cmp_Named opt) in
  Ok ([tok "FLOW.COMPLETE_MANY"; txt (mixedPartition (cmp_PartitionKey opt))] ++ result ++ payload ++
      appendInt64Ptr "TTL" (cmp_TTLMS opt) ++ [tok "NOW"; int64 (valueOrNow (cmp_NowMS opt))] ++
      appendBoolPtr "INDEPENDENT" (cmp_Independent opt) ++ named ++ namedMetadata (cmp_Named opt) (cmp_StateMeta opt) ++
      appendClaimedItems (cmp_PartitionKey opt) (cmp_Items opt)).

Definition transitionManyArgs (opt : TransitionManyOptions) : result clientError (list arg) :=
  let! _ := checkedBy (validateTransitionManyOptions opt) in
  let! _ := checkedBy (validateFencedItemPartitions (tm_PartitionKey opt) (tm_Items opt) (go "FLOW.TRANSITION_MANY")) in
  let! payload := appendEncoded "PAYLOAD" (tm_Payload opt) in
  let! named := appendNamedValues (tm_Named opt) in
  Ok ([tok "FLOW.TRANSITION_MANY"; txt (mixedPartition (tm_PartitionKey opt)); txt (tm_FromState opt); txt (tm_ToState opt)] ++
      payload ++ appendNonZero "RUN_AT" (tm_RunAtMS opt) ++ appendInt64Ptr "PRIORITY" (tm_Priority opt) ++
      [tok "NOW"; int64 (valueOrNow (tm_NowMS opt))] ++ appendBoolPtr "INDEPENDENT" (tm_Independent opt) ++ named ++
      namedMetadata (tm_Named opt) (tm_StateMeta opt) ++ appendFencedItems (tm_PartitionKey opt) (tm_Items opt) true).

Definition retryManyArgs (opt : RetryManyOptions) : result clientError (list arg) :=
  let! _ := checkedBy (validateRetryManyOptions opt) in
  let! _ := checkedBy (validateClaimedItemPartitions (rm_PartitionKey opt) (rm_Items opt) (go "FLOW.RETRY_MANY")) in
  let! error := appendEncoded "ERROR" (rm_Error opt) in
  let! payload := appendEncoded "PAYLOAD" (rm_Payload opt) in
  Ok ([tok "FLOW.RETRY_MANY"; txt (mixedPartition (rm_PartitionKey opt))] ++ error ++ payload ++
      appendNonZero "RUN_AT" (rm_RunAtMS opt) ++ [tok "NOW"; int64 (valueOrNow (rm_NowMS opt))] ++
      appendBoolPtr "INDEPENDENT" (rm_Independent opt) ++
      mergedMetadata (rm_AttributesMerge opt) (rm_AttributesDelete opt) (rm_StateMeta opt) ++
      appendClaimedItems (rm_PartitionKey opt) (rm_Items opt)).

Definition failManyArgs (opt : FailManyOptions) : result clientError (list arg) :=
  let! _ := checkedBy (validateFailManyOptions checkedAt opt) in
  let! _ := checkedBy (validateClaimedItemPartitions (fm_PartitionKey opt) (fm_Items opt) (go "FLOW.FAIL_MANY")) in
  let! error := appendEncoded "ERROR" (fm_Error opt) in
  let! payload := appendEncoded "PAYLOAD" (fm_Payload opt) in
  let! named := appendNamedValues (fm_Named opt) in
  Ok ([tok "FLOW.FAIL_MANY"; txt (mixedPartition (fm_PartitionKey opt))] ++ error ++ payload ++ appendInt64Ptr "TTL" (fm_TTLMS opt) ++
      [tok "NOW"; int64 (valueOrNow (fm_NowMS opt))] ++ appendBoolPtr "INDEPENDENT" (fm_Independent opt) ++ named ++
      namedMetadata (fm_Named opt) (fm_StateMeta opt) ++ appendClaimedItems (fm_PartitionKey opt) (fm_Items opt)).

Definition cancelManyArgs (opt : CancelManyOptions) : result clientError (list arg) :=
  let! _ := checkedBy (validateCancelManyOptions checkedAt opt) in
  let! _ := checkedBy (validateFencedItemPartitions (cam_PartitionKey opt) (cam_Items opt) (go "FLOW.CANCEL_MANY")) in
  let! reason := appendEncoded "REASON" (cam_Reason opt) in
  let! named := appendNamedValues (cam_Named opt) in
  Ok ([tok "FLOW.CANCEL_MANY"; txt (mixedPartition (cam_PartitionKey opt))] ++ reason ++ appendInt64Ptr "TTL" (cam_TTLMS opt) ++
      [tok "NOW"; int64 (valueOrNow (cam_NowMS opt))] ++ appendBoolPtr "INDEPENDENT" (cam_Independent opt) ++ named ++
      namedMetadata (cam_Named opt) (cam_StateMeta opt) ++ appendFencedItems (cam_PartitionKey opt) (cam_Items opt) false).

(** A [[]string], and a map made by the client. *)
Definition strings (id : nat) (l : list gstr) : val := VArray (Some (fresh id)) (VString <$> l).
Definition mapping (id : nat) (m : valueMap) : val := VMap (Some (fresh id)) m.

(** [runStepsItems]. *)
Definition runStepsItem (partitionKey : gstr) (id : nat) (item : RunStepsItem) : val :=
  let key := if given (ri_PartitionKey item) then ri_PartitionKey item else partitionKey in
  mapping id ((go "id", VString (ri_ID item)) :: (if given key then [(go "partition_key", VString key)] else [])).

Definition runStepsItems (items : list RunStepsItem) (partitionKey : gstr) : val :=
  VArray (Some (fresh 0)) (imap (fun i => runStepsItem partitionKey (S i)) items).

Definition runStepsManyArgs (opt : RunStepsManyOptions) : result clientError (list arg) :=
  let! _ := checkedBy (validateRunStepsManyOptions checkedAt opt) in
  let! payload := appendEncoded "PAYLOAD" (rs_Payload opt) in
  let! result := appendEncoded "RESULT" (rs_Result opt) in
  Ok ([tok "FLOW.RUN_STEPS_MANY"; tok "TYPE"; txt (rs_Type opt)] ++
      (match rs_States opt with [] => [tok "STEPS"; int (rs_Steps opt)] | states => [tok "STATES"; Arg (strings 0 states)] end) ++
      [tok "WORKER"; txt (rs_Worker opt); tok "LEASE_MS"; int64 (orElseInt (rs_LeaseMS opt) 30000);
       tok "NOW"; int64 (valueOrNow (rs_NowMS opt))] ++ payload ++ result ++ appendInt64Ptr "RETENTION_TTL_MS" (rs_RetentionTTLMS opt) ++
      [tok "ITEMS"; Arg (runStepsItems (rs_Items opt) (rs_PartitionKey opt))]).

(** ** Items with values of their own *)

(** [mergeValues] and [mergeRefs]: the item's stand over the shared. *)
Definition mergeMaps {A} (base item : list (gstr * A)) : list (gstr * A) :=
  match base, item with
  | [], _ => item
  | _, [] => base
  | _, _ => filter (fun e => negb (assoc_has e.1 item)) base ++ item
  end.

(** [appendNamedCounts]. *)
Definition appendNamedCounts (values : valueMap) (refs : textMap) : result clientError (list arg) :=
  let! entries := encodedEntries encode (encodeOrder deterministic values) in
  Ok (int (blen values) :: flat_map (fun e => [txt e.1; e.2]) entries ++
      int (blen refs) :: flat_map (fun e => [txt e.1; txt e.2]) refs).

(** [putEncodedFlowValues], [canonicalFlowMetadataMap] and the rest of an item's map. *)
Definition encodedValuesOf (values : valueMap) : result clientError valueMap :=
  let! entries := encodedEntries encode (encodeOrder deterministic values) in
  Ok (flat_map (fun e => match e.2 with Arg v => [(e.1, v)] | ArgMarker _ => [] end) entries).

Definition mapEntry (id : nat) (field : String.string) (m : valueMap) : valueMap :=
  match m with [] => [] | _ => [(go field, mapping id m)] end.

Definition canonicalFlowMetadataMap (m : valueMap) : valueMap := map_to_list (list_to_map (rev (prod_map canonicalFlowMetadataKey id <$> m)) : gmap gstr val).

Definition itemMap (id : nat) (start : valueMap) (values : valueMap) (refs : textMap) (attributes meta : valueMap) (limit : val)
  : result clientError val :=
  let! values := encodedValuesOf values in
  let! limit := checkedBy (canonicalFlowMaxActiveMS limit) in
  Ok (mapping id (start ++ mapEntry (id + 1) "values" values ++ mapEntry (id + 2) "value_refs" (prod_map Datatypes.id VString <$> refs) ++
                  mapEntry (id + 3) "attributes" (canonicalFlowMetadataMap attributes) ++
                  mapEntry (id + 4) "state_meta" (canonicalFlowMetadataMap meta) ++
                  match limit with Some v => [(go "max_active_ms", v)] | None => [] end)).

Definition textEntry (field : String.string) (s : gstr) : valueMap := if given s then [(go field, VString s)] else [].

Definition createManyItemMap (shared : CreateManyOptions) (id : nat) (item : CreateItem) : result clientError val :=
  let! payload := encoded (ci_Payload item) in
  itemMap id ([(go "id", VString (ci_ID item)); (go "payload", payload)] ++ textEntry "partition_key" (ci_PartitionKey item))
    (mergeMaps (cm_Values shared) (ci_Values item)) (mergeMaps (cm_ValueRefs shared) (ci_ValueRefs item))
    (ci_Attributes item) (ci_StateMeta item) (ci_MaxActiveMS item).

Definition childItemMap (shared : SpawnChildrenOptions) (id : nat) (child : ChildSpec) : result clientError val :=
  let! payload := encoded (ch_Payload child) in
  let partition := if given (ch_PartitionKey child) then ch_PartitionKey child else sp_PartitionKey shared in
  itemMap id ([(go "id", VString (ch_ID child)); (go "type", VString (ch_Type child)); (go "payload", payload)] ++
              textEntry "partition_key" partition)
    (mergeMaps (sp_Values shared) (ch_Values child)) (mergeMaps (sp_ValueRefs shared) (ch_ValueRefs child))
    (ch_Attributes child) (ch_StateMeta child) (ch_MaxActiveMS child).

(** ** Creation of batches *)

Definition isSome (v : val) : bool := match v with VNil => false | _ => true end.
Definition some {A} (l : list A) : bool := match l with [] => false | _ => true end.

Definition anyItemPartition (items : list CreateItem) : bool := existsb (fun i => given (ci_PartitionKey i)) items.
Definition anyCreateItemValues (items : list CreateItem) : bool := existsb (fun i => some (ci_Values i) || some (ci_ValueRefs i)) items.
Definition anyCreateItemMaps (items : list CreateItem) : bool :=
  existsb (fun i => isSome (ci_MaxActiveMS i)) items || existsb (fun i => some (ci_Attributes i)) items ||
  existsb (fun i => some (ci_StateMeta i)) items.

Definition createManyPartitionMode (partitionKey : gstr) (items : list CreateItem) : result clientError bool :=
  if given partitionKey then
    if existsb (fun i => given (ci_PartitionKey i) && negb (bool_decide (ci_PartitionKey i = partitionKey))) items
    then Err MixedPartition else Ok false
  else if anyItemPartition items then
    if existsb (fun i => negb (given (ci_PartitionKey i))) items then Err MixedPartition else Ok true
  else Ok false.

(** The items one after another, the containers of each under identities of its own. *)
Fixpoint eachItem {A B} (f : nat -> A -> result clientError B) (id : nat) (l : list A) : result clientError (list B) :=
  match l with [] => Ok [] | x :: l => let! y := f id x in let! ys := eachItem f (id + 5) l in Ok (y :: ys) end.

Definition extendedCreateItem (shared : CreateManyOptions) (mixed : bool) (item : CreateItem) : result clientError (list arg) :=
  let! payload := encoded (ci_Payload item) in
  let! counts := appendNamedCounts (mergeMaps (cm_Values shared) (ci_Values item)) (mergeMaps (cm_ValueRefs shared) (ci_ValueRefs item)) in
  Ok ([txt (ci_ID item); (if mixed then txt (ci_PartitionKey item) else tok "-"); Arg payload] ++ counts).

Definition plainCreateItem (mixed : bool) (item : CreateItem) : result clientError (list arg) :=
  let! payload := encoded (ci_Payload item) in
  Ok (txt (ci_ID item) :: (if mixed then [txt (ci_PartitionKey item)] else []) ++ [Arg payload]).

Definition wirePartitionOf (partitionKey : gstr) (mixed : bool) : gstr :=
  if mixed then go "MIXED" else if given partitionKey then partitionKey else go "AUTO".

(** [CreateMany], where the compact form is not taken. *)
Definition createManyArgs (opt : CreateManyOptions) : result clientError (list arg) :=
  let! _ := checkedBy (validateCreateManyOptions opt) in
  let! mixed := createManyPartitionMode (cm_PartitionKey opt) (cm_Items opt) in
  let now := valueOrNow (cm_NowMS opt) in
  let! limit := appendFlowMaxActiveMS (cm_MaxActiveMS opt) in
  let! items :=
    if anyCreateItemMaps (cm_Items opt) then
      let! maps := eachItem (createManyItemMap opt) 0 (cm_Items opt) in
      Ok (tok "ITEMS_MAPS" :: int (blen (cm_Items opt)) :: (Arg <$> maps))
    else if anyCreateItemValues (cm_Items opt) then
      let! items := eachItem (fun _ => extendedCreateItem opt mixed) 0 (cm_Items opt) in
      Ok (tok "ITEMS_EXT" :: int (blen (cm_Items opt)) :: concat items)
    else
      let! named := appendNamedValues (valuesAndRefs (cm_Values opt) (cm_ValueRefs opt)) in
      let! items := eachItem (fun _ => plainCreateItem mixed) 0 (cm_Items opt) in
      Ok (named ++ tok "ITEMS" :: concat items) in
  Ok ([tok "FLOW.CREATE_MANY"; txt (wirePartitionOf (cm_PartitionKey opt) mixed); tok "TYPE"; txt (cm_Type opt);
       tok "STATE"; txt (orElseText (cm_State opt) "queued"); tok "NOW"; int64 now; tok "RUN_AT"; int64 (orElseInt (cm_RunAtMS opt) now)] ++
      appendInt64Ptr "PRIORITY" (cm_Priority opt) ++ appendBoolPtr "IDEMPOTENT" (cm_Idempotent opt) ++
      appendBoolPtr "INDEPENDENT" (cm_Independent opt) ++ appendInt64Ptr "RETENTION_TTL_MS" (cm_RetentionTTLMS opt) ++ limit ++
      appendAttributes (cm_Attributes opt) [] [] ++ appendStateMeta (cm_StateMeta opt) ++ items).

(** ** Children *)

Definition anyChildPartition (children : list ChildSpec) : bool := existsb (fun c => given (ch_PartitionKey c)) children.
Definition anyChildValues (children : list ChildSpec) : bool := existsb (fun c => some (ch_Values c) || some (ch_ValueRefs c)) children.
Definition anyChildMaps (children : list ChildSpec) : bool :=
  existsb (fun c => isSome (ch_MaxActiveMS c)) children || existsb (fun c => some (ch_Attributes c)) children ||
  existsb (fun c => some (ch_StateMeta c)) children.

(** The partition a child is created in: its own or, in a mixed batch, its parent's. *)
Definition childPartition (shared : SpawnChildrenOptions) (child : ChildSpec) : gstr :=
  if given (ch_PartitionKey child) then ch_PartitionKey child else sp_PartitionKey shared.

Definition extendedChild (shared : SpawnChildrenOptions) (mixed : bool) (child : ChildSpec) : result clientError (list arg) :=
  let partition :=
    if given (ch_PartitionKey child) then ch_PartitionKey child else if mixed then sp_PartitionKey shared else go "-" in
  let! payload := encoded (ch_Payload child) in
  let! counts := appendNamedCounts (mergeMaps (sp_Values shared) (ch_Values child)) (mergeMaps (sp_ValueRefs shared) (ch_ValueRefs child)) in
  Ok ([txt (ch_ID child); txt partition; txt (ch_Type child); Arg payload] ++ counts).

Definition plainChild (shared : SpawnChildrenOptions) (mixed : bool) (child : ChildSpec) : result clientError (list arg) :=
  let! payload := encoded (ch_Payload child) in
  Ok (txt (ch_ID child) :: (if mixed then [txt (childPartition shared child)] else []) ++ [txt (ch_Type child); Arg payload]).

Definition spawnChildrenArgs (options : SpawnChildrenOptions) : result clientError (list arg) :=
  let opt := normalizeSpawnChildrenOptions options in
  let! _ := checkedBy (validateSpawnChildrenOptions opt) in
  let! limit := appendFlowMaxActiveMS (sp_MaxActiveMS opt) in
  let mixed := anyChildPartition (sp_Children opt) in
  let! items :=
    if anyChildMaps (sp_Children opt) then
      let! maps := eachItem (childItemMap opt) 0 (sp_Children opt) in
      Ok (tok "ITEMS_MAPS" :: int (blen (sp_Children opt)) :: (Arg <$> maps))
    else if anyChildValues (sp_Children opt) then
      let! items := eachItem (fun _ => extendedChild opt mixed) 0 (sp_Children opt) in
      Ok (tok "ITEMS_EXT" :: int (blen (sp_Children opt)) :: concat items)
    else
      let! named := appendNamedValues (valuesAndRefs (sp_Values opt) (sp_ValueRefs opt)) in
      let! items := eachItem (fun _ => plainChild opt mixed) 0 (sp_Children opt) in
      Ok (named ++ tok "ITEMS" :: (if mixed then [tok "MIXED"] else []) ++ concat items) in
  Ok ([tok "FLOW.SPAWN_CHILDREN"; txt (sp_ID opt); tok "GROUP"; txt (sp_GroupID opt); tok "WAIT"; txt (sp_Wait opt);
       tok "NOW"; int64 (valueOrNow (sp_NowMS opt))] ++
      appendText "PARTITION" (sp_PartitionKey opt) ++ appendText "LEASE_TOKEN" (sp_LeaseToken opt) ++
      appendInt64Ptr "FENCING" (sp_FencingToken opt) ++ appendText "WAIT_STATE" (sp_WaitState opt) ++
      appendText "SUCCESS" (sp_Success opt) ++ appendText "FAILURE" (sp_Failure opt) ++ appendText "FROM_STATE" (sp_FromState opt) ++
      appendText "ON_CHILD_FAILED" (sp_OnChildFailed opt) ++ appendText "ON_PARENT_CLOSED" (sp_OnParentClosed opt) ++ limit ++ items).

(** ** Mutations of batches together *)

Inductive batchMutation :=
| BComplete (opt : CompleteManyOptions)
| BTransition (opt : TransitionManyOptions)
| BRetry (opt : RetryManyOptions)
| BFail (opt : FailManyOptions)
| BCancel (opt : CancelManyOptions).

Definition batchArgs (b : batchMutation) : result clientError (list arg) :=
  match b with
  | BComplete opt => completeManyArgs opt
  | BTransition opt => transitionManyArgs opt
  | BRetry opt => retryManyArgs opt
  | BFail opt => failManyArgs opt
  | BCancel opt => cancelManyArgs opt
  end.

(** What a batch asks for: one partition or, without, that of each item; the states it moves
    between; its options; and for each item what its mutation is guarded by. *)
Record mutationItem := BatchItem { bi_id : gstr; bi_partition : gstr; bi_lease : gstr; bi_fencing : Z }.

Record batchSpec := BatchSpec {
  bs_name : String.string;
  bs_opcode : Z;
  bs_kind : nativeFlowManyItemKind;
  bs_partition : gstr;
  bs_states : list (String.string * gstr);
  bs_options : list optionSegment;
  bs_items : list mutationItem;
}.

Definition claimedItem (i : ClaimedItemRef) : mutationItem := BatchItem (cl_ID i) (cl_PartitionKey i) (cl_LeaseToken i) (cl_FencingToken i).
Definition fencedItem (i : FencedItem) : mutationItem := BatchItem (fe_ID i) (fe_PartitionKey i) (fe_LeaseToken i) (fe_FencingToken i).

Abbreviation userValue := (userValue encode).
Abbreviation atTime := (atTime sentAt).
Abbreviation namedAndMetadata := (namedAndMetadata encode deterministic).
Definition independent (b : option bool) : optionSegment := flag "INDEPENDENT" "independent" b.

Definition batchSpecOf (b : batchMutation) : batchSpec :=
  match b with
  | BComplete opt =>
      BatchSpec "FLOW.COMPLETE_MANY" nativeOpFlowCompleteMany nativeFlowManyClaimed (cmp_PartitionKey opt) []
        ([userValue "RESULT" "result" (cmp_Result opt); userValue "PAYLOAD" "payload" (cmp_Payload opt);
          maybeNumber "TTL" "ttl_ms" (cmp_TTLMS opt); atTime (cmp_NowMS opt); independent (cmp_Independent opt)] ++
         namedAndMetadata (cmp_Named opt) (cmp_StateMeta opt)) (claimedItem <$> cmp_Items opt)
  | BTransition opt =>
      BatchSpec "FLOW.TRANSITION_MANY" nativeOpFlowTransitionMany nativeFlowManyTransition (tm_PartitionKey opt)
        [("from_state"%string, tm_FromState opt); ("to_state"%string, tm_ToState opt)]
        ([userValue "PAYLOAD" "payload" (tm_Payload opt); maybeNumber "RUN_AT" "run_at_ms" (nonZero (tm_RunAtMS opt));
          maybeNumber "PRIORITY" "priority" (tm_Priority opt); atTime (tm_NowMS opt); independent (tm_Independent opt)] ++
         namedAndMetadata (tm_Named opt) (tm_StateMeta opt)) (fencedItem <$> tm_Items opt)
  | BRetry opt =>
      BatchSpec "FLOW.RETRY_MANY" nativeOpFlowRetryMany nativeFlowManyClaimed (rm_PartitionKey opt) []
        ([userValue "ERROR" "error" (rm_Error opt); userValue "PAYLOAD" "payload" (rm_Payload opt);
          maybeNumber "RUN_AT" "run_at_ms" (nonZero (rm_RunAtMS opt)); atTime (rm_NowMS opt); independent (rm_Independent opt)] ++
         metadataOptions (rm_AttributesMerge opt) (rm_AttributesDelete opt) (rm_StateMeta opt)) (claimedItem <$> rm_Items opt)
  | BFail opt =>
      BatchSpec "FLOW.FAIL_MANY" nativeOpFlowFailMany nativeFlowManyClaimed (fm_PartitionKey opt) []
        ([userValue "ERROR" "error" (fm_Error opt); userValue "PAYLOAD" "payload" (fm_Payload opt);
          maybeNumber "TTL" "ttl_ms" (fm_TTLMS opt); atTime (fm_NowMS opt); independent (fm_Independent opt)] ++
         namedAndMetadata (fm_Named opt) (fm_StateMeta opt)) (claimedItem <$> fm_Items opt)
  | BCancel opt =>
      BatchSpec "FLOW.CANCEL_MANY" nativeOpFlowCancelMany nativeFlowManyCancel (cam_PartitionKey opt) []
        ([userValue "REASON" "reason" (cam_Reason opt); maybeNumber "TTL" "ttl_ms" (cam_TTLMS opt); atTime (cam_NowMS opt);
          independent (cam_Independent opt)] ++
         namedAndMetadata (cam_Named opt) (cam_StateMeta opt)) (fencedItem <$> cam_Items opt)
  end.

Definition itemArgs (kind : nativeFlowManyItemKind) (partitionKey : gstr) (i : mutationItem) : list arg :=
  txt (bi_id i) :: (if given partitionKey then [] else [txt (bi_partition i)]) ++
  match kind with
  | nativeFlowManyClaimed => [txt (bi_lease i); int64 (bi_fencing i)]
  | nativeFlowManyTransition => [int64 (bi_fencing i); txt (bi_lease i)]
  | nativeFlowManyCancel => [int64 (bi_fencing i)]
  end.

Definition itemField (kind : nativeFlowManyItemKind) (partitionKey : gstr) (i : mutationItem) : pval :=
  PMap (fieldsOf
    ([("partition_key"%string, if given partitionKey then None else Some (PArg (txt (bi_partition i))));
      ("id"%string, Some (PArg (txt (bi_id i))))] ++
     match kind with
     | nativeFlowManyCancel => [("fencing_token"%string, Some (PInt (bi_fencing i)))]
     | nativeFlowManyClaimed =>
         [("lease_token"%string, Some (PArg (txt (bi_lease i)))); ("fencing_token"%string, Some (PInt (bi_fencing i)))]
     | nativeFlowManyTransition =>
         [("fencing_token"%string, Some (PInt (bi_fencing i))); ("lease_token"%string, Some (PArg (txt (bi_lease i))))]
     end)).

Definition batchLeading (b : batchSpec) : fieldList :=
  ("partition_key"%string, if given (bs_partition b) then Some (PArg (txt (bs_partition b))) else None) ::
  ((fun s => (s.1, Some (PArg (txt s.2)))) <$> bs_states b).

Definition batchFields (b : batchSpec) : payloadMap :=
  fieldsOf (batchLeading b ++ (segmentField <$> bs_options b) ++
            [("items"%string, Some (PList (itemField (bs_kind b) (bs_partition b) <$> bs_items b)))]).

Definition batchRequest (b : batchSpec) : flowRequest := mapRequest (go (bs_name b)) (bs_opcode b) (batchFields b).

(** ** The arguments of a batch *)

Lemma batch_args b args :
  batchArgs b = Ok args ->
  let s := batchSpecOf b in
  args = tok (bs_name s) :: txt (mixedPartition (bs_partition s)) :: (txt <$> (bs_states s).*2) ++
         flat_map segmentArgs (bs_options s) ++ tok "ITEMS" :: flat_map (itemArgs (bs_kind s) (bs_partition s)) (bs_items s).
Proof.
  assert (claimed : forall key items, appendClaimedItems key items =
    tok "ITEMS" :: flat_map (itemArgs nativeFlowManyClaimed key) (claimedItem <$> items)).
  { intros key items. unfold appendClaimedItems. f_equal. induction items as [|i items IH]; [done|]. cbn [flat_map fmap list_fmap].
    rewrite IH. by destruct key. }
  assert (fenced : forall key items lease, appendFencedItems key items lease =
    tok "ITEMS" :: flat_map (itemArgs (if lease then nativeFlowManyTransition else nativeFlowManyCancel) key) (fencedItem <$> items)).
  { intros key items lease. unfold appendFencedItems. f_equal. induction items as [|i items IH]; [done|]. cbn [flat_map fmap list_fmap].
    rewrite IH. by destruct key, lease. }
  destruct b; cbn [batchArgs]; unfold completeManyArgs, transitionManyArgs, retryManyArgs, failManyArgs, cancelManyArgs;
    intros H; inv_result;
    repeat match goal with
    | H : FlowClient.appendEncoded _ _ _ = Ok _ |- _ => apply appendEncoded_ok in H as ->
    | H : FlowClient.appendNamedValues _ _ _ = Ok _ |- _ => apply appendNamedValues_ok in H as ->
    end;
    rewrite ?claimed, ?fenced, ?namedMetadata_segments; unfold mergedMetadata, appendAttributes; cbn.
  all: repeat (rewrite <- ?app_assoc; cbn); reflexivity.
Qed.

(** ** Reading the items of a batch *)

Context (sprint : val -> gstr).

Lemma itemArgs_length kind key i : length (itemArgs kind key i) = (S (manyFields kind) + (if given key then 0 else 1))%nat.
Proof. by destruct kind, key. Qed.

Lemma items_length kind key items :
  length (flat_map (itemArgs kind key) items) = ((S (manyFields kind) + (if given key then 0 else 1)) * length items)%nat.
Proof.
  induction items as [|i items IH]; [cbn; lia|]. cbn [flat_map length].
  rewrite length_app, itemArgs_length, IH. destruct kind, (given key); cbn; lia.
Qed.

Lemma manyItemsLoop_item fuel name kind key i rest :
  manyItemsLoop (S fuel) name (negb (given key)) kind (itemArgs kind key i ++ rest) =
  (let! items := manyItemsLoop fuel name (negb (given key)) kind rest in Ok (itemField kind key i :: items)).
Proof.
  destruct i as [id part lease token], kind, key; cbn; rewrite take_0, drop_0; cbn; destruct (manyItemsLoop _ _ _ _ rest); reflexivity.
Qed.

Lemma manyItemsLoop_items name kind key items : forall fuel,
  (length items <= fuel)%nat ->
  manyItemsLoop fuel name (negb (given key)) kind (flat_map (itemArgs kind key) items) = Ok (itemField kind key <$> items).
Proof.
  induction items as [|i items IH]; intros fuel H; [by destruct fuel|]. destruct fuel as [|fuel]; [cbn in H; lia|].
  cbn [flat_map fmap list_fmap]. rewrite manyItemsLoop_item, IH by (cbn in H; lia). done.
Qed.

Lemma parseFlowMutationManyItems_items name kind key items :
  items <> [] ->
  parseFlowMutationManyItems name (flat_map (itemArgs kind key) items) (negb (given key)) kind = Ok (itemField kind key <$> items).
Proof.
  intros Hne. unfold parseFlowMutationManyItems.
  replace (if negb (given key) then 1%nat else 0%nat) with (if given key then 0%nat else 1%nat) by (by destruct (given key)).
  rewrite items_length. rewrite (Nat.mul_comm _ (length items)), Nat.Div0.mod_mul. cbn [Nat.eqb negb orb].
  rewrite bool_decide_eq_false_2 by (destruct items as [|i items]; [done|]; by destruct kind, (given key)).
  cbn [orb]. apply manyItemsLoop_items. destruct kind, (given key); cbn; lia.
Qed.

(** The states a kind of batch moves between. *)
Definition statesOf (kind : nativeFlowManyItemKind) : list String.string :=
  match kind with nativeFlowManyTransition => ["from_state"; "to_state"]%string | _ => [] end.

Lemma buildFlowMutationManyNative_batch (b : batchSpec) :
  (bs_states b).*1 = statesOf (bs_kind b) -> forallb beforeItems (bs_options b) = true ->
  mutationSegments (batchLeading b).*1 (bs_options b) = true -> bs_items b <> [] ->
  (given (bs_partition b) = true -> equal_fold (bs_partition b) (go "MIXED") = false) ->
  buildFlowMutationManyNative sprint (go (bs_name b)) (bs_opcode b) (bs_kind b)
    (txt (mixedPartition (bs_partition b)) :: (txt <$> (bs_states b).*2) ++ flat_map segmentArgs (bs_options b) ++
     tok "ITEMS" :: flat_map (itemArgs (bs_kind b) (bs_partition b)) (bs_items b)) = Ok (batchRequest b).
Proof.
  destruct b as [name opcode kind key states options items]. cbn [bs_states bs_kind bs_options bs_items bs_partition bs_name bs_opcode].
  intros Hstates Hbefore Hseg Hne Hkey.
  assert (Hmixed : equal_fold (mixedPartition key) (go "MIXED") = negb (given key)).
  { unfold mixedPartition. destruct (given key); [by apply Hkey|by vm_compute]. }
  unfold buildFlowMutationManyNative. cbv zeta. change (argString sprint (txt ?s)) with s.
  assert (Hlead : (if negb (given key) then ∅ else {[go "partition_key" := PArg (txt (mixedPartition key))]} : payloadMap) =
                  fieldsOf [("partition_key"%string, if given key then Some (PArg (txt key)) else None)])
    by (unfold mixedPartition; by destruct (given key)).
  destruct kind, states as [|[f v] [|[f0 v0] [|[f1 v1] states]]]; try discriminate Hstates;
    try (injection Hstates as -> ->); cbn [fmap list_fmap length Nat.ltb Nat.leb drop skipn app fst snd].
  all: rewrite ?drop_0, Hmixed, flowItemMarker_batch by (done || left).
  all: rewrite bool_decide_eq_true_2 by done; cbn [negb]; rewrite Hlead, parseFlowMutationManyItems_items by done.
  all: repeat match goal with |- context [<[go ?f := ?v]> (fieldsOf ?l)] =>
         change (<[go f := v]> (fieldsOf l)) with (fieldsOf (l ++ [(f, Some v)])) end; cbn [app].
  all: rewrite readMutation_segments by exact Hseg; cbn [rbind]; unfold batchRequest, batchFields; cbn [bs_name bs_opcode bs_kind bs_partition bs_options bs_items].
  all: by rewrite (app_assoc (batchLeading _)), (fieldsOf_app (batchLeading _ ++ _)).
Qed.

(** ** Requests of batches *)

Lemma batch_segments b :
  let s := batchSpecOf b in
  (bs_states s).*1 = statesOf (bs_kind s) /\ forallb beforeItems (bs_options s) = true /\
  mutationSegments (batchLeading s).*1 (bs_options s) = true /\ to_upper (go (bs_name s)) = go (bs_name s).
Proof. destruct b; (split; [reflexivity|]); repeat split; vm_compute; reflexivity. Qed.

(** Whether a completion asks for more than the compact form of completions says. *)
Definition compactCompletion (opt : CompleteManyOptions) : bool :=
  match encodedValue encode (cmp_Result opt), encodedValue encode (cmp_Payload opt), cmp_TTLMS opt with
  | None, None, None => bool_decide (flat_map segmentArgs (namedAndMetadata (cmp_Named opt) (cmp_StateMeta opt)) = [])
  | _, _, _ => false
  end.

Definition compactCompleteRequest (opt : CompleteManyOptions) : flowRequest :=
  FlowRequest (go "FLOW.COMPLETE_MANY") nativeOpFlowCompleteMany
    (BodyCompleteMany (if given (cmp_PartitionKey opt) then Some (cmp_PartitionKey opt) else None) (valueOrNow (cmp_NowMS opt))
       (match cmp_Independent opt with None => 0 | Some b => boolMarker b end)
       ((fun i => (cl_ID i, if given (cmp_PartitionKey opt) then None else Some (cl_PartitionKey i), cl_LeaseToken i, cl_FencingToken i))
        <$> cmp_Items opt)) false.

(** What a batch becomes. *)
Definition batchRequestOf (b : batchMutation) : flowRequest :=
  match b with
  | BComplete opt => if compactCompletion opt then compactCompleteRequest opt else batchRequest (batchSpecOf b)
  | _ => batchRequest (batchSpecOf b)
  end.

Lemma completeItems_items key items :
  completeItems (negb (given key)) (flat_map (itemArgs nativeFlowManyClaimed key) (claimedItem <$> items)) =
  Some ((fun i => (cl_ID i, if given key then None else Some (cl_PartitionKey i), cl_LeaseToken i, cl_FencingToken i)) <$> items).
Proof.
  induction items as [|[id lease token part] items IH]; [done|]. cbn [fmap list_fmap flat_map].
  unfold itemArgs at 1. destruct (given key); cbn in *; by rewrite IH.
Qed.

(** The options of the compact form. *)
Definition completeOptions : list gstr := go <$> ["NOW"; "INDEPENDENT"]%string.

Lemma untilItems_seen args : forall o o' token items k,
  parseFlowOptionsUntilItems sprint o args = Some (o', token, items) -> k ∈ o_seen o -> k ∈ o_seen o'.
Proof.
  induction args as [args IH] using (induction_ltof1 _ (@length arg)); intros o o' token items k H Hk.
  destruct args as [|a rest]; [done|]. cbn in H. destruct (_ || _); [by injection H as <- _ _|].
  destruct rest as [|v rest]; [done|]. destruct (o_has _ o); [done|].
  eapply (IH rest); [unfold ltof; cbn; lia|exact H|]. cbn. by right.
Qed.

Lemma untilItems_pair o t a rest :
  argToken sprint (tok t) = go t -> go t ∉ itemMarkers ->
  parseFlowOptionsUntilItems sprint o (tok t :: a :: rest) =
  if o_has (go t) o then None else parseFlowOptionsUntilItems sprint (addOption (go t) a o) rest.
Proof.
  intros Ht Hm. cbn [parseFlowOptionsUntilItems]. cbv zeta. rewrite Ht.
  unfold itemMarkers in Hm. cbn in Hm. rewrite !not_elem_of_cons in Hm. destruct Hm as (H1 & H2 & _).
  by rewrite !bool_decide_eq_false_2.
Qed.

Lemma untilItems_next o t a rest :
  argToken sprint (tok t) = go t -> go t ∉ itemMarkers -> o_has (go t) o = false ->
  parseFlowOptionsUntilItems sprint o (tok t :: a :: rest) = parseFlowOptionsUntilItems sprint (addOption (go t) a o) rest.
Proof. intros Ht Hm Ho. rewrite untilItems_pair by done. by rewrite Ho. Qed.

Lemma completeMany_declines partition rest t a o :
  argToken sprint (tok t) = go t -> go t ∉ itemMarkers -> go t ∉ completeOptions ->
  (forall r, parseFlowOptionsUntilItems sprint noOptions rest = Some r ->
    exists more, parseFlowOptionsUntilItems sprint o (tok t :: a :: more) = Some r) ->
  buildFlowCompleteManyNative sprint (partition :: rest) = Err Declined.
Proof.
  intros Ht Hm Ho H. unfold buildFlowCompleteManyNative. destruct rest as [|b rest]; [done|].
  destruct (parseFlowOptionsUntilItems sprint noOptions (b :: rest)) as [[[o' token] items]|] eqn:E; [|done].
  cbn [orDecline rbind]. destruct (bool_decide (token = go "ITEMS")); [|done]. cbn [negb unless rguard rbind].
  destruct (H _ eq_refl) as [more Hmore]. rewrite untilItems_pair in Hmore by done. destruct (o_has _ o); [done|].
  apply (untilItems_seen _ _ _ _ _ (go t)) in Hmore; [|cbn; left].
  fold completeOptions. replace (o_only completeOptions o') with false; [done|].
  symmetry. unfold o_only. apply not_true_is_false. intros Hall. rewrite forallb_forall in Hall.
  apply list_elem_of_In, Hall in Hmore. by apply bool_decide_eq_true in Hmore.
Qed.

(** Options that are not empty start with a token of theirs and an argument. *)
Lemma segments_start segments rest :
  forallb (fun s => match sg_value s with OPayload _ | OCounted _ => false | _ => true end) segments = true ->
  flat_map segmentArgs segments <> [] ->
  exists t a more, t ∈ sg_token <$> segments /\ flat_map segmentArgs segments ++ rest = tok t :: a :: more.
Proof.
  induction segments as [|[t f v] segments IH]; [done|]. cbn [forallb flat_map fmap list_fmap sg_token sg_value].
  intros H Hne. apply andb_true_iff in H as [Hv H].
  assert (skip : segmentArgs (Seg t f v) = [] -> exists t' a more, t' ∈ t :: (sg_token <$> segments) /\
    (segmentArgs (Seg t f v) ++ flat_map segmentArgs segments) ++ rest = tok t' :: a :: more).
  { intros E. rewrite E in *. destruct (IH H Hne) as (t' & a & more & Hin & Heq). exists t', a, more. split; [by right|done]. }
  destruct v as [[x|]|[b|]|[|[k x] entries]|[|n names]| |]; try done; try (by apply skip);
    rewrite <- app_assoc; cbn; do 3 eexists; (split; [left|reflexivity]).
Qed.

Lemma completion_tokens opt :
  forallb (fun t => bool_decide (to_upper (go t) = go t) && negb (bool_decide (go t ∈ itemMarkers)) && negb (bool_decide (go t ∈ completeOptions)))
    (sg_token <$> namedAndMetadata (cmp_Named opt) (cmp_StateMeta opt)) = true.
Proof. vm_compute. reflexivity. Qed.

Lemma complete_declines opt rest partition :
  compactCompletion opt = false ->
  buildFlowCompleteManyNative sprint
    (partition :: flat_map segmentArgs (bs_options (batchSpecOf (BComplete opt))) ++ rest) = Err Declined.
Proof.
  unfold compactCompletion. intros H. cbn [batchSpecOf bs_options app flat_map segmentArgs sg_value sg_token FlowClient.userValue maybeNumber
    FlowClient.atTime number independent flag].
  assert (now : forall o rest r, o_has (go "NOW") o = false -> parseFlowOptionsUntilItems sprint o (tok "NOW" :: int64 (valueOrNow (cmp_NowMS opt)) :: rest) = Some r ->
    parseFlowOptionsUntilItems sprint (addOption (go "NOW") (int64 (valueOrNow (cmp_NowMS opt))) o) rest = Some r).
  { intros o r0 r Ho. rewrite untilItems_pair by (done || absent). by rewrite Ho. }
  destruct (encodedValue encode (cmp_Result opt)) as [v|]; cbn [optionArgs app].
  { eapply (completeMany_declines _ _ "RESULT" v); try done; try (absent). eauto. }
  destruct (encodedValue encode (cmp_Payload opt)) as [v|]; cbn [optionArgs app].
  { eapply (completeMany_declines _ _ "PAYLOAD" v); try done; try (absent). eauto. }
  destruct (cmp_TTLMS opt) as [v|]; cbn [optionArgs app fmap option_fmap option_map].
  { eapply (completeMany_declines _ _ "TTL" (int64 v)); try done; try (absent). eauto. }
  apply bool_decide_eq_false in H.
  destruct (segments_start (namedAndMetadata (cmp_Named opt) (cmp_StateMeta opt)) rest eq_refl H) as (t & a & more & Hin & Heq).
  pose proof (completion_tokens opt) as Ht. rewrite forallb_forall in Ht. apply list_elem_of_In in Hin. apply Ht in Hin. clear Ht.
  rewrite !andb_true_iff, !negb_true_iff, !bool_decide_eq_false, bool_decide_eq_true in Hin. destruct Hin as [[Hu Hm] Ho].
  rewrite <- app_assoc, Heq.
  destruct (cmp_Independent opt) as [b|]; cbn [optionArgs app fmap option_fmap option_map].
  - apply (completeMany_declines _ _ t a (addOption (go "INDEPENDENT") (boolText b) (addOption (go "NOW") (int64 (valueOrNow (cmp_NowMS opt))) noOptions)));
      [exact Hu|done|done|]. intros r Hr. apply now in Hr; [|done]. rewrite untilItems_next in Hr by (done || absent). eauto.
  - apply (completeMany_declines _ _ t a (addOption (go "NOW") (int64 (valueOrNow (cmp_NowMS opt))) noOptions)); [exact Hu|done|done|].
    intros r Hr. apply now in Hr; [|done]. eauto.
Qed.

Lemma completeMany_accepts wire rest o items now marker decoded :
  let mixed := bool_decide (wire = go "MIXED") in
  parseFlowOptionsUntilItems sprint noOptions rest = Some (o, go "ITEMS", items) ->
  o_only completeOptions o = true -> o_int64 (go "NOW") o = Some now -> o_marker (go "INDEPENDENT") o = Some marker ->
  bool_decide (items = []) || negb (Nat.eqb (length items mod (if mixed then 4 else 3)) 0) = false ->
  completeItems mixed items = Some decoded ->
  buildFlowCompleteManyNative sprint (txt wire :: rest) =
  Ok (FlowRequest (go "FLOW.COMPLETE_MANY") nativeOpFlowCompleteMany
        (BodyCompleteMany (if mixed then None else Some wire) now marker decoded) false).
Proof.
  intros mixed Hp Honly Hnow Hmark Hlen Hitems. destruct rest as [|a rest]; [done|]. unfold buildFlowCompleteManyNative.
  rewrite Hp. cbn [orDecline rbind]. rewrite bool_decide_eq_true_2 by done. cbn [negb unless rguard rbind].
  fold completeOptions. rewrite Honly. cbn [negb unless rguard rbind]. rewrite Hnow. cbn [orDecline rbind].
  change (argString sprint (txt wire)) with wire. fold mixed. rewrite Hlen. cbn [negb unless rguard rbind].
  by rewrite Hmark, Hitems.
Qed.

Lemma complete_compact opt :
  compactCompletion opt = true -> cmp_Items opt <> [] ->
  (given (cmp_PartitionKey opt) = true -> cmp_PartitionKey opt <> go "MIXED") ->
  buildFlowCompleteManyNative sprint
    (txt (mixedPartition (cmp_PartitionKey opt)) :: flat_map segmentArgs (bs_options (batchSpecOf (BComplete opt))) ++
     tok "ITEMS" :: flat_map (itemArgs nativeFlowManyClaimed (cmp_PartitionKey opt)) (claimedItem <$> cmp_Items opt)) =
  Ok (compactCompleteRequest opt).
Proof.
  unfold compactCompletion. intros H Hne Hkey.
  assert (Hmixed : bool_decide (mixedPartition (cmp_PartitionKey opt) = go "MIXED") = negb (given (cmp_PartitionKey opt))).
  { unfold mixedPartition. destruct (given _); [|done]. apply bool_decide_eq_false. by apply Hkey. }
  pose proof (completeItems_items (cmp_PartitionKey opt) (cmp_Items opt)) as Hitems.
  pose proof (items_length nativeFlowManyClaimed (cmp_PartitionKey opt) (claimedItem <$> cmp_Items opt)) as Hlen.
  assert (Hsome : flat_map (itemArgs nativeFlowManyClaimed (cmp_PartitionKey opt)) (claimedItem <$> cmp_Items opt) <> [])
    by (destruct (cmp_Items opt); [done|]; by destruct (given _)).
  set (items := flat_map (itemArgs nativeFlowManyClaimed _) _) in *.
  cbn [batchSpecOf bs_options app flat_map segmentArgs sg_value sg_token FlowClient.userValue maybeNumber
    FlowClient.atTime number independent flag].
  destruct (encodedValue encode (cmp_Result opt)), (encodedValue encode (cmp_Payload opt)), (cmp_TTLMS opt); try discriminate H.
  apply bool_decide_eq_true in H. rewrite H. cbn [optionArgs app fmap option_fmap option_map].
  unfold compactCompleteRequest.
  assert (Hmod : bool_decide (items = []) || negb (Nat.eqb (length items mod (if negb (given (cmp_PartitionKey opt)) then 4 else 3)) 0) = false).
  { rewrite bool_decide_eq_false_2 by done. rewrite Hlen, Nat.mul_comm.
    destruct (given (cmp_PartitionKey opt)); by rewrite Nat.Div0.mod_mul. }
  rewrite app_nil_r.
  destruct (cmp_Independent opt) as [b|]; cbn [optionArgs app fmap option_fmap option_map].
  - etrans; [eapply (completeMany_accepts _ _ _ items _ (boolMarker b));
      [rewrite untilItems_next, untilItems_next by (done || absent); reflexivity|reflexivity|reflexivity|by destruct b
      |rewrite Hmixed; exact Hmod|rewrite Hmixed; exact Hitems]|].
    rewrite Hmixed. unfold mixedPartition. by destruct (given _).
  - etrans; [eapply (completeMany_accepts _ _ _ items _ 0);
      [rewrite untilItems_next by (done || absent); reflexivity|reflexivity|reflexivity|reflexivity
      |rewrite Hmixed; exact Hmod|rewrite Hmixed; exact Hitems]|].
    rewrite Hmixed. unfold mixedPartition. by destruct (given _).
Qed.

Lemma batch_request b args :
  batchArgs b = Ok args -> bs_items (batchSpecOf b) <> [] ->
  (given (bs_partition (batchSpecOf b)) = true -> equal_fold (bs_partition (batchSpecOf b)) (go "MIXED") = false) ->
  flowCommandOf sprint args = Ok (batchRequestOf b).
Proof.
  intros H Hne Hkey. apply batch_args in H as ->. destruct (batch_segments b) as (Hst & Hbefore & Hseg & Hu).
  unfold flowCommandOf, buildFlowNativeCommand. change (argPart (tok ?n)) with (to_upper (go n)). rewrite Hu.
  pose proof (buildFlowMutationManyNative_batch (batchSpecOf b) Hst Hbefore Hseg Hne Hkey) as Hmap.
  destruct b as [opt|opt|opt|opt|opt]; try exact Hmap.
  change (flowBuilder sprint _) with (Some (buildFlowCompleteManyAnyNative sprint)). cbv iota.
  unfold buildFlowCompleteManyAnyNative, orElse. cbn [batchRequestOf].
  destruct (compactCompletion opt) eqn:E.
  - cbn [batchSpecOf bs_partition bs_states bs_items] in *. cbn [fmap list_fmap app]. rewrite complete_compact; [done|done| |].
    + intros Hnil. apply Hne. by rewrite Hnil.
    + intros Hg Heq. specialize (Hkey Hg). rewrite Heq in Hkey. by vm_compute in Hkey.
  - change ((txt <$> (bs_states (batchSpecOf (BComplete opt))).*2) ++ ?l) with l. rewrite complete_declines by done. exact Hmap.
Qed.

(** C12: a batch is sent as the native request of its command: one partition or that of each
    item, the states and options asked for, and every item with what guards it. The name
    MIXED for a partition is left out: the builders read it as a batch of several. *)
Theorem flow_batch_request b args :
  batchArgs b = Ok args -> bs_items (batchSpecOf b) <> [] ->
  (given (bs_partition (batchSpecOf b)) = true -> equal_fold (bs_partition (batchSpecOf b)) (go "MIXED") = false) ->
  flowCommandOf sprint args = Ok (batchRequestOf b).
Proof. apply batch_request. Qed.
End Batches.

(** ** What the names of partitions do to batches *)

Definition asIs : val -> option val := Some.
Definition noText : val -> gstr := fun _ => [].

Definition fenced (id : String.string) (token : Z) : FencedItem := FencedOf (go id) token [] [].

(** Three flows to cancel in the partition called "mixed". *)
Definition cancelInMixed : batchMutation :=
  BCancel (CancelManyOf (go "mixed") [fenced "10" 1; fenced "20" 2; fenced "30" 3] VNil None 1000 None [] (valuesAndRefs [] [])).

(** A field of the request that arguments become. *)
Definition sentField (args : result clientError (list arg)) (field : String.string) : option pval :=
  match args with
  | Ok args => match flowCommandOf noText args with
               | Ok r => match fr_body r with BodyMap m => m !! go field | _ => None end
               | Err _ => None
               end
  | Err _ => None
  end.

(** A batch in a partition called "mixed" is accepted and cancels other flows: of the three
    asked for it cancels one, in another partition and under another token, and a fourth. *)
Theorem flow_batch_partition_called_mixed :
  sentField (batchArgs asIs false 1000 1000 cancelInMixed) "items" = Some (PList [
    PMap (fieldsOf [("partition_key"%string, Some (PArg (int64 1))); ("id"%string, Some (PArg (txt (go "10"))));
                    ("fencing_token"%string, Some (PInt 20))]);
    PMap (fieldsOf [("partition_key"%string, Some (PArg (txt (go "30")))); ("id"%string, Some (PArg (int64 2)));
                    ("fencing_token"%string, Some (PInt 3))])]).
Proof. by_vm. Qed.

(** The children of a flow, the first of them called "mixed": they are refused or, where
    their arguments make up items of four, become other children. *)
Definition childOf (id : String.string) : ChildSpec := ChildOf (go id) (go "task") (VString (go "p")) [] [] [] [] [] VNil.

Definition spawnMixed : SpawnChildrenOptions :=
  SpawnOf (go "parent") [childOf "mixed"; childOf "b"; childOf "c"] (go "tenant") [] (Some 7) (go "group") (go "all") [] (go "done") (go "failed") [] [] [] 1000 VNil [] [].

Theorem flow_spawn_first_child_called_mixed :
  sentField (spawnChildrenArgs asIs false 1000 (fun n => Z.of_nat n) spawnMixed) "children" = Some (PList [
    PMap (fieldsOf [("id"%string, Some (PArg (txt (go "task")))); ("partition_key"%string, Some (PArg (txt (go "p"))));
                    ("type"%string, Some (PArg (txt (go "b")))); ("payload"%string, Some (PArg (txt (go "task"))))]);
    PMap (fieldsOf [("id"%string, Some (PArg (txt (go "p")))); ("partition_key"%string, Some (PArg (txt (go "c"))));
                    ("type"%string, Some (PArg (txt (go "task")))); ("payload"%string, Some (PArg (txt (go "p"))))])]).
Proof. by_vm. Qed.

Definition cancelTwo : batchMutation :=
  BCancel (CancelManyOf (go "tenant") [fenced "10" 1; fenced "20" 2] VNil None 1000 None [] (valuesAndRefs [] [])).

Lemma flow_batch_request_witness :
  exists args, batchArgs asIs false 1000 1000 cancelTwo = Ok args /\
    flowCommandOf noText args = Ok (batchRequestOf asIs false 1000 cancelTwo) /\
    sentField (Ok args) "partition_key" = Some (PArg (txt (go "tenant"))).
Proof.
  assert (exists args, batchArgs asIs false 1000 1000 cancelTwo = Ok args) as [args H] by (eexists; vm_compute; reflexivity).
  pose proof (flow_batch_request asIs false 1000 1000 noText cancelTwo args H ltac:(done) ltac:(done)) as Hr.
  exists args. split; [exact H|]. split; [exact Hr|]. unfold sentField. rewrite Hr. by_vm.
Defined.
