(* ===== verification/FlowCompact.v ===== *)
(** The compact payloads of claims and batches: how they are written under a limit
    (src/native_flow_payload.go, src/native_flow_value_mget.go), and the ones the client
    makes directly of its options (src/native_flow_compact_client.go). A reference reader
    recovers every payload from its bytes. *)

From S2P Require Export FlowBatches.
From S2P Require Import Wire.

(** ** Writing *)

(** What a payload is written of. *)
Inductive piece :=
| PByte (b : byte)
| PInt64 (z : Z)
| PBinary (s : gstr)
| POptional (s : option gstr)
| PCount (n : Z).

(** [nativeCompactPayloadWriter.binaryBytes] and [binaryString]. *)
Definition writeBinary (limit : Z) (s : gstr) (st : encState) : result encError encState :=
  if max_uint32 <? blen s then Err EncLimit
  else
    let! _ := ensure limit (4 + blen s) st in
    let! st := write limit (be_encode 4 (wrap 32 (blen s))) st in
    write limit s st.

Definition writePiece (limit : Z) (st : encState) (p : piece) : result encError encState :=
  match p with
  | PByte b => writeByte limit b st
  | PInt64 z => write limit (be_encode 8 (wrap 64 z)) st
  | PBinary s | POptional (Some s) => writeBinary limit s st
  | POptional None => write limit (be_encode 4 nativeCompactNilU32) st
  | PCount n => if max_uint32 <? n then Err EncLimit else write limit (be_encode 4 (wrap 32 n)) st
  end.

Definition nativeCompactFlowClaimDueRequest : Z := 0x91.
Definition nativeCompactFlowCompleteManyOKRequest : Z := 0x93.
Definition nativeCompactFlowValueMGetRequest : Z := 0x9D.

Definition createManyItem (mixed : bool) (item : gstr * option gstr * gstr) : list piece :=
  let '(id, partition, payload) := item in
  PBinary id :: (if mixed then [PBinary (default [] partition)] else []) ++ [PBinary payload].

Definition completeManyItem (mixed : bool) (item : gstr * option gstr * gstr * Z) : list piece :=
  let '(id, partition, lease, fencing) := item in
  [PBinary id; POptional (if mixed then partition else None); PBinary lease; PInt64 fencing].

Definition isMixedKind (kind : Z) : bool := kind =? nativeCompactFlowCreateManyMixedRequest.

(** [encodeNativeCustomPayload] of each payload, piece by piece; the bodies that are maps
    have no compact form. *)
Definition payloadPieces (body : flowBody) : option (list piece) :=
  match body with
  | BodyCreateMany kind flowType state partition now runAt independent items =>
      Some ([PByte (Zbyte kind); PBinary flowType; PBinary state] ++
            (if kind =? nativeCompactFlowCreateManyPartitionRequest then [POptional partition] else []) ++
            [PInt64 now; PInt64 runAt; PByte (Zbyte independent); PByte x00; PCount (blen items)] ++
            flat_map (createManyItem (isMixedKind kind)) items)
  | BodyClaimDue flowType state worker leaseMS limit blockMS reclaimExpired reclaimRatio priority returnMode partitionMode partitions =>
      Some ([PByte (Zbyte nativeCompactFlowClaimDueRequest); PBinary flowType; POptional state; PBinary worker; PInt64 leaseMS;
             PInt64 limit; PInt64 blockMS; PByte (Zbyte reclaimExpired); PInt64 reclaimRatio; PInt64 priority;
             PByte (Zbyte returnMode); PByte (Zbyte partitionMode)] ++
            (if partitionMode =? 0 then []
             else if partitionMode =? 1 then [PBinary (default [] (head partitions))]
             else PCount (blen partitions) :: (PBinary <$> partitions)))
  | BodyCompleteMany partition now independent items =>
      Some ([PByte (Zbyte nativeCompactFlowCompleteManyOKRequest); POptional partition; PInt64 now; PByte (Zbyte independent);
             PCount (blen items)] ++ flat_map (completeManyItem (bool_decide (partition = None))) items)
  | BodyValueMGet refs maxBytes =>
      Some ([PByte (Zbyte nativeCompactFlowValueMGetRequest); PInt64 maxBytes; PCount (blen refs)] ++ (PBinary <$> refs))
  | BodyMap _ | BodyQuery _ => None
  end.

(** Reads of stored values have a limit on their number. *)
Definition tooManyRefs (body : flowBody) : bool :=
  match body with BodyValueMGet refs _ => nativeMaxContainerItems <? blen refs | _ => false end.

Definition encodePieces (limit : Z) (pieces : list piece) : result encError gstr :=
  let! st := rfold (writePiece limit) (EncState [] 0 ∅) pieces in Ok (es_buf st).

(** The bytes of a payload that has a compact form. *)
Definition encodeFlowPayload (body : flowBody) (limit : Z) : option (result encError gstr) :=
  (fun pieces => if tooManyRefs body || (limit <=? 0) then Err EncLimit else encodePieces limit pieces) <$> payloadPieces body.

(** ** The client's compact payloads *)

Definition boolPtrMarker (b : option bool) : Z := match b with None => 0 | Some b => boolMarker b end.

Definition namedValuesEmpty (n : NamedValues) : bool :=
  negb (some (nv_Values n) || some (nv_ValueRefs n) || some (nv_DropValues n) || some (nv_OverrideValues n) ||
        some (nv_AttributesMerge n) || some (nv_AttributesDelete n)).

Definition isNone {A} (o : option A) : bool := match o with None => true | Some _ => false end.

Definition completeManyCompactEligible (opt : CompleteManyOptions) : bool :=
  negb (isSome (cmp_Result opt)) && negb (isSome (cmp_Payload opt)) && isNone (cmp_TTLMS opt) && negb (some (cmp_StateMeta opt)) &&
  namedValuesEmpty (cmp_Named opt).

Definition createManyCompactEligible (opt : CreateManyOptions) : bool :=
  isNone (cm_Priority opt) && isNone (cm_Idempotent opt) && isNone (cm_RetentionTTLMS opt) && negb (isSome (cm_MaxActiveMS opt)) &&
  negb (some (cm_Values opt) || some (cm_ValueRefs opt) || some (cm_Attributes opt) || some (cm_StateMeta opt)) &&
  negb (anyCreateItemMaps (cm_Items opt)) && negb (anyCreateItemValues (cm_Items opt)).

Definition claimDueCompactEligible (opt : ClaimDueOptions) : bool :=
  cd_JobOnly opt && (cd_NowMS opt =? 0) && negb (some (cd_States opt)) && isNone (cd_Payload opt) && isNone (cd_PayloadMaxBytes opt) &&
  negb (some (cd_Values opt)).

(** Which of the codecs the client has; any other is one of the user's. *)
Inductive codecKind := JSONCodec | StringCodec | RawCodec | UserCodec.

Definition compactTextVal (v : val) : bool := match v with VString _ | VBytes _ => true | _ => false end.

(** Values the codec encodes as text, one item like another. *)
Definition createManyCompactCodecEligible (codec : codecKind) (items : list CreateItem) : bool :=
  match codec with
  | JSONCodec => true
  | StringCodec => forallb (fun i => isSome (ci_Payload i)) items
  | RawCodec => forallb (fun i => compactTextVal (ci_Payload i)) items
  | UserCodec => false
  end.

Section Typed.
Context (encode : val -> option val) (sentAt : Z).

(** [writeTypedItem]: an encoding that is not text is refused. *)
Definition encodedText (v : val) : option gstr :=
  match encode v with Some (VString s) | Some (VBytes s) => Some s | _ => None end.

Definition typedCreateItem (mixed : bool) (item : CreateItem) : option (gstr * option gstr * gstr) :=
  match encodedText (ci_Payload item) with
  | Some payload => Some (ci_ID item, if mixed then Some (ci_PartitionKey item) else None, payload)
  | None => None
  end.

(** [tryCreateManyNativeCompact], behind its checks. *)
Definition createManyCompact (opt : CreateManyOptions) (mixed : bool) : option flowBody :=
  let wirePartition := wirePartitionOf (cm_PartitionKey opt) mixed in
  let automatic := bool_decide (wirePartition = []) || bool_decide (wirePartition = go "AUTO") in
  let now := valueOrNow sentAt (cm_NowMS opt) in
  let kind := if mixed then nativeCompactFlowCreateManyMixedRequest
              else if automatic then nativeCompactFlowCreateManyRequest else nativeCompactFlowCreateManyPartitionRequest in
  BodyCreateMany kind (cm_Type opt) (orElseText (cm_State opt) "queued")
    (if mixed || automatic then None else Some wirePartition) now (orElseInt (cm_RunAtMS opt) now)
    (boolPtrMarker (cm_Independent opt)) <$> mapM (typedCreateItem mixed) (cm_Items opt).

(** [tryClaimDueNativeCompact]. *)
Definition claimDueCompact (opt : ClaimDueOptions) : flowBody :=
  let withAttributes := default true (cd_IncludeAttributes opt) in
  BodyClaimDue (cd_Type opt) (if given (cd_State opt) then Some (cd_State opt) else None) (cd_Worker opt)
    (orElseInt (cd_LeaseMS opt) 30000) (orElseInt (cd_Limit opt) 1) (default (-1) (cd_BlockMS opt))
    (match cd_ReclaimExpired opt with None => nativeFlowClaimDefaultReclaimExpired | Some b => if b then 1 else 0 end)
    (default nativeFlowClaimDefaultReclaimRatio (cd_ReclaimRatio opt)) (default min_int64 (cd_Priority opt))
    (if cd_IncludeState opt then if withAttributes then 4 else 2 else if withAttributes then 3 else 1)
    (if given (cd_PartitionKey opt) then 1 else if some (cd_PartitionKeys opt) then 2 else 0)
    (if given (cd_PartitionKey opt) then [cd_PartitionKey opt] else cd_PartitionKeys opt).

(** [tryCompleteManyNativeCompact]. *)
Definition completeManyCompact (opt : CompleteManyOptions) : flowBody :=
  let mixed := negb (given (cmp_PartitionKey opt)) in
  BodyCompleteMany (if mixed then None else Some (cmp_PartitionKey opt)) (valueOrNow sentAt (cmp_NowMS opt))
    (boolPtrMarker (cmp_Independent opt))
    ((fun i => (cl_ID i, if mixed then Some (cl_PartitionKey i) else None, cl_LeaseToken i, cl_FencingToken i)) <$> cmp_Items opt).
End Typed.

(** ** The reference reader *)

Abbreviation parser A := (gstr -> option (A * gstr)).

Definition getByte : parser Z := fun l => match l with b :: l => Some (byteZ b, l) | [] => None end.
Definition getBytes (n : Z) : parser gstr := fun l => if blen l <? n then None else Some (btake n l, bdrop n l).
Definition getUint32 : parser Z := fun l => prod_map be_decode id <$> getBytes 4 l.
Definition getInt64 : parser Z := fun l => prod_map (fun s => swrap 64 (be_decode s)) id <$> getBytes 8 l.

Definition andThen {A B} (p : parser A) (f : A -> parser B) : parser B := fun l => match p l with Some (a, l) => f a l | None => None end.
Definition give {A} (a : A) : parser A := fun l => Some (a, l).

Notation "x <- p ;; q" := (andThen p (fun x => q)) (at level 100, p at next level, right associativity) : go_scope.

Definition getBinary : parser gstr := n <- getUint32 ;; getBytes n.
Definition getOptional : parser (option gstr) :=
  n <- getUint32 ;; if n =? nativeCompactNilU32 then give None else s <- getBytes n ;; give (Some s).

Fixpoint getMany {A} (p : parser A) (n : nat) : parser (list A) :=
  match n with O => give [] | S n => a <- p ;; l <- getMany p n ;; give (a :: l) end.
Definition getList {A} (p : parser A) : parser (list A) := n <- getUint32 ;; getMany p (Z.to_nat n).

Definition getCreateItem (mixed : bool) : parser (gstr * option gstr * gstr) :=
  id <- getBinary ;; partition <- (if mixed then (s <- getBinary ;; give (Some s)) else give None) ;; payload <- getBinary ;;
  give (id, partition, payload).

Definition getCompleteItem : parser (gstr * option gstr * gstr * Z) :=
  id <- getBinary ;; partition <- getOptional ;; lease <- getBinary ;; fencing <- getInt64 ;; give (id, partition, lease, fencing).

Definition getPartitions (mode : Z) : parser (list gstr) :=
  if mode =? 0 then give [] else if mode =? 1 then (s <- getBinary ;; give [s]) else getList getBinary.

Definition getBody (kind : Z) : parser flowBody :=
  if kind =? nativeCompactFlowClaimDueRequest then
    flowType <- getBinary ;; state <- getOptional ;; worker <- getBinary ;; leaseMS <- getInt64 ;; limit <- getInt64 ;;
    blockMS <- getInt64 ;; reclaimExpired <- getByte ;; reclaimRatio <- getInt64 ;; priority <- getInt64 ;;
    returnMode <- getByte ;; partitionMode <- getByte ;; partitions <- getPartitions partitionMode ;;
    give (BodyClaimDue flowType state worker leaseMS limit blockMS reclaimExpired reclaimRatio priority returnMode partitionMode partitions)
  else if kind =? nativeCompactFlowCompleteManyOKRequest then
    partition <- getOptional ;; now <- getInt64 ;; independent <- getByte ;; items <- getList getCompleteItem ;;
    give (BodyCompleteMany partition now independent items)
  else if kind =? nativeCompactFlowValueMGetRequest then
    maxBytes <- getInt64 ;; refs <- getList getBinary ;; give (BodyValueMGet refs maxBytes)
  else
    flowType <- getBinary ;; state <- getBinary ;;
    partition <- (if kind =? nativeCompactFlowCreateManyPartitionRequest then getOptional else give None) ;;
    now <- getInt64 ;; runAt <- getInt64 ;; independent <- getByte ;; _ <- getByte ;;
    items <- getList (getCreateItem (isMixedKind kind)) ;;
    give (BodyCreateMany kind flowType state partition now runAt independent items).

(** A payload, and nothing behind it. *)
Definition readFlowPayload (l : gstr) : option flowBody :=
  match (kind <- getByte ;; getBody kind) l with Some (body, []) => Some body | _ => None end.

(** ** Writing under a limit *)

Definition binaryBytes (s : gstr) : gstr := be_encode 4 (blen s) ++ s.

Definition pieceBytes (p : piece) : gstr :=
  match p with
  | PByte b => [b]
  | PInt64 z => be_encode 8 (wrap 64 z)
  | PBinary s | POptional (Some s) => binaryBytes s
  | POptional None => be_encode 4 nativeCompactNilU32
  | PCount n => be_encode 4 n
  end.

Definition piecesBytes (pieces : list piece) : gstr := concat (pieceBytes <$> pieces).

(** A length or a count fits its field. *)
Definition fitsPiece (p : piece) : bool :=
  match p with
  | PBinary s | POptional (Some s) => blen s <=? max_uint32
  | PCount n => n <=? max_uint32
  | _ => true
  end.

Section Writing.
Variable limit : Z.

(** Room asked for beforehand changes nothing. *)
Lemma runs_ensure l n c f : 0 <= n -> runs limit l n c f -> runs limit l n c (fun st => let! _ := ensure limit (blen l) st in f st).
Proof.
  intros Hn Hf st st' Hst. pose proof (blen_nonneg l). unfold ensure. destruct (Z.ltb_spec (blen l) 0); [lia|]. cbn [orb].
  destruct (Z.ltb_spec (limit - blen (es_buf st)) (blen l)); cbn [rbind]; [|by apply Hf].
  split; [done|]. intros (_ & _ & ? & _). lia.
Qed.

Lemma runs_binary s : runs limit (binaryBytes s) 0 (fun _ => blen s <=? max_uint32) (writeBinary limit s).
Proof.
  unfold writeBinary. eapply runs_ext; [done|done| |done|].
  2: { apply (runs_bounded limit (blen s) max_uint32 _ (binaryBytes s) 0 (fun _ => true)). intros Hs. pose proof (blen_nonneg s).
       rewrite wrap_small by (unfold in_uint, max_uint32 in *; lia).
       replace (4 + blen s) with (blen (binaryBytes s)) by (unfold binaryBytes; autorewrite with ferric; lia).
       apply runs_ensure; [done|]. apply (runs_bind limit _ _ 0 0 (fun _ => true) (fun _ => true)); [done|done| |]; apply runs_write. }
  intros V. apply andb_true_r.
Qed.

Lemma runs_piece p :
  match p with PCount n => 0 <= n | _ => True end ->
  runs limit (pieceBytes p) 0 (fun _ => fitsPiece p) (fun st => writePiece limit st p).
Proof.
  destruct p as [b|z|s|[s|]|n]; intros Hn; cbn [pieceBytes fitsPiece writePiece];
    try apply runs_writeByte; try apply runs_write; try apply runs_binary.
  eapply runs_ext; [done|done| |done|].
  2: { apply (runs_bounded limit n max_uint32 _ (be_encode 4 n) 0 (fun _ => true)). intros Hs.
       rewrite wrap_small by (unfold in_uint, max_uint32 in *; lia). apply runs_write. }
  intros V. apply andb_true_r.
Qed.

Definition countsNonNegative (pieces : list piece) : Prop := Forall (fun p => match p with PCount n => 0 <= n | _ => True end) pieces.

Lemma encodePieces_ok pieces bytes :
  0 <= limit -> countsNonNegative pieces ->
  encodePieces limit pieces = Ok bytes <->
  forallb fitsPiece pieces = true /\ blen (piecesBytes pieces) <= limit /\ bytes = piecesBytes pieces.
Proof.
  intros Hl Hp. unfold encodePieces.
  assert (Hr : runs limit (piecesBytes pieces) (zsum ((fun _ => 0) <$> pieces)) (fun _ => forallb fitsPiece pieces)
    (fun st => rfold (writePiece limit) st pieces)).
  { apply (runs_fold limit pieceBytes (fun _ => 0) (fun _ => fitsPiece) (writePiece limit)).
    eapply Forall_impl; [exact Hp|]. intros p H. split; [done|]. by apply runs_piece. }
  assert (Hz : zsum ((fun _ => 0) <$> pieces) = 0) by (clear; induction pieces as [|p pieces IH]; [done|]; exact IH).
  rewrite Hz in Hr. rewrite rbind_ok.
  assert (Hgood : good limit (EncState [] 0 ∅)) by (split; cbn; unfold blen; cbn; lia). split.
  - intros (st & Hst & [= <-]). apply Hr in Hst as (Hf & _ & Hlen & ->); [done|exact Hgood].
  - intros (Hf & Hlen & ->). eexists. split; [apply Hr; [exact Hgood|]; repeat split; [done|cbn; lia|exact Hlen]|done].
Qed.
End Writing.

Lemma payloadPieces_counts body pieces : payloadPieces body = Some pieces -> countsNonNegative pieces.
Proof.
  pose proof (fun A => @blen_nonneg A) as Hl.
  assert (items : forall A (f : A -> list piece) l, (forall x, countsNonNegative (f x)) -> countsNonNegative (flat_map f l)).
  { intros A f l Hf. induction l as [|x l IH]; [constructor|]. apply Forall_app. split; [apply Hf|exact IH]. }
  assert (texts : forall l, countsNonNegative (PBinary <$> l)) by (intros l; apply Forall_fmap, Forall_true; intros x; exact I).
  destruct body; intros H; try discriminate H; injection H as <-; unfold countsNonNegative;
    repeat match goal with
    | |- Forall _ (_ ++ _) => apply Forall_app; split
    | |- Forall _ (_ :: _) => constructor
    | |- Forall _ [] => constructor
    | |- Forall _ (if ?b then _ else _) => destruct b
    | |- Forall _ (PBinary <$> _) => apply texts
    | |- Forall _ (flat_map _ _) => apply items; unfold countsNonNegative, createManyItem, completeManyItem; intros; repeat case_match
    | |- _ => first [exact I | apply Hl]
    end.
Qed.

(** ** Reading back *)

(** [p] reads [a] from [l], whatever follows. *)
Definition reads {A} (p : parser A) (l : gstr) (a : A) : Prop := forall rest, p (l ++ rest) = Some (a, rest).

Lemma reads_bytes l : reads (getBytes (blen l)) l l.
Proof.
  intros rest. unfold getBytes. rewrite blen_app. pose proof (blen_nonneg rest).
  destruct (Z.ltb_spec (blen l + blen rest) (blen l)); [lia|]. by rewrite btake_app, bdrop_app.
Qed.

Lemma reads_then {A B} (p : parser A) (f : A -> parser B) l k a b : reads p l a -> reads (f a) k b -> reads (andThen p f) (l ++ k) b.
Proof. intros Hp Hf rest. unfold andThen. rewrite <- app_assoc, Hp. apply Hf. Qed.

Lemma reads_give {A} (a : A) : reads (give a) [] a.
Proof. done. Qed.

Lemma reads_byte z : in_uint 8 z -> reads getByte [Zbyte z] z.
Proof. intros Hz rest. cbn. rewrite byteZ_Zbyte, Z.mod_small; [done|exact Hz]. Qed.

Lemma reads_uint32 n : in_uint 32 n -> reads getUint32 (be_encode 4 n) n.
Proof.
  intros Hn rest. unfold getUint32. change 4 with (blen (be_encode 4 n)) at 1. rewrite (reads_bytes _ rest). cbn.
  by rewrite be_roundtrip.
Qed.

Lemma reads_int64 z : in_sint 64 z -> reads getInt64 (be_encode 8 (wrap 64 z)) z.
Proof.
  intros Hz rest. unfold getInt64. change 8 with (blen (be_encode 8 (wrap 64 z))) at 1. rewrite (reads_bytes _ rest). cbn.
  rewrite be_roundtrip by (apply wrap_range; lia). by rewrite swrap_wrap.
Qed.

Lemma reads_binary s : blen s <= max_uint32 -> reads getBinary (binaryBytes s) s.
Proof.
  intros Hs. pose proof (blen_nonneg s). apply (reads_then _ _ _ _ (blen s)); [|apply reads_bytes].
  apply reads_uint32. unfold in_uint, max_uint32 in *. lia.
Qed.

(** The fields of a payload short enough to be told from a missing one. *)
Definition strictPiece (p : piece) : Prop :=
  match p with POptional (Some s) => blen s < max_uint32 | _ => fitsPiece p = true end.

Lemma reads_optional o : strictPiece (POptional o) -> reads getOptional (pieceBytes (POptional o)) o.
Proof.
  intros Hs. destruct o as [s|]; cbn in Hs; cbn [pieceBytes].
  - pose proof (blen_nonneg s). apply (reads_then _ _ _ _ (blen s)).
    + apply reads_uint32. unfold in_uint, max_uint32 in *. lia.
    + unfold nativeCompactNilU32. replace (blen s =? max_uint32) with false by lia.
      rewrite <- (app_nil_r s) at 2. apply (reads_then _ _ _ _ s); [apply reads_bytes|apply reads_give].
  - rewrite <- (app_nil_r (be_encode 4 _)). apply (reads_then _ _ _ _ max_uint32); [|apply reads_give].
    apply reads_uint32. by vm_compute.
Qed.

Lemma reads_piece {A B} (p : parser A) (f : A -> parser B) x pieces a b :
  reads p (pieceBytes x) a -> reads (f a) (piecesBytes pieces) b -> reads (andThen p f) (piecesBytes (x :: pieces)) b.
Proof. apply reads_then. Qed.

Lemma piecesBytes_app l k : piecesBytes (l ++ k) = piecesBytes l ++ piecesBytes k.
Proof. unfold piecesBytes. by rewrite fmap_app, concat_app. Qed.

Lemma reads_many {A} (p : parser A) (f : A -> list piece) l :
  Forall (fun x => reads p (piecesBytes (f x)) x) l -> reads (getMany p (length l)) (piecesBytes (flat_map f l)) l.
Proof.
  induction 1 as [|x l Hx _ IH]; [apply reads_give|]. cbn [length getMany flat_map]. rewrite piecesBytes_app.
  eapply reads_then; [exact Hx|]. rewrite <- (app_nil_r (piecesBytes _)). eapply reads_then; [exact IH|apply reads_give].
Qed.

Lemma reads_list {A} (p : parser A) (f : A -> list piece) l :
  fitsPiece (PCount (blen l)) = true -> Forall (fun x => reads p (piecesBytes (f x)) x) l ->
  reads (getList p) (piecesBytes (PCount (blen l) :: flat_map f l)) l.
Proof.
  intros Hl Hf. cbn in Hl. pose proof (blen_nonneg l). apply (reads_piece _ _ _ _ (blen l)).
  - apply reads_uint32. unfold in_uint, max_uint32 in *. lia.
  - unfold blen. rewrite Nat2Z.id. by apply reads_many.
Qed.

Lemma strictPieces pieces :
  forallb fitsPiece pieces = true -> blen (piecesBytes pieces) <= max_uint32 -> Forall strictPiece pieces.
Proof.
  induction pieces as [|p pieces IH]; intros Hf Hl; [constructor|].
  cbn [forallb] in Hf. apply andb_true_iff in Hf as [Hp Hf].
  change (piecesBytes (p :: pieces)) with (pieceBytes p ++ piecesBytes pieces) in Hl. rewrite blen_app in Hl.
  pose proof (blen_nonneg (pieceBytes p)). pose proof (blen_nonneg (piecesBytes pieces)).
  constructor; [|apply IH; [done|lia]]. destruct p as [| | |[s|]|]; try exact Hp. cbn [strictPiece].
  cbn [pieceBytes] in *. unfold binaryBytes in *. rewrite blen_app, blen_be_encode in *. lia.
Qed.

(** The payloads the builders and the client make. *)
Definition int64Range : Z -> Prop := in_sint 64.
Definition createKinds : list Z :=
  [nativeCompactFlowCreateManyRequest; nativeCompactFlowCreateManyPartitionRequest; nativeCompactFlowCreateManyMixedRequest].

Definition wellFormedBody (body : flowBody) : Prop :=
  match body with
  | BodyCreateMany kind _ _ partition now runAt independent items =>
      kind ∈ createKinds /\ (is_Some partition <-> kind = nativeCompactFlowCreateManyPartitionRequest) /\
      int64Range now /\ int64Range runAt /\ in_uint 8 independent /\
      Forall (fun i => is_Some i.1.2 <-> kind = nativeCompactFlowCreateManyMixedRequest) items
  | BodyClaimDue _ _ _ leaseMS limit blockMS reclaimExpired reclaimRatio priority returnMode partitionMode partitions =>
      Forall int64Range [leaseMS; limit; blockMS; reclaimRatio; priority] /\ Forall (in_uint 8) [reclaimExpired; returnMode] /\
      (partitionMode = 0 /\ partitions = [] \/ partitionMode = 1 /\ length partitions = 1%nat \/ partitionMode = 2)
  | BodyCompleteMany partition now independent items =>
      int64Range now /\ in_uint 8 independent /\
      Forall (fun i => (is_Some i.1.1.2 <-> partition = None) /\ int64Range i.2) items
  | BodyValueMGet refs maxBytes => int64Range maxBytes
  | BodyMap _ | BodyQuery _ => False
  end.

Lemma reads_last {A B} (p : parser A) (g : A -> B) l a : reads p l a -> reads (andThen p (fun a => give (g a))) l (g a).
Proof. intros H. rewrite <- (app_nil_r l). eapply reads_then; [exact H|apply reads_give]. Qed.

Lemma reads_strict_binary s : strictPiece (PBinary s) -> reads getBinary (pieceBytes (PBinary s)) s.
Proof. intros H. apply reads_binary. by apply Z.leb_le. Qed.

Lemma strict_flat {A} (f : A -> list piece) l x : Forall strictPiece (flat_map f l) -> x ∈ l -> Forall strictPiece (f x).
Proof.
  intros H. induction l as [|y l IH]; intros Hx; [by apply not_elem_of_nil in Hx|].
  cbn [flat_map] in H. apply Forall_app in H as [Hy H]. apply elem_of_cons in Hx as [->|Hx]; [done|by apply IH].
Qed.

(** One piece read, by the reader of its kind. *)
Ltac read_next :=
  eapply reads_piece;
    [first [apply reads_strict_binary; assumption | apply reads_optional; assumption | apply reads_int64; assumption
           | apply reads_byte; assumption]|].

Lemma reads_binaries refs : Forall strictPiece (PCount (blen refs) :: (PBinary <$> refs)) ->
  reads (getList getBinary) (piecesBytes (PCount (blen refs) :: (PBinary <$> refs))) refs.
Proof.
  intros H. apply Forall_cons in H as [Hc H]. replace (PBinary <$> refs) with (flat_map (fun s => [PBinary s]) refs)
    by (clear; induction refs as [|r refs IH]; [done|]; cbn; by rewrite IH).
  apply (reads_list getBinary (fun s => [PBinary s])); [exact Hc|]. rewrite Forall_fmap in H.
  eapply Forall_impl; [exact H|]. intros s Hs. unfold piecesBytes. cbn [fmap list_fmap concat]. rewrite app_nil_r.
  by apply reads_strict_binary.
Qed.

Lemma reads_create_item mixed i :
  (is_Some i.1.2 <-> mixed = true) -> Forall strictPiece (createManyItem mixed i) ->
  reads (getCreateItem mixed) (piecesBytes (createManyItem mixed i)) i.
Proof.
  destruct i as [[id part] p]. cbn [fst snd]. intros Hm H. unfold createManyItem, getCreateItem in *. destruct mixed.
  - destruct (proj2 Hm eq_refl) as [q ->]. cbn [app default] in *. rewrite !Forall_cons in H. destruct H as (Hi & Hq & Hp & _).
    read_next. apply (reads_piece (andThen getBinary (fun s => give (Some s))) _ _ _ (Some q)); [by apply reads_last, reads_strict_binary|].
    apply (reads_piece _ _ _ [] p); [by apply reads_strict_binary|apply reads_give].
  - assert (part = None) as -> by (destruct part; [destruct Hm as [Hm _]; discriminate Hm; eauto|done]).
    cbn [app] in *. rewrite !Forall_cons in H. destruct H as (Hi & Hp & _). read_next.
    change (andThen (give None) ?f) with (f (@None gstr)). cbv beta.
    apply (reads_piece _ _ _ [] p); [by apply reads_strict_binary|apply reads_give].
Qed.

Lemma reads_complete_item mixed i :
  (is_Some i.1.1.2 <-> mixed = true) -> int64Range i.2 -> Forall strictPiece (completeManyItem mixed i) ->
  reads getCompleteItem (piecesBytes (completeManyItem mixed i)) i.
Proof.
  destruct i as [[[id part] lease] f]. cbn [fst snd]. intros Hm Hf H. unfold completeManyItem, getCompleteItem in *.
  replace (if mixed then part else None) with part in *
    by (destruct mixed; [done|]; destruct part; [destruct Hm as [Hm _]; discriminate Hm; eauto|done]).
  rewrite !Forall_cons in H. destruct H as (Hi & Hp & Hl & _ & _). do 3 read_next.
  apply (reads_piece _ _ _ [] f); [by apply reads_int64|apply reads_give].
Qed.

Lemma createKinds_cases kind : kind ∈ createKinds -> kind = 0x90 \/ kind = 0x96 \/ kind = 0x9E.
Proof. unfold createKinds. rewrite !elem_of_cons, elem_of_nil. tauto. Qed.

Lemma getBody_create kind : kind ∈ createKinds ->
  getBody kind =
  (flowType <- getBinary ;; state <- getBinary ;;
   partition <- (if kind =? nativeCompactFlowCreateManyPartitionRequest then getOptional else give None) ;;
   now <- getInt64 ;; runAt <- getInt64 ;; independent <- getByte ;; _ <- getByte ;;
   items <- getList (getCreateItem (isMixedKind kind)) ;;
   give (BodyCreateMany kind flowType state partition now runAt independent items)).
Proof. by intros [->|[->| ->]]%createKinds_cases. Qed.

Lemma reads_create kind flowType state partition now runAt independent items pieces :
  let body := BodyCreateMany kind flowType state partition now runAt independent items in
  wellFormedBody body -> payloadPieces body = Some pieces -> Forall strictPiece pieces ->
  reads (andThen getByte getBody) (piecesBytes pieces) body.
Proof.
  intros body (Hk & Hpart & Hnow & Hrun & Hind & Hitems) [= <-] Hs. subst body.
  assert (Hbyte : in_uint 8 kind) by (destruct (createKinds_cases kind Hk) as [->|[->| ->]]; by vm_compute).
  assert (Hzero : in_uint 8 0) by by vm_compute.
  cbn [app] in Hs |- *. rewrite !Forall_cons in Hs. destruct Hs as (_ & Ht & Hst & Hs). apply Forall_app in Hs as [Hp Hs].
  cbn [app] in Hs. rewrite !Forall_cons in Hs. destruct Hs as (_ & _ & _ & _ & Hc & Hs).
  read_next. rewrite getBody_create by done. do 2 read_next.
  assert (reads_partition : reads (if kind =? nativeCompactFlowCreateManyPartitionRequest then getOptional else give None)
    (piecesBytes (if kind =? nativeCompactFlowCreateManyPartitionRequest then [POptional partition] else [])) partition).
  { destruct (Z.eqb_spec kind nativeCompactFlowCreateManyPartitionRequest) as [E|E].
    - unfold piecesBytes. cbn [fmap list_fmap concat]. rewrite app_nil_r. apply reads_optional. rewrite Forall_cons in Hp. apply Hp.
    - assert (partition = None) as -> by (destruct partition; [destruct E; apply Hpart; eauto|done]). apply reads_give. }
  rewrite piecesBytes_app. eapply reads_then; [exact reads_partition|]. cbn [app]. do 3 read_next.
  eapply (reads_piece _ _ _ _ 0); [exact (reads_byte 0 Hzero)|]. apply reads_last, reads_list; [exact Hc|].
  apply Forall_forall. intros i Hi. apply reads_create_item; [|by eapply strict_flat].
  rewrite Forall_forall in Hitems. rewrite (Hitems i Hi). unfold isMixedKind. by rewrite Z.eqb_eq.
Qed.

Lemma reads_body body pieces :
  wellFormedBody body -> payloadPieces body = Some pieces -> Forall strictPiece pieces ->
  reads (andThen getByte getBody) (piecesBytes pieces) body.
Proof.
  destruct body as [|kind flowType state partition now runAt independent items|flowType state worker leaseMS limit blockMS reclaimExpired
    reclaimRatio priority returnMode partitionMode partitions|partition now independent items|refs maxBytes|]; intros Hw H Hs;
    try discriminate H; [by apply reads_create|..]; injection H as <-.
  - destruct Hw as (Hi & Hb & Hm). rewrite !Forall_cons in Hi. rewrite !Forall_cons in Hb. destruct Hi as (? & ? & ? & ? & ? & _), Hb as (? & ? & _).
    assert (Hmode : in_uint 8 partitionMode) by (unfold in_uint; lia). assert (in_uint 8 0x91) by by vm_compute.
    cbn [app] in Hs |- *. rewrite !Forall_cons in Hs. destruct Hs as (_ & ? & ? & ? & _ & _ & _ & _ & _ & _ & _ & _ & Hs).
    read_next. change (getBody nativeCompactFlowClaimDueRequest) with (getBody 0x91). unfold getBody. cbn [Z.eqb Pos.eqb nativeCompactFlowClaimDueRequest].
    do 11 read_next. apply reads_last. unfold getPartitions.
    destruct Hm as [[-> ->]|[[-> Hl]| ->]]; cbn [Z.eqb Pos.eqb] in *; [apply reads_give| |by apply reads_binaries].
    destruct partitions as [|p [|]]; try discriminate Hl. cbn [head default] in *. rewrite Forall_cons in Hs.
    eapply reads_piece; [apply reads_strict_binary, Hs|apply reads_give].
  - destruct Hw as (Hnow & Hind & Hitems). assert (in_uint 8 0x93) by by vm_compute.
    cbn [app] in Hs |- *. rewrite !Forall_cons in Hs. destruct Hs as (_ & ? & _ & _ & Hc & Hs).
    read_next. change (getBody nativeCompactFlowCompleteManyOKRequest) with (getBody 0x93). unfold getBody.
    cbn [Z.eqb Pos.eqb nativeCompactFlowClaimDueRequest nativeCompactFlowCompleteManyOKRequest].
    do 3 read_next. apply reads_last, reads_list; [exact Hc|]. apply Forall_forall. intros i Hi. rewrite Forall_forall in Hitems.
    destruct (Hitems i Hi) as [Hm Hf]. apply reads_complete_item; [|done|by eapply strict_flat].
    rewrite Hm. by rewrite bool_decide_eq_true.
  - assert (in_uint 8 0x9D) by by vm_compute. cbn [app] in Hs |- *. rewrite !Forall_cons in Hs. destruct Hs as (_ & _ & Hs).
    read_next. change (getBody nativeCompactFlowValueMGetRequest) with (getBody 0x9D). unfold getBody.
    cbn [Z.eqb Pos.eqb nativeCompactFlowClaimDueRequest nativeCompactFlowCompleteManyOKRequest nativeCompactFlowValueMGetRequest].
    read_next. apply (reads_last (getList getBinary) (fun refs => BodyValueMGet refs maxBytes)), reads_binaries. by rewrite Forall_cons.
Qed.

(** C27: a compact payload is read back as what it was written of, whole, whenever it is
    written at all: no field is cut, wrapped or taken for another under any limit a frame
    allows. *)
Theorem flow_compact_payload_roundtrip body limit bytes :
  wellFormedBody body -> limit <= max_uint32 -> encodeFlowPayload body limit = Some (Ok bytes) ->
  readFlowPayload bytes = Some body /\ blen bytes <= limit.
Proof.
  intros Hw Hl H. unfold encodeFlowPayload in H. destruct (payloadPieces body) as [pieces|] eqn:E; [|done].
  injection H as H. destruct (tooManyRefs body || (limit <=? 0)) eqn:Ez; [done|]. apply orb_false_iff in Ez as [_ Ez].
  apply encodePieces_ok in H as (Hf & Hlen & ->); [|lia|by eapply payloadPieces_counts].
  split; [|done]. unfold readFlowPayload. rewrite <- (app_nil_r (piecesBytes pieces)).
  rewrite (reads_body body pieces); [done|done|done|]. apply strictPieces; [done|lia].
Qed.

(** Counts are bounded by the bytes of what they count. *)
Lemma count_le {A} (f : A -> list piece) l :
  (forall x, f x <> []) -> blen l <= blen (piecesBytes (flat_map f l)).
Proof.
  intros Hf. induction l as [|x l IH]; [done|]. cbn [flat_map]. rewrite piecesBytes_app, blen_app.
  enough (1 <= blen (piecesBytes (f x))) by (unfold blen in *; cbn [length]; lia).
  specialize (Hf x). destruct (f x) as [|p ps]; [done|].
  change (piecesBytes (p :: ps)) with (pieceBytes p ++ piecesBytes ps). rewrite blen_app. pose proof (blen_nonneg (piecesBytes ps)).
  destruct p as [|z|s|[s|]|n]; cbn [pieceBytes]; unfold binaryBytes; rewrite ?blen_app, ?blen_be_encode;
    try (pose proof (blen_nonneg s)); try lia. unfold blen in *. cbn [length]. lia.
Qed.

(** The pieces of a payload count at most as many bytes as it has. *)
Definition countsBounded (pieces : list piece) : Prop := forall n, PCount n ∈ pieces -> n <= blen (piecesBytes pieces).

Lemma countsBounded_front front pieces : (forall m, PCount m ∉ front) -> countsBounded pieces -> countsBounded (front ++ pieces).
Proof.
  intros Hf Hp m Hm. apply elem_of_app in Hm as [Hm|Hm]; [by destruct (Hf m)|]. specialize (Hp m Hm).
  rewrite piecesBytes_app, blen_app. pose proof (blen_nonneg (piecesBytes front)). lia.
Qed.

Lemma countsBounded_count n rest : (forall m, PCount m ∉ rest) -> n <= blen (piecesBytes rest) -> countsBounded (PCount n :: rest).
Proof.
  intros Hr Hn m Hm. apply elem_of_cons in Hm as [[= ->]|Hm]; [|by destruct (Hr m)].
  change (piecesBytes (PCount n :: rest)) with (pieceBytes (PCount n) ++ piecesBytes rest).
  rewrite blen_app. pose proof (blen_nonneg (pieceBytes (PCount n))). lia.
Qed.

Lemma no_counts {A} (f : A -> list piece) l m : (forall x, PCount m ∉ f x) -> PCount m ∉ flat_map f l.
Proof. intros Hf. induction l as [|x l IH]; [apply not_elem_of_nil|]. cbn. rewrite elem_of_app. firstorder. Qed.

Lemma no_counts_texts (l : list gstr) m : PCount m ∉ (PBinary <$> l).
Proof. intros H. apply list_elem_of_fmap in H as (s & H & _). discriminate H. Qed.

Lemma fits_by_size pieces limit :
  countsBounded pieces -> limit <= max_uint32 -> blen (piecesBytes pieces) <= limit -> forallb fitsPiece pieces = true.
Proof.
  intros Hc Hl Hb. apply forallb_forall. intros p Hp. apply list_elem_of_In in Hp.
  assert (Hpiece : blen (pieceBytes p) <= blen (piecesBytes pieces)).
  { apply list_elem_of_split in Hp as (l1 & l2 & ->). rewrite piecesBytes_app.
    change (piecesBytes (p :: l2)) with (pieceBytes p ++ piecesBytes l2). rewrite !blen_app.
    pose proof (blen_nonneg (piecesBytes l1)). pose proof (blen_nonneg (piecesBytes l2)). lia. }
  destruct p as [|z|s|[s|]|n]; try done; cbn [pieceBytes fitsPiece] in *; unfold binaryBytes in *; rewrite ?blen_app, ?blen_be_encode in *;
    apply Z.leb_le; [lia|lia|]. specialize (Hc n Hp). lia.
Qed.

Lemma countsBounded_none pieces : (forall m, PCount m ∉ pieces) -> countsBounded pieces.
Proof. intros H m Hm. by destruct (H m). Qed.

Lemma texts_bounded (l : list gstr) : countsBounded (PCount (blen l) :: (PBinary <$> l)).
Proof.
  apply countsBounded_count; [apply no_counts_texts|].
  replace (PBinary <$> l) with (flat_map (fun s => [PBinary s]) l) by (clear; induction l as [|r l IH]; [done|]; cbn; by rewrite IH).
  by apply count_le.
Qed.

(** No piece of a list that is written out is a count. *)
Ltac no_count := let m := fresh in let H := fresh in intros m H; repeat (apply elem_of_cons in H as [[=]|H]); by apply not_elem_of_nil in H.

Lemma payload_counts body pieces : payloadPieces body = Some pieces -> countsBounded pieces.
Proof.
  destruct body as [|kind ? ? ? ? ? ? items|? ? ? ? ? ? ? ? ? ? mode partitions|partition ? ? items|refs ?|]; intros H; try discriminate H;
    injection H as <-.
  - apply (countsBounded_front [_; _; _]); [no_count|]. apply countsBounded_front; [destruct (_ =? _); no_count|].
    apply (countsBounded_front [_; _; _; _]); [no_count|]. apply countsBounded_count.
    + intros m. apply no_counts. intros [[id part] p]. unfold createManyItem. destruct (isMixedKind kind); revert m; no_count.
    + apply count_le. by intros [[id part] p].
  - apply (countsBounded_front [_; _; _; _; _; _; _; _; _; _; _; _]); [no_count|]. destruct (mode =? 0); [apply countsBounded_none; no_count|].
    destruct (mode =? 1); [apply countsBounded_none; no_count|apply texts_bounded].
  - apply (countsBounded_front [_; _; _; _]); [no_count|]. apply countsBounded_count.
    + intros m. apply no_counts. intros [[[id part] lease] f]. revert m. no_count.
    + apply count_le. by intros [[[id part] lease] f].
  - apply (countsBounded_front [_; _]); [no_count|]. apply texts_bounded.
Qed.

(** A payload is written exactly when it fits its limit, and then as its bytes. *)
Theorem flow_compact_payload_exact body limit pieces bytes :
  payloadPieces body = Some pieces -> 0 < limit -> limit <= max_uint32 -> tooManyRefs body = false ->
  encodeFlowPayload body limit = Some (Ok bytes) <-> blen (piecesBytes pieces) <= limit /\ bytes = piecesBytes pieces.
Proof.
  intros H Hpos Hl Hm. unfold encodeFlowPayload. rewrite H. cbn [fmap option_fmap option_map].
  rewrite Hm. replace (limit <=? 0) with false by lia. cbn [orb].
  pose proof (encodePieces_ok limit pieces bytes ltac:(lia) (payloadPieces_counts _ _ H)) as E. split.
  - intros [= Hok]. apply E in Hok. tauto.
  - intros [Hlen ->]. f_equal. apply E. split; [|done]. eapply fits_by_size; [by eapply payload_counts|exact Hl|exact Hlen].
Qed.

(** ** The client's payloads and those of its arguments *)

Section Agreement.
Context (encode : val -> option val) (deterministic : bool) (checkedAt sentAt : Z) (fresh : nat -> Z) (sprint : val -> gstr).

Lemma some_nil {A} (l : list A) : some l = false -> l = [].
Proof. by destruct l. Qed.

Lemma namedValuesEmpty_segments named :
  namedValuesEmpty named = true -> named = Named [] [] [] [] [] [].
Proof. destruct named as [v r d o m x]. unfold namedValuesEmpty. cbn. by destruct v, r, d, o, m, x. Qed.

Lemma eligible_completion opt :
  completeManyCompactEligible opt = true ->
  compactCompletion encode deterministic opt = true /\
  fr_body (compactCompleteRequest sentAt opt) = completeManyCompact sentAt opt.
Proof.
  destruct opt as [key items res payload ttl now ind meta named].
  unfold completeManyCompactEligible, compactCompletion. cbn [cmp_Result cmp_Payload cmp_TTLMS cmp_StateMeta cmp_Named].
  rewrite !andb_true_iff, !negb_true_iff. intros ((((Hr & Hp) & Ht) & Hm) & Hn).
  apply namedValuesEmpty_segments in Hn as ->. destruct res, payload, ttl, meta; try done. split.
  - unfold encodeOrder. by destruct deterministic.
  - unfold compactCompleteRequest, completeManyCompact. cbn. f_equal; [by destruct key|]. apply list_fmap_ext. intros i [? ? ? ?] _. by destruct key.
Qed.

(** The compact completion the client makes of its options is the one its arguments
    become, so that the two ways of sending a batch ask for the same. *)
Theorem flow_complete_compact_agrees opt args :
  completeManyArgs encode deterministic checkedAt sentAt opt = Ok args -> completeManyCompactEligible opt = true ->
  cmp_Items opt <> [] -> (given (cmp_PartitionKey opt) = true -> equal_fold (cmp_PartitionKey opt) (go "MIXED") = false) ->
  rmap fr_body (flowCommandOf sprint args) = Ok (completeManyCompact sentAt opt).
Proof.
  intros H He Hne Hk. destruct (eligible_completion opt He) as [Hc Hb].
  rewrite (batch_request encode deterministic checkedAt sentAt sprint (BComplete opt) args H); [| |exact Hk].
  - unfold batchRequestOf. rewrite Hc. cbn [rmap rbind]. by rewrite Hb.
  - cbn. by destruct (cmp_Items opt).
Qed.

(** ** Creation *)

Definition createSegments (opt : CreateManyOptions) : list optionSegment :=
  let now := valueOrNow sentAt (cm_NowMS opt) in
  [text "TYPE" "type" (cm_Type opt); text "STATE" "state" (orElseText (cm_State opt) "queued"); number "NOW" "now_ms" now;
   number "RUN_AT" "run_at_ms" (orElseInt (cm_RunAtMS opt) now); flag "INDEPENDENT" "independent" (cm_Independent opt)].

Lemma eachItem_plain mixed items : forall id l, eachItem (fun _ => plainCreateItem encode mixed) id items = Ok l ->
  l = (fun i => txt (ci_ID i) :: (if mixed then [txt (ci_PartitionKey i)] else []) ++ [Arg (default VNil (encode (ci_Payload i)))]) <$> items.
Proof.
  induction items as [|i items IH]; intros id l; cbn; [by intros [= <-]|]. unfold plainCreateItem at 1, encoded.
  destruct (encode (ci_Payload i)) as [v|]; [|done]. cbn [rbind].
  destruct (eachItem _ _ items) as [ys|] eqn:E; [|done]. cbn [rbind]. intros [= <-]. by rewrite (IH _ _ E).
Qed.

Lemma createMany_plain_args opt args mixed :
  createManyArgs encode deterministic sentAt fresh opt = Ok args -> createManyCompactEligible opt = true ->
  createManyPartitionMode (cm_PartitionKey opt) (cm_Items opt) = Ok mixed ->
  args = tok "FLOW.CREATE_MANY" :: txt (wirePartitionOf (cm_PartitionKey opt) mixed) :: flat_map segmentArgs (createSegments opt) ++
         tok "ITEMS" :: concat ((fun i => txt (ci_ID i) :: (if mixed then [txt (ci_PartitionKey i)] else []) ++
                                          [Arg (default VNil (encode (ci_Payload i)))]) <$> cm_Items opt).
Proof.
  intros H He Hm. unfold createManyCompactEligible in He. rewrite !andb_true_iff, !negb_true_iff, !orb_false_iff in He.
  destruct He as ((((((Hp & Hi) & Hr) & Hx) & (((Hv & Hf) & Ha) & Hs)) & Hmaps) & Hvals).
  unfold createManyArgs in H. rewrite Hm, Hmaps, Hvals in H. cbn [rbind] in H. inv_result.
  destruct (cm_Priority opt), (cm_Idempotent opt), (cm_RetentionTTLMS opt), (cm_MaxActiveMS opt); try done.
  apply some_nil in Hv, Hf, Ha, Hs. rewrite Hv, Hf, Ha, Hs in *.
  injection Hr1 as <-. apply appendNamedValues_ok in Hr3 as ->. apply eachItem_plain in Hr4 as ->.
  unfold encodedMap, encodeOrder. cbn. destruct (cm_Independent opt), deterministic; reflexivity.
Qed.

Definition plainItemArgs (mixed : bool) (i : CreateItem) : list arg :=
  txt (ci_ID i) :: (if mixed then [txt (ci_PartitionKey i)] else []) ++ [Arg (default VNil (encode (ci_Payload i)))].

Lemma createItems_plain mixed items :
  createItems mixed (concat (plainItemArgs mixed <$> items)) = mapM (typedCreateItem encode mixed) items.
Proof.
  induction items as [|i items IH]; [done|]. cbn [fmap list_fmap concat mapM]. rewrite <- IH. clear IH.
  unfold plainItemArgs at 1. destruct mixed; cbn [app createItems];
    match goal with |- context [createItems ?m ?l] => generalize (createItems m l) as r end;
    intros r; unfold typedCreateItem, encodedText; destruct (encode (ci_Payload i)) as [[]|]; cbn; by destruct r.
Qed.

Lemma plainItems_length mixed items :
  length (concat (plainItemArgs mixed <$> items)) = ((if mixed then 3 else 2) * length items)%nat.
Proof. induction items as [|i items IH]; [by destruct mixed|]. cbn. rewrite length_app, IH. destruct mixed; cbn; lia. Qed.

(** The set of options the arguments of a plain creation make. *)
Definition createOptionSet (opt : CreateManyOptions) : flowOptionSet :=
  let now := valueOrNow sentAt (cm_NowMS opt) in
  let o := addOption (go "RUN_AT") (int64 (orElseInt (cm_RunAtMS opt) now)) (addOption (go "NOW") (int64 now)
    (addOption (go "STATE") (txt (orElseText (cm_State opt) "queued")) (addOption (go "TYPE") (txt (cm_Type opt)) noOptions))) in
  match cm_Independent opt with Some b => addOption (go "INDEPENDENT") (boolText b) o | None => o end.

Lemma createOptions_parsed opt items :
  parseFlowOptionsUntilItems sprint noOptions (flat_map segmentArgs (createSegments opt) ++ tok "ITEMS" :: items) =
  Some (createOptionSet opt, go "ITEMS", items).
Proof.
  unfold createSegments, createOptionSet. cbn [flat_map segmentArgs sg_value sg_token text number flag optionArgs app].
  do 4 rewrite untilItems_next by (done || absent).
  destruct (cm_Independent opt) as [b|]; cbn [fmap option_fmap option_map optionArgs app]; [rewrite untilItems_next by (done || absent)|]; reflexivity.
Qed.

(** The compact builder on options it knows. *)
Lemma createCompact_build wire rest o items flowType state now runAt marker :
  let mixed := bool_decide (wire = go "MIXED") in
  let automatic := bool_decide (wire = []) || bool_decide (wire = go "AUTO") || equal_fold wire (go "none") in
  parseFlowOptionsUntilItems sprint noOptions rest = Some (o, go "ITEMS", items) ->
  bool_decide (items = []) || negb (Nat.eqb (length items mod (if mixed then 3 else 2)) 0) = false ->
  o_string sprint (go "TYPE") o = Some flowType -> o_string sprint (go "STATE") o = Some state -> o_int64 (go "NOW") o = Some now ->
  o_int64 (go "RUN_AT") o = Some runAt -> o_marker (go "INDEPENDENT") o = Some marker -> o_only createManyOptions o = true ->
  buildFlowCreateManyCompact sprint (txt wire :: rest) =
  match createItems mixed items with
  | Some decoded =>
      Ok (FlowRequest (go "FLOW.CREATE_MANY") nativeOpFlowCreateMany
            (BodyCreateMany (if mixed then nativeCompactFlowCreateManyMixedRequest
                             else if automatic then nativeCompactFlowCreateManyRequest else nativeCompactFlowCreateManyPartitionRequest)
               flowType state (if mixed || automatic then None else Some wire) now runAt marker decoded) false)
  | None => Err Declined
  end.
Proof.
  intros mixed automatic Hp Hlen Ht Hs Hn Hr Hi Ho. destruct rest as [|a rest]; [done|]. unfold buildFlowCreateManyCompact.
  rewrite Hp. cbn [orDecline rbind]. rewrite bool_decide_eq_true_2 by done. cbn [negb unless rguard rbind].
  change (argString sprint (txt wire)) with wire. fold mixed. rewrite Hlen. cbn [negb unless rguard rbind].
  rewrite Ht, Hs, Hn, Hr, Hi, Ho. cbn [orDecline rbind negb unless rguard default]. fold automatic.
  by destruct (createItems mixed items).
Qed.

(** The partition on the wire is mixed when it should be, and automatic when none was given. *)
Lemma wirePartition_kinds key mixed :
  notOnePartition key = bool_decide (key = []) -> (mixed = true -> key = []) ->
  let wire := wirePartitionOf key mixed in
  bool_decide (wire = go "MIXED") = mixed /\
  (mixed = false -> bool_decide (wire = []) || bool_decide (wire = go "AUTO") || equal_fold wire (go "none") =
                    bool_decide (wire = []) || bool_decide (wire = go "AUTO")).
Proof.
  intros Hk Hm. unfold wirePartitionOf. destruct mixed; [split; [by apply bool_decide_eq_true|done]|].
  destruct key as [|b key]; [by split|]. cbn [given]. change (given (b :: key)) with true. cbv iota.
  rewrite (bool_decide_eq_false_2 (b :: key = [])) in Hk by done. unfold notOnePartition in Hk. rewrite !orb_false_iff in Hk.
  destruct Hk as (((_ & Hmixed) & Hnone) & _). change (equal_fold ?s (go "none")) with (equal_fold s (go "NONE")). split.
  - apply bool_decide_eq_false. intros E. rewrite E in Hmixed. by vm_compute in Hmixed.
  - intros _. by rewrite Hnone, orb_false_r.
Qed.

Lemma mixed_without_partition key items : createManyPartitionMode key items = Ok true -> key = [].
Proof. unfold createManyPartitionMode. destruct key as [|b key]; [done|]. cbn [given]. change (given (b :: key)) with true. cbv iota. by destruct (existsb _ _). Qed.

(** The compact batch of creations the client makes of its options is the one its
    arguments become, where the partition has none of the names the builder reads as
    something else. *)
Theorem flow_create_compact_agrees opt args mixed :
  createManyArgs encode deterministic sentAt fresh opt = Ok args -> createManyCompactEligible opt = true ->
  createManyPartitionMode (cm_PartitionKey opt) (cm_Items opt) = Ok mixed -> cm_Items opt <> [] ->
  notOnePartition (cm_PartitionKey opt) = bool_decide (cm_PartitionKey opt = []) ->
  rmap fr_body (flowCommandOf sprint args) =
  match createManyCompact encode sentAt opt mixed with Some body => Ok body | None => Err Declined end.
Proof.
  intros H He Hm Hne Hname.
  assert (Htype : cm_Type opt <> []).
  { unfold createManyArgs in H. apply rbind_ok in H as ([] & Hv & _). apply checkedBy_ok in Hv. unfold validateCreateManyOptions in Hv.
    apply rbind_ok in Hv as ([] & Hv & _). unfold validatePublicFlowType in Hv. apply rbind_ok in Hv as ([] & Hv & _).
    apply rguard_ok in Hv. by destruct (cm_Type opt). }
  rewrite (createMany_plain_args opt args mixed H He Hm). fold (plainItemArgs mixed).
  destruct (wirePartition_kinds (cm_PartitionKey opt) mixed Hname) as [Hmixed Hauto].
  { intros ->. by eapply mixed_without_partition. }
  set (wire := wirePartitionOf (cm_PartitionKey opt) mixed) in *. set (items := concat _).
  assert (Hlen : bool_decide (items = []) || negb (Nat.eqb (length items mod (if mixed then 3 else 2)) 0) = false).
  { subst items. rewrite plainItems_length, Nat.mul_comm.
    rewrite bool_decide_eq_false_2 by (destruct (cm_Items opt); [done|]; by destruct mixed).
    destruct mixed; by rewrite Nat.Div0.mod_mul. }
  change (flowCommandOf sprint ?args) with (buildFlowCreateManyNative sprint (tail args)). cbn [tail].
  assert (Hplain : buildFlowCreateManyNative sprint (txt wire :: flat_map segmentArgs (createSegments opt) ++ tok "ITEMS" :: items) =
                   buildFlowCreateManyCompact sprint (txt wire :: flat_map segmentArgs (createSegments opt) ++ tok "ITEMS" :: items)).
  { unfold buildFlowCreateManyNative. rewrite flowItemMarker_batch; [reflexivity|vm_compute; reflexivity|done|left]. }
  rewrite Hplain. rewrite (createCompact_build _ _ (createOptionSet opt) items (cm_Type opt) (orElseText (cm_State opt) "queued")
    (valueOrNow sentAt (cm_NowMS opt)) (orElseInt (cm_RunAtMS opt) (valueOrNow sentAt (cm_NowMS opt))) (boolPtrMarker (cm_Independent opt)));
    rewrite ?Hmixed.
  - subst items. rewrite createItems_plain. unfold createManyCompact. fold wire.
    destruct (mapM (typedCreateItem encode mixed) (cm_Items opt)); [|done]. cbn [rmap rbind fr_body fmap option_fmap option_map].
    destruct mixed; [done|]. by rewrite Hauto.
  - apply createOptions_parsed.
  - exact Hlen.
  - unfold createOptionSet, o_string, o_value. destruct (cm_Independent opt); cbn; by destruct (cm_Type opt).
  - unfold createOptionSet, o_string, o_value, orElseText. destruct (cm_Independent opt); cbn; by destruct (cm_State opt).
  - unfold createOptionSet. by destruct (cm_Independent opt).
  - unfold createOptionSet. by destruct (cm_Independent opt).
  - unfold createOptionSet. by destruct (cm_Independent opt) as [[|]|].
  - unfold createOptionSet. by destruct (cm_Independent opt).
Qed.
End Agreement.

Definition sampleBody : flowBody :=
  BodyCompleteMany (Some (go "tenant")) 1000 1 [((go "a", None), go "lease", 7); ((go "b", None), go "lease", 8)].

Lemma flow_compact_payload_roundtrip_witness :
  exists bytes, encodeFlowPayload sampleBody 100 = Some (Ok bytes) /\ readFlowPayload bytes = Some sampleBody /\ blen bytes <= 100.
Proof.
  eexists. split; [vm_compute; reflexivity|]. apply flow_compact_payload_roundtrip; [|by vm_compute|vm_compute; reflexivity].
  unfold sampleBody, wellFormedBody, int64Range. split; [done|]. split; [done|]. repeat constructor; try done; by intros [? [=]].
Defined.

Lemma flow_compact_payload_exact_witness :
  exists pieces, payloadPieces sampleBody = Some pieces /\
    (encodeFlowPayload sampleBody 100 = Some (Ok (piecesBytes pieces)) <-> blen (piecesBytes pieces) <= 100 /\ piecesBytes pieces = piecesBytes pieces).
Proof.
  eexists. split; [vm_compute; reflexivity|]. apply flow_compact_payload_exact; [vm_compute; reflexivity|done|by vm_compute|reflexivity].
Defined.

(** Two flows created in one partition. *)
Definition sampleCreation : CreateManyOptions :=
  CreateManyOf (go "tenant") [CreateItemOf (go "a") (VString (go "x")) [] [] [] [] [] VNil; CreateItemOf (go "b") (VString (go "y")) [] [] [] [] [] VNil]
    (go "order") [] 0 1000 None None None None VNil [] [] [] [].

Lemma flow_create_compact_agrees_witness :
  exists args body, createManyArgs Some false 1000 (fun n => Z.of_nat n) sampleCreation = Ok args /\
    createManyCompact Some 1000 sampleCreation false = Some body /\ rmap fr_body (flowCommandOf (fun _ => []) args) = Ok body.
Proof.
  eexists _, _. split; [vm_compute; reflexivity|]. split; [vm_compute; reflexivity|].
  rewrite (flow_create_compact_agrees Some false 1000 (fun n => Z.of_nat n) (fun _ => []) sampleCreation _ false);
    [reflexivity|vm_compute; reflexivity|reflexivity|reflexivity|done|reflexivity].
Defined.

(** Flows created in a partition called "AUTO": however the batch is sent, the partition
    is left to the server. *)
Definition creationInAuto : CreateManyOptions :=
  CreateManyOf (go "AUTO") [CreateItemOf (go "a") (VString (go "x")) [] [] [] [] [] VNil] (go "order") [] 0 1000 None None None None VNil [] [] [] [].

Theorem flow_create_partition_called_auto :
  createManyCompact Some 1000 creationInAuto false =
    Some (BodyCreateMany nativeCompactFlowCreateManyRequest (go "order") (go "queued") None 1000 1000 0 [(go "a", None, go "x")]) /\
  match createManyArgs Some false 1000 (fun n => Z.of_nat n) creationInAuto with
  | Ok args => rmap fr_body (flowCommandOf (fun _ => []) args)
  | Err _ => Err Declined
  end = Ok (BodyCreateMany nativeCompactFlowCreateManyRequest (go "order") (go "queued") None 1000 1000 0 [(go "a", None, go "x")]).
Proof. split; vm_compute; reflexivity. Qed.
