(* ===== verification/FlowRecords.v ===== *)
(** Flow records and claims as the client reads them from responses
    (src/flow_record_response.go, src/flow_claim_response.go, src/response.go): every
    field with its coercion and its bounds, in the order the code checks them, and the
    acknowledgements of batches.

    What a call returns is what the native executor gives for [any]: a plain value, or one
    of the typed results of the compact codecs. *)

From S2P Require Import CompactResponse.
From S2P Require Export FlowBatches.

Inductive recordError :=
| RecordField (name : String.string)      (* not text, or not an integer *)
| RecordEmpty (name : String.string)
| RecordMissing (name : String.string)
| RecordRange (name : String.string)
| RecordMap (name : String.string)
| RecordDecode (name : String.string)     (* the codec fails *)
| RecordValue (name : gstr)
| RecordNotMap
| RecordNotArray
| RecordWidth (width : Z)
| RecordCount (count expected : Z).

(** [m[key]], nil where the map has no such key. *)
Definition fieldOf (m : valueMap) (key : String.string) : val := default VNil (assoc_get (go key) m).

Definition textField (key : String.string) (v : val) : result recordError gstr :=
  match responseString v with
  | None => Err (RecordField key)
  | Some [] => Err (RecordEmpty key)
  | Some s => Ok s
  end.

Definition optionalResponseStringField (m : valueMap) (key : String.string) : result recordError gstr :=
  match fieldOf m key with VNil => Ok [] | v => textField key v end.

Definition requiredResponseStringField (m : valueMap) (key : String.string) : result recordError gstr :=
  match fieldOf m key with VNil => Err (RecordMissing key) | v => textField key v end.

(** The text of a value, which may be empty. *)
Definition optionalResponseStringValue (key : String.string) (v : val) : result recordError gstr :=
  match v with
  | VNil => Ok []
  | _ => match responseString v with Some s => Ok s | None => Err (RecordField key) end
  end.

Definition optionalResponseInt64 (m : valueMap) (key : String.string) : result recordError Z :=
  match fieldOf m key with
  | VNil => Ok 0
  | v => match responseInt64 v with Some z => Ok z | None => Err (RecordField key) end
  end.

Definition optionalNativeMap (key : String.string) (v : val) : result recordError valueMap :=
  match v with
  | VNil => Ok []
  | _ => match nativeMap v with Ok m => Ok m | Err _ => Err (RecordMap key) end
  end.

Definition inRange (key : String.string) (lo hi z : Z) : result recordError unit :=
  rguard ((lo <=? z) && (z <=? hi)) (RecordRange key).

Record FlowRecord := FlowRecordOf {
  rec_ID : gstr;
  rec_Type : gstr;
  rec_State : gstr;
  rec_PartitionKey : gstr;
  rec_Payload : val;
  rec_Error : val;
  rec_FailureReason : gstr;
  rec_MaxActiveMS : Z;
  rec_LeaseToken : gstr;
  rec_FencingToken : Z;
  rec_Version : Z;
  rec_ParentFlowID : gstr;
  rec_RootFlowID : gstr;
  rec_CorrelationID : gstr;
  rec_RunState : gstr;
  rec_Attributes : valueMap;
  rec_StateMeta : valueMap;
  rec_IndexedStateMeta : gstr;
  rec_Values : valueMap;
  rec_ValueRefs : valueMap;
  rec_ValueSizes : valueMap;
  rec_ValueOmitted : valueMap;
  rec_ValueMissing : valueMap;
  rec_Raw : valueMap;
}.

(** [ClaimedItem], whole; [None] for nil attributes. *)
Record FlowClaim := FlowClaimOf {
  it_ID : gstr;
  it_LeaseToken : gstr;
  it_FencingToken : Z;
  it_PartitionKey : gstr;
  it_Type : gstr;
  it_State : gstr;
  it_RunState : gstr;
  it_Payload : val;
  it_Attributes : option valueMap;
}.

Section Decoding.
(** [codec.Decode]; [None] where it fails. *)
Context (decode : val -> option val).

Definition decodeValue (v : val) : option val := match v with VNil => Some VNil | _ => decode v end.

Definition decodedField (key : String.string) (v : val) : result recordError val :=
  match decodeValue v with Some w => Ok w | None => Err (RecordDecode key) end.

(** [decodeMap]. *)
Definition decodeMap (v : val) : result recordError valueMap :=
  let! raw := optionalNativeMap "flow values" v in
  rmapM (fun e : gstr * val =>
    match decodeValue e.2 with Some w => Ok (e.1, w) | None => Err (RecordValue e.1) end) raw.

Definition decodeFlowRecordError (v : val) : result recordError val :=
  match v with
  | VNil => Ok VNil
  | _ => match nativeMap v with Ok m => Ok (VMap None m) | Err _ => decodedField "error" v end
  end.

Definition flowFailureReason (v : val) : result recordError gstr :=
  match nativeMap v with
  | Ok m => optionalResponseStringValue "reason" (fieldOf m "reason")
  | Err _ => Ok []
  end.

Definition recordFromMap (m : valueMap) : result recordError FlowRecord :=
  let! id := requiredResponseStringField m "id" in
  let! flowType := optionalResponseStringField m "type" in
  let! state := optionalResponseStringField m "state" in
  let! partitionKey := optionalResponseStringField m "partition_key" in
  let! leaseToken := optionalResponseStringField m "lease_token" in
  let! parentFlowID := optionalResponseStringField m "parent_flow_id" in
  let! rootFlowID := optionalResponseStringField m "root_flow_id" in
  let! correlationID := optionalResponseStringField m "correlation_id" in
  let! runState := optionalResponseStringField m "run_state" in
  let! indexedStateMeta := optionalResponseStringField m "indexed_state_meta" in
  let! payload := decodedField "payload" (fieldOf m "payload") in
  let! values := decodeMap (fieldOf m "values") in
  let! fencingToken := optionalResponseInt64 m "fencing_token" in
  let! _ := inRange "fencing_token" 0 maxFlowExactIntegerV080 fencingToken in
  let! version := optionalResponseInt64 m "version" in
  let! _ := inRange "version" 0 maxFlowExactIntegerV080 version in
  let! maxActiveMS := optionalResponseInt64 m "max_active_ms" in
  let! _ := match fieldOf m "max_active_ms" with
            | VNil => Ok tt
            | _ => inRange "max_active_ms" 1 maxFlowActiveMS maxActiveMS
            end in
  let! flowError := decodeFlowRecordError (fieldOf m "error") in
  let! failureReason := flowFailureReason flowError in
  let! attributes := optionalNativeMap "attributes" (fieldOf m "attributes") in
  let! stateMeta := optionalNativeMap "state_meta" (fieldOf m "state_meta") in
  let! valueRefs := optionalNativeMap "value_refs" (fieldOf m "value_refs") in
  let! valueSizes := optionalNativeMap "value_sizes" (fieldOf m "value_sizes") in
  let! valueOmitted := optionalNativeMap "value_omitted" (fieldOf m "value_omitted") in
  let! valueMissing := optionalNativeMap "value_missing" (fieldOf m "value_missing") in
  Ok (FlowRecordOf id flowType state partitionKey payload flowError failureReason maxActiveMS leaseToken
        fencingToken version parentFlowID rootFlowID correlationID runState attributes stateMeta indexedStateMeta
        values valueRefs valueSizes valueOmitted valueMissing m).

Definition recordFromNative (v : val) : result recordError FlowRecord :=
  match nativeMap v with Ok m => recordFromMap m | Err _ => Err RecordNotMap end.

(** [isOK]. *)
Fixpoint isOKValue (v : val) : bool :=
  match v with
  | VString s | VBytes s => equal_fold s (go "OK")
  | VArray _ l => negb (bool_decide (l = [])) && forallb isOKValue l
  | _ => false
  end.

Definition isOK (r : compactValue) : bool :=
  match r with CompactPlain v => isOKValue v | CompactOKCount n => 0 <? n | _ => false end.

Definition recordsFromNative (r : compactValue) : result recordError (list FlowRecord) :=
  match r with
  | CompactPlain VNil => Ok []
  | CompactPlain (VArray _ items) => rmapM recordFromNative items
  | _ => Err RecordNotArray
  end.

(** [recordOrNil]; [None] for the nil pointer. *)
Definition recordOrNil (r : compactValue) : result recordError (option FlowRecord) :=
  match r with
  | CompactPlain VNil => Ok None
  | CompactPlain v => if isOKValue v then Ok None else rmap Some (recordFromNative v)
  | _ => if isOK r then Ok None else Err RecordNotMap
  end.

(** [recordsOrNil]; [None] for nil, which stands for an acknowledgement without records. *)
Definition recordsOrNil (r : compactValue) (expected : Z) : result recordError (option (list FlowRecord)) :=
  let counted (count : Z) := if count =? expected then Ok None else Err (RecordCount count expected) in
  let records :=
    let! records := recordsFromNative r in
    if blen records =? expected then Ok (Some records) else Err (RecordCount (blen records) expected) in
  match r with
  | CompactPlain VNil => Err (RecordCount 0 expected)
  | CompactOKCount count => counted count
  | CompactPlain (VArray _ items) => if isOK r then counted (blen items) else records
  | _ => if isOK r then Ok None else records
  end.

(** ** Claims *)

Definition validateClaimedItemResponse (i : FlowClaim) : result recordError FlowClaim :=
  if negb (given (it_ID i)) then Err (RecordEmpty "id")
  else if negb (given (it_LeaseToken i)) then Err (RecordEmpty "lease_token")
  else let! _ := inRange "fencing_token" 0 maxFlowExactIntegerV080 (it_FencingToken i) in Ok i.

Definition rowText (key : String.string) (v : val) : result recordError gstr :=
  match responseString v with Some s => Ok s | None => Err (RecordField key) end.

Definition rowInt (key : String.string) (v : val) : result recordError Z :=
  match responseInt64 v with Some z => Ok z | None => Err (RecordField key) end.

(** The fifth element of a row: attributes if it reads as a map, and the run state otherwise. *)
Definition rowFifth (v : val) : result recordError (gstr * option valueMap) :=
  match nativeMap v with
  | Ok attributes => Ok ([], Some attributes)
  | Err _ => let! runState := optionalResponseStringValue "run_state" v in Ok (runState, None)
  end.

Definition claimedItemFromRow (row : list val) : result recordError FlowClaim :=
  match row with
  | id :: partition :: lease :: fencing :: rest =>
      if 2 <? blen rest then Err (RecordWidth (blen row)) else
      let! id := rowText "id" id in
      let! partition := optionalResponseStringValue "partition_key" partition in
      let! lease := rowText "lease_token" lease in
      let! fencing := rowInt "fencing_token" fencing in
      let! (runState, attributes) := match rest with [] => Ok ([], None) | fifth :: _ => rowFifth fifth end in
      let! attributes := match rest with
                         | _ :: sixth :: _ => rmap Some (optionalNativeMap "attributes" sixth)
                         | _ => Ok attributes
                         end in
      validateClaimedItemResponse (FlowClaimOf id lease fencing partition [] (go "running") runState VNil attributes)
  | _ => Err (RecordWidth (blen row))
  end.

Definition claimedItemFromMap (m : valueMap) : result recordError FlowClaim :=
  let! state := optionalResponseStringField m "state" in
  let state := if given state then state else go "running" in
  let! id := requiredResponseStringField m "id" in
  let! lease := requiredResponseStringField m "lease_token" in
  let! partition := optionalResponseStringField m "partition_key" in
  let! flowType := optionalResponseStringField m "type" in
  let! runState := optionalResponseStringField m "run_state" in
  let! fencing := rowInt "fencing_token" (fieldOf m "fencing_token") in
  let! attributes := optionalNativeMap "attributes" (fieldOf m "attributes") in
  let! payload := decodedField "payload" (fieldOf m "payload") in
  validateClaimedItemResponse (FlowClaimOf id lease fencing partition flowType state runState payload (Some attributes)).

Definition claimedItemFromNative (v : val) : result recordError FlowClaim :=
  match v with
  | VArray _ row => claimedItemFromRow row
  | _ => match nativeMap v with Ok m => claimedItemFromMap m | Err _ => Err RecordNotMap end
  end.

(** A claim as the compact codec reads it. *)
Definition ofCompactClaim (i : Compact.ClaimedItem) : FlowClaim :=
  FlowClaimOf (Compact.ID i) (Compact.LeaseToken i) (Compact.FencingToken i) (Compact.PartitionKey i) []
    (Compact.State i) (Compact.RunState i) VNil (Compact.Attributes i).

Definition claimedItemsFromNative (r : compactValue) : result recordError (list FlowClaim) :=
  match r with
  | CompactPlain VNil => Ok []
  | CompactClaimed items => rmapM (fun i => validateClaimedItemResponse (ofCompactClaim i)) items
  | CompactPlain (VArray _ items) => rmapM claimedItemFromNative items
  | _ => Err RecordNotArray
  end.
End Decoding.

(** ** Limits of lists *)

Definition maxClampedFlowListItemsV080 : Z := 1000.

Definition replyCount (r : compactValue) : option Z :=
  match r with
  | CompactPlain (VArray _ items) => Some (blen items)
  | CompactClaimed items => Some (blen items)
  | _ => None
  end.

Definition validateFlowResponseLimit (r : compactValue) (limit : Z) : result recordError unit :=
  let limit := if limit =? 0 then 1 else limit in
  match replyCount r with
  | Some count => if limit <? count then Err (RecordCount count limit) else Ok tt
  | None => Ok tt
  end.

Definition effectiveFlowResponseLimit (limit : option Z) (defaultLimit maximum : Z) : Z :=
  let effective := default defaultLimit limit in
  if (0 <? maximum) && (maximum <? effective) then maximum else effective.

Definition validateDefaultedFlowResponseLimit (r : compactValue) (limit : option Z) (defaultLimit maximum : Z)
  : result recordError unit :=
  validateFlowResponseLimit r (effectiveFlowResponseLimit limit defaultLimit maximum).

(** ** What is read *)

Section Reading.
Context (decode : val -> option val).

Lemma inRange_ok key lo hi z u : inRange key lo hi z = Ok u <-> lo <= z <= hi.
Proof. unfold inRange. rewrite rguard_ok, andb_true_iff, !Z.leb_le. by destruct u. Qed.

Lemma requiredField_given m key s : requiredResponseStringField m key = Ok s -> given s = true.
Proof.
  unfold requiredResponseStringField, textField. destruct (fieldOf m key); cbn; try done.
  all: destruct s0; try done; by intros [= <-].
Qed.

Lemma recordFromMap_claim m r : recordFromMap decode m = Ok r ->
  optionalResponseInt64 m "fencing_token" = Ok (rec_FencingToken r) /\
  optionalNativeMap "value_refs" (fieldOf m "value_refs") = Ok (rec_ValueRefs r).
Proof. unfold recordFromMap. intros H. repeat (apply rbind_ok in H as (? & ? & H)). by injection H as <-. Qed.

(** A record read from a response names a flow, and its counters are within the range the
    server promises. *)
Theorem flow_record_bounds v r : recordFromNative decode v = Ok r ->
  given (rec_ID r) = true /\ 0 <= rec_FencingToken r <= maxFlowExactIntegerV080 /\
  0 <= rec_Version r <= maxFlowExactIntegerV080 /\
  (fieldOf (rec_Raw r) "max_active_ms" <> VNil -> 0 < rec_MaxActiveMS r <= maxFlowActiveMS) /\
  nativeMap v = Ok (rec_Raw r).
Proof.
  unfold recordFromNative. destruct (nativeMap v) as [m|]; [|done]. unfold recordFromMap. intros H.
  apply rbind_ok in H as (id & Hid & H). apply requiredField_given in Hid.
  repeat (apply rbind_ok in H as (? & ? & H)). injection H as <-.
  cbn [rec_ID rec_FencingToken rec_Version rec_Raw rec_MaxActiveMS].
  repeat match goal with H : inRange _ _ _ _ = Ok _ |- _ => apply inRange_ok in H end.
  split; [done|]. split; [lia|]. split; [lia|]. split; [|done]. intros Hne.
  destruct (fieldOf m "max_active_ms"); [done|..];
    match goal with H : inRange _ _ _ _ = Ok _ |- _ => apply inRange_ok in H; lia end.
Qed.

(** ** The two forms of a claim *)

Definition textOrNil (s : gstr) : val := if given s then VString s else VNil.

Definition mapOrNil (m : option valueMap) : val := match m with Some m => VMap None m | None => VNil end.

(** The row and the map that say what a claim holds. *)
Definition claimRow (c : FlowClaim) : list val :=
  [VString (it_ID c); textOrNil (it_PartitionKey c); VString (it_LeaseToken c); VInt IInt64 (it_FencingToken c);
   textOrNil (it_RunState c); mapOrNil (it_Attributes c)].

Definition claimMap (c : FlowClaim) : valueMap :=
  [(go "id", VString (it_ID c)); (go "partition_key", textOrNil (it_PartitionKey c));
   (go "lease_token", VString (it_LeaseToken c)); (go "fencing_token", VInt IInt64 (it_FencingToken c));
   (go "run_state", textOrNil (it_RunState c)); (go "attributes", mapOrNil (it_Attributes c))].

(** A claim as a response without a type and a payload gives it. *)
Definition plainClaim (c : FlowClaim) : Prop :=
  it_Type c = [] /\ it_Payload c = VNil /\ it_State c = go "running" /\
  given (it_ID c) = true /\ given (it_LeaseToken c) = true /\
  exists m, it_Attributes c = Some m /\ nativeMap (VMap None m) = Ok m.

(** A claim is the same whether the server sends it as a row or as a map, and is refused
    alike in both forms. *)
Theorem flow_claim_forms_agree c : plainClaim c ->
  claimedItemFromRow (claimRow c) = validateClaimedItemResponse c /\
  claimedItemFromMap decode (claimMap c) = validateClaimedItemResponse c.
Proof.
  destruct c as [id lease fencing partition flowType state runState payload attributes].
  intros (Ht & Hp & Hs & Hi & Hl & m & Hm & Hn). cbn in Ht, Hp, Hs, Hi, Hl, Hm. subst.
  destruct id as [|i id]; [done|]. destruct lease as [|l lease]; [done|].
  split; unfold claimedItemFromMap, claimedItemFromRow, claimRow, claimMap, requiredResponseStringField,
    optionalResponseStringField, decodedField, rowFifth, optionalNativeMap.
  - destruct partition, runState; cbn -[nativeMap]; rewrite Hn; reflexivity.
  - destruct partition, runState; cbv -[nativeMap validateClaimedItemResponse]; rewrite Hn; reflexivity.
Qed.

(** The acknowledgement of a batch counts its items, whichever form it has; records come
    one for each item. *)
Theorem flow_acknowledgement_counts r expected : 0 < expected ->
  (forall records, recordsOrNil decode r expected = Ok (Some records) -> blen records = expected) /\
  (forall count, recordsOrNil decode (CompactOKCount count) expected = Ok None <-> count = expected) /\
  (forall items, isOKValue (VArray None items) = true ->
     recordsOrNil decode (CompactPlain (VArray None items)) expected = Ok None <-> blen items = expected).
Proof.
  intros Hpos. split_and!.
  - unfold recordsOrNil. intros records H.
    assert (E : forall m : result recordError (list FlowRecord),
      (let! l := m in if blen l =? expected then Ok (Some l) else Err (RecordCount (blen l) expected)) = Ok (Some records) ->
      blen records = expected).
    { intros m Hr. apply rbind_ok in Hr as (l & _ & Hr). destruct (_ =? _) eqn:Ee in Hr; [|done].
      injection Hr as <-. by apply Z.eqb_eq. }
    repeat case_match; try done; by apply E in H.
  - intros count. cbn. destruct (_ =? _) eqn:E; z_tests; split; congruence.
  - intros items Hok. unfold recordsOrNil, isOK. rewrite Hok. destruct (_ =? _) eqn:E; z_tests; split; congruence.
Qed.
End Reading.
