(* ===== verification/Streams.v ===== *)
(** Streams (src/stores_stream_*.go and the checks of src/stores_specialized_validation.go
    they use): entry IDs and their order, what each call sends, and what is accepted as its
    reply. An entry is the flat array [id, field, value, ...] of the server; only values pass
    through the codec of the client. *)

From S2P Require Import CompactResponse.
From S2P Require Export FlowRecords.

Inductive streamError :=
| StreamRefused (what : String.string)      (* bad options: nothing is sent *)
| StreamEncode                              (* the codec refuses a value: nothing is sent *)
| StreamCommand (e : goError)               (* the reply is an error *)
| StreamReply (what : String.string)        (* the reply is refused *)
| StreamEntry (what : String.string) (index : Z)
| StreamInfoMap (e : normError).

Definition reject {A} (what : String.string) : result streamError A := Err (StreamReply what).

(** ** Entry IDs *)

(** [parseStreamIDPart]: the digits between two positions, as a [uint64]. *)
Definition parseStreamIDPart (id : gstr) (start stop : Z) : option Z :=
  accumulate max_uint64 0 (btake (stop - start) (bdrop start id)).

(** The loop that finds the one separator; -1 before it is met. *)
Fixpoint findSeparator (index separator : Z) (id : gstr) : option Z :=
  match id with
  | [] => Some separator
  | b :: id =>
      if negb (bool_decide (b = x2d)) then findSeparator (index + 1) separator id
      else if 0 <=? separator then None
      else findSeparator (index + 1) index id
  end.

Definition parseStreamIDText (id : gstr) : option (Z * Z) :=
  match findSeparator 0 (-1) id with
  | None => None
  | Some separator =>
      if (separator <=? 0) || (blen id - 1 <=? separator) then None
      else match parseStreamIDPart id 0 separator with
           | None => None
           | Some milliseconds =>
               match parseStreamIDPart id (separator + 1) (blen id) with
               | None => None
               | Some sequence => Some (milliseconds, sequence)
               end
           end
  end.

Definition parseStreamIDResponse (v : val) : option (Z * Z) :=
  match v with VString id | VBytes id => parseStreamIDText id | _ => None end.

Definition validStreamIDOrPartialText (id : gstr) : bool :=
  match parseStreamIDText id with
  | Some _ => true
  | None => given id && bool_decide (is_Some (parseStreamIDPart id 0 (blen id)))
  end.

Definition compareStreamIDs (leftMS leftSequence rightMS rightSequence : Z) : Z :=
  if (leftMS <? rightMS) || (leftMS =? rightMS) && (leftSequence <? rightSequence) then -1
  else if (leftMS =? rightMS) && (leftSequence =? rightSequence) then 0
  else 1.

Definition compareIDs (left right : Z * Z) : Z := compareStreamIDs left.1 left.2 right.1 right.2.

(** The ID of an entry is not 0-0. *)
Definition nonzeroID (id : option (Z * Z)) : option (Z * Z) :=
  match id with Some (0, 0) => None | _ => id end.

Definition streamIDStringResponse (v : val) : result streamError gstr :=
  match responseString v with
  | None => reject "expected string response"
  | Some id => match nonzeroID (parseStreamIDText id) with Some _ => Ok id | None => reject "invalid stream ID" end
  end.

(** ** Entries *)

Inductive streamResponseOrder := streamResponseUnordered | streamResponseAscending | streamResponseDescending.

(** The order of an entry and the one before it. *)
Definition inOrder (order : streamResponseOrder) (previous current : Z * Z) : bool :=
  match order with
  | streamResponseUnordered => true
  | streamResponseAscending => 0 <? compareIDs current previous
  | streamResponseDescending => compareIDs current previous <? 0
  end.

Definition isText (v : val) : bool := match v with VString _ | VBytes _ => true | _ => false end.

(** The fields of an entry behind its ID: text at every second place. *)
Fixpoint validateFields (index : Z) (entry : list val) : result streamError unit :=
  match entry with
  | field :: _ :: entry =>
      let! _ := rguard (isText field) (StreamEntry "field" index) in
      validateFields index entry
  | _ => Ok tt
  end.

(** An entry's ID, once its shape is checked. *)
Definition validateEntry (order : streamResponseOrder) (previous : option (Z * Z)) (index : Z) (item : val)
  : result streamError (Z * Z) :=
  match item with
  | VArray _ entry =>
      let! _ := rguard (blen entry mod 2 =? 1) (StreamEntry "shape" index) in
      match nonzeroID (parseStreamIDResponse (hd VNil entry)) with
      | None => Err (StreamEntry "invalid ID" index)
      | Some id =>
          let! _ := rguard (match previous with Some p => inOrder order p id | None => true end) (StreamEntry "order" index) in
          let! _ := validateFields index (tl entry) in
          Ok id
      end
  | _ => Err (StreamEntry "array" index)
  end.

Fixpoint validateEntriesFrom (order : streamResponseOrder) (previous : option (Z * Z)) (index : Z) (entries : list val)
  : result streamError unit :=
  match entries with
  | [] => Ok tt
  | item :: entries =>
      let! id := validateEntry order previous index item in
      validateEntriesFrom order (Some id) (index + 1) entries
  end.

Definition validateStreamEntriesOrder (entries : list val) (order : streamResponseOrder) : result streamError unit :=
  validateEntriesFrom order None 0 entries.
Definition validateStreamEntries (entries : list val) : result streamError unit :=
  validateStreamEntriesOrder entries streamResponseUnordered.

(** The codec of a client: [raw] for [RawCodec], and whether it is given a map in the
    order of its keys. *)
Record streamCodec := Codec {
  raw : bool;
  deterministic : bool;
  Encode : val -> option val;
  Decode : val -> option val;
}.

Fixpoint decodeFields (codec : streamCodec) (index : Z) (entry : list val) : result streamError (list val) :=
  match entry with
  | field :: value :: entry =>
      match Decode codec value with
      | None => Err (StreamEntry "decode" index)
      | Some value => let! entry := decodeFields codec index entry in Ok (field :: value :: entry)
      end
  | _ => Ok entry
  end.

Fixpoint decodeEntriesFrom (codec : streamCodec) (index : Z) (entries : list val) : result streamError (list val) :=
  match entries with
  | [] => Ok []
  | item :: entries =>
      let entry := match item with VArray _ entry => entry | _ => [] end in
      let! owned := decodeFields codec index (tl entry) in
      let! entries := decodeEntriesFrom codec (index + 1) entries in
      Ok (VArray None (hd VNil entry :: owned) :: entries)
  end.

Definition withinCount (count : option Z) (n : Z) : bool :=
  match count with Some count => n <=? count | None => true end.

Definition decodeStreamEntriesLimitedOrder (codec : streamCodec) (value : val) (count : option Z) (order : streamResponseOrder)
  : result streamError val :=
  match value with
  | VNil => Ok VNil
  | VArray _ entries =>
      let! _ := rguard (withinCount count (blen entries)) (StreamReply "more entries than COUNT") in
      let! _ := validateStreamEntriesOrder entries order in
      if raw codec then Ok value
      else let! decoded := decodeEntriesFrom codec 0 entries in Ok (VArray None decoded)
  | _ => reject "expected stream entry array"
  end.

Definition decodeStreamEntriesLimited (codec : streamCodec) (value : val) (count : option Z) : result streamError val :=
  decodeStreamEntriesLimitedOrder codec value count streamResponseAscending.

(** ** Reading several streams *)

Record StreamRef := RefOf { ref_Key : gstr; ref_ID : gstr }.

Definition responseTextEqual (v : val) (expected : gstr) : bool :=
  match v with VString s | VBytes s => bool_decide (s = expected) | _ => false end.

(** [nextExpectedStreamKey]: what is left of the requested streams behind the one named. *)
Fixpoint nextExpectedStreamKey (v : val) (expected : list StreamRef) : option (list StreamRef) :=
  match expected with
  | [] => None
  | stream :: expected => if responseTextEqual v (ref_Key stream) then Some expected else nextExpectedStreamKey v expected
  end.

Fixpoint decodeStreamsFrom (codec : streamCodec) (expected : list StreamRef) (count : option Z) (index : Z) (streams : list val)
  : result streamError (list val) :=
  match streams with
  | [] => Ok []
  | item :: streams =>
      match item with
      | VArray _ [key; entries] =>
          let! _ := rguard (isText key) (StreamEntry "key" index) in
          match nextExpectedStreamKey key expected with
          | None => Err (StreamEntry "unrequested key" index)
          | Some expected =>
              let! entries := decodeStreamEntriesLimited codec entries count in
              let! decoded := decodeStreamsFrom codec expected count (index + 1) streams in
              Ok (VArray None [key; entries] :: decoded)
          end
      | _ => reject "stream read item must contain a key and entries"
      end
  end.

(** [decodeStreamReadExpected] with the streams that were requested. *)
Definition decodeStreamReadExpected (codec : streamCodec) (value : val) (expected : list StreamRef) (count : option Z)
  : result streamError val :=
  match value with
  | VNil => Ok VNil
  | VArray _ streams =>
      let! _ := rguard (blen streams <=? blen expected) (StreamReply "more streams than requested") in
      let! decoded := decodeStreamsFrom codec expected count 0 streams in
      if raw codec then Ok value else Ok (VArray None decoded)
  | _ => reject "expected stream read array"
  end.

(** ** Other replies *)

Definition responseInteger (what : String.string) (ok : Z -> bool) (v : val) : result streamError Z :=
  match responseInt64 v with
  | None => reject "expected integer response"
  | Some n => if ok n then Ok n else reject what
  end.

Definition nonNegativeInt64Response (v : val) : result streamError Z :=
  responseInteger "negative value" (fun n => 0 <=? n) v.

Definition boundedCountResponse (maximum : Z) (v : val) : result streamError Z :=
  responseInteger "count outside its range" (fun n => (0 <=? n) && (n <=? maximum)) v.

Definition entryID (v : val) : option (Z * Z) :=
  match v with VArray _ (id :: _) => parseStreamIDResponse id | _ => None end.

(** The first and last entries of a stream that is not empty. *)
Definition checkInfoEntries (length : Z) (generated : Z * Z) (first last : val) : result streamError unit :=
  let! _ := validateStreamEntries [first; last] in
  match entryID first, entryID last with
  | Some firstID, Some lastID =>
      let entryComparison := compareIDs firstID lastID in
      let! _ := rguard (negb ((0 <? entryComparison) ||
                              (length =? 1) && negb (entryComparison =? 0) ||
                              (1 <? length) && (0 <=? entryComparison)))
                  (StreamReply "first and last entries are inconsistent with length") in
      rguard (negb (compareIDs generated lastID <? 0)) (StreamReply "last-generated-id is behind last-entry")
  | _, _ => reject "entries"
  end.

Definition validateStreamInfo (v : val) : result streamError val :=
  match nativeMap v with
  | Err e => Err (StreamInfoMap e)
  | Ok info =>
      let! length := nonNegativeInt64Response (fieldOf info "length") in
      let! _ := nonNegativeInt64Response (fieldOf info "groups") in
      match parseStreamIDResponse (fieldOf info "last-generated-id") with
      | None => reject "invalid last-generated-id"
      | Some generated =>
          let first := fieldOf info "first-entry" in
          let last := fieldOf info "last-entry" in
          if length =? 0 then
            match first, last with VNil, VNil => Ok v | _, _ => reject "entries for an empty stream" end
          else
            match first, last with
            | VNil, _ | _, VNil => reject "no entries for a non-empty stream"
            | _, _ => let! _ := checkInfoEntries length generated first last in Ok v
            end
      end
  end.

(** ** The calls *)

Record StreamAddOptions := AddOptions {
  add_NoMkStream : bool;
  add_MaxLen : option Z;
  add_MinID : gstr;
  add_Approximate : bool;
}.

Record StreamTrimOptions := TrimOptions { trim_MaxLen : option Z; trim_MinID : gstr; trim_Approximate : bool }.

Record StreamReadOptions := ReadOptions { read_Count : option Z; read_BlockMS : option Z; read_Streams : list StreamRef }.

Definition refuseUnless (ok : bool) (what : String.string) : result streamError unit := rguard ok (StreamRefused what).

Definition isGiven {A} (o : option A) : bool := match o with Some _ => true | None => false end.
Definition notNegative (o : option Z) : bool := match o with Some z => 0 <=? z | None => true end.

Definition validateStreamAdd (fields : valueMap) (opt : StreamAddOptions) : result streamError unit :=
  let! _ := refuseUnless (negb (blen fields =? 0)) "XADD requires at least one field/value pair" in
  let! _ := refuseUnless (negb (isGiven (add_MaxLen opt) && given (add_MinID opt))) "XADD accepts exactly one of MAXLEN or MINID" in
  let! _ := refuseUnless (negb (add_Approximate opt && negb (isGiven (add_MaxLen opt)) && negb (given (add_MinID opt))))
              "XADD approximate trimming requires MAXLEN or MINID" in
  let! _ := refuseUnless (notNegative (add_MaxLen opt)) "XADD MAXLEN must be non-negative" in
  refuseUnless (negb (given (add_MinID opt)) || validStreamIDOrPartialText (add_MinID opt)) "XADD MINID has invalid stream ID".

Definition validateStreamTrimOptions (opt : StreamTrimOptions) : result streamError unit :=
  let! _ := refuseUnless (negb (Bool.eqb (negb (isGiven (trim_MaxLen opt))) (negb (given (trim_MinID opt)))))
              "XTRIM requires exactly one of MAXLEN or MINID" in
  let! _ := refuseUnless (notNegative (trim_MaxLen opt)) "XTRIM MAXLEN must be non-negative" in
  refuseUnless (negb (given (trim_MinID opt)) || validStreamIDOrPartialText (trim_MinID opt)) "XTRIM MINID has invalid stream ID".

Definition validateStreamTrim (threshold : gstr) (limit : option Z) : result streamError unit :=
  let! _ := refuseUnless (isGiven (parseUint64 threshold)) "XTRIM MAXLEN threshold must be a non-negative integer" in
  refuseUnless (negb (isGiven limit)) "XTRIM LIMIT is not supported by this server protocol".

Definition validateNonNegativeCount (count : option Z) : result streamError unit :=
  refuseUnless (notNegative count) "count must be non-negative".

(** The two commands that read several streams. *)
Inductive readCommand := XREAD | XREADGROUP (group consumer : gstr).

Definition validStreamReadID (command : readCommand) (id : gstr) : bool :=
  bool_decide (id = go "0") ||
  match command with XREAD => bool_decide (id = go "$") | XREADGROUP _ _ => bool_decide (id = go ">") end ||
  validStreamIDOrPartialText id.

Definition validateStreamRead (command : readCommand) (opt : StreamReadOptions) : result streamError unit :=
  let! _ := refuseUnless (negb (blen (read_Streams opt) =? 0)) "at least one stream is required" in
  let! _ := validateNonNegativeCount (read_Count opt) in
  let! _ := refuseUnless (is_ok (validateOptionalBlockingTimeoutMS (go "XREAD") (read_BlockMS opt))) "block timeout is out of range" in
  refuseUnless (forallb (fun stream => validStreamReadID command (ref_ID stream)) (read_Streams opt)) "invalid stream ID".

Definition approximately (approximate : bool) : list arg := if approximate then [tok "~"] else [].

(** [MAXLEN] and [MINID] with their bounds. *)
Definition trimmedBy (name : String.string) (approximate : bool) (bound : option arg) : list arg :=
  match bound with Some a => tok name :: approximately approximate ++ [a] | None => [] end.

Definition textBound (s : gstr) : option arg := if given s then Some (txt s) else None.

Definition mapKeysForCodec (codec : streamCodec) (m : valueMap) : list gstr :=
  if deterministic codec then sort_strings (keys m) else keys m.

(** The fields and their encoded values, in the order the codec is to see them. *)
Fixpoint encodedFields (codec : streamCodec) (fields : valueMap) (names : list gstr) : result streamError (list arg) :=
  match names with
  | [] => Ok []
  | name :: names =>
      match Encode codec (default VNil (assoc_get name fields)) with
      | None => Err StreamEncode
      | Some encoded => let! rest := encodedFields codec fields names in Ok (txt name :: Arg encoded :: rest)
      end
  end.

Definition addArgs (codec : streamCodec) (key id : gstr) (fields : valueMap) (opt : StreamAddOptions) : result streamError (list arg) :=
  let! encoded := encodedFields codec fields (mapKeysForCodec codec fields) in
  Ok ([tok "XADD"; txt key] ++
      (if add_NoMkStream opt then [tok "NOMKSTREAM"] else []) ++
      trimmedBy "MAXLEN" (add_Approximate opt) (int64 <$> add_MaxLen opt) ++
      trimmedBy "MINID" (add_Approximate opt) (textBound (add_MinID opt)) ++
      [txt (if given id then id else go "*")] ++ encoded).

Definition readCommandArgs (command : readCommand) : list arg :=
  match command with
  | XREAD => [tok "XREAD"]
  | XREADGROUP group consumer => [tok "XREADGROUP"; tok "GROUP"; txt group; txt consumer]
  end.

Definition streamReadArgs (command : readCommand) (opt : StreamReadOptions) : list arg :=
  readCommandArgs command ++ appendIntPtr "COUNT" (read_Count opt) ++ appendInt64Ptr "BLOCK" (read_BlockMS opt) ++
  [tok "STREAMS"] ++ ((fun stream => txt (ref_Key stream)) <$> read_Streams opt) ++
  ((fun stream => txt (ref_ID stream)) <$> read_Streams opt).

Definition trimOptionsArgs (key : gstr) (opt : StreamTrimOptions) : list arg :=
  [tok "XTRIM"; txt key] ++
  match trim_MaxLen opt with
  | Some n => trimmedBy "MAXLEN" (trim_Approximate opt) (Some (int64 n))
  | None => trimmedBy "MINID" (trim_Approximate opt) (Some (txt (trim_MinID opt)))
  end.

Section Calls.
Context {W : Type} (codec : streamCodec) (server : list arg -> W -> result goError val * W).

(** A call: its result, and the world it leaves. *)
Definition streamCall (A : Type) : Type := W -> result streamError A * W.

(** The checks of a call, its request, and how the reply is read; a call whose request is
    refused leaves the world as it is. *)
Definition streamExchange {A} (request : result streamError (list arg)) (read : val -> result streamError A) : streamCall A := fun w =>
  match request with
  | Err e => (Err e, w)
  | Ok args => match server args w with
               | (Err e, w) => (Err (StreamCommand e), w)
               | (Ok v, w) => (read v, w)
               end
  end.

Definition checkedArgs (checked : result streamError unit) (args : list arg) : result streamError (list arg) :=
  let! _ := checked in Ok args.

Definition AddWithOptions (key id : gstr) (fields : valueMap) (opt : StreamAddOptions) : streamCall gstr :=
  streamExchange (let! _ := validateStreamAdd fields opt in addArgs codec key id fields opt)
    (fun v => match v with
              | VNil => if add_NoMkStream opt then Ok [] else streamIDStringResponse v
              | _ => streamIDStringResponse v
              end).

Definition Add (key id : gstr) (fields : valueMap) : streamCall gstr := AddWithOptions key id fields (AddOptions false None [] false).

Definition Range (key start stop : gstr) (count : option Z) : streamCall val :=
  streamExchange (checkedArgs (validateNonNegativeCount count)
              ([tok "XRANGE"; txt key; txt start; txt stop] ++ appendIntPtr "COUNT" count))
    (fun v => decodeStreamEntriesLimited codec v count).

Definition RevRange (key stop start : gstr) (count : option Z) : streamCall val :=
  streamExchange (checkedArgs (validateNonNegativeCount count)
              ([tok "XREVRANGE"; txt key; txt stop; txt start] ++ appendIntPtr "COUNT" count))
    (fun v => decodeStreamEntriesLimitedOrder codec v count streamResponseDescending).

Definition readStreams (command : readCommand) (opt : StreamReadOptions) : streamCall val :=
  streamExchange (checkedArgs (validateStreamRead command opt) (streamReadArgs command opt))
    (fun v => decodeStreamReadExpected codec v (read_Streams opt) (read_Count opt)).

Definition Read (opt : StreamReadOptions) : streamCall val := readStreams XREAD opt.
Definition ReadGroup (group consumer : gstr) (opt : StreamReadOptions) : streamCall val := readStreams (XREADGROUP group consumer) opt.

Definition TrimWithOptions (key : gstr) (opt : StreamTrimOptions) : streamCall Z :=
  streamExchange (checkedArgs (validateStreamTrimOptions opt) (trimOptionsArgs key opt)) nonNegativeInt64Response.

Definition Trim (key : gstr) (approximate : bool) (threshold : gstr) (limit : option Z) : streamCall Z :=
  streamExchange (checkedArgs (validateStreamTrim threshold limit)
              ([tok "XTRIM"; txt key; tok "MAXLEN"] ++ approximately approximate ++ [txt threshold] ++ appendIntPtr "LIMIT" limit))
    nonNegativeInt64Response.

(** [Del] and [Ack]: nothing is sent for no IDs. *)
Definition countedCall (args : list arg) (ids : list gstr) : streamCall Z := fun w =>
  match ids with
  | [] => (Ok 0, w)
  | _ => streamExchange (Ok (args ++ (txt <$> ids))) (boundedCountResponse (blen ids)) w
  end.

Definition Del (key : gstr) (ids : list gstr) : streamCall Z := countedCall [tok "XDEL"; txt key] ids.
Definition Ack (key group : gstr) (ids : list gstr) : streamCall Z := countedCall [tok "XACK"; txt key; txt group] ids.

Definition Len (key : gstr) : streamCall Z := streamExchange (Ok [tok "XLEN"; txt key]) nonNegativeInt64Response.

(** [typedExpectedStatusResponse] of a reply that is not queued. *)
Definition expectedStatus (expected : gstr) (v : val) : result streamError unit :=
  match v with
  | VString s | VBytes s => rguard (equal_fold s expected) (StreamReply "unexpected status")
  | _ => reject "expected status response"
  end.

Definition GroupCreate (key group id : gstr) (mkStream : bool) : streamCall unit :=
  streamExchange (Ok ([tok "XGROUP"; tok "CREATE"; txt key; txt group; txt id] ++ (if mkStream then [tok "MKSTREAM"] else [])))
    (expectedStatus (go "OK")).

Definition Info (key : gstr) : streamCall val := streamExchange (Ok [tok "XINFO"; tok "STREAM"; txt key]) validateStreamInfo.
End Calls.

(** ** Theorems: entry IDs *)

Lemma accumulate_uint64 s : s <> [] -> accumulate max_uint64 0 s = parseUint64 s.
Proof. intros Hs. unfold parseUint64. rewrite accumulate_spec by (unfold max_uint64; lia). by destruct s. Qed.

Lemma findSeparator_none id : x2d ∉ id -> forall i s, findSeparator i s id = Some s.
Proof.
  induction id as [|b id IH]; intros Hn i s; [done|]. apply not_elem_of_cons in Hn as [Hb Hn]. cbn [findSeparator].
  rewrite bool_decide_false by congruence. by apply IH.
Qed.

Lemma findSeparator_twice id : x2d ∈ id -> forall i s, 0 <= i -> 0 <= s -> findSeparator i s id = None.
Proof.
  induction id as [|b id IH]; intros He i s Hi Hs; [by apply elem_of_nil in He|]. cbn [findSeparator].
  destruct (bool_decide_reflect (b = x2d)) as [->|Hb]; cbn [negb].
  - by rewrite (proj2 (Z.leb_le 0 s)).
  - apply elem_of_cons in He as [E|He]; [congruence|]. apply IH; [done|lia|done].
Qed.

Lemma findSeparator_app a b i : x2d ∉ a -> 0 <= i ->
  findSeparator i (-1) (a ++ x2d :: b) = if bool_decide (x2d ∈ b) then None else Some (i + blen a).
Proof.
  revert i. induction a as [|c a IH]; intros i Hn Hi.
  - cbn [app findSeparator]. rewrite (bool_decide_true (x2d = x2d)) by done. change (0 <=? -1) with false. cbn [negb].
    rewrite blen_nil, Z.add_0_r. case_bool_decide; [by apply findSeparator_twice; [|lia..]|by apply findSeparator_none].
  - apply not_elem_of_cons in Hn as [Hc Hn]. cbn [app findSeparator]. rewrite bool_decide_false by congruence. cbn [negb].
    rewrite IH by (done || lia). rewrite blen_cons. case_bool_decide; [done|]. f_equal. lia.
Qed.

Lemma digits_no_separator s : forall n, parse_digits n s <> None -> x2d ∉ s.
Proof.
  induction s as [|b s IH]; intros n Hn; [apply not_elem_of_nil|]. cbn [parse_digits] in Hn.
  destruct (digit_of b) as [d|] eqn:E; [|done]. apply not_elem_of_cons. split; [|by eapply IH].
  intros Eb. rewrite <- Eb in E. by vm_compute in E.
Qed.

Lemma parseUint64_no_separator s n : parseUint64 s = Some n -> x2d ∉ s.
Proof.
  unfold parseUint64, parse_uint_text. destruct s as [|b s]; [done|]. intros H. apply (digits_no_separator _ 0).
  intros E. by rewrite E in H.
Qed.

Lemma parseUint64_given s n : parseUint64 s = Some n -> s <> [].
Proof. by intros H ->. Qed.

Lemma parseStreamIDPart_fst a b : a <> [] -> parseStreamIDPart (a ++ b) 0 (blen a) = parseUint64 a.
Proof.
  intros Ha. unfold parseStreamIDPart. rewrite Z.sub_0_r. change (bdrop 0 (a ++ b)) with (a ++ b).
  rewrite btake_app by done. by apply accumulate_uint64.
Qed.

Lemma parseStreamIDPart_snd a b : b <> [] ->
  parseStreamIDPart (a ++ x2d :: b) (blen a + 1) (blen (a ++ x2d :: b)) = parseUint64 b.
Proof.
  intros Hb. unfold parseStreamIDPart.
  assert (bdrop (blen a + 1) (a ++ x2d :: b) = b) as ->.
  { change (x2d :: b) with ([x2d] ++ b). rewrite app_assoc. apply bdrop_app. by rewrite blen_snoc. }
  unfold btake. rewrite take_ge; [by apply accumulate_uint64|]. rewrite blen_app, blen_cons. unfold blen. lia.
Qed.

(** Reading an ID with a separator between two non-empty texts. *)
Lemma parseStreamIDText_app a b : x2d ∉ a -> a <> [] -> b <> [] ->
  parseStreamIDText (a ++ x2d :: b) =
    match parseUint64 a, parseUint64 b with Some ms, Some seq => Some (ms, seq) | _, _ => None end.
Proof.
  intros Hn Ha Hb. unfold parseStreamIDText. rewrite findSeparator_app by done.
  case_bool_decide as Hs.
  - destruct (parseUint64 b) as [n|] eqn:E; [|by destruct (parseUint64 a)]. by apply parseUint64_no_separator in E.
  - rewrite Z.add_0_l. assert (0 < blen a /\ 0 < blen b) as [Hla Hlb].
    { unfold blen. destruct a, b; try done; cbn; lia. }
    rewrite (proj2 (Z.leb_gt (blen a) 0)), (proj2 (Z.leb_gt _ (blen a))) by (rewrite ?blen_app, ?blen_cons; lia).
    cbn [orb]. rewrite parseStreamIDPart_fst, parseStreamIDPart_snd by done. by destruct (parseUint64 a), (parseUint64 b).
Qed.

(** An entry ID is read exactly when it is two unsigned 64-bit decimals around its only
    separator, and as these two numbers. *)
Theorem stream_id_exact id ms seq :
  parseStreamIDText id = Some (ms, seq) <->
  exists a b, id = a ++ x2d :: b /\ parseUint64 a = Some ms /\ parseUint64 b = Some seq.
Proof.
  split.
  - intros H. destruct (decide (x2d ∈ id)) as [He|Hn].
    + apply list_elem_of_split_l in He as (a & b & -> & Hn). exists a, b. split; [done|].
      destruct (decide (a = [])) as [->|Ha].
      { exfalso. unfold parseStreamIDText in H. rewrite findSeparator_app in H by (done || apply not_elem_of_nil).
        by case_bool_decide. }
      destruct (decide (b = [])) as [->|Hb].
      { exfalso. unfold parseStreamIDText in H. rewrite findSeparator_app in H by done.
        rewrite bool_decide_false in H by apply not_elem_of_nil.
        rewrite (proj2 (Z.leb_le (blen _ - 1) _)), orb_true_r in H; [done|]. rewrite blen_snoc. lia. }
      rewrite parseStreamIDText_app in H by done. destruct (parseUint64 a), (parseUint64 b); by simplify_eq.
    + exfalso. unfold parseStreamIDText in H. by rewrite findSeparator_none in H.
  - intros (a & b & -> & Ha & Hb).
    rewrite parseStreamIDText_app by eauto using parseUint64_no_separator, parseUint64_given.
    by rewrite Ha, Hb.
Qed.

(** The text of an ID, as the server writes it. *)
Definition streamIDText (id : Z * Z) : gstr := format_nat id.1 ++ x2d :: format_nat id.2.

Lemma parse_streamIDText id : 0 <= id.1 <= max_uint64 -> 0 <= id.2 <= max_uint64 -> parseStreamIDText (streamIDText id) = Some id.
Proof.
  intros H1 H2. destruct id as [ms seq]. apply stream_id_exact. exists (format_nat ms), (format_nat seq). split; [done|].
  unfold parseUint64. rewrite !parse_uint_format by (cbn in *; lia). cbn in *.
  by rewrite !(proj2 (Z.leb_le _ _)) by lia.
Qed.

(** ** Theorems: entries *)

(** An entry as the server describes it: its ID, where it stands, its fields and values. *)
Record streamEntry := EntryOf { en_ID : val; en_at : Z * Z; en_fields : list (val * val) }.

Definition pairItems (fields : list (val * val)) : list val := flat_map (fun f => [f.1; f.2]) fields.

Definition isEntry (item : val) (e : streamEntry) : Prop := exists id, item = VArray id (en_ID e :: pairItems (en_fields e)).

Definition goodEntry (e : streamEntry) : Prop :=
  parseStreamIDResponse (en_ID e) = Some (en_at e) /\ en_at e <> (0, 0) /\ Forall (fun f => isText f.1 = true) (en_fields e).

(** The order of positions in a stream. *)
Definition earlier (a b : Z * Z) : Prop := a.1 < b.1 \/ a.1 = b.1 /\ a.2 < b.2.

Definition orderRel (order : streamResponseOrder) (a b : Z * Z) : Prop :=
  match order with
  | streamResponseUnordered => True
  | streamResponseAscending => earlier a b
  | streamResponseDescending => earlier b a
  end.

(** An entry with its values decoded. *)
Definition decodedAs (codec : streamCodec) (e : streamEntry) (r : val) : Prop :=
  exists fields, Forall2 (fun f g => g.1 = f.1 /\ Decode codec f.2 = Some g.2) (en_fields e) fields /\
                 r = VArray None (en_ID e :: pairItems fields).

(** What a reply with entries says, and the value the call returns for it. *)
Definition entriesRead (codec : streamCodec) (count : option Z) (order : streamResponseOrder) (v r : val) : Prop :=
  v = VNil /\ r = VNil \/
  exists id items entries,
    v = VArray id items /\ Forall2 isEntry items entries /\ withinCount count (blen entries) = true /\
    Forall goodEntry entries /\ StronglySorted (orderRel order) (en_at <$> entries) /\
    (if raw codec then r = v else exists rs, r = VArray None rs /\ Forall2 (decodedAs codec) entries rs).

Lemma before_trans a b c : earlier a b -> earlier b c -> earlier a c.
Proof. unfold earlier. lia. Qed.

#[local] Instance orderRel_trans order : Transitive (orderRel order).
Proof. intros a b c. destruct order; cbn; [done|apply before_trans|]. intros ??. by eapply before_trans. Qed.

Lemma compareIDs_before a b : compareIDs a b < 0 <-> earlier a b.
Proof.
  unfold compareIDs, compareStreamIDs, earlier.
  destruct (Z.ltb_spec a.1 b.1), (Z.eqb_spec a.1 b.1), (Z.ltb_spec a.2 b.2), (Z.eqb_spec a.2 b.2); cbn; lia.
Qed.

Lemma compareIDs_after a b : 0 < compareIDs a b <-> earlier b a.
Proof.
  unfold compareIDs, compareStreamIDs, earlier.
  destruct (Z.ltb_spec a.1 b.1), (Z.eqb_spec a.1 b.1), (Z.ltb_spec a.2 b.2), (Z.eqb_spec a.2 b.2); cbn; lia.
Qed.

Lemma inOrder_rel order p c : inOrder order p c = true <-> orderRel order p c.
Proof.
  destruct order; cbn [inOrder orderRel]; [done|..]; rewrite Z.ltb_lt; [apply compareIDs_after|apply compareIDs_before].
Qed.

Lemma odd_entry_fields n : forall entry : list val, (length entry <= n)%nat ->
  blen entry mod 2 = 0 -> exists fields, entry = pairItems fields.
Proof.
  induction n as [|n IH]; intros [|a [|b entry]] Hl He; try (by exists []); cbn in Hl; try lia; try done.
  rewrite !blen_cons in He. replace (1 + (1 + blen entry)) with (blen entry + 1 * 2) in He by lia.
  rewrite Z.mod_add in He by done. destruct (IH entry) as [fields ->]; [lia|done|]. by exists ((a, b) :: fields).
Qed.

Lemma blen_pairItems fields : blen (pairItems fields) = 2 * blen fields.
Proof. induction fields as [|f fields IH]; [done|]. cbn [pairItems flat_map app]. fold (pairItems fields). rewrite !blen_cons. lia. Qed.

Lemma odd_entry (entry : list val) : blen entry mod 2 = 1 <-> exists id fields, entry = id :: pairItems fields.
Proof.
  split.
  - destruct entry as [|id entry]; [done|]. rewrite blen_cons. intros H.
    destruct (odd_entry_fields (length entry) entry) as [fields ->]; [done| |by eauto].
    pose proof (Z.div_mod (1 + blen entry) 2 ltac:(lia)) as E. rewrite H in E.
    replace (blen entry) with (0 + (1 + blen entry) / 2 * 2) by lia. by rewrite Z.mod_add.
  - intros (id & fields & ->). rewrite blen_cons, blen_pairItems, Z.mul_comm, Z.mod_add by done. done.
Qed.

Lemma pairItems_inj f g : pairItems f = pairItems g -> f = g.
Proof.
  revert g. induction f as [|[a b] f IH]; intros [|[c d] g]; cbn; try done. intros [= -> -> H]. f_equal. by apply IH.
Qed.

Lemma validateFields_ok i fields :
  validateFields i (pairItems fields) = Ok tt <-> Forall (fun f => isText f.1 = true) fields.
Proof.
  induction fields as [|[a b] fields IH]; cbn; [by split; [constructor|]|]. rewrite Forall_cons; cbn.
  destruct (isText a); cbn; [rewrite IH; tauto|]. split; [done|]. by intros [? _].
Qed.

Lemma nonzeroID_some o id : nonzeroID o = Some id <-> o = Some id /\ id <> (0, 0).
Proof.
  destruct o as [[ms seq]|]; cbn; [|by split; [|intros []]].
  destruct (decide ((ms, seq) = (0, 0))) as [E|E].
  - simplify_eq. split; [done|]. by intros [? ?]; simplify_eq.
  - assert (match ms with 0 => match seq with 0 => None | _ => Some (ms, seq) end | _ => Some (ms, seq) end = Some (ms, seq)) as ->
      by (destruct ms, seq; done).
    split; [intros [= <-]; done|by intros [? ?]].
Qed.

Lemma validateEntry_ok order previous i item id :
  validateEntry order previous i item = Ok id <->
  exists e, isEntry item e /\ goodEntry e /\ en_at e = id /\ (forall p, previous = Some p -> orderRel order p id).
Proof.
  assert (Hprev : forall id', match previous with Some p => inOrder order p id' | None => true end = true <->
                         forall p, previous = Some p -> orderRel order p id').
  { intros id'. destruct previous as [p|]; [|done]. rewrite inOrder_rel. split; [by intros ? ? [= <-]|auto]. }
  split.
  - destruct item as [| | | | | | |vid entry| |]; cbn [validateEntry]; try done.
    intros H. apply rbind_ok in H as [[] [Hs H]]. apply rguard_ok in Hs as Hs%Z.eqb_eq.
    apply odd_entry in Hs as (eid & fields & ->). cbn [hd tl] in H.
    destruct (nonzeroID _) as [at_|] eqn:E; [|done]. apply nonzeroID_some in E as [Ep Ez].
    apply rbind_ok in H as [[] [Ho H]]. apply rguard_ok in Ho. apply rbind_ok in H as [[] [Hf [= <-]]].
    exists (EntryOf eid at_ fields). split; [by exists vid|]. split; [|split; [done|by apply Hprev]].
    by repeat split; [..|by eapply validateFields_ok].
  - intros ([eid at_ fields] & [vid ->] & (Hp & Hz & Hf) & Hat & Ho). cbn [en_ID en_at en_fields] in *. subst at_. cbn [validateEntry].
    rewrite (proj2 (Z.eqb_eq _ 1)) by (apply odd_entry; eauto). cbn [rbind rguard hd tl].
    rewrite (proj2 (nonzeroID_some _ id)) by done. rewrite (proj2 (Hprev id)) by done. cbn [rbind rguard].
    by rewrite (proj2 (validateFields_ok i fields)).
Qed.

Lemma validateEntriesFrom_ok order items : forall previous i,
  validateEntriesFrom order previous i items = Ok tt <->
  exists entries, Forall2 isEntry items entries /\ Forall goodEntry entries /\ Sorted (orderRel order) (en_at <$> entries) /\
                  (forall p, previous = Some p -> HdRel (orderRel order) p (en_at <$> entries)).
Proof.
  induction items as [|item items IH]; intros previous i; cbn [validateEntriesFrom].
  - split; [|done]. intros _. exists []. by repeat split; constructor.
  - rewrite rbind_ok. split.
    + intros (id & (e & He & Hg & <- & Ho)%validateEntry_ok & (entries & Hf & Hgs & Hs & Hh)%IH).
      exists (e :: entries). repeat split; [by constructor..| |].
      * cbn. constructor; [done|]. by apply Hh.
      * intros p Hp. cbn. constructor. by apply Ho.
    + intros (entries & Hf & Hg & Hs & Hh). apply Forall2_cons_inv_l in Hf as (e & rest & He & Hf & ->).
      apply Forall_cons in Hg as [Hg Hgs]. cbn in Hs, Hh. apply Sorted_inv in Hs as [Hs Hd].
      exists (en_at e). split.
      * apply validateEntry_ok. exists e. repeat split; try done; [apply Hg..|]. intros p Hp%Hh. by inv Hp.
      * apply IH. exists rest. repeat split; [done..|]. by intros p [= <-].
Qed.

Lemma decodeFields_ok codec i fields rs :
  decodeFields codec i (pairItems fields) = Ok rs <->
  exists decoded, Forall2 (fun f g => g.1 = f.1 /\ Decode codec f.2 = Some g.2) fields decoded /\ rs = pairItems decoded.
Proof.
  revert rs. induction fields as [|[a b] fields IH]; intros rs; cbn.
  - split; [intros [= <-]; exists []; by split|]. by intros (? & ->%Forall2_nil_inv_l & ->).
  - destruct (Decode codec b) as [b'|] eqn:E.
    + rewrite rbind_ok. split.
      * intros (r & (decoded & Hd & ->)%IH & [= <-]). exists ((a, b') :: decoded). split; [by constructor|done].
      * intros (decoded & ([a2 b2] & rest & [H1 H2] & Hd & ->)%Forall2_cons_inv_l & ->). cbn in *. simplify_eq.
        exists (pairItems rest). split; [by apply IH; eauto|done].
    + split; [done|]. intros (decoded & ([a2 b2] & rest & [H1 H2] & Hd & ->)%Forall2_cons_inv_l & ->). cbn in *. congruence.
Qed.

Lemma decodeEntriesFrom_ok codec items entries : Forall2 isEntry items entries -> forall i rs,
  decodeEntriesFrom codec i items = Ok rs <-> Forall2 (decodedAs codec) entries rs.
Proof.
  induction 1 as [|item e items entries [vid ->] Hf IH]; intros i rs; cbn [decodeEntriesFrom].
  - split; [intros [= <-]; constructor|by intros ->%Forall2_nil_inv_l].
  - cbn [hd tl]. rewrite rbind_ok. setoid_rewrite rbind_ok. split.
    + intros (owned & (decoded & Hd & ->)%decodeFields_ok & rest & Hr%IH & [= <-]). constructor; [by exists decoded|done].
    + intros (r & rest & (decoded & Hd & ->) & Hr & ->)%Forall2_cons_inv_l.
      exists (pairItems decoded). split; [by apply decodeFields_ok; eauto|]. exists rest. by rewrite IH.
Qed.

(** Reading entries: accepted exactly when well-formed and in order. *)
Lemma decodeEntries_exact codec v count order r :
  decodeStreamEntriesLimitedOrder codec v count order = Ok r <-> entriesRead codec count order v r.
Proof.
  unfold entriesRead. destruct v as [| | | | | | |vid items| |]; cbn [decodeStreamEntriesLimitedOrder].
  all: try by split; [done|intros [[? ?]|(? & ? & ? & ? & _)]].
  { split; [intros [= <-]; by left|]. by intros [[_ ->]|(? & ? & ? & ? & _)]. }
  unfold validateStreamEntriesOrder. split.
  - intros H. apply rbind_ok in H as ([] & Hc%rguard_ok & H).
    apply rbind_ok in H as ([] & (entries & Hf & Hg & Hs & _)%validateEntriesFrom_ok & H). right. exists vid, items, entries.
    split; [done|]. split; [done|]. split; [by unfold blen in *; rewrite <- (Forall2_length _ _ _ Hf)|]. split; [done|].
    split; [by apply Sorted_StronglySorted; [apply _|]|]. destruct (raw codec); [by simplify_eq|].
    apply rbind_ok in H as (rs & Hd & [= <-]). exists rs. split; [done|]. by eapply decodeEntriesFrom_ok.
  - intros [[? _]|(vid' & items' & entries & [= <- <-] & Hf & Hc & Hg & Hs & Hr)]; [done|].
    apply rbind_ok. exists tt. split; [apply rguard_ok; unfold blen in *; by rewrite (Forall2_length _ _ _ Hf)|].
    apply rbind_ok. exists tt. split.
    + apply validateEntriesFrom_ok. exists entries. repeat split; [done..|by apply StronglySorted_Sorted|done].
    + destruct (raw codec); [by subst|]. destruct Hr as (rs & -> & Hr). apply rbind_ok. exists rs. split; [|done].
      by eapply decodeEntriesFrom_ok.
Qed.

(** ** Theorems: reading several streams *)

(** One stream of a reply, the request it answers, and what the call returns for it. *)
Definition streamRead (codec : streamCodec) (count : option Z) (item : val) (ref : StreamRef) (r : val) : Prop :=
  exists id key entries out,
    item = VArray id [key; entries] /\ responseTextEqual key (ref_Key ref) = true /\
    entriesRead codec count streamResponseAscending entries out /\ r = VArray None [key; out].

(** A reply names requested streams, each once and in the order of the request. *)
Definition streamsRead (codec : streamCodec) (count : option Z) (requested : list StreamRef) (v r : val) : Prop :=
  v = VNil /\ r = VNil \/
  exists id items refs rs,
    v = VArray id items /\ refs `sublist_of` requested /\ Forall3 (streamRead codec count) items refs rs /\
    r = (if raw codec then v else VArray None rs).

Lemma nextExpected_sound v expected rest : nextExpectedStreamKey v expected = Some rest ->
  exists ref, responseTextEqual v (ref_Key ref) = true /\ ref :: rest `sublist_of` expected.
Proof.
  induction expected as [|ref expected IH]; cbn; [done|]. destruct (responseTextEqual v _) eqn:E.
  - intros [= <-]. by exists ref.
  - intros (ref' & Hr & Hs)%IH. exists ref'. split; [done|]. by constructor.
Qed.

Lemma nextExpected_complete v ref refs expected : responseTextEqual v (ref_Key ref) = true -> ref :: refs `sublist_of` expected ->
  exists rest, nextExpectedStreamKey v expected = Some rest /\ refs `sublist_of` rest.
Proof.
  intros Hm. induction expected as [|ref' expected IH]; intros Hs; [by inv Hs|]. cbn.
  destruct (responseTextEqual v (ref_Key ref')) eqn:E.
  - exists expected. split; [done|]. inv Hs; [done|]. etrans; [by apply (sublist_cons ref)|done].
  - inv Hs; [congruence|]. by apply IH.
Qed.

Lemma isText_matches v s : responseTextEqual v s = true -> isText v = true.
Proof. by destruct v. Qed.

Lemma decodeStreamsFrom_ok codec count items : forall expected i rs,
  decodeStreamsFrom codec expected count i items = Ok rs <->
  exists refs, refs `sublist_of` expected /\ Forall3 (streamRead codec count) items refs rs.
Proof.
  induction items as [|item items IH]; intros expected i rs; cbn [decodeStreamsFrom].
  - split; [|by intros (refs & _ & H); inv H]. intros [= <-]. exists []. split; [apply sublist_nil_l|constructor].
  - split.
    + destruct item as [| | | | | | |vid [|key [|entries [|]]]| |]; try done. intros H.
      apply rbind_ok in H as ([] & _ & H). destruct (nextExpectedStreamKey key expected) as [rest|] eqn:En; [|done].
      apply rbind_ok in H as (out & He%decodeEntries_exact & H). apply rbind_ok in H as (more & (refs & Hs & Hf)%IH & [= <-]).
      apply nextExpected_sound in En as (ref & Hm & Hsub). exists (ref :: refs). split.
      * etrans; [|done]. by constructor.
      * constructor; [|done]. by exists vid, key, entries, out.
    + intros (refs & Hs & Hf). inv Hf as [|? ref ? refs' r rs' (vid & key & entries & out & -> & Hm & He & ->) Hf'].
      rewrite (isText_matches _ _ Hm). cbn [rguard rbind].
      destruct (nextExpected_complete _ _ _ _ Hm Hs) as (rest & -> & Hsub).
      unfold decodeStreamEntriesLimited. rewrite (proj2 (decodeEntries_exact _ _ _ _ _) He). cbn [rbind].
      by rewrite (proj2 (IH rest _ rs')) by eauto.
Qed.

Lemma decodeRead_exact codec v expected count r :
  decodeStreamReadExpected codec v expected count = Ok r <-> streamsRead codec count expected v r.
Proof.
  unfold streamsRead. destruct v as [| | | | | | |vid items| |]; cbn [decodeStreamReadExpected].
  all: try by split; [done|intros [[? ?]|(? & ? & ? & ? & ? & _)]].
  { split; [intros [= <-]; by left|]. by intros [[_ ->]|(? & ? & ? & ? & ? & _)]. }
  split.
  - intros H. apply rbind_ok in H as ([] & _ & H). apply rbind_ok in H as (rs & (refs & Hs & Hf)%decodeStreamsFrom_ok & H).
    right. exists vid, items, refs, rs. repeat split; try done. destruct (raw codec); by simplify_eq.
  - intros [[? _]|(vid' & items' & refs & rs & [= <- <-] & Hs & Hf & ->)]; [done|].
    assert (blen items <= blen expected) as Hl.
    { apply Forall3_length_lm in Hf. apply sublist_length in Hs. unfold blen. lia. }
    apply Z.leb_le in Hl. rewrite (rguard_true _ _ Hl). cbn [rbind].
    rewrite (proj2 (decodeStreamsFrom_ok codec count items expected 0 rs)) by eauto. cbn [rbind]. by destruct (raw codec).
Qed.

Section Exactness.
Context {W : Type} (codec : streamCodec) (server : list arg -> W -> result goError val * W).

(** A call succeeds when its request is made, answered, and the answer is read. *)
Lemma streamExchange_ok {A} request (read : val -> result streamError A) w a w' :
  streamExchange server request read w = (Ok a, w') <->
  exists args v, request = Ok args /\ server args w = (Ok v, w') /\ read v = Ok a.
Proof.
  unfold streamExchange. destruct request as [args|e].
  - destruct (server args w) as [[v|e] w2] eqn:E.
    + split; [intros [= ? ->]; by eauto|]. intros (? & ? & [= <-] & H & Ha). rewrite E in H. injection H as -> ->. by rewrite Ha.
    + split; [done|]. intros (? & ? & [= <-] & ? & ?). congruence.
  - split; [done|]. by intros (? & ? & ? & _).
Qed.

(** A request that is refused is not sent. *)
Lemma streamExchange_refused {A} e (read : val -> result streamError A) w : streamExchange server (Err e) read w = (Err e, w).
Proof. done. Qed.

Lemma checkedArgs_ok checked args sent : checkedArgs checked args = Ok sent <-> checked = Ok tt /\ sent = args.
Proof. unfold checkedArgs. destruct checked as [[]|]; cbn; split; try done; [by intros [= ->]|by intros [_ ->]|by intros []]. Qed.

(** C23: reading several streams succeeds exactly when the options are valid and the reply names
    requested streams, each once and in the order of the request, with at most the asked
    number of well-formed entries in strictly ascending order of non-zero IDs; the result
    has every value decoded and everything else as the server sent it. *)
Theorem stream_read_exact command opt w r w' :
  readStreams codec server command opt w = (Ok r, w') <->
  validateStreamRead command opt = Ok tt /\
  exists v, server (streamReadArgs command opt) w = (Ok v, w') /\ streamsRead codec (read_Count opt) (read_Streams opt) v r.
Proof.
  unfold readStreams. rewrite streamExchange_ok. split.
  - intros (args & v & [Hc ->]%checkedArgs_ok & Hs & Hr%decodeRead_exact). eauto.
  - intros (Hc & v & Hs & Hr%decodeRead_exact). exists (streamReadArgs command opt), v. by rewrite checkedArgs_ok.
Qed.

(** A range returns the entries between its bounds in the order it asks for. *)
Theorem stream_range_exact key start stop count w r w' :
  Range codec server key start stop count w = (Ok r, w') <->
  notNegative count = true /\
  exists v, server ([tok "XRANGE"; txt key; txt start; txt stop] ++ appendIntPtr "COUNT" count) w = (Ok v, w') /\
            entriesRead codec count streamResponseAscending v r.
Proof.
  unfold Range. rewrite streamExchange_ok. unfold decodeStreamEntriesLimited. setoid_rewrite checkedArgs_ok.
  unfold validateNonNegativeCount, refuseUnless. setoid_rewrite rguard_ok. setoid_rewrite decodeEntries_exact. clear.
  split; [intros (? & v & [? ->] & ? & ?)|intros (? & v & ? & ?)]; by eauto 8.
Qed.

Theorem stream_revrange_exact key stop start count w r w' :
  RevRange codec server key stop start count w = (Ok r, w') <->
  notNegative count = true /\
  exists v, server ([tok "XREVRANGE"; txt key; txt stop; txt start] ++ appendIntPtr "COUNT" count) w = (Ok v, w') /\
            entriesRead codec count streamResponseDescending v r.
Proof.
  unfold RevRange. rewrite streamExchange_ok. setoid_rewrite checkedArgs_ok.
  unfold validateNonNegativeCount, refuseUnless. setoid_rewrite rguard_ok. setoid_rewrite decodeEntries_exact. clear.
  split; [intros (? & v & [? ->] & ? & ?)|intros (? & v & ? & ?)]; by eauto 8.
Qed.
End Exactness.

Lemma responseInteger_ok what ok v n : responseInteger what ok v = Ok n <-> responseInt64 v = Some n /\ ok n = true.
Proof. unfold responseInteger. destruct (responseInt64 v) as [m|]; [|by split; [|intros []]]. destruct (ok m) eqn:E; split; try done.
  - by intros [= <-].
  - by intros [[= <-] _].
  - intros [[= <-] H]. congruence.
Qed.

Lemma isEntry_entryID item e : isEntry item e -> goodEntry e -> entryID item = Some (en_at e).
Proof. intros [vid ->] (H & _). exact H. Qed.

Lemma validateTwo_ok a b : validateStreamEntries [a; b] = Ok tt <->
  exists first last, isEntry a first /\ isEntry b last /\ goodEntry first /\ goodEntry last.
Proof.
  unfold validateStreamEntries, validateStreamEntriesOrder. rewrite validateEntriesFrom_ok. split.
  - intros (es & H & Hg & _ & _). inv H as [|? first ? ? Ha H']. inv H' as [|? last ? ? Hb H'']. inv H''.
    apply Forall_cons in Hg as [Hf [Hl _]%Forall_cons]. by exists first, last.
  - intros (first & last & Ha & Hb & Hg & Hh). exists [first; last]. repeat constructor; try done; try apply Hg; apply Hh.
Qed.

Lemma compareIDs_zero a b : compareIDs a b = 0 <-> a = b.
Proof.
  pose proof (compareIDs_before a b). pose proof (compareIDs_after a b). unfold earlier in *. destruct a as [a1 a2], b as [b1 b2].
  cbn in *. split; [intros; f_equal; lia|intros [= -> ->]; lia].
Qed.

Lemma entry_not_nil item e : isEntry item e -> item <> VNil.
Proof. by intros [? ->]. Qed.

(** The comparison of the first and last entries with the length. *)
Lemma entryComparison_ok length a b : 0 < length ->
  negb ((0 <? compareIDs a b) || (length =? 1) && negb (compareIDs a b =? 0) || (1 <? length) && (0 <=? compareIDs a b)) = true <->
  (if decide (length = 1) then a = b else earlier a b).
Proof.
  intros Hl. pose proof (compareIDs_before a b) as Hb. pose proof (compareIDs_zero a b) as Hz.
  destruct (Z.ltb_spec 0 (compareIDs a b)), (Z.eqb_spec length 1), (Z.eqb_spec (compareIDs a b) 0), (Z.ltb_spec 1 length),
    (Z.leb_spec 0 (compareIDs a b)), (decide (length = 1)); cbn; try lia; split; intros H'; try done; try (apply Hz in H'; lia);
    try (apply Hb in H'; lia); try (by apply Hz); apply Hb; lia.
Qed.

(** What is asked of the entries of a stream that is not empty. *)
Definition consistentEntries (length : Z) (generated : Z * Z) (first last : val) : Prop :=
  exists f l,
    isEntry first f /\ isEntry last l /\ goodEntry f /\ goodEntry l /\
    (if decide (length = 1) then en_at f = en_at l else earlier (en_at f) (en_at l)) /\ ~ earlier generated (en_at l).

Lemma checkInfoEntries_ok length generated first last : 0 < length ->
  checkInfoEntries length generated first last = Ok tt <-> consistentEntries length generated first last.
Proof.
  intros Hlen. unfold checkInfoEntries, consistentEntries. split.
  - intros H. apply rbind_ok in H as ([] & (f & l & Hf & Hl & Hgf & Hgl)%validateTwo_ok & H). exists f, l.
    rewrite (isEntry_entryID _ _ Hf Hgf), (isEntry_entryID _ _ Hl Hgl) in H. cbn zeta in H.
    apply rbind_ok in H as ([] & Hc%rguard_ok & Hb%rguard_ok).
    do 4 (split; [done|]). split; [by apply entryComparison_ok|].
    rewrite <- compareIDs_before. rewrite negb_true_iff, Z.ltb_ge in Hb. lia.
  - intros (f & l & Hf & Hl & Hgf & Hgl & Hc & Hb).
    rewrite (proj2 (validateTwo_ok first last)) by (by exists f, l). cbn [rbind].
    rewrite (isEntry_entryID _ _ Hf Hgf), (isEntry_entryID _ _ Hl Hgl). cbn zeta.
    rewrite (rguard_true _ _ (proj2 (entryComparison_ok _ _ _ Hlen) Hc)). cbn [rbind].
    apply rguard_ok. rewrite negb_true_iff, Z.ltb_ge. rewrite <- compareIDs_before in Hb. lia.
Qed.

(** A report of a stream that a call accepts: its counts are not negative, its first and
    last entries agree with its length, and no entry is behind the last ID given out. *)
Definition consistentInfo (info : valueMap) : Prop :=
  exists length groups generated,
    responseInt64 (fieldOf info "length") = Some length /\ 0 <= length /\
    responseInt64 (fieldOf info "groups") = Some groups /\ 0 <= groups /\
    parseStreamIDResponse (fieldOf info "last-generated-id") = Some generated /\
    if decide (length = 0) then fieldOf info "first-entry" = VNil /\ fieldOf info "last-entry" = VNil
    else consistentEntries length generated (fieldOf info "first-entry") (fieldOf info "last-entry").

Theorem stream_info_exact v r :
  validateStreamInfo v = Ok r <-> r = v /\ exists info, nativeMap v = Ok info /\ consistentInfo info.
Proof.
  unfold validateStreamInfo, consistentInfo, nonNegativeInt64Response.
  destruct (nativeMap v) as [info|]; [|by split; [|intros (_ & ? & ? & _)]].
  set (first := fieldOf info "first-entry"). set (last := fieldOf info "last-entry"). split.
  - intros H. apply rbind_ok in H as (length & [Hl Hlp%Z.leb_le]%responseInteger_ok & H).
    apply rbind_ok in H as (groups & [Hg Hgp%Z.leb_le]%responseInteger_ok & H).
    destruct (parseStreamIDResponse _) as [generated|] eqn:Egen; [|done].
    destruct (Z.eqb_spec length 0) as [Hz|Hz].
    + assert (first = VNil /\ last = VNil /\ r = v) as (Hf & Hla & ->) by (destruct first, last; by simplify_eq/=).
      split; [done|]. exists info. split; [done|]. exists length, groups, generated. by rewrite decide_True.
    + assert ((let! _ := checkInfoEntries length generated first last in Ok v) = Ok r) as H'
        by (destruct first, last; try exact H; discriminate H).
      apply rbind_ok in H' as ([] & Hc%checkInfoEntries_ok & [= <-]); [|lia].
      split; [done|]. exists info. split; [done|]. exists length, groups, generated. by rewrite decide_False.
  - intros (-> & ? & [= <-] & length & groups & generated & Hl & Hlp & Hg & Hgp & Hgen & Hrest).
    rewrite (proj2 (responseInteger_ok _ _ _ length)) by (by rewrite Z.leb_le). cbn [rbind].
    rewrite (proj2 (responseInteger_ok _ _ _ groups)) by (by rewrite Z.leb_le). cbn [rbind]. rewrite Hgen. subst first last.
    destruct (Z.eqb_spec length 0) as [Hz|Hz]; [rewrite decide_True in Hrest by done|rewrite decide_False in Hrest by done].
    { by destruct Hrest as [-> ->]. }
    pose proof (proj2 (checkInfoEntries_ok length _ _ _ ltac:(lia)) Hrest) as Hv.
    destruct Hrest as (f & l & Hf & Hla & _). pose proof (entry_not_nil _ _ Hf). pose proof (entry_not_nil _ _ Hla).
    rewrite Hv. destruct (fieldOf info "first-entry"), (fieldOf info "last-entry"); done.
Qed.

(** ** Theorems: what is added is what is read *)

(** An entry a server keeps. *)
Record storedEntry := StoredOf { st_ID : Z * Z; st_fields : list (gstr * gstr) }.

Definition validID (id : Z * Z) : Prop := 0 <= id.1 <= max_uint64 /\ 0 <= id.2 <= max_uint64 /\ id <> (0, 0).

(** Fields and values as arguments, and the texts a server keeps of them. *)
Definition pairArgs (pairs : list (gstr * val)) : list arg := flat_map (fun f => [txt f.1; Arg f.2]) pairs.
Definition storedPairs (pairs : list (gstr * val)) : list (gstr * gstr) := (fun f => (f.1, default [] (commandText f.2))) <$> pairs.

Definition entryReply (e : storedEntry) : val :=
  VArray None (VBytes (streamIDText (st_ID e)) :: pairItems ((fun f => (VBytes f.1, VBytes f.2)) <$> st_fields e)).

(** What the documentation of the server says of streams: [XADD] with the ID [*] appends one
    entry with an ID behind all others and answers it, or it fails and the stream stays as it
    is; [XRANGE] from - to + answers the entries in their order. *)
Class StreamServer (W : Type) := {
  serve : list arg -> W -> result goError val * W;
  stored : W -> gstr -> list storedEntry;
  usable : W -> Prop;
  stored_ids : forall w key, usable w -> Forall (fun e => validID (st_ID e)) (stored w key);
  stored_order : forall w key, usable w -> StronglySorted earlier (st_ID <$> stored w key);
  xadd_served : forall w key pairs, usable w -> pairs <> [] -> Forall (fun f => is_Some (commandText f.2)) pairs ->
    let (reply, w') := serve ([tok "XADD"; txt key; tok "*"] ++ pairArgs pairs) w in
    usable w' /\
    match reply with
    | Ok v => exists id, v = VBytes (streamIDText id) /\ stored w' key = stored w key ++ [StoredOf id (storedPairs pairs)]
    | Err _ => stored w' key = stored w key
    end;
  xrange_served : forall w key, usable w ->
    serve [tok "XRANGE"; txt key; tok "-"; tok "+"] w = (Ok (VArray None (entryReply <$> stored w key)), w);
}.

(** A value that comes back from the bytes it is stored as. *)
Definition survives (codec : streamCodec) (v : val) : Prop :=
  exists e t, Encode codec v = Some e /\ commandText e = Some t /\ Decode codec (VBytes t) = Some v.

(** The entry a range returns for fields that were added. *)
Definition returnedEntry (codec : streamCodec) (id : gstr) (fields : valueMap) : val :=
  VArray None (VBytes id :: pairItems ((fun k => (VBytes k, default VNil (assoc_get k fields))) <$> mapKeysForCodec codec fields)).

Section AddedThenRead.
Context {W : Type} `{!StreamServer W} (codec : streamCodec).

(** Entries added one after another; the IDs they got. *)
Fixpoint addEntries (key : gstr) (entries : list valueMap) : streamCall (W := W) (list gstr) := fun w =>
  match entries with
  | [] => (Ok [], w)
  | fields :: entries =>
      match Add codec serve key [] fields w with
      | (Err e, w) => (Err e, w)
      | (Ok id, w) => match addEntries key entries w with
                      | (Err e, w) => (Err e, w)
                      | (Ok ids, w) => (Ok (id :: ids), w)
                      end
      end
  end.

Definition fieldsSurvive (fields : valueMap) : Prop := Forall (fun f => survives codec f.2) fields.

Lemma mapKeys_in fields k : k ∈ mapKeysForCodec codec fields -> k ∈ keys fields.
Proof. unfold mapKeysForCodec. destruct (deterministic codec); [by rewrite sort_strings_perm|done]. Qed.

Lemma encodedFields_survive fields names args :
  (forall k, k ∈ names -> survives codec (default VNil (assoc_get k fields))) ->
  encodedFields codec fields names = Ok args ->
  exists pairs, args = pairArgs pairs /\ pairs.*1 = names /\ Forall (fun f => is_Some (commandText f.2)) pairs /\
    Forall (fun f => Decode codec (VBytes (default [] (commandText f.2))) = Some (default VNil (assoc_get f.1 fields))) pairs.
Proof.
  revert args. induction names as [|k names IH]; intros args Hs; cbn [encodedFields].
  - intros [= <-]. exists []. by repeat split; constructor.
  - destruct (Hs k) as (e & t & He & Ht & Hd); [by left|]. rewrite He. intros H.
    apply rbind_ok in H as (rest & Hr & [= <-]).
    destruct (IH rest) as (pairs & -> & <- & Hc & Hp); [by intros; apply Hs; right|done|].
    exists ((k, e) :: pairs). split; [done|]. split; [done|]. split; constructor; cbn; rewrite ?Ht; eauto.
Qed.

Lemma keys_survive fields k : fieldsSurvive fields -> k ∈ keys fields -> survives codec (default VNil (assoc_get k fields)).
Proof.
  intros Hs Hk. apply assoc_has_spec in Hk. unfold assoc_has in Hk. destruct (assoc_get k fields) as [v|] eqn:E; [|done].
  apply assoc_get_elem in E. cbn. by apply (proj1 (Forall_forall _ _) Hs (k, v)).
Qed.

(** A stored entry that holds the fields of a call. *)
Definition keeps (e : storedEntry) (fields : valueMap) : Prop :=
  exists pairs, st_fields e = storedPairs pairs /\ pairs.*1 = mapKeysForCodec codec fields /\
    Forall (fun f => Decode codec (VBytes (default [] (commandText f.2))) = Some (default VNil (assoc_get f.1 fields))) pairs.

Definition addedAs (id : gstr) (e : storedEntry) (fields : valueMap) : Prop := id = streamIDText (st_ID e) /\ keeps e fields.

Lemma addArgs_plain key fields args : addArgs codec key [] fields (AddOptions false None [] false) = Ok args ->
  exists encoded, encodedFields codec fields (mapKeysForCodec codec fields) = Ok encoded /\
                  args = [tok "XADD"; txt key; tok "*"] ++ encoded.
Proof. unfold addArgs. intros H. apply rbind_ok in H as (encoded & He & [= <-]). by exists encoded. Qed.

Lemma validateStreamAdd_given fields opt : validateStreamAdd fields opt = Ok tt -> fields <> [].
Proof. by intros H ->. Qed.

Lemma mapKeys_given fields : fields <> [] -> mapKeysForCodec codec fields <> [].
Proof.
  intros Hf. unfold mapKeysForCodec. destruct (deterministic codec); [|by destruct fields].
  intros E. apply Hf. apply (fmap_nil_inv fst). apply Permutation_nil_r. by rewrite <- E, sort_strings_perm.
Qed.

(** One entry is added, or the call fails and the stream stays as it is. *)
Lemma add_served key fields w r w' : usable w -> fieldsSurvive fields -> Add codec serve key [] fields w = (r, w') ->
  usable w' /\
  match r with
  | Ok id => exists e, stored w' key = stored w key ++ [e] /\ addedAs id e fields
  | Err _ => stored w' key = stored w key
  end.
Proof.
  intros Hu Hs. unfold Add, AddWithOptions, streamExchange.
  destruct (rbind _ _) as [args|e] eqn:Ea; [|by intros [= <- <-]].
  apply rbind_ok in Ea as ([] & Hv%validateStreamAdd_given & (encoded & He & ->)%addArgs_plain).
  destruct (encodedFields_survive fields _ _ (fun k Hk => keys_survive _ _ Hs (mapKeys_in _ _ Hk)) He) as (pairs & -> & Hk & Hc & Hd).
  assert (pairs <> []) as Hp. { intros ->. by apply (mapKeys_given fields). }
  pose proof (xadd_served w key pairs Hu Hp Hc) as Hx. destruct (serve _ w) as [[v|e] w2].
  - destruct Hx as (Hu' & id & -> & Hst). unfold streamIDStringResponse. cbn [responseString].
    assert (validID id) as (H1 & H2 & Hz).
    { pose proof (stored_ids w2 key Hu') as Hids. rewrite Hst in Hids. apply Forall_app in Hids as [_ Hids]. by inv Hids. }
    rewrite parse_streamIDText, (proj2 (nonzeroID_some _ id)) by done. intros [= <- <-]. split; [done|].
    eexists. split; [done|]. split; [done|]. by exists pairs.
  - intros [= <- <-]. exact Hx.
Qed.

Lemma addEntries_served key entries : forall w ids w', usable w -> Forall fieldsSurvive entries -> addEntries key entries w = (Ok ids, w') ->
  usable w' /\ exists added, stored w' key = stored w key ++ added /\ Forall3 addedAs ids added entries.
Proof.
  induction entries as [|fields entries IH]; intros w ids w' Hu Hs; cbn [addEntries].
  - intros [= <- <-]. split; [done|]. exists []. rewrite app_nil_r. by split; [|constructor].
  - apply Forall_cons in Hs as [Hf Hs]. destruct (Add codec serve key [] fields w) as [[id|e] w2] eqn:E; [|done].
    apply add_served in E as (Hu2 & e & He & Ha); [|done..].
    destruct (addEntries key entries w2) as [[rest|e'] w3] eqn:E2; [|done]. intros [= <- <-].
    destruct (IH _ _ _ Hu2 Hs E2) as (Hu3 & added & Hst & Hfa). split; [done|]. exists (e :: added).
    split; [by rewrite Hst, He, <- app_assoc|by constructor].
Qed.

Definition storedAsEntry (e : storedEntry) : streamEntry :=
  EntryOf (VBytes (streamIDText (st_ID e))) (st_ID e) ((fun f => (VBytes f.1, VBytes f.2)) <$> st_fields e).

Lemma addedAs_decoded id e fields : addedAs id e fields -> decodedAs codec (storedAsEntry e) (returnedEntry codec id fields).
Proof.
  intros (-> & pairs & Hst & Hk & Hd). unfold decodedAs, returnedEntry. rewrite <- Hk. eexists. split; [|done].
  cbn [en_fields storedAsEntry]. rewrite Hst. unfold storedPairs. rewrite <- !list_fmap_compose.
  apply Forall2_fmap. apply Forall_Forall2_diag. eapply Forall_impl; [exact Hd|]. by intros f Hf.
Qed.

(** C22: against a server with the documented streams, a range over a stream that was empty
    returns what was added to it: the entries in the order of their calls, under the IDs the
    calls returned, with every field and its value decoded back. *)
Theorem stream_added_is_read key entries w ids w' :
  raw codec = false -> usable w -> stored w key = [] -> Forall fieldsSurvive entries ->
  addEntries key entries w = (Ok ids, w') ->
  Range codec serve key (go "-") (go "+") None w' = (Ok (VArray None (zip_with (returnedEntry codec) ids entries)), w').
Proof.
  intros Hraw Hu Hnil Hs Ha. destruct (addEntries_served _ _ _ _ _ Hu Hs Ha) as (Hu' & added & Hst & Hf).
  rewrite Hnil in Hst. cbn [app] in Hst. apply streamExchange_ok. eexists _, _. split; [done|].
  split; [apply (xrange_served w' key Hu')|]. apply decodeEntries_exact. right. rewrite Hst, Hraw.
  exists None, (entryReply <$> added), (storedAsEntry <$> added). split; [done|].
  pose proof (stored_ids w' key Hu') as Hids. pose proof (stored_order w' key Hu') as Ho. rewrite Hst in Hids, Ho.
  split; [|split; [done|split; [|split]]].
  - apply Forall2_fmap, Forall_Forall2_diag, Forall_true. intros e. by exists None.
  - apply Forall_fmap. eapply Forall_impl; [exact Hids|]. intros e (H1 & H2 & Hz). split; [by apply parse_streamIDText|].
    split; [done|]. apply Forall_fmap, Forall_true. done.
  - rewrite <- list_fmap_compose. exact Ho.
  - eexists. split; [done|]. apply Forall2_fmap_l. clear -Hf. induction Hf; constructor; [by apply addedAs_decoded|done].
Qed.
End AddedThenRead.

(** ** A server that numbers its entries *)

Module Numbered.
Abbreviation world := (gmap gstr (list (list (gstr * gstr)))).

Fixpoint numbered (n : Z) (entries : list (list (gstr * gstr))) : list storedEntry :=
  match entries with [] => [] | fields :: entries => StoredOf (1, n) fields :: numbered (n + 1) entries end.

Definition entriesAt (w : world) (key : gstr) : list (list (gstr * gstr)) := default [] (w !! key).
Definition storedAt (w : world) (key : gstr) : list storedEntry := numbered 1 (entriesAt w key).

Fixpoint pairTexts (args : list arg) : list (gstr * gstr) :=
  match args with
  | field :: value :: args => (default [] (argText field), default [] (argText value)) :: pairTexts args
  | _ => []
  end.

Definition refusal : goError := ErrText (go "ERR").

Definition answer (args : list arg) (w : world) : result goError val * world :=
  match args with
  | command :: Arg (VString key) :: rest =>
      if bool_decide (argText command = Some (go "XADD")) then
        let n := blen (entriesAt w key) + 1 in
        if max_uint64 <? n then (Err refusal, w)
        else (Ok (VBytes (streamIDText (1, n))), <[key := entriesAt w key ++ [pairTexts (tl rest)]]> w)
      else if bool_decide (argText command = Some (go "XRANGE")) then (Ok (VArray None (entryReply <$> storedAt w key)), w)
      else (Err refusal, w)
  | _ => (Err refusal, w)
  end.

Definition small (w : world) : Prop := forall key, blen (entriesAt w key) <= max_uint64.

Lemma numbered_ids n entries : 1 <= n -> n + blen entries <= max_uint64 + 1 -> Forall (fun e => validID (st_ID e)) (numbered n entries).
Proof.
  revert n. induction entries as [|f entries IH]; intros n H1 H2; [constructor|]. rewrite blen_cons in H2.
  pose proof (blen_nonneg entries). cbn [numbered]. constructor; [|apply IH; lia].
  unfold validID; cbn. split; [unfold max_uint64; lia|]. split; [lia|]. intros [=].
Qed.

Lemma numbered_order n entries : StronglySorted earlier (st_ID <$> numbered n entries) /\ Forall (fun e => n <= (st_ID e).2 /\ (st_ID e).1 = 1) (numbered n entries).
Proof.
  revert n. induction entries as [|f entries IH]; intros n; [by split; constructor|].
  destruct (IH (n + 1)) as [Hs Hf]. cbn. split.
  - constructor; [done|]. apply Forall_fmap. eapply Forall_impl; [exact Hf|]. intros e [? ?]. unfold earlier; cbn in *. lia.
  - constructor; [cbn; lia|]. eapply Forall_impl; [exact Hf|]. intros e [? ?]. lia.
Qed.

Lemma numbered_app n a b : numbered n (a ++ b) = numbered n a ++ numbered (n + blen a) b.
Proof.
  revert n. induction a as [|f a IH]; intros n; cbn; [by rewrite blen_nil, Z.add_0_r|]. rewrite IH, blen_cons.
  by rewrite Z.add_assoc.
Qed.

Lemma pairTexts_args pairs : pairTexts (pairArgs pairs) = storedPairs pairs.
Proof. induction pairs as [|f pairs IH]; [done|]. cbn. by f_equal. Qed.

Lemma entriesAt_insert w key l k : entriesAt (<[key := l]> w) k = if decide (k = key) then l else entriesAt w k.
Proof. unfold entriesAt. destruct (decide (k = key)) as [->|Hk]; [by rewrite lookup_insert_eq|by rewrite lookup_insert_ne]. Qed.

#[export, refine] Instance numberedServer : StreamServer world := {| serve := answer; stored := storedAt; usable := small |}.
Proof.
  - intros w key Hw. apply numbered_ids; [lia|]. specialize (Hw key). lia.
  - intros w key _. apply numbered_order.
  - intros w key pairs Hw _ _. change (txt key) with (Arg (VString key)). cbn [app answer]. rewrite bool_decide_true by done.
    destruct (Z.ltb_spec max_uint64 (blen (entriesAt w key) + 1)); [exact (conj Hw eq_refl)|]. split.
    + intros k. rewrite entriesAt_insert. destruct (decide (k = key)) as [->|Hk]; [rewrite blen_snoc; lia|apply Hw].
    + eexists. split; [done|]. unfold storedAt. rewrite entriesAt_insert, decide_True by done. cbn [tl].
      by rewrite numbered_app, pairTexts_args, Z.add_comm.
  - intros w key _. change (txt key) with (Arg (VString key)). cbn [answer]. rewrite bool_decide_false by done. by rewrite bool_decide_true.
Defined.

Definition textCodec : streamCodec := Codec false true (fun v => Some v) (fun v => match v with VBytes s => Some (VString s) | _ => None end).

Definition orders : list valueMap :=
  [[(go "state", VString (go "paid")); (go "amount", VString (go "12"))]; [(go "state", VString (go "sent"))]].

Definition orderIDs : list gstr := [go "1-1"; go "1-2"].
Definition world2 : world := (addEntries textCodec (go "orders") orders ∅).2.

Lemma stream_added_is_read_witness :
  Range textCodec serve (go "orders") (go "-") (go "+") None world2 =
    (Ok (VArray None (zip_with (returnedEntry textCodec) orderIDs orders)), world2).
Proof.
  apply (stream_added_is_read textCodec (go "orders") orders ∅ orderIDs world2).
  - done.
  - intros key. unfold entriesAt. rewrite lookup_empty. cbn. rewrite blen_nil. unfold max_uint64. lia.
  - done.
  - assert (forall s, survives textCodec (VString s)) as Hs by (intros s; by exists (VString s), s).
    unfold fieldsSurvive, orders. rewrite !Forall_cons, !Forall_nil. cbn [snd]. auto 10.
  - by_vm.
Defined.

(** The text of what is returned, with the fields in the order of their names. *)
Example orders_returned :
  (Range textCodec serve (go "orders") (go "-") (go "+") None world2).1 =
    Ok (VArray None [VArray None [VBytes (go "1-1"); VBytes (go "amount"); VString (go "12"); VBytes (go "state"); VString (go "paid")];
                     VArray None [VBytes (go "1-2"); VBytes (go "state"); VString (go "sent")]]).
Proof. by_vm. Qed.

(** Entries out of order, a zero ID and an unrequested stream are refused. *)
Definition replyEntry (id : String.string) : val := VArray None [VBytes (go id); VBytes (go "f"); VBytes (go "v")].
Example out_of_order_refused :
  decodeStreamEntriesLimited textCodec (VArray None [replyEntry "1-2"; replyEntry "1-2"]) None = Err (StreamEntry "order" 1).
Proof. by_vm. Qed.
Example zero_id_refused : decodeStreamEntriesLimited textCodec (VArray None [replyEntry "0-0"]) None = Err (StreamEntry "invalid ID" 0).
Proof. by_vm. Qed.
Example overflow_refused : parseStreamIDText (go "18446744073709551616-0") = None.
Proof. by_vm. Qed.
Example greatest_id : parseStreamIDText (go "18446744073709551615-1") = Some (max_uint64, 1).
Proof. by_vm. Qed.
Example two_separators : parseStreamIDText (go "1-2-3") = None.
Proof. by_vm. Qed.
End Numbered.
