(* ===== verification/Durable.v ===== *)
(** Durable steps (src/client_durable_step.go): moving a claimed flow to its next state, and
    running a closure whose result is stored with the move, so that it is not run again.

    The client talks to a [Service]: what a command answers, and what the world is behind
    it. Time passes and others act only there and in the user's closure. The laws are about
    the values that belong to steps: under those names others write only by committing
    steps, which the fencing token guards; what an error says about delivery is what the
    executor says, and is not assumed to be right. *)

From S2P Require Import CompactResponse Hashes.
From S2P Require Export FlowRecords.

(** What calls of the client need: replies of commands, the clock when options are checked
    and when arguments are built, and the context's error. *)
Class Service (W : Type) := {
  send : list arg -> W -> result goError compactValue * W;
  checkedAt : W -> Z;
  sentAt : W -> Z;
  cancelled : W -> option goError;
}.

Inductive durableError :=
| DurableClient (e : clientError)                 (* options refused *)
| DurableState (what : String.string)             (* another claim, state or identity *)
| DurableCommand (e : goError)                    (* the reply was an error *)
| DurableDecode (e : recordError)
| DurableCodec (what : String.string)
| DurableUser (text : gstr)                       (* an error of user code *)
| DurablePanic (value : val)                      (* a panic of user code *)
| DurableUncertain (operation : String.string) (cause : durableError).

(** [errors.Is(err, ErrDurableMutationUncertain)]. *)
Definition isUncertain (e : durableError) : bool := match e with DurableUncertain _ _ => true | _ => false end.

Definition newDurableMutationUncertain (operation : String.string) (cause : durableError) : durableError :=
  if isUncertain cause then cause else DurableUncertain operation cause.

(** A call: its result, and the world it leaves. *)
Definition call (W A : Type) : Type := W -> result durableError A * W.

Definition give {W A} (r : result durableError A) : call W A := fun w => (r, w).
Definition andThen {W A B} (m : call W A) (k : A -> call W B) : call W B :=
  fun w => match m w with (Ok a, w) => k a w | (Err e, w) => (Err e, w) end.

Notation "'call!' x := m 'in' k" := (andThen m (fun x => k)) (at level 10, x pattern, m at level 100, k at level 200) : go_scope.

Definition whenOk (b : bool) (what : String.string) : result durableError unit := rguard b (DurableState what).

Definition clientResult {A} (r : result clientError A) : result durableError A :=
  match r with Ok a => Ok a | Err e => Err (DurableClient e) end.

Definition recordResult {A} (r : result recordError A) : result durableError A :=
  match r with Ok a => Ok a | Err e => Err (DurableDecode e) end.

Definition durableStepValuePrefix : gstr := go "__ferricstore_step__:sha256:".
Definition durableStepLeaseMS : Z := 30000.

Definition hexDigit (n : Z) : byte := Zbyte (if n <? 10 then 48 + n else 87 + n).
Definition encodeToString (s : gstr) : gstr := flat_map (fun b => [hexDigit (byteZ b / 16); hexDigit (byteZ b mod 16)]) s.

(** [durableStepValueName]. *)
Definition durableStepValueName (name : gstr) : gstr := durableStepValuePrefix ++ encodeToString (sha256 name).

Inductive durableStepDisposition := durableStepReplayed | durableStepApplied.

(** ** Checks *)



Definition validateDurableClaim (job : FlowClaim) : result durableError unit :=
  let! _ := whenOk (0 <? it_FencingToken job) "claimed workflow fencing token must be positive" in
  whenOk (bool_decide (it_State job = []) || bool_decide (it_State job = running)) "claimed workflow state must be running".

Definition noNamedValues : NamedValues := valuesAndRefs [] [].

(** The options of the move that a step or an advance asks for. *)
Definition continueOptions (job : FlowClaim) (toState : gstr) : StepContinueOptions :=
  StepContinueOf (it_ID job) (it_LeaseToken job) (it_RunState job) toState (it_FencingToken job) durableStepLeaseMS
    (it_PartitionKey job) VNil [] 0 [] noNamedValues.

Definition validateContinue (clock : Z) (job : FlowClaim) (toState : gstr) : result durableError unit :=
  clientResult (checkedBy (validateStepContinueOptions clock (continueOptions job toState))).

(** [validateDurableStep]; a closure is always given. *)
Definition validateDurableStep (clock : Z) (job : FlowClaim) (name toState : gstr) : result durableError unit :=
  let! _ := validateDurableClaim job in
  let! _ := validateContinue clock job toState in
  let! _ := clientResult (checkedBy (validateFlowMutationText (go "durable step name") name)) in
  let! _ := whenOk (given (trim_space name)) "durable step name must not be blank" in
  whenOk (utf8_valid name) "durable step name must be valid UTF-8".

Definition validateDurableStepPreflight (job : FlowClaim) (record : option FlowRecord) : result durableError FlowRecord :=
  match record with
  | None => Err (DurableState "FLOW.EXTEND_LEASE did not return a workflow record")
  | Some record =>
      let! _ := whenOk (bool_decide (rec_ID record = it_ID job) && bool_decide (rec_PartitionKey record = it_PartitionKey job))
                  "FLOW.EXTEND_LEASE returned a different workflow identity" in
      let! _ := whenOk (bool_decide (rec_LeaseToken record = it_LeaseToken job) && (rec_FencingToken record =? it_FencingToken job))
                  "FLOW.EXTEND_LEASE returned a different workflow claim" in
      let! _ := whenOk (bool_decide (rec_State record = running) && bool_decide (rec_RunState record = it_RunState job))
                  "FLOW.EXTEND_LEASE returned a different workflow state" in
      Ok record
  end.

Definition validateAdvancedClaim (job : FlowClaim) (toState : gstr) (refreshed : FlowClaim) : result durableError unit :=
  let! _ := whenOk (bool_decide (it_ID refreshed = it_ID job) && bool_decide (it_PartitionKey refreshed = it_PartitionKey job))
              "FLOW.STEP_CONTINUE returned a different workflow identity" in
  let! _ := whenOk (negb (bool_decide (it_LeaseToken refreshed = it_LeaseToken job)))
              "FLOW.STEP_CONTINUE did not refresh the workflow lease" in
  let! _ := whenOk (it_FencingToken job <? it_FencingToken refreshed)
              "FLOW.STEP_CONTINUE did not increase the workflow fencing token" in
  whenOk (bool_decide (it_State refreshed = running) && bool_decide (it_RunState refreshed = toState))
    "FLOW.STEP_CONTINUE returned an unexpected workflow state".

Definition isNil (v : val) : bool := match v with VNil => true | _ => false end.

Definition mergeClaimProjection (claim fallback : FlowClaim) : FlowClaim :=
  FlowClaimOf (it_ID claim) (it_LeaseToken claim) (it_FencingToken claim) (it_PartitionKey claim)
    (if given (it_Type claim) then it_Type claim else it_Type fallback) (it_State claim) (it_RunState claim)
    (if isNil (it_Payload claim) then it_Payload fallback else it_Payload claim)
    (match it_Attributes claim with Some m => Some m | None => it_Attributes fallback end).

Definition claimedItemFromRecord (record : FlowRecord) (fallback : FlowClaim) : FlowClaim :=
  mergeClaimProjection (FlowClaimOf (rec_ID record) (rec_LeaseToken record) (rec_FencingToken record)
    (rec_PartitionKey record) (rec_Type record) (rec_State record) (rec_RunState record) (rec_Payload record)
    (Some (rec_Attributes record))) fallback.

(** [durableStepResultRef]. *)
Definition durableStepResultRef (v : val) : result durableError gstr :=
  let nonEmpty (s : gstr) := let! _ := whenOk (given s) "empty value reference" in Ok s in
  match responseString v with
  | Some ref => nonEmpty ref
  | None =>
      match nativeMap v with
      | Err _ => Err (DurableDecode RecordNotMap)
      | Ok m => match responseString (fieldOf m "ref") with
                | Some ref => nonEmpty ref
                | None => Err (DurableDecode (RecordField "ref"))
                end
      end
  end.

(** ** The calls *)

Section Calls.
Context {W : Type} `{!Service W} (encode decode : val -> option val).

(** [typedReply]. *)
Definition typedReply (args : list arg) : call W compactValue :=
  fun w => match send args w with (Ok v, w) => (Ok v, w) | (Err e, w) => (Err (DurableCommand e), w) end.

Definition extendLease (job : FlowClaim) (leaseMS : Z) : call W (option FlowRecord) := fun w =>
  (call! args := give (clientResult (extendLeaseArgs (checkedAt w) (sentAt w) (it_ID job) (it_LeaseToken job)
     (it_FencingToken job) leaseMS (it_PartitionKey job))) in
   call! reply := typedReply args in
   give (recordResult (recordOrNil decode reply))) w.

(** The arguments of [advanceClaim], with the result a step stores. *)
Definition continueArgs (now : Z) (job : FlowClaim) (toState : gstr) (commit : option (gstr * val)) : list arg :=
  [tok "FLOW.STEP_CONTINUE"; txt (it_ID job); txt (it_LeaseToken job); txt (it_RunState job); txt toState;
   tok "FENCING"; int64 (it_FencingToken job); tok "LEASE_MS"; int64 durableStepLeaseMS; tok "NOW"; int64 now] ++
  appendText "PARTITION" (it_PartitionKey job) ++
  match commit with Some (name, encoded) => [tok "VALUE"; txt name; Arg encoded] | None => [] end ++
  appendText "RETURN" (go "JOBS_COMPACT").

Definition durableMutationCommandError (sprint : val -> gstr) (operation : String.string) (e : goError) : durableError :=
  if durableMutationDefinitelyRejected sprint e then DurableCommand e
  else newDurableMutationUncertain operation (DurableCommand e).

Definition isRow (r : compactValue) : bool := match r with CompactPlain (VArray _ _) => true | _ => false end.

(** A full response names its state and its run state. *)
Definition requireStates (r : compactValue) : result durableError unit :=
  match r with
  | CompactPlain (VArray _ _) => Ok tt
  | CompactPlain v =>
      match nativeMap v with
      | Err _ => Ok tt
      | Ok m =>
          let! state := recordResult (optionalResponseStringField m "state") in
          let! _ := whenOk (given state) "full workflow response is missing state" in
          let! runState := recordResult (optionalResponseStringField m "run_state") in
          whenOk (given runState) "full workflow response is missing run state"
      end
  | _ => Ok tt
  end.

Definition replyClaim (r : compactValue) : result durableError FlowClaim :=
  match r with
  | CompactPlain v => recordResult (claimedItemFromNative decode v)
  | _ => Err (DurableDecode RecordNotMap)
  end.

Definition with_RunState (runState : gstr) (c : FlowClaim) : FlowClaim :=
  FlowClaimOf (it_ID c) (it_LeaseToken c) (it_FencingToken c) (it_PartitionKey c) (it_Type c) (it_State c) runState
    (it_Payload c) (it_Attributes c).

Definition uncertainReply {A} (operation : String.string) (r : result durableError A) : result durableError A :=
  match r with Ok a => Ok a | Err e => Err (newDurableMutationUncertain operation e) end.

(** The claim a response gives; a row leaves the run state to the request. *)
Definition refreshedClaim (job : FlowClaim) (toState : gstr) (r : compactValue) : result durableError FlowClaim :=
  let! refreshed := uncertainReply "decode FLOW.STEP_CONTINUE response"
    (let! _ := requireStates r in
     let! refreshed := replyClaim r in
     if given (it_RunState refreshed) then Ok refreshed
     else if isRow r then Ok (with_RunState toState refreshed)
     else Err (DurableState "full workflow response is missing run state")) in
  let! _ := uncertainReply "validate FLOW.STEP_CONTINUE response" (validateAdvancedClaim job toState refreshed) in
  Ok (mergeClaimProjection refreshed job).

Context (sprint : val -> gstr).

Definition advanceClaim (job : FlowClaim) (toState : gstr) (commit : option (gstr * val)) : call W FlowClaim := fun w =>
  (call! _ := give (validateDurableClaim job) in
   call! _ := give (validateContinue (checkedAt w) job toState) in
   (fun w => match send (continueArgs (sentAt w) job toState commit) w with
             | (Err e, w) => (Err (durableMutationCommandError sprint "FLOW.STEP_CONTINUE" e), w)
             | (Ok reply, w) => (refreshedClaim job toState reply, w)
             end)) w.

(** [Client.Advance]. *)
Definition Advance (job : FlowClaim) (toState : gstr) : call W FlowClaim := advanceClaim job toState None.

(** [durableStepStoredResult]. *)
Definition storedResult (reply : compactValue) : result durableError val :=
  match reply with
  | CompactPlain (VArray _ [VNil]) => Err (DurableState "durable step committed result is missing")
  | CompactPlain (VArray _ [v]) =>
      match decodeValue decode v with Some r => Ok r | None => Err (DurableCodec "decode durable step committed result") end
  | CompactPlain (VArray _ items) => Err (DurableDecode (RecordCount (blen items) 1))
  | _ => Err (DurableDecode RecordNotArray)
  end.

Definition durableStepStoredResult (ref : gstr) : call W val :=
  call! reply := typedReply [tok "FLOW.VALUE.MGET"; txt ref] in give (storedResult reply).

(** The result of the closure as it is stored, and as a reader of the store gets it. *)
Definition encodedResult (value : val) : result durableError (val * val) :=
  match encode value with
  | None => Err (DurableCodec "encode durable step result")
  | Some encoded =>
      match decodeValue decode encoded with
      | Some stored => Ok (encoded, stored)
      | None => Err (DurableCodec "decode durable step result")
      end
  end.

Definition notCancelled : call W unit := fun w =>
  match cancelled w with Some e => (Err (DurableCommand e), w) | None => (Ok tt, w) end.

(** [stepWithDisposition]. *)
Definition stepWithDisposition (job : FlowClaim) (name : gstr) (run : call W val) (toState : gstr)
  : call W (FlowClaim * val * durableStepDisposition) := fun w =>
  (call! _ := give (validateDurableStep (checkedAt w) job name toState) in
   call! record := extendLease job durableStepLeaseMS in
   call! validated := give (validateDurableStepPreflight job record) in
   let valueName := durableStepValueName name in
   match assoc_get valueName (rec_ValueRefs validated) with
   | Some refValue =>
       call! _ := give (whenOk (bool_decide (rec_RunState validated = toState))
                     "committed durable step result does not match the requested target state") in
       call! ref := give (durableStepResultRef refValue) in
       call! value := durableStepStoredResult ref in
       give (Ok (claimedItemFromRecord validated job, value, durableStepReplayed))
   | None =>
       call! _ := notCancelled in
       call! value := run in
       call! stored := give (encodedResult value) in
       call! refreshed := advanceClaim job toState (Some (valueName, stored.1)) in
       give (Ok (refreshed, stored.2, durableStepApplied))
   end) w.

(** [Client.Step]. *)
Definition Step (job : FlowClaim) (name : gstr) (run : call W val) (toState : gstr) : call W (FlowClaim * val) :=
  call! r := stepWithDisposition job name run toState in give (Ok r.1).
End Calls.

(** ** Steps against a server that fences claims

    What matters of what the server keeps of one flow: its fencing token, the names of steps
    with a stored result, and those stored by moves, in order. A flow has other values too,
    which FLOW.VALUE.PUT and FLOW.SIGNAL change without its token; the names of steps, behind
    their prefix, are the client's own, and only moves write them. *)

Definition stepName (name : gstr) : Prop := durableStepValuePrefix `prefix_of` name.

Lemma stepName_ok name : stepName (durableStepValueName name).
Proof. by eexists. Qed.

Record flowView := FlowView { v_fencing : Z; v_values : gset gstr; v_log : list gstr }.

(** Every step result that was stored is still there, and was stored once. *)
Definition sound (v : flowView) : Prop := NoDup (v_log v) /\ forall name, name ∈ v_log v -> name ∈ v_values v.

(** A move with the claim [job], and what it stores. *)
Definition moved (job : FlowClaim) (stored : option gstr) (v v' : flowView) : Prop :=
  v_fencing v = it_FencingToken job /\ v_fencing v < v_fencing v' /\
  match stored with
  | Some name => v_values v' = {[ name ]} ∪ v_values v /\ v_log v' = v_log v ++ [name]
  | None => v_values v' = v_values v /\ v_log v' = v_log v
  end.

(** The documented behaviour of the server for the flow [flow]. [others] is what happens
    while a request is under way or user code runs: under the same fencing token no step is
    stored, and others keep what steps stored. A move is executed only with the current
    token, and one that is not is answered by an error; nothing is assumed of the error of
    a move that was executed, whose answer may be lost. *)
Class FlowServer (W : Type) `{!Service W} (decode : val -> option val) (flow : gstr) := {
  view : W -> flowView;
  others : W -> W -> Prop;
  others_preorder :: PreOrder others;
  others_fenced w w' : others w w' ->
    v_fencing (view w) <= v_fencing (view w') /\ (v_fencing (view w) = v_fencing (view w') -> view w = view w');
  others_logged w w' : others w w' -> v_log (view w) `prefix_of` v_log (view w');
  others_sound w w' : others w w' -> sound (view w) -> sound (view w');
  serves_reads ref w r w' : send [tok "FLOW.VALUE.MGET"; txt ref] w = (r, w') -> others w w';
  serves_leases checked sent job ms args w r w' : it_ID job = flow ->
    extendLeaseArgs checked sent (it_ID job) (it_LeaseToken job) (it_FencingToken job) ms (it_PartitionKey job) = Ok args ->
    send args w = (r, w') ->
    exists w1, others w w1 /\ others w1 w' /\
      forall v record, r = Ok v -> recordOrNil decode v = Ok (Some record) -> rec_ID record = flow ->
        rec_FencingToken record = v_fencing (view w1) /\
        forall name, stepName name -> is_Some (assoc_get name (rec_ValueRefs record)) <-> name ∈ v_values (view w1);
  serves_moves now job toState commit w r w' : it_ID job = flow -> (forall c, commit = Some c -> stepName c.1) ->
    send (continueArgs now job toState commit) w = (r, w') ->
    (others w w' /\ exists e, r = Err e) \/
    (exists w1 w2, others w w1 /\ moved job (fst <$> commit) (view w1) (view w2) /\ others w2 w');
}.

Section Server.
Context {W : Type} `{!Service W} {decode : val -> option val} {sprint : val -> gstr} {flow : gstr}
  `{!FlowServer W decode flow} (encode : val -> option val).
#[local] Arguments view {_ _ _ _ _} _.
#[local] Arguments others {_ _ _ _ _} _ _.

(** The move of a call was executed, once. *)
Definition executed (job : FlowClaim) (stored : option gstr) (w w' : W) : Prop :=
  exists w1 w2, others w w1 /\ moved job stored (view w1) (view w2) /\ others w2 w'.

Lemma uncertainReply_err {A} operation (r : result durableError A) e :
  uncertainReply operation r = Err e -> isUncertain e = true.
Proof. destruct r as [a|e0]; cbn; [done|]. intros [= <-]. unfold newDurableMutationUncertain. by destruct e0. Qed.

Lemma refreshedClaim_err job toState reply e : refreshedClaim decode job toState reply = Err e -> isUncertain e = true.
Proof.
  unfold refreshedClaim. destruct (uncertainReply _ _) as [c|e1] eqn:E1; cbn [rbind];
    [|intros [= <-]; by eapply uncertainReply_err].
  destruct (uncertainReply "validate FLOW.STEP_CONTINUE response" _) as [[]|e2] eqn:E2; cbn [rbind]; [done|].
  intros [= <-]. by eapply uncertainReply_err.
Qed.

(** What an error of a move that was executed may be: reported as uncertain, or an error
    that itself says that the request was not sent or was rejected. *)
Definition admitted (e : durableError) : Prop :=
  isUncertain e = true \/ exists e0, e = DurableCommand e0 /\ durableMutationDefinitelyRejected sprint e0 = true.

(** A move either was executed, or was not and fails. *)
Lemma advanceClaim_spec job toState commit w r w' : it_ID job = flow -> (forall c, commit = Some c -> stepName c.1) ->
  advanceClaim decode sprint job toState commit w = (r, w') ->
  (others w w' /\ exists e, r = Err e) \/
  (executed job (fst <$> commit) w w' /\ forall e, r = Err e -> admitted e).
Proof.
  intros Hid Hname. unfold advanceClaim, andThen, give.
  destruct (validateDurableClaim job) as [[]|e1]; [|intros [= <- <-]; left; split; [reflexivity|eauto]].
  destruct (validateContinue _ job toState) as [[]|e2]; [|intros [= <- <-]; left; split; [reflexivity|eauto]].
  destruct (send _ w) as [reply w1] eqn:Hs. apply serves_moves in Hs; [|done..].
  destruct Hs as [[Ho [e ->]]|(w2 & w3 & H1 & Hm & H2)].
  - intros [= <- <-]. left. eauto.
  - intros H. right. split.
    + destruct reply; injection H as <- <-; by exists w2, w3.
    + intros e ->. destruct reply as [reply|e1]; injection H as H <-; [left; by eapply refreshedClaim_err|].
      unfold durableMutationCommandError in H. destruct (durableMutationDefinitelyRejected sprint e1) eqn:Hrej; subst e; [right; eauto|by left].
Qed.

Lemma executed_after job stored w w0 w' : others w w0 -> executed job stored w0 w' -> executed job stored w w'.
Proof. intros H (w1 & w2 & H1 & Hm & H2). exists w1, w2. split; [by etrans|]. by split. Qed.

(** A move that stores a value under a name free in [w0], with the claim current there. *)
Lemma fresh_move job name encoded toState w0 w r w' : it_ID job = flow ->
  stepName name ->
  v_fencing (view w0) = it_FencingToken job -> name ∉ v_values (view w0) -> sound (view w0) -> others w0 w ->
  advanceClaim decode sprint job toState (Some (name, encoded)) w = (r, w') ->
  (others w0 w' /\ exists e, r = Err e) \/
  (executed job (Some name) w0 w' /\ sound (view w') /\ (name ∉ v_log (view w0)) /\ forall e, r = Err e -> admitted e).
Proof.
  intros Hid Hname Hf Hfree Hs Ho H.
  apply advanceClaim_spec in H as [[H1 He]|[H1 He]]; [left; split; [by etrans|done]|right|done|by intros c [= <-]].
  apply (executed_after _ _ _ _ _ Ho) in H1. split; [done|]. split; [|split; [|done]]; [|by intros Hin; apply Hfree, (proj2 Hs)].
  destruct H1 as (w1 & w2 & H1 & (Hf1 & _ & Hv & Hl) & H2). apply (others_sound _ _ H2).
  destruct (others_fenced _ _ H1) as [_ Hsame]. rewrite <- Hsame in Hv, Hl by congruence. destruct Hs as [Hd Hk]. split.
  - rewrite Hl. apply NoDup_app. split_and!; [done| |apply NoDup_singleton].
    intros n Hin Hn'. apply list_elem_of_singleton in Hn' as ->. by apply Hfree, Hk.
  - intros n. rewrite Hl, Hv, elem_of_union, elem_of_singleton, elem_of_app, list_elem_of_singleton.
    intros [Hin| ->]; [right; by apply Hk|by left].
Qed.

(** The lease is extended at a moment when its record tells what is stored. *)
Lemma extendLease_spec job ms w r w' : it_ID job = flow -> extendLease decode job ms w = (r, w') ->
  exists w1, others w w1 /\ others w1 w' /\
    forall record validated, r = Ok record -> validateDurableStepPreflight job record = Ok validated ->
      v_fencing (view w1) = it_FencingToken job /\
      forall name, stepName name -> is_Some (assoc_get name (rec_ValueRefs validated)) <-> name ∈ v_values (view w1).
Proof.
  intros Hid. unfold extendLease, andThen, give, typedReply.
  destruct (extendLeaseArgs _ _ _ _ _ _ _) as [args|e] eqn:Ha; cbn [clientResult];
    [|intros [= <- <-]; exists w; split_and!; [reflexivity..|done]].
  destruct (send args w) as [reply w2] eqn:Hs. eapply serves_leases in Hs as (w1 & H1 & H2 & Hrec); [|done..].
  destruct reply as [v|e]; intros [= <- <-]; exists w1; (split_and!; [done..|]); [|done].
  intros record validated Hr Hp. destruct record as [record|]; [|done].
  assert (Hv : recordOrNil decode v = Ok (Some record)) by (destruct (recordOrNil decode v); [by injection Hr as ->|done]).
  unfold validateDurableStepPreflight, whenOk in Hp. inv_result. z_tests. subst.
  destruct (Hrec v validated eq_refl Hv ltac:(congruence)) as [Hf Hk]. split; [congruence|done].
Qed.

(** C14: A durable step is committed at most once, whoever else works on the flow and whatever
    responses are lost. The closure runs only if no result is stored under the step's name;
    a result it commits is then the first under the name; a replay runs nothing; and after
    an error that is not reported uncertain nothing was committed, but where the error the
    executor returned itself says, wrongly, that the request was not sent or was rejected. *)
Theorem durable_step_commits_once job name run toState w r w' :
  it_ID job = flow -> (forall w r w', run w = (r, w') -> others w w') -> sound (view w) ->
  stepWithDisposition encode decode sprint job name run toState w = (r, w') ->
  let committed := executed job (Some (durableStepValueName name)) w w' in
  sound (view w') /\
  match r with
  | Ok (_, _, durableStepApplied) => committed /\ durableStepValueName name ∉ v_log (view w)
  | Ok (_, _, durableStepReplayed) =>
      others w w' /\ forall run', stepWithDisposition encode decode sprint job name run' toState w = (r, w')
  | Err e => others w w' \/ (committed /\ admitted e)
  end.
Proof.
  intros Hid Hrun Hs H committed.
  assert (Hquiet : others w w' -> sound (view w')) by (intros Ho; by eapply others_sound).
  assert (Hnothing : forall e, r = Err e -> others w w' -> sound (view w') /\
    match r with Ok (_, _, durableStepApplied) => committed /\ durableStepValueName name ∉ v_log (view w)
    | Ok (_, _, durableStepReplayed) =>
        others w w' /\ forall run', stepWithDisposition encode decode sprint job name run' toState w = (r, w')
    | Err e => others w w' \/ (committed /\ admitted e) end) by (intros e -> Ho; auto).
  unfold stepWithDisposition, andThen, give in H.
  destruct (validateDurableStep _ job name toState) as [[]|e0] eqn:E1; [|by injection H as <- <-; eapply Hnothing].
  destruct (extendLease _ _ _ w) as [record w1] eqn:E2.
  pose proof (extendLease_spec _ _ _ _ _ Hid E2) as (w0 & H0 & H1 & Hlease).
  assert (Hw1 : others w w1) by by etrans.
  destruct record as [record|e1]; [|injection H as <- <-; by eapply Hnothing].
  destruct (validateDurableStepPreflight job record) as [validated|e2] eqn:E3; [|injection H as <- <-; by eapply Hnothing].
  destruct (Hlease record validated eq_refl E3) as [Hf Hk]. clear Hlease.
  destruct (assoc_get _ (rec_ValueRefs validated)) as [ref|] eqn:E4.
  - (* a result is stored: it is read back *)
    destruct (whenOk _ _) as [[]|e3] eqn:E5; [|injection H as <- <-; by eapply Hnothing].
    destruct (durableStepResultRef ref) as [ref'|e4] eqn:E6; [|injection H as <- <-; by eapply Hnothing].
    unfold durableStepStoredResult, typedReply, andThen, give in H.
    destruct (send [tok "FLOW.VALUE.MGET"; txt ref'] w1) as [reply w2] eqn:E7.
    assert (Hw2 : others w w2) by (etrans; [exact Hw1|by eapply serves_reads]).
    destruct reply as [reply|e5]; [|injection H as <- <-; by eapply Hnothing].
    destruct (storedResult decode reply) as [value|e6] eqn:E8; [|injection H as <- <-; by eapply Hnothing].
    injection H as <- <-. split; [by apply Hquiet|]. split; [done|]. intros run'.
    unfold stepWithDisposition, durableStepStoredResult, typedReply, andThen, give.
    by rewrite E1, E2, E3, E4, E5, E6, E7, E8.
  - (* nothing is stored: the closure runs, and the move stores its result *)
    unfold notCancelled in H. destruct (cancelled w1) as [e3|]; [injection H as <- <-; by eapply Hnothing|].
    destruct (run w1) as [value w2] eqn:E5. apply Hrun in E5. assert (Hw2 : others w w2) by by etrans.
    destruct value as [value|e4]; [|injection H as <- <-; by eapply Hnothing].
    destruct (encodedResult encode decode value) as [stored|e5]; [|injection H as <- <-; by eapply Hnothing].
    destruct (advanceClaim _ _ _ _ _ w2) as [refreshed w3] eqn:E6. 
    assert (Hfree : durableStepValueName name ∉ v_values (view w0)) by (rewrite <- Hk, E4 by apply stepName_ok; intros [? [=]]).
    apply (fresh_move _ _ _ _ w0) in E6; [|done|apply stepName_ok|done|done|by eapply others_sound|by etrans].
    destruct E6 as [[Ho [e ->]]|(Hexec & Hsound & Hlog & Huncertain)]; [injection H as <- <-; eapply Hnothing; [done|etrans; [exact H0|exact Ho]]|].
    apply (executed_after _ _ _ _ _ H0) in Hexec.
    destruct refreshed as [refreshed|e]; injection H as <- <-; (split; [done|]); [split; [done|]|right; by auto].
    intros Hin. apply Hlog. destruct (others_logged _ _ H0) as [l ->]. apply elem_of_app. by left.
Qed.
End Server.

(** ** A server that stores one result

    It shows that the documented behaviour can be had. Anybody may put another value of the
    flow, under whatever token, and the response of a move may be lost. *)

Module OneFlow.
Record world := World {
  lease : gstr; fencing : Z; runState : gstr; stored : option (gstr * val); log : list gstr; loses : bool;
  noted : bool;     (* a value put by FLOW.VALUE.PUT *)
}.

Definition with_note (b : bool) (w : world) : world :=
  World (lease w) (fencing w) (runState w) (stored w) (log w) (loses w) b.

Definition noteName : gstr := go "shipping-note".

Definition flow : gstr := go "order-1".
Definition noText : val -> gstr := fun _ => [].
Definition refused : goError := ErrNative (Native nativeStatusBadRequest [] VNil).

Definition recordOf (w : world) : val :=
  VMap None [(go "id", VString flow); (go "lease_token", VString (lease w)); (go "fencing_token", VInt IInt64 (fencing w));
             (go "state", VString running); (go "run_state", VString (runState w));
             (go "value_refs", VMap None ((if noted w then [(noteName, VString (go "ref-2"))] else []) ++
               match stored w with Some (name, _) => [(name, VString (go "ref-1"))] | None => [] end))].

(** The name and the value a move stores, behind its clock. *)
Definition storedBy (args : list arg) : option (gstr * val) :=
  match args with
  | Arg (VString t) :: Arg (VString name) :: Arg v :: _ => if bool_decide (t = go "VALUE") then Some (name, v) else None
  | _ => None
  end.

Definition commitOf (args : list arg) : option (gstr * val) :=
  match args with
  | Arg (VString t) :: _ :: rest => if bool_decide (t = go "PARTITION") then storedBy rest else storedBy args
  | _ => storedBy args
  end.

Definition extend (w : world) (token : gstr) (number : Z) : result goError compactValue :=
  if bool_decide (token = lease w) && (number =? fencing w) then Ok (CompactPlain (recordOf w)) else Err refused.

Definition move (w : world) (token : gstr) (number : Z) (to : gstr) (commit : option (gstr * val))
  : result goError compactValue * world :=
  if bool_decide (token = lease w) && (number =? fencing w) && (bool_decide (commit = None) || bool_decide (stored w = None)) then
    let w' := World (lease w ++ go "+") (fencing w + 1) to (match commit with Some _ => commit | None => stored w end)
                (log w ++ match commit with Some (name, _) => [name] | None => [] end) (loses w) (noted w) in
    (if loses w then Err (ErrSentinel errEOF)
     else Ok (CompactPlain (VArray None [VString flow; VNil; VString (lease w'); VInt IInt64 (fencing w')])), w')
  else (Err refused, w).

Definition serve (args : list arg) (w : world) : result goError compactValue * world :=
  match args with
  | Arg (VString command) :: rest =>
      if bool_decide (command = go "FLOW.EXTEND_LEASE") then
        match rest with
        | _ :: Arg (VString token) :: _ :: Arg (VInt _ number) :: _ => (extend w token number, w)
        | _ => (Err refused, w)
        end
      else if bool_decide (command = go "FLOW.STEP_CONTINUE") then
        match rest with
        | _ :: Arg (VString token) :: _ :: Arg (VString to) :: _ :: Arg (VInt _ number) :: _ :: _ :: _ :: _ :: more =>
            move w token number to (commitOf more)
        | _ => (Err refused, w)
        end
      else (Ok (CompactPlain (VArray None [match stored w with Some (_, v) => v | None => VNil end])), w)
  | _ => (Err refused, w)
  end.

#[global] Instance service : Service world := { send := serve; checkedAt _ := 1000; sentAt _ := 1000; cancelled _ := None }.

Definition flowViewOf (w : world) : flowView :=
  FlowView (fencing w) (match stored w with Some (name, _) => {[ name ]} | None => ∅ end) (log w).

Lemma recordOf_read w record : recordOrNil Some (CompactPlain (recordOf w)) = Ok (Some record) ->
  rec_FencingToken record = fencing w /\
  rec_ValueRefs record = (if noted w then [(noteName, VString (go "ref-2"))] else []) ++
    match stored w with Some (name, _) => [(name, VString (go "ref-1"))] | None => [] end.
Proof.
  assert (E : nativeMap (recordOf w) = Ok (match recordOf w with VMap _ m => m | _ => [] end))
    by (unfold recordOf; destruct (noted w), (stored w) as [[name v]|]; reflexivity).
  unfold recordOrNil. intros H. assert (Hr : recordFromNative Some (recordOf w) = Ok record).
  { unfold recordOf in *. cbn [isOKValue] in H. destruct (recordFromNative _ _); [by injection H as ->|done]. }
  unfold recordFromNative in Hr. rewrite E in Hr. apply recordFromMap_claim in Hr as [Hf Hv].
  split; [by injection Hf|]. unfold recordOf in Hv.
  destruct (noted w), (stored w) as [[name v]|]; injection Hv as <-; done.
Qed.

Lemma serve_move now job toState commit w :
  serve (continueArgs now job toState commit) w = move w (it_LeaseToken job) (it_FencingToken job) toState commit.
Proof.
  unfold continueArgs, serve. cbn [app tok txt int64]. unfold tok at 1, txt at 1.
  rewrite (bool_decide_false (go "FLOW.STEP_CONTINUE" = go "FLOW.EXTEND_LEASE")) by done.
  rewrite (bool_decide_true (go "FLOW.STEP_CONTINUE" = go "FLOW.STEP_CONTINUE")) by done.
  destruct (it_PartitionKey job) as [|b p], commit as [[name v]|]; reflexivity.
Qed.

(** Others put notes. *)
Definition notes (w w' : world) : Prop := exists b, w' = with_note b w.

#[global] Instance notes_preorder : PreOrder notes.
Proof. split; [intros w; exists (noted w); by destruct w|]. intros w w1 w2 [b ->] [b' ->]. by exists b'. Qed.

Lemma value_refs_stored (b : bool) (s : option (gstr * val)) name : stepName name ->
  is_Some (assoc_get name ((if b then [(noteName, VString (go "ref-2"))] else []) ++
    match s with Some (n, _) => [(n, VString (go "ref-1"))] | None => [] end)) <->
  name ∈ (match s with Some (n, _) => {[ n ]} | None => ∅ end : gset gstr).
Proof.
  intros Hname. assert (assoc_get name ((if b then [(noteName, VString (go "ref-2"))] else []) ++
    match s with Some (n, _) => [(n, VString (go "ref-1"))] | None => [] end) =
    assoc_get name match s with Some (n, _) => [(n, VString (go "ref-1"))] | None => [] end) as ->.
  { destruct b; [|done]. cbn [app assoc_get]. rewrite bool_decide_false; [done|]. intros <-. by destruct Hname as [rest [=]]. }
  destruct s as [[n v]|]; cbn.
  - rewrite elem_of_singleton. destruct (decide (n = name)) as [->|Hne]; [by rewrite bool_decide_true|].
    rewrite bool_decide_false by done. split; [by intros []|by intros ->].
  - split; [by intros []|by intros []%elem_of_empty].
Qed.

#[global] Instance server : FlowServer world Some flow.
Proof.
  refine {| view := flowViewOf; others := notes; others_preorder := notes_preorder |}.
  - by intros w w' [b ->].
  - intros w w' [b ->]. exists []. by rewrite app_nil_r.
  - by intros w w' [b ->].
  - intros ref w r w' [= _ <-]. reflexivity.
  - intros checked sent job ms args w r w' Hid Ha H. exists w. split; [reflexivity|].
    assert (Hr : r = extend w (it_LeaseToken job) (it_FencingToken job) /\ w' = w).
    { unfold extendLeaseArgs in Ha. apply rbind_ok in Ha as (? & _ & [= <-]). by injection H as <- <-. }
    destruct Hr as [-> ->]. split; [reflexivity|]. intros v record Hv Hrec _. unfold extend in Hv.
    destruct (_ && _); [|done]. injection Hv as <-. apply recordOf_read in Hrec as [Hf Hrefs]. split; [done|].
    intros name Hname. rewrite Hrefs. by apply value_refs_stored.
  - intros now job toState commit w r w' Hid _ H. cbn [send service] in H. rewrite serve_move in H. unfold move in H.
    destruct (_ && _ && _) eqn:E; [|injection H as <- <-; left; split; [reflexivity|by eexists]].
    right. apply andb_true_iff in E as [E Hfree]. z_tests. injection H as <- <-.
    eexists w, _. split; [reflexivity|]. split; [|reflexivity].
    split; [done|]. split; [cbn; lia|]. destruct commit as [[name v]|]; cbn.
    + destruct (stored w) as [[n v']|]; [done|]. split; [set_solver|done].
    + by rewrite app_nil_r.
Defined.

Definition claimed : FlowClaim := FlowClaimOf flow (go "L") 1 [] [] running (go "charge") VNil None.
Definition start (loses : bool) : world := World (go "L") 1 (go "charge") None [] loses false.
(** The closure puts a value of the flow while it runs. *)
Definition charge : call world val := fun w => (Ok (VString (go "receipt")), with_note true w).
Definition step (run : call world val) := stepWithDisposition Some Some noText claimed (go "charge-card") run (go "ship").

(** The response of the move is lost: the step is reported uncertain, and it was committed.
    Whoever claims the flow next gets the result without running the closure. *)
Lemma durable_step_commits_once_witness :
  exists e w, step charge (start true) = (Err e, w) /\ isUncertain e = true /\ sound (flowViewOf w) /\
    log w = [durableStepValueName (go "charge-card")].
Proof.
  destruct (step charge (start true)) as [r w] eqn:E.
  pose proof (durable_step_commits_once (sprint := noText) Some claimed (go "charge-card") charge (go "ship") (start true) r w eq_refl) as H.
  destruct H as [Hs _]; [intros w1 r1 w1' [= _ <-]; by exists true|split; [apply NoDup_nil_2|by intros n []%elem_of_nil]|exact E|].
  assert (Hc : step charge (start true) =
    (Err (DurableUncertain "FLOW.STEP_CONTINUE" (DurableCommand (ErrSentinel errEOF))),
     World (go "L+") 2 (go "ship") (Some (durableStepValueName (go "charge-card"), VString (go "receipt")))
       [durableStepValueName (go "charge-card")] true true)) by (vm_compute; reflexivity).
  rewrite E in Hc. injection Hc as -> ->. eexists _, _. split; [reflexivity|]. split; [reflexivity|]. split; [exact Hs|reflexivity].
Defined.

Example step_replayed :
  let next := FlowClaimOf flow (go "L+") 2 [] [] running (go "ship") VNil (Some []) in
  (stepWithDisposition Some Some noText next (go "charge-card") (give (Err (DurableUser (go "charged again")))) (go "ship")
     (step charge (start true)).2).1 = Ok (next, VString (go "receipt"), durableStepReplayed).
Proof. cbv zeta. by_vm. Qed.
End OneFlow.
