(* ===== verification/Workflow.v ===== *)
(** Workflows (src/workflow.go, src/workflow_durable_step.go, src/worker_panic.go): a handler
    works on a claimed flow, may move it in durable steps, and its outcome becomes one
    mutation made with the latest claim.

    A handler is the tree of what it does: what it reads and asks for, and how it goes on
    with each answer. *)

From S2P Require Import CompactResponse.
From S2P Require Export Durable.

(** ** Outcomes *)

Record TransitionResult := TransitionResultOf {
  to_ToState : gstr; to_Payload : val; to_RunAtMS : Z; to_Priority : option Z; to_StateMeta : valueMap; to_Named : NamedValues;
}.
Record CompleteResult := CompleteResultOf {
  cp_Result : val; cp_Payload : val; cp_TTLMS : option Z; cp_StateMeta : valueMap; cp_Named : NamedValues;
}.
Record RetryResult := RetryResultOf {
  ry_Error : val; ry_Payload : val; ry_RunAtMS : Z; ry_StateMeta : valueMap; ry_AttributesMerge : valueMap;
  ry_AttributesDelete : list gstr;
}.
Record FailResult := FailResultOf {
  fa_Error : val; fa_Payload : val; fa_TTLMS : option Z; fa_StateMeta : valueMap; fa_Named : NamedValues;
}.
Record AppliedOutcome := AppliedOf { ap_claim : FlowClaim; ap_applied : bool }.

Inductive outcomeValue :=
| OTransition (r : TransitionResult)
| OComplete (r : CompleteResult)
| ORetry (r : RetryResult)
| OFail (r : FailResult)
| OApplied (r : AppliedOutcome)
| OOther.                                   (* a type of the user's own *)

(** A nil interface, a value, or a pointer to one. *)
Inductive Outcome := OutcomeNil | OutcomeOf (v : outcomeValue) | OutcomePointer (p : option outcomeValue).

Definition errOutcome : durableError := DurableState "workflow handler returned nil or unknown outcome".

Definition workflowOutcomeValue (o : Outcome) : result durableError outcomeValue :=
  match o with
  | OutcomeOf v | OutcomePointer (Some v) => Ok v
  | OutcomeNil | OutcomePointer None => Err errOutcome
  end.

Record WorkflowStepResult := StepResultOf {
  ws_claim : FlowClaim; ws_result : val; ws_outcome : AppliedOutcome; ws_applied : bool;
}.

Definition newAppliedOutcome (claim : FlowClaim) : AppliedOutcome := AppliedOf claim true.

(** [WorkflowStepResult.OutcomeOr]. *)
Definition OutcomeOr (r : WorkflowStepResult) (replayed : Outcome) : Outcome :=
  if ws_applied r then OutcomeOf (OApplied (ws_outcome r)) else replayed.

(** ** The context of a handler *)

(** What all copies of a context share, and the state a copy was made for. *)
Record workflowContextState := ContextState { cs_job : FlowRecord; cs_uncertain : option durableError }.

Definition newWorkflowContextState (job : FlowRecord) : workflowContextState := ContextState job None.

Definition markUncertain (e : durableError) (s : workflowContextState) : workflowContextState :=
  if isUncertain e then ContextState (cs_job s) (match cs_uncertain s with None => Some e | u => u end) else s.

(** [WorkflowContext.State]. *)
Definition contextState (stateName : gstr) (job : FlowRecord) : gstr :=
  if given (rec_RunState job) then rec_RunState job else if given stateName then stateName else rec_State job.

(** [WorkflowContext.claim]. *)
Definition contextClaim (stateName : gstr) (job : FlowRecord) : FlowClaim :=
  let runState := if given (rec_RunState job) then rec_RunState job else stateName in
  let runState := if negb (given runState) && negb (bool_decide (rec_State job = running)) then rec_State job else runState in
  FlowClaimOf (rec_ID job) (rec_LeaseToken job) (rec_FencingToken job) (rec_PartitionKey job) (rec_Type job) (rec_State job)
    runState (rec_Payload job) (Some (rec_Attributes job)).

(** [WorkflowContext.adopt]. *)
Definition adopt (claim : FlowClaim) (job : FlowRecord) : FlowRecord :=
  FlowRecordOf (it_ID claim) (it_Type claim) (it_State claim) (it_PartitionKey claim) (it_Payload claim) (rec_Error job)
    (rec_FailureReason job) (rec_MaxActiveMS job) (it_LeaseToken claim) (it_FencingToken claim) (rec_Version job)
    (rec_ParentFlowID job) (rec_RootFlowID job) (rec_CorrelationID job) (it_RunState claim) (default [] (it_Attributes claim))
    (rec_StateMeta job) (rec_IndexedStateMeta job) (rec_Values job) (rec_ValueRefs job) (rec_ValueSizes job)
    (rec_ValueOmitted job) (rec_ValueMissing job) (rec_Raw job).

Definition adopted (claim : FlowClaim) (s : workflowContextState) : workflowContextState :=
  ContextState (adopt claim (cs_job s)) (cs_uncertain s).

(** [AppliedOutcome.validate]. *)
Definition validateApplied (o : AppliedOutcome) (job : FlowRecord) : result durableError unit :=
  let claim := ap_claim o in
  let! _ := whenOk (ap_applied o) "workflow handler returned an uninitialized applied outcome" in
  let! _ := whenOk (given (it_ID claim) && given (it_LeaseToken claim) && (0 <? it_FencingToken claim) &&
                    bool_decide (it_State claim = running) && given (it_RunState claim))
              "workflow handler returned an invalid applied outcome" in
  whenOk (bool_decide (it_ID claim = rec_ID job) && bool_decide (it_PartitionKey claim = rec_PartitionKey job) &&
          bool_decide (it_LeaseToken claim = rec_LeaseToken job) && (it_FencingToken claim =? rec_FencingToken job) &&
          bool_decide (it_State claim = rec_State job) && bool_decide (it_RunState claim = rec_RunState job))
    "workflow handler returned a stale applied outcome".

(** ** Policies of states *)

(** [isFIFOStatePolicy]; a state without a policy has the zero policy. *)
Definition isFIFOStatePolicy (policy : FlowStatePolicy) : bool :=
  match flowStateModeCommandToken (sy_Mode policy) with Ok mode => bool_decide (mode = FlowStateModeFIFO) | Err _ => false end.

Definition noStatePolicy : FlowStatePolicy := StatePolicyOf [] None.
Definition policyOf (policies : gmap gstr FlowStatePolicy) (state : gstr) : FlowStatePolicy := default noStatePolicy (policies !! state).

#[global] Instance RetryPolicy_eq_dec : EqDecision RetryPolicy.
Proof. solve_decision. Defined.

Definition equivalentFlowStatePolicy (left right : FlowStatePolicy) : bool :=
  match flowStateModeCommandToken (sy_Mode left), flowStateModeCommandToken (sy_Mode right) with
  | Ok l, Ok r => bool_decide (l = r)
  | _, _ => bool_decide (sy_Mode left = sy_Mode right)
  end && bool_decide (sy_Retry left = sy_Retry right).

(** The state policies [InstallPolicy] sends, and keeps when the server accepts them. *)
Definition mergePolicies (opt : PolicyOptions) (own : list (gstr * FlowStatePolicy))
  : result durableError (gmap gstr FlowStatePolicy) :=
  rfold (fun policies (entry : gstr * FlowStatePolicy) =>
    let '(state, policy) := entry in
    let! _ := whenOk (negb (assoc_has state (po_States opt))) "flow state appears in both States and workflow state policies" in
    let! _ := whenOk (match policies !! state with Some existing => equivalentFlowStatePolicy existing policy | None => true end)
                "flow state has conflicting PolicyOptions and workflow state policies" in
    Ok (<[state := policy]> policies)) (list_to_map (po_StatePolicies opt)) own.

(** A state with a FIFO policy needs a partition and takes no priority. *)
Definition checkFIFO (policies : gmap gstr FlowStatePolicy) (state partition : gstr) (priority : option Z) : result durableError unit :=
  if isFIFOStatePolicy (policyOf policies state) then
    let! _ := whenOk (given partition) "partition key is required for fifo state" in
    whenOk (bool_decide (priority = None)) "priority is not supported for fifo state"
  else Ok tt.

(** ** A workflow: its states, and what is wrong with its configuration *)

Section States.
Context {code : Type}.

Record Workflow := WorkflowOf {
  wk_Type : gstr; wk_InitialState : gstr;
  wk_handlers : gmap gstr code;
  wk_statePolicies : gmap gstr FlowStatePolicy;
  wk_configurationErr : option durableError;
}.

(** [WorkflowClient.Workflow]. *)
Definition newWorkflow (flowType initialState : gstr) : Workflow := WorkflowOf flowType initialState ∅ ∅ None.

Definition recordConfigurationError (e : durableError) (w : Workflow) : Workflow :=
  WorkflowOf (wk_Type w) (wk_InitialState w) (wk_handlers w) (wk_statePolicies w)
    (match wk_configurationErr w with None => Some e | e => e end).

(** [Workflow.State]; the policy is copied. *)
Definition State (name : gstr) (handler : option code) (policy : list FlowStatePolicy) (w : Workflow) : Workflow :=
  if negb (given (trim_space name)) then recordConfigurationError (DurableState "workflow state name must be a non-empty string") w
  else match handler with
  | None => recordConfigurationError (DurableState "workflow state requires a handler") w
  | Some handler =>
      if (1 <? length policy)%nat then recordConfigurationError (DurableState "workflow state accepts at most one state policy") w
      else match wk_handlers w !! name with
      | Some _ => recordConfigurationError (DurableState "duplicate workflow state") w
      | None =>
          WorkflowOf (wk_Type w) (wk_InitialState w) (<[name := handler]> (wk_handlers w))
            (match policy with p :: _ => <[name := p]> (wk_statePolicies w) | [] => wk_statePolicies w end)
            (wk_configurationErr w)
      end
  end.

(** The options [InstallPolicy] passes on, and the policies it keeps when they are accepted. *)
Definition installPolicy (w : Workflow) (opt : PolicyOptions) : result durableError (PolicyOptions * gmap gstr FlowStatePolicy) :=
  match wk_configurationErr w with
  | Some e => Err e
  | None =>
      let! policies := mergePolicies opt (map_to_list (wk_statePolicies w)) in
      Ok (PolicyOf (po_MaxActiveMS opt) (po_Retry opt) (po_States opt)
            (match po_Replace opt with None => Some true | r => r end) (po_ExpectedGeneration opt)
            (map_to_list policies) (po_IndexedAttributes opt) (po_IndexedStateMeta opt) (po_IndexedStateMetaSet opt), policies)
  end.

(** The options [Start] creates a flow with. *)
Definition startOptions (w : Workflow) (id : gstr) (payload : val) (opt : CreateOptions) : result durableError CreateOptions :=
  match wk_configurationErr w with
  | Some e => Err e
  | None =>
      let! _ := checkFIFO (wk_statePolicies w) (wk_InitialState w) (cr_PartitionKey opt) (cr_Priority opt) in
      Ok (CreateOf id (wk_Type w) (wk_InitialState w) payload (cr_PartitionKey opt) (cr_ParentFlowID opt) (cr_RootFlowID opt)
            (cr_CorrelationID opt) (cr_RunAtMS opt) (cr_NowMS opt) (cr_Priority opt) (cr_Idempotent opt) (cr_RetentionTTLMS opt)
            (cr_MaxActiveMS opt) (cr_Values opt) (cr_ValueRefs opt) (cr_Attributes opt) (cr_StateMeta opt))
  end.

(** The states [Workflow.Worker] works on. *)
Definition workerStates (w : Workflow) (states : list gstr) : list gstr :=
  match states with [] => sort_strings (map_to_list (wk_handlers w)).*1 | _ => states end.

(** A registration changes no handler and no policy of another one, and an error of the
    configuration is never forgotten. *)
Lemma State_keeps name handler policy w :
  wk_handlers w ⊆ wk_handlers (State name handler policy w) /\
  (wk_configurationErr (State name handler policy w) = None ->
   wk_configurationErr w = None /\ wk_handlers w !! name = None /\ wk_handlers (State name handler policy w) !! name = handler /\
   is_Some handler).
Proof.
  unfold State, recordConfigurationError. destruct (negb _); [by split; [|cbn; destruct (wk_configurationErr w)]|].
  destruct handler as [h|]; [|by split; [|cbn; destruct (wk_configurationErr w)]].
  destruct (1 <? _)%nat; [by split; [|cbn; destruct (wk_configurationErr w)]|].
  destruct (wk_handlers w !! name) eqn:E; cbn; [by split; [|cbn; destruct (wk_configurationErr w)]|].
  split; [by apply insert_subseteq|]. intros H. split_and!; [done..|by rewrite lookup_insert_eq|done].
Qed.
End States.

(** ** Handlers *)

Inductive handlerResult := Returned (o : Outcome) | Failed (e : durableError).

Section Handlers.
Context {W : Type} `{!Service W} (encode decode : val -> option val) (deterministic : bool) (sprint : val -> gstr).

(** User code: its result; what it reads of the context; a move; a step; or anything else
    it does with the world. *)
Inductive handler :=
| Finish (r : handlerResult)
| Read (k : FlowRecord -> handler)
| Move (toState : gstr) (k : result durableError AppliedOutcome -> handler)
| Durably (name : gstr) (run : call W val) (toState : gstr) (k : result durableError WorkflowStepResult -> handler)
| Otherwise (m : W -> val * W) (k : val -> handler).

(** [WorkflowContext.Advance]. *)
Definition contextAdvance (stateName toState : gstr) (s : workflowContextState) (w : W)
  : result durableError AppliedOutcome * workflowContextState * W :=
  match Advance decode sprint (contextClaim stateName (cs_job s)) toState w with
  | (Err e, w) => (Err e, markUncertain e s, w)
  | (Ok claim, w) => (Ok (newAppliedOutcome claim), adopted claim s, w)
  end.

Definition stepResult (claim : FlowClaim) (value : val) (d : durableStepDisposition) : WorkflowStepResult :=
  match d with
  | durableStepApplied => StepResultOf claim value (newAppliedOutcome claim) true
  | durableStepReplayed => StepResultOf claim value (AppliedOf (FlowClaimOf [] [] 0 [] [] [] [] VNil None) false) false
  end.

(** [WorkflowContext.Step]. *)
Definition contextStep (stateName name : gstr) (run : call W val) (toState : gstr) (s : workflowContextState) (w : W)
  : result durableError WorkflowStepResult * workflowContextState * W :=
  match stepWithDisposition encode decode sprint (contextClaim stateName (cs_job s)) name run toState w with
  | (Err e, w) => (Err e, markUncertain e s, w)
  | (Ok (claim, value, d), w) => (Ok (stepResult claim value d), adopted claim s, w)
  end.

(** [invokeWorkflowHandler]: a panic, of the handler or of a closure, is its error. *)
Fixpoint invokeWorkflowHandler (stateName : gstr) (h : handler) (s : workflowContextState) (w : W)
  : handlerResult * workflowContextState * W :=
  match h with
  | Finish r => (r, s, w)
  | Read k => invokeWorkflowHandler stateName (k (cs_job s)) s w
  | Move toState k =>
      let '(r, s, w) := contextAdvance stateName toState s w in invokeWorkflowHandler stateName (k r) s w
  | Durably name run toState k =>
      match contextStep stateName name run toState s w with
      | (Err (DurablePanic v), s, w) => (Failed (DurablePanic v), s, w)
      | (r, s, w) => invokeWorkflowHandler stateName (k r) s w
      end
  | Otherwise m k => let (v, w) := m w in invokeWorkflowHandler stateName (k v) s w
  end.

(** ** One job *)

Definition ErrorPolicyRetry : Z := 0.
Definition ErrorPolicyFail : Z := 1.
Definition ErrorPolicyReturn : Z := 2.

(** The message and the type of an error. *)
Context (errorText errorType : durableError -> gstr).

Definition errorPayload (e : durableError) : val :=
  VMap None [(go "message", VString (errorText e)); (go "type", VString (errorType e))].

(** A mutation whose record is not asked for. *)
Definition mutate (m : flowMutation) : call W unit := fun w =>
  (call! args := give (clientResult (mutationArgs encode deterministic (checkedAt w) (sentAt w) m)) in
   call! _ := typedReply args in give (Ok tt)) w.

(** What becomes of an error of user code. *)
Definition failJob (job : FlowRecord) (e : durableError) : flowMutation :=
  MFail (FailOf (rec_ID job) (rec_LeaseToken job) (rec_FencingToken job) (rec_PartitionKey job) (errorPayload e) VNil None 0 [] noNamedValues).

Definition retryJob (job : FlowRecord) (e : durableError) : flowMutation :=
  MRetry (RetryOf (rec_ID job) (rec_LeaseToken job) (rec_FencingToken job) (rec_PartitionKey job) (errorPayload e) VNil 0 0 [] [] []).

Context (policies : gmap gstr FlowStatePolicy).

(** The mutation an outcome asks for. *)
Definition outcomeMutation (job : FlowRecord) (o : outcomeValue) : result durableError flowMutation :=
  match o with
  | OTransition r =>
      let! _ := checkFIFO policies (to_ToState r) (rec_PartitionKey job) (to_Priority r) in
      Ok (MTransition (TransitionOf (rec_ID job) (rec_State job) (to_ToState r) (rec_LeaseToken job) (rec_FencingToken job)
            (rec_PartitionKey job) (to_Payload r) (to_RunAtMS r) 0 (to_Priority r) (to_StateMeta r) (to_Named r)))
  | OComplete r =>
      Ok (MComplete (CompleteOf (rec_ID job) (rec_LeaseToken job) (rec_FencingToken job) (rec_PartitionKey job) (cp_Result r)
            (cp_Payload r) (cp_TTLMS r) 0 (cp_StateMeta r) (cp_Named r)))
  | ORetry r =>
      Ok (MRetry (RetryOf (rec_ID job) (rec_LeaseToken job) (rec_FencingToken job) (rec_PartitionKey job) (ry_Error r)
            (ry_Payload r) (ry_RunAtMS r) 0 (ry_StateMeta r) (ry_AttributesMerge r) (ry_AttributesDelete r)))
  | OFail r =>
      Ok (MFail (FailOf (rec_ID job) (rec_LeaseToken job) (rec_FencingToken job) (rec_PartitionKey job) (fa_Error r)
            (fa_Payload r) (fa_TTLMS r) 0 (fa_StateMeta r) (fa_Named r)))
  | OApplied r =>
      let! _ := validateApplied r job in
      let claim := ap_claim r in
      Ok (MTransition (TransitionOf (it_ID claim) (it_State claim) (it_RunState claim) (it_LeaseToken claim)
            (it_FencingToken claim) (it_PartitionKey claim) VNil 0 0 None [] noNamedValues))
  | OOther => Err errOutcome
  end.

(** [WorkflowWorker.apply]. *)
Definition apply (job : FlowRecord) (stateName : gstr) (h : handler) (errorPolicy : Z) : call W unit := fun w =>
  let '(r, s, w) := invokeWorkflowHandler stateName h (newWorkflowContextState job) w in
  let job := cs_job s in
  match cs_uncertain s with
  | Some uncertain => (Err uncertain, w)
  | None =>
      match r with
      | Failed e =>
          if errorPolicy =? ErrorPolicyReturn then (Err e, w)
          else if errorPolicy =? ErrorPolicyFail then mutate (failJob job e) w
          else mutate (retryJob job e) w
      | Returned o =>
          (call! v := give (workflowOutcomeValue o) in
           call! m := give (outcomeMutation job v) in mutate m) w
      end
  end.
End Handlers.

(** ** What a worker sends for a job

    The commands of a job with their replies, in order. *)

Abbreviation exchange := (list arg * result goError compactValue)%type.
Definition logged (W : Type) : Type := W * list exchange.

#[global] Instance loggedService {W} `{!Service W} : Service (logged W) := {
  send args w := let (r, w1) := send args w.1 in (r, (w1, w.2 ++ [(args, r)]));
  checkedAt w := checkedAt w.1;
  sentAt w := sentAt w.1;
  cancelled w := cancelled w.1;
}.

(** What guards a mutation: the flow, and the lease and fencing token of a claim. *)
Definition guard : Type := gstr * gstr * Z.
Definition guardOf (c : FlowClaim) : guard := (it_ID c, it_LeaseToken c, it_FencingToken c).
Definition recordGuard (r : FlowRecord) : guard := (rec_ID r, rec_LeaseToken r, rec_FencingToken r).

Definition mutationGuard (m : flowMutation) : option guard :=
  match m with
  | MTransition o => Some (tr_ID o, tr_LeaseToken o, tr_FencingToken o)
  | MComplete o => Some (co_ID o, co_LeaseToken o, co_FencingToken o)
  | MRetry o => Some (rt_ID o, rt_LeaseToken o, rt_FencingToken o)
  | MFail o => Some (fl_ID o, fl_LeaseToken o, fl_FencingToken o)
  | _ => None
  end.

Section Guarded.
Context {W : Type} `{!Service W} (encode decode : val -> option val) (deterministic : bool) (sprint : val -> gstr).

(** A reply that leaves open whether the move was executed. *)
Definition unknownReply (job : FlowClaim) (toState : gstr) (r : result goError compactValue) : bool :=
  match r with
  | Ok v => match refreshedClaim decode job toState v with Ok _ => false | Err _ => true end
  | Err e => negb (durableMutationDefinitelyRejected sprint e)
  end.

(** [conversation g l g' u]: the exchanges [l] of a handler are guarded by the latest claim,
    at first [g] and in the end [g']; [u] tells whether the outcome of a move among them is
    unknown. *)
Inductive conversation : guard -> list exchange -> guard -> bool -> Prop :=
| conv_nil g : conversation g [] g false
| conv_extend g l g' u checked sent job ms args r : guardOf job = g ->
    extendLeaseArgs checked sent (it_ID job) (it_LeaseToken job) (it_FencingToken job) ms (it_PartitionKey job) = Ok args ->
    conversation g l g' u -> conversation g ((args, r) :: l) g' u
| conv_read g l g' u ref r : conversation g l g' u -> conversation g (([tok "FLOW.VALUE.MGET"; txt ref], r) :: l) g' u
| conv_moved g l g' u now job toState commit v c : guardOf job = g -> refreshedClaim decode job toState v = Ok c ->
    conversation (guardOf c) l g' u -> conversation g ((continueArgs now job toState commit, Ok v) :: l) g' u
| conv_refused g l g' u now job toState commit e : guardOf job = g -> durableMutationDefinitelyRejected sprint e = true ->
    conversation g l g' u -> conversation g ((continueArgs now job toState commit, Err e) :: l) g' u
| conv_unknown g l g' u now job toState commit r : guardOf job = g -> unknownReply job toState r = true ->
    conversation g l g' u -> conversation g ((continueArgs now job toState commit, r) :: l) g' true.

Lemma conversation_app g l g1 u1 k g2 u2 : conversation g l g1 u1 -> conversation g1 k g2 u2 ->
  conversation g (l ++ k) g2 (u1 || u2).
Proof. induction 1; intros Hk; cbn; [done|..]; try (econstructor; by eauto). Qed.

(** A call adds a conversation to the log. *)
Definition talks (g : guard) (w w' : logged W) (g' : guard) (u : bool) : Prop :=
  exists l, w'.2 = w.2 ++ l /\ conversation g l g' u.

Lemma talks_none g w : talks g w w g false.
Proof. exists []. split; [by rewrite app_nil_r|constructor]. Qed.

Lemma talks_same g w w' : w'.2 = w.2 -> talks g w w' g false.
Proof. intros H. exists []. split; [by rewrite app_nil_r|constructor]. Qed.

Lemma talks_app g w w1 g1 u1 w2 g2 u2 : talks g w w1 g1 u1 -> talks g1 w1 w2 g2 u2 -> talks g w w2 g2 (u1 || u2).
Proof.
  intros (l & Hl & Hc) (k & Hk & Hd). exists (l ++ k). split; [by rewrite Hk, Hl, app_assoc|by eapply conversation_app].
Qed.

Lemma refreshedClaim_guard job toState v c : refreshedClaim decode job toState v = Ok c ->
  it_ID c = it_ID job /\ it_FencingToken job < it_FencingToken c.
Proof.
  unfold refreshedClaim, validateAdvancedClaim, whenOk. intros H. apply rbind_ok in H as (c0 & _ & H).
  apply rbind_ok in H as (? & H & [= <-]). unfold uncertainReply in H. destruct (let! _ := _ in _) eqn:E in H; [|done].
  inv_result. z_tests. by subst.
Qed.

Lemma advance_talks job toState commit w r w' :
  advanceClaim (W := logged W) decode sprint job toState commit w = (r, w') ->
  match r with
  | Ok c => talks (guardOf job) w w' (guardOf c) false
  | Err e => exists u, talks (guardOf job) w w' (guardOf job) u /\ (u = true -> isUncertain e = true)
  end.
Proof.
  unfold advanceClaim, andThen, give.
  destruct (validateDurableClaim job) as [[]|e1]; [|intros [= <- <-]; exists false; by split; [apply talks_none|]].
  destruct (validateContinue _ job toState) as [[]|e2]; [|intros [= <- <-]; exists false; by split; [apply talks_none|]].
  cbn [send loggedService]. destruct (send _ w.1) as [reply w1].
  destruct reply as [v|e]; intros [= <- <-].
  - destruct (refreshedClaim _ _ _ v) as [c|e] eqn:Hc.
    + eexists. split; [reflexivity|]. eapply conv_moved; [done..|constructor].
    + exists true. split; [|intros _; by eapply refreshedClaim_err]. eexists. split; [reflexivity|]. eapply conv_unknown; [done|by cbn; rewrite Hc|constructor].
  - unfold durableMutationCommandError. destruct (durableMutationDefinitelyRejected sprint e) eqn:Hr.
    + exists false. split; [|done]. eexists. split; [reflexivity|]. eapply conv_refused; [done..|constructor].
    + exists true. split; [|done]. eexists. split; [reflexivity|]. eapply conv_unknown; [done|by cbn; rewrite Hr|constructor].
Qed.

Lemma extend_talks job ms w r w' : extendLease (W := logged W) decode job ms w = (r, w') -> talks (guardOf job) w w' (guardOf job) false.
Proof.
  unfold extendLease, andThen, give, typedReply.
  destruct (extendLeaseArgs _ _ _ _ _ _ _) as [args|e] eqn:Ha; cbn [clientResult]; [|intros [= _ <-]; apply talks_none].
  cbn [send loggedService]. destruct (send args w.1) as [reply w1].
  intros H. assert (w' = (w1, w.2 ++ [(args, reply)])) as -> by (by destruct reply; injection H as _ <-).
  exists [(args, reply)]. split; [done|]. eapply conv_extend; [done|exact Ha|constructor].
Qed.

(** User code that sends no command of its own. *)
Definition silent {A} (m : logged W -> A * logged W) : Prop := forall w, (m w).2.2 = w.2.

Lemma step_talks job name run toState w r w' : silent run ->
  stepWithDisposition (W := logged W) encode decode sprint job name run toState w = (r, w') ->
  match r with
  | Ok (c, _, _) => talks (guardOf job) w w' (guardOf c) false
  | Err e => exists u, talks (guardOf job) w w' (guardOf job) u /\ (u = true -> isUncertain e = true)
  end.
Proof.
  intros Hsilent. unfold stepWithDisposition, andThen, give.
  assert (Hq : forall e w1, talks (guardOf job) w w1 (guardOf job) false ->
    exists u, talks (guardOf job) w w1 (guardOf job) u /\ (u = true -> isUncertain e = true)) by (intros e w1 H; by exists false).
  destruct (validateDurableStep _ job name toState) as [[]|e0]; [|intros [= <- <-]; apply Hq, talks_none].
  destruct (extendLease _ _ _ w) as [record w1] eqn:E2. apply extend_talks in E2.
  destruct record as [record|e1]; [|intros [= <- <-]; by apply Hq].
  destruct (validateDurableStepPreflight job record) as [validated|e2] eqn:E3; [|intros [= <- <-]; by apply Hq].
  destruct (assoc_get _ (rec_ValueRefs validated)) as [ref|].
  - destruct (whenOk _ _) as [[]|e3]; [|intros [= <- <-]; by apply Hq].
    destruct (durableStepResultRef ref) as [ref'|e4]; [|intros [= <- <-]; by apply Hq].
    unfold durableStepStoredResult, typedReply, andThen, give. cbn [send loggedService].
    destruct (send [tok "FLOW.VALUE.MGET"; txt ref'] w1.1) as [reply w2].
    assert (Hread : talks (guardOf job) w (w2, w1.2 ++ [([tok "FLOW.VALUE.MGET"; txt ref'], reply)]) (guardOf job) false).
    { apply (talks_app _ _ _ _ false _ _ false E2). eexists. split; [reflexivity|]. apply conv_read. constructor. }
    destruct reply as [reply|e5]; [|intros [= <- <-]; by apply Hq].
    destruct (storedResult decode reply) as [value|e6]; [|intros [= <- <-]; by apply Hq].
    intros [= <- <-]. replace (guardOf (claimedItemFromRecord validated job)) with (guardOf job); [done|].
    unfold validateDurableStepPreflight, whenOk in E3. destruct record; [|done]. inv_result. z_tests. subst.
    unfold guardOf, claimedItemFromRecord, mergeClaimProjection. cbn. congruence.
  - unfold notCancelled. destruct (cancelled w1) as [e3|]; [intros [= <- <-]; by apply Hq|].
    pose proof (Hsilent w1) as Hrun. destruct (run w1) as [value w2]. cbn in Hrun.
    assert (Hw2 : talks (guardOf job) w w2 (guardOf job) false)
      by (apply (talks_app _ _ _ _ false _ _ false E2), talks_same, Hrun).
    destruct value as [value|e4]; [|intros [= <- <-]; by apply Hq].
    destruct (encodedResult encode decode value) as [stored|e5]; [|intros [= <- <-]; by apply Hq].
    destruct (advanceClaim _ _ _ _ _ w2) as [refreshed w3] eqn:E6. apply advance_talks in E6.
    destruct refreshed as [c|e]; intros [= <- <-]; [by apply (talks_app _ _ _ _ false _ _ false Hw2)|].
    destruct E6 as (u & Hu & Hun). exists u. split; [by apply (talks_app _ _ _ _ false _ _ u Hw2)|done].
Qed.

(** A handler that sends commands through its context only. *)
Fixpoint quiet (h : handler (W := logged W)) : Prop :=
  match h with
  | Finish _ => True
  | Read k => forall j, quiet (k j)
  | Move _ k => forall r, quiet (k r)
  | Durably _ run _ k => silent run /\ forall r, quiet (k r)
  | Otherwise m k => silent m /\ forall v, quiet (k v)
  end.

Lemma contextClaim_guard stateName job : guardOf (contextClaim stateName job) = recordGuard job.
Proof. done. Qed.

Lemma markUncertain_job e s : cs_job (markUncertain e s) = cs_job s.
Proof. unfold markUncertain. by destruct (isUncertain e). Qed.

Lemma markUncertain_some e s : cs_uncertain s <> None \/ isUncertain e = true -> cs_uncertain (markUncertain e s) <> None.
Proof. unfold markUncertain. destruct (isUncertain e), (cs_uncertain s); cbn; by intros [|]. Qed.

Lemma markUncertain_kept e s e' : cs_uncertain (markUncertain e s) = Some e' -> cs_uncertain s = Some e' \/ isUncertain e' = true.
Proof. unfold markUncertain. destruct (isUncertain e) eqn:E, (cs_uncertain s); cbn; auto. intros [= <-]. by right. Qed.

(** What is known of a context behind its exchanges. *)
Definition heard (s s' : workflowContextState) (w w' : logged W) : Prop :=
  exists u, talks (recordGuard (cs_job s)) w w' (recordGuard (cs_job s')) u /\
    (u = true -> cs_uncertain s' <> None) /\ (cs_uncertain s <> None -> cs_uncertain s' <> None) /\
    (forall e, cs_uncertain s' = Some e -> cs_uncertain s = Some e \/ isUncertain e = true).

Lemma heard_refl s w w' : w'.2 = w.2 -> heard s s w w'.
Proof. intros H. exists false. split_and!; [by apply talks_same|done|done|by left]. Qed.

Lemma heard_trans s s1 s2 w w1 w2 : heard s s1 w w1 -> heard s1 s2 w1 w2 -> heard s s2 w w2.
Proof.
  intros (u1 & H1 & Hu1 & Hs1 & He1) (u2 & H2 & Hu2 & Hs2 & He2). exists (u1 || u2). split_and!; [by eapply talks_app| |by auto|].
  - intros [->| ->]%orb_true_iff; by auto.
  - intros e [He|He]%He2; auto.
Qed.

(** An answer of a context: a claim it adopts, or an error it keeps when uncertain. *)
Lemma heard_answer s w w' (r : result durableError FlowClaim) stateName :
  match r with
  | Ok c => talks (guardOf (contextClaim stateName (cs_job s))) w w' (guardOf c) false
  | Err e => exists u, talks (guardOf (contextClaim stateName (cs_job s))) w w' (guardOf (contextClaim stateName (cs_job s))) u /\
      (u = true -> isUncertain e = true)
  end -> heard s (match r with Ok c => adopted c s | Err e => markUncertain e s end) w w'.
Proof.
  rewrite contextClaim_guard. destruct r as [c|e].
  - intros H. exists false. split_and!; [done|done|done|by left].
  - intros (u & H & Hu). exists u. rewrite markUncertain_job. split; [done|].
    split_and!; [intros Hx; apply markUncertain_some; by auto..|apply markUncertain_kept].
Qed.

Lemma invoke_heard stateName h : quiet h -> forall s w r s' w',
  invokeWorkflowHandler encode decode sprint stateName h s w = (r, s', w') -> heard s s' w w'.
Proof.
  induction h as [r|k IH|toState k IH|name run toState k IH|m k IH]; intros Hq s w r' s' w' H; cbn in H, Hq.
  - injection H as <- <- <-. by apply heard_refl.
  - eapply IH; [apply Hq|exact H].
  - unfold contextAdvance, Advance in H. destruct (advanceClaim _ _ _ _ _ w) as [a w1] eqn:E. apply advance_talks in E.
    apply heard_answer in E. destruct a as [c|e]; (eapply heard_trans; [exact E|]); eapply IH; by eauto.
  - destruct Hq as [Hs Hq]. unfold contextStep in H. destruct (stepWithDisposition _ _ _ _ _ _ _ w) as [a w1] eqn:E.
    apply step_talks in E; [|done].
    assert (Hh : heard s (match a with Ok (c, _, _) => adopted c s | Err e => markUncertain e s end) w w1)
      by (destruct a as [[[c v] d]|e]; [apply (heard_answer _ _ _ (Ok c) _ E)|apply (heard_answer _ _ _ (Err e) _ E)]).
    destruct a as [[[c v] d]|e]; [eapply heard_trans; [exact Hh|]; eapply IH; by eauto|].
    destruct e; try (eapply heard_trans; [exact Hh|]; eapply IH; by eauto). by injection H as <- <- <-.
  - destruct Hq as [Hs Hq]. pose proof (Hs w) as Hw. destruct (m w) as [v w1]. cbn in Hw.
    eapply heard_trans; [by apply heard_refl|]. eapply IH; by eauto.
Qed.

Context (errorText errorType : durableError -> gstr) (policies : gmap gstr FlowStatePolicy).

Lemma outcomeMutation_guard job o m : outcomeMutation policies job o = Ok m -> mutationGuard m = Some (recordGuard job).
Proof.
  destruct o as [r|r|r|r|r|]; cbn; try (by intros [= <-]).
  - intros H. apply rbind_ok in H as (? & _ & [= <-]). done.
  - intros H. apply rbind_ok in H as (? & Hv & [= <-]). unfold validateApplied, whenOk in Hv. inv_result. z_tests.
    cbn. unfold recordGuard. by repeat f_equal.
Qed.

(** The mutation of a job, if any. *)
Inductive ending : guard -> list exchange -> Prop :=
| end_nothing g : ending g []
| end_mutation g checked sent m args r : mutationGuard m = Some g ->
    mutationArgs encode deterministic checked sent m = Ok args -> ending g [(args, r)].

Lemma mutate_ends g m w r w' : mutationGuard m = Some g -> mutate (W := logged W) encode deterministic m w = (r, w') ->
  exists l, w'.2 = w.2 ++ l /\ ending g l.
Proof.
  intros Hg. unfold mutate, andThen, give, typedReply.
  destruct (mutationArgs _ _ _ _ m) as [args|e] eqn:Ha; cbn [clientResult];
    [|intros [= _ <-]; exists []; split; [by rewrite app_nil_r|constructor]].
  cbn [send loggedService]. destruct (send args w.1) as [reply w1]. intros H.
  assert (w' = (w1, w.2 ++ [(args, reply)])) as -> by (by destruct reply; injection H as _ <-).
  exists [(args, reply)]. split; [done|]. by eapply end_mutation.
Qed.

(** C15: All a worker sends for a job is guarded by the latest claim on its flow: the exchanges of
    the handler's durable steps, each with the claim the one before returned, and then at
    most one mutation, with the claim the last of them returned. If the outcome of one of
    them is unknown, the claim stays the one known before; the handler may go on, and what
    its steps send then is guarded by that claim, but the worker sends no mutation behind
    them and reports that the outcome is uncertain. *)
Theorem workflow_guarded_by_latest_claim job stateName h errorPolicy w r w' :
  quiet h -> apply encode decode deterministic sprint errorText errorType policies job stateName h errorPolicy w = (r, w') ->
  exists steps final g u, w'.2 = w.2 ++ steps ++ final /\
    conversation (recordGuard job) steps g u /\ ending g final /\
    (u = true -> final = [] /\ exists e, r = Err e /\ isUncertain e = true).
Proof.
  intros Hq. unfold apply. destruct (invokeWorkflowHandler _ _ _ _ h _ w) as [[res s] w1] eqn:E.
  apply invoke_heard in E as (u & (steps & Hl & Hc) & Hu & _ & Hkept); [|done]. cbn in Hc, Hkept.
  destruct (cs_uncertain s) as [e|].
  - destruct (Hkept e eq_refl) as [|Hun]; [done|]. intros [= <- <-]. exists steps, [], (recordGuard (cs_job s)), u. rewrite app_nil_r. split_and!; [done..|constructor|by eauto].
  - assert (u = false) as -> by (destruct u; [by destruct Hu|done]). clear Hu. intros H.
    enough (exists final, w'.2 = w1.2 ++ final /\ ending (recordGuard (cs_job s)) final) as (final & Hf & He).
    { exists steps, final, (recordGuard (cs_job s)), false. rewrite Hf, Hl, app_assoc. done. }
    assert (Hnone : exists final, w1.2 = w1.2 ++ final /\ ending (recordGuard (cs_job s)) final)
      by (exists []; split; [by rewrite app_nil_r|constructor]).
    destruct res as [o|e].
    + unfold andThen, give in H. destruct (workflowOutcomeValue o) as [v|e]; [|by injection H as _ <-].
      destruct (outcomeMutation policies (cs_job s) v) as [m|e] eqn:Em; [|by injection H as _ <-].
      eapply mutate_ends; [by eapply outcomeMutation_guard|exact H].
    + destruct (errorPolicy =? ErrorPolicyReturn); [by injection H as _ <-|].
      destruct (errorPolicy =? ErrorPolicyFail); by eapply mutate_ends in H.
Qed.
End Guarded.

(** ** A workflow on the server of one flow *)

Definition sampleJob : FlowRecord :=
  FlowRecordOf OneFlow.flow (go "order") running [] VNil VNil [] 0 (go "L") 1 0 [] [] [] (go "charge") [] [] [] [] [] [] [] [] [].

(** Moves the flow, and completes it. *)
Definition sampleHandler {W} : handler (W := W) :=
  Move (go "ship") (fun r =>
    match r with
    | Ok _ => Finish (Returned (OutcomeOf (OComplete (CompleteResultOf (VString (go "done")) VNil None [] noNamedValues))))
    | Err e => Finish (Failed e)
    end).

Definition sampleApply (loses : bool) : result durableError unit * logged OneFlow.world :=
  apply (W := logged OneFlow.world) Some Some false OneFlow.noText (fun _ => []) (fun _ => []) ∅ sampleJob (go "charge")
    sampleHandler ErrorPolicyRetry (OneFlow.start loses, []).

(** The flow is moved with the claim of the job and completed with the one the move gave. *)
Example sample_guards :
  (fun e => firstn 3 e.1) <$> (sampleApply false).2.2 =
  [[tok "FLOW.STEP_CONTINUE"; txt OneFlow.flow; txt (go "L")]; [tok "FLOW.COMPLETE"; txt OneFlow.flow; txt (go "L+")]].
Proof. by_vm. Qed.

Lemma workflow_guarded_by_latest_claim_witness :
  exists r w', sampleApply true = (r, w') /\ length w'.2 = 1%nat /\
    exists steps final g u, w'.2 = steps ++ final /\
      conversation Some OneFlow.noText (recordGuard sampleJob) steps g u /\ ending Some false g final /\
      (u = true -> final = [] /\ exists e, r = Err e /\ isUncertain e = true).
Proof.
  destruct (sampleApply true) as [r w'] eqn:E. eexists _, _. split; [reflexivity|]. split.
  - replace w' with (sampleApply true).2 by (by rewrite E). vm_compute. reflexivity.
  - eapply (workflow_guarded_by_latest_claim Some Some false OneFlow.noText (fun _ => []) (fun _ => []) ∅ sampleJob
      (go "charge") sampleHandler ErrorPolicyRetry (OneFlow.start true, []) r w'); [|exact E].
    cbn. intros [a|e]; exact I.
Defined.
