(* ===== verification/Queue.v ===== *)
(** Queue workers (src/queue.go): a worker claims jobs, runs a bounded number of handlers at
    once, settles each job by its error policy, and completes the successful ones in
    batches that a timer closes.

    Handlers and the collector of batches share a channel and counters behind a mutex; each
    step below is one use of them. *)

From S2P Require Import CompactResponse.
From S2P Require Export Workflow.

(** ** Options *)

Record WorkerOptions := WorkerOf {
  wo_State : gstr;
  wo_States : list gstr;
  wo_PartitionKey : gstr;
  wo_PartitionKeys : list gstr;
  wo_BatchSize : Z;
  wo_LeaseMS : Z;
  wo_NowMS : Z;
  wo_Concurrency : Z;
  wo_ReclaimExpired : option bool;
  wo_ReclaimRatio : option Z;
  wo_ClaimPayload : bool;
  wo_ErrorPolicy : Z;
}.

(** The short form of [firstDuplicateString] compares with all before; the long one keeps a set. *)
Fixpoint duplicateBySet (seen : gset gstr) (values : list gstr) : option gstr :=
  match values with
  | [] => None
  | v :: values => if bool_decide (v ∈ seen) then Some v else duplicateBySet ({[ v ]} ∪ seen) values
  end.

Fixpoint duplicateByScan (before values : list gstr) : option gstr :=
  match values with
  | [] => None
  | v :: values => if existsb (fun u => bool_decide (u = v)) before then Some v else duplicateByScan (before ++ [v]) values
  end.

Definition linearScanLimit : Z := 16.

Definition firstDuplicateString (values : list gstr) : option gstr :=
  if linearScanLimit <? blen values then duplicateBySet ∅ values else duplicateByScan [] values.

Definition validateWorkerOptions (opts : WorkerOptions) : result durableError unit :=
  let! _ := whenOk (0 <=? wo_BatchSize opts) "queue worker batch size must be non-negative" in
  let! _ := whenOk (0 <=? wo_Concurrency opts) "queue worker concurrency must be non-negative" in
  let! _ := whenOk (0 <=? wo_LeaseMS opts) "queue worker lease must be non-negative" in
  let! _ := whenOk ((ErrorPolicyRetry <=? wo_ErrorPolicy opts) && (wo_ErrorPolicy opts <=? ErrorPolicyReturn))
              "queue worker error policy is invalid" in
  let! _ := whenOk (bool_decide (firstDuplicateString (wo_States opts) = None)) "queue worker state is duplicated" in
  whenOk (bool_decide (firstDuplicateString (wo_PartitionKeys opts) = None)) "queue worker partition key is duplicated".

(** The defaults of [RunOnce]. *)
Definition batchSize (opts : WorkerOptions) : Z := orElseInt (wo_BatchSize opts) 10.
Definition concurrency (opts : WorkerOptions) : Z := orElseInt (wo_Concurrency opts) 1.

(** The claim of [RunOnce], for the states given. *)
Definition workerClaim (flowType worker state : gstr) (states : list gstr) (opts : WorkerOptions) : ClaimDueOptions :=
  ClaimDueOf flowType state states worker (wo_PartitionKey opts) (wo_PartitionKeys opts) (wo_LeaseMS opts) (batchSize opts)
    None (wo_NowMS opts) None (wo_ReclaimExpired opts) (wo_ReclaimRatio opts) false
    (if wo_ClaimPayload opts then Some true else None) None [] false None.

(** ** One job *)

(** How a job ends: completed later, settled by a mutation, or with an error. *)
Inductive jobOutcome :=
| JobSucceeded
| JobFailed
| JobRetried
| JobError (e : durableError).

Section Jobs.
Context {W : Type} `{!Service W} (encode : val -> option val) (deterministic : bool)
  (errorText errorType : durableError -> gstr).

Definition settled (r : result durableError unit * W) (done : jobOutcome) : jobOutcome * W :=
  match r with (Ok _, w) => (done, w) | (Err e, w) => (JobError e, w) end.

(** The closure [run] of [QueueWorker.RunOnce]; a panic of the handler is its error. *)
Definition runJob (handler : FlowRecord -> W -> option durableError * W) (errorPolicy : Z) (job : FlowRecord) (w : W)
  : jobOutcome * W :=
  match handler job w with
  | (None, w) => (JobSucceeded, w)
  | (Some e, w) =>
      if errorPolicy =? ErrorPolicyReturn then (JobError e, w)
      else if errorPolicy =? ErrorPolicyFail then
        settled (mutate encode deterministic (failJob errorText errorType job e) w) JobFailed
      else settled (mutate encode deterministic (retryJob errorText errorType job e) w) JobRetried
  end.

(** What the worker keeps of a successful job. *)
Definition claimedRef (job : FlowRecord) : ClaimedItemRef :=
  ClaimedOf (rec_ID job) (rec_LeaseToken job) (rec_FencingToken job) (rec_PartitionKey job).

(** [completeSuccessfulJobs]: [recordsOrNil] reads the answer of a batch. *)
Definition completeSuccessfulJobs (decode : val -> option val) (jobs : list ClaimedItemRef) : call W unit := fun w =>
  match jobs with
  | [] => (Ok tt, w)
  | [job] =>
      mutate encode deterministic (MComplete (CompleteOf (cl_ID job) (cl_LeaseToken job) (cl_FencingToken job)
        (cl_PartitionKey job) VNil VNil None 0 [] noNamedValues)) w
  | _ =>
      (call! args := give (clientResult (completeManyArgs encode deterministic (checkedAt w) (sentAt w)
         (CompleteManyOf [] jobs VNil VNil None 0 None [] noNamedValues))) in
       call! reply := typedReply args in
       call! _ := give (recordResult (recordsOrNil decode reply (blen jobs))) in give (Ok tt)) w
  end.
End Jobs.

(** ** The worker at work *)

Section Worker.
Context {J E : Type}.

(** What [RunOnce] is doing with the successes: waiting for the first of a batch, collecting
    one, completing it, or finished. *)
Inductive workerPhase := First | Collecting (b : list J) | Completing (b : list J) (open : bool) | Finished.

(** [waiting] and [running] are the jobs no handler and a handler has; [ended] those whose
    handler has returned, with what became of them; [batches] those completed, with the error. *)
Record worker := Worker {
  waiting : list J;
  running : list J;
  ended : list (J * option (option E));     (* succeeded; or settled, perhaps with an error *)
  channel : list J;
  closed : bool;
  at_ : workerPhase;
  batches : list (list J * option E);
}.

Definition startWorker (jobs : list J) : worker := Worker jobs [] [] [] false First [].

(** How many handlers [runConcurrent] lets run at once, and the size of a batch. *)
Context (limit maxSize : Z).

Inductive worker_step : worker -> worker -> Prop :=
| step_start j ws rs es ch ph bs : blen rs < limit ->
    worker_step (Worker (j :: ws) rs es ch false ph bs) (Worker ws (rs ++ [j]) es ch false ph bs)
| step_succeed j ws rs rs' es ch ph bs :
    worker_step (Worker ws (rs ++ j :: rs') es ch false ph bs)
      (Worker ws (rs ++ rs') (es ++ [(j, None)]) (ch ++ [j]) false ph bs)
| step_settle j e ws rs rs' es ch ph bs :
    worker_step (Worker ws (rs ++ j :: rs') es ch false ph bs)
      (Worker ws (rs ++ rs') (es ++ [(j, Some e)]) ch false ph bs)
| step_close es ch ph bs : worker_step (Worker [] [] es ch false ph bs) (Worker [] [] es ch true ph bs)
| step_first j ws rs es ch c bs :
    worker_step (Worker ws rs es (j :: ch) c First bs)
      (Worker ws rs es ch c (if maxSize <=? 1 then Completing [j] true else Collecting [j]) bs)
| step_none ws rs es bs : worker_step (Worker ws rs es [] true First bs) (Worker ws rs es [] true Finished bs)
| step_more j b ws rs es ch c bs : blen b < maxSize ->
    worker_step (Worker ws rs es (j :: ch) c (Collecting b) bs) (Worker ws rs es ch c (Collecting (b ++ [j])) bs)
| step_full b ws rs es ch c bs : maxSize <= blen b ->
    worker_step (Worker ws rs es ch c (Collecting b) bs) (Worker ws rs es ch c (Completing b true) bs)
| step_timer b ws rs es ch c bs : blen b < maxSize ->
    worker_step (Worker ws rs es ch c (Collecting b) bs) (Worker ws rs es ch c (Completing b true) bs)
| step_drained b ws rs es bs : blen b < maxSize ->
    worker_step (Worker ws rs es [] true (Collecting b) bs) (Worker ws rs es [] true (Completing b false) bs)
| step_complete b open e ws rs es ch c bs :
    worker_step (Worker ws rs es ch c (Completing b open) bs)
      (Worker ws rs es ch c (if open then First else Finished) (bs ++ [(b, e)])).

(** ** Its result *)

Definition successes (w : worker) : list J := omap (fun e => match e.2 with None => Some e.1 | Some _ => None end) (ended w).
Definition firstErr (w : worker) : option E := head (omap (fun e => mjoin e.2) (ended w)).
Definition completionErrors (w : worker) : list E := omap snd (batches w).
Definition completed (w : worker) : list J := concat (omap (fun b => match b.2 with None => Some b.1 | Some _ => None end) (batches w)).
Definition inPhase (p : workerPhase) : list J := match p with Collecting b | Completing b _ => b | _ => [] end.

Record worker_inv (jobs : list J) (w : worker) : Prop := {
  inv_jobs : (ended w).*1 ++ running w ++ waiting w ≡ₚ jobs;
  inv_successes : concat (batches w).*1 ++ inPhase (at_ w) ++ channel w = successes w;
  inv_running : blen (running w) <= Z.max 0 limit;
  inv_batches : Forall (fun b => 1 <= blen b.1 <= Z.max 1 maxSize) (batches w);
  inv_phase : match at_ w with
              | Collecting b => 1 <= blen b <= maxSize /\ 1 < maxSize
              | Completing b open => 1 <= blen b <= Z.max 1 maxSize /\ (open = false -> closed w = true /\ channel w = [])
              | Finished => closed w = true /\ channel w = []
              | First => True
              end;
  inv_closed : closed w = true -> waiting w = [] /\ running w = [];
}.

Lemma start_inv jobs : worker_inv jobs (startWorker jobs).
Proof. split; try done. cbn [running startWorker]. rewrite blen_nil. lia. Qed.

Lemma successes_app (es : list (J * option (option E))) j o :
  omap (fun e => match e.2 with None => Some e.1 | Some _ => None end) (es ++ [(j, o)]) =
  omap (fun e => match e.2 with None => Some e.1 | Some _ => None end) es ++ (match o with None => [j] | Some _ => [] end).
Proof. rewrite omap_app. by destruct o. Qed.

Lemma moved_perm (es rs rs' ws : list J) j jobs : es ++ (rs ++ j :: rs') ++ ws ≡ₚ jobs -> (es ++ [j]) ++ (rs ++ rs') ++ ws ≡ₚ jobs.
Proof. intros <-. rewrite <- !app_assoc. apply Permutation_app_head. cbn. by rewrite Permutation_middle. Qed.

Lemma worker_step_inv jobs w w' : worker_step w w' -> worker_inv jobs w -> worker_inv jobs w'.
Proof.
  intros H [Hj Hs Hr Hb Hp Hc]. destruct H; cbn in *; unfold successes in *; cbn in *.
  all: split; cbn; unfold successes; cbn; rewrite ?fmap_app, ?successes_app, ?concat_app, ?blen_app, ?blen_cons, ?blen_nil; try done.
  - rewrite <- app_assoc. exact Hj.
  - lia.
  - by apply moved_perm.
  - rewrite !app_assoc. rewrite !app_assoc in Hs. by rewrite Hs.
  - rewrite blen_app, blen_cons in Hr. lia.
  - destruct ph as [| |b open|]; try done; [|by destruct Hp]. destruct Hp as [? Hp]. split; [done|]. intros ->. by destruct (Hp eq_refl).
  - by apply moved_perm.
  - by rewrite app_nil_r.
  - rewrite blen_app, blen_cons in Hr. lia.
  - destruct ph as [| |b open|]; try done; destruct Hp as [? Hp]; split; try done. intros ->. by destruct (Hp eq_refl).
  - by destruct (maxSize <=? 1).
  - destruct (Z.leb_spec maxSize 1); cbn; rewrite blen_cons, blen_nil; split; try done; lia.
  - by rewrite <- app_assoc.
  - lia.
  - split; [lia|done].
  - split; [lia|done].
  - split; [lia|done].
  - cbn. rewrite app_nil_r, <- app_assoc. by destruct open.
  - apply Forall_app. split; [done|]. repeat constructor; cbn; lia.
  - destruct open; [done|]. by destruct Hp as [_ Hp], (Hp eq_refl).
Qed.

Lemma worker_reachable_inv jobs w : rtc worker_step (startWorker jobs) w -> worker_inv jobs w.
Proof. intros H. apply (rtc_ind_r (worker_inv jobs) (startWorker jobs)) in H; eauto using start_inv, worker_step_inv. Qed.

(** ** Jobs that went wrong *)

Definition wrong (w : worker) : list E := omap (fun e => mjoin e.2) (ended w) ++ completionErrors w.
Definition settledJobs (w : worker) : list J := omap (fun e => match e.2 with Some None => Some e.1 | _ => None end) (ended w).

Lemma ended_split (es : list (J * option (option E))) :
  blen es = blen (omap (fun e => match e.2 with None => Some e.1 | Some _ => None end) es) +
            blen (omap (fun e => match e.2 with Some None => Some e.1 | _ => None end) es) + blen (omap (fun e => mjoin e.2) es).
Proof. unfold blen in *. induction es as [|[j [[e|]|]] es IH]; cbn in *; lia. Qed.

Lemma batches_split (bs : list (list J * option E)) :
  blen (concat bs.*1) = blen (concat (omap (fun b => match b.2 with None => Some b.1 | Some _ => None end) bs)) +
                        zsum (omap (fun b => match b.2 with None => None | Some _ => Some (blen b.1) end) bs).
Proof. unfold blen, zsum in *. induction bs as [|[b [e|]] bs IH]; cbn in *; rewrite ?length_app; lia. Qed.

(** C25: A queue worker accounts for every job it claims. Its handlers have each job once, never
    more than the limit at a time; the channel of successes holds no more than the jobs.
    When it returns, the batches it completed hold exactly the successful jobs, each once,
    in the order of their success; and the jobs are those completed, those settled, those
    whose handler or mutation was in error, and those of batches that were not completed,
    with an error for each. *)
Theorem queue_worker_accounts jobs w : 1 <= limit -> rtc worker_step (startWorker jobs) w ->
  (ended w).*1 ++ running w ++ waiting w ≡ₚ jobs /\ blen (running w) <= limit /\ blen (channel w) <= blen jobs /\
  (at_ w = Finished ->
    (ended w).*1 ≡ₚ jobs /\ concat (batches w).*1 = successes w /\
    Forall (fun b => 1 <= blen b.1 <= Z.max 1 maxSize) (batches w) /\
    blen jobs = blen (completed w) + blen (settledJobs w) + blen (omap (fun e => mjoin e.2) (ended w)) +
                zsum (omap (fun b => match b.2 with None => None | Some _ => Some (blen b.1) end) (batches w)) /\
    (wrong w = [] -> blen jobs = blen (completed w) + blen (settledJobs w))).
Proof.
  intros Hl H. apply worker_reachable_inv in H as [Hj Hs Hr Hb Hp Hc].
  assert (Hlen : blen (ended w) + blen (running w) + blen (waiting w) = blen jobs).
  { unfold blen. rewrite <- (Permutation_length Hj), !length_app, length_fmap. lia. }
  pose proof (ended_split (ended w)) as He. fold (successes w) (settledJobs w) in He.
  assert (Hch : blen (channel w) <= blen (successes w)) by (rewrite <- Hs; unfold blen; rewrite !length_app; lia).
  split; [done|]. split; [lia|]. split; [unfold blen in *; lia|]. intros Hf. rewrite Hf in Hp, Hs. destruct Hp as [Hcl Hempty].
  destruct (Hc Hcl) as [Hw Hru]. rewrite Hw, Hru, app_nil_r in Hj. cbn in Hs. rewrite Hempty, app_nil_r in Hs.
  pose proof (batches_split (batches w)) as Hbs. rewrite Hs in Hbs. fold (completed w) in Hbs.
  rewrite Hw, Hru, !blen_nil in Hlen. split; [done|]. split; [done|]. split; [done|]. split; [lia|].
  unfold wrong, completionErrors. intros [Hwe Hwc]%app_eq_nil. rewrite Hwe, blen_nil in He.
  enough (zsum (omap (fun b => match b.2 with None => None | Some _ => Some (blen b.1) end) (batches w)) = 0) by lia.
  clear -Hwc. induction (batches w) as [|[b [e|]] bs IH]; [done|done|by apply IH].
Qed.

(** ** It ends *)

Definition phaseWeight (p : workerPhase) : Z := match p with First => 1 | Collecting _ => 3 | Completing _ _ => 2 | Finished => 0 end.

(** What is left to do. *)
Definition work (w : worker) : Z :=
  5 * blen (waiting w) + 4 * blen (running w) + 3 * blen (channel w) + phaseWeight (at_ w) + (if closed w then 0 else 1).

Lemma worker_step_work w w' : worker_step w w' -> 0 <= work w' < work w.
Proof.
  intros H. assert (0 <= work w') by (unfold work; destruct (closed w'), (at_ w'); cbn; unfold blen; lia).
  split; [done|]. destruct H; unfold work, blen; cbn; rewrite ?length_app; cbn; repeat case_match; cbn; lia.
Qed.

(** A worker that has not finished can go on. *)
Lemma worker_progress jobs w : 1 <= limit -> worker_inv jobs w -> at_ w <> Finished -> exists w', worker_step w w'.
Proof.
  intros Hl [Hj Hs Hr Hb Hp Hc] Hf. destruct w as [ws rs es ch c ph bs]; cbn in *.
  assert (Hcomplete : forall b open, ph = Completing b open -> exists w', worker_step (Worker ws rs es ch c ph bs) w')
    by (intros b open ->; eexists; apply (step_complete b open None)).
  destruct ph as [|b|b open|]; [| |by eapply Hcomplete|done]; clear Hcomplete.
  all: destruct ch as [|j ch]; [destruct c|]; try (by eexists; constructor);
    try (destruct (Z.lt_ge_cases (blen b) maxSize); by eexists; constructor).
  all: destruct rs as [|j rs]; [|eexists; apply (step_succeed j ws [] rs)].
  all: destruct ws as [|j ws]; eexists; constructor; rewrite blen_nil; lia.
Qed.

(** C26: A queue worker returns: whatever the order in which handlers end, batches fill and the
    timer fires, it takes at most five steps for a job and two more, and it is never stuck
    before it has returned. *)
Theorem queue_worker_ends jobs n w : 1 <= limit -> nsteps worker_step n (startWorker jobs) w ->
  Z.of_nat n <= 5 * blen jobs + 2 /\ (at_ w = Finished \/ exists w', worker_step w w').
Proof.
  intros Hl H. split.
  - enough (forall v, nsteps worker_step n v w -> 0 <= work v -> Z.of_nat n <= work v) as Hn.
    { apply Hn in H; unfold work, blen in *; cbn in *; lia. }
    clear H. induction n as [|n IH]; intros v H Hv; [lia|]. inversion H as [|? ? v1 ? H1 H2]; subst.
    apply worker_step_work in H1. apply IH in H2; lia.
  - assert (Hi : worker_inv jobs w) by (apply worker_reachable_inv; by eapply rtc_nsteps_2).
    destruct (at_ w) eqn:Ea; [right|right|right|by left]; apply (worker_progress jobs w Hl Hi); by rewrite Ea.
Qed.
End Worker.

(** Two jobs: the second succeeds and is completed, the first is settled. *)
Definition sampleEnd : worker (J := nat) (E := unit) := Worker [] [] [(2%nat, None); (1%nat, Some None)] [] true Finished [([2%nat], None)].

Lemma sample_run : nsteps (worker_step 2 10) 9 (startWorker [1%nat; 2%nat]) sampleEnd.
Proof.
  do 2 (eapply nsteps_l; [constructor; by vm_compute|]).
  eapply nsteps_l; [apply (step_succeed _ _ 2%nat [] [1%nat] [])|].
  eapply nsteps_l; [apply step_first|]. eapply nsteps_l; [by apply step_timer|]. eapply nsteps_l; [apply (step_complete _ _ _ _ None)|].
  eapply nsteps_l; [apply (step_settle _ _ 1%nat None [] [] [])|]. eapply nsteps_l; [apply step_close|].
  eapply nsteps_l; [apply step_none|]. constructor.
Qed.

Lemma queue_worker_ends_witness : nsteps (worker_step 2 10) 9 (startWorker [1%nat; 2%nat]) sampleEnd /\ 9 <= 5 * 2 + 2.
Proof. split; [exact sample_run|]. apply (queue_worker_ends 2 10 [1%nat; 2%nat] 9 sampleEnd); [lia|exact sample_run]. Defined.

Lemma queue_worker_accounts_witness : rtc (worker_step 2 10) (startWorker [1%nat; 2%nat]) sampleEnd /\ completed sampleEnd = [2%nat] /\
  blen [1%nat; 2%nat] = blen (completed sampleEnd) + blen (settledJobs sampleEnd).
Proof.
  assert (H : rtc (worker_step 2 10) (startWorker [1%nat; 2%nat]) sampleEnd) by (eapply rtc_nsteps_2; exact sample_run).
  split; [exact H|]. split; [reflexivity|].
  destruct (queue_worker_accounts 2 10 [1%nat; 2%nat] sampleEnd ltac:(lia) H) as (_ & _ & _ & Hf).
  destruct (Hf eq_refl) as (_ & _ & _ & _ & Hok). apply Hok. reflexivity.
Defined.

(** ** Duplicates *)

Lemma duplicate_forms (seen : gset gstr) before values : (forall v, v ∈ seen <-> v ∈ before) ->
  duplicateBySet seen values = duplicateByScan before values.
Proof.
  revert seen before. induction values as [|v values IH]; intros seen before Hs; cbn; [done|].
  assert (Hv : bool_decide (v ∈ seen) = existsb (fun u => bool_decide (u = v)) before).
  { apply eq_true_iff_eq. rewrite bool_decide_eq_true, existsb_exists, Hs, list_elem_of_In. split.
    - intros H. exists v. split; [done|]. by apply bool_decide_eq_true.
    - intros (u & Hu & He%bool_decide_eq_true). by subst. }
  rewrite <- Hv. destruct (bool_decide (v ∈ seen)); [done|]. apply IH.
  intros u. rewrite elem_of_union, elem_of_singleton, Hs, elem_of_app, list_elem_of_singleton. tauto.
Qed.

(** Both forms of the search find the first repeated name, or that there is none. *)
Theorem duplicates_found values :
  firstDuplicateString values = duplicateByScan [] values /\ (firstDuplicateString values = None <-> NoDup values).
Proof.
  assert (Hf : firstDuplicateString values = duplicateByScan [] values).
  { unfold firstDuplicateString. destruct (_ <? _); [|done]. apply duplicate_forms. intros v. split; [by intros []%elem_of_empty|by intros []%elem_of_nil]. }
  split; [done|]. rewrite Hf.
  assert (H : forall before, duplicateByScan before values = None <-> NoDup values /\ forall v, v ∈ values -> v ∉ before).
  { clear Hf. induction values as [|v values IH]; intros before; cbn.
    - split; [intros _; split; [apply NoDup_nil_2|by intros v []%elem_of_nil]|done].
    - destruct (existsb _ before) eqn:Eb.
      + apply existsb_exists in Eb as (u & Hu & He%bool_decide_eq_true). subst u. apply list_elem_of_In in Hu. split; [done|].
        intros [_ H]. by destruct (H v (list_elem_of_here _ _)).
      + rewrite IH, NoDup_cons. assert (Hv : v ∉ before).
        { intros Hin. apply list_elem_of_In in Hin. enough (existsb (fun u => bool_decide (u = v)) before = true) by congruence.
          apply existsb_exists. exists v. split; [done|]. by apply bool_decide_eq_true. }
        split.
        * intros [Hd Hn]. split; [split; [|done]; intros Hin; apply (Hn v Hin), elem_of_app; right; apply list_elem_of_here|].
          intros u [->|Hin]%elem_of_cons; [done|]. intros Hb. apply (Hn u Hin), elem_of_app. by left.
        * intros [[Hv' Hd] Hn]. split; [done|]. intros u Hin [Hb|Hb%list_elem_of_singleton]%elem_of_app; [|by subst].
          by apply (Hn u (list_elem_of_further _ _ _ Hin)). }
  rewrite H. split; [tauto|]. intros Hd. split; [done|]. by intros v _ []%elem_of_nil.
Qed.
