(* ===== verification/Worker.v ===== *)
(** Rounds of workers and the loops around them (src/workflow.go, src/queue.go,
    src/worker_lifecycle.go): one round claims jobs and runs them; a loop repeats rounds
    until its context ends or a round fails, and adds up what they did. *)

From S2P Require Import CompactResponse.
From S2P Require Export Queue.

(** ** A round of a workflow worker *)

Record WorkflowWorkerResult := WorkflowDone { wf_Claimed : Z; wf_Applied : Z; wf_ClaimCalls : Z }.
Record QueueWorkerResult := QueueDone { qw_Claimed : Z; qw_Completed : Z; qw_Retried : Z; qw_Failed : Z; qw_ClaimCalls : Z }.

Section Round.
Context {W : Type} `{!Service W} (decode : val -> option val).

(** [Client.ClaimDue]; the compact request is another form of the same claim. *)
Definition ClaimDue (opt : ClaimDueOptions) : call W (list FlowRecord) := fun w =>
  (call! args := give (clientResult (claimDueArgs (checkedAt w) (sentAt w) opt)) in
   call! reply := typedReply args in
   call! _ := give (recordResult (validateFlowResponseLimit reply (cd_Limit opt))) in
   give (recordResult (recordsFromNative decode reply))) w.

(** A worker's handlers by state, and how it applies one to a job. *)
Context {code : Type} (handlers : gmap gstr code) (apply : FlowRecord -> gstr -> code -> call W unit).

(** The order in which jobs that run at the same time end. *)
Context (order : list FlowRecord -> list FlowRecord) (order_all : forall jobs, order jobs ≡ₚ jobs).

Fixpoint runAll (f : FlowRecord -> call W unit) (jobs : list FlowRecord) (w : W) : list (FlowRecord * result durableError unit) * W :=
  match jobs with
  | [] => ([], w)
  | job :: jobs =>
      let '(done, w) := f job w in
      let '(ended, w) := runAll f jobs w in ((job, done) :: ended, w)
  end.

(** [runConcurrent], each job in one turn. *)
Definition runConcurrent (n : Z) (f : FlowRecord -> call W unit) (jobs : list FlowRecord) :=
  runAll f (if (n <=? 1) || (blen jobs <=? 1) then jobs else order jobs).

Definition firstFailure (ended : list (FlowRecord * result durableError unit)) : option durableError :=
  head (omap (fun e => match e.2 with Err e => Some e | Ok _ => None end) ended).

Definition appliedCount (ended : list (FlowRecord * result durableError unit)) : Z :=
  blen (omap (fun e => match e.2 with Ok _ => Some e.1 | Err _ => None end) ended).

Context (flowType worker : gstr) (opts : WorkerOptions).

(** The loop over the states of [WorkflowWorker.RunOnce]. *)
Fixpoint runStates (states : list gstr) (r : WorkflowWorkerResult) (w : W) : WorkflowWorkerResult * option durableError * W :=
  match states with
  | [] => (r, None, w)
  | state :: states =>
      match handlers !! state with
      | None => (r, None, w)
      | Some h =>
          let '(jobs, w) := ClaimDue (workerClaim flowType worker state [] opts) w in
          match jobs with
          | Err e => (WorkflowDone (wf_Claimed r) (wf_Applied r) (wf_ClaimCalls r + 1), Some e, w)
          | Ok [] => runStates states (WorkflowDone (wf_Claimed r) (wf_Applied r) (wf_ClaimCalls r + 1)) w
          | Ok jobs =>
              let '(ended, w) := runConcurrent (concurrency opts) (fun job => apply job state h) jobs w in
              let r := WorkflowDone (wf_Claimed r + blen jobs) (wf_Applied r + appliedCount ended) (wf_ClaimCalls r + 1) in
              match firstFailure ended with Some e => (r, Some e, w) | None => runStates states r w end
          end
      end
  end.

(** [WorkflowWorker.RunOnce]. *)
Definition RunOnce (configurationErr : option durableError) (w : W) : WorkflowWorkerResult * option durableError * W :=
  let nothing := WorkflowDone 0 0 0 in
  match (let! _ := match configurationErr with Some e => Err e | None => Ok tt end in
         let! _ := whenOk (negb (bool_decide (wo_States opts = []))) "workflow worker requires at least one state" in
         let! _ := validateWorkerOptions opts in
         whenOk (forallb (fun state => bool_decide (is_Some (handlers !! state))) (wo_States opts)) "no workflow handler for state")
  with
  | Err e => (nothing, Some e, w)
  | Ok _ => runStates (wo_States opts) nothing w
  end.

Lemma runAll_jobs f jobs w ended w' : runAll f jobs w = (ended, w') -> ended.*1 = jobs.
Proof.
  revert w ended w'. induction jobs as [|job jobs IH]; intros w ended w' H; cbn in H; [by injection H as <- <-|].
  destruct (f job w) as [d w1], (runAll f jobs w1) as [e w2] eqn:E. injection H as <- <-. cbn. f_equal. by eapply IH.
Qed.

(** Every job is run. *)
Lemma runs_all n f jobs w ended w' : runConcurrent n f jobs w = (ended, w') -> ended.*1 ≡ₚ jobs.
Proof. intros H%runAll_jobs. rewrite H. by destruct (_ || _); [|apply order_all]. Qed.

Lemma applied_all ended : firstFailure ended = None -> appliedCount ended = blen ended.
Proof.
  unfold firstFailure, appliedCount, blen. induction ended as [|[job [u|e]] ended IH]; [done| |done].
  intros H. apply IH in H. cbn in *. lia.
Qed.

Lemma applied_some ended : appliedCount ended <= blen ended.
Proof.
  unfold appliedCount, blen. induction ended as [|[job [u|e]] ended IH]; [done|..];
    cbn in *; lia.
Qed.

Lemma runStates_accounts states : Forall (fun state => is_Some (handlers !! state)) states -> forall r w r' err w',
  runStates states r w = (r', err, w') -> wf_Applied r <= wf_Claimed r ->
  wf_Applied r' - wf_Applied r <= wf_Claimed r' - wf_Claimed r /\
  (err = None -> wf_Applied r' - wf_Applied r = wf_Claimed r' - wf_Claimed r /\ wf_ClaimCalls r' = wf_ClaimCalls r + blen states).
Proof.
  induction 1 as [|state states [h Hh] _ IH]; intros r w r' err w' H Hr; cbn [runStates] in H.
  - injection H as <- <- <-. unfold blen. cbn. lia.
  - rewrite Hh in H. destruct (ClaimDue _ w) as [[[|job jobs]|e] w1]; [apply IH in H as [H1 H2]; cbn in *; [split; [lia|]; intros He; apply H2 in He; unfold blen in *; cbn; lia|lia]| |
      injection H as <- <- <-; cbn; split; [lia|done]].
    destruct (runConcurrent _ _ (job :: jobs) w1) as [ended w2] eqn:E. apply runs_all, Permutation_length in E. rewrite length_fmap in E.
    assert (Hl : blen ended = blen (job :: jobs)) by (unfold blen; lia). revert H Hl. generalize (job :: jobs). clear E. intros all H Hl.
    pose proof (applied_some ended) as Hs. destruct (firstFailure ended) as [e|] eqn:Ef.
    + injection H as <- <- <-. cbn. split; [lia|done].
    + apply applied_all in Ef. apply IH in H; cbn in H |- *; [|lia].
      destruct H as [H1 H2]. split; [lia|]. intros He. apply H2 in He. unfold blen in *. cbn. lia.
Qed.

Lemma runStates_counts states : Forall (fun state => is_Some (handlers !! state)) states -> forall r w r' err w',
  runStates states r w = (r', err, w') -> wf_Applied r <= wf_Applied r'.
Proof.
  induction 1 as [|state states [h Hh] _ IH]; intros r w r' err w' H; cbn [runStates] in H; [by injection H as <- <- <-|].
  rewrite Hh in H. destruct (ClaimDue _ w) as [[[|job jobs]|e] w1]; [by apply IH in H| |by injection H as <- <- <-].
  destruct (runConcurrent _ _ (job :: jobs) w1) as [ended w2].
  destruct (firstFailure ended); [injection H as <- <- <-; cbn|apply IH in H; cbn in H]; unfold appliedCount, blen in *; lia.
Qed.

(** A round that ends without an error has applied an outcome to every job it claimed, with one
    claim for each state; a round that fails has applied no more than it claimed. *)
Theorem workflow_round_accounts configurationErr w r err w' : RunOnce configurationErr w = (r, err, w') ->
  0 <= wf_Applied r <= wf_Claimed r /\
  (err = None -> wf_Applied r = wf_Claimed r /\ wf_ClaimCalls r = blen (wo_States opts)).
Proof.
  unfold RunOnce. intros H.
  assert (Hnone : (WorkflowDone 0 0 0, err, w) = (r, err, w') -> err <> None ->
    0 <= wf_Applied r <= wf_Claimed r /\ (err = None -> wf_Applied r = wf_Claimed r /\ wf_ClaimCalls r = blen (wo_States opts))).
  { intros [= <- <-] Hne. cbn. split; [lia|done]. }
  destruct (let! _ := _ in _) as [[]|e] eqn:E; [|injection H as <- <- <-; by apply Hnone].
  unfold whenOk in E. inv_result. z_tests.
  assert (Hall : Forall (fun state => is_Some (handlers !! state)) (wo_States opts)).
  { apply Forall_forall. intros state Hin. match goal with H : forallb _ _ = true |- _ => rewrite forallb_forall in H;
      apply (bool_decide_unpack _), Is_true_true_2, H, list_elem_of_In, Hin end. }
  pose proof (runStates_counts _ Hall _ _ _ _ _ H) as Hc.
  apply runStates_accounts in H as [H1 H2]; [|done|cbn; lia]. cbn in *. split; [lia|]. intros He. apply H2 in He. lia.
Qed.
End Round.

(** ** Loops *)

(** What the loops need of the results they add up. *)
Class Tally (R : Type) := { nothing : R; tally : R -> R -> R; claimedBy : R -> Z }.

#[global] Instance workflowTally : Tally WorkflowWorkerResult := {
  nothing := WorkflowDone 0 0 0;
  tally a b := WorkflowDone (wf_Claimed a + wf_Claimed b) (wf_Applied a + wf_Applied b) (wf_ClaimCalls a + wf_ClaimCalls b);
  claimedBy := wf_Claimed;
}.

#[global] Instance queueTally : Tally QueueWorkerResult := {
  nothing := QueueDone 0 0 0 0 0;
  tally a b := QueueDone (qw_Claimed a + qw_Claimed b) (qw_Completed a + qw_Completed b) (qw_Retried a + qw_Retried b)
                 (qw_Failed a + qw_Failed b) (qw_ClaimCalls a + qw_ClaimCalls b);
  claimedBy := qw_Claimed;
}.

Section Loop.
Context {R E : Type} `{!Tally R}.

(** One turn of a loop: whether the context had ended before it, what the round gave, whether
    the context ended meanwhile, and whether the pause behind it was not cut short. *)
Record loopTurn := Turn { ended_ : bool; result_ : R; error_ : option E; ended_meanwhile : bool; paused : bool }.

Inductive loop := Looping (total : R) | Left (total : R) (err : option E).

(** [RunForever], over the turns it takes. *)
Fixpoint RunForever (total : R) (turns : list loopTurn) : loop :=
  match turns with
  | [] => Looping total
  | t :: turns =>
      if ended_ t then Left total None
      else
        let total := tally total (result_ t) in
        match error_ t with
        | Some e => Left total (if ended_meanwhile t then None else Some e)
        | None =>
            if 0 <? claimedBy (result_ t) then RunForever total turns
            else if paused t then RunForever total turns
            else Left total None
        end
  end.

(** ** A worker in the background *)

Record handle := Handle { h_result : R; h_err : option E; h_done : bool }.

Definition handleAdd (r : R) (h : handle) : handle := Handle (tally (h_result h) r) (h_err h) (h_done h).
Definition handleSetError (e : E) (h : handle) : handle :=
  Handle (h_result h) (match h_err h with None => Some e | err => err end) (h_done h).
Definition handleDone (h : handle) : handle := Handle (h_result h) (h_err h) true.

(** The goroutine of [Start]. *)
Fixpoint background (h : handle) (turns : list loopTurn) : handle :=
  match turns with
  | [] => h
  | t :: turns =>
      if ended_ t then handleDone h
      else
        let h := handleAdd (result_ t) h in
        match error_ t with
        | Some e => handleDone (if ended_meanwhile t then h else handleSetError e h)
        | None =>
            if 0 <? claimedBy (result_ t) then background h turns
            else if paused t then background h turns
            else handleDone h
        end
  end.

Definition newHandle : handle := Handle nothing None false.

(** What [Join] gives when the goroutine is done. *)
Definition Join (h : handle) : option (R * option E) := if h_done h then Some (h_result h, h_err h) else None.

Lemma background_forever turns h : h_err h = None -> h_done h = false ->
  match RunForever (h_result h) turns with
  | Looping total => background h turns = Handle total None false
  | Left total err => Join (background h turns) = Some (total, err)
  end.
Proof.
  revert h. induction turns as [|t turns IH]; intros h He Hd; cbn; [destruct h; by cbn in *; subst|].
  destruct (ended_ t); [by unfold Join; cbn; rewrite He|].
  destruct (error_ t) as [e|]; [unfold Join; destruct (ended_meanwhile t); cbn; by rewrite He|].
  destruct (0 <? claimedBy (result_ t)); [by apply (IH (handleAdd (result_ t) h))|].
  destruct (paused t); [by apply (IH (handleAdd (result_ t) h))|]. unfold Join. cbn. by rewrite He.
Qed.

(** A worker started in the background is joined with what [RunForever] returns for the same
    rounds, and its counters show the rounds so far. *)
Theorem background_agrees turns :
  match RunForever nothing turns with
  | Looping total => background newHandle turns = Handle total None false
  | Left total err => Join (background newHandle turns) = Some (total, err)
  end.
Proof. by apply (background_forever turns newHandle). Qed.
End Loop.
