(* ===== verification/Policy.v ===== *)
(** Policies of Flow types (src/client_flow_policy.go, src/flow_policy_response.go,
    src/flow_policy_error.go, src/types_flow_policy.go): the command that sets a policy, the
    snapshot read from its answer, and the check that the answer grants what was asked.

    The arguments are proved against the payload the options describe; an accepted answer is
    proved to grant the options in the typed fields of the snapshot. *)

From S2P Require Import CompactResponse Normalize.
From S2P Require Export Durable.

(** ** The command *)

(** The names [canonicalizePolicyMetadataKeys] makes, as an argument; their slice is not nil. *)
Definition nameList (names : list gstr) : arg := Arg (VArray (Some 0) (VString <$> names)).

(** What is written of a retry policy. *)
Definition numberWhen (set : bool) (k : ikind) (z : Z) : option arg := if negb (z =? 0) || set then Some (Arg (VInt k z)) else None.

Definition backoffName (s : gstr) : gstr := if given s then to_lower (trim_space s) else s.

(** [appendRetryPolicy]. *)
Definition appendRetryPolicy (p : RetryPolicy) : list arg :=
  optionArgs "MAX_RETRIES" (numberWhen (rp_MaxRetriesSet p) IInt (rp_MaxRetries p)) ++
  appendText "BACKOFF" (backoffName (rp_Backoff p)) ++
  optionArgs "BASE_MS" (numberWhen (rp_BaseMSSet p) IInt64 (rp_BaseMS p)) ++
  optionArgs "MAX_MS" (numberWhen (rp_MaxMSSet p) IInt64 (rp_MaxMS p)) ++
  optionArgs "JITTER_PCT" (numberWhen (rp_JitterPctSet p) IInt (rp_JitterPct p)) ++
  appendText "EXHAUSTED_TO" (rp_ExhaustedTo p).

Definition modeArgs (mode : gstr) : result clientError (list arg) :=
  if given mode then let! token := checkedBy (flowStateModeCommandToken mode) in Ok (appendText "MODE" token) else Ok [].

Fixpoint statePolicyArgs (states : list (gstr * FlowStatePolicy)) : result clientError (list arg) :=
  match states with
  | [] => Ok []
  | (state, policy) :: states =>
      let! mode := modeArgs (sy_Mode policy) in
      let! rest := statePolicyArgs states in
      Ok ([tok "STATE"; txt state] ++ mode ++ from_option appendRetryPolicy [] (sy_Retry policy) ++ rest)
  end.

Definition indexesStateMeta (opt : PolicyOptions) : bool := given (po_IndexedStateMeta opt) || po_IndexedStateMetaSet opt.

(** The arguments of [SetPolicy], of options with canonical names. *)
Definition setPolicyArgs (flowType : gstr) (opt : PolicyOptions) : result clientError (list arg) :=
  let! _ := checkedBy (validatePolicyOptions flowType opt) in
  let! maxActive := appendFlowMaxActiveMS (po_MaxActiveMS opt) in
  let! states := statePolicyArgs (sort_entries (po_StatePolicies opt)) in
  Ok ([tok "FLOW.POLICY.SET"; txt flowType] ++ appendBoolPtr "REPLACE" (po_Replace opt) ++
      appendInt64Ptr "EXPECTED_GENERATION" (po_ExpectedGeneration opt) ++ maxActive ++
      optionArgs "INDEXED_ATTRIBUTES" (nameList <$> po_IndexedAttributes opt) ++
      (if indexesStateMeta opt then [tok "INDEXED_STATE_META"; txt (po_IndexedStateMeta opt)] else []) ++
      from_option appendRetryPolicy [] (po_Retry opt) ++
      flat_map (fun e => [tok "STATE"; txt e.1] ++ appendRetryPolicy e.2) (sort_entries (po_States opt)) ++ states).

(** ** Its answer *)

Inductive policyError :=
| PolicyMap (e : normError)
| PolicyField (field : String.string)
| PolicyState (state : gstr)
| PolicyOmitted (what : String.string).

Definition normalised (m : result normError valueMap) : result policyError valueMap :=
  match m with Ok m => Ok m | Err e => Err (PolicyMap e) end.

Definition normalizedPolicyMap (v : val) : result policyError valueMap :=
  match normalizeAdminResponse v with
  | Err e => Err (PolicyMap e)
  | Ok (VMap _ m) => Ok m
  | Ok v => normalised (nativeMap v)
  end.

Definition policySnapshotGeneration (policy : valueMap) : result policyError Z :=
  match assoc_get (go "generation") policy with
  | None => Err (PolicyOmitted "generation")
  | Some raw =>
      match responseInt64 raw with
      | Some generation =>
          if (generation <? 0) || (maxFlowPolicyGeneration <? generation) then Err (PolicyField "generation") else Ok generation
      | None => Err (PolicyField "generation")
      end
  end.

Definition policySnapshotText (policy : valueMap) (field : String.string) (required : bool) : result policyError gstr :=
  match fieldOf policy field with
  | VNil => if required then Err (PolicyOmitted field) else Ok []
  | v =>
      match responseString v with
      | Some text => if required && negb (given text) then Err (PolicyField field) else Ok text
      | None => Err (PolicyField field)
      end
  end.

Definition decodePolicyStateMode (v : val) (required : bool) : result policyError gstr :=
  match v with
  | VNil => if required then Err (PolicyOmitted "mode") else Ok []
  | _ =>
      match responseString v with
      | None => Err (PolicyField "mode")
      | Some mode =>
          let mode := to_upper (trim_space mode) in
          if bool_decide (mode ∈ [FlowStateModeParallel; FlowStateModeFIFO]) then Ok mode else Err (PolicyField "mode")
      end
  end.

Definition decodePolicyMaxActiveMS (v : val) : result policyError (option Z) :=
  match v with
  | VNil => Ok None
  | _ => match responseInt64 v with
         | Some milliseconds => if milliseconds <=? 0 then Err (PolicyField "max_active_ms") else Ok (Some milliseconds)
         | None => Err (PolicyField "max_active_ms")
         end
  end.

(** [appliedPolicyMap], and the maps of [decodePolicyStates]. *)
Definition appliedPolicyMap (v : val) : result policyError valueMap :=
  match v with VMap _ m => Ok m | _ => normalised (nativeMap v) end.

Definition decodePolicyMap (v : val) : result policyError (option valueMap) :=
  match v with VNil => Ok None | _ => rmap Some (appliedPolicyMap v) end.

Definition decodePolicyStringList (v : val) : result policyError (option (list gstr)) :=
  match v with
  | VNil => Ok None
  | VArray _ values =>
      rmap Some (rmapM (fun v => match responseString v with Some s => Ok s | None => Err (PolicyField "indexed_attributes") end) values)
  | _ => Err (PolicyField "indexed_attributes")
  end.

Record PolicyStateSnapshot := StateSnapshot {
  pt_Mode : gstr; pt_MaxActiveMS : option Z; pt_Retry : option valueMap; pt_Retention : option valueMap;
  pt_Governance : option valueMap; pt_Raw : valueMap;
}.

Record PolicySnapshot := Snapshot {
  ps_Type : gstr; ps_State : gstr; ps_Generation : Z; ps_Version : val; ps_Mode : gstr; ps_MaxActiveMS : option Z;
  ps_Retry : option valueMap; ps_Retention : option valueMap; ps_IndexedAttributes : option (list gstr);
  ps_IndexedStateMeta : gstr; ps_Governance : option valueMap; ps_States : option (list (gstr * PolicyStateSnapshot));
  ps_Raw : valueMap;
}.

Definition decodePolicyState (policy : valueMap) : result policyError PolicyStateSnapshot :=
  let! mode := decodePolicyStateMode (fieldOf policy "mode") true in
  let! maxActiveMS := decodePolicyMaxActiveMS (fieldOf policy "max_active_ms") in
  let! retry := decodePolicyMap (fieldOf policy "retry") in
  let! retention := decodePolicyMap (fieldOf policy "retention") in
  let! governance := decodePolicyMap (fieldOf policy "governance") in
  Ok (StateSnapshot mode maxActiveMS retry retention governance policy).

Definition decodePolicyStates (v : val) : result policyError (option (list (gstr * PolicyStateSnapshot))) :=
  match v with
  | VNil => Ok None
  | _ =>
      let! states := appliedPolicyMap v in
      rmap Some (rmapM (fun e : gstr * val =>
        let! _ := rguard (given e.1) (PolicyState e.1) in
        let! policy := appliedPolicyMap e.2 in
        let! state := decodePolicyState policy in Ok (e.1, state)) states)
  end.

Definition decodePolicySnapshot (v : val) (expectedType expectedState : gstr) : result policyError PolicySnapshot :=
  let! policy := normalizedPolicyMap v in
  let! flowType := policySnapshotText policy "type" true in
  let! _ := rguard (bool_decide (flowType = expectedType)) (PolicyField "type") in
  let! generation := policySnapshotGeneration policy in
  let! state := policySnapshotText policy "state" false in
  let! _ := rguard (bool_decide (state = expectedState)) (PolicyField "state") in
  let! mode := decodePolicyStateMode (fieldOf policy "mode") (given expectedState) in
  let! maxActiveMS := decodePolicyMaxActiveMS (fieldOf policy "max_active_ms") in
  let! retry := decodePolicyMap (fieldOf policy "retry") in
  let! retention := decodePolicyMap (fieldOf policy "retention") in
  let! governance := decodePolicyMap (fieldOf policy "governance") in
  let! indexedAttributes := decodePolicyStringList (fieldOf policy "indexed_attributes") in
  let! indexedStateMeta := policySnapshotText policy "indexed_state_meta" false in
  let! states := decodePolicyStates (fieldOf policy "states") in
  Ok (Snapshot flowType state generation (fieldOf policy "version") mode maxActiveMS retry retention indexedAttributes
        indexedStateMeta governance states policy).

(** ** Whether the answer grants the options *)

Section Applied.
(** [fmt.Sprint] on values other than text, integers and nil. *)
Context (sprint : val -> gstr).

(** [stringList]. *)
Definition stringList (v : val) : list gstr := match v with VArray _ items => asString sprint <$> items | _ => [] end.

Definition granted (b : bool) (what : String.string) : result policyError unit := rguard b (PolicyOmitted what).

Definition validateAppliedPolicyInteger (values : valueMap) (field : String.string) (expected : Z) : result policyError unit :=
  granted (bool_decide (responseInt64 (fieldOf values field) = Some expected)) field.

Definition wantsNumber (set : bool) (z : Z) : bool := negb (z =? 0) || set.

Definition wantsBackoff (p : RetryPolicy) : bool :=
  given (rp_Backoff p) || wantsNumber (rp_BaseMSSet p) (rp_BaseMS p) || wantsNumber (rp_MaxMSSet p) (rp_MaxMS p) ||
  wantsNumber (rp_JitterPctSet p) (rp_JitterPct p).

Definition integerWhen (wanted : bool) (values : valueMap) (field : String.string) (expected : Z) : result policyError unit :=
  if wanted then validateAppliedPolicyInteger values field expected else Ok tt.

Definition validateAppliedRetryPolicy (v : val) (expected : RetryPolicy) : result policyError unit :=
  if negb (wantsNumber (rp_MaxRetriesSet expected) (rp_MaxRetries expected) || wantsBackoff expected || given (rp_ExhaustedTo expected))
  then Ok tt
  else
    let! retry := appliedPolicyMap v in
    let! _ := integerWhen (wantsNumber (rp_MaxRetriesSet expected) (rp_MaxRetries expected)) retry "max_retries" (rp_MaxRetries expected) in
    let! _ := granted (negb (given (rp_ExhaustedTo expected)) ||
                bool_decide (asString sprint (fieldOf retry "exhausted_to") = rp_ExhaustedTo expected)) "exhausted_to" in
    if negb (wantsBackoff expected) then Ok tt
    else
      let! backoff := appliedPolicyMap (fieldOf retry "backoff") in
      let! _ := granted (negb (given (rp_Backoff expected)) ||
                  equal_fold (asString sprint (fieldOf backoff "kind")) (rp_Backoff expected)) "backoff" in
      let! _ := integerWhen (wantsNumber (rp_BaseMSSet expected) (rp_BaseMS expected)) backoff "base_ms" (rp_BaseMS expected) in
      let! _ := integerWhen (wantsNumber (rp_MaxMSSet expected) (rp_MaxMS expected)) backoff "max_ms" (rp_MaxMS expected) in
      integerWhen (wantsNumber (rp_JitterPctSet expected) (rp_JitterPct expected)) backoff "jitter_pct" (rp_JitterPct expected).

Definition validateAppliedMaxActiveMS (actual expected : val) : result policyError unit :=
  match canonicalFlowMaxActiveMS expected with
  | Err _ => Err (PolicyField "max_active_ms")
  | Ok (Some (VString _)) =>
      granted (match actual with VNil => true | _ => equal_fold (asString sprint actual) FlowMaxActiveInfinity end) "max_active_ms"
  | Ok (Some (VInt _ z)) => granted (bool_decide (responseInt64 actual = Some z)) "max_active_ms"
  | Ok _ => granted false "max_active_ms"
  end.

(** The policy an answer has for a state. *)
Definition answeredState (states : valueMap) (state : gstr) : result policyError valueMap :=
  match assoc_get state states with None => Err (PolicyState state) | Some v => appliedPolicyMap v end.

Definition eachEntry {V} (f : gstr * V -> result policyError unit) (m : list (gstr * V)) : result policyError unit :=
  rmap (fun _ => tt) (rmapM f m).

Definition nothingAsked (opt : PolicyOptions) : bool :=
  match po_MaxActiveMS opt with VNil => true | _ => false end && bool_decide (po_Retry opt = None) &&
  bool_decide (po_States opt = []) && bool_decide (po_StatePolicies opt = []) && bool_decide (po_IndexedAttributes opt = None) &&
  negb (indexesStateMeta opt).

Definition validateAppliedStates (policy : valueMap) (opt : PolicyOptions) : result policyError unit :=
  match po_States opt, po_StatePolicies opt with
  | [], [] => Ok tt
  | _, _ =>
      let! states := match fieldOf policy "states" with VNil => Err (PolicyOmitted "states") | v => appliedPolicyMap v end in
      let! _ := eachEntry (fun e =>
          let! state := answeredState states e.1 in validateAppliedRetryPolicy (fieldOf state "retry") e.2) (po_States opt) in
      eachEntry (fun e =>
          let! state := answeredState states e.1 in
          let! _ := granted (negb (given (sy_Mode e.2)) || equal_fold (asString sprint (fieldOf state "mode")) (sy_Mode e.2)) "mode" in
          match sy_Retry e.2 with Some retry => validateAppliedRetryPolicy (fieldOf state "retry") retry | None => Ok tt end)
        (po_StatePolicies opt)
  end.

Definition validateAppliedPolicy (policy : valueMap) (opt : PolicyOptions) : result policyError unit :=
  if nothingAsked opt then Ok tt
  else
    let! _ := match po_IndexedAttributes opt with
              | None => Ok tt
              | Some names => match assoc_get (go "indexed_attributes") policy with
                              | None => Err (PolicyOmitted "indexed_attributes")
                              | Some raw => granted (bool_decide (stringList raw = names)) "indexed_attributes"
                              end
              end in
    let! _ := if indexesStateMeta opt
              then match assoc_get (go "indexed_state_meta") policy with
                   | None => Err (PolicyOmitted "indexed_state_meta")
                   | Some raw => granted (bool_decide (asString sprint raw = po_IndexedStateMeta opt)) "indexed_state_meta"
                   end
              else Ok tt in
    let! _ := match po_Retry opt with Some retry => validateAppliedRetryPolicy (fieldOf policy "retry") retry | None => Ok tt end in
    let! _ := match po_MaxActiveMS opt with
              | VNil => Ok tt
              | limit => match assoc_get (go "max_active_ms") policy with
                         | None => Err (PolicyOmitted "max_active_ms")
                         | Some actual => validateAppliedMaxActiveMS actual limit
                         end
              end in
    validateAppliedStates policy opt.

(** ** The calls *)

Inductive policyCallError :=
| PolicyClient (e : clientError)
| PolicyCommand (e : goError)
| StalePolicyGeneration (flowType : gstr) (expectedGeneration : Z) (cause : goError)
| PolicyAnswer (e : policyError).

Definition staleMessage : gstr := go "ERR stale flow policy generation".

(** [nativeErrorMessage]. *)
Definition nativeErrorMessage (v : val) : gstr :=
  match v with
  | VNil => []
  | VString s | VBytes s => s
  | VMap _ m =>
      let message := asString sprint (fieldOf m "message") in
      let code := asString sprint (fieldOf m "code") in
      if given message then message else if given code then code else sprint v
  | _ => sprint v
  end.

(** The text of an error. *)
Context (errorText : goError -> gstr).

Definition hasSuffix (suffix s : gstr) : bool := bool_decide (suffix = drop (length s - length suffix) s).

Definition isStalePolicyGenerationError (e : goError) : bool :=
  match nativeErrorValue e with
  | Some n => equal_fold (trim_space (nativeErrorMessage (Value n))) staleMessage
  | None =>
      let message := trim_space (errorText e) in
      equal_fold message staleMessage || hasSuffix (to_lower (go ": " ++ staleMessage)) (to_lower message)
  end.

Definition policySetError (flowType : gstr) (expectedGeneration : option Z) (e : goError) : policyCallError :=
  match expectedGeneration with
  | Some generation => if isStalePolicyGenerationError e then StalePolicyGeneration flowType generation e else PolicyCommand e
  | None => PolicyCommand e
  end.

Definition fromAnswer {A} (r : result policyError A) : result policyCallError A :=
  match r with Ok a => Ok a | Err e => Err (PolicyAnswer e) end.

(** What [SetPolicy] makes of the answer. *)
Definition readSetPolicy (flowType : gstr) (opt : PolicyOptions) (reply : compactValue) : result policyCallError PolicySnapshot :=
  match reply with
  | CompactPlain v =>
      let! snapshot := fromAnswer (decodePolicySnapshot v flowType []) in
      let! _ := fromAnswer (validateAppliedPolicy (ps_Raw snapshot) opt) in Ok snapshot
  | _ => Err (PolicyAnswer (PolicyField "type"))
  end.

Section Calls.
Context {W : Type} `{!Service W}.

Definition SetPolicy (flowType : gstr) (opt : PolicyOptions) (w : W) : result policyCallError PolicySnapshot * W :=
  let opt := canonicalizePolicyMetadataKeys opt in
  match setPolicyArgs flowType opt with
  | Err e => (Err (PolicyClient e), w)
  | Ok args =>
      match send args w with
      | (Err e, w) => (Err (policySetError flowType (po_ExpectedGeneration opt) e), w)
      | (Ok reply, w) => (readSetPolicy flowType opt reply, w)
      end
  end.

Definition PolicyGet (flowType state : gstr) (w : W) : result policyCallError PolicySnapshot * W :=
  match validatePublicFlowType (go "flow type") flowType with
  | Err e => (Err (PolicyClient (Invalid e)), w)
  | Ok _ =>
      match send ([tok "FLOW.POLICY.GET"; txt flowType] ++ appendText "STATE" state) w with
      | (Err e, w) => (Err (PolicyCommand e), w)
      | (Ok (CompactPlain v), w) => (fromAnswer (decodePolicySnapshot v flowType state), w)
      | (Ok _, w) => (Err (PolicyAnswer (PolicyField "type")), w)
      end
  end.
End Calls.
End Applied.

(** ** The request says what the options ask for *)

(** The retry policy of a payload. *)
Definition retryMap (p : RetryPolicy) : payloadMap :=
  let backoff := fieldsOf [
    ("kind", PArg <$> written (VString (backoffName (rp_Backoff p)))); ("base_ms", PArg <$> numberWhen (rp_BaseMSSet p) IInt64 (rp_BaseMS p));
    ("max_ms", PArg <$> numberWhen (rp_MaxMSSet p) IInt64 (rp_MaxMS p)); ("jitter_pct", PArg <$> numberWhen (rp_JitterPctSet p) IInt (rp_JitterPct p))]%string in
  putField (putIfAny (go "backoff") backoff (fieldsOf [("max_retries"%string, PArg <$> numberWhen (rp_MaxRetriesSet p) IInt (rp_MaxRetries p))]))
    ("exhausted_to"%string, PArg <$> written (VString (rp_ExhaustedTo p))).

(** The policy of a state: its mode in lower case, and its retry policy. *)
Definition stateMap (mode : gstr) (retry : option RetryPolicy) : payloadMap :=
  putIfAny (go "retry") (from_option retryMap ∅ retry)
    (fieldsOf [("mode"%string, if given mode then Some (PText (to_lower (to_upper mode))) else None)]).

Definition policyStates (opt : PolicyOptions) : list (gstr * payloadMap) :=
  ((fun e => (e.1, stateMap [] (Some e.2))) <$> sort_entries (po_States opt)) ++
  ((fun e => (e.1, stateMap (sy_Mode e.2) (sy_Retry e.2))) <$> sort_entries (po_StatePolicies opt)).

Definition policyFields (flowType : gstr) (opt : PolicyOptions) : payloadMap :=
  putIfAny (go "states") (entryMap (prod_map id PMap <$> policyStates opt))
    (putIfAny (go "retry") (from_option retryMap ∅ (po_Retry opt))
      (fieldsOf [
        ("type", Some (PArg (txt flowType))); ("replace", PBool <$> po_Replace opt);
        ("expected_generation", PArg ∘ int64 <$> po_ExpectedGeneration opt); segmentField (maxActive (po_MaxActiveMS opt));
        ("indexed_attributes", PArg ∘ nameList <$> po_IndexedAttributes opt);
        ("indexed_state_meta", if indexesStateMeta opt then Some (PArg (txt (po_IndexedStateMeta opt))) else None)]%string)).

Section Request.
Context (sprint : val -> gstr).

Abbreviation reading := (policyLoop sprint).

Definition current (r : policyReading) : policyMaps := match pr_open r with Some (_, p) => p | None => pr_type r end.
Definition isOpen (r : policyReading) : bool := match pr_open r with Some _ => true | None => false end.
Definition setCurrent (p : policyMaps) (r : policyReading) : policyReading :=
  match pr_open r with
  | Some (name, _) => PolicyReading (pr_type r) (pr_states r) (Some (name, p))
  | None => PolicyReading p (pr_states r) None
  end.

Lemma current_set p r : current (setCurrent p r) = p.
Proof. by destruct r as [ty st [[name q]|]]. Qed.
Lemma isOpen_set p r : isOpen (setCurrent p r) = isOpen r.
Proof. by destruct r as [ty st [[name q]|]]. Qed.
Lemma set_set p q r : setCurrent p (setCurrent q r) = setCurrent p r.
Proof. by destruct r as [ty st [[name x]|]]. Qed.
Lemma set_current r : setCurrent (current r) r = r.
Proof. by destruct r as [ty st [[name x]|]]. Qed.

Definition putWhen (f : arg -> policyMaps -> policyMaps) (o : option arg) (p : policyMaps) : policyMaps :=
  match o with Some v => f v p | None => p end.

(** An option that is written is put into the policy being read. *)
Lemma loop_option token f o r rest : argToken sprint (tok token) <> go "STATE" ->
  (forall v p, o = Some v -> putFlowPolicyOption sprint (isOpen r) (tok token) v p = Ok (f v p)) ->
  reading r (optionArgs token o ++ rest) = reading (setCurrent (putWhen f o (current r)) r) rest.
Proof.
  intros Ht Hf. destruct o as [v|]; [|by cbn; rewrite set_current]. cbn [optionArgs app policyLoop].
  rewrite bool_decide_false by done. specialize (Hf v (current r) eq_refl). unfold current, isOpen, setCurrent in *.
  destruct (pr_open r) as [[name p]|]; by rewrite Hf.
Qed.

Definition withRetry (m : payloadMap) (p : policyMaps) : policyMaps := PolicyMaps (pm_payload p) (pm_policy p) m (pm_retention p).

Lemma loop_retry policy r rest : pm_retry (current r) = ∅ ->
  reading r (appendRetryPolicy policy ++ rest) = reading (setCurrent (withRetry (retryMap policy) (current r)) r) rest.
Proof.
  intros Hr. unfold appendRetryPolicy, appendText, appendOpt. rewrite <- !app_assoc.
  rewrite (loop_option "MAX_RETRIES" (fun v => put_retry (go "max_retries") (PArg v))) by done.
  rewrite (loop_option "BACKOFF" (fun v => put_backoff (go "kind") (PArg v))) by done.
  rewrite (loop_option "BASE_MS" (fun v => put_backoff (go "base_ms") (PArg v))) by done.
  rewrite (loop_option "MAX_MS" (fun v => put_backoff (go "max_ms") (PArg v))) by done.
  rewrite (loop_option "JITTER_PCT" (fun v => put_backoff (go "jitter_pct") (PArg v))) by done.
  rewrite (loop_option "EXHAUSTED_TO" (fun v => put_retry (go "exhausted_to") (PArg v))) by done.
  rewrite !current_set, !set_set. do 2 f_equal. unfold retryMap.
  destruct (current r) as [a b c d]. cbn in Hr. subst c.
  destruct (numberWhen (rp_MaxRetriesSet policy) _ _), (written (VString (backoffName _))), (numberWhen (rp_BaseMSSet policy) _ _),
    (numberWhen (rp_MaxMSSet policy) _ _), (numberWhen (rp_JitterPctSet policy) _ _), (written (VString (rp_ExhaustedTo _))); reflexivity.
Qed.

(** ** States *)

(** What is written for a state, and the policy it is read as. *)
Record stateOptions := StateOptions { so_name : gstr; so_args : list arg; so_policy : policyMaps }.

Definition readsAs (s : stateOptions) : Prop := forall r rest, pr_open r = Some (so_name s, emptyPolicy) ->
  reading r (so_args s ++ rest) = reading (setCurrent (so_policy s) r) rest.

Definition stateArgs (s : stateOptions) : list arg := [tok "STATE"; txt (so_name s)] ++ so_args s.

Lemma loop_states l : Forall readsAs l -> forall r,
  reading r (flat_map stateArgs l) =
  Ok (PolicyReading (pr_type r) (foldl (fun m s => <[so_name s := PMap (closedPolicy (so_policy s))]> m) (pr_states (closeState r)) l) None).
Proof.
  induction 1 as [|s l Hs _ IH]; intros r; [by destruct r as [ty st [[n p]|]]|].
  assert (pr_type (closeState r) = pr_type r) as Et by (by destruct r as [ty st [[n p]|]]).
  cbn [flat_map stateArgs app policyLoop]. rewrite bool_decide_true by done.
  change (argString sprint (txt (so_name s))) with (so_name s). rewrite Hs, IH, Et by done. done.
Qed.

Definition retryState (e : gstr * RetryPolicy) : stateOptions :=
  StateOptions e.1 (appendRetryPolicy e.2) (withRetry (retryMap e.2) emptyPolicy).

Definition nativeMode (mode : gstr) : option pval := if given mode then Some (PText (to_lower (to_upper mode))) else None.

Definition modePolicy (e : gstr * FlowStatePolicy) : stateOptions :=
  StateOptions e.1 ((if given (sy_Mode e.2) then appendText "MODE" (to_upper (sy_Mode e.2)) else []) ++ from_option appendRetryPolicy [] (sy_Retry e.2))
    (PolicyMaps ∅ (fieldsOf [("mode"%string, nativeMode (sy_Mode e.2))]) (from_option retryMap ∅ (sy_Retry e.2)) ∅).

Lemma retryState_reads e : readsAs (retryState e).
Proof.
  intros r rest Hr. assert (Hc : current r = emptyPolicy) by (unfold current; by rewrite Hr).
  unfold retryState, so_args. rewrite loop_retry; by rewrite Hc.
Qed.

Lemma given_upper s : given (to_upper s) = given s.
Proof. by destruct s. Qed.

Lemma mode_token mode token : flowStateModeCommandToken mode = Ok token ->
  token = to_upper mode /\ (to_upper mode = go "PARALLEL" \/ to_upper mode = go "FIFO").
Proof.
  unfold flowStateModeCommandToken. case_bool_decide as H; [|done]. intros [= <-]. split; [done|].
  rewrite !elem_of_cons, elem_of_nil in H. destruct H as [H|[H|[]]]; rewrite H; [by left|by right].
Qed.

Lemma modePolicy_reads e : (given (sy_Mode e.2) = true -> to_upper (sy_Mode e.2) = go "PARALLEL" \/ to_upper (sy_Mode e.2) = go "FIFO") ->
  readsAs (modePolicy e).
Proof.
  intros Hm r rest Hr. assert (Hc : current r = emptyPolicy) by (unfold current; by rewrite Hr).
  assert (Ho : isOpen r = true) by (unfold isOpen; by rewrite Hr).
  unfold modePolicy, so_args, so_policy, nativeMode. rewrite <- app_assoc. destruct (given (sy_Mode e.2)) eqn:E.
  - assert (Hw : written (VString (to_upper (sy_Mode e.2))) = Some (txt (to_upper (sy_Mode e.2)))).
    { destruct (Hm eq_refl) as [-> | ->]; done. }
    unfold appendText, appendOpt. rewrite Hw.
    rewrite (loop_option "MODE" (fun _ => put_policy (go "mode") (PText (to_lower (to_upper (sy_Mode e.2)))))); [|done|].
    2:{ intros v p [= <-]. rewrite Ho. destruct (Hm eq_refl) as [-> | ->]; reflexivity. }
    cbn [putWhen]. rewrite Hc. destruct (sy_Retry e.2) as [policy|]; cbn [from_option]; [|done].
    rewrite loop_retry by (by rewrite current_set). by rewrite current_set, set_set.
  - cbn [app]. destruct (sy_Retry e.2) as [policy|]; cbn [from_option].
    + rewrite loop_retry; by rewrite Hc.
    + change (PolicyMaps ∅ (fieldsOf [("mode"%string, None)]) ∅ ∅) with emptyPolicy. rewrite <- Hc. by rewrite set_current.
Qed.

Lemma statePolicyArgs_ok states : forall l, statePolicyArgs states = Ok l ->
  l = flat_map stateArgs (modePolicy <$> states) /\ Forall readsAs (modePolicy <$> states).
Proof.
  induction states as [|[state policy] states IH]; intros l H; cbn [statePolicyArgs] in H; [by injection H as <-; split|].
  apply rbind_ok in H as (mode & Hm & H). apply rbind_ok in H as (rest & Hr & H). injection H as <-.
  apply IH in Hr as [-> Hall]. unfold modeArgs in Hm.
  assert (mode = (if given (sy_Mode policy) then appendText "MODE" (to_upper (sy_Mode policy)) else []) /\
    (given (sy_Mode policy) = true -> to_upper (sy_Mode policy) = go "PARALLEL" \/ to_upper (sy_Mode policy) = go "FIFO")) as [-> Hw].
  { destruct (given (sy_Mode policy)); [|by injection Hm as <-]. apply rbind_ok in Hm as (token & Ht & [= <-]).
    apply checkedBy_ok, mode_token in Ht as [-> Ht]. by split. }
  split; [|constructor; [by apply modePolicy_reads|done]]. cbn. by rewrite <- !app_assoc.
Qed.

Lemma retry_states_args (states : list (gstr * RetryPolicy)) :
  flat_map (fun e => [tok "STATE"; txt e.1] ++ appendRetryPolicy e.2) states = flat_map stateArgs (retryState <$> states).
Proof. induction states as [|e states IH]; [done|]. cbn [flat_map fmap list_fmap]. by rewrite IH. Qed.

Lemma closed_withRetry m : closedPolicy (withRetry m emptyPolicy) = putIfAny (go "retry") m ∅.
Proof. reflexivity. Qed.

Lemma policyStates_map opt :
  foldl (fun m s => <[so_name s := PMap (closedPolicy (so_policy s))]> m) ∅
    ((retryState <$> sort_entries (po_States opt)) ++ (modePolicy <$> sort_entries (po_StatePolicies opt))) =
  entryMap (prod_map id PMap <$> policyStates opt).
Proof.
  unfold entryMap, policyStates. rewrite fmap_app, !foldl_app, <- !list_fmap_compose. generalize (∅ : payloadMap).
  assert (H1 : forall l (m : payloadMap), foldl (fun m s => <[so_name s := PMap (closedPolicy (so_policy s))]> m) m (retryState <$> l) =
    foldl (fun m e => <[e.1 := e.2]> m) m ((prod_map id PMap ∘ (fun e : gstr * RetryPolicy => (e.1, stateMap [] (Some e.2)))) <$> l)).
  { induction l as [|e l IH]; intros m; [done|]. cbn [fmap list_fmap foldl]. by rewrite IH. }
  assert (H2 : forall l (m : payloadMap), foldl (fun m s => <[so_name s := PMap (closedPolicy (so_policy s))]> m) m (modePolicy <$> l) =
    foldl (fun m e => <[e.1 := e.2]> m) m ((prod_map id PMap ∘ (fun e : gstr * FlowStatePolicy => (e.1, stateMap (sy_Mode e.2) (sy_Retry e.2)))) <$> l)).
  { induction l as [|e l IH]; intros m; [done|]. cbn [fmap list_fmap foldl]. by rewrite IH. }
  intros m. by rewrite H1, H2.
Qed.

(** Options of the type itself are fields of the payload. *)
Lemma loop_field token field value o r rest : pr_open r = None -> argToken sprint (tok token) <> go "STATE" ->
  (forall v p, o = Some v -> putFlowPolicyOption sprint false (tok token) v p = Ok (put_payload (go field) (value v) p)) ->
  reading r (optionArgs token o ++ rest) =
  reading (setCurrent (PolicyMaps (putField (pm_payload (current r)) (field, value <$> o)) (pm_policy (current r)) (pm_retry (current r))
    (pm_retention (current r))) r) rest.
Proof.
  intros Hr Ht Hf. rewrite (loop_option token (fun v => put_payload (go field) (value v))) by (done || (unfold isOpen; by rewrite Hr)).
  f_equal. f_equal. destruct o; [done|]. by destruct (current r).
Qed.

Lemma open_set p r : pr_open r = None -> pr_open (setCurrent p r) = None.
Proof. unfold setCurrent. by intros ->. Qed.

Lemma policy_command t rest : flowCommandOf sprint (tok "FLOW.POLICY.SET" :: t :: rest) = buildFlowPolicySetNative sprint (t :: rest).
Proof. reflexivity. Qed.

(** The request of a policy carries what the options ask for, and nothing else. *)
Theorem policy_set_request flowType opt args : setPolicyArgs flowType opt = Ok args ->
  flowCommandOf sprint args =
  Ok (FlowRequest (go "FLOW.POLICY.SET") nativeOpFlowPolicySet (BodyMap (policyFields flowType opt))
        (bool_decide (is_Some (policyFields flowType opt !! go "expected_generation")))).
Proof.
  unfold setPolicyArgs. intros H. apply rbind_ok in H as (u & _ & H). apply rbind_ok in H as (limit & Hl & H).
  apply rbind_ok in H as (states & Hs & H). injection H as <-. apply appendFlowMaxActiveMS_ok in Hl as ->.
  apply statePolicyArgs_ok in Hs as [-> Hall]. rewrite retry_states_args, <- flat_map_app.
  assert (Hreads : Forall readsAs ((retryState <$> sort_entries (po_States opt)) ++ (modePolicy <$> sort_entries (po_StatePolicies opt)))).
  { apply Forall_app. split; [|done]. apply Forall_fmap, Forall_true. apply retryState_reads. }
  cbn [app]. rewrite policy_command.
  unfold buildFlowPolicySetNative, appendBoolPtr, appendInt64Ptr, segmentArgs, maxActive. cbn [sg_value sg_token].
  set (limit := match canonicalFlowMaxActiveMS _ with Ok _ => _ | Err _ => _ end).
  assert ((if indexesStateMeta opt then [tok "INDEXED_STATE_META"; txt (po_IndexedStateMeta opt)] else []) =
    optionArgs "INDEXED_STATE_META" (if indexesStateMeta opt then Some (txt (po_IndexedStateMeta opt)) else None)) as ->
    by (by destruct (indexesStateMeta opt)).
  rewrite (loop_field "REPLACE" "replace" (fun a => PBool (default false (nativeFlowBool a)))); [|done|done|].
  2:{ intros v p H. destruct (po_Replace opt) as [[]|]; [injection H as <-; reflexivity..|done]. }
  rewrite (loop_field "EXPECTED_GENERATION" "expected_generation" PArg) by (done || by repeat apply open_set).
  rewrite (loop_field "MAX_ACTIVE_MS" "max_active_ms" PArg) by (done || by repeat apply open_set).
  rewrite (loop_field "INDEXED_ATTRIBUTES" "indexed_attributes" PArg) by (done || by repeat apply open_set).
  rewrite (loop_field "INDEXED_STATE_META" "indexed_state_meta" PArg) by (done || by repeat apply open_set).
  rewrite !current_set, !set_set. cbn [pm_payload pm_policy pm_retry pm_retention current pr_type pr_open].
  set (fields := putField _ _).
  assert (Hretry : reading (setCurrent (PolicyMaps fields ∅ ∅ ∅) (PolicyReading (PolicyMaps {[go "type" := PArg (txt flowType)]} ∅ ∅ ∅) ∅ None))
      (from_option appendRetryPolicy [] (po_Retry opt) ++ flat_map stateArgs ((retryState <$> sort_entries (po_States opt)) ++ (modePolicy <$> sort_entries (po_StatePolicies opt)))) =
    reading (PolicyReading (PolicyMaps fields ∅ (from_option retryMap ∅ (po_Retry opt)) ∅) ∅ None)
      (flat_map stateArgs ((retryState <$> sort_entries (po_States opt)) ++ (modePolicy <$> sort_entries (po_StatePolicies opt))))).
  { destruct (po_Retry opt) as [policy|]; [|done]. cbn [from_option]. by rewrite loop_retry. }
  rewrite Hretry, loop_states by done. cbn [rbind pr_type pr_states closeState pr_open pm_payload pm_retry pm_retention].
  rewrite policyStates_map. change (putIfAny (go "retention") ∅ ?m) with m.
  assert (fields = fieldsOf [
        ("type", Some (PArg (txt flowType))); ("replace", PBool <$> po_Replace opt);
        ("expected_generation", PArg ∘ int64 <$> po_ExpectedGeneration opt); segmentField (maxActive (po_MaxActiveMS opt));
        ("indexed_attributes", PArg ∘ nameList <$> po_IndexedAttributes opt);
        ("indexed_state_meta", if indexesStateMeta opt then Some (PArg (txt (po_IndexedStateMeta opt))) else None)]%string) as ->.
  { unfold fields, fieldsOf. cbn [foldl]. destruct (po_Replace opt) as [[]|], (po_ExpectedGeneration opt), limit eqn:El,
      (po_IndexedAttributes opt), (indexesStateMeta opt); unfold limit in El; unfold segmentField, segmentValue, maxActive; cbn [sg_field sg_value]; by rewrite El. }
  reflexivity.
Qed.
End Request.

(** ** An accepted answer grants the options *)

Section Granted.
Context (sprint : val -> gstr).

(** The retry policy of an answer grants what was asked of it. *)
Definition grantsBackoff (b : valueMap) (p : RetryPolicy) : Prop :=
  (given (rp_Backoff p) = true -> to_upper (asString sprint (fieldOf b "kind")) = to_upper (rp_Backoff p)) /\
  (wantsNumber (rp_BaseMSSet p) (rp_BaseMS p) = true -> responseInt64 (fieldOf b "base_ms") = Some (rp_BaseMS p)) /\
  (wantsNumber (rp_MaxMSSet p) (rp_MaxMS p) = true -> responseInt64 (fieldOf b "max_ms") = Some (rp_MaxMS p)) /\
  (wantsNumber (rp_JitterPctSet p) (rp_JitterPct p) = true -> responseInt64 (fieldOf b "jitter_pct") = Some (rp_JitterPct p)).

Definition grantsRetry (m : valueMap) (p : RetryPolicy) : Prop :=
  (wantsNumber (rp_MaxRetriesSet p) (rp_MaxRetries p) = true -> responseInt64 (fieldOf m "max_retries") = Some (rp_MaxRetries p)) /\
  (given (rp_ExhaustedTo p) = true -> asString sprint (fieldOf m "exhausted_to") = rp_ExhaustedTo p) /\
  (wantsBackoff p = true -> exists b, appliedPolicyMap (fieldOf m "backoff") = Ok b /\ grantsBackoff b p).

Definition asksRetry (p : RetryPolicy) : bool :=
  wantsNumber (rp_MaxRetriesSet p) (rp_MaxRetries p) || wantsBackoff p || given (rp_ExhaustedTo p).

Lemma integerWhen_ok wanted values field z : integerWhen wanted values field z = Ok tt -> wanted = true ->
  responseInt64 (fieldOf values field) = Some z.
Proof. unfold integerWhen, validateAppliedPolicyInteger, granted. intros H ->. apply rguard_ok in H. by case_bool_decide. Qed.

Lemma granted_ok (a b : bool) what : granted (negb a || b) what = Ok tt -> a = true -> b = true.
Proof. unfold granted. intros H%rguard_ok ->. exact H. Qed.

Lemma validateRetry_ok v p : validateAppliedRetryPolicy sprint v p = Ok tt -> asksRetry p = true ->
  exists m, appliedPolicyMap v = Ok m /\ grantsRetry m p.
Proof.
  unfold validateAppliedRetryPolicy, asksRetry. intros H Ha. rewrite Ha in H. cbn [negb] in H.
  apply rbind_ok in H as (m & Hm & H). apply rbind_ok in H as ([] & Hr & H). apply rbind_ok in H as ([] & He & H).
  exists m. split; [done|]. split; [by apply integerWhen_ok|]. split.
  { intros Hg. pose proof (granted_ok _ _ _ He Hg). by case_bool_decide. }
  intros Hb. rewrite Hb in H. cbn [negb] in H. apply rbind_ok in H as (b & Hb' & H). apply rbind_ok in H as ([] & Hk & H).
  apply rbind_ok in H as ([] & H1 & H). apply rbind_ok in H as ([] & H2 & H). exists b. split; [done|].
  split; [|split_and!; by apply integerWhen_ok]. intros Hg. pose proof (granted_ok _ _ _ Hk Hg) as E. unfold equal_fold in E. by case_bool_decide.
Qed.

Lemma eachEntry_ok {V} (f : gstr * V -> result policyError unit) m e : eachEntry f m = Ok tt -> e ∈ m -> f e = Ok tt.
Proof.
  unfold eachEntry. destruct (rmapM f m) as [l|] eqn:E; [|done]. intros _ He. apply rmapM_ok in E.
  apply list_elem_of_lookup in He as [i Hi]. destruct (Forall2_lookup_l _ _ _ _ _ E Hi) as ([] & _ & H). done.
Qed.

(** Normalisation leaves no nested pair list: [decodePolicyMap] reads what [appliedPolicyMap] reads. *)
Lemma decodePolicyMap_applied v m m' : appliedPolicyMap v = Ok m -> decodePolicyMap v = Ok m' -> v <> VNil -> m' = Some m.
Proof. unfold decodePolicyMap. intros H. destruct v; rewrite ?H; cbn; intros H' Hv; by injection H' as <-. Qed.

Lemma applied_not_nil m : appliedPolicyMap VNil <> Ok m.
Proof. done. Qed.

Lemma upper_trim s : to_upper (trim_space s) = trim_space (to_upper s).
Proof.
  assert (Hb : forall b, is_space (to_upper_byte b) = is_space b) by (intros []; reflexivity).
  assert (Hl : forall s, to_upper (trim_left s) = trim_left (to_upper s)).
  { induction s0 as [|b s0 IH]; [done|]. cbn. rewrite Hb. destruct (is_space b); [done|]. by cbn. }
  assert (Hr : forall l, to_upper (rev l) = rev (to_upper l)) by (intros; unfold to_upper; apply map_rev).
  unfold trim_space. by rewrite Hr, Hl, Hr, Hl.
Qed.

Lemma texts_strings values names : rmapM (fun v => match responseString v with Some s => Ok s | None => Err (PolicyField "indexed_attributes") end) values = Ok names ->
  asString sprint <$> values = names.
Proof.
  intros H%rmapM_ok. induction H as [|v s values names Hv _ IH]; [done|]. cbn. rewrite IH.
  destruct v; try done; by injection Hv as <-.
Qed.

Lemma snapshot_fields v flowType state snap : decodePolicySnapshot v flowType state = Ok snap ->
  ps_Type snap = flowType /\ policySnapshotGeneration (ps_Raw snap) = Ok (ps_Generation snap) /\
  decodePolicyMaxActiveMS (fieldOf (ps_Raw snap) "max_active_ms") = Ok (ps_MaxActiveMS snap) /\
  decodePolicyMap (fieldOf (ps_Raw snap) "retry") = Ok (ps_Retry snap) /\
  decodePolicyStringList (fieldOf (ps_Raw snap) "indexed_attributes") = Ok (ps_IndexedAttributes snap) /\
  policySnapshotText (ps_Raw snap) "indexed_state_meta" false = Ok (ps_IndexedStateMeta snap) /\
  decodePolicyStates (fieldOf (ps_Raw snap) "states") = Ok (ps_States snap).
Proof.
  unfold decodePolicySnapshot. intros H. repeat (apply rbind_ok in H as (? & ? & H)). injection H as <-.
  repeat match goal with H : rguard _ _ = Ok _ |- _ => apply rguard_ok in H end. z_tests. by split_and!.
Qed.

(** The typed snapshot of a state whose policy the answer has. *)
Lemma state_snapshot states policies state policy : decodePolicyStates states = Ok policies -> states <> VNil ->
  (forall m, appliedPolicyMap states = Ok m -> answeredState m state = Ok policy -> exists st, (state, st) ∈ default [] policies /\ decodePolicyState policy = Ok st).
Proof.
  intros H Hn m Hm Ha. unfold decodePolicyStates in H.
  assert (exists l, policies = Some l /\ rmapM (fun e : gstr * val =>
        let! _ := rguard (given e.1) (PolicyState e.1) in
        let! policy := appliedPolicyMap e.2 in
        let! state := decodePolicyState policy in Ok (e.1, state)) m = Ok l) as (l & -> & Hl).
  { destruct states; try done; rewrite Hm in H; cbn [rbind] in H; destruct (rmapM _ m) as [out|] eqn:E; try done; injection H as <-; by exists out. }
  unfold answeredState in Ha. destruct (assoc_get state m) as [v|] eqn:E; [|done]. apply assoc_get_elem in E.
  apply rmapM_ok in Hl. apply list_elem_of_lookup in E as [i Hi].
  destruct (Forall2_lookup_l _ _ _ _ _ Hl Hi) as ([n st] & Hl' & Hx). cbn in Hx.
  apply rbind_ok in Hx as (? & _ & Hx). rewrite Ha in Hx. cbn [rbind] in Hx. apply rbind_ok in Hx as (st' & Hst & [= <- <-]).
  exists st'. split; [by eapply list_elem_of_lookup_2|done].
Qed.

Lemma decoded_retry v m p : decodePolicyMap v = Ok m -> validateAppliedRetryPolicy sprint v p = Ok tt -> asksRetry p = true ->
  exists r, m = Some r /\ grantsRetry r p.
Proof.
  intros Hd Hv Ha. apply validateRetry_ok in Hv as (r & Hr & Hg); [|done]. exists r. split; [|done].
  eapply decodePolicyMap_applied; [done|done|]. by intros ->.
Qed.

Lemma state_retry policy st p : decodePolicyState policy = Ok st -> validateAppliedRetryPolicy sprint (fieldOf policy "retry") p = Ok tt ->
  asksRetry p = true -> exists r, pt_Retry st = Some r /\ grantsRetry r p.
Proof.
  unfold decodePolicyState. intros H. repeat (apply rbind_ok in H as (? & ? & H)). injection H as <-. cbn. by apply decoded_retry.
Qed.

Lemma state_mode policy st mode : decodePolicyState policy = Ok st -> equal_fold (asString sprint (fieldOf policy "mode")) mode = true ->
  to_upper mode = go "PARALLEL" \/ to_upper mode = go "FIFO" -> pt_Mode st = to_upper mode.
Proof.
  unfold decodePolicyState. intros H. apply rbind_ok in H as (m & Hm & H). repeat (apply rbind_ok in H as (? & ? & H)). injection H as <-.
  cbn [pt_Mode]. unfold equal_fold. case_bool_decide as E; [|done]. intros _ Hmode. unfold decodePolicyStateMode in Hm.
  assert (exists s, responseString (fieldOf policy "mode") = Some s /\ asString sprint (fieldOf policy "mode") = s /\
    (if bool_decide (to_upper (trim_space s) ∈ [FlowStateModeParallel; FlowStateModeFIFO]) then Ok (to_upper (trim_space s)) else Err (PolicyField "mode")) = Ok m)
    as (s & _ & Hs & Hm') by (destruct (fieldOf policy "mode"); cbn [responseString] in Hm; try discriminate Hm; eexists; (split; [reflexivity|split; [reflexivity|exact Hm]])).
  case_bool_decide; [|done]. injection Hm' as <-. rewrite upper_trim, <- Hs, E. by destruct Hmode as [-> | ->].
Qed.

(** What the typed fields of a snapshot grant. *)
Record grants (opt : PolicyOptions) (snap : PolicySnapshot) : Prop := {
  g_attributes names : po_IndexedAttributes opt = Some names -> default [] (ps_IndexedAttributes snap) = names;
  g_stateMeta : indexesStateMeta opt = true -> ps_IndexedStateMeta snap = po_IndexedStateMeta opt;
  g_maxActive k z : canonicalFlowMaxActiveMS (po_MaxActiveMS opt) = Ok (Some (VInt k z)) -> ps_MaxActiveMS snap = Some z;
  g_retry p : po_Retry opt = Some p -> asksRetry p = true -> exists m, ps_Retry snap = Some m /\ grantsRetry m p;
  g_states state p : (state, p) ∈ po_States opt -> asksRetry p = true ->
    exists st m, (state, st) ∈ default [] (ps_States snap) /\ pt_Retry st = Some m /\ grantsRetry m p;
  g_modes state p : (state, p) ∈ po_StatePolicies opt -> given (sy_Mode p) = true ->
    exists st, (state, st) ∈ default [] (ps_States snap) /\ pt_Mode st = to_upper (sy_Mode p);
  g_stateRetries state p retry : (state, p) ∈ po_StatePolicies opt -> sy_Retry p = Some retry -> asksRetry retry = true ->
    exists st m, (state, st) ∈ default [] (ps_States snap) /\ pt_Retry st = Some m /\ grantsRetry m retry;
}.

Lemma nothing_granted opt snap : nothingAsked opt = true -> grants opt snap.
Proof.
  unfold nothingAsked. rewrite !andb_true_iff, !bool_decide_eq_true, negb_true_iff. intros [[[[[H1 H2] H3] H4] H5] H6].
  destruct (po_MaxActiveMS opt) eqn:E; try done.
  constructor; intros *; rewrite ?H2, ?H3, ?H4, ?H5, ?H6, ?E; try done; by intros ?%elem_of_nil.
Qed.

Lemma applied_states snap opt : decodePolicyStates (fieldOf (ps_Raw snap) "states") = Ok (ps_States snap) ->
  validateAppliedStates sprint (ps_Raw snap) opt = Ok tt ->
  (forall state p, (state, p) ∈ po_States opt -> exists policy st, (state, st) ∈ default [] (ps_States snap) /\ decodePolicyState policy = Ok st /\
     validateAppliedRetryPolicy sprint (fieldOf policy "retry") p = Ok tt) /\
  (forall state p, (state, p) ∈ po_StatePolicies opt -> exists policy st, (state, st) ∈ default [] (ps_States snap) /\ decodePolicyState policy = Ok st /\
     (given (sy_Mode p) = true -> equal_fold (asString sprint (fieldOf policy "mode")) (sy_Mode p) = true) /\
     forall retry, sy_Retry p = Some retry -> validateAppliedRetryPolicy sprint (fieldOf policy "retry") retry = Ok tt).
Proof.
  intros Hd H. unfold validateAppliedStates in H.
  assert (Hs : (po_States opt = [] /\ po_StatePolicies opt = []) \/ exists m, appliedPolicyMap (fieldOf (ps_Raw snap) "states") = Ok m /\
    fieldOf (ps_Raw snap) "states" <> VNil /\
    eachEntry (fun e => let! state := answeredState m e.1 in validateAppliedRetryPolicy sprint (fieldOf state "retry") e.2) (po_States opt) = Ok tt /\
    eachEntry (fun e => let! state := answeredState m e.1 in
          let! _ := granted (negb (given (sy_Mode e.2)) || equal_fold (asString sprint (fieldOf state "mode")) (sy_Mode e.2)) "mode" in
          match sy_Retry e.2 with Some retry => validateAppliedRetryPolicy sprint (fieldOf state "retry") retry | None => Ok tt end) (po_StatePolicies opt) = Ok tt).
  { destruct (po_States opt) as [|e1 l1] eqn:E1, (po_StatePolicies opt) as [|e2 l2] eqn:E2; [by left|right..];
      apply rbind_ok in H as (m & Hm & H); apply rbind_ok in H as ([] & Ha & H); exists m;
      (assert (fieldOf (ps_Raw snap) "states" <> VNil /\ appliedPolicyMap (fieldOf (ps_Raw snap) "states") = Ok m) as [? ?]
         by (destruct (fieldOf (ps_Raw snap) "states"); done)); by split_and!. }
  destruct Hs as [[-> ->]|(m & Hm & Hn & H1 & H2)]; [split; by intros state p ?%elem_of_nil|].
  split; intros state p Hp.
  - apply (eachEntry_ok _ _ _ H1) in Hp. cbn [fst snd] in Hp. apply rbind_ok in Hp as (policy & Ha & Hv).
    destruct (state_snapshot _ _ _ _ Hd Hn _ Hm Ha) as (st & Hst & Hdec). by exists policy, st.
  - apply (eachEntry_ok _ _ _ H2) in Hp. cbn [fst snd] in Hp. apply rbind_ok in Hp as (policy & Ha & Hp). apply rbind_ok in Hp as ([] & Hmode & Hr).
    destruct (state_snapshot _ _ _ _ Hd Hn _ Hm Ha) as (st & Hst & Hdec). exists policy, st. split_and!; [done..| |].
    + exact (granted_ok _ _ _ Hmode).
    + intros retry E. by rewrite E in Hr.
Qed.

(** Modes that are sent are modes. *)
Lemma setPolicyArgs_modes flowType opt args state p : setPolicyArgs flowType opt = Ok args -> (state, p) ∈ po_StatePolicies opt ->
  given (sy_Mode p) = true -> to_upper (sy_Mode p) = go "PARALLEL" \/ to_upper (sy_Mode p) = go "FIFO".
Proof.
  unfold setPolicyArgs. intros H Hp Hg. apply rbind_ok in H as ([] & H & _). apply checkedBy_ok in H. unfold validatePolicyOptions in H.
  repeat (apply rbind_ok in H as (? & _ & H)). rewrite each_ok, Forall_forall in H. specialize (H _ Hp). cbn [fst snd] in H.
  apply rbind_ok in H as (? & _ & H). unfold validateStatePolicy in H. rewrite Hg in H. apply rbind_ok in H as (? & H & _).
  apply rbind_ok in H as (token & H & _). by apply mode_token in H as [_ ?].
Qed.

Lemma applied_maxActive raw e k z m : canonicalFlowMaxActiveMS e = Ok (Some (VInt k z)) ->
  validateAppliedMaxActiveMS sprint raw e = Ok tt -> decodePolicyMaxActiveMS raw = Ok m -> m = Some z.
Proof.
  unfold validateAppliedMaxActiveMS, granted. intros -> Hv%rguard_ok. case_bool_decide as Hz; [|done].
  unfold decodePolicyMaxActiveMS. rewrite Hz. destruct raw; try done; destruct (z <=? 0); try done; by intros [= <-].
Qed.

Context (errorText : goError -> gstr).

(** C18: A policy that is set without an error is granted: the typed snapshot returned is of the flow
    type, at a generation within the exact integers, and its fields hold the attributes, the
    limit of activity, the modes and the retry policies that were asked for. *)
Theorem policy_set_granted {W} `{!Service W} flowType opt (w w' : W) snap :
  SetPolicy sprint errorText flowType opt w = (Ok snap, w') ->
  ps_Type snap = flowType /\ 0 <= ps_Generation snap <= maxFlowPolicyGeneration /\ grants (canonicalizePolicyMetadataKeys opt) snap.
Proof.
  unfold SetPolicy. generalize (canonicalizePolicyMetadataKeys opt). clear opt. intros opt H.
  destruct (setPolicyArgs flowType opt) as [args|e] eqn:Ea; [|done]. destruct (send args w) as [[reply|e] w1]; [|done].
  injection H as H ->. destruct reply as [ | |v| | ]; try done. cbn [readSetPolicy] in H.
  apply rbind_ok in H as (s & Hs & H). apply rbind_ok in H as ([] & Hv & [= <-]).
  unfold fromAnswer in Hs, Hv. destruct (decodePolicySnapshot v flowType []) as [s'|] eqn:Ed; [injection Hs as ->|done].
  destruct (validateAppliedPolicy sprint (ps_Raw s) opt) as [[]|] eqn:Ev; [clear Hv|done].
  apply snapshot_fields in Ed as (Ht & Hg & Hm & Hr & Hi & Hx & Hd). split; [done|]. split.
  { unfold policySnapshotGeneration in Hg. destruct (assoc_get _ _); [|done]. destruct (responseInt64 _); [|done].
    destruct (_ || _) eqn:E; [done|]. injection Hg as <-. apply orb_false_iff in E as []. z_tests. lia. }
  unfold validateAppliedPolicy in Ev. destruct (nothingAsked opt) eqn:En; [by apply nothing_granted|].
  apply rbind_ok in Ev as ([] & Ha & Ev). apply rbind_ok in Ev as ([] & Hmeta & Ev). apply rbind_ok in Ev as ([] & Hretry & Ev).
  apply rbind_ok in Ev as ([] & Hmax & Ev). destruct (applied_states _ _ Hd Ev) as [Hst Hsp].
  pose proof (fun state p => setPolicyArgs_modes _ _ _ state p Ea) as Hmodes. constructor.
  - intros names E. rewrite E in Ha. unfold fieldOf in Hi. destruct (assoc_get _ _) as [raw|]; [|done]. change (default VNil (Some raw)) with raw in Hi.
    unfold granted in Ha. apply rguard_ok in Ha. case_bool_decide as Hl; [|done]. subst names.
    destruct raw; try done; cbn [decodePolicyStringList] in Hi; [by injection Hi as <-|].
    destruct (rmapM _ l) as [texts|] eqn:El; [|done]. injection Hi as <-. by rewrite <- (texts_strings _ _ El).
  - intros E. rewrite E in Hmeta. unfold policySnapshotText, fieldOf in Hx. destruct (assoc_get _ _) as [raw|]; [|done]. change (default VNil (Some raw)) with raw in Hx.
    unfold granted in Hmeta. apply rguard_ok in Hmeta. case_bool_decide as Hl; [|done]. rewrite <- Hl.
    destruct raw; try done; by injection Hx as <-.
  - intros k z E. unfold fieldOf in Hm. revert Hmax Hm. generalize (assoc_get (go "max_active_ms") (ps_Raw s)). intros [raw|] Hmax Hm.
    + change (default VNil (Some raw)) with raw in Hm. eapply applied_maxActive; [exact E| |exact Hm]. by destruct (po_MaxActiveMS opt).
    + by destruct (po_MaxActiveMS opt).
  - intros p E Hp. rewrite E in Hretry. by eapply decoded_retry.
  - intros state p Hp Has. destruct (Hst _ _ Hp) as (policy & st & H1 & H2 & H3).
    destruct (state_retry _ _ _ H2 H3 Has) as (m & Hm' & Hgr). by exists st, m.
  - intros state p Hp Hgiven. destruct (Hsp _ _ Hp) as (policy & st & H1 & H2 & H3 & _). exists st. split; [done|].
    eapply state_mode; [done|by apply H3|by eapply Hmodes].
  - intros state p retry Hp E Has. destruct (Hsp _ _ Hp) as (policy & st & H1 & H2 & _ & H3).
    destruct (state_retry _ _ _ H2 (H3 _ E) Has) as (m & Hm' & Hgr). by exists st, m.
Qed.
End Granted.

(** ** A policy that is granted, and one that is granted and refused *)

Module Answered.
(** A server that gives one answer. *)
#[export] Instance server : Service val := {
  send _ w := (Ok (CompactPlain w), w); checkedAt _ := 0; sentAt _ := 0; cancelled _ := None;
}.

Definition retry (backoff : String.string) : RetryPolicy := RetryPolicyOf 5 false (go backoff) 100 false 0 false 0 false [].

(** A policy of a type, with one state in order. *)
Definition options (backoff : String.string) : PolicyOptions :=
  PolicyOf (VInt IInt 60000) (Some (retry backoff)) [] (Some true) None [(go "pay", StatePolicyOf (go "fifo") None)]
    (Some [go " region "; go "region"]) [] false.

Definition text (s : String.string) : val := VString (go s).
Definition entry (k : String.string) (v : val) : gstr * val := (go k, v).

Definition answer : val := VMap None [
  entry "type" (text "order"); entry "generation" (VInt IInt64 4); entry "max_active_ms" (VInt IInt64 60000);
  entry "retry" (VMap None [entry "max_retries" (VInt IInt64 5);
    entry "backoff" (VMap None [entry "kind" (text "fixed"); entry "base_ms" (VInt IInt64 100)])]);
  entry "indexed_attributes" (VArray None [text "region"]);
  entry "states" (VMap None [entry "pay" (VMap None [entry "mode" (text "fifo")])])].

Abbreviation set backoff := (SetPolicy (fun _ => []) (fun _ => []) (go "order") (options backoff) answer).

Example granted_policy : (match (set "fixed").1 with Ok snap => Some (ps_Generation snap, ps_MaxActiveMS snap) | Err _ => None end) = Some (4, Some 60000).
Proof. by_vm. Qed.

(** A padded name is accepted and sent without its padding; the answer that grants it is refused. *)
Example padded_backoff_refused :
  setPolicyArgs (go "order") (options " fixed ") = setPolicyArgs (go "order") (options "fixed") /\
  (match (set " fixed ").1 with Err (PolicyAnswer (PolicyOmitted what)) => Some what | _ => None end) = Some "backoff"%string.
Proof. split; by_vm. Qed.

Lemma policy_set_granted_witness : exists snap, set "fixed" = (Ok snap, answer) /\
  ps_Type snap = go "order" /\ 0 <= ps_Generation snap <= maxFlowPolicyGeneration /\
  grants (fun _ => []) (canonicalizePolicyMetadataKeys (options "fixed")) snap.
Proof.
  destruct (set "fixed") as [[snap|e] w] eqn:E; [|vm_compute in E; discriminate E].
  assert (w = answer) as -> by (apply (f_equal snd) in E; cbn in E; vm_compute in E; by rewrite <- E).
  exists snap. split; [reflexivity|].
  exact (policy_set_granted (fun _ => []) (fun _ => []) (go "order") (options "fixed") answer answer snap E).
Defined.
End Answered.
