(* ===== verification/Snapshot.v ===== *)
(** Copies of command arguments (src/command_snapshot.go).

    Arguments wait in queues while their caller goes on, so they are copied first. Go
    values are modelled as [reflect] sees them, with references into a memory of
    variables, backing arrays and maps that may be shared and cyclic. A copy refers to
    new memory only, and reads there as the argument read when it was taken: nothing
    the caller writes afterwards shows in it. *)

From S2P Require Export Prelude.
From S2P Require Import Wire.

(** ** Go values and memory *)

(** Where a slice lies in its backing array. *)
Record window := Window { w_array : Z; w_off : nat; w_len : nat; w_cap : nat }.

(** A value, with its type and what [reflect] tells of it; address 0 is nil. *)
#[warnings="-register-all"]
Inductive gval :=
| GScalar (t : Z) (size : N) (bits : Z)          (* booleans and numbers *)
| GText (t : Z) (s : gstr)
| GTime (bits : Z)                               (* time.Time *)
| GOpaque (t p : Z)                              (* channels, functions, unsafe pointers *)
| GIface (t : Z) (o : option gval)
| GPtr (t elem p : Z)
| GSlice (t : Z) (bytes : bool) (o : option window)   (* [bytes]: elements of kind Uint8 *)
| GArray (t : Z) (size : N) (l : list gval)
| GMap (t p : Z)
| GStruct (t : Z) (size : N) (fields : list (bool * gval)).   (* whether a field is exported *)

(** Types of map keys, as far as they decide whether a key refers to memory. *)
#[warnings="-register-all"]
Inductive ktype := KPlain | KTime | KInterface | KPointer | KArray (k : ktype) | KStruct (ks : list ktype).

(** The type []byte. *)
Definition bytesType : Z := 1.

Record memory := Memory {
  vars : gmap (Z * Z) gval;                       (* by type and address *)
  arrays : gmap Z (list gval);
  maps : gmap Z (ktype * list (gval * gval));
  next : Z;                                       (* addresses from here on are free *)
}.

#[global] Instance window_eq_dec : EqDecision window.
Proof. solve_decision. Defined.

(** ** What a value reads as: its unfolding, without addresses *)

Inductive label :=
| LScalar (t : Z) (size : N) (bits : Z) | LText (t : Z) (s : gstr) | LTime (bits : Z) | LOpaque (t p : Z) | LNil (t : Z)
| LIface (t : Z) | LPtr (t : Z) | LSlice (t : Z) (bytes : bool) | LArray (t : Z) (size : N) | LMap (t : Z) | LEntry
| LStruct (t : Z) (size : N) (exported : list bool).

#[warnings="-register-all"]
Inductive tree := Tree (l : label) (children : list tree).

(** The elements of a slice. *)
Definition elements (m : memory) (w : window) : option (list gval) :=
  array ← arrays m !! w_array w;
  let l := take (w_len w) (drop (w_off w) array) in
  if (length l =? w_len w)%nat then Some l else None.

Fixpoint view (n : nat) (m : memory) (v : gval) : option tree :=
  match n with
  | O => None
  | S n =>
      match v with
      | GScalar t size bits => Some (Tree (LScalar t size bits) [])
      | GText t s => Some (Tree (LText t s) [])
      | GTime bits => Some (Tree (LTime bits) [])
      | GOpaque t p => Some (Tree (LOpaque t p) [])
      | GIface t None => Some (Tree (LNil t) [])
      | GIface t (Some v) => x ← view n m v; Some (Tree (LIface t) [x])
      | GPtr t elem p =>
          if p =? 0 then Some (Tree (LNil t) []) else v ← vars m !! (elem, p); x ← view n m v; Some (Tree (LPtr t) [x])
      | GSlice t bytes None => Some (Tree (if bytes then LSlice t bytes else LNil t) [])
      | GSlice t bytes (Some w) => l ← elements m w; xs ← mapM (view n m) l; Some (Tree (LSlice t bytes) xs)
      | GArray t size l => xs ← mapM (view n m) l; Some (Tree (LArray t size) xs)
      | GMap t p =>
          if p =? 0 then Some (Tree (LNil t) [])
          else o ← maps m !! p;
               xs ← mapM (fun e => k ← view n m e.1; v ← view n m e.2; Some (Tree LEntry [k; v])) o.2;
               Some (Tree (LMap t) xs)
      | GStruct t size fields => xs ← mapM (fun f => view n m f.2) fields; Some (Tree (LStruct t size fields.*1) xs)
      end
  end.

(** The value unfolds to the tree, in some number of steps. *)
Definition shows (m : memory) (v : gval) (x : tree) : Prop := exists n, view n m v = Some x.

(** ** Copying *)

Inductive commandCloneVisit := VisitPtr (t p : Z) | VisitMap (t p : Z) | VisitSlice (t : Z) (w : window).

#[global] Instance visit_eq_dec : EqDecision commandCloneVisit.
Proof. solve_decision. Defined.

Inductive cloneError := CloneDepth | CloneCycle | CloneUnsafe | CloneUnexported | CloneDangling | CloneFuel.

(** Computations that allocate. *)
Definition alloc (A : Type) : Type := memory -> result cloneError (A * memory).
Definition have {A} (a : A) : alloc A := fun s => Ok (a, s).
Definition refuse {A} (e : cloneError) : alloc A := fun _ => Err e.
Definition next_do {A B} (m : alloc A) (k : A -> alloc B) : alloc B := fun s => let! r := m s in k r.1 r.2.
Notation "'new!' x := m 'in' k" := (next_do m (fun x => k)) (at level 10, x pattern, m at level 100, k at level 200) : go_scope.

Fixpoint newAll {A B} (f : A -> alloc B) (l : list A) : alloc (list B) :=
  match l with
  | [] => have []
  | a :: l => new! b := f a in new! k := newAll f l in have (b :: k)
  end.

Definition found {A} (o : option A) : alloc A := match o with Some a => have a | None => refuse CloneDangling end.

(** [reflect.New], [reflect.MakeSlice] and [reflect.MakeMap], with what is then stored. *)
Definition newVar (elem : Z) (v : gval) : alloc Z :=
  fun s => Ok (next s, Memory (<[(elem, next s) := v]> (vars s)) (arrays s) (maps s) (next s + 1)).
Definition newArray (l : list gval) : alloc Z :=
  fun s => Ok (next s, Memory (vars s) (<[next s := l]> (arrays s)) (maps s) (next s + 1)).
Definition newMap (k : ktype) (l : list (gval * gval)) : alloc Z :=
  fun s => Ok (next s, Memory (vars s) (arrays s) (<[next s := (k, l)]> (maps s)) (next s + 1)).

Definition wholeArray (a : Z) (n : nat) : window := Window a 0 n n.

Fixpoint commandMapKeyNeedsClone (k : ktype) : bool :=
  match k with
  | KPlain | KTime => false
  | KInterface | KPointer => true
  | KArray k => commandMapKeyNeedsClone k
  | KStruct ks => existsb commandMapKeyNeedsClone ks
  end.

Fixpoint commandValueRetainsMutableState (fuel : nat) (v : gval) (depth : Z) : bool :=
  match fuel with
  | O => true
  | S fuel =>
      if nativeMaxEncodeDepth <? depth then true
      else match v with
      | GTime _ | GScalar _ _ _ | GText _ _ => false
      | GIface _ None => false
      | GIface _ (Some v) => commandValueRetainsMutableState fuel v (depth + 1)
      | GPtr _ _ p | GMap _ p | GOpaque _ p => negb (p =? 0)
      | GSlice _ _ o => match o with None => false | Some _ => true end
      | GArray _ _ l => existsb (fun v => commandValueRetainsMutableState fuel v (depth + 1)) l
      | GStruct _ _ fields => existsb (fun f => commandValueRetainsMutableState fuel f.2 (depth + 1)) fields
      end
  end.

(** [enterCommandClone]: the visits of the containers around a value. *)
Definition enterCommandClone (at_ : commandCloneVisit) (visiting : list commandCloneVisit) : alloc (list commandCloneVisit) :=
  if bool_decide (at_ ∈ visiting) then refuse CloneCycle else have (at_ :: visiting).

Section Clone.
(** The caller's memory. *)
Context (src : memory).

Fixpoint cloneCommandReflect (fuel : nat) (value : gval) (visiting : list commandCloneVisit) (depth : Z) : alloc gval :=
  match fuel with
  | O => refuse CloneFuel
  | S fuel =>
      if nativeMaxEncodeDepth <? depth then refuse CloneDepth
      else match value with
      | GIface _ None | GSlice _ _ None | GScalar _ _ _ | GText _ _ | GTime _ => have value
      | GIface t (Some v) => new! v := cloneCommandReflect fuel v visiting (depth + 1) in have (GIface t (Some v))
      | GPtr t elem p =>
          if p =? 0 then have value
          else new! visiting := enterCommandClone (VisitPtr t p) visiting in
               new! v := found (vars src !! (elem, p)) in
               new! v := cloneCommandReflect fuel v visiting (depth + 1) in
               new! p := newVar elem v in have (GPtr t elem p)
      | GMap t p =>
          if p =? 0 then have value
          else new! visiting := enterCommandClone (VisitMap t p) visiting in
               new! o := found (maps src !! p) in
               new! l := newAll (fun e =>
                   new! k := (if commandMapKeyNeedsClone o.1 then cloneCommandReflect fuel e.1 visiting (depth + 1) else have e.1) in
                   new! v := cloneCommandReflect fuel e.2 visiting (depth + 1) in have (k, v)) o.2 in
               new! p := newMap o.1 l in have (GMap t p)
      | GSlice t bytes (Some w) =>
          new! visiting := enterCommandClone (VisitSlice t w) visiting in
          new! l := found (elements src w) in
          new! l := newAll (fun v => cloneCommandReflect fuel v visiting (depth + 1)) l in
          new! a := newArray l in have (GSlice t bytes (Some (wholeArray a (w_len w))))
      | GArray t size l =>
          new! l := newAll (fun v => cloneCommandReflect fuel v visiting (depth + 1)) l in have (GArray t size l)
      | GStruct t size fields =>
          new! fields := newAll (fun f : bool * gval =>
              if f.1 then new! v := cloneCommandReflect fuel f.2 visiting (depth + 1) in have (true, v)
              else if commandValueRetainsMutableState fuel f.2 (depth + 1) then refuse CloneUnexported
              else have f) fields in
          have (GStruct t size fields)
      | GOpaque _ _ => refuse CloneUnsafe
      end
  end.

(** Every level of nesting raises the depth, which ends above [nativeMaxEncodeDepth]. *)
Definition cloneFuel : nat := 66.

(** The type switch of [snapshotCommandArg]: a copy of a []byte that is empty is nil. *)
Definition snapshotCommandArg (arg : option gval) : alloc (option gval) :=
  match arg with
  | None => have None
  | Some v =>
      match v with
      | GScalar _ _ _ | GText _ _ => have arg
      | GSlice t true o =>
          if t =? bytesType then
            match o with
            | None => have arg
            | Some w =>
                new! l := found (elements src w) in
                match l with
                | [] => have (Some (GSlice t true None))
                | _ => new! a := newArray l in have (Some (GSlice t true (Some (wholeArray a (length l)))))
                end
            end
          else new! v := cloneCommandReflect cloneFuel v [] 0 in have (Some v)
      | _ => new! v := cloneCommandReflect cloneFuel v [] 0 in have (Some v)
      end
  end.

Definition freshMemory : memory := Memory ∅ ∅ ∅ (next src).

(** [snapshotCommandArgs]: the copies, and the memory they are in. *)
Definition snapshotCommandArgs (args : list (option gval)) : result cloneError (list (option gval) * memory) :=
  newAll snapshotCommandArg args freshMemory.
End Clone.

(** ** Facts about what values read as *)

(** A memory within another one. *)
Definition within (s s' : memory) : Prop := vars s ⊆ vars s' /\ arrays s ⊆ arrays s' /\ maps s ⊆ maps s'.

#[global] Instance within_preorder : PreOrder within.
Proof.
  split; [by intros s; split|]. intros a b c (A1 & A2 & A3) (B1 & B2 & B3).
  split; [|split]; by etrans.
Qed.

Lemma mapM_mono {A B} (f g : A -> option B) l k : (forall a b, f a = Some b -> g a = Some b) -> mapM f l = Some k -> mapM g l = Some k.
Proof. intros H E%mapM_Some. apply mapM_Some. by eapply Forall2_impl. Qed.

Lemma elements_within m m' w l : within m m' -> elements m w = Some l -> elements m' w = Some l.
Proof.
  intros (_ & H & _) E. unfold elements in *. destruct (arrays m !! _) as [a|] eqn:Ea; [|done].
  by rewrite (lookup_weaken _ _ _ _ Ea H).
Qed.

Lemma view_mono n : forall n' m m' v x, (n <= n')%nat -> within m m' -> view n m v = Some x -> view n' m' v = Some x.
Proof.
  induction n as [|n IH]; [done|]. intros [|n'] m m' v x Hn Hw H; [lia|].
  assert (IH' : forall v x, view n m v = Some x -> view n' m' v = Some x) by (intros; eapply IH; [lia|done|done]).
  destruct v as [| | | |t [v|]|t e p|t b [w|]|t z l|t p|t z fs]; cbn in *; try done.
  - destruct (view n m v) eqn:E; [|done]. by rewrite (IH' _ _ E).
  - destruct (p =? 0); [done|]. destruct (vars m !! _) as [v|] eqn:E; [|done]. cbn in H.
    rewrite (lookup_weaken _ _ _ _ E (proj1 Hw)). cbn. destruct (view n m v) eqn:Ev; [|done]. by rewrite (IH' _ _ Ev).
  - destruct (elements m w) as [l|] eqn:E; [|done]. rewrite (elements_within _ _ _ _ Hw E). cbn in *.
    destruct (mapM _ l) eqn:El; [|done]. by rewrite (mapM_mono _ _ _ _ IH' El).
  - destruct (mapM _ l) eqn:El; [|done]. by rewrite (mapM_mono _ _ _ _ IH' El).
  - destruct (p =? 0); [done|]. destruct (maps m !! p) as [o|] eqn:E; [|done]. cbn in H.
    rewrite (lookup_weaken _ _ _ _ E (proj2 (proj2 Hw))). cbn. destruct (mapM _ o.2) eqn:El; [|done].
    erewrite mapM_mono; [exact H| |exact El]. intros [k v] y Hy. cbn in *.
    destruct (view n m k) eqn:Ek; [|done]. rewrite (IH' _ _ Ek). cbn in *.
    destruct (view n m v) eqn:Ev; [|done]. by rewrite (IH' _ _ Ev).
  - destruct (mapM _ fs) eqn:El; [|done]. erewrite mapM_mono; [exact H| |exact El]. intros f y. apply IH'.
Qed.

Lemma shows_within m m' v x : within m m' -> shows m v x -> shows m' v x.
Proof. intros Hw [n H]. exists n. by eapply view_mono. Qed.

Lemma shows_det m v x y : shows m v x -> shows m v y -> x = y.
Proof.
  intros [n H] [n' H']. apply (view_mono _ (Nat.max n n') m m) in H; [|lia|done].
  apply (view_mono _ (Nat.max n n') m m) in H'; [|lia|done]. congruence.
Qed.

Lemma shows_all {A} m (f : A -> gval) l xs : Forall2 (fun a x => shows m (f a) x) l xs ->
  exists n, mapM (fun a => view n m (f a)) l = Some xs.
Proof.
  induction 1 as [|a x l xs [n H] _ [k IH]]; [by exists O|]. exists (Nat.max n k).
  cbn. rewrite (view_mono n (Nat.max n k) m m _ _ ltac:(lia) ltac:(done) H). cbn.
  erewrite mapM_mono; [done| |exact IH]. intros b y Hy. eapply view_mono; [|done|exact Hy]. lia.
Qed.

(** How each kind of value is shown. *)
Lemma shows_flat m v x : view 1 m v = Some x -> shows m v x.
Proof. by exists 1%nat. Qed.

Lemma shows_iface m t v x : shows m v x -> shows m (GIface t (Some v)) (Tree (LIface t) [x]).
Proof. intros [n H]. exists (S n). cbn. by rewrite H. Qed.

Lemma shows_ptr m t elem p v x : p <> 0 -> vars m !! (elem, p) = Some v -> shows m v x -> shows m (GPtr t elem p) (Tree (LPtr t) [x]).
Proof. intros Hp Hv [n H]. exists (S n). cbn. rewrite (proj2 (Z.eqb_neq _ _) Hp), Hv. cbn. by rewrite H. Qed.

Lemma shows_slice m t bytes w l xs : elements m w = Some l -> Forall2 (shows m) l xs ->
  shows m (GSlice t bytes (Some w)) (Tree (LSlice t bytes) xs).
Proof.
  intros Hl H. destruct (shows_all m id l xs H) as [n E]. exists (S n). cbn. rewrite Hl. cbn. change (mapM (view n m) l = Some xs) in E. by rewrite E.
Qed.

Lemma shows_array m t size l xs : Forall2 (shows m) l xs -> shows m (GArray t size l) (Tree (LArray t size) xs).
Proof. intros H. destruct (shows_all m id l xs H) as [n E]. exists (S n). cbn. change (mapM (view n m) l = Some xs) in E. by rewrite E. Qed.

Lemma shows_struct m t size (fields : list (bool * gval)) xs : Forall2 (fun f x => shows m f.2 x) fields xs ->
  shows m (GStruct t size fields) (Tree (LStruct t size fields.*1) xs).
Proof. intros H. destruct (shows_all m snd fields xs) as [n E]; [done|]. exists (S n). cbn. by rewrite E. Qed.

Definition showsEntry (m : memory) (e : gval * gval) (x : tree) : Prop :=
  exists k v, shows m e.1 k /\ shows m e.2 v /\ x = Tree LEntry [k; v].

Lemma shows_map m t p o xs : p <> 0 -> maps m !! p = Some o -> Forall2 (showsEntry m) o.2 xs -> shows m (GMap t p) (Tree (LMap t) xs).
Proof.
  intros Hp Ho H.
  assert (exists n, mapM (fun e => k ← view n m e.1; v ← view n m e.2; Some (Tree LEntry [k; v])) o.2 = Some xs) as [n E].
  { clear Ho. induction H as [|e x l xs (k & v & [n Hk] & [n' Hv] & ->) _ [j IH]]; [by exists O|]. exists (Nat.max j (Nat.max n n')). cbn.
    rewrite (view_mono n (Nat.max j (Nat.max n n')) m m _ _ ltac:(lia) ltac:(done) Hk). cbn. rewrite (view_mono n' (Nat.max j (Nat.max n n')) m m _ _ ltac:(lia) ltac:(done) Hv). cbn.
    erewrite mapM_mono; [done| |exact IH]. intros [k' v'] y Hy. cbn in *.
    destruct (view j m k') eqn:Ek; [|done]. rewrite (view_mono j (Nat.max j (Nat.max n n')) m m _ _ ltac:(lia) ltac:(done) Ek). cbn in *.
    destruct (view j m v') eqn:Ev; [|done]. by rewrite (view_mono j (Nat.max j (Nat.max n n')) m m _ _ ltac:(lia) ltac:(done) Ev). }
  exists (S n). cbn. rewrite (proj2 (Z.eqb_neq _ _) Hp), Ho. cbn. by rewrite E.
Qed.

(** ** Values that refer to no memory *)

Fixpoint plain (v : gval) : bool :=
  match v with
  | GScalar _ _ _ | GText _ _ | GTime _ | GOpaque _ _ => true
  | GIface _ o => match o with None => true | Some v => plain v end
  | GPtr _ _ p | GMap _ p => p =? 0
  | GSlice _ _ o => match o with None => true | Some _ => false end
  | GArray _ _ l => forallb plain l
  | GStruct _ _ fields => forallb (fun f => plain f.2) fields
  end.

Section gval_ind.
Variable P : gval -> Prop.
Hypothesis Hflat : forall v, match v with GIface _ (Some _) | GArray _ _ _ | GStruct _ _ _ => False | _ => True end -> P v.
Hypothesis Hiface : forall t v, P v -> P (GIface t (Some v)).
Hypothesis Harray : forall t z l, Forall P l -> P (GArray t z l).
Hypothesis Hstruct : forall t z fields, Forall (fun f : bool * gval => P f.2) fields -> P (GStruct t z fields).

Fixpoint gval_nested_ind (v : gval) : P v :=
  match v with
  | GIface t (Some v) => Hiface t v (gval_nested_ind v)
  | GArray t z l => Harray t z l ((fix go l : Forall P l :=
      match l with [] => Forall_nil_2 _ | v :: l => Forall_cons_2 _ _ _ (gval_nested_ind v) (go l) end) l)
  | GStruct t z fs => Hstruct t z fs ((fix go fs : Forall (fun f : bool * gval => P f.2) fs :=
      match fs with
      | [] => Forall_nil_2 _
      | (b, v) :: fs => Forall_cons_2 (fun f : bool * gval => P f.2) (b, v) fs (gval_nested_ind v) (go fs)
      end) fs)
  | GScalar _ _ _ => Hflat (GScalar _ _ _) I
  | GText _ _ => Hflat (GText _ _) I
  | GTime _ => Hflat (GTime _) I
  | GOpaque _ _ => Hflat (GOpaque _ _) I
  | GIface _ None => Hflat (GIface _ None) I
  | GPtr _ _ _ => Hflat (GPtr _ _ _) I
  | GSlice _ _ _ => Hflat (GSlice _ _ _) I
  | GMap _ _ => Hflat (GMap _ _) I
  end.
End gval_ind.

(** A value that refers to no memory reads the same in any. *)
Lemma plain_shows v : plain v = true -> exists x, forall m, shows m v x.
Proof.
  induction v as [v Hv|t v IH|t z l IH|t z fields IH] using gval_nested_ind; intros H.
  - destruct v as [| | | |t [v|]|t e p|t b [w|]|t z l|t p|t z fs]; try done;
      try (eexists; intros m; apply shows_flat; cbn; done);
      cbn in H; eexists; intros m; apply shows_flat; cbn; by rewrite H.
  - destruct (IH H) as [x Hx]. eexists. intros m. by apply shows_iface.
  - assert (exists xs, forall m, Forall2 (shows m) l xs) as [xs Hxs]; [|exists (Tree (LArray t z) xs); intros m; by apply shows_array].
    cbn in H. induction IH as [|v l Hv _ IHl]; [by exists []|]. cbn in H. apply andb_prop in H as [H1 H2].
    destruct (Hv H1) as [x Hx], (IHl H2) as [xs Hxs]. exists (x :: xs). by constructor.
  - assert (exists xs, forall m, Forall2 (fun f x => shows m f.2 x) fields xs) as [xs Hxs];
      [|eexists; intros m; by apply shows_struct].
    cbn in H. induction IH as [|v l Hv _ IHl]; [by exists []|]. cbn in H. apply andb_prop in H as [H1 H2].
    destruct (Hv H1) as [x Hx], (IHl H2) as [xs Hxs]. exists (x :: xs). by constructor.
Qed.

Lemma retains_plain fuel : forall v depth, commandValueRetainsMutableState fuel v depth = false -> plain v = true.
Proof.
  induction fuel as [|fuel IH]; [done|]. intros v depth H. cbn in H. destruct (_ <? depth); [done|].
  destruct v as [| | | |t [v|]|t e p|t b [w|]|t z l|t p|t z fs]; cbn in *; try done; try (by apply negb_false_iff in H); [by eapply IH| |].
  - induction l as [|v l IHl]; [done|]. cbn in *. apply orb_false_iff in H as [H1 H2]. by rewrite (IH _ _ H1), IHl.
  - induction fs as [|f l IHl]; [done|]. cbn in *. apply orb_false_iff in H as [H1 H2]. by rewrite (IH _ _ H1), IHl.
Qed.

(** Keys have the type of their map. *)
Fixpoint keyHasType (k : ktype) (v : gval) : bool :=
  match k, v with
  | KPlain, (GScalar _ _ _ | GText _ _ | GOpaque _ _) => true
  | KTime, GTime _ => true
  | KInterface, GIface _ _ => true
  | KPointer, GPtr _ _ _ => true
  | KArray k, GArray _ _ l => forallb (keyHasType k) l
  | KStruct ks, GStruct _ _ fields =>
      (fix go ks fields :=
         match ks, fields with
         | [], [] => true
         | k :: ks, f :: fields => keyHasType k (f : bool * gval).2 && go ks fields
         | _, _ => false
         end) ks fields
  | _, _ => false
  end.

Lemma key_plain v : forall k, keyHasType k v = true -> commandMapKeyNeedsClone k = false -> plain v = true.
Proof.
  induction v as [v Hv|t v IH|t z l IH|t z fields IH] using gval_nested_ind; intros k Hk Hn.
  - by destruct v as [| | | |t [v|]|t e p|t b [w|]|t z l|t p|t z fs], k.
  - by destruct k.
  - destruct k as [| | | |k|]; try done. cbn in *. induction IH as [|v l Hv _ IHl]; [done|]. cbn in *.
    apply andb_prop in Hk as [H1 H2]. by rewrite (Hv _ H1 Hn), IHl.
  - destruct k as [| | | | |ks]; try done. cbn in *. revert ks Hk Hn.
    induction IH as [|f fs Hf _ IHl]; intros ks Hk Hn; [done|]. destruct ks as [|k ks]; [done|]. cbn in *.
    apply andb_prop in Hk as [H1 H2]. apply orb_false_iff in Hn as [Hn1 Hn2]. by rewrite (Hf _ H1 Hn1), (IHl _ H2 Hn2).
Qed.

Definition wfMemory (m : memory) : Prop := forall p k l, maps m !! p = Some (k, l) -> Forall (fun e => keyHasType k e.1 = true) l.

(** ** Copies *)

Section Copies.
Context (src : memory).

(** Memory that is all new: no address below the first one that was free. *)
Definition fresh (s : memory) : Prop :=
  next src <= next s /\
  (forall k v, vars s !! k = Some v -> next src <= k.2 < next s) /\
  (forall p l, arrays s !! p = Some l -> next src <= p < next s) /\
  (forall p o, maps s !! p = Some o -> next src <= p < next s).

Context (wf : wfMemory src) (next_pos : 0 < next src).

Definition copyOf (s : memory) (v v' : gval) : Prop := exists x, shows src v x /\ shows s v' x.

(** What a step of copying leaves behind. *)
Definition copies {A B} (R : memory -> A -> B -> Prop) (f : A -> alloc B) (a : A) : Prop :=
  forall s b s', f a s = Ok (b, s') -> fresh s -> within s s' /\ fresh s' /\ R s' a b.

Lemma next_do_ok {A B} (m : alloc A) (k : A -> alloc B) s r : next_do m k s = Ok r ->
  exists a s1, m s = Ok (a, s1) /\ k a s1 = Ok r.
Proof. unfold next_do. intros ([a s1] & H1 & H2)%rbind_ok. by exists a, s1. Qed.

Lemma found_ok {A} (o : option A) s a s' : found o s = Ok (a, s') -> o = Some a /\ s' = s.
Proof. destruct o; cbn; intros [=]; by subst. Qed.

Lemma enter_ok v visiting s l s' : enterCommandClone v visiting s = Ok (l, s') -> s' = s.
Proof. unfold enterCommandClone. case_bool_decide; intros [=]; by subst. Qed.

Lemma newAll_copies {A B} (R : memory -> A -> B -> Prop) (f : A -> alloc B) l :
  (forall s s' a b, within s s' -> R s a b -> R s' a b) -> Forall (copies R f) l ->
  copies (fun s => Forall2 (R s)) (newAll f) l.
Proof.
  intros Hmono. induction 1 as [|a l Ha _ IH]; intros s k s' H Hs; cbn in H; [by injection H as <- <-; split_and!|].
  apply next_do_ok in H as (b & s1 & H1 & H). apply next_do_ok in H as (k' & s2 & H2 & H). injection H as <- <-.
  destruct (Ha _ _ _ H1 Hs) as (W1 & F1 & R1), (IH _ _ _ H2 F1) as (W2 & F2 & R2).
  split_and!; [by etrans|done|]. constructor; [by eapply Hmono|exact R2].
Qed.

Lemma copyOf_within s s' v v' : within s s' -> copyOf s v v' -> copyOf s' v v'.
Proof. intros Hw (x & H1 & H2). exists x. split; [done|by eapply shows_within]. Qed.

Lemma newVar_fresh elem v s : fresh s ->
  let s' := Memory (<[(elem, next s) := v]> (vars s)) (arrays s) (maps s) (next s + 1) in within s s' /\ fresh s'.
Proof.
  intros (H1 & H2 & H3 & H4) s'. split; [split_and!; try done|split_and!; cbn; [lia|..]].
  - apply insert_subseteq, eq_None_not_Some. intros [w Hw]. apply H2 in Hw. cbn in Hw. lia.
  - intros k w Hk. apply lookup_insert_Some in Hk as [[<- _]|[_ Hk]]; [cbn; lia|]. apply H2 in Hk. lia.
  - intros p l Hl. apply H3 in Hl. lia.
  - intros p l Hl. apply H4 in Hl. lia.
Qed.

Lemma newArray_fresh l s : fresh s ->
  let s' := Memory (vars s) (<[next s := l]> (arrays s)) (maps s) (next s + 1) in within s s' /\ fresh s'.
Proof.
  intros (H1 & H2 & H3 & H4) s'. split; [split_and!; try done|split_and!; cbn; [lia|..]].
  - apply insert_subseteq, eq_None_not_Some. intros [w Hw]. apply H3 in Hw. lia.
  - intros p w Hl. apply H2 in Hl. lia.
  - intros k w Hk. apply lookup_insert_Some in Hk as [[<- _]|[_ Hk]]; [lia|]. apply H3 in Hk. lia.
  - intros p w Hl. apply H4 in Hl. lia.
Qed.

Lemma newMap_fresh o s : fresh s ->
  let s' := Memory (vars s) (arrays s) (<[next s := o]> (maps s)) (next s + 1) in within s s' /\ fresh s'.
Proof.
  intros (H1 & H2 & H3 & H4) s'. split; [split_and!; try done|split_and!; cbn; [lia|..]].
  - apply insert_subseteq, eq_None_not_Some. intros [w Hw]. apply H4 in Hw. lia.
  - intros p w Hl. apply H2 in Hl. lia.
  - intros p w Hl. apply H3 in Hl. lia.
  - intros k w Hk. apply lookup_insert_Some in Hk as [[<- _]|[_ Hk]]; [lia|]. apply H4 in Hk. lia.
Qed.

Lemma have_plain s v : fresh s -> plain v = true -> within s s /\ fresh s /\ copyOf s v v.
Proof. intros Hs [x Hx]%plain_shows. split_and!; [done|done|]. by exists x. Qed.

(** Elements copied one by one. *)
Lemma copyOf_list s l l' : Forall2 (copyOf s) l l' -> exists xs, Forall2 (shows src) l xs /\ Forall2 (shows s) l' xs.
Proof.
  induction 1 as [|v v' l l' (x & H1 & H2) _ (xs & H3 & H4)]; [by exists []|]. exists (x :: xs). by split; constructor.
Qed.

Definition copyField (s : memory) (f f' : bool * gval) : Prop := f.1 = f'.1 /\ copyOf s f.2 f'.2.
Definition copyEntry (s : memory) (e e' : gval * gval) : Prop := copyOf s e.1 e'.1 /\ copyOf s e.2 e'.2.

Lemma copyField_list s l l' : Forall2 (copyField s) l l' -> l.*1 = l'.*1 /\
  exists xs, Forall2 (fun f x => shows src f.2 x) l xs /\ Forall2 (fun f x => shows s f.2 x) l' xs.
Proof.
  induction 1 as [|v v' l l' [H (x & H1 & H2)] _ [H5 (xs & H3 & H4)]]; [split; [done|by exists []]|].
  split; [cbn; congruence|]. exists (x :: xs). by split; constructor.
Qed.

Lemma copyEntry_list s l l' : Forall2 (copyEntry s) l l' -> exists xs, Forall2 (showsEntry src) l xs /\ Forall2 (showsEntry s) l' xs.
Proof.
  induction 1 as [|v v' l l' [(x & H1 & H2) (y & H3 & H4)] _ (xs & H5 & H6)]; [by exists []|].
  exists (Tree LEntry [x; y] :: xs). split; constructor; try done; by exists x, y.
Qed.

Section Elements.
Context (fuel : nat) (IH : forall v visiting depth, copies copyOf (fun v => cloneCommandReflect src fuel v visiting depth) v).

Lemma entry_copies k visiting depth e : keyHasType k e.1 = true ->
  copies copyEntry (fun e =>
    new! k := (if commandMapKeyNeedsClone k then cloneCommandReflect src fuel e.1 visiting depth else have e.1) in
    new! v := cloneCommandReflect src fuel e.2 visiting depth in have (k, v)) e.
Proof.
  destruct e as [k0 v0]. intros Hk s b s' H Hs. cbn in H, Hk.
  apply next_do_ok in H as (k1 & s1 & H1 & H). apply next_do_ok in H as (v1 & s2 & H2 & H). injection H as <- <-.
  assert (within s s1 /\ fresh s1 /\ copyOf s1 k0 k1) as (W1 & F1 & C1).
  { destruct (commandMapKeyNeedsClone k) eqn:Ek; [exact (IH _ _ _ _ _ _ H1 Hs)|]. injection H1 as <- <-.
    apply have_plain; [done|]. by eapply key_plain. }
  destruct (IH _ _ _ _ _ _ H2 F1) as (W2 & F2 & C2).
  split_and!; [by etrans|done|]. split; [by eapply copyOf_within|done].
Qed.

Lemma field_copies visiting depth f :
  copies copyField (fun f : bool * gval =>
    if f.1 then new! v := cloneCommandReflect src fuel f.2 visiting depth in have (true, v)
    else if commandValueRetainsMutableState fuel f.2 depth then refuse CloneUnexported else have f) f.
Proof.
  destruct f as [[] v]; intros s b s' H Hs; cbn in H.
  - apply next_do_ok in H as (v1 & s1 & H1 & H). injection H as <- <-.
    destruct (IH _ _ _ _ _ _ H1 Hs) as (? & ? & ?). by split_and!.
  - destruct (commandValueRetainsMutableState _ _ _) eqn:Er; [done|]. injection H as <- <-.
    apply retains_plain in Er. destruct (have_plain _ _ Hs Er) as (? & ? & ?). by split_and!.
Qed.
End Elements.

Lemma elements_length m w l : elements m w = Some l -> length l = w_len w.
Proof.
  unfold elements. destruct (arrays m !! _); [|done]. cbn. destruct (_ =? _)%nat eqn:E; [|done].
  apply Nat.eqb_eq in E. by intros [= <-].
Qed.

(** Memory behind a new slice. *)
Lemma shows_newArray s t bytes l xs : Forall2 (shows s) l xs -> fresh s ->
  let s' := Memory (vars s) (<[next s := l]> (arrays s)) (maps s) (next s + 1) in
  within s s' /\ fresh s' /\ shows s' (GSlice t bytes (Some (wholeArray (next s) (length l)))) (Tree (LSlice t bytes) xs).
Proof.
  intros X F s'. destruct (newArray_fresh l s F) as [W F']. split_and!; [done..|].
  eapply shows_slice; [|eapply Forall2_impl; [exact X|intros; by eapply shows_within]].
  unfold elements. cbn. rewrite lookup_insert_eq. cbn. by rewrite drop_0, firstn_all, Nat.eqb_refl.
Qed.

(** A copy lies in new memory and reads as the value does. *)
Lemma clone_copies fuel : forall v visiting depth,
  copies copyOf (fun v => cloneCommandReflect src fuel v visiting depth) v.
Proof.
  induction fuel as [|fuel IH]; [done|]. intros v visiting depth s b s' H Hs. cbn in H.
  destruct (_ <? depth); [done|].
  destruct v as [| | | |t [v|]|t e p|t bytes [w|]|t z l|t p|t z fs]; try done;
    try (injection H as <- <-; by apply have_plain).
  - apply next_do_ok in H as (v' & s1 & H1 & H). injection H as <- <-.
    destruct (IH _ _ _ _ _ _ H1 Hs) as (W & F & x & X1 & X2). split_and!; [done|done|].
    exists (Tree (LIface t) [x]). split; by apply shows_iface.
  - destruct (p =? 0) eqn:Ep; [injection H as <- <-; by apply have_plain|]. z_tests.
    apply next_do_ok in H as (vis & s1 & ->%enter_ok & H). apply next_do_ok in H as (v & s1 & [Hv ->]%found_ok & H).
    apply next_do_ok in H as (v' & s1 & H1 & H). destruct (IH _ _ _ _ _ _ H1 Hs) as (W & F & x & X1 & X2).
    destruct (newVar_fresh e v' s1 F) as [W' F']. injection H as <- <-. split_and!; [by etrans|done|].
    exists (Tree (LPtr t) [x]). split; [by eapply shows_ptr|].
    eapply shows_ptr; [destruct F as (? & _); lia|apply lookup_insert_eq|by eapply shows_within].
  - apply next_do_ok in H as (vis & s1 & ->%enter_ok & H). apply next_do_ok in H as (l & s1 & [Hl ->]%found_ok & H).
    apply next_do_ok in H as (l' & s1 & H1 & H).
    destruct (newAll_copies copyOf _ _ copyOf_within (Forall_true _ _ (fun v => IH v _ _)) _ _ _ H1 Hs) as (W & F & X).
    apply copyOf_list in X as (xs & X1 & X2). injection H as <- <-.
    rewrite <- (elements_length _ _ _ Hl), (Forall2_length _ _ _ X1), <- (Forall2_length _ _ _ X2).
    destruct (shows_newArray s1 t bytes l' xs X2 F) as (W' & F' & X'). split_and!; [by etrans|done|].
    exists (Tree (LSlice t bytes) xs). split; [by eapply shows_slice|done].
  - apply next_do_ok in H as (l' & s1 & H1 & H).
    destruct (newAll_copies copyOf _ _ copyOf_within (Forall_true _ _ (fun v => IH v _ _)) _ _ _ H1 Hs) as (W & F & X).
    injection H as <- <-. split_and!; [done|done|]. apply copyOf_list in X as (xs & X1 & X2).
    exists (Tree (LArray t z) xs). split; by apply shows_array.
  - destruct (p =? 0) eqn:Ep; [injection H as <- <-; by apply have_plain|]. z_tests.
    apply next_do_ok in H as (vis & s1 & ->%enter_ok & H). apply next_do_ok in H as ([k l] & s1 & [Ho ->]%found_ok & H). cbn in H.
    apply next_do_ok in H as (l' & s1 & H1 & H).
    assert (within s s1 /\ fresh s1 /\ Forall2 (copyEntry s1) l l') as (W & F & X); [refine (newAll_copies copyEntry _ _ _ _ _ _ _ H1 Hs)|].
    { intros s0 s2 a b' W [C1 C2]. by split; eapply copyOf_within. }
    { eapply Forall_impl; [by eapply wf|]. intros e He. by apply entry_copies. }
    destruct (newMap_fresh (k, l') s1 F) as [W' F']. injection H as <- <-. split_and!; [by etrans|done|].
    apply copyEntry_list in X as (xs & X1 & X2). exists (Tree (LMap t) xs). split; [by eapply shows_map|].
    eapply shows_map; [destruct F as (? & _); lia|apply lookup_insert_eq|].
    eapply Forall2_impl; [exact X2|]. intros e x (k1 & v1 & K1 & K2 & ->). exists k1, v1. split_and!; [by eapply shows_within..|done].
  - apply next_do_ok in H as (l' & s1 & H1 & H).
    assert (within s s1 /\ fresh s1 /\ Forall2 (copyField s1) fs l') as (W & F & X); [refine (newAll_copies copyField _ _ _ _ _ _ _ H1 Hs)|].
    { intros s0 s2 a b' W [C1 C2]. split; [done|by eapply copyOf_within]. }
    { apply Forall_true. intros f. by apply field_copies. }
    injection H as <- <-. split_and!; [done|done|]. apply copyField_list in X as (Hf & xs & X1 & X2).
    exists (Tree (LStruct t z fs.*1) xs). split; [by apply shows_struct|]. rewrite Hf. by apply shows_struct.
Qed.

(** What an argument shows; a nil interface shows nothing. *)
Definition showsArg (m : memory) (a : option gval) (x : option tree) : Prop :=
  match a, x with None, None => True | Some v, Some x => shows m v x | _, _ => False end.

(** The bytes of a []byte refer to no memory. *)
Definition bytesArg (a : option gval) : Prop :=
  match a with
  | Some (GSlice _ true (Some w)) => forall l, elements src w = Some l -> forallb plain l = true
  | _ => True
  end.

Definition copyArg (s : memory) (a a' : option gval) : Prop := exists x, showsArg src a x /\ showsArg s a' x.

Lemma copyArg_within s s' a a' : within s s' -> copyArg s a a' -> copyArg s' a a'.
Proof.
  intros Hw (x & H1 & H2). exists x. split; [done|]. destruct a', x; try done. by eapply shows_within.
Qed.

Lemma copyArg_some s v v' : copyOf s v v' -> copyArg s (Some v) (Some v').
Proof. intros (x & H1 & H2). by exists (Some x). Qed.

Lemma plain_list l s : forallb plain l = true -> exists xs, Forall2 (shows src) l xs /\ Forall2 (shows s) l xs.
Proof.
  induction l as [|v l IH]; [by exists []|]. intros [Hv Hl]%andb_prop.
  destruct (plain_shows _ Hv) as [x Hx], (IH Hl) as (xs & H1 & H2). exists (x :: xs). by split; constructor.
Qed.

Lemma arg_copies a : bytesArg a -> copies copyArg (snapshotCommandArg src) a.
Proof.
  intros Ha s b s' H Hs.
  assert (Hclone : forall v, (new! v := cloneCommandReflect src cloneFuel v [] 0 in have (Some v)) s = Ok (b, s') ->
    within s s' /\ fresh s' /\ copyArg s' (Some v) b).
  { clear H. intros v H. apply next_do_ok in H as (v' & s1 & H1 & H). injection H as <- <-.
    destruct (clone_copies _ _ _ _ _ _ _ H1 Hs) as (W & F & C). split_and!; [done..|]. by apply copyArg_some. }
  assert (Hplain : forall v, plain v = true -> have (Some v) s = Ok (b, s') -> within s s' /\ fresh s' /\ copyArg s' (Some v) b).
  { clear H. intros v Hv [= <- <-]. destruct (have_plain _ _ Hs Hv) as (W & F & C). split_and!; [done..|]. by apply copyArg_some. }
  destruct a as [v|]; unfold snapshotCommandArg in H; [|unfold have in H; injection H as <- <-; split_and!; [done..|by exists None]].
  destruct v as [| | | |t [v|]|t e p|t [] o|t z l|t p|t z fs]; try exact (Hclone _ H);
    try (refine (Hplain _ _ H); done).
  destruct (t =? bytesType); [|exact (Hclone _ H)]. destruct o as [w|].
  - apply next_do_ok in H as (l & s1 & [Hl ->]%found_ok & H). cbn in Ha. pose proof (plain_list _ s (Ha _ Hl)) as (xs & X1 & X2).
    destruct l as [|v l]; [injection H as <- <-; split_and!; [done..|]|].
    + apply copyArg_some. exists (Tree (LSlice t true) []). split; [eapply shows_slice; [done|by constructor]|by apply shows_flat].
    + injection H as <- <-. destruct (shows_newArray s t true (v :: l) xs X2 Hs) as (W & F & X). split_and!; [done..|].
      apply copyArg_some. exists (Tree (LSlice t true) xs). split; [by eapply shows_slice|done].
  - injection H as <- <-. split_and!; [done..|]. apply copyArg_some. eexists. by split; apply shows_flat.
Qed.

(** C16: arguments are copied into new memory: whatever the memory becomes around it, the copies read
    there as the arguments read when they were copied. *)
Theorem snapshot_isolated args out dst : Forall bytesArg args -> snapshotCommandArgs src args = Ok (out, dst) ->
  fresh dst /\ exists xs, Forall2 (showsArg src) args xs /\ forall m, within dst m -> Forall2 (showsArg m) out xs.
Proof.
  intros Ha H.
  assert (F0 : fresh (freshMemory src)) by (split_and!; cbn; [lia|..]; intros ? ?; by rewrite lookup_empty).
  assert (within (freshMemory src) dst /\ fresh dst /\ Forall2 (copyArg dst) args out) as (_ & F & X).
  { refine (newAll_copies copyArg _ _ copyArg_within _ _ _ _ H F0). eapply Forall_impl; [exact Ha|]. exact arg_copies. }
  split; [done|]. clear H Ha. induction X as [|a b args out (x & H1 & H2) _ (xs & X1 & X2)]; [by exists []|].
  exists (x :: xs). split; [by constructor|]. intros m Hm. constructor; [|by apply X2].
  destruct b, x; try done. by eapply shows_within.
Qed.
End Copies.

(** ** Termination *)

Lemma newAll_err {A B} (f : A -> alloc B) l e : (forall a s, f a s <> Err e) -> forall s, newAll f l s <> Err e.
Proof.
  intros Hf. induction l as [|a l IH]; intros s H; [done|]. cbn in H. unfold next_do in H.
  destruct (f a s) as [[b s1]|e'] eqn:E; cbn in H; [|injection H as ->; by eapply Hf].
  destruct (newAll f l s1) as [[k s2]|e'] eqn:E2; cbn in H; [done|injection H as ->; by eapply IH].
Qed.

Lemma next_do_err {A B} (m : alloc A) (k : A -> alloc B) e s :
  (forall s, m s <> Err e) -> (forall a s, k a s <> Err e) -> next_do m k s <> Err e.
Proof.
  intros Hm Hk. unfold next_do. destruct (m s) as [[a s1]|e'] eqn:E; cbn; [apply Hk|]. intros [= ->]. by eapply Hm.
Qed.

Lemma enter_fuel v l s : enterCommandClone v l s <> Err CloneFuel.
Proof. unfold enterCommandClone. by case_bool_decide. Qed.

Lemma found_fuel {A} (o : option A) s : found o s <> Err CloneFuel.
Proof. by destruct o. Qed.

(** The fuel lasts: nesting ends above the greatest depth first, cycles included. *)
Lemma clone_fuel src fuel : forall v visiting depth s, nativeMaxEncodeDepth + 2 <= Z.of_nat fuel + depth ->
  (0 < fuel)%nat -> cloneCommandReflect src fuel v visiting depth s <> Err CloneFuel.
Proof.
  induction fuel as [|fuel IH]; [lia|]. intros v visiting depth s Hd _. cbn. destruct (_ <? depth) eqn:E; [done|]. z_tests.
  assert (IH' : forall v visiting s, cloneCommandReflect src fuel v visiting (depth + 1) s <> Err CloneFuel).
  { intros. apply IH; [lia|]. unfold nativeMaxEncodeDepth in *. lia. }
  assert (Hl : forall {A B} (f : A -> alloc B) l s, (forall a s, f a s <> Err CloneFuel) -> newAll f l s <> Err CloneFuel).
  { intros. by apply newAll_err. }
  destruct v as [| | | |t [v|]|t e p|t bytes [w|]|t z l|t p|t z fs]; try done;
    try (destruct (p =? 0); [done|]);
    repeat first
      [ apply next_do_err | apply IH' | apply enter_fuel | apply found_fuel | apply Hl | done
      | match goal with |- forall _, _ => intros ? end
      | match goal with |- context [if ?b then _ else _] => destruct b end ].
Qed.

(** Copying ends for every argument, those on a cycle of references included. *)
Theorem snapshot_ends src args : snapshotCommandArgs src args <> Err CloneFuel.
Proof.
  unfold snapshotCommandArgs. apply newAll_err. intros a s. destruct a as [v|]; [|done].
  assert (Hc : forall v, (new! v := cloneCommandReflect src cloneFuel v [] 0 in have (Some v)) s <> Err CloneFuel).
  { intros. apply next_do_err; [|done]. intros. apply clone_fuel; [done|]. unfold cloneFuel. lia. }
  unfold snapshotCommandArg. destruct v as [| | | |t [v|]|t e p|t [] o|t z l|t p|t z fs]; try apply Hc; try done.
  destruct (_ =? _); [|apply Hc]. destruct o; [|done]. apply next_do_err; [intros; apply found_fuel|]. by intros [|].
Qed.

(** ** A list of two maps that are one *)

Module Shared.
(** A map, a slice that holds it twice behind pointers, and a pointer to itself. *)
Definition before : memory := Memory
  {[(5, 10) := GMap 3 20; (6, 11) := GPtr 6 6 11]} {[30 := [GPtr 4 5 10; GPtr 4 5 10]]}
  {[20 := (KPlain, [(GText 2 (go "a"), GScalar 7 8 1)])]} 100.

Definition args : list (option gval) := [Some (GText 2 (go "SET")); Some (GSlice 8 false (Some (Window 30 0 2 2))); None].

(** The caller's memory when it has changed the map; the copies are in new memory. *)
Definition after (dst : memory) : memory := Memory
  ({[(5, 10) := GMap 3 0]} ∪ vars dst) (arrays dst) ({[20 := (KPlain, [(GText 2 (go "a"), GScalar 7 8 2)])]} ∪ maps dst) (next dst).

Definition copied : option (list (option gval) * memory) :=
  match snapshotCommandArgs before args with Ok r => Some r | Err _ => None end.

Example copies_differ : (r ← copied; Some r.1) =
  Some [Some (GText 2 (go "SET")); Some (GSlice 8 false (Some (Window 104 0 2 2))); None].
Proof. by_vm. Qed.

(** What the arguments show, at first and in the changed memory, where [1] is [2]. *)
Definition shown (bits : Z) : list tree :=
  let p := Tree (LPtr 4) [Tree (LMap 3) [Tree LEntry [Tree (LText 2 (go "a")) []; Tree (LScalar 7 8 bits) []]]] in
  [Tree (LText 2 (go "SET")) []; Tree (LSlice 8 false) [p; p]].

Example args_shown : mapM (fun a => v ← a; view 10 before v) (take 2 args) = Some (shown 1).
Proof. by_vm. Qed.

Example change_unseen : (r ← copied; mapM (fun a => v ← a; view 10 (after r.2) v) (take 2 r.1)) = Some (shown 1).
Proof. by_vm. Qed.

Example cycle_refused : match snapshotCommandArgs before [Some (GPtr 6 6 11)] with Err e => Some e | Ok _ => None end = Some CloneCycle.
Proof. by_vm. Qed.

Lemma snapshot_isolated_witness :
  match snapshotCommandArgs before args with
  | Ok (out, dst) => fresh before dst /\ exists xs, Forall2 (showsArg before) args xs /\ forall m, within dst m -> Forall2 (showsArg m) out xs
  | Err _ => False
  end.
Proof.
  destruct (snapshotCommandArgs before args) as [[out dst]|e] eqn:E; [|vm_compute in E; discriminate E].
  apply (snapshot_isolated before) in E; [exact E| |reflexivity|].
  - intros p k l H. unfold before, maps in H. apply lookup_singleton_Some in H as [_ H]. injection H as <- <-. by repeat constructor.
  - by repeat constructor.
Defined.
End Shared.
