(* ===== verification/Buffered.v ===== *)
(** The executor that queues commands until a flush (src/buffered.go,
    src/buffered_capacity.go): the size it counts for a command, its bounds, and flushes
    that run beside callers who go on queueing. *)

From S2P Require Import Wire Validation.
From S2P Require Export Snapshot.

(** ** The size of a command *)

Definition maxInt : Z := 2 ^ 63 - 1.

(** [bufferedSizeBudget.consume] and [consumeReflectSize], on what remains. *)
Definition consumeBudget (size remaining : Z) : option Z :=
  if (size <? 0) || (remaining <? size) then None else Some (remaining - size).

Fixpoint consumeAll {A} (f : A -> Z -> option Z) (l : list A) (remaining : Z) : option Z :=
  match l with
  | [] => Some remaining
  | a :: l => remaining ← f a remaining; consumeAll f l remaining
  end.

Section Size.
Context (src : memory).

(** [bufferedSizeBudget.consumeValue]; the fuel is that of a copy. *)
Fixpoint consumeValue (fuel : nat) (value : gval) (depth : Z) (remaining : Z) : option Z :=
  match fuel with
  | O => None
  | S fuel =>
      if nativeMaxEncodeDepth <? depth then None
      else match value with
      | GIface _ o =>
          remaining ← consumeBudget 16 remaining;
          match o with None => Some remaining | Some v => consumeValue fuel v (depth + 1) remaining end
      | GPtr _ elem p =>
          remaining ← consumeBudget 8 remaining;
          if p =? 0 then Some remaining else v ← vars src !! (elem, p); consumeValue fuel v (depth + 1) remaining
      | GText _ s => remaining ← consumeBudget 16 remaining; consumeBudget (blen s) remaining
      | GSlice _ bytes o =>
          remaining ← consumeBudget 24 remaining;
          match o with
          | None => Some remaining
          | Some w =>
              if bytes then consumeBudget (Z.of_nat (w_len w)) remaining
              else l ← elements src w; consumeAll (fun v => consumeValue fuel v (depth + 1)) l remaining
          end
      | GArray _ size l => remaining ← consumeBudget (Z.of_N size) remaining; consumeAll (fun v => consumeValue fuel v (depth + 1)) l remaining
      | GMap _ p =>
          remaining ← consumeBudget 8 remaining;
          if p =? 0 then Some remaining
          else o ← maps src !! p;
               if maxInt / 64 <? blen o.2 then None
               else remaining ← consumeBudget (64 * blen o.2) remaining;
                    consumeAll (fun e r => r ← consumeValue fuel e.1 (depth + 1) r; consumeValue fuel e.2 (depth + 1) r) o.2 remaining
      | GStruct _ size fields =>
          remaining ← consumeBudget (Z.of_N size) remaining;
          consumeAll (fun (f : bool * gval) r => if f.1 then consumeValue fuel f.2 (depth + 1) r else Some r) fields remaining
      | GTime _ => consumeBudget 24 remaining
      | GOpaque _ _ => consumeBudget 8 remaining
      | GScalar _ size _ => consumeBudget (Z.of_N size) remaining
      end
  end.

Definition consumeArg (a : option gval) (remaining : Z) : option Z :=
  match a with None => consumeBudget 1 remaining | Some v => consumeValue cloneFuel v 0 remaining end.

Definition bufferedCommandRetainedSize (args : list (option gval)) (limit : Z) : option Z :=
  if limit <=? 0 then None
  else if (maxInt - 24) / 16 <? blen args then None
  else remaining ← consumeBudget (24 + 16 * blen args) limit;
       remaining ← consumeAll consumeArg args remaining;
       Some (limit - remaining).
End Size.

(** ** What a size covers: the text and the numbers that are read *)

Fixpoint weight (x : tree) : Z :=
  match x with
  | Tree l xs =>
      match l with
      | LText _ s => blen s
      | LScalar _ size _ => Z.of_N size
      | LSlice _ true => blen xs
      | LStruct _ _ exported =>
          (fix go (xs : list tree) (exported : list bool) : Z :=
             match xs, exported with
             | x :: xs, e :: exported => (if e then weight x else 0) + go xs exported
             | _, _ => 0
             end) xs exported
      | _ => zsum (weight <$> xs)
      end
  end.

Definition weightArg (x : option tree) : Z := match x with Some x => weight x | None => 0 end.

Lemma consumeBudget_ok size r r' : consumeBudget size r = Some r' -> 0 <= size /\ 0 <= r' /\ r' = r - size.
Proof. unfold consumeBudget. destruct (_ || _) eqn:E; [done|]. intros [= <-]. apply orb_false_iff in E as []. z_tests. lia. Qed.

Lemma bind_some {A B} (m : option A) (f : A -> option B) b : m ≫= f = Some b -> exists a, m = Some a /\ f a = Some b.
Proof. destruct m as [a|]; [|done]. by exists a. Qed.

Lemma zsum_fmap_cons {X} (g : X -> Z) x xs : zsum (g <$> x :: xs) = g x + zsum (g <$> xs).
Proof. done. Qed.

Lemma consumeAll_ok {A X} (f : A -> Z -> option Z) (R : A -> X -> Prop) (g : X -> Z) l xs :
  (forall a x r r', R a x -> f a r = Some r' -> 0 <= r -> 0 <= r' /\ r' + g x <= r) -> Forall2 R l xs ->
  forall r r', consumeAll f l r = Some r' -> 0 <= r -> 0 <= r' /\ r' + zsum (g <$> xs) <= r.
Proof.
  intros Hf. induction 1 as [|a x l xs Ha _ IH]; intros r r' H Hr; cbn in H; [injection H as <-; cbn; lia|].
  apply bind_some in H as (r1 & H1 & H). apply (Hf _ _ _ _ Ha) in H1 as [? ?]; [|done]. apply IH in H as [? ?]; [|done]. rewrite zsum_fmap_cons. lia.
Qed.

Lemma weight_nonneg x : 0 <= weight x.
Proof.
  revert x. fix IH 1. intros [l xs].
  assert (Hall : 0 <= zsum (weight <$> xs)).
  { revert xs. fix go 1. intros [|x ys]; [done|]. rewrite zsum_fmap_cons. pose proof (IH x). pose proof (go ys). lia. }
  destruct l as [| | | | | | |t []| | | |t z exported]; cbn; try exact Hall; try apply blen_nonneg; [lia|].
  clear Hall. revert xs exported. fix go 1. intros [|x xs] [|e exported]; [done..|].
  pose proof (IH x). pose proof (go xs exported). destruct e; lia.
Qed.

Lemma mapM_all {A} n m (f : A -> gval) l xs : mapM (fun a => view n m (f a)) l = Some xs -> Forall2 (fun a x => shows m (f a) x) l xs.
Proof. intros H%mapM_Some. eapply Forall2_impl; [exact H|]. intros a x Hx. by exists n. Qed.

Section Sizes.
Context (src : memory).

Lemma consumeValue_covers fuel : forall v depth r r' x, consumeValue src fuel v depth r = Some r' -> shows src v x -> 0 <= r ->
  0 <= r' /\ r' + weight x <= r.
Proof.
  induction fuel as [|fuel IH]; [done|]. intros v depth r r' x H [[|n] Hx] Hr; [done|]. cbn in H. destruct (_ <? depth); [done|].
  assert (IH' : forall v x r r', shows src v x -> consumeValue src fuel v (depth + 1) r = Some r' -> 0 <= r -> 0 <= r' /\ r' + weight x <= r)
    by (intros; by eapply IH).
  assert (Hxs : forall l xs r r', Forall2 (shows src) l xs -> consumeAll (fun v => consumeValue src fuel v (depth + 1)) l r = Some r' ->
    0 <= r -> 0 <= r' /\ r' + zsum (weight <$> xs) <= r) by (intros l xs r1 r2 HF; by apply (consumeAll_ok _ _ weight _ _ IH' HF)).
  destruct v as [| | | |t [v|]|t e p|t bytes [w|]|t z l|t p|t z fs]; cbn in H, Hx;
    try (apply bind_some in H as (r1 & [H0 [H1 ->]]%consumeBudget_ok & H)); try (apply consumeBudget_ok in H as [H2 [H3 ->]]).
  - injection Hx as <-. cbn. lia.
  - injection Hx as <-. cbn. lia.
  - injection Hx as <-. cbn. lia.
  - injection Hx as <-. cbn. lia.
  - destruct (view n src v) as [y|] eqn:E; [|done]. injection Hx as <-. apply (IH' _ y) in H; [|by exists n|done]. cbn. lia.
  - injection H as <-. injection Hx as <-. cbn. lia.
  - destruct (p =? 0); [injection H as <-; injection Hx as <-; cbn; lia|].
    destruct (vars src !! _) as [v|]; [|done]. cbn in H, Hx. destruct (view n src v) as [y|] eqn:E; [|done]. injection Hx as <-.
    apply (IH' _ y) in H; [|by exists n|done]. cbn. lia.
  - destruct (elements src w) as [l|] eqn:El; [|done]. cbn in Hx.
    destruct (mapM _ l) as [xs|] eqn:E; [|done]. injection Hx as <-. apply (mapM_all _ _ id) in E. destruct bytes.
    + apply consumeBudget_ok in H as [? [? ->]]. cbn. apply elements_length in El. apply Forall2_length in E. unfold blen. lia.
    + apply (Hxs _ xs) in H; [|done|done]. cbn. lia.
  - injection H as <-. assert (weight x = 0) as -> by (destruct bytes; by injection Hx as <-). lia.
  - destruct (mapM _ l) as [xs|] eqn:E; [|done]. injection Hx as <-. apply (mapM_all _ _ id) in E.
    apply (Hxs _ xs) in H; [|done|done]. cbn. lia.
  - destruct (p =? 0); [injection H as <-; injection Hx as <-; cbn; lia|].
    destruct (maps src !! p) as [o|]; [|done]. cbn in H, Hx. destruct (_ <? _); [done|].
    apply bind_some in H as (r1 & [H2 [H3 ->]]%consumeBudget_ok & H). destruct (mapM _ o.2) as [xs|] eqn:E; [|done]. injection Hx as <-.
    eapply (consumeAll_ok _ (showsEntry src) weight _ xs) in H as [? ?]; [cbn; lia| | |done].
    + intros [k v] y a b (k' & v' & Hk & Hv & ->) Hb Ha. apply bind_some in Hb as (c & Hc & Hb). cbn in *.
      apply (IH' _ _ _ _ Hk) in Hc as [? ?]; [|done]. apply (IH' _ _ _ _ Hv) in Hb as [? ?]; [|done]. lia.
    + apply mapM_Some in E. eapply Forall2_impl; [exact E|]. intros [k v] y Hy. cbn in Hy.
      destruct (view n src k) as [k'|] eqn:Ek; [|done]. cbn in Hy. destruct (view n src v) as [v'|] eqn:Ev; [|done]. injection Hy as <-.
      exists k', v'. split_and!; [by exists n..|done].
  - destruct (mapM _ fs) as [xs|] eqn:E; [|done]. injection Hx as <-. apply (mapM_all _ _ snd) in E. cbn.
    assert (Hg : forall r r', consumeAll (fun (f : bool * gval) r => if f.1 then consumeValue src fuel f.2 (depth + 1) r else Some r) fs r = Some r' ->
      0 <= r -> 0 <= r' /\ r' + weight (Tree (LStruct t z fs.*1) xs) <= r); [|apply Hg in H; cbn in *; lia].
    clear H. induction E as [|[[] v] x fs xs Hv _ IHf]; intros a b H Ha; cbn in H; [injection H as <-; cbn; lia|..].
    + apply bind_some in H as (c & Hc & H). apply (IH' _ _ _ _ Hv) in Hc as [? ?]; [|done]. apply IHf in H as [? ?]; [|done]. cbn in *. lia.
    + apply IHf in H as [? ?]; [|done]. cbn in *. lia.
Qed.

#[local] Strategy expand [consumeArg].

Lemma consumeArg_covers v x r r' : showsArg src v x -> consumeArg src v r = Some r' -> 0 <= r -> 0 <= r' /\ r' + weightArg x <= r.
Proof.
  intros Hx H Hr. destruct v as [v|], x as [x|]; [exact (consumeValue_covers cloneFuel v 0 r r' x H Hx Hr)|done|done|].
  apply (consumeBudget_ok 1) in H as [? [? ->]]. unfold weightArg. lia.
Qed.

(** The size of a command is within the limit and covers everything its arguments show. *)
Lemma retained_covers args limit size xs : bufferedCommandRetainedSize src args limit = Some size -> Forall2 (showsArg src) args xs ->
  24 + 16 * blen args + zsum (weightArg <$> xs) <= size <= limit.
Proof.
  unfold bufferedCommandRetainedSize. intros H HF. destruct (limit <=? 0) eqn:E; [done|]. destruct (_ <? _); [done|].
  apply bind_some in H as (r & Hr & H). apply consumeBudget_ok in Hr as (H1 & H2 & ->). apply bind_some in H as (r' & H & Hr').
  injection Hr' as <-. pose proof (consumeAll_ok _ _ weightArg args xs consumeArg_covers HF _ _ H H2). lia.
Qed.
End Sizes.

(** ** The queue *)

Inductive bufferedError :=
| BufCancelled | BufCommand (e : commandError) | BufFull | BufTooLarge | BufBytes | BufSnapshot (e : cloneError)
| BufTypedReply | BufNoClient.

(** A command on its way into the queue: its copy and the memory that holds it, its size, and what
    it was made from. *)
Record item := Item { i_copy : list (option gval); i_memory : memory; i_bytes : Z; i_source : memory; i_args : list (option gval) }.

Record BufferedExecutor := Buffered {
  commands : list item; queuedBytes : Z;
  flushes : Z; sent : Z; maxDepth : Z;
  flushing : option (list item);       (* who holds [flushMu]: the commands it sends *)
  preparing : list item;               (* calls of [Do] between their two locks *)
  accepted : list item;                (* every command [Do] has answered QUEUED *)
  batches : list (list item);          (* every flush that has been answered *)
}.

Definition newBufferedExecutor : BufferedExecutor := Buffered [] 0 0 0 0 None [] [] [].

Definition defaultBufferedMaxCommands : Z := 4096.
Definition defaultBufferedMaxBytes : Z := 16 * 1024 * 1024.

(** The limits [NewBufferedExecutorWithOptions] chooses. *)
Definition bufferedLimits (maxCommands maxBytes : Z) : Z * Z :=
  (if maxCommands <=? 0 then defaultBufferedMaxCommands else maxCommands,
   if maxBytes <=? 0 then defaultBufferedMaxBytes else maxBytes).

Section Executor.
(** What the type switches of the other parts see of arguments; the executor's limits; whether it has a client. *)
Context (seen : memory -> list (option gval) -> list arg) (maxCommands maxBytes : Z) (hasClient : bool).

(** [Do] up to its second lock, with the caller's memory. *)
Definition prepare (cancelled : bool) (src : memory) (args : list (option gval)) (s : BufferedExecutor) : result bufferedError item :=
  if cancelled then Err BufCancelled
  else match validateCommandArgs (seen src args) with
  | Err e => Err (BufCommand e)
  | Ok _ =>
      if maxCommands <=? blen (commands s) then Err BufFull
      else match bufferedCommandRetainedSize src args maxBytes with
      | None => Err BufTooLarge
      | Some size =>
          match snapshotCommandArgs src args with
          | Err e => Err (BufSnapshot e)
          | Ok (copy, memory) => Ok (Item copy memory size src args)
          end
      end
  end.

(** [Do] under its second lock. *)
Definition enqueueCommand (cancelled : bool) (it : item) (s : BufferedExecutor) : result bufferedError BufferedExecutor :=
  if cancelled then Err BufCancelled
  else if maxCommands <=? blen (commands s) then Err BufFull
  else if maxBytes - queuedBytes s <? i_bytes it then Err BufBytes
  else Ok (Buffered (commands s ++ [it]) (queuedBytes s + i_bytes it) (flushes s) (sent s) (maxDepth s) (flushing s) (preparing s)
             (accepted s ++ [it]) (batches s)).

(** [doTypedWithState]: a command whose reply cannot wait is not queued. *)
Definition doTyped (cancelled allowQueued : bool) (src : memory) (args : list (option gval)) (s : BufferedExecutor) : result bufferedError item :=
  if cancelled then Err BufCancelled else if allowQueued then prepare cancelled src args s else Err BufTypedReply.

(** [Flush] between its lock and its unlock of the queue: the commands to send, if any. *)
Definition takeCommands (cancelled : bool) (s : BufferedExecutor) : result bufferedError (option BufferedExecutor) :=
  if cancelled then Err BufCancelled
  else match commands s with
  | [] => Ok None
  | taken =>
      if negb hasClient then Err BufNoClient
      else let depth := blen taken in
           Ok (Some (Buffered [] 0 (flushes s + 1) (sent s + depth) (Z.max (maxDepth s) depth) (Some taken) (preparing s) (accepted s) (batches s)))
  end.

(** Turns of callers of [Do] and [Flush]; [flushMu] is held from the taking of commands to their answer. *)
Inductive buffered_step (s : BufferedExecutor) : BufferedExecutor -> Prop :=
| StepPrepare src args cancelled it : wfMemory src -> 0 < next src -> Forall (bytesArg src) args -> prepare cancelled src args s = Ok it ->
    buffered_step s (Buffered (commands s) (queuedBytes s) (flushes s) (sent s) (maxDepth s) (flushing s) (it :: preparing s) (accepted s) (batches s))
| StepEnqueue before it after cancelled s' : preparing s = before ++ it :: after -> enqueueCommand cancelled it s = Ok s' ->
    buffered_step s (Buffered (commands s') (queuedBytes s') (flushes s') (sent s') (maxDepth s') (flushing s') (before ++ after) (accepted s') (batches s'))
| StepRefuse before it after cancelled e : preparing s = before ++ it :: after -> enqueueCommand cancelled it s = Err e ->
    buffered_step s (Buffered (commands s) (queuedBytes s) (flushes s) (sent s) (maxDepth s) (flushing s) (before ++ after) (accepted s) (batches s))
| StepTake cancelled s' : flushing s = None -> takeCommands cancelled s = Ok (Some s') -> buffered_step s s'
| StepAnswered batch : flushing s = Some batch ->
    buffered_step s (Buffered (commands s) (queuedBytes s) (flushes s) (sent s) (maxDepth s) None (preparing s) (accepted s) (batches s ++ [batch])).

Definition bufferedReachable : BufferedExecutor -> Prop := rtc buffered_step newBufferedExecutor.

(** A command whose copy reads as its arguments did, in a size that covers what they show. *)
Definition faithful (it : item) : Prop :=
  24 <= i_bytes it <= maxBytes /\
  exists xs, Forall2 (showsArg (i_source it)) (i_args it) xs /\ 24 + zsum (weightArg <$> xs) <= i_bytes it /\
    forall m, within (i_memory it) m -> Forall2 (showsArg m) (i_copy it) xs.

Lemma weightArg_nonneg xs : 0 <= zsum (weightArg <$> xs).
Proof. apply zsum_nonneg, Forall_fmap, Forall_true. intros [x|]; [apply weight_nonneg|done]. Qed.

Lemma prepare_faithful cancelled src args s it : wfMemory src -> 0 < next src -> Forall (bytesArg src) args ->
  prepare cancelled src args s = Ok it -> faithful it.
Proof.
  unfold prepare. intros Hw Hn Ha H. destruct cancelled; [done|]. destruct (validateCommandArgs _); [|done].
  destruct (_ <=? _); [done|]. destruct (bufferedCommandRetainedSize _ _ _) as [size|] eqn:E; [|done].
  destruct (snapshotCommandArgs _ _) as [[copy memory]|e] eqn:E'; [|done]. injection H as <-.
  apply snapshot_isolated in E' as (_ & xs & H1 & H2); [|done..]. pose proof (retained_covers _ _ _ _ _ E H1) as [H3 H4].
  pose proof (weightArg_nonneg xs). pose proof (blen_nonneg args). split; [cbn; lia|]. exists xs. cbn. split_and!; [done|lia|done].
Qed.

Context (max_commands : 0 < maxCommands) (max_bytes : 0 < maxBytes).

Definition inFlight (s : BufferedExecutor) : list item := default [] (flushing s).

Record bufferedInvariant (s : BufferedExecutor) : Prop := {
  b_count : blen (commands s) <= maxCommands;
  b_sum : queuedBytes s = zsum (i_bytes <$> commands s);
  b_bytes : queuedBytes s <= maxBytes;
  b_preparing : Forall faithful (preparing s);
  b_accepted : Forall faithful (accepted s);
  b_order : accepted s = concat (batches s) ++ inFlight s ++ commands s;
  b_sent : sent s = blen (concat (batches s)) + blen (inFlight s);
  b_flushes : flushes s = blen (batches s) + match flushing s with Some _ => 1 | None => 0 end;
  b_depth : Forall (fun batch => blen batch <= maxDepth s) (batches s ++ match flushing s with Some batch => [batch] | None => [] end);
}.

Lemma buffered_start : bufferedInvariant newBufferedExecutor.
Proof. constructor; cbn; try done; rewrite ?blen_nil; lia. Qed.

Lemma preparing_out (it : item) before after l : l = before ++ it :: after -> Forall faithful l -> faithful it /\ Forall faithful (before ++ after).
Proof. intros ->. rewrite !Forall_app, Forall_cons. tauto. Qed.

Lemma enqueue_invariant cancelled it s s' : enqueueCommand cancelled it s = Ok s' -> bufferedInvariant s -> faithful it -> bufferedInvariant s'.
Proof.
  unfold enqueueCommand. destruct cancelled; [done|]. intros H [C1 C2 C3 C4 C5 C6 C7 C8 C9] Hit.
  destruct (_ <=? _) eqn:E1; [done|]. destruct (_ <? _) eqn:E2; [done|]. z_tests. injection H as <-. constructor; cbn; try done.
  - rewrite blen_snoc. lia.
  - rewrite fmap_app, zsum_app, C2. cbn. lia.
  - lia.
  - apply Forall_app. by split; [|constructor].
  - by rewrite C6, <- !app_assoc.
Qed.

Lemma take_invariant cancelled s s' : takeCommands cancelled s = Ok (Some s') -> flushing s = None -> bufferedInvariant s -> bufferedInvariant s'.
Proof.
  unfold takeCommands. destruct cancelled; [done|]. intros H Hf [C1 C2 C3 C4 C5 C6 C7 C8 C9]. unfold inFlight in *. rewrite Hf in *.
  destruct (commands s) as [|c l] eqn:E; [done|]. destruct (negb hasClient); [done|]. injection H as <-. constructor; cbn -[Z.max]; try done; unfold inFlight; cbn -[Z.max].
  - rewrite blen_nil. lia.
  - lia.
  - by rewrite C6, app_nil_r.
  - cbn in C7. rewrite blen_nil in C7. lia.
  - lia.
  - apply Forall_app. rewrite app_nil_r in C9. split; [eapply Forall_impl; [exact C9|cbn; lia]|]. repeat constructor. lia.
Qed.

Lemma invariant_preserved s s' : buffered_step s s' -> bufferedInvariant s -> bufferedInvariant s'.
Proof.
  intros H I. destruct H as [src args cancelled it Hw Hn Ha Hp|before it after cancelled s' Hl He|before it after cancelled e Hl He|cancelled s' Hf Ht|batch Hf].
  - apply prepare_faithful in Hp; [|done..]. destruct I. constructor; try done. cbn. by constructor.
  - destruct (preparing_out _ _ _ _ Hl (b_preparing _ I)) as [Hit Hrest]. apply enqueue_invariant in He; [|done..].
    destruct He. by constructor.
  - destruct (preparing_out _ _ _ _ Hl (b_preparing _ I)) as [Hit Hrest]. destruct I. by constructor.
  - by eapply take_invariant.
  - destruct I as [C1 C2 C3 C4 C5 C6 C7 C8 C9]. unfold inFlight in *. rewrite Hf in *. constructor; cbn; try done; unfold inFlight; cbn.
    + by rewrite C6, concat_app, <- app_assoc; cbn; rewrite app_nil_r.
    + rewrite C7, concat_app, blen_app. cbn. rewrite app_nil_r, blen_nil. lia.
    + rewrite C8, blen_snoc. lia.
    + by rewrite app_nil_r.
Qed.

Lemma buffered_invariant s : bufferedReachable s -> bufferedInvariant s.
Proof.
  intros H. pattern s. eapply rtc_ind_r; [exact buffered_start| |exact H]. intros x y _ Hxy. by apply invariant_preserved.
Qed.

(** C17: However callers queue and flush, the queue keeps to its limits of commands and bytes, and
    every command that was answered QUEUED is in exactly one flush or still waiting, in the order
    of acceptance; each reads, in its own memory, as the caller's arguments did when it was queued,
    whatever the caller has written since. *)
Theorem buffered_queue_exact s : bufferedReachable s ->
  blen (commands s) <= maxCommands /\
  queuedBytes s = zsum (i_bytes <$> commands s) /\ 0 <= queuedBytes s <= maxBytes /\
  accepted s = concat (batches s) ++ inFlight s ++ commands s /\
  sent s = blen (concat (batches s) ++ inFlight s) /\
  Forall faithful (accepted s).
Proof.
  intros [C1 C2 C3 C4 C5 C6 C7 C8 C9]%buffered_invariant. split_and!; try done.
  - rewrite C2. apply zsum_nonneg, Forall_fmap. rewrite C6, !Forall_app in C5. destruct C5 as (_ & _ & C5).
    eapply Forall_impl; [exact C5|]. intros it [? _]. cbn. lia.
  - by rewrite blen_app.
Qed.
End Executor.

(** ** A run: two commands queued, flushed, and a third behind them *)

Module Queued.
Definition seenNothing (src : memory) (args : list (option gval)) : list arg := [Arg (VString (go "PING"))].

Definition prepared : option item :=
  match prepare seenNothing 2 1000 false Shared.before Shared.args newBufferedExecutor with Ok it => Some it | Err _ => None end.

(** One whole call of [Do]. *)
Definition done_ (s : BufferedExecutor) : option BufferedExecutor :=
  match prepare seenNothing 2 1000 false Shared.before Shared.args s with
  | Ok it => match enqueueCommand 2 1000 false it s with Ok s => Some s | Err _ => None end
  | Err _ => None
  end.

Definition answer (s : BufferedExecutor) : BufferedExecutor :=
  Buffered (commands s) (queuedBytes s) (flushes s) (sent s) (maxDepth s) None (preparing s) (accepted s)
    (batches s ++ match flushing s with Some batch => [batch] | None => [] end).

Definition flushed (s : BufferedExecutor) : option BufferedExecutor :=
  match takeCommands true false s with Ok (Some s) => Some (answer s) | _ => None end.

Definition run : option BufferedExecutor := s ← done_ newBufferedExecutor; s ← done_ s; s ← flushed s; done_ s.

Example run_counts : (s ← run; Some (queuedBytes s, sent s, maxDepth s, blen (accepted s))) = Some (326, 2, 2, 3).
Proof. by_vm. Qed.

Example third_refused : (s ← done_ newBufferedExecutor; s ← done_ s; done_ s) = None.
Proof. by_vm. Qed.

Abbreviation reachable := (bufferedReachable seenNothing 2 1000 true).

Lemma done_reachable s s' : reachable s -> done_ s = Some s' -> reachable s'.
Proof.
  unfold done_. intros Hs H. destruct (prepare _ _ _ _ _ _ _) as [it|] eqn:E; [|done].
  destruct (enqueueCommand _ _ _ _ _) as [s1|] eqn:E1; [|done]. injection H as <-.
  eapply rtc_r; [eapply rtc_r; [exact Hs|]|].
  - eapply StepPrepare; [| | |exact E]; [|done|by repeat constructor].
    intros p k l H. unfold Shared.before, maps in H. apply lookup_singleton_Some in H as [_ H]. injection H as <- <-. by repeat constructor.
  - assert (enqueueCommand 2 1000 false it (Buffered (commands s) (queuedBytes s) (flushes s) (sent s) (maxDepth s) (flushing s)
      (it :: preparing s) (accepted s) (batches s)) =
      Ok (Buffered (commands s1) (queuedBytes s1) (flushes s1) (sent s1) (maxDepth s1) (flushing s1) (it :: preparing s1) (accepted s1) (batches s1))) as E2.
    { unfold enqueueCommand in *. cbn. destruct (_ <=? _); [done|]. destruct (_ <? _); [done|]. by injection E1 as <-. }
    eassert (s1 = _) as ->; [|eapply (StepEnqueue _ _ _ _ _ []); [done|exact E2]]. cbn.
    unfold enqueueCommand in E1. destruct (_ <=? _); [done|]. destruct (_ <? _); [done|]. by injection E1 as <-.
Qed.

Lemma flushed_reachable s s' : reachable s -> flushing s = None -> flushed s = Some s' -> reachable s'.
Proof.
  unfold flushed. intros Hs Hf H. destruct (takeCommands _ _ _) as [[s1|]|] eqn:E; [|done..]. injection H as <-.
  eapply rtc_r; [eapply rtc_r; [exact Hs|eapply StepTake; [exact Hf|exact E]]|].
  unfold answer. destruct (flushing s1) as [batch|] eqn:E1; [by constructor|].
  unfold takeCommands in E. destruct (commands s); [done|]. injection E as <-. done.
Qed.

Lemma done_flushing s s' : done_ s = Some s' -> flushing s' = flushing s.
Proof.
  unfold done_. destruct (prepare _ _ _ _ _ _ _) as [it|]; [|done]. unfold enqueueCommand.
  destruct (_ <=? _); [done|]. destruct (_ <? _); [done|]. by intros [= <-].
Qed.

Lemma run_reachable s : run = Some s -> reachable s.
Proof.
  unfold run. intros (s1 & H1 & (s2 & H2 & (s3 & H3 & H)%bind_some)%bind_some)%bind_some.
  eapply done_reachable; [|exact H]. eapply flushed_reachable; [|by rewrite (done_flushing _ _ H2), (done_flushing _ _ H1)|exact H3].
  eapply done_reachable; [|exact H2]. eapply done_reachable; [|exact H1]. apply rtc_refl.
Qed.

Lemma buffered_queue_exact_witness :
  match run with
  | Some s => blen (commands s) <= 2 /\ queuedBytes s = zsum (i_bytes <$> commands s) /\ 0 <= queuedBytes s <= 1000 /\
      accepted s = concat (batches s) ++ inFlight s ++ commands s /\ sent s = blen (concat (batches s) ++ inFlight s) /\
      Forall (faithful 1000) (accepted s)
  | None => False
  end.
Proof.
  destruct run as [s|] eqn:E; [|vm_compute in E; discriminate E].
  apply (buffered_queue_exact seenNothing 2 1000 true); [reflexivity|reflexivity|exact (run_reachable s E)].
Defined.
End Queued.
