(* ===== verification/HttpEnvelope.v ===== *)
(** The HTTP envelope (src/http_envelope.go): commands as a JSON document, within a budget
    and a depth, and the values of a response.

    A document is a tree of [json]; the bytes of its text are the encoder's and decoder's of
    the standard library. What they do to values is modelled: an integer is the text of a
    number, and a string keeps only well-formed UTF-8. The text of a float is a parameter. *)

From S2P Require Import Normalize.
From S2P Require Export Validation FlowValidation FlowQuery Hashes.

Inductive json :=
| JNull
| JBool (b : bool)
| JNumber (text : gstr)
| JString (s : gstr)
| JArray (l : list json)
| JObject (m : list (gstr * json)).

(** A string as [json.Marshal] writes it: a byte that is no part of a rune becomes U+FFFD. *)
Definition replacementRune : gstr := [xef; xbf; xbd].

Fixpoint jsonText (s : gstr) : gstr :=
  match s with
  | [] => []
  | a :: rest =>
      if byte_between 0 127 a then a :: jsonText rest
      else match rest with
           | b :: rest2 =>
               if byte_between 194 223 a && byte_between 128 191 b then a :: b :: jsonText rest2
               else match rest2 with
                    | c :: rest3 =>
                        if utf8_valid [a; b; c] then a :: b :: c :: jsonText rest3
                        else match rest3 with
                             | d :: rest4 =>
                                 if utf8_valid [a; b; c; d] then a :: b :: c :: d :: jsonText rest4
                                 else replacementRune ++ jsonText rest
                             | [] => replacementRune ++ jsonText rest
                             end
                    | [] => replacementRune ++ jsonText rest
                    end
           | [] => replacementRune
           end
  end.

(** ** Base64 *)

(** [base64.StdEncoding]: another alphabet for the last two digits, and padding. *)
Definition stdChar (d : Z) : byte := if d =? 62 then x2b else if d =? 63 then x2f else b64_char d.

Definition stdDigit (b : byte) : option Z :=
  if bool_decide (b = x2b) then Some 62 else if bool_decide (b = x2f) then Some 63
  else if bool_decide (b = x2d) || bool_decide (b = x5f) then None else b64_digit b.

Definition padding (n : Z) : gstr := if n mod 3 =? 1 then [x3d; x3d] else if n mod 3 =? 2 then [x3d] else [].

Definition stdEncode (s : gstr) : gstr := (stdChar <$> b64_split s) ++ padding (blen s).

(** The unused low bits of the last digit, which [Strict] wants to be zero. *)
Fixpoint strictTail (ds : list Z) : bool :=
  match ds with
  | [_; x] => x mod 16 =? 0
  | [_; _; y] => y mod 4 =? 0
  | _ :: _ :: _ :: _ :: ds => strictTail ds
  | _ => true
  end.

Fixpoint beforePadding (s : gstr) : gstr :=
  match s with b :: s => if bool_decide (b = x3d) then [] else b :: beforePadding s | [] => [] end.

(** [base64.StdEncoding.Strict().DecodeString]: line breaks are skipped; what is left is
    digits, then the padding that fills the last group of four. *)
Definition stdDecodeStrict (s : gstr) : option gstr :=
  let text := filter (fun b => b ≠ x0a /\ b ≠ x0d) s in
  let digits := beforePadding text in
  match mapM stdDigit digits with
  | None => None
  | Some ds =>
      match b64_bytes ds with
      | None => None
      | Some bytes =>
          if bool_decide (text = digits ++ padding (blen bytes)) && strictTail ds then Some bytes else None
      end
  end.

(** ** Encoding *)

Inductive httpEncodeError :=
| HTTPBudget                          (* errHTTPRequestEncodingBudget *)
| HTTPTooDeep
| HTTPNotFinite
| HTTPUnsupported
| HTTPCommand (e : commandError)
| HTTPAffine (name : gstr)            (* ErrHTTPConnectionAffineCommand *)
| HTTPNative (what : String.string).  (* a native builder refuses the command *)

Definition httpBytesTag : gstr := go "$ferricstore_bytes".
Definition httpMapTag : gstr := go "$ferricstore_map".
Definition httpBinaryEncoding : gstr := go "ferricstore-json-v1".

(** [newHTTPEncodeState]: what is left of the budget. *)
Definition newHTTPEncodeState (limit : Z) : Z := Z.min limit nativeMaxContainerItems.

(** [consume] and [require]; counts are lengths. *)
Definition consumeHTTP (count remaining : Z) : result httpEncodeError Z :=
  if remaining <? count then Err HTTPBudget else Ok (remaining - count).

Definition requireHTTP (count remaining : Z) : result httpEncodeError unit :=
  rguard (count <=? remaining) HTTPBudget.

Section Floats.
(** The text [json.Marshal] writes for a finite float64, and [strconv.ParseFloat]. *)
Context (formatFloat : Z -> gstr) (parseFloat : gstr -> option Z).

Definition encodeText (s : gstr) (remaining : Z) : result httpEncodeError (json * Z) :=
  let! remaining := consumeHTTP (blen s) remaining in Ok (JString (jsonText s), remaining).

(** A key of a [map[string]any]. *)
Definition encodeKey (depth : Z) (key : gstr) (remaining : Z) : result httpEncodeError (json * Z) :=
  let! _ := rguard (depth <=? nativeMaxEncodeDepth) HTTPTooDeep in
  let! remaining := consumeHTTP 1 remaining in encodeText key remaining.

(** [encodeHTTPReflect] on a value that is no interface. *)
Fixpoint encodeHTTPReflect (depth : Z) (v : val) (remaining : Z) : result httpEncodeError (json * Z) :=
  let! _ := rguard (depth <=? nativeMaxEncodeDepth) HTTPTooDeep in
  (* an element of a container is an interface, one level above its value *)
  let element (v : val) (remaining : Z) : result httpEncodeError (json * Z) :=
    let! _ := rguard (depth + 1 <=? nativeMaxEncodeDepth) HTTPTooDeep in
    match v with VNil => Ok (JNull, remaining) | _ => encodeHTTPReflect (depth + 2) v remaining end in
  match v with
  | VNil => Ok (JNull, remaining)
  | _ =>
      let! remaining := consumeHTTP 1 remaining in
      match v with
      | VNil => Ok (JNull, remaining)
      | VBool b => Ok (JBool b, remaining)
      | VInt _ z | VUint _ z => Ok (JNumber (format_int z), remaining)
      | VFloat bits => if finite bits then Ok (JNumber (formatFloat bits), remaining) else Err HTTPNotFinite
      | VString s => encodeText s remaining
      | VBytes s =>
          let! remaining := consumeHTTP (blen s) remaining in
          Ok (JObject [(httpBytesTag, JString (stdEncode s))], remaining)
      | VArray _ l =>
          let! _ := requireHTTP (blen l) remaining in
          let! (items, remaining) := rmap_budget (fun v remaining => element v remaining) l remaining in
          Ok (JArray items, remaining)
      | VMap _ m =>
          let! _ := rguard (blen m <=? Z.quot remaining 2) HTTPBudget in
          let! (pairs, remaining) :=
            rmap_budget (fun kv remaining =>
              let! (key, remaining) := encodeKey (depth + 1) kv.1 remaining in
              let! (item, remaining) := element kv.2 remaining in
              Ok (JArray [key; item], remaining)) m remaining in
          Ok (JObject [(httpMapTag, JArray pairs)], remaining)
      | VDeferred _ => Err HTTPUnsupported
      end
  end.

(** [encodeHTTPValueWithState] of an argument; the marker is a string. *)
Definition encodeHTTPArg (a : arg) (remaining : Z) : result httpEncodeError (json * Z) :=
  encodeHTTPReflect 0 (match a with Arg v => v | ArgMarker s => VString s end) remaining.

Definition encodeHTTPValue (v : val) : result httpEncodeError (json * Z) :=
  encodeHTTPReflect 0 v (newHTTPEncodeState nativeMaxContainerItems).

(** ** Decoding *)

(** A decoded value: keys of a map are any comparable values when one of them is no text. *)
Inductive hval :=
| HNil
| HBool (b : bool)
| HInt (z : Z)
| HUint (z : Z)
| HFloat (bits : Z)
| HText (s : gstr)                        (* a key *)
| HBytes (s : gstr)
| HArray (l : list hval)
| HMap (m : list (gstr * hval))
| HAnyMap (m : list (hval * hval)).

Inductive httpDecodeError :=
| HTTPResponseTooDeep
| HTTPNumber
| HTTPBinary (what : String.string)
| HTTPMap (what : String.string).

(** [decodeHTTPNumber]. *)
Definition decodeHTTPNumber (text : gstr) : result httpDecodeError hval :=
  let float := match parseFloat text with
               | Some bits => if finite bits then Ok (HFloat bits) else Err HTTPNumber
               | None => Err HTTPNumber
               end in
  if existsb (fun b => bool_decide (b ∈ go ".eE")) text then float
  else match parse_int64 text with
       | ParsedInt z => Ok (HInt z)
       | _ => match parseUint64 text with Some n => Ok (HUint n) | None => float end
       end.

(** A key of a map: text, or another comparable value. *)
Definition mapKey (key : hval) : result httpDecodeError hval :=
  match key with
  | HBytes s => Ok (HText s)
  | HNil | HArray _ | HMap _ | HAnyMap _ => Err (HTTPMap "key is not comparable")
  | _ => Ok key
  end.

(** [==] of two keys; the two zeros of float64 are equal. *)
Definition zeroFloat (bits : Z) : bool := bits mod 2 ^ 63 =? 0.

Definition sameKey (a b : hval) : bool :=
  match a, b with
  | HText s, HText t => bool_decide (s = t)
  | HBool x, HBool y => Bool.eqb x y
  | HInt x, HInt y | HUint x, HUint y => x =? y
  | HFloat x, HFloat y => (x =? y) || zeroFloat x && zeroFloat y
  | _, _ => false
  end.

(** Entries of a map one after another, none under a key that was there. *)
Definition distinctEntries {A} (entry : A -> result httpDecodeError (hval * hval)) :
  list (hval * hval) -> list A -> result httpDecodeError (list (hval * hval)) :=
  rfold (fun seen a =>
    let! (key, item) := entry a in
    let! _ := rguard (negb (existsb (fun e => sameKey e.1 key) seen)) (HTTPMap "duplicate key") in
    Ok (seen ++ [(key, item)])).

Definition textKey (e : hval * hval) : option (gstr * hval) := match e.1 with HText s => Some (s, e.2) | _ => None end.

(** A [map[string]any] when every key is text. *)
Definition mapOfEntries (entries : list (hval * hval)) : hval :=
  match mapM textKey entries with Some m => HMap m | None => HAnyMap entries end.

Fixpoint decodeHTTPValueDepth (depth : Z) (v : json) : result httpDecodeError hval :=
  let! _ := rguard (depth <=? nativeMaxDecodeDepth) HTTPResponseTooDeep in
  let object (m : list (gstr * json)) : result httpDecodeError hval :=
    let! out := rmapM (fun kv => let! x := decodeHTTPValueDepth (depth + 1) kv.2 in Ok (kv.1, x)) m in Ok (HMap out) in
  match v with
  | JNull => Ok HNil
  | JBool b => Ok (HBool b)
  | JString s => Ok (HBytes s)
  | JNumber text => decodeHTTPNumber text
  | JArray l => let! out := rmapM (decodeHTTPValueDepth (depth + 1)) l in Ok (HArray out)
  | JObject m =>
      match m with
      | [(k, x)] =>
          if bool_decide (k = httpBytesTag) then
            match x with
            | JString text =>
                match stdDecodeStrict text with
                | Some bytes => Ok (HBytes bytes)
                | None => Err (HTTPBinary "invalid base64")
                end
            | _ => Err (HTTPBinary "payload must be text")
            end
          else if bool_decide (k = httpMapTag) then
            match x with
            | JArray pairs =>
                let! entries := distinctEntries (fun pair =>
                  match pair with
                  | JArray [k; x] =>
                      let! key := decodeHTTPValueDepth (depth + 2) k in
                      let! key := mapKey key in
                      let! item := decodeHTTPValueDepth (depth + 2) x in
                      Ok (key, item)
                  | _ => Err (HTTPMap "entry must be a key/value pair")
                  end) [] pairs in
                Ok (mapOfEntries entries)
            | _ => Err (HTTPMap "payload must be an array")
            end
          else object m
      | _ => object m
      end
  end.

Definition decodeHTTPValue (v : json) : result httpDecodeError hval := decodeHTTPValueDepth 0 v.

(** ** Commands *)

Definition httpConnectionAffineCommands : list gstr :=
  [go "ASKING"; go "AUTH"; go "BACKPRESSURE"; go "CLIENT"; go "CLIENT.INFO"; go "CLIENT.SETNAME";
   go "DISCARD"; go "EVENT"; go "EXEC"; go "FETCH_OR_COMPUTE"; go "FETCH_OR_COMPUTE_ERROR";
   go "FETCH_OR_COMPUTE_RESULT"; go "GOAWAY"; go "HELLO"; go "MONITOR"; go "MULTI";
   go "OPTIONS"; go "PIPELINE"; go "PSUBSCRIBE"; go "PSYNC"; go "PUNSUBSCRIBE"; go "QUIT";
   go "READONLY"; go "READWRITE"; go "REPLCONF"; go "RESET"; go "ROUTE"; go "ROUTE_BATCH";
   go "SANDBOX"; go "SELECT"; go "SHARDS"; go "SSUBSCRIBE"; go "STARTUP"; go "SUBSCRIBE";
   go "SUBSCRIBE_EVENTS"; go "SUNSUBSCRIBE"; go "SYNC"; go "UNSUBSCRIBE"; go "UNSUBSCRIBE_EVENTS";
   go "UNWATCH"; go "WATCH"; go "WINDOW_UPDATE"].

(** [HTTPCommandDisposition] is native_only. *)
Definition nativeOnly (name : gstr) : bool := bool_decide (to_upper name ∈ httpConnectionAffineCommands).

Definition httpStructuredFlowCommands : list gstr :=
  [go "FLOW.CREATE"; go "FLOW.VALUE.PUT"; go "FLOW.VALUE.MGET"; go "FLOW.STEP_CONTINUE"; go "FLOW.START_AND_CLAIM";
   go "FLOW.RUN_STEPS_MANY"; go "FLOW.SCHEDULE.CREATE"; go "FLOW.SCHEDULE.GET";
   go "FLOW.SCHEDULE.DELETE"; go "FLOW.SCHEDULE.FIRE_DUE"; go "FLOW.SCHEDULE.LIST";
   go "FLOW.SCHEDULE.FIRE"; go "FLOW.SCHEDULE.PAUSE"; go "FLOW.SCHEDULE.RESUME";
   go "FLOW.EFFECT.RESERVE"; go "FLOW.EFFECT.CONFIRM"; go "FLOW.EFFECT.FAIL";
   go "FLOW.EFFECT.COMPENSATE"; go "FLOW.EFFECT.GET"; go "FLOW.GOVERNANCE.LEDGER";
   go "FLOW.GOVERNANCE.OVERVIEW"; go "FLOW.APPROVAL.REQUEST";
   go "FLOW.APPROVAL.APPROVE"; go "FLOW.APPROVAL.REJECT"; go "FLOW.APPROVAL.GET";
   go "FLOW.APPROVAL.LIST"; go "FLOW.CIRCUIT.OPEN"; go "FLOW.CIRCUIT.CLOSE";
   go "FLOW.CIRCUIT.GET"; go "FLOW.BUDGET.RESERVE"; go "FLOW.BUDGET.COMMIT";
   go "FLOW.BUDGET.RELEASE"; go "FLOW.BUDGET.GET"; go "FLOW.BUDGET.LIST";
   go "FLOW.LIMIT.LEASE"; go "FLOW.LIMIT.SPEND"; go "FLOW.LIMIT.RELEASE";
   go "FLOW.LIMIT.GET"; go "FLOW.LIMIT.LIST"].

(** [httpEffectiveCommandName]. *)
Definition httpEffectiveCommandName (args : list arg) : gstr :=
  match canonicalCommandArgs args with a :: _ => argPart a | [] => [] end.

(** The native builders: opcode and body of a command, or their error. *)
Context (buildNativeCommand : list arg -> result String.string (Z * val)).

Definition structuredCommand (name : gstr) (args : list arg) (remaining : Z) : result httpEncodeError (json * Z) :=
  match buildNativeCommand args with
  | Err what => Err (HTTPNative what)
  | Ok (opcode, payload) =>
      let! (payload, remaining) := encodeHTTPReflect 0 payload remaining in
      Ok (JObject [(go "command", JString name); (go "opcode", JNumber (format_int opcode)); (go "payload", payload)], remaining)
  end.

(** [encodeHTTPCommandWithState]. *)
Definition encodeHTTPCommandWithState (args : list arg) (remaining : Z) : result httpEncodeError (json * Z) :=
  let! _ := match validateCommandArgs args with Ok _ => Ok tt | Err e => Err (HTTPCommand e) end in
  let! remaining := consumeHTTP 1 remaining in
  let name := match args with a :: _ => argPart a | [] => [] end in
  let! remaining := consumeHTTP (blen name) remaining in
  let effectiveName := httpEffectiveCommandName args in
  let! _ := rguard (negb (nativeOnly effectiveName)) (HTTPAffine effectiveName) in
  if bool_decide (name = go "COMMAND_EXEC") || bool_decide (name ∈ httpStructuredFlowCommands) then
    structuredCommand name args remaining
  else
    let! (encoded, remaining) := rmap_budget encodeHTTPArg (tl args) remaining in
    Ok (JArray (JString (jsonText name) :: encoded), remaining).

(** The commands of a batch share one budget. *)
Definition encodeHTTPCommands (commands : list (list arg)) (limit : Z) : result httpEncodeError (list json) :=
  let! (encoded, _) := rmap_budget encodeHTTPCommandWithState commands (newHTTPEncodeState limit) in Ok encoded.

Definition httpRequestBody (encoded : list json) : json :=
  JObject [(go "commands", JArray encoded); (go "encoding", JString httpBinaryEncoding)].
End Floats.

(** ** Theorems: bytes *)

Lemma stdChar_digit d : 0 <= d < 64 -> stdDigit (stdChar d) = Some d.
Proof.
  intros Hd. assert (forall n, (n < 64)%nat -> stdDigit (stdChar (Z.of_nat n)) = Some (Z.of_nat n)) as H.
  { do 64 (destruct n as [|n]; [reflexivity|]). lia. }
  rewrite <- (Z2Nat.id d) by lia. apply H. lia.
Qed.

Lemma stdDigit_plain b d : stdDigit b = Some d -> b <> x0a /\ b <> x0d /\ b <> x3d.
Proof. by destruct b. Qed.

Lemma stdDigits_chars ds : Forall (fun d => 0 <= d < 64) ds -> mapM stdDigit (stdChar <$> ds) = Some ds.
Proof.
  induction 1 as [|d ds Hd _ IH]; [done|]. cbn. rewrite stdChar_digit by done. cbn. cbn in IH. by rewrite IH.
Qed.

Lemma beforePadding_app digits pad : Forall (fun b => b <> x3d) digits -> Forall (fun b => b = x3d) pad ->
  beforePadding (digits ++ pad) = digits.
Proof.
  intros Hd Hp. induction Hd as [|b digits Hb _ IH]; cbn.
  - destruct Hp as [|b pad -> _]; [done|]. cbn. by rewrite bool_decide_true.
  - rewrite bool_decide_false by done. by rewrite IH.
Qed.

Lemma padding_pads n : Forall (fun b => b = x3d) (padding n).
Proof. unfold padding. repeat case_match; repeat constructor. Qed.

Lemma strictTail_split s : strictTail (b64_split s) = true.
Proof.
  induction s as [[|a [|b [|c s]]] IH] using list_len_ind; cbn [b64_split strictTail]; [done|..].
  - apply Z.eqb_eq. rewrite Z.mod_mod_divide by (by exists 4). apply Z.mod_mul. lia.
  - apply Z.eqb_eq. rewrite Z.mod_mod_divide by (by exists 16). apply Z.mod_mul. lia.
  - apply IH. cbn. lia.
Qed.

Lemma filter_all {A} (P : A -> Prop) `{!forall x, Decision (P x)} l : Forall P l -> filter P l = l.
Proof. induction 1; [done|]. rewrite filter_cons_True by done. by f_equal. Qed.

(** Bytes come back from their text. *)
Lemma stdDecode_encode s : stdDecodeStrict (stdEncode s) = Some s.
Proof.
  unfold stdDecodeStrict, stdEncode. set (chars := stdChar <$> b64_split s).
  assert (Forall (fun b => b <> x0a /\ b <> x0d /\ b <> x3d) chars) as Hc.
  { apply Forall_fmap. eapply Forall_impl; [apply b64_split_range|]. intros d Hd. by eapply stdDigit_plain, stdChar_digit. }
  rewrite filter_all.
  - rewrite beforePadding_app; [|by eapply Forall_impl; [exact Hc|]; intros ? (?&?&?)|apply padding_pads].
    subst chars. rewrite stdDigits_chars by apply b64_split_range. rewrite b64_bytes_split.
    rewrite bool_decide_true by done. by rewrite strictTail_split.
  - apply Forall_app. split; [by eapply Forall_impl; [exact Hc|]; intros ? (?&?&?)|].
    eapply Forall_impl; [apply padding_pads|]. by intros ? ->.
Qed.

(** ** Theorems: values *)

Lemma jsonText_valid s : utf8_valid s = true -> jsonText s = s.
Proof.
  induction s as [[|a s] IH] using list_len_ind; [done|]. cbn [utf8_valid jsonText].
  destruct (byte_between 0 127 a) eqn:Ea; [intros H; by rewrite IH by (cbn; lia || done)|].
  destruct s as [|b s]; [by repeat case_match|]. destruct (byte_between 194 223 a) eqn:Ea2; cbn [andb].
  - intros [Hb Hs]%andb_true_iff. rewrite Hb. by rewrite IH by (cbn; lia || done).
  - destruct s as [|c s]; [by repeat case_match|]. destruct (byte_between 224 239 a) eqn:Ea3; cbn [andb].
    + intros [Hbc Hs]%andb_true_iff. rewrite Hbc. cbn. by rewrite IH by (cbn; lia || done).
    + destruct s as [|d s]; [by repeat case_match|]. destruct (byte_between 240 244 a) eqn:Ea4; [|done].
      intros [Hbcd Hs]%andb_true_iff. rewrite Hbcd. cbn. by rewrite IH by (cbn; lia || done).
Qed.

(** Values that JSON can carry: text is UTF-8, integers are in the range of their type and a
    map has an entry per key. *)
Fixpoint transportable (v : val) : bool :=
  match v with
  | VNil | VBool _ | VFloat _ | VBytes _ => true
  | VInt _ z => (min_int64 <=? z) && (z <=? max_int64)
  | VUint _ z => (0 <=? z) && (z <=? max_uint64)
  | VString s => utf8_valid s
  | VArray _ l => forallb transportable l
  | VMap _ m => bool_decide (NoDup (keys m)) && forallb (fun kv => utf8_valid kv.1 && transportable kv.2) m
  | VDeferred _ => false
  end.

Section RoundTrip.
Context (formatFloat : Z -> gstr) (parseFloat : gstr -> option Z).

(** [strconv.ParseFloat] reads what [json.Marshal] writes for a float. *)
Hypothesis parse_formatted : forall bits, finite bits = true -> parseFloat (formatFloat bits) = Some bits.

Abbreviation encoded := (encodeHTTPReflect formatFloat).
Abbreviation decodedAt := (decodeHTTPValueDepth parseFloat).
Abbreviation number := (decodeHTTPNumber parseFloat).

(** What arrives: text as bytes, and a number as the type its text has. *)
Fixpoint received (v : val) : hval :=
  match v with
  | VNil | VDeferred _ => HNil
  | VBool b => HBool b
  | VInt _ z => HInt z
  | VUint _ z => if z <=? max_int64 then HInt z else HUint z
  | VFloat bits => match number (formatFloat bits) with Ok x => x | Err _ => HFloat bits end
  | VString s | VBytes s => HBytes s
  | VArray _ l => HArray (received <$> l)
  | VMap _ m => HMap ((fun kv => (kv.1, received kv.2)) <$> m)
  end.

Lemma format_no_fraction z : existsb (fun b => bool_decide (b ∈ go ".eE")) (format_int z) = false.
Proof.
  assert (Hd : forall fuel n acc, 0 <= n -> existsb (fun b => bool_decide (b ∈ go ".eE")) acc = false ->
    existsb (fun b => bool_decide (b ∈ go ".eE")) (digits_fuel fuel n acc) = false).
  { induction fuel as [|fuel IH]; intros n acc Hn Ha; cbn [digits_fuel]; [done|].
    pose proof (Z.mod_pos_bound n 10 ltac:(lia)) as Hm.
    assert (existsb (fun b => bool_decide (b ∈ go ".eE")) (Zbyte (48 + n mod 10) :: acc) = false) as H.
    { cbn [existsb]. rewrite Ha, orb_false_r. apply bool_decide_false.
      assert (forall k, (k < 10)%nat -> Zbyte (48 + Z.of_nat k) ∉ go ".eE") as Hk.
      { intros k Hk. do 10 (destruct k as [|k]; [apply (bool_decide_unpack _); by vm_compute|]). lia. }
      rewrite <- (Z2Nat.id (n mod 10)) by lia. apply Hk. lia. }
    destruct (n <? 10); [done|]. apply IH; [apply Z.div_pos; lia|done]. }
  unfold format_int, format_nat. destruct (Z.ltb_spec z 0); [cbn [existsb]; rewrite Hd by (done || lia)|rewrite Hd by (done || lia)]; done.
Qed.

Lemma number_int z : min_int64 <= z <= max_int64 -> number (format_int z) = Ok (HInt z).
Proof. intros Hz. unfold decodeHTTPNumber. rewrite format_no_fraction, parse_format_int by done. done. Qed.

Lemma number_uint z : max_int64 < z <= max_uint64 -> number (format_int z) = Ok (HUint z).
Proof.
  intros Hz. unfold decodeHTTPNumber. rewrite format_no_fraction. unfold format_int, parseUint64. unfold max_int64 in Hz.
  destruct (Z.ltb_spec z 0); [lia|]. rewrite parse_format_nat, parse_uint_format by lia.
  unfold max_int64. rewrite (proj2 (Z.leb_gt _ _)), (proj2 (Z.leb_le _ _)) by lia. done.
Qed.

Lemma number_float bits : finite bits = true -> exists x, number (formatFloat bits) = Ok x.
Proof.
  intros Hf. unfold decodeHTTPNumber. rewrite parse_formatted by done. rewrite Hf.
  destruct (existsb _ _); [by eexists|]. destruct (parse_int64 _); [by eexists|..]; destruct (parseUint64 _); by eexists.
Qed.

Lemma rmap_budget_ok {E A B} (f : A -> Z -> result E (B * Z)) l : forall r ks r',
  rmap_budget f l r = Ok (ks, r') -> Forall2 (fun a b => exists r1 r2, f a r1 = Ok (b, r2)) l ks.
Proof.
  induction l as [|a l IH]; intros r ks r'; cbn; [intros [= <- <-]; constructor|].
  intros H. apply rbind_ok in H as ([b r1] & Hb & H). apply rbind_ok in H as ([bs r2] & Hbs & [= <- <-]).
  constructor; [by eauto|by eapply IH].
Qed.

(** Entries under distinct texts make a map of them. *)
Lemma distinct_texts {A} (entry : A -> result httpDecodeError (hval * hval)) l m :
  Forall2 (fun a kv => entry a = Ok (HText kv.1, kv.2)) l m -> forall seen : list (gstr * hval), NoDup (keys (seen ++ m)) ->
  distinctEntries entry (prod_map HText id <$> seen) l = Ok (prod_map HText id <$> (seen ++ m)).
Proof.
  unfold distinctEntries. induction 1 as [|a [k x] l m Ha _ IH]; intros seen Hn; cbn [rfold]; [by rewrite app_nil_r|].
  rewrite Ha. cbn [rbind fst snd].
  assert (existsb (fun e => sameKey e.1 (HText k)) (prod_map HText id <$> seen) = false) as ->.
  { apply not_true_iff_false. intros (e & (e' & -> & He)%list_elem_of_In%list_elem_of_fmap & Hk)%existsb_exists.
    cbn in Hk. apply bool_decide_eq_true in Hk. unfold keys in Hn. rewrite fmap_app in Hn. apply NoDup_app in Hn as (_ & Hd & _).
    apply (Hd k); [rewrite <- Hk; by apply list_elem_of_fmap_2|by left]. }
  cbn [negb rguard rbind]. specialize (IH (seen ++ [(k, x)])). rewrite fmap_app, <- app_assoc in IH. cbn in IH. by apply IH.
Qed.

Lemma map_of_texts (m : list (gstr * hval)) : mapOfEntries (prod_map HText id <$> m) = HMap m.
Proof.
  unfold mapOfEntries. assert (mapM textKey (prod_map HText id <$> m) = Some m) as ->; [|done].
  induction m as [|[k x] m IH]; [done|]. cbn. cbn in IH. by rewrite IH.
Qed.

(** A value arrives at a depth not above the one it left at. *)
Definition arrives (v : val) : Prop := forall d d' r j r',
  encoded d v r = Ok (j, r') -> transportable v = true -> d' <= d -> Z.even d = true -> decodedAt d' j = Ok (received v).

Lemma depth_ok d : 0 <= d -> rguard (d <=? nativeMaxDecodeDepth) HTTPResponseTooDeep = Ok tt -> d <= 64.
Proof. intros _ H%rguard_ok%Z.leb_le. exact H. Qed.

Lemma depth_guard d : d <= 64 -> rguard (d <=? nativeMaxDecodeDepth) HTTPResponseTooDeep = Ok tt.
Proof. intros H. by apply rguard_true, Z.leb_le. Qed.

(** An element of a container, at the depth of an array's or of a map's elements. *)
Lemma element_arrives v d d' r j r' : arrives v -> transportable v = true -> d' <= d + 2 -> Z.even d = true ->
  (let! _ := rguard (d + 1 <=? nativeMaxEncodeDepth) HTTPTooDeep in
   match v with VNil => Ok (JNull, r) | _ => encoded (d + 2) v r end) = Ok (j, r') ->
  decodedAt d' j = Ok (received v).
Proof.
  intros Hv Ht Hd He H. apply rbind_ok in H as ([] & Hg%rguard_ok%Z.leb_le & H). unfold nativeMaxEncodeDepth in Hg.
  assert (d + 2 <= 64) as Hd64.
  { assert (d <> 63) by (intros ->; done). lia. }
  assert (Z.even (d + 2) = true) as He2 by (by rewrite Z.even_add, He).
  destruct v; try (by eapply Hv). injection H as <- <-. cbn [decodeHTTPValueDepth received]. by rewrite depth_guard by lia.
Qed.

Lemma key_arrives k d d' r j r' : utf8_valid k = true -> d' <= d + 2 -> Z.even d = true ->
  encodeKey (d + 1) k r = Ok (j, r') -> decodedAt d' j = Ok (HBytes k).
Proof.
  intros Hk Hd He H. unfold encodeKey in H. apply rbind_ok in H as ([] & Hg%rguard_ok%Z.leb_le & H). unfold nativeMaxEncodeDepth in Hg.
  assert (d + 2 <= 64) as Hd64 by (assert (d <> 63) by (intros ->; done); lia).
  apply rbind_ok in H as (r1 & _ & H). apply rbind_ok in H as (r2 & _ & [= <- <-]).
  cbn [decodeHTTPValueDepth]. rewrite depth_guard by lia. cbn [rbind]. by rewrite jsonText_valid.
Qed.

Lemma array_arrives id l : Forall arrives l -> arrives (VArray id l).
Proof.
  intros Hl d d' r j r' H Ht Hd He. cbn [encodeHTTPReflect] in H.
  apply rbind_ok in H as ([] & Hg%rguard_ok%Z.leb_le & H). apply rbind_ok in H as (r1 & _ & H).
  apply rbind_ok in H as ([] & _ & H). apply rbind_ok in H as ([items r2] & Hi%rmap_budget_ok & [= <- <-]).
  unfold nativeMaxEncodeDepth in Hg. cbn [decodeHTTPValueDepth received transportable] in *. rewrite depth_guard by lia. cbn [rbind].
  assert (rmapM (decodedAt (d' + 1)) items = Ok (received <$> l)) as ->; [|done].
  apply rmapM_ok. apply Forall2_fmap_r, Forall2_flip. rewrite forallb_forall in Ht.
  clear -Hl Ht Hd He Hi. induction Hi as [|v j l items (s1 & s2 & Hv) _ IH]; constructor.
  - apply Forall_cons in Hl as [Hv' _]. eapply element_arrives; [exact Hv'|apply Ht; by left| |exact He|exact Hv]. lia.
  - apply Forall_cons in Hl as [_ Hl]. apply IH; [done|]. intros x Hx. apply Ht. by right.
Qed.

Lemma map_arrives id m : Forall (fun kv => arrives kv.2) m -> arrives (VMap id m).
Proof.
  intros Hm d d' r j r' H Ht Hd He. cbn [encodeHTTPReflect] in H.
  apply rbind_ok in H as ([] & Hg%rguard_ok%Z.leb_le & H). apply rbind_ok in H as (r1 & _ & H).
  apply rbind_ok in H as ([] & _ & H). apply rbind_ok in H as ([pairs r2] & Hi%rmap_budget_ok & [= <- <-]).
  unfold nativeMaxEncodeDepth in Hg. cbn [decodeHTTPValueDepth received transportable] in *. rewrite depth_guard by lia. cbn [rbind].
  apply andb_true_iff in Ht as [Hn%bool_decide_eq_true Ht].
  rewrite (bool_decide_false (httpMapTag = httpBytesTag)) by done. rewrite bool_decide_true by done.
  match goal with |- context [distinctEntries ?f [] pairs] =>
    pose proof (distinct_texts f pairs ((fun kv => (kv.1, received kv.2)) <$> m)) as Hdist;
    assert (Forall2 (fun a kv => f a = Ok (HText kv.1, kv.2)) pairs ((fun kv => (kv.1, received kv.2)) <$> m)) as Hf
  end.
  - clear Hn Hdist. rewrite forallb_forall in Ht. induction Hi as [|[k v] j m pairs (s1 & s2 & Hv) _ IH]; constructor.
    + apply Forall_cons in Hm as [Hv' _]. cbn [fst snd] in *.
      apply rbind_ok in Hv as ([key s3] & Hk & Hv). apply rbind_ok in Hv as ([item s4] & Hx & [= <- <-]).
      specialize (Ht (k, v) (or_introl eq_refl)). cbn in Ht. apply andb_true_iff in Ht as [Hu Htv].
      rewrite (key_arrives _ d (d' + 2) _ _ _ Hu ltac:(lia) He Hk). cbn [rbind mapKey].
      by rewrite (element_arrives _ d (d' + 2) _ _ _ Hv' Htv ltac:(lia) He Hx).
    + apply Forall_cons in Hm as [_ Hm]. apply IH; [done|]. intros x Hx. apply Ht. by right.
  - specialize (Hdist Hf []). cbn [app] in Hdist. change (prod_map HText Datatypes.id <$> []) with (@nil (hval * hval)) in Hdist.
    rewrite Hdist; [cbn [rbind]; by rewrite map_of_texts|]. unfold keys in *. by rewrite <- list_fmap_compose.
Qed.

Lemma value_arrives v : arrives v.
Proof.
  induction v using val_nested_ind; [..|by apply array_arrives|by apply map_arrives|];
    intros d d' r j r' He Ht Hd _; cbn [encodeHTTPReflect] in He;
    apply rbind_ok in He as ([] & Hg%rguard_ok%Z.leb_le & He); unfold nativeMaxEncodeDepth in Hg;
    try (apply rbind_ok in He as (r1 & _ & He)); cbn [transportable] in Ht; cbn [received].
  - injection He as <- <-. cbn [decodeHTTPValueDepth]. by rewrite depth_guard by lia.
  - injection He as <- <-. cbn [decodeHTTPValueDepth]. by rewrite depth_guard by lia.
  - injection He as <- <-. cbn [decodeHTTPValueDepth]. rewrite depth_guard by lia. cbn [rbind]. z_tests. by apply number_int.
  - injection He as <- <-. cbn [decodeHTTPValueDepth]. rewrite depth_guard by lia. cbn [rbind]. z_tests.
    destruct (Z.leb_spec z max_int64); [apply number_int; unfold min_int64; lia|apply number_uint; lia].
  - destruct (finite z) eqn:Hf; [|done]. injection He as <- <-. cbn [decodeHTTPValueDepth]. rewrite depth_guard by lia. cbn [rbind].
    by destruct (number_float z Hf) as [x ->].
  - apply rbind_ok in He as (r2 & _ & [= <- <-]). cbn [decodeHTTPValueDepth]. rewrite depth_guard by lia. cbn [rbind].
    by rewrite jsonText_valid.
  - apply rbind_ok in He as (r2 & _ & [= <- <-]). cbn [decodeHTTPValueDepth]. rewrite depth_guard by lia. cbn [rbind].
    rewrite bool_decide_true by done. by rewrite stdDecode_encode.
  - done.
Qed.

(** C21: a value that JSON can carry and that is encoded within its budget is what a decoder of
    responses reads from the document: bytes and text as bytes, numbers by their text, nested
    arrays and maps as they are. *)
Theorem http_value_roundtrip v limit j remaining :
  transportable v = true -> encodeHTTPReflect formatFloat 0 v (newHTTPEncodeState limit) = Ok (j, remaining) ->
  decodeHTTPValue parseFloat j = Ok (received v).
Proof. intros Ht He. by eapply value_arrives. Qed.
End RoundTrip.

(** ** Theorems: the budget *)

(** What a value takes from the budget: one for itself and one for every byte of text. *)
Fixpoint httpCost (v : val) : Z :=
  match v with
  | VNil | VDeferred _ => 0
  | VBool _ | VInt _ _ | VUint _ _ | VFloat _ => 1
  | VString s | VBytes s => 1 + blen s
  | VArray _ l => 1 + zsum (httpCost <$> l)
  | VMap _ m => 1 + zsum ((fun kv => 1 + blen kv.1 + httpCost kv.2) <$> m)
  end.

Lemma consumeHTTP_ok n r r' : consumeHTTP n r = Ok r' -> r' = r - n /\ n <= r.
Proof. unfold consumeHTTP. destruct (Z.ltb_spec r n); [done|]. intros [= <-]. by split. Qed.

Lemma rmap_budget_cost {E A B} (f : A -> Z -> result E (B * Z)) (cost : A -> Z) l :
  Forall (fun a => forall r b r', 0 <= r -> f a r = Ok (b, r') -> r' = r - cost a /\ 0 <= r') l ->
  forall r ks r', 0 <= r -> rmap_budget f l r = Ok (ks, r') -> r' = r - zsum (cost <$> l) /\ 0 <= r'.
Proof.
  induction 1 as [|a l Ha _ IH]; intros r ks r' Hr; cbn; [intros [= <- <-]; lia|].
  intros H. apply rbind_ok in H as ([b r1] & Hb & H). apply rbind_ok in H as ([bs r2] & Hbs & [= <- <-]).
  apply Ha in Hb as [Hb1 Hb2]; [|done]. apply IH in Hbs as [Hs1 Hs2]; [|done]. unfold zsum in *. lia.
Qed.

Section Budget.
Context (formatFloat : Z -> gstr).

Definition charges (v : val) : Prop := forall d r j r',
  0 <= r -> encodeHTTPReflect formatFloat d v r = Ok (j, r') -> r' = r - httpCost v /\ 0 <= r'.

Lemma element_charges v d r j r' : charges v -> 0 <= r ->
  (let! _ := rguard (d + 1 <=? nativeMaxEncodeDepth) HTTPTooDeep in
   match v with VNil => Ok (JNull, r) | _ => encodeHTTPReflect formatFloat (d + 2) v r end) = Ok (j, r') ->
  r' = r - httpCost v /\ 0 <= r'.
Proof.
  intros Hv Hr H. apply rbind_ok in H as ([] & _ & H). destruct v; try (by eapply Hv). injection H as <- <-. cbn. lia.
Qed.

Lemma text_charges s r j r' : encodeText s r = Ok (j, r') -> r' = r - blen s /\ 0 <= r'.
Proof. intros H. apply rbind_ok in H as (r1 & Hc%consumeHTTP_ok & [= <- <-]). lia. Qed.

Lemma key_charges d k r j r' : encodeKey d k r = Ok (j, r') -> r' = r - (1 + blen k) /\ 0 <= r'.
Proof.
  intros H. apply rbind_ok in H as ([] & _ & H). apply rbind_ok in H as (r1 & Hc%consumeHTTP_ok & H%text_charges). lia.
Qed.

Lemma value_charges v : charges v.
Proof.
  induction v using val_nested_ind; intros d r j r' Hr H'; cbn [encodeHTTPReflect] in H'; apply rbind_ok in H' as ([] & _ & H');
    try (apply rbind_ok in H' as (r1 & Hc%consumeHTTP_ok & H')); cbn [httpCost].
  - injection H' as <- <-. lia.
  - injection H' as <- <-. lia.
  - injection H' as <- <-. lia.
  - injection H' as <- <-. lia.
  - destruct (finite z); [|done]. injection H' as <- <-. lia.
  - apply text_charges in H'. lia.
  - apply rbind_ok in H' as (r2 & Hc2%consumeHTTP_ok & [= <- <-]). lia.
  - apply rbind_ok in H' as ([] & _ & H'). apply rbind_ok in H' as ([items r2] & Hi & [= <- <-]).
    eapply (rmap_budget_cost _ httpCost) in Hi; [lia| |lia]. eapply Forall_impl; [exact H|].
    intros v Hv s b s' Hs Hb. by eapply element_charges.
  - apply rbind_ok in H' as ([] & _ & H'). apply rbind_ok in H' as ([pairs r2] & Hi & [= <- <-]).
    eapply (rmap_budget_cost _ (fun kv => 1 + blen kv.1 + httpCost kv.2)) in Hi; [lia| |lia]. eapply Forall_impl; [exact H|].
    intros kv Hv s b s' Hs Hb. apply rbind_ok in Hb as ([key s1] & Hk%key_charges & Hb).
    apply rbind_ok in Hb as ([item s2] & Hx & [= <- <-]). apply element_charges in Hx; [lia|done|lia].
  - done.
Qed.

(** An encoded value is charged to the budget, which it does not overdraw. *)
Theorem http_budget_exact v limit j remaining : 0 <= limit ->
  encodeHTTPReflect formatFloat 0 v (newHTTPEncodeState limit) = Ok (j, remaining) ->
  remaining = Z.min limit nativeMaxContainerItems - httpCost v /\ httpCost v <= Z.min limit nativeMaxContainerItems.
Proof. intros Hl H. apply value_charges in H; unfold newHTTPEncodeState, nativeMaxContainerItems in *; lia. Qed.

(** The budget counts bytes but is capped by the number of items: a longer text is refused
    under every limit on the bytes of a request. *)
Theorem http_long_text_refused s limit : nativeMaxContainerItems < blen s ->
  encodeHTTPReflect formatFloat 0 (VString s) (newHTTPEncodeState limit) = Err HTTPBudget.
Proof.
  intros Hs. cbn [encodeHTTPReflect]. change (0 <=? nativeMaxEncodeDepth) with true. cbn [rguard rbind].
  assert (newHTTPEncodeState limit < 1 + blen s) as Hb by (unfold newHTTPEncodeState; lia).
  unfold encodeText, consumeHTTP. destruct (Z.ltb_spec (newHTTPEncodeState limit) 1); [done|]. cbn [rbind].
  by rewrite (proj2 (Z.ltb_lt _ _)) by lia.
Qed.

(** Bytes of a Go string that are not UTF-8 do not reach the server: two keys share a request. *)
Theorem http_text_collides (buildNativeCommand : list arg -> result String.string (Z * val)) :
  let request (key : gstr) := encodeHTTPCommandWithState formatFloat buildNativeCommand [Arg (VString (go "GET")); Arg (VString key)] 100 in
  request [xff] = request [xfe] /\ is_ok (request [xff]) = true.
Proof. split; by vm_compute. Qed.
End Budget.
