(* ===== verification/HttpRedirect.v ===== *)
(** HTTP credentials and redirects (src/http_options.go, src/http_redirect.go): the options a
    client accepts, the headers of its requests, and what the redirect policy of a client the
    SDK owns lets through: headers and bodies stay with the origin they were meant for. *)

From S2P Require Export HttpEnvelope.

(** ** Addresses *)

(** [netip.ParseAddr] on IPv6 texts without a zone, as the list of its 16-bit groups. *)
Definition hexValue (b : byte) : option Z :=
  if byte_between 48 57 b then Some (byteZ b - 48)
  else if byte_between 97 102 b then Some (byteZ b - 87)
  else if byte_between 65 70 b then Some (byteZ b - 55)
  else None.

(** The hexadecimal digits at the front of a text: how many, their value, and the rest. *)
Fixpoint hexGroup (count acc : Z) (s : gstr) : Z * Z * gstr :=
  match s with
  | b :: rest => match hexValue b with Some d => hexGroup (count + 1) (acc * 16 + d) rest | None => (count, acc, s) end
  | [] => (count, acc, [])
  end.

(** [parseIPv4Fields]: four decimal fields without leading zeros. *)
Fixpoint splitDots (s : gstr) : list gstr :=
  match s with
  | [] => [[]]
  | b :: s => if bool_decide (b = x2e) then [] :: splitDots s
              else match splitDots s with field :: fields => (b :: field) :: fields | [] => [[b]] end
  end.

Definition ipv4Field (s : gstr) : option Z :=
  match s with
  | x30 :: _ :: _ => None
  | _ => match parse_uint_text s with Some n => if n <=? 255 then Some n else None | None => None end
  end.

Definition ipv4Groups (s : gstr) : option (list Z) :=
  match mapM ipv4Field (splitDots s) with Some [a; b; c; d] => Some [a * 256 + b; c * 256 + d] | _ => None end.

(** The groups of an address, and where the ellipsis stands among them. The loop runs while
    fewer than eight groups are read: the fuel. *)
Fixpoint ipv6Groups (room : nat) (groups : list Z) (ellipsis : option nat) (s : gstr) : option (list Z * option nat) :=
  match room with
  | O => if bool_decide (s = []) then Some (groups, ellipsis) else None
  | S room =>
      let '(count, value, rest) := hexGroup 0 0 s in
      if (count =? 0) || (4 <? count) then None
      else match rest with
           | x2e :: _ =>
               if (bool_decide (ellipsis = None) && negb (length groups =? 6)%nat) || (6 <? length groups)%nat then None
               else match ipv4Groups s with Some tail => Some (groups ++ tail, ellipsis) | None => None end
           | [] => Some (groups ++ [value], ellipsis)
           | x3a :: [] => None
           | x3a :: x3a :: more =>
               if bool_decide (is_Some ellipsis) then None
               else let groups := groups ++ [value] in
                    match more with
                    | [] => Some (groups, Some (length groups))
                    | _ => ipv6Groups room groups (Some (length groups)) more
                    end
           | x3a :: more => ipv6Groups room (groups ++ [value]) ellipsis more
           | _ => None
           end
  end.

(** The address with its ellipsis, of at least one group, filled. *)
Definition expandGroups (parsed : list Z * option nat) : option (list Z) :=
  let '(groups, ellipsis) := parsed in
  match ellipsis with
  | None => if (length groups =? 8)%nat then Some groups else None
  | Some at_ => if (length groups <? 8)%nat
                then Some (take at_ groups ++ replicate (8 - length groups) 0 ++ drop at_ groups) else None
  end.

Definition parseIPv6 (s : gstr) : option (list Z) :=
  match s with
  | x3a :: x3a :: [] => Some (replicate 8 0)
  | x3a :: x3a :: rest => match ipv6Groups 8 [] (Some O) rest with Some parsed => expandGroups parsed | None => None end
  | _ => match ipv6Groups 8 [] None s with Some parsed => expandGroups parsed | None => None end
  end.

(** [ParseAddr] picks IPv4 or IPv6 by the first dot or colon. *)
Fixpoint colonFirst (s : gstr) : bool :=
  match s with
  | x3a :: _ => true
  | x2e :: _ => false
  | _ :: s => colonFirst s
  | [] => false
  end.

(** [strings.Cut(s, "%")]: what is before and behind the first percent sign. *)
Fixpoint cutPercent (s : gstr) : gstr * gstr :=
  match s with
  | x25 :: s => ([], s)
  | b :: s => let '(before, after) := cutPercent s in (b :: before, after)
  | [] => ([], [])
  end.

(** [parseHTTPRedirectIPv6]. *)
Definition parseHTTPRedirectIPv6 (host : gstr) : option (list Z * gstr) :=
  let '(address, zone) := cutPercent host in
  if colonFirst address then match parseIPv6 address with Some groups => Some (groups, zone) | None => None end else None.

Definition isASCIIHTTPRedirectHost (host : gstr) : bool := forallb (fun b => byteZ b <=? 127) host.

(** [sameHTTPRedirectHost]. *)
Definition sameHTTPRedirectHost (source target : gstr) : bool :=
  match parseHTTPRedirectIPv6 source, parseHTTPRedirectIPv6 target with
  | Some (sourceIP, sourceZone), Some (targetIP, targetZone) =>
      bool_decide (sourceZone = targetZone) && bool_decide (sourceIP = targetIP)
  | Some _, None | None, Some _ => false
  | None, None =>
      bool_decide (source = target) ||
      isASCIIHTTPRedirectHost source && isASCIIHTTPRedirectHost target && equal_fold source target
  end.

(** ** Origins *)

(** What the policy reads of a [url.URL]. *)
Record URL := URLOf { url_Scheme : gstr; url_User : bool; url_Hostname : gstr; url_Port : gstr }.

Record httpRedirectOrigin := OriginOf { or_scheme : gstr; or_host : gstr; or_port : Z }.

(** [httpRedirectOriginForURL]. *)
Definition httpRedirectOriginForURL (url : option URL) : option httpRedirectOrigin :=
  match url with
  | None => None
  | Some u =>
      let scheme := to_lower (url_Scheme u) in
      if url_User u then None
      else if negb (bool_decide (scheme = go "http") || bool_decide (scheme = go "https")) then None
      else if negb (given (url_Hostname u)) then None
      else if given (url_Port u) then
        match parse_uint_text (url_Port u) with
        | Some port => if port <=? 65535 then Some (OriginOf scheme (url_Hostname u) port) else None
        | None => None
        end
      else Some (OriginOf scheme (url_Hostname u) (if bool_decide (scheme = go "http") then 80 else 443))
  end.

(** [safeHTTPRedirectCredentialHop]. *)
Definition safeHTTPRedirectCredentialHop (source target : option URL) : bool :=
  match httpRedirectOriginForURL source, httpRedirectOriginForURL target with
  | Some s, Some t =>
      bool_decide (or_scheme s = or_scheme t) && (or_port s =? or_port t) && sameHTTPRedirectHost (or_host s) (or_host t)
  | _, _ => false
  end.

(** ** Headers *)

(** [http.Header]; its entries in the order in which the code ranges over them. *)
Abbreviation Header := (list (gstr * list gstr)).

(** [textproto.CanonicalMIMEHeaderKey]: a token with capitals at its front and behind hyphens;
    another text is left as it is. *)
Definition tokenByte (b : byte) : bool :=
  byte_between 48 57 b || byte_between 65 90 b || byte_between 97 122 b || bool_decide (b ∈ go "!#$%&'*+-.^_`|~").

Fixpoint capitalized (upper : bool) (s : gstr) : gstr :=
  match s with
  | [] => []
  | b :: s => (if upper then to_upper_byte b else to_lower_byte b) :: capitalized (bool_decide (b = x2d)) s
  end.

Definition CanonicalMIMEHeaderKey (name : gstr) : gstr := if forallb tokenByte name then capitalized true name else name.

(** [header.Values(name)], [None] where it is nil, and [header[name] = values]. *)
Definition Values (header : Header) (name : gstr) : option (list gstr) := assoc_get (CanonicalMIMEHeaderKey name) header.

Fixpoint putHeader (name : gstr) (values : list gstr) (header : Header) : Header :=
  match header with
  | [] => [(name, values)]
  | (k, v) :: header => if bool_decide (k = name) then (k, values) :: header else (k, v) :: putHeader name values header
  end.

(** [header.Set]. *)
Definition setHeader (name value : gstr) (header : Header) : Header := putHeader (CanonicalMIMEHeaderKey name) [value] header.

Definition httpRedirectBodyHeaders : list gstr :=
  [go "Content-Encoding"; go "Content-Language"; go "Content-Location"; go "Content-Type"; go "Content-Length"; go "Transfer-Encoding"].

Definition isHTTPRedirectHeader (name : gstr) (candidates : list gstr) : bool := existsb (equal_fold name) candidates.

Definition scrubHTTPRedirectHeaders (headers : Header) (names : list gstr) : Header :=
  filter (fun e => isHTTPRedirectHeader e.1 names = false) headers.

(** ** The redirect policy *)

(** A request: its body is nil, [http.NoBody], or something to send. *)
Record Request := RequestOf { rq_Method : gstr; rq_URL : option URL; rq_Header : Header; rq_Body : bool }.

Record httpRedirectState := RedirectState { redirected : bool; resolvedURL : option URL }.

Inductive httpRedirectPolicyError := StoppedAfterRedirects | TargetWithUserinfo | BodyAcrossOrigins.

(** [markHTTPRedirectState]. *)
Definition markHTTPRedirectState (request : Request) (state : httpRedirectState) : httpRedirectState :=
  RedirectState true (match rq_URL request with Some u => Some u | None => resolvedURL state end).

(** [hasUnsafeHTTPRedirectHop] of the first request, those behind it, and the next. *)
Fixpoint unsafeHop (previous : Request) (via : list Request) (request : Request) : bool :=
  match via with
  | [] => negb (safeHTTPRedirectCredentialHop (rq_URL previous) (rq_URL request))
  | current :: via =>
      if negb (safeHTTPRedirectCredentialHop (rq_URL previous) (rq_URL current)) then true else unsafeHop current via request
  end.

Definition hasUserinfo (request : Request) : bool := match rq_URL request with Some u => url_User u | None => false end.

(** The headers of the first request that the next one lacks. *)
Definition restoreHeaders (get : bool) (first header : Header) : Header :=
  foldl (fun header e =>
    if get && isHTTPRedirectHeader e.1 httpRedirectBodyHeaders then header
    else match Values header e.1 with None => putHeader e.1 e.2 header | Some _ => header end) header first.

Definition with_Header (header : Header) (r : Request) : Request := RequestOf (rq_Method r) (rq_URL r) header (rq_Body r).

(** [preserveHTTPRedirectHeaders]: the request as it is then sent. *)
Definition preserveHTTPRedirectHeaders (request : Request) (via : list Request) (state : httpRedirectState)
  : result httpRedirectPolicyError Request * httpRedirectState :=
  match via with
  | [] => (Ok request, state)
  | first :: rest =>
      let state := markHTTPRedirectState request state in
      let decide : result httpRedirectPolicyError Request :=
        let! _ := rguard (blen via <? 10) StoppedAfterRedirects in
        let! _ := rguard (negb (hasUserinfo request)) TargetWithUserinfo in
        let crossOriginHop := unsafeHop first rest request in
        let! _ := rguard (negb (crossOriginHop && rq_Body request)) BodyAcrossOrigins in
        let get := bool_decide (rq_Method request = go "GET") in
        let header := if crossOriginHop then [] else rq_Header request in
        let header := if get then scrubHTTPRedirectHeaders header httpRedirectBodyHeaders else header in
        let header := if crossOriginHop then header else restoreHeaders get (rq_Header first) header in
        Ok (with_Header header request) in
      (decide, state)
  end.

(** ** Options and credentials *)

Record httpOptions := OptionsOf {
  opt_CustomClient : bool;       (* WithHTTPClient *)
  opt_Headers : Header;
  opt_Timeout : Z;
  opt_MaxRequestBytes : Z;
  opt_MaxResponseBytes : Z;
  opt_MaxBatchCommands : Z;
  opt_MaxConnections : Z;
  opt_TLSConfig : bool;
  opt_bearerToken : gstr;
  opt_username : gstr;
  opt_password : gstr;
  opt_basicSet : bool;
}.

Definition containsHTTPNewline (value : gstr) : bool := existsb (fun b => bool_decide (b = x0d) || bool_decide (b = x0a)) value.

(** [validateHTTPHeaders]; a canonical key is empty only for an empty name. *)
Definition validHTTPHeader (e : gstr * list gstr) : bool :=
  given e.1 && given (CanonicalMIMEHeaderKey e.1) && negb (containsHTTPNewline e.1) && negb (existsb containsHTTPNewline e.2).

(** [hasHTTPHeaderValue]. *)
Definition hasHTTPHeaderValue (headers : Header) (name : gstr) : bool :=
  existsb (fun e => equal_fold e.1 name && existsb given e.2) headers.

Definition basicUsername (o : httpOptions) : gstr := if given (opt_username o) then opt_username o else go "default".

Definition optionGuard (ok : bool) (what : String.string) : result String.string unit := rguard ok what.

(** [validateHTTPOptions]. *)
Definition validateHTTPOptions (o : httpOptions) (secure : bool) : result String.string unit :=
  let! _ := optionGuard (0 <? opt_Timeout o) "timeout must be positive" in
  let! _ := optionGuard ((0 <? opt_MaxRequestBytes o) && (0 <? opt_MaxResponseBytes o)) "byte limits must be positive" in
  let! _ := optionGuard (0 <? opt_MaxBatchCommands o) "max batch commands must be positive" in
  let! _ := optionGuard (0 <? opt_MaxConnections o) "max connections must be positive" in
  let! _ := optionGuard (forallb validHTTPHeader (opt_Headers o)) "invalid header" in
  let hasAuthorization := hasHTTPHeaderValue (opt_Headers o) (go "Authorization") in
  let! _ := (if given (opt_bearerToken o) then
               let! _ := optionGuard (negb (opt_basicSet o || hasAuthorization)) "credentials are mutually exclusive" in
               optionGuard (negb (containsHTTPNewline (opt_bearerToken o))) "bearer token cannot contain newlines"
             else Ok tt) in
  let! _ := (if opt_basicSet o then
               let! _ := optionGuard secure "Basic credentials require an https:// URL" in
               let! _ := optionGuard (negb (hasAuthorization || given (opt_bearerToken o))) "credentials are mutually exclusive" in
               let! _ := optionGuard (negb (bool_decide (x3a ∈ basicUsername o))) "Basic username cannot contain ':'" in
               optionGuard (negb (containsHTTPNewline (basicUsername o) || containsHTTPNewline (opt_password o)))
                 "Basic credentials cannot contain newlines"
             else Ok tt) in
  optionGuard (negb (opt_CustomClient o && opt_TLSConfig o)) "custom client and TLS config are mutually exclusive".

(** [requestHeaders]. *)
Definition requestHeaders (o : httpOptions) : Header :=
  if given (opt_bearerToken o) then setHeader (go "Authorization") (go "Bearer " ++ opt_bearerToken o) (opt_Headers o)
  else if opt_basicSet o then
    setHeader (go "Authorization") (go "Basic " ++ stdEncode (basicUsername o ++ x3a :: opt_password o)) (opt_Headers o)
  else opt_Headers o.

(** The first request of a batch, to the endpoint of the executor's base URL. *)
Definition firstRequest (o : httpOptions) (endpoint : URL) : Request :=
  RequestOf (go "POST") (Some endpoint)
    (setHeader (go "Accept") (go "application/json") (setHeader (go "Content-Type") (go "application/json") (requestHeaders o))) true.

(** What the code asks of the base URL besides its text: [parseHTTPBaseURL]. *)
Definition secureURL (u : URL) : bool := bool_decide (to_lower (url_Scheme u) = go "https").

Inductive httpURLError := URLScheme | URLHost | URLPort | URLUserinfo | URLQuery.

(** A parsed URL: besides its parts, whether the host ends in a colon and has a query or a
    fragment. *)
Definition parseHTTPBaseURL (u : URL) (colonAtEnd queryOrFragment : bool) : result httpURLError bool :=
  let scheme := to_lower (url_Scheme u) in
  let! _ := rguard (bool_decide (scheme = go "http") || bool_decide (scheme = go "https")) URLScheme in
  let! _ := rguard (given (url_Hostname u)) URLHost in
  let! _ := rguard (if given (url_Port u)
                    then match parse_int64 (url_Port u) with ParsedInt port => (1 <=? port) && (port <=? 65535) | _ => false end
                    else negb colonAtEnd) URLPort in
  let! _ := rguard (negb (url_User u)) URLUserinfo in
  let! _ := rguard (negb queryOrFragment) URLQuery in
  Ok (secureURL u).

(** ** Theorems *)

(** What an origin is: scheme, host and port. The port is the one given in decimals, or
    that of the scheme. *)
Definition effectivePort (u : URL) : option Z :=
  if bool_decide (url_Port u = []) then
    if bool_decide (to_lower (url_Scheme u) = go "http") then Some 80
    else if bool_decide (to_lower (url_Scheme u) = go "https") then Some 443 else None
  else parse_uint_text (url_Port u).

(** The host is an IPv6 address: these groups, in this zone. *)
Definition ipv6Host (host : gstr) (groups : list Z) (zone : gstr) : Prop :=
  exists address, cutPercent host = (address, zone) /\ colonFirst address = true /\ parseIPv6 address = Some groups.

(** Two hosts are the same address, or, as names, the same text but for the case of
    ASCII letters. *)
Definition sameHost (a b : gstr) : Prop :=
  (exists groups zone, ipv6Host a groups zone /\ ipv6Host b groups zone) \/
  ((forall groups zone, ~ ipv6Host a groups zone /\ ~ ipv6Host b groups zone) /\ to_lower a = to_lower b).

(** Two URLs without user information, of one scheme, host and port. *)
Definition sameOrigin (a b : option URL) : Prop :=
  exists u v, a = Some u /\ b = Some v /\ url_User u = false /\ url_User v = false /\
    to_lower (url_Scheme u) = to_lower (url_Scheme v) /\ to_lower (url_Scheme u) ∈ [go "http"; go "https"] /\
    (exists port, effectivePort u = Some port /\ effectivePort v = Some port) /\
    sameHost (url_Hostname u) (url_Hostname v).

Lemma lower_upper b : to_lower_byte (to_upper_byte b) = to_lower_byte b.
Proof. by destruct b. Qed.

Lemma equal_fold_lower a b : equal_fold a b = true -> to_lower a = to_lower b.
Proof.
  unfold equal_fold. rewrite bool_decide_eq_true. intros H.
  assert (Hl : forall s, to_lower (to_upper s) = to_lower s).
  { intros s. unfold to_lower, to_upper. rewrite map_map. apply map_ext. apply lower_upper. }
  by rewrite <- (Hl a), H, Hl.
Qed.

Lemma parse_ipv6Host host groups zone : parseHTTPRedirectIPv6 host = Some (groups, zone) <-> ipv6Host host groups zone.
Proof.
  unfold parseHTTPRedirectIPv6, ipv6Host. destruct (cutPercent host) as [address z]. split.
  - destruct (colonFirst address) eqn:Ec; [|done]. destruct (parseIPv6 address) as [g|] eqn:Ep; [|done].
    intros [= <- <-]. by exists address.
  - intros (a & [= <- <-] & -> & ->). done.
Qed.

Lemma sameHost_sound a b : sameHTTPRedirectHost a b = true -> sameHost a b.
Proof.
  unfold sameHTTPRedirectHost, sameHost.
  destruct (parseHTTPRedirectIPv6 a) as [[ga za]|] eqn:Ea, (parseHTTPRedirectIPv6 b) as [[gb zb]|] eqn:Eb; try done.
  - rewrite andb_true_iff, !bool_decide_eq_true. intros [<- <-]. left. exists ga, za. by rewrite <- !parse_ipv6Host.
  - intros H. right. split.
    { intros groups zone. rewrite <- !parse_ipv6Host, Ea, Eb. by split. }
    apply orb_true_iff in H as [->%bool_decide_eq_true|[_ H]%andb_true_iff]; [done|by apply equal_fold_lower].
Qed.

Lemma origin_inv x o : httpRedirectOriginForURL x = Some o ->
  exists u, x = Some u /\ url_User u = false /\ or_scheme o = to_lower (url_Scheme u) /\
    to_lower (url_Scheme u) ∈ [go "http"; go "https"] /\ or_host o = url_Hostname u /\ effectivePort u = Some (or_port o).
Proof.
  unfold httpRedirectOriginForURL. destruct x as [u|]; [|done]. destruct (url_User u) eqn:Eu; [done|].
  destruct (bool_decide_reflect (to_lower (url_Scheme u) = go "http")) as [Hs|Hs];
    [|destruct (bool_decide_reflect (to_lower (url_Scheme u) = go "https")) as [Hs'|Hs']; [|done]];
    cbn [orb negb]; (destruct (given (url_Hostname u)); [|done]); cbn [negb]; intros H; exists u;
    (assert (or_scheme o = to_lower (url_Scheme u) /\ or_host o = url_Hostname u /\ effectivePort u = Some (or_port o)) as (? & ? & ?);
     [|split_and!; try done; rewrite elem_of_cons, list_elem_of_singleton; auto]).
  - unfold effectivePort. rewrite (bool_decide_true (_ = go "http")) by done. unfold given in H.
    destruct (url_Port u) as [|b port]; [by injection H as <-|]. cbn [negb bool_decide decide] in *.
    destruct (parse_uint_text (b :: port)) as [n|]; [|done]. destruct (n <=? 65535); [|done]. by injection H as <-.
  - unfold effectivePort. rewrite (bool_decide_false (_ = go "http")), (bool_decide_true (_ = go "https")) by done. unfold given in H.
    destruct (url_Port u) as [|b port]; [by injection H as <-|]. cbn [negb bool_decide decide] in *.
    destruct (parse_uint_text (b :: port)) as [n|]; [|done]. destruct (n <=? 65535); [|done]. by injection H as <-.
Qed.

(** A hop the code lets headers over stays within the origin. *)
Lemma safeHop_sound a b : safeHTTPRedirectCredentialHop a b = true -> sameOrigin a b.
Proof.
  unfold safeHTTPRedirectCredentialHop. destruct (httpRedirectOriginForURL a) as [oa|] eqn:Ea; [|done].
  destruct (httpRedirectOriginForURL b) as [ob|] eqn:Eb; [|done].
  rewrite !andb_true_iff, bool_decide_eq_true, Z.eqb_eq. intros [[Hs Hp] Hh%sameHost_sound].
  apply origin_inv in Ea as (u & -> & Hu & Hsu & Hin & Hhu & Hpu).
  apply origin_inv in Eb as (v & -> & Hv & Hsv & _ & Hhv & Hpv).
  exists u, v. split_and!; try done; [congruence|exists (or_port oa); by rewrite Hp at 2|by rewrite <- Hhu, <- Hhv].
Qed.

Lemma sameHost_trans a b c : sameHTTPRedirectHost a b = true -> sameHTTPRedirectHost b c = true -> sameHTTPRedirectHost a c = true.
Proof.
  unfold sameHTTPRedirectHost.
  destruct (parseHTTPRedirectIPv6 a) as [[a1 a2]|], (parseHTTPRedirectIPv6 b) as [[b1 b2]|], (parseHTTPRedirectIPv6 c) as [[c1 c2]|]; try done.
  - rewrite !andb_true_iff, !bool_decide_eq_true. intros [-> ->] [-> ->]. done.
  - rewrite !orb_true_iff, !andb_true_iff, !bool_decide_eq_true. unfold equal_fold. rewrite !bool_decide_eq_true.
    intros [->|[[Ha Hb] E]] [->|[[Hb' Hc] E']]; auto. right. split; [by split|congruence].
Qed.

Lemma safeHop_trans a b c : safeHTTPRedirectCredentialHop a b = true -> safeHTTPRedirectCredentialHop b c = true ->
  safeHTTPRedirectCredentialHop a c = true.
Proof.
  unfold safeHTTPRedirectCredentialHop.
  destruct (httpRedirectOriginForURL a) as [oa|], (httpRedirectOriginForURL b) as [ob|], (httpRedirectOriginForURL c) as [oc|]; try done.
  rewrite !andb_true_iff, !bool_decide_eq_true, !Z.eqb_eq. intros [[-> ->] Hab] [[-> ->] Hbc]. split; [done|].
  by eapply sameHost_trans.
Qed.

Lemma unsafeHop_false previous via request : unsafeHop previous via request = false ->
  safeHTTPRedirectCredentialHop (rq_URL previous) (rq_URL request) = true.
Proof.
  revert previous. induction via as [|current via IH]; intros previous; cbn [unsafeHop].
  - by intros ?%negb_false_iff.
  - destruct (safeHTTPRedirectCredentialHop _ (rq_URL current)) eqn:E; cbn [negb]; [|done].
    intros H%IH. by eapply safeHop_trans.
Qed.

(** A request with nothing of the caller's in it. *)
Definition bare (r : Request) : Prop := rq_Header r = [] /\ rq_Body r = false.

(** What the policy lets through goes to the origin of the first request, or is bare. *)
Lemma preserve_safe request first rest state sent state' :
  preserveHTTPRedirectHeaders request (first :: rest) state = (Ok sent, state') ->
  blen (first :: rest) < 10 /\ rq_URL sent = rq_URL request /\ hasUserinfo sent = false /\
  (sameOrigin (rq_URL first) (rq_URL sent) \/ bare sent).
Proof.
  unfold preserveHTTPRedirectHeaders. intros [= H _]. apply rbind_ok in H as ([] & Hl%rguard_ok%Z.ltb_lt & H).
  apply rbind_ok in H as ([] & Hu%rguard_ok%negb_true_iff & H).
  destruct (unsafeHop first rest request) eqn:Eu; cbn [andb] in H.
  - apply rbind_ok in H as ([] & Hb%rguard_ok%negb_true_iff & [= <-]). repeat split; try done. right. split; [|done]. cbn.
    by case_bool_decide.
  - cbn [negb rguard rbind] in H. injection H as <-. repeat split; try done. left.
    apply safeHop_sound. by apply unsafeHop_false in Eu.
Qed.

(** The requests of a call: the first, then what the policy lets through of whatever the
    transport makes of each redirect. *)
Inductive followed (first : Request) : list Request -> Prop :=
| followed_first : followed first [first]
| followed_redirect via request sent state state' :
    followed first via -> preserveHTTPRedirectHeaders request via state = (Ok sent, state') -> followed first (via ++ [sent]).

Lemma followed_shape first via : followed first via -> exists rest, via = first :: rest /\
  blen via <= 10 /\ Forall (fun r => hasUserinfo r = false /\ (sameOrigin (rq_URL first) (rq_URL r) \/ bare r)) rest.
Proof.
  induction 1 as [|via request sent state state' _ (rest & -> & Hl & Hf) Hp]; [by exists []|].
  exists (rest ++ [sent]). split; [done|]. apply preserve_safe in Hp as (Hl' & _ & Hu & Hs). split; [change (blen ((first :: rest) ++ [sent]) <= 10); rewrite blen_snoc; lia|].
  apply Forall_app. split; [done|]. apply Forall_singleton. by split.
Qed.

(** C20: whatever redirects a server answers, at most ten requests are made, none after the first
    to a URL with user information, and a header or a body leaves only for the origin of the
    first request: a request to another scheme, host or port is bare. *)
Theorem http_redirects_keep_origin first via r : followed first via -> r ∈ via ->
  blen via <= 10 /\ (r = first \/ hasUserinfo r = false /\ (sameOrigin (rq_URL first) (rq_URL r) \/ bare r)).
Proof.
  intros (rest & -> & Hl & Hf)%followed_shape [->|Hr]%elem_of_cons; split; auto. right. by apply (proj1 (Forall_forall _ _) Hf).
Qed.

(** Basic credentials, in a configuration that is accepted, are not sent without TLS. *)
Theorem http_basic_credentials_encrypted o endpoint via r :
  validateHTTPOptions o (secureURL endpoint) = Ok tt -> opt_basicSet o = true ->
  followed (firstRequest o endpoint) via -> r ∈ via -> rq_Header r <> [] ->
  exists u, rq_URL r = Some u /\ secureURL u = true.
Proof.
  intros Hv Hb Hf Hr Hh. assert (secureURL endpoint = true) as Hs.
  { unfold validateHTTPOptions in Hv. do 6 (apply rbind_ok in Hv as ([] & _ & Hv)). rewrite Hb in Hv.
    apply rbind_ok in Hv as ([] & Hv & _). by apply rbind_ok in Hv as ([] & Hs%rguard_ok & _). }
  apply followed_shape in Hf as (rest & -> & _ & Hf). apply elem_of_cons in Hr as [->|Hr]; [by exists endpoint|].
  apply (proj1 (Forall_forall _ _) Hf) in Hr as [_ [Ho|[Hb' _]]]; [|done].
  destruct Ho as (ua & ub & [= <-] & -> & _ & _ & E & _). exists ub. split; [done|]. unfold secureURL in *.
  by rewrite <- E.
Qed.

Lemma putHeader_get name values header n : assoc_get n (putHeader name values header) = if bool_decide (name = n) then Some values else assoc_get n header.
Proof.
  induction header as [|[k v] header IH]; cbn; [done|]. destruct (bool_decide_reflect (k = name)) as [->|Hk]; cbn.
  - by case_bool_decide.
  - rewrite IH. destruct (bool_decide_reflect (k = n)) as [->|Hn]; [|done]. by rewrite bool_decide_false by congruence.
Qed.

(** Within the origin no header of the first request is lost, but those of a body that a GET
    does not have. *)
Lemma restoreHeaders_keeps get first : forall header name,
  is_Some (assoc_get name header) -> is_Some (assoc_get name (restoreHeaders get first header)).
Proof.
  unfold restoreHeaders. induction first as [|[k v] first IH]; intros header name Hn; cbn; [done|].
  apply IH. destruct (_ && _); [done|]. destruct (Values header k); [done|]. rewrite putHeader_get. by case_bool_decide.
Qed.

Lemma restoreHeaders_has get first : forall header name values, (name, values) ∈ first ->
  get && isHTTPRedirectHeader name httpRedirectBodyHeaders = false ->
  is_Some (assoc_get name (restoreHeaders get first header)) \/
  is_Some (assoc_get (CanonicalMIMEHeaderKey name) (restoreHeaders get first header)).
Proof.
  induction first as [|[k v] first IH]; intros header name values Hin Hg; [by apply elem_of_nil in Hin|].
  apply elem_of_cons in Hin as [[= <- <-]|Hin]; [|by eapply IH].
  change (restoreHeaders get ((name, values) :: first) header) with
    (restoreHeaders get first (if get && isHTTPRedirectHeader name httpRedirectBodyHeaders then header
       else match Values header name with None => putHeader name values header | Some _ => header end)).
  rewrite Hg. destruct (Values header name) as [vs|] eqn:E.
  - right. apply restoreHeaders_keeps. unfold Values in E. by rewrite E.
  - left. apply restoreHeaders_keeps. rewrite putHeader_get. by rewrite bool_decide_true.
Qed.

Theorem http_redirect_keeps_headers request first rest state sent state' name values :
  preserveHTTPRedirectHeaders request (first :: rest) state = (Ok sent, state') ->
  unsafeHop first rest request = false -> (name, values) ∈ rq_Header first ->
  bool_decide (rq_Method request = go "GET") && isHTTPRedirectHeader name httpRedirectBodyHeaders = false ->
  is_Some (assoc_get name (rq_Header sent)) \/ is_Some (assoc_get (CanonicalMIMEHeaderKey name) (rq_Header sent)).
Proof.
  unfold preserveHTTPRedirectHeaders. intros [= H _] Hs Hin Hg. apply rbind_ok in H as ([] & _ & H).
  apply rbind_ok in H as ([] & _ & H). rewrite Hs in H. cbn [andb negb rguard rbind] in H. injection H as <-. cbn [rq_Header with_Header].
  by eapply restoreHeaders_has.
Qed.

(** ** Redirects of a sample client *)

Module Redirects.
Definition url (scheme host port : String.string) : URL := URLOf (go scheme) false (go host) (go port).
Definition home : URL := url "https" "Ferric.example" "".
Definition options : httpOptions := OptionsOf false [] 1 1 1 1 1 false [] (go "app") (go "secret") true.
Definition first : Request := firstRequest options home.

(** A redirect that the transport follows with the headers and no body, or with the body. *)
Definition redirect (method : String.string) (to : URL) (body : bool) : Request := RequestOf (go method) (Some to) (rq_Header first) body.
Definition none : httpRedirectState := RedirectState false None.
Definition outcome (to : URL) (method : String.string) (body : bool) := (preserveHTTPRedirectHeaders (redirect method to body) [first] none).1.

Example home_keeps_headers :
  outcome (url "HTTPS" "ferric.EXAMPLE" "443") "POST" true = Ok (redirect "POST" (url "HTTPS" "ferric.EXAMPLE" "443") true).
Proof. by_vm. Qed.
Example elsewhere_bare : outcome (url "https" "other.example" "") "GET" false = Ok (RequestOf (go "GET") (Some (url "https" "other.example" "")) [] false).
Proof. by_vm. Qed.
Example body_refused : outcome (url "http" "ferric.example" "") "POST" true = Err BodyAcrossOrigins.
Proof. by_vm. Qed.
Example same_ipv6 : sameHTTPRedirectHost (go "2001:db8::1") (go "2001:DB8:0:0:0:0:0.0.0.1") = true.
Proof. by_vm. Qed.
Example other_zone : sameHTTPRedirectHost (go "fe80::1%eth0") (go "fe80::1%eth1") = false.
Proof. by_vm. Qed.
Example bad_address : parseIPv6 (go "1:2:3:4:5:6:7:8::") = None /\ parseIPv6 (go "::1.2.3.256") = None.
Proof. split; by_vm. Qed.

Example port_is_origin : ~ sameOrigin (Some home) (Some (url "https" "ferric.example" "8443")).
Proof. intros (u & v & [= <-] & [= <-] & _ & _ & _ & _ & (port & Hu & Hv) & _). vm_compute in Hu, Hv. congruence. Qed.
Example host_is_origin : ~ sameOrigin (Some home) (Some (url "https" "other.example" "")).
Proof.
  intros (u & v & [= <-] & [= <-] & _ & _ & _ & _ & _ & [(groups & zone & (address & Ha & Hc & _) & _)|[_ H]]).
  - vm_compute in Ha. injection Ha as <- <-. vm_compute in Hc. done.
  - vm_compute in H. done.
Qed.

Definition secondRequest : Request := RequestOf (go "GET") (Some (url "http" "other.example" "")) [] false.
Lemma two_requests : followed first ([first] ++ [secondRequest]).
Proof.
  eapply (followed_redirect first [first] (redirect "GET" (url "http" "other.example" "") false) secondRequest none);
    [constructor|by vm_compute].
Qed.

Lemma http_redirects_keep_origin_witness :
  blen [first; secondRequest] <= 10 /\
  (secondRequest = first \/ hasUserinfo secondRequest = false /\ (sameOrigin (rq_URL first) (rq_URL secondRequest) \/ bare secondRequest)).
Proof. apply (http_redirects_keep_origin first [first; secondRequest] secondRequest two_requests). right. left. Defined.
End Redirects.
