(* ===== verification/HttpExecutor.v ===== *)
(** The HTTP executor (src/http_executor.go, src/http_deadline.go, HTTPError in
    src/durable_mutation_delivery.go): a batch of commands as one request, the checks before it
    is submitted, the results or the error it ends in, and what the error says of its delivery.

    The transport is an [HTTPWorld]: what it answers to a body, and the state of the context at
    each point where the code asks for it. Deadlines (the timeout of the options and the budget
    of blocking commands) act there. Errors of [json.Marshal] and [http.NewRequest], which the
    checked commands and options do not cause, are left out; messages are abridged. *)

From S2P Require Import Errors.
From S2P Require Export HttpRedirect.

Inductive contextError := ContextCanceled | ContextDeadline.

(** What [errors.Is] finds in a transport error. *)
Record transportCause := TransportCause { causeCanceled : bool; causeDeadline : bool }.

(** A JSON text: no document for a map, or the document and whether more follows. *)
Inductive jsonDocument := NotJSON | Document (envelope : list (gstr * json)) (trailing : bool).

Inductive httpBody := BodyFails (cause : transportCause) | BodyOf (size : Z) (document : jsonDocument).

Inductive transportReply :=
| TransportFailed (cause : transportCause)
| Response (status contentLength : Z) (retryAfter : gstr) (body : httpBody).

Inductive checkpoint := BeforeEncoding | BeforeSubmission | AfterFailure | WhileReading | AfterReading | AfterDecoding.

Class HTTPWorld (W : Type) := {
  submit : json -> W -> transportReply * W;
  contextErr : checkpoint -> W -> option contextError;
}.

Record HTTPError := HTTPErrorOf {
  he_StatusCode : Z;
  he_Code : gstr;
  he_Message : gstr;
  he_Retryable : bool;
  he_SafeToRetry : bool;
  he_RetryAfterMS : Z;
  he_Details : list (gstr * json);
}.

(** An error with no details. *)
Definition httpError (status : Z) (code message : String.string) : HTTPError :=
  HTTPErrorOf status (go code) (go message) false false 0 [].

Inductive httpBatchError :=
| BatchNotSent (cause : option HTTPError)   (* markCommandNotSent; no HTTPError: a bad configuration *)
| BatchFailed (e : HTTPError).

Definition notSent {A} (e : HTTPError) : result httpBatchError A := Err (BatchNotSent (Some e)).

(** ** Errors *)

(** [classifyHTTPTransportError]. *)
Definition classifyHTTPTransportError (cause : transportCause) (ctx : option contextError) : gstr * bool :=
  let canceled := match ctx with Some ContextCanceled => true | _ => false end in
  let deadline := match ctx with Some ContextDeadline => true | _ => false end in
  if causeCanceled cause || canceled then (go "transport_canceled", false)
  else if causeDeadline cause || deadline then (go "transport_timeout", true)
  else (go "transport_error", true).

Definition noCause : transportCause := TransportCause false false.

Definition transportError (status : Z) (cause : transportCause) (ctx : option contextError) (message : String.string) (safe : bool) : HTTPError :=
  let '(code, retry) := classifyHTTPTransportError cause ctx in
  HTTPErrorOf status code (go message) retry safe 0 [].

(** [newHTTPTransportContextError]. *)
Definition newHTTPTransportContextError (ctx : contextError) : HTTPError :=
  transportError 0 noCause (Some ctx) "FerricStore HTTP request failed" false.

Definition canceledBefore (ctx : contextError) : HTTPError :=
  transportError 0 noCause (Some ctx) "FerricStore HTTP request canceled before submission" true.

(** [isHTTPTransportError]. *)
Definition isHTTPTransportError (e : HTTPError) : bool :=
  bool_decide (he_Code e ∈ [go "transport_canceled"; go "transport_timeout"; go "transport_error"]).

Definition textOf (v : option json) : gstr := match v with Some (JString s) => s | _ => [] end.
Definition flagOf (v : option json) : bool := match v with Some (JBool b) => b | _ => false end.

(** [httpNonNegativeInt64] of a number as the decoder gives it. *)
Definition httpNonNegativeInt64 (v : option json) : Z :=
  match v with Some (JNumber text) => Z.max 0 (parse_int64_or_bound text) | _ => 0 end.

(** [strings.ReplaceAll(code, "_", " ")]. *)
Definition spaced (code : gstr) : gstr := (fun b => if bool_decide (b = x5f) then x20 else b) <$> code.

(** [newHTTPError]. *)
Definition newHTTPError (status : Z) (details : list (gstr * json)) (fallbackCode : gstr) : HTTPError :=
  let field (name : String.string) := assoc_get (go name) details in
  let code := if given (textOf (field "code")) then textOf (field "code") else fallbackCode in
  let message := if given (textOf (field "message")) then textOf (field "message") else spaced code in
  HTTPErrorOf status code message (flagOf (field "retryable")) (flagOf (field "safe_to_retry"))
    (httpNonNegativeInt64 (field "retry_after_ms")) details.

Definition objectOf (v : option json) : list (gstr * json) := match v with Some (JObject m) => m | _ => [] end.

Definition commandHTTPError (item : list (gstr * json)) : HTTPError :=
  newHTTPError 200 (objectOf (assoc_get (go "error") item)) (go "upstream_error").

(** [HTTPError.RequestDelivery]. *)
Definition httpDelivery (e : HTTPError) : RequestDelivery :=
  if (he_StatusCode e =? 408) || bool_decide (he_Code e = go "request_timeout") then DeliveryUnknown
  else if he_StatusCode e =? 0 then
    if bool_decide (he_Code e ∈ [go "closed"; go "invalid_request"; go "request_too_large"; go "too_many_commands";
                                 go "client_overloaded"])
    then DeliveryNotSent else DeliveryUnknown
  else if he_SafeToRetry e then DeliveryRejected
  else if 500 <=? he_StatusCode e then DeliveryUnknown
  else if he_StatusCode e =? 200 then
    if bool_decide (to_lower (he_Code e) ∈ durableRejectionCodes) then DeliveryRejected else DeliveryUnknown
  else if bool_decide (he_StatusCode e ∈ [400; 401; 403; 404; 405; 406; 411; 413; 414; 415; 422; 426; 431])
  then DeliveryRejected else DeliveryUnknown.

(** What [errors.As] finds for a batch that fails: the mark, or the error itself. *)
Definition batchDelivery (e : httpBatchError) : RequestDelivery :=
  match e with BatchNotSent _ => DeliveryNotSent | BatchFailed e => httpDelivery e end.

(** ** The executor *)

(** [HTTPExecutor]: closed, its scheme is https, and its options, which [configure] checks. *)
Record HTTPExecutor := ExecutorOf { ex_closed : bool; ex_secure : bool; ex_opts : httpOptions }.

Definition closeHTTPExecutor (e : HTTPExecutor) : HTTPExecutor := ExecutorOf true (ex_secure e) (ex_opts e).

(** [snapshot], marked; an invalid configuration is its error. *)
Definition executorSnapshot (e : HTTPExecutor) : result httpBatchError httpOptions :=
  if ex_closed e then notSent (httpError 0 "closed" "FerricStore HTTP executor is closed")
  else match validateHTTPOptions (ex_opts e) (ex_secure e) with
       | Ok _ => Ok (ex_opts e)
       | Err _ => Err (BatchNotSent None)
       end.

Definition invalidResponse (what : String.string) : HTTPError := httpError 200 "invalid_response" what.
Definition tooLarge (status : Z) : HTTPError := httpError status "response_too_large" "FerricStore HTTP response exceeds max response bytes".

(** [readHTTPResponse]. *)
Definition readHTTPResponse (status contentLength : Z) (body : httpBody) (limit : Z) (ctx : option contextError)
  : result HTTPError (list (gstr * json)) :=
  if limit <? contentLength then Err (tooLarge status)
  else match body with
       | BodyFails cause => Err (transportError status cause ctx "FerricStore HTTP response read failed" false)
       | BodyOf size document =>
           if limit <? size then Err (tooLarge status)
           else match document with
                | NotJSON => Err (httpError status "invalid_response" "FerricStore HTTP response is not valid JSON")
                | Document envelope trailing =>
                    if trailing then Err (httpError status "invalid_response" "FerricStore HTTP response contains trailing JSON")
                    else Ok envelope
                end
       end.

Section Executor.
Context (formatFloat : Z -> gstr) (parseFloat : gstr -> option Z) (buildNativeCommand : list arg -> result String.string (Z * val)).
(** The length of the text of a document, and the delay until a date in a header. *)
Context (jsonSize : json -> Z) (dateDelay : gstr -> Z).

(** A result of a batch: a value, or the error of its command. *)
Abbreviation itemResult := (result HTTPError hval).

Definition decodeItem (raw : json) : result HTTPError itemResult :=
  match raw with
  | JObject item =>
      match assoc_get (go "status") item with
      | Some (JString status) =>
          if bool_decide (status = go "ok") then
            match decodeHTTPValue parseFloat (default JNull (assoc_get (go "value") item)) with
            | Ok v => Ok (Ok v)
            | Err _ => Err (invalidResponse "value")
            end
          else if bool_decide (status = go "error") then
            match assoc_get (go "error") item with
            | Some (JObject _) => Ok (Err (commandHTTPError item))
            | _ => Err (invalidResponse "FerricStore HTTP command error is not an object")
            end
          else Err (invalidResponse "FerricStore HTTP command result has an invalid status")
      | _ => Err (invalidResponse "FerricStore HTTP command result has an invalid status")
      end
  | _ => Err (invalidResponse "FerricStore HTTP command result is not an object")
  end.

(** The encoding a response names, if any. *)
Definition knownEncoding (envelope : list (gstr * json)) : bool :=
  match assoc_get (go "encoding") envelope with
  | None => true
  | Some (JString s) => bool_decide (s = httpBinaryEncoding)
  | Some _ => false
  end.

(** [decodeHTTPResults]. *)
Definition decodeHTTPResults (envelope : list (gstr * json)) (expected : Z) : result HTTPError (list itemResult) :=
  let! _ := rguard (knownEncoding envelope) (invalidResponse "FerricStore HTTP response uses an unknown encoding") in
  match assoc_get (go "results") envelope with
  | Some (JArray values) =>
      let! _ := rguard (blen values =? expected) (invalidResponse "FerricStore HTTP response result count is invalid") in
      rmapM decodeItem values
  | _ => Err (invalidResponse "FerricStore HTTP response result count is invalid")
  end.

(** [parseHTTPRetryAfter]. *)
Definition parseHTTPRetryAfter (value : gstr) : Z :=
  match parse_int64 value with
  | ParsedInt seconds =>
      if 0 <? seconds then if max_int64 / 1000 <? seconds then max_int64 else seconds * 1000 else dateDelay value
  | _ => dateDelay value
  end.

Definition with_RetryAfter (ms : Z) (e : HTTPError) : HTTPError :=
  HTTPErrorOf (he_StatusCode e) (he_Code e) (he_Message e) (he_Retryable e) (he_SafeToRetry e) ms (he_Details e).

(** [topLevelHTTPError]. *)
Definition topLevelHTTPError (status : Z) (retryAfter : gstr) (envelope : list (gstr * json)) : HTTPError :=
  let e := newHTTPError status (objectOf (assoc_get (go "error") envelope)) (go "http_" ++ format_int status) in
  if he_RetryAfterMS e =? 0 then with_RetryAfter (parseHTTPRetryAfter retryAfter) e else e.

(** The checks and the body of a batch, before it is submitted. *)
Definition prepareBatch (executor : HTTPExecutor) (commands : list (list arg)) (before : option contextError)
  : result httpBatchError (httpOptions * json) :=
  match before with
  | Some ctx => notSent (canceledBefore ctx)
  | None =>
      let! options := executorSnapshot executor in
      let! _ := rguard (blen commands <=? opt_MaxBatchCommands options)
                  (BatchNotSent (Some (httpError 0 "too_many_commands" "batch"))) in
      match encodeHTTPCommands formatFloat buildNativeCommand commands (opt_MaxRequestBytes options) with
      | Err HTTPBudget => notSent (httpError 0 "request_too_large" "FerricStore HTTP request exceeds max request bytes")
      | Err _ => notSent (HTTPErrorOf 0 (go "invalid_request") [] false true 0 [])
      | Ok encoded =>
          let body := httpRequestBody encoded in
          let! _ := rguard (jsonSize body <=? opt_MaxRequestBytes options)
                      (BatchNotSent (Some (httpError 0 "request_too_large" "FerricStore HTTP request exceeds max request bytes"))) in
          Ok (options, body)
      end
  end.

(** A response that could not be read: its status tells more than its body. *)
Definition readFailure (status : Z) (e : HTTPError) : HTTPError :=
  if isHTTPTransportError e then e
  else if negb (status =? 200) && negb (bool_decide (he_Code e = go "response_too_large"))
  then httpError status "http_error" "FerricStore HTTP endpoint returned an error"
  else e.

(** Values that are complete only after the deadline are withheld. *)
Definition withhold (ctx : option contextError) (results : list itemResult) : list itemResult :=
  match ctx with
  | None => results
  | Some ctx => (fun r => match r with Ok _ => Err (newHTTPTransportContextError ctx) | Err e => Err e end) <$> results
  end.

(** A response: the points where the context is asked for are arguments. *)
Definition handleResponse (options : httpOptions) (expected : Z) (context : checkpoint -> option contextError)
  (status contentLength : Z) (retryAfter : gstr) (body : httpBody) : result HTTPError (list itemResult) :=
  match readHTTPResponse status contentLength body (opt_MaxResponseBytes options) (context WhileReading) with
  | Err e => Err (readFailure status e)
  | Ok envelope =>
      match context AfterReading with
      | Some ctx => Err (newHTTPTransportContextError ctx)
      | None =>
          if negb (status =? 200) then Err (topLevelHTTPError status retryAfter envelope)
          else let! results := decodeHTTPResults envelope expected in Ok (withhold (context AfterDecoding) results)
      end
  end.

Context {W : Type} `{!HTTPWorld W}.

(** [executeBatch] of commands; none is no request. *)
Definition executeBatch (executor : HTTPExecutor) (commands : list (list arg)) (w : W) : result httpBatchError (list itemResult) * W :=
  match commands with
  | [] => (Ok [], w)
  | _ =>
      match prepareBatch executor commands (contextErr BeforeEncoding w) with
      | Err e => (Err e, w)
      | Ok (options, body) =>
          match contextErr BeforeSubmission w with
          | Some ctx => (notSent (canceledBefore ctx), w)
          | None =>
              let '(reply, w) := submit body w in
              match reply with
              | TransportFailed cause =>
                  match contextErr AfterFailure w with
                  | Some ctx => (Err (BatchFailed (newHTTPTransportContextError ctx)), w)
                  | None => (Err (BatchFailed (transportError 0 cause None "FerricStore HTTP request failed" false)), w)
                  end
              | Response status contentLength retryAfter body =>
                  match handleResponse options (blen commands) (fun c => contextErr c w) status contentLength retryAfter body with
                  | Err e => (Err (BatchFailed e), w)
                  | Ok results => (Ok results, w)
                  end
              end
          end
      end
  end.

(** [HTTPExecutor.Do]: the batch of one command. *)
Inductive doError := DoBatch (e : httpBatchError) | DoCommand (e : HTTPError) | DoPanics.

Definition doOne (executor : HTTPExecutor) (args : list arg) (w : W) : result doError hval * W :=
  match executeBatch executor [args] w with
  | (Err e, w) => (Err (DoBatch e), w)
  | (Ok [], w) => (Err DoPanics, w)
  | (Ok (Err e :: _), w) => (Err (DoCommand e), w)
  | (Ok (Ok v :: _), w) => (Ok v, w)
  end.
End Executor.

(** ** Theorems *)

(** A world and the bodies submitted to it. *)
Definition loggedWorld {W} `{!HTTPWorld W} : HTTPWorld (W * list json) := {|
  submit body w := let '(reply, w1) := submit body w.1 in (reply, (w1, w.2 ++ [body]));
  contextErr c w := contextErr c w.1;
|}.

Lemma status_not_sent e : he_StatusCode e <> 0 -> httpDelivery e <> DeliveryNotSent.
Proof. intros H. unfold httpDelivery. rewrite (proj2 (Z.eqb_neq _ _) H). repeat case_match; done. Qed.

Lemma context_not_sent ctx : httpDelivery (newHTTPTransportContextError ctx) <> DeliveryNotSent.
Proof. by destruct ctx. Qed.

Lemma transport_not_sent cause message : httpDelivery (transportError 0 cause None message false) <> DeliveryNotSent.
Proof. unfold transportError, classifyHTTPTransportError. destruct (causeCanceled cause), (causeDeadline cause); cbn; by vm_compute. Qed.

Lemma transportError_status status cause ctx message safe : he_StatusCode (transportError status cause ctx message safe) = status.
Proof. unfold transportError. by destruct (classifyHTTPTransportError cause ctx). Qed.

Lemma read_status status contentLength body limit ctx e :
  readHTTPResponse status contentLength body limit ctx = Err e -> he_StatusCode (readFailure status e) = status.
Proof.
  intros H. assert (he_StatusCode e = status) as He.
  { unfold readHTTPResponse in H. destruct (limit <? contentLength); [by injection H as <-|]. destruct body as [cause|size document].
    - injection H as <-. apply transportError_status.
    - destruct (limit <? size); [by injection H as <-|]. destruct document as [|envelope []]; by simplify_eq. }
  unfold readFailure. by repeat case_match.
Qed.

Section Theorems.
Context (formatFloat : Z -> gstr) (parseFloat : gstr -> option Z) (buildNativeCommand : list arg -> result String.string (Z * val)).
Context (jsonSize : json -> Z) (dateDelay : gstr -> Z).
Context {W : Type} `{!HTTPWorld W}.

Abbreviation prepared := (prepareBatch formatFloat buildNativeCommand jsonSize).
Abbreviation encodedCommand := (encodeHTTPCommandWithState formatFloat buildNativeCommand).

(** A batch run on a world that logs what is submitted. *)
Definition runBatch (executor : HTTPExecutor) (commands : list (list arg)) (w : W) :=
  executeBatch formatFloat parseFloat buildNativeCommand jsonSize dateDelay (W := W * list json) (HTTPWorld0 := loggedWorld)
    executor commands (w, []).

Lemma decodeItem_err raw e : decodeItem parseFloat raw = Err e -> he_StatusCode e = 200.
Proof. unfold decodeItem. intros H. repeat case_match; by simplify_eq. Qed.

Lemma rmapM_err {E A B} (f : A -> result E B) l e : rmapM f l = Err e -> exists a, a ∈ l /\ f a = Err e.
Proof.
  induction l as [|a l IH]; cbn; [done|]. intros [H|(b & Hb & H)]%rbind_err; [exists a; split; [by left|done]|].
  apply rbind_err in H as [H|(bs & _ & [=])]. destruct (IH H) as (a' & Ha & He). exists a'. split; [by right|done].
Qed.

Lemma decodeResults_err envelope expected e : decodeHTTPResults parseFloat envelope expected = Err e -> he_StatusCode e = 200.
Proof.
  unfold decodeHTTPResults. intros [H|(_ & _ & H)]%rbind_err.
  - unfold rguard in H. destruct (knownEncoding _); by simplify_eq.
  - destruct (assoc_get _ _) as [[]|]; try by simplify_eq. apply rbind_err in H as [H|(_ & _ & H)].
    + unfold rguard in H. destruct (_ =? _); by simplify_eq.
    + apply rmapM_err in H as (a & _ & H). by eapply decodeItem_err.
Qed.

(** No failure of a response says that the request was not sent. *)
Lemma response_delivery options expected context status contentLength retryAfter body e : status <> 0 ->
  handleResponse parseFloat dateDelay options expected context status contentLength retryAfter body = Err e ->
  httpDelivery e <> DeliveryNotSent.
Proof.
  intros Hs H. unfold handleResponse in H. destruct (readHTTPResponse _ _ _ _ _) as [envelope|re] eqn:Er.
  - destruct (context AfterReading) as [ctx|]; [injection H as <-; apply context_not_sent|].
    destruct (negb (status =? 200)).
    + injection H as <-. apply status_not_sent. unfold topLevelHTTPError, newHTTPError. by case_match.
    + apply rbind_err in H as [H|(rs & _ & [=])]. apply decodeResults_err in H. apply status_not_sent. lia.
  - injection H as <-. apply status_not_sent. by erewrite read_status.
Qed.

Lemma prepared_err executor commands ctx e : prepared executor commands ctx = Err e -> exists c, e = BatchNotSent c.
Proof.
  unfold prepareBatch, executorSnapshot. intros H. destruct ctx as [ctx|]; [injection H as <-; by eexists|].
  destruct (ex_closed executor); [injection H as <-; by eexists|]. destruct (validateHTTPOptions _ _); [|injection H as <-; by eexists].
  cbn [rbind] in H. destruct (blen commands <=? _); cbn [rguard rbind] in H; [|injection H as <-; by eexists].
  destruct (encodeHTTPCommands _ _ _ _) as [encoded|[]]; try (injection H as <-; by eexists).
  destruct (jsonSize _ <=? _); cbn [rguard rbind] in H; [done|injection H as <-; by eexists].
Qed.

(** C19: an error of a batch says that nothing was sent exactly when nothing was submitted; in
    every other case one request was. *)
Theorem http_not_sent_exact executor commands w e w' log :
  (forall body w0 status n retryAfter reply w1, submit body w0 = (Response status n retryAfter reply, w1) -> status <> 0) ->
  runBatch executor commands w = (Err e, (w', log)) ->
  (batchDelivery e = DeliveryNotSent <-> log = []) /\ blen log <= 1.
Proof.
  intros Hstatus. unfold runBatch, executeBatch, notSent. destruct commands as [|args commands]; [done|]. set (batch := args :: commands).
  destruct (prepared executor batch _) as [[options body]|pe] eqn:Ep.
  - cbn [contextErr loggedWorld fst]. destruct (contextErr BeforeSubmission w) as [ctx|]; [by intros [= <- <- <-]|].
    cbn [submit loggedWorld fst snd]. destruct (submit body w) as [reply w1] eqn:Es. cbn [app snd fst]. destruct reply as [cause|status n retryAfter rbody].
    + destruct (contextErr AfterFailure w1) as [ctx|]; intros [= <- <- <-]; cbn [batchDelivery].
      * split; [|by vm_compute]. split; [by intros ?%context_not_sent|done].
      * split; [|by vm_compute]. split; [by intros ?%transport_not_sent|done].
    + destruct (handleResponse _ _ _ _ _ _ _ _ _) as [rs|re] eqn:Eh; [done|]. intros [= <- <- <-]; cbn [batchDelivery].
      split; [|by vm_compute]. split; [|done]. intros Hd. by apply (response_delivery _ _ _ _ _ _ _ _ (Hstatus _ _ _ _ _ _ _ Es) Eh) in Hd.
  - intros [= <- <- <-]. split; [|by vm_compute]. apply prepared_err in Ep as [c ->]. done.
Qed.





Lemma affine_refused args r : nativeOnly (httpEffectiveCommandName args) = true -> is_ok (encodedCommand args r) = false.
Proof.
  intros Ha. unfold encodeHTTPCommandWithState. destruct (validateCommandArgs args); [|done]. cbn [rbind].
  destruct (consumeHTTP 1 r) as [r1|]; [|done]. cbn [rbind]. destruct (consumeHTTP _ r1); [|done]. cbn [rbind].
  by rewrite Ha.
Qed.

Lemma rmap_budget_fails {E A B} (f : A -> Z -> result E (B * Z)) l a : a ∈ l -> (forall r, is_ok (f a r) = false) ->
  forall r, is_ok (rmap_budget f l r) = false.
Proof.
  induction l as [|b l IH]; [by intros ?%elem_of_nil|]. intros [->|Ha]%elem_of_cons Hf r; cbn.
  - specialize (Hf r). by destruct (f b r).
  - destruct (f b r) as [[c r1]|]; [|done]. cbn. specialize (IH Ha Hf r1). by destruct (rmap_budget f l r1) as [[]|].
Qed.

(** A command that needs a connection of its own fails its batch before anything is sent. *)
Theorem http_affine_refused executor commands args w : args ∈ commands -> nativeOnly (httpEffectiveCommandName args) = true ->
  exists c, runBatch executor commands w = (Err (BatchNotSent c), (w, [])).
Proof.
  intros Hin Ha. unfold runBatch, executeBatch. destruct commands as [|first commands]; [by apply elem_of_nil in Hin|].
  destruct (prepared executor (first :: commands) _) as [[options body]|e] eqn:Ep; [|apply prepared_err in Ep as [c ->]; by exists c].
  exfalso. unfold prepareBatch in Ep. destruct (contextErr _ _); [done|]. destruct (executorSnapshot executor) as [o|]; [|done].
  cbn [rbind] in Ep. destruct (blen (first :: commands) <=? _); [|done]. cbn [rguard rbind] in Ep.
  pose proof (rmap_budget_fails encodedCommand _ _ Hin (fun r => affine_refused args r Ha) (newHTTPEncodeState (opt_MaxRequestBytes o))) as Hf.
  unfold encodeHTTPCommands in Ep. destruct (rmap_budget encodedCommand _ _) as [[]|[]]; done.
Qed.
End Theorems.

(** ** A transport that answers a batch *)

Module Gateway.
Definition formatFloat (bits : Z) : gstr := x65 :: format_int bits.
Definition parseFloat (text : gstr) : option Z :=
  match text with x65 :: x2d :: digits => Z.opp <$> parse_uint_text digits | x65 :: digits => parse_uint_text digits | _ => None end.

Lemma parse_formatted bits : finite bits = true -> parseFloat (formatFloat bits) = Some bits.
Proof.
  intros _. unfold formatFloat, format_int. destruct (Z.ltb_spec bits 0).
  - cbn [parseFloat]. rewrite parse_uint_format by lia. cbn. f_equal. lia.
  - destruct (format_nat_digit bits) as (d & l & E & Hd); [done|]. rewrite E. pose proof (parse_uint_format bits ltac:(done)) as Hp.
    rewrite E in Hp. cbn [parseFloat]. pose proof (Zbyte_small (48 + d) ltac:(lia)) as Hs.
    destruct (Zbyte (48 + d)); done.
Qed.

Definition noNative (args : list arg) : result String.string (Z * val) := Err "native"%string.
Definition document : val :=
  VMap None [(go "name", VString (go "order")); (go "raw", VBytes [x00; xff]); (go "tags", VArray None [VNil; VBool true; VInt IInt64 (-7)]);
             (go "big", VUint UUint64 max_uint64)].

Lemma http_value_roundtrip_witness :
  match encodeHTTPReflect formatFloat 0 document (newHTTPEncodeState 1000) with
  | Ok (j, _) => decodeHTTPValue parseFloat j = Ok (received formatFloat parseFloat document)
  | Err _ => False
  end.
Proof.
  destruct (encodeHTTPReflect formatFloat 0 document (newHTTPEncodeState 1000)) as [[j r]|] eqn:E; [|by vm_compute in E].
  apply (http_value_roundtrip formatFloat parseFloat parse_formatted document 1000 j r); [by vm_compute|exact E].
Defined.

(** Replies in order, none with a status below 100; the context as it is then. *)
Definition world : Type := list transportReply * option contextError.
Definition atLeast100 (reply : transportReply) : transportReply :=
  match reply with Response s n retryAfter body => Response (Z.max 100 s) n retryAfter body | TransportFailed _ => reply end.
#[export] Instance gateway : HTTPWorld world := {|
  submit body w := match w.1 with reply :: rest => (atLeast100 reply, (rest, w.2)) | [] => (TransportFailed noCause, w) end;
  contextErr c w := match c with AfterDecoding => w.2 | _ => None end;
|}.

Definition gatewayOptions : httpOptions := OptionsOf false [] 1 4096 4096 10 1 false (go "token") [] [] false.
Definition executor : HTTPExecutor := ExecutorOf false true gatewayOptions.
Definition item (status : String.string) (field : String.string) (v : json) : json :=
  JObject [(go "status", JString (go status)); (go field, v)].
Definition reply : transportReply :=
  Response 200 (-1) [] (BodyOf 100 (Document [(go "results", JArray
    [item "ok" "value" (JNumber (go "1")); item "error" "error" (JObject [(go "code", JString (go "noperm"))])])] false)).
Definition word (s : String.string) : arg := Arg (VString (go s)).
Definition commands : list (list arg) := [[word "GET"; word "a"]; [word "GET"; word "b"]].

Abbreviation run := (runBatch formatFloat parseFloat noNative (fun _ => 100) (fun _ => 0) (W := world)).
Definition body : json := Eval vm_compute in
  match (run executor commands ([reply], None)).2.2 with b :: _ => b | [] => JNull end.


(** A reply that is too large, after the request was sent: nothing says it was not. *)
Definition large : transportReply := Response 200 5000 [] (BodyFails noCause).

Lemma statuses b (w : world) status n retryAfter reply' w' : submit b w = (Response status n retryAfter reply', w') -> status <> 0.
Proof. destruct w as [[|[|s m ra bd] l] c]; cbn; intros [=]; lia. Qed.

Lemma http_not_sent_exact_witness :
  (batchDelivery (BatchFailed (tooLarge 200)) = DeliveryNotSent <-> [body] = []) /\ blen [body] <= 1.
Proof.
  apply (http_not_sent_exact formatFloat parseFloat noNative (fun _ => 100) (fun _ => 0) executor commands ([large], None)
           (BatchFailed (tooLarge 200)) ([], None) [body]); [exact statuses|by vm_compute].
Defined.

(** A batch for a closed executor is not sent. *)
Example closed_not_sent :
  run (closeHTTPExecutor executor) commands ([reply], None) =
    (Err (BatchNotSent (Some (httpError 0 "closed" "FerricStore HTTP executor is closed"))), (([reply], None), [])).
Proof. by_vm. Qed.

(** [MULTI] needs a connection: its batch is not sent. *)
Example multi_not_sent : (run executor [[word "GET"; word "a"]; [word "multi"]] ([reply], None)).2.2 = [].
Proof. by_vm. Qed.
End Gateway.
