(* ===== verification/PubSub.v ===== *)
(** Pub/Sub messages and events (src/pubsub_decode.go): acknowledgements of
    subscriptions, messages in their two forms, batches of messages, and events with
    the frame they came in (src/native_pending.go). *)

From S2P Require Export Errors Normalize Response.

(** What an event came with; [Plain] is a bare value. *)
Inductive nativeServerEvent :=
| Plain (v : val)
| ServerEvent (flags laneID opcode : Z) (v : val) (wireBytes : Z).

Definition nativeServerEventValue (e : nativeServerEvent) : val :=
  match e with Plain v | ServerEvent _ _ _ v _ => v end.

Record PubSubMessage := Message {
  m_Kind : gstr;
  m_Channel : gstr;
  m_Pattern : gstr;
  m_Payload : val;
  m_Count : Z;
}.

Record NativeEvent := Event {
  ev_Opcode : Z;
  ev_LaneID : Z;
  ev_Flags : Z;
  ev_Name : gstr;
  ev_Payload : list (gstr * val);
  ev_AtMS : Z;
  ev_Raw : list (gstr * val);
}.

Inductive pubSubError :=
| PsShape                                (* not an array, or a native event *)
| PsEmpty
| PsFields (count : Z)                   (* a wrong number of fields *)
| PsKind                                 (* no text, or an unknown or unexpected kind *)
| PsCount                                (* no count, or a negative one *)
| PsTarget                               (* no target, or another one *)
| PsMissing (field : gstr)
| PsInvalid (field : gstr)
| PsEvent                                (* no native event *)
| PsAcknowledgements (got expected : Z).

Definition kindOf (kind channel pattern : gstr) (payload : val) (count : Z) : PubSubMessage :=
  Message kind channel pattern payload count.

(** [m[k]] of a Go map: [nil] where there is no entry. *)
Definition entry (k : gstr) (m : list (gstr * val)) : val := default VNil (assoc_get k m).

(** An entry that is present and not [nil]. *)
Definition present (k : gstr) (m : list (gstr * val)) : option val :=
  match entry k m with VNil => None | v => Some v end.

Definition nativeEventFromValue (value : val) : result pubSubError NativeEvent :=
  match nativeMap value with
  | Err _ => Err PsEvent
  | Ok m =>
      match responseString (entry (go "event") m) with
      | None => Err PsEvent
      | Some name =>
          let name := trim_space name in
          if bool_decide (name = []) then Err PsEvent
          else
            let! payload :=
              match present (go "payload") m with
              | None => Ok []
              | Some raw => match nativeMap raw with Ok p => Ok p | Err _ => Err PsEvent end
              end in
            let! atMS :=
              match present (go "at_ms") m with
              | None => Ok 0
              | Some raw =>
                  match responseInt64 raw with
                  | Some n => if n <? 0 then Err PsEvent else Ok n
                  | None => Err PsEvent
                  end
              end in
            Ok (Event 0 0 0 name payload atMS m)
      end
  end.

Definition nativeOpGoAway : Z := 0x000A.

Definition nativeEventFromServerValue (value : nativeServerEvent) : result pubSubError NativeEvent :=
  match value with
  | Plain v => nativeEventFromValue v
  | ServerEvent flags lane opcode v _ =>
      if opcode =? nativeOpGoAway then
        match nativeMap v with
        | Ok raw => Ok (Event opcode lane flags (go "GOAWAY") raw 0 raw)
        | Err _ => Err PsEvent
        end
      else
        let! e := nativeEventFromValue v in
        Ok (Event opcode lane flags (ev_Name e) (ev_Payload e) (ev_AtMS e) (ev_Raw e))
  end.

Definition requiredPubSubString (payload : list (gstr * val)) (field : gstr) : result pubSubError gstr :=
  match assoc_get field payload with
  | None => Err (PsMissing field)
  | Some v => match responseString v with Some text => Ok text | None => Err (PsInvalid field) end
  end.

Definition parseNativePubSubMessage (value : val) : result pubSubError PubSubMessage :=
  let! event := nativeEventFromValue value in
  if negb (equal_fold (ev_Name event) (go "PUBSUB_MESSAGE")) then Err PsEvent
  else
    let! kind := requiredPubSubString (ev_Payload event) (go "kind") in
    let kind := to_lower kind in
    let! (pattern, channel) :=
      if bool_decide (kind ∈ [go "message"; go "smessage"]) then
        let! channel := requiredPubSubString (ev_Payload event) (go "channel") in Ok ([], channel)
      else if bool_decide (kind = go "pmessage") then
        let! pattern := requiredPubSubString (ev_Payload event) (go "pattern") in
        let! channel := requiredPubSubString (ev_Payload event) (go "channel") in Ok (pattern, channel)
      else Err PsKind in
    match assoc_get (go "message") (ev_Payload event) with
    | None => Err (PsMissing (go "message"))
    | Some payload => Ok (Message kind channel pattern payload 0)
    end.

(** ** Acknowledgements *)

Definition acknowledgementKinds : list gstr :=
  [go "subscribe"; go "unsubscribe"; go "psubscribe"; go "punsubscribe"; go "ssubscribe"; go "sunsubscribe"].

Definition isPubSubAcknowledgementKind (kind : gstr) : bool := bool_decide (kind ∈ acknowledgementKinds).

Definition patternKind (kind : gstr) : bool := bool_decide (kind ∈ [go "psubscribe"; go "punsubscribe"]).
Definition subscribeKind (kind : gstr) : bool := bool_decide (kind ∈ [go "subscribe"; go "psubscribe"; go "ssubscribe"]).

Definition parsePubSubAcknowledgement (items : list val) (expectedKind : gstr) : result pubSubError PubSubMessage :=
  match items with
  | [rawKind; rawTarget; rawCount] =>
      match responseString rawKind with
      | None => Err PsKind
      | Some kind =>
          if negb (equal_fold kind expectedKind) then Err PsKind
          else
            match responseInt64 rawCount with
            | None => Err PsCount
            | Some count =>
                if count <? 0 then Err PsCount
                else
                  match rawTarget with
                  | VNil => if subscribeKind expectedKind then Err PsTarget else Ok (Message expectedKind [] [] VNil count)
                  | _ =>
                      match responseString rawTarget with
                      | None => Err PsTarget
                      | Some target =>
                          Ok (if patternKind expectedKind then Message expectedKind [] target VNil count
                              else Message expectedKind target [] VNil count)
                      end
                  end
            end
      end
  | _ => Err (PsFields (blen items))
  end.

Definition messageTarget (kind : gstr) (m : PubSubMessage) : gstr :=
  if patternKind kind then m_Pattern m else m_Channel m.

Section Acknowledged.
Context (sprint : val -> gstr).

Definition validatePubSubAcknowledgementTarget (m : PubSubMessage) (kind : gstr) (expected : val) : bool :=
  bool_decide (messageTarget kind m = asString sprint expected).

Definition arrayOf (v : val) : option (list val) := match v with VArray _ l => Some l | _ => None end.

(** One acknowledgement, for the target it answers where the targets were given. *)
Definition acknowledgement (kind : gstr) (items : list val) (target : option val) : result pubSubError PubSubMessage :=
  let! m := parsePubSubAcknowledgement items kind in
  match target with
  | Some expected => if validatePubSubAcknowledgementTarget m kind expected then Ok m else Err PsTarget
  | None => Ok m
  end.

(** The loop over nested acknowledgements: the last one is returned. *)
Fixpoint acknowledgements (kind : gstr) (items : list val) (targets : list (option val)) (last : PubSubMessage)
  : result pubSubError PubSubMessage :=
  match items with
  | [] => Ok last
  | item :: items =>
      match arrayOf item with
      | None => Err PsShape
      | Some fields =>
          let! m := acknowledgement kind fields (default None (head targets)) in
          acknowledgements kind items (tail targets) m
      end
  end.

Definition noMessage : PubSubMessage := Message [] [] [] VNil 0.

Definition nestedItems (items : list val) : bool := match items with VArray _ _ :: _ => true | _ => false end.

Definition pubSubAcknowledgementFromNative (value : val) (command : gstr) (expectedTargets : list val)
  : result pubSubError PubSubMessage :=
  match arrayOf value with
  | None | Some [] => Err PsShape
  | Some items =>
      let kind := to_lower command in
      let n := blen expectedTargets in
      if nestedItems items then
        if (0 <? n) && negb (blen items =? n) then Err (PsAcknowledgements (blen items) n)
        else acknowledgements kind items (Some <$> expectedTargets) noMessage
      else if 1 <? n then Err (PsAcknowledgements 1 n)
      else acknowledgement kind items (head expectedTargets)
  end.
End Acknowledged.

(** ** Messages *)

Definition parseNestedPubSubAcknowledgements (items : list val) : result pubSubError PubSubMessage :=
  match items with
  | VArray _ (rawKind :: _) :: _ =>
      match responseString rawKind with
      | None => Err PsKind
      | Some kind =>
          let kind := to_lower kind in
          if isPubSubAcknowledgementKind kind then acknowledgements (fun _ => []) kind items [] noMessage else Err PsKind
      end
  | _ => Err PsEmpty
  end.

Definition messageField (field : gstr) (v : val) : result pubSubError gstr :=
  match responseString v with Some text => Ok text | None => Err (PsInvalid field) end.

Definition parseFlatPubSubMessage (items : list val) : result pubSubError PubSubMessage :=
  match items with
  | [] => Err PsEmpty
  | rawKind :: fields =>
      match responseString rawKind with
      | None => Err PsKind
      | Some kind =>
          let kind := to_lower kind in
          if bool_decide (kind ∈ [go "message"; go "smessage"]) then
            match fields with
            | [channel; payload] =>
                let! channel := messageField (go "channel") channel in Ok (Message kind channel [] payload 0)
            | _ => Err (PsFields (blen items))
            end
          else if bool_decide (kind = go "pmessage") then
            match fields with
            | [pattern; channel; payload] =>
                let! pattern := messageField (go "pattern") pattern in
                let! channel := messageField (go "channel") channel in Ok (Message kind channel pattern payload 0)
            | _ => Err (PsFields (blen items))
            end
          else if isPubSubAcknowledgementKind kind then parsePubSubAcknowledgement items kind
          else Err PsKind
      end
  end.

Definition parsePubSubMessage (value : val) : result pubSubError PubSubMessage :=
  match value with
  | VMap _ _ => parseNativePubSubMessage value
  | VArray _ items =>
      match items with
      | [] => Err PsEmpty
      | _ => if nestedItems items then parseNestedPubSubAcknowledgements items else parseFlatPubSubMessage items
      end
  | _ => Err PsShape
  end.

(** ** Batches of messages *)

Definition nativeBufferedEventSize (e : nativeServerEvent) : Z :=
  let size v := match v with VBytes s | VString s => if 0 <? blen s then blen s else 1 | _ => 1 end in
  match e with
  | ServerEvent _ _ _ v wireBytes => if 0 <? wireBytes then wireBytes else size v
  | Plain v => size v
  end.

(** The event of one message of a batch. *)
Definition expandedValue (atMS : Z) (channel : gstr) (message : val) : val :=
  VMap None [
    (go "event", VString (go "PUBSUB_MESSAGE"));
    (go "at_ms", VInt IInt64 atMS);
    (go "payload", VMap None [
      (go "kind", VString (go "message")); (go "channel", VString channel); (go "message", message)])].

Definition with_value (e : nativeServerEvent) (v : val) (wireBytes : Z) : nativeServerEvent :=
  match e with
  | Plain _ => Plain v
  | ServerEvent flags lane opcode _ _ => ServerEvent flags lane opcode v wireBytes
  end.

Section Batch.
Context (sprint : val -> gstr).

(** What [expandNativePubSubBatch] expects: the event, its channel and its messages. *)
Definition batchOf (raw : val) : option (NativeEvent * gstr * list val) :=
  match nativeEventFromValue raw with
  | Err _ => None
  | Ok event =>
      if negb (equal_fold (ev_Name event) (go "PUBSUB_MESSAGE"))
         || negb (equal_fold (asString sprint (entry (go "kind") (ev_Payload event))) (go "message_batch")) then None
      else
        match requiredPubSubString (ev_Payload event) (go "channel"), arrayOf (entry (go "messages") (ev_Payload event)) with
        | Ok channel, Some (m :: ms) =>
            if forallb (fun m => bool_decide (is_Some (commandText m))) (m :: ms) then Some (event, channel, m :: ms) else None
        | _, _ => None
        end
  end.

Definition expandNativePubSubBatch (value : nativeServerEvent) : list nativeServerEvent :=
  match batchOf (nativeServerEventValue value) with
  | None => [value]
  | Some (event, channel, messages) =>
      let perMessageBytes := Z.max 1 ((nativeBufferedEventSize value + blen messages - 1) / blen messages) in
      (fun message => with_value value (expandedValue (ev_AtMS event) channel message) perMessageBytes) <$> messages
  end.
End Batch.

(** ** An acknowledgement answers what was asked *)

Section Exact.
Context (sprint : val -> gstr).

(** [fields] acknowledge [target]: the kind, the target and a count. Only the end of a
    subscription may have no target. *)
Definition acknowledges (kind : gstr) (target : val) (fields : list val) (m : PubSubMessage) : Prop :=
  exists k t c text count, fields = [k; t; c] /\ responseString k = Some text /\ equal_fold text kind = true /\
    responseInt64 c = Some count /\ 0 <= count /\
    ((t = VNil /\ subscribeKind kind = false /\ asString sprint target = [] /\ m = Message kind [] [] VNil count) \/
     (responseString t = Some (asString sprint target) /\
      m = if patternKind kind then Message kind [] (asString sprint target) VNil count
          else Message kind (asString sprint target) [] VNil count)).

(** The acknowledgements of an answer: an array of arrays, or one array. *)
Definition responseForm (v : val) (acks : list (list val)) : Prop :=
  exists id items, v = VArray id items /\ items <> [] /\
    if nestedItems items then arrayOf <$> items = Some <$> acks else acks = [items].

Lemma acknowledgement_spec kind fields target m :
  acknowledgement sprint kind fields (Some target) = Ok m <-> acknowledges kind target fields m.
Proof.
  split.
  - unfold acknowledgement, parsePubSubAcknowledgement, validatePubSubAcknowledgementTarget.
    destruct fields as [|k [|t [|c []]]]; try done. intros H.
    destruct (responseString k) as [text|] eqn:Hk; [|done]. destruct (equal_fold text kind) eqn:Hf; [|done]. cbn [negb] in H.
    destruct (responseInt64 c) as [count|] eqn:Hc; [|done]. destruct (Z.ltb_spec count 0); [done|].
    exists k, t, c, text, count. split_and!; try done.
    destruct t; [destruct (subscribeKind kind) eqn:Hs; [done|]|..]; cbn [responseString rbind] in H; try done;
      case_bool_decide as Ht; try done; simplify_eq; unfold messageTarget in Ht;
      [left|right; cbn [responseString]..]; destruct (patternKind kind); cbn [m_Pattern m_Channel] in Ht; by rewrite ?Ht.
  - intros (k & t & c & text & count & -> & Hk & Hf & Hc & Hn & Ht).
    unfold acknowledgement, parsePubSubAcknowledgement, validatePubSubAcknowledgementTarget. rewrite Hk, Hf, Hc. cbn [negb].
    rewrite (proj2 (Z.ltb_ge count 0) Hn).
    destruct Ht as [(-> & Hs & Ha & ->)|[Ht ->]].
    + rewrite Hs. cbn [rbind]. unfold messageTarget. rewrite Ha. by destruct (patternKind kind).
    + destruct t; try done; cbn [responseString rbind] in *; simplify_eq; unfold messageTarget;
        destruct (patternKind kind); cbn [m_Pattern m_Channel]; by rewrite bool_decide_eq_true_2.
Qed.

Lemma acknowledgements_spec kind targets : forall items last0 m,
  length items = length targets ->
  acknowledgements sprint kind items (Some <$> targets) last0 = Ok m <->
  exists acks ms, arrayOf <$> items = Some <$> acks /\ Forall3 (acknowledges kind) targets acks ms /\ default last0 (last ms) = m.
Proof.
  induction targets as [|target targets IH]; intros [|item items] last0 m Hl; try done; cbn [acknowledgements fmap list_fmap].
  - split; [intros [= ->]; by exists [], []; repeat constructor|]. intros (acks & ms & Ha & H3 & Hm). inversion H3. subst. done.
  - cbn [length] in Hl. split.
    + destruct (arrayOf item) as [fields|] eqn:Hi; [|done]. cbn [head default tail]. intros H.
      apply rbind_ok in H as (m0 & H0 & H). apply acknowledgement_spec in H0. apply IH in H as (acks & ms & Ha & H3 & Hm); [|lia].
      exists (fields :: acks), (m0 :: ms). split_and!; [cbn; by rewrite Ha|by constructor|]. rewrite last_cons. subst m. by destruct (last ms).
    + intros (acks & ms & Ha & H3 & Hm). inversion H3 as [|? fields m0 ? acks' ms' H0 H3']. subst. injection Ha as -> Ha. cbn [head default tail].
      apply acknowledgement_spec in H0. unfold id at 1. rewrite H0. cbn [rbind]. apply IH; [lia|]. exists acks', ms'. split_and!; [done..|].
      rewrite last_cons. by destruct (last ms').
Qed.

(** A subscription is acknowledged exactly when the answer is one acknowledgement for
    each target, in order, of the kind of the command: an array of them, or a single one for
    a single target; the result is the last. *)
Theorem acknowledgement_exact v command targets m : targets <> [] ->
  pubSubAcknowledgementFromNative sprint v command targets = Ok m <->
  exists acks ms, responseForm v acks /\ Forall3 (acknowledges (to_lower command)) targets acks ms /\ last ms = Some m.
Proof.
  intros Ht. unfold pubSubAcknowledgementFromNative.
  assert (0 < blen targets) as Hpos by (destruct targets; [done|unfold blen; cbn; lia]).
  split.
  - destruct (arrayOf v) as [items|] eqn:Hv; [|done]. destruct v; try done. injection Hv as ->. destruct items as [|item items]; [done|].
    destruct (nestedItems (item :: items)) eqn:Hn.
    + destruct (Z.ltb_spec 0 (blen targets)) as [_|]; [|lia]. destruct (Z.eqb_spec (blen (item :: items)) (blen targets)) as [Hl|]; [|done]. cbn [andb negb].
      intros H. apply acknowledgements_spec in H as (acks & ms & Ha & H3 & Hm); [|unfold blen in Hl; lia].
      exists acks, ms. split_and!; [|done|].
      * exists id, (item :: items). split_and!; [done..|]. by rewrite Hn.
      * destruct ms; [by inversion H3|]. rewrite last_cons in *. cbn in Hm. by destruct (last ms); cbn in *; subst.
    + destruct (Z.ltb_spec 1 (blen targets)) as [|Hone]; [done|]. destruct targets as [|target [|? ?]]; [done| |unfold blen in Hone; cbn in Hone; lia].
      cbn [head]. intros H. apply acknowledgement_spec in H. exists [item :: items], [m]. split_and!; [|by repeat constructor|done].
      exists id, (item :: items). split_and!; [done..|]. by rewrite Hn.
  - intros (acks & ms & (id & items & -> & Hne & Hform) & H3 & Hm). cbn [arrayOf]. destruct items as [|item items]; [done|].
    destruct (nestedItems (item :: items)) eqn:Hn.
    + assert (length (item :: items) = length targets) as Hl.
      { apply Forall3_length_lm in H3. rewrite H3. by rewrite <- (length_fmap arrayOf (item :: items)), Hform, length_fmap. }
      destruct (Z.ltb_spec 0 (blen targets)); [|lia]. destruct (Z.eqb_spec (blen (item :: items)) (blen targets)); [|unfold blen in *; lia]. cbn [andb negb].
      apply acknowledgements_spec; [done|]. exists acks, ms. split_and!; [done..|]. by rewrite Hm.
    + subst acks. inversion H3 as [|target ? m0 targets' ? ms' H0 H3']. subst. inversion H3'. subst. injection Hm as ->. cbn [blen length head].
      by apply acknowledgement_spec.
Qed.
End Exact.

(** ** A batch gives the messages it holds *)

Section BatchExact.
Context (sprint : val -> gstr).

Lemma text_leaf m : is_Some (commandText m) -> exists s, m = VString s \/ m = VBytes s.
Proof. intros [s Hs]. exists s. destruct m; try done; cbn in Hs; injection Hs as ->; auto. Qed.

Lemma zsum_fmap_const {A} (f : A -> Z) c l : (forall x, f x = c) -> zsum (f <$> l) = blen l * c.
Proof. intros Hf. induction l as [|x l IH]; cbn; [done|]. rewrite Hf. cbn in IH. unfold zsum, blen in *. cbn. lia. Qed.

Lemma event_nonneg v e : nativeEventFromValue v = Ok e -> 0 <= ev_AtMS e.
Proof.
  unfold nativeEventFromValue. destruct (nativeMap v) as [m|]; [|done]. destruct (responseString _); [|done].
  case_bool_decide; [done|]. intros Hev. inv_result. cbn [ev_AtMS].
  destruct (present (go "at_ms") m); [|by simplify_eq]. destruct (responseInt64 v0) as [n|]; [|done].
  destruct (Z.ltb_spec n 0); [done|]. by simplify_eq.
Qed.

Lemma expanded_message atMS channel m : 0 <= atMS -> is_Some (commandText m) ->
  parsePubSubMessage (expandedValue atMS channel m) = Ok (Message (go "message") channel [] m 0).
Proof.
  intros Hat Hm. destruct (text_leaf m Hm) as (s & Hs).
  assert (nativeEventFromValue (expandedValue atMS channel m) =
    Ok (Event 0 0 0 (go "PUBSUB_MESSAGE") [(go "kind", VString (go "message")); (go "channel", VString channel); (go "message", m)] atMS
      [(go "event", VString (go "PUBSUB_MESSAGE")); (go "at_ms", VInt IInt64 atMS);
       (go "payload", VMap None [(go "kind", VString (go "message")); (go "channel", VString channel); (go "message", m)])])) as He.
  { set (payload := [(go "kind", VString (go "message")); (go "channel", VString channel); (go "message", m)]).
    assert (nativeMap (VMap None payload) = Ok payload) as Hp by (destruct Hs; subst m; reflexivity).
    assert (nativeMap (expandedValue atMS channel m) = Ok [(go "event", VString (go "PUBSUB_MESSAGE")); (go "at_ms", VInt IInt64 atMS);
      (go "payload", VMap None payload)]) as Hm' by (destruct Hs; subst m; reflexivity).
    unfold nativeEventFromValue. rewrite Hm'. cbv beta iota zeta.
    replace (present (go "payload") _) with (Some (VMap None payload)) by reflexivity. rewrite Hp. cbn [rbind].
    replace (present (go "at_ms") _) with (Some (VInt IInt64 atMS)) by reflexivity. cbn [responseInt64].
    rewrite (proj2 (Z.ltb_ge atMS 0) Hat). reflexivity. }
  unfold parsePubSubMessage, expandedValue, parseNativePubSubMessage. fold (expandedValue atMS channel m). rewrite He. done.
Qed.

(** The events a batch is expanded to are its messages, in order, each on the channel of
    the batch, in the frame of the batch; their sizes are positive, together at least the
    size of the batch and less than one byte per message above it. Anything else is passed on
    as it is. *)
Theorem pubsub_batch_exact value :
  match batchOf sprint (nativeServerEventValue value) with
  | None => expandNativePubSubBatch sprint value = [value]
  | Some (event, channel, messages) =>
      let events := expandNativePubSubBatch sprint value in
      (parsePubSubMessage ∘ nativeServerEventValue <$> events) = (fun m => Ok (Message (go "message") channel [] m 0)) <$> messages /\
      (forall e, e ∈ events -> with_value value (nativeServerEventValue e) (nativeBufferedEventSize e) = e) /\
      (forall flags lane opcode v bytes, value = ServerEvent flags lane opcode v bytes ->
         nativeBufferedEventSize value <= zsum (nativeBufferedEventSize <$> events) < nativeBufferedEventSize value + blen messages)
  end.
Proof.
  destruct (batchOf sprint (nativeServerEventValue value)) as [[[event channel] messages]|] eqn:Hb;
    unfold expandNativePubSubBatch; rewrite Hb; [|done].
  unfold batchOf in Hb. destruct (nativeEventFromValue _) as [ev|] eqn:He; [|done].
  destruct (_ || _); [done|]. destruct (requiredPubSubString _ _) as [ch|]; [|done]. destruct (arrayOf _) as [[|m0 ms]|]; [done| |done].
  destruct (forallb _ _) eqn:Htext; [|done]. injection Hb as <- <- <-. apply event_nonneg in He.
  assert (forall m, m ∈ m0 :: ms -> is_Some (commandText m)) as Hleaf.
  { intros m Hm. rewrite forallb_forall in Htext. specialize (Htext m). rewrite <- list_elem_of_In in Htext. rewrite bool_decide_eq_true in Htext. by apply Htext. }
  assert (0 < blen (m0 :: ms)) as Hn by (unfold blen; cbn; lia).
  set (per := Z.max 1 _). assert (1 <= per) as Hper by lia. split_and!.
  - rewrite <- list_fmap_compose. apply list_fmap_ext. intros i m Hm. apply list_elem_of_lookup_2 in Hm. cbn [compose].
    destruct value; cbn [with_value nativeServerEventValue]; apply expanded_message; auto.
  - intros e (m & -> & _)%list_elem_of_fmap. destruct value; cbn [with_value nativeServerEventValue nativeBufferedEventSize]; [done|].
    by destruct (Z.ltb_spec 0 per); [|lia].
  - intros flags lane opcode v bytes ->. rewrite <- list_fmap_compose.
    assert (nativeBufferedEventSize (ServerEvent flags lane opcode v bytes) >= 1) as Hsize.
    { cbn [nativeBufferedEventSize]. destruct (Z.ltb_spec 0 bytes); [lia|]. destruct v; try lia; destruct (Z.ltb_spec 0 (blen s)); lia. }
    rewrite (zsum_fmap_const _ per) by (intros m; cbn [compose with_value nativeBufferedEventSize]; destruct (Z.ltb_spec 0 per); lia).
    set (size := nativeBufferedEventSize _) in *. subst per.
    pose proof (Z.div_mod (size + blen (m0 :: ms) - 1) (blen (m0 :: ms)) ltac:(lia)).
    pose proof (Z.mod_pos_bound (size + blen (m0 :: ms) - 1) (blen (m0 :: ms)) Hn).
    rewrite Z.max_r by nia. lia.
Qed.
End BatchExact.

(** An answer to [SUBSCRIBE a]. *)
Definition example_acknowledgement : val := VArray None [VArray None [VString (go "subscribe"); VBytes (go "a"); VInt IInt64 1]].

Lemma acknowledgement_exact_witness :
  pubSubAcknowledgementFromNative (fun _ => []) example_acknowledgement (go "SUBSCRIBE") [VString (go "a")] =
    Ok (Message (go "subscribe") (go "a") [] VNil 1) /\
  exists acks ms, responseForm example_acknowledgement acks /\
    Forall3 (acknowledges (fun _ => []) (to_lower (go "SUBSCRIBE"))) [VString (go "a")] acks ms /\ last ms = Some (Message (go "subscribe") (go "a") [] VNil 1).
Proof.
  split; [vm_compute; reflexivity|].
  refine (proj1 (acknowledgement_exact (fun _ => []) example_acknowledgement (go "SUBSCRIBE") [VString (go "a")] _ _) _); [discriminate|].
  vm_compute. reflexivity.
Defined.
