(* ===== verification/PubSubReplay.v ===== *)
(** Subscriptions that survive reconnections (src/pubsub.go, src/pubsub_replay.go,
    src/pubsub_validation.go): a view tracks what the caller has subscribed to, and
    replays it on every new connection, recognised by a stamp.

    The network is an oracle: one turn per interaction, which may also bring new
    connections. What a connection keeps on the server is a parameter with the documented
    effect of the subscription commands as its law. Calls hold the view's replay lock, so
    a call is one function. *)

From S2P Require Import FlowValidation.
From S2P Require Export PubSub.

(** ** Requests and what they mean *)

Inductive subKind := Channels | Patterns | Shards.

#[global] Instance subKind_eq_dec : EqDecision subKind.
Proof. solve_decision. Defined.
#[global] Instance subKind_countable : Countable subKind.
Proof.
  refine (inj_countable' (fun k => match k with Channels => 0 | Patterns => 1 | Shards => 2 end)%nat
    (fun n => match n with 0 => Channels | 1 => Patterns | _ => Shards end)%nat _). by intros [].
Defined.

(** The payload of [flow_wake]. *)
Record flowWake := FlowWake {
  fw_type : gstr;
  fw_state : gstr;
  fw_states : list gstr;
  fw_partition_key : gstr;
  fw_partition_keys : list gstr;
  fw_priority : Z;
  fw_limit : option Z;
}.
#[global] Instance flowWake_eq_dec : EqDecision flowWake.
Proof. solve_decision. Defined.

(** [validateFlowStateFilters]: ANY is not mixed with others. *)
Definition validFlowStateFilters (states : list gstr) : bool :=
  forallb (fun s => negb (bool_decide (s = []))) states &&
  negb (existsb (fun s => equal_fold s (go "ANY")) states && existsb (fun s => negb (equal_fold s (go "ANY"))) states).

(** [FlowWakeSubscriptionOptions]; a nil list is [None]. *)
Record FlowWakeSubscriptionOptions := WakeOptions {
  w_Type : gstr;
  w_State : gstr;
  w_States : option (list gstr);
  w_PartitionKey : gstr;
  w_PartitionKeys : option (list gstr);
  w_Priority : option Z;
  w_Limit : option Z;
}.

Definition given (s : gstr) : bool := negb (bool_decide (s = [])).
Definition isEmpty (l : option (list gstr)) : bool := match l with Some [] => true | _ => false end.

Definition validateFlowWakeSubscriptionOptions (opt : FlowWakeSubscriptionOptions) : bool :=
  let states := default [] (w_States opt) in
  let partitions := default [] (w_PartitionKeys opt) in
  given (w_Type opt)
  && negb (given (w_State opt) && (0 <? blen states))
  && negb (isEmpty (w_States opt))
  && validFlowStateFilters states
  && negb (given (w_PartitionKey opt) && (0 <? blen partitions))
  && negb (isEmpty (w_PartitionKeys opt))
  && forallb given partitions
  && match w_Priority opt with Some p => (0 <=? p) && (p <=? maxFlowClaimPriority) | None => true end
  && match w_Limit opt with Some n => 0 <? n | None => true end.

(** The payload of a subscription to events. *)
Record eventPayload := EventPayload { e_events : list gstr; e_flow_wake : option flowWake }.
#[global] Instance eventPayload_eq_dec : EqDecision eventPayload.
Proof. solve_decision. Defined.

Inductive subRequest :=
| Subscribe (kind : subKind) (targets : list gstr)
| Unsubscribe (kind : subKind) (targets : list gstr)
| SubscribeEvents (payload : eventPayload)
| UnsubscribeEvents (events : list gstr).

(** The payload [SubscribeFlowWake] sends. *)
Definition flowWakePayload (opt : FlowWakeSubscriptionOptions) : eventPayload :=
  EventPayload [go "FLOW_WAKE"]
    (Some (FlowWake (w_Type opt) (w_State opt) (default [] (w_States opt)) (w_PartitionKey opt) (default [] (w_PartitionKeys opt))
       (default 0 (w_Priority opt)) (w_Limit opt))).

(** What can be subscribed to, and the filter of the FLOW_WAKE event. *)
Inductive topic := Named (kind : subKind) (name : gstr) | EventTopic (name : gstr).
#[global] Instance topic_eq_dec : EqDecision topic.
Proof. solve_decision. Defined.
#[global] Instance topic_countable : Countable topic.
Proof.
  refine (inj_countable' (fun t => match t with Named k n => inl (k, n) | EventTopic n => inr n end)
    (fun x => match x with inl (k, n) => Named k n | inr n => EventTopic n end) _). by intros [].
Defined.

Abbreviation desired := (gmap topic (option flowWake)).

Definition FLOW_WAKE : gstr := go "FLOW_WAKE".

Fixpoint distinctNames (seen values : list gstr) : list gstr :=
  match values with
  | [] => []
  | value :: values =>
      let value := to_upper value in
      if bool_decide (value ∈ seen) then distinctNames seen values else value :: distinctNames (value :: seen) values
  end.

Definition normalizedNativeEventNames (values : list gstr) : list gstr := distinctNames [] values.

Definition eventFilter (name : gstr) (payload : eventPayload) : option flowWake :=
  if bool_decide (name = FLOW_WAKE) then e_flow_wake payload else None.

Definition addTopics (f : gstr -> topic) (value : gstr -> option flowWake) (names : list gstr) (m : desired) : desired :=
  foldl (fun m name => <[f name := value name]> m) m names.

Definition dropTopics (f : gstr -> topic) (names : list gstr) (m : desired) : desired :=
  foldl (fun m name => delete (f name) m) m names.

Definition ofKind (kind : subKind) (t : topic) : bool := match t with Named k _ => bool_decide (k = kind) | EventTopic _ => false end.

(** The documented effect of a request. *)
Definition effect (r : subRequest) (m : desired) : desired :=
  match r with
  | Subscribe kind targets => addTopics (Named kind) (fun _ => None) targets m
  | Unsubscribe kind [] => filter (fun kv => ofKind kind kv.1 = false) m
  | Unsubscribe kind targets => dropTopics (Named kind) targets m
  | SubscribeEvents payload =>
      addTopics EventTopic (fun name => eventFilter name payload) (normalizedNativeEventNames (e_events payload)) m
  | UnsubscribeEvents events => dropTopics EventTopic (normalizedNativeEventNames events) m
  end.

(** The state of one connection on the server. *)
Record pubSubServer := PubSubServer {
  connState : Type;
  fresh : connState;
  serve : subRequest -> connState -> connState;
  view : connState -> desired;
  view_fresh : view fresh = ∅;
  view_serve : forall r c, view (serve r c) = effect r (view c);
}.

(** ** What a view tracks *)

Record tracked := Tracked {
  channels : gset gstr;
  patterns : gset gstr;
  shardChannels : gset gstr;
  eventReplays : list eventPayload;
}.

Definition noSubscriptions : tracked := Tracked ∅ ∅ ∅ [].

Definition targetsOf (kind : subKind) (t : tracked) : gset gstr :=
  match kind with Channels => channels t | Patterns => patterns t | Shards => shardChannels t end.

Definition set_targets (kind : subKind) (s : gset gstr) (t : tracked) : tracked :=
  match kind with
  | Channels => Tracked s (patterns t) (shardChannels t) (eventReplays t)
  | Patterns => Tracked (channels t) s (shardChannels t) (eventReplays t)
  | Shards => Tracked (channels t) (patterns t) s (eventReplays t)
  end.

Definition set_replays (l : list eventPayload) (t : tracked) : tracked :=
  Tracked (channels t) (patterns t) (shardChannels t) l.

(** [trackPubSubCommand] on the maps; a nil map is an empty one. *)
Definition trackPubSubCommand (subscribe : bool) (kind : subKind) (args : list gstr) (t : tracked) : tracked :=
  match subscribe, args with
  | false, [] => set_targets kind ∅ t
  | true, _ => set_targets kind (foldl (fun s key => {[key]} ∪ s) (targetsOf kind t) args) t
  | false, _ => set_targets kind (foldl (fun s key => s ∖ {[key]}) (targetsOf kind t) args) t
  end.

Definition stringListDifference (values removed : list gstr) : list gstr :=
  List.filter (fun value => bool_decide (value ∉ removed)) values.

(** One replay without the removed events, [None] when none is left. *)
Definition filterReplay (removed : list gstr) (replay : eventPayload) : option eventPayload :=
  let remaining := stringListDifference (normalizedNativeEventNames (e_events replay)) removed in
  match remaining with
  | [] => None
  | _ => Some (EventPayload remaining (if bool_decide (FLOW_WAKE ∈ remaining) then e_flow_wake replay else None))
  end.

Definition filterEventReplays (replays : list eventPayload) (removed : list gstr) : list eventPayload :=
  omap (filterReplay removed) replays.

(** [trackEventSubscription] on the replays. *)
Definition trackEventSubscription (subscribe : bool) (payload : eventPayload) (t : tracked) : tracked :=
  let events := normalizedNativeEventNames (e_events payload) in
  match events with
  | [] => t
  | _ =>
      if subscribe then
        let payload := EventPayload events (e_flow_wake payload) in
        let replays :=
          match e_flow_wake payload with
          | Some _ => if bool_decide (FLOW_WAKE ∈ events) then filterEventReplays (eventReplays t) [FLOW_WAKE] else eventReplays t
          | None => eventReplays t
          end in
        if bool_decide (payload ∈ replays) then set_replays replays t
        else set_replays (replays ++ [payload]) t
      else set_replays (filterEventReplays (eventReplays t) events) t
  end.

Definition trackRequest (r : subRequest) (t : tracked) : tracked :=
  match r with
  | Subscribe kind targets => trackPubSubCommand true kind targets t
  | Unsubscribe kind targets => trackPubSubCommand false kind targets t
  | SubscribeEvents payload => trackEventSubscription true payload t
  | UnsubscribeEvents events => trackEventSubscription false (EventPayload events None) t
  end.

(** The requests of [replayTrackedState]. *)
Definition replayTargets (kind : subKind) (t : tracked) : list subRequest :=
  match elements (targetsOf kind t) with [] => [] | l => [Subscribe kind (sort_strings l)] end.

Definition replayRequests (t : tracked) : list subRequest :=
  replayTargets Channels t ++ replayTargets Patterns t ++ replayTargets Shards t ++ (SubscribeEvents <$> eventReplays t).

(** What is tracked, as the topics a connection should have. *)
Definition trackedTopics (t : tracked) : desired := foldl (fun m r => effect r m) ∅ (replayRequests t).

(** ** Tracking follows the requests *)

Lemma addTopics_in f value names : Inj (=) (=) f -> forall m name, name ∈ names -> addTopics f value names m !! f name = Some (value name).
Proof.
  intros Hf. unfold addTopics. induction names as [|n names IH] using rev_ind; intros m name Hin; [by apply not_elem_of_nil in Hin|].
  rewrite foldl_app. cbn [foldl]. destruct (decide (n = name)) as [->|Hne]; [by rewrite lookup_insert_eq|].
  rewrite lookup_insert_ne by (intros ?%Hf; done). apply IH. apply elem_of_app in Hin as [Hin|Hin%list_elem_of_singleton]; [done|congruence].
Qed.

Lemma addTopics_out f value names k : (forall name, name ∈ names -> f name <> k) -> forall m, addTopics f value names m !! k = m !! k.
Proof.
  unfold addTopics. induction names as [|n names IH]; intros Hk m; [done|]. cbn [foldl]. rewrite IH by (intros; apply Hk; by constructor).
  apply lookup_insert_ne, Hk. by constructor.
Qed.

Lemma dropTopics_in f names : forall m name, name ∈ names -> dropTopics f names m !! f name = None.
Proof.
  unfold dropTopics. induction names as [|n names IH] using rev_ind; intros m name Hin; [by apply not_elem_of_nil in Hin|].
  rewrite foldl_app. cbn [foldl]. destruct (decide (f n = f name)) as [->|Hne]; [by rewrite lookup_delete_eq|].
  rewrite lookup_delete_ne by done. apply IH. apply elem_of_app in Hin as [Hin|Hin%list_elem_of_singleton]; [done|congruence].
Qed.

Lemma dropTopics_out f names k : (forall name, name ∈ names -> f name <> k) -> forall m, dropTopics f names m !! k = m !! k.
Proof.
  unfold dropTopics. induction names as [|n names IH]; intros Hk m; [done|]. cbn [foldl]. rewrite IH by (intros; apply Hk; by constructor).
  apply lookup_delete_ne, Hk. by constructor.
Qed.

#[global] Instance named_inj kind : Inj (=) (=) (Named kind).
Proof. intros x y H. by injection H. Qed.
#[global] Instance eventTopic_inj : Inj (=) (=) EventTopic.
Proof. intros x y H. by injection H. Qed.

Lemma elem_of_distinct name values : forall seen, name ∈ distinctNames seen values <-> name ∈ to_upper <$> values /\ name ∉ seen.
Proof.
  induction values as [|v values IH]; intros seen; cbn [distinctNames fmap list_fmap].
  - split; [intros ?%not_elem_of_nil|intros [?%not_elem_of_nil _]]; done.
  - case_bool_decide as Hs.
    + rewrite IH, elem_of_cons. split; [intros [? ?]; auto|]. intros [[-> |?] ?]; done.
    + rewrite !elem_of_cons, IH, elem_of_cons. split.
      * intros [-> |[? Hn]]; [auto|]. split; [by right|]. intros ?. apply Hn. by right.
      * intros [[-> |?] Hn]; [by left|]. destruct (decide (name = to_upper v)); [by left|]. right. split; [done|]. by intros [?|?].
Qed.

Lemma elem_of_normalized name events : name ∈ normalizedNativeEventNames events <-> name ∈ to_upper <$> events.
Proof. unfold normalizedNativeEventNames. rewrite elem_of_distinct. split; [by intros [? _]|]. intros ?. split; [done|]. apply not_elem_of_nil. Qed.

Lemma NoDup_distinct values : forall seen, NoDup (distinctNames seen values).
Proof.
  induction values as [|v values IH]; intros seen; cbn [distinctNames]; [constructor|]. case_bool_decide; [apply IH|].
  constructor; [|apply IH]. intros [_ Hn]%elem_of_distinct. apply Hn. by left.
Qed.

Lemma byte_upper_idem b : to_upper_byte (to_upper_byte b) = to_upper_byte b.
Proof. by destruct b. Qed.

Lemma to_upper_idem s : to_upper (to_upper s) = to_upper s.
Proof. unfold to_upper. rewrite <- list_fmap_compose. apply list_fmap_ext. intros i b _. apply byte_upper_idem. Qed.

(** Upper-case names without repetitions. *)
Definition normal (events : list gstr) : Prop := NoDup events /\ Forall (fun n => to_upper n = n) events.

Lemma normal_normalized events : normal (normalizedNativeEventNames events).
Proof.
  split; [apply NoDup_distinct|]. apply Forall_forall. intros n Hn%elem_of_normalized.
  apply list_elem_of_fmap in Hn as (n' & -> & _). apply to_upper_idem.
Qed.

Lemma distinct_normal events : normal events -> forall seen, (forall n, n ∈ events -> n ∉ seen) -> distinctNames seen events = events.
Proof.
  intros [Hd Hu]. induction Hu as [|n l Hn _ IH]; intros seen Hs; [done|]. cbn [distinctNames]. inversion Hd; subst. rewrite Hn.
  rewrite bool_decide_eq_false_2 by (apply Hs; by left). f_equal. apply IH; [done|]. intros m Hm. rewrite elem_of_cons. intros [-> |?]; [done|].
  by apply (Hs m); [right|].
Qed.

Lemma normalized_normal events : normal events -> normalizedNativeEventNames events = events.
Proof. intros H. apply distinct_normal; [done|]. intros n _. apply not_elem_of_nil. Qed.

(** *** The tracked topics, one by one *)

Abbreviation perform := (foldl (fun m r => effect r m)).

Lemma effect_subscribe kind targets m k :
  effect (Subscribe kind targets) m !! k =
    match k with Named k' n => if decide (k' = kind /\ n ∈ targets) then Some None else m !! k | EventTopic _ => m !! k end.
Proof.
  cbn [effect]. destruct k as [k' n|n]; [destruct (decide _) as [[-> Hn]|Hn]|].
  - by rewrite (addTopics_in _ _ _ _).
  - apply addTopics_out. intros name Hname [= -> ->]. by apply Hn.
  - by apply addTopics_out.
Qed.

Lemma effect_unsubscribe kind targets m k :
  effect (Unsubscribe kind targets) m !! k =
    match k with
    | Named k' n => if decide (k' = kind /\ (targets = [] \/ n ∈ targets)) then None else m !! k
    | EventTopic _ => m !! k
    end.
Proof.
  cbn [effect]. destruct targets as [|t targets].
  - destruct k as [k' n|n].
    + destruct (decide _) as [[-> _]|Hn].
      * apply map_lookup_filter_None. right. intros x _. cbn. by rewrite bool_decide_eq_true_2.
      * destruct (m !! Named k' n) as [x|] eqn:E.
        -- apply map_lookup_filter_Some. split; [done|]. cbn. apply bool_decide_eq_false. intros ->. apply Hn. auto.
        -- apply map_lookup_filter_None. by left.
    + destruct (m !! EventTopic n) as [x|] eqn:E; [by apply map_lookup_filter_Some|apply map_lookup_filter_None; by left].
  - destruct k as [k' n|n].
    + destruct (decide _) as [[-> [?|Hn]]|Hn]; [done|by rewrite dropTopics_in|].
      apply dropTopics_out. intros name Hname [= -> ->]. apply Hn. auto.
    + by apply dropTopics_out.
Qed.

Lemma effect_events payload m k :
  effect (SubscribeEvents payload) m !! k =
    match k with
    | EventTopic n => if decide (n ∈ normalizedNativeEventNames (e_events payload)) then Some (eventFilter n payload) else m !! k
    | Named _ _ => m !! k
    end.
Proof.
  cbn [effect]. destruct k as [k' n|n]; [by apply addTopics_out|]. destruct (decide _) as [Hn|Hn].
  - by apply (addTopics_in EventTopic (fun name => eventFilter name payload)); [apply _|].
  - apply addTopics_out. intros name Hname [= ->]. done.
Qed.

Lemma effect_drop_events events m k :
  effect (UnsubscribeEvents events) m !! k =
    match k with
    | EventTopic n => if decide (n ∈ normalizedNativeEventNames events) then None else m !! k
    | Named _ _ => m !! k
    end.
Proof.
  cbn [effect]. destruct k as [k' n|n]; [by apply dropTopics_out|]. destruct (decide _) as [Hn|Hn]; [by apply dropTopics_in|].
  apply dropTopics_out. intros name Hname [= ->]. done.
Qed.

Lemma perform_targets kind t m k :
  perform m (replayTargets kind t) !! k =
    match k with Named k' n => if decide (k' = kind /\ n ∈ targetsOf kind t) then Some None else m !! k | EventTopic _ => m !! k end.
Proof.
  unfold replayTargets. destruct (elements (targetsOf kind t)) as [|x l] eqn:He.
  - apply elements_empty_inv, leibniz_equiv_iff in He. cbn. destruct k; [|done]. destruct (decide _) as [[_ Hn]|]; [|done]. rewrite He in Hn. by apply not_elem_of_empty in Hn.
  - cbn [foldl]. rewrite effect_subscribe. destruct k as [k' n|n]; [|done].
    assert (n ∈ sort_strings (x :: l) <-> n ∈ targetsOf kind t) as Hn by (rewrite sort_strings_perm, <- He; apply elem_of_elements).
    destruct (decide (k' = kind /\ n ∈ sort_strings _)), (decide (k' = kind /\ n ∈ targetsOf kind t)); tauto.
Qed.

(** The filter of the last subscription to an event. *)
Definition lastFilter (n : gstr) (l : list eventPayload) (d : option (option flowWake)) : option (option flowWake) :=
  foldl (fun d p => if decide (n ∈ normalizedNativeEventNames (e_events p)) then Some (eventFilter n p) else d) d l.

Lemma perform_events l : forall m k,
  perform m (SubscribeEvents <$> l) !! k = match k with EventTopic n => lastFilter n l (m !! k) | Named _ _ => m !! k end.
Proof.
  induction l as [|p l IH]; intros m k; [by destruct k|]. cbn [fmap list_fmap foldl]. rewrite IH, effect_events. destruct k as [k' n|n]; [done|]. done.
Qed.

Lemma tracked_named t kind n : trackedTopics t !! Named kind n = if decide (n ∈ targetsOf kind t) then Some None else None.
Proof.
  unfold trackedTopics, replayRequests. rewrite !foldl_app, perform_events, !perform_targets, lookup_empty.
  destruct kind; repeat (destruct (decide _)); intuition congruence.
Qed.

Lemma tracked_event t n : trackedTopics t !! EventTopic n = lastFilter n (eventReplays t) None.
Proof. unfold trackedTopics, replayRequests. by rewrite !foldl_app, perform_events, !perform_targets, lookup_empty. Qed.

(** *** Tracking a request has its effect *)

Definition normal_replay (p : eventPayload) : Prop := normal (e_events p).

(** Entries are normal, and once FLOW_WAKE is subscribed to without a filter, it stays so:
    an entry that is found again need not be replayed again. *)
Definition replays_ok (l : list eventPayload) : Prop :=
  Forall normal_replay l /\
  forall p, p ∈ l -> FLOW_WAKE ∈ e_events p -> e_flow_wake p = None -> lastFilter FLOW_WAKE l None = Some None.

Lemma lastFilter_snoc n l p d :
  lastFilter n (l ++ [p]) d = if decide (n ∈ normalizedNativeEventNames (e_events p)) then Some (eventFilter n p) else lastFilter n l d.
Proof. unfold lastFilter. by rewrite foldl_app. Qed.

Lemma elem_of_listDifference n values removed : n ∈ stringListDifference values removed <-> n ∈ values /\ n ∉ removed.
Proof. unfold stringListDifference. rewrite list_elem_of_In, filter_In, <- list_elem_of_In, bool_decide_eq_true. done. Qed.

Lemma NoDup_difference values removed : NoDup values -> NoDup (stringListDifference values removed).
Proof. unfold stringListDifference. rewrite !NoDup_ListNoDup. apply List.NoDup_filter. Qed.

Lemma normal_difference values removed : normal values -> normal (stringListDifference values removed).
Proof.
  intros [Hd Hu]. split; [by apply NoDup_difference|]. rewrite Forall_forall in *. intros n [Hn _]%elem_of_listDifference. by apply Hu.
Qed.

Lemma filterReplay_spec removed p : normal_replay p ->
  match filterReplay removed p with
  | Some q => normal_replay q /\ e_events q = stringListDifference (e_events p) removed /\
      (forall n, n ∈ e_events q -> eventFilter n q = eventFilter n p) /\ (FLOW_WAKE ∈ e_events q -> e_flow_wake q = e_flow_wake p)
  | None => forall n, n ∈ e_events p -> n ∈ removed
  end.
Proof.
  intros Hp. unfold filterReplay. rewrite (normalized_normal _ Hp).
  pose proof (normal_difference _ removed Hp) as Hd. pose proof (fun n => elem_of_listDifference n (e_events p) removed) as He.
  destruct (stringListDifference (e_events p) removed) as [|x l] eqn:E; cbv zeta.
  - intros n Hn. destruct (decide (n ∈ removed)); [done|]. assert (n ∈ []) as []%not_elem_of_nil by (by apply He).
  - split_and!; [done|done| |].
    + intros n Hn. unfold eventFilter. cbn [e_flow_wake e_events] in *. case_bool_decide as Hf; [|done]. subst n. by rewrite bool_decide_eq_true_2.
    + cbn [e_flow_wake e_events]. intros Hn. by rewrite bool_decide_eq_true_2.
Qed.

Lemma lastFilter_filter n removed l : Forall normal_replay l -> forall d,
  lastFilter n (filterEventReplays l removed) d = if decide (n ∈ removed) then d else lastFilter n l d.
Proof.
  intros Hl. unfold lastFilter, filterEventReplays. induction Hl as [|p l Hp Hl IH]; intros d; [by destruct (decide _)|].
  cbn [omap list_omap]. pose proof (filterReplay_spec removed p Hp) as Hf. destruct (filterReplay removed p) as [q|].
  - destruct Hf as (Hq & He & Hv & _). cbn [foldl]. rewrite IH, (normalized_normal _ Hp), (normalized_normal _ Hq), He.
    destruct (decide (n ∈ removed)) as [Hr|Hr].
    + rewrite decide_False; [done|]. by intros [_ ?]%elem_of_listDifference.
    + destruct (decide (n ∈ e_events p)) as [Hn|Hn].
      * rewrite decide_True by (by apply elem_of_listDifference). rewrite Hv; [done|]. rewrite He. by apply elem_of_listDifference.
      * rewrite decide_False; [done|]. by intros [? _]%elem_of_listDifference.
  - rewrite IH. cbn [foldl]. destruct (decide (n ∈ removed)); [done|]. rewrite (normalized_normal _ Hp), decide_False; [done|]. intros Hn. by apply Hf in Hn.
Qed.

Lemma filterEventReplays_ok removed l : replays_ok l -> replays_ok (filterEventReplays l removed).
Proof.
  intros [Hn Hw]. assert (forall q, q ∈ filterEventReplays l removed -> exists p, p ∈ l /\ filterReplay removed p = Some q) as Hfrom.
  { intros q Hq. unfold filterEventReplays in Hq. by apply list_elem_of_omap in Hq. }
  rewrite Forall_forall in Hn. split.
  - apply Forall_forall. intros q (p & Hp & Hq)%Hfrom. pose proof (filterReplay_spec removed p (Hn p Hp)) as H. rewrite Hq in H. apply H.
  - intros q (p & Hp & Hq)%Hfrom Hf Hnone. pose proof (filterReplay_spec removed p (Hn p Hp)) as H. rewrite Hq in H.
    destruct H as (_ & He & _ & Hfw). rewrite He in Hf. apply elem_of_listDifference in Hf as [Hf Hr].
    rewrite lastFilter_filter by (by apply Forall_forall). rewrite decide_False by done. apply (Hw p Hp Hf).
    rewrite <- Hfw; [done|]. rewrite He. by apply elem_of_listDifference.
Qed.

Lemma lastFilter_none n l : (forall p, p ∈ l -> n ∉ normalizedNativeEventNames (e_events p)) -> forall d, lastFilter n l d = d.
Proof.
  unfold lastFilter. induction l as [|p l IH]; intros H d; [done|]. cbn [foldl]. rewrite decide_False by (apply H; by left). apply IH.
  intros q Hq. apply H. by right.
Qed.

Lemma lastFilter_plain n l : n <> FLOW_WAKE -> forall d, lastFilter n l d = d \/ lastFilter n l d = Some None.
Proof.
  intros Hn. unfold lastFilter. induction l as [|p l IH]; intros d; [by left|]. cbn [foldl].
  destruct (decide _); [|apply IH]. replace (eventFilter n p) with (@None flowWake) by (unfold eventFilter; by rewrite bool_decide_eq_false_2).
  right. by destruct (IH (Some None)).
Qed.

Lemma lastFilter_found n l p : p ∈ l -> n ∈ normalizedNativeEventNames (e_events p) -> forall d, exists f, lastFilter n l d = Some f.
Proof.
  unfold lastFilter. induction l as [|q l IH] using rev_ind; intros Hp Hn d; [by apply not_elem_of_nil in Hp|]. rewrite foldl_app. cbn [foldl].
  destruct (decide _); [by eexists|]. apply elem_of_app in Hp as [Hp|Hp%list_elem_of_singleton]; [by apply IH|]. by subst q.
Qed.

Lemma targetsOf_set kind s t kind' : targetsOf kind' (set_targets kind s t) = if decide (kind' = kind) then s else targetsOf kind' t.
Proof. by destruct kind, kind'. Qed.

Lemma eventReplays_set kind s t : eventReplays (set_targets kind s t) = eventReplays t.
Proof. by destruct kind. Qed.

Lemma elem_of_added (n : gstr) l : forall s : gset gstr, n ∈ foldl (fun s key => {[key]} ∪ s) s l <-> n ∈ l \/ n ∈ s.
Proof.
  induction l as [|x l IH]; intros s; cbn [foldl]; [rewrite elem_of_nil; tauto|].
  rewrite IH, elem_of_union, elem_of_singleton, elem_of_cons. tauto.
Qed.

Lemma elem_of_removed (n : gstr) l : forall s : gset gstr, n ∈ foldl (fun s key => s ∖ {[key]}) s l <-> (~ (n ∈ l)) /\ n ∈ s.
Proof.
  induction l as [|x l IH]; intros s; cbn [foldl]; [rewrite elem_of_nil; tauto|].
  rewrite IH, elem_of_difference, elem_of_singleton, elem_of_cons. tauto.
Qed.

Lemma track_command subscribe kind args t k :
  trackedTopics (trackPubSubCommand subscribe kind args t) !! k =
    effect (if subscribe then Subscribe kind args else Unsubscribe kind args) (trackedTopics t) !! k.
Proof.
  assert (exists s, trackPubSubCommand subscribe kind args t = set_targets kind s t /\
    forall n, n ∈ s <-> (if subscribe then n ∈ args \/ n ∈ targetsOf kind t else (args <> [] /\ n ∉ args) /\ n ∈ targetsOf kind t)) as (s & -> & Hs).
  { unfold trackPubSubCommand. destruct subscribe, args as [|a args]; eexists; (split; [reflexivity|]); intros n.
    - apply elem_of_added.
    - apply elem_of_added.
    - split; [intros ?%not_elem_of_empty|intros [[? _] _]]; done.
    - rewrite elem_of_removed. intuition congruence. }
  destruct k as [kind' n|n].
  - rewrite tracked_named, targetsOf_set.
    destruct subscribe; rewrite ?effect_subscribe, ?effect_unsubscribe, tracked_named;
      destruct (decide (kind' = kind)) as [->|Hk]; repeat destruct (decide _); try done; rewrite ?Hs in *; destruct (decide (args = [])); intuition congruence.
  - rewrite tracked_event, eventReplays_set, <- tracked_event. by destruct subscribe; rewrite ?effect_subscribe, ?effect_unsubscribe.
Qed.

Lemma tracked_set_replays l t k :
  trackedTopics (set_replays l t) !! k = match k with EventTopic n => lastFilter n l None | Named _ _ => trackedTopics t !! k end.
Proof. destruct k as [kind n|n]; [|by rewrite tracked_event]. rewrite !tracked_named. by destruct kind. Qed.

Lemma replays_snoc l p : replays_ok l -> normal_replay p ->
  (e_flow_wake p <> None -> FLOW_WAKE ∈ e_events p -> forall q, q ∈ l -> FLOW_WAKE ∉ e_events q) -> replays_ok (l ++ [p]).
Proof.
  intros [Hn Hw] Hp Hfirst. split; [by apply Forall_app_2; [|constructor]|]. intros q Hq Hf Hnone. rewrite lastFilter_snoc, (normalized_normal _ Hp).
  destruct (decide (FLOW_WAKE ∈ e_events p)) as [Hin|Hin].
  - unfold eventFilter. rewrite bool_decide_eq_true_2 by done. destruct (e_flow_wake p) as [f|] eqn:Hfw; [|done].
    apply elem_of_app in Hq as [Hq|Hq%list_elem_of_singleton]; [|congruence]. by destruct (Hfirst ltac:(done) Hin q Hq).
  - apply elem_of_app in Hq as [Hq|Hq%list_elem_of_singleton]; [by eapply Hw|]. by subst q.
Qed.

(** Subscribing to events: the replays that are kept, and the new one. *)
Lemma track_events_ok payload t : replays_ok (eventReplays t) -> replays_ok (eventReplays (trackEventSubscription true payload t)).
Proof.
  intros Hok. unfold trackEventSubscription. pose proof (normal_normalized (e_events payload)) as Hnorm.
  destruct (normalizedNativeEventNames (e_events payload)) as [|e es] eqn:He; [done|]. cbn [e_flow_wake e_events].
  set (p := EventPayload (e :: es) (e_flow_wake payload)). set (l := match e_flow_wake payload with Some _ => _ | None => _ end).
  assert (replays_ok l) as Hl by (unfold l; destruct (e_flow_wake payload); [|done]; case_bool_decide; [by apply filterEventReplays_ok|done]).
  case_bool_decide as Hin; cbn [set_replays eventReplays]; [done|]. apply replays_snoc; [done|done|]. cbn [e_flow_wake e_events p].
  intros Hfw Hf q Hq Hbad. unfold l in Hq, Hl. destruct (e_flow_wake payload); [|done]. rewrite bool_decide_eq_true_2 in Hq by done.
  unfold filterEventReplays in Hq. apply list_elem_of_omap in Hq as (q0 & Hq0 & Hq). destruct Hok as [Hn _]. rewrite Forall_forall in Hn.
  pose proof (filterReplay_spec [FLOW_WAKE] q0 (Hn q0 Hq0)) as H. rewrite Hq in H. destruct H as (_ & Hev & _). rewrite Hev in Hbad.
  apply elem_of_listDifference in Hbad as [_ Hbad]. apply Hbad. by left.
Qed.

Lemma track_events_effect payload t n : replays_ok (eventReplays t) ->
  lastFilter n (eventReplays (trackEventSubscription true payload t)) None =
    if decide (n ∈ normalizedNativeEventNames (e_events payload)) then Some (eventFilter n payload) else lastFilter n (eventReplays t) None.
Proof.
  intros Hok. unfold trackEventSubscription. pose proof (normal_normalized (e_events payload)) as Hnorm.
  destruct (normalizedNativeEventNames (e_events payload)) as [|e es] eqn:He; [done|]. cbn [e_flow_wake e_events].
  set (p := EventPayload (e :: es) (e_flow_wake payload)). set (l := match e_flow_wake payload with Some _ => _ | None => _ end).
  assert (forall n, n ∉ e :: es -> lastFilter n l None = lastFilter n (eventReplays t) None) as Hother.
  { intros m Hm. unfold l. destruct (e_flow_wake payload); [|done]. case_bool_decide as Hf; [|done]. rewrite lastFilter_filter by apply Hok.
    rewrite decide_False; [done|]. intros ->%list_elem_of_singleton. done. }
  case_bool_decide as Hin; cbn [set_replays eventReplays].
  - destruct (decide (n ∈ e :: es)) as [Hn|Hn]; [|by apply Hother].
    destruct (decide (n = FLOW_WAKE)) as [->|Hne].
    + assert (e_flow_wake payload = None /\ l = eventReplays t) as [Hfw Hl].
      { unfold l in *. destruct (e_flow_wake payload) as [f|]; [|done]. rewrite bool_decide_eq_true_2 in Hin by done. exfalso.
        unfold filterEventReplays in Hin. apply list_elem_of_omap in Hin as (q & Hq & Hf). destruct Hok as [Hnn _]. rewrite Forall_forall in Hnn.
        pose proof (filterReplay_spec [FLOW_WAKE] q (Hnn q Hq)) as H. rewrite Hf in H. destruct H as (_ & Hev & _). cbn [e_events p] in Hev.
        rewrite Hev in Hn. apply elem_of_listDifference in Hn as [_ Hn]. apply Hn. by left. }
      rewrite Hl in *. unfold eventFilter. rewrite bool_decide_eq_true_2, Hfw by done. apply (proj2 Hok p Hin); done.
    + destruct (lastFilter_found n l p Hin ltac:(cbn [p e_events]; by rewrite (normalized_normal _ Hnorm)) None) as [f Hf].
      destruct (lastFilter_plain n l Hne None) as [Hl|Hl]; [congruence|]. rewrite Hl. unfold eventFilter. by rewrite bool_decide_eq_false_2.
  - rewrite lastFilter_snoc. cbn [e_events p]. rewrite (normalized_normal _ Hnorm). destruct (decide (n ∈ e :: es)) as [Hn|Hn]; [|by apply Hother].
    unfold eventFilter. done.
Qed.

Lemma track_drop subscribe_events t n : replays_ok (eventReplays t) ->
  lastFilter n (eventReplays (trackEventSubscription false (EventPayload subscribe_events None) t)) None =
    if decide (n ∈ normalizedNativeEventNames subscribe_events) then None else lastFilter n (eventReplays t) None.
Proof.
  intros Hok. unfold trackEventSubscription. cbn [e_events]. destruct (normalizedNativeEventNames subscribe_events) as [|e es] eqn:He.
  - rewrite decide_False by apply not_elem_of_nil. done.
  - cbn [set_replays eventReplays]. apply lastFilter_filter, Hok.
Qed.

Definition tracking (t : tracked) : Prop := replays_ok (eventReplays t).

Lemma tracking_request r t : tracking t -> tracking (trackRequest r t).
Proof.
  unfold tracking. destruct r as [kind args|kind args|payload|events]; cbn [trackRequest]; intros Hok.
  - unfold trackPubSubCommand. by rewrite eventReplays_set.
  - unfold trackPubSubCommand. destruct args; by rewrite eventReplays_set.
  - by apply track_events_ok.
  - unfold trackEventSubscription. cbn [e_events]. destruct (normalizedNativeEventNames events); [done|]. by apply filterEventReplays_ok.
Qed.

Lemma track_effect r t : tracking t -> trackedTopics (trackRequest r t) = effect r (trackedTopics t).
Proof.
  intros Hok. apply map_eq. intros k. destruct r as [kind args|kind args|payload|events]; cbn [trackRequest].
  - apply track_command.
  - apply track_command.
  - rewrite effect_events. destruct k as [kind n|n].
    + rewrite !tracked_named. unfold trackEventSubscription. destruct (normalizedNativeEventNames _); [done|]. cbn [e_events].
      destruct (bool_decide _); by destruct kind.
    + rewrite !tracked_event. by apply track_events_effect.
  - rewrite effect_drop_events. destruct k as [kind n|n].
    + rewrite !tracked_named. unfold trackEventSubscription. destruct (normalizedNativeEventNames _); [done|]. by destruct kind.
    + rewrite !tracked_event. by apply track_drop.
Qed.

(** ** Connections *)

(** What one interaction meets: new connections of executors before it, what
    [ensureConnected] and the selection of another executor give, the answer of a request,
    and whether the caller's context is alive behind it. *)
Inductive ensured := Connected | ConnectFailed | Replaced (exec : nat).

Inductive answer :=
| Served (value : val)
| Failed (reconnectable executed : bool).

Record viewTurn := Turn {
  t_connections : list nat;
  t_ensure : ensured;
  t_answer : answer;
  t_live : bool;
}.

(** An executor and the number of its connection. *)
Abbreviation stamp := (nat * nat)%type.

Inductive viewError := ViewClosed | ViewTransport | ViewUnstable | ViewAnswer.

Section View.
Context (server : pubSubServer) (sprint : val -> gstr) (maxRetries : nat).
Context (oracle : nat -> viewTurn).

Record world := World {
  clock : nat;
  exec : nat;                                        (* [currentExec] *)
  generations : nat -> nat;                          (* [currentConnectionGeneration] of each executor *)
  conns : stamp -> connState server;
  state : tracked;
  last : option stamp;                               (* [lastExecutor], [lastGeneration] *)
}.

Definition set_last (s : option stamp) (w : world) : world := World (clock w) (exec w) (generations w) (conns w) (state w) s.
Definition set_state (t : tracked) (w : world) : world := World (clock w) (exec w) (generations w) (conns w) t (last w).
Definition set_exec (e : nat) (w : world) : world := World (clock w) e (generations w) (conns w) (state w) (last w).
Definition set_conn (s : stamp) (c : connState server) (w : world) : world :=
  World (clock w) (exec w) (generations w) (fun s' => if decide (s' = s) then c else conns w s') (state w) (last w).

(** A new connection of an executor. *)
Definition reconnected (w : world) (e : nat) : world :=
  World (clock w) (exec w) (fun e' => if decide (e' = e) then S (generations w e) else generations w e') (conns w) (state w) (last w).

Definition interact (w : world) : viewTurn * world :=
  let t := oracle (clock w) in
  let w := foldl reconnected w (t_connections t) in
  (t, World (S (clock w)) (exec w) (generations w) (conns w) (state w) (last w)).

Definition current (w : world) : stamp := (exec w, generations w (exec w)).

(** [connectionStamp]. *)
Definition connectionStamp (w : world) : stamp * world := let w := (interact w).2 in (current w, w).

Definition connectionStampCurrent (s : stamp) (w : world) : bool * world :=
  let (c, w) := connectionStamp w in (bool_decide (c = s), w).

(** A request on the current connection. *)
Definition viewRequest (r : subRequest) (w : world) : viewTurn * world :=
  let (t, w) := interact w in
  let executed := match t_answer t with Served _ => true | Failed _ executed => executed end in
  (t, if executed then set_conn (current w) (serve server r (conns w (current w))) w else w).

(** [replayTrackedRequest], with the retries that are left. *)
Fixpoint replayTrackedRequest (retries : nat) (r : subRequest) (w : world) : bool * world :=
  let (t, w) := viewRequest r w in
  match t_answer t with
  | Served _ => (true, w)
  | Failed reconnectable _ =>
      match retries with
      | S retries => if reconnectable && t_live t then replayTrackedRequest retries r w else (false, w)
      | O => (false, w)
      end
  end.

(** [replayTrackedState]. *)
Fixpoint replayTrackedState (rs : list subRequest) (w : world) : bool * world :=
  match rs with
  | [] => (true, w)
  | r :: rs =>
      let (ok, w) := replayTrackedRequest maxRetries r w in
      if ok then replayTrackedState rs w else (false, w)
  end.

(** [ensureCurrentExecutor]. An executor is given up only without a connection: what it
    connects to later is a new one. *)
Definition ensureCurrentExecutor (w : world) : option viewError * world :=
  let (t, w) := interact w in
  match t_ensure t with
  | Connected => (None, w)
  | ConnectFailed => (Some ViewTransport, w)
  | Replaced e => (None, set_exec e (reconnected w (exec w)))
  end.

(** One turn of the loop of [reconnectAndReplayLocked]: what it returns, unless it goes on. *)
Definition replayAttempt (w : world) : option (option viewError) * world :=
  let (err, w) := ensureCurrentExecutor w in
  match err with
  | Some err => (Some (Some err), w)
  | None =>
      let (s, w) := connectionStamp w in
      if bool_decide (Some s = last w) then (Some None, w)
      else
        let (ok, w) := replayTrackedState (replayRequests (state w)) w in
        if negb ok then (Some (Some ViewTransport), w)
        else
          let (same, w) := connectionStampCurrent s w in
          if same then
            let (same, w) := connectionStampCurrent s (set_last (Some s) w) in
            (if same then Some None else None, w)
          else (None, w)
  end.

(** [attempts] are left behind this one. *)
Fixpoint replayLoop (attempts : nat) (w : world) : option viewError * world :=
  let (r, w) := replayAttempt w in
  match r, attempts with
  | Some err, _ => (err, w)
  | None, O => (Some ViewUnstable, w)
  | None, S attempts => replayLoop attempts w
  end.

Definition reconnectAndReplay (w : world) : option viewError * world :=
  let (err, w) := ensureCurrentExecutor w in
  match err with Some err => (Some err, w) | None => replayLoop maxRetries w end.

(** The loop of [requestWithReplayRetryLocked]: the answer, and the stamp read before it. *)
Fixpoint viewRequestLoop (retries : nat) (r : subRequest) (w : world) : result viewError (val * stamp) * world :=
  let (s, w) := connectionStamp w in
  let (t, w) := viewRequest r w in
  match t_answer t with
  | Served value => (Ok (value, s), w)
  | Failed reconnectable _ =>
      match retries with
      | S retries =>
          if reconnectable && t_live t then
            let (err, w) := reconnectAndReplay w in
            match err with Some err => (Err err, w) | None => viewRequestLoop retries r w end
          else (Err ViewTransport, w)
      | O => (Err ViewTransport, w)
      end
  end.

Definition requestWithReplayRetryLocked (r : subRequest) (w : world) : result viewError (val * stamp) * world :=
  let (err, w) := reconnectAndReplay w in
  match err with Some err => (Err err, w) | None => viewRequestLoop maxRetries r w end.

(** Behind an accepted answer: the request is tracked, and replayed if the connection it
    was read on is no longer the current one. *)
Definition finishRequest (r : subRequest) (s : stamp) (w : world) : bool * option viewError * world :=
  let w := set_state (trackRequest r (state w)) w in
  let (c, w) := connectionStamp w in
  let w := set_last (Some c) w in
  let (same, w) := connectionStampCurrent s w in
  if same then (false, None, w)
  else let (err, w) := reconnectAndReplay (set_last (Some s) w) in (true, err, w).

Definition viewCommandName (r : subRequest) : gstr :=
  match r with
  | Subscribe Channels _ => go "SUBSCRIBE" | Subscribe Patterns _ => go "PSUBSCRIBE" | Subscribe Shards _ => go "SSUBSCRIBE"
  | Unsubscribe Channels _ => go "UNSUBSCRIBE" | Unsubscribe Patterns _ => go "PUNSUBSCRIBE" | Unsubscribe Shards _ => go "SUNSUBSCRIBE"
  | SubscribeEvents _ | UnsubscribeEvents _ => []
  end.

Definition trackedPubSubCount (kind : subKind) (t : tracked) : Z :=
  match kind with
  | Shards => Z.of_nat (size (shardChannels t))
  | _ => Z.of_nat (size (channels t)) + Z.of_nat (size (patterns t))
  end.

(** [pubsubCommand]. *)
Definition pubsubCommand (subscribe : bool) (kind : subKind) (targets : list gstr) (w : world) : result viewError PubSubMessage * world :=
  let r := if subscribe then Subscribe kind targets else Unsubscribe kind targets in
  match requestWithReplayRetryLocked r w with
  | (Err err, w) => (Err err, w)
  | (Ok (value, s), w) =>
      match pubSubAcknowledgementFromNative sprint value (viewCommandName r) (VString <$> targets) with
      | Err _ => (Err ViewAnswer, w)
      | Ok message =>
          match finishRequest r s w with
          | (_, Some err, w) => (Err err, w)
          | (false, None, w) => (Ok message, w)
          | (true, None, w) =>
              (Ok (Message (m_Kind message) (m_Channel message) (m_Pattern message) (m_Payload message)
                     (trackedPubSubCount kind (state w))), w)
          end
      end
  end.

(** [Subscribe] and the like want a target. *)
Definition subscribeTo (kind : subKind) (targets : list gstr) (w : world) : result viewError PubSubMessage * world :=
  match targets with [] => (Err ViewAnswer, w) | _ => pubsubCommand true kind targets w end.

Record EventSubscription := Subscription { s_Subscribed : list gstr; s_Supported : list gstr; s_Raw : list (gstr * val) }.

Definition pubSubStringList (v : val) : option (list gstr) :=
  match arrayOf v with Some items => mapM responseString items | None => None end.

Definition decodeSubscription (value : val) : option EventSubscription :=
  match nativeMap value with
  | Err _ => None
  | Ok m =>
      match pubSubStringList (entry (go "subscribed") m), pubSubStringList (entry (go "supported") m) with
      | Some subscribed, Some supported => Some (Subscription subscribed supported m)
      | _, _ => None
      end
  end.

(** [eventSubscription]. *)
Definition eventSubscription (r : subRequest) (w : world) : result viewError EventSubscription * world :=
  match requestWithReplayRetryLocked r w with
  | (Err err, w) => (Err err, w)
  | (Ok (value, s), w) =>
      match decodeSubscription value with
      | None => (Err ViewAnswer, w)
      | Some sub =>
          match finishRequest r s w with
          | (_, Some err, w) => (Err err, w)
          | (_, None, w) => (Ok sub, w)
          end
      end
  end.

(** [SubscribeFlowWake]. *)
Definition subscribeFlowWake (opt : FlowWakeSubscriptionOptions) (w : world) : result viewError EventSubscription * world :=
  if validateFlowWakeSubscriptionOptions opt then eventSubscription (SubscribeEvents (flowWakePayload opt)) w else (Err ViewAnswer, w).

(** [replayAfterExternalReconnect], before each wait for an event. *)
Definition replayAfterExternalReconnect (w : world) : option viewError * world :=
  let (s, w) := connectionStamp w in
  let tracked := negb (bool_decide (replayRequests (state w) = [])) in
  let changed :=
    match last w with
    | Some l => tracked && negb (bool_decide (l.2 = 0%nat)) && negb (bool_decide (s.2 = 0%nat)) && negb (bool_decide (s = l))
    | None => false
    end in
  if changed then reconnectAndReplay w else (None, w).

(** ** What a connection has *)

(** Topics of requests whose outcome is not known are in doubt. *)
Abbreviation doubt := (topic -> Prop).

Definition agree (D : doubt) (m t : desired) : Prop := forall k, ~ D k -> m !! k = t !! k.
Definition within (D : doubt) (m t : desired) : Prop := forall k, ~ D k -> m !! k <> None -> t !! k <> None.

Definition on (w : world) : desired := view server (conns w (current w)).
Definition wanted (w : world) : desired := trackedTopics (state w).

(** The last stamp is not the current connection. *)
Definition stale (w : world) : Prop := forall s, last w = Some s -> s.1 = exec w -> (s.2 < generations w (exec w))%nat.

Record base (D : doubt) (w : world) : Prop := {
  b_tracking : tracking (state w);
  b_unused : forall e g, (generations w e < g)%nat -> conns w (e, g) = fresh server;
  b_other : forall e, e <> exec w -> conns w (e, generations w e) = fresh server;
  b_within : within D (on w) (wanted w);
  b_last : forall s, last w = Some s -> (s.2 <= generations w s.1)%nat;
  b_left : forall s, last w = Some s -> s.1 <> exec w -> (s.2 < generations w s.1)%nat;
}.

Record inv (D : doubt) (w : world) : Prop := {
  i_base : base D w;
  i_agree : last w = Some (current w) -> agree D (on w) (wanted w);
}.

(** *** Steps of the environment *)

(** The same call later: nothing but new connections in between. *)
Record later (w w' : world) : Prop := {
  l_exec : exec w' = exec w;
  l_state : state w' = state w;
  l_last : last w' = last w;
  l_generations : forall e, (generations w e <= generations w' e)%nat;
}.

Lemma later_refl w : later w w.
Proof. by constructor. Qed.

Lemma later_trans w1 w2 w3 : later w1 w2 -> later w2 w3 -> later w1 w3.
Proof. intros [] []. constructor; try congruence. intros e. etrans; eauto. Qed.

Lemma later_stale w w' : later w w' -> stale w -> stale w'.
Proof.
  intros [He _ Hl Hg] Hs s Hlast Hex. rewrite Hl in Hlast. rewrite He in *. specialize (Hs s Hlast Hex). specialize (Hg (exec w)). lia.
Qed.

Lemma stale_not_current w : stale w -> last w <> Some (current w).
Proof. intros Hs Hl. specialize (Hs _ Hl eq_refl). cbn in Hs. lia. Qed.

Lemma stale_inv D w : base D w -> stale w -> inv D w.
Proof. intros Hb Hs. split; [done|]. intros Hl. by apply stale_not_current in Hl. Qed.

(** A last stamp that is not the current one will never be. *)
Lemma not_current_stale D w : base D w -> last w <> Some (current w) -> stale w.
Proof.
  intros Hb Hl [e g] Hlast. cbn. intros ->. pose proof (b_last D w Hb _ Hlast) as Hle. cbn in Hle.
  destruct (decide (g = generations w (exec w))) as [->|]; [done|lia].
Qed.

Lemma reconnected_later w e : later w (reconnected w e).
Proof. constructor; try done. intros e'. cbn. destruct (decide _); subst; lia. Qed.

Lemma view_fresh_within D w : conns w (current w) = fresh server -> within D (on w) (wanted w).
Proof. intros Hf k _. unfold on. rewrite Hf, view_fresh, lookup_empty. done. Qed.

Lemma reconnected_base D w e : base D w -> base D (reconnected w e).
Proof.
  intros [H1 H2 H3 H4 H5 H6]. constructor; cbn [state reconnected generations conns exec last]; try done.
  - intros e' g Hg. apply H2. destruct (decide (e' = e)); subst; lia.
  - intros e' He. destruct (decide (e' = e)) as [->|]; [apply H2; lia|by apply H3].
  - destruct (decide (exec w = e)) as [He|He].
    + subst e. apply view_fresh_within. unfold current. cbn. rewrite decide_True by done. apply H2. lia.
    + unfold within, on, wanted, current in *. cbn. by rewrite decide_False.
  - intros s Hs. specialize (H5 s Hs). destruct (decide (s.1 = e)) as [<-|]; lia.
  - intros s Hs Hne. specialize (H6 s Hs Hne). destruct (decide (s.1 = e)) as [<-|]; lia.
Qed.

Lemma reconnected_inv D w e : inv D w -> inv D (reconnected w e).
Proof.
  intros [Hb Ha]. split; [by apply reconnected_base|]. cbn. destruct (decide (exec w = e)) as [He|He].
  - intros Hl. pose proof (b_last D w Hb _ Hl) as Hle. cbn in Hle. rewrite decide_True in Hle by done. subst e. lia.
  - unfold agree, on, wanted, current in *. cbn. rewrite decide_False by done. done.
Qed.

Lemma foldl_later l : forall w, later w (foldl reconnected w l).
Proof. induction l as [|e l IH]; intros w; [apply later_refl|]. cbn. eapply later_trans; [apply reconnected_later|apply IH]. Qed.

Lemma foldl_base D l : forall w, base D w -> base D (foldl reconnected w l).
Proof. induction l as [|e l IH]; intros w H; [done|]. cbn. by apply IH, reconnected_base. Qed.

Lemma foldl_inv D l : forall w, inv D w -> inv D (foldl reconnected w l).
Proof. induction l as [|e l IH]; intros w H; [done|]. cbn. by apply IH, reconnected_inv. Qed.

Lemma interact_later w : later w (interact w).2.
Proof. destruct (foldl_later (t_connections (oracle (clock w))) w). by constructor. Qed.

Lemma interact_base D w : base D w -> base D (interact w).2.
Proof. intros H. apply (foldl_base D (t_connections (oracle (clock w)))) in H as []. by constructor. Qed.

Lemma interact_inv D w : inv D w -> inv D (interact w).2.
Proof.
  intros H. apply (foldl_inv D (t_connections (oracle (clock w)))) in H as [[] Ha]. split; [by constructor|exact Ha].
Qed.

Lemma foldl_conns l : forall w, conns (foldl reconnected w l) = conns w.
Proof. induction l as [|e l IH]; intros w; [done|]. cbn. by rewrite IH. Qed.

Lemma interact_conns w : conns (interact w).2 = conns w.
Proof. apply foldl_conns. Qed.

(** *** Requests *)

Definition touches (r : subRequest) (k : topic) : Prop :=
  match r, k with
  | Subscribe kind targets, Named k' n => k' = kind /\ n ∈ targets
  | Unsubscribe kind targets, Named k' n => k' = kind /\ (targets = [] \/ n ∈ targets)
  | SubscribeEvents payload, EventTopic n => n ∈ normalizedNativeEventNames (e_events payload)
  | UnsubscribeEvents events, EventTopic n => n ∈ normalizedNativeEventNames events
  | _, _ => False
  end.

Lemma effect_untouched r k m : ~ touches r k -> effect r m !! k = m !! k.
Proof.
  intros H. destruct r; rewrite ?effect_subscribe, ?effect_unsubscribe, ?effect_events, ?effect_drop_events; destruct k; try done;
    by rewrite decide_False.
Qed.

Lemma effect_touched r k m m' : touches r k -> effect r m !! k = effect r m' !! k.
Proof.
  intros H. destruct r; rewrite ?effect_subscribe, ?effect_unsubscribe, ?effect_events, ?effect_drop_events; destruct k; try done;
    by rewrite !decide_True.
Qed.

#[global] Instance touches_decision r k : Decision (touches r k).
Proof. destruct r, k; cbn [touches]; apply _. Defined.

Lemma effect_idem r m : effect r (effect r m) = effect r m.
Proof. apply map_eq. intros k. destruct (decide (touches r k)); [by apply effect_touched|by apply effect_untouched]. Qed.

(** A request that touches only topics in doubt or wanted. *)
Definition harmless (D : doubt) (w : world) (r : subRequest) : Prop := forall k, touches r k -> D k \/ wanted w !! k <> None.

Definition executed (t : viewTurn) : bool := match t_answer t with Served _ => true | Failed _ executed => executed end.

Lemma set_conn_base D w r : base D w -> harmless D w r -> base D (set_conn (current w) (serve server r (conns w (current w))) w).
Proof.
  intros [H1 H2 H3 H4 H5 H6] Hh. constructor; cbn [set_conn state generations conns exec last]; try done.
  - intros e g Hg. rewrite decide_False; [by apply H2|]. intros [= -> ->]. lia.
  - intros e He. rewrite decide_False; [by apply H3|]. intros [= -> _]. done.
  - unfold within, on, wanted, current in *. cbn. rewrite decide_True by done. rewrite view_serve. intros k Hk Hm.
    destruct (decide (touches r k)) as [Ht|Ht]; [by destruct (Hh k Ht)|]. rewrite effect_untouched in Hm by done. by apply H4.
Qed.

Lemma set_conn_agree D w r : agree D (on w) (wanted w) -> (forall k, touches r k -> D k) ->
  agree D (on (set_conn (current w) (serve server r (conns w (current w))) w)) (wanted w).
Proof.
  intros Ha Hd k Hk. unfold on, current in *. cbn. rewrite decide_True by done. rewrite view_serve, effect_untouched; [by apply Ha|].
  intros Ht. by apply Hk, Hd.
Qed.

Lemma set_conn_on w r : on (set_conn (current w) (serve server r (conns w (current w))) w) = effect r (on w).
Proof. unfold on, current. cbn. by rewrite decide_True, view_serve. Qed.

Lemma set_conn_later w s c : later w (set_conn s c w).
Proof. by constructor. Qed.

(** The three outcomes of a request: it reached the connection after [interact], or not. *)
Lemma sub_request_cases r w t w' : viewRequest r w = (t, w') ->
  w' = (interact w).2 /\ executed t = false \/
  w' = set_conn (current (interact w).2) (serve server r (conns (interact w).2 (current (interact w).2))) (interact w).2 /\ executed t = true.
Proof.
  unfold viewRequest. destruct (interact w) as [t0 w0] eqn:E. intros [= <- <-]. cbn [snd].
  unfold executed. destruct (t_answer t0) as [v|b []]; auto.
Qed.

Lemma request_later r w t w' : viewRequest r w = (t, w') -> later w w'.
Proof.
  intros [[-> _]|[-> _]]%sub_request_cases; [apply interact_later|]. eapply later_trans; [apply interact_later|apply set_conn_later].
Qed.

Lemma harmless_later D w w' r : later w w' -> harmless D w r -> harmless D w' r.
Proof. intros [_ Hs _ _] H k Hk. unfold wanted in *. rewrite Hs. by apply H. Qed.

Lemma request_base D r w t w' : viewRequest r w = (t, w') -> base D w -> harmless D w r -> base D w'.
Proof.
  intros Hr Hb Hh. apply sub_request_cases in Hr as [[-> _]|[-> _]]; [by apply interact_base|].
  apply set_conn_base; [by apply interact_base|]. eapply harmless_later; [apply interact_later|done].
Qed.

Lemma request_inv D r w t w' : viewRequest r w = (t, w') -> inv D w -> (forall k, touches r k -> D k) -> inv D w'.
Proof.
  intros Hr Hi Hd. split.
  - eapply request_base; [done|apply Hi|]. intros k Hk. left. by apply Hd.
  - apply (interact_inv D) in Hi as [_ Ha]. apply sub_request_cases in Hr as [[-> _]|[-> _]]; [done|]. intros Hl.
    apply (set_conn_agree D (interact w).2 r); [by apply Ha|done].
Qed.

Definition unmoved (w w' : world) : Prop := generations w' (exec w) = generations w (exec w).

Lemma unmoved_split w1 w2 w3 : later w1 w2 -> later w2 w3 -> unmoved w1 w3 -> unmoved w1 w2 /\ unmoved w2 w3.
Proof.
  intros [He _ _ H12] [_ _ _ H23] H. unfold unmoved in *. rewrite He. specialize (H12 (exec w1)). specialize (H23 (exec w1)). lia.
Qed.

Lemma unmoved_on w : unmoved w (interact w).2 -> on (interact w).2 = on w.
Proof. intros H. unfold on, current. by rewrite interact_conns, (l_exec _ _ (interact_later w)), H. Qed.

(** A request on an unmoved connection has its effect, or none if it did not reach it. *)
Lemma request_on r w t w' : viewRequest r w = (t, w') -> unmoved w w' ->
  on w' = if executed t then effect r (on w) else on w.
Proof.
  intros Hr Hu. pose proof (interact_later w) as Hl. apply sub_request_cases in Hr as [[-> ->]|[-> ->]].
  - by apply unmoved_on.
  - rewrite set_conn_on, unmoved_on; [done|]. by apply (unmoved_split _ _ _ Hl (set_conn_later _ _ _)) in Hu as [? _].
Qed.

(** *** Replaying what is tracked *)

Lemma replayTrackedRequest_base D r retries : forall w ok w', replayTrackedRequest retries r w = (ok, w') ->
  base D w -> harmless D w r -> base D w' /\ later w w'.
Proof.
  induction retries as [|retries IH]; intros w ok w' H Hb Hh; cbn [replayTrackedRequest] in H; destruct (viewRequest r w) as [t w1] eqn:Hr;
    pose proof (request_later _ _ _ _ Hr) as Hl; pose proof (request_base D _ _ _ _ Hr Hb Hh) as Hb1.
  - destruct (t_answer t); by injection H as <- <-.
  - destruct (t_answer t) as [v|rec ex]; [by injection H as <- <-|]. destruct (rec && t_live t); [|by injection H as <- <-].
    apply IH in H as [? ?]; [split; [done|by eapply later_trans]|done|by eapply harmless_later].
Qed.

Lemma replayTrackedRequest_on D r retries : forall w w', replayTrackedRequest retries r w = (true, w') ->
  base D w -> harmless D w r -> unmoved w w' -> on w' = effect r (on w).
Proof.
  induction retries as [|retries IH]; intros w w' H Hb Hh Hu; cbn [replayTrackedRequest] in H; destruct (viewRequest r w) as [t w1] eqn:Hr;
    pose proof (request_later _ _ _ _ Hr) as Hl; pose proof (request_base D _ _ _ _ Hr Hb Hh) as Hb1.
  - destruct (t_answer t) eqn:Ht; [|done]. injection H as <-. rewrite (request_on _ _ _ _ Hr Hu). unfold executed. by rewrite Ht.
  - destruct (t_answer t) as [v|rec ex] eqn:Ht.
    + injection H as <-. rewrite (request_on _ _ _ _ Hr Hu). unfold executed. by rewrite Ht.
    + destruct (rec && t_live t); [|done].
      destruct (replayTrackedRequest_base D r _ _ _ _ H Hb1 (harmless_later _ _ _ _ Hl Hh)) as [_ Hl2].
      destruct (unmoved_split _ _ _ Hl Hl2 Hu) as [Hu1 Hu2].
      rewrite (IH _ _ H Hb1 (harmless_later _ _ _ _ Hl Hh)) by (unfold unmoved in *; by rewrite (l_exec _ _ Hl) in *).
      rewrite (request_on _ _ _ _ Hr Hu1). destruct (executed t); [apply effect_idem|done].
Qed.

Lemma replayTrackedState_base D rs : forall w ok w', replayTrackedState rs w = (ok, w') ->
  base D w -> (forall r, r ∈ rs -> harmless D w r) -> base D w' /\ later w w'.
Proof.
  induction rs as [|r rs IH]; intros w ok w' H Hb Hh; cbn [replayTrackedState] in H; [injection H as <- <-; split; [done|apply later_refl]|].
  destruct (replayTrackedRequest maxRetries r w) as [ok1 w1] eqn:Hr.
  destruct (replayTrackedRequest_base D r _ _ _ _ Hr Hb (Hh r ltac:(by left))) as [Hb1 Hl1].
  destruct ok1; [|by injection H as <- <-]. apply IH in H as [? ?]; [split; [done|by eapply later_trans]|done|].
  intros r' Hin. eapply harmless_later; [done|]. apply Hh. by right.
Qed.

Lemma replayTrackedState_on D rs : forall w w', replayTrackedState rs w = (true, w') ->
  base D w -> (forall r, r ∈ rs -> harmless D w r) -> unmoved w w' -> on w' = perform (on w) rs.
Proof.
  induction rs as [|r rs IH]; intros w w' H Hb Hh Hu; cbn [replayTrackedState] in H; [by injection H as <-|].
  destruct (replayTrackedRequest maxRetries r w) as [ok1 w1] eqn:Hr.
  destruct (replayTrackedRequest_base D r _ _ _ _ Hr Hb (Hh r ltac:(by left))) as [Hb1 Hl1]. destruct ok1; [|done].
  assert (forall r', r' ∈ rs -> harmless D w1 r') as Hh1 by (intros r' Hin; eapply harmless_later; [done|]; apply Hh; by right).
  destruct (replayTrackedState_base D rs _ _ _ H Hb1 Hh1) as [_ Hl2]. destruct (unmoved_split _ _ _ Hl1 Hl2 Hu) as [Hu1 Hu2].
  rewrite (IH _ _ H Hb1 Hh1 Hu2). cbn [foldl]. by rewrite (replayTrackedRequest_on D r _ _ _ Hr Hb (Hh r ltac:(by left)) Hu1).
Qed.

Lemma lastFilter_default n l d : lastFilter n l d = match lastFilter n l None with Some f => Some f | None => d end.
Proof.
  unfold lastFilter. induction l as [|p l IH] using rev_ind; [done|]. rewrite !foldl_app. cbn [foldl]. destruct (decide _); [done|apply IH].
Qed.

(** Replaying what is tracked only touches what is wanted, and makes it so. *)
Lemma tracked_wanted t r k : r ∈ replayRequests t -> touches r k -> trackedTopics t !! k <> None.
Proof.
  unfold replayRequests. rewrite !elem_of_app. intros Hr Ht.
  assert (forall kind, r ∈ replayTargets kind t -> trackedTopics t !! k <> None) as Htargets.
  { intros kind. unfold replayTargets. destruct (elements (targetsOf kind t)) as [|x l] eqn:He; [by intros ?%not_elem_of_nil|].
    intros ->%list_elem_of_singleton. destruct k as [kind' n|n]; [|done]. destruct Ht as [-> Hn]. rewrite tracked_named, decide_True; [done|].
    by rewrite sort_strings_perm, <- He, elem_of_elements in Hn. }
  destruct Hr as [Hr|[Hr|[Hr|Hr]]]; [by eapply Htargets..|].
  apply list_elem_of_fmap in Hr as (p & -> & Hp). destruct k as [kind n|n]; [done|]. rewrite tracked_event.
  destruct (lastFilter_found n _ _ Hp Ht None) as [f ->]. done.
Qed.

Lemma replay_harmless D w r : r ∈ replayRequests (state w) -> harmless D w r.
Proof. intros Hr k Hk. right. by eapply tracked_wanted. Qed.

Lemma replay_agrees D m t : within D m (trackedTopics t) -> agree D (perform m (replayRequests t)) (trackedTopics t).
Proof.
  intros Hw k Hk. specialize (Hw k Hk). unfold replayRequests. rewrite !foldl_app, perform_events, !perform_targets.
  destruct k as [kind n|n].
  - rewrite tracked_named in *. destruct kind; repeat (destruct (decide _)); try (intuition congruence);
      destruct (m !! _); try done; exfalso; by apply Hw.
  - rewrite tracked_event in *. rewrite lastFilter_default. destruct (lastFilter n (eventReplays t) None); [done|].
    destruct (m !! EventTopic n); [|done]. exfalso. by apply Hw.
Qed.

(** *** The loops *)

Lemma base_weaken (D D' : doubt) w : (forall k, D k -> D' k) -> base D w -> base D' w.
Proof. intros HD []. constructor; try done. intros k Hk. apply b_within0. intros ?. by apply Hk, HD. Qed.

Lemma inv_weaken (D D' : doubt) w : (forall k, D k -> D' k) -> inv D w -> inv D' w.
Proof.
  intros HD [Hb Ha]. split; [by apply (base_weaken D)|]. intros Hl k Hk. apply Ha; [done|]. intros ?. by apply Hk, HD.
Qed.

Lemma ensure_inv D w err w' : ensureCurrentExecutor w = (err, w') -> inv D w -> inv D w' /\ state w' = state w.
Proof.
  unfold ensureCurrentExecutor. destruct (interact w) as [t w1] eqn:E. intros H Hi. apply (interact_inv D) in Hi.
  pose proof (l_state _ _ (interact_later w)) as Hs. rewrite E in Hi, Hs. cbn [snd] in *.
  destruct (t_ensure t) as [| |e]; [by injection H as <- <-..|]. injection H as <- <-. split; [|done].
  destruct Hi as [[H1 H2 H3 H4 H5 H6] _].
  assert (conns w1 (e, if decide (e = exec w1) then S (generations w1 (exec w1)) else generations w1 e) = fresh server) as Hfresh.
  { destruct (decide (e = exec w1)) as [->|]; [apply H2; lia|by apply H3]. }
  assert (forall s, last w1 = Some s -> (s.2 < if decide (s.1 = exec w1) then S (generations w1 (exec w1)) else generations w1 s.1)%nat) as Hleft.
  { intros s Hl. destruct (decide (s.1 = exec w1)) as [Hd|Hd]; [specialize (H5 s Hl); rewrite Hd in H5; lia|by apply H6]. }
  apply stale_inv; [constructor|]; cbn [set_exec reconnected state generations conns exec last]; try done.
  - intros e' g Hg. apply H2. destruct (decide (e' = exec w1)) as [->|]; lia.
  - intros e' He. destruct (decide (e' = exec w1)) as [->|]; [apply H2; lia|by apply H3].
  - apply view_fresh_within. exact Hfresh.
  - intros s Hl. apply Nat.lt_le_incl. by apply Hleft.
  - intros s Hl _. by apply Hleft.
  - intros s Hl Hex. cbn in *. specialize (Hleft s Hl). by rewrite Hex in Hleft.
Qed.

Lemma set_last_inv D w : base D w -> agree D (on w) (wanted w) -> inv D (set_last (Some (current w)) w).
Proof.
  intros [H1 H2 H3 H4 H5 H6] Ha. split; [constructor|]; cbn [set_last state generations conns exec last]; try done.
  - by intros s [= <-].
  - by intros s [= <-].
Qed.

Lemma stampCurrent_eq s w same w' : connectionStampCurrent s w = (same, w') ->
  w' = (interact w).2 /\ (if same then current w' = s else current w' <> s).
Proof. unfold connectionStampCurrent, connectionStamp. cbv zeta. intros [= <- <-]. split; [done|]. by case_bool_decide. Qed.

Lemma same_unmoved w1 w2 : exec w2 = exec w1 -> current w2 = current w1 -> unmoved w1 w2.
Proof. intros He. unfold current, unmoved. rewrite He. by intros [= ?]. Qed.

Lemma unmoved_interact w w' : later w w' -> unmoved w (interact w').2 -> unmoved w w' /\ on (interact w').2 = on w'.
Proof.
  intros Hl Hu. destruct (unmoved_split _ _ _ Hl (interact_later w') Hu) as [Hu1 Hu2]. split; [done|]. by apply unmoved_on.
Qed.

Lemma replayAttempt_inv D w r w' : replayAttempt w = (r, w') -> inv D w ->
  inv D w' /\ state w' = state w /\ (r = Some None -> last w' = Some (current w')).
Proof.
  unfold replayAttempt. intros H Hi. destruct (ensureCurrentExecutor w) as [err0 w0] eqn:He. destruct (ensure_inv D _ _ _ He Hi) as [Hi0 Hs0].
  destruct err0 as [e0|]; [by injection H as <- <-|].
  unfold connectionStamp in H. cbv zeta in H. apply (interact_inv D) in Hi0. pose proof (l_state _ _ (interact_later w0)) as Hs1.
  set (w1 := (interact w0).2) in *. rewrite Hs0 in Hs1.
  case_bool_decide as Hl; [by injection H as <- <-|].
  assert (stale w1) as Hst by (eapply not_current_stale; [apply Hi0|congruence]).
  destruct (replayTrackedState (replayRequests (state w1)) w1) as [ok w2] eqn:Hr.
  destruct (replayTrackedState_base D _ _ _ _ Hr (i_base _ _ Hi0) (replay_harmless D w1)) as [Hb2 Hl2].
  assert (inv D w2) as Hi2 by (apply stale_inv; [done|by eapply later_stale]).
  assert (state w2 = state w) as Hs2 by (by rewrite (l_state _ _ Hl2)).
  destruct ok; cbn [negb] in H; [|by injection H as <- <-].
  destruct (connectionStampCurrent (current w1) w2) as [same w3] eqn:H3. apply stampCurrent_eq in H3 as [-> Hsame].
  pose proof (l_state _ _ (interact_later w2)) as Hs3.
  set (w3 := (interact w2).2) in *. pose proof (interact_inv D _ Hi2 : inv D w3) as Hi3.
  destruct same; [|injection H as <- <-; split_and!; [done|congruence|done]].
  assert (unmoved w1 w3) as Hu by (apply same_unmoved; [unfold w3; by rewrite (l_exec _ _ (interact_later w2)), (l_exec _ _ Hl2)|done]).
  apply unmoved_interact in Hu as [Hu Hon]; [|done].
  assert (inv D (set_last (Some (current w1)) w3)) as Hi3'.
  { rewrite <- Hsame. apply set_last_inv; [apply Hi3|]. unfold wanted.
    rewrite Hs3, (l_state _ _ Hl2). unfold w3. rewrite Hon, (replayTrackedState_on D _ _ _ Hr (i_base _ _ Hi0) (replay_harmless D w1) Hu).
    apply replay_agrees. apply (b_within _ _ (i_base _ _ Hi0)). }
  destruct (connectionStampCurrent _ (set_last _ _)) as [done w4] eqn:H4. apply stampCurrent_eq in H4 as [-> Hdone].
  pose proof (interact_later (set_last (Some (current w1)) w3)) as Hl4. apply (interact_inv D) in Hi3'.
  set (w4 := (interact (set_last _ _)).2) in *. injection H as <- <-.
  split_and!; [done|rewrite (l_state _ _ Hl4); change (state w3 = state w); congruence|]. destruct done; [|done]. intros _. by rewrite (l_last _ _ Hl4), Hdone.
Qed.

Lemma replayLoop_inv D attempts : forall w err w', replayLoop attempts w = (err, w') -> inv D w ->
  inv D w' /\ state w' = state w /\ (err = None -> last w' = Some (current w')).
Proof.
  induction attempts as [|attempts IH]; intros w err w' H Hi; cbn [replayLoop] in H; destruct (replayAttempt w) as [r w1] eqn:Hr;
    destruct (replayAttempt_inv D _ _ _ Hr Hi) as (Hi1 & Hs1 & Hl1).
  - destruct r as [e|]; injection H as <- <-; split_and!; try done. intros ->. by apply Hl1.
  - destruct r as [e|]; [injection H as <- <-; split_and!; try done; intros ->; by apply Hl1|].
    apply IH in H as (? & ? & ?); [|done]. split_and!; [done|congruence|done].
Qed.

Lemma reconnectAndReplay_inv D w err w' : reconnectAndReplay w = (err, w') -> inv D w ->
  inv D w' /\ state w' = state w /\ (err = None -> last w' = Some (current w')).
Proof.
  unfold reconnectAndReplay. destruct (ensureCurrentExecutor w) as [err0 w0] eqn:He. intros H Hi. destruct (ensure_inv D _ _ _ He Hi) as [Hi0 Hs0].
  destruct err0; [injection H as <- <-; done|]. apply (replayLoop_inv D) in H as (? & ? & ?); [|done]. split_and!; [done|congruence|done].
Qed.

Lemma external_inv D w err w' : replayAfterExternalReconnect w = (err, w') -> inv D w -> inv D w' /\ state w' = state w.
Proof.
  unfold replayAfterExternalReconnect, connectionStamp. cbv zeta. intros H Hi. apply (interact_inv D) in Hi.
  pose proof (l_state _ _ (interact_later w)) as Hs. destruct (match last _ with Some _ => _ | None => _ end).
  - apply (reconnectAndReplay_inv D) in H as (? & ? & _); [|done]. split; [done|congruence].
  - injection H as <- <-. done.
Qed.

(** What is known about an answered request: the connection whose stamp was read before it. *)
Definition answeredAt (D : doubt) (r : subRequest) (s : stamp) (w : world) : Prop :=
  exists w0, s = current w0 /\ later w0 w /\ inv D w0 /\
    (unmoved w0 w -> on w = effect r (on w0)) /\ (exists m, within D m (wanted w0) /\ on w = effect r m).

Lemma viewRequestLoop_inv D r retries : (forall k, touches r k -> D k) -> forall w res w', viewRequestLoop retries r w = (res, w') -> inv D w ->
  inv D w' /\ state w' = state w /\ (forall value s, res = Ok (value, s) -> answeredAt D r s w').
Proof.
  intros Hd. assert (forall w t w1, viewRequest r (interact w).2 = (t, w1) -> inv D w ->
    inv D w1 /\ state w1 = state w /\ (executed t = true -> answeredAt D r (current (interact w).2) w1)) as Hone.
  { intros w t w1 Hr Hi. apply (interact_inv D) in Hi. pose proof (l_state _ _ (interact_later w)) as Hs. set (w0 := (interact w).2) in *.
    split_and!; [by eapply request_inv|by rewrite (l_state _ _ (request_later _ _ _ _ Hr))|]. intros Hx.
    exists w0. split_and!; [done|by eapply request_later|done| |].
    - intros Hu. by rewrite (request_on _ _ _ _ Hr Hu), Hx.
    - apply sub_request_cases in Hr as [[_ ?]|[-> _]]; [congruence|]. exists (on (interact w0).2). split; [|apply set_conn_on].
      pose proof (b_within _ _ (i_base _ _ (interact_inv D w0 Hi))) as Hw. unfold wanted in *. by rewrite (l_state _ _ (interact_later w0)) in Hw. }
  induction retries as [|retries IH]; intros w res w' H Hi; cbn [viewRequestLoop] in H; unfold connectionStamp in H; cbv zeta in H;
    destruct (viewRequest r (interact w).2) as [t w1] eqn:Hr; destruct (Hone _ _ _ Hr Hi) as (Hi1 & Hs1 & Ha1).
  - destruct (t_answer t) as [v|rec ex] eqn:Ht; injection H as <- <-; split_and!; try done. intros ? ? [= <- <-]. apply Ha1. unfold executed. by rewrite Ht.
  - destruct (t_answer t) as [v|rec ex] eqn:Ht.
    { injection H as <- <-; split_and!; try done. intros ? ? [= <- <-]. apply Ha1. unfold executed. by rewrite Ht. }
    destruct (rec && t_live t); [|by injection H as <- <-].
    destruct (reconnectAndReplay w1) as [err w2] eqn:Hr2. destruct (reconnectAndReplay_inv D _ _ _ Hr2 Hi1) as (Hi2 & Hs2 & _).
    destruct err; [injection H as <- <-; split_and!; [done|congruence|done]|].
    apply IH in H as (? & ? & ?); [|done]. split_and!; [done|congruence|done].
Qed.

(** *** A request that succeeds *)

Definition without (D : doubt) (r : subRequest) : doubt := fun k => D k /\ ~ touches r k.
Definition with_request (D : doubt) (r : subRequest) : doubt := fun k => D k \/ touches r k.
(** ... and everything the view tracks. *)
Definition with_tracked (D : doubt) (w : world) : doubt := fun k => D k \/ wanted w !! k <> None.

Lemma effect_within D r m t : within D m t -> within (without D r) (effect r m) (effect r t).
Proof.
  intros Hw k Hk Hm. destruct (decide (touches r k)) as [Ht|Ht]; [by rewrite (effect_touched r k t m)|].
  rewrite effect_untouched in * by done. apply Hw; [|done]. intros ?. by apply Hk.
Qed.

Lemma effect_agree D r m t : agree D m t -> agree (without D r) (effect r m) (effect r t).
Proof.
  intros Ha k Hk. destruct (decide (touches r k)) as [Ht|Ht]; [by apply effect_touched|]. rewrite !effect_untouched by done.
  apply Ha. intros ?. by apply Hk.
Qed.

(** A connection with nothing but what is wanted agrees on what is not. *)
Lemma within_agree D w m : within D m (wanted w) -> agree (with_tracked D w) m (wanted w).
Proof.
  intros Hw k Hk. destruct (wanted w !! k) eqn:E; [destruct Hk; right; by rewrite E|].
  destruct (m !! k) eqn:Em; [|done]. destruct (Hw k); [intros ?; apply Hk; by left|by rewrite Em|done].
Qed.

(** Interactions on a view whose tracked state has been replaced. *)
Lemma moved_on D w w' : base D w -> conns w' = conns w -> exec w' = exec w ->
  (generations w (exec w) <= generations w' (exec w))%nat -> on w' = on w /\ current w' = current w \/ on w' = ∅.
Proof.
  intros Hb Hc He Hg. unfold on, current. rewrite Hc, He. destruct (decide (generations w' (exec w) = generations w (exec w))) as [->|]; [by left|].
  right. rewrite (b_unused D w Hb) by lia. apply view_fresh.
Qed.

Lemma finishRequest_inv D r s w re err w' : finishRequest r s w = (re, err, w') -> inv D w -> answeredAt D r s w ->
  state w' = trackRequest r (state w) /\
  (re = true \/ last w = Some s -> inv (without D r) w') /\ inv (without (with_tracked D w) r) w' /\
  (re = true \/ last w = Some s -> err = None -> last w' = Some (current w')).
Proof.
  intros H Hi (w0 & -> & Hl0 & Hi0 & Hon & m & Hm & Hom). unfold finishRequest in H.
  set (w1 := set_state (trackRequest r (state w)) w) in *. unfold connectionStamp in H. cbv zeta in H.
  pose proof (interact_later w1) as Hl1. pose proof (interact_conns w1) as Hc1. set (w2 := (interact w1).2) in *.
  destruct (connectionStampCurrent _ _) as [same w3] eqn:H3. apply stampCurrent_eq in H3 as [-> Hsame].
  pose proof (interact_later (set_last (Some (current w2)) w2)) as Hl3. pose proof (interact_conns (set_last (Some (current w2)) w2)) as Hc3.
  set (w3 := (interact (set_last (Some (current w2)) w2)).2) in *.
  assert (state w3 = trackRequest r (state w)) as Hs3 by exact (eq_trans (l_state _ _ Hl3) (l_state _ _ Hl1)).
  assert (exec w3 = exec w) as He3 by exact (eq_trans (l_exec _ _ Hl3) (l_exec _ _ Hl1)).
  assert (conns w3 = conns w) as Hcw by exact (eq_trans Hc3 Hc1).
  assert (forall e, (generations w e <= generations w3 e)%nat) as Hg3.
  { intros e. etrans; [exact (l_generations _ _ Hl1 e)|exact (l_generations _ _ Hl3 e)]. }
  pose proof (i_base _ _ Hi) as Hb. pose proof (track_effect r (state w) (b_tracking _ _ Hb)) as Heff.
  assert (wanted w0 = wanted w) as Hw0 by (unfold wanted; by rewrite (l_state _ _ Hl0)).
  assert (within (without D r) (on w3) (wanted w3)) as Hw3.
  { unfold wanted. rewrite Hs3, Heff. destruct (moved_on D w w3 Hb Hcw He3 (Hg3 _)) as [[-> _]| ->].
    - rewrite Hom. apply effect_within. by rewrite Hw0 in Hm.
    - intros k _ Hk. by rewrite lookup_empty in Hk. }
  assert (forall st, (forall s, st = Some s -> (s.2 <= generations w3 s.1)%nat) -> (forall s, st = Some s -> s.1 = exec w3) ->
    base (without D r) (set_last st w3)) as Hb3.
  { intros st Hle Hex. constructor; cbn [set_last state generations conns exec last].
    - rewrite Hs3. apply tracking_request, Hb.
    - intros e g Hg. rewrite Hcw. apply (b_unused D w Hb). specialize (Hg3 e). lia.
    - intros e He. rewrite Hcw. specialize (Hg3 e). destruct (decide (generations w3 e = generations w e)) as [->|];
        [apply (b_other D w Hb); congruence|apply (b_unused D w Hb); lia].
    - exact Hw3.
    - exact Hle.
    - intros s Hs Hne. by destruct Hne; apply Hex. }
  assert (exec w3 = exec w0) as He30 by (by rewrite He3, (l_exec _ _ Hl0)).
  assert (generations w0 (exec w0) <= generations w2 (exec w0))%nat as Hg02.
  { etrans; [apply (l_generations _ _ Hl0)|exact (l_generations _ _ Hl1 _)]. }
  assert (forall k, without D r k -> without (with_tracked D w) r k) as Hmore by (intros k [? ?]; split; [by left|done]).
  destruct same.
  - injection H as <- <- <-. pose proof Hsame as Hcur.
    assert (current w2 = current w0) as Hc20.
    { unfold current in *. assert (exec w2 = exec w0) as He20 by (by rewrite (l_exec _ _ Hl1), <- (l_exec _ _ Hl0)). rewrite He20. f_equal.
      pose proof (l_generations _ _ Hl3 (exec w0)) as Hg23. cbn in Hg23. rewrite He30 in Hcur. injection Hcur as Hcur.
      apply Nat.le_antisymm; [|exact Hg02]. rewrite <- Hcur. exact Hg23. }
    assert (last w3 = Some (current w3)) as Hl by (rewrite (l_last _ _ Hl3), Hcur; exact (f_equal Some Hc20)).
    assert (unmoved w0 w) as Hu.
    { pose proof (f_equal snd Hsame : generations w3 (exec w3) = generations w0 (exec w0)) as Hsnd. rewrite He30 in Hsnd. clearbody w3.
      unfold unmoved. pose proof (l_generations _ _ Hl0 (exec w0)). specialize (Hg3 (exec w0)). lia. }
    assert (on w3 = effect r (on w0)) as Hon3.
    { assert (current w3 = current w) as Hcc by (rewrite Hcur; unfold current; by rewrite (l_exec _ _ Hl0), Hu).
      rewrite <- (Hon Hu). unfold on. by rewrite Hcw, Hcc. }
    assert (forall D', agree D' (on w0) (wanted w0) -> agree (without D' r) (on w3) (wanted w3)) as Hagree.
    { intros D' Ha. unfold wanted at 1. rewrite Hs3, Heff, Hon3. fold (wanted w). rewrite <- Hw0. by apply effect_agree. }
    assert (base (without D r) w3) as Hbase.
    { assert (w3 = set_last (last w3) w3) as Hself by (by destruct w3). rewrite Hself. apply Hb3; intros s; rewrite Hl; by intros [= <-]. }
    split; [done|]. split_and!; [|split|done].
    + intros [?|Hlast]; [done|]. split; [done|]. intros _. apply Hagree, (i_agree _ _ Hi0). by rewrite <- (l_last _ _ Hl0).
    + by apply (base_weaken (without D r)).
    + intros _. apply (Hagree (with_tracked D w)). unfold with_tracked. rewrite <- Hw0. apply within_agree, (b_within _ _ (i_base _ _ Hi0)).
  - destruct (reconnectAndReplay (set_last (Some (current w0)) w3)) as [err0 w4] eqn:Hr. injection H as <- <- <-.
    assert (base (without D r) (set_last (Some (current w0)) w3)) as Hb4.
    { apply Hb3; intros s [= <-]; cbn; [|done]. etrans; [apply (l_generations _ _ Hl0)|apply Hg3]. }
    assert (stale (set_last (Some (current w0)) w3)) as Hst.
    { eapply not_current_stale; [exact Hb4|]. intros Heq. apply Hsame. symmetry. exact (f_equal (default (current w0)) Heq). }
    destruct (reconnectAndReplay_inv (without D r) _ _ _ Hr (stale_inv _ _ Hb4 Hst)) as (Hi4 & Hs4 & Hl4).
    split; [by rewrite Hs4|]. split_and!; [done|by eapply inv_weaken|done].
Qed.

Lemma doubt_with D r w : inv D w -> inv (with_request D r) w.
Proof. apply inv_weaken. by left. Qed.

Lemma requestWithReplay_inv D r w res w' : requestWithReplayRetryLocked r w = (res, w') -> inv D w ->
  inv (with_request D r) w' /\ state w' = state w /\ (forall value s, res = Ok (value, s) -> answeredAt (with_request D r) r s w').
Proof.
  unfold requestWithReplayRetryLocked. intros H Hi. destruct (reconnectAndReplay w) as [err w1] eqn:Hr.
  destruct (reconnectAndReplay_inv D _ _ _ Hr Hi) as (Hi1 & Hs1 & _). apply (doubt_with _ r) in Hi1.
  destruct err; [by injection H as <- <-|]. apply (viewRequestLoop_inv (with_request D r)) in H as (? & ? & ?); [|by right|done].
  split_and!; [done|congruence|done].
Qed.

(** A view: its calls, whatever they return, and the connections that come in between.
    [D] are the topics in doubt: those of requests that failed, and may have been
    executed, and all that was tracked before a call whose connection was replaced
    unnoticed between the replay and the stamp of its request ([R_missed]). A doubt is
    about one connection: a new one has nothing. *)
Inductive reach : doubt -> world -> Prop :=
| R_start D w : state w = noSubscriptions -> last w = None -> (forall s, conns w s = fresh server) -> reach D w
| R_connection D w e : reach D w -> reach D (reconnected w e)
| R_new D w : reach D w -> last w <> Some (current w) -> conns w (current w) = fresh server -> reach (fun _ => False) w
| R_external D w err w' : reach D w -> replayAfterExternalReconnect w = (err, w') -> reach D w'
| R_replay D w err w' : reach D w -> reconnectAndReplay w = (err, w') -> reach D w'
| R_refused D w r err w' : reach D w -> requestWithReplayRetryLocked r w = (Err err, w') -> reach (with_request D r) w'
| R_invalid D w r a w' : reach D w -> requestWithReplayRetryLocked r w = (Ok a, w') -> reach (with_request D r) w'
| R_ok D w r value s w1 re err w' : reach D w ->
    requestWithReplayRetryLocked r w = (Ok (value, s), w1) -> finishRequest r s w1 = (re, err, w') ->
    re = true \/ last w1 = Some s -> reach (without D r) w'
| R_missed D w r value s w1 re err w' : reach D w ->
    requestWithReplayRetryLocked r w = (Ok (value, s), w1) -> finishRequest r s w1 = (re, err, w') ->
    re = false /\ last w1 <> Some s -> reach (without (with_tracked D w) r) w'.

Lemma reach_ok D r value s w : reach D w -> (requestWithReplayRetryLocked r w).1 = Ok (value, s) ->
  last (requestWithReplayRetryLocked r w).2 = Some s -> reach (without D r) (finishRequest r s (requestWithReplayRetryLocked r w).2).2.
Proof.
  intros Hr Hv Hl. destruct (requestWithReplayRetryLocked r w) as [a w1] eqn:Hq. cbn [fst snd] in *. subst a.
  destruct (finishRequest r s w1) as [[re err] w2] eqn:Hf. eapply R_ok; [done..|by right].
Qed.

(** The replay on its own. *)
Lemma reach_replay_ok D w : reach D w -> (reconnectAndReplay w).1 = None -> reconnectAndReplay w = (None, (reconnectAndReplay w).2).
Proof. intros _ H. destruct (reconnectAndReplay w). cbn in *. by subst. Qed.

Lemma new_connection_inv D w : inv D w -> last w <> Some (current w) -> conns w (current w) = fresh server -> inv (fun _ => False) w.
Proof.
  intros [Hb _] Hl Hf. apply stale_inv; [|by eapply not_current_stale]. destruct Hb. constructor; try done. by apply view_fresh_within.
Qed.

Lemma answered_inv D w r value s w1 re err w' : inv D w ->
  requestWithReplayRetryLocked r w = (Ok (value, s), w1) -> finishRequest r s w1 = (re, err, w') ->
  (re = true \/ last w1 = Some s -> inv (without D r) w') /\ inv (without (with_tracked D w) r) w'.
Proof.
  intros Hi H Hf. destruct (requestWithReplay_inv D _ _ _ _ H Hi) as (Hi1 & Hs1 & Ha).
  destruct (finishRequest_inv _ _ _ _ _ _ _ Hf Hi1 (Ha _ _ eq_refl)) as (_ & Hok & Hmiss & _). split.
  - intros Hl. eapply inv_weaken; [|by apply Hok]. intros k [[?|?] ?]; by try split.
  - eapply inv_weaken; [|exact Hmiss]. unfold without, with_tracked, with_request, wanted. rewrite Hs1.
    intros k [[[?|?]|?] Hk]; [by split; [left|]|done|by split; [right|]].
Qed.

Lemma reach_inv D w : reach D w -> inv D w.
Proof.
  induction 1 as [D w Hs Hl Hc|D w e _ IH|D w _ IH Hl Hf|D w err w' _ IH H|D w err w' _ IH H|D w r err w' _ IH H|D w r a w' _ IH H
    |D w r value s w1 re err w' _ IH H Hf Hl|D w r value s w1 re err w' _ IH H Hf _].
  - apply stale_inv; [constructor|].
    + rewrite Hs. split; [constructor|]. intros p Hp. by apply not_elem_of_nil in Hp.
    + by intros.
    + by intros.
    + by apply view_fresh_within.
    + rewrite Hl. by intros.
    + rewrite Hl. by intros.
    + intros s. by rewrite Hl.
  - by apply reconnected_inv.
  - by eapply new_connection_inv.
  - by apply (external_inv D) in H as [? _].
  - by apply (reconnectAndReplay_inv D) in H as [? _].
  - by apply (requestWithReplay_inv D) in H as [? _].
  - by apply (requestWithReplay_inv D) in H as [? _].
  - by eapply answered_inv.
  - by eapply answered_inv.
Qed.

(** C31: Whenever the last stamp of a view is that of its current connection, the connection
    is subscribed to exactly what the view tracks: channels, patterns, shard channels, and
    events with their filters. Excepted are, as long as the connection stays, the topics of
    requests that failed and may have been executed, and those tracked before a call during
    which the connection was replaced unnoticed ([subscription_lost]). This holds after any
    calls, failures, reconnections and changes of the executor. *)
Theorem subscriptions_restored D w : reach D w -> last w = Some (current w) ->
  forall k, ~ D k -> view server (conns w (current w)) !! k = trackedTopics (state w) !! k.
Proof. intros [_ Ha]%reach_inv Hl k Hk. by apply Ha. Qed.

(** A replay that succeeds ends on the current connection with everything tracked. *)
Theorem replay_restores D w w' : reach D w -> reconnectAndReplay w = (None, w') ->
  state w' = state w /\ last w' = Some (current w') /\
  forall k, ~ D k -> view server (conns w' (current w')) !! k = trackedTopics (state w) !! k.
Proof.
  intros Hi%reach_inv H. apply (reconnectAndReplay_inv D) in H as ([_ Ha] & Hs & Hl); [|done]. specialize (Hl eq_refl).
  split_and!; [done|done|]. rewrite <- Hs. by apply Ha.
Qed.

Definition requestOf (subscribe : bool) (kind : subKind) (targets : list gstr) : subRequest :=
  if subscribe then Subscribe kind targets else Unsubscribe kind targets.

(** The public calls are calls of [reach], whatever they return. *)
Lemma answered_reach D r w value s w1 re err w' : reach D w -> requestWithReplayRetryLocked r w = (Ok (value, s), w1) ->
  finishRequest r s w1 = (re, err, w') -> exists D', reach D' w' /\ forall k, D' k -> with_tracked D w k /\ ~ touches r k.
Proof.
  intros Hr Hq Hf. destruct (decide (re = true \/ last w1 = Some s)) as [Hl|Hl].
  - exists (without D r). split; [by eapply R_ok|]. intros k [? ?]. split; [by left|done].
  - exists (without (with_tracked D w) r). split; [|done]. eapply R_missed; [done..|]. split; [|by intros ?; apply Hl; right].
    destruct re; [|done]. destruct Hl. by left.
Qed.

Lemma pubsubCommand_reach D subscribe kind targets w res w' : reach D w -> pubsubCommand subscribe kind targets w = (res, w') ->
  exists D', reach D' w'.
Proof.
  intros Hr. unfold pubsubCommand. fold (requestOf subscribe kind targets).
  destruct (requestWithReplayRetryLocked _ w) as [[[value s]|err] w1] eqn:Hq; [|intros [= _ <-]; eexists; by eapply R_refused].
  destruct (pubSubAcknowledgementFromNative _ _ _ _); [|intros [= _ <-]; eexists; by eapply R_invalid].
  destruct (finishRequest _ s w1) as [[re err] w2] eqn:Hf. intros H.
  assert (w' = w2) as -> by (destruct re, err; by injection H).
  destruct (answered_reach _ _ _ _ _ _ _ _ _ Hr Hq Hf) as (D' & HD & _). by exists D'.
Qed.

Lemma eventSubscription_reach D r w res w' : reach D w -> eventSubscription r w = (res, w') -> exists D', reach D' w'.
Proof.
  intros Hr. unfold eventSubscription.
  destruct (requestWithReplayRetryLocked r w) as [[[value s]|err] w1] eqn:Hq; [|intros [= _ <-]; eexists; by eapply R_refused].
  destruct (decodeSubscription value); [|intros [= _ <-]; eexists; by eapply R_invalid].
  destruct (finishRequest _ s w1) as [[re err] w2] eqn:Hf. intros H.
  assert (w' = w2) as -> by (destruct re, err; by injection H).
  destruct (answered_reach _ _ _ _ _ _ _ _ _ Hr Hq Hf) as (D' & HD & _). by exists D'.
Qed.
End View.

(** ** A run, and the gap *)

(** A server that keeps the topics of a connection. *)
Program Definition topicServer : pubSubServer := PubSubServer desired ∅ effect (fun c => c) _ _.
Solve All Obligations with done.

Definition acknowledged (target : gstr) (count : Z) : answer :=
  Served (VArray None [VString (go "subscribe"); VString target; VInt IInt64 count]).

(** New connections before the interactions [at_], and the answers of two subscriptions. *)
Definition sample_oracle (at_ : list nat) (n : nat) : viewTurn :=
  Turn (if bool_decide (n ∈ at_) then [0%nat] else []) Connected
    (if (n <? 9)%nat then acknowledged (go "a") 1 else acknowledged (go "b") 2) true.

Definition sample_start : world topicServer := World topicServer 0 0 (fun _ => 0%nat) (fun _ => ∅) noSubscriptions None.

Definition sample_first (at_ : list nat) := pubsubCommand topicServer (fun _ => []) 1 (sample_oracle at_) true Channels [go "a"] sample_start.
Definition sample_second (at_ : list nat) :=
  pubsubCommand topicServer (fun _ => []) 1 (sample_oracle at_) true Channels [go "b"] (sample_first at_).2.

(** A connection that is replaced after the replay of a call and before the call reads
    the stamp of its request goes unnoticed: both subscriptions succeed and the view takes
    the new connection for replayed, but it only has the second one. *)
Theorem subscription_lost :
  (exists m1 m2, (sample_first [0; 12]%nat).1 = Ok m1 /\ (sample_second [0; 12]%nat).1 = Ok m2) /\
  let w := (sample_second [0; 12]%nat).2 in
  last topicServer w = Some (current topicServer w) /\
  trackedTopics (state topicServer w) !! Named Channels (go "a") = Some None /\
  (conns topicServer w (current topicServer w) : desired) !! Named Channels (go "a") = None.
Proof. split; [do 2 eexists; split; vm_compute; reflexivity|]. split_and!; vm_compute; reflexivity. Qed.

(** The first subscription on its own. *)
Definition sample_request : subRequest := Subscribe Channels [go "a"].
Definition sample_asked := requestWithReplayRetryLocked topicServer 1 (sample_oracle [0%nat]) sample_request sample_start.
Definition sample_done := finishRequest topicServer 1 (sample_oracle [0%nat]) sample_request (0, 1)%nat sample_asked.2.
Definition sample_doubt : topic -> Prop := without (fun _ => False) sample_request.

Lemma sample_reach : reach topicServer 1 (sample_oracle [0%nat]) sample_doubt sample_done.2.
Proof.
  apply (reach_ok topicServer 1 (sample_oracle [0%nat]) (fun _ => False) sample_request
    (VArray None [VString (go "subscribe"); VString (go "a"); VInt IInt64 1])); [by apply R_start|vm_compute; reflexivity|vm_compute; reflexivity].
Qed.

Lemma sample_known k : ~ sample_doubt k.
Proof. by intros [? _]. Qed.

Lemma subscriptions_restored_witness :
  last topicServer sample_done.2 = Some (0, 1)%nat /\
  view topicServer (conns topicServer sample_done.2 (current topicServer sample_done.2)) !! Named Channels (go "a") = Some None.
Proof.
  assert (last topicServer sample_done.2 = Some (current topicServer sample_done.2)) as Hl by (vm_compute; reflexivity).
  split; [vm_compute; reflexivity|].
  etrans; [exact (subscriptions_restored topicServer 1 (sample_oracle [0%nat]) _ _ sample_reach Hl _ (sample_known _))|]. vm_compute. reflexivity.
Defined.

(** A new connection, and the replay on it. *)
Abbreviation sample_replayed := (reconnectAndReplay topicServer 1 (sample_oracle [0%nat]) (reconnected topicServer sample_done.2 0%nat)).

Lemma replay_restores_witness :
  sample_replayed.1 = None /\ last topicServer sample_replayed.2 = Some (0, 2)%nat /\
  view topicServer (conns topicServer sample_replayed.2 (current topicServer sample_replayed.2)) !! Named Channels (go "a") = Some None.
Proof.
  assert (sample_replayed.1 = None) as H1 by (vm_compute; reflexivity).
  pose proof (R_connection topicServer 1 (sample_oracle [0%nat]) _ _ 0%nat sample_reach) as Hr.
  destruct (replay_restores topicServer 1 (sample_oracle [0%nat]) _ _ sample_replayed.2 Hr
    (reach_replay_ok topicServer 1 (sample_oracle [0%nat]) _ _ Hr H1)) as (_ & _ & H).
  split; [exact H1|]. split; [vm_compute; reflexivity|]. etrans; [exact (H _ (sample_known _))|]. vm_compute. reflexivity.
Defined.
