(* ===== verification/PubSubEvents.v ===== *)
(** The events of a Pub/Sub view (src/pubsub_events.go): messages and native events come
    over one stream and are handed to two kinds of callers. One caller reads the stream at a
    time and queues what is not for it; the others sleep on a channel.

    One definition per critical section of the event lock; callers interleave them. Sleepers
    wait for a channel that a change closes and replaces: channels are numbered, and all but
    the current one are closed. *)

From S2P Require Export PubSub.

Inductive pubSubEventKind := pubSubRedisEvent | pubSubNativeEvent.

#[global] Instance pubSubEventKind_eq_dec : EqDecision pubSubEventKind.
Proof. solve_decision. Defined.

(** A GOAWAY frame, and a map that is no message, is for the readers of native events. *)
Definition classifyPubSubServerEvent (value : nativeServerEvent) : pubSubEventKind :=
  let goAway := match value with ServerEvent _ _ opcode _ _ => opcode =? nativeOpGoAway | Plain _ => false end in
  if goAway then pubSubNativeEvent
  else match nativeServerEventValue value with
  | VMap _ _ as raw =>
      match nativeEventFromValue raw with
      | Ok event => if equal_fold (ev_Name event) (go "PUBSUB_MESSAGE") then pubSubRedisEvent else pubSubNativeEvent
      | Err _ => pubSubNativeEvent
      end
  | _ => pubSubRedisEvent
  end.

Definition nativeEventBufferCapacity : Z := 4096.
Definition nativeMaxBufferedEventBytes : Z := 16 * 1024 * 1024.

Record nativeQueuedEvent := Queued { q_value : nativeServerEvent; q_bytes : Z }.

(** ** State *)

(** A caller of [nextDemultiplexedEvent]. *)
Inductive caller :=
| Entering (want : pubSubEventKind)
| Reading (want : pubSubEventKind)                 (* [readNextServerEvent] *)
| Sleeping (want : pubSubEventKind) (channel : nat)
| Returned (want : pubSubEventKind) (event : option nativeServerEvent).

Record demux := Demux {
  eventReading : bool;
  eventChanged : option nat;
  channelsMade : nat;
  messageEvents : list nativeQueuedEvent;
  nativeEvents : list nativeQueuedEvent;
  eventBufferedBytes : Z;
  droppedEvents : nat;
  callers : gmap nat caller;
  taken : list nativeServerEvent;       (* read from the stream and not dropped, in order *)
  given : list nativeServerEvent;       (* returned to callers, in order *)
}.

Definition newDemux : demux := Demux false None 0 [] [] 0 0 ∅ [] [].

Definition queueOf (kind : pubSubEventKind) (d : demux) : list nativeQueuedEvent :=
  match kind with pubSubRedisEvent => messageEvents d | pubSubNativeEvent => nativeEvents d end.

Definition set_queue (kind : pubSubEventKind) (q : list nativeQueuedEvent) (bytes : Z) (d : demux) : demux :=
  match kind with
  | pubSubRedisEvent => Demux (eventReading d) (eventChanged d) (channelsMade d) q (nativeEvents d) bytes (droppedEvents d) (callers d) (taken d) (given d)
  | pubSubNativeEvent => Demux (eventReading d) (eventChanged d) (channelsMade d) (messageEvents d) q bytes (droppedEvents d) (callers d) (taken d) (given d)
  end.

Definition set_reading (b : bool) (d : demux) : demux :=
  Demux b (eventChanged d) (channelsMade d) (messageEvents d) (nativeEvents d) (eventBufferedBytes d) (droppedEvents d) (callers d) (taken d) (given d).
Definition set_changed (c : option nat) (n : nat) (d : demux) : demux :=
  Demux (eventReading d) c n (messageEvents d) (nativeEvents d) (eventBufferedBytes d) (droppedEvents d) (callers d) (taken d) (given d).
Definition set_dropped (n : nat) (d : demux) : demux :=
  Demux (eventReading d) (eventChanged d) (channelsMade d) (messageEvents d) (nativeEvents d) (eventBufferedBytes d) n (callers d) (taken d) (given d).
Definition set_caller (i : nat) (c : caller) (d : demux) : demux :=
  Demux (eventReading d) (eventChanged d) (channelsMade d) (messageEvents d) (nativeEvents d) (eventBufferedBytes d) (droppedEvents d)
    (<[i := c]> (callers d)) (taken d) (given d).
Definition log_taken (e : nativeServerEvent) (d : demux) : demux :=
  Demux (eventReading d) (eventChanged d) (channelsMade d) (messageEvents d) (nativeEvents d) (eventBufferedBytes d) (droppedEvents d)
    (callers d) (taken d ++ [e]) (given d).
Definition log_given (e : nativeServerEvent) (d : demux) : demux :=
  Demux (eventReading d) (eventChanged d) (channelsMade d) (messageEvents d) (nativeEvents d) (eventBufferedBytes d) (droppedEvents d)
    (callers d) (taken d) (given d ++ [e]).

(** ** Critical sections *)

Definition queueDemultiplexedEventLocked (kind : pubSubEventKind) (value : nativeServerEvent) (d : demux) : demux :=
  let size := nativeBufferedEventSize value in
  let count := blen (messageEvents d) + blen (nativeEvents d) in
  if (nativeEventBufferCapacity <=? count) || (nativeMaxBufferedEventBytes - eventBufferedBytes d <? size)
  then set_dropped (S (droppedEvents d)) d
  else log_taken value (set_queue kind (queueOf kind d ++ [Queued value size]) (eventBufferedBytes d + size) d).

Definition popDemultiplexedEventLocked (kind : pubSubEventKind) (d : demux) : option (nativeServerEvent * demux) :=
  match queueOf kind d with
  | [] => None
  | event :: rest =>
      let bytes := eventBufferedBytes d - q_bytes event in
      Some (q_value event, set_queue kind rest (if bytes <? 0 then 0 else bytes) d)
  end.

Definition demultiplexedEventChangedLocked (d : demux) : nat * demux :=
  match eventChanged d with
  | Some c => (c, d)
  | None => (channelsMade d, set_changed (Some (channelsMade d)) (S (channelsMade d)) d)
  end.

Definition signalDemultiplexedEventLocked (d : demux) : demux :=
  match eventChanged d with
  | None => d
  | Some _ => set_changed (Some (channelsMade d)) (S (channelsMade d)) d
  end.

(** The top of the loop. *)
Definition enterLoop (i : nat) (want : pubSubEventKind) (d : demux) : demux :=
  match popDemultiplexedEventLocked want d with
  | Some (value, d) => log_given value (set_caller i (Returned want (Some value)) d)
  | None =>
      if eventReading d then let (c, d) := demultiplexedEventChangedLocked d in set_caller i (Sleeping want c) d
      else set_caller i (Reading want) (set_reading true d)
  end.

(** The event, or the error, of [readNextServerEvent]. *)
Definition finishRead (i : nat) (want : pubSubEventKind) (value : option nativeServerEvent) (d : demux) : demux :=
  let d := signalDemultiplexedEventLocked (set_reading false d) in
  match value with
  | None => set_caller i (Returned want None) d
  | Some value =>
      let kind := classifyPubSubServerEvent value in
      if decide (kind = want) then log_given value (log_taken value (set_caller i (Returned want (Some value)) d))
      else set_caller i (Entering want) (queueDemultiplexedEventLocked kind value d)
  end.

Inductive demux_step : demux -> demux -> Prop :=
| D_call d i want : callers d !! i = None -> demux_step d (set_caller i (Entering want) d)
| D_enter d i want : callers d !! i = Some (Entering want) -> demux_step d (enterLoop i want d)
| D_read d i want value : callers d !! i = Some (Reading want) -> demux_step d (finishRead i want value d)
| D_wake d i want c : callers d !! i = Some (Sleeping want c) -> eventChanged d <> Some c -> demux_step d (set_caller i (Entering want) d)
| D_cancel d i want c : callers d !! i = Some (Sleeping want c) -> demux_step d (set_caller i (Returned want None) d).

Definition demux_reachable : demux -> Prop := rtc demux_step newDemux.

(** ** Invariants *)

Definition ofKind (kind : pubSubEventKind) (l : list nativeServerEvent) : list nativeServerEvent :=
  List.filter (fun e => bool_decide (classifyPubSubServerEvent e = kind)) l.

Record demux_inv (d : demux) : Prop := {
  (* the flag is the one reader *)
  v_reader : forall i want, callers d !! i = Some (Reading want) -> eventReading d = true /\ queueOf want d = [];
  v_one : forall i j wi wj, callers d !! i = Some (Reading wi) -> callers d !! j = Some (Reading wj) -> i = j;
  v_reading : eventReading d = true -> exists i want, callers d !! i = Some (Reading want);
  (* a sleeper on the current channel has nothing to take, and a reader to wait for *)
  v_sleeper : forall i want c, callers d !! i = Some (Sleeping want c) -> (c < channelsMade d)%nat /\
    (eventChanged d = Some c -> queueOf want d = [] /\ eventReading d = true);
  v_channel : forall c, eventChanged d = Some c -> (c < channelsMade d)%nat;
  (* what was taken is given or queued, in order *)
  v_order : forall kind, ofKind kind (given d) ++ (q_value <$> queueOf kind d) = ofKind kind (taken d);
  v_kinds : forall kind e, e ∈ queueOf kind d -> classifyPubSubServerEvent (q_value e) = kind /\ q_bytes e = nativeBufferedEventSize (q_value e);
  v_bytes : eventBufferedBytes d = zsum (q_bytes <$> messageEvents d) + zsum (q_bytes <$> nativeEvents d);
  v_room : eventBufferedBytes d <= nativeMaxBufferedEventBytes;
  v_count : blen (messageEvents d) + blen (nativeEvents d) <= nativeEventBufferCapacity;
  v_returned : forall i want e, callers d !! i = Some (Returned want (Some e)) -> classifyPubSubServerEvent e = want /\ e ∈ given d;
}.

Lemma event_size_pos e : 0 < nativeBufferedEventSize e.
Proof.
  unfold nativeBufferedEventSize. destruct e as [v|f l o v w]; cbv zeta;
    destruct v; repeat match goal with |- context [Z.ltb ?a ?b] => destruct (Z.ltb_spec a b) end; lia.
Qed.

Lemma zsum_sizes_pos (q : list nativeQueuedEvent) : (forall e, e ∈ q -> q_bytes e = nativeBufferedEventSize (q_value e)) -> 0 <= zsum (q_bytes <$> q).
Proof.
  intros H. induction q as [|e q IH]; [done|]. cbn. specialize (H e ltac:(by left)) as He. cbn in IH.
  pose proof (event_size_pos (q_value e)). unfold zsum in *. rewrite He. specialize (IH (fun e' H' => H e' ltac:(by right))). lia.
Qed.

Lemma bytes_cons e (q : list nativeQueuedEvent) : zsum (q_bytes <$> e :: q) = q_bytes e + zsum (q_bytes <$> q).
Proof. done. Qed.

Lemma bytes_snoc (q : list nativeQueuedEvent) e : zsum (q_bytes <$> q ++ [e]) = zsum (q_bytes <$> q) + q_bytes e.
Proof. rewrite fmap_app, zsum_app. unfold zsum. cbn. lia. Qed.

Lemma queueOf_set kind kind' q bytes d : queueOf kind (set_queue kind' q bytes d) = if decide (kind = kind') then q else queueOf kind d.
Proof. by destruct kind, kind'. Qed.

Lemma pop_spec want d value d' : demux_inv d -> popDemultiplexedEventLocked want d = Some (value, d') ->
  exists e rest, queueOf want d = e :: rest /\ value = q_value e /\ d' = set_queue want rest (eventBufferedBytes d - q_bytes e) d.
Proof.
  intros [] H. unfold popDemultiplexedEventLocked in H. destruct (queueOf want d) as [|e rest] eqn:Hq; [done|]. injection H as <- <-.
  exists e, rest. split; [done|]. split; [done|]. destruct (Z.ltb_spec (eventBufferedBytes d - q_bytes e) 0) as [Hneg|]; [|done]. exfalso.
  assert (0 <= zsum (q_bytes <$> messageEvents d)) by (apply zsum_sizes_pos; intros e' He'; by apply (v_kinds0 pubSubRedisEvent)).
  assert (0 <= zsum (q_bytes <$> nativeEvents d)) by (apply zsum_sizes_pos; intros e' He'; by apply (v_kinds0 pubSubNativeEvent)).
  assert (0 <= zsum (q_bytes <$> rest)).
  { apply zsum_sizes_pos; intros e' He'. apply (v_kinds0 want). rewrite Hq. by right. }
  destruct want; cbn [queueOf] in Hq; rewrite Hq, bytes_cons in v_bytes0; lia.
Qed.

Lemma ofKind_app kind l k : ofKind kind (l ++ k) = ofKind kind l ++ ofKind kind k.
Proof. unfold ofKind. apply List.filter_app. Qed.

Lemma ofKind_one kind e : ofKind kind [e] = if decide (classifyPubSubServerEvent e = kind) then [e] else [].
Proof. unfold ofKind. cbn. by case_bool_decide; destruct (decide _). Qed.

(** Callers after a change of one of them. *)
Ltac callers := repeat match goal with
  | H : <[_ := _]> _ !! _ = Some _ |- _ => apply lookup_insert_Some in H as [[? ?]|[? H]]; simplify_eq
  end.

Ltac demux := cbn [set_caller set_reading set_changed set_dropped log_taken log_given eventReading eventChanged channelsMade messageEvents
  nativeEvents eventBufferedBytes droppedEvents callers taken given queueOf] in *.

(** A caller that neither reads nor is asleep changes. *)
Lemma inv_set_caller d i c : demux_inv d -> (forall want, callers d !! i <> Some (Reading want)) ->
  match c with Entering _ | Returned _ None => True | _ => False end -> demux_inv (set_caller i c d).
Proof.
  intros [H1 H2 H3 H4 H5 H6 H7 H8 H9 H10 H11] Hi Hc. constructor; demux; try done.
  - intros j want Hj. callers; [done|]. by apply H1 in Hj.
  - intros j k wj wk Hj Hk. callers; try done. by eapply H2.
  - intros Hr. destruct (H3 Hr) as (j & want & Hj). exists j, want. rewrite lookup_insert_ne; [done|]. intros ->. by apply Hi in Hj.
  - intros j want c' Hj. callers; [done|]. by apply H4 in Hj.
  - intros j want e Hj. callers; [done|]. by apply H11 in Hj.
Qed.

Lemma inv_pop d want e rest : demux_inv d -> queueOf want d = e :: rest ->
  demux_inv (log_given (q_value e) (set_queue want rest (eventBufferedBytes d - q_bytes e) d)).
Proof.
  intros [H1 H2 H3 H4 H5 H6 H7 H8 H9 H10 H11] Hq.
  pose proof (H7 want e ltac:(rewrite Hq; by left)) as [Hk Hb]. pose proof (event_size_pos (q_value e)) as Hpos. rewrite <- Hb in Hpos.
  pose (d' := log_given (q_value e) (set_queue want rest (eventBufferedBytes d - q_bytes e) d)). fold d'.
  assert (forall w, queueOf w d' = if decide (w = want) then rest else queueOf w d) as Hqueue by (intros w; unfold d'; by destruct want, w).
  assert (eventReading d' = eventReading d /\ eventChanged d' = eventChanged d /\ channelsMade d' = channelsMade d /\ callers d' = callers d /\
    taken d' = taken d /\ given d' = given d ++ [q_value e] /\ eventBufferedBytes d' = eventBufferedBytes d - q_bytes e) as (E1 & E2 & E3 & E4 & E5 & E6 & E7)
    by (unfold d'; by destruct want).
  assert (forall w, queueOf w d = [] -> queueOf w d' = []) as Hempty.
  { intros w Hw. rewrite Hqueue. destruct (decide (w = want)) as [->|]; [congruence|done]. }
  constructor; rewrite ?E1, ?E2, ?E3, ?E4, ?E5, ?E6, ?E7; try done.
  - intros i w Hi. destruct (H1 i w Hi). split; [done|by apply Hempty].
  - intros i w c Hi. destruct (H4 i w c Hi) as [? Hs]. split; [done|]. intros Hc. destruct (Hs Hc). split; [by apply Hempty|done].
  - intros kind. specialize (H6 kind). rewrite Hqueue, ofKind_app, ofKind_one, <- app_assoc, <- H6. f_equal.
    destruct (decide (kind = want)) as [->|Hne]; [by rewrite decide_True, Hq by done|]. by rewrite decide_False by congruence.
  - intros kind e'. rewrite Hqueue. destruct (decide (kind = want)) as [->|]; [|apply H7]. intros He. apply H7. rewrite Hq. by right.
  - pose proof (Hqueue pubSubRedisEvent) as Q1. pose proof (Hqueue pubSubNativeEvent) as Q2. cbn [queueOf] in Q1, Q2. rewrite Q1, Q2, H8.
    destruct want; cbn [queueOf] in Hq; rewrite Hq, bytes_cons; repeat destruct (decide _); try done; lia.
  - lia.
  - pose proof (Hqueue pubSubRedisEvent) as Q1. pose proof (Hqueue pubSubNativeEvent) as Q2. cbn [queueOf] in Q1, Q2. rewrite Q1, Q2.
    destruct want; cbn [queueOf] in Hq; rewrite Hq in H10; repeat destruct (decide _); try done; unfold blen in *; cbn [length] in *; lia.
  - intros i w e' Hi. destruct (H11 i w e' Hi). split; [done|]. apply elem_of_app. by left.
Qed.

(** Returning an event that has been given. *)
Lemma inv_return d i want e : demux_inv d -> (forall w, callers d !! i <> Some (Reading w)) ->
  classifyPubSubServerEvent e = want -> e ∈ given d -> demux_inv (set_caller i (Returned want (Some e)) d).
Proof.
  intros [H1 H2 H3 H4 H5 H6 H7 H8 H9 H10 H11] Hi Hk Hg. constructor; demux; try done.
  - intros j w Hj. callers. by apply H1 in Hj.
  - intros j k wj wk Hj Hk'. callers. by eapply H2.
  - intros Hr. destruct (H3 Hr) as (j & w & Hj). exists j, w. rewrite lookup_insert_ne; [done|]. intros ->. by apply Hi in Hj.
  - intros j w c' Hj. callers. by apply H4 in Hj.
  - intros j w e' Hj. callers; [done|]. by apply H11 in Hj.
Qed.

Lemma inv_enter d i want : callers d !! i = Some (Entering want) -> demux_inv d -> demux_inv (enterLoop i want d).
Proof.
  intros Hi Hd. unfold enterLoop. destruct (popDemultiplexedEventLocked want d) as [[value d']|] eqn:Hp.
  - apply (pop_spec want d value d' Hd) in Hp as (e & rest & Hq & -> & ->).
    pose proof (v_kinds d Hd want e ltac:(rewrite Hq; by left)) as [Hk _]. pose proof (inv_pop d want e rest Hd Hq) as Hd'.
    replace (log_given (q_value e) (set_caller i _ _)) with
      (set_caller i (Returned want (Some (q_value e))) (log_given (q_value e) (set_queue want rest (eventBufferedBytes d - q_bytes e) d)))
      by (by destruct want).
    apply inv_return; [done|destruct want; demux; cbn [set_queue callers]; rewrite Hi; done|done|]. destruct want; cbn; apply elem_of_app; right; by left.
  - assert (queueOf want d = []) as Hq by (unfold popDemultiplexedEventLocked in Hp; by destruct (queueOf want d)).
    destruct Hd as [H1 H2 H3 H4 H5 H6 H7 H8 H9 H10 H11]. destruct (eventReading d) eqn:Hr.
    + unfold demultiplexedEventChangedLocked. destruct (eventChanged d) as [c|] eqn:Hc.
      * constructor; demux; rewrite ?Hc, ?Hr in *; try done.
        -- intros j w Hj. callers. by apply H1 in Hj.
        -- intros j k wj wk Hj Hk'. callers. by eapply H2.
        -- intros _. destruct (H3 eq_refl) as (j & w & Hj). exists j, w. rewrite lookup_insert_ne; [done|]. intros ->. congruence.
        -- intros j w c' Hj. callers; [by split; [apply H5|]|by apply H4 in Hj].
        -- intros j w e' Hj. callers. by apply H11 in Hj.
      * constructor; demux; rewrite ?Hc, ?Hr in *; try done.
        -- intros j w Hj. callers. by apply H1 in Hj.
        -- intros j k wj wk Hj Hk'. callers. by eapply H2.
        -- intros _. destruct (H3 eq_refl) as (j & w & Hj). exists j, w. rewrite lookup_insert_ne; [done|]. intros ->. congruence.
        -- intros j w c' Hj. callers; [by split; [lia|]|]. destruct (H4 _ _ _ Hj) as [? _]. split; [lia|]. intros [= <-]. lia.
        -- intros c [= <-]. lia.
        -- intros j w e' Hj. callers. by apply H11 in Hj.
    + assert (forall j w, callers d !! j <> Some (Reading w)) as Hnone by (intros j w Hj; apply H1 in Hj as [? _]; congruence).
      constructor; demux; try done.
      * intros j w Hj. callers; [done|]. by apply Hnone in Hj.
      * intros j k wj wk Hj Hk'. callers; try done; by (apply Hnone in Hj || apply Hnone in Hk').
      * intros _. exists i, want. by rewrite lookup_insert_eq.
      * intros j w c' Hj. callers. destruct (H4 _ _ _ Hj) as [? Hs]. split; [done|]. intros Hc. by destruct (Hs Hc).
      * intros j w e' Hj. callers. by apply H11 in Hj.
Qed.

(** The end of a reading: nobody reads, nobody sleeps on the current channel. *)
Definition quiet (d : demux) : Prop :=
  eventReading d = false /\ forall i want c, callers d !! i = Some (Sleeping want c) -> eventChanged d <> Some c.

Lemma inv_signal d i want : callers d !! i = Some (Reading want) -> demux_inv d ->
  let d' := set_caller i (Entering want) (signalDemultiplexedEventLocked (set_reading false d)) in
  demux_inv d' /\ quiet d' /\ queueOf want d' = [].
Proof.
  intros Hi [H1 H2 H3 H4 H5 H6 H7 H8 H9 H10 H11]. cbv zeta. destruct (H1 i want Hi) as [Hr Hq].
  assert (forall j w, callers d !! j = Some (Reading w) -> j = i) as Hone by (intros j w Hj; by eapply H2).
  unfold signalDemultiplexedEventLocked. demux. destruct (eventChanged d) as [c|] eqn:Hc; (split; [constructor; demux; try done|split; [split; demux; try done|by destruct want]]).
  - intros j w Hj. callers. by apply Hone in Hj.
  - intros j k wj wk Hj Hk'. callers; try done. apply Hone in Hj, Hk'. congruence.
  - intros j w c' Hj. callers. destruct (H4 _ _ _ Hj) as [? _]. split; [lia|]. intros [= <-]. lia.
  - intros c' [= <-]. lia.
  - intros j w e' Hj. callers. by apply H11 in Hj.
  - intros j w c' Hj. callers. destruct (H4 _ _ _ Hj) as [? _]. intros [= <-]. lia.
  - intros j w Hj. callers. by apply Hone in Hj.
  - intros j k wj wk Hj Hk'. callers; try done. apply Hone in Hj, Hk'. congruence.
  - intros j w c' Hj. callers. destruct (H4 _ _ _ Hj) as [? _]. split; [done|congruence].
  - intros c. congruence.
  - intros j w e' Hj. callers. by apply H11 in Hj.
  - congruence.
Qed.

Lemma inv_queue d kind value : demux_inv d -> quiet d -> classifyPubSubServerEvent value = kind ->
  demux_inv (queueDemultiplexedEventLocked kind value d).
Proof.
  intros [H1 H2 H3 H4 H5 H6 H7 H8 H9 H10 H11] [Hr Hsleep] Hk. unfold queueDemultiplexedEventLocked.
  destruct (Z.leb_spec nativeEventBufferCapacity (blen (messageEvents d) + blen (nativeEvents d))) as [|Hcount]; [by constructor|].
  destruct (Z.ltb_spec (nativeMaxBufferedEventBytes - eventBufferedBytes d) (nativeBufferedEventSize value)) as [|Hroom]; [by constructor|]. cbn [orb].
  pose (d' := log_taken value (set_queue kind (queueOf kind d ++ [Queued value (nativeBufferedEventSize value)])
    (eventBufferedBytes d + nativeBufferedEventSize value) d)). fold d'.
  assert (forall w, queueOf w d' = if decide (w = kind) then queueOf kind d ++ [Queued value (nativeBufferedEventSize value)] else queueOf w d) as Hqueue
    by (intros w; unfold d'; by destruct kind, w).
  assert (eventReading d' = eventReading d /\ eventChanged d' = eventChanged d /\ channelsMade d' = channelsMade d /\ callers d' = callers d /\
    taken d' = taken d ++ [value] /\ given d' = given d /\ eventBufferedBytes d' = eventBufferedBytes d + nativeBufferedEventSize value)
    as (E1 & E2 & E3 & E4 & E5 & E6 & E7) by (unfold d'; by destruct kind).
  pose proof (Hqueue pubSubRedisEvent) as Q1. pose proof (Hqueue pubSubNativeEvent) as Q2. cbn [queueOf] in Q1, Q2.
  constructor; rewrite ?E1, ?E2, ?E3, ?E4, ?E5, ?E6, ?E7; try done.
  - intros i w Hi. apply H1 in Hi as [? _]. congruence.
  - intros i w c Hi. destruct (H4 i w c Hi) as [? _]. split; [done|]. intros Hc. by apply Hsleep in Hi.
  - intros k. specialize (H6 k). rewrite Hqueue, ofKind_app, ofKind_one, <- H6, <- app_assoc. f_equal.
    destruct (decide (k = kind)) as [->|Hne].
    + by rewrite fmap_app, decide_True.
    + by rewrite decide_False, app_nil_r by congruence.
  - intros k e. rewrite Hqueue. destruct (decide (k = kind)) as [->|]; [|apply H7].
    intros [He|He%list_elem_of_singleton]%elem_of_app; [by apply H7|]. by subst e.
  - rewrite Q1, Q2, H8. destruct kind; cbn [queueOf]; repeat destruct (decide _); try done; rewrite bytes_snoc; cbn [q_bytes]; lia.
  - lia.
  - rewrite Q1, Q2. destruct kind; cbn [queueOf]; repeat destruct (decide _); try done; unfold blen in *; rewrite length_app; cbn [length]; lia.
Qed.

Lemma quiet_set_caller d i c : (forall w ch, c <> Sleeping w ch) -> quiet d -> quiet (set_caller i c d).
Proof. intros Hc [Hr Hs]. split; [done|]. intros j w ch Hj. demux. callers; [by destruct (Hc w ch)|]. by eapply Hs. Qed.

Lemma inv_finish d i want value : callers d !! i = Some (Reading want) -> demux_inv d -> demux_inv (finishRead i want value d).
Proof.
  intros Hi Hd. destruct (inv_signal d i want Hi Hd) as (Hd' & Hquiet & Hq). cbv zeta in *.
  set (d0 := signalDemultiplexedEventLocked (set_reading false d)) in *. unfold finishRead. fold d0.
  assert (forall c, set_caller i c d0 = set_caller i c (set_caller i (Entering want) d0)) as Hset
    by (intros c; unfold set_caller; cbn; by rewrite insert_insert_eq).
  assert (forall w, callers (set_caller i (Entering want) d0) !! i <> Some (Reading w)) as Hnone by (intros w; cbn; by rewrite lookup_insert_eq).
  destruct value as [value|].
  - destruct (decide (classifyPubSubServerEvent value = want)) as [<-|Hk].
    + rewrite Hset. set (d1 := set_caller i (Entering (classifyPubSubServerEvent value)) d0) in *.
      assert (demux_inv (log_given value (log_taken value d1))) as Hlog.
      { destruct Hd' as [H1 H2 H3 H4 H5 H6 H7 H8 H9 H10 H11]. constructor; demux; try done.
        - intros kind. specialize (H6 kind). rewrite !ofKind_app, !ofKind_one, <- H6. destruct (decide (_ = kind)) as [<-|]; [|by rewrite !app_nil_r].
          assert (queueOf (classifyPubSubServerEvent value) d1 = []) as Hq' by done.
          change (queueOf (classifyPubSubServerEvent value) (log_given value (log_taken value d1))) with (queueOf (classifyPubSubServerEvent value) d1).
          by rewrite Hq', !app_nil_r.
        - intros j w e Hj. destruct (H11 j w e Hj). split; [done|]. apply elem_of_app. by left. }
      replace (log_given value (log_taken value (set_caller i (Returned (classifyPubSubServerEvent value) (Some value)) d1))) with
        (set_caller i (Returned (classifyPubSubServerEvent value) (Some value)) (log_given value (log_taken value d1))) by done.
      apply inv_return; [done|done|done|]. cbn. apply elem_of_app. right. by left.
    + replace (set_caller i (Entering want) (queueDemultiplexedEventLocked (classifyPubSubServerEvent value) value d0)) with
        (queueDemultiplexedEventLocked (classifyPubSubServerEvent value) value (set_caller i (Entering want) d0)).
      * by apply inv_queue.
      * unfold queueDemultiplexedEventLocked. cbn [set_caller messageEvents nativeEvents eventBufferedBytes].
        destruct (_ || _); [done|]. by destruct (classifyPubSubServerEvent value).
  - rewrite Hset. by apply inv_set_caller.
Qed.

Lemma demux_step_inv d d' : demux_step d d' -> demux_inv d -> demux_inv d'.
Proof.
  intros Hs Hd. destruct Hs as [d i want Hi|d i want Hi|d i want value Hi|d i want c Hi Hc|d i want c Hi].
  - apply inv_set_caller; [done| |done]. intros w. by rewrite Hi.
  - by apply inv_enter.
  - by apply inv_finish.
  - apply inv_set_caller; [done| |done]. intros w. by rewrite Hi.
  - apply inv_set_caller; [done| |done]. intros w. by rewrite Hi.
Qed.

Lemma demux_reachable_inv d : demux_reachable d -> demux_inv d.
Proof.
  intros Hr. eapply (rtc_ind_r (fun d => demux_inv d)); [|intros ????; by eapply demux_step_inv|exact Hr].
  constructor; cbn; try done; try (intros []; done).
  intros [] e He; by apply not_elem_of_nil in He.
Qed.

(** ** What callers get *)

(** Of the events read from the stream and not dropped, each is returned to one caller,
    of its kind, in the order they were read, or waits in the queue of its kind; the queues
    hold no more events and bytes than the buffer may, and the byte counter is exact. *)
Theorem events_in_order d : demux_reachable d ->
  (forall kind, ofKind kind (given d) ++ (q_value <$> queueOf kind d) = ofKind kind (taken d)) /\
  (forall i want e, callers d !! i = Some (Returned want (Some e)) -> classifyPubSubServerEvent e = want /\ e ∈ given d) /\
  blen (messageEvents d) + blen (nativeEvents d) <= nativeEventBufferCapacity /\
  zsum (nativeBufferedEventSize ∘ q_value <$> messageEvents d) + zsum (nativeBufferedEventSize ∘ q_value <$> nativeEvents d)
    = eventBufferedBytes d /\ eventBufferedBytes d <= nativeMaxBufferedEventBytes.
Proof.
  intros [H1 H2 H3 H4 H5 H6 H7 H8 H9 H10 H11]%demux_reachable_inv. split_and!; [done|done|done| |done].
  rewrite H8. f_equal; f_equal; apply list_fmap_ext; intros j e He; symmetry; eapply H7, list_elem_of_lookup_2.
  - exact (He : queueOf pubSubRedisEvent d !! j = Some e).
  - exact (He : queueOf pubSubNativeEvent d !! j = Some e).
Qed.

(** No caller sleeps for nothing: whoever sleeps on a channel that is still open has
    nothing to take, and one caller, the only one, is reading the stream and will wake it. *)
Theorem events_no_lost_wakeup d i want c : demux_reachable d ->
  callers d !! i = Some (Sleeping want c) -> eventChanged d = Some c ->
  queueOf want d = [] /\ exists j w, callers d !! j = Some (Reading w) /\
    (forall k w', callers d !! k = Some (Reading w') -> k = j) /\
    forall value, eventChanged (finishRead j w value d) <> Some c.
Proof.
  intros [H1 H2 H3 H4 H5 H6 H7 H8 H9 H10 H11]%demux_reachable_inv Hi Hc. destruct (H4 i want c Hi) as [Hlt Hs]. destruct (Hs Hc) as [Hq Hr].
  split; [done|]. destruct (H3 Hr) as (j & w & Hj). exists j, w. split_and!; [done|intros k w' Hk; by eapply H2|].
  intros value. assert (eventChanged (signalDemultiplexedEventLocked (set_reading false d)) <> Some c) as Hsig.
  { unfold signalDemultiplexedEventLocked. cbn. rewrite Hc. cbn. intros [= ?]. lia. }
  unfold finishRead. destruct value as [value|]; [|exact Hsig]. destruct (decide _); [exact Hsig|].
  unfold queueDemultiplexedEventLocked. destruct (_ || _); [exact Hsig|]. destruct (classifyPubSubServerEvent value); exact Hsig.
Qed.

(** ** A run: one caller reads, the other sleeps, and is given the next event *)

Definition goAwayEvent : nativeServerEvent := ServerEvent 0 0 nativeOpGoAway (VMap None []) 8.

Definition sample_sleeping : demux :=
  enterLoop 2 pubSubNativeEvent (set_caller 2 (Entering pubSubNativeEvent)
    (enterLoop 1 pubSubRedisEvent (set_caller 1 (Entering pubSubRedisEvent) newDemux))).

Lemma sample_sleeping_reachable : demux_reachable sample_sleeping.
Proof.
  eapply rtc_l; [apply (D_call newDemux 1 pubSubRedisEvent); done|]. eapply rtc_l; [apply (D_enter _ 1 pubSubRedisEvent); reflexivity|].
  eapply rtc_l; [apply (D_call _ 2 pubSubNativeEvent); reflexivity|]. eapply rtc_l; [apply (D_enter _ 2 pubSubNativeEvent); vm_compute; reflexivity|].
  unfold sample_sleeping. apply rtc_refl.
Qed.

Definition sample_given : demux :=
  enterLoop 2 pubSubNativeEvent (set_caller 2 (Entering pubSubNativeEvent)
    (finishRead 1 pubSubRedisEvent (Some goAwayEvent) sample_sleeping)).

Lemma sample_given_reachable : demux_reachable sample_given.
Proof.
  eapply rtc_trans; [apply sample_sleeping_reachable|].
  eapply rtc_l; [apply (D_read _ 1 pubSubRedisEvent (Some goAwayEvent)); reflexivity|].
  eapply rtc_l; [apply (D_wake _ 2 pubSubNativeEvent 0); [reflexivity|discriminate]|].
  eapply rtc_l; [apply (D_enter _ 2 pubSubNativeEvent); vm_compute; reflexivity|].
  unfold sample_given. apply rtc_refl.
Qed.

Lemma events_in_order_witness :
  callers sample_given !! 2%nat = Some (Returned pubSubNativeEvent (Some goAwayEvent)) /\
  classifyPubSubServerEvent goAwayEvent = pubSubNativeEvent /\ goAwayEvent ∈ given sample_given.
Proof.
  destruct (events_in_order sample_given sample_given_reachable) as (_ & H & _). split; [reflexivity|]. apply (H 2%nat). reflexivity.
Defined.

Lemma events_no_lost_wakeup_witness : queueOf pubSubNativeEvent sample_sleeping = [] /\ exists j w, callers sample_sleeping !! j = Some (Reading w).
Proof.
  destruct (events_no_lost_wakeup sample_sleeping 2 pubSubNativeEvent 0 sample_sleeping_reachable eq_refl eq_refl) as (H & j & w & Hj & _).
  split; [exact H|]. exists j, w. exact Hj.
Defined.
